(* ===== verification/_CoqProject ===== *)
-Q . S2P
Prelude.v
Bytes.v
Text.v
WireFormat.v
Crc32c.v
Compression.v
RecordCursor.v
RecordInterface.v
Event.v
Completeness.v
TraceData.v
PayloadReader.v
EventCodec.v
StatisticsCodec.v
DictionaryCodec.v
MemoryCodec.v
Chunks.v
TraceReader.v
TraceWriter.v
TraceFile.v
TraceRoundTrip.v
TraceReaderSafety.v
TraceReaderTheorems.v
OrderedMap.v
IntervalSet.v
GenerationTracker.v
TrackerInvariant.v
TrackerTheorems.v
TrackerCalls.v
MpscQueue.v
MpscInvariant.v
MpscSchedules.v
MpscTheorems.v
IpcProtocol.v
IpcFormats.v
IpcTheorems.v
TraceTime.v
ModuleGlob.v
AnalysisFilter.v
EventStream.v
StreamContract.v
StreamInvariant.v
StreamChunks.v
StreamTheorems.v
FilteredEvents.v
HookRegistry.v
StreamExamples.v
Outstanding.v
OutstandingTheorems.v
Stacks.v
StacksTheorems.v
HookGuard.v
ReplacementGate.v
GateInvariant.v
GateTheorems.v
GateLiveness.v
MemoryAnalysis.v
MemoryTheorems.v
Utf8.v
JsonText.v
JsonEmitter.v
Presentation.v
JsonWriter.v
JsonDocuments.v
JsonTheorems.v
JsonReports.v
RawEvents.v
StackDictionary.v
VmModel.v
VmSpace.v
VmTracker.v
VmSimulation.v
VmPlans.v
VmCreate.v
VmRemap.v
VmTheorems.v
CaptureWriter.v
CaptureFinalize.v
CaptureTheorems.v
CaptureEnd.v
