(* ===== verification/Prelude.v ===== *)
(** * Noleax: verification development

    Noleax records the memory events of a process and analyzes them later.  An
    agent inside the target process hooks its allocation functions, captures the
    events into a trace file, and a controller drives it over a small protocol;
    the analyzer reads the trace and reports what was allocated, what was not
    released, and by whom.  The development models the code between the hooks and
    the reports: what an event is, how it gets into a trace file and out again,
    and what the analyses make of it.

    ** The parts, from the hooks to the reports

    - Calls of the hooks.  HookGuard.v is src/agent/hook_guard.cpp: how a thread knows
      that it is inside a hook.  ReplacementGate.v is
      src/include/noleax/agent/replacement_lifecycle.hpp: the gate in front of the
      replacements, the drain of the calls inside, the stop of recording.
      GateInvariant.v, GateTheorems.v and GateLiveness.v prove it.  HookRegistry.v has
      the tables of hooked functions
      (src/include/noleax/agent/{linux,windows}/hook_registry.hpp).
    - From the hooked threads to the writer thread.  MpscQueue.v is
      src/include/noleax/agent/bounded_mpsc_queue.hpp; MpscInvariant.v, MpscSchedules.v
      and MpscTheorems.v prove it.
    - The writer thread of the Linux agent, src/agent/linux/trace_writer.cpp.
      RawEvents.v is what the hooks queue (heap_event.hpp, stack_capture.hpp,
      module_tracker.hpp) with the checks of the writer.  StackDictionary.v is
      src/agent/windows/stack_dictionary.cpp, which both platforms compile.  VmModel.v
      is the model the writer keeps of the address space to turn mmap, munmap and
      mremap into records; VmSpace.v, VmTracker.v, VmSimulation.v, VmPlans.v,
      VmCreate.v, VmRemap.v and VmTheorems.v relate it to the tracker of the analyzer.
      CaptureWriter.v has the members of [LinuxTraceWriter::Implementation] and the way
      of an event into a chunk, CaptureFinalize.v the metadata, the samples, the loop of
      the thread and both ends of a trace; CaptureTheorems.v and CaptureEnd.v prove them.
    - The agent and its controller.  IpcProtocol.v is src/src/ipc/protocol.cpp, with
      IpcFormats.v (what each reader accepts) and IpcTheorems.v.
    - The data of a trace.  Event.v, Completeness.v and TraceData.v are event.hpp,
      completeness.hpp, module.hpp, stack.hpp, custom_hook.hpp and
      memory_snapshot.hpp of src/include/noleax/trace with their .cpp files under
      src/src/trace: the records and their validity rules.
    - The bytes of a trace, src/src/trace.  WireFormat.v is wire_format.cpp, with Crc32c.v;
      EventCodec.v, StatisticsCodec.v, DictionaryCodec.v and MemoryCodec.v are
      record_codec.cpp over the readers of PayloadReader.v; RecordCursor.v is the
      record iterator; Chunks.v has the theorems per chunk type, proved once from
      the class [RecordCodec] of RecordInterface.v that every record instantiates.
      TraceReader.v and TraceWriter.v are trace_reader.cpp and trace_writer.cpp;
      TraceFile.v, TraceRoundTrip.v, TraceReaderSafety.v and TraceReaderTheorems.v
      put them together.
    - Live generations.  OrderedMap.v is std::map with its iterators, IntervalSet.v is
      src/include/noleax/trace/interval_set.hpp, GenerationTracker.v is
      src/src/analyzer/generation_tracker.cpp, proved by TrackerInvariant.v,
      TrackerTheorems.v and TrackerCalls.v.
    - The analyses, src/src/analyzer.  TraceTime.v is time.cpp and window.cpp, ModuleGlob.v and
      AnalysisFilter.v are filter.cpp, EventStream.v is event_stream.cpp, on which
      everything else is built: StreamContract.v states what its callbacks may be
      told and runs a client on them, StreamInvariant.v, StreamChunks.v and
      StreamTheorems.v prove it, StreamExamples.v analyzes a small trace.  The clients are FilteredEvents.v
      (filter.cpp), Outstanding.v (outstanding.cpp), Stacks.v (stacks.cpp) and
      MemoryAnalysis.v (memory.cpp), each with its ...Theorems.v.
    - The reports.  Utf8.v is utf8.cpp, Presentation.v what the report writers share,
      JsonWriter.v is json.cpp over the emitter of JsonEmitter.v.  JsonText.v is
      RFC 8259 apart from any code; JsonDocuments.v says which document each report
      is, and JsonTheorems.v and JsonReports.v that the writers print it.

    Prelude.v (exceptions, words, lists), Bytes.v and Text.v are shared by all files,
    Compression.v by the reader and the writer of a trace.  A theorem with hypotheses is
    followed, in its file or in one that requires it, by a lemma named after it,
    [..._witness], which applies it at a concrete input where they hold together.

    ** How the code is modelled

    - Integers are [Z]; a word that the source computes with wraps explicitly
      ([u64], [u32] of this file), and enumerations that a decoder stores before it
      checks them are their underlying integers.  Bytes are [Strings.Byte.byte].
    - An exception is a value of [exn], its class and text.  Functions that only
      return or throw are in [result]; methods that change members before they may
      throw are in [proc], whose exceptions keep the members reached so far.
    - std::map is OrderedMap.v; an unordered_map is a gmap, and where the source
      iterates over one the order is shown not to matter.
    - A std::function a caller passes is modelled by the sequence of calls made to it;
      a client is then run on those calls, and its first exception ends the run.
    - Streams are the bytes with what happens once they are exhausted, or once the
      disk is full: every theorem on files holds wherever the stream fails.
    - A loop of the source without an evident bound takes fuel, and running out of it
      is an outcome of its own ([OutOfFuel], or [None]).  The fuel given is the length
      of what the loop consumes, plus one, and theorems say that it is enough
      ([read_trace_total], [record_cursor_exact], [module_glob_exact],
      [event_stream_contract]).
    - Concurrency (MpscQueue.v, ReplacementGate.v): a call is a sequence of steps, each
      with at most one access to shared memory, and a schedule says which thread takes
      the next one.  The memory is sequentially consistent: the ordering that the acquire
      and release accesses are there for is assumed; every race between threads that is
      left is in the model.  A theorem for all schedules covers weak compare-exchange
      failures, spurious wakes and timeouts, which the schedule decides.  Sequence
      counters wrap at 64 bits; a schedule shorter than 2^32 steps is assumed where a
      counter of 32 bits must not come round to the same value.
    - Parameters: LZ4 and Zstandard (the class [CompressionLibrary], with the laws
      their documentation states and an instance that stores), the thread-local
      storage of the hook guard, the symbol resolvers that callers of the analyses
      pass, and the clock.
    - What the writer thread takes from outside is an argument of its definitions: the
      module events a poll finds, the raw events the queue holds, the drops both report,
      the samples and the answers of the clock, for each turn of its loop, and what the
      counter source answers at the orderly end and after a failure.  The hooks promise
      counters that agree only while no hooked call runs: [capture_completes] assumes it of
      the answer at the orderly end, [failed_capture_ends] assumes nothing of it.  The
      former also assumes that periodic samples follow a flush, or that the file limit is
      never reached (example [sample_at_limit_reverses_drops]).  Injected test
      faults, the live telemetry, locks and waits, and opening, closing and renaming the
      output are left out.

    ** What the theorems show

    - Files: [trace_crash_consistent], [trace_writer_accounting], [read_trace_total],
      [cut_trace_reads_prefix], [event_chunk_roundtrip] and the other round trips.
    - Live generations: [tracker_observe_safe], [tracker_callbacks_complete],
      [tracker_ranged_release], [tracker_vm_allocate], [tracker_heap_event],
      [interval_set_refines_map].
    - Analyses: [event_stream_contract] and [event_stream_accounting], then
      [outstanding_report], [event_stacks_exact], [leak_stacks_exact],
      [filtered_events_exact], [memory_snapshots]; the arithmetic of times
      ([trace_time_floor_exact]).
    - Reports: [json_reports_exact] and [json_events_exact], from the bytes of the
      trace to the text of the report.
    - Concurrency: [mpsc_delivery], [mpsc_drop_only_when_full], [gate_shut],
      [recording_quiet], [gate_no_lost_wakeup], the last three for schedules of fewer than
      2^32 steps.
    - Protocol: [protocol_frame_roundtrip], [protocol_start_capture].
    - Capture: [capture_completes] and [failed_capture_ends], how the file of a capture
      ends; [vm_plans_refine_tracker] and [vm_call_effect], the records of the virtual
      memory calls; [stack_dictionary_refines_map].

    ** Not modelled

    - The console and CSV reports (src/src/analyzer/console.cpp, csv.cpp): further
      presentations of the results the JSON reports print.
    - Symbols and metadata (symbolizer.cpp, elf_image.cpp, symbol_listing.cpp,
      trace_metadata.cpp): files of the analyzing machine in external formats; what they
      return is a parameter of the reports.
    - Settings (src/src/config, src/src/cli): read by libraries outside the repository,
      then validated field by field.
    - Controllers, transports, hooks and runtimes (src/src/controller, src/src/ipc/linux
      and windows, the hooks and agent_runtime.cpp under src/agent, hook_backend.cpp and
      patch_rendezvous.cpp): operating system calls, patched machine code, suspended
      threads.  The protocol, the gate, the guard, the queue and the registry between
      them are modelled.
    - The Windows writer (src/agent/windows/rtl_allocate_heap_trace_writer.cpp): the
      counterpart of the Linux writer, which is modelled.
    - The application (src/apps), tests, examples, scripts and vendored code.
*)

From Stdlib Require Export ZArith Lia Sorted.
From Stdlib Require Export Strings.Byte.
From stdpp Require Export prelude strings list gmap fin_maps sorting.

#[global] Open Scope Z_scope.

(** ** Exceptions

    Every exception class the modelled code throws.  An exception value is its
    class together with the text of [what()]. *)

Inductive exn_class : Set :=
  | WireFormatError
  | EventValidationError
  | CompletenessValidationError
  | ModuleValidationError
  | StackValidationError
  | CustomHookValidationError
  | MemorySnapshotValidationError
  | RecordCodecError
  | TraceReadError
  | GenerationStateError
  | InvalidArgument
  | ValueParseError
  | ProtocolError
  | TraceTimeError
  | AnalysisFilterError
  | OutstandingAnalysisError
  | StacksAnalysisError
  | TraceAnalysisError
  | JsonFormatError
  | CsvFormatError
  | ConsoleFormatError
  | SymbolListingError
  | ConfigError
  | RuntimeError                 (* std::runtime_error *)
  | OverflowError                (* std::overflow_error *)
  | LogicError                   (* std::logic_error *)
  | DanglingReference            (* no exception: what the source may not do *).

#[global] Instance exn_class_eq_dec : EqDecision exn_class.
Proof. solve_decision. Defined.

Record exn : Set := Exn { exn_kind : exn_class; what : string }.

#[global] Instance exn_eq_dec : EqDecision exn.
Proof. solve_decision. Defined.

Inductive result (E A : Type) : Type :=
  | Ok (a : A)
  | Throw (e : E).
Arguments Ok {E A} a.
Arguments Throw {E A} e.

#[global] Instance result_ret {E} : MRet (result E) := λ A a, Ok a.
#[global] Instance result_bind {E} : MBind (result E) := λ A B f m,
  match m with Ok a => f a | Throw e => Throw e end.
#[global] Instance result_fmap {E} : FMap (result E) := λ A B f m,
  match m with Ok a => Ok (f a) | Throw e => Throw e end.

(** [throw new C{msg}] *)
Definition throw {A} (c : exn_class) (msg : string) : result exn A :=
  Throw (Exn c msg).

(** [if (b) throw C{msg};] *)
Definition throw_if (b : bool) (c : exn_class) (msg : string) : result exn unit :=
  if b then throw c msg else Ok tt.

(** [try { m } catch (const C& error) { throw D{prefix + error.what()}; }] *)
Definition rethrow_as {A} (c d : exn_class) (pfx : string) (m : result exn A)
    : result exn A :=
  match m with
  | Ok a => Ok a
  | Throw e => if decide (exn_kind e = c) then throw d (pfx +:+ what e) else Throw e
  end.

Definition is_ok {E A} (m : result E A) : bool :=
  match m with Ok _ => true | Throw _ => false end.

(** ** Machine integers

    A w-bit unsigned integer is a [Z] in the range of its width. *)

Definition u8 (z : Z) : Prop := 0 ≤ z < 2 ^ 8.
Definition u16 (z : Z) : Prop := 0 ≤ z < 2 ^ 16.
Definition u32 (z : Z) : Prop := 0 ≤ z < 2 ^ 32.
Definition u64 (z : Z) : Prop := 0 ≤ z < 2 ^ 64.
Definition i32 (z : Z) : Prop := - 2 ^ 31 ≤ z < 2 ^ 31.
Definition i64 (z : Z) : Prop := - 2 ^ 63 ≤ z < 2 ^ 63.

Definition u8_max : Z := 2 ^ 8 - 1.
Definition u16_max : Z := 2 ^ 16 - 1.
Definition u32_max : Z := 2 ^ 32 - 1.
Definition u64_max : Z := 2 ^ 64 - 1.

(** [static_cast<std::uint32_t>(z)] and [static_cast<std::uint64_t>(z)]; also
    the result of unsigned arithmetic that may wrap. *)
Definition wrap8 (z : Z) : Z := z mod 2 ^ 8.
Definition wrap32 (z : Z) : Z := z mod 2 ^ 32.
Definition wrap64 (z : Z) : Z := z mod 2 ^ 64.

(** [std::bit_cast] from an unsigned to a signed integer of the same width. *)
Definition signed32 (z : Z) : Z := if z <? 2 ^ 31 then z else z - 2 ^ 32.
Definition signed64 (z : Z) : Z := if z <? 2 ^ 63 then z else z - 2 ^ 64.

Ltac unfold_int :=
  unfold u8, u16, u32, u64, i32, i64, u8_max, u16_max, u32_max, u64_max,
    wrap8, wrap32, wrap64, signed32, signed64 in *.

(** [word] closes arithmetic goals about machine integers. *)
Ltac word := unfold_int; lia.

#[global] Instance u8_dec z : Decision (u8 z).
Proof. unfold u8; apply _. Defined.
#[global] Instance u16_dec z : Decision (u16 z).
Proof. unfold u16; apply _. Defined.
#[global] Instance u32_dec z : Decision (u32 z).
Proof. unfold u32; apply _. Defined.
#[global] Instance u64_dec z : Decision (u64 z).
Proof. unfold u64; apply _. Defined.
#[global] Instance i32_dec z : Decision (i32 z).
Proof. unfold i32; apply _. Defined.
#[global] Instance i64_dec z : Decision (i64 z).
Proof. unfold i64; apply _. Defined.

Lemma wrap32_small z : u32 z → wrap32 z = z.
Proof. intros. apply Z.mod_small. word. Qed.
Lemma wrap64_small z : u64 z → wrap64 z = z.
Proof. intros. apply Z.mod_small. word. Qed.
Lemma wrap32_u32 z : u32 (wrap32 z).
Proof. apply Z.mod_pos_bound. lia. Qed.
Lemma wrap64_u64 z : u64 (wrap64 z).
Proof. apply Z.mod_pos_bound. lia. Qed.

Lemma signed32_wrap32 z : i32 z → signed32 (wrap32 z) = z.
Proof.
  intros Hz. unfold_int. destruct (decide (0 ≤ z)).
  - rewrite Z.mod_small by lia. case_match eqn:E; lia.
  - rewrite <- (Z.mod_unique z (2 ^ 32) (-1) (z + 2 ^ 32)) by lia.
    case_match eqn:E; lia.
Qed.

Lemma wrap32_signed32 z : u32 z → wrap32 (signed32 z) = z.
Proof.
  intros Hz. unfold_int. case_match eqn:E; [apply Z.mod_small; lia|].
  symmetry. apply (Z.mod_unique _ _ (-1)); lia.
Qed.

Lemma signed32_i32 z : u32 z → i32 (signed32 z).
Proof. intros. unfold_int. case_match; lia. Qed.

Lemma signed64_wrap64 z : i64 z → signed64 (wrap64 z) = z.
Proof.
  intros Hz. unfold_int. destruct (decide (0 ≤ z)).
  - rewrite Z.mod_small by lia. case_match eqn:E; lia.
  - rewrite <- (Z.mod_unique z (2 ^ 64) (-1) (z + 2 ^ 64)) by lia.
    case_match eqn:E; lia.
Qed.

Lemma wrap64_signed64 z : u64 z → wrap64 (signed64 z) = z.
Proof.
  intros Hz. unfold_int. case_match eqn:E; [apply Z.mod_small; lia|].
  symmetry. apply (Z.mod_unique _ _ (-1)); lia.
Qed.

Lemma signed64_i64 z : u64 z → i64 (signed64 z).
Proof. intros. unfold_int. case_match; lia. Qed.

(** ** Inverting successful computations *)

Section result_lemmas.
Context {E A B : Type}.
Implicit Types (m : result E A) (f : A → result E B).

Lemma bind_ok m f b : m ≫= f = Ok b ↔ ∃ a, m = Ok a ∧ f a = Ok b.
Proof. destruct m; naive_solver. Qed.

Lemma bind_throw m f e :
  m ≫= f = Throw e ↔ m = Throw e ∨ ∃ a, m = Ok a ∧ f a = Throw e.
Proof. destruct m; naive_solver. Qed.

Lemma is_ok_true m : is_ok m = true ↔ ∃ a, m = Ok a.
Proof. destruct m; naive_solver. Qed.
End result_lemmas.

Lemma throw_if_ok b c m u : throw_if b c m = Ok u ↔ b = false.
Proof. destruct b, u; unfold throw_if, throw; naive_solver. Qed.

Lemma throw_if_throw b c m e : throw_if b c m = Throw e ↔ b = true ∧ e = Exn c m.
Proof. destruct b; unfold throw_if, throw; naive_solver. Qed.

Lemma rethrow_as_ok {A} c d pfx (m : result exn A) a :
  rethrow_as c d pfx m = Ok a ↔ m = Ok a.
Proof. unfold rethrow_as. destruct m; [done|]. case_decide; unfold throw; naive_solver. Qed.

(** [inv_ok] splits every hypothesis [m = Ok a] along its binds and checks. *)
Ltac inv_ok_step :=
  match goal with
  | H : mret _ = Ok _ |- _ => unfold mret, result_ret in H
  | H : Ok _ = Ok _ |- _ => injection H as H
  | H : Throw _ = Ok _ |- _ => discriminate H
  | H : throw _ _ = Ok _ |- _ => discriminate H
  | H : _ ≫= _ = Ok _ |- _ =>
      let a := fresh "a" in let E := fresh "E" in
      apply bind_ok in H as (a & E & H)
  | H : throw_if _ _ _ = Ok ?u |- _ => apply throw_if_ok in H
  | H : rethrow_as _ _ _ _ = Ok _ |- _ => apply rethrow_as_ok in H
  | u : unit |- _ => destruct u
  | H : tt = tt |- _ => clear H
  end.
Ltac inv_ok := repeat inv_ok_step.

(** [bool_facts] turns boolean tests of the source into propositions. *)
Create Rewrite HintDb bool_facts.
#[export] Hint Rewrite andb_true_iff andb_false_iff orb_true_iff orb_false_iff
  negb_true_iff negb_false_iff Z.eqb_eq Z.eqb_neq Z.ltb_lt Z.ltb_ge Z.leb_le Z.leb_gt
  eqb_true_iff eqb_false_iff bool_decide_eq_true bool_decide_eq_false : bool_facts.

Ltac bool_facts := autorewrite with bool_facts in *.

(** [enum_tests] evaluates the equality tests between enumerators. *)
Ltac enum_tests :=
  repeat match goal with
  | |- context [bool_decide (?a = ?b)] =>
      first [ rewrite (bool_decide_eq_true_2 (a = b)) by reflexivity
            | rewrite (bool_decide_eq_false_2 (a = b)) by discriminate ]
  | H : context [bool_decide (?a = ?b)] |- _ =>
      first [ rewrite (bool_decide_eq_true_2 (a = b)) in H by reflexivity
            | rewrite (bool_decide_eq_false_2 (a = b)) in H by discriminate ]
  end; cbn in *.

(** [size_t] of a container. *)
Definition size_of {A} (l : list A) : Z := Z.of_nat (length l).

Lemma size_of_app {A} (l k : list A) : size_of (l ++ k) = size_of l + size_of k.
Proof. unfold size_of. rewrite length_app. lia. Qed.
Lemma size_of_nonneg {A} (l : list A) : 0 ≤ size_of l.
Proof. unfold size_of. lia. Qed.

(** ** Updating a member

    [r <| f := v |>] is the record [r] with the member [f] set to [v].  A record
    type opts in with an instance of [Members], its members listed in order. *)

Class Members (R : Type) : Type := rebuild : R → R.
Class Update {R T : Type} (field : R → T) : Type := update : (T → T) → R → R.
Arguments update {R T} field {_} f r / : assert.

Ltac derive_update field :=
  lazymatch type of field with
  | ?R → ?T =>
      let f := fresh "f" in
      let r := fresh "r" in
      unfold Update; intros f r;
      let copy := constr:(@rebuild R _ r) in
      let copy := eval cbv [rebuild] in copy in
      let copy := eval hnf in copy in
      lazymatch eval pattern (field r) in copy with
      | ?build _ => let updated := eval cbv beta in (build (f (field r))) in exact updated
      end
  end.
#[export] Hint Extern 1 (Update ?field) => derive_update field : typeclass_instances.

Notation "r <| field := v |>" := (update field (λ _, v) r)
  (at level 1, field at next level, left associativity, format "r  <| field  :=  v |>").

(** ** Stateful computations that may throw

    A throw keeps the state the computation had reached, as an exception that
    leaves a member function keeps the object's members. *)

Definition proc (S E A : Type) : Type := S → result E A * S.

#[global] Instance proc_ret {S E} : MRet (proc S E) := λ A a s, (Ok a, s).
#[global] Instance proc_bind {S E} : MBind (proc S E) := λ A B f p s,
  match p s with (Ok a, s') => f a s' | (Throw e, s') => (Throw e, s') end.

#[global] Instance proc_fmap {S E} : FMap (proc S E) := λ A B f p s,
  match p s with (Ok a, s') => (Ok (f a), s') | (Throw e, s') => (Throw e, s') end.

Definition get_state {S E} : proc S E S := λ s, (Ok s, s).
Definition modify {S E} (f : S → S) : proc S E unit := λ s, (Ok tt, f s).
Definition pure {S E A} (m : result E A) : proc S E A := λ s, (m, s).

Lemma proc_bind_run {S E A B} (p : proc S E A) (f : A → proc S E B) s a s' :
  p s = (Ok a, s') → (p ≫= f) s = f a s'.
Proof. intros H. unfold mbind, proc_bind. by rewrite H. Qed.

Lemma proc_throw_run {S E A B} (p : proc S E A) (f : A → proc S E B) s e s' :
  p s = (Throw e, s') → (p ≫= f) s = (Throw e, s').
Proof. intros H. unfold mbind, proc_bind. by rewrite H. Qed.

Lemma proc_bind_assoc {S E A B C} (p : proc S E A) (f : A → proc S E B) (g : B → proc S E C) s :
  ((p ≫= f) ≫= g) s = (p ≫= (λ a, f a ≫= g)) s.
Proof. unfold mbind, proc_bind. by destruct (p s) as [[a|] s1]. Qed.

Lemma proc_bind_ok {S E A B} (p : proc S E A) (f : A → proc S E B) s b s' :
  (p ≫= f) s = (Ok b, s') ↔ ∃ a s1, p s = (Ok a, s1) ∧ f a s1 = (Ok b, s').
Proof.
  unfold mbind, proc_bind. destruct (p s) as [[a|e] s1]; split.
  - intros H. eauto.
  - by intros (a' & s2 & [= <- <-] & H).
  - intros [=].
  - by intros (a' & s2 & [=] & H).
Qed.

Lemma proc_bind_throw {S E A B} (p : proc S E A) (f : A → proc S E B) s e s' :
  (p ≫= f) s = (Throw e, s') ↔
  p s = (Throw e, s') ∨ ∃ a s1, p s = (Ok a, s1) ∧ f a s1 = (Throw e, s').
Proof.
  unfold mbind, proc_bind. destruct (p s) as [[a|e'] s1]; split; try naive_solver.
Qed.

Lemma pure_bind {S E A B} (m : result E A) (f : A → proc S E B) s :
  (pure m ≫= f) s = match m with Ok a => f a s | Throw e => (Throw e, s) end.
Proof. by destruct m. Qed.

(** ** Weakest preconditions

    [wp p s P Q]: run from [s], [p] either returns a value and a state that
    satisfy [P] or throws an exception and leaves a state that satisfy [Q]. *)

Definition wp {S E A} (p : proc S E A) (s : S) (P : A → S → Prop) (Q : E → S → Prop) : Prop :=
  match p s with (Ok a, s') => P a s' | (Throw e, s') => Q e s' end.

Section wp.
Context {S E : Type}.
Implicit Types (s : S) (Q : E → S → Prop).

Lemma wp_bind {A B} (p : proc S E A) (f : A → proc S E B) s P Q :
  wp p s (λ a s', wp (f a) s' P Q) Q → wp (p ≫= f) s P Q.
Proof. unfold wp, mbind, proc_bind. by destruct (p s) as [[a|e] s']. Qed.

Lemma wp_fmap {A B} (f : A → B) (p : proc S E A) s P Q :
  wp p s (λ a s', P (f a) s') Q → wp (f <$> p) s P Q.
Proof. unfold wp, fmap, proc_fmap. by destruct (p s) as [[a|e] s']. Qed.

Lemma wp_mono {A} (p : proc S E A) s (P P' : A → S → Prop) Q Q' :
  wp p s P Q → (∀ a s', P a s' → P' a s') → (∀ e s', Q e s' → Q' e s') → wp p s P' Q'.
Proof. unfold wp. destruct (p s) as [[a|e] s']; auto. Qed.

Lemma wp_ret {A} (a : A) s (P : A → S → Prop) Q : P a s → wp (mret a) s P Q.
Proof. done. Qed.
Lemma wp_get s (P : S → S → Prop) Q : P s s → wp get_state s P Q.
Proof. done. Qed.
Lemma wp_modify f s (P : unit → S → Prop) Q : P tt (f s) → wp (modify f) s P Q.
Proof. done. Qed.
Lemma wp_pure {A} (m : result E A) s (P : A → S → Prop) Q :
  (∀ a, m = Ok a → P a s) → (∀ e, m = Throw e → Q e s) → wp (pure m) s P Q.
Proof. destruct m; unfold wp; cbn; auto. Qed.
End wp.

(** [wp_step] takes one step of a computation under [wp]. *)
Ltac wp_step :=
  lazymatch goal with
  | |- wp (_ ≫= _) _ _ _ => apply wp_bind
  | |- wp (_ <$> _) _ _ _ => apply wp_fmap
  | |- wp get_state _ _ _ => apply wp_get
  | |- wp (modify _) _ _ _ => apply wp_modify
  | |- wp (mret _) _ _ _ => apply wp_ret
  | |- wp (if ?b then _ else _) _ _ _ => destruct b eqn:?
  | |- wp (match ?o with Some _ => _ | None => _ end) _ _ _ => destruct o eqn:?
  end; cbv beta.
