(* ===== verification/Bytes.v ===== *)
(** * Bytes

    [std::byte] values, byte buffers ([std::vector<std::byte>],
    [std::span<const std::byte>] and [std::string] contents), the little-endian
    append functions shared by src/src/trace/wire_format.cpp and
    src/src/trace/record_codec.cpp, and the little-endian readers of
    src/src/trace/trace_reader.cpp.  The append functions and readers follow the
    loops of the source; [le_bytes] and [le_value] are the specification the
    lemmas relate them to. *)

From S2P Require Import Prelude.

Abbreviation bytes := (list byte).

#[global] Instance byte_eq_dec : EqDecision byte := Byte.byte_eq_dec.

(** ** A byte and its value *)

Definition byte_val (b : byte) : Z := Z.of_N (Byte.to_N b).

(** [static_cast<std::byte>(z)] *)
Definition byte_of (z : Z) : byte := default x00 (Byte.of_N (Z.to_N (z mod 256))).

Lemma byte_val_range b : 0 ≤ byte_val b < 256.
Proof. unfold byte_val. pose proof (Byte.to_N_bounded b). lia. Qed.

Lemma byte_val_of z : byte_val (byte_of z) = z mod 256.
Proof.
  unfold byte_val, byte_of. pose proof (Z.mod_pos_bound z 256 ltac:(lia)).
  destruct (Byte.of_N (Z.to_N (z mod 256))) as [b|] eqn:E; simpl.
  - apply Byte.to_of_N in E. rewrite E. lia.
  - apply Byte.of_N_None_iff in E. lia.
Qed.

Lemma byte_of_val b : byte_of (byte_val b) = b.
Proof.
  unfold byte_of, byte_val.
  pose proof (byte_val_range b). unfold byte_val in *.
  rewrite Z.mod_small by lia. rewrite N2Z.id, Byte.of_to_N. done.
Qed.

Lemma byte_val_inj b1 b2 : byte_val b1 = byte_val b2 → b1 = b2.
Proof. intros E. rewrite <- (byte_of_val b1), E. apply byte_of_val. Qed.

Lemma byte_of_mod z : byte_of (z mod 256) = byte_of z.
Proof. unfold byte_of. by rewrite Zmod_mod. Qed.

Lemma byte_val_0 b : byte_val b = 0 ↔ b = x00.
Proof. split; [intros E; by apply byte_val_inj|by intros ->]. Qed.

(** ** Little-endian specification *)

Fixpoint le_bytes (n : nat) (z : Z) : bytes :=
  match n with
  | O => []
  | S n => byte_of z :: le_bytes n (z / 256)
  end.

Fixpoint le_value (bs : bytes) : Z :=
  match bs with
  | [] => 0
  | b :: bs => byte_val b + 256 * le_value bs
  end.

Lemma length_le_bytes n z : length (le_bytes n z) = n.
Proof. revert z; induction n as [|n IH]; intros z; simpl; [done|by rewrite IH]. Qed.

Lemma le_value_range bs : 0 ≤ le_value bs < 256 ^ Z.of_nat (length bs).
Proof.
  induction bs as [|b bs IH]; cbn [le_value length]; [lia|].
  pose proof (byte_val_range b).
  rewrite Nat2Z.inj_succ, Z.pow_succ_r by lia. lia.
Qed.

Lemma le_value_bytes n z : le_value (le_bytes n z) = z mod 256 ^ Z.of_nat n.
Proof.
  revert z; induction n as [|n IH]; intros z; cbn [le_value le_bytes].
  - by rewrite Z.mod_1_r.
  - rewrite IH, byte_val_of, Nat2Z.inj_succ, Z.pow_succ_r by lia.
    rewrite (Z.rem_mul_r z 256); lia.
Qed.

Lemma le_bytes_value bs n : length bs = n → le_bytes n (le_value bs) = bs.
Proof.
  intros <-. induction bs as [|b bs IH]; cbn [le_value le_bytes length]; [done|].
  pose proof (byte_val_range b).
  rewrite (Z.add_comm (byte_val b)), (Z.mul_comm 256).
  rewrite Z.div_add_l, (Z.div_small (byte_val b)), Z.add_0_r, IH by lia.
  f_equal. rewrite <- byte_of_mod, Z.add_comm, Z_mod_plus_full, byte_of_mod.
  apply byte_of_val.
Qed.

Lemma le_bytes_inj n z1 z2 :
  0 ≤ z1 < 256 ^ Z.of_nat n → 0 ≤ z2 < 256 ^ Z.of_nat n →
  le_bytes n z1 = le_bytes n z2 → z1 = z2.
Proof.
  intros H1 H2 E. apply (f_equal le_value) in E.
  rewrite !le_value_bytes, !Z.mod_small in E by lia. done.
Qed.

(** ** Append functions (record_codec.cpp:51-85, wire_format.cpp:62-81) *)

Definition append_u8 (output : bytes) (value : Z) : bytes := output ++ [byte_of value].

Definition append_u16 (output : bytes) (value : Z) : bytes :=
  let output := append_u8 output (Z.land value 0xFF) in
  append_u8 output (Z.land (Z.shiftr value 8) 0xFF).

(** [for (shift = 0; shift < 32; shift += 8) append_u8(output, (value >> shift) & 0xFF)] *)
Definition append_u32 (output : bytes) (value : Z) : bytes :=
  foldl (λ output shift, append_u8 output (Z.land (Z.shiftr value shift) 0xFF))
    output [0; 8; 16; 24].

Definition append_u64 (output : bytes) (value : Z) : bytes :=
  foldl (λ output shift, append_u8 output (Z.land (Z.shiftr value shift) 0xFF))
    output [0; 8; 16; 24; 32; 40; 48; 56].

Definition append_i32 (output : bytes) (value : Z) : bytes := append_u32 output (wrap32 value).

Definition append_zeros (output : bytes) (count : nat) : bytes := output ++ replicate count x00.

(** A [std::string] is its bytes. *)
Definition append_string_bytes (output value : bytes) : bytes := output ++ value.

Definition zeros (n : nat) : bytes := replicate n x00.

Lemma byte_of_land_255 z : byte_of (Z.land z 0xFF) = byte_of z.
Proof. change 255 with (Z.ones 8). rewrite Z.land_ones by lia. apply byte_of_mod. Qed.

Lemma append_u8_spec o v : append_u8 o v = o ++ le_bytes 1 v.
Proof. done. Qed.

Lemma append_u16_spec o v : append_u16 o v = o ++ le_bytes 2 v.
Proof.
  unfold append_u16, append_u8. cbn [le_bytes].
  rewrite !byte_of_land_255, <- app_assoc, Z.shiftr_div_pow2 by lia. done.
Qed.

(** The bytes a shift loop produces are the little-endian bytes. *)
Lemma append_shifts_spec n o v (start : Z) : 0 ≤ start →
  foldl (λ output shift, append_u8 output (Z.land (Z.shiftr v shift) 0xFF))
    o ((λ i, start + 8 * Z.of_nat i) <$> seq 0 n) = o ++ le_bytes n (Z.shiftr v start).
Proof.
  revert o start; induction n as [|n IH]; intros o start Hs; [by rewrite app_nil_r|].
  rewrite <- cons_seq, fmap_cons. cbn [foldl le_bytes].
  rewrite <- fmap_S_seq, <- list_fmap_compose.
  erewrite (list_fmap_ext _ (λ i, (start + 8) + 8 * Z.of_nat i)).
  2:{ intros. simpl. lia. }
  rewrite IH by lia. unfold append_u8.
  replace (start + 8 * Z.of_nat 0) with start by lia.
  rewrite byte_of_land_255, <- app_assoc. do 2 f_equal. simpl. f_equal. f_equal.
  rewrite <- Z.shiftr_shiftr, (Z.shiftr_div_pow2 _ 8) by lia. done.
Qed.

Lemma append_u32_spec o v : append_u32 o v = o ++ le_bytes 4 v.
Proof. apply (append_shifts_spec 4 o v 0); lia. Qed.

Lemma append_u64_spec o v : append_u64 o v = o ++ le_bytes 8 v.
Proof. apply (append_shifts_spec 8 o v 0); lia. Qed.

Lemma append_i32_spec o v : append_i32 o v = o ++ le_bytes 4 (wrap32 v).
Proof. apply append_u32_spec. Qed.

Lemma append_zeros_spec o n : append_zeros o n = o ++ zeros n.
Proof. done. Qed.

Lemma append_string_bytes_spec o s : append_string_bytes o s = o ++ s.
Proof. done. Qed.

Create Rewrite HintDb append_spec.
#[export] Hint Rewrite append_u8_spec append_u16_spec append_u32_spec append_u64_spec
  append_i32_spec append_zeros_spec append_string_bytes_spec : append_spec.

(** [normalize_encoding] writes a sequence of appends as one concatenation. *)
Ltac normalize_encoding :=
  autorewrite with append_spec; rewrite <- ?app_assoc; cbn [app].

Lemma length_zeros n : length (zeros n) = n.
Proof. apply length_replicate. Qed.

Create Rewrite HintDb byte_length.
#[export] Hint Rewrite length_le_bytes length_zeros @length_app @length_nil @length_cons
  : byte_length.

(** ** Readers at an offset (trace_reader.cpp:25-47)

    The source indexes the span without a bounds check; its callers only use
    offsets inside the buffer.  The model reads [x00] outside it. *)

Definition byte_at (input : bytes) (offset : nat) : Z :=
  byte_val (default x00 (input !! offset)).

Definition read_u16 (input : bytes) (offset : nat) : Z :=
  Z.lor (byte_at input offset) (Z.shiftl (byte_at input (offset + 1)) 8).

(** [for (index = 0; index < n; ++index) value |= input[offset + index] << (index * 8)] *)
Definition read_loop (n : nat) (input : bytes) (offset : nat) : Z :=
  foldl (λ value index,
           Z.lor value (Z.shiftl (byte_at input (offset + index)) (Z.of_nat index * 8)))
    0 (seq 0 n).

Definition read_u32 (input : bytes) (offset : nat) : Z := read_loop 4 input offset.
Definition read_u64 (input : bytes) (offset : nat) : Z := read_loop 8 input offset.

Lemma lor_shift_add v b k : 0 ≤ k → 0 ≤ v < 2 ^ k → 0 ≤ b →
  Z.lor v (Z.shiftl b k) = v + b * 2 ^ k.
Proof.
  intros Hk Hv Hb. rewrite <- Z.shiftl_mul_pow2 by lia. symmetry.
  assert (Z.land v (Z.shiftl b k) = 0) as Hdisjoint.
  { apply Z.bits_inj'. intros i Hi. rewrite Z.land_spec, Z.bits_0.
    destruct (decide (i < k)); [rewrite Z.shiftl_spec_low by lia; apply andb_false_r|].
    rewrite <- (Z.mod_small v (2 ^ k)), Z.mod_pow2_bits_high by lia. done. }
  by rewrite Z.add_nocarry_lxor, <- Z.lxor_lor.
Qed.

Lemma le_value_app bs1 bs2 :
  le_value (bs1 ++ bs2) = le_value bs1 + 256 ^ Z.of_nat (length bs1) * le_value bs2.
Proof.
  induction bs1 as [|b bs1 IH]; cbn [app le_value length]; [lia|].
  rewrite IH, Nat2Z.inj_succ, Z.pow_succ_r by lia. lia.
Qed.

Lemma pow256 n : 256 ^ n = 2 ^ (n * 8).
Proof. rewrite Z.mul_comm. change 256 with (2 ^ 8). destruct (decide (0 ≤ n)).
  - by rewrite Z.pow_mul_r by lia.
  - rewrite !Z.pow_neg_r; lia.
Qed.

Lemma read_loop_spec n input offset : (offset + n ≤ length input)%nat →
  read_loop n input offset = le_value (take n (drop offset input)).
Proof.
  unfold read_loop. induction n as [|n IH]; intros Hlen; [done|].
  rewrite seq_S, foldl_app, IH by lia. cbn [foldl].
  assert (is_Some (input !! (offset + n)%nat)) as [b Hb] by (apply lookup_lt_is_Some; lia).
  rewrite (take_S_r _ _ b) by (by rewrite lookup_drop).
  rewrite le_value_app, length_take, length_drop.
  replace (n `min` (length input - offset))%nat with n by lia.
  pose proof (le_value_range (take n (drop offset input))) as Hr.
  rewrite length_take, length_drop in Hr.
  replace (n `min` (length input - offset))%nat with n in Hr by lia.
  rewrite pow256 in *. rewrite lor_shift_add.
  - unfold byte_at. simpl. rewrite Hb. simpl. lia.
  - lia.
  - done.
  - unfold byte_at. apply byte_val_range.
Qed.

Lemma read_u16_spec input offset : (offset + 2 ≤ length input)%nat →
  read_u16 input offset = le_value (take 2 (drop offset input)).
Proof.
  intros. rewrite <- read_loop_spec by lia. unfold read_u16, read_loop. cbn [seq foldl].
  rewrite Z.lor_0_l, Nat.add_0_r. change (Z.of_nat 0 * 8) with 0.
  by rewrite Z.shiftl_0_r.
Qed.

Lemma read_u32_spec input offset : (offset + 4 ≤ length input)%nat →
  read_u32 input offset = le_value (take 4 (drop offset input)).
Proof. apply read_loop_spec. Qed.

Lemma read_u64_spec input offset : (offset + 8 ≤ length input)%nat →
  read_u64 input offset = le_value (take 8 (drop offset input)).
Proof. apply read_loop_spec. Qed.

(** Reading back a little-endian field that stands at an offset. *)
Lemma take_drop_mid {A} (pre mid post : list A) n m :
  length pre = n → length mid = m → take m (drop n (pre ++ mid ++ post)) = mid.
Proof.
  intros <- <-. rewrite drop_app_length. apply take_app_length.
Qed.

Lemma le_value_le_bytes n z : 0 ≤ z < 256 ^ Z.of_nat n → le_value (le_bytes n z) = z.
Proof. intros. rewrite le_value_bytes. by apply Z.mod_small. Qed.

Lemma le_bytes_u8 z : u8 z → le_value (le_bytes 1 z) = z.
Proof. intros. apply le_value_le_bytes. unfold_int. simpl. lia. Qed.
Lemma le_bytes_u16 z : u16 z → le_value (le_bytes 2 z) = z.
Proof. intros. apply le_value_le_bytes. unfold_int. simpl. lia. Qed.
Lemma le_bytes_u32 z : u32 z → le_value (le_bytes 4 z) = z.
Proof. intros. apply le_value_le_bytes. unfold_int. simpl. lia. Qed.
Lemma le_bytes_u64 z : u64 z → le_value (le_bytes 8 z) = z.
Proof. intros. apply le_value_le_bytes. unfold_int. simpl. lia. Qed.

Lemma le_value_u n bs : length bs = n → 0 ≤ le_value bs < 2 ^ (8 * Z.of_nat n).
Proof. intros <-. rewrite (Z.mul_comm 8), <- pow256. apply le_value_range. Qed.

Lemma le_bytes_S n z : le_bytes (S n) z = byte_of z :: le_bytes n (z / 256).
Proof. done. Qed.
Lemma le_value_cons b bs : le_value (b :: bs) = byte_val b + 256 * le_value bs.
Proof. done. Qed.

#[global] Arguments le_bytes : simpl never.
#[global] Arguments le_value : simpl never.
#[global] Arguments zeros : simpl never.
#[global] Arguments append_u8 : simpl never.
#[global] Arguments append_u16 : simpl never.
#[global] Arguments append_u32 : simpl never.
#[global] Arguments append_u64 : simpl never.
#[global] Arguments append_i32 : simpl never.
#[global] Arguments append_zeros : simpl never.
#[global] Arguments append_string_bytes : simpl never.
