(* ===== verification/Text.v ===== *)
(** * Text

    Byte strings as text: literals, and the number conversions of <charconv> the
    program uses, [std::to_chars] and [std::from_chars] on 64-bit integers.  What
    one prints the other reads back. *)

From S2P Require Import Prelude Bytes.

(** A string literal. *)
Definition text (s : string) : bytes := String.list_byte_of_string s.
Definition string_of (s : bytes) : string := String.string_of_list_byte s.

(** ** Digits *)

(** '0' is 48, 'A' 65, 'a' 97. *)
Definition digit_char (d : Z) : byte := byte_of (if d <? 10 then 48 + d else 87 + d).

Definition digit_value (base : Z) (c : byte) : option Z :=
  let v := byte_val c in
  let d := if (48 <=? v) && (v <=? 57) then v - 48
           else if (97 <=? v) && (v <=? 122) then v - 87
           else if (65 <=? v) && (v <=? 90) then v - 55 else base in
  if d <? base then Some d else None.

(** The number that digits denote, the first the most significant. *)
Definition number_of (base : Z) (digits : list Z) : Z := foldl (λ n d, n * base + d) 0 digits.

(** ** [std::to_chars] *)

Fixpoint to_chars_loop (fuel : nat) (base n : Z) (acc : bytes) : bytes :=
  match fuel with
  | O => acc
  | S fuel =>
      let acc := digit_char (n mod base) :: acc in
      if n / base =? 0 then acc else to_chars_loop fuel base (n / base) acc
  end.

(** 64 digits are enough for 64 bits in any base from 2 on. *)
Definition to_chars (base n : Z) : bytes := to_chars_loop 64 base n [].

(** Decimal, signed. *)
Definition to_chars_signed (n : Z) : bytes :=
  if n <? 0 then byte_of 45 :: to_chars 10 (- n) else to_chars 10 n.

(** ** [std::from_chars] *)

Inductive errc : Set := Errc_ok | Errc_invalid_argument | Errc_result_out_of_range.

#[global] Instance errc_eq_dec : EqDecision errc.
Proof. solve_decision. Defined.

(** [value] is zero before the call, and stays so unless the call succeeds. *)
Record from_chars_result : Set := { ec : errc; value : Z; ptr : bytes }.

(** The longest run of digits, and what follows it. *)
Fixpoint digit_run (base : Z) (s : bytes) : list Z * bytes :=
  match s with
  | [] => ([], [])
  | c :: rest =>
      match digit_value base c with
      | None => ([], s)
      | Some d => let '(digits, rest) := digit_run base rest in (d :: digits, rest)
      end
  end.

Definition from_chars (base : Z) (s : bytes) : from_chars_result :=
  let '(digits, rest) := digit_run base s in
  if bool_decide (digits = []) then {| ec := Errc_invalid_argument; value := 0; ptr := s |}
  else if u64_max <? number_of base digits
  then {| ec := Errc_result_out_of_range; value := 0; ptr := rest |}
  else {| ec := Errc_ok; value := number_of base digits; ptr := rest |}.

(** Into a [std::int64_t]: a minus sign is read, a plus sign is not. *)
Definition from_chars_signed (s : bytes) : from_chars_result :=
  let '(negative, body) :=
    match s with c :: rest => if byte_val c =? 45 then (true, rest) else (false, s) | [] => (false, s) end in
  let '(digits, rest) := digit_run 10 body in
  if bool_decide (digits = []) then {| ec := Errc_invalid_argument; value := 0; ptr := s |}
  else
    let n := if (negative : bool) then - number_of 10 digits else number_of 10 digits in
    if (n <? - 2 ^ 63) || (2 ^ 63 - 1 <? n) then {| ec := Errc_result_out_of_range; value := 0; ptr := rest |}
    else {| ec := Errc_ok; value := n; ptr := rest |}.

(** ** Digits round-trip *)

Lemma digit_value_char base d : 0 ≤ d < base → base ≤ 36 → digit_value base (digit_char d) = Some d.
Proof.
  intros Hd Hb. unfold digit_value, digit_char.
  destruct (Z.ltb_spec d 10); rewrite byte_val_of, Z.mod_small by lia.
  - rewrite (proj2 (Z.leb_le 48 _)), (proj2 (Z.leb_le _ 57)) by lia. cbn [andb].
    rewrite (proj2 (Z.ltb_lt _ _)) by lia. f_equal. lia.
  - rewrite (proj2 (Z.leb_gt _ 57)) by lia. rewrite andb_false_r.
    rewrite (proj2 (Z.leb_le 97 _)), (proj2 (Z.leb_le _ 122)) by lia. cbn [andb].
    rewrite (proj2 (Z.ltb_lt _ _)) by lia. f_equal. lia.
Qed.

Lemma digit_value_range base c d : digit_value base c = Some d → 0 ≤ d < base.
Proof.
  unfold digit_value. pose proof (byte_val_range c). intros E.
  repeat case_match; bool_facts; simplify_eq; lia.
Qed.

Lemma digit_run_app base digits rest : 0 < base → base ≤ 36 → Forall (λ d, 0 ≤ d < base) digits →
  (∀ c s, rest = c :: s → digit_value base c = None) →
  digit_run base ((digit_char <$> digits) ++ rest) = (digits, rest).
Proof.
  intros Hb0 Hb Hd Hrest. induction Hd as [|d digits Hd _ IH]; cbn.
  - destruct rest as [|c s]; [done|]. cbn. by rewrite (Hrest c s).
  - by rewrite digit_value_char, IH.
Qed.

Lemma number_of_snoc base digits d : number_of base (digits ++ [d]) = number_of base digits * base + d.
Proof. unfold number_of. by rewrite foldl_app. Qed.

(** The digits of a number. *)
Lemma to_chars_spec base n : 2 ≤ base ≤ 36 → u64 n →
  ∃ digits, to_chars base n = digit_char <$> digits ∧ digits ≠ [] ∧
    Forall (λ d, 0 ≤ d < base) digits ∧ number_of base digits = n.
Proof.
  intros Hb Hn. unfold to_chars.
  assert (Hloop : ∀ fuel m acc, (0 < fuel)%nat → 0 ≤ m < 2 ^ Z.of_nat fuel →
    ∃ digits, to_chars_loop fuel base m acc = (digit_char <$> digits) ++ acc ∧ digits ≠ [] ∧
      Forall (λ d, 0 ≤ d < base) digits ∧ number_of base digits = m).
  { induction fuel as [|fuel IH]; intros m acc Hf Hm; [lia|]. cbn [to_chars_loop].
    pose proof (Z.mod_pos_bound m base ltac:(lia)) as Hmod. pose proof (Z.div_mod m base ltac:(lia)) as Hdiv.
    destruct (Z.eqb_spec (m / base) 0) as [E|E].
    - exists [m mod base]. split_and!; [done..| |unfold number_of; cbn; lia]. by apply Forall_singleton.
    - rewrite Nat2Z.inj_succ, Z.pow_succ_r in Hm by lia.
      assert (0 ≤ m / base) by (apply Z.div_pos; lia).
      assert (m / base < 2 ^ Z.of_nat fuel) by (apply Z.div_lt_upper_bound; nia).
      destruct fuel as [|fuel]; [change (2 ^ Z.of_nat 0) with 1 in *; lia|].
      destruct (IH (m / base) (digit_char (m mod base) :: acc)) as (digits & -> & Hne & Hall & Hnum); [lia|lia|].
      exists (digits ++ [m mod base]). rewrite fmap_app, <- app_assoc, number_of_snoc, Hnum.
      split_and!; [done|by destruct digits|apply Forall_app; split; [done|by apply Forall_singleton]|lia]. }
  destruct (Hloop 64%nat n [] ltac:(lia) Hn) as (digits & -> & H). exists digits. by rewrite app_nil_r.
Qed.

(** What [to_chars] prints [from_chars] reads back, up to what is not a digit. *)
Lemma from_to_chars base n rest : 2 ≤ base ≤ 36 → u64 n →
  (∀ c s, rest = c :: s → digit_value base c = None) →
  from_chars base (to_chars base n ++ rest) = {| ec := Errc_ok; value := n; ptr := rest |}.
Proof.
  intros Hb Hn Hrest. destruct (to_chars_spec base n Hb Hn) as (digits & -> & Hne & Hall & <-).
  unfold from_chars. rewrite digit_run_app by (done || lia). rewrite bool_decide_false by done.
  rewrite (proj2 (Z.ltb_ge _ _)) by word. done.
Qed.

(** No leading zero, but for zero itself. *)
Lemma to_chars_loop_head base fuel m acc : 2 ≤ base ≤ 36 → 0 < m < 2 ^ Z.of_nat fuel →
  ∃ d rest, to_chars_loop fuel base m acc = digit_char d :: rest ∧ 1 ≤ d < base.
Proof.
  intros Hb. revert m acc. induction fuel as [|fuel IH]; intros m acc Hm; [change (2 ^ Z.of_nat 0) with 1 in *; lia|].
  cbn [to_chars_loop]. pose proof (Z.mod_pos_bound m base ltac:(lia)). pose proof (Z.div_mod m base ltac:(lia)).
  destruct (Z.eqb_spec (m / base) 0) as [E|E].
  - exists (m mod base), acc. split; [done|lia].
  - rewrite Nat2Z.inj_succ, Z.pow_succ_r in Hm by lia. assert (0 ≤ m / base) by (apply Z.div_pos; lia).
    apply IH. split; [lia|apply Z.div_lt_upper_bound; nia].
Qed.

Lemma to_chars_canonical base n digits : 2 ≤ base ≤ 36 → u64 n → to_chars base n = digit_char <$> digits →
  Forall (λ d, 0 ≤ d < base) digits → match digits with 0 :: _ :: _ => False | _ => True end.
Proof.
  intros Hb Hn E Hall. destruct (decide (n = 0)) as [->|Hn0].
  - replace (to_chars base 0) with [digit_char 0] in E.
    + destruct digits as [|d [|d' digits]]; try done. by destruct d.
    + unfold to_chars. cbn [to_chars_loop]. by rewrite Z.mod_0_l, Z.div_0_l by lia.
  - destruct (to_chars_loop_head base 64 n []) as (d & rest & E' & Hd); [done|word|].
    unfold to_chars in E. rewrite E' in E. destruct digits as [|d' digits]; [done|]. injection E as E _.
    apply Forall_cons in Hall as [Hd' _].
    assert (Some d' = Some d) as [= ->].
    { rewrite <- (digit_value_char base d'), <- (digit_value_char base d), E by lia. done. }
    destruct d as [|d|d]; [lia|done|lia].
Qed.
