(* ===== verification/WireFormat.v ===== *)
(** * Wire format

    src/include/noleax/trace/wire_format.hpp and src/src/trace/wire_format.cpp: the
    file header, the chunk header, the record envelope and the CRC-32C of a
    chunk payload. *)

From S2P Require Import Prelude Bytes.

(** ** Constants and data *)

(** ["NLXTRACE"] *)
Definition kTraceMagic : bytes := [x4e; x4c; x58; x54; x52; x41; x43; x45].
Definition kTraceFormatMajor : Z := 1.
Definition kTraceFormatMinor : Z := 4.
Definition kFileHeaderSize : Z := 68.
Definition kChunkHeaderSize : Z := 56.
Definition kRecordHeaderSize : Z := 8.
Definition kLittleEndian : Z := 1.

Inductive Platform : Set :=
  | Platform_kUnknown | Platform_kWindows | Platform_kLinux | Platform_kMacos.

Inductive Architecture : Set :=
  | Architecture_kUnknown | Architecture_kX86 | Architecture_kX64 | Architecture_kArm64.

Inductive ChunkType : Set :=
  | Chunk_kMetadata | Chunk_kModule | Chunk_kStack | Chunk_kEvent
  | Chunk_kStatistics | Chunk_kEnd | Chunk_kMemory.

Inductive CompressionCodec : Set :=
  | Codec_kNone | Codec_kLz4 | Codec_kZstd.

#[global] Instance Platform_eq_dec : EqDecision Platform.
Proof. solve_decision. Defined.
#[global] Instance Architecture_eq_dec : EqDecision Architecture.
Proof. solve_decision. Defined.
#[global] Instance ChunkType_eq_dec : EqDecision ChunkType.
Proof. solve_decision. Defined.
#[global] Instance CompressionCodec_eq_dec : EqDecision CompressionCodec.
Proof. solve_decision. Defined.

(** The underlying values ([static_cast<std::uint16_t>(...)]). *)
Definition Platform_value (p : Platform) : Z :=
  match p with
  | Platform_kUnknown => 0 | Platform_kWindows => 1
  | Platform_kLinux => 2 | Platform_kMacos => 3
  end.

Definition Architecture_value (a : Architecture) : Z :=
  match a with
  | Architecture_kUnknown => 0 | Architecture_kX86 => 1
  | Architecture_kX64 => 2 | Architecture_kArm64 => 3
  end.

Definition ChunkType_value (t : ChunkType) : Z :=
  match t with
  | Chunk_kMetadata => 1 | Chunk_kModule => 2 | Chunk_kStack => 3 | Chunk_kEvent => 4
  | Chunk_kStatistics => 5 | Chunk_kEnd => 6 | Chunk_kMemory => 7
  end.

Definition CompressionCodec_value (c : CompressionCodec) : Z :=
  match c with Codec_kNone => 0 | Codec_kLz4 => 1 | Codec_kZstd => 2 end.

Record FileHeader : Set := {
  pointer_width : Z;             (* uint8 *)
  platform : Platform;
  architecture : Architecture;
  fh_flags : Z;                  (* uint32 *)
  session_id : bytes;            (* 16 bytes *)
  file_index : Z;                (* uint32 *)
  monotonic_frequency : Z;       (* uint64 *)
  monotonic_origin : Z;          (* uint64 *)
  utc_origin_ns : Z;             (* int64 *)
}.

Record ChunkDescriptor : Set := {
  cd_type : ChunkType;
  cd_version : Z;                (* uint16 *)
  cd_flags : Z;                  (* uint16 *)
  cd_codec : CompressionCodec;
  sequence_begin : Z;            (* Sequence *)
  sequence_end : Z;              (* Sequence *)
}.

Record ChunkHeader : Set := {
  descriptor : ChunkDescriptor;
  uncompressed_size : Z;         (* uint64 *)
  stored_size : Z;               (* uint64 *)
  ch_crc32c : Z;                 (* uint32 *)
}.

#[global] Instance FileHeader_eq_dec : EqDecision FileHeader.
Proof. solve_decision. Defined.
#[global] Instance ChunkDescriptor_eq_dec : EqDecision ChunkDescriptor.
Proof. solve_decision. Defined.
#[global] Instance ChunkHeader_eq_dec : EqDecision ChunkHeader.
Proof. solve_decision. Defined.

(** The C++ field types. *)
Definition FileHeader_wt (h : FileHeader) : Prop :=
  u8 (pointer_width h) ∧ u32 (fh_flags h) ∧ length (session_id h) = 16%nat ∧
  u32 (file_index h) ∧ u64 (monotonic_frequency h) ∧ u64 (monotonic_origin h) ∧
  i64 (utc_origin_ns h).

Definition ChunkDescriptor_wt (d : ChunkDescriptor) : Prop :=
  u16 (cd_version d) ∧ u16 (cd_flags d) ∧ u64 (sequence_begin d) ∧ u64 (sequence_end d).

Definition ChunkHeader_wt (h : ChunkHeader) : Prop :=
  ChunkDescriptor_wt (descriptor h) ∧ u64 (uncompressed_size h) ∧ u64 (stored_size h) ∧
  u32 (ch_crc32c h).

(** [Identifier::is_valid] *)
Definition is_valid (id : Z) : bool := negb (id =? 0).

Lemma is_valid_true id : is_valid id = true ↔ id ≠ 0.
Proof. unfold is_valid. by rewrite negb_true_iff, Z.eqb_neq. Qed.
Lemma is_valid_false id : is_valid id = false ↔ id = 0.
Proof. unfold is_valid. by rewrite negb_false_iff, Z.eqb_eq. Qed.
#[export] Hint Rewrite is_valid_true is_valid_false : bool_facts.

(** ** Validation *)

Definition is_supported_platform (p : Platform) : bool :=
  match p with
  | Platform_kWindows | Platform_kLinux | Platform_kMacos => true
  | Platform_kUnknown => false
  end.

Definition is_supported_architecture (a : Architecture) : bool :=
  match a with
  | Architecture_kX86 | Architecture_kX64 | Architecture_kArm64 => true
  | Architecture_kUnknown => false
  end.

Definition validate_file_header (header : FileHeader) : result exn unit :=
  throw_if (negb (pointer_width header =? 4) && negb (pointer_width header =? 8))
    WireFormatError "pointer width must be 4 or 8 bytes" ;;
  throw_if (negb (is_supported_platform (platform header)))
    WireFormatError "trace platform is not supported" ;;
  throw_if (negb (is_supported_architecture (architecture header)))
    WireFormatError "trace architecture is not supported" ;;
  throw_if (monotonic_frequency header =? 0)
    WireFormatError "monotonic frequency must not be zero".

(** Every enumerator of [ChunkType] and [CompressionCodec] is supported, so the
    two enumerator checks of the source cannot fail on these types. *)
Definition is_supported_chunk_type (t : ChunkType) : bool :=
  match t with
  | Chunk_kMetadata | Chunk_kModule | Chunk_kStack | Chunk_kEvent
  | Chunk_kStatistics | Chunk_kEnd | Chunk_kMemory => true
  end.

Definition is_supported_codec (c : CompressionCodec) : bool :=
  match c with Codec_kNone | Codec_kLz4 | Codec_kZstd => true end.

Definition validate_chunk_header (header : ChunkHeader) : result exn unit :=
  throw_if (negb (is_supported_chunk_type (cd_type (descriptor header))))
    WireFormatError "chunk type is not supported" ;;
  throw_if (negb (is_supported_codec (cd_codec (descriptor header))))
    WireFormatError "compression codec is not supported" ;;
  throw_if (cd_version (descriptor header) =? 0)
    WireFormatError "chunk version must not be zero" ;;
  let has_begin := is_valid (sequence_begin (descriptor header)) in
  let has_end := is_valid (sequence_end (descriptor header)) in
  throw_if (negb (eqb has_begin has_end))
    WireFormatError "chunk sequence range must contain both endpoints or neither" ;;
  throw_if (has_begin && (sequence_end (descriptor header) <? sequence_begin (descriptor header)))
    WireFormatError "chunk sequence range is reversed".

(** ** Headers and records *)

Definition encode_file_header (header : FileHeader) : result exn bytes :=
  validate_file_header header ;;
  let output := [] ++ kTraceMagic in
  let output := append_u16 output kFileHeaderSize in
  let output := append_u16 output kTraceFormatMajor in
  let output := append_u16 output kTraceFormatMinor in
  let output := append_u8 output kLittleEndian in
  let output := append_u8 output (pointer_width header) in
  let output := append_u16 output (Platform_value (platform header)) in
  let output := append_u16 output (Architecture_value (architecture header)) in
  let output := append_u32 output (fh_flags header) in
  let output := output ++ session_id header in
  let output := append_u32 output (file_index header) in
  let output := append_u64 output (monotonic_frequency header) in
  let output := append_u64 output (monotonic_origin header) in
  let output := append_u64 output (wrap64 (utc_origin_ns header)) in
  Ok output.

Definition encode_chunk_header (header : ChunkHeader) : result exn bytes :=
  validate_chunk_header header ;;
  let output := append_u16 [] (ChunkType_value (cd_type (descriptor header))) in
  let output := append_u16 output (cd_version (descriptor header)) in
  let output := append_u16 output kChunkHeaderSize in
  let output := append_u16 output (cd_flags (descriptor header)) in
  let output := append_u8 output (CompressionCodec_value (cd_codec (descriptor header))) in
  let output := foldl (λ output _, append_u8 output 0) output (seq 0 7) in
  let output := append_u64 output (sequence_begin (descriptor header)) in
  let output := append_u64 output (sequence_end (descriptor header)) in
  let output := append_u64 output (uncompressed_size header) in
  let output := append_u64 output (stored_size header) in
  let output := append_u32 output (ch_crc32c header) in
  let output := append_u32 output 0 in
  Ok output.

Definition append_record (chunk_payload : bytes) (record_type record_version : Z)
    (payload : bytes) (maximum_record_size : Z) : result exn bytes :=
  throw_if (record_type =? 0) WireFormatError "record type must not be zero" ;;
  throw_if (record_version =? 0) WireFormatError "record version must not be zero" ;;
  throw_if ((maximum_record_size <? kRecordHeaderSize) ||
            (maximum_record_size - kRecordHeaderSize <? size_of payload))
    WireFormatError "record exceeds the configured size limit" ;;
  throw_if (u32_max - kRecordHeaderSize <? size_of payload)
    WireFormatError "record size does not fit uint32" ;;
  let record_size := wrap32 (wrap32 (size_of payload) + kRecordHeaderSize) in
  throw_if (u64_max - record_size <? size_of chunk_payload)
    WireFormatError "chunk payload size overflow" ;;
  let chunk_payload := append_u16 chunk_payload record_type in
  let chunk_payload := append_u16 chunk_payload record_version in
  let chunk_payload := append_u32 chunk_payload record_size in
  Ok (chunk_payload ++ payload).

(** ** CRC-32C *)

Definition kPolynomial : Z := 0x82F63B78.

(** One turn of the inner loop of [make_crc32c_table]. *)
Definition crc_bit_step (value : Z) : Z :=
  if negb (Z.land value 1 =? 0) then Z.lxor (Z.shiftr value 1) kPolynomial
  else Z.shiftr value 1.

Definition make_crc32c_table : list Z :=
  (λ index, foldl (λ value _, crc_bit_step value) (Z.of_nat index) (seq 0 8)) <$> seq 0 256.

Definition kCrc32cTable : list Z := Eval vm_compute in make_crc32c_table.

Definition crc32c_byte (crc : Z) (b : byte) : Z :=
  let table_index := Z.land (Z.lxor crc (byte_val b)) 0xFF in
  Z.lxor (kCrc32cTable !!! Z.to_nat table_index) (Z.shiftr crc 8).

Definition crc32c (input : bytes) : Z :=
  let crc := foldl crc32c_byte 0xFFFFFFFF input in
  wrap32 (Z.lnot crc).
