(* ===== verification/Crc32c.v ===== *)
(** * CRC-32C

    Lemmas about [WireFormat.crc32c]: the table-driven byte step agrees with the
    bit-serial definition of the reflected Castagnoli polynomial, and a change
    confined to at most four consecutive bytes always changes the checksum. *)

From S2P Require Import Prelude Bytes WireFormat.

(** ** Bit-serial reference *)

Fixpoint crc_steps (n : nat) (value : Z) : Z :=
  match n with O => value | S n => crc_steps n (crc_bit_step value) end.

Definition crc_byte_reference (crc : Z) (b : byte) : Z :=
  crc_steps 8 (Z.lxor crc (byte_val b)).

Definition crc32c_reference (input : bytes) : Z :=
  Z.lxor (foldl crc_byte_reference (2 ^ 32 - 1) input) (2 ^ 32 - 1).

(** ** The bit step *)

Lemma u32_bits_high z i : u32 z → 32 ≤ i → Z.testbit z i = false.
Proof.
  intros Hz Hi. rewrite <- (Z.mod_small z (2 ^ 32)) by word.
  by apply Z.mod_pow2_bits_high; lia.
Qed.

Lemma u32_of_bits z : 0 ≤ z → (∀ i, 32 ≤ i → Z.testbit z i = false) → u32 z.
Proof.
  intros Hz Hbits. split; [done|].
  enough (z = z mod 2 ^ 32) as -> by (apply Z.mod_pos_bound; lia).
  apply Z.bits_inj'. intros i Hi. destruct (decide (i < 32)).
  - by rewrite Z.mod_pow2_bits_low.
  - rewrite Z.mod_pow2_bits_high by lia. apply Hbits; lia.
Qed.

Lemma u32_lxor x y : u32 x → u32 y → u32 (Z.lxor x y).
Proof.
  intros Hx Hy. apply u32_of_bits.
  - apply Z.lxor_nonneg. word.
  - intros i Hi. by rewrite Z.lxor_spec, !u32_bits_high.
Qed.

Lemma crc_bit_step_odd z :
  crc_bit_step z = Z.lxor (Z.shiftr z 1) (if Z.odd z then kPolynomial else 0).
Proof.
  unfold crc_bit_step. replace (Z.land z 1) with (z mod 2).
  2:{ change 1 with (Z.ones 1). by rewrite Z.land_ones. }
  rewrite Zmod_odd. destruct (Z.odd z); simpl; [done|by rewrite Z.lxor_0_r].
Qed.

Lemma crc_bit_step_lxor x y :
  crc_bit_step (Z.lxor x y) = Z.lxor (crc_bit_step x) (crc_bit_step y).
Proof.
  rewrite !crc_bit_step_odd, Z.shiftr_lxor.
  rewrite <- !Z.bit0_odd, Z.lxor_spec.
  apply Z.bits_inj'. intros i _. rewrite !Z.lxor_spec.
  destruct (Z.testbit x 0), (Z.testbit y 0); simpl; rewrite ?Z.bits_0;
    destruct (Z.testbit (Z.shiftr x 1) i), (Z.testbit (Z.shiftr y 1) i),
      (Z.testbit kPolynomial i); done.
Qed.

Lemma crc_bit_step_u32 z : u32 z → u32 (crc_bit_step z).
Proof.
  intros Hz. rewrite crc_bit_step_odd. apply u32_lxor.
  - rewrite Z.shiftr_div_pow2 by lia. unfold_int.
    split; [apply Z.div_pos; lia|apply Z.div_lt_upper_bound; lia].
  - destruct (Z.odd z); unfold_int; vm_compute; intuition congruence.
Qed.

Lemma crc_bit_step_top z : u32 z → Z.testbit (crc_bit_step z) 31 = Z.odd z.
Proof.
  intros Hz. rewrite crc_bit_step_odd, Z.lxor_spec, Z.shiftr_spec by lia.
  rewrite u32_bits_high by (done || lia). by destruct (Z.odd z).
Qed.

Lemma crc_bit_step_inj x y :
  u32 x → u32 y → crc_bit_step x = crc_bit_step y → x = y.
Proof.
  intros Hx Hy E.
  assert (Z.odd x = Z.odd y) as Hodd.
  { by rewrite <- !crc_bit_step_top, E. }
  rewrite !crc_bit_step_odd, Hodd in E.
  apply (f_equal (λ z, Z.lxor z (if Z.odd y then kPolynomial else 0))) in E.
  rewrite !Z.lxor_assoc, !Z.lxor_nilpotent, !Z.lxor_0_r in E.
  rewrite !Z.shiftr_div_pow2 in E by lia. change (2 ^ 1) with 2 in E.
  rewrite (Z.div_mod x 2), (Z.div_mod y 2), E, !Zmod_odd, Hodd by lia. done.
Qed.

Lemma crc_bit_step_even z : Z.odd z = false → crc_bit_step z = z / 2.
Proof.
  intros Ho. rewrite crc_bit_step_odd, Ho, Z.lxor_0_r. by rewrite Z.shiftr_div_pow2.
Qed.

(** ** Several steps *)

Lemma crc_steps_lxor n x y :
  crc_steps n (Z.lxor x y) = Z.lxor (crc_steps n x) (crc_steps n y).
Proof.
  revert x y; induction n as [|n IH]; intros x y; simpl; [done|].
  by rewrite crc_bit_step_lxor, IH.
Qed.

Lemma crc_steps_u32 n z : u32 z → u32 (crc_steps n z).
Proof. revert z; induction n as [|n IH]; simpl; eauto using crc_bit_step_u32. Qed.

Lemma crc_steps_inj n x y :
  u32 x → u32 y → crc_steps n x = crc_steps n y → x = y.
Proof.
  revert x y; induction n as [|n IH]; simpl; intros x y Hx Hy E; [done|].
  apply crc_bit_step_inj; [done..|]. apply IH; eauto using crc_bit_step_u32.
Qed.

Lemma crc_steps_add n m z : crc_steps (n + m) z = crc_steps m (crc_steps n z).
Proof. revert z; induction n as [|n IH]; intros z; simpl; [done|apply IH]. Qed.

(** Low zero bits shift straight out. *)
Lemma crc_steps_shift n z : crc_steps n (z * 2 ^ Z.of_nat n) = z.
Proof.
  revert z; induction n as [|n IH]; intros z; cbn [crc_steps]; [simpl; lia|].
  rewrite Nat2Z.inj_succ, Z.pow_succ_r by lia.
  rewrite crc_bit_step_even.
  - replace (z * (2 * 2 ^ Z.of_nat n)) with (z * 2 ^ Z.of_nat n * 2) by lia.
    by rewrite Z.div_mul, IH by lia.
  - rewrite !Z.odd_mul. simpl. by rewrite andb_false_r.
Qed.

(** ** The byte step *)

Lemma kCrc32cTable_spec i : 0 ≤ i < 256 → kCrc32cTable !!! Z.to_nat i = crc_steps 8 i.
Proof.
  intros Hi.
  assert (Forall (λ k, kCrc32cTable !!! k = crc_steps 8 (Z.of_nat k)) (seq 0 256)) as Hall.
  { apply (bool_decide_unpack _). by vm_compute. }
  rewrite Forall_forall in Hall. rewrite Hall by (apply elem_of_seq; lia).
  by rewrite Z2Nat.id by lia.
Qed.

Lemma split_low_byte z : z = Z.lxor (Z.land z 255) (Z.shiftr z 8 * 2 ^ 8).
Proof.
  rewrite <- Z.shiftl_mul_pow2 by lia. change 255 with (Z.ones 8).
  apply Z.bits_inj'. intros i Hi. rewrite Z.lxor_spec, Z.land_spec.
  destruct (decide (i < 8)).
  - rewrite Z.ones_spec_low, Z.shiftl_spec_low by lia.
    by rewrite andb_true_r, xorb_false_r.
  - rewrite Z.ones_spec_high, Z.shiftl_spec, Z.shiftr_spec by lia.
    rewrite andb_false_r, xorb_false_l. f_equal. lia.
Qed.

Lemma shiftr_byte_lxor z b : Z.shiftr (Z.lxor z (byte_val b)) 8 = Z.shiftr z 8.
Proof.
  rewrite Z.shiftr_lxor, (Z.shiftr_div_pow2 (byte_val b)) by lia.
  pose proof (byte_val_range b). by rewrite (Z.div_small (byte_val b)), Z.lxor_0_r by lia.
Qed.

Lemma crc32c_byte_reference s b : crc32c_byte s b = crc_byte_reference s b.
Proof.
  unfold crc32c_byte, crc_byte_reference. set (x := Z.lxor s (byte_val b)).
  rewrite kCrc32cTable_spec.
  2:{ change 255 with (Z.ones 8). rewrite Z.land_ones by lia.
      by apply Z.mod_pos_bound. }
  rewrite (split_low_byte x) at 2. rewrite crc_steps_lxor.
  rewrite (crc_steps_shift 8). unfold x. by rewrite shiftr_byte_lxor.
Qed.

Lemma crc32c_byte_u32 s b : u32 s → u32 (crc32c_byte s b).
Proof.
  intros. rewrite crc32c_byte_reference. apply crc_steps_u32, u32_lxor; [done|].
  pose proof (byte_val_range b). word.
Qed.

Lemma crc32c_state_u32 input s : u32 s → u32 (foldl crc32c_byte s input).
Proof. revert s; induction input as [|b input IH]; simpl; eauto using crc32c_byte_u32. Qed.

Lemma lxor_byte_append b v : Z.lxor (byte_val b) (v * 2 ^ 8) = byte_val b + 256 * v.
Proof.
  pose proof (byte_val_range b). rewrite <- Z.add_nocarry_lxor; [lia|].
  rewrite <- Z.shiftl_mul_pow2 by lia. apply Z.bits_inj'. intros i Hi.
  rewrite Z.land_spec, Z.bits_0. destruct (decide (i < 8)).
  - rewrite Z.shiftl_spec_low by lia. apply andb_false_r.
  - rewrite <- (Z.mod_small (byte_val b) (2 ^ 8)), Z.mod_pow2_bits_high by lia. done.
Qed.

(** The state after a run of bytes is the state before it, exclusive-or the
    run as a little-endian number, stepped once per bit. *)
Lemma crc32c_run input s :
  foldl crc32c_byte s input = crc_steps (8 * length input) (Z.lxor s (le_value input)).
Proof.
  revert s; induction input as [|b input IH]; intros s; [by rewrite Z.lxor_0_r|].
  cbn [foldl length]. rewrite le_value_cons, IH, crc32c_byte_reference.
  replace (8 * S (length input))%nat with (8 + 8 * length input)%nat by lia.
  rewrite crc_steps_add. f_equal. unfold crc_byte_reference.
  rewrite <- lxor_byte_append, <- Z.lxor_assoc, (crc_steps_lxor 8 _ (_ * _)).
  by rewrite (crc_steps_shift 8).
Qed.

Lemma crc32c_run_inj input s1 s2 :
  u32 s1 → u32 s2 → foldl crc32c_byte s1 input = foldl crc32c_byte s2 input → s1 = s2.
Proof.
  revert s1 s2; induction input as [|b input IH]; intros s1 s2 H1 H2 E; simpl in E; [done|].
  apply IH in E; [|by apply crc32c_byte_u32..].
  rewrite !crc32c_byte_reference in E. pose proof (byte_val_range b).
  assert (u32 (byte_val b)) by word.
  apply crc_steps_inj in E; [|by apply u32_lxor..].
  apply (f_equal (λ z, Z.lxor z (byte_val b))) in E.
  by rewrite !Z.lxor_assoc, !Z.lxor_nilpotent, !Z.lxor_0_r in E.
Qed.

Lemma crc32c_window_inj w1 w2 s : u32 s →
  length w1 = length w2 → (length w1 ≤ 4)%nat →
  foldl crc32c_byte s w1 = foldl crc32c_byte s w2 → w1 = w2.
Proof.
  intros Hs Hlen Hle E. rewrite !crc32c_run, Hlen in E.
  assert (∀ w : bytes, (length w ≤ 4)%nat → u32 (le_value w)) as Hu.
  { intros w Hw. pose proof (le_value_range w). rewrite pow256 in *.
    pose proof (Z.pow_le_mono_r 2 (Z.of_nat (length w) * 8) 32 ltac:(lia) ltac:(lia)). word. }
  apply crc_steps_inj in E; [|apply u32_lxor; eauto with lia..].
  apply (f_equal (Z.lxor s)) in E.
  rewrite <- !Z.lxor_assoc, Z.lxor_nilpotent, !Z.lxor_0_l in E.
  by rewrite <- (le_bytes_value w1 (length w1)), E, Hlen, le_bytes_value.
Qed.

(** [~crc] at width 32 is the final exclusive-or. *)
Lemma wrap32_lnot z : u32 z → wrap32 (Z.lnot z) = Z.lxor z (2 ^ 32 - 1).
Proof.
  intros Hz. unfold wrap32. change (2 ^ 32 - 1) with (Z.ones 32).
  rewrite <- Z.land_ones by lia. apply Z.bits_inj'. intros i Hi.
  rewrite Z.land_spec, Z.lxor_spec, Z.lnot_spec by done. destruct (decide (i < 32)).
  - by rewrite Z.ones_spec_low, andb_true_r, xorb_true_r by lia.
  - by rewrite Z.ones_spec_high, andb_false_r, xorb_false_r, u32_bits_high by (done || lia).
Qed.

Lemma crc32c_u32 input : u32 (crc32c input).
Proof. apply wrap32_u32. Qed.

Lemma crc32c_state_reference input s :
  foldl crc_byte_reference s input = foldl crc32c_byte s input.
Proof.
  revert s; induction input as [|b input IH]; intros s; simpl; [done|].
  by rewrite crc32c_byte_reference, IH.
Qed.

Lemma crc32c_inj_state i1 i2 :
  crc32c i1 = crc32c i2 →
  foldl crc32c_byte 0xFFFFFFFF i1 = foldl crc32c_byte 0xFFFFFFFF i2.
Proof.
  unfold crc32c. rewrite !wrap32_lnot by (by apply crc32c_state_u32).
  intros E. apply (f_equal (λ z, Z.lxor z (2 ^ 32 - 1))) in E.
  by rewrite !Z.lxor_assoc, !Z.lxor_nilpotent, !Z.lxor_0_r in E.
Qed.

(** ** Properties *)

(** C35: the table-driven checksum is the bit-serial CRC-32C (reflected
    Castagnoli polynomial, initial value and final exclusive-or all ones), on
    every input. *)
Theorem crc32c_matches_reference input : crc32c input = crc32c_reference input.
Proof.
  unfold crc32c, crc32c_reference. rewrite crc32c_state_reference.
  by apply wrap32_lnot, crc32c_state_u32.
Qed.

(** A corruption confined to at most four consecutive bytes of a chunk
    payload changes its CRC-32C, whatever surrounds it. *)
Theorem crc32c_detects_burst pre w1 w2 post :
  length w1 = length w2 → (length w1 ≤ 4)%nat → w1 ≠ w2 →
  crc32c (pre ++ w1 ++ post) ≠ crc32c (pre ++ w2 ++ post).
Proof.
  intros Hlen Hle Hne E. apply crc32c_inj_state in E. rewrite !foldl_app in E.
  apply crc32c_run_inj in E; [|by repeat apply crc32c_state_u32..].
  apply crc32c_window_inj in E; [done|by apply crc32c_state_u32|done|done].
Qed.

Lemma crc32c_detects_burst_witness :
  crc32c ([x4e] ++ [x4c; x58] ++ [x54]) ≠ crc32c ([x4e] ++ [x4c; x59] ++ [x54]).
Proof. apply crc32c_detects_burst; [reflexivity|simpl; lia|discriminate]. Defined.

(** The published check value of CRC-32C for ["123456789"]. *)
Example crc32c_check_value :
  crc32c [x31; x32; x33; x34; x35; x36; x37; x38; x39] = 0xE3069283.
Proof. reflexivity. Qed.
