(* ===== verification/Compression.v ===== *)
(** * The compression libraries

    src/src/trace/trace_reader.cpp and trace_writer.cpp call LZ4 and Zstandard,
    which are not part of the repository's own sources.  Their entry points are the operations of
    the class [CompressionLibrary]; what the code relies on, as the libraries'
    documentation states it, is the class [CompressionLaws].  [stored_library]
    is a concrete instance, so that the hypotheses can hold. *)

From S2P Require Import Prelude Bytes.

(** A destination buffer of the given capacity and the returned size; zstd
    returns an error code, of which only the name is used. *)
Class CompressionLibrary : Type := {
  LZ4_compressBound : Z → Z;
  LZ4_compress_default : bytes → Z → Z * bytes;
  LZ4_decompress_safe : bytes → Z → Z * bytes;
  ZSTD_compressBound : Z → result string Z;
  ZSTD_compress : bytes → Z → Z → result string (Z * bytes);
  ZSTD_decompress : bytes → Z → result string (Z * bytes);
}.

Definition LZ4_MAX_INPUT_SIZE : Z := 0x7E000000.

Class CompressionLaws (L : CompressionLibrary) : Prop := {
  (** A call fills its destination buffer without changing the buffer's size. *)
  lz4_buffer src cap : 0 ≤ cap → size_of (LZ4_decompress_safe src cap).2 = cap;
  zstd_buffer src cap n buf : 0 ≤ cap → ZSTD_decompress src cap = Ok (n, buf) → size_of buf = cap;
  (** What was compressed decompresses to the source, given its exact size;
      the size LZ4 returns is a C int. *)
  lz4_roundtrip src cap n buf : LZ4_compress_default src cap = (n, buf) → 0 < n →
    src ≠ [] ∧ n ≤ size_of buf ∧ n < 2 ^ 31 ∧ LZ4_decompress_safe (take (Z.to_nat n) buf) (size_of src) =
      (size_of src, src);
  zstd_roundtrip src cap level n buf : ZSTD_compress src cap level = Ok (n, buf) →
    0 < n ≤ size_of buf ∧ ZSTD_decompress (take (Z.to_nat n) buf) (size_of src) =
      Ok (size_of src, src);
}.

(** A library that stores its input as it is. *)
Definition pad (cap : Z) (bs : bytes) : bytes :=
  take (Z.to_nat cap) (bs ++ zeros (Z.to_nat cap)).

Definition stored_library : CompressionLibrary := {|
  LZ4_compressBound n := n;
  LZ4_compress_default src cap :=
    if (0 <? size_of src) && (size_of src <=? cap) && (size_of src <? 2 ^ 31)
    then (size_of src, pad cap src) else (0, pad cap []);
  LZ4_decompress_safe src cap :=
    if size_of src <=? cap then (size_of src, pad cap src) else (-1, pad cap []);
  ZSTD_compressBound n := Ok n;
  ZSTD_compress src cap _ :=
    if (0 <? size_of src) && (size_of src <=? cap) then Ok (size_of src, pad cap src)
    else Throw "Destination buffer is too small";
  ZSTD_decompress src cap :=
    if size_of src <=? cap then Ok (size_of src, pad cap src)
    else Throw "Destination buffer is too small";
|}.

Lemma size_pad cap bs : 0 ≤ cap → size_of (pad cap bs) = cap.
Proof.
  intros. unfold pad, size_of. rewrite length_take, length_app, length_zeros. lia.
Qed.

Lemma take_pad cap bs : size_of bs ≤ cap → take (Z.to_nat (size_of bs)) (pad cap bs) = bs.
Proof.
  unfold pad, size_of. intros. rewrite take_take, Nat.min_l by lia.
  by rewrite Nat2Z.id, take_app_length.
Qed.

Lemma pad_exact bs : pad (size_of bs) bs = bs.
Proof. unfold pad, size_of. by rewrite Nat2Z.id, take_app_length. Qed.

#[export] Instance stored_laws : CompressionLaws stored_library.
Proof.
  split; cbn.
  - intros src cap H. case_match; by apply size_pad.
  - intros src cap n buf H. case_match; intros [= <- <-]. by apply size_pad.
  - intros src cap n buf H Hn. destruct (_ && _) eqn:E; simplify_eq; bool_facts; [|lia].
    rewrite take_pad, Z.leb_refl, pad_exact, size_pad by lia.
    split_and!; [by intros ->|lia|lia|done].
  - intros src cap level n buf H. destruct (_ && _) eqn:E; simplify_eq; bool_facts.
    rewrite take_pad, Z.leb_refl, pad_exact, size_pad by lia. split; [lia|done].
Qed.
