(* ===== verification/RecordCursor.v ===== *)
(** * Records of a chunk

    [RecordView] and the class [RecordCursor] of
    src/include/noleax/trace/trace_reader.hpp and src/src/trace/trace_reader.cpp
    (lines 424-464): the records of a chunk payload, one after the other.  The
    cursor is proved to accept exactly the payloads that [append_record] of
    WireFormat.v builds. *)

From S2P Require Import Prelude Bytes WireFormat.

Record RecordView : Set := {
  rv_type : Z;                   (* uint16 *)
  rv_version : Z;                (* uint16 *)
  rv_payload : bytes;
}.

#[global] Instance RecordView_eq_dec : EqDecision RecordView.
Proof. solve_decision. Defined.

Definition kDefaultMaximumRecordSize : Z := 1024 * 1024.

Record RecordCursor : Set := {
  chunk_payload_ : bytes;
  rc_offset_ : nat;
  maximum_record_size_ : Z;      (* uint32 *)
}.

Definition read_if (b : bool) (message : string) : result exn unit :=
  throw_if b TraceReadError message.

(** The constructor. *)
Definition RecordCursor_new (chunk_payload : bytes) (maximum_record_size : Z)
    : result exn RecordCursor :=
  read_if (maximum_record_size <? kRecordHeaderSize)
    "maximum record size is smaller than the record header" ;;
  Ok {| chunk_payload_ := chunk_payload; rc_offset_ := 0;
        maximum_record_size_ := maximum_record_size |}.

Definition done (c : RecordCursor) : bool := (rc_offset_ c =? length (chunk_payload_ c))%nat.

Definition bytes_consumed (c : RecordCursor) : Z := Z.of_nat (rc_offset_ c).

Definition next (c : RecordCursor) : result exn (option RecordView * RecordCursor) :=
  if done c then Ok (None, c) else
  let remaining := size_of (chunk_payload_ c) - Z.of_nat (rc_offset_ c) in
  read_if (remaining <? kRecordHeaderSize) "record header is truncated" ;;
  let type := Bytes.read_u16 (chunk_payload_ c) (rc_offset_ c) in
  let version := Bytes.read_u16 (chunk_payload_ c) (rc_offset_ c + 2) in
  let record_size := Bytes.read_u32 (chunk_payload_ c) (rc_offset_ c + 4) in
  read_if ((type =? 0) || (version =? 0)) "record type and version must not be zero" ;;
  read_if ((record_size <? kRecordHeaderSize) || (maximum_record_size_ c <? record_size) ||
           (remaining <? record_size)) "record size is invalid" ;;
  let payload_offset := (rc_offset_ c + Z.to_nat kRecordHeaderSize)%nat in
  let payload_size := Z.to_nat (record_size - kRecordHeaderSize) in
  let c' := {| chunk_payload_ := chunk_payload_ c;
               rc_offset_ := rc_offset_ c + Z.to_nat record_size;
               maximum_record_size_ := maximum_record_size_ c |} in
  Ok (Some {| rv_type := type; rv_version := version;
              rv_payload := take payload_size (drop payload_offset (chunk_payload_ c)) |}, c').

(** [while (const auto record = cursor.next()) records.push_back(record);]: the
    loop every consumer runs.  [None] when the fuel is not enough. *)
Fixpoint next_loop (fuel : nat) (c : RecordCursor) : option (result exn (list RecordView)) :=
  match fuel with
  | O => None
  | S fuel =>
      match next c with
      | Throw e => Some (Throw e)
      | Ok (None, _) => Some (Ok [])
      | Ok (Some record, c) =>
          match next_loop fuel c with
          | Some (Ok records) => Some (Ok (record :: records))
          | other => other
          end
      end
  end.

(** Each record takes at least one byte, so this fuel is enough. *)
Definition all_records (chunk_payload : bytes) (maximum_record_size : Z)
    : option (result exn (list RecordView)) :=
  match RecordCursor_new chunk_payload maximum_record_size with
  | Throw e => Some (Throw e)
  | Ok c => next_loop (S (length chunk_payload)) c
  end.

(** ** What a record is on the wire *)

Definition record_bytes (r : RecordView) : bytes :=
  le_bytes 2 (rv_type r) ++ le_bytes 2 (rv_version r) ++
  le_bytes 4 (size_of (rv_payload r) + kRecordHeaderSize) ++ rv_payload r.

Definition record_size (r : RecordView) : Z := size_of (rv_payload r) + kRecordHeaderSize.

(** A record [append_record] writes under a size limit. *)
Definition record_ok (maximum_record_size : Z) (r : RecordView) : Prop :=
  (u16 (rv_type r) ∧ rv_type r ≠ 0) ∧ (u16 (rv_version r) ∧ rv_version r ≠ 0) ∧
  record_size r ≤ maximum_record_size ∧ u32 (record_size r).

Lemma length_record_bytes r : Z.of_nat (length (record_bytes r)) = record_size r.
Proof.
  unfold record_bytes, record_size, kRecordHeaderSize, size_of.
  rewrite !length_app, !length_le_bytes. lia.
Qed.

Lemma record_bytes_length r : length (record_bytes r) = Z.to_nat (record_size r).
Proof. rewrite <- length_record_bytes. lia. Qed.

Lemma record_size_ge r : 8 ≤ record_size r.
Proof. unfold record_size, kRecordHeaderSize. pose proof (size_of_nonneg (rv_payload r)). lia. Qed.

Lemma append_record_ok chunk t v payload max chunk' : u16 t → u16 v →
  append_record chunk t v payload max = Ok chunk' ↔
  record_ok max {| rv_type := t; rv_version := v; rv_payload := payload |} ∧
  size_of chunk + size_of payload + kRecordHeaderSize ≤ u64_max ∧
  chunk' = chunk ++ record_bytes {| rv_type := t; rv_version := v; rv_payload := payload |}.
Proof.
  intros Ht Hv. unfold record_ok, record_size, record_bytes, kRecordHeaderSize. cbn [rv_type rv_version rv_payload].
  assert (Hsize : 0 ≤ size_of payload) by apply size_of_nonneg.
  assert (Hwrap : size_of payload + 8 < 2 ^ 32 →
    wrap32 (wrap32 (size_of payload) + 8) = size_of payload + 8).
  { intros. rewrite !wrap32_small; rewrite ?wrap32_small; word. }
  unfold append_record, kRecordHeaderSize. split.
  - intros H. inv_ok. bool_facts. destruct_and?. rewrite Hwrap in * by word.
    subst chunk'. normalize_encoding. split_and!; try done; word.
  - intros (((?&?)&(?&?)&?&?)&?&->).
    rewrite Hwrap by word.
    rewrite (proj2 (Z.eqb_neq t 0)), (proj2 (Z.eqb_neq v 0)) by done.
    rewrite !(proj2 (Z.ltb_ge _ _)) by word. cbn [orb throw_if mbind result_bind].
    f_equal. by normalize_encoding.
Qed.

(** The cursor over [pre ++ post], positioned after [pre]. *)
Definition cursor_at (max : Z) (pre post : bytes) : RecordCursor :=
  {| chunk_payload_ := pre ++ post; rc_offset_ := length pre; maximum_record_size_ := max |}.

Lemma cursor_at_move max chunk pre mid post n :
  chunk = pre ++ mid ++ post → n = (length pre + length mid)%nat →
  {| chunk_payload_ := chunk; rc_offset_ := n; maximum_record_size_ := max |} =
  cursor_at max (pre ++ mid) post.
Proof. intros -> ->. unfold cursor_at. by rewrite <- app_assoc, length_app. Qed.

(** The fields of the record at the cursor, from the bytes that follow it. *)
Lemma read_at_u16 input n pre mid post : input = pre ++ mid ++ post →
  n = length pre → length mid = 2%nat → Bytes.read_u16 input n = le_value mid.
Proof.
  intros -> -> Hm. rewrite read_u16_spec by (rewrite !length_app; lia). f_equal.
  by apply take_drop_mid.
Qed.
Lemma read_at_u32 input n pre mid post : input = pre ++ mid ++ post →
  n = length pre → length mid = 4%nat → Bytes.read_u32 input n = le_value mid.
Proof.
  intros -> -> Hm. rewrite read_u32_spec by (rewrite !length_app; lia). f_equal.
  by apply take_drop_mid.
Qed.

(** [next] on a header of type [t], version [v] and size [s]. *)
Lemma next_header max pre t v s rest : length t = 2%nat → length v = 2%nat → length s = 4%nat →
  let size := le_value s in
  next (cursor_at max pre (t ++ v ++ s ++ rest)) =
  (read_if ((le_value t =? 0) || (le_value v =? 0)) "record type and version must not be zero" ;;
   read_if ((size <? kRecordHeaderSize) || (max <? size) || (8 + size_of rest <? size))
     "record size is invalid" ;;
   Ok (Some {| rv_type := le_value t; rv_version := le_value v;
               rv_payload := take (Z.to_nat (size - 8)) rest |},
       {| chunk_payload_ := pre ++ t ++ v ++ s ++ rest;
          rc_offset_ := length pre + Z.to_nat size; maximum_record_size_ := max |})).
Proof.
  intros Ht Hv Hs size.
  assert (Hrem : size_of (pre ++ t ++ v ++ s ++ rest) - Z.of_nat (length pre) = 8 + size_of rest).
  { unfold size_of. rewrite !length_app. lia. }
  assert (Hdrop : drop (length pre + 8) (pre ++ t ++ v ++ s ++ rest) = rest).
  { rewrite !app_assoc. apply drop_app_length'. rewrite !length_app. lia. }
  unfold next, cursor_at, done. cbn [chunk_payload_ rc_offset_ maximum_record_size_].
  rewrite (proj2 (Nat.eqb_neq _ _)) by (rewrite !length_app; lia).
  rewrite Hrem, (read_at_u16 _ _ pre t (v ++ s ++ rest)) by done.
  rewrite (read_at_u16 _ _ (pre ++ t) v (s ++ rest))
    by (rewrite <- ?app_assoc; rewrite ?length_app; solve [done|lia]).
  rewrite (read_at_u32 _ _ (pre ++ t ++ v) s rest)
    by (rewrite <- ?app_assoc; rewrite ?length_app; solve [done|lia]).
  change (Z.to_nat kRecordHeaderSize) with 8%nat. rewrite Hdrop. fold size.
  rewrite (proj2 (Z.ltb_ge (8 + size_of rest) kRecordHeaderSize)); [done|].
  unfold kRecordHeaderSize. pose proof (size_of_nonneg rest). lia.
Qed.

Lemma next_run max pre r post : record_ok max r →
  next (cursor_at max pre (record_bytes r ++ post)) =
  Ok (Some r, cursor_at max (pre ++ record_bytes r) post).
Proof.
  intros ((Ht & Ht0) & (Hv & Hv0) & Hmax & Hs).
  pose proof (record_size_ge r). pose proof (length_record_bytes r) as Hlen.
  unfold record_bytes at 1. rewrite <- !app_assoc.
  rewrite next_header by apply length_le_bytes.
  fold (record_size r). rewrite !le_bytes_u16, le_bytes_u32 by done.
  rewrite (proj2 (Z.eqb_neq _ _) Ht0), (proj2 (Z.eqb_neq _ _) Hv0).
  rewrite size_of_app. unfold record_size, kRecordHeaderSize in *.
  rewrite !(proj2 (Z.ltb_ge _ _)) by (pose proof (size_of_nonneg post); lia).
  cbn [orb read_if throw_if mbind result_bind]. rewrite take_app_length'
    by (unfold size_of; lia).
  do 3 f_equal; [by destruct r|].
  apply cursor_at_move; [by unfold record_bytes; rewrite <- !app_assoc|].
  unfold record_bytes. rewrite !length_app, !length_le_bytes. unfold size_of. lia.
Qed.

(** The converse: what [next] returns is what is encoded at the cursor. *)
Lemma next_ok max pre tail r c : u32 max →
  next (cursor_at max pre tail) = Ok (Some r, c) →
  ∃ post, tail = record_bytes r ++ post ∧ c = cursor_at max (pre ++ record_bytes r) post ∧
    record_ok max r.
Proof.
  intros Hmax H.
  assert (∃ t v s rest, tail = t ++ v ++ s ++ rest ∧ length t = 2%nat ∧ length v = 2%nat ∧
    length s = 4%nat) as (t & v & s & rest & -> & Ht & Hv & Hs).
  { assert (8 ≤ length tail)%nat.
    { unfold next, done, cursor_at, read_if in H. cbn in H. case_match; [done|]. inv_ok.
      unfold kRecordHeaderSize, size_of in E. rewrite length_app in E. bool_facts. lia. }
    exists (take 2 tail), (take 2 (drop 2 tail)), (take 4 (drop 4 tail)), (drop 8 tail).
    split_and!; [|rewrite ?length_take, ?length_drop; lia..].
    rewrite <- (take_drop 2 tail) at 1. f_equal.
    rewrite <- (take_drop 2 (drop 2 tail)) at 1. f_equal. rewrite drop_drop.
    rewrite <- (take_drop 4 (drop (2 + 2) tail)) at 1. f_equal. by rewrite drop_drop. }
  rewrite next_header in H by done. unfold read_if in H. inv_ok. bool_facts. destruct_and?.
  pose proof (le_value_u _ _ Ht). pose proof (le_value_u _ _ Hv). pose proof (le_value_u _ _ Hs).
  unfold kRecordHeaderSize in *.
  subst r c.
  set (n := Z.to_nat (le_value s - 8)).
  assert (length (take n rest) = n) by (rewrite length_take; unfold size_of in *; lia).
  assert (Hrb : record_bytes {| rv_type := le_value t; rv_version := le_value v;
      rv_payload := take n rest |} = t ++ v ++ s ++ take n rest).
  { unfold record_bytes, kRecordHeaderSize, size_of.
    cbn [rv_type rv_version rv_payload]. rewrite !(le_bytes_value _ 2) by done.
    do 2 f_equal. f_equal. rewrite <- (le_bytes_value s 4) by done. f_equal. lia. }
  exists (drop n rest). rewrite Hrb, <- !app_assoc, take_drop. split_and!; [done| |].
  - apply cursor_at_move; rewrite <- ?app_assoc, ?take_drop; [done|].
    rewrite !length_app. lia.
  - unfold record_ok, record_size, kRecordHeaderSize, size_of. cbn. word.
Qed.

Lemma next_end max pre : next (cursor_at max pre []) = Ok (None, cursor_at max pre []).
Proof. unfold next, done, cursor_at. cbn. by rewrite app_nil_r, Nat.eqb_refl. Qed.

Lemma next_none max pre tail c : next (cursor_at max pre tail) = Ok (None, c) → tail = [].
Proof.
  unfold next, done, cursor_at. cbn [chunk_payload_ rc_offset_ maximum_record_size_].
  case_match eqn:E; [intros _|unfold read_if; intros H; by inv_ok].
  apply Nat.eqb_eq in E. rewrite length_app in E. apply length_zero_iff_nil. lia.
Qed.

Lemma next_loop_total fuel max pre tail : u32 max → (length tail < fuel)%nat →
  is_Some (next_loop fuel (cursor_at max pre tail)).
Proof.
  intros Hmax. revert pre tail. induction fuel as [|fuel IH]; intros pre tail Hfuel; [lia|].
  cbn [next_loop]. destruct (next _) as [[[r|] c]|e] eqn:E; [|eauto..].
  apply next_ok in E as (post & -> & -> & _); [|done].
  rewrite length_app in Hfuel. pose proof (length_record_bytes r). pose proof (record_size_ge r).
  destruct (IH (pre ++ record_bytes r) post) as [[|] ->]; [lia|eauto..].
Qed.

Lemma next_loop_run fuel max pre views :
  Forall (record_ok max) views → (length (concat (record_bytes <$> views)) < fuel)%nat →
  next_loop fuel (cursor_at max pre (concat (record_bytes <$> views))) = Some (Ok views).
Proof.
  intros Hviews. revert fuel pre. induction Hviews as [|r views Hr _ IH]; intros [|fuel] pre Hfuel;
    [lia|cbn; by rewrite next_end|lia|].
  cbn [fmap list_fmap concat next_loop] in *. rewrite length_app in Hfuel.
  pose proof (length_record_bytes r). pose proof (record_size_ge r).
  rewrite next_run by done. by rewrite IH by lia.
Qed.

Lemma next_loop_ok fuel max pre tail views : u32 max →
  next_loop fuel (cursor_at max pre tail) = Some (Ok views) →
  tail = concat (record_bytes <$> views) ∧ Forall (record_ok max) views.
Proof.
  intros Hmax. revert pre tail views. induction fuel as [|fuel IH]; intros pre tail views; [done|].
  cbn [next_loop]. destruct (next _) as [[[r|] c]|e] eqn:E; [| |done].
  - apply next_ok in E as (post & -> & -> & Hr); [|done].
    destruct (next_loop fuel _) as [[rs|]|] eqn:Eloop; intros [= <-].
    apply IH in Eloop as [-> Hrs]. cbn. auto.
  - apply next_none in E as ->. by intros [= <-].
Qed.

Lemma all_records_ok chunk max views : u32 max → kRecordHeaderSize ≤ max →
  all_records chunk max = Some (Ok views) ↔
  chunk = concat (record_bytes <$> views) ∧ Forall (record_ok max) views.
Proof.
  intros Hmax Hmin. unfold all_records, RecordCursor_new, read_if.
  rewrite (proj2 (Z.ltb_ge _ _)) by done. cbn [throw_if mbind result_bind].
  change {| chunk_payload_ := chunk; rc_offset_ := 0; maximum_record_size_ := max |}
    with (cursor_at max [] chunk).
  split; [by apply next_loop_ok|]. intros [-> Hok]. apply next_loop_run; [done|lia].
Qed.

(** C32: iterating a [RecordCursor] over a chunk payload always terminates, and
    it succeeds exactly on the concatenations of well-formed records within the
    size limit, returning those records in order: no byte is skipped, read
    twice or left over. *)
Theorem record_cursor_exact (chunk : bytes) (max : Z) :
  u32 max → kRecordHeaderSize ≤ max →
  is_Some (all_records chunk max) ∧
  ∀ records, all_records chunk max = Some (Ok records) ↔
    chunk = concat (record_bytes <$> records) ∧ Forall (record_ok max) records.
Proof.
  intros Hmax Hmin. split; [|intros; by apply all_records_ok].
  unfold all_records. destruct (RecordCursor_new _ _) eqn:E; [|eauto].
  unfold RecordCursor_new, read_if in E. inv_ok. subst.
  apply (next_loop_total _ max []); [done|lia].
Qed.

Lemma record_cursor_exact_witness :
  all_records (record_bytes {| rv_type := 3; rv_version := 1; rv_payload := [x01; x02] |}) 64 =
  Some (Ok [{| rv_type := 3; rv_version := 1; rv_payload := [x01; x02] |}]).
Proof.
  apply record_cursor_exact; [by unfold u32|by unfold kRecordHeaderSize|].
  split; [by vm_compute|]. repeat constructor; by vm_compute.
Defined.
