(* ===== verification/RecordInterface.v ===== *)
(** * The contract between a record writer and a record reader

    Each record of the trace format has an [append_<record>_record] and a
    [decode_<record>_record] function in src/src/trace/record_codec.cpp.  The
    class [RecordCodec append decode] states what the pair promises: the writer
    appends exactly the envelope of a valid record, the reader accepts exactly
    the views of valid records, and it skips exactly the record types and
    versions it does not know.  The theorems about chunks are proved once, from
    the class; EventCodec.v and RecordCodec.v give the instances. *)

From S2P Require Import Prelude Bytes WireFormat RecordCursor.

Definition kRecordVersion : Z := 1.

Class RecordCodec {R : Type} (append : bytes → R → Z → result exn bytes)
    (decode : RecordView → result exn (option R)) : Type := {
  (** the field types of the C++ struct *)
  codec_wt : R → Prop;
  (** what the validate function and the format's size fields accept *)
  codec_valid : R → Prop;
  codec_view : R → RecordView;
  codec_types : list Z;
  codec_append chunk r max chunk' : codec_wt r → u32 max →
    append chunk r max = Ok chunk' ↔
    codec_valid r ∧ record_ok max (codec_view r) ∧
    size_of chunk + record_size (codec_view r) ≤ u64_max ∧
    chunk' = chunk ++ record_bytes (codec_view r);
  codec_decode view r : decode view = Ok (Some r) ↔ codec_valid r ∧ view = codec_view r;
  codec_skip view :
    decode view = Ok None ↔ ¬ (rv_version view = kRecordVersion ∧ rv_type view ∈ codec_types);
}.

(** [for (const auto& record : records) append(chunk, record, max);] *)
Fixpoint append_all {R} (append : bytes → R → Z → result exn bytes)
    (chunk : bytes) (records : list R) (max : Z) : result exn bytes :=
  match records with
  | [] => Ok chunk
  | r :: records => chunk ← append chunk r max; append_all append chunk records max
  end.

(** [while (const auto record = cursor.next()) { decoded.push_back(decode(record)); }] *)
Fixpoint decode_loop {R} (decode : RecordView → result exn (option R)) (fuel : nat)
    (c : RecordCursor) : option (result exn (list (option R))) :=
  match fuel with
  | O => None
  | S fuel =>
      match next c with
      | Throw e => Some (Throw e)
      | Ok (None, _) => Some (Ok [])
      | Ok (Some record, c) =>
          match decode record with
          | Throw e => Some (Throw e)
          | Ok decoded =>
              match decode_loop decode fuel c with
              | Some (Ok rest) => Some (Ok (decoded :: rest))
              | other => other
              end
          end
      end
  end.

Definition decode_chunk {R} (decode : RecordView → result exn (option R)) (chunk : bytes)
    (max : Z) : option (result exn (list (option R))) :=
  match RecordCursor_new chunk max with
  | Throw e => Some (Throw e)
  | Ok c => decode_loop decode (S (length chunk)) c
  end.

(** ** Chunks of records *)

Lemma decode_loop_ok {R} (decode : RecordView → result exn (option R)) fuel c xs :
  decode_loop decode fuel c = Some (Ok xs) ↔
  ∃ views, next_loop fuel c = Some (Ok views) ∧
    Forall2 (λ view x, decode view = Ok x) views xs.
Proof.
  revert c xs. induction fuel as [|fuel IH]; intros c xs; cbn [decode_loop next_loop];
    [naive_solver|].
  destruct (next c) as [[[view|] c']|e]; [| |naive_solver].
  - split.
    + destruct (decode view) as [x|] eqn:E; [|done].
      destruct (decode_loop decode fuel c') as [[ys|]|] eqn:El; intros [= <-].
      apply IH in El as (views & -> & Hv). exists (view :: views). eauto.
    + intros (views & Hn & Hv).
      destruct (next_loop fuel c') as [[vs|]|] eqn:En; simplify_eq.
      inversion Hv as [|? x ? ys Hx Hys]; subst. rewrite Hx.
      by rewrite (proj2 (IH c' ys)) by eauto.
  - split; [intros [= <-]; by exists []|]. by intros (views & [= <-] & ->%Forall2_nil_inv_l).
Qed.

Lemma decode_chunk_ok {R} (decode : RecordView → result exn (option R)) chunk max xs :
  u32 max → kRecordHeaderSize ≤ max →
  decode_chunk decode chunk max = Some (Ok xs) ↔
  ∃ views, chunk = concat (record_bytes <$> views) ∧ Forall (record_ok max) views ∧
    Forall2 (λ view x, decode view = Ok x) views xs.
Proof.
  intros Hmax Hmin. unfold decode_chunk.
  pose proof (λ v, all_records_ok chunk max v Hmax Hmin) as Hall. unfold all_records in Hall.
  destruct (RecordCursor_new chunk max) as [c|e].
  - rewrite decode_loop_ok. setoid_rewrite Hall. naive_solver.
  - split; [done|]. intros (views & Hc & Hv & _). by pose proof (proj2 (Hall views) (conj Hc Hv)).
Qed.

Section chunks.
Context {R : Type} {append : bytes → R → Z → result exn bytes}
  {decode : RecordView → result exn (option R)} {codec : RecordCodec append decode}.

Lemma append_all_ok chunk records max chunk' : Forall codec_wt records → u32 max →
  append_all append chunk records max = Ok chunk' ↔
  Forall codec_valid records ∧ Forall (λ r, record_ok max (codec_view r)) records ∧
  (records = [] ∨ size_of chunk' ≤ u64_max) ∧
  chunk' = chunk ++ concat (record_bytes <$> (codec_view <$> records)).
Proof.
  intros Hwt Hmax. revert chunk. induction Hwt as [|r records Hr Hwt IH]; intros chunk.
  - cbn. rewrite app_nil_r. split; [intros [= ->]; auto|naive_solver].
  - cbn [append_all fmap list_fmap concat]. rewrite bind_ok, !Forall_cons. split.
    + intros (c & (Hv & Hok & Hs & ->)%codec_append & Hall); [|done..].
      apply IH in Hall as (? & ? & Hsz & ->). rewrite <- app_assoc. split_and!; try done.
      right. destruct Hsz as [->|Hsz]; [|by rewrite <- app_assoc in Hsz].
      cbn. rewrite app_nil_r, size_of_app. unfold size_of at 2.
      rewrite length_record_bytes. done.
    + intros ((? & ?) & (? & ?) & [|Hsz] & ->); [done|].
      exists (chunk ++ record_bytes (codec_view r)). split.
      * apply codec_append; [done..|]. split_and!; try done.
        rewrite !size_of_app in Hsz. unfold size_of at 2 in Hsz.
        rewrite length_record_bytes in Hsz.
        pose proof (size_of_nonneg (concat (record_bytes <$> (codec_view <$> records)))). lia.
      * apply IH. rewrite <- app_assoc. auto.
Qed.

(** Writing records and reading a chunk back are inverse to each other. *)
Lemma chunk_codec records max chunk : Forall codec_wt records → u32 max →
  kRecordHeaderSize ≤ max → size_of chunk ≤ u64_max →
  append_all append [] records max = Ok chunk ↔
  decode_chunk decode chunk max = Some (Ok (Some <$> records)).
Proof.
  intros Hwt Hmax Hmin Hsize. rewrite append_all_ok, decode_chunk_ok by done. split.
  - intros (Hv & Hok & _ & ->). exists (codec_view <$> records).
    rewrite Forall_fmap. split_and!; [done|done|].
    apply Forall2_fmap_2, Forall_Forall2_diag. eapply Forall_impl; [exact Hv|].
    intros r Hr. by apply codec_decode.
  - intros (views & Hc & Hok & Hv). apply Forall2_fmap_r in Hv.
    assert (views = codec_view <$> records ∧ Forall codec_valid records) as [-> Hvalid].
    { clear -Hv. induction Hv as [|view r views records [Hr ->]%codec_decode _ [-> ?]]; auto. }
    rewrite Forall_fmap in Hok. auto.
Qed.
End chunks.

(** ** Building instances *)

(** The body of a decoder that knows one record type. *)
Definition decode_as {R} (type : Z) (p : bytes → result exn R) (record : RecordView)
    : result exn (option R) :=
  if negb (rv_type record =? type) || negb (rv_version record =? kRecordVersion) then Ok None
  else r ← p (rv_payload record); Ok (Some r).

Lemma decode_as_ok {R} type (p : bytes → result exn R) view r :
  decode_as type p view = Ok (Some r) ↔
  rv_type view = type ∧ rv_version view = kRecordVersion ∧ p (rv_payload view) = Ok r.
Proof.
  unfold decode_as. destruct (_ || _) eqn:E; bool_facts.
  - split; [done|]. naive_solver.
  - destruct_and?. rewrite bind_ok. naive_solver.
Qed.

Lemma decode_as_none {R} type (p : bytes → result exn R) view :
  decode_as type p view = Ok None ↔
  ¬ (rv_version view = kRecordVersion ∧ rv_type view ∈ [type]).
Proof.
  rewrite list_elem_of_singleton. unfold decode_as. destruct (_ || _) eqn:E; bool_facts.
  - naive_solver.
  - destruct_and?. rewrite bind_ok. naive_solver.
Qed.

(** The view of a record of the current version. *)
Definition view_of (type : Z) (payload : bytes) : RecordView :=
  {| rv_type := type; rv_version := kRecordVersion; rv_payload := payload |}.

(** The appender [validate; append_record(chunk, type, 1, payload, max)]. *)
Lemma append_validated chunk type payload max chunk' (validate : result exn unit) :
  u16 type →
  (validate ;; append_record chunk type kRecordVersion payload max) = Ok chunk' ↔
  validate = Ok tt ∧ record_ok max (view_of type payload) ∧
  size_of chunk + record_size (view_of type payload) ≤ u64_max ∧
  chunk' = chunk ++ record_bytes (view_of type payload).
Proof.
  intros Ht. rewrite bind_ok. setoid_rewrite append_record_ok; [|done|by unfold u16].
  unfold record_size at 1. cbn [rv_payload view_of]. split.
  - intros ([] & -> & ? & ? & ?). by rewrite Z.add_assoc.
  - intros (-> & ? & Hs & ?). exists tt. by rewrite Z.add_assoc in Hs.
Qed.

(** The appender [validate; if (too_large) throw...; append_record(...)]. *)
Lemma append_checked chunk type payload max chunk' (validate : result exn unit) b c msg :
  u16 type →
  (validate ;; throw_if b c msg ;; append_record chunk type kRecordVersion payload max) =
    Ok chunk' ↔
  (validate = Ok tt ∧ b = false) ∧ record_ok max (view_of type payload) ∧
  size_of chunk + record_size (view_of type payload) ≤ u64_max ∧
  chunk' = chunk ++ record_bytes (view_of type payload).
Proof.
  intros Ht. rewrite bind_ok.
  setoid_rewrite (append_validated chunk type payload max chunk' (throw_if b c msg) Ht).
  setoid_rewrite throw_if_ok. split.
  - intros ([] & -> & ?). tauto.
  - intros [[-> ?] ?]. exists tt. tauto.
Qed.

(** The codec of a record with a type of its own. *)
Definition single_codec {R} (append : bytes → R → Z → result exn bytes)
    (decode : RecordView → result exn (option R)) (type : Z) (enc : R → bytes)
    (wt valid : R → Prop) (parse : bytes → result exn R)
    (Happend : ∀ chunk r max chunk', wt r → u32 max →
      append chunk r max = Ok chunk' ↔
      valid r ∧ record_ok max (view_of type (enc r)) ∧
      size_of chunk + record_size (view_of type (enc r)) ≤ u64_max ∧
      chunk' = chunk ++ record_bytes (view_of type (enc r)))
    (Hdecode : ∀ view, decode view = decode_as type parse view)
    (Hparse : ∀ payload r, parse payload = Ok r ↔ payload = enc r ∧ valid r) :
  RecordCodec append decode.
Proof.
  refine {| codec_wt := wt; codec_valid := valid; codec_view := λ r, view_of type (enc r);
            codec_types := [type] |}.
  - exact Happend.
  - intros [t v p] r. rewrite Hdecode, decode_as_ok, Hparse. cbn. unfold view_of. split.
    + by intros (-> & -> & -> & ?).
    + by intros (? & [= -> -> ->]).
  - intros view. rewrite Hdecode. apply decode_as_none.
Defined.

(** ** Chunks of several record kinds

    A consumer tries one decoder after the other: [if (auto a = decode_a(record))
    {...; continue;} if (auto b = decode_b(record)) {...; continue;}]. *)

Definition decode_either {A B} (decode_a : RecordView → result exn (option A))
    (decode_b : RecordView → result exn (option B)) (record : RecordView)
    : result exn (option (A + B)) :=
  decode_a record ≫= λ a : option A,
  match a with
  | Some a => Ok (Some (inl a))
  | None => decode_b record ≫= λ b : option B, Ok (inr <$> b)
  end.

Definition append_either {A B} (append_a : bytes → A → Z → result exn bytes)
    (append_b : bytes → B → Z → result exn bytes) (chunk : bytes) (record : A + B) (max : Z)
    : result exn bytes :=
  match record with inl a => append_a chunk a max | inr b => append_b chunk b max end.

Lemma codec_view_known {R append decode} {codec : @RecordCodec R append decode} r :
  codec_valid r →
  rv_version (codec_view r) = kRecordVersion ∧ rv_type (codec_view r) ∈ codec_types.
Proof.
  intros Hr. apply dec_stable. intros Hn%codec_skip.
  by rewrite (proj2 (codec_decode _ r)) in Hn.
Qed.

Definition either_codec {A B append_a decode_a append_b decode_b}
    (ca : @RecordCodec A append_a decode_a) (cb : @RecordCodec B append_b decode_b)
    (Hdisjoint : ∀ t, t ∈ codec_types (RecordCodec := ca) →
                      t ∉ codec_types (RecordCodec := cb)) :
  RecordCodec (append_either append_a append_b) (decode_either decode_a decode_b).
Proof.
  refine {|
    codec_wt := λ r, match r with inl a => codec_wt a | inr b => codec_wt b end;
    codec_valid := λ r, match r with inl a => codec_valid a | inr b => codec_valid b end;
    codec_view := λ r, match r with inl a => codec_view a | inr b => codec_view b end;
    codec_types := codec_types (RecordCodec := ca) ++ codec_types (RecordCodec := cb) |}.
  - intros chunk [a|b] max chunk'; cbn [append_either]; apply codec_append.
  - intros view r. unfold decode_either. rewrite bind_ok. split.
    + intros ([a|] & Ha & Hr).
      * injection Hr as <-. by apply codec_decode.
      * apply bind_ok in Hr as ([b|] & Hb & [= <-]). by apply codec_decode.
    + destruct r as [a|b]; intros [Hv ->].
      * exists (Some a). split; [|done]. by apply codec_decode.
      * exists None. split.
        { apply codec_skip. intros [_ Ht]. apply (Hdisjoint _ Ht). by apply codec_view_known. }
        by rewrite (proj2 (codec_decode _ b)).
  - intros view. rewrite elem_of_app. unfold decode_either. rewrite bind_ok. split.
    + intros ([a|] & Ha & Hr); [done|]. apply codec_skip in Ha.
      apply bind_ok in Hr as ([b|] & Hb & [=]). apply codec_skip in Hb. tauto.
    + intros Hn. exists None. split; [apply codec_skip; tauto|].
      by rewrite (proj2 (codec_skip view)) by tauto.
Defined.

(** A mixed chunk: what the decoder makes of known and unknown records. *)
Lemma chunk_skips {R append decode} {codec : @RecordCodec R append decode}
    (views : list RecordView) max (records : list (option R)) : u32 max →
  kRecordHeaderSize ≤ max → Forall (record_ok max) views →
  Forall2 (λ view o,
    match o with
    | Some r => codec_valid r ∧ view = codec_view r
    | None => ¬ (rv_version view = kRecordVersion ∧ rv_type view ∈ codec_types)
    end) views records →
  decode_chunk decode (concat (record_bytes <$> views)) max = Some (Ok records).
Proof.
  intros Hmax Hmin Hok Hall. apply decode_chunk_ok; [done..|]. exists views. split_and!; try done.
  eapply Forall2_impl; [exact Hall|]. intros view [r|]; [apply codec_decode|apply codec_skip].
Qed.
