(* ===== verification/Event.v ===== *)
(** * Memory events

    src/include/noleax/trace/event.hpp and src/src/trace/event.cpp: the nine memory
    event kinds, the validity rules every writer and reader applies, and the
    predicates that say which generation an event creates or ends. *)

From S2P Require Import Prelude Bytes WireFormat.

(** ** Data *)

Inductive EventOperation : Set :=
  | Op_kHeapCreate | Op_kHeapDestroy | Op_kAllocate | Op_kReallocate | Op_kFree
  | Op_kVmAllocate | Op_kVmFree | Op_kMap | Op_kUnmap.

Inductive EventStatus : Set :=
  | Status_kSuccess | Status_kFailure | Status_kUnmatched | Status_kPreexisting.

Inductive SystemErrorDomain : Set :=
  | Domain_kNone | Domain_kWin32 | Domain_kNtStatus | Domain_kPosix | Domain_kMach.

Inductive ProcessMemoryScope : Set :=
  | Scope_kCurrentProcess | Scope_kRemoteProcess | Scope_kUnknown.

Inductive ReallocationEffect : Set :=
  | Effect_kNoChange | Effect_kNewGeneration | Effect_kFreed.

#[global] Instance EventOperation_eq_dec : EqDecision EventOperation.
Proof. solve_decision. Defined.
#[global] Instance EventStatus_eq_dec : EqDecision EventStatus.
Proof. solve_decision. Defined.
#[global] Instance SystemErrorDomain_eq_dec : EqDecision SystemErrorDomain.
Proof. solve_decision. Defined.
#[global] Instance ProcessMemoryScope_eq_dec : EqDecision ProcessMemoryScope.
Proof. solve_decision. Defined.
#[global] Instance ReallocationEffect_eq_dec : EqDecision ReallocationEffect.
Proof. solve_decision. Defined.

Record SystemError : Set := { se_domain : SystemErrorDomain; se_code : Z }.

Record EventHeader : Set := {
  sequence : Z;
  monotonic_ticks : Z;
  thread_id : Z;
  api_id : Z;                    (* uint32 *)
  status : EventStatus;
  stack_id : Z;
  eh_flags : Z;                  (* uint32 *)
  system_error : SystemError;
}.

Record ProcessTarget : Set := {
  scope : ProcessMemoryScope;
  process_handle : Z;
  process_id : Z;
}.

Record HeapCreateEvent : Set := {
  hc_heap_handle : Z;
  hc_heap_id : Z;
  hc_heap_flags : Z;
  hc_reserve_size : Z;
  hc_commit_size : Z;
}.

Record HeapDestroyEvent : Set := {
  hd_heap_handle : Z;
  hd_heap_id : Z;
  hd_raw_result : Z;
}.

Record AllocationEvent : Set := {
  al_heap_handle : Z;
  al_heap_id : Z;
  al_requested_size : Z;
  al_result_address : Z;
  al_allocation_id : Z;
  al_api_flags : Z;
}.

Record ReallocationEvent : Set := {
  re_heap_handle : Z;
  re_heap_id : Z;
  re_old_address : Z;
  re_old_allocation_id : Z;
  re_requested_size : Z;
  re_result_address : Z;
  re_new_allocation_id : Z;
  re_api_flags : Z;
  re_effect : ReallocationEffect;
}.

Record FreeEvent : Set := {
  fr_heap_handle : Z;
  fr_heap_id : Z;
  fr_address : Z;
  fr_allocation_id : Z;
  fr_raw_result : Z;
  fr_api_flags : Z;
}.

Record VmAllocateEvent : Set := {
  va_target : ProcessTarget;
  va_requested_base : Z;
  va_result_base : Z;
  va_requested_size : Z;
  va_result_size : Z;
  va_mapping_base : Z;
  va_mapping_size : Z;
  va_allocation_type : Z;        (* uint32 *)
  va_protection : Z;             (* uint32 *)
  va_mapping_id : Z;
}.

Record VmFreeEvent : Set := {
  vf_target : ProcessTarget;
  vf_base : Z;
  vf_region_size : Z;
  vf_free_type : Z;              (* uint32 *)
  vf_mapping_id : Z;
}.

Record MapEvent : Set := {
  mp_section_handle : Z;
  mp_target : ProcessTarget;
  mp_result_base : Z;
  mp_view_size : Z;
  mp_section_offset : Z;
  mp_protection : Z;             (* uint32 *)
  mp_mapping_id : Z;
}.

Record UnmapEvent : Set := {
  um_target : ProcessTarget;
  um_base : Z;
  um_mapping_id : Z;
}.

Inductive EventPayload : Set :=
  | HeapCreate (e : HeapCreateEvent)
  | HeapDestroy (e : HeapDestroyEvent)
  | Allocation (e : AllocationEvent)
  | Reallocation (e : ReallocationEvent)
  | Free (e : FreeEvent)
  | VmAllocate (e : VmAllocateEvent)
  | VmFree (e : VmFreeEvent)
  | Map (e : MapEvent)
  | Unmap (e : UnmapEvent).

Record Event : Set := { ev_header : EventHeader; ev_payload : EventPayload }.

#[global] Instance SystemError_eq_dec : EqDecision SystemError.
Proof. solve_decision. Defined.
#[global] Instance EventHeader_eq_dec : EqDecision EventHeader.
Proof. solve_decision. Defined.
#[global] Instance ProcessTarget_eq_dec : EqDecision ProcessTarget.
Proof. solve_decision. Defined.
#[global] Instance HeapCreateEvent_eq_dec : EqDecision HeapCreateEvent.
Proof. solve_decision. Defined.
#[global] Instance HeapDestroyEvent_eq_dec : EqDecision HeapDestroyEvent.
Proof. solve_decision. Defined.
#[global] Instance AllocationEvent_eq_dec : EqDecision AllocationEvent.
Proof. solve_decision. Defined.
#[global] Instance ReallocationEvent_eq_dec : EqDecision ReallocationEvent.
Proof. solve_decision. Defined.
#[global] Instance FreeEvent_eq_dec : EqDecision FreeEvent.
Proof. solve_decision. Defined.
#[global] Instance VmAllocateEvent_eq_dec : EqDecision VmAllocateEvent.
Proof. solve_decision. Defined.
#[global] Instance VmFreeEvent_eq_dec : EqDecision VmFreeEvent.
Proof. solve_decision. Defined.
#[global] Instance MapEvent_eq_dec : EqDecision MapEvent.
Proof. solve_decision. Defined.
#[global] Instance UnmapEvent_eq_dec : EqDecision UnmapEvent.
Proof. solve_decision. Defined.
#[global] Instance EventPayload_eq_dec : EqDecision EventPayload.
Proof. solve_decision. Defined.
#[global] Instance Event_eq_dec : EqDecision Event.
Proof. solve_decision. Defined.

(** ** The C++ field types *)

Definition EventHeader_wt (h : EventHeader) : Prop :=
  u64 (sequence h) ∧ u64 (monotonic_ticks h) ∧ u64 (thread_id h) ∧ u32 (api_id h) ∧
  u64 (stack_id h) ∧ u32 (eh_flags h) ∧ u64 (se_code (system_error h)).

Definition ProcessTarget_wt (t : ProcessTarget) : Prop :=
  u64 (process_handle t) ∧ u64 (process_id t).

Definition EventPayload_wt (p : EventPayload) : Prop :=
  match p with
  | HeapCreate e =>
      u64 (hc_heap_handle e) ∧ u64 (hc_heap_id e) ∧ u64 (hc_heap_flags e) ∧
      u64 (hc_reserve_size e) ∧ u64 (hc_commit_size e)
  | HeapDestroy e => u64 (hd_heap_handle e) ∧ u64 (hd_heap_id e) ∧ u64 (hd_raw_result e)
  | Allocation e =>
      u64 (al_heap_handle e) ∧ u64 (al_heap_id e) ∧ u64 (al_requested_size e) ∧
      u64 (al_result_address e) ∧ u64 (al_allocation_id e) ∧ u64 (al_api_flags e)
  | Reallocation e =>
      u64 (re_heap_handle e) ∧ u64 (re_heap_id e) ∧ u64 (re_old_address e) ∧
      u64 (re_old_allocation_id e) ∧ u64 (re_requested_size e) ∧
      u64 (re_result_address e) ∧ u64 (re_new_allocation_id e) ∧ u64 (re_api_flags e)
  | Free e =>
      u64 (fr_heap_handle e) ∧ u64 (fr_heap_id e) ∧ u64 (fr_address e) ∧
      u64 (fr_allocation_id e) ∧ u64 (fr_raw_result e) ∧ u64 (fr_api_flags e)
  | VmAllocate e =>
      ProcessTarget_wt (va_target e) ∧ u64 (va_requested_base e) ∧
      u64 (va_result_base e) ∧ u64 (va_requested_size e) ∧ u64 (va_result_size e) ∧
      u64 (va_mapping_base e) ∧ u64 (va_mapping_size e) ∧ u32 (va_allocation_type e) ∧
      u32 (va_protection e) ∧ u64 (va_mapping_id e)
  | VmFree e =>
      ProcessTarget_wt (vf_target e) ∧ u64 (vf_base e) ∧ u64 (vf_region_size e) ∧
      u32 (vf_free_type e) ∧ u64 (vf_mapping_id e)
  | Map e =>
      u64 (mp_section_handle e) ∧ ProcessTarget_wt (mp_target e) ∧ u64 (mp_result_base e) ∧
      u64 (mp_view_size e) ∧ u64 (mp_section_offset e) ∧ u32 (mp_protection e) ∧
      u64 (mp_mapping_id e)
  | Unmap e => ProcessTarget_wt (um_target e) ∧ u64 (um_base e) ∧ u64 (um_mapping_id e)
  end.

Definition Event_wt (e : Event) : Prop :=
  EventHeader_wt (ev_header e) ∧ EventPayload_wt (ev_payload e).

(** ** Operations *)

Definition event_operation (p : EventPayload) : EventOperation :=
  match p with
  | HeapCreate _ => Op_kHeapCreate
  | HeapDestroy _ => Op_kHeapDestroy
  | Allocation _ => Op_kAllocate
  | Reallocation _ => Op_kReallocate
  | Free _ => Op_kFree
  | VmAllocate _ => Op_kVmAllocate
  | VmFree _ => Op_kVmFree
  | Map _ => Op_kMap
  | Unmap _ => Op_kUnmap
  end.

(** Equality tests of the source on enumerators. *)
Definition status_is (s t : EventStatus) : bool := bool_decide (s = t).
Definition scope_is (s t : ProcessMemoryScope) : bool := bool_decide (s = t).
Definition effect_is (s t : ReallocationEffect) : bool := bool_decide (s = t).
Definition domain_is (s t : SystemErrorDomain) : bool := bool_decide (s = t).

Definition call_succeeded (s : EventStatus) : bool := negb (status_is s Status_kFailure).

Definition allocation_creates_generation (h : EventHeader) (e : AllocationEvent) : bool :=
  call_succeeded (status h) && is_valid (al_allocation_id e).

Definition reallocation_ends_old_generation (h : EventHeader) (e : ReallocationEvent) : bool :=
  call_succeeded (status h) && is_valid (re_old_allocation_id e) &&
  (effect_is (re_effect e) Effect_kNewGeneration || effect_is (re_effect e) Effect_kFreed).

Definition reallocation_creates_new_generation (h : EventHeader) (e : ReallocationEvent) : bool :=
  call_succeeded (status h) && effect_is (re_effect e) Effect_kNewGeneration &&
  is_valid (re_new_allocation_id e).

Definition free_ends_generation (h : EventHeader) (e : FreeEvent) : bool :=
  call_succeeded (status h) && is_valid (fr_allocation_id e).

Definition heap_destroy_ends_generations (h : EventHeader) (e : HeapDestroyEvent) : bool :=
  call_succeeded (status h) && is_valid (hd_heap_id e).

(** ** Validation

    The [is_known_*] switches of the source accept every enumerator, so they
    cannot fail on these types; the decoders of [EventCodec] are what rejects an
    unknown enumerator value. *)

Definition fail (message : string) : result exn unit := throw EventValidationError message.
Definition fail_if (b : bool) (message : string) : result exn unit :=
  throw_if b EventValidationError message.

Definition is_known_status (s : EventStatus) : bool :=
  match s with
  | Status_kSuccess | Status_kFailure | Status_kUnmatched | Status_kPreexisting => true
  end.

Definition is_known_error_domain (d : SystemErrorDomain) : bool :=
  match d with
  | Domain_kNone | Domain_kWin32 | Domain_kNtStatus | Domain_kPosix | Domain_kMach => true
  end.

Definition is_known_process_scope (s : ProcessMemoryScope) : bool :=
  match s with Scope_kCurrentProcess | Scope_kRemoteProcess | Scope_kUnknown => true end.

Definition is_known_reallocation_effect (e : ReallocationEffect) : bool :=
  match e with Effect_kNoChange | Effect_kNewGeneration | Effect_kFreed => true end.

Definition validate_call_result_status (s : EventStatus) (operation : string) : result exn unit :=
  fail_if (negb (status_is s Status_kSuccess) && negb (status_is s Status_kFailure))
    (operation +:+ " status must be success or failure").

Definition validate_header (h : EventHeader) : result exn unit :=
  fail_if (negb (is_valid (sequence h))) "event sequence must not be zero" ;;
  fail_if (negb (is_known_status (status h))) "event status is not supported" ;;
  fail_if (negb (is_known_error_domain (se_domain (system_error h))))
    "event error domain is not supported" ;;
  fail_if (domain_is (se_domain (system_error h)) Domain_kNone &&
           negb (se_code (system_error h) =? 0))
    "an event without an error domain must have a zero error code".

Definition validate_heap_create (h : EventHeader) (e : HeapCreateEvent) : result exn unit :=
  validate_call_result_status (status h) "heap create" ;;
  if call_succeeded (status h) then
    fail_if ((hc_heap_handle e =? 0) || negb (is_valid (hc_heap_id e)))
      "successful heap create must have a handle and heap_id"
  else
    fail_if (is_valid (hc_heap_id e)) "failed heap create must not have a heap_id".

Definition validate_heap_destroy (h : EventHeader) (e : HeapDestroyEvent) : result exn unit :=
  fail_if (status_is (status h) Status_kSuccess && negb (is_valid (hd_heap_id e)))
    "matched successful heap destroy must have a heap_id" ;;
  fail_if ((status_is (status h) Status_kUnmatched || status_is (status h) Status_kPreexisting) &&
           is_valid (hd_heap_id e))
    "unmatched or preexisting heap destroy must not have a heap_id".

Definition validate_allocation (h : EventHeader) (e : AllocationEvent) : result exn unit :=
  validate_call_result_status (status h) "allocation" ;;
  if call_succeeded (status h) then
    fail_if ((al_result_address e =? 0) || negb (is_valid (al_allocation_id e)))
      "successful allocation must have an address and allocation_id"
  else
    fail_if (negb (al_result_address e =? 0) || is_valid (al_allocation_id e))
      "failed allocation must not have a result address or allocation_id".

Definition validate_reallocation (h : EventHeader) (e : ReallocationEvent) : result exn unit :=
  fail_if (negb (is_known_reallocation_effect (re_effect e)))
    "reallocation effect is not supported" ;;
  fail_if ((status_is (status h) Status_kUnmatched || status_is (status h) Status_kPreexisting) &&
           is_valid (re_old_allocation_id e))
    "unmatched or preexisting reallocation must not have an old allocation_id" ;;
  if negb (call_succeeded (status h)) then
    fail_if (negb (effect_is (re_effect e) Effect_kNoChange) ||
             negb (re_result_address e =? 0) || is_valid (re_new_allocation_id e))
      "failed reallocation must preserve the old generation and have no new generation"
  else
    match re_effect e with
    | Effect_kNoChange =>
        fail_if (negb (re_result_address e =? 0) || is_valid (re_new_allocation_id e))
          "no-change reallocation must not have a result or new allocation_id"
    | Effect_kNewGeneration =>
        fail_if ((re_result_address e =? 0) || negb (is_valid (re_new_allocation_id e)))
          "successful reallocation must have a result and new allocation_id" ;;
        fail_if (is_valid (re_old_allocation_id e) &&
                 (re_old_allocation_id e =? re_new_allocation_id e))
          "reallocation generations must have different allocation IDs"
    | Effect_kFreed =>
        fail_if (negb (is_valid (re_old_allocation_id e)))
          "freeing reallocation must identify the old generation" ;;
        fail_if (negb (re_result_address e =? 0) || is_valid (re_new_allocation_id e))
          "freeing reallocation must not have a result or new allocation_id"
    end.

Definition validate_free (h : EventHeader) (e : FreeEvent) : result exn unit :=
  fail_if (status_is (status h) Status_kSuccess && negb (is_valid (fr_allocation_id e)))
    "matched successful free must have an allocation_id" ;;
  fail_if ((status_is (status h) Status_kUnmatched || status_is (status h) Status_kPreexisting) &&
           is_valid (fr_allocation_id e))
    "unmatched or preexisting free must not have an allocation_id".

Definition validate_mapping_creation (h : EventHeader) (target : ProcessTarget)
    (mapping_id : Z) : result exn unit :=
  fail_if (negb (is_known_process_scope (scope target)))
    "process memory scope is not supported" ;;
  fail_if (negb (status_is (status h) Status_kSuccess) &&
           negb (status_is (status h) Status_kFailure) &&
           negb (status_is (status h) Status_kPreexisting))
    "mapping creation status must be success, failure, or preexisting" ;;
  fail_if (negb (call_succeeded (status h)) && is_valid mapping_id)
    "failed virtual memory operation must not have a mapping_id" ;;
  fail_if (negb (scope_is (scope target) Scope_kCurrentProcess) && is_valid mapping_id)
    "non-local virtual memory events must not have a mapping_id" ;;
  fail_if (call_succeeded (status h) && scope_is (scope target) Scope_kCurrentProcess &&
           negb (is_valid mapping_id))
    "successful current-process mapping must have a mapping_id".

Definition validate_mapping_end (h : EventHeader) (target : ProcessTarget)
    (mapping_id : Z) : result exn unit :=
  fail_if (negb (is_known_process_scope (scope target)))
    "process memory scope is not supported" ;;
  fail_if (negb (scope_is (scope target) Scope_kCurrentProcess) && is_valid mapping_id)
    "non-local virtual memory events must not have a mapping_id" ;;
  fail_if ((status_is (status h) Status_kUnmatched || status_is (status h) Status_kPreexisting) &&
           is_valid mapping_id)
    "unmatched or preexisting virtual memory event must not have a mapping_id" ;;
  fail_if (status_is (status h) Status_kSuccess &&
           scope_is (scope target) Scope_kCurrentProcess && negb (is_valid mapping_id))
    "matched successful local virtual memory event must have a mapping_id".

Definition validate_event (e : Event) : result exn unit :=
  validate_header (ev_header e) ;;
  match ev_payload e with
  | HeapCreate p => validate_heap_create (ev_header e) p
  | HeapDestroy p => validate_heap_destroy (ev_header e) p
  | Allocation p => validate_allocation (ev_header e) p
  | Reallocation p => validate_reallocation (ev_header e) p
  | Free p => validate_free (ev_header e) p
  | VmAllocate p => validate_mapping_creation (ev_header e) (va_target p) (va_mapping_id p)
  | VmFree p => validate_mapping_end (ev_header e) (vf_target p) (vf_mapping_id p)
  | Map p => validate_mapping_creation (ev_header e) (mp_target p) (mp_mapping_id p)
  | Unmap p => validate_mapping_end (ev_header e) (um_target p) (um_mapping_id p)
  end.

(** ** Which generation a valid event creates or ends

    [validate_event] and the five [*_generation] predicates are stated over the
    raw fields; on valid events they agree with the intended reading below. *)

Ltac unfold_validation :=
  unfold validate_event, validate_header, validate_heap_create, validate_heap_destroy,
    validate_allocation, validate_reallocation, validate_free, validate_mapping_creation,
    validate_mapping_end, validate_call_result_status, fail_if, call_succeeded, status_is,
    scope_is, effect_is, domain_is in *.

(** The heap generation an event ends and the one it creates. *)
Record lifecycle : Set := { ends_allocation : option Z; creates_allocation : option Z }.

Definition some_if (b : bool) (id : Z) : option Z := if b then Some id else None.

(** What the predicates of the source say. *)
Definition observed_lifecycle (e : Event) : lifecycle :=
  let h := ev_header e in
  match ev_payload e with
  | Allocation a =>
      {| ends_allocation := None;
         creates_allocation :=
           some_if (allocation_creates_generation h a) (al_allocation_id a) |}
  | Reallocation r =>
      {| ends_allocation :=
           some_if (reallocation_ends_old_generation h r) (re_old_allocation_id r);
         creates_allocation :=
           some_if (reallocation_creates_new_generation h r) (re_new_allocation_id r) |}
  | Free f =>
      {| ends_allocation := some_if (free_ends_generation h f) (fr_allocation_id f);
         creates_allocation := None |}
  | _ => {| ends_allocation := None; creates_allocation := None |}
  end.

(** The intended reading, by call status and effect alone. *)
Definition intended_lifecycle (e : Event) : lifecycle :=
  match ev_payload e, status (ev_header e) with
  | Allocation a, Status_kSuccess =>
      {| ends_allocation := None; creates_allocation := Some (al_allocation_id a) |}
  | Free f, Status_kSuccess =>
      {| ends_allocation := Some (fr_allocation_id f); creates_allocation := None |}
  | Reallocation r, Status_kFailure =>
      {| ends_allocation := None; creates_allocation := None |}
  | Reallocation r, _ =>
      match re_effect r with
      | Effect_kNoChange => {| ends_allocation := None; creates_allocation := None |}
      | Effect_kNewGeneration =>
          {| ends_allocation := some_if (is_valid (re_old_allocation_id r)) (re_old_allocation_id r);
             creates_allocation := Some (re_new_allocation_id r) |}
      | Effect_kFreed =>
          {| ends_allocation := Some (re_old_allocation_id r); creates_allocation := None |}
      end
  | _, _ => {| ends_allocation := None; creates_allocation := None |}
  end.

(** On a valid event the generation predicates of the source read exactly the
    call status and the reallocation effect: a heap allocation is created by a
    successful call, ended by a matched free, replaced or freed by a
    reallocation, and never by a failed, unmatched or preexisting end; the two
    generations of a reallocation are distinct. *)
Theorem valid_event_lifecycle (e : Event) :
  validate_event e = Ok tt →
  observed_lifecycle e = intended_lifecycle e ∧
  (∀ id, creates_allocation (observed_lifecycle e) = Some id →
         id ≠ 0 ∧ ends_allocation (observed_lifecycle e) ≠ Some id).
Proof.
  destruct e as [[sq tk th api st sid fl [dom code]] p]. intros H.
  destruct p as [c|d|a|r|f|va|vf|m|u]; try (split; [done|done]);
    unfold_validation; inv_ok; cbn in *;
    unfold observed_lifecycle, intended_lifecycle, allocation_creates_generation,
      reallocation_ends_old_generation, reallocation_creates_new_generation,
      free_ends_generation, call_succeeded, status_is, effect_is, some_if in *; cbn in *.
  - destruct (is_valid (al_allocation_id a)) eqn:Ev, st; enum_tests; inv_ok; try done;
      bool_facts; naive_solver.
  - destruct (is_valid (re_old_allocation_id r)) eqn:Eo,
      (is_valid (re_new_allocation_id r)) eqn:En, st, (re_effect r);
      enum_tests; inv_ok; try done; bool_facts; naive_solver.
  - destruct (is_valid (fr_allocation_id f)) eqn:Ev, st; enum_tests; inv_ok; try done;
      naive_solver.
Qed.

(** A reallocation that moves generation 1 to generation 2. *)
Definition example_reallocation : Event :=
  {| ev_header :=
       {| sequence := 7; monotonic_ticks := 100; thread_id := 1; api_id := 4;
          status := Status_kSuccess; stack_id := 3; eh_flags := 0;
          system_error := {| se_domain := Domain_kNone; se_code := 0 |} |};
     ev_payload := Reallocation
       {| re_heap_handle := 0x10; re_heap_id := 1; re_old_address := 0x1000;
          re_old_allocation_id := 1; re_requested_size := 64; re_result_address := 0x2000;
          re_new_allocation_id := 2; re_api_flags := 0;
          re_effect := Effect_kNewGeneration |} |}.

Lemma valid_event_lifecycle_witness :
  observed_lifecycle example_reallocation =
    {| ends_allocation := Some 1; creates_allocation := Some 2 |} ∧
  observed_lifecycle example_reallocation = intended_lifecycle example_reallocation.
Proof.
  split; [reflexivity|].
  exact (proj1 (valid_event_lifecycle example_reallocation eq_refl)).
Defined.
