(* ===== verification/Completeness.v ===== *)
(** * Completeness

    src/include/noleax/trace/completeness.hpp and src/src/trace/completeness.cpp:
    the loss, statistics, capture-scope and end-of-trace records with their
    validity rules, the issue mask, and the tracker that folds the records of a
    trace into one report. *)

From S2P Require Import Prelude Bytes WireFormat.

(** ** Data *)

Inductive LossReason : Set :=
  | Reason_kUnknown | Reason_kQueueFull | Reason_kTraceFull | Reason_kWriterError
  | Reason_kStackCaptureFailed | Reason_kRotationLimit | Reason_kDecoderError.

Inductive LossLocation : Set :=
  | Location_kUnknown | Location_kAgentQueue | Location_kWriter | Location_kRotation
  | Location_kDecoder.

#[global] Instance LossReason_eq_dec : EqDecision LossReason.
Proof. solve_decision. Defined.
#[global] Instance LossLocation_eq_dec : EqDecision LossLocation.
Proof. solve_decision. Defined.

Record SequenceRange : Set := { sr_begin : Z; sr_end : Z }.
Record TickRange : Set := { tr_begin : Z; tr_end : Z }.

Record LossRecord : Set := {
  loss_reason : LossReason;
  loss_location : LossLocation;
  estimated_event_count : option Z;
  sequence_range : option SequenceRange;
  tick_range : option TickRange;
}.

Record ApiStatistics : Set := {
  as_api_id : Z;                 (* uint32 *)
  as_observed_calls : Z;
  as_successful_operations : Z;
  as_failed_operations : Z;
  as_filtered_before_queue : Z;
  as_dropped_events : Z;
}.

Record CaptureStatistics : Set := {
  observed_calls : Z;
  successful_operations : Z;
  failed_operations : Z;
  filtered_before_queue : Z;
  dropped_events : Z;
  unique_stacks : Z;
  reused_stacks : Z;
  written_uncompressed_bytes : Z;
  written_stored_bytes : Z;
  per_api : list ApiStatistics;
}.

Inductive CompletenessIssue : Set :=
  | kCaptureDidNotStartAtProcessStart
  | kPreexistingAllocationsUnknown
  | kEventLoss
  | kTraceTruncated
  | kWriterError
  | kUnknownRecordSkipped
  | kMissingEndOfTrace
  | kAbnormalStop
  | kStackDataLoss
  | kPartiallyUnderstoodFormat
  | kCustomHookInstallFailed.

Inductive CompletenessState : Set := kComplete | kIncomplete.
Inductive UnderstandingState : Set := kFull | kPartial.

Record CompletenessReport : Set := from_mask { mask : Z (* uint32 *) }.

Record CaptureScope : Set := {
  started_at_process_start : bool;
  preexisting_allocations_unknown : bool;
}.

Record EndOfTrace : Set := {
  final_sequence : Z;
  final_monotonic_ticks : Z;
  normal_stop : bool;
  target_exit_code : option Z;   (* int32 *)
  aggregate_completeness : CompletenessReport;
}.

#[global] Instance CompletenessIssue_eq_dec : EqDecision CompletenessIssue.
Proof. solve_decision. Defined.
#[global] Instance SequenceRange_eq_dec : EqDecision SequenceRange.
Proof. solve_decision. Defined.
#[global] Instance TickRange_eq_dec : EqDecision TickRange.
Proof. solve_decision. Defined.
#[global] Instance LossRecord_eq_dec : EqDecision LossRecord.
Proof. solve_decision. Defined.
#[global] Instance ApiStatistics_eq_dec : EqDecision ApiStatistics.
Proof. solve_decision. Defined.
#[global] Instance CaptureStatistics_eq_dec : EqDecision CaptureStatistics.
Proof. solve_decision. Defined.
#[global] Instance CompletenessReport_eq_dec : EqDecision CompletenessReport.
Proof. solve_decision. Defined.
#[global] Instance CaptureScope_eq_dec : EqDecision CaptureScope.
Proof. solve_decision. Defined.
#[global] Instance EndOfTrace_eq_dec : EqDecision EndOfTrace.
Proof. solve_decision. Defined.

(** ** The C++ field types *)

Definition LossRecord_wt (l : LossRecord) : Prop :=
  (∀ n, estimated_event_count l = Some n → u64 n) ∧
  (∀ r, sequence_range l = Some r → u64 (sr_begin r) ∧ u64 (sr_end r)) ∧
  (∀ r, tick_range l = Some r → u64 (tr_begin r) ∧ u64 (tr_end r)).

Definition ApiStatistics_wt (a : ApiStatistics) : Prop :=
  u32 (as_api_id a) ∧ u64 (as_observed_calls a) ∧ u64 (as_successful_operations a) ∧
  u64 (as_failed_operations a) ∧ u64 (as_filtered_before_queue a) ∧ u64 (as_dropped_events a).

Definition CaptureStatistics_wt (s : CaptureStatistics) : Prop :=
  u64 (observed_calls s) ∧ u64 (successful_operations s) ∧ u64 (failed_operations s) ∧
  u64 (filtered_before_queue s) ∧ u64 (dropped_events s) ∧ u64 (unique_stacks s) ∧
  u64 (reused_stacks s) ∧ u64 (written_uncompressed_bytes s) ∧ u64 (written_stored_bytes s) ∧
  Forall ApiStatistics_wt (per_api s).

Definition EndOfTrace_wt (e : EndOfTrace) : Prop :=
  u64 (final_sequence e) ∧ u64 (final_monotonic_ticks e) ∧
  (∀ c, target_exit_code e = Some c → i32 c) ∧ u32 (mask (aggregate_completeness e)).

(** ** The issue mask *)

Definition CompletenessIssue_value (i : CompletenessIssue) : Z :=
  match i with
  | kCaptureDidNotStartAtProcessStart => Z.shiftl 1 0
  | kPreexistingAllocationsUnknown => Z.shiftl 1 1
  | kEventLoss => Z.shiftl 1 2
  | kTraceTruncated => Z.shiftl 1 3
  | kWriterError => Z.shiftl 1 4
  | kUnknownRecordSkipped => Z.shiftl 1 5
  | kMissingEndOfTrace => Z.shiftl 1 6
  | kAbnormalStop => Z.shiftl 1 7
  | kStackDataLoss => Z.shiftl 1 8
  | kPartiallyUnderstoodFormat => Z.shiftl 1 9
  | kCustomHookInstallFailed => Z.shiftl 1 10
  end.

Definition or_issues (l : list CompletenessIssue) : Z :=
  foldl (λ acc i, Z.lor acc (CompletenessIssue_value i)) 0 l.

Definition kKnownIssueMask : Z := or_issues
  [kCaptureDidNotStartAtProcessStart; kPreexistingAllocationsUnknown; kEventLoss;
   kTraceTruncated; kWriterError; kUnknownRecordSkipped; kMissingEndOfTrace; kAbnormalStop;
   kStackDataLoss; kPartiallyUnderstoodFormat; kCustomHookInstallFailed].

(** [~x] at width 32. *)
Definition lnot32 (x : Z) : Z := wrap32 (Z.lnot x).

Definition kLifecycleIssueMask : Z :=
  Z.land kKnownIssueMask (lnot32 (CompletenessIssue_value kStackDataLoss)).

Definition kStackDetailIssueMask : Z := or_issues
  [kEventLoss; kTraceTruncated; kWriterError; kUnknownRecordSkipped; kMissingEndOfTrace;
   kAbnormalStop; kStackDataLoss; kPartiallyUnderstoodFormat; kCustomHookInstallFailed].

Definition kUnderstandingIssueMask : Z := or_issues
  [kUnknownRecordSkipped; kPartiallyUnderstoodFormat].

Definition issue_bit (issue : CompletenessIssue) : result exn Z :=
  let bit := CompletenessIssue_value issue in
  throw_if ((bit =? 0) || negb (Z.land bit (bit - 1) =? 0) ||
            (Z.land bit kKnownIssueMask =? 0))
    CompletenessValidationError "completeness issue is not a known single-bit value" ;;
  Ok bit.

Definition add (r : CompletenessReport) (issue : CompletenessIssue)
    : result exn CompletenessReport :=
  bit ← issue_bit issue; Ok (from_mask (Z.lor (mask r) bit)).

Definition remove (r : CompletenessReport) (issue : CompletenessIssue)
    : result exn CompletenessReport :=
  bit ← issue_bit issue; Ok (from_mask (Z.land (mask r) (lnot32 bit))).

Definition merge (r other : CompletenessReport) : CompletenessReport :=
  from_mask (Z.lor (mask r) (mask other)).

Definition has (r : CompletenessReport) (issue : CompletenessIssue) : result exn bool :=
  bit ← issue_bit issue; Ok (negb (Z.land (mask r) bit =? 0)).

Definition overall_state (r : CompletenessReport) : CompletenessState :=
  if mask r =? 0 then kComplete else kIncomplete.

Definition lifecycle_state (r : CompletenessReport) : CompletenessState :=
  let unknown_issues := Z.land (mask r) (lnot32 kKnownIssueMask) in
  if (Z.land (mask r) kLifecycleIssueMask =? 0) && (unknown_issues =? 0)
  then kComplete else kIncomplete.

Definition stack_detail_state (r : CompletenessReport) : CompletenessState :=
  let unknown_issues := Z.land (mask r) (lnot32 kKnownIssueMask) in
  if (Z.land (mask r) kStackDetailIssueMask =? 0) && (unknown_issues =? 0)
  then kComplete else kIncomplete.

Definition understanding_state (r : CompletenessReport) : UnderstandingState :=
  let unknown_issues := Z.land (mask r) (lnot32 kKnownIssueMask) in
  if (Z.land (mask r) kUnderstandingIssueMask =? 0) && (unknown_issues =? 0)
  then kFull else kPartial.

Definition recommended_exit_code (r : CompletenessReport) : Z :=
  match overall_state r with kComplete => 0 | kIncomplete => 2 end.

(** ** Record validation *)

Definition is_known_loss_reason (r : LossReason) : bool :=
  match r with
  | Reason_kQueueFull | Reason_kTraceFull | Reason_kWriterError
  | Reason_kStackCaptureFailed | Reason_kRotationLimit | Reason_kDecoderError => true
  | Reason_kUnknown => false
  end.

Definition is_known_loss_location (l : LossLocation) : bool :=
  match l with
  | Location_kAgentQueue | Location_kWriter | Location_kRotation | Location_kDecoder => true
  | Location_kUnknown => false
  end.

Definition invalid_if (b : bool) (message : string) : result exn unit :=
  throw_if b CompletenessValidationError message.

(** [validate_call_counts]; the subtractions are guarded, so they do not wrap. *)
Definition validate_call_counts (observed succeeded failed filtered dropped : Z)
    (subject : string) : result exn unit :=
  invalid_if ((observed <? succeeded) || (observed <? failed) ||
              negb (succeeded =? observed - failed))
    (subject +:+ " successful and failed counts must sum to observed calls") ;;
  invalid_if ((observed <? filtered) || (observed - filtered <? dropped))
    (subject +:+ " filtered and dropped counts exceed observed calls").

Definition checked_add (total value : Z) : result exn Z :=
  invalid_if (u64_max - value <? total) "per-API statistics overflow their aggregate" ;;
  Ok (wrap64 (total + value)).

Definition validate_loss_record (loss : LossRecord) : result exn unit :=
  invalid_if (negb (is_known_loss_reason (loss_reason loss))) "loss reason must be specified" ;;
  invalid_if (negb (is_known_loss_location (loss_location loss)))
    "loss location must be specified" ;;
  invalid_if (match estimated_event_count loss with Some n => n =? 0 | None => false end)
    "known loss event count must not be zero" ;;
  invalid_if
    (match sequence_range loss with
     | Some range => negb (is_valid (sr_begin range)) || negb (is_valid (sr_end range)) ||
                     (sr_end range <? sr_begin range)
     | None => false
     end) "loss sequence range is invalid" ;;
  invalid_if (match tick_range loss with Some r => tr_end r <? tr_begin r | None => false end)
    "loss tick range is reversed".

(** The running totals of the loop over [per_api] and the ids seen so far. *)
Record api_totals : Set := {
  t_observed : Z; t_succeeded : Z; t_failed : Z; t_filtered : Z; t_dropped : Z;
  t_seen : gset Z;
}.

Definition api_totals_zero : api_totals :=
  {| t_observed := 0; t_succeeded := 0; t_failed := 0; t_filtered := 0; t_dropped := 0;
     t_seen := ∅ |}.

Definition validate_api (t : api_totals) (api : ApiStatistics) : result exn api_totals :=
  invalid_if (as_api_id api =? 0) "per-API statistics require a nonzero api_id" ;;
  invalid_if (bool_decide (as_api_id api ∈ t_seen t))
    "per-API statistics contain a duplicate api_id" ;;
  validate_call_counts (as_observed_calls api) (as_successful_operations api)
    (as_failed_operations api) (as_filtered_before_queue api) (as_dropped_events api) "per-API" ;;
  observed ← checked_add (t_observed t) (as_observed_calls api);
  succeeded ← checked_add (t_succeeded t) (as_successful_operations api);
  failed ← checked_add (t_failed t) (as_failed_operations api);
  filtered ← checked_add (t_filtered t) (as_filtered_before_queue api);
  dropped ← checked_add (t_dropped t) (as_dropped_events api);
  Ok {| t_observed := observed; t_succeeded := succeeded; t_failed := failed;
        t_filtered := filtered; t_dropped := dropped;
        t_seen := {[ as_api_id api ]} ∪ t_seen t |}.

Fixpoint validate_apis (t : api_totals) (apis : list ApiStatistics) : result exn api_totals :=
  match apis with
  | [] => Ok t
  | api :: apis => t ← validate_api t api; validate_apis t apis
  end.

Definition validate_statistics (s : CaptureStatistics) : result exn unit :=
  validate_call_counts (observed_calls s) (successful_operations s) (failed_operations s)
    (filtered_before_queue s) (dropped_events s) "aggregate" ;;
  t ← validate_apis api_totals_zero (per_api s);
  invalid_if (negb (t_observed t =? observed_calls s) ||
              negb (t_succeeded t =? successful_operations s) ||
              negb (t_failed t =? failed_operations s) ||
              negb (t_filtered t =? filtered_before_queue s) ||
              negb (t_dropped t =? dropped_events s))
    "per-API statistics do not match their aggregate" ;;
  let recorded_events :=
    wrap64 (observed_calls s - filtered_before_queue s - dropped_events s) in
  invalid_if ((recorded_events <? unique_stacks s) ||
              (recorded_events - unique_stacks s <? reused_stacks s))
    "stack statistics exceed recorded event count".

Definition validate_capture_scope (scope : CaptureScope) : result exn unit :=
  invalid_if (started_at_process_start scope && preexisting_allocations_unknown scope)
    "process-start capture cannot have unknown preexisting allocations".

Definition validate_end_of_trace (e : EndOfTrace) : result exn unit :=
  missing ← has (aggregate_completeness e) kMissingEndOfTrace;
  invalid_if missing "EndOfTrace cannot report itself as missing" ;;
  if normal_stop e then
    abnormal ← has (aggregate_completeness e) kAbnormalStop;
    invalid_if abnormal "normal EndOfTrace cannot report an abnormal stop"
  else Ok tt.

(** ** The tracker *)

Record CompletenessTracker : Set := { report : CompletenessReport; saw_end_of_trace : bool }.

Definition CompletenessTracker_new (scope : CaptureScope) : result exn CompletenessTracker :=
  validate_capture_scope scope ;;
  r ← add (from_mask 0) kMissingEndOfTrace;
  r ← (if negb (started_at_process_start scope)
       then add r kCaptureDidNotStartAtProcessStart else Ok r);
  r ← (if preexisting_allocations_unknown scope
       then add r kPreexistingAllocationsUnknown else Ok r);
  Ok {| report := r; saw_end_of_trace := false |}.

Definition mark (t : CompletenessTracker) (issue : CompletenessIssue)
    : result exn CompletenessTracker :=
  r ← add (report t) issue; Ok {| report := r; saw_end_of_trace := saw_end_of_trace t |}.

Definition observe_loss (t : CompletenessTracker) (loss : LossRecord)
    : result exn CompletenessTracker :=
  invalid_if (saw_end_of_trace t) "Loss record appears after EndOfTrace" ;;
  validate_loss_record loss ;;
  if bool_decide (loss_reason loss = Reason_kStackCaptureFailed) then mark t kStackDataLoss
  else
    t ← mark t kEventLoss;
    if bool_decide (loss_reason loss = Reason_kWriterError) then mark t kWriterError else Ok t.

Definition observe_end_of_trace (t : CompletenessTracker) (e : EndOfTrace)
    : result exn CompletenessTracker :=
  invalid_if (saw_end_of_trace t) "trace contains more than one EndOfTrace record" ;;
  validate_end_of_trace e ;;
  r ← remove (report t) kMissingEndOfTrace;
  let r := merge r (aggregate_completeness e) in
  r ← (if negb (normal_stop e) then add r kAbnormalStop else Ok r);
  Ok {| report := r; saw_end_of_trace := true |}.

Definition mark_trace_truncated t := mark t kTraceTruncated.
Definition mark_writer_error t := t ← mark t kWriterError; mark t kEventLoss.
Definition mark_unknown_record_skipped t := mark t kUnknownRecordSkipped.
Definition mark_partially_understood_format t := mark t kPartiallyUnderstoodFormat.
Definition mark_custom_hook_install_failed t := mark t kCustomHookInstallFailed.

(** ** The mask as a set of issues *)

Definition issue_index (i : CompletenessIssue) : Z :=
  match i with
  | kCaptureDidNotStartAtProcessStart => 0
  | kPreexistingAllocationsUnknown => 1
  | kEventLoss => 2
  | kTraceTruncated => 3
  | kWriterError => 4
  | kUnknownRecordSkipped => 5
  | kMissingEndOfTrace => 6
  | kAbnormalStop => 7
  | kStackDataLoss => 8
  | kPartiallyUnderstoodFormat => 9
  | kCustomHookInstallFailed => 10
  end.

(** The issue set a mask stands for. *)
Definition issue_in (i : CompletenessIssue) (r : CompletenessReport) : bool :=
  Z.testbit (mask r) (issue_index i).

Lemma issue_index_range i : 0 ≤ issue_index i < 32.
Proof. destruct i; simpl; lia. Qed.

Lemma issue_index_inj i j : issue_index i = issue_index j → i = j.
Proof. destruct i, j; simpl; (done || lia). Qed.

Lemma issue_bit_ok i : issue_bit i = Ok (2 ^ issue_index i).
Proof. destruct i; reflexivity. Qed.

Lemma add_ok r i : add r i = Ok (from_mask (Z.setbit (mask r) (issue_index i))).
Proof.
  unfold add. rewrite issue_bit_ok. simpl. pose proof (issue_index_range i).
  by rewrite Z.setbit_spec', Z.lor_comm, Z.lor_comm by lia.
Qed.

Lemma remove_ok r i :
  remove r i = Ok (from_mask (Z.land (mask r) (lnot32 (2 ^ issue_index i)))).
Proof. unfold remove. by rewrite issue_bit_ok. Qed.

Lemma land_pow2_test m k : 0 ≤ k → negb (Z.land m (2 ^ k) =? 0) = Z.testbit m k.
Proof.
  intros Hk. destruct (Z.testbit m k) eqn:E.
  - rewrite negb_true_iff, Z.eqb_neq. intros H0.
    apply (f_equal (λ z, Z.testbit z k)) in H0.
    by rewrite Z.land_spec, Z.pow2_bits_true, E, Z.bits_0 in H0.
  - rewrite negb_false_iff, Z.eqb_eq. apply Z.bits_inj'. intros i Hi.
    rewrite Z.land_spec, Z.bits_0. destruct (decide (i = k)) as [->|].
    + by rewrite E.
    + by rewrite Z.pow2_bits_false, andb_false_r by done.
Qed.

Lemma has_ok r i : has r i = Ok (issue_in i r).
Proof.
  unfold has, issue_in. rewrite issue_bit_ok. simpl. pose proof (issue_index_range i).
  by rewrite land_pow2_test by lia.
Qed.

Lemma testbit_lnot32 z k : 0 ≤ k < 32 → Z.testbit (lnot32 z) k = negb (Z.testbit z k).
Proof.
  intros. unfold lnot32, wrap32. rewrite Z.mod_pow2_bits_low by lia.
  by rewrite Z.lnot_spec by lia.
Qed.

Lemma testbit_lnot32_pow2 z j k : 0 ≤ j < 32 → 0 ≤ k < 32 →
  Z.testbit (Z.land z (lnot32 (2 ^ j))) k = Z.testbit z k && negb (bool_decide (k = j)).
Proof.
  intros. rewrite Z.land_spec, testbit_lnot32 by done. f_equal. f_equal.
  case_bool_decide; [subst; by apply Z.pow2_bits_true; lia|by apply Z.pow2_bits_false].
Qed.

Lemma issue_in_setbit i j m :
  issue_in j (from_mask (Z.setbit m (issue_index i))) =
  (bool_decide (j = i) || issue_in j (from_mask m)).
Proof.
  unfold issue_in. cbn [mask].
  rewrite Z.setbit_eqb by (apply issue_index_range). f_equal.
  case_bool_decide; [subst; apply Z.eqb_refl|].
  apply Z.eqb_neq. intros E. by apply issue_index_inj in E.
Qed.

(** the issue mask implements a set of issues: no operation throws, [has] is
    membership, [add] inserts, [remove] deletes and [merge] is union. *)
Theorem report_implements_issue_set (r other : CompletenessReport) (i j : CompletenessIssue) :
  has r i = Ok (issue_in i r) ∧
  (∃ r', add r i = Ok r' ∧ issue_in j r' = (bool_decide (j = i) || issue_in j r)) ∧
  (∃ r', remove r i = Ok r' ∧ issue_in j r' = issue_in j r && negb (bool_decide (j = i))) ∧
  issue_in j (merge r other) = (issue_in j r || issue_in j other).
Proof.
  split_and!.
  - apply has_ok.
  - eexists. split; [apply add_ok|]. destruct r; apply issue_in_setbit.
  - eexists. split; [apply remove_ok|]. unfold issue_in. cbn [mask].
    rewrite testbit_lnot32_pow2 by apply issue_index_range. do 2 f_equal.
    apply bool_decide_ext. split; [apply issue_index_inj|by intros ->].
  - apply Z.lor_spec.
Qed.

(** ** Statistics *)

Definition call_counts_consistent (observed succeeded failed filtered dropped : Z) : Prop :=
  succeeded + failed = observed ∧ filtered + dropped ≤ observed.

Definition sum_of {A} (f : A → Z) (l : list A) : Z := foldr (λ a acc, f a + acc) 0 l.

(** What the statistics record promises. *)
Definition statistics_consistent (s : CaptureStatistics) : Prop :=
  call_counts_consistent (observed_calls s) (successful_operations s) (failed_operations s)
    (filtered_before_queue s) (dropped_events s) ∧
  Forall (λ a, as_api_id a ≠ 0 ∧
    call_counts_consistent (as_observed_calls a) (as_successful_operations a)
      (as_failed_operations a) (as_filtered_before_queue a) (as_dropped_events a)) (per_api s) ∧
  NoDup (as_api_id <$> per_api s) ∧
  sum_of as_observed_calls (per_api s) = observed_calls s ∧
  sum_of as_successful_operations (per_api s) = successful_operations s ∧
  sum_of as_failed_operations (per_api s) = failed_operations s ∧
  sum_of as_filtered_before_queue (per_api s) = filtered_before_queue s ∧
  sum_of as_dropped_events (per_api s) = dropped_events s ∧
  unique_stacks s + reused_stacks s ≤
    observed_calls s - filtered_before_queue s - dropped_events s.

Lemma validate_call_counts_ok o s f fi d subj :
  0 ≤ s → 0 ≤ f → 0 ≤ fi → 0 ≤ d →
  validate_call_counts o s f fi d subj = Ok tt ↔ call_counts_consistent o s f fi d.
Proof.
  intros Hs Hf Hfi Hd. unfold validate_call_counts, call_counts_consistent, invalid_if. split.
  - intros Hok. inv_ok. bool_facts. lia.
  - intros [Hsum Hle].
    replace ((o <? s) || (o <? f) || negb (s =? o - f)) with false
      by (symmetry; bool_facts; lia).
    by replace ((o <? fi) || (o - fi <? d)) with false by (symmetry; bool_facts; lia).
Qed.

Lemma checked_add_ok t v t' : u64 t → u64 v →
  checked_add t v = Ok t' ↔ t' = t + v ∧ t + v ≤ u64_max.
Proof.
  intros Ht Hv. unfold checked_add, invalid_if. split.
  - intros Hok. inv_ok. bool_facts. rewrite wrap64_small in Hok by word. word.
  - intros [-> Hle]. replace (u64_max - v <? t) with false by (symmetry; bool_facts; lia).
    simpl. by rewrite wrap64_small by word.
Qed.

(** The totals after a run of entries. *)
Definition add_totals (t : api_totals) (apis : list ApiStatistics) : api_totals :=
  {| t_observed := t_observed t + sum_of as_observed_calls apis;
     t_succeeded := t_succeeded t + sum_of as_successful_operations apis;
     t_failed := t_failed t + sum_of as_failed_operations apis;
     t_filtered := t_filtered t + sum_of as_filtered_before_queue apis;
     t_dropped := t_dropped t + sum_of as_dropped_events apis;
     t_seen := list_to_set (as_api_id <$> apis) ∪ t_seen t |}.

Definition totals_wt (t : api_totals) : Prop :=
  u64 (t_observed t) ∧ u64 (t_succeeded t) ∧ u64 (t_failed t) ∧ u64 (t_filtered t) ∧
  u64 (t_dropped t).

Definition api_consistent (a : ApiStatistics) : Prop :=
  as_api_id a ≠ 0 ∧
  call_counts_consistent (as_observed_calls a) (as_successful_operations a)
    (as_failed_operations a) (as_filtered_before_queue a) (as_dropped_events a).

Lemma validate_api_ok t a t' : totals_wt t → ApiStatistics_wt a →
  validate_api t a = Ok t' ↔
  api_consistent a ∧ (as_api_id a ∉ t_seen t) ∧ totals_wt (add_totals t [a]) ∧
  t' = add_totals t [a].
Proof.
  intros (Ht1 & Ht2 & Ht3 & Ht4 & Ht5) (Ha0 & Ha1 & Ha2 & Ha3 & Ha4 & Ha5).
  unfold validate_api, api_consistent, totals_wt, add_totals, invalid_if. simpl.
  rewrite union_empty_r_L, !Z.add_0_r. split.
  - intros Hok. inv_ok.
    repeat match goal with
    | H : checked_add _ _ = Ok _ |- _ => apply checked_add_ok in H as [-> ?]; [|done..]
    | H : validate_call_counts _ _ _ _ _ _ = Ok _ |- _ =>
        apply validate_call_counts_ok in H; [|word..]
    end.
    bool_facts. subst t'. split_and!; try done; word.
  - intros ([Hid Hc] & Hseen & (H1 & H2 & H3 & H4 & H5) & ->).
    rewrite (proj2 (Z.eqb_neq _ _) Hid), bool_decide_eq_false_2 by done. simpl.
    assert (validate_call_counts (as_observed_calls a) (as_successful_operations a)
      (as_failed_operations a) (as_filtered_before_queue a) (as_dropped_events a) "per-API"
      = Ok tt) as -> by (apply validate_call_counts_ok; (done || word)). simpl.
    repeat match goal with
    | |- context [checked_add ?t ?v] =>
        assert (checked_add t v = Ok (t + v)) as -> by (apply checked_add_ok; (done || word));
        simpl
    end. done.
Qed.

Lemma sum_of_nonneg {A} (f : A → Z) l : (∀ a, a ∈ l → 0 ≤ f a) → 0 ≤ sum_of f l.
Proof.
  induction l as [|a l IH]; simpl; intros Hpos; [lia|].
  pose proof (Hpos a (list_elem_of_here a l)).
  enough (0 ≤ sum_of f l) by lia. apply IH. intros b Hb. apply Hpos. by right.
Qed.

Lemma add_totals_app t a apis : add_totals (add_totals t [a]) apis = add_totals t (a :: apis).
Proof.
  unfold add_totals. simpl. f_equal; try lia.
  rewrite union_empty_r_L, union_assoc_L. by rewrite (union_comm_L (list_to_set _)).
Qed.

Lemma totals_wt_mono t a apis :
  totals_wt t → ApiStatistics_wt a → Forall ApiStatistics_wt apis →
  totals_wt (add_totals t (a :: apis)) → totals_wt (add_totals t [a]).
Proof.
  intros Ht Ha Hapis. rewrite Forall_forall in Hapis.
  unfold totals_wt, add_totals. simpl.
  assert (∀ f : ApiStatistics → Z, (∀ b, ApiStatistics_wt b → 0 ≤ f b) → 0 ≤ sum_of f apis)
    as Hpos.
  { intros f Hf. apply sum_of_nonneg. eauto. }
  unfold ApiStatistics_wt, totals_wt in *.
  pose proof (Hpos as_observed_calls ltac:(word)).
  pose proof (Hpos as_successful_operations ltac:(word)).
  pose proof (Hpos as_failed_operations ltac:(word)).
  pose proof (Hpos as_filtered_before_queue ltac:(word)).
  pose proof (Hpos as_dropped_events ltac:(word)). word.
Qed.

Lemma validate_apis_ok apis t t' : totals_wt t → Forall ApiStatistics_wt apis →
  validate_apis t apis = Ok t' ↔
  Forall api_consistent apis ∧ NoDup (as_api_id <$> apis) ∧
  (∀ a, a ∈ apis → as_api_id a ∉ t_seen t) ∧
  totals_wt (add_totals t apis) ∧ t' = add_totals t apis.
Proof.
  intros Ht Hapis. revert t Ht. induction Hapis as [|a apis Ha Hapis IH]; intros t Ht.
  - simpl. assert (add_totals t [] = t) as ->.
    { destruct t. unfold add_totals. simpl. f_equal; try lia. by rewrite union_empty_l_L. }
    split; [intros [= <-]; split_and!; try done; [constructor|set_solver]|].
    by intros (_ & _ & _ & _ & ->).
  - cbn [validate_apis]. rewrite bind_ok. split.
    + intros (t1 & H1 & H2). apply validate_api_ok in H1 as (Hc & Hseen & Hwt & ->); [|done..].
      apply IH in H2 as (Hcs & Hnd & Hfresh & Hwt2 & ->); [|done].
      rewrite add_totals_app in *. split_and!; try done; [by constructor| |].
      * apply NoDup_cons. split; [|done]. intros (b & E & Hb)%list_elem_of_fmap.
        specialize (Hfresh b Hb). simpl in Hfresh. set_solver.
      * intros b [->|Hb]%elem_of_cons; [done|]. specialize (Hfresh b Hb).
        simpl in Hfresh. set_solver.
    + intros (Hcs & Hnd & Hfresh & Hwt & ->).
      inversion Hcs; subst. apply NoDup_cons in Hnd as [Hnotin Hnd].
      pose proof (totals_wt_mono _ _ _ Ht Ha Hapis Hwt) as Hwt1.
      exists (add_totals t [a]). split.
      { apply validate_api_ok; [done..|]. split_and!; try done. apply Hfresh. left. }
      apply IH; [done|]. rewrite add_totals_app. split_and!; try done.
      intros b Hb. simpl. intros [E|Hin]%elem_of_union.
      * apply Hnotin. apply list_elem_of_fmap. exists b. set_solver.
      * by apply (Hfresh b); [right|].
Qed.

(** [validate_statistics] accepts exactly the consistent statistics records:
    successes and failures sum to the observed calls, filtered and dropped calls
    fit in them, the per-API entries have distinct nonzero ids and sum to the
    aggregate, and the stack counts fit in the recorded events. *)
Theorem validate_statistics_exact (s : CaptureStatistics) :
  CaptureStatistics_wt s →
  validate_statistics s = Ok tt ↔ statistics_consistent s.
Proof.
  intros (H1 & H2 & H3 & H4 & H5 & H6 & H7 & H8 & H9 & Hapis).
  unfold validate_statistics, statistics_consistent, invalid_if.
  assert (totals_wt api_totals_zero) as Hz by (unfold totals_wt; simpl; word).
  split.
  - intros Hok. inv_ok.
    apply validate_call_counts_ok in E; [|word..].
    apply validate_apis_ok in E0 as (Hcs & Hnd & _ & _ & ->); [|done..].
    unfold call_counts_consistent in E. simpl in *.
    rewrite wrap64_small in Hok by word. bool_facts. split_and!; (done || lia).
  - intros (Hc & Hcs & Hnd & E1 & E2 & E3 & E4 & E5 & Hst).
    assert (validate_call_counts (observed_calls s) (successful_operations s)
      (failed_operations s) (filtered_before_queue s) (dropped_events s) "aggregate"
      = Ok tt) as -> by (apply validate_call_counts_ok; (done || word)). simpl.
    assert (validate_apis api_totals_zero (per_api s)
      = Ok (add_totals api_totals_zero (per_api s))) as ->.
    { apply validate_apis_ok; [done..|]. split_and!; try done.
      unfold totals_wt, add_totals. simpl. word. }
    unfold call_counts_consistent in Hc. simpl.
    assert (u64 (observed_calls s - filtered_before_queue s - dropped_events s)) as Hrec
      by (clear -Hc H1 H2 H3 H4 H5; word).
    rewrite (wrap64_small _ Hrec).
    rewrite E1, E2, E3, E4, E5, !Z.add_0_l, !Z.eqb_refl. simpl.
    apply throw_if_ok. bool_facts. word.
Qed.

Definition example_statistics : CaptureStatistics :=
  {| observed_calls := 10; successful_operations := 8; failed_operations := 2;
     filtered_before_queue := 1; dropped_events := 2; unique_stacks := 3; reused_stacks := 4;
     written_uncompressed_bytes := 4096; written_stored_bytes := 1024;
     per_api :=
       [{| as_api_id := 1; as_observed_calls := 6; as_successful_operations := 5;
           as_failed_operations := 1; as_filtered_before_queue := 1; as_dropped_events := 1 |};
        {| as_api_id := 2; as_observed_calls := 4; as_successful_operations := 3;
           as_failed_operations := 1; as_filtered_before_queue := 0; as_dropped_events := 1 |}] |}.

Lemma example_statistics_wt : CaptureStatistics_wt example_statistics.
Proof.
  unfold CaptureStatistics_wt, ApiStatistics_wt; simpl.
  split_and!; try word. repeat constructor; simpl; word.
Qed.

Lemma validate_statistics_exact_witness :
  validate_statistics example_statistics = Ok tt ∧ statistics_consistent example_statistics.
Proof.
  split; [vm_compute; reflexivity|].
  apply (validate_statistics_exact example_statistics example_statistics_wt).
  vm_compute; reflexivity.
Defined.

(** ** Folding a trace into a report *)

Inductive tracker_op : Set :=
  | OpLoss (l : LossRecord)
  | OpEnd (e : EndOfTrace)
  | OpTraceTruncated
  | OpWriterError
  | OpUnknownRecord
  | OpPartialFormat
  | OpHookInstallFailed.

Definition tracker_step (t : CompletenessTracker) (op : tracker_op)
    : result exn CompletenessTracker :=
  match op with
  | OpLoss l => observe_loss t l
  | OpEnd e => observe_end_of_trace t e
  | OpTraceTruncated => mark_trace_truncated t
  | OpWriterError => mark_writer_error t
  | OpUnknownRecord => mark_unknown_record_skipped t
  | OpPartialFormat => mark_partially_understood_format t
  | OpHookInstallFailed => mark_custom_hook_install_failed t
  end.

Fixpoint tracker_run (t : CompletenessTracker) (ops : list tracker_op)
    : result exn CompletenessTracker :=
  match ops with
  | [] => Ok t
  | op :: ops => t ← tracker_step t op; tracker_run t ops
  end.

Lemma mark_ok t i :
  mark t i = Ok {| report := from_mask (Z.setbit (mask (report t)) (issue_index i));
                   saw_end_of_trace := saw_end_of_trace t |}.
Proof. unfold mark. by rewrite add_ok. Qed.

(** The issues a mark leaves behind are those it found and the one it adds. *)
Lemma mark_issue_in t i t' j : mark t i = Ok t' →
  issue_in j (report t') = (bool_decide (j = i) || issue_in j (report t)) ∧
  saw_end_of_trace t' = saw_end_of_trace t.
Proof.
  rewrite mark_ok. intros [= <-]. simpl. split; [|done].
  destruct (report t). apply issue_in_setbit.
Qed.

(** Some issue other than the missing end of trace (or an unknown bit) is set. *)
Definition stuck (r : CompletenessReport) : Prop :=
  ∃ k, 0 ≤ k < 32 ∧ k ≠ issue_index kMissingEndOfTrace ∧ Z.testbit (mask r) k = true.

Lemma stuck_nonzero r : stuck r → mask r ≠ 0.
Proof. intros (k & _ & _ & Hk) E. by rewrite E, Z.bits_0 in Hk. Qed.

Lemma mark_stuck t i t' : mark t i = Ok t' →
  (i ≠ kMissingEndOfTrace ∨ stuck (report t)) → stuck (report t').
Proof.
  rewrite mark_ok. intros [= <-] Hor. unfold stuck. simpl.
  pose proof (issue_index_range i). destruct Hor as [Hi|(k & Hk0 & Hk & Hbit)].
  - exists (issue_index i). split_and!; [lia|lia| |].
    + intros E. by apply (issue_index_inj i kMissingEndOfTrace) in E.
    + rewrite Z.setbit_eqb, Z.eqb_refl by lia. done.
  - exists k. split_and!; [lia..|done|]. by rewrite Z.setbit_eqb, Hbit, orb_true_r by lia.
Qed.

(** What [observe_end_of_trace] does to a report. *)
Lemma observe_end_ok t e t' : observe_end_of_trace t e = Ok t' →
  saw_end_of_trace t = false ∧ saw_end_of_trace t' = true ∧
  validate_end_of_trace e = Ok tt ∧
  mask (report t') =
    (let m := Z.lor (Z.land (mask (report t)) (lnot32 (2 ^ issue_index kMissingEndOfTrace)))
                    (mask (aggregate_completeness e)) in
     if normal_stop e then m else Z.setbit m (issue_index kAbnormalStop)).
Proof.
  unfold observe_end_of_trace, invalid_if. intros Hok. inv_ok.
  rewrite remove_ok in *. inv_ok. subst. split_and!; try done.
  destruct (normal_stop e); simpl in *; inv_ok; [by subst|].
  rewrite add_ok in *. inv_ok. by subst.
Qed.

Lemma observe_end_stuck t e t' :
  observe_end_of_trace t e = Ok t' → stuck (report t) → stuck (report t').
Proof.
  intros (_ & _ & _ & Hm)%observe_end_ok (k & Hk0 & Hk & Hbit).
  exists k. split_and!; [lia..|done|]. rewrite Hm.
  assert (Z.testbit (Z.lor (Z.land (mask (report t)) (lnot32 (2 ^ issue_index kMissingEndOfTrace)))
    (mask (aggregate_completeness e))) k = true) as Hlor.
  { rewrite Z.lor_spec, testbit_lnot32_pow2, Hbit by (simpl; lia).
    by rewrite bool_decide_eq_false_2. }
  cbv zeta. destruct (normal_stop e); [done|].
  by rewrite Z.setbit_eqb, Hlor, orb_true_r by (simpl; lia).
Qed.

Lemma tracker_step_stuck t op t' : tracker_step t op = Ok t' →
  ((∀ e, op ≠ OpEnd e) ∨ stuck (report t)) → stuck (report t').
Proof.
  intros Hstep Hor.
  assert (∀ i t1 t2, i ≠ kMissingEndOfTrace → mark t1 i = Ok t2 → stuck (report t2)) as Hmark.
  { intros i t1 t2 Hi Hm. eapply mark_stuck; eauto. }
  destruct op as [l|e| | | | |]; simpl in Hstep.
  2: { destruct Hor as [Hne|Hs]; [by destruct (Hne e)|]. by eapply observe_end_stuck. }
  2, 4, 5, 6: by eapply Hmark; [|exact Hstep].
  - unfold observe_loss, invalid_if in Hstep. inv_ok. destruct (bool_decide _).
    + by eapply Hmark; [|exact Hstep].
    + inv_ok. destruct (bool_decide _); [by eapply Hmark; [|exact Hstep]|].
      inv_ok. subst. by eapply Hmark; [|exact E1].
  - unfold mark_writer_error in Hstep. inv_ok. by eapply Hmark; [|exact Hstep].
Qed.

Lemma tracker_run_stuck ops t t' :
  tracker_run t ops = Ok t' → stuck (report t) → stuck (report t').
Proof.
  revert t; induction ops as [|op ops IH]; intros t; simpl; [by intros [= <-]|].
  intros Hrun Hs. inv_ok. eapply IH; [done|]. eapply tracker_step_stuck; eauto.
Qed.

(** Nothing but a mark may follow the end of the trace. *)
Lemma tracker_step_after_end t op t' :
  saw_end_of_trace t = true → tracker_step t op = Ok t' → stuck (report t').
Proof.
  intros Hsaw Hstep. eapply tracker_step_stuck; [done|]. left. intros e ->.
  apply observe_end_ok in Hstep as (? & _). congruence.
Qed.

Lemma tracker_new_mask scope t : CompletenessTracker_new scope = Ok t →
  saw_end_of_trace t = false ∧
  mask (report t) = Z.lor 64 (Z.lor
    (if started_at_process_start scope then 0 else 1)
    (if preexisting_allocations_unknown scope then 2 else 0)).
Proof.
  unfold CompletenessTracker_new, validate_capture_scope, invalid_if. intros Hok.
  destruct scope as [[] []]; simpl in *; inv_ok; subst; vm_compute in *; naive_solver.
Qed.

(** The analyzer's exit code is 0 exactly for a capture that started with the
    process, has no unknown earlier allocations, and whose records report no
    loss and no mark of any kind before or after its one, normal, clean end of
    trace; every other accepted record sequence gives exit code 2. *)
Theorem tracker_exit_code (scope : CaptureScope) (ops : list tracker_op)
    (t0 t : CompletenessTracker) :
  CompletenessTracker_new scope = Ok t0 → tracker_run t0 ops = Ok t →
  (recommended_exit_code (report t) = 0 ∧
   started_at_process_start scope = true ∧ preexisting_allocations_unknown scope = false ∧
   ∃ e, ops = [OpEnd e] ∧ normal_stop e = true ∧ mask (aggregate_completeness e) = 0) ∨
  (recommended_exit_code (report t) = 2 ∧
   ¬ (started_at_process_start scope = true ∧ preexisting_allocations_unknown scope = false ∧
      ∃ e, ops = [OpEnd e] ∧ normal_stop e = true ∧ mask (aggregate_completeness e) = 0)).
Proof.
  intros [Hsaw0 Hm0]%tracker_new_mask Hrun.
  unfold recommended_exit_code, overall_state.
  destruct (mask (report t) =? 0) eqn:Ez; bool_facts; [left|right]; (split; [done|]).
  - destruct ops as [|op ops]; simpl in Hrun; inv_ok.
    { subst t0. rewrite Hm0 in Ez. by destruct scope as [[] []]. }
    assert (∃ e, op = OpEnd e) as [e ->].
    { destruct op as [l|e| | | | |]; [|by eexists|..]; exfalso;
        (eapply stuck_nonzero; [|exact Ez]); (eapply tracker_run_stuck; [exact Hrun|]);
        (eapply tracker_step_stuck; [exact E|by left]). }
    apply observe_end_ok in E as (_ & Hsaw & _ & Hm).
    destruct ops as [|op' ops]; simpl in Hrun; inv_ok.
    2: { exfalso. eapply stuck_nonzero; [|exact Ez]. eapply tracker_run_stuck; [exact Hrun|].
         by eapply tracker_step_after_end. }
    subst a. rewrite Ez, Hm0 in Hm. destruct (normal_stop e) eqn:En; cbv zeta in Hm.
    2: { exfalso. symmetry in Hm. apply (f_equal (λ z, Z.testbit z 7)) in Hm.
         by rewrite Z.setbit_eqb in Hm by (simpl; lia). }
    symmetry in Hm. apply Z.lor_eq_0_iff in Hm as [Hm1 Hm2].
    destruct scope as [[] []]; vm_compute in Hm1; try discriminate. eauto 10.
  - intros (Hs & Hp & e & -> & Hn & He). apply Ez. simpl in Hrun. inv_ok. subst.
    apply observe_end_ok in E as (_ & _ & _ & Hm).
    rewrite Hm, Hm0, Hn, He, Hs, Hp. done.
Qed.

Definition example_end : EndOfTrace :=
  {| final_sequence := 9; final_monotonic_ticks := 1000; normal_stop := true;
     target_exit_code := Some 0; aggregate_completeness := from_mask 0 |}.

Lemma tracker_exit_code_witness :
  recommended_exit_code (from_mask 0) = 0.
Proof.
  destruct (tracker_exit_code
    {| started_at_process_start := true; preexisting_allocations_unknown := false |}
    [OpEnd example_end] {| report := from_mask 64; saw_end_of_trace := false |}
    {| report := from_mask 0; saw_end_of_trace := true |} eq_refl eq_refl) as [[H _]|[_ H]].
  - exact H.
  - exfalso. apply H. split_and!; [done|done|]. by exists example_end.
Defined.
