(* ===== verification/TraceData.v ===== *)
(** * Dictionary and snapshot records

    The module, stack, custom-hook and memory-snapshot records of
    src/include/noleax/trace/{module,stack,custom_hook,memory_snapshot}.hpp with the
    validity rules of the .cpp files of the same names under src/src/trace/. *)

From S2P Require Import Prelude Bytes WireFormat.

(** ** Modules (module.hpp, module.cpp) *)

Record PeImageIdentity : Set := {
  pe_timestamp : Z; pe_checksum : Z; pe_image_size : Z  (* uint32 each *)
}.

Record PdbIdentity : Set := {
  pdb_guid : bytes;              (* 16 bytes *)
  pdb_age : Z                    (* uint32 *)
}.

(** [kPathTruncated | kPdbPathTruncated] *)
Definition kKnownModuleLoadFlags : Z := Z.lor (Z.shiftl 1 0) (Z.shiftl 1 1).

Record ModuleLoad : Set := {
  ml_module_id : Z;
  ml_monotonic_ticks : Z;
  ml_base_address : Z;
  ml_image_size : Z;
  ml_image_path : bytes;
  ml_image_identity : option PeImageIdentity;
  ml_pdb_identity : option PdbIdentity;
  ml_pdb_path : bytes;
  ml_flags : Z;                  (* uint32 *)
}.

Record ModuleUnload : Set := { mu_module_id : Z; mu_monotonic_ticks : Z }.

Inductive ModuleRecord : Set :=
  | ModuleRecord_Load (load : ModuleLoad)
  | ModuleRecord_Unload (unload : ModuleUnload).

#[global] Instance PeImageIdentity_eq_dec : EqDecision PeImageIdentity.
Proof. solve_decision. Defined.
#[global] Instance PdbIdentity_eq_dec : EqDecision PdbIdentity.
Proof. solve_decision. Defined.
#[global] Instance ModuleLoad_eq_dec : EqDecision ModuleLoad.
Proof. solve_decision. Defined.
#[global] Instance ModuleUnload_eq_dec : EqDecision ModuleUnload.
Proof. solve_decision. Defined.
#[global] Instance ModuleRecord_eq_dec : EqDecision ModuleRecord.
Proof. solve_decision. Defined.

Definition ModuleLoad_wt (l : ModuleLoad) : Prop :=
  u64 (ml_module_id l) ∧ u64 (ml_monotonic_ticks l) ∧ u64 (ml_base_address l) ∧
  u64 (ml_image_size l) ∧ u32 (ml_flags l) ∧
  (∀ i, ml_image_identity l = Some i →
    u32 (pe_timestamp i) ∧ u32 (pe_checksum i) ∧ u32 (pe_image_size i)) ∧
  (∀ i, ml_pdb_identity l = Some i → length (pdb_guid i) = 16%nat ∧ u32 (pdb_age i)).

Definition ModuleUnload_wt (u : ModuleUnload) : Prop :=
  u64 (mu_module_id u) ∧ u64 (mu_monotonic_ticks u).

(** [value.empty()] and [value.find('\0') != npos] *)
Definition is_empty (value : bytes) : bool := match value with [] => true | _ => false end.
Definition contains_nul (value : bytes) : bool := existsb (Byte.eqb x00) value.

Module module_string.
Definition validate_string (value : bytes) (field : string) (required : bool)
    : result exn unit :=
  throw_if (required && is_empty value) ModuleValidationError (field +:+ " must not be empty") ;;
  throw_if (contains_nul value) ModuleValidationError (field +:+ " must not contain NUL").
End module_string.

(** [~kKnownModuleLoadFlags] at width 32. *)
Definition validate_module_load (load : ModuleLoad) : result exn unit :=
  throw_if (negb (is_valid (ml_module_id load)))
    ModuleValidationError "module load requires a nonzero module_id" ;;
  throw_if ((ml_base_address load =? 0) || (ml_image_size load =? 0) ||
            (u64_max - ml_base_address load <? ml_image_size load))
    ModuleValidationError "module load address range is invalid" ;;
  module_string.validate_string (ml_image_path load) "module image path" true ;;
  module_string.validate_string (ml_pdb_path load) "module PDB path" false ;;
  throw_if (negb (Z.land (ml_flags load) (wrap32 (Z.lnot kKnownModuleLoadFlags)) =? 0))
    ModuleValidationError "module load flags are not supported in V1" ;;
  throw_if (match ml_image_identity load with
            | Some i => negb (pe_image_size i =? ml_image_size load)
            | None => false
            end)
    ModuleValidationError "module PE identity size does not match the image range" ;;
  throw_if (match ml_pdb_identity load with
            | Some _ => false
            | None => negb (is_empty (ml_pdb_path load))
            end)
    ModuleValidationError "module PDB path requires a PDB identity".

Definition validate_module_unload (unload : ModuleUnload) : result exn unit :=
  throw_if (negb (is_valid (mu_module_id unload)))
    ModuleValidationError "module unload requires a nonzero module_id".

(** ** Stacks (stack.hpp, stack.cpp) *)

Inductive StackCaptureStatus : Set :=
  | Stack_kComplete | Stack_kTruncatedByDepth | Stack_kUnwindFailed | Stack_kUnavailable.

#[global] Instance StackCaptureStatus_eq_dec : EqDecision StackCaptureStatus.
Proof. solve_decision. Defined.

Record StackFrame : Set := {
  sf_module_id : Z;
  sf_module_offset : Z;
  sf_absolute_address : Z;
  sf_flags : Z;                  (* uint32 *)
}.

Record StackDefinition : Set := {
  sd_stack_id : Z;
  sd_status : StackCaptureStatus;
  sd_frames : list StackFrame;
}.

#[global] Instance StackFrame_eq_dec : EqDecision StackFrame.
Proof. solve_decision. Defined.
#[global] Instance StackDefinition_eq_dec : EqDecision StackDefinition.
Proof. solve_decision. Defined.

Definition StackFrame_wt (f : StackFrame) : Prop :=
  u64 (sf_module_id f) ∧ u64 (sf_module_offset f) ∧ u64 (sf_absolute_address f) ∧
  u32 (sf_flags f).
Definition StackDefinition_wt (d : StackDefinition) : Prop :=
  u64 (sd_stack_id d) ∧ Forall StackFrame_wt (sd_frames d).

Definition is_known_stack_status (s : StackCaptureStatus) : bool :=
  match s with
  | Stack_kComplete | Stack_kTruncatedByDepth | Stack_kUnwindFailed | Stack_kUnavailable => true
  end.

Definition stack_status_is (s t : StackCaptureStatus) : bool := bool_decide (s = t).

Definition validate_stack_frame (frame : StackFrame) : result exn unit :=
  throw_if (sf_absolute_address frame =? 0)
    StackValidationError "stack frame requires a nonzero absolute address" ;;
  throw_if (negb (is_valid (sf_module_id frame)) && negb (sf_module_offset frame =? 0))
    StackValidationError "stack frame without a module must have a zero module offset" ;;
  throw_if (negb (sf_flags frame =? 0))
    StackValidationError "stack frame flags are not supported in V1".

(** [for (const T& x : l) check(x);] *)
Fixpoint for_each {A} (check : A → result exn unit) (l : list A) : result exn unit :=
  match l with [] => Ok tt | x :: l => check x ;; for_each check l end.

Definition validate_stack_definition (d : StackDefinition) : result exn unit :=
  throw_if (negb (is_valid (sd_stack_id d)))
    StackValidationError "stack definition requires a nonzero stack_id" ;;
  throw_if (negb (is_known_stack_status (sd_status d)))
    StackValidationError "stack definition status is not supported" ;;
  let has_frames := match sd_frames d with [] => false | _ => true end in
  throw_if (negb (eqb (stack_status_is (sd_status d) Stack_kComplete ||
                       stack_status_is (sd_status d) Stack_kTruncatedByDepth) has_frames))
    StackValidationError "successful stack definition must contain frames" ;;
  throw_if ((stack_status_is (sd_status d) Stack_kUnwindFailed ||
             stack_status_is (sd_status d) Stack_kUnavailable) && has_frames)
    StackValidationError "unavailable stack definition must not contain frames" ;;
  for_each validate_stack_frame (sd_frames d).

(** ** Custom hooks (custom_hook.hpp, custom_hook.cpp) *)

Definition kCustomHookApiIdBase : Z := 0x1000.

Record CustomHookDefinition : Set := {
  chd_api_id : Z;                (* uint32 *)
  chd_module_name : bytes;
  chd_label : bytes;
}.

Inductive CustomHookFailureRole : Set :=
  | Role_kAlloc | Role_kRealloc | Role_kFree | Role_kPoint.

Inductive CustomHookFailureReason : Set :=
  | HookReason_kModuleNotLoaded | HookReason_kExportNotFound | HookReason_kForwardedExport
  | HookReason_kInvalidRva | HookReason_kWrongSignature | HookReason_kImageIdentityMismatch
  | HookReason_kBackendUnavailable | HookReason_kOther.

Record CustomHookFailure : Set := {
  chf_module : bytes;
  chf_role : CustomHookFailureRole;
  chf_reason : CustomHookFailureReason;
  chf_detail : bytes;
}.

#[global] Instance CustomHookDefinition_eq_dec : EqDecision CustomHookDefinition.
Proof. solve_decision. Defined.
#[global] Instance CustomHookFailureRole_eq_dec : EqDecision CustomHookFailureRole.
Proof. solve_decision. Defined.
#[global] Instance CustomHookFailureReason_eq_dec : EqDecision CustomHookFailureReason.
Proof. solve_decision. Defined.
#[global] Instance CustomHookFailure_eq_dec : EqDecision CustomHookFailure.
Proof. solve_decision. Defined.

Definition CustomHookDefinition_wt (d : CustomHookDefinition) : Prop := u32 (chd_api_id d).

Module custom_hook_string.
Definition validate_string (value : bytes) (field : string) : result exn unit :=
  throw_if (is_empty value) CustomHookValidationError (field +:+ " must not be empty") ;;
  throw_if (contains_nul value) CustomHookValidationError (field +:+ " must not contain NUL").
End custom_hook_string.

Definition validate_custom_hook_definition (d : CustomHookDefinition) : result exn unit :=
  throw_if (chd_api_id d <? kCustomHookApiIdBase)
    CustomHookValidationError "custom hook api_id is outside the custom hook ID range" ;;
  custom_hook_string.validate_string (chd_module_name d) "custom hook module name" ;;
  custom_hook_string.validate_string (chd_label d) "custom hook label".

Definition validate_custom_hook_failure (f : CustomHookFailure) : result exn unit :=
  custom_hook_string.validate_string (chf_module f) "custom hook failure module" ;;
  custom_hook_string.validate_string (chf_detail f) "custom hook failure detail".

(** ** Memory snapshots (memory_snapshot.hpp, memory_snapshot.cpp) *)

Definition kMaximumMemoryMapRegions : Z := 32768.
Definition kMaximumAgentMemoryCategories : Z := 64.

Record MemoryCounters : Set := {
  mc_monotonic_ticks : Z;
  working_set_bytes : Z;
  peak_working_set_bytes : Z;
  private_bytes : Z;
  commit_bytes : Z;
}.

Inductive MemoryRegionState : Set := Region_kCommit | Region_kReserve.
Inductive MemoryRegionType : Set := Region_kImage | Region_kMapped | Region_kPrivate.

Record MemoryMapRegion : Set := {
  mr_base : Z;
  mr_size : Z;
  mr_state : MemoryRegionState;
  mr_type : MemoryRegionType;
  mr_protect : Z;                (* uint32 *)
}.

Record MemoryMap : Set := {
  mm_monotonic_ticks : Z;
  mm_truncated : bool;
  mm_committed_bytes : Z;
  mm_reserved_bytes : Z;
  mm_free_bytes : Z;
  mm_largest_free_bytes : Z;
  mm_regions : list MemoryMapRegion;
}.

(** [AgentMemoryCategory] keeps unknown wire values ("preserved, not rejected"),
    so it is its uint32 value; the six named categories are 1 to 6. *)
Record AgentMemoryCategorySample : Set := {
  amc_category : Z;              (* uint32 *)
  amc_flags : Z;                 (* uint32 *)
  amc_reserved_bytes : Z;
  amc_resident_bytes : Z;
}.

Inductive AgentMemorySampleKind : Set :=
  | Sample_kPeriodic | Sample_kBaselinePreInit | Sample_kBaselinePostInit.

Record AgentMemory : Set := {
  am_monotonic_ticks : Z;
  am_kind : AgentMemorySampleKind;
  am_categories : list AgentMemoryCategorySample;
}.

Record BufferConfiguration : Set := {
  bc_requested_bytes : Z;
  bc_effective_slots : Z;
  bc_event_size : Z;
  bc_slot_size : Z;
  bc_reserved_bytes : Z;
  bc_resident_after_init_bytes : Z;
  bc_flags : Z;                  (* uint32 *)
}.

#[global] Instance MemoryCounters_eq_dec : EqDecision MemoryCounters.
Proof. solve_decision. Defined.
#[global] Instance MemoryRegionState_eq_dec : EqDecision MemoryRegionState.
Proof. solve_decision. Defined.
#[global] Instance MemoryRegionType_eq_dec : EqDecision MemoryRegionType.
Proof. solve_decision. Defined.
#[global] Instance MemoryMapRegion_eq_dec : EqDecision MemoryMapRegion.
Proof. solve_decision. Defined.
#[global] Instance MemoryMap_eq_dec : EqDecision MemoryMap.
Proof. solve_decision. Defined.
#[global] Instance AgentMemoryCategorySample_eq_dec : EqDecision AgentMemoryCategorySample.
Proof. solve_decision. Defined.
#[global] Instance AgentMemorySampleKind_eq_dec : EqDecision AgentMemorySampleKind.
Proof. solve_decision. Defined.
#[global] Instance AgentMemory_eq_dec : EqDecision AgentMemory.
Proof. solve_decision. Defined.
#[global] Instance BufferConfiguration_eq_dec : EqDecision BufferConfiguration.
Proof. solve_decision. Defined.

Definition MemoryCounters_wt (c : MemoryCounters) : Prop :=
  u64 (mc_monotonic_ticks c) ∧ u64 (working_set_bytes c) ∧ u64 (peak_working_set_bytes c) ∧
  u64 (private_bytes c) ∧ u64 (commit_bytes c).

Definition MemoryMapRegion_wt (r : MemoryMapRegion) : Prop :=
  u64 (mr_base r) ∧ u64 (mr_size r) ∧ u32 (mr_protect r).
Definition MemoryMap_wt (m : MemoryMap) : Prop :=
  u64 (mm_monotonic_ticks m) ∧ u64 (mm_committed_bytes m) ∧ u64 (mm_reserved_bytes m) ∧
  u64 (mm_free_bytes m) ∧ u64 (mm_largest_free_bytes m) ∧
  Forall MemoryMapRegion_wt (mm_regions m).

Definition AgentMemoryCategorySample_wt (c : AgentMemoryCategorySample) : Prop :=
  u32 (amc_category c) ∧ u32 (amc_flags c) ∧ u64 (amc_reserved_bytes c) ∧
  u64 (amc_resident_bytes c).
Definition AgentMemory_wt (m : AgentMemory) : Prop :=
  u64 (am_monotonic_ticks m) ∧ Forall AgentMemoryCategorySample_wt (am_categories m).

Definition BufferConfiguration_wt (c : BufferConfiguration) : Prop :=
  u64 (bc_requested_bytes c) ∧ u64 (bc_effective_slots c) ∧ u64 (bc_event_size c) ∧
  u64 (bc_slot_size c) ∧ u64 (bc_reserved_bytes c) ∧ u64 (bc_resident_after_init_bytes c) ∧
  u32 (bc_flags c).

Definition snapshot_if (b : bool) (message : string) : result exn unit :=
  throw_if b MemorySnapshotValidationError message.

Definition validate_memory_counters (c : MemoryCounters) : result exn unit :=
  snapshot_if (peak_working_set_bytes c <? working_set_bytes c)
    "memory counters peak working set is below the current working set".

(** The loop over the regions; [previous_end] is the loop's variable. *)
Fixpoint validate_regions (previous_end : Z) (regions : list MemoryMapRegion)
    : result exn unit :=
  match regions with
  | [] => Ok tt
  | region :: regions =>
      snapshot_if ((mr_size region =? 0) || (u64_max - mr_size region <? mr_base region))
        "memory map region address range is invalid" ;;
      snapshot_if (mr_base region <? previous_end)
        "memory map regions overlap or are out of order" ;;
      validate_regions (wrap64 (mr_base region + mr_size region)) regions
  end.

Definition validate_memory_map (map : MemoryMap) : result exn unit :=
  snapshot_if (kMaximumMemoryMapRegions <? size_of (mm_regions map))
    "memory map exceeds the region count limit" ;;
  validate_regions 0 (mm_regions map).

(** The loop over the categories with its three accumulators. *)
Fixpoint validate_categories (seen : gset Z) (reserved_total resident_total : Z)
    (categories : list AgentMemoryCategorySample) : result exn unit :=
  match categories with
  | [] => Ok tt
  | category :: categories =>
      snapshot_if (bool_decide (amc_category category ∈ seen))
        "agent memory sample contains a duplicate category" ;;
      snapshot_if (amc_reserved_bytes category <? amc_resident_bytes category)
        "agent memory category resident bytes exceed the reserved bytes" ;;
      snapshot_if ((u64_max - reserved_total <? amc_reserved_bytes category) ||
                   (u64_max - resident_total <? amc_resident_bytes category))
        "agent memory category byte totals overflow" ;;
      validate_categories ({[ amc_category category ]} ∪ seen)
        (wrap64 (reserved_total + amc_reserved_bytes category))
        (wrap64 (resident_total + amc_resident_bytes category)) categories
  end.

Definition validate_agent_memory (memory : AgentMemory) : result exn unit :=
  snapshot_if (negb (bool_decide (am_kind memory = Sample_kPeriodic)) &&
               negb (bool_decide (am_kind memory = Sample_kBaselinePreInit)) &&
               negb (bool_decide (am_kind memory = Sample_kBaselinePostInit)))
    "agent memory sample kind is not supported" ;;
  snapshot_if (kMaximumAgentMemoryCategories <? size_of (am_categories memory))
    "agent memory category count is out of range" ;;
  validate_categories ∅ 0 0 (am_categories memory).

Definition validate_buffer_configuration (c : BufferConfiguration) : result exn unit :=
  snapshot_if ((bc_requested_bytes c =? 0) || (bc_effective_slots c =? 0) ||
               (bc_event_size c =? 0) || (bc_slot_size c =? 0) ||
               (bc_slot_size c <? bc_event_size c))
    "buffer configuration slot math is invalid" ;;
  snapshot_if (u64_max / bc_slot_size c <? bc_effective_slots c)
    "buffer configuration reserved bytes overflow" ;;
  snapshot_if (negb (bc_reserved_bytes c =? wrap64 (bc_effective_slots c * bc_slot_size c)) ||
               (bc_reserved_bytes c <? bc_resident_after_init_bytes c))
    "buffer configuration byte counts are inconsistent".
