(* ===== verification/PayloadReader.v ===== *)
(** * Reading a record payload

    The [PayloadReader] class of src/src/trace/record_codec.cpp: a cursor over a
    record payload whose reads are bounds-checked and throw [RecordCodecError].
    A reader computation threads the cursor and may throw.  [format p enc wt]
    says that the reader [p] accepts exactly the encodings [enc v] of the
    well-typed values [v]; it is proved for each primitive and carried through
    sequencing by the tactics at the end. *)

From S2P Require Import Prelude Bytes WireFormat.

Record PayloadReader : Set := { payload_ : bytes; offset_ : nat }.

Definition reader (A : Type) : Type := PayloadReader → result exn (A * PayloadReader).

#[global] Instance reader_ret : MRet reader := λ A a r, Ok (a, r).
#[global] Instance reader_bind : MBind reader := λ A B f p r,
  match p r with Ok (a, r') => f a r' | Throw e => Throw e end.

(** A computation that does not touch the cursor. *)
Definition lift {A} (m : result exn A) : reader A := λ r,
  match m with Ok a => Ok (a, r) | Throw e => Throw e end.

(** Running a reader over a whole payload. *)
Definition run_reader {A} (p : reader A) (payload : bytes) : result exn A :=
  match p {| payload_ := payload; offset_ := 0 |} with
  | Ok (a, _) => Ok a
  | Throw e => Throw e
  end.

(** ** The operations of the class *)

Definition codec_if (b : bool) (message : string) : result exn unit :=
  throw_if b RecordCodecError message.

Definition require (count : nat) : reader unit := λ r,
  codec_if (length (payload_ r) - offset_ r <? count)%nat "record payload is truncated" ;;
  Ok (tt, r).

Definition advance (count : nat) (r : PayloadReader) : PayloadReader :=
  {| payload_ := payload_ r; offset_ := offset_ r + count |}.

(** [value = g(payload_, offset_); offset_ += count; return value;] *)
Definition consume {A} (g : bytes → nat → A) (count : nat) : reader A := λ r,
  Ok (g (payload_ r) (offset_ r), advance count r).

Definition read_u8 : reader Z := require 1 ;; consume byte_at 1.
Definition read_u16 : reader Z := require 2 ;; consume Bytes.read_u16 2.
Definition read_u32 : reader Z := require 4 ;; consume Bytes.read_u32 4.
Definition read_u64 : reader Z := require 8 ;; consume Bytes.read_u64 8.

Definition read_i32 : reader Z := v ← read_u32; mret (signed32 v).

Definition slice (count : nat) (payload : bytes) (offset : nat) : bytes :=
  take count (drop offset payload).

Definition read_string (size : nat) : reader bytes := require size ;; consume (slice size) size.

Definition read_guid : reader bytes := require 16 ;; consume (slice 16) 16.

Definition expect_zeros (count : nat) : reader unit :=
  require count ;;
  skipped ← consume (slice count) count;
  lift (codec_if (negb (forallb (Byte.eqb x00) skipped)) "record reserved bytes must be zero").

Definition expect_done : reader unit := λ r,
  codec_if (negb (offset_ r =? length (payload_ r))%nat) "record payload has trailing bytes" ;;
  Ok (tt, r).

(** [for (index = 0; index < count; ++index) v.push_back(p(reader));] *)
Fixpoint read_each {A} (count : nat) (p : reader A) : reader (list A) :=
  match count with
  | O => mret []
  | S count => x ← p; xs ← read_each count p; mret (x :: xs)
  end.

Definition decode_bool (field : string) : reader bool :=
  value ← read_u8;
  lift (codec_if (1 <? value) field) ;;
  mret (negb (value =? 0)).

(** ** Formats *)

(** The cursor between a consumed prefix and the bytes still to read. *)
Definition at_ (pre post : bytes) : PayloadReader :=
  {| payload_ := pre ++ post; offset_ := length pre |}.

Record format {A} (p : reader A) (enc : A → bytes) (wt : A → Prop) : Prop := {
  format_complete v pre post : wt v →
    p (at_ pre (enc v ++ post)) = Ok (v, at_ (pre ++ enc v) post);
  format_sound v pre tail r : p (at_ pre tail) = Ok (v, r) →
    ∃ post, tail = enc v ++ post ∧ r = at_ (pre ++ enc v) post ∧ wt v;
}.
Arguments format_complete {A p enc wt}.
Arguments format_sound {A p enc wt}.

Lemma reader_bind_ok {A B} (p : reader A) (f : A → reader B) s b s' :
  (p ≫= f) s = Ok (b, s') ↔ ∃ a s1, p s = Ok (a, s1) ∧ f a s1 = Ok (b, s').
Proof.
  unfold mbind, reader_bind. destruct (p s) as [[a s1]|e]; [|naive_solver].
  split; [intros ?; by exists a, s1|]. intros (a' & s2 & [= <- <-] & ?). done.
Qed.

Lemma reader_bind_run {A B} (p : reader A) (f : A → reader B) s a s1 :
  p s = Ok (a, s1) → (p ≫= f) s = f a s1.
Proof. intros E. unfold mbind, reader_bind. by rewrite E. Qed.

Lemma lift_ok {A} (m : result exn A) s a s' : lift m s = Ok (a, s') ↔ m = Ok a ∧ s' = s.
Proof. unfold lift. destruct m; naive_solver. Qed.

Lemma at_advance pre mid post : advance (length mid) (at_ pre (mid ++ post)) = at_ (pre ++ mid) post.
Proof. unfold advance, at_. simpl. by rewrite <- app_assoc, length_app. Qed.

Lemma require_run n pre mid post : length mid = n →
  require n (at_ pre (mid ++ post)) = Ok (tt, at_ pre (mid ++ post)).
Proof.
  intros <-. unfold require, codec_if, at_. simpl.
  rewrite (proj2 (Nat.ltb_ge _ _)); [done|]. rewrite !length_app. lia.
Qed.

Lemma require_ok n pre tail s : require n (at_ pre tail) = Ok ((), s) →
  ∃ mid post, tail = mid ++ post ∧ length mid = n ∧ s = at_ pre (mid ++ post).
Proof.
  unfold require, codec_if. intros Hok. inv_ok. subst s.
  apply Nat.ltb_ge in E. unfold at_ in E. simpl in E. rewrite length_app in E.
  exists (take n tail), (drop n tail). rewrite take_drop. split_and!; [done| |done].
  rewrite length_take. lia.
Qed.

(** A fixed number of bytes, transformed by [f]. *)
Lemma fixed_format {A} n (p : reader A) (f : bytes → A) (enc : A → bytes) (wt : A → Prop) :
  (∀ pre mid post, length mid = n →
    p (at_ pre (mid ++ post)) = Ok (f mid, at_ (pre ++ mid) post)) →
  (∀ pre tail v s, p (at_ pre tail) = Ok (v, s) → ∃ u s', require n (at_ pre tail) = Ok (u, s')) →
  (∀ v, wt v → length (enc v) = n ∧ f (enc v) = v) →
  (∀ mid, length mid = n → enc (f mid) = mid ∧ wt (f mid)) →
  format p enc wt.
Proof.
  intros Hrun Hreq Henc Hdec. split.
  - intros v pre post Hv. destruct (Henc v Hv) as [Hlen E]. by rewrite Hrun, E.
  - intros v pre tail r Hp. destruct (Hreq _ _ _ _ Hp) as (? & s' & Hr). destruct x.
    apply require_ok in Hr as (mid & post & -> & Hlen & _).
    rewrite Hrun in Hp by done. injection Hp as <- <-.
    destruct (Hdec mid Hlen) as [E Hwt]. exists post. by rewrite E.
Qed.

Lemma require_bind_ok {A} n (p : reader A) s v s' :
  (require n ;; p) s = Ok (v, s') → ∃ u s1, require n s = Ok (u, s1).
Proof. rewrite reader_bind_ok. naive_solver. Qed.

Lemma at_take (pre mid post : bytes) : take (length mid) (drop (length pre) (pre ++ mid ++ post)) = mid.
Proof. by apply take_drop_mid. Qed.

Lemma consume_run {A} (g : bytes → nat → A) pre mid post :
  consume g (length mid) (at_ pre (mid ++ post)) =
  Ok (g (pre ++ mid ++ post) (length pre), at_ (pre ++ mid) post).
Proof. unfold consume. by rewrite at_advance. Qed.

(** The little-endian integers of [n] bytes. *)
Lemma le_format n (p : reader Z) (g : bytes → nat → Z) (hi : Z) :
  p = (require n ;; consume g n) →
  (∀ input offset, (offset + n ≤ length input)%nat →
     g input offset = le_value (take n (drop offset input))) →
  256 ^ Z.of_nat n = hi →
  format p (le_bytes n) (λ z, 0 ≤ z < hi).
Proof.
  intros -> Hg <-. apply (fixed_format n _ le_value).
  - intros pre mid post <-. erewrite reader_bind_run by (by apply require_run).
    rewrite consume_run, Hg by (rewrite !length_app; lia). by rewrite at_take.
  - intros pre tail v s. apply require_bind_ok.
  - intros v Hv. split; [apply length_le_bytes|by apply le_value_le_bytes].
  - intros mid <-. split; [by apply le_bytes_value|apply le_value_range].
Qed.

Lemma read_u8_format : format read_u8 (le_bytes 1) u8.
Proof.
  apply (le_format 1 _ byte_at); [done| |done]. intros input offset Hlen.
  unfold byte_at. rewrite (take_S_r _ _ (default x00 (input !! offset))).
  { simpl. rewrite le_value_cons. change (le_value []) with 0. lia. }
  rewrite lookup_drop, Nat.add_0_r.
  by destruct (lookup_lt_is_Some_2 input offset ltac:(lia)) as [b ->].
Qed.

Lemma read_u16_format : format read_u16 (le_bytes 2) u16.
Proof. by apply (le_format 2 _ Bytes.read_u16); [|apply read_u16_spec|]. Qed.
Lemma read_u32_format : format read_u32 (le_bytes 4) u32.
Proof. by apply (le_format 4 _ Bytes.read_u32); [|apply read_u32_spec|]. Qed.
Lemma read_u64_format : format read_u64 (le_bytes 8) u64.
Proof. by apply (le_format 8 _ Bytes.read_u64); [|apply read_u64_spec|]. Qed.

Lemma read_i32_format : format read_i32 (λ z, le_bytes 4 (wrap32 z)) i32.
Proof.
  split.
  - intros v pre post Hv. unfold read_i32.
    erewrite reader_bind_run by (apply read_u32_format, wrap32_u32).
    unfold mret, reader_ret. by rewrite signed32_wrap32.
  - intros v pre tail r (a & s & Ha & Hr)%reader_bind_ok.
    apply (format_sound read_u32_format) in Ha as (post & -> & -> & Hu).
    unfold mret, reader_ret in Hr. injection Hr as <- <-. exists post.
    rewrite wrap32_signed32 by done. auto using signed32_i32.
Qed.

Lemma read_string_format n : format (read_string n) id (λ s, length s = n).
Proof.
  apply (fixed_format n _ id); [| |done|done].
  - intros pre mid post <-. unfold read_string.
    erewrite reader_bind_run by (by apply require_run).
    rewrite consume_run. unfold slice. by rewrite at_take.
  - intros pre tail v s. apply require_bind_ok.
Qed.

Lemma read_guid_format : format read_guid id (λ s, length s = 16%nat).
Proof. apply (read_string_format 16). Qed.

Lemma forallb_zeros bs : forallb (Byte.eqb x00) bs = true ↔ bs = zeros (length bs).
Proof.
  induction bs as [|b bs IH]; simpl; [done|]. rewrite andb_true_iff, IH.
  unfold zeros. simpl. split.
  - intros [E ->]. apply Byte.byte_dec_bl in E. subst. by rewrite length_replicate.
  - intros [= -> E]. split; [done|]. done.
Qed.

Lemma expect_zeros_format n : format (expect_zeros n) (λ _, zeros n) (λ _, True).
Proof.
  split.
  - intros [] pre post _. unfold expect_zeros.
    erewrite reader_bind_run by (apply require_run, length_zeros).
    rewrite <- (length_zeros n) at 2. erewrite reader_bind_run by apply consume_run.
    unfold slice. rewrite take_drop_mid by (done || apply length_zeros).
    unfold lift, codec_if. rewrite (proj2 (forallb_zeros _)); [done|]. by rewrite length_zeros.
  - intros [] pre tail r Hok. unfold expect_zeros in Hok.
    apply reader_bind_ok in Hok as ([] & s & Hr & Hok).
    apply require_ok in Hr as (mid & post & -> & <- & ->).
    erewrite reader_bind_run in Hok by apply consume_run.
    apply lift_ok in Hok as [Hok ->]. unfold codec_if, slice in Hok. inv_ok.
    rewrite at_take in Hok. apply negb_false_iff, forallb_zeros in Hok.
    exists post. by rewrite <- Hok.
Qed.

Lemma expect_done_run pre : expect_done (at_ pre []) = Ok (tt, at_ pre []).
Proof. unfold expect_done, at_. simpl. by rewrite app_nil_r, Nat.eqb_refl. Qed.

Lemma expect_done_ok pre tail u r :
  expect_done (at_ pre tail) = Ok (u, r) → tail = [] ∧ r = at_ pre [].
Proof.
  unfold expect_done, codec_if. intros Hok. inv_ok. apply negb_false_iff, Nat.eqb_eq in E.
  unfold at_ in E. simpl in E. rewrite length_app in E.
  assert (tail = []) as -> by (apply length_zero_iff_nil; lia). by subst.
Qed.

Lemma decode_bool_format field :
  format (decode_bool field) (λ b : bool, le_bytes 1 (if b then 1 else 0)) (λ _, True).
Proof.
  split.
  - intros b pre post _. unfold decode_bool.
    erewrite reader_bind_run by (apply read_u8_format; by destruct b).
    by destruct b.
  - intros b pre tail r Hok. unfold decode_bool in Hok.
    apply reader_bind_ok in Hok as (v & s & Hv & Hok).
    apply (format_sound read_u8_format) in Hv as (post & -> & -> & Hu).
    apply reader_bind_ok in Hok as ([] & s & Hl & Hok).
    apply lift_ok in Hl as [Hl ->]. unfold codec_if in Hl. inv_ok.
    unfold mret, reader_ret in Hok. injection Hok as <- <-. bool_facts.
    exists post. split_and!; [|f_equal|done]; f_equal;
      (assert (v = 0 ∨ v = 1) as [-> | ->] by word); done.
Qed.

Lemma read_each_format {A} (p : reader A) enc wt n :
  format p enc wt →
  format (read_each n p) (λ l, concat (enc <$> l)) (λ l, length l = n ∧ Forall wt l).
Proof.
  intros Hp. induction n as [|n IH].
  - split; [|intros v pre tail r; simpl].
    + intros v pre post [Hl _]. apply length_zero_iff_nil in Hl as ->. simpl.
      by rewrite app_nil_r.
    + unfold mret, reader_ret. intros [= <- <-]. exists tail. by rewrite app_nil_r.
  - split.
    + intros [|x l] pre post [Hl Hwt]; [done|]. injection Hl as Hl.
      inversion Hwt; subst. cbn [read_each fmap list_fmap concat].
      rewrite <- app_assoc. erewrite reader_bind_run by (by apply Hp).
      erewrite reader_bind_run by (by apply IH). by rewrite <- app_assoc.
    + intros v pre tail r Hok. cbn [read_each] in Hok.
      apply reader_bind_ok in Hok as (x & s & Hx & Hok).
      apply (format_sound Hp) in Hx as (post & -> & -> & Hwx).
      apply reader_bind_ok in Hok as (l & s & Hl & Hok).
      apply (format_sound IH) in Hl as (post' & -> & -> & [<- Hwl]).
      unfold mret, reader_ret in Hok. injection Hok as <- <-. exists post'.
      simpl. rewrite <- !app_assoc. split_and!; [done|done|done|by constructor].
Qed.

(** ** Enumerators on the wire

    [dec] accepts exactly the byte values [val] assigns to the enumerators. *)

Class EnumWire {A} (dec : Z → result exn A) (val : A → Z) : Prop := {
  enum_complete a : dec (val a) = Ok a;
  enum_sound v a : dec v = Ok a → v = val a;
  enum_u8 a : u8 (val a);
}.

(** ** Automation

    [format] is a class, so the format of a reader is found by resolution.
    [reader_run] executes a sequence of reads on an encoding; [reader_inv]
    recovers the encoding from a successful sequence of reads. *)

Existing Class format.
#[export] Existing Instances read_u8_format read_u16_format read_u32_format read_u64_format
  read_i32_format read_string_format read_guid_format expect_zeros_format decode_bool_format
  read_each_format.

Lemma format_step {A B} {p : reader A} {enc wt} (F : format p enc wt) (f : A → reader B)
    v pre post :
  wt v → (p ≫= f) (at_ pre (enc v ++ post)) = f v (at_ (pre ++ enc v) post).
Proof. intros Hv. apply reader_bind_run. by apply F. Qed.

Lemma le_bytes_zeros n : le_bytes n 0 = zeros n.
Proof.
  induction n as [|n IH]; [done|]. rewrite le_bytes_S, Z.div_0_l by lia. by rewrite IH.
Qed.

Lemma zeros_step {B} n (f : unit → reader B) pre post :
  (expect_zeros n ≫= f) (at_ pre (zeros n ++ post)) = f tt (at_ (pre ++ zeros n) post).
Proof. by apply (format_step (expect_zeros_format n) f tt). Qed.

(** Reserved zeros written as an integer 0. *)
Lemma le_zeros_step {B} n (f : unit → reader B) pre post :
  (expect_zeros n ≫= f) (at_ pre (le_bytes n 0 ++ post)) = f tt (at_ (pre ++ le_bytes n 0) post).
Proof. rewrite le_bytes_zeros. apply zeros_step. Qed.

Lemma string_step {B} n (f : bytes → reader B) pre s post : length s = n →
  (read_string n ≫= f) (at_ pre (s ++ post)) = f s (at_ (pre ++ s) post).
Proof. apply (format_step (read_string_format n) f s). Qed.

Lemma guid_step {B} (f : bytes → reader B) pre s post : length s = 16%nat →
  (read_guid ≫= f) (at_ pre (s ++ post)) = f s (at_ (pre ++ s) post).
Proof. apply (format_step read_guid_format f s). Qed.

Lemma expect_done_step {B} (f : unit → reader B) pre :
  (expect_done ≫= f) (at_ pre []) = f tt (at_ pre []).
Proof. apply reader_bind_run, expect_done_run. Qed.

Lemma lift_step {A B} (m : result exn A) (f : A → reader B) a s :
  m = Ok a → (lift m ≫= f) s = f a s.
Proof. intros ->. done. Qed.

Lemma reader_bind_assoc {A B C} (p : reader A) (f : A → reader B) (g : B → reader C) s :
  ((p ≫= f) ≫= g) s = (p ≫= (λ a, f a ≫= g)) s.
Proof. unfold mbind, reader_bind. by destruct (p s) as [[a s1]|]. Qed.

Lemma zeros_add n m : zeros n ++ zeros m = zeros (n + m).
Proof. unfold zeros. by rewrite replicate_add. Qed.

(** Side conditions: a field of a well-typed value is well typed. *)
Ltac wt_field := first [done | apply enum_u8 | tauto | word].

(** Closes [m = Ok a] for a lifted computation. *)
Ltac lift_side :=
  first [ eassumption | apply enum_complete | apply rethrow_as_ok; eassumption | reflexivity ].

Ltac reader_step :=
  match goal with
  | |- (lift _ ≫= _) _ = _ => erewrite lift_step; [|solve [lift_side]]
  | |- (expect_done ≫= _) _ = _ => rewrite expect_done_step
  | |- (read_string _ ≫= _) _ = _ => rewrite string_step by wt_field
  | |- (read_guid ≫= _) _ = _ => rewrite guid_step by wt_field
  | |- (expect_zeros _ ≫= _) _ = _ => first [rewrite zeros_step | rewrite le_zeros_step]
  | |- (?p ≫= _) _ = _ =>
      let F := constr:(_ : format p _ _) in
      erewrite (format_step F); [|solve [wt_field]]
  end; cbv beta; cbn [id].

Ltac reader_run :=
  normalize_encoding; repeat reader_step; unfold mret, reader_ret; rewrite <- ?app_assoc.

Ltac reader_inv_step H :=
  match type of H with
  | (lift _ ≫= _) _ = Ok _ =>
      let x := fresh "x" in let s := fresh "s" in let E := fresh "E" in
      apply reader_bind_ok in H as (x & s & E & H);
      apply lift_ok in E as [E ->]; unfold codec_if in E; first [apply enum_sound in E; subst | inv_ok]
  | (expect_done ≫= _) _ = Ok _ =>
      let x := fresh "x" in let s := fresh "s" in let E := fresh "E" in
      apply reader_bind_ok in H as (x & s & E & H);
      apply expect_done_ok in E as [-> ->]
  | (?p ≫= _) _ = Ok _ =>
      let F := constr:(_ : format p _ _) in
      let x := fresh "x" in let s := fresh "s" in let E := fresh "E" in
      let post := fresh "post" in let W := fresh "W" in
      apply reader_bind_ok in H as (x & s & E & H);
      apply (format_sound F) in E as (post & -> & -> & W)
  | mret _ _ = Ok _ => unfold mret, reader_ret in H; injection H as H
  end; cbv beta in *.
Ltac reader_inv H := repeat reader_inv_step H.

(** [solve_format] proves [format p enc wt] for straight-line [p]: [unf] unfolds
    the reader and the encoder, [des] takes the value apart. *)
Ltac solve_format_complete unf des :=
  let v := fresh "v" in let Hv := fresh "Hv" in
  intros v ? ? Hv; unf tt; destruct_and?; reader_run; des v; reflexivity.

Ltac solve_format_sound unf :=
  let H := fresh "H" in
  intros ? ? ? ? H; unf tt; reader_inv H; subst; eexists;
  cbv beta iota zeta; normalize_encoding; rewrite ?le_bytes_zeros;
  split; [reflexivity|]; split; [reflexivity|]; cbn;
  repeat match goal with |- _ ∧ _ => split end; wt_field.

Ltac solve_format unf des := split; [solve_format_complete unf des | solve_format_sound unf].

(** ** Whole payloads

    [exact p enc valid]: run over a whole payload, [p] accepts exactly the
    encodings of the valid values. *)

Record exact {A} (p : reader A) (enc : A → bytes) (valid : A → Prop) : Prop := {
  exact_complete v : valid v → ∃ r, p (at_ [] (enc v ++ [])) = Ok (v, r);
  exact_sound v pre tail r : p (at_ pre tail) = Ok (v, r) → tail = enc v ∧ valid v;
}.
Arguments exact_complete {A p enc valid}.
Arguments exact_sound {A p enc valid}.

Lemma exact_run_reader {A} {p : reader A} {enc valid} (X : exact p enc valid) payload v :
  run_reader p payload = Ok v ↔ payload = enc v ∧ valid v.
Proof.
  unfold run_reader. change {| payload_ := payload; offset_ := 0 |} with (at_ [] payload).
  split.
  - destruct (p (at_ [] payload)) as [[v' r]|e] eqn:E; intros [= ->].
    by apply (exact_sound X) in E.
  - intros [-> Hv]. destruct (exact_complete X v Hv) as [r Hr].
    rewrite app_nil_r in Hr. by rewrite Hr.
Qed.

Ltac solve_exact_complete unf des :=
  let v := fresh "v" in let Hv := fresh "Hv" in
  intros v Hv; eexists; unf tt; destruct_and?; reader_run; des v; reflexivity.

Ltac solve_exact_sound unf :=
  let H := fresh "H" in
  intros ? ? ? ? H; unf tt; reader_inv H; subst;
  cbv beta iota zeta; normalize_encoding; rewrite ?le_bytes_zeros, ?app_nil_r;
  split; [reflexivity|]; cbn;
  repeat match goal with |- _ ∧ _ => split end; wt_field.

Ltac solve_exact unf des := split; [solve_exact_complete unf des | solve_exact_sound unf].

(** A loop of appends. *)
Lemma foldl_append {A} (f : bytes → A → bytes) (g : A → bytes) l o :
  (∀ o x, f o x = o ++ g x) → foldl f o l = o ++ concat (g <$> l).
Proof.
  intros Hf. revert o. induction l as [|x l IH]; intros o; cbn; [by rewrite app_nil_r|].
  by rewrite IH, Hf, <- app_assoc.
Qed.

Lemma length_concat_fixed {A} (g : A → bytes) n l : (∀ x, length (g x) = n) →
  length (concat (g <$> l)) = (length l * n)%nat.
Proof.
  intros Hg. induction l as [|x l IH]; cbn; [done|]. rewrite length_app, Hg, IH. lia.
Qed.

Lemma codec_if_false (b : bool) message : b = false → codec_if b message = Ok tt.
Proof. by intros ->. Qed.

(** Decoders that first test the size of the payload. *)
Lemma sized_parse {A} (p : Z → reader A) enc valid fixed message payload v :
  (∀ size, exact (p size) enc (λ v, valid v ∧ size_of (enc v) = size)) →
  (∀ v, fixed ≤ size_of (enc v)) →
  (codec_if (size_of payload <? fixed) message ;; run_reader (p (size_of payload)) payload) =
    Ok v ↔ payload = enc v ∧ valid v.
Proof.
  intros Hp Hfixed. unfold codec_if. rewrite bind_ok. setoid_rewrite (exact_run_reader (Hp _)).
  setoid_rewrite throw_if_ok. split; [naive_solver|]. intros [-> Hv]. exists tt.
  rewrite Z.ltb_ge. eauto.
Qed.

Lemma fixed_parse {A} (p : reader A) enc valid fixed message payload v :
  exact p enc valid → (∀ v, size_of (enc v) = fixed) →
  (codec_if (negb (size_of payload =? fixed)) message ;; run_reader p payload) = Ok v ↔
    payload = enc v ∧ valid v.
Proof.
  intros Hp Hfixed. unfold codec_if. rewrite bind_ok. setoid_rewrite (exact_run_reader Hp).
  setoid_rewrite throw_if_ok. split; [naive_solver|]. intros [-> Hv]. exists tt.
  rewrite negb_false_iff, Z.eqb_eq. eauto.
Qed.

(** The value read is the value written; the cursor is whatever it is. *)
Lemma read_value {A} (a b : A) (r : PayloadReader) :
  a = b → Ok (E := exn) (a, r) = Ok (b, r).
Proof. by intros ->. Qed.

(** The size of a string read back from its size field. *)
Lemma size_of_read (s : bytes) n : u32 n → length s = Z.to_nat n → size_of s = n.
Proof. unfold size_of. word. Qed.
Lemma length_size_of {A} (l : list A) : length l = Z.to_nat (size_of l).
Proof. unfold size_of. lia. Qed.
