(* ===== verification/EventCodec.v ===== *)
(** * Event and loss records

    The event part of src/src/trace/record_codec.cpp (lines 186-291, 317-626 and
    1014-1067): encoding and decoding of the nine memory events and of the loss
    record. *)

From S2P Require Import Prelude Bytes WireFormat RecordCursor RecordInterface Event Completeness PayloadReader.


Inductive EventChunkRecord : Set :=
  | EventChunk_Event (e : Event)
  | EventChunk_Loss (l : LossRecord).

(** ** Enumerators on the wire *)

Definition EventStatus_value (s : EventStatus) : Z :=
  match s with
  | Status_kSuccess => 0 | Status_kFailure => 1 | Status_kUnmatched => 2
  | Status_kPreexisting => 3
  end.

Definition SystemErrorDomain_value (d : SystemErrorDomain) : Z :=
  match d with
  | Domain_kNone => 0 | Domain_kWin32 => 1 | Domain_kNtStatus => 2 | Domain_kPosix => 3
  | Domain_kMach => 4
  end.

Definition ProcessMemoryScope_value (s : ProcessMemoryScope) : Z :=
  match s with
  | Scope_kCurrentProcess => 0 | Scope_kRemoteProcess => 1 | Scope_kUnknown => 2
  end.

Definition ReallocationEffect_value (e : ReallocationEffect) : Z :=
  match e with Effect_kNoChange => 0 | Effect_kNewGeneration => 1 | Effect_kFreed => 2 end.

Definition LossReason_value (r : LossReason) : Z :=
  match r with
  | Reason_kUnknown => 0 | Reason_kQueueFull => 1 | Reason_kTraceFull => 2
  | Reason_kWriterError => 3 | Reason_kStackCaptureFailed => 4 | Reason_kRotationLimit => 5
  | Reason_kDecoderError => 6
  end.

Definition LossLocation_value (l : LossLocation) : Z :=
  match l with
  | Location_kUnknown => 0 | Location_kAgentQueue => 1 | Location_kWriter => 2
  | Location_kRotation => 3 | Location_kDecoder => 4
  end.

Inductive EventRecordType : Set :=
  | ERT_kHeapCreate | ERT_kHeapDestroy | ERT_kAllocate | ERT_kReallocate | ERT_kFree
  | ERT_kVmAllocate | ERT_kVmFree | ERT_kMap | ERT_kUnmap | ERT_kLoss.

Definition EventRecordType_value (t : EventRecordType) : Z :=
  match t with
  | ERT_kHeapCreate => 1 | ERT_kHeapDestroy => 2 | ERT_kAllocate => 3 | ERT_kReallocate => 4
  | ERT_kFree => 5 | ERT_kVmAllocate => 6 | ERT_kVmFree => 7 | ERT_kMap => 8 | ERT_kUnmap => 9
  | ERT_kLoss => 10
  end.

Definition codec_error {A} (message : string) : result exn A := throw RecordCodecError message.

Definition decode_event_status (value : Z) : result exn EventStatus :=
  match value with
  | 0 => Ok Status_kSuccess
  | 1 => Ok Status_kFailure
  | 2 => Ok Status_kUnmatched
  | 3 => Ok Status_kPreexisting
  | _ => codec_error "event status is not supported"
  end.

Definition decode_error_domain (value : Z) : result exn SystemErrorDomain :=
  match value with
  | 0 => Ok Domain_kNone
  | 1 => Ok Domain_kWin32
  | 2 => Ok Domain_kNtStatus
  | 3 => Ok Domain_kPosix
  | 4 => Ok Domain_kMach
  | _ => codec_error "event error domain is not supported"
  end.

Definition decode_process_scope (value : Z) : result exn ProcessMemoryScope :=
  match value with
  | 0 => Ok Scope_kCurrentProcess
  | 1 => Ok Scope_kRemoteProcess
  | 2 => Ok Scope_kUnknown
  | _ => codec_error "process memory scope is not supported"
  end.

Definition decode_reallocation_effect (value : Z) : result exn ReallocationEffect :=
  match value with
  | 0 => Ok Effect_kNoChange
  | 1 => Ok Effect_kNewGeneration
  | 2 => Ok Effect_kFreed
  | _ => codec_error "reallocation effect is not supported"
  end.

(** [kUnknown] (0) is not accepted from the wire. *)
Definition decode_loss_reason (value : Z) : result exn LossReason :=
  match value with
  | 1 => Ok Reason_kQueueFull
  | 2 => Ok Reason_kTraceFull
  | 3 => Ok Reason_kWriterError
  | 4 => Ok Reason_kStackCaptureFailed
  | 5 => Ok Reason_kRotationLimit
  | 6 => Ok Reason_kDecoderError
  | _ => codec_error "loss reason is not supported"
  end.

Definition decode_loss_location (value : Z) : result exn LossLocation :=
  match value with
  | 1 => Ok Location_kAgentQueue
  | 2 => Ok Location_kWriter
  | 3 => Ok Location_kRotation
  | 4 => Ok Location_kDecoder
  | _ => codec_error "loss location is not supported"
  end.

(** ** Event header and process target *)

Definition append_event_header (output : bytes) (h : EventHeader) : bytes :=
  let output := append_u64 output (sequence h) in
  let output := append_u64 output (monotonic_ticks h) in
  let output := append_u64 output (thread_id h) in
  let output := append_u32 output (api_id h) in
  let output := append_u8 output (EventStatus_value (status h)) in
  let output := append_u8 output (SystemErrorDomain_value (se_domain (system_error h))) in
  let output := append_u16 output 0 in
  let output := append_u64 output (stack_id h) in
  let output := append_u32 output (eh_flags h) in
  let output := append_u32 output 0 in
  append_u64 output (se_code (system_error h)).

Definition decode_event_header : reader EventHeader :=
  sequence ← read_u64;
  monotonic_ticks ← read_u64;
  thread_id ← read_u64;
  api_id ← read_u32;
  raw_status ← read_u8;
  status ← lift (decode_event_status raw_status);
  raw_domain ← read_u8;
  domain ← lift (decode_error_domain raw_domain);
  expect_zeros 2 ;;
  stack_id ← read_u64;
  flags ← read_u32;
  expect_zeros 4 ;;
  code ← read_u64;
  mret {| sequence := sequence; monotonic_ticks := monotonic_ticks; thread_id := thread_id;
          api_id := api_id; status := status; stack_id := stack_id; eh_flags := flags;
          system_error := {| se_domain := domain; se_code := code |} |}.

Definition append_process_target (output : bytes) (t : ProcessTarget) : bytes :=
  let output := append_u8 output (ProcessMemoryScope_value (scope t)) in
  let output := append_zeros output 7 in
  let output := append_u64 output (process_handle t) in
  append_u64 output (process_id t).

Definition decode_process_target : reader ProcessTarget :=
  raw_scope ← read_u8;
  scope ← lift (decode_process_scope raw_scope);
  expect_zeros 7 ;;
  process_handle ← read_u64;
  process_id ← read_u64;
  mret {| scope := scope; process_handle := process_handle; process_id := process_id |}.

(** ** Event payloads *)

Definition event_record_type (p : EventPayload) : EventRecordType :=
  match p with
  | HeapCreate _ => ERT_kHeapCreate
  | HeapDestroy _ => ERT_kHeapDestroy
  | Allocation _ => ERT_kAllocate
  | Reallocation _ => ERT_kReallocate
  | Free _ => ERT_kFree
  | VmAllocate _ => ERT_kVmAllocate
  | VmFree _ => ERT_kVmFree
  | Map _ => ERT_kMap
  | Unmap _ => ERT_kUnmap
  end.

Definition append_event_payload (output : bytes) (p : EventPayload) : bytes :=
  match p with
  | HeapCreate e =>
      let output := append_u64 output (hc_heap_handle e) in
      let output := append_u64 output (hc_heap_id e) in
      let output := append_u64 output (hc_heap_flags e) in
      let output := append_u64 output (hc_reserve_size e) in
      append_u64 output (hc_commit_size e)
  | HeapDestroy e =>
      let output := append_u64 output (hd_heap_handle e) in
      let output := append_u64 output (hd_heap_id e) in
      append_u64 output (hd_raw_result e)
  | Allocation e =>
      let output := append_u64 output (al_heap_handle e) in
      let output := append_u64 output (al_heap_id e) in
      let output := append_u64 output (al_requested_size e) in
      let output := append_u64 output (al_result_address e) in
      let output := append_u64 output (al_allocation_id e) in
      append_u64 output (al_api_flags e)
  | Reallocation e =>
      let output := append_u64 output (re_heap_handle e) in
      let output := append_u64 output (re_heap_id e) in
      let output := append_u64 output (re_old_address e) in
      let output := append_u64 output (re_old_allocation_id e) in
      let output := append_u64 output (re_requested_size e) in
      let output := append_u64 output (re_result_address e) in
      let output := append_u64 output (re_new_allocation_id e) in
      let output := append_u64 output (re_api_flags e) in
      let output := append_u8 output (ReallocationEffect_value (re_effect e)) in
      append_zeros output 7
  | Free e =>
      let output := append_u64 output (fr_heap_handle e) in
      let output := append_u64 output (fr_heap_id e) in
      let output := append_u64 output (fr_address e) in
      let output := append_u64 output (fr_allocation_id e) in
      let output := append_u64 output (fr_raw_result e) in
      append_u64 output (fr_api_flags e)
  | VmAllocate e =>
      let output := append_process_target output (va_target e) in
      let output := append_u64 output (va_requested_base e) in
      let output := append_u64 output (va_result_base e) in
      let output := append_u64 output (va_requested_size e) in
      let output := append_u64 output (va_result_size e) in
      let output := append_u64 output (va_mapping_base e) in
      let output := append_u64 output (va_mapping_size e) in
      let output := append_u32 output (va_allocation_type e) in
      let output := append_u32 output (va_protection e) in
      append_u64 output (va_mapping_id e)
  | VmFree e =>
      let output := append_process_target output (vf_target e) in
      let output := append_u64 output (vf_base e) in
      let output := append_u64 output (vf_region_size e) in
      let output := append_u32 output (vf_free_type e) in
      let output := append_u32 output 0 in
      append_u64 output (vf_mapping_id e)
  | Map e =>
      let output := append_u64 output (mp_section_handle e) in
      let output := append_process_target output (mp_target e) in
      let output := append_u64 output (mp_result_base e) in
      let output := append_u64 output (mp_view_size e) in
      let output := append_u64 output (mp_section_offset e) in
      let output := append_u32 output (mp_protection e) in
      let output := append_u32 output 0 in
      append_u64 output (mp_mapping_id e)
  | Unmap e =>
      let output := append_process_target output (um_target e) in
      let output := append_u64 output (um_base e) in
      append_u64 output (um_mapping_id e)
  end.

Definition decode_event_record_type (value : Z) : option EventRecordType :=
  match value with
  | 1 => Some ERT_kHeapCreate
  | 2 => Some ERT_kHeapDestroy
  | 3 => Some ERT_kAllocate
  | 4 => Some ERT_kReallocate
  | 5 => Some ERT_kFree
  | 6 => Some ERT_kVmAllocate
  | 7 => Some ERT_kVmFree
  | 8 => Some ERT_kMap
  | 9 => Some ERT_kUnmap
  | 10 => Some ERT_kLoss
  | _ => None
  end.

Definition decode_memory_event_payload (t : EventRecordType) : reader EventPayload :=
  match t with
  | ERT_kHeapCreate =>
      heap_handle ← read_u64;
      heap_id ← read_u64;
      heap_flags ← read_u64;
      reserve_size ← read_u64;
      commit_size ← read_u64;
      mret (HeapCreate {| hc_heap_handle := heap_handle; hc_heap_id := heap_id;
                          hc_heap_flags := heap_flags; hc_reserve_size := reserve_size;
                          hc_commit_size := commit_size |})
  | ERT_kHeapDestroy =>
      heap_handle ← read_u64;
      heap_id ← read_u64;
      raw_result ← read_u64;
      mret (HeapDestroy {| hd_heap_handle := heap_handle; hd_heap_id := heap_id;
                           hd_raw_result := raw_result |})
  | ERT_kAllocate =>
      heap_handle ← read_u64;
      heap_id ← read_u64;
      requested_size ← read_u64;
      result_address ← read_u64;
      allocation_id ← read_u64;
      api_flags ← read_u64;
      mret (Allocation {| al_heap_handle := heap_handle; al_heap_id := heap_id;
                          al_requested_size := requested_size;
                          al_result_address := result_address;
                          al_allocation_id := allocation_id; al_api_flags := api_flags |})
  | ERT_kReallocate =>
      heap_handle ← read_u64;
      heap_id ← read_u64;
      old_address ← read_u64;
      old_allocation_id ← read_u64;
      requested_size ← read_u64;
      result_address ← read_u64;
      new_allocation_id ← read_u64;
      api_flags ← read_u64;
      raw_effect ← read_u8;
      effect ← lift (decode_reallocation_effect raw_effect);
      expect_zeros 7 ;;
      mret (Reallocation {| re_heap_handle := heap_handle; re_heap_id := heap_id;
                            re_old_address := old_address;
                            re_old_allocation_id := old_allocation_id;
                            re_requested_size := requested_size;
                            re_result_address := result_address;
                            re_new_allocation_id := new_allocation_id;
                            re_api_flags := api_flags; re_effect := effect |})
  | ERT_kFree =>
      heap_handle ← read_u64;
      heap_id ← read_u64;
      address ← read_u64;
      allocation_id ← read_u64;
      raw_result ← read_u64;
      api_flags ← read_u64;
      mret (Free {| fr_heap_handle := heap_handle; fr_heap_id := heap_id;
                    fr_address := address; fr_allocation_id := allocation_id;
                    fr_raw_result := raw_result; fr_api_flags := api_flags |})
  | ERT_kVmAllocate =>
      target ← decode_process_target;
      requested_base ← read_u64;
      result_base ← read_u64;
      requested_size ← read_u64;
      result_size ← read_u64;
      mapping_base ← read_u64;
      mapping_size ← read_u64;
      allocation_type ← read_u32;
      protection ← read_u32;
      mapping_id ← read_u64;
      mret (VmAllocate {| va_target := target; va_requested_base := requested_base;
                          va_result_base := result_base; va_requested_size := requested_size;
                          va_result_size := result_size; va_mapping_base := mapping_base;
                          va_mapping_size := mapping_size;
                          va_allocation_type := allocation_type;
                          va_protection := protection; va_mapping_id := mapping_id |})
  | ERT_kVmFree =>
      target ← decode_process_target;
      base ← read_u64;
      region_size ← read_u64;
      free_type ← read_u32;
      expect_zeros 4 ;;
      mapping_id ← read_u64;
      mret (VmFree {| vf_target := target; vf_base := base; vf_region_size := region_size;
                      vf_free_type := free_type; vf_mapping_id := mapping_id |})
  | ERT_kMap =>
      section_handle ← read_u64;
      target ← decode_process_target;
      result_base ← read_u64;
      view_size ← read_u64;
      section_offset ← read_u64;
      protection ← read_u32;
      expect_zeros 4 ;;
      mapping_id ← read_u64;
      mret (Map {| mp_section_handle := section_handle; mp_target := target;
                   mp_result_base := result_base; mp_view_size := view_size;
                   mp_section_offset := section_offset; mp_protection := protection;
                   mp_mapping_id := mapping_id |})
  | ERT_kUnmap =>
      target ← decode_process_target;
      base ← read_u64;
      mapping_id ← read_u64;
      mret (Unmap {| um_target := target; um_base := base; um_mapping_id := mapping_id |})
  | ERT_kLoss => lift (codec_error "Loss is not a memory event payload")
  end.

(** ** Loss payload *)

Definition bit_if (b : bool) (mask : Z) : Z := if b then mask else 0.
Definition has_value {A} (o : option A) : bool := match o with Some _ => true | None => false end.

Definition append_loss_payload (payload : bytes) (loss : LossRecord) : bytes :=
  let payload := append_u8 payload (LossReason_value (loss_reason loss)) in
  let payload := append_u8 payload (LossLocation_value (loss_location loss)) in
  let presence := 0 in
  let presence :=
    wrap8 (Z.lor presence (bit_if (has_value (estimated_event_count loss)) 1)) in
  let presence := wrap8 (Z.lor presence (bit_if (has_value (sequence_range loss)) 2)) in
  let presence := wrap8 (Z.lor presence (bit_if (has_value (tick_range loss)) 4)) in
  let payload := append_u8 payload presence in
  let payload := append_zeros payload 5 in
  let payload := append_u64 payload (default 0 (estimated_event_count loss)) in
  let payload := append_u64 payload (from_option sr_begin 0 (sequence_range loss)) in
  let payload := append_u64 payload (from_option sr_end 0 (sequence_range loss)) in
  let payload := append_u64 payload (from_option tr_begin 0 (tick_range loss)) in
  append_u64 payload (from_option tr_end 0 (tick_range loss)).

(** The optional fields of a loss record, from the presence bits and the raw
    values. *)
Definition loss_count (presence count : Z) : result exn (option Z) :=
  if negb (Z.land presence 1 =? 0) then Ok (Some count)
  else codec_if (negb (count =? 0)) "absent loss count must be zero" ;; Ok None.

Definition loss_sequence_range (presence b e : Z) : result exn (option SequenceRange) :=
  if negb (Z.land presence 2 =? 0) then Ok (Some {| sr_begin := b; sr_end := e |})
  else codec_if (negb (b =? 0) || negb (e =? 0))
         "absent loss sequence range must be zero" ;; Ok None.

Definition loss_tick_range (presence b e : Z) : result exn (option TickRange) :=
  if negb (Z.land presence 4 =? 0) then Ok (Some {| tr_begin := b; tr_end := e |})
  else codec_if (negb (b =? 0) || negb (e =? 0))
         "absent loss tick range must be zero" ;; Ok None.

(** [presence & ~0x07U] promotes to 32 bits. *)
Definition decode_loss_payload : reader LossRecord :=
  raw_reason ← read_u8;
  reason ← lift (decode_loss_reason raw_reason);
  raw_location ← read_u8;
  location ← lift (decode_loss_location raw_location);
  presence ← read_u8;
  lift (codec_if (negb (Z.land presence (lnot32 0x07) =? 0))
          "loss presence flags are not supported") ;;
  expect_zeros 5 ;;
  count ← read_u64;
  sequence_begin ← read_u64;
  sequence_end ← read_u64;
  tick_begin ← read_u64;
  tick_end ← read_u64;
  estimated ← lift (loss_count presence count);
  sequences ← lift (loss_sequence_range presence sequence_begin sequence_end);
  ticks ← lift (loss_tick_range presence tick_begin tick_end);
  expect_done ;;
  let loss := {| loss_reason := reason; loss_location := location;
                 estimated_event_count := estimated; sequence_range := sequences;
                 tick_range := ticks |} in
  lift (rethrow_as CompletenessValidationError RecordCodecError "invalid Loss record: "
          (validate_loss_record loss)) ;;
  mret loss.

(** ** Records *)

Definition append_event_record (chunk_payload : bytes) (event : Event)
    (maximum_record_size : Z) : result exn bytes :=
  validate_event event ;;
  let payload := append_event_header [] (ev_header event) in
  let payload := append_event_payload payload (ev_payload event) in
  append_record chunk_payload (EventRecordType_value (event_record_type (ev_payload event)))
    kRecordVersion payload maximum_record_size.

Definition append_loss_record (chunk_payload : bytes) (loss : LossRecord)
    (maximum_record_size : Z) : result exn bytes :=
  validate_loss_record loss ;;
  append_record chunk_payload (EventRecordType_value ERT_kLoss) kRecordVersion
    (append_loss_payload [] loss) maximum_record_size.

Definition decode_event (t : EventRecordType) : reader Event :=
  header ← decode_event_header;
  payload ← decode_memory_event_payload t;
  expect_done ;;
  let event := {| ev_header := header; ev_payload := payload |} in
  lift (rethrow_as EventValidationError RecordCodecError "invalid memory event record: "
          (validate_event event)) ;;
  mret event.

Definition decode_event_chunk_record (record : RecordView)
    : result exn (option EventChunkRecord) :=
  match decode_event_record_type (rv_type record) with
  | None => Ok None
  | Some t =>
      if negb (rv_version record =? kRecordVersion) then Ok None
      else match t with
           | ERT_kLoss =>
               loss ← run_reader decode_loss_payload (rv_payload record);
               Ok (Some (EventChunk_Loss loss))
           | _ =>
               event ← run_reader (decode_event t) (rv_payload record);
               Ok (Some (EventChunk_Event event))
           end
  end.

(** ** Formats *)

Ltac solve_enum dec :=
  split; [by intros [] | | by intros []];
  intros v a; unfold dec, codec_error; repeat case_match; intros [=]; by subst.

#[export] Instance event_status_wire : EnumWire decode_event_status EventStatus_value.
Proof. solve_enum decode_event_status. Qed.
#[export] Instance error_domain_wire : EnumWire decode_error_domain SystemErrorDomain_value.
Proof. solve_enum decode_error_domain. Qed.
#[export] Instance process_scope_wire : EnumWire decode_process_scope ProcessMemoryScope_value.
Proof. solve_enum decode_process_scope. Qed.
#[export] Instance reallocation_effect_wire :
  EnumWire decode_reallocation_effect ReallocationEffect_value.
Proof. solve_enum decode_reallocation_effect. Qed.

Definition event_header_bytes (h : EventHeader) : bytes := append_event_header [] h.

Lemma append_event_header_spec o h : append_event_header o h = o ++ event_header_bytes h.
Proof. unfold event_header_bytes, append_event_header. normalize_encoding. done. Qed.

Definition process_target_bytes (t : ProcessTarget) : bytes := append_process_target [] t.

Lemma append_process_target_spec o t : append_process_target o t = o ++ process_target_bytes t.
Proof. unfold process_target_bytes, append_process_target. normalize_encoding. done. Qed.

#[export] Hint Rewrite append_event_header_spec append_process_target_spec : append_spec.

#[export] Instance decode_event_header_format :
  format decode_event_header event_header_bytes EventHeader_wt.
Proof.
  solve_format
    ltac:(fun _ => unfold decode_event_header, event_header_bytes, append_event_header,
                     EventHeader_wt in *)
    ltac:(fun v => destruct v as [? ? ? ? ? ? ? []]).
Qed.

#[export] Instance decode_process_target_format :
  format decode_process_target process_target_bytes ProcessTarget_wt.
Proof.
  solve_format
    ltac:(fun _ => unfold decode_process_target, process_target_bytes, append_process_target,
                     ProcessTarget_wt in *)
    ltac:(fun v => destruct v).
Qed.

Definition event_payload_bytes (p : EventPayload) : bytes := append_event_payload [] p.

Lemma append_event_payload_spec o p : append_event_payload o p = o ++ event_payload_bytes p.
Proof.
  unfold event_payload_bytes, append_event_payload. destruct p; normalize_encoding; done.
Qed.

#[export] Hint Rewrite append_event_payload_spec : append_spec.

#[export] Instance decode_memory_event_payload_format t :
  format (decode_memory_event_payload t) event_payload_bytes
    (λ p, event_record_type p = t ∧ EventPayload_wt p).
Proof.
  split.
  - intros p pre post [<- Hwt]. unfold event_payload_bytes, append_event_payload.
    destruct p as [e|e|e|e|e|e|e|e|e]; cbn [decode_memory_event_payload event_record_type];
      unfold EventPayload_wt in Hwt; destruct_and?; reader_run; destruct e; reflexivity.
  - destruct t; cbn [decode_memory_event_payload];
      [solve_format_sound ltac:(fun _ => unfold event_payload_bytes, append_event_payload)..|].
    intros p pre tail r [[=] _]%lift_ok.
Qed.

(** ** Whole records *)

Definition Event_valid (e : Event) : Prop := Event_wt e ∧ validate_event e = Ok tt.

Definition event_bytes (e : Event) : bytes :=
  append_event_payload (append_event_header [] (ev_header e)) (ev_payload e).

Lemma decode_event_exact t :
  exact (decode_event t) event_bytes
    (λ e, event_record_type (ev_payload e) = t ∧ Event_valid e).
Proof.
  solve_exact
    ltac:(fun _ => unfold decode_event, event_bytes, Event_valid, Event_wt in *)
    ltac:(fun v => destruct v).
Qed.

Definition LossRecord_valid (l : LossRecord) : Prop :=
  LossRecord_wt l ∧ validate_loss_record l = Ok tt.

Lemma decode_loss_reason_known r :
  is_known_loss_reason r = true → decode_loss_reason (LossReason_value r) = Ok r.
Proof. by destruct r. Qed.

Lemma decode_loss_reason_sound v r :
  decode_loss_reason v = Ok r → v = LossReason_value r.
Proof. unfold decode_loss_reason, codec_error. repeat case_match; intros [=]; by subst. Qed.

Lemma decode_loss_location_known l :
  is_known_loss_location l = true → decode_loss_location (LossLocation_value l) = Ok l.
Proof. by destruct l. Qed.

Lemma decode_loss_location_sound v l :
  decode_loss_location v = Ok l → v = LossLocation_value l.
Proof. unfold decode_loss_location, codec_error. repeat case_match; intros [=]; by subst. Qed.

(** The accepted presence bytes are 0 to 7. *)
Lemma presence_bits (k : nat) p :
  u8 p → (k ≤ 8)%nat → Z.land p (lnot32 (Z.ones (Z.of_nat k))) = 0 → 0 ≤ p < 2 ^ Z.of_nat k.
Proof.
  intros Hp Hk E. split; [word|].
  assert (p = Z.land p (Z.ones (Z.of_nat k))) as ->.
  { apply Z.bits_inj'. intros i Hi. rewrite Z.land_spec.
    destruct (decide (i < Z.of_nat k)); [by rewrite Z.ones_spec_low, andb_true_r by lia|].
    rewrite Z.ones_spec_high, andb_false_r by lia.
    destruct (decide (i < 32)).
    - apply (f_equal (λ z, Z.testbit z i)) in E.
      rewrite Z.land_spec, testbit_lnot32, Z.ones_spec_high, andb_true_r, Z.bits_0 in E by lia.
      done.
    - rewrite <- (Z.mod_small p (2 ^ 8)) by word. apply Z.mod_pow2_bits_high. lia. }
  rewrite Z.land_ones by lia. apply Z.mod_pos_bound. lia.
Qed.

(** The three optional fields read back. *)
Lemma loss_count_ok p c o : loss_count p c = Ok o →
  has_value o = negb (Z.land p 1 =? 0) ∧ default 0 o = c.
Proof.
  unfold loss_count, codec_if. intros H. destruct (negb _); inv_ok; subst; [done|].
  by bool_facts.
Qed.

Lemma loss_sequence_range_ok p b e o : loss_sequence_range p b e = Ok o →
  has_value o = negb (Z.land p 2 =? 0) ∧ from_option sr_begin 0 o = b ∧
  from_option sr_end 0 o = e.
Proof.
  unfold loss_sequence_range, codec_if. intros H.
  destruct (negb (Z.land p 2 =? 0)); inv_ok; subst; [done|]. bool_facts. by destruct E.
Qed.

Lemma loss_tick_range_ok p b e o : loss_tick_range p b e = Ok o →
  has_value o = negb (Z.land p 4 =? 0) ∧ from_option tr_begin 0 o = b ∧
  from_option tr_end 0 o = e.
Proof.
  unfold loss_tick_range, codec_if. intros H.
  destruct (negb (Z.land p 4 =? 0)); inv_ok; subst; [done|]. bool_facts. by destruct E.
Qed.

Lemma presence_byte p : 0 ≤ p < 8 →
  wrap8 (Z.lor (wrap8 (Z.lor (wrap8 (Z.lor 0 (bit_if (negb (Z.land p 1 =? 0)) 1)))
    (bit_if (negb (Z.land p 2 =? 0)) 2))) (bit_if (negb (Z.land p 4 =? 0)) 4)) = p.
Proof.
  intros Hp.
  assert (p = 0 ∨ p = 1 ∨ p = 2 ∨ p = 3 ∨ p = 4 ∨ p = 5 ∨ p = 6 ∨ p = 7) as Hcases by lia.
  by destruct_or?; subst.
Qed.

Definition loss_bytes (l : LossRecord) : bytes := append_loss_payload [] l.

Lemma decode_loss_exact : exact decode_loss_payload loss_bytes LossRecord_valid.
Proof.
  split.
  - intros [reason location count seqs ticks] [(Hc & Hs & Ht) Hval].
    assert (is_known_loss_reason reason = true ∧ is_known_loss_location location = true)
      as [Hr Hl].
    { unfold validate_loss_record, invalid_if in Hval. inv_ok. bool_facts. done. }
    unfold decode_loss_payload, loss_bytes, append_loss_payload. cbn in Hc, Hs, Ht |- *.
    assert (u8 (LossReason_value reason)) by by destruct reason.
    assert (u8 (LossLocation_value location)) by by destruct location.
    apply decode_loss_reason_known in Hr. apply decode_loss_location_known in Hl.
    destruct count as [c|], seqs as [[sb se]|], ticks as [[tb te]|]; cbn;
      try specialize (Hc _ eq_refl); try specialize (Hs _ eq_refl);
      try specialize (Ht _ eq_refl); cbn in *; destruct_and?;
      eexists; reader_run; reflexivity.
  - intros l pre tail r H. unfold decode_loss_payload in H. reader_inv H.
    apply loss_count_ok in E2 as [Hc1 <-].
    apply loss_sequence_range_ok in E3 as (Hs1 & <- & <-).
    apply loss_tick_range_ok in E4 as (Ht1 & <- & <-).
    apply decode_loss_reason_sound in E as ->. apply decode_loss_location_sound in E0 as ->.
    subst l. apply negb_false_iff, Z.eqb_eq, (presence_bits 3) in E1; [|done|lia].
    unfold loss_bytes, append_loss_payload, LossRecord_valid, LossRecord_wt. cbn.
    rewrite Hc1, Hs1, Ht1, presence_byte, app_nil_r by done. normalize_encoding.
    split_and!; try done; intros ? ->; by cbn in *.
Qed.

(** ** The event chunk's codec *)

(** The appender of either alternative of [EventChunkRecord]. *)
Definition append_event_chunk_record (chunk_payload : bytes) (record : EventChunkRecord)
    (maximum_record_size : Z) : result exn bytes :=
  match record with
  | EventChunk_Event event => append_event_record chunk_payload event maximum_record_size
  | EventChunk_Loss loss => append_loss_record chunk_payload loss maximum_record_size
  end.

Definition EventChunkRecord_wt (r : EventChunkRecord) : Prop :=
  match r with EventChunk_Event e => Event_wt e | EventChunk_Loss l => LossRecord_wt l end.

Definition EventChunkRecord_valid (r : EventChunkRecord) : Prop :=
  match r with EventChunk_Event e => Event_valid e | EventChunk_Loss l => LossRecord_valid l end.

Definition event_chunk_view (r : EventChunkRecord) : RecordView :=
  match r with
  | EventChunk_Event e =>
      view_of (EventRecordType_value (event_record_type (ev_payload e))) (event_bytes e)
  | EventChunk_Loss l => view_of (EventRecordType_value ERT_kLoss) (loss_bytes l)
  end.

Definition event_record_types : list Z := EventRecordType_value <$>
  [ERT_kHeapCreate; ERT_kHeapDestroy; ERT_kAllocate; ERT_kReallocate; ERT_kFree;
   ERT_kVmAllocate; ERT_kVmFree; ERT_kMap; ERT_kUnmap; ERT_kLoss].

Lemma decode_event_record_type_some v t :
  decode_event_record_type v = Some t ↔ v = EventRecordType_value t.
Proof.
  split; [|intros ->; by destruct t].
  unfold decode_event_record_type. repeat case_match; intros [=]; by subst.
Qed.

Lemma decode_event_record_type_none v :
  decode_event_record_type v = None ↔ v ∉ event_record_types.
Proof.
  split; [|intros Hv; apply eq_None_not_Some; intros [t ->%decode_event_record_type_some]; apply Hv;
    destruct t; unfold event_record_types; cbn; set_solver].
  intros Hn Hin. unfold event_record_types in Hin.
  apply list_elem_of_fmap in Hin as (t & -> & _).
  by rewrite (proj2 (decode_event_record_type_some _ t)) in Hn.
Qed.

Lemma event_type_not_loss p : event_record_type p ≠ ERT_kLoss.
Proof. by destruct p. Qed.

Lemma EventRecordType_value_inj t t' :
  EventRecordType_value t = EventRecordType_value t' → t = t'.
Proof. by destruct t, t'. Qed.

Lemma decode_event_chunk_record_ok view r :
  decode_event_chunk_record view = Ok (Some r) ↔
  EventChunkRecord_valid r ∧ view = event_chunk_view r.
Proof.
  unfold decode_event_chunk_record. destruct view as [type version payload]. cbn. split.
  - destruct (decode_event_record_type type) as [t|] eqn:Et; [|done].
    apply decode_event_record_type_some in Et as ->.
    destruct (negb _) eqn:Ev; [done|]. bool_facts. subst version.
    assert (t = ERT_kLoss ∨ t ≠ ERT_kLoss) as [-> | Ht] by (destruct t; auto).
    + rewrite bind_ok. intros (l & [-> Hl]%(exact_run_reader decode_loss_exact) & [= <-]). done.
    + intros H. assert (Hd : ∃ e, run_reader (decode_event t) payload = Ok e ∧ r = EventChunk_Event e).
      { destruct t; try done; apply bind_ok in H as (e & ? & [= <-]); by exists e. }
      destruct Hd as (e & He & ->). apply (exact_run_reader (decode_event_exact t)) in He.
      destruct He as [-> He]. cbv beta in He. destruct He as [<- He]. done.
  - intros [Hr E]. destruct r as [e|l]; injection E as -> -> ->.
    + rewrite (proj2 (decode_event_record_type_some _ (event_record_type (ev_payload e)))) by done.
      assert (run_reader (decode_event (event_record_type (ev_payload e))) (event_bytes e) = Ok e)
        as Hrun by by apply (exact_run_reader (decode_event_exact _)).
      destruct (event_record_type (ev_payload e)) eqn:Et; try (by cbn; rewrite Hrun).
      by apply event_type_not_loss in Et.
    + cbn. by rewrite (proj2 (exact_run_reader decode_loss_exact (loss_bytes l) l)).
Qed.

Lemma decode_event_chunk_record_none view :
  decode_event_chunk_record view = Ok None ↔
  ¬ (rv_version view = kRecordVersion ∧ rv_type view ∈ event_record_types).
Proof.
  unfold decode_event_chunk_record. destruct (decode_event_record_type _) as [t|] eqn:Et.
  - assert (rv_type view ∈ event_record_types).
    { destruct (decide (rv_type view ∈ event_record_types)) as [|Hn]; [done|].
      apply decode_event_record_type_none in Hn. by rewrite Hn in Et. }
    destruct (negb _) eqn:Ev; bool_facts; [tauto|].
    split; [|tauto]. destruct t; rewrite bind_ok; naive_solver.
  - apply decode_event_record_type_none in Et. tauto.
Qed.

#[export] Instance event_chunk_codec :
  RecordCodec append_event_chunk_record decode_event_chunk_record.
Proof.
  refine {| codec_wt := EventChunkRecord_wt; codec_valid := EventChunkRecord_valid;
            codec_view := event_chunk_view; codec_types := event_record_types |}.
  - intros chunk [e|l] max chunk' Hwt Hmax;
      cbn [append_event_chunk_record event_chunk_view EventChunkRecord_valid].
    + unfold append_event_record. cbv zeta. rewrite append_validated by by destruct (ev_payload e).
      unfold Event_valid. fold (event_bytes e). tauto.
    + unfold append_loss_record. rewrite append_validated by done.
      unfold LossRecord_valid. fold (loss_bytes l). tauto.
  - apply decode_event_chunk_record_ok.
  - apply decode_event_chunk_record_none.
Defined.
