(* ===== verification/StatisticsCodec.v ===== *)
(** * Capture scope, statistics and end-of-trace records

    The records that say how complete a trace is: capture_scope (lines
    630-659), statistics (1069-1153) and end_of_trace (1155-1206) of
    src/src/trace/record_codec.cpp. *)

From S2P Require Import Prelude Bytes WireFormat RecordCursor RecordInterface Completeness PayloadReader.

(** [MetadataRecordType], [StatisticsRecordType] and [EndRecordType]. *)
Inductive MetadataRecordType : Set :=
  | MRT_kCaptureScope | MRT_kCustomHookDefinition | MRT_kCustomHookFailure
  | MRT_kBufferConfiguration.

Definition MetadataRecordType_value (t : MetadataRecordType) : Z :=
  match t with
  | MRT_kCaptureScope => 1 | MRT_kCustomHookDefinition => 2 | MRT_kCustomHookFailure => 3
  | MRT_kBufferConfiguration => 4
  end.

Definition kCaptureStatistics : Z := 1.
Definition kEndOfTrace : Z := 1.

Definition kStatisticsFixedPayloadSize : Z := 80.
Definition kPerApiStatisticsSize : Z := 48.

Definition bool_u8 (b : bool) : Z := if b then 1 else 0.

(** ** Capture scope *)

Definition append_capture_scope_payload (payload : bytes) (scope : CaptureScope) : bytes :=
  let payload := append_u8 payload (bool_u8 (started_at_process_start scope)) in
  let payload := append_u8 payload (bool_u8 (preexisting_allocations_unknown scope)) in
  append_zeros payload 6.

Definition append_capture_scope_record (chunk_payload : bytes) (scope : CaptureScope)
    (maximum_record_size : Z) : result exn bytes :=
  validate_capture_scope scope ;;
  append_record chunk_payload (MetadataRecordType_value MRT_kCaptureScope) kRecordVersion
    (append_capture_scope_payload [] scope) maximum_record_size.

Definition decode_capture_scope : reader CaptureScope :=
  started ← decode_bool "capture-start boolean is not zero or one";
  preexisting ← decode_bool "preexisting-allocation boolean is not zero or one";
  expect_zeros 6 ;;
  expect_done ;;
  let scope := {| started_at_process_start := started;
                  preexisting_allocations_unknown := preexisting |} in
  lift (rethrow_as CompletenessValidationError RecordCodecError "invalid CaptureScope record: "
          (validate_capture_scope scope)) ;;
  mret scope.

Definition decode_capture_scope_record (record : RecordView)
    : result exn (option CaptureScope) :=
  if negb (rv_type record =? MetadataRecordType_value MRT_kCaptureScope) ||
     negb (rv_version record =? kRecordVersion)
  then Ok None
  else scope ← run_reader decode_capture_scope (rv_payload record); Ok (Some scope).

(** ** Statistics *)

Definition append_api_statistics (payload : bytes) (api : ApiStatistics) : bytes :=
  let payload := append_u32 payload (as_api_id api) in
  let payload := append_u32 payload 0 in
  let payload := append_u64 payload (as_observed_calls api) in
  let payload := append_u64 payload (as_successful_operations api) in
  let payload := append_u64 payload (as_failed_operations api) in
  let payload := append_u64 payload (as_filtered_before_queue api) in
  append_u64 payload (as_dropped_events api).

Definition append_statistics_payload (payload : bytes) (s : CaptureStatistics) : bytes :=
  let payload := append_u64 payload (observed_calls s) in
  let payload := append_u64 payload (successful_operations s) in
  let payload := append_u64 payload (failed_operations s) in
  let payload := append_u64 payload (filtered_before_queue s) in
  let payload := append_u64 payload (dropped_events s) in
  let payload := append_u64 payload (unique_stacks s) in
  let payload := append_u64 payload (reused_stacks s) in
  let payload := append_u64 payload (written_uncompressed_bytes s) in
  let payload := append_u64 payload (written_stored_bytes s) in
  let payload := append_u32 payload (wrap32 (size_of (per_api s))) in
  let payload := append_u32 payload 0 in
  foldl append_api_statistics payload (per_api s).

Definition append_statistics_record (chunk_payload : bytes) (s : CaptureStatistics)
    (maximum_record_size : Z) : result exn bytes :=
  validate_statistics s ;;
  codec_if ((u32_max <? size_of (per_api s)) ||
            ((u32_max - kStatisticsFixedPayloadSize) / kPerApiStatisticsSize <?
               size_of (per_api s)))
    "too many per-API statistics entries" ;;
  append_record chunk_payload kCaptureStatistics kRecordVersion
    (append_statistics_payload [] s) maximum_record_size.

Definition decode_api_statistics : reader ApiStatistics :=
  api_id ← read_u32;
  expect_zeros 4 ;;
  observed ← read_u64;
  successful ← read_u64;
  failed ← read_u64;
  filtered ← read_u64;
  dropped ← read_u64;
  mret {| as_api_id := api_id; as_observed_calls := observed;
          as_successful_operations := successful; as_failed_operations := failed;
          as_filtered_before_queue := filtered; as_dropped_events := dropped |}.

(** [size] is [record.payload.size()]: 80 bytes of it have been read when it is
    used, so the subtraction does not wrap. *)
Definition decode_statistics (size : Z) : reader CaptureStatistics :=
  observed ← read_u64;
  successful ← read_u64;
  failed ← read_u64;
  filtered ← read_u64;
  dropped ← read_u64;
  unique ← read_u64;
  reused ← read_u64;
  uncompressed ← read_u64;
  stored ← read_u64;
  api_count ← read_u32;
  expect_zeros 4 ;;
  lift (codec_if ((size - kStatisticsFixedPayloadSize) / kPerApiStatisticsSize <? api_count)
          "per-API statistics count exceeds the record payload") ;;
  apis ← read_each (Z.to_nat api_count) decode_api_statistics;
  expect_done ;;
  let s := {| observed_calls := observed; successful_operations := successful;
              failed_operations := failed; filtered_before_queue := filtered;
              dropped_events := dropped; unique_stacks := unique; reused_stacks := reused;
              written_uncompressed_bytes := uncompressed; written_stored_bytes := stored;
              per_api := apis |} in
  lift (rethrow_as CompletenessValidationError RecordCodecError "invalid Statistics record: "
          (validate_statistics s)) ;;
  mret s.

Definition decode_statistics_record (record : RecordView)
    : result exn (option CaptureStatistics) :=
  if negb (rv_type record =? kCaptureStatistics) || negb (rv_version record =? kRecordVersion)
  then Ok None
  else s ← run_reader (decode_statistics (size_of (rv_payload record))) (rv_payload record);
       Ok (Some s).

(** ** End of trace *)

Definition append_end_of_trace_payload (payload : bytes) (e : EndOfTrace) : bytes :=
  let payload := append_u64 payload (final_sequence e) in
  let payload := append_u64 payload (final_monotonic_ticks e) in
  let payload := append_u8 payload (bool_u8 (normal_stop e)) in
  let payload := append_u8 payload (bool_u8 (bool_decide (is_Some (target_exit_code e)))) in
  let payload := append_zeros payload 6 in
  let payload := append_i32 payload (default 0 (target_exit_code e)) in
  let payload := append_u32 payload 0 in
  let payload := append_u32 payload (mask (aggregate_completeness e)) in
  append_u32 payload 0.

Definition append_end_of_trace_record (chunk_payload : bytes) (e : EndOfTrace)
    (maximum_record_size : Z) : result exn bytes :=
  validate_end_of_trace e ;;
  append_record chunk_payload kEndOfTrace kRecordVersion (append_end_of_trace_payload [] e)
    maximum_record_size.

Definition end_exit_code (present : bool) (code : Z) : result exn (option Z) :=
  if present then Ok (Some code)
  else codec_if (negb (code =? 0)) "absent target exit code must be zero" ;; Ok None.

Definition decode_end_of_trace : reader EndOfTrace :=
  final_sequence ← read_u64;
  final_monotonic_ticks ← read_u64;
  normal_stop ← decode_bool "normal-stop boolean is not zero or one";
  has_target_exit_code ← decode_bool "target-exit-code presence is not zero or one";
  expect_zeros 6 ;;
  target_exit_code ← read_i32;
  expect_zeros 4 ;;
  completeness ← read_u32;
  expect_zeros 4 ;;
  expect_done ;;
  exit_code ← lift (end_exit_code has_target_exit_code target_exit_code);
  let e := {| final_sequence := final_sequence; final_monotonic_ticks := final_monotonic_ticks;
              normal_stop := normal_stop; target_exit_code := exit_code;
              aggregate_completeness := from_mask completeness |} in
  lift (rethrow_as CompletenessValidationError RecordCodecError "invalid EndOfTrace record: "
          (validate_end_of_trace e)) ;;
  mret e.

Definition decode_end_of_trace_record (record : RecordView) : result exn (option EndOfTrace) :=
  if negb (rv_type record =? kEndOfTrace) || negb (rv_version record =? kRecordVersion)
  then Ok None
  else e ← run_reader decode_end_of_trace (rv_payload record); Ok (Some e).

(** ** Codecs *)

Definition CaptureScope_valid (s : CaptureScope) : Prop := validate_capture_scope s = Ok tt.

Lemma decode_capture_scope_exact :
  exact decode_capture_scope (append_capture_scope_payload []) CaptureScope_valid.
Proof.
  unfold append_capture_scope_payload, bool_u8.
  solve_exact
    ltac:(fun _ => unfold decode_capture_scope, CaptureScope_valid in *)
    ltac:(fun v => destruct v).
Qed.

#[export] Instance capture_scope_codec :
  RecordCodec append_capture_scope_record decode_capture_scope_record.
Proof.
  apply (single_codec _ _ (MetadataRecordType_value MRT_kCaptureScope)
           (append_capture_scope_payload []) (λ _, True) CaptureScope_valid
           (run_reader decode_capture_scope)).
  - intros chunk r max chunk' _ _. by apply append_validated.
  - done.
  - apply (exact_run_reader decode_capture_scope_exact).
Defined.

Definition api_statistics_bytes (a : ApiStatistics) : bytes := append_api_statistics [] a.

Lemma append_api_statistics_spec o a :
  append_api_statistics o a = o ++ api_statistics_bytes a.
Proof. unfold api_statistics_bytes, append_api_statistics. by normalize_encoding. Qed.

#[export] Instance decode_api_statistics_format :
  format decode_api_statistics api_statistics_bytes ApiStatistics_wt.
Proof.
  solve_format
    ltac:(fun _ => unfold decode_api_statistics, api_statistics_bytes, append_api_statistics,
                     ApiStatistics_wt in *)
    ltac:(fun v => destruct v).
Qed.

Definition CaptureStatistics_valid (s : CaptureStatistics) : Prop :=
  CaptureStatistics_wt s ∧ u32 (size_of (per_api s)) ∧ validate_statistics s = Ok tt.

Lemma length_api_statistics a : length (api_statistics_bytes a) = 48%nat.
Proof.
  unfold api_statistics_bytes, append_api_statistics. normalize_encoding.
  by rewrite !length_app, !length_le_bytes.
Qed.

Lemma size_statistics_payload s :
  size_of (append_statistics_payload [] s) = 80 + 48 * size_of (per_api s).
Proof.
  unfold append_statistics_payload, size_of. cbv zeta.
  rewrite (foldl_append _ _ _ _ append_api_statistics_spec). normalize_encoding.
  rewrite !length_app, !length_le_bytes, (length_concat_fixed _ _ _ length_api_statistics). lia.
Qed.

Lemma decode_statistics_exact size :
  exact (decode_statistics size) (append_statistics_payload [])
    (λ s, CaptureStatistics_valid s ∧ size_of (per_api s) ≤ (size - 80) / 48).
Proof.
  unfold append_statistics_payload. split.
  - intros s [(Hwt & Hn & Hv) Hsize]. unfold CaptureStatistics_wt in Hwt. destruct_and?.
    rewrite (foldl_append _ _ _ _ append_api_statistics_spec), wrap32_small by done.
    assert (codec_if ((size - kStatisticsFixedPayloadSize) / kPerApiStatisticsSize <?
      size_of (per_api s)) "per-API statistics count exceeds the record payload" = Ok tt)
      by (apply codec_if_false, Z.ltb_ge; done).
    assert (length (per_api s) = Z.to_nat (size_of (per_api s)) ∧
      Forall ApiStatistics_wt (per_api s)) by (unfold size_of; split; [lia|done]).
    eexists. unfold decode_statistics. reader_run. destruct s. reflexivity.
  - intros s pre tail r H. unfold decode_statistics in H. reader_inv H.
    destruct W10 as [Hlen W10]. bool_facts.
    unfold CaptureStatistics_valid, CaptureStatistics_wt. subst s.
    rewrite (foldl_append _ _ _ _ append_api_statistics_spec). cbn.
    match goal with H : length ?apis = Z.to_nat ?n |- _ =>
      assert (Hs : size_of apis = n) by (unfold size_of; word) end.
    rewrite Hs, wrap32_small, app_nil_r by done. normalize_encoding. rewrite le_bytes_zeros.
    unfold kStatisticsFixedPayloadSize, kPerApiStatisticsSize in *. tauto.
Qed.

Lemma decode_statistics_run payload s :
  run_reader (decode_statistics (size_of payload)) payload = Ok s ↔
  payload = append_statistics_payload [] s ∧ CaptureStatistics_valid s.
Proof.
  rewrite (exact_run_reader (decode_statistics_exact _)). split; [tauto|].
  intros [-> Hv]. split_and!; [done..|]. rewrite size_statistics_payload.
  apply Z.div_le_lower_bound; lia.
Qed.

Lemma statistics_count_limit max s :
  record_ok max (view_of kCaptureStatistics (append_statistics_payload [] s)) →
  u32 (size_of (per_api s)) ∧
  (u32_max <? size_of (per_api s)) || ((u32_max - kStatisticsFixedPayloadSize) /
     kPerApiStatisticsSize <? size_of (per_api s)) = false.
Proof.
  intros (_ & _ & _ & Hu). unfold record_size, kRecordHeaderSize in Hu. cbn in Hu.
  rewrite size_statistics_payload in Hu. pose proof (size_of_nonneg (per_api s)).
  split; [word|]. apply orb_false_iff. split; apply Z.ltb_ge; [word|].
  apply Z.div_le_lower_bound; unfold kStatisticsFixedPayloadSize, kPerApiStatisticsSize; word.
Qed.

#[export] Instance statistics_codec :
  RecordCodec append_statistics_record decode_statistics_record.
Proof.
  apply (single_codec _ _ kCaptureStatistics (append_statistics_payload []) CaptureStatistics_wt
           CaptureStatistics_valid
           (λ payload, run_reader (decode_statistics (size_of payload)) payload)).
  - intros chunk s max chunk' Hwt Hmax. unfold append_statistics_record, codec_if.
    rewrite append_checked by done. unfold CaptureStatistics_valid. split.
    + intros ((? & ?) & Hok & ?). by destruct (statistics_count_limit _ _ Hok).
    + intros ((? & ? & ?) & Hok & ?). by destruct (statistics_count_limit _ _ Hok).
  - done.
  - apply decode_statistics_run.
Defined.

Definition EndOfTrace_valid (e : EndOfTrace) : Prop :=
  EndOfTrace_wt e ∧ validate_end_of_trace e = Ok tt.

Lemma end_exit_code_ok present code o : end_exit_code present code = Ok o →
  default 0 o = code ∧ bool_decide (is_Some o) = present.
Proof.
  unfold end_exit_code, codec_if. destruct present; intros; inv_ok; subst; [done|].
  by bool_facts.
Qed.

Lemma decode_end_of_trace_exact :
  exact decode_end_of_trace (append_end_of_trace_payload []) EndOfTrace_valid.
Proof.
  unfold append_end_of_trace_payload, bool_u8. split.
  - intros [seq ticks normal code [m]] [(? & ? & Hc & Hm) Hv]. eexists.
    unfold decode_end_of_trace. cbn in *.
    assert (Hcode : i32 (default 0 code)) by (destruct code; [by apply Hc|by unfold i32]).
    assert (He : end_exit_code (bool_decide (is_Some code)) (default 0 code) = Ok code)
      by by destruct code.
    reader_run. reflexivity.
  - intros e pre tail r H. unfold decode_end_of_trace in H. reader_inv H.
    apply end_exit_code_ok in E as [<- <-]. subst e. unfold EndOfTrace_valid, EndOfTrace_wt. cbn.
    normalize_encoding. rewrite ?le_bytes_zeros, ?app_nil_r.
    split_and!; try done. intros c ->. done.
Qed.

#[export] Instance end_of_trace_codec :
  RecordCodec append_end_of_trace_record decode_end_of_trace_record.
Proof.
  apply (single_codec _ _ kEndOfTrace (append_end_of_trace_payload []) EndOfTrace_wt
           EndOfTrace_valid (run_reader decode_end_of_trace)).
  - intros chunk e max chunk' Hwt _. unfold append_end_of_trace_record.
    rewrite append_validated by done. unfold EndOfTrace_valid. tauto.
  - done.
  - apply (exact_run_reader decode_end_of_trace_exact).
Defined.
