(* ===== verification/DictionaryCodec.v ===== *)
(** * Custom hook, module and stack records

    The dictionary records of src/src/trace/record_codec.cpp: custom hook
    definitions and failures (lines 661-802), module loads and unloads (804-934)
    and stack definitions (936-1012). *)

From S2P Require Import Prelude Bytes WireFormat RecordCursor RecordInterface TraceData PayloadReader StatisticsCodec Completeness EventCodec.

Definition kCustomHookDefinitionFixedPayloadSize : Z := 16.
Definition kCustomHookFailureFixedPayloadSize : Z := 16.
Definition kModuleLoadFixedPayloadSize : Z := 80.
Definition kModuleUnloadPayloadSize : Z := 16.
Definition kStackDefinitionFixedPayloadSize : Z := 16.
Definition kStackFramePayloadSize : Z := 32.

(** [ModuleRecordType] and [StackRecordType] *)
Definition kModuleLoad : Z := 1.
Definition kModuleUnload : Z := 2.
Definition kStackDefinition : Z := 1.

(** The common size test of records with two strings: the sizes fit uint32 and
    the record fits its limit. *)
Definition strings_too_large (max fixed : Z) (s1 s2 : bytes) : bool :=
  (u32_max <? size_of s1) || (u32_max <? size_of s2) ||
  (max <? kRecordHeaderSize + fixed) ||
  (max - kRecordHeaderSize - fixed <? size_of s1 + size_of s2).

(** ** Custom hook definitions *)

Definition append_custom_hook_definition_payload (payload : bytes) (d : CustomHookDefinition)
    : bytes :=
  let payload := append_u32 payload (chd_api_id d) in
  let payload := append_u32 payload (wrap32 (size_of (chd_module_name d))) in
  let payload := append_u32 payload (wrap32 (size_of (chd_label d))) in
  let payload := append_u32 payload 0 in
  let payload := append_string_bytes payload (chd_module_name d) in
  append_string_bytes payload (chd_label d).

Definition append_custom_hook_definition_record (chunk_payload : bytes)
    (d : CustomHookDefinition) (maximum_record_size : Z) : result exn bytes :=
  validate_custom_hook_definition d ;;
  codec_if (strings_too_large maximum_record_size kCustomHookDefinitionFixedPayloadSize
              (chd_module_name d) (chd_label d))
    "custom hook definition exceeds the configured record size limit" ;;
  append_record chunk_payload (MetadataRecordType_value MRT_kCustomHookDefinition)
    kRecordVersion (append_custom_hook_definition_payload [] d) maximum_record_size.

(** [size] is [record.payload.size()] *)
Definition decode_custom_hook_definition (size : Z) : reader CustomHookDefinition :=
  api_id ← read_u32;
  module_name_size ← read_u32;
  label_size ← read_u32;
  expect_zeros 4 ;;
  lift (codec_if (negb (module_name_size + label_size =?
                        size - kCustomHookDefinitionFixedPayloadSize))
          "custom hook definition string sizes do not match the record payload") ;;
  module_name ← read_string (Z.to_nat module_name_size);
  label ← read_string (Z.to_nat label_size);
  expect_done ;;
  let d := {| chd_api_id := api_id; chd_module_name := module_name; chd_label := label |} in
  lift (rethrow_as CustomHookValidationError RecordCodecError
          "invalid CustomHookDefinition record: " (validate_custom_hook_definition d)) ;;
  mret d.

Definition decode_custom_hook_definition_record (record : RecordView)
    : result exn (option CustomHookDefinition) :=
  if negb (rv_type record =? MetadataRecordType_value MRT_kCustomHookDefinition) ||
     negb (rv_version record =? kRecordVersion)
  then Ok None
  else
    d ← (codec_if (size_of (rv_payload record) <? kCustomHookDefinitionFixedPayloadSize)
           "custom hook definition payload is truncated" ;;
         run_reader (decode_custom_hook_definition (size_of (rv_payload record)))
           (rv_payload record));
    Ok (Some d).

(** ** Custom hook failures *)

Definition CustomHookFailureRole_value (r : CustomHookFailureRole) : Z :=
  match r with Role_kAlloc => 0 | Role_kRealloc => 1 | Role_kFree => 2 | Role_kPoint => 255 end.

Definition CustomHookFailureReason_value (r : CustomHookFailureReason) : Z :=
  match r with
  | HookReason_kModuleNotLoaded => 1 | HookReason_kExportNotFound => 2
  | HookReason_kForwardedExport => 3 | HookReason_kInvalidRva => 4
  | HookReason_kWrongSignature => 5 | HookReason_kImageIdentityMismatch => 6
  | HookReason_kBackendUnavailable => 7 | HookReason_kOther => 255
  end.

Definition append_custom_hook_failure_payload (payload : bytes) (f : CustomHookFailure)
    : bytes :=
  let payload := append_u32 payload (wrap32 (size_of (chf_module f))) in
  let payload := append_u32 payload (wrap32 (size_of (chf_detail f))) in
  let payload := append_u8 payload (CustomHookFailureRole_value (chf_role f)) in
  let payload := append_u8 payload (CustomHookFailureReason_value (chf_reason f)) in
  let payload := append_zeros payload 6 in
  let payload := append_string_bytes payload (chf_module f) in
  append_string_bytes payload (chf_detail f).

Definition append_custom_hook_failure_record (chunk_payload : bytes) (f : CustomHookFailure)
    (maximum_record_size : Z) : result exn bytes :=
  validate_custom_hook_failure f ;;
  codec_if (strings_too_large maximum_record_size kCustomHookFailureFixedPayloadSize
              (chf_module f) (chf_detail f))
    "custom hook failure exceeds the configured record size limit" ;;
  append_record chunk_payload (MetadataRecordType_value MRT_kCustomHookFailure)
    kRecordVersion (append_custom_hook_failure_payload [] f) maximum_record_size.

(** [switch (role)] *)
Definition decode_failure_role (role : Z) : result exn CustomHookFailureRole :=
  match role with
  | 0 => Ok Role_kAlloc
  | 1 => Ok Role_kRealloc
  | 2 => Ok Role_kFree
  | 255 => Ok Role_kPoint
  | _ => codec_error "custom hook failure role is not supported"
  end.

(** [switch (reason)] *)
Definition decode_failure_reason (reason : Z) : result exn CustomHookFailureReason :=
  match reason with
  | 1 => Ok HookReason_kModuleNotLoaded
  | 2 => Ok HookReason_kExportNotFound
  | 3 => Ok HookReason_kForwardedExport
  | 4 => Ok HookReason_kInvalidRva
  | 5 => Ok HookReason_kWrongSignature
  | 6 => Ok HookReason_kImageIdentityMismatch
  | 7 => Ok HookReason_kBackendUnavailable
  | 255 => Ok HookReason_kOther
  | _ => codec_error "custom hook failure reason is not supported"
  end.

Definition decode_custom_hook_failure (size : Z) : reader CustomHookFailure :=
  module_size ← read_u32;
  detail_size ← read_u32;
  raw_role ← read_u8;
  raw_reason ← read_u8;
  expect_zeros 6 ;;
  lift (codec_if (negb (module_size + detail_size =?
                        size - kCustomHookFailureFixedPayloadSize))
          "custom hook failure string sizes do not match the record payload") ;;
  module ← read_string (Z.to_nat module_size);
  detail ← read_string (Z.to_nat detail_size);
  expect_done ;;
  role ← lift (decode_failure_role raw_role);
  reason ← lift (decode_failure_reason raw_reason);
  let f := {| chf_module := module; chf_role := role; chf_reason := reason;
              chf_detail := detail |} in
  lift (rethrow_as CustomHookValidationError RecordCodecError
          "invalid CustomHookFailure record: " (validate_custom_hook_failure f)) ;;
  mret f.

Definition decode_custom_hook_failure_record (record : RecordView)
    : result exn (option CustomHookFailure) :=
  if negb (rv_type record =? MetadataRecordType_value MRT_kCustomHookFailure) ||
     negb (rv_version record =? kRecordVersion)
  then Ok None
  else
    f ← (codec_if (size_of (rv_payload record) <? kCustomHookFailureFixedPayloadSize)
           "custom hook failure payload is truncated" ;;
         run_reader (decode_custom_hook_failure (size_of (rv_payload record)))
           (rv_payload record));
    Ok (Some f).

(** ** Module loads and unloads *)

Definition append_module_load_payload (payload : bytes) (load : ModuleLoad) : bytes :=
  let payload := append_u64 payload (ml_module_id load) in
  let payload := append_u64 payload (ml_monotonic_ticks load) in
  let payload := append_u64 payload (ml_base_address load) in
  let payload := append_u64 payload (ml_image_size load) in
  let payload := append_u32 payload (ml_flags load) in
  let presence := 0 in
  let presence := wrap8 (Z.lor presence (bit_if (has_value (ml_image_identity load)) 1)) in
  let presence := wrap8 (Z.lor presence (bit_if (has_value (ml_pdb_identity load)) 2)) in
  let payload := append_u8 payload presence in
  let payload := append_zeros payload 3 in
  let payload := append_u32 payload (from_option pe_timestamp 0 (ml_image_identity load)) in
  let payload := append_u32 payload (from_option pe_checksum 0 (ml_image_identity load)) in
  let payload := append_u32 payload (from_option pe_image_size 0 (ml_image_identity load)) in
  let payload := append_u32 payload (from_option pdb_age 0 (ml_pdb_identity load)) in
  let payload := append_u32 payload (wrap32 (size_of (ml_image_path load))) in
  let payload := append_u32 payload (wrap32 (size_of (ml_pdb_path load))) in
  let payload := match ml_pdb_identity load with
                 | Some identity => payload ++ pdb_guid identity
                 | None => append_zeros payload 16
                 end in
  let payload := append_string_bytes payload (ml_image_path load) in
  append_string_bytes payload (ml_pdb_path load).

Definition append_module_load_record (chunk_payload : bytes) (load : ModuleLoad)
    (maximum_record_size : Z) : result exn bytes :=
  validate_module_load load ;;
  codec_if (strings_too_large maximum_record_size kModuleLoadFixedPayloadSize
              (ml_image_path load) (ml_pdb_path load))
    "module load exceeds the configured record size limit" ;;
  append_record chunk_payload kModuleLoad kRecordVersion
    (append_module_load_payload [] load) maximum_record_size.

Definition append_module_unload_payload (payload : bytes) (unload : ModuleUnload) : bytes :=
  let payload := append_u64 payload (mu_module_id unload) in
  append_u64 payload (mu_monotonic_ticks unload).

Definition append_module_unload_record (chunk_payload : bytes) (unload : ModuleUnload)
    (maximum_record_size : Z) : result exn bytes :=
  validate_module_unload unload ;;
  append_record chunk_payload kModuleUnload kRecordVersion
    (append_module_unload_payload [] unload) maximum_record_size.

Definition load_image_identity (presence timestamp checksum image_size : Z)
    : result exn (option PeImageIdentity) :=
  if negb (Z.land presence 1 =? 0)
  then Ok (Some {| pe_timestamp := timestamp; pe_checksum := checksum;
                   pe_image_size := image_size |})
  else codec_if (negb (timestamp =? 0) || negb (checksum =? 0) || negb (image_size =? 0))
         "absent module PE identity must be zero" ;; Ok None.

Definition load_pdb_identity (presence : Z) (guid : bytes) (age : Z)
    : result exn (option PdbIdentity) :=
  if negb (Z.land presence 2 =? 0)
  then Ok (Some {| pdb_guid := guid; pdb_age := age |})
  else codec_if (negb (age =? 0) || existsb (λ b, negb (Byte.eqb x00 b)) guid)
         "absent module PDB identity must be zero" ;; Ok None.

(** [presence & ~0x03U] promotes to 32 bits. *)
Definition decode_module_load (size : Z) : reader ModuleLoad :=
  module_id ← read_u64;
  monotonic_ticks ← read_u64;
  base_address ← read_u64;
  image_size ← read_u64;
  flags ← read_u32;
  presence ← read_u8;
  lift (codec_if (negb (Z.land presence (lnot32 0x03) =? 0))
          "module load presence flags are not supported") ;;
  expect_zeros 3 ;;
  timestamp ← read_u32;
  checksum ← read_u32;
  identity_image_size ← read_u32;
  pdb_age ← read_u32;
  image_path_size ← read_u32;
  pdb_path_size ← read_u32;
  guid ← read_guid;
  lift (codec_if (negb (image_path_size + pdb_path_size =? size - kModuleLoadFixedPayloadSize))
          "module path sizes do not match the record payload") ;;
  image_path ← read_string (Z.to_nat image_path_size);
  pdb_path ← read_string (Z.to_nat pdb_path_size);
  expect_done ;;
  image_identity ← lift (load_image_identity presence timestamp checksum identity_image_size);
  pdb_identity ← lift (load_pdb_identity presence guid pdb_age);
  let load := {| ml_module_id := module_id; ml_monotonic_ticks := monotonic_ticks;
                 ml_base_address := base_address; ml_image_size := image_size;
                 ml_image_path := image_path; ml_image_identity := image_identity;
                 ml_pdb_identity := pdb_identity; ml_pdb_path := pdb_path;
                 ml_flags := flags |} in
  lift (rethrow_as ModuleValidationError RecordCodecError "invalid ModuleLoad record: "
          (validate_module_load load)) ;;
  mret load.

Definition decode_module_unload : reader ModuleUnload :=
  module_id ← read_u64;
  monotonic_ticks ← read_u64;
  expect_done ;;
  let unload := {| mu_module_id := module_id; mu_monotonic_ticks := monotonic_ticks |} in
  lift (rethrow_as ModuleValidationError RecordCodecError "invalid ModuleUnload record: "
          (validate_module_unload unload)) ;;
  mret unload.

Definition decode_module_record (record : RecordView) : result exn (option ModuleRecord) :=
  if negb (rv_version record =? kRecordVersion) then Ok None
  else if rv_type record =? kModuleLoad then
    codec_if (size_of (rv_payload record) <? kModuleLoadFixedPayloadSize)
      "module load payload is truncated" ;;
    load ← run_reader (decode_module_load (size_of (rv_payload record))) (rv_payload record);
    Ok (Some (ModuleRecord_Load load))
  else if rv_type record =? kModuleUnload then
    codec_if (negb (size_of (rv_payload record) =? kModuleUnloadPayloadSize))
      "module unload payload has an invalid size" ;;
    unload ← run_reader decode_module_unload (rv_payload record);
    Ok (Some (ModuleRecord_Unload unload))
  else Ok None.

(** ** Stack definitions *)

Definition StackCaptureStatus_value (s : StackCaptureStatus) : Z :=
  match s with
  | Stack_kComplete => 0 | Stack_kTruncatedByDepth => 1 | Stack_kUnwindFailed => 2
  | Stack_kUnavailable => 3
  end.

Definition decode_stack_capture_status (value : Z) : result exn StackCaptureStatus :=
  match value with
  | 0 => Ok Stack_kComplete
  | 1 => Ok Stack_kTruncatedByDepth
  | 2 => Ok Stack_kUnwindFailed
  | 3 => Ok Stack_kUnavailable
  | _ => codec_error "stack capture status is not supported"
  end.

Definition append_stack_frame (payload : bytes) (frame : StackFrame) : bytes :=
  let payload := append_u64 payload (sf_module_id frame) in
  let payload := append_u64 payload (sf_module_offset frame) in
  let payload := append_u64 payload (sf_absolute_address frame) in
  let payload := append_u32 payload (sf_flags frame) in
  append_u32 payload 0.

Definition append_stack_definition_payload (payload : bytes) (d : StackDefinition) : bytes :=
  let payload := append_u64 payload (sd_stack_id d) in
  let payload := append_u8 payload (StackCaptureStatus_value (sd_status d)) in
  let payload := append_zeros payload 3 in
  let payload := append_u32 payload (wrap32 (size_of (sd_frames d))) in
  foldl append_stack_frame payload (sd_frames d).

Definition append_stack_definition_record (chunk_payload : bytes) (d : StackDefinition)
    (maximum_record_size : Z) : result exn bytes :=
  validate_stack_definition d ;;
  codec_if ((u32_max <? size_of (sd_frames d)) ||
            (maximum_record_size <? kRecordHeaderSize + kStackDefinitionFixedPayloadSize) ||
            ((maximum_record_size - kRecordHeaderSize - kStackDefinitionFixedPayloadSize) /
               kStackFramePayloadSize <? size_of (sd_frames d)))
    "stack definition exceeds the configured record size limit" ;;
  append_record chunk_payload kStackDefinition kRecordVersion
    (append_stack_definition_payload [] d) maximum_record_size.

Definition decode_stack_frame : reader StackFrame :=
  module_id ← read_u64;
  module_offset ← read_u64;
  absolute_address ← read_u64;
  flags ← read_u32;
  expect_zeros 4 ;;
  mret {| sf_module_id := module_id; sf_module_offset := module_offset;
          sf_absolute_address := absolute_address; sf_flags := flags |}.

Definition decode_stack_definition (size : Z) : reader StackDefinition :=
  stack_id ← read_u64;
  raw_status ← read_u8;
  status ← lift (decode_stack_capture_status raw_status);
  expect_zeros 3 ;;
  frame_count ← read_u32;
  lift (codec_if
          (((size - kStackDefinitionFixedPayloadSize) / kStackFramePayloadSize <? frame_count) ||
           negb (kStackDefinitionFixedPayloadSize + frame_count * kStackFramePayloadSize =? size))
          "stack frame count does not match the record payload") ;;
  frames ← read_each (Z.to_nat frame_count) decode_stack_frame;
  expect_done ;;
  let d := {| sd_stack_id := stack_id; sd_status := status; sd_frames := frames |} in
  lift (rethrow_as StackValidationError RecordCodecError "invalid StackDefinition record: "
          (validate_stack_definition d)) ;;
  mret d.

Definition decode_stack_definition_record (record : RecordView)
    : result exn (option StackDefinition) :=
  if negb (rv_type record =? kStackDefinition) || negb (rv_version record =? kRecordVersion)
  then Ok None
  else
    d ← (codec_if (size_of (rv_payload record) <? kStackDefinitionFixedPayloadSize)
           "stack definition payload is truncated" ;;
         run_reader (decode_stack_definition (size_of (rv_payload record)))
           (rv_payload record));
    Ok (Some d).

(** ** Codecs *)

Lemma strings_fit max type payload fixed s1 s2 : 0 ≤ fixed →
  size_of payload = fixed + size_of s1 + size_of s2 → record_ok max (view_of type payload) →
  u32 (size_of s1) ∧ u32 (size_of s2) ∧ strings_too_large max fixed s1 s2 = false.
Proof.
  intros Hf Hs (_ & _ & Hmax & Hu). unfold record_size, kRecordHeaderSize in *. cbn in *.
  rewrite Hs in *. pose proof (size_of_nonneg s1). pose proof (size_of_nonneg s2).
  split_and!; [word..|]. unfold strings_too_large, kRecordHeaderSize.
  rewrite !orb_false_iff, !Z.ltb_ge. word.
Qed.

Definition CustomHookDefinition_valid (d : CustomHookDefinition) : Prop :=
  CustomHookDefinition_wt d ∧ u32 (size_of (chd_module_name d)) ∧ u32 (size_of (chd_label d)) ∧
  validate_custom_hook_definition d = Ok tt.

Lemma size_custom_hook_definition d :
  size_of (append_custom_hook_definition_payload [] d) =
  16 + size_of (chd_module_name d) + size_of (chd_label d).
Proof.
  unfold append_custom_hook_definition_payload. normalize_encoding.
  unfold size_of. rewrite !length_app, !length_le_bytes. lia.
Qed.

Lemma decode_custom_hook_definition_exact size :
  exact (decode_custom_hook_definition size) (append_custom_hook_definition_payload [])
    (λ d, CustomHookDefinition_valid d ∧
          size_of (append_custom_hook_definition_payload [] d) = size).
Proof.
  split.
  - intros d [(Hwt & Hn & Hl & Hv) <-]. rewrite size_custom_hook_definition.
    unfold append_custom_hook_definition_payload. rewrite !wrap32_small by done.
    pose proof (length_size_of (chd_module_name d)). pose proof (length_size_of (chd_label d)).
    assert (codec_if (negb (size_of (chd_module_name d) + size_of (chd_label d) =?
      16 + size_of (chd_module_name d) + size_of (chd_label d) -
      kCustomHookDefinitionFixedPayloadSize))
      "custom hook definition string sizes do not match the record payload" = Ok tt).
    { apply codec_if_false, negb_false_iff, Z.eqb_eq.
      unfold kCustomHookDefinitionFixedPayloadSize. lia. }
    eexists. unfold decode_custom_hook_definition. unfold CustomHookDefinition_wt in Hwt.
    reader_run. apply read_value. by destruct d.
  - intros d pre tail r H. unfold decode_custom_hook_definition in H. reader_inv H. bool_facts.
    subst d. rewrite size_custom_hook_definition.
    unfold append_custom_hook_definition_payload, CustomHookDefinition_valid,
      CustomHookDefinition_wt, kCustomHookDefinitionFixedPayloadSize in *. cbn.
    repeat match goal with H : length ?s = Z.to_nat ?n |- _ =>
      apply size_of_read in H; [rewrite H, (wrap32_small n) by done|done] end.
    normalize_encoding. rewrite ?le_bytes_zeros, ?app_nil_r.
    split_and!; (done || word).
Qed.

#[export] Instance custom_hook_definition_codec :
  RecordCodec append_custom_hook_definition_record decode_custom_hook_definition_record.
Proof.
  apply (single_codec _ _ (MetadataRecordType_value MRT_kCustomHookDefinition)
    (append_custom_hook_definition_payload []) CustomHookDefinition_wt CustomHookDefinition_valid
    (λ payload,
       codec_if (size_of payload <? kCustomHookDefinitionFixedPayloadSize)
         "custom hook definition payload is truncated" ;;
       run_reader (decode_custom_hook_definition (size_of payload)) payload)).
  - intros chunk d max chunk' Hwt Hmax. unfold append_custom_hook_definition_record, codec_if.
    rewrite append_checked by done. unfold CustomHookDefinition_valid.
    assert (0 ≤ kCustomHookDefinitionFixedPayloadSize) as H0 by done.
    pose proof (strings_fit max (MetadataRecordType_value MRT_kCustomHookDefinition) _ _ _ _ H0
      (size_custom_hook_definition d)). tauto.
  - done.
  - intros payload d. apply sized_parse; [apply decode_custom_hook_definition_exact|].
    intros d'. rewrite size_custom_hook_definition. unfold kCustomHookDefinitionFixedPayloadSize.
    pose proof (size_of_nonneg (chd_module_name d')). pose proof (size_of_nonneg (chd_label d')). lia.
Defined.

#[export] Instance failure_role_wire : EnumWire decode_failure_role CustomHookFailureRole_value.
Proof. solve_enum decode_failure_role. Qed.
#[export] Instance failure_reason_wire :
  EnumWire decode_failure_reason CustomHookFailureReason_value.
Proof. solve_enum decode_failure_reason. Qed.
#[export] Instance stack_status_wire :
  EnumWire decode_stack_capture_status StackCaptureStatus_value.
Proof. solve_enum decode_stack_capture_status. Qed.

(** Two string sizes that add up to the rest of the payload. *)
Ltac sizes_match fixed :=
  apply codec_if_false, negb_false_iff, Z.eqb_eq; unfold fixed; lia.

(** Each string read back has the size of its size field. *)
Ltac string_sizes :=
  repeat match goal with H : length ?s = Z.to_nat ?n |- _ =>
    apply size_of_read in H; [rewrite H, (wrap32_small n) by done|done] end.

Definition CustomHookFailure_valid (f : CustomHookFailure) : Prop :=
  u32 (size_of (chf_module f)) ∧ u32 (size_of (chf_detail f)) ∧
  validate_custom_hook_failure f = Ok tt.

Lemma size_custom_hook_failure f :
  size_of (append_custom_hook_failure_payload [] f) =
  16 + size_of (chf_module f) + size_of (chf_detail f).
Proof.
  unfold append_custom_hook_failure_payload. normalize_encoding.
  unfold size_of. rewrite !length_app, !length_le_bytes, length_zeros. lia.
Qed.

Lemma decode_custom_hook_failure_exact size :
  exact (decode_custom_hook_failure size) (append_custom_hook_failure_payload [])
    (λ f, CustomHookFailure_valid f ∧
          size_of (append_custom_hook_failure_payload [] f) = size).
Proof.
  split.
  - intros f [(Hn & Hl & Hv) <-]. rewrite size_custom_hook_failure.
    unfold append_custom_hook_failure_payload. rewrite !wrap32_small by done.
    pose proof (length_size_of (chf_module f)). pose proof (length_size_of (chf_detail f)).
    assert (codec_if (negb (size_of (chf_module f) + size_of (chf_detail f) =?
      16 + size_of (chf_module f) + size_of (chf_detail f) - kCustomHookFailureFixedPayloadSize))
      "custom hook failure string sizes do not match the record payload" = Ok tt)
      by sizes_match kCustomHookFailureFixedPayloadSize.
    eexists. unfold decode_custom_hook_failure. reader_run. apply read_value. by destruct f.
  - intros f pre tail r H. unfold decode_custom_hook_failure in H. reader_inv H. bool_facts.
    subst f. rewrite size_custom_hook_failure.
    unfold append_custom_hook_failure_payload, CustomHookFailure_valid,
      kCustomHookFailureFixedPayloadSize in *. cbn. string_sizes.
    normalize_encoding. rewrite ?app_nil_r. split_and!; (done || word).
Qed.

#[export] Instance custom_hook_failure_codec :
  RecordCodec append_custom_hook_failure_record decode_custom_hook_failure_record.
Proof.
  apply (single_codec _ _ (MetadataRecordType_value MRT_kCustomHookFailure)
    (append_custom_hook_failure_payload []) (λ _, True) CustomHookFailure_valid
    (λ payload,
       codec_if (size_of payload <? kCustomHookFailureFixedPayloadSize)
         "custom hook failure payload is truncated" ;;
       run_reader (decode_custom_hook_failure (size_of payload)) payload)).
  - intros chunk f max chunk' _ Hmax. unfold append_custom_hook_failure_record, codec_if.
    rewrite append_checked by done. unfold CustomHookFailure_valid.
    assert (0 ≤ kCustomHookFailureFixedPayloadSize) as H0 by done.
    pose proof (strings_fit max (MetadataRecordType_value MRT_kCustomHookFailure) _ _ _ _ H0
      (size_custom_hook_failure f)). tauto.
  - done.
  - intros payload f. apply sized_parse; [apply decode_custom_hook_failure_exact|].
    intros f'. rewrite size_custom_hook_failure. unfold kCustomHookFailureFixedPayloadSize.
    pose proof (size_of_nonneg (chf_module f')). pose proof (size_of_nonneg (chf_detail f')). lia.
Defined.

(** Stack definitions *)

Definition stack_frame_bytes (f : StackFrame) : bytes := append_stack_frame [] f.

Lemma append_stack_frame_spec o f : append_stack_frame o f = o ++ stack_frame_bytes f.
Proof. unfold stack_frame_bytes, append_stack_frame. by normalize_encoding. Qed.

#[export] Instance decode_stack_frame_format :
  format decode_stack_frame stack_frame_bytes StackFrame_wt.
Proof.
  solve_format
    ltac:(fun _ => unfold decode_stack_frame, stack_frame_bytes, append_stack_frame,
                     StackFrame_wt in *)
    ltac:(fun v => destruct v).
Qed.

Lemma length_stack_frame f : length (stack_frame_bytes f) = 32%nat.
Proof.
  unfold stack_frame_bytes, append_stack_frame. normalize_encoding.
  by rewrite !length_app, !length_le_bytes.
Qed.

Lemma size_stack_definition d :
  size_of (append_stack_definition_payload [] d) = 16 + 32 * size_of (sd_frames d).
Proof.
  unfold append_stack_definition_payload, size_of. cbv zeta.
  rewrite (foldl_append _ _ _ _ append_stack_frame_spec). normalize_encoding.
  rewrite !length_app, !length_le_bytes, length_zeros,
    (length_concat_fixed _ _ _ length_stack_frame). lia.
Qed.

Definition StackDefinition_valid (d : StackDefinition) : Prop :=
  StackDefinition_wt d ∧ u32 (size_of (sd_frames d)) ∧ validate_stack_definition d = Ok tt.

Lemma decode_stack_definition_exact size :
  exact (decode_stack_definition size) (append_stack_definition_payload [])
    (λ d, StackDefinition_valid d ∧ size_of (append_stack_definition_payload [] d) = size).
Proof.
  split.
  - intros d [([Hid Hwt] & Hn & Hv) <-]. rewrite size_stack_definition.
    unfold append_stack_definition_payload.
    rewrite (foldl_append _ _ _ _ append_stack_frame_spec), wrap32_small by done.
    assert (codec_if ((((16 + 32 * size_of (sd_frames d)) - kStackDefinitionFixedPayloadSize) /
      kStackFramePayloadSize <? size_of (sd_frames d)) ||
      negb (kStackDefinitionFixedPayloadSize + size_of (sd_frames d) * kStackFramePayloadSize =?
        16 + 32 * size_of (sd_frames d)))
      "stack frame count does not match the record payload" = Ok tt).
    { apply codec_if_false, orb_false_iff. unfold kStackDefinitionFixedPayloadSize,
        kStackFramePayloadSize. rewrite Z.ltb_ge, negb_false_iff, Z.eqb_eq.
      split; [apply Z.div_le_lower_bound|]; lia. }
    pose proof (conj (length_size_of (sd_frames d)) Hwt).
    eexists. unfold decode_stack_definition. reader_run. apply read_value. by destruct d.
  - intros d pre tail r H. unfold decode_stack_definition in H. reader_inv H. bool_facts.
    destruct_and?. subst d. rewrite size_stack_definition.
    unfold append_stack_definition_payload, StackDefinition_valid, StackDefinition_wt,
      kStackDefinitionFixedPayloadSize, kStackFramePayloadSize in *. cbn.
    rewrite (foldl_append _ _ _ _ append_stack_frame_spec). 
    match goal with H : length ?l = Z.to_nat ?n |- _ =>
      assert (size_of l = n) as -> by (unfold size_of; word) end.
    rewrite wrap32_small by done. normalize_encoding. rewrite ?app_nil_r.
    split_and!; (done || word).
Qed.

#[export] Instance stack_definition_codec :
  RecordCodec append_stack_definition_record decode_stack_definition_record.
Proof.
  apply (single_codec _ _ kStackDefinition (append_stack_definition_payload [])
    StackDefinition_wt StackDefinition_valid
    (λ payload,
       codec_if (size_of payload <? kStackDefinitionFixedPayloadSize)
         "stack definition payload is truncated" ;;
       run_reader (decode_stack_definition (size_of payload)) payload)).
  - intros chunk d max chunk' Hwt Hmax. unfold append_stack_definition_record, codec_if.
    rewrite append_checked by done. unfold StackDefinition_valid.
    assert (record_ok max (view_of kStackDefinition (append_stack_definition_payload [] d)) →
      u32 (size_of (sd_frames d)) ∧
      (u32_max <? size_of (sd_frames d)) ||
      (max <? kRecordHeaderSize + kStackDefinitionFixedPayloadSize) ||
      ((max - kRecordHeaderSize - kStackDefinitionFixedPayloadSize) / kStackFramePayloadSize <?
         size_of (sd_frames d)) = false); [|tauto].
    unfold kStackDefinitionFixedPayloadSize, kStackFramePayloadSize.
    intros (_ & _ & Hm & Hu). unfold record_size, kRecordHeaderSize in *. cbn in Hm, Hu.
    rewrite size_stack_definition in Hm, Hu. pose proof (size_of_nonneg (sd_frames d)).
    split; [word|]. rewrite !orb_false_iff, !Z.ltb_ge.
    split_and!; [word..|apply Z.div_le_lower_bound; lia].
  - done.
  - intros payload d. apply sized_parse; [apply decode_stack_definition_exact|].
    intros d'. rewrite size_stack_definition. unfold kStackDefinitionFixedPayloadSize.
    pose proof (size_of_nonneg (sd_frames d')). lia.
Defined.

(** Module loads and unloads *)

Definition pdb_guid_bytes (o : option PdbIdentity) : bytes := from_option pdb_guid (zeros 16) o.

Definition module_presence (load : ModuleLoad) : Z :=
  wrap8 (Z.lor (wrap8 (Z.lor 0 (bit_if (has_value (ml_image_identity load)) 1)))
               (bit_if (has_value (ml_pdb_identity load)) 2)).

(** The encoding as one concatenation. *)
Lemma module_load_payload load :
  append_module_load_payload [] load =
  le_bytes 8 (ml_module_id load) ++ le_bytes 8 (ml_monotonic_ticks load) ++
  le_bytes 8 (ml_base_address load) ++ le_bytes 8 (ml_image_size load) ++
  le_bytes 4 (ml_flags load) ++ le_bytes 1 (module_presence load) ++ zeros 3 ++
  le_bytes 4 (from_option pe_timestamp 0 (ml_image_identity load)) ++
  le_bytes 4 (from_option pe_checksum 0 (ml_image_identity load)) ++
  le_bytes 4 (from_option pe_image_size 0 (ml_image_identity load)) ++
  le_bytes 4 (from_option pdb_age 0 (ml_pdb_identity load)) ++
  le_bytes 4 (wrap32 (size_of (ml_image_path load))) ++
  le_bytes 4 (wrap32 (size_of (ml_pdb_path load))) ++
  pdb_guid_bytes (ml_pdb_identity load) ++ ml_image_path load ++ ml_pdb_path load.
Proof.
  unfold append_module_load_payload, module_presence, pdb_guid_bytes. cbv zeta.
  destruct (ml_pdb_identity load); normalize_encoding; done.
Qed.

Lemma size_module_load load : ModuleLoad_wt load →
  size_of (append_module_load_payload [] load) =
  80 + size_of (ml_image_path load) + size_of (ml_pdb_path load).
Proof.
  intros (_ & _ & _ & _ & _ & _ & Hpdb). rewrite module_load_payload. unfold size_of.
  assert (length (pdb_guid_bytes (ml_pdb_identity load)) = 16%nat) as Hg.
  { unfold pdb_guid_bytes. destruct (ml_pdb_identity load) as [i|]; [|done].
    by apply Hpdb. }
  rewrite !length_app, Hg, !length_le_bytes, length_zeros. lia.
Qed.

Lemma load_image_identity_ok p t c s o : load_image_identity p t c s = Ok o →
  has_value o = negb (Z.land p 1 =? 0) ∧ from_option pe_timestamp 0 o = t ∧
  from_option pe_checksum 0 o = c ∧ from_option pe_image_size 0 o = s.
Proof.
  unfold load_image_identity, codec_if. intros H.
  destruct (negb (Z.land p 1 =? 0)); inv_ok; subst; [done|]. bool_facts. naive_solver.
Qed.

Lemma load_pdb_identity_ok p g a o : load_pdb_identity p g a = Ok o → length g = 16%nat →
  has_value o = negb (Z.land p 2 =? 0) ∧ pdb_guid_bytes o = g ∧ from_option pdb_age 0 o = a.
Proof.
  unfold load_pdb_identity, codec_if. intros H Hg.
  destruct (negb (Z.land p 2 =? 0)); inv_ok; subst; [done|].
  apply orb_false_iff in E as [Ha Hz]. bool_facts. split_and!; [done| |done].
  cbn. rewrite <- Hg. symmetry. apply forallb_zeros, forallb_forall. intros b Hb.
  apply not_true_iff_false in Hz. destruct (Byte.eqb x00 b) eqn:E; [done|].
  exfalso. apply Hz, existsb_exists. exists b. by rewrite E.
Qed.

Lemma module_presence_byte p : 0 ≤ p < 4 →
  wrap8 (Z.lor (wrap8 (Z.lor 0 (bit_if (negb (Z.land p 1 =? 0)) 1)))
    (bit_if (negb (Z.land p 2 =? 0)) 2)) = p.
Proof.
  intros Hp. assert (p = 0 ∨ p = 1 ∨ p = 2 ∨ p = 3) as Hcases by lia. by destruct_or?; subst.
Qed.

Definition ModuleLoad_valid (load : ModuleLoad) : Prop :=
  ModuleLoad_wt load ∧ u32 (size_of (ml_image_path load)) ∧ u32 (size_of (ml_pdb_path load)) ∧
  validate_module_load load = Ok tt.

(** The identities a well-typed load carries are read back from their fields. *)
Lemma module_identities_complete load : ModuleLoad_wt load →
  load_image_identity (module_presence load)
    (from_option pe_timestamp 0 (ml_image_identity load))
    (from_option pe_checksum 0 (ml_image_identity load))
    (from_option pe_image_size 0 (ml_image_identity load)) = Ok (ml_image_identity load) ∧
  load_pdb_identity (module_presence load) (pdb_guid_bytes (ml_pdb_identity load))
    (from_option pdb_age 0 (ml_pdb_identity load)) = Ok (ml_pdb_identity load) ∧
  u8 (module_presence load) ∧
  codec_if (negb (Z.land (module_presence load) (lnot32 0x03) =? 0))
    "module load presence flags are not supported" = Ok tt ∧
  u32 (from_option pe_timestamp 0 (ml_image_identity load)) ∧
  u32 (from_option pe_checksum 0 (ml_image_identity load)) ∧
  u32 (from_option pe_image_size 0 (ml_image_identity load)) ∧
  u32 (from_option pdb_age 0 (ml_pdb_identity load)) ∧
  length (pdb_guid_bytes (ml_pdb_identity load)) = 16%nat.
Proof.
  intros (_ & _ & _ & _ & _ & Hpe & Hpdb). unfold module_presence.
  destruct (ml_image_identity load) as [[]|], (ml_pdb_identity load) as [[]|];
    try specialize (Hpe _ eq_refl); try specialize (Hpdb _ eq_refl); cbn in *;
    destruct_and?; split_and!; done.
Qed.

Lemma decode_module_load_exact size :
  exact (decode_module_load size) (append_module_load_payload [])
    (λ load, ModuleLoad_valid load ∧ size_of (append_module_load_payload [] load) = size).
Proof.
  split.
  - intros load [(Hwt & Hi & Hp & Hv) <-]. rewrite size_module_load, module_load_payload by done.
    destruct (module_identities_complete load Hwt) as (? & ? & ? & ? & ? & ? & ? & ? & ?).
    unfold ModuleLoad_wt in Hwt. destruct_and?. rewrite !wrap32_small by done.
    pose proof (length_size_of (ml_image_path load)). pose proof (length_size_of (ml_pdb_path load)).
    assert (codec_if (negb (size_of (ml_image_path load) + size_of (ml_pdb_path load) =?
      80 + size_of (ml_image_path load) + size_of (ml_pdb_path load) - kModuleLoadFixedPayloadSize))
      "module path sizes do not match the record payload" = Ok tt)
      by sizes_match kModuleLoadFixedPayloadSize.
    assert (rethrow_as ModuleValidationError RecordCodecError "invalid ModuleLoad record: "
      (validate_module_load load) = Ok tt) by by apply rethrow_as_ok.
    eexists. unfold decode_module_load. reader_run. apply read_value. by destruct load.
  - intros load pre tail r H. unfold decode_module_load in H. reader_inv H.
    match goal with H : load_image_identity _ _ _ _ = _ |- _ =>
      apply load_image_identity_ok in H as (Hbit1 & <- & <- & <-) end.
    match goal with H : load_pdb_identity _ _ _ = _ |- _ =>
      apply load_pdb_identity_ok in H as (Hbit2 & <- & <-); [|done] end.
    match goal with H : negb (Z.land _ _ =? 0) = false |- _ =>
      apply negb_false_iff, Z.eqb_eq, (presence_bits 2) in H; [|done|lia] end.
    bool_facts. subst load.
    match goal with |- _ = append_module_load_payload [] ?l ∧ _ =>
      assert (ModuleLoad_wt l) as Hwt by
        (unfold ModuleLoad_wt; cbn; split_and!; try done; intros i ->; by cbn in *) end.
    split.
    + rewrite module_load_payload. unfold module_presence. cbn.
      rewrite Hbit1, Hbit2, module_presence_byte by done. string_sizes.
      by rewrite ?app_nil_r.
    + rewrite size_module_load by done. unfold ModuleLoad_valid, kModuleLoadFixedPayloadSize in *.
      cbn in *. repeat match goal with H : length ?s = Z.to_nat ?n |- _ =>
        apply size_of_read in H; [rewrite H|done] end. split_and!; (done || word).
Qed.

Lemma size_module_unload u : size_of (append_module_unload_payload [] u) = 16.
Proof.
  unfold append_module_unload_payload, size_of. normalize_encoding.
  by rewrite length_app, !length_le_bytes.
Qed.

Definition ModuleUnload_valid (u : ModuleUnload) : Prop :=
  ModuleUnload_wt u ∧ validate_module_unload u = Ok tt.

Lemma decode_module_unload_exact :
  exact decode_module_unload (append_module_unload_payload []) ModuleUnload_valid.
Proof.
  solve_exact
    ltac:(fun _ => unfold decode_module_unload, append_module_unload_payload, ModuleUnload_valid,
                     ModuleUnload_wt in *)
    ltac:(fun v => destruct v).
Qed.

(** The appender of either alternative of [ModuleRecord]. *)
Definition append_module_record (chunk_payload : bytes) (record : ModuleRecord)
    (maximum_record_size : Z) : result exn bytes :=
  match record with
  | ModuleRecord_Load load => append_module_load_record chunk_payload load maximum_record_size
  | ModuleRecord_Unload unload =>
      append_module_unload_record chunk_payload unload maximum_record_size
  end.

Definition ModuleRecord_wt (r : ModuleRecord) : Prop :=
  match r with
  | ModuleRecord_Load load => ModuleLoad_wt load
  | ModuleRecord_Unload unload => ModuleUnload_wt unload
  end.

Definition ModuleRecord_valid (r : ModuleRecord) : Prop :=
  match r with
  | ModuleRecord_Load load => ModuleLoad_valid load
  | ModuleRecord_Unload unload => ModuleUnload_valid unload
  end.

Definition module_view (r : ModuleRecord) : RecordView :=
  match r with
  | ModuleRecord_Load load => view_of kModuleLoad (append_module_load_payload [] load)
  | ModuleRecord_Unload unload => view_of kModuleUnload (append_module_unload_payload [] unload)
  end.

Lemma parse_module_load payload load :
  (codec_if (size_of payload <? kModuleLoadFixedPayloadSize) "module load payload is truncated" ;;
   run_reader (decode_module_load (size_of payload)) payload) = Ok load ↔
  payload = append_module_load_payload [] load ∧ ModuleLoad_valid load.
Proof.
  unfold codec_if. rewrite bind_ok. setoid_rewrite throw_if_ok.
  setoid_rewrite (exact_run_reader (decode_module_load_exact _)). split; [naive_solver|].
  intros [-> Hv]. exists tt. split; [|done]. apply Z.ltb_ge.
  rewrite size_module_load by apply Hv. unfold kModuleLoadFixedPayloadSize.
  pose proof (size_of_nonneg (ml_image_path load)). pose proof (size_of_nonneg (ml_pdb_path load)).
  lia.
Qed.

Lemma decode_module_record_ok view r :
  decode_module_record view = Ok (Some r) ↔ ModuleRecord_valid r ∧ view = module_view r.
Proof.
  destruct view as [type version payload]. unfold decode_module_record. cbn. split.
  - destruct (negb (version =? _)) eqn:Ev; [done|]. destruct (type =? kModuleLoad) eqn:E1;
      [|destruct (type =? kModuleUnload) eqn:E2; [|done]]; bool_facts; subst.
    + intros H. assert (∃ load, (codec_if (size_of payload <? kModuleLoadFixedPayloadSize)
        "module load payload is truncated" ;;
        run_reader (decode_module_load (size_of payload)) payload) = Ok load ∧
        r = ModuleRecord_Load load) as (load & [-> Hv]%parse_module_load & ->); [|done].
      inv_ok. exists a0. by rewrite E, E0.
    + intros H. assert (∃ unload, (codec_if (negb (size_of payload =? kModuleUnloadPayloadSize))
        "module unload payload has an invalid size" ;;
        run_reader decode_module_unload payload) = Ok unload ∧
        r = ModuleRecord_Unload unload) as (unload & Hu & ->).
      { inv_ok. exists a0. by rewrite E, E0. }
      apply (fixed_parse _ _ _ _ _ _ _ decode_module_unload_exact) in Hu as [-> Hv]; [done|].
      apply size_module_unload.
  - intros [Hv E]. destruct r as [load|unload]; injection E as -> -> ->; cbn -[kModuleLoad].
    + pose proof (proj2 (parse_module_load (append_module_load_payload [] load) load) (conj eq_refl Hv)) as H.
      apply bind_ok in H as ([] & -> & H). cbn -[run_reader]. by rewrite H.
    + rewrite size_module_unload. cbn -[run_reader].
      by rewrite (proj2 (exact_run_reader decode_module_unload_exact _ unload)).
Qed.

Lemma decode_module_record_none view :
  decode_module_record view = Ok None ↔
  ¬ (rv_version view = kRecordVersion ∧ rv_type view ∈ [kModuleLoad; kModuleUnload]).
Proof.
  unfold decode_module_record. rewrite elem_of_cons, list_elem_of_singleton.
  destruct (negb _) eqn:Ev; [bool_facts; tauto|].
  destruct (rv_type view =? kModuleLoad) eqn:E1;
    [|destruct (rv_type view =? kModuleUnload) eqn:E2]; bool_facts; rewrite ?bind_ok.
  - setoid_rewrite bind_ok. naive_solver.
  - setoid_rewrite bind_ok. naive_solver.
  - tauto.
Qed.

#[export] Instance module_codec : RecordCodec append_module_record decode_module_record.
Proof.
  refine {| codec_wt := ModuleRecord_wt; codec_valid := ModuleRecord_valid;
            codec_view := module_view; codec_types := [kModuleLoad; kModuleUnload] |}.
  - intros chunk [load|unload] max chunk' Hwt Hmax; cbn [append_module_record module_view].
    + unfold append_module_load_record, codec_if. rewrite append_checked by done.
      unfold ModuleRecord_valid, ModuleLoad_valid.
      assert (0 ≤ kModuleLoadFixedPayloadSize) as H0 by done.
      pose proof (strings_fit max kModuleLoad _ _ _ _ H0 (size_module_load load Hwt)).
      cbn in Hwt. tauto.
    + unfold append_module_unload_record. rewrite append_validated by done.
      unfold ModuleRecord_valid, ModuleUnload_valid. cbn in Hwt. tauto.
  - apply decode_module_record_ok.
  - apply decode_module_record_none.
Defined.
