(* ===== verification/MemoryCodec.v ===== *)
(** * Memory snapshot records

    Memory counters, memory maps, agent memory samples and the buffer
    configuration: lines 1208-1436 of src/src/trace/record_codec.cpp. *)

From S2P Require Import Prelude Bytes WireFormat RecordCursor RecordInterface TraceData PayloadReader StatisticsCodec EventCodec.

Definition kMemoryCountersPayloadSize : Z := 48.
Definition kMemoryMapFixedPayloadSize : Z := 48.
Definition kMemoryMapRegionPayloadSize : Z := 24.
Definition kAgentMemoryFixedPayloadSize : Z := 16.
Definition kAgentMemoryCategoryPayloadSize : Z := 24.
Definition kBufferConfigurationPayloadSize : Z := 56.

(** [MemoryRecordType] *)
Definition kMemoryCounters : Z := 1.
Definition kMemoryMap : Z := 2.
Definition kAgentMemory : Z := 3.

(** ** Memory counters *)

Definition append_memory_counters_payload (payload : bytes) (c : MemoryCounters) : bytes :=
  let payload := append_u64 payload (mc_monotonic_ticks c) in
  let payload := append_u64 payload (working_set_bytes c) in
  let payload := append_u64 payload (peak_working_set_bytes c) in
  let payload := append_u64 payload (private_bytes c) in
  let payload := append_u64 payload (commit_bytes c) in
  append_zeros payload 8.

Definition append_memory_counters_record (chunk_payload : bytes) (c : MemoryCounters)
    (maximum_record_size : Z) : result exn bytes :=
  validate_memory_counters c ;;
  append_record chunk_payload kMemoryCounters kRecordVersion
    (append_memory_counters_payload [] c) maximum_record_size.

Definition decode_memory_counters : reader MemoryCounters :=
  monotonic_ticks ← read_u64;
  working_set ← read_u64;
  peak_working_set ← read_u64;
  private ← read_u64;
  commit ← read_u64;
  expect_zeros 8 ;;
  expect_done ;;
  let c := {| mc_monotonic_ticks := monotonic_ticks; working_set_bytes := working_set;
              peak_working_set_bytes := peak_working_set; private_bytes := private;
              commit_bytes := commit |} in
  lift (rethrow_as MemorySnapshotValidationError RecordCodecError
          "invalid MemoryCounters record: " (validate_memory_counters c)) ;;
  mret c.

Definition decode_memory_counters_record (record : RecordView)
    : result exn (option MemoryCounters) :=
  if negb (rv_type record =? kMemoryCounters) || negb (rv_version record =? kRecordVersion)
  then Ok None
  else
    c ← (codec_if (negb (size_of (rv_payload record) =? kMemoryCountersPayloadSize))
           "memory counters payload has an invalid size" ;;
         run_reader decode_memory_counters (rv_payload record));
    Ok (Some c).

(** ** Memory maps *)

Definition MemoryRegionState_value (s : MemoryRegionState) : Z :=
  match s with Region_kCommit => 1 | Region_kReserve => 2 end.

Definition MemoryRegionType_value (t : MemoryRegionType) : Z :=
  match t with Region_kImage => 1 | Region_kMapped => 2 | Region_kPrivate => 3 end.

Definition decode_memory_region_state (value : Z) : result exn MemoryRegionState :=
  match value with
  | 1 => Ok Region_kCommit
  | 2 => Ok Region_kReserve
  | _ => codec_error "memory region state is not supported"
  end.

Definition decode_memory_region_type (value : Z) : result exn MemoryRegionType :=
  match value with
  | 1 => Ok Region_kImage
  | 2 => Ok Region_kMapped
  | 3 => Ok Region_kPrivate
  | _ => codec_error "memory region type is not supported"
  end.

Definition append_memory_region (payload : bytes) (region : MemoryMapRegion) : bytes :=
  let payload := append_u64 payload (mr_base region) in
  let payload := append_u64 payload (mr_size region) in
  let payload := append_u8 payload (MemoryRegionState_value (mr_state region)) in
  let payload := append_u8 payload (MemoryRegionType_value (mr_type region)) in
  let payload := append_u32 payload (mr_protect region) in
  append_zeros payload 2.

Definition append_memory_map_payload (payload : bytes) (map : MemoryMap) : bytes :=
  let payload := append_u64 payload (mm_monotonic_ticks map) in
  let payload := append_u8 payload (bool_u8 (mm_truncated map)) in
  let payload := append_zeros payload 3 in
  let payload := append_u32 payload (wrap32 (size_of (mm_regions map))) in
  let payload := append_u64 payload (mm_committed_bytes map) in
  let payload := append_u64 payload (mm_reserved_bytes map) in
  let payload := append_u64 payload (mm_free_bytes map) in
  let payload := append_u64 payload (mm_largest_free_bytes map) in
  foldl append_memory_region payload (mm_regions map).

Definition append_memory_map_record (chunk_payload : bytes) (map : MemoryMap)
    (maximum_record_size : Z) : result exn bytes :=
  validate_memory_map map ;;
  codec_if ((maximum_record_size <? kRecordHeaderSize + kMemoryMapFixedPayloadSize) ||
            ((maximum_record_size - kRecordHeaderSize - kMemoryMapFixedPayloadSize) /
               kMemoryMapRegionPayloadSize <? size_of (mm_regions map)))
    "memory map exceeds the configured record size limit" ;;
  append_record chunk_payload kMemoryMap kRecordVersion (append_memory_map_payload [] map)
    maximum_record_size.

Definition decode_memory_region : reader MemoryMapRegion :=
  base ← read_u64;
  size ← read_u64;
  raw_state ← read_u8;
  state ← lift (decode_memory_region_state raw_state);
  raw_type ← read_u8;
  type ← lift (decode_memory_region_type raw_type);
  protect ← read_u32;
  expect_zeros 2 ;;
  mret {| mr_base := base; mr_size := size; mr_state := state; mr_type := type;
          mr_protect := protect |}.

Definition decode_memory_map (size : Z) : reader MemoryMap :=
  monotonic_ticks ← read_u64;
  truncated ← decode_bool "memory map truncated flag is not zero or one";
  expect_zeros 3 ;;
  region_count ← read_u32;
  committed ← read_u64;
  reserved ← read_u64;
  free ← read_u64;
  largest_free ← read_u64;
  lift (codec_if
          ((kMaximumMemoryMapRegions <? region_count) ||
           negb (kMemoryMapFixedPayloadSize + region_count * kMemoryMapRegionPayloadSize =? size))
          "memory map region count does not match the record payload") ;;
  regions ← read_each (Z.to_nat region_count) decode_memory_region;
  expect_done ;;
  let map := {| mm_monotonic_ticks := monotonic_ticks; mm_truncated := truncated;
                mm_committed_bytes := committed; mm_reserved_bytes := reserved;
                mm_free_bytes := free; mm_largest_free_bytes := largest_free;
                mm_regions := regions |} in
  lift (rethrow_as MemorySnapshotValidationError RecordCodecError "invalid MemoryMap record: "
          (validate_memory_map map)) ;;
  mret map.

Definition decode_memory_map_record (record : RecordView) : result exn (option MemoryMap) :=
  if negb (rv_type record =? kMemoryMap) || negb (rv_version record =? kRecordVersion)
  then Ok None
  else
    map ← (codec_if (size_of (rv_payload record) <? kMemoryMapFixedPayloadSize)
             "memory map payload is truncated" ;;
           run_reader (decode_memory_map (size_of (rv_payload record))) (rv_payload record));
    Ok (Some map).

(** ** Agent memory *)

Definition AgentMemorySampleKind_value (k : AgentMemorySampleKind) : Z :=
  match k with
  | Sample_kPeriodic => 1 | Sample_kBaselinePreInit => 2 | Sample_kBaselinePostInit => 3
  end.

(** [switch (reader.read_u8())] *)
Definition decode_sample_kind (value : Z) : result exn AgentMemorySampleKind :=
  match value with
  | 1 => Ok Sample_kPeriodic
  | 2 => Ok Sample_kBaselinePreInit
  | 3 => Ok Sample_kBaselinePostInit
  | _ => codec_error "agent memory sample kind is not supported"
  end.

Definition append_agent_category (payload : bytes) (category : AgentMemoryCategorySample)
    : bytes :=
  let payload := append_u32 payload (amc_category category) in
  let payload := append_u32 payload (amc_flags category) in
  let payload := append_u64 payload (amc_reserved_bytes category) in
  append_u64 payload (amc_resident_bytes category).

Definition append_agent_memory_payload (payload : bytes) (memory : AgentMemory) : bytes :=
  let payload := append_u64 payload (am_monotonic_ticks memory) in
  let payload := append_u8 payload (AgentMemorySampleKind_value (am_kind memory)) in
  let payload := append_u8 payload 0 in
  let payload := append_u16 payload 0 in
  let payload := append_u32 payload (wrap32 (size_of (am_categories memory))) in
  foldl append_agent_category payload (am_categories memory).

Definition append_agent_memory_record (chunk_payload : bytes) (memory : AgentMemory)
    (maximum_record_size : Z) : result exn bytes :=
  validate_agent_memory memory ;;
  codec_if ((maximum_record_size <? kRecordHeaderSize + kAgentMemoryFixedPayloadSize) ||
            ((maximum_record_size - kRecordHeaderSize - kAgentMemoryFixedPayloadSize) /
               kAgentMemoryCategoryPayloadSize <? size_of (am_categories memory)))
    "agent memory exceeds the configured record size limit" ;;
  append_record chunk_payload kAgentMemory kRecordVersion (append_agent_memory_payload [] memory)
    maximum_record_size.

Definition decode_agent_category : reader AgentMemoryCategorySample :=
  category ← read_u32;
  flags ← read_u32;
  reserved ← read_u64;
  resident ← read_u64;
  mret {| amc_category := category; amc_flags := flags; amc_reserved_bytes := reserved;
          amc_resident_bytes := resident |}.

Definition decode_agent_memory (size : Z) : reader AgentMemory :=
  monotonic_ticks ← read_u64;
  raw_kind ← read_u8;
  kind ← lift (decode_sample_kind raw_kind);
  expect_zeros 3 ;;
  category_count ← read_u32;
  lift (codec_if
          ((kMaximumAgentMemoryCategories <? category_count) ||
           negb (kAgentMemoryFixedPayloadSize +
                   category_count * kAgentMemoryCategoryPayloadSize =? size))
          "agent memory category count does not match the record payload") ;;
  categories ← read_each (Z.to_nat category_count) decode_agent_category;
  expect_done ;;
  let memory := {| am_monotonic_ticks := monotonic_ticks; am_kind := kind;
                   am_categories := categories |} in
  lift (rethrow_as MemorySnapshotValidationError RecordCodecError
          "invalid AgentMemory record: " (validate_agent_memory memory)) ;;
  mret memory.

Definition decode_agent_memory_record (record : RecordView) : result exn (option AgentMemory) :=
  if negb (rv_type record =? kAgentMemory) || negb (rv_version record =? kRecordVersion)
  then Ok None
  else
    memory ← (codec_if (size_of (rv_payload record) <? kAgentMemoryFixedPayloadSize)
                "agent memory payload is truncated" ;;
              run_reader (decode_agent_memory (size_of (rv_payload record)))
                (rv_payload record));
    Ok (Some memory).

(** ** Buffer configuration *)

Definition append_buffer_configuration_payload (payload : bytes) (c : BufferConfiguration)
    : bytes :=
  let payload := append_u64 payload (bc_requested_bytes c) in
  let payload := append_u64 payload (bc_effective_slots c) in
  let payload := append_u64 payload (bc_event_size c) in
  let payload := append_u64 payload (bc_slot_size c) in
  let payload := append_u64 payload (bc_reserved_bytes c) in
  let payload := append_u64 payload (bc_resident_after_init_bytes c) in
  let payload := append_u32 payload (bc_flags c) in
  append_zeros payload 4.

Definition append_buffer_configuration_record (chunk_payload : bytes) (c : BufferConfiguration)
    (maximum_record_size : Z) : result exn bytes :=
  validate_buffer_configuration c ;;
  append_record chunk_payload (MetadataRecordType_value MRT_kBufferConfiguration) kRecordVersion
    (append_buffer_configuration_payload [] c) maximum_record_size.

Definition decode_buffer_configuration : reader BufferConfiguration :=
  requested ← read_u64;
  slots ← read_u64;
  event_size ← read_u64;
  slot_size ← read_u64;
  reserved ← read_u64;
  resident ← read_u64;
  flags ← read_u32;
  expect_zeros 4 ;;
  expect_done ;;
  let c := {| bc_requested_bytes := requested; bc_effective_slots := slots;
              bc_event_size := event_size; bc_slot_size := slot_size;
              bc_reserved_bytes := reserved; bc_resident_after_init_bytes := resident;
              bc_flags := flags |} in
  lift (rethrow_as MemorySnapshotValidationError RecordCodecError
          "invalid BufferConfiguration record: " (validate_buffer_configuration c)) ;;
  mret c.

Definition decode_buffer_configuration_record (record : RecordView)
    : result exn (option BufferConfiguration) :=
  if negb (rv_type record =? MetadataRecordType_value MRT_kBufferConfiguration) ||
     negb (rv_version record =? kRecordVersion)
  then Ok None
  else
    c ← (codec_if (negb (size_of (rv_payload record) =? kBufferConfigurationPayloadSize))
           "buffer configuration payload has an invalid size" ;;
         run_reader decode_buffer_configuration (rv_payload record));
    Ok (Some c).

(** ** Codecs *)

#[export] Instance region_state_wire :
  EnumWire decode_memory_region_state MemoryRegionState_value.
Proof. solve_enum decode_memory_region_state. Qed.
#[export] Instance region_type_wire :
  EnumWire decode_memory_region_type MemoryRegionType_value.
Proof. solve_enum decode_memory_region_type. Qed.
#[export] Instance sample_kind_wire : EnumWire decode_sample_kind AgentMemorySampleKind_value.
Proof. solve_enum decode_sample_kind. Qed.

(** The length of a straight-line encoding. *)
Ltac encoding_length unf :=
  unf tt; normalize_encoding; rewrite ?length_app, ?length_le_bytes, ?length_zeros; reflexivity.

Definition MemoryCounters_valid (c : MemoryCounters) : Prop :=
  MemoryCounters_wt c ∧ validate_memory_counters c = Ok tt.

Lemma decode_memory_counters_exact :
  exact decode_memory_counters (append_memory_counters_payload []) MemoryCounters_valid.
Proof.
  solve_exact
    ltac:(fun _ => unfold decode_memory_counters, append_memory_counters_payload,
                     MemoryCounters_valid, MemoryCounters_wt in *)
    ltac:(fun v => destruct v).
Qed.

Lemma size_memory_counters c : size_of (append_memory_counters_payload [] c) = 48.
Proof. encoding_length ltac:(fun _ => unfold size_of, append_memory_counters_payload). Qed.

#[export] Instance memory_counters_codec :
  RecordCodec append_memory_counters_record decode_memory_counters_record.
Proof.
  apply (single_codec _ _ kMemoryCounters (append_memory_counters_payload []) MemoryCounters_wt
    MemoryCounters_valid
    (λ payload,
       codec_if (negb (size_of payload =? kMemoryCountersPayloadSize))
         "memory counters payload has an invalid size" ;;
       run_reader decode_memory_counters payload)).
  - intros chunk c max chunk' Hwt _. unfold append_memory_counters_record.
    rewrite append_validated by done. unfold MemoryCounters_valid. tauto.
  - done.
  - intros payload c. apply fixed_parse; [apply decode_memory_counters_exact|].
    apply size_memory_counters.
Defined.

Definition BufferConfiguration_valid (c : BufferConfiguration) : Prop :=
  BufferConfiguration_wt c ∧ validate_buffer_configuration c = Ok tt.

Lemma decode_buffer_configuration_exact :
  exact decode_buffer_configuration (append_buffer_configuration_payload [])
    BufferConfiguration_valid.
Proof.
  solve_exact
    ltac:(fun _ => unfold decode_buffer_configuration, append_buffer_configuration_payload,
                     BufferConfiguration_valid, BufferConfiguration_wt in *)
    ltac:(fun v => destruct v).
Qed.

Lemma size_buffer_configuration c : size_of (append_buffer_configuration_payload [] c) = 56.
Proof. encoding_length ltac:(fun _ => unfold size_of, append_buffer_configuration_payload). Qed.

#[export] Instance buffer_configuration_codec :
  RecordCodec append_buffer_configuration_record decode_buffer_configuration_record.
Proof.
  apply (single_codec _ _ (MetadataRecordType_value MRT_kBufferConfiguration)
    (append_buffer_configuration_payload []) BufferConfiguration_wt BufferConfiguration_valid
    (λ payload,
       codec_if (negb (size_of payload =? kBufferConfigurationPayloadSize))
         "buffer configuration payload has an invalid size" ;;
       run_reader decode_buffer_configuration payload)).
  - intros chunk c max chunk' Hwt _. unfold append_buffer_configuration_record.
    rewrite append_validated by done. unfold BufferConfiguration_valid. tauto.
  - done.
  - intros payload c. apply fixed_parse; [apply decode_buffer_configuration_exact|].
    apply size_buffer_configuration.
Defined.

(** Memory maps *)

Definition memory_region_bytes (r : MemoryMapRegion) : bytes := append_memory_region [] r.

Lemma append_memory_region_spec o r : append_memory_region o r = o ++ memory_region_bytes r.
Proof. unfold memory_region_bytes, append_memory_region. by normalize_encoding. Qed.

#[export] Instance decode_memory_region_format :
  format decode_memory_region memory_region_bytes MemoryMapRegion_wt.
Proof.
  solve_format
    ltac:(fun _ => unfold decode_memory_region, memory_region_bytes, append_memory_region,
                     MemoryMapRegion_wt in *)
    ltac:(fun v => destruct v).
Qed.

Lemma length_memory_region r : length (memory_region_bytes r) = 24%nat.
Proof. encoding_length ltac:(fun _ => unfold memory_region_bytes, append_memory_region). Qed.

Lemma size_memory_map map :
  size_of (append_memory_map_payload [] map) = 48 + 24 * size_of (mm_regions map).
Proof.
  unfold append_memory_map_payload, size_of. cbv zeta.
  rewrite (foldl_append _ _ _ _ append_memory_region_spec). normalize_encoding.
  rewrite !length_app, !length_le_bytes, length_zeros,
    (length_concat_fixed _ _ _ length_memory_region). lia.
Qed.

Definition MemoryMap_valid (m : MemoryMap) : Prop :=
  MemoryMap_wt m ∧ validate_memory_map m = Ok tt.

(** The validity rules bound the counts, so the count fields do not wrap. *)
Lemma memory_map_count m : validate_memory_map m = Ok tt → size_of (mm_regions m) ≤ 32768.
Proof.
  unfold validate_memory_map, snapshot_if. intros H. inv_ok. by bool_facts.
Qed.

Lemma decode_memory_map_exact size :
  exact (decode_memory_map size) (append_memory_map_payload [])
    (λ m, MemoryMap_valid m ∧ size_of (append_memory_map_payload [] m) = size).
Proof.
  split.
  - intros m [(Hwt & Hv) <-]. rewrite size_memory_map. pose proof (memory_map_count m Hv).
    pose proof (size_of_nonneg (mm_regions m)).
    assert (u32 (size_of (mm_regions m))) by word.
    unfold append_memory_map_payload, bool_u8, MemoryMap_wt in *. destruct_and?.
    rewrite (foldl_append _ _ _ _ append_memory_region_spec), wrap32_small by done.
    assert (codec_if ((kMaximumMemoryMapRegions <? size_of (mm_regions m)) ||
      negb (kMemoryMapFixedPayloadSize + size_of (mm_regions m) * kMemoryMapRegionPayloadSize =?
        48 + 24 * size_of (mm_regions m)))
      "memory map region count does not match the record payload" = Ok tt).
    { apply codec_if_false, orb_false_iff. unfold kMemoryMapFixedPayloadSize,
        kMemoryMapRegionPayloadSize, kMaximumMemoryMapRegions.
      rewrite Z.ltb_ge, negb_false_iff, Z.eqb_eq. lia. }
    assert (length (mm_regions m) = Z.to_nat (size_of (mm_regions m)) ∧
      Forall MemoryMapRegion_wt (mm_regions m)) by (split; [apply length_size_of|done]).
    eexists. unfold decode_memory_map. reader_run. apply read_value. by destruct m.
  - intros m pre tail r H. unfold decode_memory_map in H. reader_inv H. bool_facts.
    destruct_and?. subst m. rewrite size_memory_map.
    unfold append_memory_map_payload, MemoryMap_valid, MemoryMap_wt, bool_u8,
      kMemoryMapFixedPayloadSize, kMemoryMapRegionPayloadSize in *. cbn.
    rewrite (foldl_append _ _ _ _ append_memory_region_spec).
    match goal with H : length ?l = Z.to_nat ?n |- _ =>
      assert (size_of l = n) as -> by (unfold size_of; word) end.
    rewrite wrap32_small by done. normalize_encoding. rewrite ?app_nil_r.
    split_and!; (done || word).
Qed.

#[export] Instance memory_map_codec :
  RecordCodec append_memory_map_record decode_memory_map_record.
Proof.
  apply (single_codec _ _ kMemoryMap (append_memory_map_payload [])
    MemoryMap_wt MemoryMap_valid
    (λ payload,
       codec_if (size_of payload <? kMemoryMapFixedPayloadSize)
         "memory map payload is truncated" ;;
       run_reader (decode_memory_map (size_of payload)) payload)).
  - intros chunk m max chunk' Hwt Hmax. unfold append_memory_map_record, codec_if.
    rewrite append_checked by done. unfold MemoryMap_valid.
    assert (record_ok max (view_of kMemoryMap (append_memory_map_payload [] m)) →
      (max <? kRecordHeaderSize + kMemoryMapFixedPayloadSize) ||
      ((max - kRecordHeaderSize - kMemoryMapFixedPayloadSize) / kMemoryMapRegionPayloadSize <?
         size_of (mm_regions m)) = false); [|tauto].
    unfold kMemoryMapFixedPayloadSize, kMemoryMapRegionPayloadSize.
    intros (_ & _ & Hm & Hu). unfold record_size, kRecordHeaderSize in *. cbn in Hm, Hu.
    rewrite size_memory_map in Hm, Hu. pose proof (size_of_nonneg (mm_regions m)).
    rewrite orb_false_iff, !Z.ltb_ge. split; [word|apply Z.div_le_lower_bound; lia].
  - done.
  - intros payload m. apply sized_parse; [apply decode_memory_map_exact|].
    intros m'. rewrite size_memory_map. unfold kMemoryMapFixedPayloadSize.
    pose proof (size_of_nonneg (mm_regions m')). lia.
Defined.

(** Agent memory *)

Definition agent_category_bytes (c : AgentMemoryCategorySample) : bytes :=
  append_agent_category [] c.

Lemma append_agent_category_spec o c : append_agent_category o c = o ++ agent_category_bytes c.
Proof. unfold agent_category_bytes, append_agent_category. by normalize_encoding. Qed.

#[export] Instance decode_agent_category_format :
  format decode_agent_category agent_category_bytes AgentMemoryCategorySample_wt.
Proof.
  solve_format
    ltac:(fun _ => unfold decode_agent_category, agent_category_bytes, append_agent_category,
                     AgentMemoryCategorySample_wt in *)
    ltac:(fun v => destruct v).
Qed.

Lemma length_agent_category c : length (agent_category_bytes c) = 24%nat.
Proof. encoding_length ltac:(fun _ => unfold agent_category_bytes, append_agent_category). Qed.

(** The encoding with its three reserved bytes together. *)
Lemma agent_memory_payload m :
  append_agent_memory_payload [] m =
  le_bytes 8 (am_monotonic_ticks m) ++ le_bytes 1 (AgentMemorySampleKind_value (am_kind m)) ++
  zeros 3 ++ le_bytes 4 (wrap32 (size_of (am_categories m))) ++
  concat (agent_category_bytes <$> am_categories m).
Proof.
  unfold append_agent_memory_payload. cbv zeta.
  rewrite (foldl_append _ _ _ _ append_agent_category_spec). normalize_encoding.
  rewrite !le_bytes_zeros, (app_assoc (zeros 1)), zeros_add. done.
Qed.

Lemma size_agent_memory m :
  size_of (append_agent_memory_payload [] m) = 16 + 24 * size_of (am_categories m).
Proof.
  rewrite agent_memory_payload. unfold size_of.
  rewrite !length_app, !length_le_bytes, length_zeros,
    (length_concat_fixed _ _ _ length_agent_category). lia.
Qed.

Definition AgentMemory_valid (m : AgentMemory) : Prop :=
  AgentMemory_wt m ∧ validate_agent_memory m = Ok tt.

Lemma agent_memory_count m : validate_agent_memory m = Ok tt → size_of (am_categories m) ≤ 64.
Proof.
  unfold validate_agent_memory, snapshot_if. intros H. inv_ok. by bool_facts.
Qed.

Lemma decode_agent_memory_exact size :
  exact (decode_agent_memory size) (append_agent_memory_payload [])
    (λ m, AgentMemory_valid m ∧ size_of (append_agent_memory_payload [] m) = size).
Proof.
  split.
  - intros m [([Ht Hwt] & Hv) <-]. rewrite size_agent_memory. pose proof (agent_memory_count m Hv).
    pose proof (size_of_nonneg (am_categories m)).
    assert (u32 (size_of (am_categories m))) by word.
    rewrite agent_memory_payload, wrap32_small by done.
    assert (codec_if ((kMaximumAgentMemoryCategories <? size_of (am_categories m)) ||
      negb (kAgentMemoryFixedPayloadSize +
              size_of (am_categories m) * kAgentMemoryCategoryPayloadSize =?
        16 + 24 * size_of (am_categories m)))
      "agent memory category count does not match the record payload" = Ok tt).
    { apply codec_if_false, orb_false_iff. unfold kAgentMemoryFixedPayloadSize,
        kAgentMemoryCategoryPayloadSize, kMaximumAgentMemoryCategories.
      rewrite Z.ltb_ge, negb_false_iff, Z.eqb_eq. lia. }
    pose proof (conj (length_size_of (am_categories m)) Hwt).
    eexists. unfold decode_agent_memory. reader_run. apply read_value. by destruct m.
  - intros m pre tail r H. unfold decode_agent_memory in H. reader_inv H. bool_facts.
    destruct_and?. subst m. rewrite size_agent_memory, agent_memory_payload.
    unfold AgentMemory_valid, AgentMemory_wt,
      kAgentMemoryFixedPayloadSize, kAgentMemoryCategoryPayloadSize in *. cbn.
    match goal with H : length ?l = Z.to_nat ?n |- _ =>
      assert (size_of l = n) as -> by (unfold size_of; word) end.
    rewrite wrap32_small by done. rewrite ?app_nil_r. split_and!; (done || word).
Qed.

#[export] Instance agent_memory_codec :
  RecordCodec append_agent_memory_record decode_agent_memory_record.
Proof.
  apply (single_codec _ _ kAgentMemory (append_agent_memory_payload [])
    AgentMemory_wt AgentMemory_valid
    (λ payload,
       codec_if (size_of payload <? kAgentMemoryFixedPayloadSize)
         "agent memory payload is truncated" ;;
       run_reader (decode_agent_memory (size_of payload)) payload)).
  - intros chunk m max chunk' Hwt Hmax. unfold append_agent_memory_record, codec_if.
    rewrite append_checked by done. unfold AgentMemory_valid.
    assert (record_ok max (view_of kAgentMemory (append_agent_memory_payload [] m)) →
      (max <? kRecordHeaderSize + kAgentMemoryFixedPayloadSize) ||
      ((max - kRecordHeaderSize - kAgentMemoryFixedPayloadSize) /
         kAgentMemoryCategoryPayloadSize <? size_of (am_categories m)) = false); [|tauto].
    unfold kAgentMemoryFixedPayloadSize, kAgentMemoryCategoryPayloadSize.
    intros (_ & _ & Hm & Hu). unfold record_size, kRecordHeaderSize in *. cbn in Hm, Hu.
    rewrite size_agent_memory in Hm, Hu. pose proof (size_of_nonneg (am_categories m)).
    rewrite orb_false_iff, !Z.ltb_ge. split; [word|apply Z.div_le_lower_bound; lia].
  - done.
  - intros payload m. apply sized_parse; [apply decode_agent_memory_exact|].
    intros m'. rewrite size_agent_memory. unfold kAgentMemoryFixedPayloadSize.
    pose proof (size_of_nonneg (am_categories m')). lia.
Defined.
