(* ===== verification/Chunks.v ===== *)
(** * Chunks of records

    The properties of the record codec, chunk type by chunk type: a chunk
    written record by record is read back as the same records, and a chunk read
    back completely is the one the writer would write.  They follow from the
    contract of RecordInterface.v and the instances of the codec files.  The
    mixed chunks try the decoders in the order of src/src/analyzer/event_stream.cpp
    (lines 200-230 and 490-520). *)

From S2P Require Import Prelude Bytes WireFormat RecordCursor RecordInterface Event Completeness TraceData PayloadReader EventCodec StatisticsCodec DictionaryCodec MemoryCodec.

(** ** Mixed chunks *)

Definition append_metadata_record :=
  append_either append_capture_scope_record
    (append_either append_custom_hook_definition_record
       (append_either append_custom_hook_failure_record append_buffer_configuration_record)).

Definition decode_metadata_record :=
  decode_either decode_capture_scope_record
    (decode_either decode_custom_hook_definition_record
       (decode_either decode_custom_hook_failure_record decode_buffer_configuration_record)).

Definition append_memory_record :=
  append_either append_memory_counters_record
    (append_either append_memory_map_record append_agent_memory_record).

Definition decode_memory_record :=
  decode_either decode_memory_counters_record
    (decode_either decode_memory_map_record decode_agent_memory_record).

Ltac disjoint_types := intros t; cbn; rewrite ?list_elem_of_singleton, ?elem_of_cons; set_solver.

Definition hook_failure_or_buffer :
  RecordCodec (append_either append_custom_hook_failure_record append_buffer_configuration_record)
    (decode_either decode_custom_hook_failure_record decode_buffer_configuration_record).
Proof. apply (either_codec custom_hook_failure_codec buffer_configuration_codec). disjoint_types. Defined.

Definition hook_definition_or_later :
  RecordCodec
    (append_either append_custom_hook_definition_record
       (append_either append_custom_hook_failure_record append_buffer_configuration_record))
    (decode_either decode_custom_hook_definition_record
       (decode_either decode_custom_hook_failure_record decode_buffer_configuration_record)).
Proof. apply (either_codec custom_hook_definition_codec hook_failure_or_buffer). disjoint_types. Defined.

#[export] Instance metadata_codec : RecordCodec append_metadata_record decode_metadata_record.
Proof. apply (either_codec capture_scope_codec hook_definition_or_later). disjoint_types. Defined.

Definition map_or_agent_memory :
  RecordCodec (append_either append_memory_map_record append_agent_memory_record)
    (decode_either decode_memory_map_record decode_agent_memory_record).
Proof. apply (either_codec memory_map_codec agent_memory_codec). disjoint_types. Defined.

#[export] Instance memory_codec : RecordCodec append_memory_record decode_memory_record.
Proof. apply (either_codec memory_counters_codec map_or_agent_memory). disjoint_types. Defined.

Definition MetadataRecord_wt
    (r : CaptureScope + (CustomHookDefinition + (CustomHookFailure + BufferConfiguration)))
    : Prop :=
  match r with
  | inr (inl d) => CustomHookDefinition_wt d
  | inr (inr (inr c)) => BufferConfiguration_wt c
  | _ => True
  end.

Definition MemoryRecord_wt (r : MemoryCounters + (MemoryMap + AgentMemory)) : Prop :=
  match r with
  | inl c => MemoryCounters_wt c
  | inr (inl m) => MemoryMap_wt m
  | inr (inr a) => AgentMemory_wt a
  end.

(** The bounds every chunk operation works under: a record limit a cursor
    accepts, and a chunk whose size fits size_t. *)
Definition chunk_limits (chunk : bytes) (max : Z) : Prop :=
  u32 max ∧ kRecordHeaderSize ≤ max ∧ size_of chunk ≤ u64_max.

(** C31: Event chunks.  Appending a list of events and loss records succeeds with
    [chunk] if and only if reading [chunk] back record by record gives exactly
    that list.  So nothing written is lost or altered by decoding, an accepted
    chunk has a single encoding, and only valid records are ever accepted. *)
Theorem event_chunk_roundtrip (records : list EventChunkRecord) (max : Z) (chunk : bytes) :
  Forall EventChunkRecord_wt records → chunk_limits chunk max →
  append_all append_event_chunk_record [] records max = Ok chunk ↔
  decode_chunk decode_event_chunk_record chunk max = Some (Ok (Some <$> records)).
Proof. intros Hwt (? & ? & ?). by apply chunk_codec. Qed.

(** Module chunks: loads and unloads round-trip, in both directions. *)
Theorem module_chunk_roundtrip (records : list ModuleRecord) (max : Z) (chunk : bytes) :
  Forall ModuleRecord_wt records → chunk_limits chunk max →
  append_all append_module_record [] records max = Ok chunk ↔
  decode_chunk decode_module_record chunk max = Some (Ok (Some <$> records)).
Proof. intros Hwt (? & ? & ?). by apply chunk_codec. Qed.

(** Stack chunks: stack definitions round-trip, in both directions. *)
Theorem stack_chunk_roundtrip (records : list StackDefinition) (max : Z) (chunk : bytes) :
  Forall StackDefinition_wt records → chunk_limits chunk max →
  append_all append_stack_definition_record [] records max = Ok chunk ↔
  decode_chunk decode_stack_definition_record chunk max = Some (Ok (Some <$> records)).
Proof. intros Hwt (? & ? & ?). by apply chunk_codec. Qed.

(** Statistics chunks round-trip, in both directions. *)
Theorem statistics_chunk_roundtrip (records : list CaptureStatistics) (max : Z) (chunk : bytes) :
  Forall CaptureStatistics_wt records → chunk_limits chunk max →
  append_all append_statistics_record [] records max = Ok chunk ↔
  decode_chunk decode_statistics_record chunk max = Some (Ok (Some <$> records)).
Proof. intros Hwt (? & ? & ?). by apply chunk_codec. Qed.

(** End chunks round-trip, in both directions, with the exit code's sign. *)
Theorem end_chunk_roundtrip (records : list EndOfTrace) (max : Z) (chunk : bytes) :
  Forall EndOfTrace_wt records → chunk_limits chunk max →
  append_all append_end_of_trace_record [] records max = Ok chunk ↔
  decode_chunk decode_end_of_trace_record chunk max = Some (Ok (Some <$> records)).
Proof. intros Hwt (? & ? & ?). by apply chunk_codec. Qed.

(** Metadata chunks mix four record kinds; the chain of decoders sorts them
    out and they round-trip, in both directions. *)
Theorem metadata_chunk_roundtrip
    (records : list (CaptureScope +
                     (CustomHookDefinition + (CustomHookFailure + BufferConfiguration))))
    (max : Z) (chunk : bytes) :
  Forall MetadataRecord_wt records → chunk_limits chunk max →
  append_all append_metadata_record [] records max = Ok chunk ↔
  decode_chunk decode_metadata_record chunk max = Some (Ok (Some <$> records)).
Proof.
  intros Hwt (? & ? & ?). apply chunk_codec; [|done..].
  eapply Forall_impl; [exact Hwt|]. by intros [|[|[|]]].
Qed.

(** Memory chunks mix counters, maps and agent samples and round-trip, in
    both directions. *)
Theorem memory_chunk_roundtrip (records : list (MemoryCounters + (MemoryMap + AgentMemory)))
    (max : Z) (chunk : bytes) :
  Forall MemoryRecord_wt records → chunk_limits chunk max →
  append_all append_memory_record [] records max = Ok chunk ↔
  decode_chunk decode_memory_record chunk max = Some (Ok (Some <$> records)).
Proof.
  intros Hwt (? & ? & ?). apply chunk_codec; [|done..].
  eapply Forall_impl; [exact Hwt|]. by intros [|[|]].
Qed.

(** The statement of the round trips: appending a list of records succeeds with a
    chunk exactly when that chunk reads back as the list. *)
Definition chunk_roundtrip {R} (append : bytes → R → Z → result exn bytes)
    (decode : RecordView → result exn (option R)) (wt : R → Prop) (max : Z) (chunk : bytes) : Prop :=
  ∀ records, Forall wt records →
    append_all append [] records max = Ok chunk ↔
    decode_chunk decode chunk max = Some (Ok (Some <$> records)).

(** C33: The dictionary chunks round-trip, in both directions: module loads and unloads,
    stack definitions, and metadata chunks, whose chain of decoders sorts the four
    record kinds out.  Nothing written is lost or altered by decoding, and an accepted
    chunk has a single encoding. *)
Theorem dictionary_chunks_roundtrip (max : Z) (chunk : bytes) : chunk_limits chunk max →
  chunk_roundtrip append_module_record decode_module_record ModuleRecord_wt max chunk ∧
  chunk_roundtrip append_stack_definition_record decode_stack_definition_record StackDefinition_wt max chunk ∧
  chunk_roundtrip append_metadata_record decode_metadata_record MetadataRecord_wt max chunk.
Proof.
  intros Hlimits. split_and!; intros records Hwt.
  - by apply module_chunk_roundtrip.
  - by apply stack_chunk_roundtrip.
  - by apply metadata_chunk_roundtrip.
Qed.

(** The chunks that count and measure round-trip, in both directions: memory chunks
    that mix counters, maps and agent samples, statistics, and the end of the trace
    with the sign of its exit code. *)
Theorem snapshot_chunks_roundtrip (max : Z) (chunk : bytes) : chunk_limits chunk max →
  chunk_roundtrip append_memory_record decode_memory_record MemoryRecord_wt max chunk ∧
  chunk_roundtrip append_statistics_record decode_statistics_record CaptureStatistics_wt max chunk ∧
  chunk_roundtrip append_end_of_trace_record decode_end_of_trace_record EndOfTrace_wt max chunk.
Proof.
  intros Hlimits. split_and!; intros records Hwt.
  - by apply memory_chunk_roundtrip.
  - by apply statistics_chunk_roundtrip.
  - by apply end_chunk_roundtrip.
Qed.

(** Forward compatibility of event chunks.  In a chunk of well-formed
    records, those with a type outside 1 to 10 or a version other than 1 are
    skipped whatever their payload, and the valid events and losses between them
    are all decoded, in order. *)
Theorem event_chunk_skips_unknown (views : list RecordView) (max : Z)
    (records : list (option EventChunkRecord)) :
  u32 max → kRecordHeaderSize ≤ max → Forall (record_ok max) views →
  Forall2 (λ view record,
    match record with
    | Some r => EventChunkRecord_valid r ∧ view = event_chunk_view r
    | None => rv_version view ≠ 1 ∨ rv_type view = 0 ∨ 10 < rv_type view
    end) views records →
  decode_chunk decode_event_chunk_record (concat (record_bytes <$> views)) max =
  Some (Ok records).
Proof.
  intros Hmax Hmin Hok Hall. apply chunk_skips; [done..|].
  eapply Forall2_impl; [exact Hall|]. intros view [r|]; [done|]. unfold kRecordVersion.
  intros Hu [Hv Ht]. change (rv_type view ∈ [1; 2; 3; 4; 5; 6; 7; 8; 9; 10]) in Ht.
  destruct Hu as [|Hu]; [done|]. rewrite !elem_of_cons, elem_of_nil in Ht. lia.
Qed.

(** ** Concrete chunks *)

Definition chunk_of (m : result exn bytes) : bytes := match m with Ok c => c | Throw _ => [] end.

(** Closes well-typedness goals about concrete records. *)
Ltac concrete_wt :=
  repeat first
    [ progress cbn in *
    | exact I | apply Forall_nil_2 | apply Forall_cons_2 | match goal with |- _ ∧ _ => split end
    | progress intros | progress simplify_eq | reflexivity
    | solve [word]
    | progress unfold EventChunkRecord_wt, Event_wt, EventHeader_wt, EventPayload_wt,
        ProcessTarget_wt, LossRecord_wt, ModuleRecord_wt, ModuleLoad_wt, ModuleUnload_wt,
        StackDefinition_wt, StackFrame_wt, EndOfTrace_wt, MetadataRecord_wt,
        CustomHookDefinition_wt, BufferConfiguration_wt, MemoryRecord_wt, MemoryCounters_wt,
        MemoryMap_wt, MemoryMapRegion_wt, AgentMemory_wt, AgentMemoryCategorySample_wt,
        is_Some in * ].

Ltac concrete_limits :=
  split; [by unfold u32|split; [by unfold kRecordHeaderSize|]]; unfold size_of; vm_compute; congruence.

Definition example_loss : LossRecord :=
  {| loss_reason := Reason_kQueueFull; loss_location := Location_kAgentQueue;
     estimated_event_count := Some 12;
     sequence_range := Some {| sr_begin := 5; sr_end := 16 |}; tick_range := None |}.

Definition example_events : list EventChunkRecord :=
  [EventChunk_Event example_reallocation; EventChunk_Loss example_loss].

Lemma event_chunk_roundtrip_witness :
  decode_chunk decode_event_chunk_record
    (chunk_of (append_all append_event_chunk_record [] example_events 1024)) 1024 =
  Some (Ok (Some <$> example_events)).
Proof.
  refine (proj1 (event_chunk_roundtrip example_events 1024 _ _ _) _);
    [unfold example_events; concrete_wt|concrete_limits|vm_compute; reflexivity].
Defined.

Definition example_modules : list ModuleRecord :=
  [ModuleRecord_Load
     {| ml_module_id := 1; ml_monotonic_ticks := 10; ml_base_address := 0x400000;
        ml_image_size := 0x1000; ml_image_path := [x61; x2e; x73; x6f];
        ml_image_identity := Some {| pe_timestamp := 7; pe_checksum := 8;
                                     pe_image_size := 0x1000 |};
        ml_pdb_identity := None; ml_pdb_path := []; ml_flags := 1 |};
   ModuleRecord_Unload {| mu_module_id := 1; mu_monotonic_ticks := 20 |}].

Definition example_stacks : list StackDefinition :=
  [{| sd_stack_id := 3; sd_status := Stack_kComplete;
      sd_frames := [{| sf_module_id := 1; sf_module_offset := 16;
                       sf_absolute_address := 0x400010; sf_flags := 0 |}] |};
   {| sd_stack_id := 4; sd_status := Stack_kUnwindFailed; sd_frames := [] |}].

Definition example_ends : list EndOfTrace :=
  [{| final_sequence := 9; final_monotonic_ticks := 99; normal_stop := true;
      target_exit_code := Some (-3); aggregate_completeness := from_mask 4 |}].

Definition example_metadata :
    list (CaptureScope + (CustomHookDefinition + (CustomHookFailure + BufferConfiguration))) :=
  [inl {| started_at_process_start := true; preexisting_allocations_unknown := false |};
   inr (inl {| chd_api_id := 0x1001; chd_module_name := [x61]; chd_label := [x62; x63] |});
   inr (inr (inl {| chf_module := [x61]; chf_role := Role_kPoint;
                    chf_reason := HookReason_kOther; chf_detail := [x64] |}));
   inr (inr (inr {| bc_requested_bytes := 4096; bc_effective_slots := 32; bc_event_size := 120;
                    bc_slot_size := 128; bc_reserved_bytes := 4096;
                    bc_resident_after_init_bytes := 0; bc_flags := 0 |}))].

Definition example_memory : list (MemoryCounters + (MemoryMap + AgentMemory)) :=
  [inl {| mc_monotonic_ticks := 1; working_set_bytes := 2; peak_working_set_bytes := 3;
          private_bytes := 4; commit_bytes := 5 |};
   inr (inl {| mm_monotonic_ticks := 1; mm_truncated := false; mm_committed_bytes := 4096;
               mm_reserved_bytes := 0; mm_free_bytes := 8192; mm_largest_free_bytes := 4096;
               mm_regions := [{| mr_base := 4096; mr_size := 4096; mr_state := Region_kCommit;
                                 mr_type := Region_kImage; mr_protect := 5 |}] |});
   inr (inr {| am_monotonic_ticks := 2; am_kind := Sample_kPeriodic;
               am_categories := [{| amc_category := 77; amc_flags := 1;
                                    amc_reserved_bytes := 10; amc_resident_bytes := 3 |}] |})].

Lemma dictionary_chunks_roundtrip_witness :
  decode_chunk decode_module_record
    (chunk_of (append_all append_module_record [] example_modules 1024)) 1024 =
    Some (Ok (Some <$> example_modules)) ∧
  decode_chunk decode_stack_definition_record
    (chunk_of (append_all append_stack_definition_record [] example_stacks 1024)) 1024 =
    Some (Ok (Some <$> example_stacks)) ∧
  decode_chunk decode_metadata_record
    (chunk_of (append_all append_metadata_record [] example_metadata 1024)) 1024 =
    Some (Ok (Some <$> example_metadata)).
Proof.
  split; [|split].
  - refine (proj1 (proj1 (dictionary_chunks_roundtrip 1024 _ _) example_modules _) _);
      [concrete_limits|unfold example_modules; concrete_wt|vm_compute; reflexivity].
  - refine (proj1 (proj1 (proj2 (dictionary_chunks_roundtrip 1024 _ _)) example_stacks _) _);
      [concrete_limits|unfold example_stacks; concrete_wt|vm_compute; reflexivity].
  - refine (proj1 (proj2 (proj2 (dictionary_chunks_roundtrip 1024 _ _)) example_metadata _) _);
      [concrete_limits|unfold example_metadata; concrete_wt|vm_compute; reflexivity].
Defined.

Lemma snapshot_chunks_roundtrip_witness :
  decode_chunk decode_memory_record
    (chunk_of (append_all append_memory_record [] example_memory 1024)) 1024 =
    Some (Ok (Some <$> example_memory)) ∧
  decode_chunk decode_statistics_record
    (chunk_of (append_all append_statistics_record [] [example_statistics] 1024)) 1024 =
    Some (Ok (Some <$> [example_statistics])) ∧
  decode_chunk decode_end_of_trace_record
    (chunk_of (append_all append_end_of_trace_record [] example_ends 1024)) 1024 =
    Some (Ok (Some <$> example_ends)).
Proof.
  split; [|split].
  - refine (proj1 (proj1 (snapshot_chunks_roundtrip 1024 _ _) example_memory _) _);
      [concrete_limits|unfold example_memory; concrete_wt|vm_compute; reflexivity].
  - refine (proj1 (proj1 (proj2 (snapshot_chunks_roundtrip 1024 _ _)) [example_statistics] _) _);
      [concrete_limits|apply Forall_singleton, example_statistics_wt|vm_compute; reflexivity].
  - refine (proj1 (proj2 (proj2 (snapshot_chunks_roundtrip 1024 _ _)) example_ends _) _);
      [concrete_limits|unfold example_ends; concrete_wt|vm_compute; reflexivity].
Defined.

Definition example_views : list RecordView :=
  [{| rv_type := 11; rv_version := 1; rv_payload := [x01; x02; x03] |};
   event_chunk_view (EventChunk_Loss example_loss);
   {| rv_type := 3; rv_version := 2; rv_payload := [] |}].

Lemma event_chunk_skips_unknown_witness :
  decode_chunk decode_event_chunk_record (concat (record_bytes <$> example_views)) 1024 =
  Some (Ok [None; Some (EventChunk_Loss example_loss); None]).
Proof.
  apply event_chunk_skips_unknown; [by unfold u32|by unfold kRecordHeaderSize| |].
  - repeat constructor; vm_compute; congruence.
  - apply Forall2_cons; split; [cbn; lia|]. apply Forall2_cons; split.
    + split; [|done]. split; [unfold example_loss; concrete_wt|by vm_compute].
    + apply Forall2_cons; split; [cbn; lia|]. by apply Forall2_nil.
Defined.
