(* ===== verification/TraceReader.v ===== *)
(** * The trace reader

    [TraceReader] of src/include/noleax/trace/trace_reader.hpp and
    src/src/trace/trace_reader.cpp (lines 49-427): the file header, then one
    chunk after the other, from an input stream that may end or fail anywhere.

    The stream is the bytes it still holds and what happens once they are
    exhausted: end of file, an I/O error ([bad()]), or a stop without [eof()].
    An unbounded loop of the source takes fuel; [OutOfFuel] is the outcome of a
    loop whose fuel was not enough, and it is proved never to happen. *)

From S2P Require Import Prelude Bytes WireFormat RecordCursor Compression.

(** ** Input streams *)

Inductive stream_end : Set := End_eof | End_bad | End_stop.

Record istream : Set := { in_bytes : bytes; in_end : stream_end }.

Definition streamsize_max : Z := 2 ^ 63 - 1.

Record TraceReaderOptions : Set := {
  max_file_header_size : Z;
  max_chunk_header_size : Z;
  r_max_uncompressed_chunk_size : Z;
  r_max_stored_chunk_size : Z;
  max_compression_ratio : Z;
}.

Definition default_reader_options : TraceReaderOptions := {|
  max_file_header_size := 64 * 1024;
  max_chunk_header_size := 64 * 1024;
  r_max_uncompressed_chunk_size := 16 * 1024 * 1024;
  r_max_stored_chunk_size := 17 * 1024 * 1024;
  max_compression_ratio := 64 * 1024;
|}.

Record TraceChunk : Set := { tc_header : ChunkHeader; tc_payload : bytes }.

Inductive ChunkReadStatus : Set := Status_kChunk | Status_kEndOfFile | Status_kTruncated.

Record ChunkReadResult : Set := {
  crr_status : ChunkReadStatus;
  crr_chunk : option TraceChunk;
}.

Inductive ExactReadResult : Set := Read_kComplete | Read_kNoBytes | Read_kPartial.

#[global] Instance stream_end_eq_dec : EqDecision stream_end.
Proof. solve_decision. Defined.
#[global] Instance ExactReadResult_eq_dec : EqDecision ExactReadResult.
Proof. solve_decision. Defined.
#[global] Instance ChunkReadStatus_eq_dec : EqDecision ChunkReadStatus.
Proof. solve_decision. Defined.

Record TraceReader : Set := {
  input_ : istream;
  options_ : TraceReaderOptions;
  bytes_read_ : Z;
  partially_understood_ : bool;
  terminal_status_ : option ChunkReadStatus;
}.

Inductive fault : Set := Thrown (e : exn) | OutOfFuel.

(** A computation of the reader. *)
Abbreviation reading := (proc TraceReader fault).

Definition read_error {A} (message : string) : reading A :=
  pure (Throw (Thrown (Exn TraceReadError message))).
Definition check (b : bool) (message : string) : reading unit :=
  if b then read_error message else mret tt.
Definition liftx {A} (m : result exn A) : reading A :=
  match m with Ok a => mret a | Throw e => pure (Throw (Thrown e)) end.

Definition set_input (i : istream) (bytes_read : Z) (r : TraceReader) : TraceReader :=
  {| input_ := i; options_ := options_ r; bytes_read_ := bytes_read;
     partially_understood_ := partially_understood_ r;
     terminal_status_ := terminal_status_ r |}.
Definition set_partially_understood (r : TraceReader) : TraceReader :=
  {| input_ := input_ r; options_ := options_ r; bytes_read_ := bytes_read_ r;
     partially_understood_ := true; terminal_status_ := terminal_status_ r |}.
Definition set_terminal (s : ChunkReadStatus) (r : TraceReader) : TraceReader :=
  {| input_ := input_ r; options_ := options_ r; bytes_read_ := bytes_read_ r;
     partially_understood_ := partially_understood_ r; terminal_status_ := Some s |}.

(** ** Reading and skipping *)

(** [read_exact(destination)] for a destination of [size] bytes; the bytes
    delivered come with the result.  The exception mask of the stream plays no
    part, because the source catches [std::ios_base::failure]. *)
Definition read_exact (size : nat) : reading (ExactReadResult * bytes) :=
  if (size =? 0)%nat then mret (Read_kComplete, []) else
  check (streamsize_max <? Z.of_nat size) "read size exceeds std::streamsize" ;;
  r ← get_state;
  let data := take size (in_bytes (input_ r)) in
  let count := size_of data in
  check (u64_max - count <? bytes_read_ r) "trace byte count overflow" ;;
  modify (set_input {| in_bytes := drop size (in_bytes (input_ r)); in_end := in_end (input_ r) |}
            (wrap64 (bytes_read_ r + count))) ;;
  let short := (length data <? size)%nat in
  check (short && bool_decide (in_end (input_ r) = End_bad)) "trace input stream read failed" ;;
  if negb short then mret (Read_kComplete, data) else
  check (bool_decide (in_end (input_ r) = End_stop))
    "trace input stream stopped before the requested bytes were read" ;;
  mret (if (length data =? 0)%nat then Read_kNoBytes else Read_kPartial, data).

Definition scratch_size : Z := 4096.

Fixpoint skip_loop (fuel : nat) (size : Z) (consumed_any : bool) : reading ExactReadResult :=
  match fuel with
  | O => pure (Throw OutOfFuel)
  | S fuel =>
      if size =? 0 then mret Read_kComplete else
      let part_size := Z.min size scratch_size in
      result_data ← read_exact (Z.to_nat part_size);
      match fst result_data with
      | Read_kComplete => skip_loop fuel (size - part_size) true
      | Read_kPartial => mret Read_kPartial
      | Read_kNoBytes => mret (if consumed_any then Read_kPartial else Read_kNoBytes)
      end
  end.

(** Every complete read takes a byte from the stream, so the bytes it still
    holds bound the turns of the loop. *)
Definition skip_exact (size : Z) : reading ExactReadResult :=
  r ← get_state; skip_loop (S (S (length (in_bytes (input_ r))))) size false.

Definition finish (status : ChunkReadStatus) : reading ChunkReadResult :=
  modify (set_terminal status) ;; mret {| crr_status := status; crr_chunk := None |}.

(** ** Parsing and checking *)

Definition parse_platform (value : Z) : result exn Platform :=
  match value with
  | 1 => Ok Platform_kWindows
  | 2 => Ok Platform_kLinux
  | 3 => Ok Platform_kMacos
  | _ => throw TraceReadError "trace platform is not supported"
  end.

Definition parse_architecture (value : Z) : result exn Architecture :=
  match value with
  | 1 => Ok Architecture_kX86
  | 2 => Ok Architecture_kX64
  | 3 => Ok Architecture_kArm64
  | _ => throw TraceReadError "trace architecture is not supported"
  end.

Definition parse_chunk_type (value : Z) : option ChunkType :=
  match value with
  | 1 => Some Chunk_kMetadata
  | 2 => Some Chunk_kModule
  | 3 => Some Chunk_kStack
  | 4 => Some Chunk_kEvent
  | 5 => Some Chunk_kStatistics
  | 6 => Some Chunk_kEnd
  | 7 => Some Chunk_kMemory
  | _ => None
  end.

Definition parse_codec (value : Z) : option CompressionCodec :=
  match value with
  | 0 => Some Codec_kNone
  | 1 => Some Codec_kLz4
  | 2 => Some Codec_kZstd
  | _ => None
  end.

Definition validate_options (o : TraceReaderOptions) : result exn unit :=
  read_if (max_file_header_size o <? kFileHeaderSize)
    "maximum file header size is smaller than the V1 header" ;;
  read_if (max_chunk_header_size o <? kChunkHeaderSize)
    "maximum chunk header size is smaller than the V1 header" ;;
  read_if ((r_max_uncompressed_chunk_size o =? 0) || (r_max_stored_chunk_size o =? 0))
    "chunk size limits must not be zero" ;;
  read_if (max_compression_ratio o =? 0) "maximum compression ratio must not be zero".

Definition validate_sequence_range (b e : Z) : result exn unit :=
  let has_begin := negb (b =? 0) in
  let has_end := negb (e =? 0) in
  read_if (negb (eqb has_begin has_end)) "chunk sequence range has only one endpoint" ;;
  read_if (has_begin && (e <? b)) "chunk sequence range is reversed".

Definition validate_chunk_sizes (codec : option CompressionCodec)
    (uncompressed_size stored_size : Z) (o : TraceReaderOptions) : result exn unit :=
  read_if (r_max_uncompressed_chunk_size o <? uncompressed_size)
    "uncompressed chunk exceeds the configured size limit" ;;
  read_if (r_max_stored_chunk_size o <? stored_size)
    "stored chunk exceeds the configured size limit" ;;
  match codec with
  | None => Ok tt
  | Some Codec_kNone =>
      read_if (negb (uncompressed_size =? stored_size)) "uncompressed chunk sizes do not match"
  | Some _ =>
      read_if (negb (eqb (uncompressed_size =? 0) (stored_size =? 0)))
        "empty compressed chunks must use an empty stored payload" ;;
      if stored_size =? 0 then Ok tt else
      read_if ((stored_size <=? u64_max / max_compression_ratio o) &&
               (wrap64 (stored_size * max_compression_ratio o) <? uncompressed_size))
        "compressed chunk exceeds the configured expansion ratio"
  end.

(** ** Decompression *)

Section decompression.
Context {L : CompressionLibrary}.

Definition int_max : Z := 2 ^ 31 - 1.

Definition decompress_lz4 (stored : bytes) (uncompressed_size : Z) : result exn bytes :=
  if size_of stored =? 0 then Ok [] else
  read_if ((int_max <? size_of stored) || (int_max <? uncompressed_size))
    "LZ4 chunk exceeds its supported size" ;;
  let '(decoded_size, output) := LZ4_decompress_safe stored uncompressed_size in
  read_if ((decoded_size <? 0) || negb (decoded_size =? uncompressed_size))
    "LZ4 chunk is corrupt or has an unexpected decoded size" ;;
  Ok output.

(** [uncompressed_size] is a uint64, which size_t holds. *)
Definition decompress_zstd (stored : bytes) (uncompressed_size : Z) : result exn bytes :=
  if size_of stored =? 0 then Ok [] else
  match ZSTD_decompress stored uncompressed_size with
  | Throw error_name =>
      throw TraceReadError ("Zstd chunk is corrupt: " +:+ error_name)
  | Ok (decoded_size, output) =>
      read_if (negb (decoded_size =? uncompressed_size))
        "Zstd chunk has an unexpected decoded size" ;;
      Ok output
  end.

Definition decompress_payload (codec : CompressionCodec) (stored : bytes)
    (uncompressed_size : Z) : result exn bytes :=
  match codec with
  | Codec_kNone => Ok stored
  | Codec_kLz4 => decompress_lz4 stored uncompressed_size
  | Codec_kZstd => decompress_zstd stored uncompressed_size
  end.

End decompression.

(** ** The file header *)

Definition new_reader (input : istream) (options : TraceReaderOptions) : TraceReader :=
  {| input_ := input; options_ := options; bytes_read_ := 0;
     partially_understood_ := false; terminal_status_ := None |}.

(** The body of the constructor, which leaves the members in the state. *)
Definition read_file_header : reading FileHeader :=
  r ← get_state;
  liftx (validate_options (options_ r)) ;;
  header ← read_exact (Z.to_nat kFileHeaderSize);
  let encoded := snd header in
  check (negb (bool_decide (fst header = Read_kComplete))) "trace file header is truncated" ;;
  check (negb (bool_decide (take 8 encoded = kTraceMagic)))
    "trace magic does not match NLXTRACE" ;;
  check (negb (byte_at encoded 14 =? kLittleEndian)) "trace byte order is not supported" ;;
  let header_size := read_u16 encoded 8 in
  check ((header_size <? kFileHeaderSize) || (max_file_header_size (options_ r) <? header_size))
    "trace file header size is invalid" ;;
  let format_major := read_u16 encoded 10 in
  let format_minor := read_u16 encoded 12 in
  check (negb (format_major =? kTraceFormatMajor))
    "trace format major version is not supported" ;;
  (if kTraceFormatMinor <? format_minor then modify set_partially_understood else mret tt) ;;
  let pointer_width := byte_at encoded 15 in
  check (negb (pointer_width =? 4) && negb (pointer_width =? 8))
    "trace pointer width must be 4 or 8 bytes" ;;
  platform ← liftx (parse_platform (read_u16 encoded 16));
  architecture ← liftx (parse_architecture (read_u16 encoded 18));
  let monotonic_frequency := read_u64 encoded 44 in
  check (monotonic_frequency =? 0) "trace monotonic frequency must not be zero" ;;
  let file_header :=
    {| pointer_width := pointer_width; platform := platform; architecture := architecture;
       fh_flags := read_u32 encoded 20; session_id := take 16 (drop 24 encoded);
       file_index := read_u32 encoded 40; monotonic_frequency := monotonic_frequency;
       monotonic_origin := read_u64 encoded 52;
       utc_origin_ns := signed64 (read_u64 encoded 60) |} in
  let extension_size := header_size - kFileHeaderSize in
  if extension_size =? 0 then mret file_header else
  modify set_partially_understood ;;
  skipped ← skip_exact extension_size;
  check (negb (bool_decide (skipped = Read_kComplete)))
    "trace file header extension is truncated" ;;
  mret file_header.

(** [TraceReader::TraceReader]: no object when the body throws. *)
Definition TraceReader_new (input : istream) (options : TraceReaderOptions)
    : result fault (FileHeader * TraceReader) :=
  match read_file_header (new_reader input options) with
  | (Ok file_header, r) => Ok (file_header, r)
  | (Throw e, _) => Throw e
  end.

(** ** Chunks *)

Section chunks.
Context {L : CompressionLibrary}.

(** One turn of the loop of [read_next_chunk]: [None] is the [continue] after a
    chunk of unknown type. *)
Definition read_chunk_turn : reading (option ChunkReadResult) :=
  r ← get_state;
  header ← read_exact (Z.to_nat kChunkHeaderSize);
  let encoded := snd header in
  match fst header with
  | Read_kNoBytes => Some <$> finish Status_kEndOfFile
  | Read_kPartial => Some <$> finish Status_kTruncated
  | Read_kComplete =>
      let raw_type := read_u16 encoded 0 in
      let version := read_u16 encoded 2 in
      let header_size := read_u16 encoded 4 in
      let flags := read_u16 encoded 6 in
      let raw_codec := byte_at encoded 8 in
      check ((header_size <? kChunkHeaderSize) ||
             (max_chunk_header_size (options_ r) <? header_size)) "chunk header size is invalid" ;;
      check (version =? 0) "chunk version must not be zero" ;;
      check (existsb (λ b, negb (Byte.eqb x00 b)) (take 7 (drop 9 encoded)) ||
             negb (read_u32 encoded 52 =? 0)) "chunk reserved fields must be zero" ;;
      let sequence_begin := read_u64 encoded 16 in
      let sequence_end := read_u64 encoded 24 in
      liftx (validate_sequence_range sequence_begin sequence_end) ;;
      let uncompressed_size := read_u64 encoded 32 in
      let stored_size := read_u64 encoded 40 in
      let expected_crc32c := read_u32 encoded 48 in
      let type := parse_chunk_type raw_type in
      let codec := parse_codec raw_codec in
      liftx (validate_chunk_sizes codec uncompressed_size stored_size (options_ r)) ;;
      let extension_size := header_size - kChunkHeaderSize in
      extension ← (if extension_size =? 0 then mret Read_kComplete
                   else modify set_partially_understood ;; skip_exact extension_size);
      if negb (bool_decide (extension = Read_kComplete)) then Some <$> finish Status_kTruncated else
      match type with
      | None =>
          modify set_partially_understood ;;
          skipped ← skip_exact stored_size;
          if negb (bool_decide (skipped = Read_kComplete)) then Some <$> finish Status_kTruncated
          else mret None
      | Some type =>
          match codec with
          | None => read_error "compression codec is not supported"
          | Some codec =>
              (if 1 <? version then modify set_partially_understood else mret tt) ;;
              check (streamsize_max <? stored_size)
                "stored chunk size does not fit this process" ;;
              stored ← read_exact (Z.to_nat stored_size);
              if negb (bool_decide (fst stored = Read_kComplete))
              then Some <$> finish Status_kTruncated else
              payload ← liftx (decompress_payload codec (snd stored) uncompressed_size);
              check (negb (crc32c payload =? expected_crc32c)) "chunk CRC32C does not match" ;;
              mret (Some
                {| crr_status := Status_kChunk;
                   crr_chunk := Some
                     {| tc_header :=
                          {| descriptor :=
                               {| cd_type := type; cd_version := version; cd_flags := flags;
                                  cd_codec := codec; sequence_begin := sequence_begin;
                                  sequence_end := sequence_end |};
                             uncompressed_size := uncompressed_size;
                             stored_size := stored_size; ch_crc32c := expected_crc32c |};
                        tc_payload := payload |} |})
          end
      end
  end.

Fixpoint read_chunk_loop (fuel : nat) : reading ChunkReadResult :=
  match fuel with
  | O => pure (Throw OutOfFuel)
  | S fuel =>
      result ← read_chunk_turn;
      match result with Some result => mret result | None => read_chunk_loop fuel end
  end.

(** A turn that continues consumes a chunk header, so this fuel is enough. *)
Definition read_next_chunk : reading ChunkReadResult :=
  r ← get_state;
  match terminal_status_ r with
  | Some status => mret {| crr_status := status; crr_chunk := None |}
  | None => read_chunk_loop (S (length (in_bytes (input_ r))))
  end.

(** [while ((result = reader.read_next_chunk()).status == kChunk) chunks.push_back(...)]:
    the chunks a consumer sees, with the status that ends them. *)
Fixpoint read_all_loop (fuel : nat) : reading (list TraceChunk * ChunkReadStatus) :=
  match fuel with
  | O => pure (Throw OutOfFuel)
  | S fuel =>
      result ← read_next_chunk;
      match crr_chunk result with
      | None => mret ([], crr_status result)
      | Some chunk => rest ← read_all_loop fuel; mret (chunk :: fst rest, snd rest)
      end
  end.

Definition read_trace (input : istream) (options : TraceReaderOptions)
    : result fault (FileHeader * list TraceChunk * ChunkReadStatus) :=
  match TraceReader_new input options with
  | Throw e => Throw e
  | Ok (header, r) =>
      match read_all_loop (S (length (in_bytes input))) r with
      | (Ok (chunks, status), _) => Ok (header, chunks, status)
      | (Throw e, _) => Throw e
      end
  end.

End chunks.
