(* ===== verification/TraceWriter.v ===== *)
(** * The trace writer

    [TraceWriter] of src/include/noleax/trace/trace_writer.hpp and
    src/src/trace/trace_writer.cpp: the file header, then chunks under a file
    size limit, to an output stream that may fail at any byte.

    The stream is the bytes it has accepted, how many more it accepts before it
    fails, the [errno] that failure leaves, and its state. *)

From S2P Require Import Prelude Bytes WireFormat Compression.

(** ** Output streams *)

Record ostream : Set := {
  out_bytes : bytes;
  out_room : option nat;         (* [None]: accepts everything *)
  out_errno : Z;
  out_flush_fails : bool;
  out_good : bool;
}.

(** [output.write(data)]: the stream afterwards and [errno], which was 0. *)
Definition ostream_write (o : ostream) (data : bytes) : ostream * Z :=
  if negb (out_good o) then (o, 0) else
  match out_room o with
  | None =>
      ({| out_bytes := out_bytes o ++ data; out_room := None; out_errno := out_errno o;
          out_flush_fails := out_flush_fails o; out_good := true |}, 0)
  | Some room =>
      let ok := (length data <=? room)%nat in
      ({| out_bytes := out_bytes o ++ take room data;
          out_room := Some (room - length data)%nat; out_errno := out_errno o;
          out_flush_fails := out_flush_fails o; out_good := ok |},
       if ok then 0 else out_errno o)
  end.

Definition ostream_flush (o : ostream) : ostream * Z :=
  if negb (out_good o) then (o, 0)
  else if out_flush_fails o
  then ({| out_bytes := out_bytes o; out_room := out_room o; out_errno := out_errno o;
           out_flush_fails := true; out_good := false |}, out_errno o)
  else (o, 0).

(** ** Options, results and errors *)

Record TraceWriterOptions : Set := {
  max_file_size : Z;
  w_max_uncompressed_chunk_size : Z;
  w_max_stored_chunk_size : Z;
  reserved_tail_size : Z;
  zstd_level : Z;                (* int32 *)
}.

Definition default_writer_options : TraceWriterOptions := {|
  max_file_size := 256 * 1024 * 1024;
  w_max_uncompressed_chunk_size := 16 * 1024 * 1024;
  w_max_stored_chunk_size := 17 * 1024 * 1024;
  reserved_tail_size := 0;
  zstd_level := 1;
|}.

Definition TraceWriterOptions_wt (o : TraceWriterOptions) : Prop :=
  u64 (max_file_size o) ∧ u64 (w_max_uncompressed_chunk_size o) ∧
  u64 (w_max_stored_chunk_size o) ∧ u64 (reserved_tail_size o) ∧ i32 (zstd_level o).

Inductive ChunkWriteResult : Set := Write_kWritten | Write_kFileLimit.

Inductive TraceWritePhase : Set :=
  | Phase_kNone | Phase_kOpen | Phase_kWrite | Phase_kFlush | Phase_kClose
  | Phase_kCompression | Phase_kHeader.

Definition trace_write_phase_name (phase : TraceWritePhase) : string :=
  match phase with
  | Phase_kNone => "none"
  | Phase_kOpen => "open"
  | Phase_kWrite => "write"
  | Phase_kFlush => "flush"
  | Phase_kClose => "close"
  | Phase_kCompression => "compression"
  | Phase_kHeader => "header"
  end.

Record TraceWriteError : Set := {
  twe_what : string;
  phase_ : TraceWritePhase;
  system_error_ : Z;
  file_offset_ : option Z;
  chunk_type_ : option ChunkType;
}.

(** A [TraceWriteError], or an exception of the wire format. *)
Inductive write_exn : Set := WriteThrown (e : TraceWriteError) | FormatThrown (e : exn).

Record TraceWriter : Set := {
  output_ : ostream;
  tw_options_ : TraceWriterOptions;
  bytes_written_ : Z;
  uncompressed_payload_bytes_written_ : Z;
  stored_payload_bytes_written_ : Z;
}.

Abbreviation writing := (proc TraceWriter write_exn).

Definition plain_error (message : string) : TraceWriteError :=
  {| twe_what := message; phase_ := Phase_kNone; system_error_ := 0; file_offset_ := None;
     chunk_type_ := None |}.

(** [if (b) throw TraceWriteError{...};] *)
Definition write_if (b : bool) (e : TraceWriteError) : result write_exn unit :=
  if b then Throw (WriteThrown e) else Ok tt.

Definition format_exn {A} (m : result exn A) : result write_exn A :=
  match m with Ok a => Ok a | Throw e => Throw (FormatThrown e) end.

(** ** Compression *)

Section writer.
Context {L : CompressionLibrary}.

Definition compression_error (message : string) : TraceWriteError :=
  {| twe_what := message; phase_ := Phase_kCompression; system_error_ := 0;
     file_offset_ := None; chunk_type_ := None |}.

Definition compress_lz4 (payload : bytes) : result write_exn bytes :=
  if size_of payload =? 0 then Ok [] else
  write_if ((LZ4_MAX_INPUT_SIZE <? size_of payload) || (2 ^ 31 - 1 <? size_of payload))
    (compression_error "LZ4 input exceeds its supported size") ;;
  let bound := LZ4_compressBound (size_of payload) in
  write_if (bound <=? 0) (compression_error "LZ4 could not compute a compression bound") ;;
  let '(compressed_size, stored) := LZ4_compress_default payload bound in
  write_if (compressed_size <=? 0) (compression_error "LZ4 compression failed") ;;
  Ok (take (Z.to_nat compressed_size) stored).

Definition compress_zstd (payload : bytes) (configured_level : Z) : result write_exn bytes :=
  if size_of payload =? 0 then Ok [] else
  let level := if configured_level =? 0 then 1 else configured_level in
  write_if (negb (level =? 1)) (compression_error "V1 trace writer supports Zstd level 1") ;;
  match ZSTD_compressBound (size_of payload) with
  | Throw _ =>
      Throw (WriteThrown (compression_error "Zstd could not compute a compression bound"))
  | Ok bound =>
      match ZSTD_compress payload bound level with
      | Throw error_name =>
          Throw (WriteThrown (compression_error ("Zstd compression failed: " +:+ error_name)))
      | Ok (compressed_size, stored) => Ok (take (Z.to_nat compressed_size) stored)
      end
  end.

Definition compress_payload (codec : CompressionCodec) (payload : bytes) (zstd_level : Z)
    : result write_exn bytes :=
  match codec with
  | Codec_kNone => Ok payload
  | Codec_kLz4 => compress_lz4 payload
  | Codec_kZstd => compress_zstd payload zstd_level
  end.

(** ** Writing *)

Definition exceeds_file_limit (bytes_written stored_size max_file_size : Z) : bool :=
  if u64_max - kChunkHeaderSize <? stored_size then true
  else
    let chunk_size := kChunkHeaderSize + stored_size in
    (max_file_size <? bytes_written) || (max_file_size - bytes_written <? chunk_size).

Definition set_output (o : ostream) (w : TraceWriter) : TraceWriter :=
  {| output_ := o; tw_options_ := tw_options_ w; bytes_written_ := bytes_written_ w;
     uncompressed_payload_bytes_written_ := uncompressed_payload_bytes_written_ w;
     stored_payload_bytes_written_ := stored_payload_bytes_written_ w |}.

Definition write_bytes (data : bytes) (phase : TraceWritePhase) (file_offset : Z)
    (chunk_type : option ChunkType) : writing unit :=
  if size_of data =? 0 then mret tt else
  pure (write_if (2 ^ 63 - 1 <? size_of data)
    {| twe_what := "write size exceeds std::streamsize"; phase_ := phase; system_error_ := 0;
       file_offset_ := Some file_offset; chunk_type_ := chunk_type |}) ;;
  w ← get_state;
  let '(o, errno) := ostream_write (output_ w) data in
  modify (set_output o) ;;
  pure (write_if (negb (out_good o))
    {| twe_what := "trace output stream write failed"; phase_ := phase;
       system_error_ := wrap32 errno; file_offset_ := Some file_offset;
       chunk_type_ := chunk_type |}).

(** The constructor; [encode_file_header] throws before anything is written. *)
Definition write_file_header (header : FileHeader) : writing unit :=
  w ← get_state;
  let o := tw_options_ w in
  pure (write_if (max_file_size o <? kFileHeaderSize)
          (plain_error "max file size is smaller than the trace header")) ;;
  pure (write_if ((w_max_uncompressed_chunk_size o =? 0) || (w_max_stored_chunk_size o =? 0))
          (plain_error "chunk size limits must not be zero")) ;;
  pure (write_if (negb (zstd_level o =? 0) && negb (zstd_level o =? 1))
          (plain_error "V1 trace writer supports Zstd level 0 or 1")) ;;
  pure (write_if (max_file_size o - kFileHeaderSize <? reserved_tail_size o)
          (plain_error "reserved trace tail does not fit after the file header")) ;;
  encoded_header ← pure (format_exn (encode_file_header header));
  write_bytes encoded_header Phase_kHeader 0 None ;;
  modify (λ w,
    {| output_ := output_ w; tw_options_ := tw_options_ w;
       bytes_written_ := size_of encoded_header;
       uncompressed_payload_bytes_written_ := uncompressed_payload_bytes_written_ w;
       stored_payload_bytes_written_ := stored_payload_bytes_written_ w |}).

Definition new_writer (output : ostream) (options : TraceWriterOptions) : TraceWriter :=
  {| output_ := output; tw_options_ := options; bytes_written_ := 0;
     uncompressed_payload_bytes_written_ := 0; stored_payload_bytes_written_ := 0 |}.

(** [TraceWriter::TraceWriter]: the outcome and the stream it leaves. *)
Definition TraceWriter_new (output : ostream) (header : FileHeader)
    (options : TraceWriterOptions) : result write_exn TraceWriter * ostream :=
  match write_file_header header (new_writer output options) with
  | (Ok _, w) => (Ok w, output_ w)
  | (Throw e, w) => (Throw e, output_ w)
  end.

Definition write_chunk (descriptor : ChunkDescriptor) (uncompressed_payload : bytes)
    : writing ChunkWriteResult :=
  w ← get_state;
  let o := tw_options_ w in
  let error message :=
    {| twe_what := message; phase_ := Phase_kWrite; system_error_ := 0;
       file_offset_ := Some (bytes_written_ w); chunk_type_ := Some (cd_type descriptor) |} in
  pure (write_if (w_max_uncompressed_chunk_size o <? size_of uncompressed_payload)
          (error "uncompressed chunk exceeds its configured size limit")) ;;
  stored_payload ← pure (compress_payload (cd_codec descriptor) uncompressed_payload
                           (zstd_level o));
  pure (write_if (w_max_stored_chunk_size o <? size_of stored_payload)
          (error "stored chunk exceeds its configured size limit")) ;;
  let stored_size := size_of stored_payload in
  let header := {| descriptor := descriptor;
                   uncompressed_size := size_of uncompressed_payload;
                   stored_size := stored_size; ch_crc32c := crc32c uncompressed_payload |} in
  encoded_header ← pure (format_exn (encode_chunk_header header));
  let effective_file_limit := wrap64 (max_file_size o - reserved_tail_size o) in
  if exceeds_file_limit (bytes_written_ w) stored_size effective_file_limit
  then mret Write_kFileLimit else
  pure (write_if (u64_max - uncompressed_payload_bytes_written_ w <? size_of uncompressed_payload)
          (error "cumulative uncompressed payload size overflow")) ;;
  write_bytes encoded_header Phase_kWrite (bytes_written_ w) (Some (cd_type descriptor)) ;;
  write_bytes stored_payload Phase_kWrite (wrap64 (bytes_written_ w + size_of encoded_header))
    (Some (cd_type descriptor)) ;;
  modify (λ w,
    {| output_ := output_ w; tw_options_ := tw_options_ w;
       bytes_written_ := wrap64 (bytes_written_ w + (size_of encoded_header + stored_size));
       uncompressed_payload_bytes_written_ :=
         wrap64 (uncompressed_payload_bytes_written_ w + size_of uncompressed_payload);
       stored_payload_bytes_written_ :=
         wrap64 (stored_payload_bytes_written_ w + stored_size) |}) ;;
  mret Write_kWritten.

Definition release_file_reserve : writing unit :=
  modify (λ w,
    {| output_ := output_ w;
       tw_options_ :=
         {| max_file_size := max_file_size (tw_options_ w);
            w_max_uncompressed_chunk_size := w_max_uncompressed_chunk_size (tw_options_ w);
            w_max_stored_chunk_size := w_max_stored_chunk_size (tw_options_ w);
            reserved_tail_size := 0; zstd_level := zstd_level (tw_options_ w) |};
       bytes_written_ := bytes_written_ w;
       uncompressed_payload_bytes_written_ := uncompressed_payload_bytes_written_ w;
       stored_payload_bytes_written_ := stored_payload_bytes_written_ w |}).

Definition flush : writing unit :=
  w ← get_state;
  let '(o, errno) := ostream_flush (output_ w) in
  modify (set_output o) ;;
  pure (write_if (negb (out_good o))
    {| twe_what := "trace output stream flush failed"; phase_ := Phase_kFlush;
       system_error_ := wrap32 errno; file_offset_ := Some (bytes_written_ w);
       chunk_type_ := None |}).

Definition remaining_bytes (w : TraceWriter) : Z :=
  let effective_file_limit :=
    wrap64 (max_file_size (tw_options_ w) - reserved_tail_size (tw_options_ w)) in
  if effective_file_limit <=? bytes_written_ w then 0
  else effective_file_limit - bytes_written_ w.

End writer.
