(* ===== verification/TraceFile.v ===== *)
(** * Trace files

    The bytes of a trace file, what the reader makes of them, and what the
    writer leaves in its stream: TraceReader.v and TraceWriter.v put together. *)

From S2P Require Import Prelude PayloadReader Bytes WireFormat RecordCursor Compression TraceReader TraceWriter.

(** ** Fixed layouts

    A header is a concatenation of pieces; a field is read at the offset of its
    piece. *)

Definition offset_of (pieces : list bytes) (i : nat) : nat := length (concat (take i pieces)).

Lemma concat_piece (pieces : list bytes) i mid : pieces !! i = Some mid →
  concat pieces = concat (take i pieces) ++ mid ++ concat (drop (S i) pieces).
Proof.
  intros Hi. rewrite <- (take_drop_middle pieces i mid Hi) at 1. by rewrite concat_app.
Qed.

Section pieces.
Context (pieces : list bytes) (i n : nat) (mid : bytes).
Context (Hi : pieces !! i = Some mid) (Hn : n = offset_of pieces i).

Lemma piece_slice k : length mid = k → take k (drop n (concat pieces)) = mid.
Proof. intros <-. rewrite (concat_piece _ _ _ Hi). apply take_drop_mid; done. Qed.

Lemma piece_u16 : length mid = 2%nat → read_u16 (concat pieces) n = le_value mid.
Proof. eapply read_at_u16; [by apply concat_piece|done]. Qed.

Lemma piece_u32 : length mid = 4%nat → read_u32 (concat pieces) n = le_value mid.
Proof. eapply read_at_u32; [by apply concat_piece|done]. Qed.

Lemma piece_u64 : length mid = 8%nat → read_u64 (concat pieces) n = le_value mid.
Proof.
  intros Hm. rewrite read_u64_spec; [by rewrite piece_slice|].
  rewrite (concat_piece _ _ _ Hi), !length_app. unfold offset_of in Hn. lia.
Qed.

Lemma piece_u8 : length mid = 1%nat → byte_at (concat pieces) n = le_value mid.
Proof.
  intros Hm. pose proof (piece_slice 1 Hm) as Hs. unfold byte_at.
  assert (Hlen : length mid = 1%nat) by done.
  assert (∃ b, mid = [b]) as [b Hb].
  { clear -Hlen. destruct mid as [|b [|]]; try done. by exists b. }
  rewrite Hb in *. rewrite le_value_cons. change (le_value []) with 0.
  assert (concat pieces !! n = Some b) as ->; [|cbn; lia].
  rewrite <- (Nat.add_0_r n), <- lookup_drop, <- (lookup_take_lt _ 1) by lia. by rewrite Hs.
Qed.
End pieces.

Definition chunk_header_pieces (h : ChunkHeader) : list bytes :=
  [le_bytes 2 (ChunkType_value (cd_type (descriptor h)));
   le_bytes 2 (cd_version (descriptor h));
   le_bytes 2 kChunkHeaderSize;
   le_bytes 2 (cd_flags (descriptor h));
   le_bytes 1 (CompressionCodec_value (cd_codec (descriptor h)));
   zeros 7;
   le_bytes 8 (sequence_begin (descriptor h));
   le_bytes 8 (sequence_end (descriptor h));
   le_bytes 8 (uncompressed_size h);
   le_bytes 8 (stored_size h);
   le_bytes 4 (ch_crc32c h);
   le_bytes 4 0].

Definition chunk_header_bytes (h : ChunkHeader) : bytes := concat (chunk_header_pieces h).

Definition file_header_pieces (h : FileHeader) : list bytes :=
  [kTraceMagic;
   le_bytes 2 kFileHeaderSize;
   le_bytes 2 kTraceFormatMajor;
   le_bytes 2 kTraceFormatMinor;
   le_bytes 1 kLittleEndian;
   le_bytes 1 (pointer_width h);
   le_bytes 2 (Platform_value (platform h));
   le_bytes 2 (Architecture_value (architecture h));
   le_bytes 4 (fh_flags h);
   session_id h;
   le_bytes 4 (file_index h);
   le_bytes 8 (monotonic_frequency h);
   le_bytes 8 (monotonic_origin h);
   le_bytes 8 (wrap64 (utc_origin_ns h))].

Definition file_header_bytes (h : FileHeader) : bytes := concat (file_header_pieces h).

Ltac pieces_length :=
  cbn [concat]; rewrite ?length_app, ?length_le_bytes, ?length_zeros; reflexivity.

Lemma length_chunk_header h : length (chunk_header_bytes h) = 56%nat.
Proof. unfold chunk_header_bytes, chunk_header_pieces. pieces_length. Qed.

Lemma length_file_header h : length (session_id h) = 16%nat →
  length (file_header_bytes h) = 68%nat.
Proof.
  intros Hs. unfold file_header_bytes, file_header_pieces. cbn [concat].
  rewrite !length_app, Hs, !length_le_bytes. reflexivity.
Qed.

Lemma encode_chunk_header_bytes h :
  encode_chunk_header h = (validate_chunk_header h ;; Ok (chunk_header_bytes h)).
Proof.
  unfold encode_chunk_header, chunk_header_bytes, chunk_header_pieces.
  destruct (validate_chunk_header h) as [[]|]; [|done]. cbn [mbind result_bind foldl seq concat].
  f_equal. normalize_encoding. by rewrite ?le_bytes_zeros, ?app_nil_r.
Qed.

Lemma encode_file_header_bytes h :
  encode_file_header h = (validate_file_header h ;; Ok (file_header_bytes h)).
Proof.
  unfold encode_file_header, file_header_bytes, file_header_pieces.
  destruct (validate_file_header h) as [[]|]; [|done]. cbn [mbind result_bind concat].
  f_equal. normalize_encoding. by rewrite ?app_nil_r.
Qed.

Lemma encode_chunk_header_ok h b :
  encode_chunk_header h = Ok b ↔ validate_chunk_header h = Ok tt ∧ b = chunk_header_bytes h.
Proof.
  rewrite encode_chunk_header_bytes. destruct (validate_chunk_header h) as [[]|]; cbn;
    split; [by intros [= <-]|by intros [_ ->]|done|by intros [[=] _]].
Qed.

Lemma encode_file_header_ok h b :
  encode_file_header h = Ok b ↔ validate_file_header h = Ok tt ∧ b = file_header_bytes h.
Proof.
  rewrite encode_file_header_bytes. destruct (validate_file_header h) as [[]|]; cbn;
    split; [by intros [= <-]|by intros [_ ->]|done|by intros [[=] _]].
Qed.

(** ** Reading exactly *)

(** The reader once it holds only [rest] of its bytes. *)
Definition left_with (rest : bytes) (r : TraceReader) : TraceReader :=
  set_input {| in_bytes := rest; in_end := in_end (input_ r) |}
    (bytes_read_ r + (size_of (in_bytes (input_ r)) - size_of rest)) r.

(** The byte count does not overflow while the stream's bytes are read. *)
Definition countable (r : TraceReader) : Prop :=
  0 ≤ bytes_read_ r ∧ bytes_read_ r + size_of (in_bytes (input_ r)) ≤ u64_max.

Lemma read_exact_complete r data rest :
  in_bytes (input_ r) = data ++ rest → countable r → size_of data ≤ streamsize_max →
  read_exact (length data) r = (Ok (Read_kComplete, data), left_with rest r).
Proof.
  intros Hin [H0 Hmax] Hsize. pose proof (size_of_nonneg rest). pose proof (size_of_nonneg data).
  rewrite Hin, size_of_app in Hmax. unfold read_exact.
  destruct (length data =? 0)%nat eqn:E.
  - apply Nat.eqb_eq, length_zero_iff_nil in E as ->. unfold left_with.
    rewrite Hin. cbn. rewrite Z.sub_diag, Z.add_0_r. destruct r as [[]]; cbn in *. by subst.
  - unfold check, modify, get_state, mbind, proc_bind, mret, proc_ret.
    rewrite (proj2 (Z.ltb_ge _ _)) by done. rewrite Hin, take_app_length.
    rewrite (proj2 (Z.ltb_ge _ _)) by lia. rewrite Nat.ltb_irrefl, drop_app_length. cbn.
    unfold left_with. rewrite Hin, size_of_app, wrap64_small by word.
    by replace (size_of data + size_of rest - size_of rest) with (size_of data) by lia.
Qed.

Lemma read_exact_short r n :
  (length (in_bytes (input_ r)) < n)%nat → in_end (input_ r) = End_eof → countable r →
  Z.of_nat n ≤ streamsize_max →
  read_exact n r =
  (Ok (if (length (in_bytes (input_ r)) =? 0)%nat then Read_kNoBytes else Read_kPartial,
       in_bytes (input_ r)), left_with [] r).
Proof.
  intros Hn Hend [H0 Hmax] Hs. unfold read_exact.
  rewrite (proj2 (Nat.eqb_neq _ _)) by lia.
  unfold check, modify, get_state, mbind, proc_bind, mret, proc_ret.
  rewrite (proj2 (Z.ltb_ge _ _)) by lia. rewrite take_ge by lia.
  rewrite (proj2 (Z.ltb_ge _ _)) by lia. rewrite (proj2 (Nat.ltb_lt _ _)) by lia.
  rewrite drop_ge by lia. cbn. rewrite Hend. enum_tests. unfold left_with.
  rewrite wrap64_small by (pose proof (size_of_nonneg (in_bytes (input_ r))); word).
  rewrite Hend, Z.sub_0_r. done.
Qed.

(** ** The reader on an encoded chunk *)

Record stored_chunk : Set := {
  sc_header : ChunkHeader; sc_payload : bytes; sc_stored : bytes
}.

Definition chunk_bytes (c : stored_chunk) : bytes :=
  chunk_header_bytes (sc_header c) ++ sc_stored c.

Definition trace_chunk (c : stored_chunk) : TraceChunk :=
  {| tc_header := sc_header c; tc_payload := sc_payload c |}.

Lemma parse_chunk_type_value t : parse_chunk_type (ChunkType_value t) = Some t.
Proof. by destruct t. Qed.
Lemma parse_codec_value c : parse_codec (CompressionCodec_value c) = Some c.
Proof. by destruct c. Qed.
Lemma parse_platform_value p :
  is_supported_platform p = true → parse_platform (Platform_value p) = Ok p.
Proof. by destruct p. Qed.
Lemma parse_architecture_value a :
  is_supported_architecture a = true → parse_architecture (Architecture_value a) = Ok a.
Proof. by destruct a. Qed.

(** [piece L pieces k] reads the field that is the [k]-th piece with lemma [L]. *)
Ltac piece L pieces k :=
  rewrite (L pieces k _ _ eq_refl);
  [ | unfold offset_of; cbn [take chunk_header_pieces file_header_pieces]; pieces_length
    | apply length_le_bytes ].

Lemma chunk_header_fields h : ChunkHeader_wt h →
  let e := chunk_header_bytes h in
  read_u16 e 0 = ChunkType_value (cd_type (descriptor h)) ∧
  read_u16 e 2 = cd_version (descriptor h) ∧
  read_u16 e 4 = kChunkHeaderSize ∧
  read_u16 e 6 = cd_flags (descriptor h) ∧
  byte_at e 8 = CompressionCodec_value (cd_codec (descriptor h)) ∧
  take 7 (drop 9 e) = zeros 7 ∧
  read_u64 e 16 = sequence_begin (descriptor h) ∧
  read_u64 e 24 = sequence_end (descriptor h) ∧
  read_u64 e 32 = uncompressed_size h ∧
  read_u64 e 40 = stored_size h ∧
  read_u32 e 48 = ch_crc32c h ∧
  read_u32 e 52 = 0.
Proof.
  intros ((Hv & Hf & Hb & He) & Hu & Hs & Hc) e. unfold e, chunk_header_bytes.
  assert (u16 (ChunkType_value (cd_type (descriptor h)))) by by destruct (cd_type _).
  assert (u8 (CompressionCodec_value (cd_codec (descriptor h)))) by by destruct (cd_codec _).
  split_and!.
  - piece piece_u16 (chunk_header_pieces h) 0%nat. by apply le_bytes_u16.
  - piece piece_u16 (chunk_header_pieces h) 1%nat. by apply le_bytes_u16.
  - piece piece_u16 (chunk_header_pieces h) 2%nat. by apply le_bytes_u16.
  - piece piece_u16 (chunk_header_pieces h) 3%nat. by apply le_bytes_u16.
  - piece piece_u8 (chunk_header_pieces h) 4%nat. by apply le_bytes_u8.
  - by apply (piece_slice (chunk_header_pieces h) 5).
  - piece piece_u64 (chunk_header_pieces h) 6%nat. by apply le_bytes_u64.
  - piece piece_u64 (chunk_header_pieces h) 7%nat. by apply le_bytes_u64.
  - piece piece_u64 (chunk_header_pieces h) 8%nat. by apply le_bytes_u64.
  - piece piece_u64 (chunk_header_pieces h) 9%nat. by apply le_bytes_u64.
  - piece piece_u32 (chunk_header_pieces h) 10%nat. by apply le_bytes_u32.
  - piece piece_u32 (chunk_header_pieces h) 11%nat. by apply le_bytes_u32.
Qed.

Section reader.
Context {L : CompressionLibrary}.

(** What a reader with options [o] requires of a stored chunk. *)
Record readable (o : TraceReaderOptions) (c : stored_chunk) : Prop := {
  readable_wt : ChunkHeader_wt (sc_header c);
  readable_valid : validate_chunk_header (sc_header c) = Ok tt;
  readable_header_size : kChunkHeaderSize ≤ max_chunk_header_size o;
  readable_stored : stored_size (sc_header c) = size_of (sc_stored c);
  readable_sizes : validate_chunk_sizes (Some (cd_codec (descriptor (sc_header c))))
    (uncompressed_size (sc_header c)) (stored_size (sc_header c)) o = Ok tt;
  readable_streamsize : stored_size (sc_header c) ≤ streamsize_max;
  readable_payload : decompress_payload (cd_codec (descriptor (sc_header c))) (sc_stored c)
    (uncompressed_size (sc_header c)) = Ok (sc_payload c);
  readable_crc : ch_crc32c (sc_header c) = crc32c (sc_payload c);
}.

Definition note_version (h : ChunkHeader) (r : TraceReader) : TraceReader :=
  if 1 <? cd_version (descriptor h) then set_partially_understood r else r.

(** What is left of the turn once the header has been accepted. *)
Definition read_stored (h : ChunkHeader) : reading (option ChunkReadResult) :=
  stored ← read_exact (Z.to_nat (stored_size h));
  if negb (bool_decide (fst stored = Read_kComplete)) then Some <$> finish Status_kTruncated else
  payload ← liftx (decompress_payload (cd_codec (descriptor h)) (snd stored) (uncompressed_size h));
  check (negb (crc32c payload =? ch_crc32c h)) "chunk CRC32C does not match" ;;
  mret (Some {| crr_status := Status_kChunk;
                crr_chunk := Some {| tc_header := h; tc_payload := payload |} |}).

Lemma turn_header r h rest :
  in_bytes (input_ r) = chunk_header_bytes h ++ rest → countable r →
  ChunkHeader_wt h → validate_chunk_header h = Ok tt →
  kChunkHeaderSize ≤ max_chunk_header_size (options_ r) →
  validate_chunk_sizes (Some (cd_codec (descriptor h))) (uncompressed_size h) (stored_size h)
    (options_ r) = Ok tt →
  stored_size h ≤ streamsize_max →
  read_chunk_turn r = read_stored h (note_version h (left_with rest r)).
Proof.
  intros Hin Hcount Hwt Hvalid Hmax Hsizes Hss. unfold read_chunk_turn.
  erewrite proc_bind_run by done.
  change (Z.to_nat kChunkHeaderSize) with 56%nat. rewrite <- (length_chunk_header h).
  erewrite proc_bind_run; [|apply (read_exact_complete r _ rest); [done..|]].
  2:{ unfold size_of. by rewrite length_chunk_header. }
  cbn [fst snd]. destruct (chunk_header_fields h Hwt) as
    (-> & -> & -> & -> & -> & -> & -> & -> & -> & -> & -> & ->).
  rewrite Z.ltb_irrefl, (proj2 (Z.ltb_ge _ kChunkHeaderSize)) by done.
  cbn [orb]. unfold check at 1. erewrite proc_bind_run by done.
  unfold validate_chunk_header in Hvalid. inv_ok.
  rewrite E1. unfold check at 1. erewrite proc_bind_run by done.
  change (existsb _ (zeros 7) || negb (0 =? 0)) with false.
  unfold check at 1. erewrite proc_bind_run by done.
  unfold is_valid in *. unfold validate_sequence_range at 1.
  rewrite E2. rewrite Hvalid. erewrite proc_bind_run by done.
  rewrite parse_chunk_type_value, parse_codec_value, Hsizes.
  erewrite proc_bind_run by done. rewrite Z.sub_diag.
  erewrite proc_bind_run by done. enum_tests.
  rewrite (proj2 (Z.ltb_ge _ _) Hss). clear. unfold note_version, read_stored.
  destruct h as [[] ? ? ?]. cbn. by case_match.
Qed.

Definition chunk_result (c : stored_chunk) : ChunkReadResult :=
  {| crr_status := Status_kChunk; crr_chunk := Some (trace_chunk c) |}.

Lemma left_with_in rest r : in_bytes (input_ (left_with rest r)) = rest.
Proof. done. Qed.

Lemma countable_left_with r pre rest :
  in_bytes (input_ r) = pre ++ rest → countable r → countable (left_with rest r).
Proof.
  intros Hin [H0 H1]. unfold countable, left_with. cbn. rewrite Hin, size_of_app in *.
  pose proof (size_of_nonneg pre). pose proof (size_of_nonneg rest). lia.
Qed.

Lemma left_with_twice r pre mid post : in_bytes (input_ r) = pre ++ mid ++ post →
  left_with post (left_with (mid ++ post) r) = left_with post r.
Proof.
  intros Hin. unfold left_with, set_input. cbn. f_equal. rewrite Hin, !size_of_app. lia.
Qed.

Lemma note_version_left_with h rest r :
  note_version h (left_with rest r) = left_with rest (note_version h r).
Proof. unfold note_version. by destruct (1 <? _). Qed.

Lemma note_version_countable h r : countable r → countable (note_version h r).
Proof. unfold note_version. by destruct (1 <? _). Qed.

Lemma note_version_in h r : input_ (note_version h r) = input_ r.
Proof. unfold note_version. by destruct (1 <? _). Qed.

Lemma turn_readable r c rest :
  in_bytes (input_ r) = chunk_bytes c ++ rest → countable r → readable (options_ r) c →
  read_chunk_turn r = (Ok (Some (chunk_result c)), left_with rest (note_version (sc_header c) r)).
Proof.
  intros Hin Hcount [Hwt Hvalid Hmax Hstored Hsizes Hss Hpayload Hcrc].
  unfold chunk_bytes in Hin. rewrite <- app_assoc in Hin.
  rewrite (turn_header r (sc_header c) (sc_stored c ++ rest)) by done.
  rewrite note_version_left_with. unfold read_stored. rewrite Hstored.
  unfold size_of. rewrite Nat2Z.id.
  erewrite proc_bind_run.
  2:{ apply (read_exact_complete _ (sc_stored c) rest); [done| |by rewrite <- Hstored].
      apply (countable_left_with _ (chunk_header_bytes (sc_header c)));
        [by rewrite note_version_in|by apply note_version_countable]. }
  cbn [fst snd]. enum_tests. rewrite Hpayload. erewrite proc_bind_run by done.
  rewrite Hcrc, Z.eqb_refl. rewrite (left_with_twice _ (chunk_header_bytes (sc_header c)))
    by by rewrite note_version_in.
  destruct c. cbn in *. by destruct sc_header0.
Qed.

(** A stream that ends inside a chunk, or at its start. *)
Definition torn (o : TraceReaderOptions) (tail : bytes) : Prop :=
  tail = [] ∨ ∃ c rest, readable o c ∧ rest ≠ [] ∧ chunk_bytes c = tail ++ rest.

Definition end_status (tail : bytes) : ChunkReadStatus :=
  match tail with [] => Status_kEndOfFile | _ => Status_kTruncated end.

Lemma turn_torn r tail : in_bytes (input_ r) = tail → in_end (input_ r) = End_eof →
  countable r → torn (options_ r) tail →
  ∃ r', read_chunk_turn r =
    (Ok (Some {| crr_status := end_status tail; crr_chunk := None |}), r').
Proof.
  intros Hin Hend Hcount Htorn.
  assert (Hshort : (length tail < 56)%nat → ∃ r', read_chunk_turn r =
    (Ok (Some {| crr_status := end_status tail; crr_chunk := None |}), r')).
  { intros Hlen. unfold read_chunk_turn. erewrite proc_bind_run by done.
    erewrite proc_bind_run.
    2:{ apply read_exact_short; [rewrite Hin; change (Z.to_nat kChunkHeaderSize) with 56%nat; lia
          |done..]. }
    rewrite Hin. destruct tail as [|b tail]; cbn; eauto. }
  destruct Htorn as [-> | (c & rest & Hc & Hrest & Hbytes)]; [by apply Hshort; cbn; lia|].
  destruct (decide (length tail < 56)%nat) as [|Hge]; [by apply Hshort|]. clear Hshort.
  unfold chunk_bytes in Hbytes.
  assert (∃ s, tail = chunk_header_bytes (sc_header c) ++ s ∧ sc_stored c = s ++ rest)
    as (s & -> & Hs).
  { exists (drop 56 tail).
    rewrite <- (take_drop 56 tail), <- app_assoc in Hbytes.
    apply app_inj_1 in Hbytes as [-> ->].
    - by rewrite take_drop.
    - rewrite length_chunk_header, length_take. lia. }
  destruct Hc as [Hwt Hvalid Hmax Hstored Hsizes Hss Hpayload Hcrc].
  rewrite (turn_header r (sc_header c) s) by done. rewrite note_version_left_with.
  unfold read_stored. eexists.
  erewrite proc_bind_run.
  2:{ apply read_exact_short; rewrite ?left_with_in.
      - rewrite Hstored, Hs. unfold size_of. rewrite length_app.
        destruct rest; [done|]. cbn. lia.
      - cbn. by rewrite note_version_in.
      - apply (countable_left_with _ (chunk_header_bytes (sc_header c)));
          [by rewrite note_version_in|by apply note_version_countable].
      - pose proof (size_of_nonneg (sc_stored c)). lia. }
  rewrite left_with_in. cbn [fst snd].
  rewrite bool_decide_eq_false_2 by (by destruct (length s =? 0)%nat). cbn.
  destruct (chunk_header_bytes (sc_header c)) eqn:E; [|done].
  by pose proof (length_chunk_header (sc_header c)) as Hl; rewrite E in Hl.
Qed.

(** ** Whole traces *)

Lemma next_chunk_turn r x r' : terminal_status_ r = None →
  read_chunk_turn r = (Ok (Some x), r') → read_next_chunk r = (Ok x, r').
Proof.
  intros Hterm Hturn. unfold read_next_chunk. erewrite proc_bind_run by done.
  rewrite Hterm. cbn [read_chunk_loop]. by erewrite proc_bind_run by done.
Qed.

Lemma read_all_run cs fuel r tail :
  in_bytes (input_ r) = concat (chunk_bytes <$> cs) ++ tail → in_end (input_ r) = End_eof →
  countable r → terminal_status_ r = None → Forall (readable (options_ r)) cs →
  torn (options_ r) tail → (length cs < fuel)%nat →
  ∃ r', read_all_loop fuel r = (Ok (trace_chunk <$> cs, end_status tail), r').
Proof.
  revert fuel r. induction cs as [|c cs IH]; intros [|fuel] r Hin Hend Hcount Hterm Hcs Htorn Hfuel;
    cbn [length] in *; try lia.
  - destruct (turn_torn r tail) as [r' Hr']; try done.
    exists r'. cbn [read_all_loop]. erewrite proc_bind_run by by apply next_chunk_turn. done.
  - inversion Hcs as [|? ? Hc Hcs']; subst. cbn [fmap list_fmap concat] in Hin.
    rewrite <- app_assoc in Hin.
    pose proof (turn_readable r c _ Hin Hcount Hc) as Hturn.
    destruct (IH fuel (left_with (concat (chunk_bytes <$> cs) ++ tail)
      (note_version (sc_header c) r))) as [r' Hr']; try done.
    + cbn. by rewrite note_version_in.
    + apply (countable_left_with _ (chunk_bytes c)); [by rewrite note_version_in|].
      by apply note_version_countable.
    + cbn. unfold note_version. by destruct (1 <? _).
    + cbn. unfold note_version. by destruct (1 <? _).
    + cbn. unfold note_version. by destruct (1 <? _).
    + lia.
    + exists r'. cbn [read_all_loop]. erewrite proc_bind_run by by apply next_chunk_turn.
      cbn [chunk_result crr_chunk]. erewrite proc_bind_run by exact Hr'. done.
Qed.

(** The same for the file header, whose session id has its length by [Hs]. *)
Ltac field L h k Hs :=
  rewrite (L (file_header_pieces h) k _ _ eq_refl);
  [ | unfold offset_of; cbn [take file_header_pieces concat];
      rewrite ?length_app, ?length_le_bytes, ?Hs; reflexivity
    | apply length_le_bytes ].

Lemma file_header_fields h : FileHeader_wt h →
  let e := file_header_bytes h in
  take 8 e = kTraceMagic ∧
  read_u16 e 8 = kFileHeaderSize ∧
  read_u16 e 10 = kTraceFormatMajor ∧
  read_u16 e 12 = kTraceFormatMinor ∧
  byte_at e 14 = kLittleEndian ∧
  byte_at e 15 = pointer_width h ∧
  read_u16 e 16 = Platform_value (platform h) ∧
  read_u16 e 18 = Architecture_value (architecture h) ∧
  read_u32 e 20 = fh_flags h ∧
  take 16 (drop 24 e) = session_id h ∧
  read_u32 e 40 = file_index h ∧
  read_u64 e 44 = monotonic_frequency h ∧
  read_u64 e 52 = monotonic_origin h ∧
  read_u64 e 60 = wrap64 (utc_origin_ns h).
Proof.
  intros (Hp & Hf & Hs & Hi & Hm & Ho & Hu) e. unfold e, file_header_bytes.
  assert (u16 (Platform_value (platform h))) by by destruct (platform h).
  assert (u16 (Architecture_value (architecture h))) by by destruct (architecture h).
  split_and!; [done|..].
  - field piece_u16 h 1%nat Hs. by apply le_bytes_u16.
  - field piece_u16 h 2%nat Hs. by apply le_bytes_u16.
  - field piece_u16 h 3%nat Hs. by apply le_bytes_u16.
  - field piece_u8 h 4%nat Hs. by apply le_bytes_u8.
  - field piece_u8 h 5%nat Hs. by apply le_bytes_u8.
  - field piece_u16 h 6%nat Hs. by apply le_bytes_u16.
  - field piece_u16 h 7%nat Hs. by apply le_bytes_u16.
  - field piece_u32 h 8%nat Hs. by apply le_bytes_u32.
  - by apply (piece_slice (file_header_pieces h) 9).
  - field piece_u32 h 10%nat Hs. by apply le_bytes_u32.
  - field piece_u64 h 11%nat Hs. by apply le_bytes_u64.
  - field piece_u64 h 12%nat Hs. by apply le_bytes_u64.
  - field piece_u64 h 13%nat Hs. apply le_bytes_u64, wrap64_u64.
Qed.

Definition FileHeader_valid (h : FileHeader) : Prop :=
  FileHeader_wt h ∧ validate_file_header h = Ok tt.

Lemma read_file_header_run r h rest :
  in_bytes (input_ r) = file_header_bytes h ++ rest → countable r → FileHeader_valid h →
  validate_options (options_ r) = Ok tt →
  read_file_header r = (Ok h, left_with rest r).
Proof.
  intros Hin Hcount [Hwt Hv] Ho. unfold read_file_header.
  erewrite proc_bind_run by done. rewrite Ho. erewrite proc_bind_run by done.
  change (Z.to_nat kFileHeaderSize) with 68%nat.
  pose proof Hwt as (_ & _ & Hs & _). rewrite <- (length_file_header h Hs).
  erewrite proc_bind_run; [|apply (read_exact_complete r _ rest); [done..|]].
  2:{ unfold size_of. by rewrite length_file_header. }
  cbn [fst snd]. destruct (file_header_fields h Hwt) as
    (-> & -> & -> & -> & -> & -> & -> & -> & -> & -> & -> & -> & -> & ->).
  unfold validate_file_header in Hv. inv_ok.
  unfold validate_options, read_if in Ho. inv_ok.
  enum_tests. unfold check. rewrite E2, E, Hv.
  rewrite parse_platform_value, parse_architecture_value
    by (by rewrite negb_false_iff in *). cbn.
  unfold mbind, proc_bind, mret, proc_ret. cbn.
  rewrite signed64_wrap64 by (by destruct_and?; apply Hwt). by destruct h.
Qed.

(** Reading the bytes of a trace: a header, stored chunks, and a tail at which
    the file was cut. *)
Lemma read_trace_run o h cs tail :
  FileHeader_valid h → validate_options o = Ok tt → Forall (readable o) cs → torn o tail →
  let input := file_header_bytes h ++ concat (chunk_bytes <$> cs) ++ tail in
  size_of input ≤ u64_max →
  read_trace {| in_bytes := input; in_end := End_eof |} o =
  Ok (h, trace_chunk <$> cs, end_status tail).
Proof.
  intros Hh Ho Hcs Htorn input Hsize. unfold read_trace, TraceReader_new.
  assert (countable (new_reader {| in_bytes := input; in_end := End_eof |} o)) by done.
  rewrite (read_file_header_run _ h (concat (chunk_bytes <$> cs) ++ tail)) by done.
  cbn [in_bytes].
  destruct (read_all_run cs (S (length input))
    (left_with (concat (chunk_bytes <$> cs) ++ tail)
       (new_reader {| in_bytes := input; in_end := End_eof |} o)) tail) as [r' ->]; try done.
  - by apply (countable_left_with _ (file_header_bytes h)).
  - unfold input. rewrite !length_app.
    assert (length cs ≤ length (concat (chunk_bytes <$> cs)))%nat; [|lia].
    clear. induction cs as [|c cs IH]; [done|]. cbn [fmap list_fmap concat length].
    rewrite length_app. unfold chunk_bytes at 1. rewrite length_app, length_chunk_header. lia.
Qed.

End reader.
