(* ===== verification/TraceRoundTrip.v ===== *)
(** * From the writer to the reader

    A trace written by TraceWriter.v, however its stream fails, is read back by
    TraceReader.v as the chunks that were accepted. *)

From S2P Require Import Prelude PayloadReader Bytes WireFormat Crc32c RecordCursor Compression TraceReader TraceWriter TraceFile.

#[local] Opaque file_header_bytes chunk_header_bytes.

Section round_trip.
Context {L : CompressionLibrary} {Laws : CompressionLaws L}.

(** ** Compression round trips *)

Lemma write_if_ok b e u : write_if b e = Ok u ↔ b = false.
Proof. destruct b, u; unfold write_if; naive_solver. Qed.

Lemma size_take_int n (buf : bytes) : 0 < n → n ≤ size_of buf → size_of (take (Z.to_nat n) buf) = n.
Proof. unfold size_of. intros. rewrite length_take. lia. Qed.

Lemma size_of_zero {A} (l : list A) : (size_of l =? 0) = true → l = [].
Proof. intros H%Z.eqb_eq. apply length_zero_iff_nil. unfold size_of in H. lia. Qed.

Lemma compress_lz4_ok payload stored : compress_lz4 payload = Ok stored →
  decompress_lz4 stored (size_of payload) = Ok payload ∧
  (size_of payload =? 0) = (size_of stored =? 0).
Proof.
  unfold compress_lz4. destruct (size_of payload =? 0) eqn:E0.
  { intros [= <-]. by apply size_of_zero in E0 as ->. }
  destruct (LZ4_compress_default payload _) as [n buf] eqn:Ec. intros H.
  apply bind_ok in H as ([] & Hlim & H). apply bind_ok in H as ([] & _ & H).
  apply bind_ok in H as ([] & Hn & [= <-]). apply write_if_ok in Hlim, Hn. bool_facts.
  destruct (lz4_roundtrip _ _ _ _ Ec Hn) as (Hne & Hbuf & Hint & Hrt).
  unfold decompress_lz4. rewrite size_take_int by done.
  rewrite (proj2 (Z.eqb_neq n 0)) by lia. split; [|done].
  unfold read_if, int_max. rewrite !(proj2 (Z.ltb_ge _ _)) by lia. cbn [orb throw_if].
  rewrite Hrt. cbn. rewrite (proj2 (Z.ltb_ge _ _)) by apply size_of_nonneg.
  by rewrite Z.eqb_refl.
Qed.

Lemma compress_zstd_ok payload level stored : compress_zstd payload level = Ok stored →
  decompress_zstd stored (size_of payload) = Ok payload ∧
  (size_of payload =? 0) = (size_of stored =? 0).
Proof.
  unfold compress_zstd. destruct (size_of payload =? 0) eqn:E0.
  { intros [= <-]. by apply size_of_zero in E0 as ->. }
  intros H. apply bind_ok in H as ([] & _ & H).
  destruct (ZSTD_compressBound _) as [bound|]; [|done].
  destruct (ZSTD_compress _ _ _) as [[n buf]|] eqn:Ec; [|done]. injection H as <-.
  destruct (zstd_roundtrip _ _ _ _ _ Ec) as [[Hn Hbuf] Hrt].
  unfold decompress_zstd. rewrite size_take_int by lia.
  rewrite (proj2 (Z.eqb_neq n 0)), Hrt by lia. cbn. by rewrite Z.eqb_refl.
Qed.

Lemma compress_payload_ok codec payload level stored :
  compress_payload codec payload level = Ok stored →
  decompress_payload codec stored (size_of payload) = Ok payload ∧
  (size_of payload =? 0) = (size_of stored =? 0) ∧
  (codec = Codec_kNone → stored = payload).
Proof.
  destruct codec; cbn.
  - by intros [= ->].
  - intros []%compress_lz4_ok. split_and!; done.
  - intros []%compress_zstd_ok. split_and!; done.
Qed.

(** ** What the writer accepts *)

Record writable (o : TraceWriterOptions) (c : stored_chunk) : Prop := {
  writable_wt : ChunkDescriptor_wt (descriptor (sc_header c));
  writable_valid : validate_chunk_header (sc_header c) = Ok tt;
  writable_uncompressed : uncompressed_size (sc_header c) = size_of (sc_payload c);
  writable_stored : stored_size (sc_header c) = size_of (sc_stored c);
  writable_limits : uncompressed_size (sc_header c) ≤ w_max_uncompressed_chunk_size o ∧
    stored_size (sc_header c) ≤ w_max_stored_chunk_size o ∧
    stored_size (sc_header c) ≤ streamsize_max;
  writable_compress : compress_payload (cd_codec (descriptor (sc_header c))) (sc_payload c)
    (zstd_level o) = Ok (sc_stored c);
  writable_crc : ch_crc32c (sc_header c) = crc32c (sc_payload c);
}.

(** The chunk a descriptor and a payload are written as. *)
Definition make_chunk (d : ChunkDescriptor) (payload stored : bytes) : stored_chunk :=
  {| sc_header := {| descriptor := d; uncompressed_size := size_of payload;
                     stored_size := size_of stored; ch_crc32c := crc32c payload |};
     sc_payload := payload; sc_stored := stored |}.

(** The reader's limits admit what the writer's limits admit. *)
Definition limits_admit (ro : TraceReaderOptions) (wo : TraceWriterOptions) : Prop :=
  w_max_uncompressed_chunk_size wo ≤ r_max_uncompressed_chunk_size ro ∧
  w_max_stored_chunk_size wo ≤ r_max_stored_chunk_size ro.

(** A compressed chunk stays within the reader's expansion ratio. *)
Definition within_ratio (ro : TraceReaderOptions) (codec : CompressionCodec)
    (payload stored : bytes) : Prop :=
  codec = Codec_kNone ∨ stored = [] ∨ u64_max < size_of stored * max_compression_ratio ro ∨
  size_of payload ≤ size_of stored * max_compression_ratio ro.

Lemma writable_readable ro wo c : TraceWriterOptions_wt wo → limits_admit ro wo →
  validate_options ro = Ok tt → u64 (max_compression_ratio ro) →
  within_ratio ro (cd_codec (descriptor (sc_header c))) (sc_payload c) (sc_stored c) →
  writable wo c → readable ro c.
Proof.
  intros Hwo [Hlu Hls] Hro Hr Hratio [Hwt Hv Hu Hs (Hmu & Hms & Hss) Hcomp Hcrc].
  destruct (compress_payload_ok _ _ _ _ Hcomp) as (Hdec & Hzero & Hnone).
  pose proof (size_of_nonneg (sc_payload c)). pose proof (size_of_nonneg (sc_stored c)).
  unfold TraceWriterOptions_wt in Hwo. destruct_and?.
  unfold validate_options, read_if in Hro. inv_ok. bool_facts.
  split; try done.
  - split; [done|]. rewrite Hcrc, Hu, Hs. split_and!; [word..|apply crc32c_u32].
  - unfold validate_chunk_sizes, read_if.
    rewrite (proj2 (Z.ltb_ge (r_max_uncompressed_chunk_size ro) _)) by lia.
    rewrite (proj2 (Z.ltb_ge (r_max_stored_chunk_size ro) _)) by lia.
    rewrite Hu, Hs. cbn [throw_if mbind result_bind]. rewrite Hzero, eqb_reflx. cbn [negb throw_if].
    assert (Hrest : cd_codec (descriptor (sc_header c)) ≠ Codec_kNone →
      (if size_of (sc_stored c) =? 0 then Ok ()
       else throw_if ((size_of (sc_stored c) <=? u64_max / max_compression_ratio ro) &&
              (wrap64 (size_of (sc_stored c) * max_compression_ratio ro) <? size_of (sc_payload c)))
              TraceReadError "compressed chunk exceeds the configured expansion ratio") = Ok tt).
    { intros Hc. destruct (size_of (sc_stored c) =? 0) eqn:Ez; [done|].
      apply throw_if_ok, andb_false_iff. rewrite Z.leb_gt, Z.ltb_ge. bool_facts.
      destruct Hratio as [|[Hz|[Hbig|Hle]]]; [done|by rewrite Hz in Ez| |].
      - left. apply Z.div_lt_upper_bound; word.
      - destruct (decide (size_of (sc_stored c) * max_compression_ratio ro ≤ u64_max)).
        + right. rewrite wrap64_small; [done|]. word.
        + left. apply Z.div_lt_upper_bound; word. }
    destruct (cd_codec _); [|by apply Hrest..].
    rewrite (Hnone eq_refl), Z.eqb_refl. done.
  - by rewrite Hu.
Qed.

(** ** What the writer leaves in its stream *)

Lemma ostream_write_cases o data : data ≠ [] →
  let o' := (ostream_write o data).1 in
  (out_good o = true ∧ out_good o' = true ∧ out_bytes o' = out_bytes o ++ data) ∨
  (out_good o' = false ∧ ∃ k, (k < length data)%nat ∧ out_bytes o' = out_bytes o ++ take k data ∧
     (out_good o = false → k = 0%nat)).
Proof.
  intros Hne. unfold ostream_write. destruct (out_good o) eqn:Eg; cbn.
  - destruct (out_room o) as [room|]; cbn; [|by left].
    destruct (length data <=? room)%nat eqn:El.
    + left. apply Nat.leb_le in El. by rewrite take_ge.
    + right. apply Nat.leb_gt in El. split; [done|]. by exists room.
  - right. rewrite Eg. split; [done|]. exists 0%nat. rewrite take_0, app_nil_r.
    split; [|done]. destruct data; [done|cbn; lia].
Qed.

Lemma set_output_twice o o' w : set_output o (set_output o' w) = set_output o w.
Proof. done. Qed.

Lemma write_bytes_cases data phase off ct w : data ≠ [] ∨ out_good (output_ w) = true →
  size_of data ≤ streamsize_max →
  (∃ o, write_bytes data phase off ct w = (Ok tt, set_output o w) ∧ out_good o = true ∧
     out_good (output_ w) = true ∧ out_bytes o = out_bytes (output_ w) ++ data) ∨
  (∃ e o k, write_bytes data phase off ct w = (Throw e, set_output o w) ∧ out_good o = false ∧
     (k < length data)%nat ∧ out_bytes o = out_bytes (output_ w) ++ take k data ∧
     (out_good (output_ w) = false → k = 0%nat)).
Proof.
  intros Hdata Hsize. unfold write_bytes. destruct (size_of data =? 0) eqn:E0.
  - apply size_of_zero in E0 as ->. destruct Hdata as [|Hg]; [done|]. left.
    exists (output_ w). rewrite app_nil_r. split_and!; try done. by destruct w.
  - assert (data ≠ []) as Hne by by intros ->.
    unfold streamsize_max in Hsize. rewrite (proj2 (Z.ltb_ge _ _)) by done.
    pose proof (ostream_write_cases (output_ w) data Hne) as Hcases.
    unfold get_state, modify, pure, mbind, proc_bind. cbn.
    destruct (ostream_write (output_ w) data) as [o errno]. cbn in *.
    destruct Hcases as [(Hg & Hg' & Hb) | (Hg' & k & Hk & Hb & H0)]; rewrite Hg'; cbn.
    + left. by exists o.
    + right. eexists _, o, k. done.
Qed.

Definition released (o : TraceWriterOptions) : TraceWriterOptions :=
  {| max_file_size := max_file_size o;
     w_max_uncompressed_chunk_size := w_max_uncompressed_chunk_size o;
     w_max_stored_chunk_size := w_max_stored_chunk_size o;
     reserved_tail_size := 0; zstd_level := zstd_level o |}.

(** Calls on a writer whose caller survives exceptions. *)
Inductive writer_op : Type :=
  | Op_write (d : ChunkDescriptor) (payload : bytes)
  | Op_release
  | Op_flush.

Definition writer_step (w : TraceWriter) (op : writer_op)
    : result write_exn (option ChunkWriteResult) * TraceWriter :=
  match op with
  | Op_write d payload => (Some <$> write_chunk d payload) w
  | Op_release => ((λ _, None) <$> release_file_reserve) w
  | Op_flush => ((λ _, None) <$> flush) w
  end.

Fixpoint writer_run (w : TraceWriter) (ops : list writer_op)
    : list (result write_exn (option ChunkWriteResult)) * TraceWriter :=
  match ops with
  | [] => ([], w)
  | op :: ops =>
      let '(res, w) := writer_step w op in
      let '(results, w) := writer_run w ops in
      (res :: results, w)
  end.

(** The chunks whose [write_chunk] returned [kWritten]. *)
Definition accepted_chunk (level : Z) (op : writer_op)
    (res : result write_exn (option ChunkWriteResult)) : list stored_chunk :=
  match op, res with
  | Op_write d payload, Ok (Some Write_kWritten) =>
      match compress_payload (cd_codec d) payload level with
      | Ok stored => [make_chunk d payload stored]
      | Throw _ => []
      end
  | _, _ => []
  end.

Fixpoint accepted_chunks (level : Z) (ops : list writer_op)
    (results : list (result write_exn (option ChunkWriteResult))) : list stored_chunk :=
  match ops, results with
  | op :: ops, res :: results =>
      accepted_chunk level op res ++ accepted_chunks level ops results
  | _, _ => []
  end.

Section invariant.
Context (h : FileHeader) (wo : TraceWriterOptions) (Allowed : ChunkDescriptor → bytes → Prop).

Definition op_ok (op : writer_op) : Prop :=
  match op with
  | Op_write d payload => ChunkDescriptor_wt d ∧ Allowed d payload
  | _ => True
  end.

Definition kept (c : stored_chunk) : Prop :=
  writable wo c ∧ Allowed (descriptor (sc_header c)) (sc_payload c).

Record writer_inv (w : TraceWriter) (cs : list stored_chunk) (tail : bytes) : Prop := {
  wi_bytes : out_bytes (output_ w) =
    file_header_bytes h ++ concat (chunk_bytes <$> cs) ++ tail;
  wi_good : out_good (output_ w) = true → tail = [];
  wi_torn : tail = [] ∨ ∃ c rest, kept c ∧ rest ≠ [] ∧ chunk_bytes c = tail ++ rest;
  wi_chunks : Forall kept cs;
  wi_written : bytes_written_ w = size_of (file_header_bytes h ++ concat (chunk_bytes <$> cs));
  wi_options : tw_options_ w = wo ∨ tw_options_ w = released wo;
  wi_size : size_of (out_bytes (output_ w)) ≤ max_file_size wo;
  wi_limit : bytes_written_ w ≤ max_file_size wo - reserved_tail_size (tw_options_ w);
  wi_uncompressed : uncompressed_payload_bytes_written_ w =
    foldr (λ c acc, size_of (sc_payload c) + acc) 0 cs;
  wi_uncompressed_bound : uncompressed_payload_bytes_written_ w ≤ u64_max;
  wi_stored : stored_payload_bytes_written_ w =
    foldr (λ c acc, size_of (sc_stored c) + acc) 0 cs;
}.

Lemma inv_same_stream w w' cs tail :
  output_ w' = output_ w → bytes_written_ w' = bytes_written_ w →
  uncompressed_payload_bytes_written_ w' = uncompressed_payload_bytes_written_ w →
  stored_payload_bytes_written_ w' = stored_payload_bytes_written_ w →
  (tw_options_ w' = tw_options_ w ∨ tw_options_ w' = released wo) →
  0 ≤ reserved_tail_size wo →
  writer_inv w cs tail → writer_inv w' cs tail.
Proof.
  intros Ho Hb Hu Hs Hopt Hres [? ? ? ? ? Hoptw ? Hlim ? ? ?].
  split; rewrite ?Ho, ?Hb, ?Hu, ?Hs; try done.
  - destruct Hopt as [-> | ->]; auto.
  - destruct Hopt as [-> | ->]; [done|]. cbn. destruct Hoptw as [E|E]; rewrite E in Hlim; cbn in Hlim; lia.
Qed.

(** A write that throws or reaches the limit keeps the chunks; the bytes of a
    failed write are a proper prefix of the chunk. *)
Definition step_keeps (cs : list stored_chunk) (d : ChunkDescriptor) (payload : bytes)
    (res : result write_exn ChunkWriteResult) (cs' : list stored_chunk) : Prop :=
  match res with
  | Ok Write_kWritten => ∃ stored,
      compress_payload (cd_codec d) payload (zstd_level wo) = Ok stored ∧
      cs' = cs ++ [make_chunk d payload stored]
  | _ => cs' = cs
  end.

Lemma concat_snoc cs c :
  concat (chunk_bytes <$> (cs ++ [c])) = concat (chunk_bytes <$> cs) ++ chunk_bytes c.
Proof. rewrite fmap_app, concat_app. cbn. by rewrite app_nil_r. Qed.

(** The stream after a write that failed inside chunk [c]. *)
Lemma inv_torn w cs tail c o k : writer_inv w cs tail → kept c →
  bytes_written_ w + size_of (chunk_bytes c) ≤ max_file_size wo →
  out_good o = false → (k < length (chunk_bytes c))%nat →
  out_bytes o = out_bytes (output_ w) ++ take k (chunk_bytes c) →
  (out_good (output_ w) = false → k = 0%nat) →
  ∃ tail', writer_inv (set_output o w) cs tail'.
Proof.
  intros [Hb Hg Ht Hc Hw Ho Hsz Hl Hu Hub Hs] Hkept Hfit Hbad Hk Hbytes Hk0.
  destruct (out_good (output_ w)) eqn:Eg.
  - rewrite Hg, app_nil_r in Hb by done. exists (take k (chunk_bytes c)).
    split; cbn; try done; [by rewrite Hbytes, Hb, <- app_assoc|by rewrite Hbad| |].
    2:{ rewrite Hbytes, size_of_app, Hb, <- Hw. revert Hfit. unfold size_of.
        rewrite length_take. lia. }
    right. exists c, (drop k (chunk_bytes c)). rewrite take_drop. split_and!; try done.
    intros E. apply (f_equal length) in E. rewrite length_drop in E. revert E Hk.
    generalize (length (chunk_bytes c)). cbn. lia.
  - rewrite Hk0, take_0, app_nil_r in Hbytes by done. exists tail.
    split; cbn; try done; [by rewrite Hbytes|by rewrite Hbad|by rewrite Hbytes].
Qed.

(** Both parts of a chunk reach the stream, or the stream fails inside it. *)
Lemma write_both w cs tail c p1 p2 o1 o2 ct : writer_inv w cs tail → kept c →
  bytes_written_ w + size_of (chunk_bytes c) ≤ max_file_size wo →
  sc_stored c = [] ∨ size_of (sc_stored c) ≤ streamsize_max →
  let r := (write_bytes (chunk_header_bytes (sc_header c)) p1 o1 ct ;;
            write_bytes (sc_stored c) p2 o2 ct) w in
  (∃ o, r = (Ok tt, set_output o w) ∧ out_good o = true ∧
     out_bytes o = file_header_bytes h ++ concat (chunk_bytes <$> (cs ++ [c]))) ∨
  (∃ e o tail', r = (Throw e, set_output o w) ∧ writer_inv (set_output o w) cs tail').
Proof.
  intros Hinv Hkept Hfit Hsize r. unfold r, mbind, proc_bind. clear r.
  pose proof (length_chunk_header (sc_header c)) as Hlen.
  destruct (write_bytes_cases (chunk_header_bytes (sc_header c)) p1 o1 ct w)
    as [(o & -> & Hg & Hg0 & Hb) | (e & o & k & -> & Hg & Hk & Hb & H0)].
  { left. by intros E; rewrite E in Hlen. }
  { unfold size_of. by rewrite Hlen. }
  - destruct (write_bytes_cases (sc_stored c) p2 o2 ct (set_output o w))
      as [(o' & -> & Hg' & _ & Hb') | (e & o' & k & -> & Hg' & Hk & Hb' & H0')]; [by right| | |].
    { destruct Hsize as [-> | ]; done. }
    + left. exists o'. split_and!; [done|done|]. rewrite Hb'. cbn. rewrite Hb, (wi_bytes _ _ _ Hinv).
      rewrite (wi_good _ _ _ Hinv), app_nil_r by done. rewrite concat_snoc.
      change (chunk_bytes c) with (chunk_header_bytes (sc_header c) ++ sc_stored c).
      by rewrite !app_assoc.
    + right. cbn in Hb', H0'. exists e, o'.
      destruct (inv_torn w cs tail c o' (56 + k)) as [tail' Hinv']; try done.
      * unfold chunk_bytes. rewrite length_app, Hlen. lia.
      * rewrite Hb', Hb, <- app_assoc. by f_equal.
      * by rewrite Hg0.
      * by exists tail'.
  - right. exists e, o.
    destruct (inv_torn w cs tail c o k) as [tail' Hinv']; try done.
    + unfold chunk_bytes. rewrite length_app. lia.
    + rewrite Hb. unfold chunk_bytes. by rewrite take_app_le by lia.
    + by exists tail'.
Qed.
Lemma sum_snoc {A} (f : A → Z) l x :
  foldr (λ a acc, f a + acc) 0 (l ++ [x]) = foldr (λ a acc, f a + acc) 0 l + f x.
Proof. induction l as [|a l IH]; cbn; [lia|]. rewrite IH. lia. Qed.

Lemma sum_nonneg {A} (f : A → list byte) l : 0 ≤ foldr (λ a acc, size_of (f a) + acc) 0 l.
Proof. induction l as [|a l IH]; cbn; [lia|]. pose proof (size_of_nonneg (f a)). lia. Qed.

Lemma stored_sum_bound cs :
  foldr (λ c acc, size_of (sc_stored c) + acc) 0 cs ≤ size_of (concat (chunk_bytes <$> cs)).
Proof.
  induction cs as [|c cs IH]; cbn -[size_of]; [done|].
  rewrite size_of_app. unfold chunk_bytes at 1. rewrite size_of_app.
  pose proof (size_of_nonneg (chunk_header_bytes (sc_header c))). lia.
Qed.

Hypothesis (Hwo : TraceWriterOptions_wt wo).
Hypothesis (Hreserve : reserved_tail_size wo ≤ max_file_size wo).
Hypothesis (Hstream : w_max_stored_chunk_size wo ≤ streamsize_max).

Lemma size_chunk_bytes c : size_of (chunk_bytes c) = 56 + size_of (sc_stored c).
Proof.
  unfold chunk_bytes. rewrite size_of_app. unfold size_of at 1. by rewrite length_chunk_header.
Qed.

Lemma limit_fits w cs tail c : writer_inv w cs tail →
  exceeds_file_limit (bytes_written_ w) (size_of (sc_stored c))
    (wrap64 (max_file_size (tw_options_ w) - reserved_tail_size (tw_options_ w))) = false →
  bytes_written_ w + size_of (chunk_bytes c) ≤
    max_file_size wo - reserved_tail_size (tw_options_ w) ∧
  0 ≤ reserved_tail_size (tw_options_ w).
Proof.
  intros Hinv Hlimit. pose proof (wi_options _ _ _ Hinv) as Ho.
  destruct Hwo as (Hmax64 & _ & _ & Hres64 & _).
  assert (Hopt : max_file_size (tw_options_ w) = max_file_size wo ∧
    0 ≤ reserved_tail_size (tw_options_ w) ≤ max_file_size wo).
  { destruct Ho as [-> | ->]; cbn; word. }
  destruct Hopt as [Hmax Hres]. rewrite Hmax in Hlimit.
  unfold exceeds_file_limit, kChunkHeaderSize in Hlimit.
  rewrite wrap64_small in Hlimit by word. case_match; [done|].
  apply orb_false_iff in Hlimit as [?%Z.ltb_ge ?%Z.ltb_ge].
  rewrite size_chunk_bytes. lia.
Qed.

(** The stream and the counters after a chunk has been written. *)
Lemma inv_written w cs tail c o : writer_inv w cs tail → kept c → out_good o = true →
  out_bytes o = file_header_bytes h ++ concat (chunk_bytes <$> (cs ++ [c])) →
  bytes_written_ w + size_of (chunk_bytes c) ≤
    max_file_size wo - reserved_tail_size (tw_options_ w) →
  0 ≤ reserved_tail_size (tw_options_ w) →
  size_of (sc_payload c) ≤ u64_max - uncompressed_payload_bytes_written_ w →
  writer_inv
    {| output_ := o; tw_options_ := tw_options_ w;
       bytes_written_ := wrap64 (bytes_written_ w + (56 + size_of (sc_stored c)));
       uncompressed_payload_bytes_written_ :=
         wrap64 (uncompressed_payload_bytes_written_ w + size_of (sc_payload c));
       stored_payload_bytes_written_ :=
         wrap64 (stored_payload_bytes_written_ w + size_of (sc_stored c)) |}
    (cs ++ [c]) [].
Proof.
  intros [Hb Hg Ht Hc Hw Ho Hsz Hl Hu Hub Hs] Hkept Hgood Hbytes Hfit Hres Hsum.
  pose proof (size_of_nonneg (sc_stored c)). pose proof (size_of_nonneg (sc_payload c)).
  pose proof (sum_nonneg sc_payload cs). pose proof (sum_nonneg sc_stored cs).
  pose proof (stored_sum_bound cs) as Hbound.
  pose proof (size_of_nonneg (file_header_bytes h)).
  pose proof (size_of_nonneg (concat (chunk_bytes <$> cs))).
  destruct Hwo as (Hmax64 & _ & _ & Hres64 & _).
  pose proof (size_chunk_bytes c) as Hlen. rewrite size_of_app in Hw.
  assert (Hw1 : u64 (bytes_written_ w + (56 + size_of (sc_stored c)))) by (unfold u64 in *; lia).
  assert (Hw2 : u64 (uncompressed_payload_bytes_written_ w + size_of (sc_payload c)))
    by (unfold u64, u64_max in *; lia).
  assert (Hw3 : u64 (stored_payload_bytes_written_ w + size_of (sc_stored c)))
    by (unfold u64 in *; lia).
  assert (Hall : size_of (file_header_bytes h ++ concat (chunk_bytes <$> (cs ++ [c]))) =
    bytes_written_ w + (56 + size_of (sc_stored c)))
    by (rewrite concat_snoc, !size_of_app, Hlen, Hw; lia).
  rewrite (wrap64_small _ Hw1), (wrap64_small _ Hw2), (wrap64_small _ Hw3).
  split; cbn [output_ tw_options_ bytes_written_ uncompressed_payload_bytes_written_
    stored_payload_bytes_written_]; rewrite ?app_nil_r; try done.
  - by left.
  - by apply Forall_app_2; [|apply Forall_singleton].
  - rewrite Hbytes, Hall. lia.
  - lia.
  - by rewrite sum_snoc, <- Hu.
  - lia.
  - by rewrite sum_snoc, <- Hs.
Qed.

Lemma write_chunk_inv w cs tail d payload res w' :
  writer_inv w cs tail → ChunkDescriptor_wt d → Allowed d payload →
  write_chunk d payload w = (res, w') →
  ∃ cs' tail', writer_inv w' cs' tail' ∧ step_keeps cs d payload res cs'.
Proof.
  intros Hinv Hd Hallowed. unfold write_chunk. erewrite proc_bind_run by done.
  assert (Hstay : ∀ res', match res' with Ok Write_kWritten => False | _ => True end →
    (res', w) = (res, w') → ∃ cs' tail', writer_inv w' cs' tail' ∧ step_keeps cs d payload res cs').
  { intros res' Hres [= <- <-]. exists cs, tail. split; [done|].
    by destruct res' as [[]|]. }
  assert (Hopt : w_max_uncompressed_chunk_size (tw_options_ w) = w_max_uncompressed_chunk_size wo ∧
    w_max_stored_chunk_size (tw_options_ w) = w_max_stored_chunk_size wo ∧
    zstd_level (tw_options_ w) = zstd_level wo).
  { by destruct (wi_options _ _ _ Hinv) as [-> | ->]. }
  destruct Hopt as (Hou & Hos & Hoz). rewrite Hou, Hos, Hoz. clear Hou Hos Hoz.
  rewrite pure_bind. destruct (write_if _ _) as [[]|] eqn:E1; [|by apply Hstay].
  rewrite pure_bind. destruct (compress_payload _ _ _) as [stored|] eqn:Ec; [|by apply Hstay].
  rewrite pure_bind. destruct (write_if (w_max_stored_chunk_size wo <? _) _) as [[]|] eqn:E2; [|by apply Hstay].
  rewrite pure_bind. set (c := make_chunk d payload stored).
  destruct (encode_chunk_header _) as [encoded|] eqn:Ee; [|by apply Hstay].
  apply encode_chunk_header_ok in Ee as [Hvalid ->]. cbn [format_exn].
  destruct (exceeds_file_limit _ _ _) eqn:Elim; [by apply Hstay|].
  rewrite pure_bind. destruct (write_if (_ - _ <? size_of payload) _) as [[]|] eqn:E3; [|by apply Hstay].
  apply write_if_ok in E1, E2, E3. bool_facts.
  assert (Hkept : kept c) by (split; [split; cbn; try done; lia|done]).
  change {| descriptor := d; uncompressed_size := size_of payload; stored_size := size_of stored;
            ch_crc32c := crc32c payload |} with (sc_header c).
  rewrite <- proc_bind_assoc.
  destruct (limit_fits w cs tail c Hinv Elim) as [Hfit Hres].
  destruct (write_both w cs tail c Phase_kWrite Phase_kWrite (bytes_written_ w)
    (wrap64 (bytes_written_ w + size_of (chunk_header_bytes (sc_header c)))) (Some (cd_type d)))
    as [(o & Hr & Hg & Hb) | (e & o & tail' & Hr & Hinv')]; [done|done|lia|right; cbn; lia| |].
  - erewrite proc_bind_run by exact Hr. intros [= <- <-]. exists (cs ++ [c]), [].
    split; [|by exists stored].
    assert (size_of (chunk_header_bytes (sc_header c)) = 56) as Hlen
      by (unfold size_of; by rewrite length_chunk_header).
    pose proof (inv_written w cs tail c o) as Hdone. rewrite <- Hlen in Hdone.
    by apply Hdone.
  - erewrite proc_throw_run by exact Hr. intros [= <- <-]. exists cs, tail'. done.
Qed.
(** ** Sequences of calls *)

Lemma writer_step_inv w cs tail op res w' :
  writer_inv w cs tail → op_ok op → writer_step w op = (res, w') →
  ∃ tail', writer_inv w' (cs ++ accepted_chunk (zstd_level wo) op res) tail'.
Proof.
  intros Hinv Hop Hstep. destruct op as [d payload| |]; cbn [writer_step accepted_chunk op_ok] in *.
  - destruct (write_chunk d payload w) as [res0 w0] eqn:E. cbn in Hstep.
    destruct (write_chunk_inv _ _ _ _ _ _ _ Hinv (proj1 Hop) (proj2 Hop) E)
      as (cs' & tail' & Hinv' & Hkeep).
    exists tail'. unfold fmap, proc_fmap in Hstep. rewrite E in Hstep.
    destruct res0 as [[]|]; injection Hstep as <- <-; cbn [step_keeps] in Hkeep; cbn.
    + destruct Hkeep as (stored & Hc & ->). by rewrite Hc.
    + subst. by rewrite app_nil_r.
    + subst. by rewrite app_nil_r.
  - exists tail. rewrite app_nil_r. injection Hstep as _ <-.
    apply (inv_same_stream w); [done|done|done|done| |apply Hwo|done].
    right. cbn. by destruct (wi_options _ _ _ Hinv) as [-> | ->].
  - rewrite app_nil_r. cbn in Hstep. unfold fmap, proc_fmap, flush in Hstep.
    unfold get_state, modify, pure, mbind, proc_bind in Hstep.
    unfold ostream_flush in Hstep. destruct Hinv as [? Hg ? ? ? ? ? ? ? ? ?].
    exists tail. destruct (out_good (output_ w)) eqn:Eg; cbn in Hstep.
    + destruct (out_flush_fails (output_ w)); cbn in Hstep; rewrite ?Eg in Hstep;
        injection Hstep as _ <-; by split; cbn; rewrite ?Eg.
    + rewrite Eg in Hstep. injection Hstep as _ <-. split; cbn; rewrite ?Eg; done.
Qed.

Lemma writer_run_inv ops w cs tail results w' :
  writer_inv w cs tail → Forall op_ok ops → writer_run w ops = (results, w') →
  ∃ tail', writer_inv w' (cs ++ accepted_chunks (zstd_level wo) ops results) tail'.
Proof.
  revert w cs tail results. induction ops as [|op ops IH]; intros w cs tail results Hinv Hops Hrun.
  - injection Hrun as <- <-. exists tail. by rewrite app_nil_r.
  - cbn [writer_run] in Hrun. destruct (writer_step w op) as [res w1] eqn:Es.
    destruct (writer_run w1 ops) as [rest w2] eqn:Er. injection Hrun as <- <-.
    inversion Hops; subst.
    destruct (writer_step_inv _ _ _ _ _ _ Hinv ltac:(done) Es) as [tail1 Hinv1].
    destruct (IH _ _ _ _ Hinv1 ltac:(done) Er) as [tail2 Hinv2].
    exists tail2. cbn [accepted_chunks]. by rewrite app_assoc.
Qed.
End invariant.

(** A writer that was constructed has written its header and nothing else. *)
Lemma TraceWriter_new_ok out header wo w : FileHeader_wt header →
  TraceWriterOptions_wt wo → out_bytes out = [] →
  (TraceWriter_new out header wo).1 = Ok w →
  FileHeader_valid header ∧ reserved_tail_size wo ≤ max_file_size wo ∧
  ∀ Allowed, writer_inv header wo Allowed w [] [].
Proof.
  intros Hwt Hwo Hempty. unfold TraceWriter_new, write_file_header.
  erewrite proc_bind_run by done. cbn [new_writer tw_options_].
  rewrite pure_bind. destruct (write_if (_ <? kFileHeaderSize) _) as [[]|] eqn:E1; [|done].
  rewrite pure_bind. destruct (write_if (_ || _) _) as [[]|] eqn:E2; [|done].
  rewrite pure_bind. destruct (write_if (_ && _) _) as [[]|] eqn:E3; [|done].
  rewrite pure_bind. destruct (write_if (_ <? reserved_tail_size wo) _) as [[]|] eqn:E4; [|done].
  rewrite pure_bind. destruct (encode_file_header header) as [e|] eqn:Ee; [|done].
  apply encode_file_header_ok in Ee as [Hvalid ->]. cbn [format_exn].
  pose proof Hwt as (_ & _ & Hsession & _). pose proof (length_file_header header Hsession) as Hlen.
  apply write_if_ok in E1, E4. unfold kFileHeaderSize in *. bool_facts.
  assert (Hsize : size_of (file_header_bytes header) = 68) by (unfold size_of; by rewrite Hlen).
  destruct (write_bytes_cases (file_header_bytes header) Phase_kHeader 0 None (new_writer out wo))
    as [(o & Hr & Hg & _ & Hb) | (e & o & k & Hr & _)].
  { left. intros E. by rewrite E in Hlen. }
  { by rewrite Hsize. }
  - erewrite proc_bind_run by exact Hr. cbn. intros [= <-]. cbn in Hb. rewrite Hempty in Hb.
    destruct Hwo as (_ & _ & _ & Hres & _).
    split_and!; [done..|unfold u64 in Hres; lia|].
    intros Allowed. split; cbn; rewrite ?app_nil_r, ?Hb; try done; [by left|by left|..].
    + cbn. rewrite Hsize. unfold u64 in Hres. lia.
    + rewrite Hsize. lia.
  - erewrite proc_throw_run by exact Hr. done.
Qed.

(** The chunks a reader with options [ro] accepts from a writer with options
    [wo]: its limits admit the writer's, and no compressed chunk exceeds its
    expansion ratio. *)
Definition ratio_allowed (ro : TraceReaderOptions) (level : Z) (d : ChunkDescriptor)
    (payload : bytes) : Prop :=
  ∀ stored, compress_payload (cd_codec d) payload level = Ok stored →
    within_ratio ro (cd_codec d) payload stored.

Record compatible (ro : TraceReaderOptions) (wo : TraceWriterOptions) : Prop := {
  compatible_wt : TraceWriterOptions_wt wo;
  compatible_stream : w_max_stored_chunk_size wo ≤ streamsize_max;
  compatible_reader : validate_options ro = Ok tt;
  compatible_ratio : u64 (max_compression_ratio ro);
  compatible_limits : limits_admit ro wo;
}.

Lemma kept_readable ro wo c : compatible ro wo →
  kept wo (ratio_allowed ro (zstd_level wo)) c → readable ro c.
Proof.
  intros [] [Hw Hr]. apply (writable_readable ro wo); try done.
  apply Hr. apply Hw.
Qed.

Lemma inv_torn_readable ro wo header w cs tail : compatible ro wo →
  writer_inv header wo (ratio_allowed ro (zstd_level wo)) w cs tail →
  torn ro tail ∧ Forall (readable ro) cs.
Proof.
  intros Hc Hinv. split.
  - destruct (wi_torn _ _ _ _ _ _ Hinv) as [->|(c & rest & Hk & ? & ?)]; [by left|].
    right. exists c, rest. split_and!; try done. by apply (kept_readable ro wo).
  - eapply Forall_impl; [apply (wi_chunks _ _ _ _ _ _ Hinv)|]. intros c. by apply kept_readable.
Qed.

(** C5: Crash consistency.  Whatever calls are made on a trace writer, and
    wherever its output stream fails, the bytes that reached the stream are read
    back as the file header and exactly the chunks whose [write_chunk] returned
    [kWritten], in order, with their payloads.  The reader ends normally, at the
    end of the file or inside the one chunk the failure interrupted; it reaches
    the end of the file if the stream never failed. *)
Theorem trace_crash_consistent (ro : TraceReaderOptions) (wo : TraceWriterOptions)
    (header : FileHeader) (out : ostream) (ops : list writer_op) (w w' : TraceWriter)
    (results : list (result write_exn (option ChunkWriteResult))) :
  compatible ro wo → FileHeader_wt header → out_bytes out = [] →
  (TraceWriter_new out header wo).1 = Ok w →
  Forall (op_ok (ratio_allowed ro (zstd_level wo))) ops →
  writer_run w ops = (results, w') →
  ∃ status,
    read_trace {| in_bytes := out_bytes (output_ w'); in_end := End_eof |} ro =
      Ok (header, trace_chunk <$> accepted_chunks (zstd_level wo) ops results, status) ∧
    status ≠ Status_kChunk ∧
    (out_good (output_ w') = true → status = Status_kEndOfFile).
Proof.
  intros Hc Hh Hempty Hnew Hops Hrun. pose proof (compatible_wt _ _ Hc) as Hwo.
  destruct (TraceWriter_new_ok _ _ _ _ Hh Hwo Hempty Hnew) as (Hvalid & Hres & Hinv).
  destruct (writer_run_inv header wo _ Hwo Hres (compatible_stream _ _ Hc) _ _ _ _ _ _
    (Hinv _) Hops Hrun) as [tail Hinv']. cbn [app] in Hinv'.
  destruct (inv_torn_readable _ _ _ _ _ _ Hc Hinv') as [Htorn Hcs].
  exists (end_status tail). rewrite (wi_bytes _ _ _ _ _ _ Hinv').
  split_and!; [|by destruct tail|].
  - apply read_trace_run; [done|apply Hc|done..|].
    rewrite <- (wi_bytes _ _ _ _ _ _ Hinv'). pose proof (wi_size _ _ _ _ _ _ Hinv').
    destruct Hwo as (Hmax & _). word.
  - intros Hg. by rewrite (wi_good _ _ _ _ _ _ Hinv').
Qed.

(** C39: The size limit.  A trace file never grows beyond [max_file_size], not
    even by the bytes of an interrupted chunk; the complete chunks leave the
    reserved tail free until it is released; and the writer's counters are the
    sizes of what was written, without wrapping. *)
Theorem trace_writer_accounting (wo : TraceWriterOptions) (header : FileHeader) (out : ostream)
    (ops : list writer_op) (w w' : TraceWriter)
    (results : list (result write_exn (option ChunkWriteResult))) :
  TraceWriterOptions_wt wo → w_max_stored_chunk_size wo ≤ streamsize_max →
  FileHeader_wt header → out_bytes out = [] →
  (TraceWriter_new out header wo).1 = Ok w →
  Forall (op_ok (λ _ _, True)) ops → writer_run w ops = (results, w') →
  let cs := accepted_chunks (zstd_level wo) ops results in
  size_of (out_bytes (output_ w')) ≤ max_file_size wo ∧
  bytes_written_ w' = size_of (file_header_bytes header ++ concat (chunk_bytes <$> cs)) ∧
  bytes_written_ w' ≤ max_file_size wo - reserved_tail_size (tw_options_ w') ∧
  remaining_bytes w' =
    max_file_size wo - reserved_tail_size (tw_options_ w') - bytes_written_ w' ∧
  uncompressed_payload_bytes_written_ w' = foldr (λ c acc, size_of (sc_payload c) + acc) 0 cs ∧
  stored_payload_bytes_written_ w' = foldr (λ c acc, size_of (sc_stored c) + acc) 0 cs.
Proof.
  intros Hwo Hstream Hh Hempty Hnew Hops Hrun cs.
  destruct (TraceWriter_new_ok _ _ _ _ Hh Hwo Hempty Hnew) as (Hvalid & Hres & Hinv).
  destruct (writer_run_inv header wo _ Hwo Hres Hstream _ _ _ _ _ _ (Hinv _) Hops Hrun)
    as [tail [Hb Hg Ht Hcs Hw Ho Hsz Hl Hu Hub Hs]].
  cbn [app] in *. split_and!; try done.
  assert (Hopt : max_file_size (tw_options_ w') = max_file_size wo ∧
    0 ≤ reserved_tail_size (tw_options_ w')).
  { destruct Hwo as (_ & _ & _ & Hr & _). destruct Ho as [-> | ->]; cbn; word. }
  destruct Hopt as [Hmax Hr]. destruct Hwo as (Hmax64 & _).
  pose proof (size_of_nonneg (file_header_bytes header ++ concat (chunk_bytes <$> cs))).
  unfold remaining_bytes. fold cs in Hw. rewrite Hmax, wrap64_small by word.
  case_match; bool_facts; lia.
Qed.

End round_trip.
