(* ===== verification/TraceReaderSafety.v ===== *)
(** * The trace reader on arbitrary input

    TraceReader.v on bytes nobody vouches for: every loop ends, and every chunk
    it hands out is within the limits and carries its checksum. *)

From S2P Require Import Prelude Bytes WireFormat RecordCursor Compression TraceReader TraceWriter TraceFile.

(** ** What the reader may throw

    [rwp p s P]: run from [s], [p] does not run out of fuel, if it throws it
    throws a [TraceReadError], and if it returns it establishes [P]. *)

Definition only_read_errors (e : fault) (_ : TraceReader) : Prop :=
  match e with Thrown e => exn_kind e = TraceReadError | OutOfFuel => False end.

Abbreviation rwp p s P := (wp p s P only_read_errors).

(** Pure parts of the reader throw nothing else either. *)
Definition reads_only {A} (m : result exn A) : Prop :=
  ∀ e, m = Throw e → exn_kind e = TraceReadError.

Lemma reads_only_ok {A} (a : A) : reads_only (Ok a).
Proof. done. Qed.
Lemma reads_only_throw {A} msg : reads_only (A:=A) (throw TraceReadError msg).
Proof. by intros e [= <-]. Qed.
Lemma reads_only_if b msg : reads_only (read_if b msg).
Proof. intros e H. unfold read_if in H. by apply throw_if_throw in H as [_ ->]. Qed.
Lemma reads_only_bind {A B} (m : result exn A) (f : A → result exn B) :
  reads_only m → (∀ a, reads_only (f a)) → reads_only (m ≫= f).
Proof. intros Hm Hf e [H|(a & _ & H)]%bind_throw; [by apply Hm|by apply (Hf a)]. Qed.

Create HintDb reads_only.
#[export] Hint Resolve reads_only_ok reads_only_throw reads_only_if reads_only_bind : reads_only.

(** [reads_only] opens the cases of a pure function. *)
Ltac reads_only :=
  repeat (case_match || (apply reads_only_bind; [|intros ?]));
  auto using reads_only_ok, reads_only_throw, reads_only_if.

Lemma validate_options_reads o : reads_only (validate_options o).
Proof. unfold validate_options. reads_only. Qed.
Lemma validate_sequence_range_reads b e : reads_only (validate_sequence_range b e).
Proof. unfold validate_sequence_range. reads_only. Qed.
Lemma validate_chunk_sizes_reads c u st o : reads_only (validate_chunk_sizes c u st o).
Proof. unfold validate_chunk_sizes. reads_only. Qed.
Lemma parse_platform_reads v : reads_only (parse_platform v).
Proof. unfold parse_platform. reads_only. Qed.
Lemma parse_architecture_reads v : reads_only (parse_architecture v).
Proof. unfold parse_architecture. reads_only. Qed.
Lemma decompress_payload_reads `{CompressionLibrary} c bs n : reads_only (decompress_payload c bs n).
Proof. unfold decompress_payload, decompress_lz4, decompress_zstd. cbv zeta. reads_only. Qed.
#[export] Hint Resolve validate_options_reads validate_sequence_range_reads
  validate_chunk_sizes_reads parse_platform_reads parse_architecture_reads
  decompress_payload_reads : reads_only.

Lemma rwp_mono {A} (p : reading A) s (P Q : A → TraceReader → Prop) :
  rwp p s P → (∀ a s', P a s' → Q a s') → rwp p s Q.
Proof. intros H HPQ. by eapply wp_mono. Qed.

Lemma rwp_error {A} msg s (P : A → TraceReader → Prop) : rwp (read_error msg) s P.
Proof. done. Qed.
Lemma rwp_check b msg s (P : unit → TraceReader → Prop) :
  (b = false → P tt s) → rwp (check b msg) s P.
Proof. unfold check. destruct b; [intros _; apply rwp_error|intros H; by apply wp_ret, H]. Qed.
Lemma rwp_liftx {A} (m : result exn A) s (P : A → TraceReader → Prop) :
  reads_only m → (∀ a, m = Ok a → P a s) → rwp (liftx m) s P.
Proof. destruct m; unfold wp; cbn; auto. Qed.

Ltac rwp_step :=
  lazymatch goal with
  | |- wp (read_error _) _ _ _ => apply rwp_error
  | |- wp (check _ _) _ _ _ => apply rwp_check; intros ?
  | |- wp (liftx _) _ _ _ => apply rwp_liftx; [auto with reads_only|intros ? ?]
  | |- wp (finish _) _ _ _ => unfold finish
  | |- wp (match ?r with Read_kComplete => _ | _ => _ end) _ _ _ => destruct r eqn:?
  | _ => wp_step
  end; cbv beta.

Definition held (s : TraceReader) : nat := length (in_bytes (input_ s)).

(** A complete read takes its bytes from the stream; no read adds any. *)
Lemma wp_read_exact n s (P : ExactReadResult * bytes → TraceReader → Prop) :
  (∀ res data s', (held s' ≤ held s)%nat → options_ s' = options_ s →
     terminal_status_ s' = terminal_status_ s →
     (res = Read_kComplete → held s = (n + held s')%nat ∧ length data = n) →
     P (res, data) s') →
  rwp (read_exact n) s P.
Proof.
  intros HP. unfold read_exact. destruct (n =? 0)%nat eqn:E.
  { apply Nat.eqb_eq in E as ->. apply wp_ret, HP; auto. }
  repeat rwp_step; apply HP; cbn; unfold held; cbn; rewrite ?length_drop, ?length_take in *;
    try done; try lia.
  - intros _. rewrite negb_true_iff, Nat.ltb_ge in *. lia.
  - by case_match.
Qed.

Lemma wp_skip_loop fuel size any s (P : ExactReadResult → TraceReader → Prop) :
  (S (held s) < fuel)%nat → 0 ≤ size →
  (∀ res s', (held s' ≤ held s)%nat → options_ s' = options_ s →
     terminal_status_ s' = terminal_status_ s → P res s') →
  rwp (skip_loop fuel size any) s P.
Proof.
  revert size any s. induction fuel as [|fuel IH]; intros size any s Hfuel Hsize HP; [lia|].
  cbn [skip_loop]. rwp_step; [by apply wp_ret, HP|]. apply Z.eqb_neq in Heqb.
  rwp_step. apply wp_read_exact. intros res data s' Hheld Hopt Hterm Hres. cbn [fst].
  destruct res.
  - destruct (Hres eq_refl) as [Hlen _]. unfold scratch_size in *. apply IH.
    + lia.
    + lia.
    + intros res s'' ? Ho ?. apply HP; [lia|by rewrite Ho|congruence].
  - by apply wp_ret, HP.
  - by apply wp_ret, HP.
Qed.

Lemma wp_skip_exact size s (P : ExactReadResult → TraceReader → Prop) : 0 ≤ size →
  (∀ res s', (held s' ≤ held s)%nat → options_ s' = options_ s →
     terminal_status_ s' = terminal_status_ s → P res s') →
  rwp (skip_exact size) s P.
Proof.
  intros Hsize HP. unfold skip_exact. rwp_step. rwp_step. apply wp_skip_loop; [unfold held; lia|done|done].
Qed.

(** ** What a returned chunk satisfies *)

Section safety.
Context {L : CompressionLibrary} {Laws : CompressionLaws L}.

Record chunk_sound (o : TraceReaderOptions) (c : TraceChunk) : Prop := {
  sound_wt : ChunkHeader_wt (tc_header c);
  sound_header : validate_chunk_header (tc_header c) = Ok tt;
  sound_size : size_of (tc_payload c) = uncompressed_size (tc_header c);
  sound_uncompressed : uncompressed_size (tc_header c) ≤ r_max_uncompressed_chunk_size o;
  sound_stored : stored_size (tc_header c) ≤ r_max_stored_chunk_size o;
  sound_crc : crc32c (tc_payload c) = ch_crc32c (tc_header c);
}.

(** An empty stored payload declares an empty payload. *)
Lemma empty_sizes codec uncompressed_size stored_size o :
  validate_chunk_sizes (Some codec) uncompressed_size stored_size o = Ok tt →
  stored_size = 0 → uncompressed_size = 0.
Proof.
  intros Hv ->. unfold validate_chunk_sizes, read_if in Hv.
  destruct codec; inv_ok; bool_facts; [done|by destruct (uncompressed_size =? 0) eqn:Hz; bool_facts..].
Qed.

(** Sizes that pass the checks make the payload exactly as long as declared. *)
Lemma decompress_size codec stored uncompressed_size stored_size o payload :
  validate_chunk_sizes (Some codec) uncompressed_size stored_size o = Ok tt →
  size_of stored = stored_size → 0 ≤ uncompressed_size →
  decompress_payload codec stored uncompressed_size = Ok payload →
  size_of payload = uncompressed_size ∧ uncompressed_size ≤ r_max_uncompressed_chunk_size o ∧
  stored_size ≤ r_max_stored_chunk_size o.
Proof.
  intros Hv Hs Hu Hd. pose proof (empty_sizes _ _ _ _ Hv) as Hempty.
  assert (Hlim := Hv). unfold validate_chunk_sizes, read_if in Hlim.
  apply bind_ok in Hlim as (? & H1 & Hlim). apply bind_ok in Hlim as (? & H2 & _).
  inv_ok. bool_facts. split; [|done]. subst stored_size.
  destruct codec; cbn in Hd.
  - unfold validate_chunk_sizes, read_if in Hv. inv_ok. bool_facts. by subst.
  - unfold decompress_lz4 in Hd. destruct (size_of stored =? 0) eqn:Ez.
    { injection Hd as <-. apply Z.eqb_eq in Ez. by rewrite Hempty. }
    destruct (LZ4_decompress_safe stored uncompressed_size) as [n buf] eqn:Ed.
    unfold read_if in Hd. inv_ok. subst.
    pose proof (lz4_buffer stored uncompressed_size Hu) as Hb. by rewrite Ed in Hb.
  - unfold decompress_zstd in Hd. destruct (size_of stored =? 0) eqn:Ez.
    { injection Hd as <-. apply Z.eqb_eq in Ez. by rewrite Hempty. }
    destruct (ZSTD_decompress stored uncompressed_size) as [[n buf]|] eqn:Ed; [|done].
    unfold read_if in Hd. inv_ok. subst. by apply (zstd_buffer stored uncompressed_size n).
Qed.

(** A chunk or a terminal status; a chunk took bytes from the stream. *)
Definition result_sound (s : TraceReader) (r : ChunkReadResult) (s' : TraceReader) : Prop :=
  options_ s' = options_ s ∧
  match crr_chunk r with
  | Some c => crr_status r = Status_kChunk ∧ (held s' < held s)%nat ∧
      terminal_status_ s' = terminal_status_ s ∧ chunk_sound (options_ s) c
  | None => crr_status r ≠ Status_kChunk ∧ (held s' ≤ held s)%nat ∧
      terminal_status_ s' = Some (crr_status r)
  end.

(** The outcome of a turn of the chunk loop. *)
Definition turn_post (s : TraceReader) (r : option ChunkReadResult) (s' : TraceReader) : Prop :=
  match r with
  | None => options_ s' = options_ s ∧ (held s' < held s)%nat ∧
      terminal_status_ s' = terminal_status_ s
  | Some r => result_sound s r s'
  end.

Lemma header_field_ranges e : length e = 56%nat →
  u16 (read_u16 e 2) ∧ u16 (read_u16 e 4) ∧ u16 (read_u16 e 6) ∧ u64 (read_u64 e 16) ∧ u64 (read_u64 e 24) ∧
  u64 (read_u64 e 32) ∧ u64 (read_u64 e 40) ∧ u32 (read_u32 e 48).
Proof.
  intros He. split_and!; rewrite ?read_u16_spec, ?read_u32_spec, ?read_u64_spec by lia;
    match goal with |- _ (le_value ?bs) =>
      pose proof (le_value_u (length bs) bs eq_refl) as H;
      rewrite length_take, length_drop, He in H; exact H end.
Qed.

Lemma turn_finish status s s0 : status ≠ Status_kChunk →
  options_ s0 = options_ s → (held s0 ≤ held s)%nat →
  rwp (Some <$> finish status) s0 (turn_post s).
Proof. intros. repeat rwp_step. by split_and!. Qed.

(** The extension of a header, which the reader skips. *)
Lemma wp_extension (b : bool) size s (P : ExactReadResult → TraceReader → Prop) : 0 ≤ size →
  (∀ res s', (held s' ≤ held s)%nat → options_ s' = options_ s →
     terminal_status_ s' = terminal_status_ s → P res s') →
  rwp (if b then mret Read_kComplete
      else modify set_partially_understood ;; skip_exact size) s P.
Proof.
  intros Hsize HP. destruct b; repeat rwp_step; [by apply HP|].
  apply wp_skip_exact; [done|]. intros res s' ???. by apply HP.
Qed.

Lemma payload_chunk_sound codec stored d u st crc o payload :
  validate_chunk_sizes (Some codec) u st o = Ok tt → size_of stored = st →
  decompress_payload codec stored u = Ok payload →
  cd_codec d = codec → validate_sequence_range (sequence_begin d) (sequence_end d) = Ok tt →
  cd_version d ≠ 0 → negb (crc32c payload =? crc) = false →
  ChunkDescriptor_wt d → u64 u → u64 st → u32 crc →
  chunk_sound o {| tc_header := {| descriptor := d; uncompressed_size := u; stored_size := st;
                                   ch_crc32c := crc |}; tc_payload := payload |}.
Proof.
  intros Hsz Hst Hdec Hcodec Hrange Hver Hcrc Hd Hu Hs Hc.
  destruct (decompress_size _ _ _ _ _ _ Hsz Hst ltac:(word) Hdec) as (? & ? & ?).
  bool_facts. split; cbn; try done.
  unfold validate_sequence_range, read_if in Hrange. inv_ok.
  unfold validate_chunk_header. cbn. rewrite (proj2 (Z.eqb_neq _ _) Hver).
  unfold is_valid. by destruct (cd_type d), (cd_codec d); cbn;
    match goal with H : negb (eqb _ _) = false |- _ => rewrite H; cbn end;
    match goal with H : _ && _ = false |- _ => rewrite H end.
Qed.

(** [status_test] evaluates the test of an [ExactReadResult]. *)
Ltac status_test :=
  first [ rewrite bool_decide_true by done | rewrite bool_decide_false by done ]; cbn [negb].

Lemma wp_read_chunk_turn s : rwp read_chunk_turn s (turn_post s).
Proof.
  unfold read_chunk_turn. rwp_step. rwp_step. rwp_step.
  apply wp_read_exact. intros res e s1 Hheld1 Hopt1 Hterm1 Hres. cbn [fst snd].
  destruct res; [|by apply turn_finish..].
  destruct (Hres eq_refl) as [Hlen He]. clear Hres. change (Z.to_nat kChunkHeaderSize) with 56%nat in *.
  destruct (header_field_ranges e He) as (Hv & Hh & Hf & Hb & Hend & Hu & Hs & Hc).
  do 10 rwp_step. cbv zeta. bool_facts. rwp_step.
  apply wp_extension; [lia|]. intros ext s2 Hheld2 Hopt2 Hterm2.
  destruct ext; status_test; [|by apply turn_finish; [..|congruence|lia]..].
  destruct (parse_chunk_type (read_u16 e 0)) as [type|].
  - destruct (parse_codec (byte_at e 8)) as [codec|]; [|done].
    rwp_step. apply (rwp_mono _ _ (λ _ s3, options_ s3 = options_ s2 ∧ held s3 = held s2 ∧
      terminal_status_ s3 = terminal_status_ s2)).
    { destruct (1 <? read_u16 e 2); repeat rwp_step; done. }
    intros [] s3 (Hopt3 & Hheld3 & Hterm3). do 3 rwp_step. apply wp_read_exact.
    intros res stored s4 Hheld4 Hopt4 Hterm4 Hres. cbn [fst snd].
    destruct res; status_test; [|apply turn_finish; [done|congruence|lia]..].
    destruct (Hres eq_refl) as [_ Hstored]. repeat rwp_step.
    split; [congruence|]. cbn [crr_chunk crr_status]. split_and!; [done|lia|congruence|].
    destruct a, a0. eapply payload_chunk_sound; try eassumption; try done.
    unfold size_of. word.
  - repeat rwp_step. apply wp_skip_exact; [word|]. intros res s3 Hheld3 Hopt3 Hterm3.
    destruct res; status_test; [|apply turn_finish; [done|cbn in *; congruence|unfold held in *; cbn in *; lia]..].
    apply wp_ret. cbn in *. unfold held in *; cbn in *. split_and!; [congruence|lia|congruence].
Qed.

Lemma wp_read_chunk_loop fuel s : (held s < fuel)%nat →
  rwp (read_chunk_loop fuel) s (result_sound s).
Proof.
  revert s. induction fuel as [|fuel IH]; intros s Hfuel; [lia|].
  cbn [read_chunk_loop]. rwp_step. eapply rwp_mono; [apply wp_read_chunk_turn|].
  intros [r|] s' Hpost; [by apply wp_ret|]. destruct Hpost as (Hopt & Hheld & Hterm).
  eapply rwp_mono; [apply IH; lia|]. intros r s'' [Hopt' Hr]. split; [congruence|].
  rewrite <- Hopt. destruct (crr_chunk r); destruct_and?; split_and?; done || lia || congruence.
Qed.

Lemma wp_read_next_chunk s : terminal_status_ s ≠ Some Status_kChunk →
  rwp read_next_chunk s (result_sound s).
Proof.
  intros Hterm. unfold read_next_chunk. rwp_step. rwp_step. destruct (terminal_status_ s) eqn:E.
  - apply wp_ret. split; [done|]. cbn. rewrite E. split_and!; [congruence|lia|done].
  - apply wp_read_chunk_loop. unfold held. lia.
Qed.

Lemma wp_read_all_loop fuel s : (held s < fuel)%nat → terminal_status_ s ≠ Some Status_kChunk →
  rwp (read_all_loop fuel) s (λ r s', Forall (chunk_sound (options_ s)) r.1 ∧
    r.2 ≠ Status_kChunk ∧ terminal_status_ s' = Some r.2).
Proof.
  revert s. induction fuel as [|fuel IH]; intros s Hfuel Hterm; [lia|].
  cbn [read_all_loop]. rwp_step. eapply rwp_mono; [by apply wp_read_next_chunk|].
  intros [status [c|]] s' [Hopt Hr]; cbn in Hr; cbn [crr_chunk crr_status].
  - destruct Hr as (-> & Hheld & Hterm' & Hc). rwp_step. eapply rwp_mono; [apply IH; [lia|congruence]|].
    intros [cs st] s'' (Hcs & Hst & Hfin). apply wp_ret. cbn in *. rewrite Hopt in Hcs.
    split_and!; [by constructor|done|done].
  - destruct Hr as (? & ? & ?). apply wp_ret. by split_and!.
Qed.

(** The file header of a reader that was constructed. *)
Lemma file_header_ranges e : length e = 68%nat →
  u8 (byte_at e 15) ∧ u32 (read_u32 e 20) ∧ u32 (read_u32 e 40) ∧ u64 (read_u64 e 44) ∧
  u64 (read_u64 e 52) ∧ u64 (read_u64 e 60) ∧ u16 (read_u16 e 8).
Proof.
  intros He. split_and!; [apply byte_val_range|..];
    rewrite ?read_u16_spec, ?read_u32_spec, ?read_u64_spec by lia;
    match goal with |- _ (le_value ?bs) =>
      pose proof (le_value_u (length bs) bs eq_refl) as H;
      rewrite length_take, length_drop, He in H; exact H end.
Qed.

Lemma parse_platform_supported v p : parse_platform v = Ok p → is_supported_platform p = true.
Proof. destruct v as [|[[]|[]|]|]; try done; by intros [= <-]. Qed.
Lemma parse_architecture_supported v a :
  parse_architecture v = Ok a → is_supported_architecture a = true.
Proof. destruct v as [|[[]|[]|]|]; try done; by intros [= <-]. Qed.

Lemma wp_read_file_header s : terminal_status_ s = None →
  rwp read_file_header s (λ h s', FileHeader_valid h ∧ options_ s' = options_ s ∧
    (held s' ≤ held s)%nat ∧ terminal_status_ s' = None).
Proof.
  intros Hterm. unfold read_file_header. do 5 rwp_step.
  apply wp_read_exact. intros res e s1 Hheld1 Hopt1 Hterm1 Hres. cbn [fst snd].
  destruct res; [|done..]. destruct (Hres eq_refl) as [_ He]. clear Hres.
  change (Z.to_nat kFileHeaderSize) with 68%nat in *.
  destruct (file_header_ranges e He) as (Hw & Hfl & Hidx & Hfreq & Horig & Hutc & Hhs).
  do 11 rwp_step. apply (rwp_mono _ _ (λ _ s2, options_ s2 = options_ s1 ∧ held s2 = held s1 ∧
    terminal_status_ s2 = terminal_status_ s1)).
  { destruct (kTraceFormatMinor <? _); repeat rwp_step; done. }
  intros [] s2 (Hopt2 & Hheld2 & Hterm2). do 8 rwp_step. cbv zeta.
  match goal with |- wp (if _ then mret ?header else _) _ _ _ => set (h := header) end.
  assert (Hh : FileHeader_valid h).
  { split.
    - unfold FileHeader_wt; cbn. split_and!; try done; [|by apply signed64_i64].
      rewrite length_take, length_drop, He. done.
    - unfold validate_file_header, h. cbn [monotonic_frequency pointer_width platform architecture].
      erewrite parse_platform_supported, parse_architecture_supported by done. cbn [negb].
      repeat match goal with H : _ = false |- _ => rewrite H; clear H end. done. }
  clearbody h. repeat rwp_step.
  - split_and!; [done|congruence|lia|congruence].
  - bool_facts. apply wp_skip_exact; [lia|]. intros res s3 Hheld3 Hopt3 Hterm3.
    repeat rwp_step. cbn in *. unfold held in *. cbn in *. split_and!; [done|congruence|lia|congruence].
Qed.

End safety.
