(* ===== verification/TraceReaderTheorems.v ===== *)
(** * What a consumer of trace files may rely on

    Totality and soundness of the reader on any bytes, its terminal states, and
    the reading of a trace that was cut anywhere. *)

From S2P Require Import Prelude Bytes WireFormat Crc32c Compression RecordCursor TraceReader TraceWriter TraceFile TraceRoundTrip TraceReaderSafety.

#[local] Opaque file_header_bytes chunk_header_bytes.

(** ** Cutting a sequence of pieces *)

Lemma cut_concat {A} (ls : list (list A)) n :
  Forall (λ l, l ≠ []) ls → (n ≤ length (concat ls))%nat →
  ∃ k tail, take n (concat ls) = concat (take k ls) ++ tail ∧
    (length (concat (take k ls)) + length tail = n)%nat ∧
    (tail = [] ∨ ∃ l rest, ls !! k = Some l ∧ rest ≠ [] ∧ l = tail ++ rest).
Proof.
  revert n. induction ls as [|l ls IH]; intros n Hne Hn; cbn in Hn.
  - exists 0%nat, []. replace n with 0%nat by lia. cbn. auto.
  - apply Forall_cons in Hne as [Hl Hne]. rewrite length_app in Hn.
    destruct (decide (n < length l)%nat) as [Hlt|Hge].
    + exists 0%nat, (take n l). cbn. rewrite take_app_le, length_take by lia.
      split_and!; [done|lia|]. right. exists l, (drop n l). rewrite take_drop. split_and!; try done.
      intros E%(f_equal length). rewrite length_drop in E. cbn in E. lia.
    + destruct (IH (n - length l)%nat Hne ltac:(lia)) as (k & tail & Htake & Hlen & Htail).
      exists (S k), tail. cbn. rewrite take_app_ge, Htake, length_app, app_assoc by lia.
      split_and!; [done|lia|done].
Qed.

Section theorems.
Context {L : CompressionLibrary}.

Lemma chunk_bytes_nonempty c : chunk_bytes c ≠ [].
Proof.
  intros E%(f_equal length). unfold chunk_bytes in E.
  by rewrite length_app, length_chunk_header in E.
Qed.

(** A trace cut after [n] bytes is a trace with the chunks that fit and a torn
    tail. *)
Lemma cut_trace o cs n : Forall (readable o) cs → (n ≤ length (concat (chunk_bytes <$> cs)))%nat →
  ∃ k tail, take n (concat (chunk_bytes <$> cs)) = concat (chunk_bytes <$> take k cs) ++ tail ∧
    (length (concat (chunk_bytes <$> take k cs)) + length tail = n)%nat ∧ torn o tail ∧
    (∀ c, cs !! k = Some c → (length tail < length (chunk_bytes c))%nat).
Proof.
  intros Hcs Hn. assert (Hne : Forall (λ l, l ≠ []) (chunk_bytes <$> cs)).
  { apply Forall_fmap, Forall_true. intros c. apply chunk_bytes_nonempty. }
  destruct (cut_concat _ n Hne Hn) as (k & tail & Htake & Hlen & Htail).
  exists k, tail. rewrite fmap_take. split_and!; [done|done|..].
  - destruct Htail as [->|(l & rest & Hk & Hrest & Hl)]; [by left|]. right.
    rewrite list_lookup_fmap in Hk. destruct (cs !! k) as [c|] eqn:Ec; [|done]. injection Hk as <-.
    exists c, rest. split_and!; [|done|done]. eapply Forall_lookup_1; eauto.
  - intros c Hc. destruct Htail as [->|(l & rest & Hk & Hrest & Hl)].
    + pose proof (chunk_bytes_nonempty c). destruct (chunk_bytes c); cbn; [done|lia].
    + rewrite list_lookup_fmap, Hc in Hk. injection Hk as <-. rewrite Hl, length_app.
      destruct rest; cbn; [done|lia].
Qed.

Lemma read_header_short o input : validate_options o = Ok tt → (length input < 68)%nat →
  read_trace {| in_bytes := input; in_end := End_eof |} o =
  Throw (Thrown (Exn TraceReadError "trace file header is truncated")).
Proof.
  intros Ho Hlen. unfold read_trace, TraceReader_new, read_file_header.
  erewrite proc_bind_run by done. cbn [new_reader options_]. rewrite Ho.
  erewrite proc_bind_run by done. erewrite proc_bind_run.
  2:{ apply read_exact_short; [exact Hlen|done| |done].
      split; cbn; [done|]. unfold size_of. word. }
  cbn. by destruct input.
Qed.

(** C7: A cut trace.  A trace of readable chunks cut after any number of bytes is
    read as the chunks that lie completely before the cut, never as other
    chunks; the reader reports the end of the file exactly when the cut falls
    between two chunks, and otherwise that the last chunk is truncated.  Only a
    cut inside the file header leaves nothing to read. *)
Theorem cut_trace_reads_prefix (o : TraceReaderOptions) (h : FileHeader) (cs : list stored_chunk)
    (n : nat) :
  FileHeader_valid h → validate_options o = Ok tt → Forall (readable o) cs →
  let file := file_header_bytes h ++ concat (chunk_bytes <$> cs) in
  let read := read_trace {| in_bytes := take n file; in_end := End_eof |} o in
  size_of file ≤ u64_max → (n ≤ length file)%nat →
  if (n <? 68)%nat then
    read = Throw (Thrown (Exn TraceReadError "trace file header is truncated"))
  else ∃ k status,
    read = Ok (h, trace_chunk <$> take k cs, status) ∧
    let complete := length (file_header_bytes h ++ concat (chunk_bytes <$> take k cs)) in
    (complete ≤ n)%nat ∧
    (∀ c, cs !! k = Some c → (n < complete + length (chunk_bytes c))%nat) ∧
    status = (if (n =? complete)%nat then Status_kEndOfFile else Status_kTruncated).
Proof.
  intros Hh Ho Hcs file read Hsize Hn. unfold read, file in *. clear read file.
  pose proof Hh as [(_ & _ & Hs & _) _]. pose proof (length_file_header h Hs) as Hlen.
  destruct (Nat.ltb_spec n 68) as [Hlt|Hge].
  { apply read_header_short; [done|]. rewrite length_take. lia. }
  rewrite length_app, Hlen in Hn.
  destruct (cut_trace o cs (n - 68) Hcs ltac:(lia)) as (k & tail & Htake & Hk & Htorn & Hnext).
  rewrite take_app_ge, Hlen, Htake by (rewrite Hlen; lia).
  exists k, (end_status tail). cbv zeta. rewrite length_app, Hlen. split_and!.
  - apply read_trace_run; [done|done|by apply Forall_take|done|].
    rewrite <- Htake. revert Hsize. rewrite !size_of_app. unfold size_of. rewrite length_take. lia.
  - lia.
  - intros c Hc. apply Hnext in Hc. lia.
  - destruct tail; cbn in *; [rewrite (proj2 (Nat.eqb_eq _ _))|rewrite (proj2 (Nat.eqb_neq _ _))];
      done || lia.
Qed.

Context {Laws : CompressionLaws L}.

(** C6: The reader on arbitrary input.  On any bytes, however the stream ends and
    whatever its options, the reader comes to an end: its loops terminate.  Its
    only exception is [TraceReadError]; otherwise it returned a valid file header
    and chunks that are all within the configured limits, with valid headers,
    payloads of exactly the declared size and matching checksums. *)
Theorem read_trace_total (input : istream) (o : TraceReaderOptions) :
  match read_trace input o with
  | Throw OutOfFuel => False
  | Throw (Thrown e) => exn_kind e = TraceReadError
  | Ok (header, chunks, status) =>
      FileHeader_valid header ∧ Forall (chunk_sound o) chunks ∧ status ≠ Status_kChunk
  end.
Proof.
  unfold read_trace, TraceReader_new.
  pose proof (wp_read_file_header (new_reader input o) eq_refl) as Hh. unfold wp in Hh.
  destruct (read_file_header _) as [[h|[]] r]; [|done..].
  destruct Hh as (Hvalid & Hopt & Hheld & Hterm).
  pose proof (wp_read_all_loop (S (length (in_bytes input))) r) as Hloop. unfold wp in Hloop.
  rewrite Hterm in Hloop. cbn [options_ new_reader] in *. rewrite Hopt in Hloop.
  destruct (read_all_loop _ r) as [[[cs status]|[]] r'];
    (assert (held r < S (length (in_bytes input)))%nat by (revert Hheld; unfold held; cbn; lia));
    specialize (Hloop ltac:(done) ltac:(done)); naive_solver.
Qed.

(** A terminal status is final.  Once a call reports the end of the file or a
    truncated chunk, every later call reports the same and touches nothing. *)
Theorem terminal_status_final (r r' : TraceReader) (result : ChunkReadResult) :
  terminal_status_ r ≠ Some Status_kChunk →
  read_next_chunk r = (Ok result, r') → crr_status result ≠ Status_kChunk →
  result = {| crr_status := crr_status result; crr_chunk := None |} ∧
  read_next_chunk r' = (Ok result, r').
Proof.
  intros Hterm Hread Hst. pose proof (wp_read_next_chunk r Hterm) as Hwp.
  unfold wp in Hwp. rewrite Hread in Hwp. destruct Hwp as [_ Hwp].
  destruct result as [status [c|]]; cbn in *; [by destruct Hwp|].
  destruct Hwp as (_ & _ & Hfinal). split; [done|]. unfold read_next_chunk.
  erewrite proc_bind_run by done. by rewrite Hfinal.
Qed.

End theorems.

(** ** Concrete traces

    A small trace file, written to streams with and without room for it and read
    back: the hypotheses of the theorems on traces hold together. *)

#[local] Existing Instances stored_library.

Definition example_header : FileHeader := {|
  pointer_width := 8; platform := Platform_kLinux; architecture := Architecture_kX64;
  fh_flags := 0; session_id := replicate 16 x2a; file_index := 0;
  monotonic_frequency := 1000000000; monotonic_origin := 77; utc_origin_ns := -5;
|}.

Definition example_descriptor (type : ChunkType) (codec : CompressionCodec) : ChunkDescriptor := {|
  cd_type := type; cd_version := 1; cd_flags := 0; cd_codec := codec;
  sequence_begin := 1; sequence_end := 4;
|}.

(** A stream with the given room. *)
Definition example_stream (room : option nat) : ostream := {|
  out_bytes := []; out_room := room; out_errno := 28; out_flush_fails := false; out_good := true;
|}.

Definition example_payload : bytes := [x01; x02; x03; xff; x00; x80].

Definition example_ops : list writer_op :=
  [ Op_write (example_descriptor Chunk_kMetadata Codec_kNone) example_payload;
    Op_flush;
    Op_write (example_descriptor Chunk_kEvent Codec_kLz4) (example_payload ++ example_payload);
    Op_release;
    Op_write (example_descriptor Chunk_kEnd Codec_kZstd) [x07] ].

Definition example_writer (room : option nat) : TraceWriter :=
  match (TraceWriter_new (example_stream room) example_header default_writer_options).1 with
  | Ok w => w
  | Throw _ => new_writer (example_stream room) default_writer_options
  end.

Definition example_chunk (type : ChunkType) (codec : CompressionCodec) (payload : bytes)
    : stored_chunk :=
  make_chunk (example_descriptor type codec) payload payload.

Definition example_chunks : list stored_chunk :=
  [ example_chunk Chunk_kMetadata Codec_kNone example_payload;
    example_chunk Chunk_kEvent Codec_kLz4 (example_payload ++ example_payload);
    example_chunk Chunk_kEnd Codec_kZstd [x07] ].

Definition example_file : bytes :=
  file_header_bytes example_header ++ concat (chunk_bytes <$> example_chunks).

Lemma default_compatible : compatible default_reader_options default_writer_options.
Proof. by split. Qed.

Lemma example_descriptor_wt t c : ChunkDescriptor_wt (example_descriptor t c).
Proof. by repeat split. Qed.

Lemma example_ops_ok : Forall (op_ok (ratio_allowed default_reader_options 1)) example_ops.
Proof.
  assert (H : ∀ t c p, size_of p ≤ 100 → p ≠ [] → compress_payload c p 1 = Ok p →
    op_ok (ratio_allowed default_reader_options 1) (Op_write (example_descriptor t c) p)).
  { intros t c p Hp Hne Hc. split; [apply example_descriptor_wt|]. intros stored Hs.
    change (compress_payload c p 1 = Ok stored) in Hs. rewrite Hc in Hs. injection Hs as <-. right; right; right. cbn. pose proof (size_of_nonneg p). lia. }
  repeat apply Forall_cons_2; [by apply H|done|by apply H|done|by apply H|apply Forall_nil_2].
Qed.

Lemma example_header_wt : FileHeader_wt example_header.
Proof. by repeat split. Qed.

Lemma trace_crash_consistent_witness :
  let run := writer_run (example_writer (Some 150%nat)) example_ops in
  ∃ status,
    read_trace {| in_bytes := out_bytes (output_ run.2); in_end := End_eof |}
      default_reader_options =
      Ok (example_header, trace_chunk <$> accepted_chunks 1 example_ops run.1, status) ∧
    status ≠ Status_kChunk ∧ (out_good (output_ run.2) = true → status = Status_kEndOfFile).
Proof.
  intros run.
  refine (trace_crash_consistent default_reader_options default_writer_options example_header
    (example_stream (Some 150%nat)) example_ops (example_writer (Some 150%nat)) run.2 run.1
    default_compatible example_header_wt eq_refl _ example_ops_ok _).
  - vm_compute. reflexivity.
  - apply surjective_pairing.
Defined.

(** The stream of that run failed in its second chunk. *)
Example example_run_torn :
  let run := writer_run (example_writer (Some 150%nat)) example_ops in
  out_good (output_ run.2) = false ∧
  trace_chunk <$> accepted_chunks 1 example_ops run.1 = trace_chunk <$> take 1 example_chunks.
Proof. vm_compute. done. Qed.

Lemma trace_writer_accounting_witness :
  let run := writer_run (example_writer None) example_ops in
  let cs := accepted_chunks 1 example_ops run.1 in
  size_of (out_bytes (output_ run.2)) ≤ max_file_size default_writer_options ∧
  bytes_written_ run.2 = size_of (file_header_bytes example_header ++ concat (chunk_bytes <$> cs)) ∧
  bytes_written_ run.2 ≤
    max_file_size default_writer_options - reserved_tail_size (tw_options_ run.2) ∧
  remaining_bytes run.2 = max_file_size default_writer_options -
    reserved_tail_size (tw_options_ run.2) - bytes_written_ run.2 ∧
  uncompressed_payload_bytes_written_ run.2 = foldr (λ c acc, size_of (sc_payload c) + acc) 0 cs ∧
  stored_payload_bytes_written_ run.2 = foldr (λ c acc, size_of (sc_stored c) + acc) 0 cs.
Proof.
  intros run.
  refine (trace_writer_accounting default_writer_options example_header
    (example_stream None) example_ops (example_writer None) run.2 run.1
    (compatible_wt _ _ default_compatible) (compatible_stream _ _ default_compatible)
    example_header_wt eq_refl _ _ _).
  - vm_compute. reflexivity.
  - eapply Forall_impl; [apply example_ops_ok|]. by intros []; cbn; [intros [??]|..].
  - apply surjective_pairing.
Defined.

Lemma example_chunk_readable t c p : size_of p ≤ 100 → p ≠ [] →
  compress_payload c p 1 = Ok p →
  readable default_reader_options (example_chunk t c p).
Proof.
  intros Hp Hne Hc. pose proof (size_of_nonneg p).
  apply (writable_readable _ default_writer_options); try apply default_compatible.
  - right; right; right. cbn. lia.
  - split; cbn; try done; [by destruct t, c|unfold streamsize_max; lia].
Qed.

Lemma example_chunks_readable : Forall (readable default_reader_options) example_chunks.
Proof. repeat apply Forall_cons_2; [by apply example_chunk_readable..|apply Forall_nil_2]. Qed.

Lemma cut_trace_reads_prefix_witness :
  ∃ k status,
    read_trace {| in_bytes := take 150 example_file; in_end := End_eof |} default_reader_options =
      Ok (example_header, trace_chunk <$> take k example_chunks, status) ∧
    let complete := length (file_header_bytes example_header ++
                            concat (chunk_bytes <$> take k example_chunks)) in
    (complete ≤ 150)%nat ∧
    (∀ c, example_chunks !! k = Some c → (150 < complete + length (chunk_bytes c))%nat) ∧
    status = (if (150 =? complete)%nat then Status_kEndOfFile else Status_kTruncated).
Proof.
  refine (cut_trace_reads_prefix default_reader_options example_header example_chunks 150
    (conj example_header_wt eq_refl) eq_refl example_chunks_readable _ _).
  - vm_compute. discriminate.
  - apply Nat.leb_le. vm_compute. reflexivity.
Defined.

Definition corrupt_input : istream :=
  {| in_bytes := take 150 example_file ++ example_file; in_end := End_bad |}.

Lemma read_trace_total_witness :
  match read_trace corrupt_input default_reader_options with
  | Throw OutOfFuel => False
  | Throw (Thrown e) => exn_kind e = TraceReadError
  | Ok (header, chunks, status) =>
      FileHeader_valid header ∧ Forall (chunk_sound default_reader_options) chunks ∧
      status ≠ Status_kChunk
  end.
Proof. exact (@read_trace_total stored_library stored_laws corrupt_input default_reader_options). Defined.

Definition example_reader : TraceReader :=
  new_reader {| in_bytes := [x01; x02]; in_end := End_eof |} default_reader_options.

Lemma terminal_status_final_witness :
  let truncated := {| crr_status := Status_kTruncated; crr_chunk := None |} in
  let r' := (read_next_chunk example_reader).2 in
  truncated = {| crr_status := Status_kTruncated; crr_chunk := None |} ∧
  read_next_chunk r' = (Ok truncated, r').
Proof.
  intros truncated r'. refine (terminal_status_final example_reader r' truncated _ _ _).
  - discriminate.
  - vm_compute. reflexivity.
  - discriminate.
Defined.
