(* ===== verification/OrderedMap.v ===== *)
(** * Ordered maps

    [std::map<std::uint64_t, V>] as its elements in key order.  An iterator is
    the key it stands at, or [None] for [end()]; it stays valid while other
    elements come and go, as the container promises. *)

From S2P Require Import Prelude.

Abbreviation ordered_map V := (list (Z * V)).

Definition iterator : Type := option Z.

Section operations.
Context {V : Type}.
Implicit Types (m : ordered_map V) (k : Z) (v : V) (it : iterator).

Definition keys (m : ordered_map V) : list Z := m.*1.

Definition begin (m : ordered_map V) : iterator := head (keys m).

Fixpoint om_find (k : Z) (m : ordered_map V) : option V :=
  match m with
  | [] => None
  | (k', v) :: m => if k' =? k then Some v else om_find k m
  end.

(** The first element with a key after [k]. *)
Fixpoint upper_bound (k : Z) (m : ordered_map V) : iterator :=
  match m with
  | [] => None
  | (k', _) :: m => if k <? k' then Some k' else upper_bound k m
  end.

(** [std::next] and [std::prev]. *)
Definition om_next (it : iterator) (m : ordered_map V) : iterator :=
  match it with Some k => upper_bound k m | None => None end.
Definition om_prev (it : iterator) (m : ordered_map V) : iterator :=
  match it with
  | Some k => last (filter (λ k', k' < k) (keys m))
  | None => last (keys m)
  end.

(** [emplace(k, v)], which leaves an existing element alone. *)
Fixpoint emplace (k : Z) (v : V) (m : ordered_map V) : ordered_map V :=
  match m with
  | [] => [(k, v)]
  | (k', v') :: m' =>
      if k <? k' then (k, v) :: m
      else if k =? k' then m
      else (k', v') :: emplace k v m'
  end.

Definition erase (k : Z) (m : ordered_map V) : ordered_map V :=
  filter (λ x, x.1 ≠ k) m.

(** The first key that is not smaller. *)
Fixpoint lower_bound (k : Z) (m : ordered_map V) : iterator :=
  match m with
  | [] => None
  | (k', _) :: m => if k <=? k' then Some k' else lower_bound k m
  end.

(** [it->second = v] *)
Definition assign (k : Z) (v : V) (m : ordered_map V) : ordered_map V :=
  (λ x, if x.1 =? k then (k, v) else x) <$> m.

End operations.

#[global] Arguments erase : simpl never.
#[global] Arguments assign : simpl never.

(** ** Maps in key order *)

Section lemmas.
Context {V : Type}.
Implicit Types (m p q : ordered_map V) (k : Z) (v : V).

Definition sorted_keys (m : ordered_map V) : Prop := StronglySorted Z.lt (keys m).

Definition below (k : Z) (m : ordered_map V) : Prop := Forall (λ x, x.1 < k) m.
Definition above (k : Z) (m : ordered_map V) : Prop := Forall (λ x, k < x.1) m.

Lemma sorted_keys_app m m' : sorted_keys (m ++ m') ↔
  sorted_keys m ∧ sorted_keys m' ∧ (∀ x y, x ∈ m → y ∈ m' → x.1 < y.1).
Proof.
  unfold sorted_keys, keys. rewrite fmap_app. split.
  - intros H. split_and!.
    + by eapply StronglySorted_app_1_l.
    + by eapply StronglySorted_app_1_r.
    + intros x y Hx Hy. eapply StronglySorted_app_1_elem_of; [done|..]; by apply list_elem_of_fmap_2.
  - intros (? & ? & Hxy). apply StronglySorted_app_2; [|done|done].
    intros ? ? (x & -> & Hx)%list_elem_of_fmap (y & -> & Hy)%list_elem_of_fmap. auto.
Qed.

Lemma sorted_keys_cons' x m : sorted_keys (x :: m) ↔ above x.1 m ∧ sorted_keys m.
Proof.
  unfold sorted_keys, above, keys. cbn. split.
  - intros [H1 H2]%StronglySorted_inv. rewrite Forall_fmap in H2. done.
  - intros [H1 H2]. constructor; [done|]. by rewrite Forall_fmap.
Qed.

Lemma sorted_keys_cons k v m : sorted_keys ((k, v) :: m) ↔ above k m ∧ sorted_keys m.
Proof. apply sorted_keys_cons'. Qed.

Lemma sorted_keys_mid p k v q : sorted_keys (p ++ (k, v) :: q) →
  below k p ∧ above k q ∧ sorted_keys (p ++ q).
Proof.
  rewrite !sorted_keys_app, sorted_keys_cons. intros (Hp & [Hk Hq] & Hpq). split_and!; try done.
  - apply Forall_forall. intros x Hx. apply (Hpq x (k, v) Hx). by left.
  - intros x y Hx Hy. apply Hpq; [done|by right].
Qed.

Lemma upper_bound_app k p q : Forall (λ x, x.1 ≤ k) p → upper_bound k (p ++ q) = upper_bound k q.
Proof.
  induction p as [|[k' v] p IH]; [done|]. intros [Hk Hp]%Forall_cons. cbn in *.
  rewrite (proj2 (Z.ltb_ge _ _)) by done. auto.
Qed.

Lemma upper_bound_above k q : above k q → upper_bound k q = begin q.
Proof.
  destruct q as [|[k' v] q]; [done|]. intros [Hk _]%Forall_cons. cbn in *.
  by rewrite (proj2 (Z.ltb_lt _ _)).
Qed.

Lemma below_le k p : below k p → Forall (λ x, x.1 ≤ k) p.
Proof. intros H. eapply Forall_impl; [exact H|]. cbn. lia. Qed.

Lemma om_next_mid p k v q : sorted_keys (p ++ (k, v) :: q) →
  om_next (Some k) (p ++ (k, v) :: q) = begin q.
Proof.
  intros (Hp & Hq & _)%sorted_keys_mid. cbn.
  rewrite upper_bound_app by by apply below_le. cbn.
  rewrite Z.ltb_irrefl. by apply upper_bound_above.
Qed.

Lemma keys_app p q : keys (p ++ q) = keys p ++ keys q.
Proof. apply fmap_app. Qed.

Lemma filter_all {A} (P : A → Prop) `{∀ x, Decision (P x)} (l : list A) : Forall P l → filter P l = l.
Proof. induction 1; [done|]. rewrite filter_cons_True by done. by f_equal. Qed.
Lemma filter_none {A} (P : A → Prop) `{∀ x, Decision (P x)} (l : list A) :
  Forall (λ x, ¬ P x) l → filter P l = [].
Proof. induction 1; [done|]. by rewrite filter_cons_False. Qed.

Lemma om_prev_mid p x q : sorted_keys (p ++ x :: q) → om_prev (begin q) (p ++ x :: q) = Some x.1.
Proof.
  destruct x as [k v]. intros Hm. change (p ++ (k, v) :: q) with (p ++ [(k, v)] ++ q) in *.
  rewrite app_assoc in *.
  destruct q as [|[k' v'] q]; cbn [begin head keys fmap list_fmap om_prev fst].
  - rewrite app_nil_r, keys_app. cbn. by rewrite last_snoc.
  - apply sorted_keys_mid in Hm as (Hp & Hq & _). rewrite keys_app, filter_app.
    rewrite (filter_all _ (keys (p ++ [(k, v)]))) by by unfold keys; rewrite Forall_fmap.
    rewrite (filter_none _ (keys ((k', v') :: q))).
    + rewrite app_nil_r, keys_app. cbn. by rewrite last_snoc.
    + unfold keys. rewrite Forall_fmap. constructor; cbn; [lia|].
      eapply Forall_impl; [exact Hq|]. cbn. lia.
Qed.

Lemma begin_app_ne p x q : sorted_keys (p ++ x :: q) → begin q ≠ begin (p ++ x :: q).
Proof.
  intros Hm. destruct q as [|y q]; [by destruct p|]. intros Heq.
  apply sorted_keys_app in Hm as (_ & [Hx _]%sorted_keys_cons' & Hp).
  destruct p as [|z p]; cbn in Heq; injection Heq as Heq.
  - apply Forall_cons in Hx as [Hxy _]. lia.
  - assert (z.1 < y.1) by (apply Hp; set_solver). lia.
Qed.

Lemma erase_mid p k v q : sorted_keys (p ++ (k, v) :: q) → erase k (p ++ (k, v) :: q) = p ++ q.
Proof.
  intros (Hp & Hq & _)%sorted_keys_mid. unfold erase.
  rewrite filter_app, filter_cons_False by (cbn; auto).
  rewrite !filter_all; [done|..]; eapply Forall_impl; try done; cbn; lia.
Qed.

Lemma erase_absent k m : om_find k m = None → erase k m = m.
Proof.
  intros H. apply filter_all. induction m as [|[k' v] m IH]; [constructor|].
  cbn in H. destruct (Z.eqb_spec k' k); [done|]. constructor; auto.
Qed.

Lemma assign_mid p k v v' q : sorted_keys (p ++ (k, v) :: q) →
  assign k v' (p ++ (k, v) :: q) = p ++ (k, v') :: q.
Proof.
  intros (Hp & Hq & _)%sorted_keys_mid. unfold assign.
  rewrite fmap_app, fmap_cons. cbn. rewrite Z.eqb_refl.
  assert (Hid : ∀ l : ordered_map V, Forall (λ x, x.1 ≠ k) l →
    (λ x, if x.1 =? k then (k, v') else x) <$> l = l).
  { induction 1 as [|x l Hx _ IH]; [done|]. cbn.
    by rewrite IH, (proj2 (Z.eqb_neq _ _)). }
  rewrite !Hid; [done|..]; eapply Forall_impl; try done; cbn; lia.
Qed.

Lemma emplace_mid k v p q : below k p → above k q → emplace k v (p ++ q) = p ++ (k, v) :: q.
Proof.
  intros Hp Hq. induction Hp as [|[k' v'] p Hk _ IH]; cbn in *.
  - destruct Hq as [|[k' v'] q Hk Hq]; [done|]. cbn in *. by rewrite (proj2 (Z.ltb_lt _ _)).
  - rewrite (proj2 (Z.ltb_ge _ _)), (proj2 (Z.eqb_neq _ _)), IH by lia. done.
Qed.

Lemma om_find_above k m : above k m → om_find k m = None.
Proof.
  induction 1 as [|[k' v] m Hk _ IH]; [done|]. cbn in *. by rewrite (proj2 (Z.eqb_neq _ _)) by lia.
Qed.

Lemma om_find_below k p q : below k p → om_find k (p ++ q) = om_find k q.
Proof.
  induction 1 as [|[k' v] p Hk _ IH]; [done|]. cbn in *.
  by rewrite (proj2 (Z.eqb_neq _ _)) by lia.
Qed.

Lemma om_find_mid p k v q : sorted_keys (p ++ (k, v) :: q) → om_find k (p ++ (k, v) :: q) = Some v.
Proof.
  intros (Hp & _)%sorted_keys_mid. rewrite om_find_below by done. cbn. by rewrite Z.eqb_refl.
Qed.

Lemma om_find_split k v m : om_find k m = Some v → ∃ p q, m = p ++ (k, v) :: q.
Proof.
  induction m as [|[k' v'] m IH]; [done|]. cbn. destruct (Z.eqb_spec k' k) as [->|].
  - intros [= ->]. by exists [], m.
  - intros (p & q & ->)%IH. by exists ((k', v') :: p), q.
Qed.

Lemma om_find_elem k v m : om_find k m = Some v → (k, v) ∈ m.
Proof. intros (p & q & ->)%om_find_split. set_solver. Qed.

Lemma sorted_split m (P : Z → bool) :
  (∀ k k', k ≤ k' → P k' = true → P k = true) → sorted_keys m →
  ∃ p q, m = p ++ q ∧ Forall (λ x, P x.1 = true) p ∧ Forall (λ x, P x.1 = false) q.
Proof.
  intros HP. induction m as [|[k v] m IH]; [by exists [], []|].
  rewrite sorted_keys_cons. intros [Hk (p & q & -> & Hp & Hq)%IH].
  destruct (P k) eqn:E; [exists ((k, v) :: p), q; by auto|].
  exists [], ((k, v) :: p ++ q). split_and!; [done|done|].
  constructor; [done|]. eapply Forall_impl; [done|]. intros [k' v'] Hlt. cbn in *.
  destruct (P k') eqn:E'; [|done]. rewrite <- E. symmetry. apply (HP k k'); [lia|done].
Qed.

(** Erasing, emplacing and assigning keep the keys in order. *)
Lemma sorted_erase k m : sorted_keys m → sorted_keys (erase k m).
Proof.
  intros Hm. destruct (om_find k m) eqn:E; [|by rewrite erase_absent].
  apply om_find_split in E as (p & q & ->). rewrite erase_mid by done.
  by apply sorted_keys_mid in Hm as (_ & _ & ?).
Qed.

Lemma emplace_split k v m : sorted_keys m → om_find k m = None →
  ∃ p q, m = p ++ q ∧ below k p ∧ above k q ∧ emplace k v m = p ++ (k, v) :: q.
Proof.
  intros Hm Hk. destruct (sorted_split m (λ k', k' <? k)) as (p & q & -> & Hp & Hq); [|done|].
  { intros ??? ?%Z.ltb_lt. apply Z.ltb_lt. lia. }
  assert (Hbelow : below k p) by (eapply Forall_impl; [done|]; cbn; intros ? ?%Z.ltb_lt; done).
  rewrite om_find_below in Hk by done.
  assert (Habove : above k q).
  { apply Forall_forall. intros [k' v'] Hx. rewrite Forall_forall in Hq.
    specialize (Hq _ Hx). cbn in *. apply Z.ltb_ge in Hq.
    destruct (decide (k' = k)) as [->|]; [|lia]. exfalso.
    clear -Hk Hx. induction q as [|[k1 v1] q IH]; [by apply elem_of_nil in Hx|].
    cbn in Hk. destruct (Z.eqb_spec k1 k); [done|].
    apply elem_of_cons in Hx as [[= -> ->]|Hx]; auto. }
  exists p, q. split_and!; try done. by apply emplace_mid.
Qed.

Lemma sorted_mid p k v q : sorted_keys (p ++ q) → below k p → above k q →
  sorted_keys (p ++ (k, v) :: q).
Proof.
  intros (Hp & Hq & Hpq)%sorted_keys_app Hbelow Habove.
  apply sorted_keys_app. split_and!; [done|by apply sorted_keys_cons|].
  intros x y Hx [->|Hy]%elem_of_cons; [|by apply Hpq].
  exact (proj1 (Forall_forall _ _) Hbelow x Hx).
Qed.

Lemma sorted_emplace k v m : sorted_keys m → om_find k m = None → sorted_keys (emplace k v m).
Proof.
  intros Hm Hk. destruct (emplace_split k v m Hm Hk) as (p & q & -> & ? & ? & ->).
  by apply sorted_mid.
Qed.

Lemma om_find_emplace k k' v m : sorted_keys m → om_find k m = None →
  om_find k' (emplace k v m) = if decide (k = k') then Some v else om_find k' m.
Proof.
  intros Hm Hk. destruct (emplace_split k v m Hm Hk) as (p & q & -> & Hp & Hq & ->).
  case_decide as E.
  - subst. rewrite om_find_below by done. cbn. by rewrite Z.eqb_refl.
  - clear -E. induction p as [|[k1 v1] p IH]; cbn.
    + by rewrite (proj2 (Z.eqb_neq _ _)).
    + case_match; [done|]. apply IH.
Qed.

Lemma om_find_erase k k' m :
  om_find k' (erase k m) = if decide (k = k') then None else om_find k' m.
Proof.
  unfold erase. induction m as [|[k1 v1] m IH]; [by case_decide|].
  rewrite filter_cons. cbn [om_find fst]. destruct (decide (k1 ≠ k)) as [E|E]; cbn [om_find]; rewrite IH.
  - destruct (Z.eqb_spec k1 k'); [|done]. subst. by rewrite decide_False by congruence.
  - assert (k1 = k) as -> by (destruct (decide (k1 = k)); [done|by destruct E]).
    case_decide; [done|]. by rewrite (proj2 (Z.eqb_neq _ _)).
Qed.

Lemma om_find_assign k k' v m :
  om_find k' (assign k v m) = if decide (k = k') then (λ _, v) <$> om_find k' m else om_find k' m.
Proof.
  unfold assign. induction m as [|[k1 v1] m IH]; [by case_decide|]. cbn.
  destruct (Z.eqb_spec k1 k) as [->|Hne]; cbn.
  - destruct (Z.eqb_spec k k') as [->|]; [by rewrite decide_True|].
    rewrite IH. by rewrite !decide_False.
  - destruct (Z.eqb_spec k1 k') as [->|]; [by rewrite decide_False by congruence|done].
Qed.

Lemma keys_assign k v m : keys (assign k v m) = keys m.
Proof.
  unfold keys, assign. rewrite <- list_fmap_compose. apply list_fmap_ext.
  intros i [k1 v1] _. cbn. by destruct (Z.eqb_spec k1 k) as [->|].
Qed.

Lemma sorted_assign k v m : sorted_keys m → sorted_keys (assign k v m).
Proof. unfold sorted_keys. by rewrite keys_assign. Qed.

Lemma elem_find k v m : sorted_keys m → (k, v) ∈ m → om_find k m = Some v.
Proof. intros Hm (p & q & ->)%list_elem_of_split. by apply om_find_mid. Qed.
Lemma assign_same k v m : sorted_keys m → om_find k m = Some v → assign k v m = m.
Proof. intros Hm (p & q & ->)%om_find_split. by rewrite assign_mid. Qed.

Lemma assign_assign k v v' m : assign k v (assign k v' m) = assign k v m.
Proof.
  unfold assign. rewrite <- list_fmap_compose. apply list_fmap_ext. intros i [k1 v1] _. cbn.
  destruct (k1 =? k) eqn:E; cbn; [by rewrite Z.eqb_refl|by rewrite E].
Qed.

Lemma erase_assign k v m : erase k (assign k v m) = erase k m.
Proof.
  unfold erase, assign. induction m as [|[k1 v1] m IH]; [done|]. cbn [fmap list_fmap].
  rewrite !filter_cons, IH. cbn. destruct (Z.eqb_spec k1 k) as [->|Hne]; cbn.
  - by rewrite !decide_False by (intros H; by apply H).
  - by rewrite !decide_True.
Qed.

End lemmas.
