(* ===== verification/IntervalSet.v ===== *)
(** * Interval sets

    [IntervalSet<T>] of src/include/noleax/trace/interval_set.hpp: pairwise disjoint
    half-open intervals [begin, end) with a value, which the Linux agent's trace
    writer and the analyzer both use for the live parts of virtual mappings.

    The operations walk the ordered map with iterators, as the source does.  They
    are proved to compute, interval by interval, what [clip] and [outside] say of
    a single interval, and to implement a partial map from addresses to values. *)

From S2P Require Import Prelude OrderedMap.

(** ** Data and operations *)

Record Fragment (T : Type) : Type := Frag { f_begin : Z; f_end : Z; f_value : T }.
Arguments Frag {T} _ _ _.
Arguments f_begin {T} _.
Arguments f_end {T} _.
Arguments f_value {T} _.

(** [std::map<std::uint64_t, std::pair<std::uint64_t, T>>]: begin to end and value. *)
Abbreviation IntervalSet T := (ordered_map (Z * T)).

Section operations.
Context {T : Type}.
Implicit Types (m : IntervalSet T) (it : iterator) (b e point : Z).

Definition empty_set m : bool := match m with [] => true | _ => false end.
Definition set_size m : nat := length m.

Definition total_bytes m : Z :=
  foldl (λ total x, wrap64 (total + wrap64 (x.2.1 - x.1))) 0 m.

Definition fragment_at (x : Z * (Z * T)) : Fragment T := Frag x.1 x.2.1 x.2.2.

Definition fragments m : list (Fragment T) := fragment_at <$> m.

(** The element an iterator stands at. *)
Definition deref it m : option (Z * (Z * T)) :=
  match it with Some k => (λ v, (k, v)) <$> om_find k m | None => None end.

Definition reaches_past point it m : bool :=
  match deref it m with Some (_, (e, _)) => point <? e | None => false end.

Definition candidate point m : iterator :=
  let it := upper_bound point m in
  if bool_decide (it = begin m) then None else
  let it := om_prev it m in
  if reaches_past point it m then it else None.

Definition range_start b m : iterator :=
  let it := upper_bound b m in
  if negb (bool_decide (it = begin m)) && reaches_past b (om_prev it m) m then om_prev it m
  else it.

Definition find point m : option (Fragment T) := fragment_at <$> deref (candidate point m) m.

(** The part of [begin, end) an interval covers. *)
Definition clip b e (x : Z * (Z * T)) : option (Fragment T) :=
  let clip_begin := if x.1 <? b then b else x.1 in
  let clip_end := if x.2.1 <? e then x.2.1 else e in
  if clip_begin <? clip_end then Some (Frag clip_begin clip_end x.2.2) else None.

(** [None]: out of fuel. *)
Fixpoint intersections_loop (fuel : nat) b e it m (found : list (Fragment T))
    : option (list (Fragment T)) :=
  match fuel with
  | O => None
  | S fuel =>
      match deref it m with
      | None => Some found
      | Some x =>
          if negb (x.1 <? e) then Some found else
          let found := match clip b e x with Some f => found ++ [f] | None => found end in
          intersections_loop fuel b e (om_next it m) m found
      end
  end.

Definition intersections b e m : list (Fragment T) :=
  if e <=? b then [] else
  default [] (intersections_loop (S (length m)) b e (range_start b m) m []).

Fixpoint subtract_loop (fuel : nat) b e it m (removed : list (Fragment T))
    : option (list (Fragment T) * IntervalSet T) :=
  match fuel with
  | O => None
  | S fuel =>
      match deref it m with
      | None => Some (removed, m)
      | Some (interval_begin, (interval_end, value)) =>
          if negb (interval_begin <? e) then Some (removed, m) else
          let removed :=
            match clip b e (interval_begin, (interval_end, value)) with
            | Some f => removed ++ [f]
            | None => removed
            end in
          if (interval_begin <? b) && (e <? interval_end) then
            let m := assign interval_begin (b, value) m in
            Some (removed, emplace e (interval_end, value) m)
          else if interval_begin <? b then
            let m := assign interval_begin (b, value) m in
            subtract_loop fuel b e (om_next it m) m removed
          else if e <? interval_end then
            let next := om_next it m in
            let m := erase interval_begin m in
            let m := emplace e (interval_end, value) m in
            subtract_loop fuel b e next m removed
          else
            let next := om_next it m in
            let m := erase interval_begin m in
            subtract_loop fuel b e next m removed
      end
  end.

(** The fuel suffices by [subtract_spec] and [intersections_spec]. *)
Definition subtract b e m : list (Fragment T) * IntervalSet T :=
  if e <=? b then ([], m) else
  default ([], m) (subtract_loop (S (length m)) b e (range_start b m) m []).

Definition insert b e (value : T) m : list (Fragment T) * IntervalSet T :=
  let '(evicted, m) := subtract b e m in
  (evicted, if b <? e then emplace b (e, value) m else m).

End operations.

(** ** Well-formed sets *)

Section specification.
Context {T : Type}.
Implicit Types (m p q : IntervalSet T) (b e point : Z) (x : Z * (Z * T)).

(** Sorted, disjoint, non-empty intervals of 64-bit addresses. *)
Definition proper x : Prop := 0 ≤ x.1 ∧ x.1 < x.2.1 ∧ x.2.1 ≤ u64_max.
Definition disjoint_sorted m : Prop := StronglySorted (λ x y, x.2.1 ≤ y.1) m.
Definition interval_wf m : Prop := Forall proper m ∧ disjoint_sorted m.

(** What an interval becomes when [begin, end) is removed from it. *)
Definition outside b e x : IntervalSet T :=
  (if x.1 <? Z.min b x.2.1 then [(x.1, (Z.min b x.2.1, x.2.2))] else []) ++
  (if Z.max e x.1 <? x.2.1 then [(Z.max e x.1, (x.2.1, x.2.2))] else []).

(** The partial map from addresses to values a list of intervals stands for. *)
Fixpoint value_at point m : option T :=
  match m with
  | [] => None
  | (b, (e, v)) :: m => if (b <=? point) && (point <? e) then Some v else value_at point m
  end.

Definition contains point x : Prop := x.1 ≤ point < x.2.1.

Lemma wf_app p q : interval_wf (p ++ q) ↔
  interval_wf p ∧ interval_wf q ∧ ∀ x y, x ∈ p → y ∈ q → x.2.1 ≤ y.1.
Proof.
  unfold interval_wf, disjoint_sorted. rewrite Forall_app, StronglySorted_app. naive_solver.
Qed.

Lemma wf_nil : interval_wf ([] : IntervalSet T).
Proof. split; constructor. Qed.

Lemma wf_sorted_keys m : interval_wf m → sorted_keys m.
Proof.
  intros [Hp Hs]. unfold sorted_keys, keys. induction Hs as [|x m Hs IH Hx]; [constructor|].
  apply Forall_cons in Hp as [Hpx Hp]. cbn. constructor; [by apply IH|].
  rewrite Forall_fmap. eapply Forall_impl; [done|]. intros y Hy. cbn in *. destruct Hpx. lia.
Qed.

Lemma wf_cons x m : interval_wf (x :: m) ↔ proper x ∧ interval_wf m ∧ Forall (λ y, x.2.1 ≤ y.1) m.
Proof.
  unfold interval_wf, disjoint_sorted. rewrite Forall_cons. split.
  - intros [[Hx Hm] Hs]. apply StronglySorted_inv in Hs as [Hs Hf]. done.
  - intros (Hx & [Hm Hs] & Hf). split; [done|]. by constructor.
Qed.

(** ** Iterators *)

Lemma deref_begin p q : interval_wf (p ++ q) → deref (begin q) (p ++ q) = head q.
Proof.
  intros Hm. destruct q as [|[k v] q]; [done|]. cbn.
  rewrite om_find_mid; [done|]. by apply wf_sorted_keys.
Qed.

Lemma deref_mid p x q : interval_wf (p ++ x :: q) → deref (Some x.1) (p ++ x :: q) = Some x.
Proof. intros Hm. exact (deref_begin p (x :: q) Hm). Qed.

(** The intervals that end before an address and those that reach past it. *)
Lemma upper_bound_split b m : interval_wf m →
  ∃ p q, m = p ++ q ∧ upper_bound b m = begin q ∧ Forall (λ x, x.1 ≤ b) p ∧ Forall (λ x, b < x.1) q.
Proof.
  intros Hm. destruct (sorted_split m (λ k, k <=? b)) as (p & q & -> & Hp & Hq).
  { intros ??? ?%Z.leb_le. apply Z.leb_le. lia. }
  { by apply wf_sorted_keys. }
  assert (Forall (λ x, x.1 ≤ b) p) by (eapply Forall_impl; [exact Hp|]; cbn; intros ? ?%Z.leb_le; done).
  assert (Forall (λ x, b < x.1) q) by (eapply Forall_impl; [exact Hq|]; cbn; intros ? ?%Z.leb_gt; done).
  exists p, q. split_and!; try done. by rewrite upper_bound_app, upper_bound_above.
Qed.

(** The last interval that starts at or before an address, if there is one. *)
Lemma last_split b p : p = [] ∨ ∃ p' x, p = p' ++ [x].
Proof. destruct p as [|x p] using rev_ind; eauto. Qed.

Lemma ends_before p x q b : interval_wf (p ++ x :: q) → x.1 ≤ b → Forall (λ y, y.2.1 ≤ b) p.
Proof.
  intros (_ & _ & H)%wf_app Hx. apply Forall_forall. intros y Hy.
  assert (y.2.1 ≤ x.1) by (apply H; [done|by left]). lia.
Qed.

Lemma ends_after q b : interval_wf q → Forall (λ x, b < x.1) q → Forall (λ x, b < x.2.1) q.
Proof.
  intros [Hp _] Hq. rewrite Forall_forall in *. intros x Hx.
  destruct (Hp x Hx) as (_ & ? & _). specialize (Hq x Hx). lia.
Qed.

Lemma range_start_split b m : interval_wf m →
  ∃ p q, m = p ++ q ∧ range_start b m = begin q ∧
    Forall (λ x, x.2.1 ≤ b) p ∧ Forall (λ x, b < x.2.1) q.
Proof.
  intros Hm. destruct (upper_bound_split b m Hm) as (p & q & -> & Hub & Hp & Hq).
  pose proof Hm as (_ & Hwq & _)%wf_app. pose proof (ends_after q b Hwq Hq) as Hq'.
  unfold range_start. rewrite Hub. destruct (last_split b p) as [->|(p' & x & ->)].
  { rewrite bool_decide_eq_true_2 by done. by exists [], q. }
  rewrite <- app_assoc in *. cbn [app] in *. pose proof (wf_sorted_keys _ Hm) as Hs.
  rewrite bool_decide_eq_false_2 by by apply begin_app_ne. cbn [negb andb].
  rewrite om_prev_mid by done. unfold reaches_past. rewrite deref_mid by done.
  apply Forall_app in Hp as [Hp Hx]. rewrite Forall_singleton in Hx.
  pose proof (ends_before _ _ _ b Hm Hx). destruct x as [xb [xe v]]. cbn in *.
  destruct (Z.ltb_spec b xe).
  - exists p', ((xb, (xe, v)) :: q). split_and!; try done. by constructor.
  - exists (p' ++ [(xb, (xe, v))]), q. rewrite <- app_assoc. split_and!; try done.
    apply Forall_app. split; [done|]. by constructor.
Qed.

Lemma candidate_spec point m : interval_wf m →
  match candidate point m with
  | Some k => ∃ p x q, m = p ++ x :: q ∧ k = x.1 ∧ contains point x ∧
      Forall (λ y, ¬ contains point y) (p ++ q)
  | None => Forall (λ y, ¬ contains point y) m
  end.
Proof.
  intros Hm. destruct (upper_bound_split point m Hm) as (p & q & -> & Hub & Hp & Hq).
  assert (Hnq : Forall (λ y, ¬ contains point y) q).
  { eapply Forall_impl; [exact Hq|]. unfold contains. cbn. lia. }
  unfold candidate. rewrite Hub. destruct (last_split point p) as [->|(p' & x & ->)].
  { by rewrite bool_decide_eq_true_2. }
  rewrite <- app_assoc in *. cbn [app] in *. pose proof (wf_sorted_keys _ Hm) as Hs.
  rewrite bool_decide_eq_false_2 by by apply begin_app_ne.
  rewrite om_prev_mid by done. unfold reaches_past. rewrite deref_mid by done.
  apply Forall_app in Hp as [Hp Hx]. rewrite Forall_singleton in Hx.
  assert (Hnp : Forall (λ y, ¬ contains point y) p').
  { eapply Forall_impl; [by eapply ends_before|]. unfold contains. cbn. lia. }
  destruct x as [xb [xe v]]. cbn in *. destruct (Z.ltb_spec point xe).
  - exists p', (xb, (xe, v)), q. split_and!; try done. by apply Forall_app.
  - rewrite Forall_app, Forall_cons. unfold contains at 2. cbn. split_and!; [done|lia|done].
Qed.

(** ** One interval at a time *)

Lemma clip_left b e x : x.2.1 ≤ b → clip b e x = None.
Proof. intros. unfold clip. repeat case_match; bool_facts; done || lia. Qed.
Lemma clip_right b e x : e ≤ x.1 → clip b e x = None.
Proof. intros. unfold clip. repeat case_match; bool_facts; done || lia. Qed.

Lemma omap_clip_left b e p : Forall (λ x, x.2.1 ≤ b) p → omap (clip b e) p = [].
Proof. induction 1 as [|x p Hx _ IH]; [done|]. cbn. by rewrite clip_left. Qed.
Lemma omap_clip_right b e q : Forall (λ x, e ≤ x.1) q → omap (clip b e) q = [].
Proof. induction 1 as [|x q Hx _ IH]; [done|]. cbn. by rewrite clip_right. Qed.

Lemma outside_left b e x : b < e → proper x → x.2.1 ≤ b → outside b e x = [x].
Proof.
  intros Hbe Hp Hx. destruct x as [xb [xe v]], Hp as (_ & ? & _). unfold outside. cbn in *.
  rewrite (Z.min_r b xe), (Z.max_l e xb) by lia.
  rewrite (proj2 (Z.ltb_lt xb xe)), (proj2 (Z.ltb_ge e xe)) by lia. done.
Qed.
Lemma outside_right b e x : b < e → proper x → e ≤ x.1 → outside b e x = [x].
Proof.
  intros Hbe Hp Hx. destruct x as [xb [xe v]], Hp as (_ & ? & _). unfold outside. cbn in *.
  rewrite (Z.min_l b xe), (Z.max_r e xb) by lia.
  rewrite (proj2 (Z.ltb_lt xb xe)), (proj2 (Z.ltb_ge xb b)) by lia. done.
Qed.

Lemma bind_id (f : Z * (Z * T) → IntervalSet T) m : Forall (λ x, f x = [x]) m → m ≫= f = m.
Proof. induction 1 as [|x m Hx _ IH]; [done|]. cbn. rewrite Hx. by rewrite IH. Qed.

Lemma bind_outside_left b e p : b < e → interval_wf p → Forall (λ x, x.2.1 ≤ b) p →
  p ≫= outside b e = p.
Proof.
  intros Hbe [Hp _] Hb. apply bind_id. rewrite Forall_forall in *. auto using outside_left.
Qed.
Lemma bind_outside_right b e q : b < e → interval_wf q → Forall (λ x, e ≤ x.1) q →
  q ≫= outside b e = q.
Proof.
  intros Hbe [Hp _] Hb. apply bind_id. rewrite Forall_forall in *. auto using outside_right.
Qed.

Lemma starts_after x q e : interval_wf (x :: q) → e ≤ x.1 → Forall (λ y, e ≤ y.1) (x :: q).
Proof.
  intros ((? & ? & ?) & _ & Hq)%wf_cons He. constructor; [done|].
  eapply Forall_impl; [exact Hq|]. cbn. lia.
Qed.

(** ** The loops *)

Lemma wf_starts_after p x q e : interval_wf (p ++ x :: q) → e ≤ x.1 →
  Forall (λ y, e ≤ y.1) (x :: q).
Proof. intros (_ & ? & _)%wf_app. by apply starts_after. Qed.

Lemma intersections_loop_spec b e q : ∀ fuel p found,
  interval_wf (p ++ q) → (length q < fuel)%nat →
  intersections_loop fuel b e (begin q) (p ++ q) found = Some (found ++ omap (clip b e) q).
Proof.
  induction q as [|x q IH]; intros [|fuel] p found Hm Hfuel; cbn [length] in *; try lia;
    cbn [intersections_loop]; rewrite deref_begin by done; cbn [head].
  - by rewrite app_nil_r.
  - destruct (Z.ltb_spec x.1 e) as [Hlt|Hge]; cbn [negb].
    + change (begin (x :: q)) with (Some x.1). destruct x as [k v].
      rewrite om_next_mid by by apply wf_sorted_keys.
      change (p ++ (k, v) :: q) with (p ++ [(k, v)] ++ q) in *. rewrite app_assoc in *.
      rewrite IH by (done || lia). cbn. destruct (clip b e (k, v)); [by rewrite <- app_assoc|done].
    + rewrite omap_clip_right, app_nil_r by by eapply wf_starts_after. done.
Qed.

Lemma outside_middle b e x : x.1 < b → b < e → e < x.2.1 →
  outside b e x = [(x.1, (b, x.2.2)); (e, (x.2.1, x.2.2))].
Proof.
  intros. unfold outside. rewrite Z.min_l, Z.max_l by lia.
  by rewrite !(proj2 (Z.ltb_lt _ _)) by lia.
Qed.
Lemma outside_suffix b e x : x.1 < b → b < e → b < x.2.1 → x.2.1 ≤ e →
  outside b e x = [(x.1, (b, x.2.2))].
Proof.
  intros. unfold outside. rewrite Z.min_l, Z.max_l by lia.
  by rewrite (proj2 (Z.ltb_lt _ _)), (proj2 (Z.ltb_ge _ _)) by lia.
Qed.
Lemma outside_prefix b e x : b ≤ x.1 → x.1 < e → e < x.2.1 →
  outside b e x = [(e, (x.2.1, x.2.2))].
Proof.
  intros. unfold outside. rewrite Z.min_l, Z.max_l by lia.
  by rewrite (proj2 (Z.ltb_ge _ _)), (proj2 (Z.ltb_lt _ _)) by lia.
Qed.
Lemma outside_all b e x : b ≤ x.1 → x.1 < e → x.2.1 ≤ e → outside b e x = [].
Proof.
  intros. unfold outside. rewrite Z.max_l by lia.
  by rewrite !(proj2 (Z.ltb_ge _ _)) by lia.
Qed.

(** Replacing an interval by parts of it keeps the set well-formed. *)
Lemma outside_wf b e x : b < e → proper x → interval_wf (outside b e x) ∧
  Forall (λ y, x.1 ≤ y.1 ∧ y.2.1 ≤ x.2.1) (outside b e x).
Proof.
  intros Hbe Hp. destruct x as [xb [xe v]], Hp as (H0 & H1 & H2). unfold outside. cbn in *.
  destruct (Z.ltb_spec xb (Z.min b xe)), (Z.ltb_spec (Z.max e xb) xe); cbn;
    rewrite ?wf_cons, ?Forall_cons; unfold proper, interval_wf, disjoint_sorted; cbn;
    split_and!; repeat constructor; cbn; lia.
Qed.

Lemma wf_replace p x y q : interval_wf (p ++ x :: q) → interval_wf y →
  Forall (λ z, x.1 ≤ z.1 ∧ z.2.1 ≤ x.2.1) y → interval_wf (p ++ y ++ q).
Proof.
  intros (Hp & (Hx & Hq & Hxq)%wf_cons & Hpq)%wf_app Hy Hyx.
  rewrite Forall_forall in Hxq, Hyx. rewrite !wf_app. split_and!; try done.
  - intros z w Hz Hw. specialize (Hxq w Hw). destruct (Hyx z Hz). lia.
  - intros z w Hz [Hw|Hw]%elem_of_app.
    + assert (z.2.1 ≤ x.1) by (apply Hpq; [done|by left]). destruct (Hyx w Hw). lia.
    + apply Hpq; [done|by right].
Qed.

Lemma snoc_middle p x q : p ++ x :: q = (p ++ [x]) ++ q.
Proof. by rewrite <- app_assoc. Qed.

Lemma subtract_loop_spec b e q : b < e → ∀ fuel p removed,
  interval_wf (p ++ q) → Forall (λ x, b < x.2.1) q → (length q < fuel)%nat →
  subtract_loop fuel b e (begin q) (p ++ q) removed =
  Some (removed ++ omap (clip b e) q, p ++ (q ≫= outside b e)).
Proof.
  intros Hbe. induction q as [|[xb [xe v]] q IH]; intros [|fuel] p removed Hm Hb Hfuel;
    cbn [length] in *; try lia; cbn [subtract_loop]; rewrite deref_begin by done; cbn [head].
  { by rewrite !app_nil_r. }
  apply Forall_cons in Hb as [Hxb Hb]. cbn in Hxb.
  pose proof (wf_sorted_keys _ Hm) as Hs.
  pose proof Hm as (Hp & (Hprop & Hq & Hxq)%wf_cons & Hpq)%wf_app. cbn in Hxq.
  destruct (Z.ltb_spec xb e) as [Hlt|Hge]; cbn [negb].
  2:{ pose proof (wf_starts_after p (xb, (xe, v)) q e Hm Hge) as Hright.
      rewrite omap_clip_right, app_nil_r by done.
      rewrite bind_outside_right; [done|done| |done]. by apply wf_cons. }
  assert (Hsorted : ∀ y, interval_wf y → Forall (λ z, xb ≤ z.1 ∧ z.2.1 ≤ xe) y →
    interval_wf (p ++ y ++ q)) by (intros; by eapply (wf_replace p (xb, (xe, v)))).
  pose proof (outside_wf b e _ Hbe Hprop) as [Hout Hin]. specialize (Hsorted _ Hout Hin).
  assert (Hclip : ∀ l, (match clip b e (xb, (xe, v)) with Some f => removed ++ [f] | None => removed end) ++ l =
    removed ++ omap (clip b e) [(xb, (xe, v))] ++ l).
  { intros l. cbn. destruct (clip b e (xb, (xe, v))); [by rewrite <- app_assoc|done]. }
  change (omap (clip b e) ((xb, (xe, v)) :: q)) with
    (omap (clip b e) ([(xb, (xe, v))] ++ q)). rewrite omap_app, <- Hclip.
  cbn [mbind list_bind]. 
  change (begin ((xb, (xe, v)) :: q)) with (Some xb).
  generalize (match clip b e (xb, (xe, v)) with Some f => removed ++ [f] | None => removed end).
  intros removed'. clear Hclip.
  destruct (sorted_keys_mid _ _ _ _ Hs) as (Hbelow & Habove & _).
  assert (Hbelow_e : below e p) by (eapply Forall_impl; [exact Hbelow|]; cbn; lia).
  destruct (Z.ltb_spec xb b) as [Hbefore|Hafter], (Z.ltb_spec e xe) as [Hpast|Hwithin]; cbn [andb].
  - assert (Hright : Forall (λ y, e < y.1) q) by (eapply Forall_impl; [exact Hxq|]; cbn; lia).
    assert (Hright' : Forall (λ y, e ≤ y.1) q) by (eapply Forall_impl; [exact Hright|]; cbn; lia).
    rewrite outside_middle, omap_clip_right, bind_outside_right, app_nil_r by done.
    rewrite assign_mid by done. cbn [app fst snd].
    change (p ++ (xb, (b, v)) :: q) with (p ++ [(xb, (b, v))] ++ q). rewrite app_assoc.
    rewrite emplace_mid; [by rewrite <- app_assoc| |done].
    apply Forall_app. split; [done|]. by repeat constructor.
  - rewrite outside_suffix in * by (done || lia). rewrite assign_mid by done.
    rewrite om_next_mid by by apply wf_sorted_keys. cbn [app fst snd] in *.
    rewrite (snoc_middle p _ q) in Hsorted |- *. rewrite (snoc_middle p _ (q ≫= outside b e)).
    by rewrite IH by (done || lia).
  - rewrite outside_prefix in * by (done || lia). rewrite om_next_mid, erase_mid by done.
    rewrite emplace_mid; [|done|eapply Forall_impl; [exact Hxq|]; cbn; lia].
    cbn [app fst snd] in *.
    rewrite (snoc_middle p _ q) in Hsorted |- *. rewrite (snoc_middle p _ (q ≫= outside b e)).
    by rewrite IH by (done || lia).
  - rewrite outside_all in * by (done || lia). rewrite om_next_mid, erase_mid by done.
    rewrite app_assoc, app_nil_r in *. by rewrite IH by (done || lia).
Qed.

(** ** The operations, interval by interval *)

Lemma clip_empty_range b e x : e ≤ b → clip b e x = None.
Proof. intros. unfold clip. repeat case_match; bool_facts; done || lia. Qed.

Lemma omap_clip_empty b e m : e ≤ b → omap (clip b e) m = [].
Proof. intros. induction m as [|x m IH]; [done|]. cbn. by rewrite clip_empty_range. Qed.

Lemma intersections_spec b e m : interval_wf m → intersections b e m = omap (clip b e) m.
Proof.
  intros Hm. unfold intersections. destruct (Z.leb_spec e b); [by rewrite omap_clip_empty|].
  destruct (range_start_split b m Hm) as (p & q & -> & -> & Hp & _).
  rewrite intersections_loop_spec; [|done|rewrite length_app; lia]. cbn [default app].
  by rewrite omap_app, (omap_clip_left b e p) by done.
Qed.

Definition remaining b e m : IntervalSet T := if e <=? b then m else m ≫= outside b e.

Lemma subtract_spec b e m : interval_wf m →
  subtract b e m = (omap (clip b e) m, remaining b e m).
Proof.
  intros Hm. unfold subtract, remaining.
  destruct (Z.leb_spec e b) as [|Hbe]; [by rewrite omap_clip_empty|].
  destruct (range_start_split b m Hm) as (p & q & -> & -> & Hp & Hq).
  rewrite subtract_loop_spec; [|done..|rewrite length_app; lia]. cbn [default app].
  rewrite omap_app, (omap_clip_left b e p), bind_app by done.
  rewrite (bind_outside_left b e p); [done|done| |done]. by apply wf_app in Hm as [? _].
Qed.

Lemma elem_bind_outside b e m y : y ∈ m ≫= outside b e → b < e → interval_wf m →
  ∃ x, x ∈ m ∧ x.1 ≤ y.1 ∧ y.2.1 ≤ x.2.1.
Proof.
  intros (x & Hy & Hx)%list_elem_of_bind Hbe [Hprop _]. exists x. split; [done|].
  rewrite Forall_forall in Hprop. destruct (outside_wf b e x Hbe (Hprop x Hx)) as [_ Hin].
  rewrite Forall_forall in Hin. by apply Hin.
Qed.

Lemma remaining_wf b e m : interval_wf m → interval_wf (remaining b e m).
Proof.
  intros Hm. unfold remaining. destruct (Z.leb_spec e b) as [|Hbe]; [done|].
  induction m as [|x m IH]; [done|]. apply wf_cons in Hm as (Hx & Hm & Hxm).
  cbn. destruct (outside_wf b e x Hbe Hx) as [Hout Hin]. apply wf_app. split_and!; [done|auto|].
  intros y z Hy Hz. rewrite Forall_forall in Hin, Hxm. destruct (Hin y Hy) as [_ ?].
  destruct (elem_bind_outside b e m z Hz Hbe Hm) as (w & Hw & ? & _).
  specialize (Hxm w Hw). lia.
Qed.

Lemma remaining_apart b e m : b < e → interval_wf m →
  Forall (λ y, y.2.1 ≤ b ∨ e ≤ y.1) (remaining b e m).
Proof.
  intros Hbe [Hprop _]. unfold remaining. rewrite (proj2 (Z.leb_gt e b)) by done.
  apply Forall_forall. intros y (x & Hy & Hx)%list_elem_of_bind. revert Hy. unfold outside.
  rewrite elem_of_app. intros [Hy|Hy]; case_match; try by apply elem_of_nil in Hy.
  all: apply list_elem_of_singleton in Hy as ->; cbn; lia.
Qed.

(** The one new interval stands between those before and those after it. *)
Lemma emplace_apart b e v m : b < e → interval_wf m → Forall (λ y, y.2.1 ≤ b ∨ e ≤ y.1) m →
  ∃ p q, m = p ++ q ∧ emplace b (e, v) m = p ++ (b, (e, v)) :: q ∧
    Forall (λ x, x.2.1 ≤ b) p ∧ Forall (λ x, e ≤ x.1) q.
Proof.
  intros Hbe Hm Hapart. destruct (sorted_split m (λ k, k <? b)) as (p & q & -> & Hp & Hq).
  { intros ??? ?%Z.ltb_lt. apply Z.ltb_lt. lia. }
  { by apply wf_sorted_keys. }
  apply Forall_app in Hapart as [Hap Haq]. destruct Hm as [[Hprop Hproq]%Forall_app _].
  rewrite Forall_forall in *.
  assert (Hp' : ∀ x, x ∈ p → x.2.1 ≤ b).
  { intros x Hx. specialize (Hp x Hx). apply Z.ltb_lt in Hp. destruct (Hap x Hx); lia. }
  assert (Hq' : ∀ x, x ∈ q → e ≤ x.1).
  { intros x Hx. specialize (Hq x Hx). apply Z.ltb_ge in Hq. destruct (Hproq x Hx) as (_ & ? & _).
    destruct (Haq x Hx); lia. }
  exists p, q. split_and!; [done| |by apply Forall_forall..].
  apply emplace_mid; apply Forall_forall; intros x Hx.
  - destruct (Hprop x Hx) as (_ & ? & _). specialize (Hp' x Hx). lia.
  - specialize (Hq' x Hx). lia.
Qed.

Lemma insert_spec b e v m : interval_wf m → 0 ≤ b → b < e → e ≤ u64_max →
  ∃ p q, remaining b e m = p ++ q ∧ insert b e v m = (omap (clip b e) m, p ++ (b, (e, v)) :: q) ∧
    Forall (λ x, x.2.1 ≤ b) p ∧ Forall (λ x, e ≤ x.1) q ∧ interval_wf (p ++ (b, (e, v)) :: q).
Proof.
  intros Hm Hb Hbe He. pose proof (remaining_wf b e m Hm) as Hwf.
  destruct (emplace_apart b e v _ Hbe Hwf (remaining_apart b e m Hbe Hm))
    as (p & q & Hpq & Hemp & Hp & Hq).
  exists p, q. split_and!; try done.
  - unfold insert. rewrite subtract_spec by done. rewrite (proj2 (Z.ltb_lt b e)) by done.
    by rewrite Hemp.
  - rewrite Hpq in Hwf. apply wf_app in Hwf as (Hwp & Hwq & _).
    rewrite Forall_forall in Hp. pose proof Hq as Hq'. rewrite Forall_forall in Hq'.
    apply wf_app. split_and!; [done|by apply wf_cons|].
    intros x y Hx [->|Hy]%elem_of_cons; [by apply Hp|].
    specialize (Hp x Hx). specialize (Hq' y Hy). lia.
Qed.

Lemma insert_empty_range b e v m : e ≤ b → insert b e v m = ([], m).
Proof.
  intros. unfold insert, subtract. rewrite (proj2 (Z.leb_le _ _)), (proj2 (Z.ltb_ge _ _)) by done.
  done.
Qed.

Lemma nothing_removed b e m : interval_wf m → omap (clip b e) m = [] → remaining b e m = m.
Proof.
  intros [Hp _] Hnone. unfold remaining. destruct (Z.leb_spec e b) as [|Hbe]; [done|].
  apply bind_id. induction Hp as [|x m Hx _ IH]; [constructor|]. cbn in Hnone.
  destruct (clip b e x) eqn:E; [done|]. constructor; [|by apply IH].
  destruct (Z.le_gt_cases x.2.1 b); [by apply outside_left|].
  destruct (Z.le_gt_cases e x.1); [by apply outside_right|].
  exfalso. unfold clip in E. destruct Hx as (_ & ? & _).
  revert E. repeat (case_match; bool_facts); done || lia.
Qed.

(** ** Addresses *)

Definition within b e point : bool := (b <=? point) && (point <? e).

Definition piece (f : Fragment T) : Z * (Z * T) := (f_begin f, (f_end f, f_value f)).

Lemma value_at_app point p q :
  value_at point (p ++ q) = match value_at point p with Some v => Some v | None => value_at point q end.
Proof. induction p as [|[b [e v]] p IH]; [done|]. cbn. by destruct (_ && _). Qed.

Lemma value_at_outside b e x point : b < e →
  value_at point (outside b e x) =
  if within b e point then None else value_at point [x].
Proof.
  intros Hbe. destruct x as [xb [xe v]]. unfold outside, within. rewrite value_at_app. cbn.
  destruct (Z.ltb_spec xb (Z.min b xe)), (Z.ltb_spec (Z.max e xb) xe); cbn;
    repeat (case_match; bool_facts); try done; lia.
Qed.

Lemma value_at_remaining b e m point :
  value_at point (remaining b e m) = if within b e point then None else value_at point m.
Proof.
  unfold remaining. destruct (Z.leb_spec e b) as [Heb|Hbe].
  { destruct (within b e point) eqn:E; [|done]. unfold within in E. bool_facts. lia. }
  induction m as [|x m IH]; [by case_match|]. cbn [mbind list_bind].
  rewrite value_at_app, value_at_outside, IH by done.
  change (x :: m) with ([x] ++ m). rewrite value_at_app. by destruct (within b e point).
Qed.

Lemma value_at_clip b e m point :
  value_at point (piece <$> omap (clip b e) m) =
  if within b e point then value_at point m else None.
Proof.
  induction m as [|[xb [xe v]] m IH]; [by case_match|]. cbn.
  unfold clip at 1. cbn. destruct (_ <? (if xe <? e then xe else e)) eqn:E; cbn; rewrite IH;
    unfold within; repeat (case_match; bool_facts); try done; try lia.
Qed.

Lemma value_at_none point m : Forall (λ y, ¬ contains point y) m → value_at point m = None.
Proof.
  induction 1 as [|[b [e v]] m Hx _ IH]; [done|]. cbn. destruct (_ && _) eqn:E; [|done].
  unfold contains in Hx. cbn in Hx. bool_facts. lia.
Qed.

Lemma find_spec point m : interval_wf m →
  match find point m with
  | Some f => ∃ p q, m = p ++ piece f :: q ∧ f_begin f ≤ point < f_end f ∧
      value_at point m = Some (f_value f)
  | None => value_at point m = None
  end.
Proof.
  intros Hm. pose proof (candidate_spec point m Hm) as Hc. unfold find.
  destruct (candidate point m) as [k|].
  - destruct Hc as (p & x & q & -> & -> & Hx & [Hp Hq]%Forall_app).
    rewrite deref_mid by done. destruct x as [b [e v]]. cbn in *. exists p, q.
    split_and!; [done|apply Hx|apply Hx|]. rewrite value_at_app, value_at_none by done. cbn.
    destruct (_ && _) eqn:E; [done|]. unfold contains in Hx. cbn in Hx. bool_facts. lia.
  - cbn. by apply value_at_none.
Qed.

(** ** Bytes *)

Definition interval_bytes x : Z := x.2.1 - x.1.
Fixpoint sum_bytes m : Z :=
  match m with [] => 0 | x :: m => interval_bytes x + sum_bytes m end.

Lemma sum_bytes_bound m lo : interval_wf m → Forall (λ x, lo ≤ x.1) m → lo ≤ u64_max →
  0 ≤ sum_bytes m ≤ u64_max - lo.
Proof.
  revert lo. induction m as [|x m IH]; intros lo Hm Hlo Hmax; cbn; [lia|].
  apply wf_cons in Hm as ((? & ? & ?) & Hm & Hx). apply Forall_cons in Hlo as [Hlo _].
  specialize (IH x.2.1 Hm Hx ltac:(lia)). unfold interval_bytes. lia.
Qed.

Lemma sum_bytes_nonneg m : Forall proper m → 0 ≤ sum_bytes m.
Proof.
  induction 1 as [|x m (? & ? & ?) _ IH]; cbn; [lia|]. unfold interval_bytes. lia.
Qed.

Lemma foldl_total m acc : Forall proper m → 0 ≤ acc → acc + sum_bytes m ≤ u64_max →
  foldl (λ total x, wrap64 (total + wrap64 (x.2.1 - x.1))) acc m = acc + sum_bytes m.
Proof.
  revert acc. induction m as [|x m IH]; intros acc Hp Hacc Hmax; cbn in *; [lia|].
  apply Forall_cons in Hp as [(? & ? & ?) Hp]. pose proof (sum_bytes_nonneg m Hp).
  unfold interval_bytes in *.
  rewrite (wrap64_small (x.2.1 - x.1)), (wrap64_small (acc + _)) by word.
  rewrite IH; [lia|done|lia|lia].
Qed.

Lemma total_bytes_spec m : interval_wf m → total_bytes m = sum_bytes m ∧ 0 ≤ sum_bytes m ≤ u64_max.
Proof.
  intros Hm. assert (0 ≤ sum_bytes m ≤ u64_max - 0) as Hb.
  { apply sum_bytes_bound; [done| |word]. destruct Hm as [Hp _].
    eapply Forall_impl; [exact Hp|]. by intros x (? & _). }
  split; [|lia]. destruct Hm as [Hp _]. unfold total_bytes. rewrite foldl_total; done || lia.
Qed.

Lemma clipped_proper b e m : Forall proper m → Forall proper (piece <$> omap (clip b e) m).
Proof.
  induction 1 as [|x m (? & ? & ?) _ IH]; [constructor|]. cbn.
  destruct (clip b e x) as [c|] eqn:E; [|done]. cbn. constructor; [|done].
  unfold clip in E. revert E. repeat (case_match; bool_facts); intros [= <-];
    unfold proper; cbn; lia.
Qed.

Lemma sum_bytes_app p q : sum_bytes (p ++ q) = sum_bytes p + sum_bytes q.
Proof. induction p as [|x p IH]; cbn; [done|]. rewrite IH. lia. Qed.

Lemma sum_bytes_split b e m : interval_wf m →
  sum_bytes m = sum_bytes (remaining b e m) + sum_bytes (piece <$> omap (clip b e) m).
Proof.
  intros [Hp _]. unfold remaining. destruct (Z.leb_spec e b) as [|Hbe].
  { rewrite omap_clip_empty by done. cbn. lia. }
  induction Hp as [|x m Hx _ IH]; [done|]. cbn. rewrite sum_bytes_app, IH.
  assert (interval_bytes x = sum_bytes (outside b e x) +
    sum_bytes (piece <$> omap (clip b e) [x])) as ->.
  { destruct x as [xb [xe v]], Hx as (? & ? & ?). cbn in *. unfold outside, clip. cbn.
    destruct (Z.ltb_spec xb b), (Z.ltb_spec xe e); cbn;
    repeat match goal with |- context [?l <? ?r] => destruct (Z.ltb_spec l r); cbn end;
      unfold interval_bytes; cbn; lia. }
  cbn. destruct (clip b e x); cbn; lia.
Qed.

(** ** What the class promises *)

(** An interval set stands for a partial map from addresses to values. *)
Definition represents m (f : Z → option T) : Prop :=
  interval_wf m ∧ ∀ point, value_at point m = f point.

Lemma value_at_mid p x q point : interval_wf (p ++ x :: q) → contains point x →
  value_at point (p ++ x :: q) = Some x.2.2.
Proof.
  intros Hm [H1 H2]. rewrite value_at_app, value_at_none.
  - destruct x as [b [e v]]. cbn in *. destruct (_ && _) eqn:E; [done|]. bool_facts. lia.
  - apply wf_app in Hm as (_ & _ & Hpq). apply Forall_forall. intros y Hy [_ ?].
    assert (y.2.1 ≤ x.1) by (apply Hpq; [done|by left]). lia.
Qed.

Lemma value_at_insert b e v m point : interval_wf m → 0 ≤ b → e ≤ u64_max →
  interval_wf (insert b e v m).2 ∧
  value_at point (insert b e v m).2 = if within b e point then Some v else value_at point m.
Proof.
  intros Hm Hb He. destruct (Z.le_gt_cases e b) as [Hle|Hlt].
  { rewrite insert_empty_range by done. split; [done|]. cbn. unfold within.
    case_match; bool_facts; [lia|done]. }
  destruct (insert_spec b e v m Hm Hb Hlt He) as (p & q & Hpq & -> & Hp & Hq & Hwf).
  cbn [snd]. split; [done|]. destruct (within b e point) eqn:E; unfold within in E; bool_facts.
  - by rewrite value_at_mid.
  - rewrite value_at_app. cbn. destruct ((b <=? point) && (point <? e)) eqn:E'; [bool_facts; lia|].
    rewrite <- value_at_app, <- Hpq, value_at_remaining. unfold within. by rewrite E'.
Qed.

(** C16: Refinement.  An interval set implements a partial map from addresses to
    values: [find] looks an address up and returns a range on which the map is
    constant, [intersections] restricts the map to a range, [subtract] clears a
    range and returns what was in it, [insert] sets a range to a value and returns
    what was in it; and every operation keeps the intervals sorted, disjoint and
    non-empty. *)
Theorem interval_set_refines_map m (f : Z → option T) :
  represents m f →
  (∀ point, match find point m with
            | Some r => f_begin r ≤ point < f_end r ∧
                ∀ a, f_begin r ≤ a < f_end r → f a = Some (f_value r)
            | None => f point = None
            end) ∧
  (∀ b e a, value_at a (piece <$> intersections b e m) = if within b e a then f a else None) ∧
  (∀ b e, let '(removed, m') := subtract b e m in
     represents m' (λ a, if within b e a then None else f a) ∧
     ∀ a, value_at a (piece <$> removed) = if within b e a then f a else None) ∧
  (∀ b e v, 0 ≤ b → e ≤ u64_max → let '(evicted, m') := insert b e v m in
     represents m' (λ a, if within b e a then Some v else f a) ∧
     ∀ a, value_at a (piece <$> evicted) = if within b e a then f a else None).
Proof.
  intros [Hm Hf]. split_and!.
  - intros point. pose proof (find_spec point m Hm) as H. destruct (find point m) as [r|].
    + destruct H as (p & q & Hmid & Hr & _). split; [done|]. intros a Ha.
      rewrite <- Hf, Hmid. rewrite Hmid in Hm. by rewrite value_at_mid.
    + by rewrite <- Hf.
  - intros b e a. by rewrite intersections_spec, value_at_clip, Hf.
  - intros b e. rewrite subtract_spec by done. split.
    + split; [by apply remaining_wf|]. intros a. by rewrite value_at_remaining, Hf.
    + intros a. by rewrite value_at_clip, Hf.
  - intros b e v Hb He. destruct (insert b e v m) as [evicted m'] eqn:E. split.
    + pose proof (value_at_insert b e v m) as H. rewrite E in H. cbn [snd] in H.
      split; [by apply H|]. intros a. rewrite <- Hf. by apply H.
    + intros a. unfold insert in E. rewrite subtract_spec in E by done. injection E as <- _.
      by rewrite value_at_clip, Hf.
Qed.

(** Fragment boundaries.  [subtract] treats every stored interval by itself:
    it keeps exactly the parts of each interval before and after the range, in
    order, and never joins neighbours, so two sets that were equal stay equal;
    what it returns is what [intersections] reports; and [insert] adds exactly one
    interval to what [subtract] leaves. *)
Theorem interval_set_fragments m b e (v : T) :
  interval_wf m → 0 ≤ b → b < e → e ≤ u64_max →
  fragments (subtract b e m).2 =
    concat ((λ x, fragments (outside b e x)) <$> m) ∧
  (subtract b e m).1 = intersections b e m ∧
  (insert b e v m).1 = intersections b e m ∧
  ∃ p q, (subtract b e m).2 = p ++ q ∧ (insert b e v m).2 = p ++ (b, (e, v)) :: q ∧
    Forall (λ x, x.2.1 ≤ b) p ∧ Forall (λ x, e ≤ x.1) q.
Proof.
  intros Hm Hb Hbe He. rewrite subtract_spec, intersections_spec by done. cbn [fst snd].
  destruct (insert_spec b e v m Hm Hb Hbe He) as (p & q & Hpq & -> & Hp & Hq & _).
  split_and!; [|done|done|by exists p, q].
  unfold remaining. rewrite (proj2 (Z.leb_gt e b)) by done. clear.
  induction m as [|x m IH]; [done|]. cbn. rewrite <- IH. unfold fragments. by rewrite fmap_app.
Qed.

(** Bytes.  The sum of the interval lengths never wraps, and [subtract] moves
    bytes without losing any: what it removes and what it leaves add up to what
    was there. *)
Theorem interval_set_bytes m b e :
  interval_wf m →
  total_bytes m = sum_bytes m ∧ 0 ≤ total_bytes m ≤ u64_max ∧
  let '(removed, m') := subtract b e m in
  total_bytes m = total_bytes m' + sum_bytes (piece <$> removed).
Proof.
  intros Hm. rewrite subtract_spec by done.
  destruct (total_bytes_spec m Hm) as [-> ?]. split_and!; try done; [lia..|].
  destruct (total_bytes_spec _ (remaining_wf b e m Hm)) as [-> _]. by apply sum_bytes_split.
Qed.

End specification.

(** ** A concrete set *)

Definition example_set : IntervalSet nat := [(10, (20, 1%nat)); (20, (30, 2%nat)); (40, (50, 3%nat))].

Lemma example_set_wf : interval_wf example_set.
Proof. repeat (apply wf_cons; split_and!; [done| |by repeat constructor]). by repeat constructor. Qed.

Lemma interval_set_refines_map_witness :
  let f p := value_at p example_set in
  represents example_set f ∧
  (let '(removed, m') := subtract 15 45 example_set in
   represents m' (λ p, if within 15 45 p then None else f p) ∧
   ∀ p, value_at p (piece <$> removed) = if within 15 45 p then f p else None).
Proof.
  intros f. assert (H : represents example_set f) by (split; [apply example_set_wf|done]).
  split; [exact H|]. exact (proj1 (proj2 (proj2 (interval_set_refines_map example_set f H))) 15 45).
Defined.

Lemma interval_set_fragments_witness :
  fragments (subtract 15 18 example_set).2 =
    concat ((λ x, fragments (outside 15 18 x)) <$> example_set) ∧
  (subtract 15 18 example_set).1 = intersections 15 18 example_set ∧
  (insert 15 18 9%nat example_set).1 = intersections 15 18 example_set ∧
  ∃ p q, (subtract 15 18 example_set).2 = p ++ q ∧
    (insert 15 18 9%nat example_set).2 = p ++ (15, (18, 9%nat)) :: q ∧
    Forall (λ x, x.2.1 ≤ 15) p ∧ Forall (λ x, 18 ≤ x.1) q.
Proof. apply (interval_set_fragments example_set 15 18 9%nat); [apply example_set_wf|done..]. Defined.

Example example_subtract :
  subtract 15 45 example_set =
  ([Frag 15 20 1%nat; Frag 20 30 2%nat; Frag 40 45 3%nat], [(10, (15, 1%nat)); (45, (50, 3%nat))]).
Proof. reflexivity. Qed.

Lemma interval_set_bytes_witness :
  total_bytes example_set = sum_bytes example_set ∧ 0 ≤ total_bytes example_set ≤ u64_max ∧
  let '(removed, m') := subtract 15 45 example_set in
  total_bytes example_set = total_bytes m' + sum_bytes (piece <$> removed).
Proof. exact (interval_set_bytes example_set 15 45 example_set_wf). Defined.
