(* ===== verification/GenerationTracker.v ===== *)
(** * The generation tracker

    [GenerationTracker] of src/include/noleax/analyzer/generation_tracker.hpp and
    src/src/analyzer/generation_tracker.cpp: which allocations and mappings are
    live after a stream of memory events.

    An operation is a computation on the members of the tracker that may throw.
    The callbacks are modelled by what they are told: the member [notifications]
    is the sequence of calls made so far. *)

From S2P Require Import Prelude OrderedMap IntervalSet WireFormat Event.

(** ** Data *)

Inductive GenerationKind : Set := Kind_kHeapAllocation | Kind_kVirtualAllocation | Kind_kMappedView.

Inductive GenerationEndReason : Set :=
  | Reason_kReallocated | Reason_kReallocationFreed | Reason_kFreed | Reason_kHeapDestroyed
  | Reason_kVirtualFreed | Reason_kUnmapped.

#[global] Instance GenerationKind_eq_dec : EqDecision GenerationKind.
Proof. solve_decision. Defined.
#[global] Instance GenerationEndReason_eq_dec : EqDecision GenerationEndReason.
Proof. solve_decision. Defined.

Record MemoryGeneration : Set := {
  mg_kind : GenerationKind;
  mg_allocation_id : Z;
  mg_mapping_id : Z;
  mg_heap_id : Z;
  mg_heap_handle : Z;
  mg_address : Z;
  mg_size : Z;
  mg_created_by : Event;
}.

#[global] Instance MemoryGeneration_eq_dec : EqDecision MemoryGeneration.
Proof. solve_decision. Defined.

(** The calls of [GenerationCallbacks]. *)
Inductive Notification : Set :=
  | on_created (generation : MemoryGeneration)
  | on_ended (generation : MemoryGeneration) (reason : GenerationEndReason) (event : Event)
  | on_changed (generation : MemoryGeneration) (event : Event).

Record MappingState : Set := {
  ms_generation : MemoryGeneration;
  ms_live : IntervalSet Z;       (* IntervalSet<std::uint8_t> *)
}.

Record GenerationTracker : Set := {
  live_allocations_ : ordered_map MemoryGeneration;
  live_mappings_ : ordered_map MappingState;
  seen_allocation_ids_ : gset Z;
  seen_mapping_ids_ : gset Z;
  created_count_ : Z;
  ended_count_ : Z;
  orphaned_allocation_end_count_ : Z;
  orphaned_mapping_end_count_ : Z;
  notifications : list Notification;
}.

Definition GenerationTracker_new : GenerationTracker := {|
  live_allocations_ := []; live_mappings_ := [];
  seen_allocation_ids_ := ∅; seen_mapping_ids_ := ∅;
  created_count_ := 0; ended_count_ := 0;
  orphaned_allocation_end_count_ := 0; orphaned_mapping_end_count_ := 0;
  notifications := [];
|}.

Abbreviation tracking := (proc GenerationTracker exn).

(** ** Members *)

Definition with_allocations (f : ordered_map MemoryGeneration → ordered_map MemoryGeneration)
    (t : GenerationTracker) : GenerationTracker :=
  {| live_allocations_ := f (live_allocations_ t); live_mappings_ := live_mappings_ t;
     seen_allocation_ids_ := seen_allocation_ids_ t; seen_mapping_ids_ := seen_mapping_ids_ t;
     created_count_ := created_count_ t; ended_count_ := ended_count_ t;
     orphaned_allocation_end_count_ := orphaned_allocation_end_count_ t;
     orphaned_mapping_end_count_ := orphaned_mapping_end_count_ t;
     notifications := notifications t |}.
Definition with_mappings (f : ordered_map MappingState → ordered_map MappingState)
    (t : GenerationTracker) : GenerationTracker :=
  {| live_allocations_ := live_allocations_ t; live_mappings_ := f (live_mappings_ t);
     seen_allocation_ids_ := seen_allocation_ids_ t; seen_mapping_ids_ := seen_mapping_ids_ t;
     created_count_ := created_count_ t; ended_count_ := ended_count_ t;
     orphaned_allocation_end_count_ := orphaned_allocation_end_count_ t;
     orphaned_mapping_end_count_ := orphaned_mapping_end_count_ t;
     notifications := notifications t |}.
Definition with_seen (allocations mappings : gset Z) (t : GenerationTracker) : GenerationTracker :=
  {| live_allocations_ := live_allocations_ t; live_mappings_ := live_mappings_ t;
     seen_allocation_ids_ := allocations; seen_mapping_ids_ := mappings;
     created_count_ := created_count_ t; ended_count_ := ended_count_ t;
     orphaned_allocation_end_count_ := orphaned_allocation_end_count_ t;
     orphaned_mapping_end_count_ := orphaned_mapping_end_count_ t;
     notifications := notifications t |}.
Definition with_counts (created ended orphaned_allocations orphaned_mappings : Z)
    (t : GenerationTracker) : GenerationTracker :=
  {| live_allocations_ := live_allocations_ t; live_mappings_ := live_mappings_ t;
     seen_allocation_ids_ := seen_allocation_ids_ t; seen_mapping_ids_ := seen_mapping_ids_ t;
     created_count_ := created; ended_count_ := ended;
     orphaned_allocation_end_count_ := orphaned_allocations;
     orphaned_mapping_end_count_ := orphaned_mappings;
     notifications := notifications t |}.
Definition notify (n : Notification) (t : GenerationTracker) : GenerationTracker :=
  {| live_allocations_ := live_allocations_ t; live_mappings_ := live_mappings_ t;
     seen_allocation_ids_ := seen_allocation_ids_ t; seen_mapping_ids_ := seen_mapping_ids_ t;
     created_count_ := created_count_ t; ended_count_ := ended_count_ t;
     orphaned_allocation_end_count_ := orphaned_allocation_end_count_ t;
     orphaned_mapping_end_count_ := orphaned_mapping_end_count_ t;
     notifications := notifications t ++ [n] |}.

Inductive counter : Set := Created | Ended | Orphaned_allocation | Orphaned_mapping.

Definition counter_value (c : counter) (t : GenerationTracker) : Z :=
  match c with
  | Created => created_count_ t
  | Ended => ended_count_ t
  | Orphaned_allocation => orphaned_allocation_end_count_ t
  | Orphaned_mapping => orphaned_mapping_end_count_ t
  end.

Definition bump (c : counter) (t : GenerationTracker) : GenerationTracker :=
  let oa := orphaned_allocation_end_count_ t in
  let om := orphaned_mapping_end_count_ t in
  match c with
  | Created => with_counts (created_count_ t + 1) (ended_count_ t) oa om t
  | Ended => with_counts (created_count_ t) (ended_count_ t + 1) oa om t
  | Orphaned_allocation => with_counts (created_count_ t) (ended_count_ t) (oa + 1) om t
  | Orphaned_mapping => with_counts (created_count_ t) (ended_count_ t) oa (om + 1) t
  end.

(** ** Helpers *)

Definition state_error {A} (message : string) : tracking A :=
  pure (throw GenerationStateError message).
Definition state_error_if (b : bool) (message : string) : tracking unit :=
  pure (throw_if b GenerationStateError message).

Definition checked_increment (c : counter) (subject : string) : tracking unit :=
  t ← get_state;
  if counter_value c t =? u64_max then state_error (subject +:+ " count overflow")
  else modify (bump c).

Definition heap_ids_conflict (left right : Z) : bool :=
  is_valid left && is_valid right && negb (left =? right).

Definition notify_created (g : MemoryGeneration) : tracking unit := modify (notify (on_created g)).
Definition notify_ended (g : MemoryGeneration) (reason : GenerationEndReason) (event : Event)
    : tracking unit := modify (notify (on_ended g reason event)).
Definition notify_changed (g : MemoryGeneration) (event : Event) : tracking unit :=
  modify (notify (on_changed g event)).

(** ** Queries *)

Definition find_allocation (id : Z) (t : GenerationTracker) : option MemoryGeneration :=
  om_find id (live_allocations_ t).
Definition find_mapping (id : Z) (t : GenerationTracker) : option MemoryGeneration :=
  ms_generation <$> om_find id (live_mappings_ t).
Definition live_generations (t : GenerationTracker) : list MemoryGeneration :=
  (live_allocations_ t).*2 ++ (ms_generation ∘ snd <$> live_mappings_ t).
Definition live_count (t : GenerationTracker) : Z :=
  wrap64 (size_of (live_allocations_ t) + size_of (live_mappings_ t)).

(** ** Starting and ending a generation *)

Definition require_new_allocation_id (id : Z) : tracking unit :=
  t ← get_state;
  state_error_if (negb (is_valid id)) "new allocation generation requires an allocation_id" ;;
  state_error_if (bool_decide (id ∈ seen_allocation_ids_ t))
    "allocation_id is reused by more than one generation".

Definition require_new_mapping_id (id : Z) : tracking unit :=
  t ← get_state;
  state_error_if (negb (is_valid id)) "new mapping generation requires a mapping_id" ;;
  state_error_if (bool_decide (id ∈ seen_mapping_ids_ t))
    "mapping_id is reused by more than one generation".

Definition add_allocation (g : MemoryGeneration) : tracking unit :=
  let id := mg_allocation_id g in
  require_new_allocation_id id ;;
  modify (λ t, with_seen ({[id]} ∪ seen_allocation_ids_ t) (seen_mapping_ids_ t) t) ;;
  t ← get_state;
  modify (with_allocations (emplace id g)) ;;
  state_error_if (bool_decide (is_Some (om_find id (live_allocations_ t))))
    "allocation_id is already live" ;;
  checked_increment Created "created generation" ;;
  notify_created g.

Definition add_mapping (s : MappingState) : tracking unit :=
  let id := mg_mapping_id (ms_generation s) in
  require_new_mapping_id id ;;
  modify (λ t, with_seen (seen_allocation_ids_ t) ({[id]} ∪ seen_mapping_ids_ t) t) ;;
  t ← get_state;
  modify (with_mappings (emplace id s)) ;;
  state_error_if (bool_decide (is_Some (om_find id (live_mappings_ t))))
    "mapping_id is already live" ;;
  checked_increment Created "created generation" ;;
  notify_created (ms_generation s).

Definition end_allocation (id expected_address expected_heap_id : Z)
    (reason : GenerationEndReason) (event : Event) : tracking unit :=
  t ← get_state;
  match om_find id (live_allocations_ t) with
  | None => checked_increment Orphaned_allocation "orphaned allocation end"
  | Some g =>
      state_error_if (negb (mg_address g =? expected_address))
        "allocation end address does not match its allocation_id" ;;
      state_error_if (heap_ids_conflict (mg_heap_id g) expected_heap_id)
        "allocation end heap_id does not match its allocation_id" ;;
      notify_ended g reason event ;;
      checked_increment Ended "ended generation" ;;
      modify (with_allocations (erase id))
  end.

Definition end_mapping (id expected_address : Z) (expected_kind : GenerationKind)
    (reason : GenerationEndReason) (event : Event) : tracking unit :=
  t ← get_state;
  match om_find id (live_mappings_ t) with
  | None => checked_increment Orphaned_mapping "orphaned mapping end"
  | Some s =>
      state_error_if (negb (bool_decide (mg_kind (ms_generation s) = expected_kind)))
        "mapping end operation does not match its mapping_id kind" ;;
      state_error_if (negb (mg_address (ms_generation s) =? expected_address))
        "mapping end address does not match its mapping_id" ;;
      notify_ended (ms_generation s) reason event ;;
      checked_increment Ended "ended generation" ;;
      modify (with_mappings (erase id))
  end.

(** ** Heap events *)

Definition observe_allocation (event : Event) (a : AllocationEvent) : tracking unit :=
  if negb (allocation_creates_generation (ev_header event) a) then mret tt else
  add_allocation
    {| mg_kind := Kind_kHeapAllocation; mg_allocation_id := al_allocation_id a;
       mg_mapping_id := 0; mg_heap_id := al_heap_id a; mg_heap_handle := al_heap_handle a;
       mg_address := al_result_address a; mg_size := al_requested_size a;
       mg_created_by := event |}.

Definition observe_reallocation (event : Event) (r : ReallocationEvent) : tracking unit :=
  let creates_new := reallocation_creates_new_generation (ev_header event) r in
  (if creates_new then require_new_allocation_id (re_new_allocation_id r) else mret tt) ;;
  (if reallocation_ends_old_generation (ev_header event) r then
     let reason := if effect_is (re_effect r) Effect_kFreed
                   then Reason_kReallocationFreed else Reason_kReallocated in
     end_allocation (re_old_allocation_id r) (re_old_address r) (re_heap_id r) reason event
   else mret tt) ;;
  if negb creates_new then mret tt else
  add_allocation
    {| mg_kind := Kind_kHeapAllocation; mg_allocation_id := re_new_allocation_id r;
       mg_mapping_id := 0; mg_heap_id := re_heap_id r; mg_heap_handle := re_heap_handle r;
       mg_address := re_result_address r; mg_size := re_requested_size r;
       mg_created_by := event |}.

Definition observe_free (event : Event) (f : FreeEvent) : tracking unit :=
  if negb (free_ends_generation (ev_header event) f) then mret tt else
  end_allocation (fr_allocation_id f) (fr_address f) (fr_heap_id f) Reason_kFreed event.

(** The loop of [observe_heap_destroy], over the elements the iterator has yet
    to visit; [erase] removes only the one it stands at. *)
Fixpoint destroy_loop (event : Event) (heap_id : Z) (rest : ordered_map MemoryGeneration)
    : tracking unit :=
  match rest with
  | [] => mret tt
  | (id, g) :: rest =>
      (if negb (mg_heap_id g =? heap_id) then mret tt else
       notify_ended g Reason_kHeapDestroyed event ;;
       checked_increment Ended "ended generation" ;;
       modify (with_allocations (erase id))) ;;
      destroy_loop event heap_id rest
  end.

Definition observe_heap_destroy (event : Event) (d : HeapDestroyEvent) : tracking unit :=
  if negb (heap_destroy_ends_generations (ev_header event) d) then mret tt else
  t ← get_state;
  destroy_loop event (hd_heap_id d) (live_allocations_ t).

(** ** Mapping events *)

(** The end of the contiguous run of fragments that reaches [run_end]. *)
Fixpoint extend_run (fuel : nat) (run_end : Z) (live : IntervalSet Z) : option Z :=
  match fuel with
  | O => None
  | S fuel =>
      match find run_end live with
      | Some next =>
          if negb (f_begin next =? run_end) then Some run_end
          else extend_run fuel (f_end next) live
      | None => Some run_end
      end
  end.

Definition set_size_of (g : MemoryGeneration) (size : Z) : MemoryGeneration :=
  {| mg_kind := mg_kind g; mg_allocation_id := mg_allocation_id g;
     mg_mapping_id := mg_mapping_id g; mg_heap_id := mg_heap_id g;
     mg_heap_handle := mg_heap_handle g; mg_address := mg_address g; mg_size := size;
     mg_created_by := mg_created_by g |}.

(** [state.live = live; state.generation.size = size], in the map. *)
Definition store_mapping (id : Z) (s : MappingState) : tracking unit :=
  modify (with_mappings (assign id s)).

(** The live fragments after an update of a live mapping: a resize of the run
    that starts at [update_base], or a commit inside a fragment.  Every turn of
    the run loop passes a fragment, so the fuel is enough. *)
Definition resize_live (update_base update_size : Z) (fragment : Fragment Z)
    (live : IntervalSet Z) : result exn (IntervalSet Z) :=
  if f_begin fragment =? update_base then
    let run_end := default (f_end fragment) (extend_run (S (length live)) (f_end fragment) live) in
    let extent := wrap64 (run_end - update_base) in
    if extent <? update_size then
      Ok (snd (insert run_end (wrap64 (update_base + update_size)) 0 live))
    else if update_size <? extent then
      Ok (snd (subtract (wrap64 (update_base + update_size)) run_end live))
    else Ok live
  else if wrap64 (f_end fragment - update_base) <? update_size then
    throw GenerationStateError "virtual memory update exceeds its mapping generation"
  else Ok live.

Definition observe_vm_allocate (event : Event) (a : VmAllocateEvent) : tracking unit :=
  if negb (call_succeeded (status (ev_header event))) || negb (is_valid (va_mapping_id a))
  then mret tt else
  let update_base := if va_mapping_base a =? 0 then va_result_base a else va_mapping_base a in
  let update_size := if va_mapping_size a =? 0 then va_result_size a else va_mapping_size a in
  state_error_if (u64_max - update_base <? update_size)
    "virtual memory generation range overflows" ;;
  t ← get_state;
  match om_find (va_mapping_id a) (live_mappings_ t) with
  | Some s =>
      let existing := ms_generation s in
      state_error_if (negb (bool_decide (mg_kind existing = Kind_kVirtualAllocation)) ||
                      (update_base <? mg_address existing))
        "virtual memory update does not match its mapping generation" ;;
      match find update_base (ms_live s) with
      | None => state_error "virtual memory update does not match its mapping generation"
      | Some fragment =>
          live ← pure (resize_live update_base update_size fragment (ms_live s));
          let live_bytes := total_bytes live in
          if negb (live_bytes =? mg_size existing) then
            let existing := set_size_of existing live_bytes in
            store_mapping (va_mapping_id a) {| ms_generation := existing; ms_live := live |} ;;
            notify_changed existing event
          else
            store_mapping (va_mapping_id a) {| ms_generation := existing; ms_live := live |}
      end
  | None =>
      add_mapping
        {| ms_generation :=
             {| mg_kind := Kind_kVirtualAllocation; mg_allocation_id := 0;
                mg_mapping_id := va_mapping_id a; mg_heap_id := 0; mg_heap_handle := 0;
                mg_address := update_base; mg_size := update_size; mg_created_by := event |};
           ms_live := snd (insert update_base (wrap64 (update_base + update_size)) 0 []) |}
  end.

Definition kMemRelease : Z := 0x00008000.

Definition observe_vm_free (event : Event) (f : VmFreeEvent) : tracking unit :=
  if negb (call_succeeded (status (ev_header event))) || negb (is_valid (vf_mapping_id f))
  then mret tt else
  if Z.land (vf_free_type f) kMemRelease =? 0 then mret tt else
  t ← get_state;
  match om_find (vf_mapping_id f) (live_mappings_ t) with
  | None => checked_increment Orphaned_mapping "orphaned mapping end"
  | Some s =>
      let g := ms_generation s in
      if vf_region_size f =? 0 then
        state_error_if (negb (bool_decide (mg_kind g = Kind_kVirtualAllocation)) ||
                        negb (vf_base f =? mg_address g))
          "mapping end address does not match its mapping_id" ;;
        notify_ended g Reason_kVirtualFreed event ;;
        checked_increment Ended "ended generation" ;;
        modify (with_mappings (erase (vf_mapping_id f)))
      else
        state_error_if (u64_max - vf_base f <? vf_region_size f)
          "virtual memory free range overflows" ;;
        let '(removed, live) :=
          subtract (vf_base f) (wrap64 (vf_base f + vf_region_size f)) (ms_live s) in
        store_mapping (vf_mapping_id f) {| ms_generation := g; ms_live := live |} ;;
        state_error_if (match removed with [] => true | _ => false end)
          "mapping free matches no live fragment of its mapping_id" ;;
        if negb (empty_set live) then
          let g := set_size_of g (total_bytes live) in
          store_mapping (vf_mapping_id f) {| ms_generation := g; ms_live := live |} ;;
          notify_changed g event
        else
          notify_ended g (if bool_decide (mg_kind g = Kind_kMappedView)
                          then Reason_kUnmapped else Reason_kVirtualFreed) event ;;
          checked_increment Ended "ended generation" ;;
          modify (with_mappings (erase (vf_mapping_id f)))
  end.

Definition observe_map (event : Event) (m : MapEvent) : tracking unit :=
  if negb (call_succeeded (status (ev_header event))) || negb (is_valid (mp_mapping_id m))
  then mret tt else
  state_error_if (u64_max - mp_result_base m <? mp_view_size m)
    "mapped view generation range overflows" ;;
  add_mapping
    {| ms_generation :=
         {| mg_kind := Kind_kMappedView; mg_allocation_id := 0;
            mg_mapping_id := mp_mapping_id m; mg_heap_id := 0; mg_heap_handle := 0;
            mg_address := mp_result_base m; mg_size := mp_view_size m; mg_created_by := event |};
       ms_live := snd (insert (mp_result_base m) (wrap64 (mp_result_base m + mp_view_size m)) 0 []) |}.

Definition observe_unmap (event : Event) (u : UnmapEvent) : tracking unit :=
  if negb (call_succeeded (status (ev_header event))) || negb (is_valid (um_mapping_id u))
  then mret tt else
  end_mapping (um_mapping_id u) (um_base u) Kind_kMappedView Reason_kUnmapped event.

Definition observe (event : Event) : tracking unit :=
  pure (validate_event event) ;;
  match ev_payload event with
  | HeapCreate _ => mret tt
  | HeapDestroy d => observe_heap_destroy event d
  | Allocation a => observe_allocation event a
  | Reallocation r => observe_reallocation event r
  | Free f => observe_free event f
  | VmAllocate a => observe_vm_allocate event a
  | VmFree f => observe_vm_free event f
  | Map m => observe_map event m
  | Unmap u => observe_unmap event u
  end.

(** A stream of events, up to the first that is rejected. *)
Fixpoint observe_all (events : list Event) : tracking unit :=
  match events with
  | [] => mret tt
  | event :: events => observe event ;; observe_all events
  end.
