(* ===== verification/TrackerInvariant.v ===== *)
(** * The invariant of the generation tracker

    What holds of the members between two calls of [observe], that the calls of
    the callbacks tell the whole story, and that a rejected event changes
    nothing. *)

From S2P Require Import Prelude OrderedMap IntervalSet WireFormat Event GenerationTracker.

(** ** Replaying the callbacks *)

(** Allocations and mappings have identifiers of their own. *)
Definition generation_key : Type := Z + Z.

Definition key_of (g : MemoryGeneration) : generation_key :=
  if decide (mg_kind g = Kind_kHeapAllocation) then inl (mg_allocation_id g)
  else inr (mg_mapping_id g).

(** What a client that follows the callbacks knows: the live generations and the
    identifiers it has seen.  [None]: the calls make no sense, because an
    identifier is reused, or a generation ends or changes that is not live, or
    one changes that is not a mapping. *)
Definition client_view : Type := gmap generation_key MemoryGeneration * gset generation_key.

Definition client_step (view : option client_view) (n : Notification) : option client_view :=
  match view with
  | None => None
  | Some (live, ever) =>
      match n with
      | on_created g =>
          if decide (key_of g ∈ ever) then None
          else Some (<[key_of g := g]> live, {[key_of g]} ∪ ever)
      | on_ended g _ _ =>
          if decide (live !! key_of g = Some g) then Some (delete (key_of g) live, ever) else None
      | on_changed g _ =>
          match live !! key_of g with
          | Some g' =>
              if decide (g = set_size_of g' (mg_size g) ∧ mg_kind g ≠ Kind_kHeapAllocation) then Some (<[key_of g := g]> live, ever)
              else None
          | None => None
          end
      end
  end.

Definition client_run (calls : list Notification) : option client_view :=
  foldl client_step (Some (∅, ∅)) calls.

Lemma client_run_snoc calls n : client_run (calls ++ [n]) = client_step (client_run calls) n.
Proof. unfold client_run. by rewrite foldl_app. Qed.

(** ** The invariant *)

Definition live_generation (t : GenerationTracker) (k : generation_key) : option MemoryGeneration :=
  match k with inl id => find_allocation id t | inr id => find_mapping id t end.

Definition seen_key (t : GenerationTracker) (k : generation_key) : Prop :=
  match k with inl id => id ∈ seen_allocation_ids_ t | inr id => id ∈ seen_mapping_ids_ t end.

Definition allocation_ok (t : GenerationTracker) (id : Z) (g : MemoryGeneration) : Prop :=
  mg_kind g = Kind_kHeapAllocation ∧ mg_allocation_id g = id ∧ id ∈ seen_allocation_ids_ t.

Definition mapping_ok (t : GenerationTracker) (id : Z) (s : MappingState) : Prop :=
  mg_kind (ms_generation s) ≠ Kind_kHeapAllocation ∧ mg_mapping_id (ms_generation s) = id ∧
  id ∈ seen_mapping_ids_ t ∧ interval_wf (ms_live s) ∧
  mg_size (ms_generation s) = total_bytes (ms_live s).

Record tracker_inv (t : GenerationTracker) : Prop := {
  ti_sorted_allocations : sorted_keys (live_allocations_ t);
  ti_sorted_mappings : sorted_keys (live_mappings_ t);
  ti_allocations : ∀ id g, om_find id (live_allocations_ t) = Some g → allocation_ok t id g;
  ti_mappings : ∀ id s, om_find id (live_mappings_ t) = Some s → mapping_ok t id s;
  ti_counts : created_count_ t =
    ended_count_ t + size_of (live_allocations_ t) + size_of (live_mappings_ t);
  ti_ended : 0 ≤ ended_count_ t;
  ti_created : created_count_ t ≤ u64_max;
  ti_client : ∃ live ever, client_run (notifications t) = Some (live, ever) ∧
    (∀ k, live !! k = live_generation t k) ∧ (∀ k, k ∈ ever ↔ seen_key t k);
  ti_valid : ∀ id, id ∈ seen_allocation_ids_ t → is_valid id = true;
}.

Lemma tracker_inv_new : tracker_inv GenerationTracker_new.
Proof.
  split; try done; try by constructor.
  exists ∅, ∅. split_and!; [done|by intros []|intros [|]; set_solver].
Qed.

(** ** Counters *)

Lemma bump_members c t :
  live_allocations_ (bump c t) = live_allocations_ t ∧ live_mappings_ (bump c t) = live_mappings_ t ∧
  seen_allocation_ids_ (bump c t) = seen_allocation_ids_ t ∧
  seen_mapping_ids_ (bump c t) = seen_mapping_ids_ t ∧ notifications (bump c t) = notifications t.
Proof. by destruct c. Qed.

Lemma wp_checked_increment c subject t (P : unit → GenerationTracker → Prop) Q :
  (counter_value c t < u64_max ∨ u64_max < counter_value c t → P tt (bump c t)) →
  (counter_value c t = u64_max → ∀ e, Q e t) →
  wp (checked_increment c subject) t P Q.
Proof.
  intros HP HQ. unfold checked_increment. wp_step. wp_step. destruct (Z.eqb_spec (counter_value c t) u64_max).
  - unfold state_error. by apply wp_pure; [|intros ? _; apply HQ].
  - wp_step. apply HP. lia.
Qed.

Lemma wp_state_error_if b msg t (P : unit → GenerationTracker → Prop) Q :
  (b = false → P tt t) → (b = true → ∀ e, Q e t) → wp (state_error_if b msg) t P Q.
Proof. intros HP HQ. unfold state_error_if. apply wp_pure; destruct b; naive_solver. Qed.

Lemma inv_orphan c t : c = Orphaned_allocation ∨ c = Orphaned_mapping →
  tracker_inv t → tracker_inv (bump c t).
Proof.
  intros [-> | ->] []; by split.
Qed.

(** ** Births *)

Definition born_allocation (g : MemoryGeneration) (t : GenerationTracker) : GenerationTracker :=
  let id := mg_allocation_id g in
  notify (on_created g) (bump Created (with_allocations (emplace id g)
    (with_seen ({[id]} ∪ seen_allocation_ids_ t) (seen_mapping_ids_ t) t))).

Definition born_mapping (s : MappingState) (t : GenerationTracker) : GenerationTracker :=
  let id := mg_mapping_id (ms_generation s) in
  notify (on_created (ms_generation s)) (bump Created (with_mappings (emplace id s)
    (with_seen (seen_allocation_ids_ t) ({[id]} ∪ seen_mapping_ids_ t) t))).

Lemma size_of_emplace {V} k (v : V) m : om_find k m = None → sorted_keys m →
  size_of (emplace k v m) = size_of m + 1.
Proof.
  intros Hk Hm. destruct (emplace_split k v m Hm Hk) as (p & q & -> & _ & _ & ->).
  unfold size_of. rewrite !length_app. cbn. lia.
Qed.

Lemma size_of_erase {V} k (v : V) m : om_find k m = Some v → sorted_keys m →
  size_of (erase k m) = size_of m - 1.
Proof.
  intros (p & q & ->)%om_find_split Hm. rewrite erase_mid by done.
  unfold size_of. rewrite !length_app. cbn. lia.
Qed.

Lemma size_of_assign {V} k (v : V) m : size_of (assign k v m) = size_of m.
Proof. unfold size_of, assign. by rewrite length_fmap. Qed.

Lemma unseen_allocation t id : tracker_inv t → id ∉ seen_allocation_ids_ t →
  om_find id (live_allocations_ t) = None.
Proof.
  intros Hinv Hid. destruct (om_find id (live_allocations_ t)) eqn:E; [|done].
  by destruct (ti_allocations t Hinv id _ E) as (_ & _ & ?).
Qed.

Lemma unseen_mapping t id : tracker_inv t → id ∉ seen_mapping_ids_ t →
  om_find id (live_mappings_ t) = None.
Proof.
  intros Hinv Hid. destruct (om_find id (live_mappings_ t)) eqn:E; [|done].
  by destruct (ti_mappings t Hinv id _ E) as (_ & _ & ? & _).
Qed.

Lemma key_of_allocation g : mg_kind g = Kind_kHeapAllocation → key_of g = inl (mg_allocation_id g).
Proof. intros H. unfold key_of. by rewrite decide_True. Qed.
Lemma key_of_mapping g : mg_kind g ≠ Kind_kHeapAllocation → key_of g = inr (mg_mapping_id g).
Proof. intros H. unfold key_of. by rewrite decide_False. Qed.

Lemma inv_born_allocation g t : tracker_inv t → created_count_ t < u64_max →
  mg_kind g = Kind_kHeapAllocation → mg_allocation_id g ∉ seen_allocation_ids_ t →
  is_valid (mg_allocation_id g) = true → tracker_inv (born_allocation g t).
Proof.
  intros Hinv Hroom Hkind Hnew Hvalid. pose proof (unseen_allocation t _ Hinv Hnew) as Hnone.
  destruct Hinv as [Hsa Hsm Ha Hm Hcount Hended Hcreated (live & ever & Hrun & Hlive & Hever) Hids].
  split; cbn; try done.
  - by apply sorted_emplace.
  - intros id g' H. rewrite om_find_emplace in H by done. unfold allocation_ok. cbn.
    case_decide as E; [simplify_eq; set_solver|]. destruct (Ha id g' H) as (? & ? & ?). set_solver.
  - rewrite size_of_emplace by done. lia.
  - lia.
  - exists (<[key_of g := g]> live), ({[key_of g]} ∪ ever). rewrite client_run_snoc, Hrun.
    cbn [client_step]. rewrite (key_of_allocation g Hkind).
    rewrite decide_False by (rewrite Hever; done). split_and!; [done|..].
    + intros [id|id]; cbn.
      * unfold find_allocation. cbn. rewrite om_find_emplace by done. case_decide as E.
        -- subst. by rewrite lookup_insert_eq.
        -- rewrite lookup_insert_ne by congruence. by rewrite Hlive.
      * rewrite lookup_insert_ne by done. by rewrite Hlive.
    + intros [id|id]; rewrite elem_of_union, elem_of_singleton, Hever; cbn; set_solver.
  - intros id [->%elem_of_singleton|]%elem_of_union; auto.
Qed.

Lemma inv_born_mapping s t : tracker_inv t → created_count_ t < u64_max →
  mg_kind (ms_generation s) ≠ Kind_kHeapAllocation → interval_wf (ms_live s) →
  mg_size (ms_generation s) = total_bytes (ms_live s) →
  mg_mapping_id (ms_generation s) ∉ seen_mapping_ids_ t →
  tracker_inv (born_mapping s t).
Proof.
  intros Hinv Hroom Hkind Hwf Hsize Hnew. pose proof (unseen_mapping t _ Hinv Hnew) as Hnone.
  destruct Hinv as [Hsa Hsm Ha Hm Hcount Hended Hcreated (live & ever & Hrun & Hlive & Hever)].
  split; cbn; try done.
  - by apply sorted_emplace.
  - intros id s' H. rewrite om_find_emplace in H by done. unfold mapping_ok. cbn.
    case_decide as E; [simplify_eq; set_solver|]. destruct (Hm id s' H) as (? & ? & ? & ? & ?). set_solver.
  - rewrite size_of_emplace by done. lia.
  - lia.
  - exists (<[key_of (ms_generation s) := ms_generation s]> live), ({[key_of (ms_generation s)]} ∪ ever). rewrite client_run_snoc, Hrun.
    cbn [client_step]. rewrite (key_of_mapping _ Hkind).
    rewrite decide_False by (rewrite Hever; done). split_and!; [done|..].
    + intros [id|id]; cbn.
      * rewrite lookup_insert_ne by done. by rewrite Hlive.
      * unfold find_mapping. cbn. rewrite om_find_emplace by done. case_decide as E.
        -- subst. by rewrite lookup_insert_eq.
        -- rewrite lookup_insert_ne by congruence. by rewrite Hlive.
    + intros [id|id]; rewrite elem_of_union, elem_of_singleton, Hever; cbn; set_solver.
Qed.

(** ** Ends and changes *)

Definition ended_allocation (id : Z) (g : MemoryGeneration) (reason : GenerationEndReason)
    (event : Event) (t : GenerationTracker) : GenerationTracker :=
  with_allocations (erase id) (bump Ended (notify (on_ended g reason event) t)).

Definition ended_mapping (id : Z) (g : MemoryGeneration) (reason : GenerationEndReason)
    (event : Event) (t : GenerationTracker) : GenerationTracker :=
  with_mappings (erase id) (bump Ended (notify (on_ended g reason event) t)).

(** A live generation means that fewer generations have ended than started. *)
Lemma ended_room_allocation t id g : tracker_inv t → om_find id (live_allocations_ t) = Some g →
  ended_count_ t < u64_max.
Proof.
  intros [_ _ _ _ Hcount _ Hcreated _] (p & q & E)%om_find_split.
  assert (0 < size_of (live_allocations_ t)) by (rewrite E; unfold size_of; rewrite length_app; cbn; lia).
  pose proof (size_of_nonneg (live_mappings_ t)). lia.
Qed.

Lemma ended_room_mapping t id s : tracker_inv t → om_find id (live_mappings_ t) = Some s →
  ended_count_ t < u64_max.
Proof.
  intros [_ _ _ _ Hcount _ Hcreated _] (p & q & E)%om_find_split.
  assert (0 < size_of (live_mappings_ t)) by (rewrite E; unfold size_of; rewrite length_app; cbn; lia).
  pose proof (size_of_nonneg (live_allocations_ t)). lia.
Qed.

Lemma inv_ended_allocation id g reason event t : tracker_inv t →
  om_find id (live_allocations_ t) = Some g → tracker_inv (ended_allocation id g reason event t).
Proof.
  intros [Hsa Hsm Ha Hm Hcount Hended Hcreated (live & ever & Hrun & Hlive & Hever)] Hg.
  destruct (Ha id g Hg) as (Hkind & Hid & Hseen).
  split; cbn; try done.
  - by apply sorted_erase.
  - intros id' g' H. rewrite om_find_erase in H. case_decide; [done|]. by apply Ha.
  - rewrite (size_of_erase id g) by done. lia.
  - lia.
  - exists (delete (key_of g) live), ever. rewrite client_run_snoc, Hrun. cbn [client_step].
    rewrite (key_of_allocation g Hkind), Hid.
    rewrite decide_True by (rewrite Hlive; done). split_and!; [done|..|done].
    intros [id'|id']; cbn.
    + unfold find_allocation. cbn. rewrite om_find_erase. case_decide as E.
      * subst. by rewrite lookup_delete_eq.
      * rewrite lookup_delete_ne by congruence. by rewrite Hlive.
    + rewrite lookup_delete_ne by done. by rewrite Hlive.
Qed.

Lemma inv_ended_mapping id s reason event t : tracker_inv t →
  om_find id (live_mappings_ t) = Some s →
  tracker_inv (ended_mapping id (ms_generation s) reason event t).
Proof.
  intros [Hsa Hsm Ha Hm Hcount Hended Hcreated (live & ever & Hrun & Hlive & Hever)] Hs.
  destruct (Hm id s Hs) as (Hkind & Hid & Hseen & _).
  split; cbn; try done.
  - by apply sorted_erase.
  - intros id' s' H. rewrite om_find_erase in H. case_decide; [done|]. by apply Hm.
  - rewrite (size_of_erase id s) by done. lia.
  - lia.
  - exists (delete (key_of (ms_generation s)) live), ever. rewrite client_run_snoc, Hrun. cbn [client_step].
    rewrite (key_of_mapping _ Hkind), Hid.
    rewrite decide_True by (rewrite Hlive; cbn; unfold find_mapping; by rewrite Hs).
    split_and!; [done|..|done]. intros [id'|id']; cbn.
    + rewrite lookup_delete_ne by done. by rewrite Hlive.
    + unfold find_mapping. cbn. rewrite om_find_erase. case_decide as E.
      * subst. by rewrite lookup_delete_eq.
      * rewrite lookup_delete_ne by congruence. by rewrite Hlive.
Qed.

(** The mapping [id] with another live set, with or without a notification. *)
Definition changed_mapping (id : Z) (g : MemoryGeneration) (live : IntervalSet Z) (event : Event)
    (t : GenerationTracker) : GenerationTracker :=
  let g := set_size_of g (total_bytes live) in
  notify (on_changed g event)
    (with_mappings (assign id {| ms_generation := g; ms_live := live |}) t).

Lemma mapping_ok_assign t id s g live : mapping_ok t id s → interval_wf live →
  g = set_size_of (ms_generation s) (total_bytes live) →
  mapping_ok t id {| ms_generation := g; ms_live := live |}.
Proof. intros (? & ? & ? & ? & ?) Hwf ->. by split_and!. Qed.

Lemma inv_changed_mapping id s live event t : tracker_inv t →
  om_find id (live_mappings_ t) = Some s → interval_wf live →
  tracker_inv (changed_mapping id (ms_generation s) live event t).
Proof.
  intros [Hsa Hsm Ha Hm Hcount Hended Hcreated (lives & ever & Hrun & Hlive & Hever)] Hs Hwf.
  pose proof (Hm id s Hs) as Hok. pose proof Hok as (Hkind & Hid & Hseen & _).
  split; cbn; try done.
  - by apply sorted_assign.
  - intros id' s' H. rewrite om_find_assign in H. case_decide; [|by apply Hm]. subst id'.
    rewrite Hs in H. injection H as <-. by eapply (mapping_ok_assign t).
  - by rewrite size_of_assign.
  - set (g := set_size_of (ms_generation s) (total_bytes live)).
    exists (<[inr id := g]> lives), ever. rewrite client_run_snoc, Hrun. cbn [client_step].
    assert (key_of g = inr id) as -> by (unfold key_of; cbn; by rewrite decide_False, Hid).
    rewrite Hlive. cbn. unfold find_mapping at 1. rewrite Hs. cbn.
    rewrite decide_True by (by split). split_and!; [done|..|done]. intros [id'|id']; cbn.
    + rewrite lookup_insert_ne by done. by rewrite Hlive.
    + unfold find_mapping. cbn. rewrite om_find_assign. case_decide as E.
      * subst id'. by rewrite lookup_insert_eq, Hs.
      * rewrite lookup_insert_ne by congruence. by rewrite Hlive.
Qed.

(** A resize that leaves the number of live bytes alone is not reported. *)
Lemma inv_stored_mapping id s live t : tracker_inv t →
  om_find id (live_mappings_ t) = Some s → interval_wf live →
  total_bytes live = mg_size (ms_generation s) →
  tracker_inv (with_mappings (assign id {| ms_generation := ms_generation s; ms_live := live |}) t).
Proof.
  intros [Hsa Hsm Ha Hm Hcount Hended Hcreated (lives & ever & Hrun & Hlive & Hever)] Hs Hwf Hsize.
  pose proof (Hm id s Hs) as Hok.
  split; cbn; try done.
  - by apply sorted_assign.
  - intros id' s' H. rewrite om_find_assign in H. case_decide; [|by apply Hm]. subst id'.
    rewrite Hs in H. injection H as <-. eapply (mapping_ok_assign t); [done..|].
    rewrite Hsize. by destruct (ms_generation s).
  - by rewrite size_of_assign.
  - exists lives, ever. split_and!; [done|..|done]. intros [id'|id']; [by rewrite Hlive|].
    rewrite Hlive. cbn. unfold find_mapping. cbn. rewrite om_find_assign. case_decide; [|done].
    subst. by rewrite Hs.
Qed.

(** ** The helpers of the handlers *)

Lemma wp_require_new_allocation_id id t (P : unit → GenerationTracker → Prop) Q :
  (id ∉ seen_allocation_ids_ t → is_valid id = true → P tt t) →
  (is_valid id = false ∨ id ∈ seen_allocation_ids_ t → ∀ e, Q e t) →
  wp (require_new_allocation_id id) t P Q.
Proof.
  intros HP HQ. unfold require_new_allocation_id. wp_step. wp_step. wp_step.
  apply wp_state_error_if; intros Hid; apply negb_true_iff in Hid || apply negb_false_iff in Hid;
    [|by apply HQ; left].
  apply wp_state_error_if; intros Hnew; bool_facts; [by apply HP|by apply HQ; right].
Qed.

Lemma wp_require_new_mapping_id id t (P : unit → GenerationTracker → Prop) Q :
  (id ∉ seen_mapping_ids_ t → is_valid id = true → P tt t) →
  (is_valid id = false ∨ id ∈ seen_mapping_ids_ t → ∀ e, Q e t) →
  wp (require_new_mapping_id id) t P Q.
Proof.
  intros HP HQ. unfold require_new_mapping_id. wp_step. wp_step. wp_step.
  apply wp_state_error_if; intros Hid; apply negb_true_iff in Hid || apply negb_false_iff in Hid;
    [|by apply HQ; left].
  apply wp_state_error_if; intros Hnew; bool_facts; [by apply HP|by apply HQ; right].
Qed.

Lemma wp_add_allocation g t (P : unit → GenerationTracker → Prop) Q :
  tracker_inv t → created_count_ t < u64_max →
  (mg_allocation_id g ∉ seen_allocation_ids_ t → is_valid (mg_allocation_id g) = true →
     P tt (born_allocation g t)) →
  (is_valid (mg_allocation_id g) = false ∨ mg_allocation_id g ∈ seen_allocation_ids_ t →
     ∀ e, Q e t) →
  wp (add_allocation g) t P Q.
Proof.
  intros Hinv Hroom HP HQ. unfold add_allocation. wp_step.
  apply wp_require_new_allocation_id; [intros Hnew Hvalid|exact HQ]. do 7 wp_step.
  apply wp_state_error_if; cbn; intros Hlive.
  2:{ apply bool_decide_eq_true in Hlive. rewrite (unseen_allocation t) in Hlive by done. by destruct Hlive. }
  wp_step. apply wp_checked_increment; [intros _|cbn; lia]. unfold notify_created. wp_step. by apply HP.
Qed.

Lemma wp_add_mapping s t (P : unit → GenerationTracker → Prop) Q :
  tracker_inv t → created_count_ t < u64_max →
  (mg_mapping_id (ms_generation s) ∉ seen_mapping_ids_ t → P tt (born_mapping s t)) →
  (∀ e, Q e t) →
  wp (add_mapping s) t P Q.
Proof.
  intros Hinv Hroom HP HQ. unfold add_mapping. wp_step.
  apply wp_require_new_mapping_id; [intros Hnew _|done]. do 7 wp_step.
  apply wp_state_error_if; cbn; intros Hlive.
  2:{ apply bool_decide_eq_true in Hlive. rewrite (unseen_mapping t) in Hlive by done. by destruct Hlive. }
  wp_step. apply wp_checked_increment; [intros _|cbn; lia]. unfold notify_created. wp_step. by apply HP.
Qed.

(** Notify, count and erase. *)
Lemma wp_end_allocation id addr heap reason event t (P : unit → GenerationTracker → Prop) Q :
  tracker_inv t →
  (om_find id (live_allocations_ t) = None → P tt (bump Orphaned_allocation t)) →
  (∀ g, om_find id (live_allocations_ t) = Some g → mg_address g = addr →
     heap_ids_conflict (mg_heap_id g) heap = false → P tt (ended_allocation id g reason event t)) →
  (∀ e, Q e t) → wp (end_allocation id addr heap reason event) t P Q.
Proof.
  intros Hinv HPn HPs HQ. unfold end_allocation. wp_step. wp_step.
  destruct (om_find id (live_allocations_ t)) as [g|] eqn:E.
  - wp_step. apply wp_state_error_if; [intros Haddr|done]. wp_step.
    apply wp_state_error_if; [intros Hheap|done]. unfold notify_ended. do 3 wp_step.
    pose proof (ended_room_allocation t id g Hinv E).
    apply wp_checked_increment; [intros _|cbn; lia]. wp_step. bool_facts. by apply HPs.
  - apply wp_checked_increment; auto.
Qed.

Lemma wp_end_mapping id addr kind reason event t (P : unit → GenerationTracker → Prop) Q :
  tracker_inv t →
  (om_find id (live_mappings_ t) = None → P tt (bump Orphaned_mapping t)) →
  (∀ s, om_find id (live_mappings_ t) = Some s → mg_address (ms_generation s) = addr →
     mg_kind (ms_generation s) = kind →
     P tt (ended_mapping id (ms_generation s) reason event t)) →
  (∀ e, Q e t) → wp (end_mapping id addr kind reason event) t P Q.
Proof.
  intros Hinv HPn HPs HQ. unfold end_mapping. wp_step. wp_step.
  destruct (om_find id (live_mappings_ t)) as [s|] eqn:E.
  - wp_step. apply wp_state_error_if; [intros Hkind|done]. wp_step.
    apply wp_state_error_if; [intros Haddr|done]. unfold notify_ended. do 3 wp_step.
    pose proof (ended_room_mapping t id s Hinv E).
    apply wp_checked_increment; [intros _|cbn; lia]. wp_step. bool_facts. by apply HPs.
  - apply wp_checked_increment; auto.
Qed.

(** ** Heap destruction *)

(** The loop ends exactly the allocations of the heap. *)
Lemma wp_destroy_loop event heap rest t (P : unit → GenerationTracker → Prop) Q :
  tracker_inv t → sorted_keys rest →
  (∀ id g, om_find id rest = Some g → om_find id (live_allocations_ t) = Some g) →
  (∀ t', tracker_inv t' → live_mappings_ t' = live_mappings_ t →
     created_count_ t' = created_count_ t →
     (∀ id, find_allocation id t' =
        match om_find id rest with
        | Some g => if mg_heap_id g =? heap then None else find_allocation id t
        | None => find_allocation id t
        end) → P tt t') →
  wp (destroy_loop event heap rest) t P Q.
Proof.
  revert t. induction rest as [|[id g] rest IH]; intros t Hinv Hs Hsub HP; cbn [destroy_loop].
  { apply wp_ret, HP; done. }
  pose proof (Hsub id g) as Hg. cbn in Hg. rewrite Z.eqb_refl in Hg. specialize (Hg eq_refl).
  pose proof Hs as [Habove Hs']%sorted_keys_cons. pose proof (om_find_above _ _ Habove) as Hid.
  assert (Hsub' : ∀ id' g', om_find id' rest = Some g' →
    id ≠ id' ∧ om_find id' (live_allocations_ t) = Some g').
  { intros id' g' H. assert (id ≠ id') by congruence. split; [done|]. apply Hsub. cbn.
    by rewrite (proj2 (Z.eqb_neq _ _)). }
  wp_step. destruct (mg_heap_id g =? heap) eqn:Eheap; cbn [negb].
  - unfold notify_ended. do 3 wp_step. pose proof (ended_room_allocation t id g Hinv Hg).
    apply wp_checked_increment; [intros _|cbn; lia]. wp_step.
    apply IH; [by apply (inv_ended_allocation id g Reason_kHeapDestroyed event)|done|..].
    + intros id' g' [? ?]%Hsub'. cbn. rewrite om_find_erase. by rewrite decide_False.
    + intros t' Hinv' Hm Hc Hf. apply HP; try done. intros id'. rewrite Hf. cbn.
      unfold find_allocation. cbn. rewrite om_find_erase. case_decide as E.
      * subst id'. by rewrite Hid, Z.eqb_refl, Eheap.
      * by rewrite (proj2 (Z.eqb_neq _ _)).
  - wp_step. apply IH; [done|done|intros id' g' H; by apply Hsub'|].
    intros t' Hinv' Hm Hc Hf. apply HP; try done. intros id'. rewrite Hf. cbn.
    destruct (Z.eqb_spec id id') as [<-|]; [by rewrite Hid, Eheap|done].
Qed.

(** ** Live sets *)

Lemma first_live b e : 0 ≤ b → b ≤ e → e ≤ u64_max →
  interval_wf (snd (insert b e 0 [])) ∧ total_bytes (snd (insert b e 0 [])) = e - b ∧
  ∀ a, value_at a (snd (insert b e 0 [])) = if within b e a then Some 0 else None.
Proof.
  intros Hb Hbe He. pose proof (wf_nil (T:=Z)) as Hnil. split_and!.
  - by apply (value_at_insert b e 0 [] 0).
  - destruct (Z.le_gt_cases e b); [rewrite insert_empty_range by done; cbn; lia|].
    destruct (insert_spec b e 0 [] Hnil Hb ltac:(lia) He) as (p & q & Hpq & -> & _ & _ & Hwf).
    unfold remaining in Hpq. rewrite (proj2 (Z.leb_gt _ _)) in Hpq by lia. cbn in Hpq.
    symmetry in Hpq. apply app_eq_nil in Hpq as [-> ->]. cbn [snd app] in *.
    destruct (total_bytes_spec _ Hwf) as [-> _]. cbn. unfold interval_bytes. cbn. lia.
  - intros a. by apply (value_at_insert b e 0 []).
Qed.

(** The run loop passes the fragments after [run_end] one by one and stops at
    the first address that is not live. *)
Lemma extend_run_spec (q : IntervalSet Z) : ∀ fuel p run_end, interval_wf (p ++ q) →
  Forall (λ x, x.2.1 ≤ run_end) p → Forall (λ x, run_end ≤ x.1) q →
  (length q < fuel)%nat → run_end ≤ u64_max →
  ∃ stop, extend_run fuel run_end (p ++ q) = Some stop ∧ run_end ≤ stop ≤ u64_max ∧
    value_at stop (p ++ q) = None ∧ ∀ a, run_end ≤ a < stop → is_Some (value_at a (p ++ q)).
Proof.
  induction q as [|x q IH]; intros [|fuel] p run_end Hwf Hp Hq Hfuel Hmax;
    cbn [length] in *; try lia; cbn [extend_run];
    pose proof (find_spec run_end _ Hwf) as Hfind; destruct (find run_end _) as [f|].
  - destruct Hfind as (p' & q' & Hmid & [Hf1 Hf2] & _). rewrite app_nil_r in Hmid.
    rewrite Forall_forall in Hp. assert (f_end f ≤ run_end); [|lia].
    apply (Hp (piece f)). rewrite Hmid. set_solver.
  - exists run_end. split_and!; try done; lia.
  - assert (Hin : piece f ∈ p ++ x :: q).
    { destruct Hfind as (p' & q' & -> & _). set_solver. }
    destruct Hfind as (_ & _ & _ & [Hf1 Hf2] & _).
    pose proof Hwf as (_ & ((Hx0 & Hx1 & Hx2) & _ & Hxq)%wf_cons & _)%wf_app.
    apply Forall_cons in Hq as [Hx Hq]. rewrite Forall_forall in Hp, Hxq.
    assert (x = piece f) as ->.
    { apply elem_of_app in Hin as [Hin|[->|Hin]%elem_of_cons]; [|done|].
      - specialize (Hp _ Hin). cbn in Hp. lia.
      - specialize (Hxq _ Hin). cbn in Hxq. lia. }
    cbn in Hx, Hxq, Hx1, Hx2. rewrite (proj2 (Z.eqb_eq (f_begin f) run_end)) by lia. cbn [negb].
    destruct (IH fuel (p ++ [piece f]) (f_end f)) as (stop & Hrun & Hstop & Hend & Hlive).
    { by rewrite <- app_assoc. }
    { apply Forall_app. split; [|by repeat constructor]. apply Forall_forall. intros y Hy.
      specialize (Hp y Hy). lia. }
    { by apply Forall_forall. }
    { lia. }
    { done. }
    rewrite <- app_assoc in *. exists stop. split_and!; [done|lia|lia|done|].
    intros a Ha. destruct (decide (a < f_end f)); [|apply Hlive; lia].
    rewrite value_at_mid; [done|done|]. unfold contains. cbn. lia.
  - exists run_end. split_and!; try done; lia.
Qed.

Definition is_live (live : IntervalSet Z) (a : Z) : Prop := is_Some (value_at a live).

(** A run of live addresses from [base], as long as it can be. *)
Definition live_run (live : IntervalSet Z) (base stop : Z) : Prop :=
  base < stop ≤ u64_max ∧ ¬ is_live live stop ∧ ∀ a, base ≤ a < stop → is_live live a.

Lemma run_from_fragment live base f : interval_wf live → find base live = Some f →
  f_begin f = base →
  ∃ stop, extend_run (S (length live)) (f_end f) live = Some stop ∧ live_run live base stop.
Proof.
  intros Hwf Hfind Hb. pose proof (find_spec base live Hwf) as H. rewrite Hfind in H.
  destruct H as (p & q & -> & Hf & _). rewrite Hb in Hf.
  pose proof Hwf as (_ & ((_ & Hlt & Hmax) & _ & Hq)%wf_cons & Hpq)%wf_app. cbn in Hlt, Hmax, Hq.
  rewrite (snoc_middle p) in *.
  destruct (extend_run_spec q (S (length ((p ++ [piece f]) ++ q))) (p ++ [piece f]) (f_end f))
    as (stop & Hrun & Hstop & Hend & Hlive); try done.
  { apply Forall_app. split; [|by repeat constructor]. apply Forall_forall. intros y Hy.
    assert (y.2.1 ≤ f_begin f) by (apply (Hpq y (piece f)); [done|by left]). lia. }
  { rewrite !length_app. lia. }
  exists stop. split; [done|]. split_and!; [lia|lia| |].
  - unfold is_live. rewrite Hend. by intros [].
  - intros a Ha. destruct (decide (a < f_end f)); [|apply Hlive; lia].
    unfold is_live. rewrite <- (snoc_middle p) in *. rewrite value_at_mid; [done|done|].
    unfold contains. cbn. lia.
Qed.

Lemma within_true b e a : within b e a = true ↔ b ≤ a < e.
Proof. unfold within. rewrite andb_true_iff, Z.leb_le, Z.ltb_lt. done. Qed.

Lemma is_live_insert b e live a : interval_wf live → 0 ≤ b → e ≤ u64_max →
  is_live (insert b e 0 live).2 a ↔ b ≤ a < e ∨ is_live live a.
Proof.
  intros Hwf Hb He. unfold is_live. destruct (value_at_insert b e 0 live a Hwf Hb He) as [_ ->].
  rewrite <- within_true. destruct (within b e a); naive_solver.
Qed.

Lemma is_live_subtract b e live a : interval_wf live →
  is_live (subtract b e live).2 a ↔ is_live live a ∧ ¬ (b ≤ a < e).
Proof.
  intros Hwf. unfold is_live. rewrite subtract_spec by done. cbn [snd]. rewrite value_at_remaining.
  rewrite <- within_true. destruct (within b e a); naive_solver.
Qed.

(** A resize leaves the run from [base] exactly [size] addresses long and every
    other address alone. *)
Lemma resize_live_spec live base size f live' : interval_wf live → u64 base → u64 size →
  base + size ≤ u64_max → find base live = Some f → resize_live base size f live = Ok live' →
  interval_wf live' ∧
  if f_begin f =? base then
    ∃ stop, live_run live base stop ∧
      ∀ a, is_live live' a ↔ base ≤ a < base + size ∨ (is_live live a ∧ ¬ (base ≤ a < stop))
  else live' = live ∧ size ≤ f_end f - base.
Proof.
  intros Hwf Hbase Hsize Hmax Hfind. unfold u64 in Hbase, Hsize. unfold resize_live.
  destruct (Z.eqb_spec (f_begin f) base) as [Hb|Hb].
  - destruct (run_from_fragment live base f Hwf Hfind Hb) as (stop & -> & Hrun).
    pose proof Hrun as ((Hs1 & Hs2) & _ & Hlive). cbv zeta.
    change (default (f_end f) (Some stop)) with stop.
    rewrite (wrap64_small (stop - base)), (wrap64_small (base + size)) by word.
    destruct (Z.ltb_spec (stop - base) size); [|destruct (Z.ltb_spec size (stop - base))];
      intros [= <-].
    + split; [apply (value_at_insert stop (base + size) 0 live 0); done || word|]. exists stop. split; [done|].
      intros a. rewrite is_live_insert by (done || word).
      split.
      * intros [H'|H']; [left; lia|]. destruct (decide (base ≤ a < stop)); [left; lia|by right].
      * intros [H'|[H' _]]; [|by right].
        destruct (decide (a < stop)); [right; apply Hlive; lia|left; lia].
    + split; [rewrite subtract_spec by done; by apply remaining_wf|]. exists stop. split; [done|].
      intros a. rewrite is_live_subtract by done. split.
      * intros [H' Hn]. destruct (decide (base ≤ a < stop)); [left; lia|by right].
      * intros [H'|[H' Hn]]; (split; [|lia]); [apply Hlive; lia|done].
    + split; [done|]. exists stop. split; [done|]. intros a.
      assert (stop = base + size) as -> by lia. split.
      * intros H'. destruct (decide (base ≤ a < base + size)); [by left|by right].
      * intros [H'|[H' _]]; [apply Hlive; lia|done].
  - destruct (wrap64 (f_end f - base) <? size) eqn:E; [done|]. intros [= <-]. bool_facts.
    split; [done|]. split; [done|]. pose proof (find_spec base live Hwf) as H. rewrite Hfind in H.
    destruct H as (p & q & -> & Hf & _).
    pose proof Hwf as (_ & ((_ & Hlt & Hfmax) & _)%wf_cons & _)%wf_app. cbn in Hlt, Hfmax.
    rewrite wrap64_small in E by word. done.
Qed.
