(* ===== verification/TrackerTheorems.v ===== *)
(** * What the generation tracker guarantees

    The invariant over any stream of events, the strong exception guarantee, and
    what each kind of event does to the live generations. *)

From S2P Require Import Prelude OrderedMap IntervalSet WireFormat Event GenerationTracker TrackerInvariant.

#[local] Arguments u64_max : simpl never.

(** ** One event *)

(** The tracker after an accepted event; a rejected one leaves it as it was. *)
Definition step_ok (t t' : GenerationTracker) : Prop :=
  tracker_inv t' ∧ created_count_ t ≤ created_count_ t' ≤ created_count_ t + 1.

Definition unchanged (t : GenerationTracker) (e : exn) (t' : GenerationTracker) : Prop := t' = t.

Lemma step_same t : tracker_inv t → step_ok t t.
Proof. split; [done|lia]. Qed.
Lemma step_orphan c t : c = Orphaned_allocation ∨ c = Orphaned_mapping →
  tracker_inv t → step_ok t (bump c t).
Proof. intros Hc Hinv. split; [by apply inv_orphan|]. destruct Hc as [-> | ->]; cbn; lia. Qed.
Lemma step_ended_allocation id g reason event t : tracker_inv t →
  om_find id (live_allocations_ t) = Some g → step_ok t (ended_allocation id g reason event t).
Proof. split; [by apply inv_ended_allocation|cbn; lia]. Qed.
Lemma step_ended_mapping id s reason event t : tracker_inv t →
  om_find id (live_mappings_ t) = Some s →
  step_ok t (ended_mapping id (ms_generation s) reason event t).
Proof. split; [by apply inv_ended_mapping|cbn; lia]. Qed.

Create HintDb tracker.
#[local] Hint Resolve step_same step_orphan step_ended_allocation step_ended_mapping : tracker.

Lemma live_wf t id s : tracker_inv t → om_find id (live_mappings_ t) = Some s →
  interval_wf (ms_live s).
Proof. intros Hinv H. by destruct (ti_mappings t Hinv id s H) as (_ & _ & _ & ? & _). Qed.

(** The last fragment of a mapping: storing the empty set first changes nothing. *)
Lemma ended_stored event t id s live reason :
  with_mappings (erase id) (bump Ended (notify (on_ended (ms_generation s) reason event)
    (with_mappings (assign id {| ms_generation := ms_generation s; ms_live := live |}) t))) =
  ended_mapping id (ms_generation s) reason event t.
Proof. unfold ended_mapping, with_mappings. cbn. by rewrite erase_assign. Qed.

Lemma changed_stored event t id s live :
  notify (on_changed (set_size_of (ms_generation s) (total_bytes live)) event)
    (with_mappings (assign id {| ms_generation := set_size_of (ms_generation s) (total_bytes live);
                                 ms_live := live |})
      (with_mappings (assign id {| ms_generation := ms_generation s; ms_live := live |}) t)) =
  changed_mapping id (ms_generation s) live event t.
Proof. unfold changed_mapping, with_mappings. cbn. by rewrite assign_assign. Qed.

Lemma stored_same t id s : tracker_inv t → om_find id (live_mappings_ t) = Some s →
  with_mappings (assign id {| ms_generation := ms_generation s; ms_live := ms_live s |}) t = t.
Proof.
  intros Hinv H. unfold with_mappings. rewrite assign_same; [by destruct t|apply Hinv|].
  by destruct s.
Qed.

Section one_event.
Context (event : Event) (t : GenerationTracker).
Hypothesis Hinv : tracker_inv t.
Hypothesis Hroom : created_count_ t < u64_max.

Local Abbreviation observed p := (wp p t (λ _, step_ok t) (unchanged t)).

Lemma wp_observe_heap_destroy d : observed (observe_heap_destroy event d).
Proof.
  unfold observe_heap_destroy. wp_step; [wp_step; auto with tracker|]. wp_step. wp_step.
  apply wp_destroy_loop; [done|apply Hinv|done|]. intros t' Hinv' _ Hc _. split; [done|lia].
Qed.

Lemma wp_observe_allocation a : observed (observe_allocation event a).
Proof.
  unfold observe_allocation. wp_step; [wp_step; auto with tracker|].
  apply wp_add_allocation; [done..|intros Hnew Hid|done].
  split; [by apply inv_born_allocation|cbn; lia].
Qed.

Lemma wp_observe_reallocation r : observed (observe_reallocation event r).
Proof.
  unfold observe_reallocation. cbv zeta.
  set (creates := reallocation_creates_new_generation (ev_header event) r).
  wp_step. apply (wp_mono _ _ (λ _ t', t' = t ∧ ((creates = true) →
    re_new_allocation_id r ∉ seen_allocation_ids_ t ∧ is_valid (re_new_allocation_id r) = true))
    _ (unchanged t)); [|intros [] t0 [-> Hnew]|done].
  { destruct creates; [|by wp_step]. by apply wp_require_new_allocation_id. }
  cbv beta. wp_step. apply (wp_mono _ _ (λ _ t', step_ok t t' ∧ created_count_ t' = created_count_ t ∧
    seen_allocation_ids_ t' = seen_allocation_ids_ t) _ (unchanged t)); [| |done].
  { destruct (reallocation_ends_old_generation _ _); [|wp_step; auto with tracker].
    apply wp_end_allocation; [done|intros _|intros g Hg _ _|done];
      (split; [auto with tracker|done]). }
  intros _ t' ((Hinv' & _) & Hc & Hseen). destruct creates; cbn [negb].
  - destruct (Hnew eq_refl) as [Hunseen Hvalid]. apply wp_add_allocation; [done|lia|..]; cbn.
    + intros _ _. split; [|cbn; lia]. apply inv_born_allocation; [done|lia|done|cbn; by rewrite Hseen|done].
    + rewrite Hseen, Hvalid. intros []; done.
  - wp_step. split; [done|lia].
Qed.

Lemma wp_observe_free f : observed (observe_free event f).
Proof.
  unfold observe_free. wp_step; [wp_step; auto with tracker|].
  apply wp_end_allocation; [done|..|done]; auto with tracker.
Qed.

Lemma wp_observe_unmap u : observed (observe_unmap event u).
Proof.
  unfold observe_unmap. wp_step; [wp_step; auto with tracker|].
  apply wp_end_mapping; [done|..|done]; auto with tracker.
Qed.

(** A mapping whose range passed the overflow check. *)
Lemma wp_new_mapping g base size : mg_kind g ≠ Kind_kHeapAllocation → mg_size g = size →
  u64 base → u64 size → base + size ≤ u64_max →
  observed (add_mapping {| ms_generation := g;
                           ms_live := snd (insert base (wrap64 (base + size)) 0 []) |}).
Proof.
  intros Hkind Hsize Hb Hs Hmax. rewrite wrap64_small by word.
  destruct (first_live base (base + size)) as (Hwf & Hbytes & _); [word..|].
  apply wp_add_mapping; [done..|intros Hnew|done].
  split; [|cbn; lia]. apply inv_born_mapping; try done. cbn [ms_live ms_generation]. lia.
Qed.

Lemma wp_observe_map m : EventPayload_wt (Map m) → observed (observe_map event m).
Proof.
  intros (_ & _ & Hb & Hs & _). unfold observe_map. wp_step; [wp_step; auto with tracker|].
  wp_step. apply wp_state_error_if; [intros Hov|done]. bool_facts. apply wp_new_mapping; done || lia.
Qed.

Lemma wp_observe_vm_allocate a : EventPayload_wt (VmAllocate a) → observed (observe_vm_allocate event a).
Proof.
  intros (_ & _ & Hrb & _ & Hrs & Hmb & Hms & _). unfold observe_vm_allocate.
  wp_step; [wp_step; auto with tracker|]. cbv zeta.
  set (base := if va_mapping_base a =? 0 then va_result_base a else va_mapping_base a).
  set (size := if va_mapping_size a =? 0 then va_result_size a else va_mapping_size a).
  assert (Hb : u64 base) by (unfold base; by case_match).
  assert (Hs : u64 size) by (unfold size; by case_match).
  wp_step. apply wp_state_error_if; [intros Hov|done]. bool_facts. do 2 wp_step.
  destruct (om_find _ (live_mappings_ t)) as [s|] eqn:E; [|apply wp_new_mapping; done || lia].
  wp_step. apply wp_state_error_if; [intros _|done].
  destruct (find base (ms_live s)) as [f|] eqn:Ef; [|done].
  wp_step. apply wp_pure; [intros live Hlive|done].
  pose proof (live_wf t _ _ Hinv E) as Hwf.
  destruct (resize_live_spec (ms_live s) base size f live Hwf Hb Hs ltac:(lia) Ef Hlive) as [Hwf' _].
  destruct (total_bytes live =? mg_size (ms_generation s)) eqn:Eb; cbn [negb].
  - unfold store_mapping. wp_step. split; [|cbn; lia]. bool_facts. by apply inv_stored_mapping.
  - unfold store_mapping, notify_changed. do 3 wp_step. split; [|cbn; lia].
    by apply (inv_changed_mapping _ s live event).
Qed.

(** Whether the event concerns a mapping at all. *)
Definition releases (f : VmFreeEvent) : bool :=
  call_succeeded (status (ev_header event)) && is_valid (vf_mapping_id f) &&
  negb (Z.land (vf_free_type f) kMemRelease =? 0).

Definition left_by (f : VmFreeEvent) (s : MappingState) : IntervalSet Z :=
  remaining (vf_base f) (vf_base f + vf_region_size f) (ms_live s).
Definition taken_by (f : VmFreeEvent) (s : MappingState) : list (Fragment Z) :=
  omap (clip (vf_base f) (vf_base f + vf_region_size f)) (ms_live s).

Lemma wp_observe_vm_free f (P : unit → GenerationTracker → Prop) :
  EventPayload_wt (VmFree f) →
  (releases f = false → P tt t) →
  (om_find (vf_mapping_id f) (live_mappings_ t) = None → P tt (bump Orphaned_mapping t)) →
  (∀ s reason, om_find (vf_mapping_id f) (live_mappings_ t) = Some s →
     vf_region_size f = 0 ∨ taken_by f s ≠ [] ∧ empty_set (left_by f s) = true →
     P tt (ended_mapping (vf_mapping_id f) (ms_generation s) reason event t)) →
  (∀ s, om_find (vf_mapping_id f) (live_mappings_ t) = Some s →
     taken_by f s ≠ [] ∧ empty_set (left_by f s) = false →
     P tt (changed_mapping (vf_mapping_id f) (ms_generation s) (left_by f s) event t)) →
  wp (observe_vm_free event f) t P (unchanged t).
Proof using Hinv.
  intros (_ & Hb & Hs & _) Hsame Horphan Hended Hchanged. unfold observe_vm_free.
  wp_step; [wp_step; apply Hsame; unfold releases; bool_facts; tauto|].
  wp_step; [wp_step; apply Hsame; unfold releases; bool_facts; tauto|]. wp_step. wp_step.
  destruct (om_find _ (live_mappings_ t)) as [s|] eqn:E.
  2:{ apply wp_checked_increment; [intros _; by apply Horphan|done]. }
  pose proof (ended_room_mapping t _ s Hinv E) as Hroom'.
  destruct (vf_region_size f =? 0) eqn:Esize; bool_facts.
  - wp_step. apply wp_state_error_if; [intros _|done]. unfold notify_ended. do 3 wp_step.
    apply wp_checked_increment; [intros _|cbn; lia]. wp_step. apply Hended; auto.
  - wp_step. apply wp_state_error_if; [intros Hov|done]. bool_facts.
    rewrite wrap64_small by word. pose proof (live_wf t _ _ Hinv E) as Hwf. rewrite subtract_spec by done.
    fold (left_by f s) (taken_by f s).
    unfold store_mapping. do 3 wp_step. apply wp_state_error_if; intros Hremoved.
    2:{ intros e. destruct (taken_by f s) eqn:Enone; [|done].
        unfold unchanged, left_by. rewrite nothing_removed by done. by apply stored_same. }
    assert (taken_by f s ≠ []) by by destruct (taken_by f s).
    destruct (empty_set _) eqn:Eempty; cbn [negb].
    + unfold notify_ended. do 3 wp_step. apply wp_checked_increment; [intros _|cbn; lia].
      wp_step. rewrite ended_stored. by apply Hended; [|right].
    + unfold notify_changed. do 3 wp_step. rewrite changed_stored. by apply Hchanged.
Qed.

Lemma wp_observe : Event_wt event → observed (observe event).
Proof.
  intros [_ Hwt]. unfold observe. wp_step. apply wp_pure; [intros _ _|done].
  destruct (ev_payload event).
  - wp_step. auto with tracker.
  - apply wp_observe_heap_destroy.
  - apply wp_observe_allocation.
  - apply wp_observe_reallocation.
  - apply wp_observe_free.
  - by apply wp_observe_vm_allocate.
  - apply wp_observe_vm_free; auto with tracker. intros s Hs _. split; [|cbn; lia].
    apply inv_changed_mapping; [done..|]. apply remaining_wf. by eapply live_wf.
  - by apply wp_observe_map.
  - apply wp_observe_unmap.
Qed.

End one_event.

(** ** A stream of events *)

(** Every event creates at most one generation. *)
Lemma wp_observe_all events t : tracker_inv t → Forall Event_wt events →
  created_count_ t + size_of events ≤ u64_max →
  let bounded t' := tracker_inv t' ∧ created_count_ t' ≤ created_count_ t + size_of events in
  wp (observe_all events) t (λ _, bounded) (λ _, bounded).
Proof.
  revert t. induction events as [|event events IH]; intros t Hinv Hwt Hroom; cbn [observe_all].
  { apply wp_ret. split; [done|]. unfold size_of. cbn. lia. }
  apply Forall_cons in Hwt as [He Hes].
  assert (size_of (event :: events) = size_of events + 1) as Hsize by (unfold size_of; cbn; lia).
  pose proof (size_of_nonneg events). wp_step.
  eapply wp_mono; [apply (wp_observe event t); done || lia|..].
  - intros _ t' [Hinv' Hc]. eapply wp_mono; [apply IH; [done|done|lia]|..];
      (intros ? ? []; split; [done|lia]).
  - intros e t' ->. split; [done|lia].
Qed.

(** The state after a stream, whether or not all of it was accepted. *)
Lemma reachable_inv events : Forall Event_wt events → size_of events ≤ u64_max →
  let t := (observe_all events GenerationTracker_new).2 in
  tracker_inv t ∧ created_count_ t ≤ size_of events.
Proof.
  intros Hwt Hsize. pose proof (wp_observe_all events _ tracker_inv_new Hwt Hsize) as H.
  unfold wp in H. by destruct (observe_all events _) as [[]].
Qed.

Lemma elem_values {V} (m : ordered_map V) v : sorted_keys m →
  v ∈ m.*2 ↔ ∃ k, om_find k m = Some v.
Proof.
  intros Hm. rewrite list_elem_of_fmap. split.
  - intros ([k w] & -> & H). exists k. by apply elem_find.
  - intros [k H%om_find_elem]. by exists (k, v).
Qed.

Lemma elem_live_generations t g : tracker_inv t →
  g ∈ live_generations t ↔ live_generation t (key_of g) = Some g.
Proof.
  intros [Hsa Hsm Ha Hm _ _ _ _]. unfold live_generations.
  rewrite elem_of_app, elem_values, list_fmap_compose, list_elem_of_fmap by done.
  unfold key_of. split.
  - intros [[id H]|(s & -> & Hs)].
    + destruct (Ha id g H) as (Hkind & <- & _). by rewrite decide_True.
    + apply elem_values in Hs as [id Hs]; [|done]. destruct (Hm id s Hs) as (Hkind & <- & _).
      rewrite decide_False by done. cbn. unfold find_mapping. by rewrite Hs.
  - case_decide; cbn; intros H'.
    + left. by exists (mg_allocation_id g).
    + right. unfold find_mapping in H'. destruct (om_find _ _) as [s|] eqn:E; [|done].
      injection H' as <-. exists s. split; [done|]. apply elem_values; [done|]. by eexists.
Qed.

(** C8: The callbacks tell the whole story.  After any stream of well-typed events,
    accepted to the end or rejected somewhere, a client that has only followed the
    callbacks knows exactly the live generations: no identifier was reported as
    created twice, nothing ended or changed that was not live, and what is left is
    what the tracker's queries return.  The counters agree: as many generations
    are live as were created and not ended. *)
Theorem tracker_callbacks_complete (events : list Event) :
  Forall Event_wt events → size_of events ≤ u64_max →
  let t := (observe_all events GenerationTracker_new).2 in
  ∃ live ever, client_run (notifications t) = Some (live, ever) ∧
    (∀ id, live !! inl id = find_allocation id t) ∧
    (∀ id, live !! inr id = find_mapping id t) ∧
    (∀ g, g ∈ live_generations t ↔ live !! key_of g = Some g) ∧
    live_count t = created_count_ t - ended_count_ t ∧
    live_count t = size_of (live_generations t).
Proof.
  intros Hwt Hsize t. destruct (reachable_inv events Hwt Hsize) as [Hinv _]. fold t in Hinv.
  destruct (ti_client t Hinv) as (live & ever & Hrun & Hlive & _). exists live, ever.
  assert (Hcount : live_count t = size_of (live_allocations_ t) + size_of (live_mappings_ t)).
  { pose proof (ti_counts t Hinv). pose proof (ti_ended t Hinv). pose proof (ti_created t Hinv).
    pose proof (size_of_nonneg (live_allocations_ t)). pose proof (size_of_nonneg (live_mappings_ t)).
    unfold live_count. apply wrap64_small. word. }
  split_and!; [done|intros id; apply Hlive..| | |].
  - intros g. rewrite elem_live_generations by done. by rewrite Hlive.
  - rewrite Hcount, (ti_counts t Hinv). lia.
  - rewrite Hcount. unfold live_generations, size_of. rewrite length_app, !length_fmap. lia.
Qed.

(** C15: Strong exception guarantee.  In any state the tracker can be in, an event
    that [observe] rejects leaves every member as it was, and an accepted event
    keeps the invariant. *)
Theorem tracker_observe_safe (events : list Event) (event : Event) :
  Forall Event_wt events → Event_wt event → size_of events < u64_max →
  let t := (observe_all events GenerationTracker_new).2 in
  match observe event t with
  | (Ok _, t') => tracker_inv t'
  | (Throw e, t') => t' = t
  end.
Proof.
  intros Hwt He Hsize t. destruct (reachable_inv events Hwt) as [Hinv Hc]; [lia|].
  fold t in Hinv, Hc. pose proof (wp_observe event t Hinv ltac:(lia) He) as H. unfold wp in H.
  destruct (observe event t) as [[]]; [apply H|done].
Qed.

(** ** What an event does to the live generations *)

(** The generation a heap event creates. *)
Definition created_by (event : Event) : option MemoryGeneration :=
  match ev_payload event with
  | Allocation a =>
      if allocation_creates_generation (ev_header event) a then
        Some {| mg_kind := Kind_kHeapAllocation; mg_allocation_id := al_allocation_id a;
                mg_mapping_id := 0; mg_heap_id := al_heap_id a; mg_heap_handle := al_heap_handle a;
                mg_address := al_result_address a; mg_size := al_requested_size a;
                mg_created_by := event |}
      else None
  | Reallocation r =>
      if reallocation_creates_new_generation (ev_header event) r then
        Some {| mg_kind := Kind_kHeapAllocation; mg_allocation_id := re_new_allocation_id r;
                mg_mapping_id := 0; mg_heap_id := re_heap_id r; mg_heap_handle := re_heap_handle r;
                mg_address := re_result_address r; mg_size := re_requested_size r;
                mg_created_by := event |}
      else None
  | _ => None
  end.

(** Does the event end the live allocation [g]? *)
Definition ends (event : Event) (g : MemoryGeneration) : bool :=
  match ev_payload event with
  | Free f => free_ends_generation (ev_header event) f && (fr_allocation_id f =? mg_allocation_id g)
  | Reallocation r => reallocation_ends_old_generation (ev_header event) r &&
      (re_old_allocation_id r =? mg_allocation_id g)
  | HeapDestroy d => heap_destroy_ends_generations (ev_header event) d &&
      (mg_heap_id g =? hd_heap_id d)
  | _ => false
  end.

Definition allocation_after (event : Event) (t : GenerationTracker) (id : Z)
    : option MemoryGeneration :=
  match created_by event with
  | Some g => if mg_allocation_id g =? id then Some g else
      match find_allocation id t with Some g => if ends event g then None else Some g | None => None end
  | None =>
      match find_allocation id t with Some g => if ends event g then None else Some g | None => None end
  end.

Lemma find_born g t id : tracker_inv t → mg_allocation_id g ∉ seen_allocation_ids_ t →
  find_allocation id (born_allocation g t) =
  if mg_allocation_id g =? id then Some g else find_allocation id t.
Proof.
  intros Hinv Hnew. pose proof (unseen_allocation t _ Hinv Hnew). unfold find_allocation. cbn.
  rewrite om_find_emplace by (done || apply Hinv). case_decide as E.
  - by rewrite (proj2 (Z.eqb_eq _ _)).
  - by rewrite (proj2 (Z.eqb_neq _ _)).
Qed.

Lemma find_ended id g reason event t id' : find_allocation id' (ended_allocation id g reason event t) =
  if id =? id' then None else find_allocation id' t.
Proof.
  unfold find_allocation. cbn. rewrite om_find_erase. case_decide as E.
  - by rewrite (proj2 (Z.eqb_eq _ _)).
  - by rewrite (proj2 (Z.eqb_neq _ _)).
Qed.

Definition heap_event (event : Event) : bool :=
  match ev_payload event with
  | HeapCreate _ | HeapDestroy _ | Allocation _ | Reallocation _ | Free _ => true
  | _ => false
  end.

Definition heap_effect (event : Event) (t t' : GenerationTracker) : Prop :=
  (∀ id, find_allocation id t' = allocation_after event t id) ∧ live_mappings_ t' = live_mappings_ t.

(** What is left of an allocation that the event may end. *)
Definition survives (event : Event) (t : GenerationTracker) (id : Z) : option MemoryGeneration :=
  match find_allocation id t with
  | Some g => if ends event g then None else Some g
  | None => None
  end.

Lemma survives_all event t id : (∀ g, ends event g = false) → survives event t id = find_allocation id t.
Proof. intros H. unfold survives. destruct (find_allocation id t); [by rewrite H|done]. Qed.

Lemma survives_one event t id ended : tracker_inv t →
  (∀ g, ends event g = (ended =? mg_allocation_id g)) →
  survives event t id = if ended =? id then None else find_allocation id t.
Proof.
  intros Hinv H. unfold survives. destruct (find_allocation id t) as [g|] eqn:E.
  - rewrite H. by destruct (ti_allocations t Hinv id g E) as (_ & -> & _).
  - by case_match.
Qed.

Section heap_events.
Context (event : Event) (t : GenerationTracker).
Hypothesis Hinv : tracker_inv t.
Hypothesis Hroom : created_count_ t < u64_max.

Lemma wp_free_effect f : ev_payload event = Free f →
  wp (observe_free event f) t (λ _, heap_effect event t) (λ _ _, True).
Proof.
  intros Hp. unfold observe_free, heap_effect, allocation_after, created_by. rewrite Hp.
  destruct (free_ends_generation _ _) eqn:E; cbn [negb].
  - assert (Hends : ∀ g, ends event g = (fr_allocation_id f =? mg_allocation_id g)).
    { intros g. unfold ends. by rewrite Hp, E. }
    apply wp_end_allocation; [done|intros Hnone|intros g Hg _ _|done]; (split; [intros id|done]);
      fold (survives event t id); rewrite (survives_one _ _ _ _ Hinv Hends).
    + destruct (Z.eqb_spec (fr_allocation_id f) id) as [<-|]; [exact Hnone|done].
    + by rewrite find_ended.
  - wp_step. split; [|done]. intros id. fold (survives event t id). rewrite survives_all; [done|].
    intros g. unfold ends. by rewrite Hp, E.
Qed.

Lemma wp_allocation_effect a : ev_payload event = Allocation a →
  wp (observe_allocation event a) t (λ _, heap_effect event t) (λ _ _, True).
Proof.
  intros Hp. unfold observe_allocation, heap_effect, allocation_after, created_by. rewrite Hp.
  assert (Hsurv : ∀ id, survives event t id = find_allocation id t).
  { intros id. apply survives_all. intros g. unfold ends. by rewrite Hp. }
  destruct (allocation_creates_generation _ _) eqn:E; cbn [negb].
  - apply wp_add_allocation; [done..|intros Hnew Hid|done]. split; [|done]. intros id.
    rewrite find_born by done. fold (survives event t id). by rewrite Hsurv.
  - wp_step. split; [|done]. intros id. exact (eq_sym (Hsurv id)).
Qed.

Lemma wp_heap_destroy_effect d : ev_payload event = HeapDestroy d →
  wp (observe_heap_destroy event d) t (λ _, heap_effect event t) (λ _ _, True).
Proof.
  intros Hp. unfold observe_heap_destroy, heap_effect, allocation_after, created_by. rewrite Hp.
  destruct (heap_destroy_ends_generations _ _) eqn:E; cbn [negb].
  - wp_step. wp_step. apply wp_destroy_loop; [done|apply Hinv|done|].
    intros t' _ Hm _ Hf. split; [|done]. intros id. rewrite Hf. unfold find_allocation, ends.
    rewrite Hp, E. by destruct (om_find id (live_allocations_ t)).
  - wp_step. split; [|done]. intros id. fold (survives event t id). rewrite survives_all; [done|].
    intros g. unfold ends. by rewrite Hp, E.
Qed.

(** The first half of a reallocation. *)
Lemma wp_reallocation_end r reason : ev_payload event = Reallocation r →
  wp (if reallocation_ends_old_generation (ev_header event) r
      then end_allocation (re_old_allocation_id r) (re_old_address r) (re_heap_id r) reason event
      else mret tt) t
    (λ _ t', step_ok t t' ∧ created_count_ t' = created_count_ t ∧
       live_mappings_ t' = live_mappings_ t ∧ ∀ id, find_allocation id t' = survives event t id)
    (λ _ _, True).
Proof.
  intros Hp. destruct (reallocation_ends_old_generation _ _) eqn:E.
  - assert (Hends : ∀ g, ends event g = (re_old_allocation_id r =? mg_allocation_id g)).
    { intros g. unfold ends. by rewrite Hp, E. }
    apply wp_end_allocation; [done|intros Hnone|intros g Hg _ _|done].
    + split_and!; [apply step_orphan; auto|done|done|]. intros id.
      rewrite (survives_one _ _ _ _ Hinv Hends).
      destruct (Z.eqb_spec (re_old_allocation_id r) id) as [<-|]; [exact Hnone|done].
    + split_and!; [by apply step_ended_allocation|done|done|]. intros id.
      rewrite (survives_one _ _ _ _ Hinv Hends). apply find_ended.
  - wp_step. split_and!; [by apply step_same|done|done|]. intros id.
    rewrite survives_all; [done|]. intros g. unfold ends. by rewrite Hp, E.
Qed.

Lemma wp_reallocation_effect r : ev_payload event = Reallocation r →
  wp (observe_reallocation event r) t (λ _, heap_effect event t) (λ _ _, True).
Proof.
  intros Hp. unfold observe_reallocation, heap_effect, allocation_after, created_by.
  rewrite Hp. cbv zeta. wp_step.
  apply (wp_mono _ _ (λ _ t', t' = t) _ (λ _ _, True)); [|intros [] ? ->|done].
  { destruct (reallocation_creates_new_generation _ r);
      [by apply wp_require_new_allocation_id|by apply wp_ret]. }
  cbv beta. wp_step. eapply wp_mono; [by apply wp_reallocation_end| |done].
  intros [] t' ((Hinv' & _) & Hc & Hm & Hf).
  destruct (reallocation_creates_new_generation _ r); cbn [negb].
  - apply wp_add_allocation; [done|lia|intros Hnew Hid|done].
    split; [|done]. intros id. rewrite find_born by done. fold (survives event t id). by rewrite Hf.
  - wp_step. split; [|done]. intros id. apply Hf.
Qed.
End heap_events.

(** C30: Heap events.  An accepted heap event ends exactly the allocations it
    says -- the one it frees, the one it reallocates away, or all of a destroyed
    heap, and only if they are live -- and makes exactly the allocation it creates
    live, with the address, size and heap of the event; every other allocation and
    all mappings stay as they were. *)
Theorem tracker_heap_event (event : Event) (t t' : GenerationTracker) :
  tracker_inv t → created_count_ t < u64_max → heap_event event = true →
  observe event t = (Ok tt, t') →
  (∀ id, find_allocation id t' = allocation_after event t id) ∧
  live_mappings_ t' = live_mappings_ t.
Proof.
  intros Hinv Hroom Hheap Hobs.
  assert (H : wp (observe event) t (λ _, heap_effect event t) (λ _ _, True)).
  { unfold observe. wp_step. apply wp_pure; [intros [] _|done].
    destruct (ev_payload event) as [c|d|a|r|f| | | |] eqn:Hp;
      try (unfold heap_event in Hheap; by rewrite Hp in Hheap).
    - wp_step. split; [|done]. intros id. unfold allocation_after, created_by. rewrite Hp.
      fold (survives event t id). rewrite survives_all; [done|]. intros g. unfold ends. by rewrite Hp.
    - by apply wp_heap_destroy_effect.
    - by apply wp_allocation_effect.
    - by apply wp_reallocation_effect.
    - by apply wp_free_effect. }
  unfold wp in H. by rewrite Hobs in H.
Qed.

(** ** Mapping events *)

(** The addresses live in mapping [id], and the generation reported for it. *)
Definition mapped (t : GenerationTracker) (id a : Z) : Prop :=
  match om_find id (live_mappings_ t) with Some s => is_live (ms_live s) a | None => False end.

Definition other_mappings_kept (id : Z) (t t' : GenerationTracker) : Prop :=
  ∀ id', id' ≠ id → om_find id' (live_mappings_ t') = om_find id' (live_mappings_ t).

Lemma find_assigned {V} id (v v' : V) m :
  om_find id m = Some v' → om_find id (assign id v m) = Some v.
Proof. intros H. rewrite om_find_assign, decide_True by done. by rewrite H. Qed.

Lemma remaining_empty b e live : interval_wf live → empty_set (remaining b e live) = true →
  ∀ a : Z, is_live live a → b ≤ a < e.
Proof.
  intros Hwf Hempty a Ha. apply within_true.
  pose proof (value_at_remaining b e live a) as H. destruct (remaining b e live); [|done].
  cbn in H. destruct (within b e a); [done|]. destruct Ha as [v Ha]. by rewrite Ha in H.
Qed.

Lemma is_live_remaining b e live (a : Z) :
  is_live (remaining b e live) a ↔ is_live live a ∧ ¬ (b ≤ a < e).
Proof.
  unfold is_live. rewrite value_at_remaining, <- within_true.
  destruct (within b e a); naive_solver.
Qed.

Lemma remaining_bytes_lt b e (live : IntervalSet Z) : interval_wf live →
  omap (clip b e) live ≠ [] →
  total_bytes (remaining b e live) < total_bytes live ∧ ∃ a, is_live live a ∧ b ≤ a < e.
Proof.
  intros Hwf Hne. destruct (total_bytes_spec live Hwf) as [-> _].
  destruct (total_bytes_spec _ (remaining_wf b e live Hwf)) as [-> _].
  rewrite (sum_bytes_split b e live Hwf). destruct Hwf as [Hp _].
  pose proof (clipped_proper b e live Hp) as Hc.
  destruct (omap (clip b e) live) as [|c cs] eqn:Ec; [done|].
  apply Forall_cons in Hc as [(_ & Hlt & _) Hc]. cbn in Hlt.
  assert (0 ≤ sum_bytes (piece <$> cs)) by (by apply sum_bytes_nonneg).
  split.
  - change (sum_bytes (piece <$> c :: cs)) with
      (f_end c - f_begin c + sum_bytes (piece <$> cs)). lia.
  - exists (f_begin c). pose proof (value_at_clip b e live (f_begin c)) as H'. rewrite Ec in H'.
    cbn in H'. rewrite Z.leb_refl, (proj2 (Z.ltb_lt _ _)) in H' by done. cbn in H'.
    rewrite <- within_true. unfold is_live. destruct (within b e (f_begin c)); [|done].
    by rewrite <- H'.
Qed.

Lemma live_bytes_positive (live : IntervalSet Z) a : interval_wf live → is_live live a →
  0 < total_bytes live.
Proof.
  intros Hwf [v Ha]. destruct (total_bytes_spec live Hwf) as [-> _]. destruct Hwf as [Hp _].
  destruct Hp as [|x live (_ & ? & _) Hp]; [done|]. cbn. unfold interval_bytes.
  pose proof (sum_bytes_nonneg live Hp). lia.
Qed.

(** The two outcomes of a ranged release. *)
Definition ranged_effect (event : Event) (f : VmFreeEvent) (s : MappingState)
    (t t' : GenerationTracker) : Prop :=
  (∃ reason, t' = ended_mapping (vf_mapping_id f) (ms_generation s) reason event t ∧
     taken_by f s ≠ [] ∧ empty_set (left_by f s) = true) ∨
  (t' = changed_mapping (vf_mapping_id f) (ms_generation s) (left_by f s) event t ∧
     taken_by f s ≠ [] ∧ empty_set (left_by f s) = false).

Lemma nonempty_live live : interval_wf live → empty_set live = false → ∃ a, is_live live a.
Proof.
  intros Hwf Hne. destruct live as [|[b [e v]] live]; [done|].
  apply wf_cons in Hwf as ((_ & Hlt & _) & _). cbn in Hlt. exists b. exists v. cbn.
  rewrite Z.leb_refl, (proj2 (Z.ltb_lt _ _)) by done. done.
Qed.

(** C28: Ranged release.  An accepted ranged release of a live mapping takes exactly
    the addresses of the range from it, at least one of which was live; while
    addresses remain, the generation stays live and reports their number, and
    with the last address it ends, reporting the bytes this release removed.  No
    other mapping and no allocation is touched. *)
Theorem tracker_ranged_release (event : Event) (f : VmFreeEvent) (t t' : GenerationTracker)
    (s : MappingState) :
  tracker_inv t → Event_wt event → ev_payload event = VmFree f →
  call_succeeded (status (ev_header event)) = true → is_valid (vf_mapping_id f) = true →
  Z.land (vf_free_type f) kMemRelease ≠ 0 → vf_region_size f ≠ 0 →
  om_find (vf_mapping_id f) (live_mappings_ t) = Some s →
  observe event t = (Ok tt, t') →
  let id := vf_mapping_id f in
  let range a := vf_base f ≤ a < vf_base f + vf_region_size f in
  (∃ a, mapped t id a ∧ range a) ∧
  (∀ a, mapped t' id a ↔ mapped t id a ∧ ¬ range a) ∧
  match find_mapping id t' with
  | Some g => (∃ a, mapped t' id a) ∧ 0 < mg_size g < mg_size (ms_generation s) ∧
      notifications t' = notifications t ++ [on_changed g event]
  | None => (∀ a, mapped t id a → range a) ∧
      ∃ reason, notifications t' = notifications t ++ [on_ended (ms_generation s) reason event]
  end ∧
  other_mappings_kept id t t' ∧ live_allocations_ t' = live_allocations_ t.
Proof.
  intros Hinv [_ Hwt] Hp Hok Hid Hrel Hsz Hs Hobs id range. rewrite Hp in Hwt.
  pose proof (ti_mappings t Hinv _ _ Hs) as (_ & _ & _ & Hwf & Hbytes).
  pose proof (is_live_remaining (vf_base f) (vf_base f + vf_region_size f) (ms_live s)) as Hleft.
  pose proof (remaining_bytes_lt (vf_base f) (vf_base f + vf_region_size f) (ms_live s) Hwf) as Hlt.
  fold (left_by f s) in Hleft, Hlt. fold (taken_by f s) in Hlt.
  assert (Hmapped : ∀ a, mapped t id a ↔ is_live (ms_live s) a) by (intros a; unfold mapped, id; by rewrite Hs).
  assert (H : wp (observe event) t (λ _, ranged_effect event f s t) (λ _ _, True)).
  { unfold observe. wp_step. apply wp_pure; [intros [] _|done]. rewrite Hp.
    eapply wp_mono; [apply (wp_observe_vm_free event t Hinv f (λ _, ranged_effect event f s t))|done|done];
      [done| | | |].
    - unfold releases. rewrite Hok, Hid. cbn. intros E. bool_facts. done.
    - by rewrite Hs.
    - intros s' reason Hs' [|H]; [done|]. rewrite Hs in Hs'. injection Hs' as <-. left. by eexists.
    - intros s' Hs' H. rewrite Hs in Hs'. injection Hs' as <-. by right. }
  unfold wp in H. rewrite Hobs in H. clear Hobs. destruct H as [(reason & -> & Htaken & Hempty)|(-> & Htaken & Hempty)].
  - destruct (Hlt Htaken) as [_ Hsome].
    assert (Hgone : om_find id (live_mappings_ (ended_mapping id (ms_generation s) reason event t)) = None).
    { cbn. by rewrite om_find_erase, decide_True. }
    pose proof (remaining_empty _ _ _ Hwf Hempty) as Hall.
    split_and!; [by setoid_rewrite Hmapped| | | |done].
    + intros a. unfold mapped at 1. fold id. rewrite Hgone, Hmapped. split; [done|intros [? Hn]; by apply Hn, Hall].
    + unfold find_mapping. fold id. rewrite Hgone. cbn [fmap option_fmap option_map].
      split; [intros a Ha; by apply Hall, Hmapped|by exists reason].
    + intros id' Hne. cbn. rewrite om_find_erase, decide_False by done. done.
  - destruct (Hlt Htaken) as [Hless Hsome].
    assert (Hkept : om_find id (live_mappings_ (changed_mapping id (ms_generation s) (left_by f s) event t)) =
      Some {| ms_generation := set_size_of (ms_generation s) (total_bytes (left_by f s));
              ms_live := left_by f s |}) by by apply (find_assigned _ _ s).
    assert (Hwf' : interval_wf (left_by f s)) by by apply remaining_wf.
    assert (Hmapped' : ∀ a, mapped (changed_mapping id (ms_generation s) (left_by f s) event t) id a ↔
      is_live (left_by f s) a) by (intros a; unfold mapped; by rewrite Hkept).
    split_and!; [by setoid_rewrite Hmapped| | | |done].
    + intros a. fold id. by rewrite Hmapped', Hleft, Hmapped.
    + unfold find_mapping. fold id. rewrite Hkept. cbn [fmap option_fmap option_map ms_generation].
      split_and!; [|cbn|cbn; lia|done].
      * destruct (nonempty_live _ Hwf' Hempty) as [a Ha]. exists a. by apply Hmapped'.
      * destruct (nonempty_live _ Hwf' Hempty) as [a Ha]. by apply (live_bytes_positive _ a).
    + intros id' Hne. cbn. by rewrite om_find_assign, decide_False.
Qed.

Definition update_base (a : VmAllocateEvent) : Z :=
  if va_mapping_base a =? 0 then va_result_base a else va_mapping_base a.
Definition update_size (a : VmAllocateEvent) : Z :=
  if va_mapping_size a =? 0 then va_result_size a else va_mapping_size a.

(** What a resize leaves of the live addresses: a range that starts with a live
    fragment becomes the whole of the contiguous run from there, which loses what is
    beyond the range; a range inside a fragment is a commit, which changes nothing. *)
Definition resize_effect (live : IntervalSet Z) (base size : Z) (live' : IntervalSet Z) : Prop :=
  ∃ f, find base live = Some f ∧
    if f_begin f =? base then
      ∃ stop, live_run live base stop ∧
        ∀ x, is_live live' x ↔ base ≤ x < base + size ∨ (is_live live x ∧ ¬ (base ≤ x < stop))
    else live' = live ∧ base + size ≤ f_end f.

(** What an accepted allocation or commit does to its mapping. *)
Definition vm_allocate_effect (event : Event) (a : VmAllocateEvent) (t t' : GenerationTracker)
    : Prop :=
  let id := va_mapping_id a in
  let range x := update_base a ≤ x < update_base a + update_size a in
  match om_find id (live_mappings_ t) with
  | None => ∃ g, find_mapping id t' = Some g ∧ mg_address g = update_base a ∧
      mg_size g = update_size a ∧ (∀ x, mapped t' id x ↔ range x) ∧
      notifications t' = notifications t ++ [on_created g]
  | Some s => ∃ s', om_find id (live_mappings_ t') = Some s' ∧
      mg_size (ms_generation s') = total_bytes (ms_live s') ∧
      (∀ x, range x → is_live (ms_live s') x) ∧
      resize_effect (ms_live s) (update_base a) (update_size a) (ms_live s') ∧
      notifications t' = notifications t ++
        (if mg_size (ms_generation s') =? mg_size (ms_generation s) then []
         else [on_changed (ms_generation s') event])
  end ∧
  other_mappings_kept id t t' ∧ live_allocations_ t' = live_allocations_ t.

Lemma resized_range live base size f live' : interval_wf live → u64 base → u64 size →
  base + size ≤ u64_max → find base live = Some f → resize_live base size f live = Ok live' →
  (∀ x, base ≤ x < base + size → is_live live' x) ∧ resize_effect live base size live'.
Proof.
  intros Hwf Hb Hs Hmax Hf Hr.
  destruct (resize_live_spec live base size f live' Hwf Hb Hs Hmax Hf Hr) as [_ H].
  unfold resize_effect. destruct (f_begin f =? base) eqn:Ef.
  - split; [|exists f; split; [done|]; by rewrite Ef]. destruct H as (stop & Hrun & Hlive).
    intros x Hx. apply Hlive. by left.
  - destruct H as [-> Hfit]. split; [|exists f; split; [done|]; rewrite Ef; split; [done|lia]]. intros x Hx.
    pose proof (find_spec base live Hwf) as Hspec. rewrite Hf in Hspec.
    destruct Hspec as (p & q & -> & Hin & _). unfold is_live. rewrite value_at_mid; [done|done|].
    unfold contains. cbn. lia.
Qed.

Lemma wp_vm_allocate_effect event a t : tracker_inv t → created_count_ t < u64_max →
  EventPayload_wt (VmAllocate a) → is_valid (va_mapping_id a) = true →
  call_succeeded (status (ev_header event)) = true →
  wp (observe_vm_allocate event a) t (λ _, vm_allocate_effect event a t) (λ _ _, True).
Proof.
  intros Hinv Hroom (_ & _ & Hrb & _ & Hrs & Hmb & Hms & _) Hid Hok. unfold observe_vm_allocate.
  rewrite Hid, Hok. cbn [negb orb]. cbv zeta. fold (update_base a) (update_size a).
  assert (Hb : u64 (update_base a)) by (unfold update_base; by case_match).
  assert (Hs : u64 (update_size a)) by (unfold update_size; by case_match).
  wp_step. apply wp_state_error_if; [intros Hov|done]. bool_facts. do 2 wp_step.
  assert (Hfit : update_base a + update_size a ≤ u64_max) by lia.
  unfold vm_allocate_effect. destruct (om_find _ (live_mappings_ t)) as [s|] eqn:E.
  - wp_step. apply wp_state_error_if; [intros _|done].
    destruct (find (update_base a) (ms_live s)) as [f|] eqn:Ef; [|done].
    wp_step. apply wp_pure; [intros live Hlive|done]. pose proof (live_wf t _ _ Hinv E) as Hwf.
    destruct (resized_range _ _ _ f live Hwf Hb Hs Hfit Ef Hlive) as [Hrange Hshape].
    destruct (total_bytes live =? mg_size (ms_generation s)) eqn:Eb; cbn [negb]; bool_facts.
    + unfold store_mapping. wp_step. cbn. split_and!; [|intros id' Hne; cbn|done].
      * eexists. split; [by eapply find_assigned|]. cbn. rewrite Z.eqb_refl, app_nil_r. by split_and!.
      * by rewrite om_find_assign, decide_False.
    + unfold store_mapping, notify_changed. do 3 wp_step. cbn.
      split_and!; [|intros id' Hne; cbn|done].
      * eexists. split; [by eapply find_assigned|]. cbn. rewrite (proj2 (Z.eqb_neq _ _)) by done.
        by split_and!.
      * by rewrite om_find_assign, decide_False.
  - rewrite wrap64_small by word.
    destruct (first_live (update_base a) (update_base a + update_size a)) as (Hwf & _ & Hval); [word..|].
    apply wp_add_mapping; [done..|intros Hnew|done]. cbn in Hnew.
    pose proof (ti_sorted_mappings t Hinv) as Hsorted.
    split_and!; [|intros id' Hne; cbn|done].
    + unfold find_mapping, mapped. cbn. rewrite om_find_emplace, decide_True by done. cbn.
      eexists. split_and!; [done..| |done]. intros x. unfold is_live. rewrite Hval, <- within_true.
      destruct (within _ _ x); naive_solver.
    + rewrite om_find_emplace, decide_False by done. done.
Qed.

(** C29: Allocation, commit and resize.  An accepted virtual allocation makes the
    whole range it names live.  For an identifier that is not live it starts a
    generation of exactly that range.  For a live one the range starts in a live
    fragment: if it starts with it, the contiguous run from there is resized to exactly
    the range, growing or shrinking, and if it starts inside it, it ends inside it too
    and nothing changes.  Addresses outside the run and the range keep their state.
    The change of size, if any, is reported once, with the exact number of live bytes,
    and nothing else is touched. *)
Theorem tracker_vm_allocate (event : Event) (a : VmAllocateEvent) (t t' : GenerationTracker) :
  tracker_inv t → created_count_ t < u64_max → Event_wt event →
  ev_payload event = VmAllocate a → is_valid (va_mapping_id a) = true →
  call_succeeded (status (ev_header event)) = true →
  observe event t = (Ok tt, t') → vm_allocate_effect event a t t'.
Proof.
  intros Hinv Hroom [_ Hwt] Hp Hid Hok Hobs. rewrite Hp in Hwt.
  pose proof (wp_vm_allocate_effect event a t Hinv Hroom Hwt Hid Hok) as H.
  unfold observe in Hobs. rewrite pure_bind in Hobs.
  destruct (validate_event event) as [[]|]; [|done]. rewrite Hp in Hobs.
  unfold wp in H. by rewrite Hobs in H.
Qed.
