(* ===== verification/TrackerCalls.v ===== *)
(** * The calls of the generation tracker

    [observe] adds calls at the end of [notifications] and touches none made
    before, so a client can be told of the new ones after each event; all of them
    are about the event. *)

From S2P Require Import Prelude WireFormat Event OrderedMap IntervalSet GenerationTracker TrackerInvariant TrackerTheorems.

(** The event a call names, or the one that created its generation. *)
Definition about (event : Event) (n : Notification) : Prop :=
  match n with
  | on_created g => mg_created_by g = event
  | on_ended _ _ e | on_changed _ e => e = event
  end.

Definition told (event : Event) (t t' : GenerationTracker) : Prop :=
  ∃ calls, notifications t' = notifications t ++ calls ∧ Forall (about event) calls.

Lemma told_same event t t' : notifications t' = notifications t → told event t t'.
Proof. unfold told. intros ->. exists []. by rewrite app_nil_r. Qed.

Lemma told_trans event t1 t2 t3 : told event t1 t2 → told event t2 t3 → told event t1 t3.
Proof.
  intros (calls & E & H) (calls' & E' & H'). exists (calls ++ calls').
  rewrite E', E, <- app_assoc. split; [done|by apply Forall_app].
Qed.

Definition grows {A} (event : Event) (p : tracking A) : Prop := ∀ t, told event t (p t).2.

Section grows.
Context (event : Event).

Lemma grows_ret {A} (a : A) : grows event (mret a).
Proof. intros t. by apply told_same. Qed.
Lemma grows_pure {A} (m : result exn A) : grows event (pure m).
Proof. intros t. by apply told_same. Qed.
Lemma grows_get : grows event get_state.
Proof. intros t. by apply told_same. Qed.
Lemma grows_bind {A B} (p : tracking A) (f : A → tracking B) :
  grows event p → (∀ a, grows event (f a)) → grows event (p ≫= f).
Proof.
  intros Hp Hf t. specialize (Hp t). unfold mbind, proc_bind. destruct (p t) as [[a|e] t']; [|done].
  eapply told_trans; [exact Hp|apply Hf].
Qed.
Lemma grows_modify f : (∀ t, told event t (f t)) → grows event (modify f).
Proof. by intros H t. Qed.
Lemma grows_if {A} (b : bool) (p q : tracking A) : grows event p → grows event q → grows event (if b then p else q).
Proof. by destruct b. Qed.
Lemma grows_notify n : about event n → grows event (modify (notify n)).
Proof. intros H t. exists [n]. split; [done|by apply Forall_singleton]. Qed.
End grows.

Create HintDb grows.
Lemma grows_created e g : mg_created_by g = e → grows e (notify_created g).
Proof. by apply (grows_notify e (on_created g)). Qed.
Lemma grows_ended e g r : grows e (notify_ended g r e).
Proof. by apply (grows_notify e (on_ended g r e)). Qed.
Lemma grows_changed e g : grows e (notify_changed g e).
Proof. by apply (grows_notify e (on_changed g e)). Qed.
#[export] Hint Resolve grows_ret grows_pure grows_get grows_created grows_ended grows_changed : grows.

(** [grows] opens the steps of a handler. *)
Ltac grows :=
  repeat first
    [ done
    | solve [auto with grows]
    | apply grows_bind; [|intros ?]
    | apply grows_modify; intros ?; by apply told_same
    | apply grows_if
    | case_match ].

Lemma grows_increment e c subject : grows e (checked_increment c subject).
Proof.
  unfold checked_increment, state_error. apply grows_bind; [auto with grows|]. intros t.
  apply grows_if; [auto with grows|]. apply grows_modify. intros []. apply told_same. by destruct c.
Qed.
#[export] Hint Resolve grows_increment : grows.

Lemma grows_add_allocation e g : mg_created_by g = e → grows e (add_allocation g).
Proof. unfold add_allocation, require_new_allocation_id, state_error_if. intros. grows. Qed.
Lemma grows_add_mapping e s : mg_created_by (ms_generation s) = e → grows e (add_mapping s).
Proof. unfold add_mapping, require_new_mapping_id, state_error_if. intros. grows. Qed.
Lemma grows_end_allocation id a h r e : grows e (end_allocation id a h r e).
Proof. unfold end_allocation, state_error_if. grows. Qed.
Lemma grows_end_mapping id a k r e : grows e (end_mapping id a k r e).
Proof. unfold end_mapping, state_error_if. grows. Qed.
#[export] Hint Resolve grows_add_allocation grows_add_mapping grows_end_allocation grows_end_mapping : grows.

Lemma grows_destroy_loop e h rest : grows e (destroy_loop e h rest).
Proof.
  induction rest as [|[id g] rest IH]; cbn [destroy_loop]; [auto with grows|].
  apply grows_bind; [grows|]. by intros _.
Qed.
#[export] Hint Resolve grows_destroy_loop : grows.

Lemma grows_observe e : grows e (observe e).
Proof.
  unfold observe, observe_heap_destroy, observe_allocation, observe_reallocation, observe_free,
    observe_vm_allocate, observe_vm_free, observe_map, observe_unmap, require_new_allocation_id,
    state_error_if, state_error. grows.
Qed.

Lemma observe_calls e t : ∃ calls, notifications (observe e t).2 = notifications t ++ calls ∧
  Forall (about e) calls.
Proof. apply grows_observe. Qed.

(** ** What a free tells *)

Definition free_calls (event : Event) (f : FreeEvent) (t : GenerationTracker) : list Notification :=
  if call_succeeded (status (ev_header event)) then
    match find_allocation (fr_allocation_id f) t with
    | Some g => [on_ended g Reason_kFreed event]
    | None => []
    end
  else [].

(** A free the tracker accepts ends the allocation it names, when that is live. *)
Lemma observe_free_calls event f t t' : tracker_inv t → ev_payload event = Free f →
  observe event t = (Ok tt, t') → notifications t' = notifications t ++ free_calls event f t.
Proof.
  intros Hinv Hp Hrun. unfold observe in Hrun. rewrite pure_bind in Hrun.
  destruct (validate_event event) as [[]|]; [|done]. rewrite Hp in Hrun.
  assert (H : wp (observe_free event f) t
    (λ _ t', notifications t' = notifications t ++ free_calls event f t) (λ _ _, True)).
  { unfold observe_free, free_ends_generation, free_calls.
    destruct (call_succeeded _); cbn [andb]; [|wp_step; by rewrite app_nil_r].
    destruct (is_valid (fr_allocation_id f)) eqn:Hid; cbn [negb].
    - apply wp_end_allocation; [done|intros Hnone|intros g Hg _ _|done]; unfold find_allocation.
      + by rewrite Hnone, app_nil_r.
      + by rewrite Hg.
    - wp_step. destruct (find_allocation _ t) as [g|] eqn:Hg; [|by rewrite app_nil_r].
      apply (ti_allocations _ Hinv) in Hg as (_ & _ & Hseen). apply (ti_valid _ Hinv) in Hseen. congruence. }
  unfold wp in H. by rewrite Hrun in H.
Qed.

(** ** Concrete event streams

    A heap allocation that is reallocated and freed, and a mapping that loses a
    page from its middle, grows and ends: the hypotheses of the theorems on the
    generation tracker hold together. *)

Definition header_of (number : Z) : EventHeader := {|
  sequence := number; monotonic_ticks := 10 * number; thread_id := 7; api_id := 3;
  status := Status_kSuccess; stack_id := 0; eh_flags := 0;
  system_error := {| se_domain := Domain_kNone; se_code := 0 |};
|}.

Definition event_of (number : Z) (p : EventPayload) : Event :=
  {| ev_header := header_of number; ev_payload := p |}.

Definition this_process : ProcessTarget :=
  {| scope := Scope_kCurrentProcess; process_handle := 0; process_id := 0 |}.

Definition allocation_event : Event := event_of 1 (Allocation {|
  al_heap_handle := 9; al_heap_id := 5; al_requested_size := 32; al_result_address := 0x5000;
  al_allocation_id := 11; al_api_flags := 0 |}).

Definition reallocation_event : Event := event_of 2 (Reallocation {|
  re_heap_handle := 9; re_heap_id := 5; re_old_address := 0x5000; re_old_allocation_id := 11;
  re_requested_size := 64; re_result_address := 0x6000; re_new_allocation_id := 12;
  re_api_flags := 0; re_effect := Effect_kNewGeneration |}).

Definition vm_allocation (base size : Z) : VmAllocateEvent := {|
  va_target := this_process; va_requested_base := 0; va_result_base := base;
  va_requested_size := size; va_result_size := size; va_mapping_base := 0;
  va_mapping_size := 0; va_allocation_type := 0x3000; va_protection := 4; va_mapping_id := 21 |}.

Definition vm_release (base size : Z) : VmFreeEvent := {|
  vf_target := this_process; vf_base := base; vf_region_size := size;
  vf_free_type := kMemRelease; vf_mapping_id := 21 |}.

Definition map_event : Event := event_of 3 (VmAllocate (vm_allocation 0x10000 0x4000)).
Definition release_event : Event := event_of 4 (VmFree (vm_release 0x11000 0x1000)).
Definition grow_event : Event := event_of 5 (VmAllocate (vm_allocation 0x10000 0x2000)).

Definition example_events : list Event :=
  [allocation_event; reallocation_event; map_event; release_event; grow_event].

Lemma example_events_wt : Forall Event_wt example_events.
Proof. repeat apply Forall_cons_2; try apply Forall_nil_2; by repeat split. Qed.

(** The states between the events. *)
Definition after (n : nat) : GenerationTracker :=
  (observe_all (take n example_events) GenerationTracker_new).2.

Lemma after_inv n : tracker_inv (after n).
Proof.
  apply reachable_inv; [apply Forall_take, example_events_wt|].
  unfold size_of. rewrite length_take. cbn. word.
Qed.

(** The page released from the middle leaves a hole, which the growth fills. *)
Example example_states :
  (mg_size <$> find_mapping 21 (after 4)) = Some 0x3000 ∧
  (ms_live <$> om_find 21 (live_mappings_ (after 4))) =
    Some [(0x10000, (0x11000, 0)); (0x12000, (0x14000, 0))] ∧
  (ms_live <$> om_find 21 (live_mappings_ (after 5))) =
    Some [(0x10000, (0x11000, 0)); (0x11000, (0x12000, 0)); (0x12000, (0x14000, 0))] ∧
  live_count (after 5) = 2 ∧ created_count_ (after 5) = 3 ∧ ended_count_ (after 5) = 1.
Proof. vm_compute. done. Qed.

Lemma tracker_callbacks_complete_witness :
  let t := after 5 in
  ∃ live ever, client_run (notifications t) = Some (live, ever) ∧
    (∀ id, live !! inl id = find_allocation id t) ∧
    (∀ id, live !! inr id = find_mapping id t) ∧
    (∀ g, g ∈ live_generations t ↔ live !! key_of g = Some g) ∧
    live_count t = created_count_ t - ended_count_ t ∧
    live_count t = size_of (live_generations t).
Proof.
  refine (tracker_callbacks_complete (take 5 example_events) _ _);
    [apply Forall_take, example_events_wt|discriminate].
Defined.

(** Releasing the hole again is rejected. *)
Lemma tracker_observe_safe_witness :
  match observe (event_of 6 (VmFree (vm_release 0x11000 0x1000))) (after 4) with
  | (Ok _, t') => tracker_inv t'
  | (Throw e, t') => t' = after 4
  end.
Proof.
  refine (tracker_observe_safe (take 4 example_events)
            (event_of 6 (VmFree (vm_release 0x11000 0x1000))) _ _ _);
    [apply Forall_take, example_events_wt|by repeat split|reflexivity].
Defined.

Lemma tracker_heap_event_witness :
  (∀ id, find_allocation id (after 2) = allocation_after reallocation_event (after 1) id) ∧
  live_mappings_ (after 2) = live_mappings_ (after 1).
Proof.
  refine (tracker_heap_event reallocation_event (after 1) (after 2) (after_inv 1) _ _ _);
    [reflexivity|reflexivity|vm_compute; reflexivity].
Defined.

Definition example_mapping : MappingState :=
  {| ms_generation :=
       {| mg_kind := Kind_kVirtualAllocation; mg_allocation_id := 0; mg_mapping_id := 21;
          mg_heap_id := 0; mg_heap_handle := 0; mg_address := 0x10000; mg_size := 0x4000;
          mg_created_by := map_event |};
     ms_live := [(0x10000, (0x14000, 0))] |}.

Lemma tracker_ranged_release_witness :
  let t := after 3 in let t' := after 4 in
  let range a := 0x11000 ≤ a < 0x11000 + 0x1000 in
  (∃ a, mapped t 21 a ∧ range a) ∧
  (∀ a, mapped t' 21 a ↔ mapped t 21 a ∧ ¬ range a) ∧
  match find_mapping 21 t' with
  | Some g => (∃ a, mapped t' 21 a) ∧ 0 < mg_size g < mg_size (ms_generation example_mapping) ∧
      notifications t' = notifications t ++ [on_changed g release_event]
  | None => (∀ a, mapped t 21 a → range a) ∧
      ∃ reason, notifications t' =
        notifications t ++ [on_ended (ms_generation example_mapping) reason release_event]
  end ∧
  other_mappings_kept 21 t t' ∧ live_allocations_ t' = live_allocations_ t.
Proof.
  refine (tracker_ranged_release release_event (vm_release 0x11000 0x1000) (after 3) (after 4)
            example_mapping (after_inv 3) _ eq_refl eq_refl eq_refl _ _ _ _).
  - by repeat split.
  - discriminate.
  - discriminate.
  - vm_compute; reflexivity.
  - vm_compute; reflexivity.
Defined.

Lemma tracker_vm_allocate_witness :
  vm_allocate_effect grow_event (vm_allocation 0x10000 0x2000) (after 4) (after 5).
Proof.
  refine (tracker_vm_allocate grow_event (vm_allocation 0x10000 0x2000) (after 4) (after 5)
            (after_inv 4) _ _ eq_refl eq_refl eq_refl _).
  - reflexivity.
  - by repeat split.
  - vm_compute; reflexivity.
Defined.
