(* ===== verification/MpscQueue.v ===== *)
(** * The bounded multi-producer queue

    [BoundedMpscQueue<T>] of src/include/noleax/agent/bounded_mpsc_queue.hpp, which
    carries events from the hooked threads to the writer thread.

    A call is a sequence of steps, each with at most one access to shared memory;
    a schedule says which thread takes the next step.  The steps interleave on one
    memory: what the release and acquire accesses of the source are there to
    establish is assumed, the race between the threads is not.  A weak
    compare-exchange may fail although the values agree, when the schedule says
    so. *)

From S2P Require Import Prelude.

Section queue.
Context {V : Type} (v0 : V).

(** ** Data *)

Record Slot : Type := { sl_sequence : Z; sl_value : V }.

Record BoundedMpscQueue : Type := {
  enqueue_ : Z;
  dequeue_ : Z;
  dropped_ : Z;
  high_water_ : Z;
  touched_watermark_ : Z;
  capacity_ : Z;
  mask_ : Z;
  slots_ : list Slot;
}.

Definition empty_slot : Slot := {| sl_sequence := 0; sl_value := v0 |}.

Definition validate_capacity (capacity : Z) : result exn Z :=
  throw_if ((capacity <? 2) || negb (Z.land capacity (capacity - 1) =? 0) ||
            (u64_max / 2 <? capacity)) InvalidArgument
    "MPSC queue capacity must be a power of two of at least two" ;;
  Ok capacity.

Definition BoundedMpscQueue_new (capacity : Z) : result exn BoundedMpscQueue :=
  capacity ← validate_capacity capacity;
  Ok {| enqueue_ := 0; dequeue_ := 0; dropped_ := 0; high_water_ := 0; touched_watermark_ := 0;
        capacity_ := capacity; mask_ := capacity - 1;
        slots_ := replicate (Z.to_nat capacity) empty_slot |}.

(** ** Shared memory *)

Definition with_counters (e d dr h t : Z) (q : BoundedMpscQueue) : BoundedMpscQueue :=
  {| enqueue_ := e; dequeue_ := d; dropped_ := dr; high_water_ := h; touched_watermark_ := t;
     capacity_ := capacity_ q; mask_ := mask_ q; slots_ := slots_ q |}.
Definition store_enqueue z q := with_counters z (dequeue_ q) (dropped_ q) (high_water_ q) (touched_watermark_ q) q.
Definition store_dequeue z q := with_counters (enqueue_ q) z (dropped_ q) (high_water_ q) (touched_watermark_ q) q.
Definition store_dropped z q := with_counters (enqueue_ q) (dequeue_ q) z (high_water_ q) (touched_watermark_ q) q.
Definition store_high_water z q := with_counters (enqueue_ q) (dequeue_ q) (dropped_ q) z (touched_watermark_ q) q.
Definition store_touched z q := with_counters (enqueue_ q) (dequeue_ q) (dropped_ q) (high_water_ q) z q.

Definition slot_index (position : Z) (q : BoundedMpscQueue) : Z := Z.land position (mask_ q).
Definition slot_at (index : Z) (q : BoundedMpscQueue) : Slot :=
  default empty_slot (slots_ q !! Z.to_nat index).
Definition store_slot (index : Z) (s : Slot) (q : BoundedMpscQueue) : BoundedMpscQueue :=
  {| enqueue_ := enqueue_ q; dequeue_ := dequeue_ q; dropped_ := dropped_ q;
     high_water_ := high_water_ q; touched_watermark_ := touched_watermark_ q;
     capacity_ := capacity_ q; mask_ := mask_ q;
     slots_ := <[Z.to_nat index := s]> (slots_ q) |}.
Definition store_sequence (index z : Z) (q : BoundedMpscQueue) : BoundedMpscQueue :=
  store_slot index {| sl_sequence := z; sl_value := sl_value (slot_at index q) |} q.
Definition store_value (index : Z) (v : V) (q : BoundedMpscQueue) : BoundedMpscQueue :=
  store_slot index {| sl_sequence := sl_sequence (slot_at index q); sl_value := v |} q.

(** ** Producers *)

(** Where a producer is inside [try_emplace]; [produce] is its callback, which is
    given the event's sequence number. *)
Inductive ProducerState : Type :=
  | P_idle
  | P_load (produce : Z → V)
  | P_loop (produce : Z → V) (position : Z)
  | P_cas (produce : Z → V) (position : Z)
  | P_claimed (produce : Z → V) (position : Z)
  | P_touch (produce : Z → V) (position watermark : Z)
  | P_write (produce : Z → V) (position : Z)
  | P_publish (produce : Z → V) (position : Z)
  | P_high_load
  | P_high (high : Z)
  | P_count_load
  | P_count (current : Z).

Inductive queue_event : Type :=
  | Published (position : Z) (v : V)
  | Dropped
  | Popped (position : Z) (v : V)
  | Pop_empty
  | Taken (count : Z).

Definition producer_step (q : BoundedMpscQueue) (pc : ProducerState) (spurious : bool)
    : BoundedMpscQueue * ProducerState * list queue_event :=
  match pc with
  | P_idle => (q, P_idle, [])
  | P_load f => (q, P_loop f (enqueue_ q), [])
  | P_loop f position =>
      if position =? u64_max then (q, P_high_load, []) else
      let index := slot_index position q in
      let sequence := sl_sequence (slot_at index q) in
      let distance := wrap64 (sequence - wrap64 (position - index)) in
      if distance =? 0 then (q, P_cas f position, [])
      else if u64_max / 2 <? distance then (q, P_high_load, [])
      else (q, P_load f, [])
  | P_cas f position =>
      if spurious || negb (enqueue_ q =? position) then (q, P_loop f (enqueue_ q), [])
      else (store_enqueue (wrap64 (position + 1)) q, P_claimed f position, [])
  | P_claimed f position =>
      if position <? capacity_ q then (q, P_touch f position (touched_watermark_ q), [])
      else (q, P_write f position, [])
  | P_touch f position watermark =>
      let next := wrap64 (position + 1) in
      if negb (watermark <? next) then (q, P_write f position, [])
      else if spurious || negb (touched_watermark_ q =? watermark)
      then (q, P_touch f position (touched_watermark_ q), [])
      else (store_touched next q, P_write f position, [])
  | P_write f position =>
      (store_value (slot_index position q) (f (wrap64 (position + 1))) q, P_publish f position, [])
  | P_publish f position =>
      let index := slot_index position q in
      (store_sequence index (wrap64 (wrap64 (position + 1) - index)) q, P_idle,
       [Published position (f (wrap64 (position + 1)))])
  | P_high_load => (q, P_high (high_water_ q), [])
  | P_high high =>
      if negb (high <? capacity_ q) then (q, P_count_load, [])
      else if spurious || negb (high_water_ q =? high) then (q, P_high (high_water_ q), [])
      else (store_high_water (capacity_ q) q, P_count_load, [])
  | P_count_load => (q, P_count (dropped_ q), [])
  | P_count current =>
      if current =? u64_max then (q, P_idle, [Dropped])
      else if spurious || negb (dropped_ q =? current) then (q, P_count (dropped_ q), [])
      else (store_dropped (current + 1) q, P_idle, [Dropped])
  end.

(** ** The consumer *)

(** Where the consumer is inside [try_pop]. *)
Inductive ConsumerState : Type :=
  | C_idle
  | C_load
  | C_check (position : Z)
  | C_depth (position : Z)
  | C_high_load (position depth : Z)
  | C_high (position depth high : Z)
  | C_read (position : Z)
  | C_release (position : Z) (v : V)
  | C_advance (position : Z) (v : V).

Definition consumer_step (q : BoundedMpscQueue) (pc : ConsumerState) (spurious : bool)
    : BoundedMpscQueue * ConsumerState * list queue_event :=
  match pc with
  | C_idle => (q, C_idle, [])
  | C_load =>
      let position := dequeue_ q in
      if position =? u64_max then (q, C_idle, [Pop_empty]) else (q, C_check position, [])
  | C_check position =>
      let index := slot_index position q in
      if negb (sl_sequence (slot_at index q) =? wrap64 (wrap64 (position + 1) - index))
      then (q, C_idle, [Pop_empty]) else (q, C_depth position, [])
  | C_depth position => (q, C_high_load position (wrap64 (enqueue_ q - position)), [])
  | C_high_load position depth => (q, C_high position depth (high_water_ q), [])
  | C_high position depth high =>
      if negb (high <? depth) then (q, C_read position, [])
      else if spurious || negb (high_water_ q =? high)
      then (q, C_high position depth (high_water_ q), [])
      else (store_high_water depth q, C_read position, [])
  | C_read position => (q, C_release position (sl_value (slot_at (slot_index position q) q)), [])
  | C_release position v =>
      let index := slot_index position q in
      (store_sequence index (wrap64 (wrap64 (position + capacity_ q) - index)) q,
       C_advance position v, [])
  | C_advance position v => (store_dequeue (wrap64 (position + 1)) q, C_idle, [Popped position v])
  end.

(** ** The other operations *)

Definition occupancy (q : BoundedMpscQueue) : Z :=
  let depth := wrap64 (enqueue_ q - dequeue_ q) in
  if capacity_ q <? depth then capacity_ q else depth.

Definition take_dropped_count (q : BoundedMpscQueue) : Z * BoundedMpscQueue :=
  (dropped_ q, store_dropped 0 q).

(** No producer and no consumer may be inside a call. *)
Definition reset_quiescent (q : BoundedMpscQueue) : BoundedMpscQueue :=
  let q := with_counters 0 0 0 0 (touched_watermark_ q) q in
  let touched := touched_watermark_ q in
  let q := foldl (λ q index, store_sequence (Z.of_nat index) 0 q) q (seq 0 (Z.to_nat touched)) in
  store_touched 0 q.

(** ** Schedules *)

Record system : Type := {
  sys_queue : BoundedMpscQueue;
  sys_producers : list ProducerState;
  sys_consumer : ConsumerState;
  sys_trace : list queue_event;
}.

Inductive choice : Type :=
  | Push (thread : nat) (produce : Z → V)         (* a thread calls try_emplace *)
  | Producer (thread : nat) (spurious : bool)
  | Pop                                           (* the consumer calls try_pop *)
  | Consumer (spurious : bool)
  | Take.                                         (* take_dropped_count *)

Definition set_producer (thread : nat) (pc : ProducerState) (s : system) : system :=
  {| sys_queue := sys_queue s; sys_producers := <[thread := pc]> (sys_producers s);
     sys_consumer := sys_consumer s; sys_trace := sys_trace s |}.
Definition set_consumer (pc : ConsumerState) (s : system) : system :=
  {| sys_queue := sys_queue s; sys_producers := sys_producers s; sys_consumer := pc;
     sys_trace := sys_trace s |}.
Definition set_queue (q : BoundedMpscQueue) (events : list queue_event) (s : system) : system :=
  {| sys_queue := q; sys_producers := sys_producers s; sys_consumer := sys_consumer s;
     sys_trace := sys_trace s ++ events |}.

Definition system_step (s : system) (c : choice) : system :=
  match c with
  | Push thread f =>
      match sys_producers s !! thread with
      | Some P_idle => set_producer thread (P_load f) s
      | _ => s
      end
  | Producer thread spurious =>
      match sys_producers s !! thread with
      | Some pc =>
          let '(q, pc, events) := producer_step (sys_queue s) pc spurious in
          set_queue q events (set_producer thread pc s)
      | None => s
      end
  | Pop => match sys_consumer s with C_idle => set_consumer C_load s | _ => s end
  | Consumer spurious =>
      let '(q, pc, events) := consumer_step (sys_queue s) (sys_consumer s) spurious in
      set_queue q events (set_consumer pc s)
  | Take =>
      let '(count, q) := take_dropped_count (sys_queue s) in set_queue q [Taken count] s
  end.

Definition system_run (s : system) (schedule : list choice) : system :=
  foldl system_step s schedule.

Definition system_new (q : BoundedMpscQueue) (threads : nat) : system :=
  {| sys_queue := q; sys_producers := replicate threads P_idle; sys_consumer := C_idle;
     sys_trace := [] |}.

End queue.

Arguments Slot V : clear implicits.
Arguments BoundedMpscQueue V : clear implicits.
Arguments ProducerState V : clear implicits.
Arguments ConsumerState V : clear implicits.
Arguments queue_event V : clear implicits.
Arguments system V : clear implicits.
Arguments choice V : clear implicits.
