(* ===== verification/MpscInvariant.v ===== *)
(** * The invariant of the bounded queue

    A position is claimed by the producer whose compare-exchange moved
    [enqueue_] past it, published when its slot's sequence says so, and free again
    once the consumer has released the slot.  The invariant says, for the
    [capacity_] positions from the consumer's on, what each slot holds and who may
    write it; it is proved to hold after every schedule. *)

From S2P Require Import Prelude MpscQueue.

Section invariant.
Context {V : Type} (v0 : V).
Implicit Types (s : system V) (q : BoundedMpscQueue V) (pc : ProducerState V) (p : Z) (v : V).

Local Abbreviation slot_of p q := (slot_at v0 (slot_index p q) q).

(** ** What the trace says *)

Definition publications (trace : list (queue_event V)) : list (Z * V) :=
  omap (λ e, match e with Published p v => Some (p, v) | _ => None end) trace.
Definition pops (trace : list (queue_event V)) : list (Z * V) :=
  omap (λ e, match e with Popped p v => Some (p, v) | _ => None end) trace.
Definition drops (trace : list (queue_event V)) : Z :=
  foldr (λ e acc, match e with Dropped => 1 + acc | _ => acc end) 0 trace.
Definition taken (trace : list (queue_event V)) : Z :=
  foldr (λ e acc, match e with Taken n => n + acc | _ => acc end) 0 trace.

(** ** Ring arithmetic *)

Record ring q : Prop := {
  ring_capacity : ∃ k, 1 ≤ k ≤ 62 ∧ capacity_ q = 2 ^ k;
  ring_mask : mask_ q = capacity_ q - 1;
  ring_slots : length (slots_ q) = Z.to_nat (capacity_ q);
}.

Lemma ring_bounds q : ring q → 2 ≤ capacity_ q ≤ 2 ^ 62.
Proof.
  intros [(k & Hk & ->) _ _]. split.
  - change 2 with (2 ^ 1) at 1. apply Z.pow_le_mono_r; lia.
  - apply Z.pow_le_mono_r; lia.
Qed.

Lemma slot_index_mod p q : ring q → slot_index p q = p mod capacity_ q.
Proof.
  intros [(k & Hk & Hc) Hm _]. unfold slot_index. rewrite Hm, Hc.
  rewrite <- Z.land_ones by lia. by rewrite Z.ones_equiv, Z.sub_1_r.
Qed.

Lemma slot_index_range p q : ring q → 0 ≤ slot_index p q < capacity_ q.
Proof.
  intros Hr. rewrite slot_index_mod by done. apply Z.mod_pos_bound.
  pose proof (ring_bounds q Hr). lia.
Qed.

Lemma slot_index_small p q : ring q → 0 ≤ p < capacity_ q → slot_index p q = p.
Proof. intros Hr Hp. rewrite slot_index_mod by done. by apply Z.mod_small. Qed.

(** Positions less than a lap apart have slots of their own. *)
Lemma slot_index_inj p p' q lo : ring q → lo ≤ p < lo + capacity_ q → lo ≤ p' < lo + capacity_ q →
  slot_index p q = slot_index p' q → p = p'.
Proof.
  intros Hr Hp Hp'. rewrite !slot_index_mod by done. intros Heq.
  pose proof (ring_bounds q Hr). pose proof (Z.div_mod p (capacity_ q) ltac:(lia)).
  pose proof (Z.div_mod p' (capacity_ q) ltac:(lia)).
  assert (p / capacity_ q = p' / capacity_ q) by nia. nia.
Qed.

(** The slot of a position, one lap on. *)
Lemma slot_index_lap p q : ring q → slot_index (p + capacity_ q) q = slot_index p q.
Proof.
  intros Hr. rewrite !slot_index_mod by done. pose proof (ring_bounds q Hr).
  rewrite <- (Z.mul_1_l (capacity_ q)) at 1. by rewrite Z.mod_add by lia.
Qed.

(** Every slot belongs to one position of a lap. *)
Lemma position_of_index i q lo : ring q → 0 ≤ i < capacity_ q →
  ∃ p, lo ≤ p < lo + capacity_ q ∧ slot_index p q = i.
Proof.
  intros Hr Hi. pose proof (ring_bounds q Hr). exists (lo + (i - lo) mod capacity_ q).
  pose proof (Z.mod_pos_bound (i - lo) (capacity_ q) ltac:(lia)). split; [lia|].
  rewrite slot_index_mod by done. rewrite Zplus_mod_idemp_r.
  replace (lo + (i - lo)) with i by lia. by apply Z.mod_small.
Qed.

(** The sequence word of slot [i] at logical sequence number [n]. *)
Definition word_at p q (n : Z) : Z := wrap64 (n - slot_index p q).

Lemma distance_eq p q n : wrap64 (word_at p q n - wrap64 (p - slot_index p q)) = wrap64 (n - p).
Proof.
  unfold word_at, wrap64. rewrite <- Zminus_mod.
  by replace (n - slot_index p q - (p - slot_index p q)) with (n - p) by lia.
Qed.

Lemma word_at_inj p q n n' : 0 ≤ n < 2 ^ 64 → 0 ≤ n' < 2 ^ 64 →
  word_at p q n = word_at p q n' → n = n'.
Proof.
  intros Hn Hn' Heq. unfold word_at, wrap64 in Heq.
  assert (H : (n - n') mod 2 ^ 64 = 0).
  { replace (n - n') with ((n - slot_index p q) - (n' - slot_index p q)) by lia.
    by rewrite Zminus_mod, Heq, Z.sub_diag. }
  apply Z.mod_divide in H as [z Hz]; [|lia]. nia.
Qed.

Lemma wrap64_word_at p q n : wrap64 (wrap64 n - slot_index p q) = word_at p q n.
Proof. unfold word_at, wrap64. by rewrite Zminus_mod_idemp_l. Qed.

(** ** Slots *)

Lemma slot_at_store i j sl q : 0 ≤ i → 0 ≤ j → (Z.to_nat j < length (slots_ q))%nat →
  slot_at v0 i (store_slot j sl q) = if i =? j then sl else slot_at v0 i q.
Proof.
  intros Hi Hj Hlen. unfold slot_at, store_slot; cbn.
  destruct (Z.eqb_spec i j) as [->|Hne].
  - by rewrite list_lookup_insert_eq.
  - rewrite list_lookup_insert_ne; [done|lia].
Qed.

Lemma slot_store p p' sl q : ring q →
  slot_of p' (store_slot (slot_index p q) sl q) =
  if slot_index p' q =? slot_index p q then sl else slot_of p' q.
Proof.
  intros Hr. change (slot_index p' (store_slot _ _ q)) with (slot_index p' q).
  pose proof (slot_index_range p q Hr). pose proof (slot_index_range p' q Hr).
  apply slot_at_store; [lia..|]. rewrite (ring_slots q Hr). lia.
Qed.

Lemma ring_store_slot i sl q : ring q → ring (store_slot i sl q).
Proof. intros []. split; [done..|]. cbn. by rewrite length_insert. Qed.

(** ** Positions and their slots *)

(** The position a producer has claimed and not yet published. *)
Definition owned pc : option Z :=
  match pc with
  | P_claimed _ p | P_touch _ p _ | P_write _ p | P_publish _ p => Some p
  | _ => None
  end.

Definition is_published (trace : list (queue_event V)) p : Prop := p ∈ (publications trace).*1.

#[global] Instance is_published_decision trace p : Decision (is_published trace p).
Proof. unfold is_published. apply _. Defined.

(** What the slots hold; [front] is the first position the consumer has not
    released, [owners] the claims of the producers. *)
Record core q (front : Z) (trace : list (queue_event V)) (owners : list (option Z)) : Prop := {
  core_ring : ring q;
  core_bounds : 0 ≤ front ∧ front ≤ enqueue_ q ≤ front + capacity_ q ∧ enqueue_ q ≤ u64_max;
  core_free : ∀ p, front ≤ p < front + capacity_ q → ¬ is_published trace p →
    sl_sequence (slot_of p q) = word_at p q p;
  core_full : ∀ p v, front ≤ p → (p, v) ∈ publications trace →
    sl_sequence (slot_of p q) = word_at p q (p + 1) ∧ sl_value (slot_of p q) = v;
  core_published : NoDup (publications trace).*1 ∧
    ∀ p, is_published trace p → 0 ≤ p < enqueue_ q;
  core_past : ∀ p, 0 ≤ p < front → is_published trace p;
  core_owned : ∀ i p, owners !! i = Some (Some p) →
    front ≤ p < enqueue_ q ∧ ¬ is_published trace p;
  core_distinct : ∀ i j p, owners !! i = Some (Some p) → owners !! j = Some (Some p) → i = j;
  core_claimed : ∀ p, front ≤ p < enqueue_ q → ¬ is_published trace p →
    ∃ i, owners !! i = Some (Some p);
  core_touched : touched_watermark_ q ≤ capacity_ q ∧
    (∀ p, is_published trace p → p < capacity_ q → p < touched_watermark_ q) ∧
    ∀ j, 0 ≤ j → touched_watermark_ q ≤ j < capacity_ q → sl_sequence (slot_at v0 j q) = 0;
}.

Lemma publications_snoc trace e :
  publications (trace ++ [e]) =
  publications trace ++ match e with Published p v => [(p, v)] | _ => [] end.
Proof. unfold publications. rewrite omap_app. by destruct e. Qed.

Lemma is_published_snoc trace p v p' :
  is_published (trace ++ [Published p v]) p' ↔ is_published trace p' ∨ p' = p.
Proof.
  unfold is_published. rewrite publications_snoc, fmap_app, elem_of_app. cbn.
  by rewrite list_elem_of_singleton.
Qed.

Lemma is_published_lookup trace p : is_published trace p ↔ ∃ v, (p, v) ∈ publications trace.
Proof.
  unfold is_published. rewrite list_elem_of_fmap. split.
  - intros ([p' v] & -> & H). by exists v.
  - intros [v H]. by exists (p, v).
Qed.

(** The slot of a claimed position has been touched once the claimer has seen to it. *)
Lemma core_lap q front trace owners p : core q front trace owners → front ≤ p < enqueue_ q →
  (p < capacity_ q → p < touched_watermark_ q) → slot_index p q < touched_watermark_ q.
Proof.
  intros [Hr (Hf & Hb & _) _ _ _ Hpast _ _ _ (_ & Ht & _)] Hp Htouch.
  pose proof (slot_index_range p q Hr) as Hi.
  destruct (decide (p < capacity_ q)).
  - rewrite slot_index_small by (done || lia). by apply Htouch.
  - apply Ht; [|lia]. apply Hpast. split; [lia|].
    destruct (decide (slot_index p q < front)); [done|]. exfalso.
    assert (p = slot_index p q); [|lia].
    apply (slot_index_inj p (slot_index p q) q front Hr); [lia..|].
    by rewrite (slot_index_small (slot_index p q)).
Qed.

(** *** The steps that touch the slots or the claims *)

Lemma core_claim q front trace owners i : core q front trace owners →
  enqueue_ q < front + capacity_ q → enqueue_ q < u64_max → owners !! i = Some None →
  core (store_enqueue (enqueue_ q + 1) q) front trace (<[i := Some (enqueue_ q)]> owners).
Proof.
  intros [Hr Hb Hfree Hfull [Hnd Hp] Hpast Ho Hd Hcl Ht] Hroom Hmax Hi.
  assert (Hilt : (i < length owners)%nat) by by apply lookup_lt_Some in Hi.
  assert (Hnp : ¬ is_published trace (enqueue_ q)) by (intros H%Hp; lia).
  split; cbn; try done.
  - by destruct Hr.
  - lia.
  - split; [done|]. intros p H%Hp. lia.
  - intros j p Hj. destruct (decide (i = j)) as [<-|].
    + rewrite list_lookup_insert_eq in Hj by done. injection Hj as <-. split; [lia|done].
    + rewrite list_lookup_insert_ne in Hj by done. destruct (Ho j p Hj). split; [lia|done].
  - intros j k p. destruct (decide (i = j)) as [<-|], (decide (i = k)) as [<-|];
      rewrite ?list_lookup_insert_eq, ?list_lookup_insert_ne by done; try done.
    + intros [= <-] Hk. destruct (Ho k _ Hk). lia.
    + intros Hj [= <-]. destruct (Ho j _ Hj). lia.
    + apply Hd.
  - intros p Hrange Hnpub. destruct (decide (p = enqueue_ q)) as [->|].
    + exists i. by apply list_lookup_insert_eq.
    + destruct (Hcl p) as [j Hj]; [lia|done|]. exists j.
      rewrite list_lookup_insert_ne; [done|]. intros ->. by rewrite Hi in Hj.
Qed.

Lemma core_touch q front trace owners z : core q front trace owners →
  touched_watermark_ q ≤ z ≤ capacity_ q → core (store_touched z q) front trace owners.
Proof.
  intros [Hr Hb Hfree Hfull Hp Hpast Ho Hd Hcl (Ht1 & Ht2 & Ht3)] Hz.
  split; cbn; try done; [by destruct Hr|]. split_and!; [lia| |].
  - intros p H1 H2. specialize (Ht2 p H1 H2). lia.
  - intros j H0 Hj. apply (Ht3 j); lia.
Qed.

(** Nothing but the counters changes. *)
Lemma core_same q q' front trace owners : core q front trace owners →
  enqueue_ q' = enqueue_ q → touched_watermark_ q' = touched_watermark_ q →
  capacity_ q' = capacity_ q → mask_ q' = mask_ q → slots_ q' = slots_ q →
  core q' front trace owners.
Proof.
  intros [[] Hb Hfree Hfull Hp Hpast Ho Hd Hcl Ht] He Htw Hc Hm Hs.
  assert (Hidx : ∀ p, slot_index p q' = slot_index p q) by (intros; unfold slot_index; by rewrite Hm).
  assert (Hat : ∀ i, slot_at v0 i q' = slot_at v0 i q) by (intros; unfold slot_at; by rewrite Hs).
  split; rewrite ?He, ?Htw, ?Hc; try done.
  - split; by rewrite ?Hc, ?Hm, ?Hs.
  - intros p. unfold word_at. rewrite Hidx, Hat. apply Hfree.
  - intros p v. unfold word_at. rewrite Hidx, Hat. apply Hfull.
  - destruct Ht as (? & ? & Ht). split_and!; [done..|]. intros j. rewrite Hat. apply Ht.
Qed.

Lemma core_events q front trace owners events : core q front trace owners →
  publications events = [] → core q front (trace ++ events) owners.
Proof.
  intros Hc He. assert (Hpub : publications (trace ++ events) = publications trace).
  { unfold publications in *. by rewrite omap_app, He, app_nil_r. }
  destruct Hc as [Hr Hb Hfree Hfull Hp Hpast Ho Hd Hcl Ht].
  unfold is_published in *. split; unfold is_published; rewrite ?Hpub; done.
Qed.

(** *** Storing into the slot of a position *)

Lemma slot_store_same p sl q : ring q → slot_of p (store_slot (slot_index p q) sl q) = sl.
Proof. intros Hr. by rewrite slot_store, Z.eqb_refl. Qed.

Lemma slot_store_other p p' lo sl q : ring q → lo ≤ p < lo + capacity_ q →
  lo ≤ p' < lo + capacity_ q → p' ≠ p →
  slot_of p' (store_slot (slot_index p q) sl q) = slot_of p' q.
Proof.
  intros Hr Hp Hp' Hne. rewrite slot_store by done.
  destruct (Z.eqb_spec (slot_index p' q) (slot_index p q)) as [H|]; [|done].
  by apply (slot_index_inj p' p q lo) in H.
Qed.

Lemma slot_at_store_other j p sl q : ring q → 0 ≤ j → j ≠ slot_index p q →
  slot_at v0 j (store_slot (slot_index p q) sl q) = slot_at v0 j q.
Proof.
  intros Hr Hj Hne. pose proof (slot_index_range p q Hr).
  rewrite slot_at_store; [by rewrite (proj2 (Z.eqb_neq _ _))|lia..|].
  rewrite (ring_slots q Hr). lia.
Qed.

Lemma core_write q front trace owners i p v : core q front trace owners →
  owners !! i = Some (Some p) → core (store_value v0 (slot_index p q) v q) front trace owners.
Proof.
  intros Hc Hi. pose proof Hc as [Hr (Hb0 & Hb1 & Hb2) Hfree Hfull [Hnd Hp] Hpast Ho Hd Hcl (Ht1 & Ht2 & Ht3)].
  destruct (Ho i p Hi) as [Hrange Hnpub]. unfold store_value.
  assert (Hlap : front ≤ p < front + capacity_ q) by lia.
  split; try done.
  - by apply ring_store_slot.
  - intros p' Hp' Hn. destruct (decide (p' = p)) as [->|].
    + rewrite slot_store_same by done. cbn. by apply Hfree.
    + rewrite (slot_store_other p p' front) by done. by apply Hfree.
  - intros p' v' Hf Hin. assert (Hpub : is_published trace p') by (apply is_published_lookup; eauto).
    specialize (Hp p' Hpub). rewrite (slot_store_other p p' front) by (done || lia || congruence).
    by apply Hfull.
  - cbn. split_and!; [done..|]. intros j H0 Hj. destruct (decide (j = slot_index p q)) as [->|].
    + change (slot_at v0 _ _) with (slot_of p (store_slot (slot_index p q) {| sl_sequence := sl_sequence (slot_of p q); sl_value := v |} q)).
      rewrite slot_store_same by done. apply Ht3; done.
    + rewrite slot_at_store_other by done. by apply Ht3.
Qed.

Lemma core_publish q front trace owners i p v : core q front trace owners →
  owners !! i = Some (Some p) → (p < capacity_ q → p < touched_watermark_ q) →
  sl_value (slot_of p q) = v →
  core (store_sequence v0 (slot_index p q) (word_at p q (p + 1)) q) front
    (trace ++ [Published p v]) (<[i := None]> owners).
Proof.
  intros Hc Hi Htouch Hv.
  pose proof Hc as [Hr (Hb0 & Hb1 & Hb2) Hfree Hfull [Hnd Hp] Hpast Ho Hd Hcl (Ht1 & Ht2 & Ht3)].
  destruct (Ho i p Hi) as [Hrange Hnpub]. unfold store_sequence.
  assert (Hlap : front ≤ p < front + capacity_ q) by lia.
  assert (Hilt : (i < length owners)%nat) by by apply lookup_lt_Some in Hi.
  set (sl := {| sl_sequence := word_at p q (p + 1); sl_value := _ |}).
  set (q' := store_slot (slot_index p q) sl q).
  pose proof (slot_store_same p sl q Hr : slot_of p q' = sl) as Hsame.
  assert (Hother : ∀ p', front ≤ p' < front + capacity_ q → p' ≠ p → slot_of p' q' = slot_of p' q)
    by (intros; by apply (slot_store_other p p' front)).
  change (capacity_ q) with (capacity_ q') in *.
  change (enqueue_ q) with (enqueue_ q') in *.
  change (touched_watermark_ q) with (touched_watermark_ q') in *.
  assert (Hinv : ∀ j p', <[i := None]> owners !! j = Some (Some p') → j ≠ i ∧ owners !! j = Some (Some p')).
  { intros j p' Hj. destruct (decide (i = j)) as [<-|].
    - by rewrite list_lookup_insert_eq in Hj.
    - by rewrite list_lookup_insert_ne in Hj. }
  split.
  - by apply ring_store_slot.
  - done.
  - intros p' Hp' Hn. rewrite is_published_snoc in Hn.
    rewrite Hother by tauto. apply Hfree; tauto.
  - intros p' v' Hf Hin. rewrite publications_snoc in Hin. apply elem_of_app in Hin as [Hin|Hin].
    + assert (Hpub : is_published trace p') by (apply is_published_lookup; eauto).
      specialize (Hp p' Hpub). rewrite Hother by (lia || congruence). by apply Hfull.
    + apply list_elem_of_singleton in Hin. injection Hin as -> ->. by rewrite Hsame.
  - split.
    + rewrite publications_snoc, fmap_app. apply NoDup_app. split_and!; [done| |apply NoDup_singleton].
      intros p' Hin ->%list_elem_of_singleton. done.
    + intros p' [Hq| ->]%is_published_snoc; [by apply Hp|lia].
  - intros p' Hp'. apply is_published_snoc. left. by apply Hpast.
  - intros j p' Hj. destruct (Hinv j p' Hj) as [Hne Hj']. destruct (Ho j p' Hj') as [? Hn].
    split; [done|]. intros [Hq| ->]%is_published_snoc; [done|]. by apply Hne, (Hd j i p).
  - intros j k p' [_ Hj]%Hinv [_ Hk]%Hinv. by apply (Hd j k p').
  - intros p' Hp' Hn. rewrite is_published_snoc in Hn. destruct (Hcl p') as [j Hj]; [done|tauto|].
    exists j. rewrite list_lookup_insert_ne; [done|]. intros ->. rewrite Hi in Hj.
    injection Hj as ->. tauto.
  - split_and!; [done| |].
    + intros p' [Hq| ->]%is_published_snoc Hlt; [by apply Ht2|by apply Htouch].
    + intros j H0 Hj. unfold q'. rewrite slot_at_store_other; [by apply Ht3|done..|].
      intros ->. pose proof (core_lap q front trace owners p Hc Hrange Htouch).
      change (touched_watermark_ q) with (touched_watermark_ q') in *. lia.
Qed.

(** The consumer gives a slot back for the next lap. *)
Lemma core_release q front trace owners : core q front trace owners →
  is_published trace front →
  core (store_sequence v0 (slot_index front q) (word_at front q (front + capacity_ q)) q)
    (front + 1) trace owners.
Proof.
  intros Hc Hpub.
  pose proof Hc as [Hr (Hb0 & Hb1 & Hb2) Hfree Hfull [Hnd Hp] Hpast Ho Hd Hcl (Ht1 & Ht2 & Ht3)].
  pose proof (Hp front Hpub) as Hrange. pose proof (ring_bounds q Hr) as Hcap. unfold store_sequence.
  set (sl := {| sl_sequence := word_at front q (front + capacity_ q); sl_value := sl_value (slot_of front q) |}).
  set (q' := store_slot (slot_index front q) sl q).
  assert (Hlap : front ≤ front < front + capacity_ q) by lia.
  pose proof (slot_store_same front sl q Hr : slot_of front q' = sl) as Hsame.
  assert (Hother : ∀ p', front ≤ p' < front + capacity_ q → p' ≠ front → slot_of p' q' = slot_of p' q)
    by (intros; by apply (slot_store_other front p' front)).
  pose proof (slot_index_lap front q Hr : slot_index (front + capacity_ q) q' = slot_index front q) as Hnext.
  assert (Htouched : slot_index front q < touched_watermark_ q)
    by (apply (core_lap q front trace owners); [done|lia|by apply Ht2]).
  split; change (capacity_ q') with (capacity_ q);
    change (enqueue_ q') with (enqueue_ q); change (touched_watermark_ q') with (touched_watermark_ q).
  - by apply ring_store_slot.
  - lia.
  - intros p' Hp' Hn. destruct (decide (p' = front + capacity_ q)) as [->|].
    + unfold word_at. rewrite Hnext. change (slot_index front q) with (slot_index front q') at 1.
      by rewrite Hsame.
    + rewrite Hother by lia. apply Hfree; [lia|done].
  - intros p' v' Hf Hin. assert (is_published trace p') as Hq%Hp by (apply is_published_lookup; eauto).
    rewrite Hother by lia. by apply Hfull; [lia|].
  - done.
  - intros p' Hp'. destruct (decide (p' = front)) as [->|]; [done|]. apply Hpast. lia.
  - intros i p Hi. destruct (Ho i p Hi) as [? Hn]. split; [|done].
    destruct (decide (p = front)) as [->|]; [done|]. lia.
  - done.
  - intros p Hp' Hn. apply Hcl; [lia|done].
  - split_and!; [done..|]. intros j H0 Hj. unfold q'.
    rewrite slot_at_store_other; [by apply Ht3|done..|]. intros ->. lia.
Qed.

(** *** Traces *)

Lemma publications_app t t' : publications (t ++ t') = publications t ++ publications t'.
Proof. apply omap_app. Qed.
Lemma pops_app t t' : pops (t ++ t') = pops t ++ pops t'.
Proof. apply omap_app. Qed.
Lemma drops_app t t' : drops (t ++ t') = drops t + drops t'.
Proof. unfold drops. induction t as [|[] t IH]; cbn; lia. Qed.
Lemma taken_app t t' : taken (t ++ t') = taken t + taken t'.
Proof. unfold taken. induction t as [|[] t IH]; cbn; lia. Qed.
Lemma drops_nonneg t : 0 ≤ drops t.
Proof. unfold drops. induction t as [|[] t IH]; cbn; lia. Qed.

Lemma is_published_app t t' p : is_published t p → is_published (t ++ t') p.
Proof using V. unfold is_published. rewrite publications_app, fmap_app, elem_of_app. tauto. Qed.

(** ** The invariant of the whole system *)

(** What the callbacks promise of the value built for a sequence number. *)
Context (made : Z → V → Prop).

(** The first position whose slot has not been given back. *)
Definition front (s : system V) : Z :=
  match sys_consumer s with C_advance p _ => p + 1 | _ => dequeue_ (sys_queue s) end.

Definition callback pc : option (Z → V) :=
  match pc with
  | P_load f | P_loop f _ | P_cas f _ | P_claimed f _ | P_touch f _ _ | P_write f _ | P_publish f _ =>
      Some f
  | P_idle | P_high_load | P_high _ | P_count_load | P_count _ => None
  end.
Definition makes pc : Prop := ∀ f n, callback pc = Some f → made n (f n).

(** What a producer knows at each point of its call. *)
Definition producer_ok q (front lost : Z) pc : Prop :=
  match pc with
  | P_loop _ p => 0 ≤ p ≤ enqueue_ q
  | P_cas _ p => 0 ≤ p ≤ enqueue_ q ∧ p < u64_max ∧ (p = enqueue_ q → p < front + capacity_ q)
  | P_touch _ p w => p < capacity_ q ∧ w ≤ touched_watermark_ q
  | P_write _ p => p < capacity_ q → p < touched_watermark_ q
  | P_publish f p =>
      (p < capacity_ q → p < touched_watermark_ q) ∧ sl_value (slot_of p q) = f (p + 1)
  | P_count n => 0 ≤ n ≤ lost
  | P_idle | P_load _ | P_claimed _ _ | P_high_load | P_high _ | P_count_load => True
  end.

Definition consumer_ok q trace (c : ConsumerState V) : Prop :=
  match c with
  | C_idle | C_load => True
  | C_check p => p = dequeue_ q ∧ p < u64_max
  | C_depth p | C_read p => p = dequeue_ q ∧ is_published trace p
  | C_high_load p depth | C_high p depth _ =>
      p = dequeue_ q ∧ is_published trace p ∧ 0 ≤ depth ≤ capacity_ q
  | C_release p v | C_advance p v => p = dequeue_ q ∧ (p, v) ∈ publications trace
  end.

(** Every drop is counted once, until the counter saturates. *)
Definition counts q trace : Prop :=
  0 ≤ dropped_ q ≤ u64_max ∧ 0 ≤ taken trace ∧ dropped_ q + taken trace ≤ drops trace ∧
  (drops trace ≤ u64_max → dropped_ q + taken trace = drops trace).

Record inv (s : system V) : Prop := {
  inv_core : core (sys_queue s) (front s) (sys_trace s) (owned <$> sys_producers s);
  inv_producers : ∀ i pc, sys_producers s !! i = Some pc →
    producer_ok (sys_queue s) (front s) (drops (sys_trace s)) pc ∧ makes pc;
  inv_consumer : consumer_ok (sys_queue s) (sys_trace s) (sys_consumer s);
  inv_pops : (pops (sys_trace s)).*1 = seqZ 0 (dequeue_ (sys_queue s)) ∧
    ∀ pv, pv ∈ pops (sys_trace s) → pv ∈ publications (sys_trace s);
  inv_made : ∀ p v, (p, v) ∈ publications (sys_trace s) → made (p + 1) v;
  inv_counts : counts (sys_queue s) (sys_trace s);
  inv_high : 0 ≤ high_water_ (sys_queue s) ≤ capacity_ (sys_queue s);
}.

(** What a producer knows outlives the steps of the others. *)
Lemma producer_ok_mono q f lost q' f' lost' pc : producer_ok q f lost pc →
  enqueue_ q ≤ enqueue_ q' → touched_watermark_ q ≤ touched_watermark_ q' →
  capacity_ q' = capacity_ q → f ≤ f' → lost ≤ lost' →
  (∀ p, owned pc = Some p → sl_value (slot_of p q') = sl_value (slot_of p q)) →
  producer_ok q' f' lost' pc.
Proof.
  intros Hok He Ht Hc Hf Hl Hv. destruct pc; cbn in *; rewrite ?Hc; try lia.
  rewrite Hv by done. destruct Hok. split; [lia|done].
Qed.

Lemma consumer_ok_mono q trace q' events c : consumer_ok q trace c →
  dequeue_ q' = dequeue_ q → capacity_ q' = capacity_ q → consumer_ok q' (trace ++ events) c.
Proof using V.
  clear v0 made. intros Hok Hd Hc. destruct c; cbn in *; rewrite ?Hd, ?Hc, ?publications_app, ?elem_of_app;
    intuition auto using is_published_app.
Qed.

(** *** A producer's step *)

Lemma inv_producer s i pc q' pc' events :
  inv s → sys_producers s !! i = Some pc →
  core q' (front s) (sys_trace s ++ events) (<[i := owned pc']> (owned <$> sys_producers s)) →
  enqueue_ (sys_queue s) ≤ enqueue_ q' →
  touched_watermark_ (sys_queue s) ≤ touched_watermark_ q' →
  capacity_ q' = capacity_ (sys_queue s) → dequeue_ q' = dequeue_ (sys_queue s) →
  (∀ j p, j ≠ i → (owned <$> sys_producers s) !! j = Some (Some p) →
     sl_value (slot_of p q') = sl_value (slot_of p (sys_queue s))) →
  producer_ok q' (front s) (drops (sys_trace s ++ events)) pc' → makes pc' →
  pops events = [] → (∀ p v, (p, v) ∈ publications events → made (p + 1) v) →
  counts q' (sys_trace s ++ events) → 0 ≤ high_water_ q' ≤ capacity_ q' →
  inv (set_queue q' events (set_producer i pc' s)).
Proof.
  intros [Hcore Hprod Hcons Hpops Hmade _ _] Hi Hcore' He Ht Hc Hd Hv Hok Hmakes Hpe Hme Hcnt Hh.
  assert (Hfront : front (set_queue q' events (set_producer i pc' s)) = front s)
    by (unfold front; cbn; by destruct (sys_consumer s)).
  split; rewrite ?Hfront; cbn; try done.
  - by rewrite list_fmap_insert.
  - intros j pcj Hj. destruct (decide (i = j)) as [<-|Hne].
    + rewrite list_lookup_insert_eq in Hj by by apply lookup_lt_Some in Hi. by injection Hj as <-.
    + rewrite list_lookup_insert_ne in Hj by done. destruct (Hprod j pcj Hj) as [Hok' ?].
      split; [|done]. eapply producer_ok_mono; [done..|lia| |].
      * rewrite drops_app. pose proof (drops_nonneg events). lia.
      * intros p Hp. apply (Hv j); [done|]. by rewrite list_lookup_fmap, Hj; cbn; rewrite Hp.
  - by eapply consumer_ok_mono.
  - rewrite pops_app, Hpe, app_nil_r, Hd. split; [apply Hpops|].
    intros pv Hin%Hpops. rewrite publications_app, elem_of_app. by left.
  - intros p v. rewrite publications_app, elem_of_app. intros [Hin|Hin]; eauto.
Qed.

(** A step that leaves the ring and the claims alone. *)
Definition same_ring q q' : Prop :=
  enqueue_ q' = enqueue_ q ∧ dequeue_ q' = dequeue_ q ∧ touched_watermark_ q' = touched_watermark_ q ∧
  capacity_ q' = capacity_ q ∧ mask_ q' = mask_ q ∧ slots_ q' = slots_ q.

Lemma inv_producer_quiet s i pc q' pc' events :
  inv s → sys_producers s !! i = Some pc → same_ring (sys_queue s) q' → owned pc' = owned pc →
  publications events = [] → pops events = [] →
  producer_ok q' (front s) (drops (sys_trace s ++ events)) pc' →
  (callback pc' = callback pc ∨ callback pc' = None) →
  counts q' (sys_trace s ++ events) → 0 ≤ high_water_ q' ≤ capacity_ q' →
  inv (set_queue q' events (set_producer i pc' s)).
Proof.
  intros Hinv Hi (He & Hd & Ht & Hc & Hm & Hs) Ho Hpe Hpo Hok Hcb Hcnt Hh.
  apply (inv_producer s i pc); try done; try lia.
  - rewrite list_insert_id by (rewrite list_lookup_fmap, Hi; cbn; by rewrite Ho).
    apply core_events; [|done]. apply (core_same (sys_queue s)); try done. apply Hinv.
  - intros j p _ _. unfold slot_at, slot_index. by rewrite Hm, Hs.
  - destruct (inv_producers s Hinv i pc Hi) as [_ Hmakes]. intros f n Hf. apply Hmakes.
    destruct Hcb as [<-|Hcb]; congruence.
  - rewrite Hpe. intros p v Hin%elem_of_nil. done.
Qed.

Lemma counts_same q q' trace : counts q trace → dropped_ q' = dropped_ q → counts q' trace.
Proof. unfold counts. by intros ? ->. Qed.

End invariant.
