(* ===== verification/MpscSchedules.v ===== *)
(** * Schedules of the bounded queue

    The invariant holds after every schedule; what the queue promises its
    producers and its consumer follows from it. *)

From S2P Require Import Prelude MpscQueue MpscInvariant.

Section schedules.
Context {V : Type} (v0 : V) (made : Z → V → Prop).
Implicit Types (s : system V) (q : BoundedMpscQueue V) (pc : ProducerState V) (p : Z) (v : V).

Local Abbreviation slot_of p q := (slot_at v0 (slot_index p q) q).
Local Abbreviation inv := (inv v0 made).

(** ** Steps of a producer *)

Lemma inv_front_bounds s : inv s →
  0 ≤ front s ∧ front s ≤ enqueue_ (sys_queue s) ≤ front s + capacity_ (sys_queue s) ∧
  enqueue_ (sys_queue s) ≤ u64_max.
Proof. intros Hinv. apply (core_bounds _ _ _ _ _ (inv_core _ _ _ Hinv)). Qed.

Lemma inv_ring s : inv s → ring (sys_queue s).
Proof. intros Hinv. apply (core_ring _ _ _ _ _ (inv_core _ _ _ Hinv)). Qed.

(** A slot's word is its position's number, or the next one when it is published. *)
Lemma lap_word s p : inv s → front s ≤ p < front s + capacity_ (sys_queue s) →
  ∃ n, p ≤ n ≤ p + 1 ∧ sl_sequence (slot_of p (sys_queue s)) = word_at p (sys_queue s) n.
Proof.
  intros Hinv Hp. pose proof (inv_core _ _ _ Hinv) as Hc.
  destruct (decide (is_published (sys_trace s) p)) as [Hpub|Hn].
  - apply is_published_lookup in Hpub as [v Hv]. exists (p + 1). split; [lia|].
    exact (proj1 (core_full _ _ _ _ _ Hc p v ltac:(lia) Hv)).
  - exists p. split; [lia|]. by apply (core_free _ _ _ _ _ Hc).
Qed.

(** What the distance a producer computes tells when nobody overtook it. *)
Lemma probe_distance s : inv s → enqueue_ (sys_queue s) < u64_max →
  let q := sys_queue s in let p := enqueue_ q in
  let distance := wrap64 (sl_sequence (slot_of p q) - wrap64 (p - slot_index p q)) in
  if decide (p < front s + capacity_ q) then distance = 0 else u64_max / 2 < distance.
Proof.
  intros Hinv Hmax q p distance. subst q p distance. set (q := sys_queue s) in *.
  pose proof (inv_ring s Hinv : ring q) as Hr. pose proof (ring_bounds q Hr).
  destruct (inv_front_bounds s Hinv) as (Hf & Hb & _). fold q in Hb.
  pose proof (inv_core _ _ _ Hinv) as Hc. fold q in Hc.
  destruct (decide (enqueue_ q < front s + capacity_ q)) as [Hlt|Hge].
  - rewrite (core_free _ _ _ _ _ Hc), distance_eq, Z.sub_diag; [done|lia|].
    intros Hp%(core_published _ _ _ _ _ Hc). lia.
  - assert (Heq : enqueue_ q = front s + capacity_ q) by lia.
    assert (Hslot : slot_index (enqueue_ q) q = slot_index (front s) q)
      by (rewrite Heq; by apply slot_index_lap).
    assert (Hseq : ∃ n, front s ≤ n ≤ front s + 1 ∧
      sl_sequence (slot_of (enqueue_ q) q) = word_at (enqueue_ q) q n).
    { unfold word_at. rewrite Hslot. apply lap_word; [done|fold q; lia]. }
    destruct Hseq as (n & Hn & ->). rewrite distance_eq. unfold wrap64.
    assert (u64_max / 2 = 2 ^ 63 - 1) by done.
    replace ((n - enqueue_ q) mod 2 ^ 64) with (n - enqueue_ q + 2 ^ 64); [lia|].
    apply (Z.mod_unique_pos _ _ (-1)); lia.
Qed.

(** A producer that was overtaken never takes its slot for a full ring. *)
Lemma overtaken_distance s p : inv s → 0 ≤ p < enqueue_ (sys_queue s) →
  enqueue_ (sys_queue s) < 2 ^ 62 →
  wrap64 (sl_sequence (slot_of p (sys_queue s)) - wrap64 (p - slot_index p (sys_queue s))) ≤
  u64_max / 2.
Proof.
  intros Hinv Hp He. pose proof (inv_front_bounds s Hinv) as (Hf & Hb & Hm).
  pose proof (inv_ring s Hinv) as Hr. pose proof (ring_bounds _ Hr) as Hcap.
  destruct (position_of_index (slot_index p (sys_queue s)) (sys_queue s) (front s) Hr) as (p' & Hp' & Hi);
    [by apply slot_index_range|].
  destruct (lap_word s p' Hinv Hp') as (n & Hn & Hseq). rewrite Hi in Hseq. rewrite Hseq.
  unfold word_at. rewrite Hi. fold (word_at p (sys_queue s) n). rewrite distance_eq.
  assert (p ≤ n).
  { destruct (decide (front s ≤ p)) as [Hge|]; [|lia].
    assert (p = p'); [|lia]. apply (slot_index_inj p p' (sys_queue s) (front s) Hr); [lia..|done]. }
  assert (u64_max / 2 = 2 ^ 63 - 1) by done. rewrite wrap64_small by word. lia.
Qed.

Definition keeps_inv s i pc : Prop := ∀ spurious,
  let '(q, pc', events) := producer_step v0 (sys_queue s) pc spurious in
  inv (set_queue q events (set_producer i pc' s)).

Local Ltac quiet :=
  eapply inv_producer_quiet; rewrite ?app_nil_r; try done; try lia;
  try (by eapply inv_counts); try (by eapply inv_high); try (by left); try (by right).

(** Looking for a free slot. *)
Lemma inv_probe s i pc : inv s → sys_producers s !! i = Some pc →
  match pc with P_idle | P_load _ | P_loop _ _ => True | _ => False end → keeps_inv s i pc.
Proof.
  intros Hinv Hi Hpc spurious. pose proof (inv_front_bounds s Hinv) as (Hf & Hb & Hm).
  destruct (inv_producers _ _ _ Hinv i pc Hi) as [Hok _].
  destruct pc as [|f|f p| | | | | | | | |]; try done; cbn in Hok |- *.
  - quiet.
  - quiet. cbn. lia.
  - destruct (Z.eqb_spec p u64_max) as [|Hmax]; [quiet|].
    destruct (Z.eqb_spec (wrap64 (sl_sequence (slot_of p (sys_queue s)) -
      wrap64 (p - slot_index p (sys_queue s)))) 0) as [Hz|Hz].
    + quiet. cbn. split_and!; [lia..|]. intros ->.
      pose proof (probe_distance s Hinv ltac:(lia)) as Hd. cbn zeta in Hd.
      case_decide; [done|]. rewrite Hz in Hd. done.
    + destruct (_ <? _); quiet.
Qed.

Lemma inv_claim s i pc : inv s → sys_producers s !! i = Some pc →
  match pc with P_cas _ _ => True | _ => False end → keeps_inv s i pc.
Proof.
  intros Hinv Hi Hpc spurious. pose proof (inv_front_bounds s Hinv) as (Hf & Hb & Hm).
  destruct (inv_producers _ _ _ Hinv i pc Hi) as [Hok Hmakes].
  destruct pc as [| | |f p| | | | | | | |]; try done; cbn in Hok |- *.
  destruct (spurious || negb (enqueue_ (sys_queue s) =? p)) eqn:Hcas; [quiet; cbn; lia|].
  apply orb_false_iff in Hcas as [_ Hcas]. apply negb_false_iff, Z.eqb_eq in Hcas. subst p.
  destruct Hok as (Hp & Hmax & Hroom). specialize (Hroom eq_refl).
  rewrite wrap64_small by word.
  apply (inv_producer v0 made s i (P_cas f (enqueue_ (sys_queue s)))); try done; cbn;
    rewrite ?app_nil_r; try lia.
  - apply core_claim; [apply Hinv|done|done|]. by rewrite list_lookup_fmap, Hi.
  - intros p v Hin%elem_of_nil. done.
  - apply Hinv.
  - apply Hinv.
Qed.

Lemma owned_lookup s i pc : sys_producers s !! i = Some pc →
  (owned <$> sys_producers s) !! i = Some (owned pc).
Proof. intros Hi. by rewrite list_lookup_fmap, Hi. Qed.

(** Storing into the slot of a claimed position, others' values stay. *)
Lemma store_other_value s i p sl : inv s → (owned <$> sys_producers s) !! i = Some (Some p) →
  ∀ j p', j ≠ i → (owned <$> sys_producers s) !! j = Some (Some p') →
  sl_value (slot_of p' (store_slot (slot_index p (sys_queue s)) sl (sys_queue s))) =
  sl_value (slot_of p' (sys_queue s)).
Proof.
  intros Hinv Hi j p' Hne Hj. pose proof (inv_core _ _ _ Hinv) as Hc.
  destruct (core_owned _ _ _ _ _ Hc i p Hi) as [Hp _].
  destruct (core_owned _ _ _ _ _ Hc j p' Hj) as [Hp' _].
  pose proof (inv_front_bounds s Hinv) as (Hf & Hb & Hm).
  rewrite (slot_store_other v0 p p' (front s)); [done|by apply inv_ring|lia..|].
  intros ->. by apply Hne, (core_distinct _ _ _ _ _ Hc j i p).
Qed.

(** The claimed slot: the touch, the value and its publication. *)
Lemma inv_fill s i pc : inv s → sys_producers s !! i = Some pc →
  match pc with
  | P_claimed _ _ | P_touch _ _ _ | P_write _ _ => True | _ => False
  end → keeps_inv s i pc.
Proof.
  intros Hinv Hi Hpc spurious. pose proof (inv_front_bounds s Hinv) as (Hf & Hb & Hm).
  destruct (inv_producers _ _ _ Hinv i pc Hi) as [Hok Hmakes].
  pose proof (owned_lookup s i pc Hi) as How. pose proof (inv_core _ _ _ Hinv) as Hc.
  destruct pc as [| | | |f p|f p w|f p| | | | |]; try done; cbn in Hok, How |- *;
    destruct (core_owned _ _ _ _ _ Hc i p How) as [Hp Hnp].
  - destruct (Z.ltb_spec p (capacity_ (sys_queue s))); quiet; cbn; lia.
  - rewrite wrap64_small by word.
    destruct (Z.ltb_spec w (p + 1)) as [Hlt|Hge]; cbn; [|quiet; cbn; lia].
    destruct (spurious || _) eqn:Hcas; [quiet; cbn; lia|].
    apply orb_false_iff in Hcas as [_ Hcas]. apply negb_false_iff, Z.eqb_eq in Hcas.
    apply (inv_producer v0 made s i (P_touch f p w)); try done; cbn; rewrite ?app_nil_r; try lia.
    + rewrite list_insert_id by done. apply core_touch; [done|lia].
    + intros p' v Hin%elem_of_nil. done.
    + apply Hinv.
    + apply Hinv.
  - rewrite wrap64_small by word.
    apply (inv_producer v0 made s i (P_write f p)); try done; cbn; rewrite ?app_nil_r; try lia.
    + rewrite list_insert_id by done. by eapply core_write.
    + by apply (store_other_value s i p).
    + split; [done|]. unfold store_value. by rewrite slot_store_same by by apply inv_ring.
    + intros p' v Hin%elem_of_nil. done.
    + apply Hinv.
    + apply Hinv.
Qed.

Lemma inv_publish s i f p : inv s → sys_producers s !! i = Some (P_publish f p) →
  keeps_inv s i (P_publish f p).
Proof.
  intros Hinv Hi spurious. pose proof (inv_front_bounds s Hinv) as (Hf & Hb & Hm).
  destruct (inv_producers _ _ _ Hinv i _ Hi) as [[Ht Hv] Hmakes].
  pose proof (owned_lookup s i _ Hi) as How. pose proof (inv_core _ _ _ Hinv) as Hc.
  destruct (core_owned _ _ _ _ _ Hc i p How) as [Hp Hnp]. cbn.
  rewrite wrap64_word_at, wrap64_small by word.
  apply (inv_producer v0 made s i (P_publish f p)); try done; cbn; try lia.
  - by apply core_publish.
  - by apply (store_other_value s i p).
  - intros p' v Hin%list_elem_of_singleton. injection Hin as -> ->. by apply Hmakes.
  - destruct (inv_counts _ _ _ Hinv) as (? & ? & ? & ?). unfold counts. cbn.
    rewrite drops_app, taken_app. cbn. rewrite !Z.add_0_r. done.
  - apply Hinv.
Qed.

(** A full queue: the high-water mark and the count of the drops. *)
Lemma inv_drop s i pc : inv s → sys_producers s !! i = Some pc →
  match pc with
  | P_high_load | P_high _ | P_count_load | P_count _ => True | _ => False
  end → keeps_inv s i pc.
Proof.
  intros Hinv Hi Hpc spurious. pose proof (inv_ring s Hinv) as Hr.
  pose proof (ring_bounds _ Hr) as Hcap. pose proof (inv_high _ _ _ Hinv) as Hh.
  destruct (inv_producers _ _ _ Hinv i pc Hi) as [Hok _].
  destruct (inv_counts _ _ _ Hinv) as (Hd & Htk & Hle & Heq).
  destruct pc as [| | | | | | | | |high| |n]; try done; cbn in Hok |- *.
  - quiet.
  - destruct (negb _); [quiet|]. destruct (_ || _); quiet. cbn; lia.
  - quiet. cbn. pose proof Heq. lia.
  - unfold counts in *. destruct (Z.eqb_spec n u64_max) as [Hmax|Hmax].
    + quiet. unfold counts. rewrite drops_app, taken_app. cbn. lia.
    + destruct (_ || _) eqn:Hcas; quiet; cbn; [lia|].
      apply orb_false_iff in Hcas as [_ Hcas]. apply negb_false_iff, Z.eqb_eq in Hcas.
      unfold counts. cbn. rewrite drops_app, taken_app. cbn. lia.
Qed.

Lemma inv_producer_step s i pc : inv s → sys_producers s !! i = Some pc → keeps_inv s i pc.
Proof.
  intros Hinv Hi. destruct pc; eauto using inv_probe, inv_claim, inv_fill, inv_publish, inv_drop.
Qed.

(** ** Steps of the consumer *)

Lemma inv_consumer_events s q' c' events : inv s →
  enqueue_ q' = enqueue_ (sys_queue s) → touched_watermark_ q' = touched_watermark_ (sys_queue s) →
  capacity_ q' = capacity_ (sys_queue s) → mask_ q' = mask_ (sys_queue s) →
  slots_ q' = slots_ (sys_queue s) → counts q' (sys_trace s ++ events) →
  front (set_queue q' events (set_consumer c' s)) = front s →
  publications events = [] → drops events = 0 →
  consumer_ok q' (sys_trace s ++ events) c' →
  (pops (sys_trace s ++ events)).*1 = seqZ 0 (dequeue_ q') →
  (∀ pv, pv ∈ pops events → pv ∈ publications (sys_trace s)) →
  0 ≤ high_water_ q' ≤ capacity_ q' →
  inv (set_queue q' events (set_consumer c' s)).
Proof.
  intros Hinv He Ht Hc Hm Hs Hcnt Hfr Hpe Hde Hok Hpops Hin Hh.
  assert (Hpub : publications (sys_trace s ++ events) = publications (sys_trace s))
    by (by rewrite publications_app, Hpe, app_nil_r).
  split; rewrite ?Hfr; cbn [sys_queue sys_trace sys_consumer sys_producers set_queue set_consumer];
    try done.
  - apply core_events; [|done]. apply (core_same _ (sys_queue s)); try done. apply Hinv.
  - intros i pc Hi. destruct (inv_producers _ _ _ Hinv i pc Hi) as [Hpok ?]. split; [|done].
    eapply producer_ok_mono; [done|lia|lia|done|lia|rewrite drops_app; lia|].
    intros p _. unfold slot_at, slot_index. by rewrite Hm, Hs.
  - split; [done|]. intros pv. rewrite pops_app, elem_of_app, Hpub.
    intros [Hp|Hp]; [by apply (inv_pops _ _ _ Hinv)|by apply Hin].
  - intros p v. rewrite Hpub. apply Hinv.
Qed.

Lemma inv_consumer_quiet s q' c' events : inv s →
  enqueue_ q' = enqueue_ (sys_queue s) → touched_watermark_ q' = touched_watermark_ (sys_queue s) →
  capacity_ q' = capacity_ (sys_queue s) → mask_ q' = mask_ (sys_queue s) →
  slots_ q' = slots_ (sys_queue s) → dropped_ q' = dropped_ (sys_queue s) →
  front (set_queue q' events (set_consumer c' s)) = front s →
  publications events = [] → drops events = 0 → taken events = 0 →
  consumer_ok q' (sys_trace s ++ events) c' →
  (pops (sys_trace s ++ events)).*1 = seqZ 0 (dequeue_ q') →
  (∀ pv, pv ∈ pops events → pv ∈ publications (sys_trace s)) →
  0 ≤ high_water_ q' ≤ capacity_ q' →
  inv (set_queue q' events (set_consumer c' s)).
Proof.
  intros Hinv He Ht Hc Hm Hs Hdr Hfr Hpe Hde Hte. apply inv_consumer_events; try done.
  destruct (inv_counts _ _ _ Hinv) as (? & ? & ? & ?). unfold counts.
  rewrite drops_app, taken_app, Hdr. lia.
Qed.

Lemma consumer_front s : inv s →
  match sys_consumer s with C_advance _ _ => False | _ => True end →
  front s = dequeue_ (sys_queue s).
Proof. unfold front. by destruct (sys_consumer s). Qed.

Local Ltac consumer_quiet := apply inv_consumer_quiet; rewrite ?app_nil_r; try done; cbn.

Definition keeps_inv_c s : Prop := ∀ spurious,
  let '(q, c', events) := consumer_step v0 (sys_queue s) (sys_consumer s) spurious in
  inv (set_queue q events (set_consumer c' s)).

Lemma inv_pop_probe s : inv s →
  match sys_consumer s with C_idle | C_load | C_check _ => True | _ => False end → keeps_inv_c s.
Proof.
  intros Hinv Hpc spurious. pose proof (inv_front_bounds s Hinv) as (Hf & Hb & Hm).
  pose proof (inv_consumer _ _ _ Hinv) as Hok. pose proof (inv_pops _ _ _ Hinv) as [Hpops _].
  pose proof (inv_high _ _ _ Hinv) as Hh.
  unfold front in *. destruct (sys_consumer s) as [| |p| | | | | |] eqn:Hcs; try done; cbn in Hok |- *.
  - consumer_quiet; [by unfold front; rewrite Hcs|by intros ? ?%elem_of_nil].
  - destruct (Z.eqb_spec (dequeue_ (sys_queue s)) u64_max).
    + consumer_quiet; [by unfold front; rewrite Hcs|by rewrite pops_app, app_nil_r|by intros ? ?%elem_of_nil].
    + consumer_quiet; [by unfold front; rewrite Hcs|lia|by intros ? ?%elem_of_nil].
  - destruct Hok as [-> Hmax]. rewrite wrap64_word_at.
    destruct (Z.eqb_spec (sl_sequence (slot_of (dequeue_ (sys_queue s)) (sys_queue s)))
      (word_at (dequeue_ (sys_queue s)) (sys_queue s) (dequeue_ (sys_queue s) + 1))) as [Heq|]; cbn.
    + consumer_quiet; [by unfold front; rewrite Hcs| |by intros ? ?%elem_of_nil].
      split; [done|]. destruct (decide (is_published (sys_trace s) (dequeue_ (sys_queue s)))) as [|Hn];
        [done|exfalso].
      pose proof (inv_core _ _ _ Hinv) as Hc. unfold front in Hc. rewrite Hcs in Hc.
      pose proof (ring_bounds _ (inv_ring s Hinv)).
      rewrite (core_free _ _ _ _ _ Hc) in Heq by (done || lia).
      apply word_at_inj in Heq; [lia|word..].
    + consumer_quiet; [by unfold front; rewrite Hcs|by rewrite pops_app, app_nil_r|by intros ? ?%elem_of_nil].
Qed.

Lemma inv_pop_depth s : inv s →
  match sys_consumer s with C_depth _ | C_high_load _ _ | C_high _ _ _ | C_read _ => True | _ => False end →
  keeps_inv_c s.
Proof.
  intros Hinv Hpc spurious. pose proof (inv_front_bounds s Hinv) as (Hf & Hb & Hm).
  pose proof (inv_consumer _ _ _ Hinv) as Hok. pose proof (inv_pops _ _ _ Hinv) as [Hpops _].
  pose proof (inv_high _ _ _ Hinv) as Hh. pose proof (inv_core _ _ _ Hinv) as Hc.
  unfold front in *. destruct (sys_consumer s) as [| | |p|p d|p d h|p| |] eqn:Hcs; try done; cbn in Hok |- *.
  - destruct Hok as [-> Hp]. consumer_quiet; [by unfold front; rewrite Hcs| |by intros ? ?%elem_of_nil].
    rewrite wrap64_small by word. split_and!; [done..|lia|lia].
  - consumer_quiet; [by unfold front; rewrite Hcs|by intros ? ?%elem_of_nil].
  - destruct Hok as (-> & Hp & Hd). destruct (negb _).
    { consumer_quiet; [by unfold front; rewrite Hcs|by intros ? ?%elem_of_nil]. }
    destruct (_ || _); consumer_quiet; try (by unfold front; rewrite Hcs); by intros ? ?%elem_of_nil.
  - destruct Hok as (-> & Hp). consumer_quiet; [by unfold front; rewrite Hcs| |by intros ? ?%elem_of_nil].
    split; [done|]. apply is_published_lookup in Hp as [v Hp].
    by destruct (core_full _ _ _ _ _ Hc _ _ (Z.le_refl _) Hp) as [_ ->].
Qed.

Lemma store_sequence_value p p' n q : ring q →
  sl_value (slot_of p' (store_sequence v0 (slot_index p q) n q)) = sl_value (slot_of p' q).
Proof.
  intros Hr. unfold store_sequence. rewrite slot_store by done.
  destruct (Z.eqb_spec (slot_index p' q) (slot_index p q)) as [Heq|]; [|done]. by rewrite Heq.
Qed.

Lemma inv_pop_release s p v : inv s → sys_consumer s = C_release p v → keeps_inv_c s.
Proof.
  intros Hinv Hcs spurious. pose proof (inv_consumer _ _ _ Hinv) as Hok.
  pose proof (inv_core _ _ _ Hinv) as Hc. unfold front in Hc. rewrite Hcs in *. cbn in Hok |- *.
  destruct Hok as [-> Hp]. rewrite wrap64_word_at. set (d := dequeue_ (sys_queue s)) in *.
  assert (Hfr : front s = d) by (unfold front; by rewrite Hcs).
  destruct (inv_pops _ _ _ Hinv) as [Hpops Hpin].
  split; cbn [sys_queue sys_trace sys_consumer sys_producers set_queue set_consumer front];
    rewrite ?app_nil_r.
  - apply core_release; [done|]. apply is_published_lookup. by exists v.
  - intros i pc Hi. destruct (inv_producers _ _ _ Hinv i pc Hi) as [Hpok ?]. split; [|done].
    eapply producer_ok_mono; [done|cbn; lia..|]. intros p' _. by apply store_sequence_value, inv_ring.
  - done.
  - done.
  - apply Hinv.
  - apply (counts_same (sys_queue s)); [apply Hinv|done].
  - apply Hinv.
Qed.

Lemma inv_pop_advance s p v : inv s → sys_consumer s = C_advance p v → keeps_inv_c s.
Proof.
  intros Hinv Hcs spurious. pose proof (inv_consumer _ _ _ Hinv) as Hok.
  pose proof (inv_front_bounds s Hinv) as (Hf & Hb & Hm).
  rewrite Hcs in *. cbn in Hok |- *. destruct Hok as [-> Hp].
  unfold front in Hf, Hb. rewrite Hcs in Hf, Hb.
  set (d := dequeue_ (sys_queue s)) in *.
  destruct (inv_pops _ _ _ Hinv) as [Hpops Hpin]. fold d in Hpops.
  assert (0 ≤ d).
  { destruct (core_published _ _ _ _ _ (inv_core _ _ _ Hinv)) as [_ H]. apply H.
    apply is_published_lookup. by exists v. }
  rewrite wrap64_small by word.
  apply inv_consumer_quiet; try done; cbn [dequeue_ store_dequeue with_counters].
  - unfold front. cbn. by rewrite Hcs.
  - rewrite pops_app, fmap_app, Hpops, (seqZ_app 0 d 1) by lia. done.
  - intros pv ->%list_elem_of_singleton. done.
  - apply (inv_high _ _ _ Hinv).
Qed.

Lemma inv_consumer_step s : inv s → keeps_inv_c s.
Proof.
  intros Hinv. destruct (sys_consumer s) eqn:Hcs;
    first [by eapply inv_pop_release | by eapply inv_pop_advance
          | apply inv_pop_probe; [done|by rewrite Hcs] | apply inv_pop_depth; [done|by rewrite Hcs]].
Qed.

(** ** Schedules *)

(** Calls whose callback builds what it promises. *)
Definition choice_made (c : choice V) : Prop :=
  match c with Push _ f => ∀ n, made n (f n) | _ => True end.

Lemma inv_step s c : inv s → choice_made c → inv (system_step v0 s c).
Proof.
  intros Hinv Hm. destruct c as [i f|i spurious| |spurious|]; cbn.
  - destruct (sys_producers s !! i) as [[]|] eqn:Hi; try done.
    assert (Hs : set_producer i (P_load f) s = set_queue (sys_queue s) [] (set_producer i (P_load f) s)).
    { unfold set_queue; cbn. by rewrite app_nil_r. }
    rewrite Hs. apply (inv_producer v0 made s i P_idle); rewrite ?app_nil_r; try done; try lia.
    + rewrite list_insert_id by (by rewrite (owned_lookup s i P_idle)). apply Hinv.
    + intros g n [= <-]. apply Hm.
    + intros p v Hin%elem_of_nil. done.
    + apply Hinv.
    + apply Hinv.
  - destruct (sys_producers s !! i) as [pc|] eqn:Hi; [|done].
    pose proof (inv_producer_step s i pc Hinv Hi spurious) as H.
    by destruct (producer_step v0 (sys_queue s) pc spurious) as [[q pc'] events].
  - destruct (sys_consumer s) eqn:Hcs; try done.
    assert (Hs : set_consumer C_load s = set_queue (sys_queue s) [] (set_consumer C_load s)).
    { unfold set_queue; cbn. by rewrite app_nil_r. }
    rewrite Hs. apply inv_consumer_quiet; rewrite ?app_nil_r; try done.
    + unfold front; cbn. by rewrite Hcs.
    + apply Hinv.
    + intros ? ?%elem_of_nil. done.
    + apply (inv_high _ _ _ Hinv).
  - pose proof (inv_consumer_step s Hinv spurious) as H.
    by destruct (consumer_step v0 (sys_queue s) (sys_consumer s) spurious) as [[q c'] events].
  - replace (set_queue _ _ s) with (set_queue (store_dropped 0 (sys_queue s))
      [Taken (dropped_ (sys_queue s))] (set_consumer (sys_consumer s) s)) by done.
    apply inv_consumer_events; try done.
    + destruct (inv_counts _ _ _ Hinv) as (? & ? & ? & ?). unfold counts.
      rewrite drops_app, taken_app. cbn. lia.
    + eapply consumer_ok_mono; [apply (inv_consumer _ _ _ Hinv)|done..].
    + rewrite pops_app, app_nil_r. apply (inv_pops _ _ _ Hinv).
    + intros ? ?%elem_of_nil. done.
    + apply (inv_high _ _ _ Hinv).
Qed.

Lemma inv_run s schedule : inv s → Forall choice_made schedule → inv (system_run v0 s schedule).
Proof.
  intros Hinv Hall. revert s Hinv. induction Hall as [|c schedule Hc _ IH]; intros s Hinv; [done|].
  by apply IH, inv_step.
Qed.

(** ** Fresh queues *)

Lemma validate_capacity_ok capacity c : validate_capacity capacity = Ok c →
  c = capacity ∧ 2 ≤ capacity ≤ u64_max / 2 ∧ Z.land capacity (capacity - 1) = 0.
Proof.
  unfold validate_capacity. intros H. inv_ok. bool_facts. lia.
Qed.

(** Clearing the lowest set bit leaves nothing: a power of two. *)
Lemma land_pred_pow2 n : 0 < n → Z.land n (n - 1) = 0 → n = 2 ^ Z.log2 n.
Proof.
  intros Hn Hl. pose proof (Z.log2_spec n Hn) as [Hlo Hhi].
  pose proof (Z.log2_nonneg n) as H0.
  destruct (Z.eq_dec n (2 ^ Z.log2 n)) as [|Hne]; [done|exfalso].
  assert (Hb : Z.testbit (n - 1) (Z.log2 n) = true).
  { assert (Z.log2 (n - 1) = Z.log2 n) as <- by (apply Z.log2_unique; lia).
    apply Z.bit_log2. pose proof (Z.pow_pos_nonneg 2 (Z.log2 n)). lia. }
  assert (H : Z.testbit (Z.land n (n - 1)) (Z.log2 n) = true)
    by (by rewrite Z.land_spec, Hb, Z.bit_log2).
  by rewrite Hl, Z.testbit_0_l in H.
Qed.

Lemma slot_at_replicate n j q : slots_ q = replicate n (empty_slot v0) → slot_at v0 j q = empty_slot v0.
Proof.
  intros Hs. unfold slot_at. rewrite Hs. destruct (replicate n _ !! _) eqn:Hl; [|done].
  by apply lookup_replicate in Hl as [-> _].
Qed.

Lemma word_at_lap p q : ring q → 0 ≤ p < capacity_ q → word_at p q p = 0.
Proof.
  intros Hr Hp. unfold word_at. by rewrite slot_index_small, Z.sub_diag by done.
Qed.

(** A queue whose counters are zero and whose slots are free. *)
Record fresh q : Prop := {
  fresh_ring : ring q;
  fresh_counters : enqueue_ q = 0 ∧ dequeue_ q = 0 ∧ dropped_ q = 0 ∧ high_water_ q = 0 ∧
    touched_watermark_ q = 0;
  fresh_slots : ∀ j, 0 ≤ j < capacity_ q → sl_sequence (slot_at v0 j q) = 0;
}.

Lemma inv_fresh q threads : fresh q → inv (system_new q threads).
Proof.
  intros [Hr (He & Hd & Hdr & Hh & Ht) Hs]. pose proof (ring_bounds q Hr).
  assert (Hown : ∀ i p, (owned (V := V) <$> replicate threads P_idle) !! i = Some (Some p) → False).
  { intros i p. rewrite fmap_replicate. intros H'%lookup_replicate. by destruct H'. }
  split; cbn [sys_queue sys_producers sys_consumer sys_trace system_new front].
  - split; cbn; rewrite ?He, ?Hd, ?Ht; try done; try (by intros; exfalso; eauto).
    + word.
    + intros p Hp _. rewrite word_at_lap by (done || lia). apply Hs.
      pose proof (slot_index_range p q Hr). done.
    + intros p v _ Hin%elem_of_nil. done.
    + split; [constructor|]. intros p Hin%elem_of_nil. done.
    + lia.
    + lia.
    + split_and!; [lia| |]. { intros p Hin%elem_of_nil. done. }
      intros j H0 Hj. by apply Hs.
  - intros i pc Hi%lookup_replicate. destruct Hi as [-> _]. split; [done|]. by intros f n.
  - done.
  - cbn. rewrite Hd. split; [done|]. intros pv Hin%elem_of_nil. done.
  - intros p v Hin%elem_of_nil. done.
  - unfold counts. cbn. rewrite Hdr. unfold u64_max. lia.
  - lia.
Qed.

Lemma new_ring q capacity : BoundedMpscQueue_new v0 capacity = Ok q →
  ring q ∧ capacity_ q = capacity ∧ ∀ j, slot_at v0 j q = empty_slot v0.
Proof.
  unfold BoundedMpscQueue_new. intros H. inv_ok.
  match goal with H : validate_capacity _ = _ |- _ => apply validate_capacity_ok in H as (-> & Hb & Hl) end.
  subst q. split_and!; [|done|].
  - split; cbn; [|done|by rewrite length_replicate].
    exists (Z.log2 capacity). rewrite <- land_pred_pow2 by (done || lia). split; [|done].
    assert (u64_max / 2 = 2 ^ 63 - 1) as Hm by done. rewrite Hm in Hb. split.
    + apply Z.log2_le_pow2; lia.
    + assert (Z.log2 capacity < 63); [|lia]. apply Z.log2_lt_pow2; lia.
  - intros j. by eapply slot_at_replicate.
Qed.

Lemma new_fresh q capacity : BoundedMpscQueue_new v0 capacity = Ok q → fresh q.
Proof.
  intros Hq. destruct (new_ring q capacity Hq) as (Hr & Hc & Hs). split; [done| |].
  - unfold BoundedMpscQueue_new in Hq. inv_ok. by subst q.
  - intros j _. by rewrite Hs.
Qed.

End schedules.
