(* ===== verification/MpscTheorems.v ===== *)
(** * What the bounded queue promises

    The consumer is handed the published events once each, in the order of their
    sequence numbers; a producer is turned away only by a full ring; every call
    ends in a publication or a counted drop; each call ends when its thread alone
    keeps running; a quiescent reset gives back a fresh queue. *)

From S2P Require Import Prelude MpscQueue MpscInvariant MpscSchedules.

Section theorems.
Context {V : Type} (v0 : V).
Implicit Types (s : system V) (q : BoundedMpscQueue V) (pc : ProducerState V) (p : Z) (v : V).

Local Abbreviation slot_of p q := (slot_at v0 (slot_index p q) q).

(** The states a fresh queue can reach. *)
Definition reachable s : Prop :=
  ∃ q threads schedule, fresh v0 q ∧ s = system_run v0 (system_new q threads) schedule.

Definition anything (n : Z) v : Prop := True.

Lemma choices_make_anything schedule : Forall (choice_made anything) schedule.
Proof. apply Forall_forall. by intros [] _. Qed.

Lemma ring_reachable_inv s : reachable s → inv v0 anything s.
Proof.
  intros (q & threads & schedule & Hq & ->). apply inv_run; [by apply inv_fresh|].
  apply choices_make_anything.
Qed.

Definition producers_idle s : Prop := Forall (λ pc, pc = P_idle) (sys_producers s).

(** ** Delivery *)

(** C21: From a fresh queue, whatever the schedule of the producers, the consumer and
    the resets of the drop count: the events the consumer has popped are those of
    the positions 0, 1, 2, ... in this order, each the value a producer published
    there and none twice, each built for the sequence number one past its position;
    and once no producer is inside a call, every position handed out is published. *)
Theorem mpsc_delivery (made : Z → V → Prop) q threads schedule :
  fresh v0 q → Forall (choice_made made) schedule →
  let s := system_run v0 (system_new q threads) schedule in
  (pops (sys_trace s)).*1 = seqZ 0 (dequeue_ (sys_queue s)) ∧
  (∀ p v, (p, v) ∈ pops (sys_trace s) → (p, v) ∈ publications (sys_trace s) ∧ made (p + 1) v) ∧
  NoDup (publications (sys_trace s)).*1 ∧
  (producers_idle s →
   (publications (sys_trace s)).*1 ≡ₚ seqZ 0 (enqueue_ (sys_queue s))).
Proof.
  intros Hq Hmade s.
  pose proof (inv_run v0 made _ schedule (inv_fresh v0 made q threads Hq) Hmade) as Hinv. fold s in Hinv.
  destruct (inv_pops _ _ _ Hinv) as [Hpops Hin]. pose proof (inv_core _ _ _ Hinv) as Hc.
  destruct (core_published _ _ _ _ _ Hc) as [Hnd Hrange].
  split_and!; [done| |done|].
  - intros p v Hp. split; [by apply Hin|]. by apply (inv_made _ _ _ Hinv), Hin.
  - intros Hidle. apply NoDup_Permutation; [done|apply NoDup_seqZ|]. intros p.
    rewrite elem_of_seqZ, Z.add_0_l. split; [apply Hrange|]. intros Hp.
    destruct (decide (is_published (sys_trace s) p)) as [|Hn]; [done|exfalso].
    destruct (decide (p < front s)).
    + apply Hn, (core_past _ _ _ _ _ Hc). lia.
    + destruct (core_claimed _ _ _ _ _ Hc p) as [i Hi]; [lia|done|].
      rewrite list_lookup_fmap in Hi. destruct (sys_producers s !! i) as [pc|] eqn:Hl; [|done].
      rewrite (Forall_lookup_1 _ _ _ _ Hidle Hl) in Hi. done.
Qed.

(** ** Drops *)

(** C22: A producer gives up for want of a slot only when the ring is full: in every
    reachable state whose positions stay below 2^62, the step that turns from the
    search for a slot to the count of a drop finds every slot holding an event the
    consumer has not released; and while the ring has room, a producer that has
    read the current position goes on to claim it. *)
Theorem mpsc_drop_only_when_full s i f p spurious :
  reachable s → sys_producers s !! i = Some (P_loop f p) → enqueue_ (sys_queue s) < 2 ^ 62 →
  let next := snd (fst (producer_step v0 (sys_queue s) (P_loop f p) spurious)) in
  (next = P_high_load → enqueue_ (sys_queue s) = front s + capacity_ (sys_queue s)) ∧
  (p = enqueue_ (sys_queue s) → enqueue_ (sys_queue s) < front s + capacity_ (sys_queue s) →
   next = P_cas f p).
Proof.
  intros Hs%ring_reachable_inv Hi He. cbn.
  destruct (inv_producers _ _ _ Hs i _ Hi) as [Hp _]. cbn in Hp.
  destruct (Z.eqb_spec p u64_max) as [Hmax|_]; [unfold u64_max in Hmax; lia|].
  pose proof (probe_distance v0 anything s Hs ltac:(word)) as Hd. cbn zeta in Hd.
  pose proof (inv_front_bounds _ _ s Hs) as (Hf & Hb & Hm).
  destruct (decide (p = enqueue_ (sys_queue s))) as [->|Hne].
  - case_decide as Hroom.
    + rewrite Hd. cbn. split; [done|]. intros _ _. done.
    + split; [|lia]. intros _. lia.
  - split; [|done]. intros Hdrop.
    pose proof (overtaken_distance v0 anything s p Hs ltac:(lia) He) as Hlt.
    destruct (_ =? 0); [done|]. destruct (Z.ltb_spec (u64_max / 2)
      (wrap64 (sl_sequence (slot_of p (sys_queue s)) - wrap64 (p - slot_index p (sys_queue s))))); [lia|done].
Qed.

(** ** Conservation *)

(** The calls of [try_emplace] a schedule makes. *)
Fixpoint calls s (schedule : list (choice V)) : Z :=
  match schedule with
  | [] => 0
  | c :: rest =>
      match c with
      | Push i _ => match sys_producers s !! i with Some P_idle => 1 | _ => 0 end
      | _ => 0
      end + calls (system_step v0 s c) rest
  end.

Definition is_busy pc : Z := match pc with P_idle => 0 | _ => 1 end.
Fixpoint busy (pcs : list (ProducerState V)) : Z :=
  match pcs with [] => 0 | pc :: rest => is_busy pc + busy rest end.

(** Calls that ended and calls that are under way. *)
Definition account s : Z :=
  Z.of_nat (length (publications (sys_trace s))) + drops (sys_trace s) + busy (sys_producers s).

Lemma busy_insert i pc pc' pcs : pcs !! i = Some pc →
  busy (<[i := pc']> pcs) = busy pcs - is_busy pc + is_busy pc'.
Proof.
  revert i. induction pcs as [|x pcs IH]; intros [|i] Hi; try done.
  - injection Hi as ->. cbn. lia.
  - change (is_busy x + busy (<[i:=pc']> pcs) = is_busy x + busy pcs - is_busy pc + is_busy pc').
    rewrite (IH i Hi). lia.
Qed.

Lemma busy_idle pcs : Forall (λ pc, pc = P_idle) pcs → busy pcs = 0.
Proof. induction 1 as [|pc pcs -> _ IH]; [done|]. cbn. lia. Qed.

Lemma account_events q events s : account (set_queue q events s) =
  account s + Z.of_nat (length (publications events)) + drops events.
Proof.
  unfold account. cbn [set_queue sys_trace sys_producers].
  rewrite publications_app, length_app, drops_app. lia.
Qed.

Lemma producer_step_account q pc spurious :
  let '(_, pc', events) := producer_step v0 q pc spurious in
  Z.of_nat (length (publications events)) + drops events + is_busy pc' = is_busy pc.
Proof. destruct pc; cbn; repeat case_match; simplify_eq; done. Qed.

Lemma consumer_step_account q c spurious :
  let '(_, _, events) := consumer_step v0 q c spurious in publications events = [] ∧ drops events = 0.
Proof. destruct c; cbn; repeat case_match; simplify_eq; done. Qed.

Lemma account_step s c : account (system_step v0 s c) = account s + calls s [c].
Proof.
  destruct c as [i f|i spurious| |spurious|]; cbn.
  - destruct (sys_producers s !! i) as [[]|] eqn:Hi; try lia.
    unfold account. cbn [set_producer sys_trace sys_producers].
    rewrite (busy_insert i P_idle) by done. cbn [is_busy]. lia.
  - destruct (sys_producers s !! i) as [pc|] eqn:Hi; [|lia].
    pose proof (producer_step_account (sys_queue s) pc spurious) as H.
    destruct (producer_step v0 (sys_queue s) pc spurious) as [[q pc'] events].
    cbv beta iota in H |- *. rewrite account_events. unfold account.
    cbn [set_producer sys_trace sys_producers]. rewrite (busy_insert i pc) by done. lia.
  - rewrite !Z.add_0_r. by destruct (sys_consumer s).
  - pose proof (consumer_step_account (sys_queue s) (sys_consumer s) spurious) as H.
    destruct (consumer_step v0 (sys_queue s) (sys_consumer s) spurious) as [[q c'] events].
    destruct H as [Hp Hd]. rewrite account_events, Hp, Hd. unfold account.
    cbn [length set_consumer sys_trace sys_producers]. lia.
  - rewrite account_events. cbn [publications drops length omap list_omap foldr]. lia.
Qed.

Lemma account_run s schedule : account (system_run v0 s schedule) = account s + calls s schedule.
Proof.
  revert s. induction schedule as [|c schedule IH]; intros s; [cbn; lia|].
  change (system_run v0 s (c :: schedule)) with (system_run v0 (system_step v0 s c) schedule).
  rewrite IH, account_step. cbn. lia.
Qed.

(** No call of a producer is lost: after any schedule from a fresh queue, the calls
    made are the events published, the events dropped and the calls under way; and
    as long as fewer than 2^64 events are dropped, the drops are what the writer has
    taken from the drop counter and what the counter still holds. *)
Theorem mpsc_calls_accounted q threads schedule :
  fresh v0 q →
  let s := system_run v0 (system_new q threads) schedule in
  calls (system_new q threads) schedule =
    Z.of_nat (length (publications (sys_trace s))) + drops (sys_trace s) + busy (sys_producers s) ∧
  (drops (sys_trace s) ≤ u64_max → drops (sys_trace s) = dropped_ (sys_queue s) + taken (sys_trace s)).
Proof.
  intros Hq s. split.
  - pose proof (account_run (system_new q threads) schedule) as H. fold s in H.
    unfold account at 1 in H. rewrite H. unfold account. cbn.
    rewrite busy_idle; [lia|]. apply Forall_forall. intros pc Hpc.
    by apply elem_of_replicate_inv in Hpc.
  - assert (Hs : reachable s) by by exists q, threads, schedule.
    destruct (inv_counts _ _ _ (ring_reachable_inv s Hs)) as (_ & _ & _ & H). intros Hd. by rewrite H.
Qed.

(** ** Bounds *)

(** In every reachable state the counters keep their bounds: positions never wrap,
    the consumer is never ahead of the producers nor more than a ring behind, the
    high-water mark and the reported occupancy never exceed the capacity. *)
Theorem mpsc_counter_bounds s :
  reachable s →
  let q := sys_queue s in
  0 ≤ dequeue_ q ≤ enqueue_ q ∧ enqueue_ q ≤ dequeue_ q + capacity_ q + 1 ∧ enqueue_ q ≤ u64_max ∧
  0 ≤ high_water_ q ≤ capacity_ q ∧ 0 ≤ dropped_ q ≤ u64_max ∧ 0 ≤ occupancy q ≤ capacity_ q.
Proof.
  intros Hs%ring_reachable_inv q. pose proof (inv_front_bounds _ _ s Hs) as (Hf & Hb & Hm).
  pose proof (inv_high _ _ _ Hs) as Hh. destruct (inv_counts _ _ _ Hs) as (Hd & _).
  pose proof (inv_consumer _ _ _ Hs) as Hok.
  fold q in Hb, Hm, Hh, Hd. assert (Hfr : front s - 1 ≤ dequeue_ q ≤ front s ∧ 0 ≤ dequeue_ q).
  { unfold front in *. fold q in Hf |- *. destruct (sys_consumer s); try lia.
    destruct Hok as [-> Hp]. fold q in Hf |- *. split; [lia|].
    apply (core_published _ _ _ _ _ (inv_core _ _ _ Hs)), is_published_lookup. by eexists. }
  assert (0 ≤ occupancy q ≤ capacity_ q).
  { unfold occupancy. destruct (Z.ltb_spec (capacity_ q) (wrap64 (enqueue_ q - dequeue_ q))).
    - lia.
    - split; [|done]. by apply Z.mod_pos_bound. }
  lia.
Qed.

(** ** Reset *)

Lemma touched_slots s : reachable s → let q := sys_queue s in
  ∀ j, touched_watermark_ q ≤ j < capacity_ q → 0 ≤ j → sl_sequence (slot_at v0 j q) = 0.
Proof.
  intros Hs%ring_reachable_inv q j Hj H0.
  destruct (core_touched _ _ _ _ _ (inv_core _ _ _ Hs)) as (_ & _ & H). by apply H.
Qed.

(** Zeroing the sequences of a prefix of the slots. *)
Definition clear_slots q (n : nat) : BoundedMpscQueue V :=
  foldl (λ q index, store_sequence v0 (Z.of_nat index) 0 q) q (seq 0 n).

Lemma clear_slots_spec q n : (n ≤ length (slots_ q))%nat →
  let q' := clear_slots q n in
  length (slots_ q') = length (slots_ q) ∧ capacity_ q' = capacity_ q ∧ mask_ q' = mask_ q ∧
  enqueue_ q' = enqueue_ q ∧ dequeue_ q' = dequeue_ q ∧ dropped_ q' = dropped_ q ∧
  high_water_ q' = high_water_ q ∧ touched_watermark_ q' = touched_watermark_ q ∧
  ∀ j, 0 ≤ j → sl_sequence (slot_at v0 j q') =
    if j <? Z.of_nat n then 0 else sl_sequence (slot_at v0 j q).
Proof.
  induction n as [|n IH]; intros Hn; cbn zeta.
  - split_and!; try done. intros j Hj. destruct (Z.ltb_spec j (Z.of_nat 0)); [lia|done].
  - destruct (IH ltac:(lia)) as (Hl & Hc & Hm & He & Hd & Hdr & Hh & Ht & Hs).
    unfold clear_slots. rewrite seq_S, foldl_app. fold (clear_slots q n). cbn.
    rewrite length_insert. split_and!; try done. intros j Hj. unfold store_sequence.
    rewrite slot_at_store by (lia || (rewrite Nat2Z.id, Hl; lia)).
    destruct (Z.eqb_spec j (Z.of_nat n)) as [->|Hne].
    + destruct (Z.ltb_spec (Z.of_nat n) (Z.of_nat (S n))); [done|lia].
    + rewrite Hs by done.
      destruct (Z.ltb_spec j (Z.of_nat n)), (Z.ltb_spec j (Z.of_nat (S n))); done || lia.
Qed.

(** After a quiescent reset the queue is a fresh one: from any reachable state,
    [reset_quiescent] zeroes every counter and leaves the sequence of every slot zero,
    although it visits the touched slots only; what a fresh queue promises of every
    schedule then holds again. *)
Theorem mpsc_reset_fresh s :
  reachable s → fresh v0 (reset_quiescent v0 (sys_queue s)).
Proof.
  intros Hs. pose proof (touched_slots s Hs) as Htouched. apply ring_reachable_inv in Hs.
  pose proof (inv_ring _ _ s Hs) as Hr. set (q := sys_queue s) in *.
  pose proof (core_touched _ _ _ _ _ (inv_core _ _ _ Hs)) as (Ht & _). fold q in Ht.
  pose proof (ring_bounds _ Hr). pose proof (ring_slots _ Hr) as Hlen.
  set (q0 := with_counters 0 0 0 0 (touched_watermark_ q) q).
  destruct (clear_slots_spec q0 (Z.to_nat (touched_watermark_ q)))
    as (Hl & Hc & Hm & He & Hd & Hdr & Hh & _ & Hseq); [cbn; lia|].
  change (fresh v0 (store_touched 0 (clear_slots q0 (Z.to_nat (touched_watermark_ q))))).
  split.
  - destruct Hr as [Hcap Hmask _]. split; cbn; rewrite ?Hc, ?Hm, ?Hl; done.
  - cbn. by rewrite He, Hd, Hdr, Hh.
  - intros j Hj. change (capacity_ (store_touched _ _)) with (capacity_ (clear_slots q0 (Z.to_nat (touched_watermark_ q)))) in Hj.
    rewrite Hc in Hj. change (capacity_ q0) with (capacity_ q) in Hj.
    transitivity (sl_sequence (slot_at v0 j (clear_slots q0 (Z.to_nat (touched_watermark_ q))))); [done|].
    rewrite Hseq by lia. destruct (Z.ltb_spec j (Z.of_nat (Z.to_nat (touched_watermark_ q)))); [done|].
    change (sl_sequence (slot_at v0 j q) = 0). apply Htouched; lia.
Qed.

(** ** Progress *)

(** [n] steps of one thread that the scheduler leaves alone. *)
Definition solo (i : nat) (n : nat) : list (choice V) := replicate n (Producer i false).
Definition solo_consumer (n : nat) : list (choice V) := replicate n (Consumer false).

(** A bound on the steps to the end of a call, when nobody interferes. *)
Definition producer_rank q pc : nat :=
  match pc with
  | P_idle => 0
  | P_count n => if (dropped_ q =? n)%Z then 1 else 2
  | P_count_load => 2
  | P_high h => if (high_water_ q =? h)%Z then 3 else 4
  | P_high_load => 4
  | P_publish _ _ => 1
  | P_write _ _ => 2
  | P_touch _ _ w => if (touched_watermark_ q =? w)%Z then 3 else 4
  | P_claimed _ _ => 4
  | P_cas _ p => if (enqueue_ q =? p)%Z then 5 else 7
  | P_loop _ p => if (enqueue_ q =? p)%Z then 6 else 8
  | P_load _ => 7
  end%nat.

Definition consumer_rank q (c : ConsumerState V) : nat :=
  match c with
  | C_idle => 0
  | C_advance _ _ => 1
  | C_release _ _ => 2
  | C_read _ => 3
  | C_high _ _ h => if (high_water_ q =? h)%Z then 4 else 5
  | C_high_load _ _ => 5
  | C_depth _ => 6
  | C_check _ => 7
  | C_load => 8
  end%nat.

Lemma producer_rank_step s i pc : reachable s → sys_producers s !! i = Some pc → pc ≠ P_idle →
  let '(q', pc', _) := producer_step v0 (sys_queue s) pc false in
  (producer_rank q' pc' < producer_rank (sys_queue s) pc)%nat.
Proof.
  intros Hs%ring_reachable_inv Hi Hne.
  pose proof (inv_front_bounds _ _ s Hs) as (Hf & Hb & Hm).
  destruct pc as [|f|f p|f p|f p|f p w|f p|f p| |h| |n]; try done; cbn;
    rewrite ?Z.eqb_refl; try lia.
  - destruct (inv_producers _ _ _ Hs i _ Hi) as [Hp _]. cbn in Hp.
    destruct (Z.eqb_spec p u64_max) as [|Hmax]; [by case_match; cbn; lia|].
    destruct (Z.eqb_spec (enqueue_ (sys_queue s)) p) as [<-|Hstale].
    + pose proof (probe_distance v0 anything s Hs ltac:(lia)) as Hd. cbn zeta in Hd.
      case_decide; [rewrite Hd; cbn; rewrite Z.eqb_refl; lia|].
      destruct (Z.eqb_spec (wrap64 (sl_sequence (slot_of (enqueue_ (sys_queue s)) (sys_queue s)) -
        wrap64 (enqueue_ (sys_queue s) - slot_index (enqueue_ (sys_queue s)) (sys_queue s)))) 0) as [Hz|_];
        [by rewrite Hz in Hd|].
      by rewrite (proj2 (Z.ltb_lt _ _) Hd); cbn; lia.
    + repeat case_match; simplify_eq; cbn; repeat case_match; bool_facts; try lia.
  - repeat case_match; simplify_eq; cbn in *; rewrite ?Z.eqb_refl; try lia; done.
  - repeat case_match; simplify_eq; cbn; rewrite ?Z.eqb_refl; lia.
  - repeat case_match; simplify_eq; cbn in *; rewrite ?Z.eqb_refl; try lia; done.
  - repeat case_match; simplify_eq; cbn in *; rewrite ?Z.eqb_refl; try lia; done.
  - repeat case_match; simplify_eq; cbn in *; rewrite ?Z.eqb_refl; try lia; done.
Qed.

Lemma consumer_rank_step q c : c ≠ C_idle →
  let '(q', c', _) := consumer_step v0 q c false in (consumer_rank q' c' < consumer_rank q c)%nat.
Proof.
  intros Hne. destruct c; try done; cbn; rewrite ?Z.eqb_refl; try lia.
  - repeat case_match; simplify_eq; cbn; lia.
  - repeat case_match; simplify_eq; cbn; lia.
  - repeat case_match; simplify_eq; cbn in *; rewrite ?Z.eqb_refl; try lia; done.
Qed.

Lemma reachable_step s c : reachable s → reachable (system_step v0 s c).
Proof.
  intros (q & threads & schedule & Hq & ->). exists q, threads, (schedule ++ [c]).
  split; [done|]. unfold system_run. by rewrite foldl_app.
Qed.

Lemma solo_idle i n s : sys_producers s !! i = Some P_idle →
  sys_producers (system_run v0 s (solo i n)) !! i = Some P_idle.
Proof.
  revert s. induction n as [|n IH]; intros s Hi; [done|]. apply IH. cbn. rewrite Hi. cbn.
  rewrite list_lookup_insert_eq; [done|]. by apply lookup_lt_Some in Hi.
Qed.

Lemma solo_finishes i n s pc : reachable s → sys_producers s !! i = Some pc →
  (producer_rank (sys_queue s) pc ≤ n)%nat →
  sys_producers (system_run v0 s (solo i n)) !! i = Some P_idle.
Proof.
  revert s pc. induction n as [|n IH]; intros s pc Hs Hi Hn.
  - destruct pc; cbn in *; repeat case_match; lia || done.
  - assert (pc = P_idle ∨ pc ≠ P_idle) as [->|Hne] by (destruct pc; auto); [by apply solo_idle|].
    pose proof (producer_rank_step s i pc Hs Hi Hne) as Hr.
    pose proof (reachable_step s (Producer i false) Hs) as Hs'.
    change (solo i (S n)) with (Producer (V := V) i false :: solo i n).
    change (system_run v0 s (?c :: ?l)) with (system_run v0 (system_step v0 s c) l).
    cbn [system_step] in *. rewrite Hi in *.
    destruct (producer_step v0 (sys_queue s) pc false) as [[q' pc'] events].
    apply (IH _ pc'); [done| |cbn in *; lia].
    cbn. apply list_lookup_insert_eq. by apply lookup_lt_Some in Hi.
Qed.

Lemma run_cons s c schedule :
  system_run v0 s (c :: schedule) = system_run v0 (system_step v0 s c) schedule.
Proof. done. Qed.

Lemma run_at q pcs c trace schedule q' c' events : consumer_step v0 q c false = (q', c', events) →
  system_run v0 {| sys_queue := q; sys_producers := pcs; sys_consumer := c; sys_trace := trace |}
    (Consumer false :: schedule) =
  system_run v0 {| sys_queue := q'; sys_producers := pcs; sys_consumer := c';
                   sys_trace := trace ++ events |} schedule.
Proof. intros H. unfold system_run. cbn. by rewrite H. Qed.

Lemma solo_consumer_finishes n s : (consumer_rank (sys_queue s) (sys_consumer s) ≤ n)%nat →
  sys_consumer (system_run v0 s (solo_consumer n)) = C_idle.
Proof.
  revert s. induction n as [|n IH]; intros s Hn.
  - destruct (sys_consumer s) eqn:Hc; cbn in *; repeat case_match; lia || done.
  - change (solo_consumer (S n)) with (Consumer (V := V) false :: solo_consumer n).
    destruct (consumer_step v0 (sys_queue s) (sys_consumer s) false) as [[q' c'] events] eqn:Hstep.
    rewrite run_cons. cbn [system_step]. rewrite Hstep. apply IH. cbn.
    assert (sys_consumer s = C_idle ∨ sys_consumer s ≠ C_idle) as [Hc|Hne]
      by (destruct (sys_consumer s); auto).
    + rewrite Hc in Hstep. cbn in Hstep. injection Hstep as <- <- <-. cbn. lia.
    + pose proof (consumer_rank_step (sys_queue s) _ Hne) as H. rewrite Hstep in H. lia.
Qed.

(** An undisturbed [try_pop] delivers the front event when there is one. *)
Lemma solo_pop s v : reachable s → sys_consumer s = C_idle →
  (dequeue_ (sys_queue s), v) ∈ publications (sys_trace s) →
  sys_trace (system_run v0 s (Pop :: solo_consumer 8)) =
  sys_trace s ++ [Popped (dequeue_ (sys_queue s)) v].
Proof.
  intros Hs%ring_reachable_inv Hc Hv.
  pose proof (inv_core _ _ _ Hs) as Hcore. unfold front in Hcore. rewrite Hc in Hcore.
  set (d := dequeue_ (sys_queue s)) in *.
  assert (Hd : 0 ≤ d < enqueue_ (sys_queue s)).
  { apply (core_published _ _ _ _ _ Hcore), is_published_lookup. by exists v. }
  destruct (core_bounds _ _ _ _ _ Hcore) as (_ & _ & Hmax).
  destruct (core_full _ _ _ _ _ Hcore d v (Z.le_refl _) Hv) as [Hseq Hval].
  rewrite run_cons. cbn [system_step]. rewrite Hc. unfold solo_consumer. cbn [replicate].
  assert (Hmax' : (d =? u64_max) = false) by (apply Z.eqb_neq; lia).
  destruct s as [q pcs c trace]. unfold set_consumer.
  cbn [sys_queue sys_producers sys_consumer sys_trace] in *. fold d in Hseq, Hval |- *.
  erewrite run_at; [|cbn; fold d; by rewrite Hmax'].
  erewrite run_at; [|cbn; by rewrite wrap64_word_at, Hseq, Z.eqb_refl].
  erewrite run_at; [|done].
  erewrite run_at; [|done].
  rewrite run_at with (c' := C_read d) (events := [])
    (q' := let depth := wrap64 (enqueue_ q - d) in
           if high_water_ q <? depth then store_high_water depth q else q);
    [|cbn; rewrite Z.eqb_refl; by destruct (_ <? _)].
  rewrite run_at with (c' := C_release d v) (events := [])
    (q' := let depth := wrap64 (enqueue_ q - d) in
           if high_water_ q <? depth then store_high_water depth q else q);
    [|cbn; rewrite <- Hval; by destruct (_ <? _)].
  erewrite run_at; [|done].
  erewrite run_at; [|done].
  cbn. by rewrite !app_nil_r.
Qed.

(** C40: No thread depends on another's progress: in every reachable state, eight steps of
    a producer that nothing disturbs, with no spurious failure, end its call, wherever it
    stands; eight of the consumer end its call; and an undisturbed [try_pop] on a
    published front position delivers that event. *)
Theorem mpsc_progress s i :
  reachable s →
  (∀ pc, sys_producers s !! i = Some pc →
     sys_producers (system_run v0 s (solo i 8)) !! i = Some P_idle) ∧
  sys_consumer (system_run v0 s (solo_consumer 8)) = C_idle ∧
  (∀ v, sys_consumer s = C_idle → (dequeue_ (sys_queue s), v) ∈ publications (sys_trace s) →
     sys_trace (system_run v0 s (Pop :: solo_consumer 8)) =
     sys_trace s ++ [Popped (dequeue_ (sys_queue s)) v]).
Proof.
  intros Hs. split_and!.
  - intros pc Hi. apply (solo_finishes i 8 s pc Hs Hi).
    destruct pc; cbn [producer_rank]; repeat case_match; lia.
  - apply solo_consumer_finishes.
    destruct (sys_consumer s); cbn [consumer_rank]; repeat case_match; lia.
  - intros v. by apply solo_pop.
Qed.

End theorems.

(** ** The bounded queue at work

    A ring of two slots, three threads: schedules on which the theorems of the queue
    apply, evaluated. *)

(** A callback stamps the sequence number it is given on its thread's tag. *)
Definition stamp (thread : Z) : Z → Z := λ sequence, thread * 1000 + sequence.
Definition stamped (sequence value : Z) : Prop := value mod 1000 = sequence mod 1000.

Lemma stamp_stamped thread n : stamped n (stamp thread n).
Proof. unfold stamped, stamp. rewrite Z.add_comm. by apply Z.mod_add. Qed.

Definition ring_of_two : BoundedMpscQueue Z :=
  {| enqueue_ := 0; dequeue_ := 0; dropped_ := 0; high_water_ := 0; touched_watermark_ := 0;
     capacity_ := 2; mask_ := 1; slots_ := [empty_slot 0; empty_slot 0] |}.

Example new_ring_of_two : BoundedMpscQueue_new 0 2 = Ok ring_of_two.
Proof. reflexivity. Qed.
Example new_rejects_three : BoundedMpscQueue_new 0 3 =
  Throw (Exn InvalidArgument "MPSC queue capacity must be a power of two of at least two").
Proof. reflexivity. Qed.

Lemma ring_of_two_fresh : fresh 0 ring_of_two.
Proof. apply (new_fresh 0 ring_of_two 2). reflexivity. Qed.

Definition steps (thread n : nat) : list (choice Z) := replicate n (Producer thread false).

(** Threads 0 and 1 race for position 0: thread 1 wins it, stalls before its
    publication while thread 0 publishes position 1; the consumer sees nothing until
    thread 1 publishes, then takes both; thread 2 finds room again. *)
Definition racing : list (choice Z) :=
  [Push 0 (stamp 7); Push 1 (stamp 8)] ++ steps 0 2 ++ steps 1 4 ++ steps 0 8 ++
  [Pop] ++ replicate 2 (Consumer false) ++ steps 1 5 ++
  [Pop] ++ replicate 8 (Consumer true) ++ replicate 8 (Consumer false) ++
  [Pop] ++ replicate 8 (Consumer false) ++ [Push 2 (stamp 9)] ++ steps 2 8.

Definition after_racing : system Z := system_run 0 (system_new ring_of_two 3) racing.

(** Two events fill the ring; a third call is turned away and counted. *)
Definition filling : list (choice Z) :=
  [Push 0 (stamp 7)] ++ steps 0 8 ++ [Push 0 (stamp 7)] ++ steps 0 8.
Definition overflowing : list (choice Z) :=
  filling ++ [Push 1 (stamp 8)] ++ steps 1 1.

Definition full_ring : system Z := system_run 0 (system_new ring_of_two 3) overflowing.
Definition dropped_one : system Z :=
  system_run 0 (system_new ring_of_two 3) (overflowing ++ steps 1 5 ++ [Take]).

Lemma reachable_run schedule : reachable 0 (system_run 0 (system_new ring_of_two 3) schedule).
Proof. exists ring_of_two, 3%nat, schedule. split; [apply ring_of_two_fresh|done]. Qed.

Example racing_trace : pops (sys_trace after_racing) = [(0, 8001); (1, 7002)].
Proof. vm_compute. reflexivity. Qed.
Example dropped_trace : dropped_ (sys_queue dropped_one) = 0 ∧ taken (sys_trace dropped_one) = 1.
Proof. vm_compute. done. Qed.

Lemma mpsc_delivery_witness :
  pops (sys_trace after_racing) = [(0, 8001); (1, 7002)] ∧
  ∀ p v, (p, v) ∈ pops (sys_trace after_racing) →
    (p, v) ∈ publications (sys_trace after_racing) ∧ stamped (p + 1) v.
Proof.
  split; [vm_compute; reflexivity|].
  refine (proj1 (proj2 (mpsc_delivery 0 stamped ring_of_two 3 racing ring_of_two_fresh _))).
  repeat (apply Forall_cons_2; [first [exact I | intros n; apply stamp_stamped]|]).
  apply Forall_nil_2.
Defined.

Lemma mpsc_drop_only_when_full_witness :
  enqueue_ (sys_queue full_ring) = front full_ring + capacity_ (sys_queue full_ring) ∧
  enqueue_ (sys_queue full_ring) = 2.
Proof.
  split; [|vm_compute; reflexivity].
  refine (proj1 (mpsc_drop_only_when_full 0 full_ring 1 (stamp 8) 2 false
    (reachable_run overflowing) _ _) _); vm_compute; reflexivity.
Defined.

Lemma mpsc_calls_accounted_witness :
  calls 0 (system_new ring_of_two 3) (overflowing ++ steps 1 5 ++ [Take]) = 3 ∧
  drops (sys_trace dropped_one) = dropped_ (sys_queue dropped_one) + taken (sys_trace dropped_one).
Proof.
  split; [vm_compute; reflexivity|].
  refine (proj2 (mpsc_calls_accounted 0 ring_of_two 3 (overflowing ++ steps 1 5 ++ [Take])
    ring_of_two_fresh) _). vm_compute. discriminate.
Defined.

Lemma mpsc_counter_bounds_witness :
  occupancy (sys_queue full_ring) = 2 ∧
  high_water_ (sys_queue dropped_one) = 2 ∧
  0 ≤ occupancy (sys_queue full_ring) ≤ capacity_ (sys_queue full_ring).
Proof.
  split; [vm_compute; reflexivity|]. split; [vm_compute; reflexivity|].
  refine (proj2 (proj2 (proj2 (proj2 (proj2 (mpsc_counter_bounds 0 full_ring
    (reachable_run overflowing))))))).
Defined.

Lemma mpsc_reset_fresh_witness :
  enqueue_ (sys_queue after_racing) = 3 ∧ fresh 0 (reset_quiescent 0 (sys_queue after_racing)).
Proof.
  split; [vm_compute; reflexivity|].
  refine (mpsc_reset_fresh 0 after_racing (reachable_run racing)).
Defined.

Lemma mpsc_progress_witness :
  sys_trace (system_run 0 full_ring (Pop :: solo_consumer 8)) =
    sys_trace full_ring ++ [Popped 0 7001] ∧
  sys_producers (system_run 0 full_ring (solo 1 8)) !! 1%nat = Some P_idle.
Proof.
  split.
  - refine (proj2 (proj2 (mpsc_progress 0 full_ring 1 (reachable_run overflowing))) 7001 _ _).
    + vm_compute. reflexivity.
    + apply list_elem_of_In. vm_compute. left. reflexivity.
  - refine (proj1 (mpsc_progress 0 full_ring 1 (reachable_run overflowing))
      (P_loop (stamp 8) 2) _). vm_compute. reflexivity.
Defined.
