(* ===== verification/IpcProtocol.v ===== *)
(** * The controller-agent protocol

    The frames and payloads of src/src/ipc/protocol.cpp, which the controller and
    the agent in the target process exchange: every encoder, every decoder and
    their validity rules.

    An enumeration is its underlying integer: a decoder stores what it read and
    checks it at the end.  [std::string]s are their bytes.  The reader class of
    protocol.cpp is the one of PayloadReader.v with exceptions of its own. *)

From S2P Require Import Prelude Bytes PayloadReader.

Definition kProtocolMagic : bytes := [x4e; x4c; x58; x50].
Definition kProtocolMajor : Z := 1.
Definition kProtocolMinor : Z := 0.
Definition kFrameHeaderSize : Z := 32.
Definition kMaximumPayloadSize : Z := 64 * 1024.
Definition kMaximumStringSize : Z := 32 * 1024.
Definition kMaximumCustomHooks : Z := 32.

Definition protocol_if (b : bool) (message : string) : result exn unit :=
  throw_if b ProtocolError message.

(** ** The payload writer *)

(** [integer<T>] of a [w]-byte type; a signed value is cast to its bits first. *)
Fixpoint write_integer (w : nat) (output : bytes) (bits : Z) : bytes :=
  match w with
  | O => output
  | S w => write_integer w (output ++ [byte_of (Z.land bits 0xff)]) (Z.shiftr bits 8)
  end.

Definition has_nul (value : bytes) : bool := existsb (Byte.eqb x00) value.

Definition write_string (output value : bytes) : result exn bytes :=
  protocol_if (kMaximumStringSize <? size_of value) "protocol string exceeds the maximum length" ;;
  protocol_if (has_nul value) "protocol string contains an embedded NUL" ;;
  Ok (write_integer 4 output (wrap32 (size_of value)) ++ value).

(** ** The payload reader *)

Definition require_bytes (size : nat) : reader unit := λ r,
  protocol_if (length (payload_ r) - offset_ r <? size)%nat "protocol payload is truncated" ;;
  Ok (tt, r).

Definition integer (w : nat) : reader Z := require_bytes w ;; consume (read_loop w) w.
Definition integer_i32 : reader Z := bits ← integer 4; mret (signed32 bits).

Definition read_bytes (size : nat) : reader bytes := require_bytes size ;; consume (slice size) size.

Definition read_text : reader bytes :=
  size ← integer 4;
  lift (protocol_if (kMaximumStringSize <? size) "protocol string length exceeds the maximum") ;;
  result ← read_bytes (Z.to_nat size);
  lift (protocol_if (has_nul result) "protocol string contains an embedded NUL") ;;
  mret result.

Definition finish_payload : reader unit := λ r,
  protocol_if (negb (offset_ r =? length (payload_ r))%nat) "protocol payload has trailing bytes" ;;
  Ok (tt, r).

(** [reader.integer<std::uint8_t>() != 0U] *)
Definition read_flag : reader bool := value ← integer 1; mret (negb (value =? 0)).
Definition flag (b : bool) : Z := if b then 1 else 0.

(** ** Messages *)

Definition kAgentHello : Z := 1.
Definition kError : Z := 10.

Record FrameHeader : Set := {
  protocol_major : Z;
  protocol_minor : Z;
  message_type : Z;
  fh_flags : Z;
  fh_request_id : Z;
  payload_size : Z;
}.

Record Message : Set := { msg_type : Z; request_id : Z; msg_payload : bytes }.

Definition is_known_message_type (type : Z) : bool := (kAgentHello <=? type) && (type <=? kError).

Definition append_frame_header (writer : bytes) (message : Message) : bytes :=
  let writer := writer ++ kProtocolMagic in
  let writer := write_integer 2 writer kProtocolMajor in
  let writer := write_integer 2 writer kProtocolMinor in
  let writer := write_integer 2 writer kFrameHeaderSize in
  let writer := write_integer 2 writer (msg_type message) in
  let writer := write_integer 4 writer 0 in
  let writer := write_integer 8 writer (request_id message) in
  let writer := write_integer 4 writer (wrap32 (size_of (msg_payload message))) in
  write_integer 4 writer 0.

Definition encode_frame (message : Message) : result exn bytes :=
  protocol_if (negb (is_known_message_type (msg_type message)))
    "cannot encode an unknown message type" ;;
  protocol_if (request_id message =? 0) "protocol request id must be nonzero" ;;
  protocol_if (kMaximumPayloadSize <? size_of (msg_payload message))
    "protocol payload exceeds the maximum length" ;;
  Ok (append_frame_header [] message ++ msg_payload message).

Definition read_frame_header : reader FrameHeader :=
  magic ← read_bytes 4;
  lift (protocol_if (negb (bool_decide (magic = kProtocolMagic)))
          "protocol frame magic is invalid") ;;
  major ← integer 2;
  minor ← integer 2;
  header_size ← integer 2;
  type ← integer 2;
  flags ← integer 4;
  request_id ← integer 8;
  payload_size ← integer 4;
  reserved ← integer 4;
  finish_payload ;;
  lift (protocol_if (negb (major =? kProtocolMajor) || (kProtocolMinor <? minor))
          "protocol version is not supported") ;;
  lift (protocol_if (negb (header_size =? kFrameHeaderSize))
          "protocol header size is not supported") ;;
  lift (protocol_if (negb (is_known_message_type type)) "protocol message type is unknown") ;;
  lift (protocol_if (negb (flags =? 0) || negb (reserved =? 0))
          "protocol frame contains unsupported flags or reserved bits") ;;
  lift (protocol_if (request_id =? 0) "protocol request id must be nonzero") ;;
  lift (protocol_if (kMaximumPayloadSize <? payload_size)
          "protocol payload length exceeds the maximum") ;;
  mret {| protocol_major := major; protocol_minor := minor; message_type := type;
          fh_flags := flags; fh_request_id := request_id; payload_size := payload_size |}.

Definition decode_frame_header (input : bytes) : result exn FrameHeader :=
  protocol_if (negb (size_of input =? kFrameHeaderSize))
    "protocol frame header has an invalid length" ;;
  run_reader read_frame_header input.

Definition decode_frame (input : bytes) : result exn Message :=
  protocol_if (size_of input <? kFrameHeaderSize) "protocol frame is truncated" ;;
  header ← decode_frame_header (take (Z.to_nat kFrameHeaderSize) input);
  let expected_size := kFrameHeaderSize + payload_size header in
  protocol_if (negb (size_of input =? expected_size))
    "protocol frame length does not match its header" ;;
  Ok {| msg_type := message_type header; request_id := fh_request_id header;
        msg_payload := drop (Z.to_nat kFrameHeaderSize) input |}.

(** ** The agent's greeting *)

Record AgentHello : Set := {
  agent_abi_version : Z;
  process_id : Z;
  worker_thread_id : Z;
  pointer_width : Z;
  hello_architecture : Z;
  session_token : bytes;       (* std::array of 16 bytes *)
}.

Definition valid_architecture (value : Z) : bool := (0 <=? value) && (value <=? 3).

Definition hello_rejected (hello : AgentHello) : bool :=
  (agent_abi_version hello =? 0) || (process_id hello =? 0) || (worker_thread_id hello =? 0) ||
  (negb (pointer_width hello =? 4) && negb (pointer_width hello =? 8)) ||
  negb (valid_architecture (hello_architecture hello)).

Definition write_agent_hello (hello : AgentHello) : bytes :=
  let writer := write_integer 4 [] (agent_abi_version hello) in
  let writer := write_integer 4 writer (process_id hello) in
  let writer := write_integer 4 writer (worker_thread_id hello) in
  let writer := write_integer 1 writer (pointer_width hello) in
  let writer := write_integer 1 writer 0 in
  let writer := write_integer 2 writer (hello_architecture hello) in
  writer ++ session_token hello.

Definition encode_agent_hello (hello : AgentHello) : result exn bytes :=
  protocol_if (hello_rejected hello) "agent hello contains invalid fields" ;;
  Ok (write_agent_hello hello).

Definition read_agent_hello : reader AgentHello :=
  abi ← integer 4;
  process ← integer 4;
  thread ← integer 4;
  width ← integer 1;
  reserved ← integer 1;
  architecture ← integer 2;
  token ← read_bytes 16;
  finish_payload ;;
  let hello := {| agent_abi_version := abi; process_id := process; worker_thread_id := thread;
                  pointer_width := width; hello_architecture := architecture;
                  session_token := token |} in
  lift (protocol_if (negb (reserved =? 0) || hello_rejected hello)
          "agent hello contains invalid fields") ;;
  mret hello.

Definition decode_agent_hello (payload : bytes) : result exn AgentHello :=
  run_reader read_agent_hello payload.

(** ** Custom hooks *)

Record CustomHookRoleSpec : Set := { locator : Z; export_name : bytes; rva : Z }.

Record CustomHookImageIdentity : Set := {
  hii_timestamp : Z;
  hii_checksum : Z;
  hii_image_size : Z;
}.

Record CustomHookSpec : Set := {
  hook_module : bytes;
  hook_alloc : CustomHookRoleSpec;
  hook_realloc : CustomHookRoleSpec;
  hook_free : CustomHookRoleSpec;
  alloc_size_arg : Z;
  alloc_count_arg : option Z;
  realloc_ptr_arg : Z;
  realloc_size_arg : Z;
  free_ptr_arg : Z;
  result_arg : option Z;
  free_size_arg : option Z;
  hook_calloc : bool;
  hook_forced : bool;
  wait_module_ms : Z;
  hook_label : bytes;
  image_identity : option CustomHookImageIdentity;
}.

(** [CustomHookLocator]. *)
Definition kLocatorNone : Z := 0.
Definition kLocatorExport : Z := 1.
Definition kLocatorRva : Z := 2.
Definition kLocatorElfSymbol : Z := 3.

Definition valid_custom_hook_locator (value : Z) : bool :=
  (value =? kLocatorNone) || (value =? kLocatorExport) || (value =? kLocatorRva) ||
  (value =? kLocatorElfSymbol).

Definition valid_argument_slot (value : Z) : bool := value <=? 7.
Definition is_empty (s : bytes) : bool := match s with [] => true | _ => false end.

Definition validate_custom_hook_role (role : CustomHookRoleSpec) (required : bool) : result exn unit :=
  protocol_if (negb (valid_custom_hook_locator (locator role)))
    "custom hook role locator is not supported" ;;
  if locator role =? kLocatorNone then
    protocol_if (required || negb (is_empty (export_name role)) || negb (rva role =? 0))
      "custom hook role is missing or inconsistent"
  else if locator role =? kLocatorRva then
    protocol_if ((rva role =? 0) || negb (is_empty (export_name role)))
      "custom hook RVA role is inconsistent"
  else
    protocol_if (is_empty (export_name role) || negb (rva role =? 0))
      "custom hook export role is inconsistent".

Definition invalid_slot (slot : option Z) : bool :=
  match slot with Some value => negb (valid_argument_slot value) | None => false end.

Definition validate_custom_hook (hook : CustomHookSpec) : result exn unit :=
  validate_custom_hook_role (hook_alloc hook) true ;;
  validate_custom_hook_role (hook_realloc hook) false ;;
  validate_custom_hook_role (hook_free hook) true ;;
  protocol_if (is_empty (hook_module hook) || is_empty (hook_label hook))
    "custom hook module and label must not be empty" ;;
  protocol_if
    (negb (valid_argument_slot (alloc_size_arg hook)) || invalid_slot (alloc_count_arg hook) ||
     negb (valid_argument_slot (realloc_ptr_arg hook)) ||
     negb (valid_argument_slot (realloc_size_arg hook)) ||
     negb (valid_argument_slot (free_ptr_arg hook)) || invalid_slot (result_arg hook) ||
     invalid_slot (free_size_arg hook))
    "custom hook argument slot is out of range" ;;
  protocol_if (negb (eqb (hook_calloc hook) (bool_decide (is_Some (alloc_count_arg hook)))))
    "custom hook calloc mapping requires alloc_count_arg and vice versa".

(** [for (const CustomHookSpec& hook : hooks)] with throwing iterations. *)
Fixpoint for_each {A} (f : A → result exn unit) (l : list A) : result exn unit :=
  match l with [] => Ok tt | x :: l => f x ;; for_each f l end.

Definition validate_custom_hooks (hooks : list CustomHookSpec) : result exn unit :=
  protocol_if (kMaximumCustomHooks <? size_of hooks)
    "start capture request declares too many custom hooks" ;;
  for_each validate_custom_hook hooks.

Definition write_custom_hook_role (writer : bytes) (role : CustomHookRoleSpec) : result exn bytes :=
  let writer := write_integer 1 writer (locator role) in
  let writer := write_integer 1 writer 0 in
  let writer := write_integer 2 writer 0 in
  let writer := write_integer 4 writer 0 in
  let writer := write_integer 8 writer (rva role) in
  write_string writer (export_name role).

Definition read_custom_hook_role : reader CustomHookRoleSpec :=
  locator ← integer 1;
  reserved8 ← integer 1;
  reserved16 ← integer 2;
  reserved32 ← integer 4;
  rva ← integer 8;
  export_name ← read_text;
  lift (protocol_if (negb (reserved8 =? 0) || negb (reserved16 =? 0) || negb (reserved32 =? 0))
          "custom hook role reserved fields must be zero") ;;
  mret {| locator := locator; export_name := export_name; rva := rva |}.

Definition identity_field (f : CustomHookImageIdentity → Z) (hook : CustomHookSpec) : Z :=
  match image_identity hook with Some identity => f identity | None => 0 end.

Definition write_custom_hook (writer : bytes) (hook : CustomHookSpec) : result exn bytes :=
  let writer := write_integer 1 writer (alloc_size_arg hook) in
  let writer := write_integer 1 writer (default 0xFF (alloc_count_arg hook)) in
  let writer := write_integer 1 writer (realloc_ptr_arg hook) in
  let writer := write_integer 1 writer (realloc_size_arg hook) in
  let writer := write_integer 1 writer (free_ptr_arg hook) in
  let writer := write_integer 1 writer (default 0xFF (result_arg hook)) in
  let writer := write_integer 1 writer (default 0xFF (free_size_arg hook)) in
  let writer := write_integer 1 writer (flag (hook_calloc hook)) in
  let writer := write_integer 1 writer (flag (hook_forced hook)) in
  let writer := write_integer 1 writer 0 in
  let writer := write_integer 8 writer (wait_module_ms hook) in
  writer ← write_custom_hook_role writer (hook_alloc hook);
  writer ← write_custom_hook_role writer (hook_realloc hook);
  writer ← write_custom_hook_role writer (hook_free hook);
  writer ← write_string writer (hook_module hook);
  writer ← write_string writer (hook_label hook);
  let writer := write_integer 1 writer (flag (bool_decide (is_Some (image_identity hook)))) in
  let writer := write_integer 1 writer 0 in
  let writer := write_integer 2 writer 0 in
  let writer := write_integer 4 writer (identity_field hii_timestamp hook) in
  let writer := write_integer 4 writer (identity_field hii_checksum hook) in
  Ok (write_integer 4 writer (identity_field hii_image_size hook)).

Fixpoint write_hooks (writer : bytes) (hooks : list CustomHookSpec) : result exn bytes :=
  match hooks with
  | [] => Ok writer
  | hook :: hooks => writer ← write_custom_hook writer hook; write_hooks writer hooks
  end.

Definition write_custom_hooks (writer : bytes) (hooks : list CustomHookSpec) : result exn bytes :=
  write_hooks (write_integer 4 writer (wrap32 (size_of hooks))) hooks.

Definition read_argument_slot : reader Z :=
  value ← integer 1;
  lift (protocol_if (negb (value =? 0xFF) && negb (valid_argument_slot value))
          "custom hook argument slot is out of range") ;;
  mret value.

(** [if (value != 0xFF) { member = value; }] *)
Definition slot_option (value : Z) : option Z := if value =? 0xFF then None else Some value.

(** The identity of a hook, from its five fields. *)
Definition read_identity (present timestamp checksum image_size : Z)
    : result exn (option CustomHookImageIdentity) :=
  if negb (present =? 0) then
    Ok (Some {| hii_timestamp := timestamp; hii_checksum := checksum; hii_image_size := image_size |})
  else
    protocol_if (negb (timestamp =? 0) || negb (checksum =? 0) || negb (image_size =? 0))
      "absent custom hook image identity must be zero" ;;
    Ok None.

Definition read_custom_hook : reader CustomHookSpec :=
  alloc_size ← read_argument_slot;
  alloc_count ← read_argument_slot;
  realloc_ptr ← read_argument_slot;
  realloc_size ← read_argument_slot;
  free_ptr ← read_argument_slot;
  result ← read_argument_slot;
  free_size ← read_argument_slot;
  calloc ← read_flag;
  forced ← read_flag;
  reserved ← integer 1;
  wait ← integer 8;
  alloc ← read_custom_hook_role;
  realloc ← read_custom_hook_role;
  free ← read_custom_hook_role;
  module ← read_text;
  label ← read_text;
  identity_present ← integer 1;
  identity_reserved8 ← integer 1;
  identity_reserved16 ← integer 2;
  timestamp ← integer 4;
  checksum ← integer 4;
  image_size ← integer 4;
  lift (protocol_if (negb (reserved =? 0) || negb (identity_reserved8 =? 0) ||
                     negb (identity_reserved16 =? 0) || (1 <? identity_present))
          "custom hook reserved fields must be zero") ;;
  identity ← lift (read_identity identity_present timestamp checksum image_size);
  mret {| hook_module := module; hook_alloc := alloc; hook_realloc := realloc; hook_free := free;
          alloc_size_arg := alloc_size; alloc_count_arg := slot_option alloc_count;
          realloc_ptr_arg := realloc_ptr; realloc_size_arg := realloc_size;
          free_ptr_arg := free_ptr; result_arg := slot_option result;
          free_size_arg := slot_option free_size; hook_calloc := calloc; hook_forced := forced;
          wait_module_ms := wait; hook_label := label; image_identity := identity |}.

Definition read_custom_hooks : reader (list CustomHookSpec) :=
  count ← integer 4;
  lift (protocol_if (kMaximumCustomHooks <? count)
          "start capture request declares too many custom hooks") ;;
  read_each (Z.to_nat count) read_custom_hook.

(** ** The start of a capture *)

Record StartCaptureRequest : Set := {
  capture_kind : Z;
  hook_profile : Z;
  sc_compression : Z;
  maximum_stack_depth : Z;
  minimum_capture_size : Z;
  buffer_size : Z;
  maximum_trace_size : Z;
  flush_interval_ns : Z;
  memory_counters_interval_ns : Z;
  memory_map_interval_ns : Z;
  compression_level : Z;
  trace_path_utf8 : bytes;
  unload_on_stop : bool;
  custom_hooks : list CustomHookSpec;
  strict_buffer : bool;
}.

Definition valid_capture_kind (value : Z) : bool := (value =? 1) || (value =? 2).
Definition valid_hook_profile (value : Z) : bool :=
  (value =? 1) || (value =? 2) || (value =? 3) || (value =? 4) || (value =? 5) || (value =? 6).
Definition valid_compression (value : Z) : bool := (value =? 0) || (value =? 1) || (value =? 2).

Definition request_rejected (request : StartCaptureRequest) : bool :=
  negb (valid_capture_kind (capture_kind request)) ||
  negb (valid_hook_profile (hook_profile request)) ||
  negb (valid_compression (sc_compression request)) || (maximum_stack_depth request =? 0) ||
  (buffer_size request =? 0) || (maximum_trace_size request =? 0) ||
  (flush_interval_ns request =? 0) || is_empty (trace_path_utf8 request).

Definition write_start_capture (request : StartCaptureRequest) : result exn bytes :=
  let writer := write_integer 1 [] (capture_kind request) in
  let writer := write_integer 1 writer (hook_profile request) in
  let writer := write_integer 1 writer (sc_compression request) in
  let writer := write_integer 1 writer 0 in
  let writer := write_integer 2 writer (maximum_stack_depth request) in
  let writer := write_integer 2 writer 0 in
  let writer := write_integer 8 writer (minimum_capture_size request) in
  let writer := write_integer 8 writer (buffer_size request) in
  let writer := write_integer 8 writer (maximum_trace_size request) in
  let writer := write_integer 8 writer (flush_interval_ns request) in
  let writer := write_integer 8 writer (memory_counters_interval_ns request) in
  let writer := write_integer 8 writer (memory_map_interval_ns request) in
  let writer := write_integer 4 writer (wrap32 (compression_level request)) in
  let writer := write_integer 4 writer 0 in
  writer ← write_string writer (trace_path_utf8 request);
  let writer := write_integer 1 writer (flag (unload_on_stop request)) in
  writer ← write_custom_hooks writer (custom_hooks request);
  Ok (write_integer 1 writer (flag (strict_buffer request))).

Definition encode_start_capture (request : StartCaptureRequest) : result exn bytes :=
  protocol_if (request_rejected request) "start capture request contains invalid fields" ;;
  validate_custom_hooks (custom_hooks request) ;;
  write_start_capture request.

Definition read_start_capture : reader StartCaptureRequest :=
  kind ← integer 1;
  profile ← integer 1;
  compression ← integer 1;
  reserved8 ← integer 1;
  depth ← integer 2;
  reserved16 ← integer 2;
  minimum ← integer 8;
  buffer ← integer 8;
  maximum ← integer 8;
  flush ← integer 8;
  counters ← integer 8;
  map ← integer 8;
  level ← integer_i32;
  reserved32 ← integer 4;
  path ← read_text;
  unload ← read_flag;
  hooks ← read_custom_hooks;
  strict ← read_flag;
  finish_payload ;;
  let request :=
    {| capture_kind := kind; hook_profile := profile; sc_compression := compression;
       maximum_stack_depth := depth; minimum_capture_size := minimum; buffer_size := buffer;
       maximum_trace_size := maximum; flush_interval_ns := flush;
       memory_counters_interval_ns := counters; memory_map_interval_ns := map;
       compression_level := level; trace_path_utf8 := path; unload_on_stop := unload;
       custom_hooks := hooks; strict_buffer := strict |} in
  lift (protocol_if (negb (reserved8 =? 0) || negb (reserved16 =? 0) || negb (reserved32 =? 0) ||
                     request_rejected request)
          "start capture request contains invalid fields") ;;
  lift (validate_custom_hooks hooks) ;;
  mret request.

Definition decode_start_capture (payload : bytes) : result exn StartCaptureRequest :=
  run_reader read_start_capture payload.

(** ** Status and errors *)

Record CaptureStatus : Set := {
  cs_state : Z;
  cs_observed_calls : Z;
  cs_written_events : Z;
  cs_filtered_calls : Z;
  cs_dropped_events : Z;
  cs_bytes_written : Z;
  cs_queued_events : Z;
  cs_queue_capacity : Z;
  cs_queue_high_water_events : Z;
  cs_consumed_events : Z;
  cs_last_flush_monotonic_ns : Z;
  cs_flags : Z;
  cs_buffer_requested_bytes : Z;
  cs_buffer_effective_slots : Z;
  cs_buffer_slot_bytes : Z;
  cs_buffer_reserved_bytes : Z;
  cs_buffer_resident_bytes : Z;
  cs_agent_reserved_bytes : Z;
  cs_agent_resident_bytes : Z;
}.

Definition valid_agent_state (value : Z) : bool := (0 <=? value) && (value <=? 8).

Definition write_capture_status (status : CaptureStatus) : bytes :=
  let writer := write_integer 1 [] (cs_state status) in
  let writer := write_integer 1 writer 0 in
  let writer := write_integer 2 writer 0 in
  let writer := write_integer 4 writer 0 in
  let writer := write_integer 8 writer (cs_observed_calls status) in
  let writer := write_integer 8 writer (cs_written_events status) in
  let writer := write_integer 8 writer (cs_filtered_calls status) in
  let writer := write_integer 8 writer (cs_dropped_events status) in
  let writer := write_integer 8 writer (cs_bytes_written status) in
  let writer := write_integer 8 writer (cs_queued_events status) in
  let writer := write_integer 8 writer (cs_queue_capacity status) in
  let writer := write_integer 8 writer (cs_queue_high_water_events status) in
  let writer := write_integer 8 writer (cs_consumed_events status) in
  let writer := write_integer 8 writer (cs_last_flush_monotonic_ns status) in
  let writer := write_integer 4 writer (cs_flags status) in
  let writer := write_integer 8 writer (cs_buffer_requested_bytes status) in
  let writer := write_integer 8 writer (cs_buffer_effective_slots status) in
  let writer := write_integer 8 writer (cs_buffer_slot_bytes status) in
  let writer := write_integer 8 writer (cs_buffer_reserved_bytes status) in
  let writer := write_integer 8 writer (cs_buffer_resident_bytes status) in
  let writer := write_integer 8 writer (cs_agent_reserved_bytes status) in
  write_integer 8 writer (cs_agent_resident_bytes status).

Definition encode_capture_status (status : CaptureStatus) : result exn bytes :=
  protocol_if (negb (valid_agent_state (cs_state status)))
    "capture status contains an invalid state" ;;
  Ok (write_capture_status status).

Definition read_capture_status : reader CaptureStatus :=
  state ← integer 1;
  reserved8 ← integer 1;
  reserved16 ← integer 2;
  reserved32 ← integer 4;
  observed ← integer 8;
  written ← integer 8;
  filtered ← integer 8;
  dropped ← integer 8;
  bytes_written ← integer 8;
  queued ← integer 8;
  capacity ← integer 8;
  high_water ← integer 8;
  consumed ← integer 8;
  last_flush ← integer 8;
  flags ← integer 4;
  requested ← integer 8;
  slots ← integer 8;
  slot_bytes ← integer 8;
  reserved ← integer 8;
  resident ← integer 8;
  agent_reserved ← integer 8;
  agent_resident ← integer 8;
  finish_payload ;;
  lift (protocol_if (negb (valid_agent_state state) || negb (reserved8 =? 0) ||
                     negb (reserved16 =? 0) || negb (reserved32 =? 0))
          "capture status contains invalid fields") ;;
  mret {| cs_state := state; cs_observed_calls := observed; cs_written_events := written;
          cs_filtered_calls := filtered; cs_dropped_events := dropped;
          cs_bytes_written := bytes_written; cs_queued_events := queued;
          cs_queue_capacity := capacity; cs_queue_high_water_events := high_water;
          cs_consumed_events := consumed; cs_last_flush_monotonic_ns := last_flush;
          cs_flags := flags; cs_buffer_requested_bytes := requested;
          cs_buffer_effective_slots := slots; cs_buffer_slot_bytes := slot_bytes;
          cs_buffer_reserved_bytes := reserved; cs_buffer_resident_bytes := resident;
          cs_agent_reserved_bytes := agent_reserved; cs_agent_resident_bytes := agent_resident |}.

Definition decode_capture_status (payload : bytes) : result exn CaptureStatus :=
  run_reader read_capture_status payload.

Record ErrorResponse : Set := { error_code : Z; er_system_error : Z; er_message : bytes }.

Definition error_rejected (error : ErrorResponse) : bool :=
  (error_code error =? 0) || is_empty (er_message error).

Definition encode_error_response (error : ErrorResponse) : result exn bytes :=
  protocol_if (error_rejected error) "error response contains invalid fields" ;;
  let writer := write_integer 4 [] (error_code error) in
  let writer := write_integer 4 writer (er_system_error error) in
  write_string writer (er_message error).

Definition read_error_response : reader ErrorResponse :=
  code ← integer 4;
  system_error ← integer 4;
  message ← read_text;
  finish_payload ;;
  let error := {| error_code := code; er_system_error := system_error; er_message := message |} in
  lift (protocol_if (error_rejected error) "error response contains invalid fields") ;;
  mret error.

Definition decode_error_response (payload : bytes) : result exn ErrorResponse :=
  run_reader read_error_response payload.
