(* ===== verification/IpcFormats.v ===== *)
(** * The wire formats of the protocol

    What each reader of IpcProtocol.v accepts, as the encoding its writer
    produces. *)

From S2P Require Import Prelude Bytes PayloadReader IpcProtocol.

(** ** Primitives *)

Lemma write_integer_spec w o v : write_integer w o v = o ++ le_bytes w v.
Proof.
  revert o v. induction w as [|w IH]; intros o v; cbn [write_integer].
  - by rewrite app_nil_r.
  - rewrite IH, <- app_assoc, byte_of_land_255, Z.shiftr_div_pow2 by lia. by rewrite le_bytes_S.
Qed.
#[export] Hint Rewrite write_integer_spec : append_spec.
#[global] Arguments write_integer : simpl never.

Lemma require_bytes_ok n s u s' : require_bytes n s = Ok (u, s') ↔ require n s = Ok (u, s').
Proof.
  unfold require_bytes, require, protocol_if, codec_if, throw_if, throw.
  by destruct (_ <? _)%nat.
Qed.

Lemma require_bytes_run n pre mid post : length mid = n →
  require_bytes n (at_ pre (mid ++ post)) = Ok (tt, at_ pre (mid ++ post)).
Proof. intros. by apply require_bytes_ok, require_run. Qed.

Lemma require_bytes_bind {A} n (p : reader A) s v s' :
  (require_bytes n ;; p) s = Ok (v, s') → ∃ u s1, require n s = Ok (u, s1).
Proof. rewrite reader_bind_ok. setoid_rewrite require_bytes_ok. naive_solver. Qed.

#[export] Instance integer_format w : format (integer w) (le_bytes w) (λ z, 0 ≤ z < 256 ^ Z.of_nat w).
Proof.
  apply (fixed_format w _ le_value).
  - intros pre mid post Hmid. unfold integer.
    erewrite reader_bind_run by (by apply require_bytes_run). rewrite <- Hmid.
    rewrite consume_run, read_loop_spec by (rewrite !length_app; lia). by rewrite at_take.
  - intros pre tail v s. apply require_bytes_bind.
  - intros v Hv. split; [apply length_le_bytes|by apply le_value_le_bytes].
  - intros mid <-. split; [by apply le_bytes_value|apply le_value_range].
Qed.

#[export] Instance integer_i32_format : format integer_i32 (λ z, le_bytes 4 (wrap32 z)) i32.
Proof.
  split.
  - intros v pre post Hv. unfold integer_i32.
    erewrite reader_bind_run by (apply (integer_format 4), wrap32_u32).
    unfold mret, reader_ret. by rewrite signed32_wrap32.
  - intros v pre tail r (a & s & Ha & Hr)%reader_bind_ok.
    apply (format_sound (integer_format 4)) in Ha as (post & -> & -> & Hu).
    unfold mret, reader_ret in Hr. injection Hr as <- <-. exists post.
    rewrite wrap32_signed32 by done. auto using signed32_i32.
Qed.

#[export] Instance read_bytes_format n : format (read_bytes n) id (λ s, length s = n).
Proof.
  apply (fixed_format n _ id); [| |done|done].
  - intros pre mid post <-. unfold read_bytes.
    erewrite reader_bind_run by (by apply require_bytes_run).
    rewrite consume_run. unfold slice. by rewrite at_take.
  - intros pre tail v s. apply require_bytes_bind.
Qed.

Lemma bytes_step {B} n (f : bytes → reader B) pre s post : length s = n →
  (read_bytes n ≫= f) (at_ pre (s ++ post)) = f s (at_ (pre ++ s) post).
Proof. apply (format_step (read_bytes_format n) f s). Qed.

Definition text_ok (s : bytes) : Prop := size_of s ≤ kMaximumStringSize ∧ has_nul s = false.
Definition text_bytes (s : bytes) : bytes := le_bytes 4 (size_of s) ++ s.

Lemma size_of_u32 (s : bytes) n : size_of s ≤ n → n ≤ u32_max → 0 ≤ size_of s < 256 ^ Z.of_nat 4.
Proof. pose proof (size_of_nonneg s). intros. change (256 ^ Z.of_nat 4) with (2 ^ 32). word. Qed.

#[export] Instance read_text_format : format read_text text_bytes text_ok.
Proof.
  unfold read_text, text_bytes, text_ok, protocol_if. split.
  - intros s pre post [Hs Hn]. rewrite <- app_assoc.
    rewrite (format_step (integer_format 4)) by (eapply size_of_u32; [done|done]).
    erewrite lift_step by (unfold throw_if; rewrite (proj2 (Z.ltb_ge _ _) Hs); reflexivity).
    rewrite bytes_step by (unfold size_of; lia).
    erewrite lift_step by (rewrite Hn; reflexivity).
    unfold mret, reader_ret. by rewrite <- app_assoc.
  - intros s pre tail r H. reader_inv H. subst. bool_facts.
    erewrite size_of_read by done. eexists. rewrite <- !app_assoc.
    split; [reflexivity|]. split; [reflexivity|]. done.
Qed.

Lemma write_string_ok o s o' : write_string o s = Ok o' ↔ text_ok s ∧ o' = o ++ text_bytes s.
Proof.
  unfold write_string, text_ok, text_bytes, protocol_if. split.
  - intros H. inv_ok. bool_facts. subst o'. normalize_encoding.
    rewrite wrap32_small by (pose proof (size_of_nonneg s); unfold kMaximumStringSize in *; word). done.
  - intros [[Hs Hn] ->]. rewrite (proj2 (Z.ltb_ge _ _) Hs), Hn. cbn. normalize_encoding.
    rewrite wrap32_small; [done|]. pose proof (size_of_nonneg s). unfold kMaximumStringSize in *. word.
Qed.

Lemma finish_payload_done s : finish_payload s = match expect_done s with Ok x => Ok x | Throw _ => finish_payload s end.
Proof.
  unfold finish_payload, expect_done, protocol_if, codec_if, throw_if, throw. by destruct (negb _).
Qed.

Lemma finish_payload_run pre : finish_payload (at_ pre []) = Ok (tt, at_ pre []).
Proof. by rewrite finish_payload_done, expect_done_run. Qed.

Lemma finish_payload_ok pre tail u r :
  finish_payload (at_ pre tail) = Ok (u, r) → tail = [] ∧ r = at_ pre [].
Proof.
  intros H. apply (expect_done_ok pre tail u r).
  unfold finish_payload, expect_done, protocol_if, codec_if, throw_if, throw in *.
  by destruct (negb _).
Qed.

Lemma finish_step {B} (f : unit → reader B) pre :
  (finish_payload ≫= f) (at_ pre []) = f tt (at_ pre []).
Proof. apply reader_bind_run, finish_payload_run. Qed.

(** A [bool] is read from any byte. *)
Lemma read_flag_ok pre tail b r : read_flag (at_ pre tail) = Ok (b, r) →
  ∃ raw post, tail = raw ++ post ∧ r = at_ (pre ++ raw) post ∧ length raw = 1%nat.
Proof.
  intros H. unfold read_flag in H. reader_inv H. subst. eexists _, _. split; [done|].
  split; [done|]. apply length_le_bytes.
Qed.

(** ** Automation *)

Definition uint (w : nat) (z : Z) : Prop := 0 ≤ z < 256 ^ Z.of_nat w.

Lemma protocol_if_ok b m u : protocol_if b m = Ok u ↔ b = false.
Proof. apply throw_if_ok. Qed.
Lemma protocol_if_false b m : b = false → protocol_if b m = Ok tt.
Proof. by intros ->. Qed.

(** [ipc_run] executes a reader on an encoding. *)
Ltac ipc_step :=
  match goal with
  | |- (lift (protocol_if _ _) ≫= _) _ = _ =>
      erewrite lift_step; [|solve [apply protocol_if_false;
        repeat first [assumption | reflexivity | apply orb_false_iff; split]]]
  | |- (finish_payload ≫= _) _ = _ => rewrite finish_step
  | |- (read_bytes _ ≫= _) _ = _ => rewrite bytes_step by wt_field
  | |- (integer ?w ≫= _) (at_ _ (le_bytes ?w ?z ++ _)) = _ =>
      rewrite (format_step (integer_format w) _ z) by (assumption || (cbn; lia))
  | |- _ => reader_step
  end; cbv beta; cbn [id].
Ltac ipc_run := normalize_encoding; repeat ipc_step; unfold mret, reader_ret; rewrite <- ?app_assoc.

(** [ipc_inv] recovers the encoding from a successful run. *)
Ltac ipc_inv_step H :=
  match type of H with
  | (lift (protocol_if _ _) ≫= _) _ = Ok _ =>
      let x := fresh "x" in let s := fresh "s" in let E := fresh "E" in
      apply reader_bind_ok in H as (x & s & E & H);
      apply lift_ok in E as [E ->]; apply protocol_if_ok in E
  | (finish_payload ≫= _) _ = Ok _ =>
      let x := fresh "x" in let s := fresh "s" in let E := fresh "E" in
      apply reader_bind_ok in H as (x & s & E & H);
      apply finish_payload_ok in E as [-> ->]
  | (read_flag ≫= _) _ = Ok _ =>
      let x := fresh "b" in let s := fresh "s" in let E := fresh "E" in
      let raw := fresh "raw" in let post := fresh "post" in let L := fresh "L" in
      apply reader_bind_ok in H as (x & s & E & H);
      apply read_flag_ok in E as (raw & post & -> & -> & L)
  | _ => reader_inv_step H
  end.
Ltac ipc_inv H := repeat ipc_inv_step H.

(** ** Frames *)

Definition FrameHeader_bytes (h : FrameHeader) : bytes :=
  kProtocolMagic ++ le_bytes 2 kProtocolMajor ++ le_bytes 2 kProtocolMinor ++
  le_bytes 2 kFrameHeaderSize ++ le_bytes 2 (message_type h) ++ le_bytes 4 0 ++
  le_bytes 8 (fh_request_id h) ++ le_bytes 4 (payload_size h) ++ le_bytes 4 0.

Definition FrameHeader_valid (h : FrameHeader) : Prop :=
  protocol_major h = kProtocolMajor ∧ protocol_minor h = kProtocolMinor ∧ fh_flags h = 0 ∧
  is_known_message_type (message_type h) = true ∧
  uint 8 (fh_request_id h) ∧ fh_request_id h ≠ 0 ∧ 0 ≤ payload_size h ≤ kMaximumPayloadSize.

Lemma read_frame_header_exact : exact read_frame_header FrameHeader_bytes FrameHeader_valid.
Proof.
  unfold FrameHeader_bytes, FrameHeader_valid. split.
  - intros [major minor type flags request size] (? & ? & ? & Ht & Hr & Hr0 & Hs).
    cbn [protocol_major protocol_minor message_type fh_flags fh_request_id payload_size] in *.
    subst major minor flags. eexists. unfold read_frame_header.
    assert (uint 2 type) by (unfold is_known_message_type, kAgentHello, kError, uint in *; bool_facts; cbn; lia).
    assert (uint 4 size) by (unfold uint, kMaximumPayloadSize in *; cbn; lia).
    assert (negb (is_known_message_type type) = false) by (by rewrite Ht).
    assert ((request =? 0) = false) by (by apply Z.eqb_neq).
    assert ((kMaximumPayloadSize <? size) = false) by (apply Z.ltb_ge; lia).
    ipc_run. reflexivity.
  - intros h pre tail r H. unfold read_frame_header in H. ipc_inv H. bool_facts.
    unfold kProtocolMajor, kProtocolMinor, kFrameHeaderSize in *. destruct_and?. subst. cbn.
    match goal with H : ?x ≤ 0 |- _ => assert (x = 0) as -> by lia end.
    rewrite app_nil_r. unfold uint. split; [done|]. split_and!; done || lia.
Qed.

Lemma length_frame_header h : length (FrameHeader_bytes h) = 32%nat.
Proof. unfold FrameHeader_bytes. by rewrite !length_app, !length_le_bytes. Qed.

Lemma decode_frame_header_ok input h :
  decode_frame_header input = Ok h ↔ input = FrameHeader_bytes h ∧ FrameHeader_valid h.
Proof.
  unfold decode_frame_header. rewrite bind_ok. setoid_rewrite (exact_run_reader read_frame_header_exact).
  setoid_rewrite protocol_if_ok. split; [naive_solver|]. intros [-> Hv]. exists tt. split; [|done].
  unfold size_of. by rewrite length_frame_header.
Qed.

(** ** Fixed payloads *)

Definition AgentHello_wt (h : AgentHello) : Prop :=
  uint 4 (agent_abi_version h) ∧ uint 4 (process_id h) ∧ uint 4 (worker_thread_id h) ∧
  uint 1 (pointer_width h) ∧ uint 2 (hello_architecture h) ∧ length (session_token h) = 16%nat.

Lemma read_agent_hello_exact :
  exact read_agent_hello write_agent_hello (λ h, AgentHello_wt h ∧ hello_rejected h = false).
Proof.
  unfold write_agent_hello, AgentHello_wt, uint. split.
  - intros h [(? & ? & ? & ? & ? & ?) Hv]. destruct h as [abi process thread width arch token].
    cbn [agent_abi_version process_id worker_thread_id pointer_width hello_architecture session_token] in *.
    eexists. unfold read_agent_hello. ipc_run. reflexivity.
  - intros h pre tail r H. unfold read_agent_hello in H. ipc_inv H.
    apply orb_false_iff in E as [Hz Hrej]. bool_facts. subst.
    cbn [agent_abi_version process_id worker_thread_id pointer_width hello_architecture session_token].
    normalize_encoding. rewrite app_nil_r. split; [done|]. split; [tauto|done].
Qed.

Definition CaptureStatus_wt (s : CaptureStatus) : Prop :=
  uint 8 (cs_observed_calls s) ∧ uint 8 (cs_written_events s) ∧ uint 8 (cs_filtered_calls s) ∧
  uint 8 (cs_dropped_events s) ∧ uint 8 (cs_bytes_written s) ∧ uint 8 (cs_queued_events s) ∧
  uint 8 (cs_queue_capacity s) ∧ uint 8 (cs_queue_high_water_events s) ∧
  uint 8 (cs_consumed_events s) ∧ uint 8 (cs_last_flush_monotonic_ns s) ∧ uint 4 (cs_flags s) ∧
  uint 8 (cs_buffer_requested_bytes s) ∧ uint 8 (cs_buffer_effective_slots s) ∧
  uint 8 (cs_buffer_slot_bytes s) ∧ uint 8 (cs_buffer_reserved_bytes s) ∧
  uint 8 (cs_buffer_resident_bytes s) ∧ uint 8 (cs_agent_reserved_bytes s) ∧
  uint 8 (cs_agent_resident_bytes s).

Lemma read_capture_status_exact : exact read_capture_status write_capture_status
  (λ s, CaptureStatus_wt s ∧ valid_agent_state (cs_state s) = true).
Proof.
  unfold write_capture_status, CaptureStatus_wt. split.
  - intros s [Hwt Hv]. destruct_and?. eexists.
    assert (uint 1 (cs_state s)) by (unfold valid_agent_state, uint in *; bool_facts; cbn; lia).
    assert (negb (valid_agent_state (cs_state s)) = false) by (by rewrite Hv).
    unfold read_capture_status. ipc_run. destruct s. reflexivity.
  - intros s pre tail r H. unfold read_capture_status in H. unfold uint. ipc_inv H. bool_facts.
    destruct_and?. subst. cbn. normalize_encoding. rewrite app_nil_r. split; [done|]. tauto.
Qed.

Definition ErrorResponse_wt (e : ErrorResponse) : Prop :=
  uint 4 (error_code e) ∧ uint 4 (er_system_error e) ∧ text_ok (er_message e).
Definition ErrorResponse_bytes (e : ErrorResponse) : bytes :=
  le_bytes 4 (error_code e) ++ le_bytes 4 (er_system_error e) ++ text_bytes (er_message e).

Lemma read_error_response_exact : exact read_error_response ErrorResponse_bytes
  (λ e, ErrorResponse_wt e ∧ error_rejected e = false).
Proof.
  unfold ErrorResponse_bytes, ErrorResponse_wt, uint. split.
  - intros [code err message] [(? & ? & ?) Hv]. eexists. unfold read_error_response.
    cbn [error_code er_system_error er_message] in *. ipc_run. reflexivity.
  - intros e pre tail r H. unfold read_error_response in H. ipc_inv H. subst.
    cbn [error_code er_system_error er_message]. rewrite app_nil_r. split; [done|]. tauto.
Qed.

(** ** Custom hooks *)

Definition slot_ok (value : Z) : Prop := 0 ≤ value ≤ 7 ∨ value = 0xFF.

#[export] Instance read_argument_slot_format : format read_argument_slot (le_bytes 1) slot_ok.
Proof.
  unfold read_argument_slot, slot_ok, valid_argument_slot. split.
  - intros v pre post Hv. assert (uint 1 v) by (unfold uint; cbn; lia).
    assert (negb (v =? 255) && negb (v <=? 7) = false)
      by (destruct (Z.eqb_spec v 255), (Z.leb_spec v 7); cbn; lia).
    ipc_run. reflexivity.
  - intros v pre tail r H. ipc_inv H. subst. eexists. split; [done|]. split; [done|].
    bool_facts. lia.
Qed.

Definition CustomHookRoleSpec_wt (role : CustomHookRoleSpec) : Prop :=
  uint 1 (locator role) ∧ uint 8 (rva role) ∧ text_ok (export_name role).
Definition CustomHookRoleSpec_bytes (role : CustomHookRoleSpec) : bytes :=
  le_bytes 1 (locator role) ++ le_bytes 1 0 ++ le_bytes 2 0 ++ le_bytes 4 0 ++
  le_bytes 8 (rva role) ++ text_bytes (export_name role).

#[export] Instance read_custom_hook_role_format :
  format read_custom_hook_role CustomHookRoleSpec_bytes CustomHookRoleSpec_wt.
Proof.
  unfold CustomHookRoleSpec_bytes, CustomHookRoleSpec_wt. split.
  - intros role pre post (? & ? & ?). unfold read_custom_hook_role. ipc_run. by destruct role.
  - intros role pre tail r H. unfold read_custom_hook_role in H. ipc_inv H. bool_facts.
    destruct_and?. subst. eexists. cbn. rewrite <- !app_assoc. unfold uint. split; [done|].
    split; [done|]. tauto.
Qed.

Lemma write_custom_hook_role_ok o role o' : write_custom_hook_role o role = Ok o' ↔
  text_ok (export_name role) ∧ o' = o ++ CustomHookRoleSpec_bytes role.
Proof.
  unfold write_custom_hook_role, CustomHookRoleSpec_bytes. rewrite write_string_ok.
  by normalize_encoding.
Qed.

Lemma role_run o role : text_ok (export_name role) →
  write_custom_hook_role o role = Ok (o ++ CustomHookRoleSpec_bytes role).
Proof. intros. by apply write_custom_hook_role_ok. Qed.
Lemma string_run o s : text_ok s → write_string o s = Ok (o ++ text_bytes s).
Proof. intros. by apply write_string_ok. Qed.

Lemma read_flag_step {B} (f : bool → reader B) b pre post :
  (read_flag ≫= f) (at_ pre (le_bytes 1 (flag b) ++ post)) = f b (at_ (pre ++ le_bytes 1 (flag b)) post).
Proof.
  unfold read_flag. rewrite reader_bind_assoc.
  rewrite (format_step (integer_format 1) _ (flag b)) by (destruct b; done). by destruct b.
Qed.

Definition CustomHookSpec_wt (h : CustomHookSpec) : Prop :=
  slot_ok (alloc_size_arg h) ∧ slot_ok (default 0xFF (alloc_count_arg h)) ∧
  slot_ok (realloc_ptr_arg h) ∧ slot_ok (realloc_size_arg h) ∧ slot_ok (free_ptr_arg h) ∧
  slot_ok (default 0xFF (result_arg h)) ∧ slot_ok (default 0xFF (free_size_arg h)) ∧
  (alloc_count_arg h ≠ Some 0xFF ∧ result_arg h ≠ Some 0xFF ∧ free_size_arg h ≠ Some 0xFF) ∧
  uint 8 (wait_module_ms h) ∧ CustomHookRoleSpec_wt (hook_alloc h) ∧
  CustomHookRoleSpec_wt (hook_realloc h) ∧ CustomHookRoleSpec_wt (hook_free h) ∧
  text_ok (hook_module h) ∧ text_ok (hook_label h) ∧
  uint 4 (identity_field hii_timestamp h) ∧ uint 4 (identity_field hii_checksum h) ∧
  uint 4 (identity_field hii_image_size h).

Definition CustomHookSpec_bytes (h : CustomHookSpec) : bytes :=
  le_bytes 1 (alloc_size_arg h) ++ le_bytes 1 (default 0xFF (alloc_count_arg h)) ++
  le_bytes 1 (realloc_ptr_arg h) ++ le_bytes 1 (realloc_size_arg h) ++
  le_bytes 1 (free_ptr_arg h) ++ le_bytes 1 (default 0xFF (result_arg h)) ++
  le_bytes 1 (default 0xFF (free_size_arg h)) ++ le_bytes 1 (flag (hook_calloc h)) ++
  le_bytes 1 (flag (hook_forced h)) ++ le_bytes 1 0 ++ le_bytes 8 (wait_module_ms h) ++
  CustomHookRoleSpec_bytes (hook_alloc h) ++ CustomHookRoleSpec_bytes (hook_realloc h) ++
  CustomHookRoleSpec_bytes (hook_free h) ++ text_bytes (hook_module h) ++
  text_bytes (hook_label h) ++ le_bytes 1 (flag (bool_decide (is_Some (image_identity h)))) ++
  le_bytes 1 0 ++ le_bytes 2 0 ++ le_bytes 4 (identity_field hii_timestamp h) ++
  le_bytes 4 (identity_field hii_checksum h) ++ le_bytes 4 (identity_field hii_image_size h).

Lemma write_custom_hook_ok o h : CustomHookSpec_wt h →
  write_custom_hook o h = Ok (o ++ CustomHookSpec_bytes h).
Proof.
  unfold CustomHookSpec_wt, CustomHookRoleSpec_wt. intros Hwt. destruct_and?.
  unfold write_custom_hook, CustomHookSpec_bytes. normalize_encoding.
  rewrite !role_run by assumption. cbn [mbind result_bind].
  repeat (rewrite ?role_run, ?string_run by assumption; cbn [mbind result_bind]).
  by normalize_encoding.
Qed.

Lemma slot_option_default (o : option Z) : o ≠ Some 0xFF → slot_option (default 0xFF o) = o.
Proof.
  unfold slot_option. destruct o as [v|]; [|done]. cbn. destruct (Z.eqb_spec v 255) as [->|]; naive_solver.
Qed.

Lemma default_slot_option v : default 0xFF (slot_option v) = v ∧ slot_option v ≠ Some 0xFF.
Proof. unfold slot_option. destruct (Z.eqb_spec v 255) as [->|]; cbn; naive_solver. Qed.

Lemma read_identity_field h :
  read_identity (flag (bool_decide (is_Some (image_identity h)))) (identity_field hii_timestamp h)
    (identity_field hii_checksum h) (identity_field hii_image_size h) = Ok (image_identity h).
Proof. unfold read_identity, identity_field. destruct (image_identity h) as [[]|]; reflexivity. Qed.

Lemma read_custom_hook_complete h pre post : CustomHookSpec_wt h →
  read_custom_hook (at_ pre (CustomHookSpec_bytes h ++ post)) =
  Ok (h, at_ (pre ++ CustomHookSpec_bytes h) post).
Proof.
  unfold CustomHookSpec_wt, CustomHookSpec_bytes. intros Hwt. destruct_and?.
  pose proof (read_identity_field h) as Hid.
  set (present := bool_decide (is_Some (image_identity h))) in *.
  assert (uint 1 (flag present) ∧ (1 <? flag present) = false) as [? ?] by (by destruct present).
  unfold read_custom_hook. normalize_encoding.
  repeat first [rewrite read_flag_step | ipc_step].
  unfold mret, reader_ret. rewrite !slot_option_default by done. rewrite <- !app_assoc. by destruct h.
Qed.

Lemma read_identity_ok present timestamp checksum size o :
  read_identity present timestamp checksum size = Ok o → 0 ≤ present → (1 <? present) = false →
  match o with
  | Some i => present = 1 ∧ hii_timestamp i = timestamp ∧ hii_checksum i = checksum ∧ hii_image_size i = size
  | None => present = 0 ∧ timestamp = 0 ∧ checksum = 0 ∧ size = 0
  end.
Proof.
  unfold read_identity, protocol_if. intros Ho Hp H1. destruct (Z.eqb_spec present 0) as [->|]; cbn in Ho.
  - inv_ok. bool_facts. subst o. tauto.
  - injection Ho as <-. bool_facts. split; [lia|done].
Qed.

Lemma read_custom_hook_sound h pre tail r : read_custom_hook (at_ pre tail) = Ok (h, r) →
  ∃ raw post, tail = raw ++ post ∧ r = at_ (pre ++ raw) post ∧
    length raw = length (CustomHookSpec_bytes h) ∧ CustomHookSpec_wt h.
Proof.
  intros H. unfold read_custom_hook in H. ipc_inv H.
  repeat match goal with H : _ || _ = false |- _ => apply orb_false_iff in H as [? ?] end.
  match goal with H : read_identity _ _ _ _ = Ok _ |- _ =>
    apply read_identity_ok in H; [|lia|assumption] end.
  subst h r. eexists _, post0. split; [rewrite !app_assoc; reflexivity|].
  split; [by rewrite !app_assoc|]. split.
  - unfold CustomHookSpec_bytes. cbn [hook_alloc hook_realloc hook_free hook_module hook_label].
    rewrite !length_app, !length_le_bytes. lia.
  - unfold CustomHookSpec_wt, uint, identity_field.
    cbn [alloc_size_arg alloc_count_arg realloc_ptr_arg realloc_size_arg free_ptr_arg result_arg
      free_size_arg wait_module_ms hook_alloc hook_realloc hook_free hook_module hook_label
      image_identity].
    destruct (default_slot_option x0) as [-> ?], (default_slot_option x4) as [-> ?],
      (default_slot_option x5) as [-> ?].
    destruct x20; destruct_and?; subst; split_and!; done || lia.
Qed.

Fixpoint hooks_bytes (hooks : list CustomHookSpec) : bytes :=
  match hooks with [] => [] | h :: hooks => CustomHookSpec_bytes h ++ hooks_bytes hooks end.

Lemma write_hooks_ok o hooks : Forall CustomHookSpec_wt hooks →
  write_hooks o hooks = Ok (o ++ hooks_bytes hooks).
Proof.
  intros Hwt. revert o. induction Hwt as [|h hooks Hh _ IH]; intros o; cbn.
  - by rewrite app_nil_r.
  - rewrite write_custom_hook_ok by done. cbn. by rewrite IH, <- app_assoc.
Qed.

Lemma read_hooks_complete hooks pre post : Forall CustomHookSpec_wt hooks →
  read_each (length hooks) read_custom_hook (at_ pre (hooks_bytes hooks ++ post)) =
  Ok (hooks, at_ (pre ++ hooks_bytes hooks) post).
Proof.
  intros Hwt. revert pre. induction Hwt as [|h hooks Hh _ IH]; intros pre; cbn.
  - by rewrite app_nil_r.
  - rewrite <- app_assoc. erewrite reader_bind_run by (by apply read_custom_hook_complete).
    erewrite reader_bind_run by apply IH. by rewrite <- app_assoc.
Qed.

Lemma read_hooks_sound n hooks pre tail r :
  read_each n read_custom_hook (at_ pre tail) = Ok (hooks, r) →
  ∃ raw post, tail = raw ++ post ∧ r = at_ (pre ++ raw) post ∧
    length raw = length (hooks_bytes hooks) ∧ length hooks = n ∧ Forall CustomHookSpec_wt hooks.
Proof.
  revert hooks pre tail r. induction n as [|n IH]; intros hooks pre tail r H; cbn [read_each] in H.
  - unfold mret, reader_ret in H. injection H as <- <-. exists [], tail. by rewrite app_nil_r.
  - apply reader_bind_ok in H as (h & s & Hh & H).
    apply read_custom_hook_sound in Hh as (raw & post & -> & -> & Hl & Hwt).
    apply reader_bind_ok in H as (hs & s & Hhs & H).
    apply IH in Hhs as (raw' & post' & -> & -> & Hl' & <- & Hwts).
    unfold mret, reader_ret in H. injection H as <- <-. exists (raw ++ raw'), post'.
    cbn. rewrite !length_app, <- !app_assoc, Hl, Hl'. split_and!; try done. by constructor.
Qed.

(** ** The start of a capture *)

Definition StartCaptureRequest_wt (q : StartCaptureRequest) : Prop :=
  uint 2 (maximum_stack_depth q) ∧ uint 8 (minimum_capture_size q) ∧ uint 8 (buffer_size q) ∧
  uint 8 (maximum_trace_size q) ∧ uint 8 (flush_interval_ns q) ∧
  uint 8 (memory_counters_interval_ns q) ∧ uint 8 (memory_map_interval_ns q) ∧
  i32 (compression_level q) ∧ text_ok (trace_path_utf8 q) ∧ Forall CustomHookSpec_wt (custom_hooks q).

Definition StartCaptureRequest_bytes (q : StartCaptureRequest) : bytes :=
  le_bytes 1 (capture_kind q) ++ le_bytes 1 (hook_profile q) ++ le_bytes 1 (sc_compression q) ++
  le_bytes 1 0 ++ le_bytes 2 (maximum_stack_depth q) ++ le_bytes 2 0 ++
  le_bytes 8 (minimum_capture_size q) ++ le_bytes 8 (buffer_size q) ++
  le_bytes 8 (maximum_trace_size q) ++ le_bytes 8 (flush_interval_ns q) ++
  le_bytes 8 (memory_counters_interval_ns q) ++ le_bytes 8 (memory_map_interval_ns q) ++
  le_bytes 4 (wrap32 (compression_level q)) ++ le_bytes 4 0 ++ text_bytes (trace_path_utf8 q) ++
  le_bytes 1 (flag (unload_on_stop q)) ++ le_bytes 4 (size_of (custom_hooks q)) ++
  hooks_bytes (custom_hooks q) ++ le_bytes 1 (flag (strict_buffer q)).

Definition StartCaptureRequest_valid (q : StartCaptureRequest) : Prop :=
  request_rejected q = false ∧ validate_custom_hooks (custom_hooks q) = Ok tt.

Lemma hooks_count q : validate_custom_hooks (custom_hooks q) = Ok tt →
  0 ≤ size_of (custom_hooks q) ≤ kMaximumCustomHooks.
Proof.
  unfold validate_custom_hooks. intros H. inv_ok. apply protocol_if_ok, Z.ltb_ge in E.
  pose proof (size_of_nonneg (custom_hooks q)). lia.
Qed.

Lemma write_start_capture_ok q : StartCaptureRequest_wt q → StartCaptureRequest_valid q →
  write_start_capture q = Ok (StartCaptureRequest_bytes q).
Proof.
  unfold StartCaptureRequest_wt. intros Hwt [_ Hv%hooks_count]. destruct_and?.
  unfold write_start_capture, StartCaptureRequest_bytes, write_custom_hooks. normalize_encoding.
  rewrite string_run by done. cbn [mbind result_bind].
  rewrite (wrap32_small (size_of _)) by (unfold kMaximumCustomHooks in *; word).
  rewrite write_hooks_ok by done. cbn [mbind result_bind]. by normalize_encoding.
Qed.

Lemma read_custom_hooks_step {B} (f : list CustomHookSpec → reader B) hooks pre post :
  size_of hooks ≤ kMaximumCustomHooks → Forall CustomHookSpec_wt hooks →
  (read_custom_hooks ≫= f) (at_ pre (le_bytes 4 (size_of hooks) ++ hooks_bytes hooks ++ post)) =
  f hooks (at_ ((pre ++ le_bytes 4 (size_of hooks)) ++ hooks_bytes hooks) post).
Proof.
  intros Hn Hwt. pose proof (size_of_nonneg hooks).
  assert ((kMaximumCustomHooks <? size_of hooks) = false) by (by apply Z.ltb_ge).
  assert (uint 4 (size_of hooks)) by (unfold uint, kMaximumCustomHooks in *; cbn; lia).
  apply reader_bind_run. unfold read_custom_hooks. ipc_run.
  replace (Z.to_nat (size_of hooks)) with (length hooks) by (unfold size_of; lia).
  rewrite read_hooks_complete by done. by rewrite <- app_assoc.
Qed.

Lemma read_start_capture_complete q : StartCaptureRequest_wt q → StartCaptureRequest_valid q →
  ∃ r, read_start_capture (at_ [] (StartCaptureRequest_bytes q ++ [])) = Ok (q, r).
Proof.
  unfold StartCaptureRequest_wt. intros Hwt [Hrej Hv]. pose proof (hooks_count q Hv) as Hn.
  destruct_and?.
  assert (uint 1 (capture_kind q) ∧ uint 1 (hook_profile q) ∧ uint 1 (sc_compression q)) as (? & ? & ?).
  { unfold request_rejected, valid_capture_kind, valid_hook_profile, valid_compression, uint in *.
    bool_facts. cbn. lia. }
  eexists. unfold read_start_capture, StartCaptureRequest_bytes. normalize_encoding.
  repeat first [rewrite read_flag_step | rewrite read_custom_hooks_step by (done || lia) | ipc_step].
  unfold mret, reader_ret. by destruct q.
Qed.

Lemma read_custom_hooks_sound hooks pre tail r :
  read_custom_hooks (at_ pre tail) = Ok (hooks, r) →
  ∃ raw post, tail = raw ++ post ∧ r = at_ (pre ++ raw) post ∧
    length raw = (4 + length (hooks_bytes hooks))%nat ∧ Forall CustomHookSpec_wt hooks.
Proof.
  intros H. unfold read_custom_hooks in H. ipc_inv H.
  apply read_hooks_sound in H as (raw & post' & -> & -> & Hl & _ & Hwt).
  eexists _, post'. rewrite app_assoc. split; [done|]. rewrite <- app_assoc.
  split; [done|]. by rewrite length_app, length_le_bytes, Hl.
Qed.

Lemma read_start_capture_sound q pre tail r : read_start_capture (at_ pre tail) = Ok (q, r) →
  StartCaptureRequest_wt q ∧ StartCaptureRequest_valid q ∧
  length tail = length (StartCaptureRequest_bytes q).
Proof.
  intros H. unfold read_start_capture in H. ipc_inv H.
  apply reader_bind_ok in H as (hooks & s & Hh & H).
  apply read_custom_hooks_sound in Hh as (raws & posts & -> & -> & Hl & Hwt).
  ipc_inv H.
  repeat match goal with H : _ || _ = false |- _ => apply orb_false_iff in H as [? ?] end.
  subst q. split_and!.
  - unfold StartCaptureRequest_wt, uint. tauto.
  - by split.
  - unfold StartCaptureRequest_bytes. cbn. rewrite !length_app, !length_le_bytes. cbn. lia.
Qed.
