(* ===== verification/IpcTheorems.v ===== *)
(** * What the protocol promises

    Frames and payloads survive the trip between the controller and the agent, and
    a decoder accepts nothing an encoder could not have meant. *)

From S2P Require Import Prelude Bytes PayloadReader IpcProtocol IpcFormats.

(** ** Frames *)

Lemma append_frame_header_spec m : is_known_message_type (msg_type m) = true →
  size_of (msg_payload m) ≤ kMaximumPayloadSize →
  append_frame_header [] m = FrameHeader_bytes
    {| protocol_major := kProtocolMajor; protocol_minor := kProtocolMinor;
       message_type := msg_type m; fh_flags := 0; fh_request_id := request_id m;
       payload_size := size_of (msg_payload m) |}.
Proof.
  intros _ Hs. unfold append_frame_header, FrameHeader_bytes. normalize_encoding.
  rewrite wrap32_small; [done|]. pose proof (size_of_nonneg (msg_payload m)).
  unfold kMaximumPayloadSize in *. word.
Qed.

Lemma encode_frame_ok m p : encode_frame m = Ok p ↔
  is_known_message_type (msg_type m) = true ∧ request_id m ≠ 0 ∧
  size_of (msg_payload m) ≤ kMaximumPayloadSize ∧ p = append_frame_header [] m ++ msg_payload m.
Proof.
  unfold encode_frame. rewrite !bind_ok. setoid_rewrite protocol_if_ok. split.
  - intros ([] & Ht & H). inv_ok. apply protocol_if_ok in E, E0. bool_facts. subst p. done.
  - intros (Ht & Hr & Hs & ->). exists tt. rewrite Ht. split; [done|].
    rewrite (proj2 (Z.eqb_neq _ _) Hr), (proj2 (Z.ltb_ge _ _) Hs). done.
Qed.

(** C26: A frame on the wire and the message it carries determine each other: decoding
    the bytes gives the message exactly when encoding the message gives the bytes, so
    a frame that is cut, padded, oversized, of another version, with an unknown type,
    reserved bits or a zero request id is rejected. *)
Theorem protocol_frame_roundtrip m p :
  uint 8 (request_id m) → decode_frame p = Ok m ↔ encode_frame m = Ok p.
Proof.
  intros Hid. rewrite encode_frame_ok. unfold decode_frame. split.
  - intros H. inv_ok. apply protocol_if_ok in E, E1. apply decode_frame_header_ok in E0 as [Htake Hv].
    match type of Htake with _ = FrameHeader_bytes ?h => rename h into header end.
    destruct Hv as (Hma & Hmi & Hfl & Ht & Hr & Hr0 & Hs). bool_facts. subst m. cbn in *.
    pose proof (take_drop (Z.to_nat kFrameHeaderSize) p) as Hp.
    assert (Hsize : size_of (drop (Z.to_nat kFrameHeaderSize) p) = payload_size header).
    { unfold size_of in *. rewrite length_drop. unfold kFrameHeaderSize in *. lia. }
    split_and!; [done|done|lia|].
    rewrite append_frame_header_spec by (cbn; done || lia). cbn. rewrite Hsize.
    rewrite <- Hp at 1. rewrite Htake. destruct header. cbn in *. by subst.
  - intros (Ht & Hr & Hs & ->). set (h := {| protocol_major := kProtocolMajor; protocol_minor := kProtocolMinor;
       message_type := msg_type m; fh_flags := 0; fh_request_id := request_id m;
       payload_size := size_of (msg_payload m) |}).
    rewrite append_frame_header_spec by done. fold h.
    pose proof (length_frame_header h) as Hlen.
    assert (Hsz : size_of (FrameHeader_bytes h ++ msg_payload m) = 32 + size_of (msg_payload m))
      by (unfold size_of; rewrite length_app, Hlen; lia).
    pose proof (size_of_nonneg (msg_payload m)). rewrite Hsz. unfold kFrameHeaderSize.
    rewrite (proj2 (Z.ltb_ge _ _)) by lia. cbn [mbind result_bind protocol_if throw_if].
    change (Z.to_nat 32) with 32%nat. rewrite <- Hlen, take_app_length, drop_app_length.
    rewrite (proj2 (decode_frame_header_ok _ h)); [|by split_and!].
    cbn [mbind result_bind payload_size h]. rewrite Z.eqb_refl. by destruct m.
Qed.

(** ** Payloads *)

(** A greeting, a status and an error response and their payloads determine each
    other, and no encoder produces a payload the decoder refuses. *)
Theorem protocol_payloads_roundtrip hello status error p :
  AgentHello_wt hello → CaptureStatus_wt status →
  uint 4 (error_code error) → uint 4 (er_system_error error) →
  (decode_agent_hello p = Ok hello ↔ encode_agent_hello hello = Ok p) ∧
  (decode_capture_status p = Ok status ↔ encode_capture_status status = Ok p) ∧
  (decode_error_response p = Ok error ↔ encode_error_response error = Ok p).
Proof.
  intros Hh Hs He He'. split_and!.
  - unfold decode_agent_hello, encode_agent_hello. rewrite (exact_run_reader read_agent_hello_exact), bind_ok.
    setoid_rewrite protocol_if_ok. naive_solver.
  - unfold decode_capture_status, encode_capture_status.
    rewrite (exact_run_reader read_capture_status_exact), bind_ok. setoid_rewrite protocol_if_ok.
    setoid_rewrite negb_false_iff. naive_solver.
  - unfold decode_error_response, encode_error_response.
    rewrite (exact_run_reader read_error_response_exact), bind_ok. setoid_rewrite protocol_if_ok.
    setoid_rewrite write_string_ok. unfold ErrorResponse_wt, ErrorResponse_bytes. normalize_encoding.
    naive_solver.
Qed.

(** ** The start of a capture *)

(** The field types of the C++ structs. *)
Definition role_typed (role : CustomHookRoleSpec) : Prop := uint 1 (locator role) ∧ uint 8 (rva role).
Definition slot_typed (slot : option Z) : Prop := uint 1 (default 0 slot).
Definition hook_typed (h : CustomHookSpec) : Prop :=
  role_typed (hook_alloc h) ∧ role_typed (hook_realloc h) ∧ role_typed (hook_free h) ∧
  uint 1 (alloc_size_arg h) ∧ slot_typed (alloc_count_arg h) ∧ uint 1 (realloc_ptr_arg h) ∧
  uint 1 (realloc_size_arg h) ∧ uint 1 (free_ptr_arg h) ∧ slot_typed (result_arg h) ∧
  slot_typed (free_size_arg h) ∧ uint 8 (wait_module_ms h) ∧
  uint 4 (identity_field hii_timestamp h) ∧ uint 4 (identity_field hii_checksum h) ∧
  uint 4 (identity_field hii_image_size h).
Definition request_typed (q : StartCaptureRequest) : Prop :=
  uint 2 (maximum_stack_depth q) ∧ uint 8 (minimum_capture_size q) ∧ uint 8 (buffer_size q) ∧
  uint 8 (maximum_trace_size q) ∧ uint 8 (flush_interval_ns q) ∧
  uint 8 (memory_counters_interval_ns q) ∧ uint 8 (memory_map_interval_ns q) ∧
  i32 (compression_level q) ∧ Forall hook_typed (custom_hooks q).

Lemma slot_ok_valid v : uint 1 v → valid_argument_slot v = true → slot_ok v.
Proof. unfold valid_argument_slot, slot_ok, uint. intros ? ?%Z.leb_le. lia. Qed.

Lemma slot_ok_option (o : option Z) : slot_typed o → invalid_slot o = false →
  slot_ok (default 0xFF o) ∧ o ≠ Some 0xFF.
Proof.
  unfold slot_typed, invalid_slot. destruct o as [v|]; cbn.
  - intros Hv ?%negb_false_iff. split; [by apply slot_ok_valid|].
    intros [= ->]. unfold valid_argument_slot in *. done.
  - intros _ _. split; [by right|done].
Qed.

Lemma hook_written_wt o h o' : hook_typed h → validate_custom_hook h = Ok tt →
  write_custom_hook o h = Ok o' → CustomHookSpec_wt h.
Proof.
  unfold hook_typed, role_typed, validate_custom_hook, write_custom_hook. intros Ht Hv Hw.
  destruct_and?. inv_ok.
  repeat match goal with
  | H : write_custom_hook_role _ _ = Ok _ |- _ => apply write_custom_hook_role_ok in H as [? _]
  | H : write_string _ _ = Ok _ |- _ => apply write_string_ok in H as [? _]
  | H : protocol_if _ _ = Ok _ |- _ => apply protocol_if_ok in H
  | H : _ || _ = false |- _ => apply orb_false_iff in H as [? ?]
  | H : negb _ = false |- _ => apply negb_false_iff in H
  | H : slot_typed ?o, H' : invalid_slot ?o = false |- _ =>
      destruct (slot_ok_option o H H') as [? ?]; clear H'
  end.
  unfold CustomHookSpec_wt, CustomHookRoleSpec_wt. split_and!; auto using slot_ok_valid.
Qed.

Lemma hooks_written_wt o hooks o' : Forall hook_typed hooks → for_each validate_custom_hook hooks = Ok tt →
  write_hooks o hooks = Ok o' → Forall CustomHookSpec_wt hooks.
Proof.
  intros Ht. revert o. induction Ht as [|h hooks Hh _ IH]; intros o Hv Hw; [constructor|].
  cbn in Hv, Hw. inv_ok. constructor; [by eapply hook_written_wt|by eapply IH].
Qed.

Lemma encode_start_capture_ok q p : request_typed q → encode_start_capture q = Ok p →
  StartCaptureRequest_wt q ∧ StartCaptureRequest_valid q ∧ p = StartCaptureRequest_bytes q.
Proof.
  intros Ht He. unfold encode_start_capture in He. inv_ok. apply protocol_if_ok in E.
  assert (Hvalid : StartCaptureRequest_valid q) by by split.
  assert (Hwt : StartCaptureRequest_wt q).
  { unfold write_start_capture, write_custom_hooks in He. inv_ok. apply write_string_ok in E1 as [? _].
    unfold validate_custom_hooks in E0. inv_ok. unfold request_typed in Ht. destruct_and?.
    unfold StartCaptureRequest_wt. split_and!; try done. by eapply hooks_written_wt. }
  split_and!; [done..|]. rewrite write_start_capture_ok in He by done. by injection He.
Qed.

(** C27: A request to start a capture survives the trip: the decoder returns the request
    that was encoded; and every payload it accepts stands for a request the encoder
    accepts, in a payload of the same size that decodes to it (a nonzero byte stands
    for a true flag, nothing else is read in two ways). *)
Theorem protocol_start_capture :
  (∀ q p, request_typed q → encode_start_capture q = Ok p → decode_start_capture p = Ok q) ∧
  (∀ q p, decode_start_capture p = Ok q →
     size_of (custom_hooks q) ≤ kMaximumCustomHooks ∧
     ∃ p', encode_start_capture q = Ok p' ∧ decode_start_capture p' = Ok q ∧ size_of p' = size_of p).
Proof.
  assert (Hcomplete : ∀ q, StartCaptureRequest_wt q → StartCaptureRequest_valid q →
    decode_start_capture (StartCaptureRequest_bytes q) = Ok q).
  { intros q Hwt Hv. destruct (read_start_capture_complete q Hwt Hv) as [r Hr].
    rewrite app_nil_r in Hr. unfold decode_start_capture, run_reader.
    change {| payload_ := ?b; offset_ := 0 |} with (at_ [] b). by rewrite Hr. }
  split.
  - intros q p Ht (Hwt & Hv & ->)%encode_start_capture_ok; [|done]. by apply Hcomplete.
  - intros q p Hd. unfold decode_start_capture, run_reader in Hd.
    change {| payload_ := ?b; offset_ := 0 |} with (at_ [] b) in Hd.
    destruct (read_start_capture (at_ [] p)) as [[q' r]|] eqn:Hr; [|done]. injection Hd as ->.
    apply read_start_capture_sound in Hr as (Hwt & Hv & Hl).
    destruct Hv as [Hrej Hh]. split; [by apply hooks_count|].
    exists (StartCaptureRequest_bytes q). split_and!.
    + unfold encode_start_capture. rewrite Hrej, Hh. cbn. by apply write_start_capture_ok.
    + by apply Hcomplete.
    + unfold size_of. by rewrite Hl.
Qed.

(** ** Messages on the wire, evaluated *)

Definition sample_token : bytes := zeros 16.
Definition sample_hello : AgentHello :=
  {| agent_abi_version := 5; process_id := 4242; worker_thread_id := 7; pointer_width := 8;
     hello_architecture := 2; session_token := sample_token |}.
Definition sample_status : CaptureStatus :=
  {| cs_state := 2; cs_observed_calls := 10; cs_written_events := 9; cs_filtered_calls := 1;
     cs_dropped_events := 0; cs_bytes_written := 2 ^ 40; cs_queued_events := 3;
     cs_queue_capacity := 65536; cs_queue_high_water_events := 17; cs_consumed_events := 6;
     cs_last_flush_monotonic_ns := 123456789; cs_flags := 4; cs_buffer_requested_bytes := 2 ^ 24;
     cs_buffer_effective_slots := 65536; cs_buffer_slot_bytes := 256;
     cs_buffer_reserved_bytes := 2 ^ 24; cs_buffer_resident_bytes := 8192;
     cs_agent_reserved_bytes := 2 ^ 25; cs_agent_resident_bytes := u64_max |}.
Definition sample_error : ErrorResponse :=
  {| error_code := 3; er_system_error := 5; er_message := [x62; x61; x64] |}.

Definition no_role : CustomHookRoleSpec := {| locator := kLocatorNone; export_name := []; rva := 0 |}.
Definition sample_hook : CustomHookSpec :=
  {| hook_module := [x61]; hook_alloc := {| locator := kLocatorExport; export_name := [x6d]; rva := 0 |};
     hook_realloc := no_role;
     hook_free := {| locator := kLocatorRva; export_name := []; rva := 4096 |};
     alloc_size_arg := 1; alloc_count_arg := Some 0; realloc_ptr_arg := 0; realloc_size_arg := 1;
     free_ptr_arg := 0; result_arg := None; free_size_arg := None; hook_calloc := true;
     hook_forced := false; wait_module_ms := 5000; hook_label := [x70; x31];
     image_identity := Some {| hii_timestamp := 1; hii_checksum := 2; hii_image_size := 3 |} |}.
Definition sample_request : StartCaptureRequest :=
  {| capture_kind := 1; hook_profile := 6; sc_compression := 1; maximum_stack_depth := 64;
     minimum_capture_size := 0; buffer_size := 2 ^ 24; maximum_trace_size := 2 ^ 28;
     flush_interval_ns := 250000000; memory_counters_interval_ns := 1000000000;
     memory_map_interval_ns := 0; compression_level := -1; trace_path_utf8 := [x2f; x74];
     unload_on_stop := false; custom_hooks := [sample_hook]; strict_buffer := true |}.

Definition encoded {A} (m : result exn bytes) (f : bytes → A) (otherwise : A) : A :=
  match m with Ok p => f p | Throw _ => otherwise end.

(** The bytes of a message, when it has any. *)
Definition payload_of (m : result exn bytes) : bytes := encoded m id [].

Definition sample_message : Message :=
  {| msg_type := 1; request_id := 99; msg_payload := payload_of (encode_agent_hello sample_hello) |}.

Example sample_frame_size : size_of (payload_of (encode_frame sample_message)) = 64.
Proof. vm_compute. reflexivity. Qed.
Example cut_frame : is_ok (decode_frame (take 63 (payload_of (encode_frame sample_message)))) = false.
Proof. vm_compute. reflexivity. Qed.
Example sample_request_size : size_of (payload_of (encode_start_capture sample_request)) = 182.
Proof. vm_compute. reflexivity. Qed.

Lemma protocol_frame_roundtrip_witness :
  decode_frame (payload_of (encode_frame sample_message)) = Ok sample_message.
Proof.
  refine (proj2 (protocol_frame_roundtrip sample_message (payload_of (encode_frame sample_message)) _) _).
  - unfold uint. cbn. lia.
  - vm_compute. reflexivity.
Defined.

Lemma protocol_payloads_roundtrip_witness :
  decode_agent_hello (payload_of (encode_agent_hello sample_hello)) = Ok sample_hello ∧
  decode_capture_status (payload_of (encode_capture_status sample_status)) = Ok sample_status ∧
  decode_error_response (payload_of (encode_error_response sample_error)) = Ok sample_error.
Proof.
  assert (Hh : AgentHello_wt sample_hello) by (unfold AgentHello_wt, uint; cbn; split_and!; lia || reflexivity).
  assert (Hs : CaptureStatus_wt sample_status) by (unfold CaptureStatus_wt, uint; vm_compute; split_and!; done).
  assert (H4 : uint 4 (error_code sample_error)) by (unfold uint; cbn; lia).
  assert (H5 : uint 4 (er_system_error sample_error)) by (unfold uint; cbn; lia).
  split_and!.
  - apply (proj1 (protocol_payloads_roundtrip sample_hello sample_status sample_error
      (payload_of (encode_agent_hello sample_hello)) Hh Hs H4 H5)). vm_compute. reflexivity.
  - apply (proj2 (protocol_payloads_roundtrip sample_hello sample_status sample_error
      (payload_of (encode_capture_status sample_status)) Hh Hs H4 H5)). vm_compute. reflexivity.
  - apply (proj2 (protocol_payloads_roundtrip sample_hello sample_status sample_error
      (payload_of (encode_error_response sample_error)) Hh Hs H4 H5)). vm_compute. reflexivity.
Defined.

Lemma sample_request_typed : request_typed sample_request.
Proof.
  unfold request_typed, uint. split_and!; try (cbn; unfold i32; lia).
  apply Forall_cons_2; [|apply Forall_nil_2].
  vm_compute. split_and!; done.
Qed.

Lemma protocol_start_capture_witness :
  decode_start_capture (payload_of (encode_start_capture sample_request)) = Ok sample_request.
Proof.
  refine (proj1 protocol_start_capture sample_request _ sample_request_typed _).
  vm_compute. reflexivity.
Defined.
