(* ===== verification/TraceTime.v ===== *)
(** * Trace time and event windows

    src/src/analyzer/time.cpp compares the tick of an event with a time in
    nanoseconds, and rounds it down to nanoseconds, without ever leaving 64-bit
    integers; src/src/analyzer/window.cpp builds the window tests on it.  The
    theorems say that both are exact over the rationals. *)

From S2P Require Import Prelude Bytes WireFormat Event.

Definition kNanosecondsPerSecond : Z := 1000000000.
Definition i64_max : Z := 2 ^ 63 - 1.

(** ** Fractions *)

(** The continued fractions of both sides, as far as they agree.  The result is
    negative, zero or positive; [None] when the fuel is not enough. *)
Fixpoint compare_loop (fuel : nat) (left_numerator left_denominator right_numerator
    right_denominator : Z) (reverse : bool) : option Z :=
  match fuel with
  | O => None
  | S fuel =>
      let left_quotient := left_numerator / left_denominator in
      let right_quotient := right_numerator / right_denominator in
      if negb (left_quotient =? right_quotient) then
        let result := if left_quotient <? right_quotient then -1 else 1 in
        Some (if reverse then - result else result)
      else
        let left_remainder := left_numerator mod left_denominator in
        let right_remainder := right_numerator mod right_denominator in
        if (left_remainder =? 0) || (right_remainder =? 0) then
          if left_remainder =? right_remainder then Some 0 else
          let result := if left_remainder =? 0 then -1 else 1 in
          Some (if reverse then - result else result)
        else
          compare_loop fuel left_denominator left_remainder right_denominator right_remainder
            (negb reverse)
  end.

(** A 64-bit denominator is halved by every two turns. *)
Definition compare_fuel : nat := 128.
Definition compare_fractions (left_numerator left_denominator right_numerator right_denominator : Z)
    : Z :=
  default 0 (compare_loop compare_fuel left_numerator left_denominator right_numerator
               right_denominator false).

(** The sum of two remainders, with its carry into the quotient. *)
Definition add_fractional_value (left right denominator quotient : Z) : Z * Z :=
  if denominator - right <=? left
  then (left - (denominator - right), wrap64 (quotient + 1))
  else (left + right, quotient).

Fixpoint multiply_loop (fuel : nat) (multiplier denominator result_quotient result_remainder
    part_quotient part_remainder : Z) : option Z :=
  match fuel with
  | O => None
  | S fuel =>
      if multiplier =? 0 then Some result_quotient else
      let '(result_remainder, result_quotient) :=
        if negb (Z.land multiplier 1 =? 0) then
          add_fractional_value result_remainder part_remainder denominator
            (wrap64 (result_quotient + part_quotient))
        else (result_remainder, result_quotient) in
      let multiplier := Z.shiftr multiplier 1 in
      if multiplier =? 0 then Some result_quotient else
      let part_quotient := wrap64 (part_quotient * 2) in
      let '(part_remainder, part_quotient) :=
        add_fractional_value part_remainder part_remainder denominator part_quotient in
      multiply_loop fuel multiplier denominator result_quotient result_remainder
        part_quotient part_remainder
  end.

(** One turn for each bit of the multiplier. *)
Definition multiply_fuel : nat := 65.
Definition multiply_divide_floor (value multiplier denominator : Z) : Z :=
  default 0 (multiply_loop multiply_fuel multiplier denominator 0 0
               (value / denominator) (value mod denominator)).

(** ** Trace time *)

Definition relative_ticks (monotonic_ticks : Z) (header : FileHeader) : result exn Z :=
  throw_if (monotonic_frequency header =? 0) TraceTimeError
    "trace monotonic frequency must not be zero" ;;
  throw_if (monotonic_ticks <? monotonic_origin header) TraceTimeError
    "trace monotonic time precedes its origin" ;;
  Ok (monotonic_ticks - monotonic_origin header).

(** [std::strong_ordering] is [comparison]. *)
Definition compare_trace_time (monotonic_ticks : Z) (header : FileHeader) (relative_time : Z)
    : result exn comparison :=
  throw_if (relative_time <? 0) TraceTimeError "relative trace time must not be negative" ;;
  ticks ← relative_ticks monotonic_ticks header;
  let tick_seconds := ticks / monotonic_frequency header in
  let time_seconds := relative_time / kNanosecondsPerSecond in
  if tick_seconds <? time_seconds then Ok Lt
  else if time_seconds <? tick_seconds then Ok Gt
  else
    let fractional_comparison :=
      compare_fractions (ticks mod monotonic_frequency header) (monotonic_frequency header)
        (relative_time mod kNanosecondsPerSecond) kNanosecondsPerSecond in
    if fractional_comparison <? 0 then Ok Lt
    else if 0 <? fractional_comparison then Ok Gt
    else Ok Eq.

Definition trace_time_floor (monotonic_ticks : Z) (header : FileHeader) : result exn Z :=
  ticks ← relative_ticks monotonic_ticks header;
  let whole_seconds := ticks / monotonic_frequency header in
  let fractional_nanoseconds :=
    multiply_divide_floor (ticks mod monotonic_frequency header) kNanosecondsPerSecond
      (monotonic_frequency header) in
  let maximum := i64_max in
  throw_if ((maximum - fractional_nanoseconds) / kNanosecondsPerSecond <? whole_seconds)
    TraceTimeError "relative trace time does not fit nanoseconds" ;;
  Ok (wrap64 (whole_seconds * kNanosecondsPerSecond + fractional_nanoseconds)).

(** ** Windows *)

Record WindowBound : Set := { wb_time : option Z; wb_sequence : option Z }.

#[global] Instance WindowBound_eq_dec : EqDecision WindowBound.
Proof. solve_decision. Defined.

Definition window_bound_empty (bound : WindowBound) : bool :=
  negb (bool_decide (is_Some (wb_time bound))) && negb (bool_decide (is_Some (wb_sequence bound))).

(** [bound.time.has_value() && test(compare_trace_time(...))] *)
Definition time_test (bound : WindowBound) (header : FileHeader) (event : Event)
    (test : comparison → bool) : result exn bool :=
  match wb_time bound with
  | None => Ok false
  | Some time =>
      order ← compare_trace_time (monotonic_ticks (ev_header event)) header time; Ok (test order)
  end.

Definition is_less (c : comparison) : bool := match c with Lt => true | _ => false end.
Definition is_greater (c : comparison) : bool := match c with Gt => true | _ => false end.

Definition window_at_or_after (bound : WindowBound) (header : FileHeader) (event : Event)
    : result exn bool :=
  outside ← time_test bound header event is_less;
  if (outside : bool) then Ok false else
  match wb_sequence bound with
  | Some limit => Ok (negb (sequence (ev_header event) <? limit))
  | None => Ok true
  end.

Definition window_before (bound : WindowBound) (header : FileHeader) (event : Event)
    : result exn bool :=
  outside ← time_test bound header event (λ c, negb (is_less c));
  if (outside : bool) then Ok false else
  match wb_sequence bound with
  | Some limit => Ok (negb (limit <=? sequence (ev_header event)))
  | None => Ok true
  end.

Definition window_at_or_before (bound : WindowBound) (header : FileHeader) (event : Event)
    : result exn bool :=
  outside ← time_test bound header event is_greater;
  if (outside : bool) then Ok false else
  match wb_sequence bound with
  | Some limit => Ok (negb (limit <? sequence (ev_header event)))
  | None => Ok true
  end.

Definition exceeds (lower upper : option Z) : bool :=
  match lower, upper with Some l, Some u => u <? l | _, _ => false end.

Definition window_bounds_in_order (lower upper : WindowBound) : bool :=
  if exceeds (wb_time lower) (wb_time upper) then false
  else if exceeds (wb_sequence lower) (wb_sequence upper) then false
  else true.

(** ** Exact comparison *)

Lemma sgn_quotients n1 d1 n2 d2 : 0 < d1 → 0 < d2 → n1 / d1 < n2 / d2 → n1 * d2 < n2 * d1.
Proof.
  intros H1 H2 Hq. pose proof (Z.div_mod n1 d1 ltac:(lia)). pose proof (Z.div_mod n2 d2 ltac:(lia)).
  pose proof (Z.mod_pos_bound n1 d1 H1). pose proof (Z.mod_pos_bound n2 d2 H2).
  assert (n1 < n2 / d2 * d1) by nia. assert (n2 / d2 * d2 ≤ n2) by nia.
  assert (n1 * d2 < n2 / d2 * d1 * d2) by (apply Z.mul_lt_mono_pos_r; lia).
  assert (n2 / d2 * d2 * d1 ≤ n2 * d1) by (apply Z.mul_le_mono_nonneg_r; lia). lia.
Qed.

Lemma sgn_remainders n1 d1 n2 d2 : 0 < d1 → 0 < d2 → n1 / d1 = n2 / d2 →
  n1 * d2 - n2 * d1 = (n1 mod d1) * d2 - (n2 mod d2) * d1.
Proof.
  intros H1 H2 Hq. pose proof (Z.div_mod n1 d1 ltac:(lia)) as E1.
  pose proof (Z.div_mod n2 d2 ltac:(lia)) as E2. rewrite Hq in E1. nia.
Qed.

Definition signed (reverse : bool) (z : Z) : Z := if reverse then - z else z.

Lemma signed_negb reverse z : signed (negb reverse) z = signed reverse (- z).
Proof. destruct reverse; cbn; lia. Qed.

(** One turn either decides or goes on with the denominators and remainders. *)
Lemma compare_turn fuel n1 d1 n2 d2 reverse : 0 < d1 → 0 < d2 →
  compare_loop (S fuel) n1 d1 n2 d2 reverse = Some (signed reverse (Z.sgn (n1 * d2 - n2 * d1))) ∨
  (0 < n1 mod d1 ∧ 0 < n2 mod d2 ∧
   Z.sgn (n1 * d2 - n2 * d1) = - Z.sgn (d1 * (n2 mod d2) - d2 * (n1 mod d1)) ∧
   compare_loop (S fuel) n1 d1 n2 d2 reverse =
     compare_loop fuel d1 (n1 mod d1) d2 (n2 mod d2) (negb reverse)).
Proof.
  intros H1 H2. cbn [compare_loop].
  pose proof (Z.mod_pos_bound n1 d1 H1). pose proof (Z.mod_pos_bound n2 d2 H2).
  destruct (Z.eqb_spec (n1 / d1) (n2 / d2)) as [Hq|Hq]; cbn [negb].
  - pose proof (sgn_remainders n1 d1 n2 d2 H1 H2 Hq) as Hs.
    destruct (Z.eqb_spec (n1 mod d1) 0) as [Hr1|Hr1], (Z.eqb_spec (n2 mod d2) 0) as [Hr2|Hr2]; cbn [orb].
    + left. rewrite Hs, Hr1, Hr2. cbn. by destruct reverse.
    + left. rewrite (proj2 (Z.eqb_neq _ _)) by lia. rewrite Hs, Hr1.
      rewrite Z.sgn_neg by nia. done.
    + left. rewrite (proj2 (Z.eqb_neq _ _)) by lia. rewrite Hs, Hr2.
      rewrite Z.sgn_pos by nia. done.
    + right. split_and!; [lia|lia| |done]. rewrite Hs, <- Z.sgn_opp. f_equal. lia.
  - left. f_equal. destruct (Z.ltb_spec (n1 / d1) (n2 / d2)) as [Hlt|Hge].
    + pose proof (sgn_quotients n1 d1 n2 d2 H1 H2 Hlt). by rewrite Z.sgn_neg by lia.
    + pose proof (sgn_quotients n2 d2 n1 d1 H2 H1 ltac:(lia)). by rewrite Z.sgn_pos by lia.
Qed.

Lemma mod_halves a b : 0 < b < a → 2 * (a mod b) < a.
Proof.
  intros Hb. pose proof (Z.div_mod a b ltac:(lia)). pose proof (Z.mod_pos_bound a b ltac:(lia)).
  assert (1 ≤ a / b) by (apply Z.div_le_lower_bound; lia). nia.
Qed.

(** Two turns of fuel for each bit of the left denominator. *)
Lemma compare_loop_spec k n1 d1 n2 d2 reverse fuel : 0 < d1 < 2 ^ Z.of_nat k → 0 < d2 →
  (2 * k ≤ fuel)%nat →
  compare_loop fuel n1 d1 n2 d2 reverse = Some (signed reverse (Z.sgn (n1 * d2 - n2 * d1))).
Proof.
  revert n1 d1 n2 d2 reverse fuel. induction k as [|k IH]; intros n1 d1 n2 d2 reverse fuel H1 H2 Hf.
  - change (2 ^ Z.of_nat 0) with 1 in H1. lia.
  - destruct fuel as [|[|fuel]]; [lia..|].
    rewrite Nat2Z.inj_succ, Z.pow_succ_r in H1 by lia.
    destruct (compare_turn (S fuel) n1 d1 n2 d2 reverse) as [Hr|(Hr1 & Hr2 & Hs & Hr)]; [lia..|done|].
    rewrite Hr, Hs. pose proof (Z.mod_pos_bound n1 d1 ltac:(lia)). clear Hr.
    destruct (compare_turn fuel d1 (n1 mod d1) d2 (n2 mod d2) (negb reverse)) as
      [Hr|(Hr3 & Hr4 & Hs' & Hr)]; [lia..| |].
    + by rewrite Hr, signed_negb.
    + rewrite Hr, IH; [|split; [lia|]|lia|lia].
      * rewrite Hs', !signed_negb. repeat f_equal; lia.
      * pose proof (mod_halves d1 (n1 mod d1) ltac:(lia)). lia.
Qed.

Lemma compare_fractions_spec n1 d1 n2 d2 : 0 < d1 < 2 ^ 64 → 0 < d2 →
  compare_fractions n1 d1 n2 d2 = Z.sgn (n1 * d2 - n2 * d1).
Proof.
  intros H1 H2. unfold compare_fractions, compare_fuel.
  by rewrite (compare_loop_spec 64) by (done || lia).
Qed.

(** ** Exact division *)

Lemma wrap64_add_l a b : wrap64 (wrap64 a + b) = wrap64 (a + b).
Proof. unfold wrap64. by rewrite Zplus_mod_idemp_l. Qed.
Lemma wrap64_add_r a b : wrap64 (a + wrap64 b) = wrap64 (a + b).
Proof. unfold wrap64. by rewrite Zplus_mod_idemp_r. Qed.
Lemma wrap64_mul_l a b : wrap64 (wrap64 a * b) = wrap64 (a * b).
Proof. unfold wrap64. by rewrite Zmult_mod_idemp_l. Qed.
Lemma wrap64_idem a : wrap64 (wrap64 a) = wrap64 a.
Proof. unfold wrap64. by rewrite Zmod_mod. Qed.

(** The carry of two remainders. *)
Lemma add_fractional_spec left right den Q : 0 ≤ left < den → 0 ≤ right < den →
  ∃ r c, add_fractional_value left right den (wrap64 Q) = (r, wrap64 (Q + c)) ∧
    0 ≤ r < den ∧ c * den + r = left + right.
Proof.
  intros Hl Hr. unfold add_fractional_value. destruct (Z.leb_spec (den - right) left).
  - exists (left - (den - right)), 1. rewrite wrap64_add_l. split; [done|]. lia.
  - exists (left + right), 0. rewrite Z.add_0_r. split; [done|]. lia.
Qed.

Lemma shiftr_1 m : Z.shiftr m 1 = m / 2.
Proof. by rewrite Z.shiftr_div_pow2. Qed.
Lemma land_1 m : Z.land m 1 = m mod 2.
Proof. change 1 with (Z.ones 1). by rewrite Z.land_ones. Qed.

Lemma div_unique_mul a b q r : 0 ≤ r < b → a = q * b + r → a / b = q.
Proof. intros. symmetry. apply (Z.div_unique a b q r); lia. Qed.

(** The invariant: what is collected and what the rest of the multiplier adds. *)
Lemma multiply_loop_spec k fuel m den RQ rr PQ pr : 0 < den → 0 ≤ m < 2 ^ Z.of_nat k → (k < fuel)%nat →
  0 ≤ rr < den → 0 ≤ pr < den →
  multiply_loop fuel m den (wrap64 RQ) rr (wrap64 PQ) pr =
  Some (wrap64 ((RQ * den + rr + m * (PQ * den + pr)) / den)).
Proof.
  intros Hd. revert fuel m RQ rr PQ pr. induction k as [|k IH]; intros fuel m RQ rr PQ pr Hm Hf Hr Hp.
  all: destruct fuel as [|fuel]; [lia|]; cbn [multiply_loop].
  { change (2 ^ Z.of_nat 0) with 1 in Hm. assert (m = 0) as -> by lia. cbn [Z.eqb].
    rewrite (div_unique_mul _ den RQ rr); [done|lia|lia]. }
  rewrite Nat2Z.inj_succ, Z.pow_succ_r in Hm by lia.
  destruct (Z.eqb_spec m 0) as [->|Hm0]; [rewrite (div_unique_mul _ den RQ rr); done || lia|].
  rewrite shiftr_1, land_1. pose proof (Z.div_mod m 2 ltac:(lia)) as Em.
  pose proof (Z.mod_pos_bound m 2 ltac:(lia)) as Bm.
  assert (∃ rr' RQ', (if negb (m mod 2 =? 0) then
        add_fractional_value rr pr den (wrap64 (wrap64 RQ + wrap64 PQ)) else (rr, wrap64 RQ)) =
      (rr', wrap64 RQ') ∧ 0 ≤ rr' < den ∧ RQ' * den + rr' = RQ * den + rr + m mod 2 * (PQ * den + pr))
    as (rr' & RQ' & -> & Hr' & Hsum).
  { destruct (Z.eqb_spec (m mod 2) 0) as [H0|H0]; cbn [negb].
    - exists rr, RQ. split; [done|]. lia.
    - rewrite wrap64_add_l, wrap64_add_r.
      destruct (add_fractional_spec rr pr den (RQ + PQ)) as (r & c & E & ? & ?); [done..|].
      rewrite E. exists r, (RQ + PQ + c). split; [done|].
      replace (m mod 2) with 1 by lia. lia. }
  destruct (Z.eqb_spec (m / 2) 0) as [Hh|Hh].
  - rewrite (div_unique_mul _ den RQ' rr'); [done|done|]. nia.
  - rewrite wrap64_mul_l.
    destruct (add_fractional_spec pr pr den (PQ * 2)) as (p & c & E & ? & ?); [done..|]. rewrite E.
    rewrite IH; [|lia..]. do 3 f_equal. nia.
Qed.

Lemma multiply_divide_floor_spec value multiplier den : 0 < den → u64 value → u64 multiplier →
  multiply_divide_floor value multiplier den = wrap64 (value * multiplier / den).
Proof.
  intros Hd Hv Hm. unfold multiply_divide_floor, multiply_fuel.
  pose proof (Z.mod_pos_bound value den Hd). pose proof (Z.div_mod value den ltac:(lia)).
  assert (Hq : wrap64 (value / den) = value / den).
  { apply wrap64_small. pose proof (Z.div_pos value den). pose proof (Z.div_le_upper_bound value den value).
    word. }
  pose proof (multiply_loop_spec 64 65 multiplier den 0 0 (value / den) (value mod den) Hd) as Hl.
  rewrite Hq in Hl. change (wrap64 0) with 0 in Hl.
  rewrite Hl; [|exact Hm|lia|lia|done]. cbn [default from_option].
  replace (value / den * den + value mod den) with value by lia.
  replace (0 * den + 0 + multiplier * value) with (value * multiplier) by lia. done.
Qed.

(** ** Trace time *)

Lemma kNanosecondsPerSecond_pos : 0 < kNanosecondsPerSecond.
Proof. done. Qed.

Definition header_ok (header : FileHeader) : Prop :=
  u64 (monotonic_frequency header) ∧ u64 (monotonic_origin header).

Lemma relative_ticks_ok t header r : relative_ticks t header = Ok r ↔
  monotonic_frequency header ≠ 0 ∧ monotonic_origin header ≤ t ∧ r = t - monotonic_origin header.
Proof.
  unfold relative_ticks. rewrite !bind_ok. setoid_rewrite throw_if_ok. split.
  - intros ([] & Hf & H). inv_ok. bool_facts. naive_solver.
  - intros (Hf & Ho & ->). exists tt. rewrite (proj2 (Z.eqb_neq _ _) Hf). split; [done|].
    by rewrite (proj2 (Z.ltb_ge _ _) Ho).
Qed.

(** The comparison of an event's tick with a time in nanoseconds is exact: on a
    header with a frequency and a tick not before the origin, it is the order of the
    tick count over the frequency and the nanoseconds over 10^9 as rational numbers,
    with no rounding and no overflow, and on anything else it throws. *)
Theorem compare_trace_time_exact t header ns :
  u64 t → header_ok header → i64 ns →
  compare_trace_time t header ns =
    if ns <? 0 then throw TraceTimeError "relative trace time must not be negative"
    else if monotonic_frequency header =? 0
    then throw TraceTimeError "trace monotonic frequency must not be zero"
    else if t <? monotonic_origin header
    then throw TraceTimeError "trace monotonic time precedes its origin"
    else Ok ((t - monotonic_origin header) * kNanosecondsPerSecond ?=
             ns * monotonic_frequency header).
Proof.
  intros Ht [Hf Ho] Hns. unfold compare_trace_time, relative_ticks, throw_if.
  destruct (Z.ltb_spec ns 0); [done|]. cbn [mbind result_bind].
  destruct (Z.eqb_spec (monotonic_frequency header) 0); [done|]. cbn [mbind result_bind].
  destruct (Z.ltb_spec t (monotonic_origin header)); [done|]. cbn [mbind result_bind].
  set (ticks := t - monotonic_origin header). set (freq := monotonic_frequency header) in *.
  pose proof kNanosecondsPerSecond_pos as Hn. assert (Hfp : 0 < freq) by word.
  destruct (Z.ltb_spec (ticks / freq) (ns / kNanosecondsPerSecond)) as [Hlt|Hge].
  { f_equal. symmetry. apply Z.compare_lt_iff. by apply sgn_quotients. }
  destruct (Z.ltb_spec (ns / kNanosecondsPerSecond) (ticks / freq)) as [Hlt|Hge'].
  { f_equal. symmetry. apply Z.compare_gt_iff. by apply sgn_quotients. }
  rewrite compare_fractions_spec by (unfold u64 in *; lia).
  rewrite <- sgn_remainders by lia.
  set (left := ticks * kNanosecondsPerSecond). set (right := ns * freq).
  destruct (Z.compare_spec left right) as [Hc|Hc|Hc].
  - by rewrite Hc, Z.sub_diag.
  - by rewrite Z.sgn_neg by lia.
  - by rewrite Z.sgn_pos by lia.
Qed.

Lemma nanoseconds_split ticks freq : 0 < freq →
  ticks * kNanosecondsPerSecond / freq =
  ticks / freq * kNanosecondsPerSecond + ticks mod freq * kNanosecondsPerSecond / freq.
Proof.
  intros Hf. pose proof (Z.div_mod ticks freq ltac:(lia)) as E.
  rewrite <- Z.div_add_l by lia. f_equal. rewrite E at 1. lia.
Qed.

(** C36: The nanoseconds of a tick are the whole nanoseconds that have passed, never
    rounded up and never wrapped: [trace_time_floor] is the integer part of the exact
    quotient when that fits 63 bits, and throws otherwise. *)
Theorem trace_time_floor_exact t header :
  u64 t → header_ok header → monotonic_frequency header ≠ 0 → monotonic_origin header ≤ t →
  let ns := (t - monotonic_origin header) * kNanosecondsPerSecond / monotonic_frequency header in
  trace_time_floor t header =
    (if i64_max <? ns then throw TraceTimeError "relative trace time does not fit nanoseconds"
     else Ok ns).
Proof.
  intros Ht [Hf Ho] Hf0 Hle ns. unfold trace_time_floor.
  rewrite (proj2 (relative_ticks_ok _ _ _)) by done. cbn [mbind result_bind].
  set (ticks := t - monotonic_origin header) in *. set (freq := monotonic_frequency header) in *.
  assert (Hfp : 0 < freq) by word. pose proof kNanosecondsPerSecond_pos as Hn.
  pose proof (Z.mod_pos_bound ticks freq Hfp) as Hm.
  assert (Hfrac : 0 ≤ ticks mod freq * kNanosecondsPerSecond / freq < kNanosecondsPerSecond).
  { split; [apply Z.div_pos; nia|apply Z.div_lt_upper_bound; nia]. }
  rewrite multiply_divide_floor_spec by (unfold kNanosecondsPerSecond in *; word).
  rewrite (wrap64_small (_ / _)) by (unfold kNanosecondsPerSecond in *; word).
  subst ns. rewrite (nanoseconds_split ticks freq) by done.
  set (frac := ticks mod freq * kNanosecondsPerSecond / freq) in *.
  assert (0 ≤ ticks / freq) by (apply Z.div_pos; lia).
  unfold throw_if.
  destruct (Z.ltb_spec ((i64_max - frac) / kNanosecondsPerSecond) (ticks / freq)) as [H1|H1];
    destruct (Z.ltb_spec i64_max (ticks / freq * kNanosecondsPerSecond + frac)) as [H2|H2];
    [done| | |].
  - exfalso. assert (H3 : ticks / freq * kNanosecondsPerSecond / kNanosecondsPerSecond ≤
      (i64_max - frac) / kNanosecondsPerSecond) by (apply Z.div_le_mono; lia).
    rewrite Z.div_mul in H3 by lia. lia.
  - exfalso. pose proof (Z.mul_div_le (i64_max - frac) kNanosecondsPerSecond Hn). nia.
  - cbn. f_equal. apply wrap64_small. unfold i64_max in *. word.
Qed.

(** ** Two concrete times *)

(** A clock of three ticks a second, read as late as it can be. *)
Definition slow_header : FileHeader :=
  {| pointer_width := 8; platform := Platform_kLinux; architecture := Architecture_kX64;
     fh_flags := 0; session_id := []; file_index := 0; monotonic_frequency := 3;
     monotonic_origin := 1; utc_origin_ns := 0 |}.

Lemma compare_trace_time_exact_witness :
  compare_trace_time u64_max slow_header i64_max = Ok Gt ∧
  compare_trace_time 2 slow_header 333333333 = Ok Gt.
Proof.
  split; (rewrite compare_trace_time_exact; [vm_compute; reflexivity|..]);
    vm_compute; repeat split; congruence.
Defined.

Lemma trace_time_floor_exact_witness :
  trace_time_floor 11 slow_header = Ok 3333333333 ∧
  trace_time_floor u64_max slow_header =
    throw TraceTimeError "relative trace time does not fit nanoseconds".
Proof.
  split; (rewrite trace_time_floor_exact; [vm_compute; reflexivity|..]);
    vm_compute; repeat split; congruence.
Defined.
