(* ===== verification/ModuleGlob.v ===== *)
(** * Module patterns

    The pattern matcher of src/src/analyzer/filter.cpp: [*] and [?] over module
    names, upper and lower case alike, both path separators alike.  The matcher
    walks the two strings with one position to come back to; it is compared with
    the recursive meaning of a pattern. *)

From S2P Require Import Prelude Bytes.

Definition star : byte := x2a.
Definition question : byte := x3f.
Definition slash : byte := x2f.
Definition backslash : byte := x5c.

Definition normalize_module_character (value : byte) : byte :=
  if Byte.eqb value backslash then slash
  else if (0x41 <=? byte_val value) && (byte_val value <=? 0x5a)
  then byte_of (byte_val value + (0x61 - 0x41))
  else value.

Definition same_character (p v : byte) : bool :=
  Byte.eqb p question || Byte.eqb (normalize_module_character p) (normalize_module_character v).

(** The trailing loop: only stars are left of the pattern. *)
Fixpoint all_stars (pattern : bytes) : bool :=
  match pattern with
  | [] => true
  | c :: pattern => if Byte.eqb c star then all_stars pattern else false
  end.

Definition at_star (pattern : bytes) (index : nat) : bool :=
  match pattern !! index with Some c => Byte.eqb c star | None => false end.

(** [star_index] and [retry_value_index], when there was a star. *)
Fixpoint glob_loop (fuel : nat) (pattern value : bytes) (pattern_index value_index : nat)
    (backtrack : option (nat * nat)) : option bool :=
  match fuel with
  | O => None
  | S fuel =>
      match value !! value_index with
      | None => Some (all_stars (drop pattern_index pattern))
      | Some v =>
          if match pattern !! pattern_index with Some p => same_character p v | None => false end
          then glob_loop fuel pattern value (S pattern_index) (S value_index) backtrack
          else if at_star pattern pattern_index
          then glob_loop fuel pattern value (S pattern_index) value_index
                 (Some (pattern_index, value_index))
          else
            match backtrack with
            | None => Some false
            | Some (star_index, retry_value_index) =>
                glob_loop fuel pattern value (S star_index) (S retry_value_index)
                  (Some (star_index, S retry_value_index))
            end
      end
  end.

(** Each way back moves the star or the position to come back to; between two of
    them the loop runs forward over the value. *)
Definition glob_fuel (pattern value : bytes) : nat :=
  S (S (length value) * S (S (length pattern + length value)))%nat.

Definition module_glob_matches (pattern value : bytes) : bool :=
  default false (glob_loop (glob_fuel pattern value) pattern value 0 0 None).

(** [find_last_of]: the part behind the last separator. *)
Definition is_separator (c : byte) : bool := Byte.eqb c slash || Byte.eqb c backslash.

Fixpoint module_basename (module : bytes) : bytes :=
  match module with
  | [] => []
  | c :: rest =>
      if existsb is_separator rest then module_basename rest
      else if is_separator c then rest else module
  end.

Definition pattern_matches_module (pattern module : bytes) : bool :=
  let pattern_has_path := existsb is_separator pattern in
  module_glob_matches pattern (if pattern_has_path then module else module_basename module).

Definition any_pattern_matches (patterns : list bytes) (module : bytes) : bool :=
  existsb (λ pattern, pattern_matches_module pattern module) patterns.

(** ** The meaning of a pattern *)

Fixpoint glob (pattern : bytes) : bytes → bool :=
  match pattern with
  | [] => λ value, match value with [] => true | _ => false end
  | c :: pattern =>
      if Byte.eqb c star then
        fix stretch value :=
          glob pattern value || match value with [] => false | _ :: value => stretch value end
      else λ value,
        match value with
        | [] => false
        | v :: value => same_character c v && glob pattern value
        end
  end.

Lemma glob_star pattern value :
  glob (star :: pattern) value = true ↔ ∃ k, (k ≤ length value)%nat ∧ glob pattern (drop k value) = true.
Proof.
  cbn [glob]. rewrite (Byte.byte_dec_lb (x := star) eq_refl). induction value as [|v value IH].
  - rewrite orb_false_r. split.
    + intros H. by exists 0%nat.
    + intros (k & Hk & H). by rewrite drop_nil in H.
  - rewrite orb_true_iff, IH. split.
    + intros [H|(k & Hk & H)]; [by exists 0%nat; split; [lia|]|]. exists (S k). cbn. split; [lia|done].
    + intros ([|k] & Hk & H); [by left|right]. exists k. cbn in Hk, H. split; [lia|done].
Qed.

Lemma glob_char c pattern v value : c ≠ star →
  glob (c :: pattern) (v :: value) = same_character c v && glob pattern value.
Proof.
  intros Hc. cbn [glob]. destruct (Byte.eqb c star) eqn:E; [|done]. by apply Byte.byte_dec_bl in E.
Qed.

Lemma glob_char_nil c pattern : c ≠ star → glob (c :: pattern) [] = false.
Proof.
  intros Hc. cbn [glob]. destruct (Byte.eqb c star) eqn:E; [|done]. by apply Byte.byte_dec_bl in E.
Qed.

Lemma glob_nil pattern : glob pattern [] = all_stars pattern.
Proof.
  induction pattern as [|c pattern IH]; [done|]. cbn [glob all_stars].
  destruct (Byte.eqb c star); [|done]. by rewrite IH, orb_false_r.
Qed.

(** ** The walk *)

Lemma glob_segment segment pattern value : star ∉ segment →
  glob (segment ++ pattern) value = true →
  (length segment ≤ length value)%nat ∧ glob pattern (drop (length segment) value) = true.
Proof.
  revert value. induction segment as [|c segment IH]; intros value Hs H; [cbn; split; [lia|done]|].
  apply not_elem_of_cons in Hs as [Hc Hs]. destruct value as [|v value].
  - by rewrite <- app_comm_cons, glob_char_nil in H by done.
  - rewrite <- app_comm_cons, glob_char in H by done. apply andb_true_iff in H as [_ H].
    apply IH in H as [Hl H]; [|done]. cbn. split; [lia|done].
Qed.

Lemma drop_lookup {A} (l : list A) i x : l !! i = Some x → drop i l = x :: drop (S i) l.
Proof. apply drop_S. Qed.

Lemma at_star_true pattern i : at_star pattern i = true ↔ pattern !! i = Some star.
Proof.
  unfold at_star. destruct (pattern !! i) as [c|]; [|naive_solver]. split.
  - intros E%Byte.byte_dec_bl. by subst.
  - intros [= ->]. by apply Byte.byte_dec_lb.
Qed.

Lemma same_star v : v ≠ star → same_character star v = false.
Proof.
  intros Hv. unfold same_character. apply orb_false_iff. split; [done|].
  change (normalize_module_character star) with star.
  destruct (Byte.eqb star (normalize_module_character v)) eqn:E; [|done].
  apply Byte.byte_dec_bl in E. exfalso. apply Hv. revert E. unfold normalize_module_character.
  destruct (Byte.eqb v backslash); [done|]. destruct (_ && _) eqn:Er; [|done].
  bool_facts. intros E%(f_equal byte_val). rewrite byte_val_of in E.
  rewrite Z.mod_small in E by lia. change (byte_val star) with 42 in E. lia.
Qed.

Section walk.
Context (pattern value : bytes).

(** The states of the walk: behind the last star a star-free stretch of the pattern
    has matched. *)
Definition walk_inv (pi vi : nat) (backtrack : option (nat * nat)) : Prop :=
  (pi ≤ length pattern)%nat ∧ (vi ≤ length value)%nat ∧
  match backtrack with
  | None => True
  | Some (s, r) =>
      (s < pi)%nat ∧ vi = (r + (pi - S s))%nat ∧ pattern !! s = Some star ∧
      star ∉ take (pi - S s) (drop (S s) pattern)
  end.

(** What the walk still decides. *)
Definition walk_goal (pi vi : nat) (backtrack : option (nat * nat)) : Prop :=
  glob (drop pi pattern) (drop vi value) = true ∨
  match backtrack with
  | None => False
  | Some (s, r) => ∃ j, (r < j ≤ length value)%nat ∧ glob (drop (S s) pattern) (drop j value) = true
  end.

Definition walk_measure (vi : nat) (backtrack : option (nat * nat)) : nat :=
  (match backtrack with
   | None => S (length pattern + length value)
   | Some (s, r) => (length pattern - s) + (length value - r)
   end * S (length value) + (length value - vi))%nat.

(** The pattern behind the last star is its matched stretch and the rest. *)
Lemma walk_segment pi vi s r : walk_inv pi vi (Some (s, r)) →
  drop (S s) pattern = take (pi - S s) (drop (S s) pattern) ++ drop pi pattern ∧
  length (take (pi - S s) (drop (S s) pattern)) = (vi - r)%nat.
Proof.
  intros (Hp & Hv & Hs & -> & _). split.
  - rewrite <- (take_drop (pi - S s) (drop (S s) pattern)) at 1. f_equal. rewrite drop_drop. f_equal. lia.
  - rewrite length_take, length_drop. lia.
Qed.

(** Later matches of the stretch only leave less for the rest. *)
Lemma walk_later pi vi s r j : walk_inv pi vi (Some (s, r)) → (r < j ≤ length value)%nat →
  glob (drop (S s) pattern) (drop j value) = true →
  ∃ k, (vi < k ≤ length value)%nat ∧ glob (drop pi pattern) (drop k value) = true.
Proof.
  intros Hinv Hj H. destruct (walk_segment pi vi s r Hinv) as [Hseg Hlen].
  destruct Hinv as (Hp & Hv & Hs & Hvi & _ & Hfree). rewrite Hseg in H.
  apply glob_segment in H as [Hl H]; [|done]. rewrite drop_drop, Hlen in H. rewrite length_drop, Hlen in Hl.
  exists (j + (vi - r))%nat. split; [lia|done].
Qed.

Lemma walk_end pi backtrack : walk_inv pi (length value) backtrack →
  walk_goal pi (length value) backtrack ↔ all_stars (drop pi pattern) = true.
Proof.
  intros Hinv. unfold walk_goal. rewrite drop_all, glob_nil. split; [|by left].
  intros [H|H]; [done|exfalso]. destruct backtrack as [[s r]|]; [|done]. destruct H as (j & Hj & H).
  apply (walk_later pi (length value) s r j Hinv Hj) in H as (k & Hk & _). lia.
Qed.

Lemma walk_char pi vi backtrack p v : star ∉ value → pattern !! pi = Some p → value !! vi = Some v →
  same_character p v = true → walk_inv pi vi backtrack →
  walk_inv (S pi) (S vi) backtrack ∧
  (walk_goal (S pi) (S vi) backtrack ↔ walk_goal pi vi backtrack).
Proof.
  intros Hstar Hp Hv Hsame Hinv.
  assert (Hps : p ≠ star).
  { intros ->. rewrite same_star in Hsame; [done|]. intros ->. apply Hstar. by eapply list_elem_of_lookup_2. }
  pose proof (lookup_lt_Some _ _ _ Hp). pose proof (lookup_lt_Some _ _ _ Hv). split.
  - destruct Hinv as (Hpi & Hvi & Hbt). split_and!; [lia|lia|]. destruct backtrack as [[s r]|]; [|done].
    destruct Hbt as (Hs & -> & Hst & Hfree). split_and!; [lia|lia|done|].
    replace (S pi - S s)%nat with (S (pi - S s)) by lia.
    rewrite (take_S_r _ _ p) by (rewrite lookup_drop; by replace (S s + (pi - S s))%nat with pi by lia).
    rewrite not_elem_of_app. split; [done|]. intros E%list_elem_of_singleton. congruence.
  - unfold walk_goal. rewrite (drop_lookup pattern pi p), (drop_lookup value vi v) by done.
    rewrite glob_char, Hsame by done. done.
Qed.

Lemma walk_star pi vi backtrack : pattern !! pi = Some star → walk_inv pi vi backtrack →
  walk_inv (S pi) vi (Some (pi, vi)) ∧ (walk_goal (S pi) vi (Some (pi, vi)) ↔ walk_goal pi vi backtrack).
Proof.
  intros Hp Hinv. pose proof (lookup_lt_Some _ _ _ Hp) as Hlt. pose proof Hinv as (Hpi & Hvi & _). split.
  { unfold walk_inv. rewrite Nat.sub_diag. pose proof (not_elem_of_nil (A := byte) star).
    split_and!; done || lia. }
  assert (Hglob : glob (drop pi pattern) (drop vi value) = true ↔
    ∃ k, (vi ≤ k ≤ length value)%nat ∧ glob (drop (S pi) pattern) (drop k value) = true).
  { rewrite (drop_lookup pattern pi star) by done. rewrite glob_star. split.
    - intros (k & Hk & H). rewrite length_drop in Hk. rewrite drop_drop in H.
      exists (vi + k)%nat. split; [lia|done].
    - intros (k & Hk & H). exists (k - vi)%nat. rewrite length_drop, drop_drop.
      replace (vi + (k - vi))%nat with k by lia. split; [lia|done]. }
  unfold walk_goal. rewrite Hglob. split.
  - intros [H|(j & Hj & H)]; left; [by exists vi|]. exists j. split; [lia|done].
  - intros [(k & Hk & H)|H].
    + destruct (decide (k = vi)) as [->|]; [by left|right]. exists k. split; [lia|done].
    + destruct backtrack as [[s r]|]; [|done]. destruct H as (j & Hj & H).
      apply (walk_later pi vi s r j Hinv Hj) in H as (k & Hk & H).
      rewrite (drop_lookup pattern pi star) in H by done. apply glob_star in H as (i & Hi & H).
      rewrite length_drop in Hi. rewrite drop_drop in H. right. exists (k + i)%nat. split; [lia|done].
Qed.

Lemma walk_back pi vi s r v : value !! vi = Some v → walk_inv pi vi (Some (s, r)) →
  glob (drop pi pattern) (drop vi value) = false →
  walk_inv (S s) (S r) (Some (s, S r)) ∧
  (walk_goal (S s) (S r) (Some (s, S r)) ↔ walk_goal pi vi (Some (s, r))).
Proof.
  intros Hv (Hpi & Hvi & Hs & Hvr & Hst & _) Hno. pose proof (lookup_lt_Some _ _ _ Hv).
  pose proof (lookup_lt_Some _ _ _ Hst). split.
  { unfold walk_inv. rewrite Nat.sub_diag. pose proof (not_elem_of_nil (A := byte) star).
    split_and!; done || lia. }
  unfold walk_goal. rewrite Hno. split.
  - intros [H'|(j & Hj & H')]; right; [exists (S r)|exists j]; (split; [lia|done]).
  - intros [|(j & Hj & H')]; [done|]. destruct (decide (j = S r)) as [->|]; [by left|right].
    exists j. split; [lia|done].
Qed.

Lemma walk_mismatch pi vi v : value !! vi = Some v →
  match pattern !! pi with Some p => same_character p v | None => false end = false →
  at_star pattern pi = false → glob (drop pi pattern) (drop vi value) = false.
Proof.
  intros Hv Hm Hs. rewrite (drop_lookup value vi v) by done.
  destruct (pattern !! pi) as [p|] eqn:Hp.
  - rewrite (drop_lookup pattern pi p) by done. rewrite glob_char, Hm; [done|].
    intros ->. by rewrite (proj2 (at_star_true _ _) Hp) in Hs.
  - rewrite drop_ge by by apply lookup_ge_None. done.
Qed.

Lemma glob_loop_spec fuel pi vi backtrack : star ∉ value → walk_inv pi vi backtrack →
  (walk_measure vi backtrack < fuel)%nat →
  ∃ b, glob_loop fuel pattern value pi vi backtrack = Some b ∧ (b = true ↔ walk_goal pi vi backtrack).
Proof.
  intros Hstar. revert pi vi backtrack. induction fuel as [|fuel IH]; intros pi vi backtrack Hinv Hf; [lia|].
  cbn [glob_loop]. destruct (value !! vi) as [v|] eqn:Hv.
  2:{ apply lookup_ge_None in Hv. pose proof Hinv as (_ & ? & _).
      assert (vi = length value) as -> by lia. eexists. split; [done|]. symmetry. by apply walk_end. }
  pose proof (lookup_lt_Some _ _ _ Hv) as Hlt.
  assert (Hgo : ∀ pi' vi' backtrack', walk_inv pi' vi' backtrack' →
    (walk_goal pi' vi' backtrack' ↔ walk_goal pi vi backtrack) →
    (walk_measure vi' backtrack' < walk_measure vi backtrack)%nat →
    ∃ b, glob_loop fuel pattern value pi' vi' backtrack' = Some b ∧
      (b = true ↔ walk_goal pi vi backtrack)).
  { intros pi' vi' bt' Hinv' Hgoal Hm. destruct (IH pi' vi' bt' Hinv') as (b & Hb & Hiff); [lia|].
    exists b. tauto. }
  destruct (match pattern !! pi with Some p => same_character p v | None => false end) eqn:Hm.
  { destruct (pattern !! pi) as [p|] eqn:Hp; [|done].
    destruct (walk_char pi vi backtrack p v) as [Hinv' Hgoal]; [done..|]. apply Hgo; [done..|].
    unfold walk_measure. destruct backtrack as [[]|]; lia. }
  destruct (at_star pattern pi) eqn:Hs.
  { apply at_star_true in Hs. destruct (walk_star pi vi backtrack Hs Hinv) as [Hinv' Hgoal].
    apply Hgo; [done..|]. pose proof (lookup_lt_Some _ _ _ Hs). unfold walk_measure.
    destruct backtrack as [[s r]|]; [|nia]. destruct Hinv as (_ & _ & ? & -> & _). nia. }
  pose proof (walk_mismatch pi vi v Hv Hm Hs) as Hno.
  destruct backtrack as [[s r]|].
  - destruct (walk_back pi vi s r v Hv Hinv Hno) as [Hinv' Hgoal]. apply Hgo; [done..|].
    destruct Hinv as (? & ? & ? & -> & _). unfold walk_measure. nia.
  - exists false. split; [done|]. unfold walk_goal. rewrite Hno. naive_solver.
Qed.

End walk.

(** C37: Matching a module pattern means what a pattern means: [*] stands for any
    stretch of characters, [?] for any one, everything else for itself up to case and
    the kind of separator.  The walk with one position to come back to always
    terminates and agrees with that meaning, on every name without a [*] of its own. *)
Theorem module_glob_exact pattern value :
  star ∉ value →
  glob_loop (glob_fuel pattern value) pattern value 0 0 None = Some (glob pattern value) ∧
  module_glob_matches pattern value = glob pattern value.
Proof.
  intros Hstar.
  destruct (glob_loop_spec pattern value (glob_fuel pattern value) 0 0 None) as (b & Hb & Hiff); [done| | |].
  - unfold walk_inv. split_and!; lia || done.
  - unfold walk_measure, glob_fuel. lia.
  - unfold walk_goal in Hiff. cbn in Hiff.
    assert (b = glob pattern value) as -> by (apply eq_true_iff_eq; tauto).
    split; [done|]. unfold module_glob_matches. by rewrite Hb.
Qed.

(** A star of the name is taken for itself, so the pattern's star no longer stands
    for anything else. *)
Theorem module_glob_literal_star :
  module_glob_matches [star; x62] [star; x61; x62] = false ∧ glob [star; x62] [star; x61; x62] = true.
Proof. split; vm_compute; reflexivity. Qed.

(** [a*B?c] on [axxaBabyC], read twice before the star stands for enough. *)
Lemma module_glob_exact_witness :
  module_glob_matches [x61; star; x42; x3f; x63] [x61; x78; x78; x62; x78; x62; x79; x43] = true.
Proof.
  refine (eq_trans (proj2 (module_glob_exact [x61; star; x42; x3f; x63] _ _)) _).
  - apply (bool_decide_unpack _). vm_compute. exact I.
  - vm_compute. reflexivity.
Defined.
