(* ===== verification/AnalysisFilter.v ===== *)
(** * The analysis filter

    [AnalysisFilter] of src/src/analyzer/filter.cpp, which picks the events and
    generations an analysis reports: the values of one category are alternatives,
    the categories all have to hold.  Names are matched by ModuleGlob.v.  The
    metadata resolver is a [std::function] the caller may leave empty. *)

From S2P Require Import Prelude Bytes OrderedMap IntervalSet WireFormat Event GenerationTracker ModuleGlob.

Record AnalysisFilterCriteria : Set := {
  minimum_size : option Z;
  maximum_size : option Z;
  operations : list EventOperation;
  thread_ids : list Z;
  api_names : list bytes;
  module_patterns : list bytes;
  stack_module_patterns : list bytes;
  allocation_ids : list Z;
  statuses : list EventStatus;
}.

Record EventMetadata : Set := {
  api_name : option bytes;
  api_module : option bytes;
  stack_modules : list bytes;
}.

Abbreviation EventMetadataResolver := (option (Event → EventMetadata)).

Definition contains {A} `{EqDecision A} (values : list A) (value : A) : bool :=
  existsb (λ x, bool_decide (x = value)) values.

Definition is_nil {A} (values : list A) : bool := match values with [] => true | _ => false end.

(** ** One category at a time *)

Definition metadata_matches (criteria : AnalysisFilterCriteria) (metadata : EventMetadata) : bool :=
  if negb (is_nil (api_names criteria)) &&
     match api_name metadata with Some name => negb (contains (api_names criteria) name) | None => true end
  then false
  else if negb (is_nil (module_patterns criteria)) &&
     match api_module metadata with
     | Some module => negb (any_pattern_matches (module_patterns criteria) module)
     | None => true
     end
  then false
  else if negb (is_nil (stack_module_patterns criteria)) then
    existsb (any_pattern_matches (stack_module_patterns criteria)) (stack_modules metadata)
  else true.

Definition event_size (event : Event) : option Z :=
  match ev_payload event with
  | Allocation a => Some (al_requested_size a)
  | Reallocation r => Some (re_requested_size r)
  | VmAllocate a =>
      Some (if call_succeeded (status (ev_header event)) then va_result_size a else va_requested_size a)
  | VmFree f => Some (vf_region_size f)
  | Map m => Some (mp_view_size m)
  | _ => None
  end.

Definition size_matches (criteria : AnalysisFilterCriteria) (size : option Z) : bool :=
  if negb (bool_decide (is_Some (minimum_size criteria))) &&
     negb (bool_decide (is_Some (maximum_size criteria)))
  then true
  else
    match size with
    | None => false
    | Some size =>
        match minimum_size criteria with Some minimum => minimum <=? size | None => true end &&
        match maximum_size criteria with Some maximum => size <=? maximum | None => true end
    end.

Definition allocation_id_matches (ids : list Z) (event : Event) : bool :=
  if is_nil ids then true
  else
    match ev_payload event with
    | Allocation a => is_valid (al_allocation_id a) && contains ids (al_allocation_id a)
    | Free f => is_valid (fr_allocation_id f) && contains ids (fr_allocation_id f)
    | Reallocation r =>
        (is_valid (re_old_allocation_id r) && contains ids (re_old_allocation_id r)) ||
        (is_valid (re_new_allocation_id r) && contains ids (re_new_allocation_id r))
    | _ => false
    end.

Definition common_event_fields_match (criteria : AnalysisFilterCriteria) (event : Event) : bool :=
  (is_nil (operations criteria) ||
   contains (operations criteria) (event_operation (ev_payload event))) &&
  (is_nil (thread_ids criteria) || contains (thread_ids criteria) (thread_id (ev_header event))) &&
  (is_nil (statuses criteria) || contains (statuses criteria) (status (ev_header event))).

(** ** The filter *)

Record AnalysisFilter : Set := { criteria_ : AnalysisFilterCriteria }.

Definition empty_criteria : AnalysisFilterCriteria :=
  {| minimum_size := None; maximum_size := None; operations := []; thread_ids := [];
     api_names := []; module_patterns := []; stack_module_patterns := []; allocation_ids := [];
     statuses := [] |}.

Definition validate_names (values : list bytes) (message : string) : result exn unit :=
  throw_if (existsb is_nil values) AnalysisFilterError message.

Definition AnalysisFilter_new (criteria : AnalysisFilterCriteria) : result exn AnalysisFilter :=
  throw_if
    match minimum_size criteria, maximum_size criteria with
    | Some minimum, Some maximum => maximum <? minimum
    | _, _ => false
    end AnalysisFilterError "minimum size must not exceed maximum size" ;;
  validate_names (api_names criteria) "API names must not contain an empty value" ;;
  validate_names (module_patterns criteria) "module patterns must not contain an empty value" ;;
  validate_names (stack_module_patterns criteria)
    "stack module patterns must not contain an empty value" ;;
  Ok {| criteria_ := criteria |}.

Definition requires_metadata (filter : AnalysisFilter) : bool :=
  negb (is_nil (api_names (criteria_ filter))) ||
  negb (is_nil (module_patterns (criteria_ filter))) ||
  negb (is_nil (stack_module_patterns (criteria_ filter))).

Definition filter_empty (filter : AnalysisFilter) : bool :=
  let criteria := criteria_ filter in
  negb (bool_decide (is_Some (minimum_size criteria))) &&
  negb (bool_decide (is_Some (maximum_size criteria))) &&
  is_nil (operations criteria) && is_nil (thread_ids criteria) && is_nil (api_names criteria) &&
  is_nil (module_patterns criteria) && is_nil (stack_module_patterns criteria) &&
  is_nil (allocation_ids criteria) && is_nil (statuses criteria).

Definition matches_event_metadata (filter : AnalysisFilter) (event : Event) (metadata : EventMetadata)
    : bool :=
  common_event_fields_match (criteria_ filter) event &&
  size_matches (criteria_ filter) (event_size event) &&
  allocation_id_matches (allocation_ids (criteria_ filter)) event &&
  metadata_matches (criteria_ filter) metadata.

Definition no_resolver {A} : result exn A :=
  throw AnalysisFilterError "API and module filters require an event metadata resolver".

Definition matches_event (filter : AnalysisFilter) (event : Event) (resolver : EventMetadataResolver)
    : result exn bool :=
  if negb (common_event_fields_match (criteria_ filter) event) ||
     negb (size_matches (criteria_ filter) (event_size event)) ||
     negb (allocation_id_matches (allocation_ids (criteria_ filter)) event)
  then Ok false
  else if negb (requires_metadata filter) then Ok true
  else
    match resolver with
    | None => no_resolver
    | Some resolve => Ok (metadata_matches (criteria_ filter) (resolve event))
    end.

Definition generation_id_matches (ids : list Z) (generation : MemoryGeneration) : bool :=
  is_nil ids ||
  (bool_decide (mg_kind generation = Kind_kHeapAllocation) &&
   is_valid (mg_allocation_id generation) && contains ids (mg_allocation_id generation)).

Definition matches_generation_metadata (filter : AnalysisFilter) (generation : MemoryGeneration)
    (metadata : EventMetadata) : bool :=
  if negb (common_event_fields_match (criteria_ filter) (mg_created_by generation)) ||
     negb (size_matches (criteria_ filter) (Some (mg_size generation))) ||
     negb (metadata_matches (criteria_ filter) metadata)
  then false
  else generation_id_matches (allocation_ids (criteria_ filter)) generation.

Definition matches_generation (filter : AnalysisFilter) (generation : MemoryGeneration)
    (resolver : EventMetadataResolver) : result exn bool :=
  if negb (common_event_fields_match (criteria_ filter) (mg_created_by generation)) ||
     negb (size_matches (criteria_ filter) (Some (mg_size generation))) ||
     negb (generation_id_matches (allocation_ids (criteria_ filter)) generation)
  then Ok false
  else if negb (requires_metadata filter) then Ok true
  else
    match resolver with
    | None => no_resolver
    | Some resolve => Ok (metadata_matches (criteria_ filter) (resolve (mg_created_by generation)))
    end.

(** ** The two ways to ask *)

Lemma metadata_not_required filter metadata : requires_metadata filter = false →
  metadata_matches (criteria_ filter) metadata = true.
Proof.
  unfold requires_metadata, metadata_matches. rewrite !orb_false_iff, !negb_false_iff.
  by intros [[-> ->] ->].
Qed.

(** Asking with a resolver is asking with what it resolves. *)
Lemma matches_event_resolved filter event resolve :
  matches_event filter event (Some resolve) = Ok (matches_event_metadata filter event (resolve event)).
Proof.
  unfold matches_event, matches_event_metadata.
  destruct (common_event_fields_match _ _), (size_matches _ _), (allocation_id_matches _ _); try done.
  cbn. destruct (requires_metadata filter) eqn:Hr; [done|]. cbn.
  by rewrite (metadata_not_required filter (resolve event) Hr).
Qed.

Lemma matches_generation_resolved filter generation resolve :
  matches_generation filter generation (Some resolve) =
  Ok (matches_generation_metadata filter generation (resolve (mg_created_by generation))).
Proof.
  unfold matches_generation, matches_generation_metadata.
  destruct (common_event_fields_match _ _), (size_matches _ _); try done. cbn.
  destruct (requires_metadata filter) eqn:Hr; cbn.
  - destruct (generation_id_matches _ _), (metadata_matches _ _); done.
  - rewrite (metadata_not_required filter _ Hr). by destruct (generation_id_matches _ _).
Qed.

(** A filter that names nothing accepts everything. *)
Lemma empty_filter_accepts filter generation resolver : filter_empty filter = true →
  matches_generation filter generation resolver = Ok true.
Proof.
  unfold filter_empty, matches_generation, requires_metadata, common_event_fields_match, size_matches,
    generation_id_matches. cbv zeta. rewrite !andb_true_iff.
  intros ((((((((Hmin & Hmax) & ->) & ->) & ->) & ->) & ->) & ->) & ->). cbn.
  rewrite Hmin, Hmax. done.
Qed.
