(* ===== verification/EventStream.v ===== *)
(** * The event stream of a trace

    src/src/analyzer/event_stream.cpp: the records of a trace file, checked
    against each other and handed to the callbacks of an analysis.  The class
    [EventStreamDecoder] is the state of a computation that may throw; the
    callbacks are modelled by what they are told, the member [calls].  A client
    whose callback throws sees the calls before and its own exception. *)

From S2P Require Import Prelude OrderedMap Bytes WireFormat RecordCursor Compression Event Completeness TraceData EventCodec StatisticsCodec DictionaryCodec Chunks TraceReader.

(** ** Data *)

Record EventStreamOptions : Set := {
  reader_options : TraceReaderOptions;
  maximum_record_size : Z;       (* uint32 *)
}.

Definition default_stream_options : EventStreamOptions :=
  {| reader_options := default_reader_options; maximum_record_size := kDefaultMaximumRecordSize |}.

(** The calls of [EventStreamCallbacks]. *)
Inductive StreamCall : Set :=
  | on_file_header (header : FileHeader)
  | on_capture_scope (scope : CaptureScope)
  | on_custom_hook_definition (definition : CustomHookDefinition)
  | on_custom_hook_failure (failure : CustomHookFailure)
  | on_module_load (load : ModuleLoad)
  | on_module_unload (unload : ModuleUnload)
  | on_stack_definition (definition : StackDefinition)
  | on_event (event : Event)
  | on_loss (loss : LossRecord)
  | on_memory_counters (counters : MemoryCounters)
  | on_memory_map (map : MemoryMap)
  | on_agent_memory (memory : AgentMemory)
  | on_statistics (statistics : CaptureStatistics)
  | on_end_of_trace (end_of_trace : EndOfTrace).

Record EventStreamResult : Set := {
  esr_file_header : FileHeader;
  esr_capture_scope : CaptureScope;
  esr_custom_hooks : list CustomHookDefinition;
  esr_custom_hook_failures : list CustomHookFailure;
  esr_statistics : option CaptureStatistics;
  esr_end_of_trace : option EndOfTrace;
  esr_completeness : CompletenessReport;
  known_sequence_end : Z;
  known_monotonic_end : Z;
  event_count : Z;
  module_load_count : Z;
  module_unload_count : Z;
  stack_definition_count : Z;
  loss_record_count : Z;
  memory_counters_count : Z;
  memory_map_count : Z;
  memory_agent_count : Z;
  esr_buffer_configuration : option BufferConfiguration;
  esr_bytes_read : Z;
  truncated : bool;
  partially_understood : bool;
}.

#[global] Instance EventStreamResult_members : Members EventStreamResult := λ r,
  {| esr_file_header := esr_file_header r; esr_capture_scope := esr_capture_scope r;
     esr_custom_hooks := esr_custom_hooks r;
     esr_custom_hook_failures := esr_custom_hook_failures r;
     esr_statistics := esr_statistics r; esr_end_of_trace := esr_end_of_trace r;
     esr_completeness := esr_completeness r; known_sequence_end := known_sequence_end r;
     known_monotonic_end := known_monotonic_end r; event_count := event_count r;
     module_load_count := module_load_count r; module_unload_count := module_unload_count r;
     stack_definition_count := stack_definition_count r;
     loss_record_count := loss_record_count r; memory_counters_count := memory_counters_count r;
     memory_map_count := memory_map_count r; memory_agent_count := memory_agent_count r;
     esr_buffer_configuration := esr_buffer_configuration r; esr_bytes_read := esr_bytes_read r;
     truncated := truncated r; partially_understood := partially_understood r |}.

Record RecordBounds : Set := {
  bounds_begin : Z;
  bounds_end : Z;
  maximum_ticks : Z;
}.

Definition no_bounds : RecordBounds :=
  {| bounds_begin := 0; bounds_end := 0; maximum_ticks := 0 |}.

Definition include_sequence (b e : Z) (bounds : RecordBounds) : RecordBounds :=
  {| bounds_begin := if (bounds_begin bounds =? 0) || (b <? bounds_begin bounds)
                     then b else bounds_begin bounds;
     bounds_end := Z.max (bounds_end bounds) e;
     maximum_ticks := maximum_ticks bounds |}.

Definition include_ticks (ticks : Z) (bounds : RecordBounds) : RecordBounds :=
  {| bounds_begin := bounds_begin bounds; bounds_end := bounds_end bounds;
     maximum_ticks := Z.max (maximum_ticks bounds) ticks |}.

Record ModuleState : Set := { mst_load : ModuleLoad; mst_live : bool }.

(** [module_states_], [live_modules_] and [previous_module_ticks_]. *)
Record ModuleTables : Set := {
  module_states_ : gmap Z ModuleState;
  live_modules_ : ordered_map Z;
  previous_module_ticks_ : Z;
}.

Record EventStreamDecoder : Set := {
  reader_ : TraceReader;
  stream_record_size_ : Z;       (* maximum_record_size_ *)
  result_ : EventStreamResult;
  capture_scope_ : option CaptureScope;
  completeness_ : option CompletenessTracker;
  custom_hook_api_ids_ : gset Z;
  events_per_api_ : gmap Z Z;
  modules_ : ModuleTables;
  stack_ids_ : gset Z;
  previous_event_sequence_ : Z;
  previous_event_ticks_ : Z;
  previous_memory_ticks_ : Z;
  saw_event_ : bool;
  saw_end_chunk_ : bool;
  may_have_unknown_events_ : bool;
  reader_partial_marked_ : bool;
  pending_unknown_record_ : bool;
  pending_partial_format_ : bool;
  pending_truncated_ : bool;
  pending_custom_hook_failure_ : bool;
  calls : list StreamCall;
}.

#[global] Instance EventStreamDecoder_members : Members EventStreamDecoder := λ d,
  {| reader_ := reader_ d; stream_record_size_ := stream_record_size_ d; result_ := result_ d;
     capture_scope_ := capture_scope_ d; completeness_ := completeness_ d;
     custom_hook_api_ids_ := custom_hook_api_ids_ d; events_per_api_ := events_per_api_ d;
     modules_ := modules_ d; stack_ids_ := stack_ids_ d;
     previous_event_sequence_ := previous_event_sequence_ d;
     previous_event_ticks_ := previous_event_ticks_ d;
     previous_memory_ticks_ := previous_memory_ticks_ d; saw_event_ := saw_event_ d;
     saw_end_chunk_ := saw_end_chunk_ d; may_have_unknown_events_ := may_have_unknown_events_ d;
     reader_partial_marked_ := reader_partial_marked_ d;
     pending_unknown_record_ := pending_unknown_record_ d;
     pending_partial_format_ := pending_partial_format_ d;
     pending_truncated_ := pending_truncated_ d;
     pending_custom_hook_failure_ := pending_custom_hook_failure_ d; calls := calls d |}.

Abbreviation decoding := (proc EventStreamDecoder fault).

(** ** Helpers *)

Definition throws {A} (m : result exn A) : decoding A :=
  match m with Ok a => mret a | Throw e => pure (Throw (Thrown e)) end.
Definition analysis_error {A} (message : string) : result exn A := throw TraceAnalysisError message.
Definition analysis_error_if (b : bool) (message : string) : result exn unit :=
  throw_if b TraceAnalysisError message.

Definition set_result (f : EventStreamResult → EventStreamResult) : decoding unit :=
  modify (λ d, d <| result_ := f (result_ d) |>).
Definition notify (c : StreamCall) : decoding unit := modify (λ d, d <| calls := calls d ++ [c] |>).

(** [checked_increment(value, subject)], for the value the function reads. *)
Definition checked_increment (value : Z) (subject : string) : result exn Z :=
  if value =? u64_max then analysis_error (subject +:+ " count overflow") else Ok (value + 1).

Definition has_value {A} (o : option A) : bool := match o with Some _ => true | None => false end.

Definition descriptor_has_sequence (descriptor : ChunkDescriptor) : bool :=
  is_valid (sequence_begin descriptor).

Definition require_empty_sequence_range (descriptor : ChunkDescriptor) : result exn unit :=
  analysis_error_if (descriptor_has_sequence descriptor)
    "non-event chunk has an event sequence range".

Definition validate_event_sequence_range (descriptor : ChunkDescriptor) (bounds : RecordBounds)
    (skipped_unknown_record : bool) : result exn unit :=
  let descriptor_has_range := descriptor_has_sequence descriptor in
  let records_have_range := negb (bounds_begin bounds =? 0) in
  analysis_error_if (records_have_range && negb descriptor_has_range)
    "event chunk omits the sequence range of its records" ;;
  analysis_error_if (negb records_have_range && negb skipped_unknown_record && descriptor_has_range)
    "event chunk declares a sequence range without sequenced records" ;;
  if negb records_have_range then Ok tt else
  let descriptor_begin := sequence_begin descriptor in
  let descriptor_end := sequence_end descriptor in
  if skipped_unknown_record then
    analysis_error_if ((bounds_begin bounds <? descriptor_begin) ||
                       (descriptor_end <? bounds_end bounds))
      "event chunk sequence range does not cover its known records"
  else
    analysis_error_if (negb (descriptor_begin =? bounds_begin bounds) ||
                       negb (descriptor_end =? bounds_end bounds))
      "event chunk sequence range does not match its records".

(** [while (const auto record = cursor.next()) body], with the variables of the
    function that the body assigns.  Each record takes a byte of the payload. *)
Fixpoint record_loop {L} (body : L → RecordView → decoding L) (fuel : nat) (cursor : RecordCursor)
    (locals : L) : decoding L :=
  match fuel with
  | O => pure (Throw OutOfFuel)
  | S fuel =>
      step ← throws (next cursor);
      match fst step with
      | None => mret locals
      | Some record => locals ← body locals record; record_loop body fuel (snd step) locals
      end
  end.

Definition each_record {L} (payload : bytes) (locals : L) (body : L → RecordView → decoding L)
    : decoding L :=
  d ← get_state;
  cursor ← throws (RecordCursor_new payload (stream_record_size_ d));
  record_loop body (S (length payload)) cursor locals.

Fixpoint each {A} (body : A → decoding unit) (l : list A) : decoding unit :=
  match l with [] => mret tt | a :: l => body a ;; each body l end.

(** ** Completeness *)

(** The issue is marked on the tracker, or kept until there is one. *)
Definition mark_or_pend (marked : CompletenessTracker → result exn CompletenessTracker)
    (pend : EventStreamDecoder → EventStreamDecoder) : decoding unit :=
  d ← get_state;
  match completeness_ d with
  | Some tracker => tracker ← throws (marked tracker); modify (λ d, d <| completeness_ := Some tracker |>)
  | None => modify pend
  end.

Definition mark_unknown_record_skipped : decoding unit :=
  mark_or_pend Completeness.mark_unknown_record_skipped (λ d, d <| pending_unknown_record_ := true |>).
Definition mark_partially_understood : decoding unit :=
  mark_or_pend mark_partially_understood_format (λ d, d <| pending_partial_format_ := true |>).
Definition mark_trace_truncated : decoding unit :=
  mark_or_pend Completeness.mark_trace_truncated (λ d, d <| pending_truncated_ := true |>).
Definition mark_custom_hook_install_failed : decoding unit :=
  mark_or_pend Completeness.mark_custom_hook_install_failed
    (λ d, d <| pending_custom_hook_failure_ := true |>).

Definition mark_unknown_event_data : decoding unit :=
  modify (λ d, d <| may_have_unknown_events_ := true |>) ;; mark_unknown_record_skipped.

Definition mark_if (b : bool) (p : decoding unit) : decoding unit := if b then p else mret tt.

(** With [completeness_] set, each pending issue goes to the tracker. *)
Definition apply_pending_completeness : decoding unit :=
  d ← get_state;
  mark_if (pending_unknown_record_ d) mark_unknown_record_skipped ;;
  mark_if (pending_partial_format_ d) mark_partially_understood ;;
  mark_if (pending_truncated_ d) mark_trace_truncated ;;
  mark_if (pending_custom_hook_failure_ d) mark_custom_hook_install_failed.

Definition require_capture_scope (message : string) : decoding unit :=
  d ← get_state;
  throws (analysis_error_if (negb (has_value (capture_scope_ d)) || negb (has_value (completeness_ d)))
            message).

(** A member function of the reader. *)
Definition reader_call {A} (p : reading A) : decoding A := λ d,
  let '(r, reader) := p (reader_ d) in (r, d <| reader_ := reader |>).

Definition synchronize_reader_understanding : decoding unit :=
  d ← get_state;
  if partially_understood_ (reader_ d) && negb (reader_partial_marked_ d) then
    modify (λ d, d <| reader_partial_marked_ := true |> <| may_have_unknown_events_ := true |>) ;;
    mark_partially_understood
  else mret tt.

(** ** Metadata *)

Record MetadataLocals : Set := {
  decoded_scope : option CaptureScope;
  decoded_custom_hooks : list CustomHookDefinition;
  decoded_custom_hook_failures : list CustomHookFailure;
  metadata_skipped_unknown : bool;
}.

#[global] Instance MetadataLocals_members : Members MetadataLocals := λ l,
  {| decoded_scope := decoded_scope l; decoded_custom_hooks := decoded_custom_hooks l;
     decoded_custom_hook_failures := decoded_custom_hook_failures l;
     metadata_skipped_unknown := metadata_skipped_unknown l |}.

Definition metadata_record (l : MetadataLocals) (record : RecordView) : decoding MetadataLocals :=
  decoded ← throws (decode_metadata_record record);
  d ← get_state;
  match decoded with
  | Some (inl scope) =>
      throws (analysis_error_if (has_value (decoded_scope l) || has_value (capture_scope_ d))
                "trace contains more than one CaptureScope record") ;;
      mret (l <| decoded_scope := Some scope |>)
  | Some (inr (inl custom_hook)) =>
      throws (analysis_error_if (bool_decide (chd_api_id custom_hook ∈ custom_hook_api_ids_ d))
                "trace contains a duplicate CustomHookDefinition api_id") ;;
      modify (λ d, d <| custom_hook_api_ids_ := {[chd_api_id custom_hook]} ∪ custom_hook_api_ids_ d |>) ;;
      mret (l <| decoded_custom_hooks := decoded_custom_hooks l ++ [custom_hook] |>)
  | Some (inr (inr (inl failure))) =>
      mret (l <| decoded_custom_hook_failures := decoded_custom_hook_failures l ++ [failure] |>)
  | Some (inr (inr (inr buffer_configuration))) =>
      throws (analysis_error_if (has_value (esr_buffer_configuration (result_ d)))
                "trace contains more than one BufferConfiguration record") ;;
      set_result (λ r, r <| esr_buffer_configuration := Some buffer_configuration |>) ;;
      mret l
  | None => mret (l <| metadata_skipped_unknown := true |>)
  end.

Definition publish_scope (scope : CaptureScope) : decoding unit :=
  modify (λ d, d <| capture_scope_ := Some scope |>) ;;
  tracker ← throws (CompletenessTracker_new scope);
  modify (λ d, d <| completeness_ := Some tracker |>) ;;
  apply_pending_completeness ;;
  notify (on_capture_scope scope).

Definition publish_custom_hook (definition : CustomHookDefinition) : decoding unit :=
  set_result (λ r, r <| esr_custom_hooks := esr_custom_hooks r ++ [definition] |>) ;;
  notify (on_custom_hook_definition definition).

Definition publish_custom_hook_failure (failure : CustomHookFailure) : decoding unit :=
  mark_custom_hook_install_failed ;;
  set_result (λ r, r <| esr_custom_hook_failures := esr_custom_hook_failures r ++ [failure] |>) ;;
  notify (on_custom_hook_failure failure).

Definition no_metadata : MetadataLocals :=
  {| decoded_scope := None; decoded_custom_hooks := []; decoded_custom_hook_failures := [];
     metadata_skipped_unknown := false |}.

Definition process_metadata (payload : bytes) : decoding unit :=
  l ← each_record payload no_metadata metadata_record;
  match decoded_scope l with Some scope => publish_scope scope | None => mret tt end ;;
  mark_if (metadata_skipped_unknown l) mark_unknown_record_skipped ;;
  each publish_custom_hook (decoded_custom_hooks l) ;;
  each publish_custom_hook_failure (decoded_custom_hook_failures l).

(** ** Modules *)

(** [states.find(it->second)] *)
Definition module_at (live_modules : ordered_map Z) (states : gmap Z ModuleState) (it : iterator)
    : option ModuleState :=
  base ← it; id ← om_find base live_modules; states !! id.

Definition validate_module_range (load : ModuleLoad) (live_modules : ordered_map Z)
    (states : gmap Z ModuleState) : result exn unit :=
  let e := wrap64 (ml_base_address load + ml_image_size load) in
  let next := lower_bound (ml_base_address load) live_modules in
  (if negb (bool_decide (next = None)) then
     analysis_error_if
       (match module_at live_modules states next with
        | None => true
        | Some state => ml_base_address (mst_load state) <? e
        end) "live module address ranges overlap"
   else Ok tt) ;;
  if negb (bool_decide (next = begin live_modules)) then
    analysis_error_if
      (match module_at live_modules states (om_prev next live_modules) with
       | None => true
       | Some state => ml_base_address load <?
           wrap64 (ml_base_address (mst_load state) + ml_image_size (mst_load state))
       end) "live module address ranges overlap"
  else Ok tt.

Definition module_record_ticks (record : ModuleRecord) : Z :=
  match record with
  | ModuleRecord_Load load => ml_monotonic_ticks load
  | ModuleRecord_Unload unload => mu_monotonic_ticks unload
  end.

(** The body of the loop over the records of a module chunk. *)
Definition apply_module (origin : Z) (tables : ModuleTables) (record : ModuleRecord)
    : result exn ModuleTables :=
  let ticks := module_record_ticks record in
  let states := module_states_ tables in
  let live_modules := live_modules_ tables in
  analysis_error_if (ticks <? origin) "module record monotonic time precedes the trace origin" ;;
  analysis_error_if (ticks <? previous_module_ticks_ tables)
    "module record monotonic ticks move backwards" ;;
  match record with
  | ModuleRecord_Load load =>
      analysis_error_if (has_value (states !! ml_module_id load))
        "trace contains a duplicate ModuleLoad ID" ;;
      validate_module_range load live_modules states ;;
      analysis_error_if (has_value (om_find (ml_base_address load) live_modules))
        "trace loads two live modules at the same base" ;;
      Ok {| module_states_ := <[ml_module_id load := {| mst_load := load; mst_live := true |}]> states;
            live_modules_ := emplace (ml_base_address load) (ml_module_id load) live_modules;
            previous_module_ticks_ := ticks |}
  | ModuleRecord_Unload unload =>
      match states !! mu_module_id unload with
      | Some {| mst_load := load; mst_live := true |} =>
          analysis_error_if (mu_monotonic_ticks unload <? ml_monotonic_ticks load)
            "ModuleUnload precedes its ModuleLoad" ;;
          Ok {| module_states_ :=
                  <[mu_module_id unload := {| mst_load := load; mst_live := false |}]> states;
                live_modules_ := erase (ml_base_address load) live_modules;
                previous_module_ticks_ := ticks |}
      | _ => analysis_error "ModuleUnload does not reference a live module generation"
      end
  end.

Fixpoint apply_modules (origin : Z) (tables : ModuleTables) (records : list ModuleRecord)
    : result exn ModuleTables :=
  match records with
  | [] => Ok tables
  | record :: records =>
      tables ← apply_module origin tables record; apply_modules origin tables records
  end.

(** The decoded records of a chunk and whether one was skipped. *)
Definition collect_record {A} (decode : RecordView → result exn (option A))
    (l : list A * bool) (record : RecordView) : decoding (list A * bool) :=
  decoded ← throws (decode record);
  match decoded with
  | None => mret (fst l, true)
  | Some a => mret (fst l ++ [a], snd l)
  end.

Definition publish_module (record : ModuleRecord) : decoding unit :=
  d ← get_state;
  match record with
  | ModuleRecord_Load load =>
      count ← throws (checked_increment (module_load_count (result_ d)) "module load");
      set_result (λ r, r <| module_load_count := count |>) ;;
      notify (on_module_load load)
  | ModuleRecord_Unload unload =>
      count ← throws (checked_increment (module_unload_count (result_ d)) "module unload");
      set_result (λ r, r <| module_unload_count := count |>) ;;
      notify (on_module_unload unload)
  end.

Definition include_monotonic_end (ticks : Z) : decoding unit :=
  set_result (λ r, r <| known_monotonic_end := Z.max (known_monotonic_end r) ticks |>).

Definition process_modules (payload : bytes) : decoding unit :=
  require_capture_scope "module record appears before CaptureScope" ;;
  l ← each_record payload ([], false) (collect_record decode_module_record);
  d ← get_state;
  tables ← throws (apply_modules (monotonic_origin (esr_file_header (result_ d))) (modules_ d) (fst l));
  modify (λ d, d <| modules_ := tables |>) ;;
  include_monotonic_end (previous_module_ticks_ tables) ;;
  mark_if (snd l) mark_unknown_record_skipped ;;
  each publish_module (fst l).

(** ** Stacks *)

Definition validate_frame (states : gmap Z ModuleState) (frame : StackFrame) : result exn unit :=
  if negb (is_valid (sf_module_id frame)) then Ok tt else
  match states !! sf_module_id frame with
  | None => analysis_error "StackDefinition references an unknown module generation"
  | Some state =>
      analysis_error_if
        ((ml_image_size (mst_load state) <=? sf_module_offset frame) ||
         negb (wrap64 (ml_base_address (mst_load state) + sf_module_offset frame) =?
               sf_absolute_address frame))
        "StackDefinition module-relative frame is inconsistent"
  end.

Record StackLocals : Set := {
  definitions : list StackDefinition;
  chunk_ids : gset Z;
  stacks_skipped_unknown : bool;
}.

Definition stack_record (l : StackLocals) (record : RecordView) : decoding StackLocals :=
  decoded ← throws (decode_stack_definition_record record);
  d ← get_state;
  match decoded with
  | None => mret {| definitions := definitions l; chunk_ids := chunk_ids l; stacks_skipped_unknown := true |}
  | Some definition =>
      let stack_id := sd_stack_id definition in
      throws (analysis_error_if (bool_decide (stack_id ∈ stack_ids_ d) || bool_decide (stack_id ∈ chunk_ids l))
                "trace contains a duplicate StackDefinition ID") ;;
      throws (for_each (validate_frame (module_states_ (modules_ d))) (sd_frames definition)) ;;
      mret {| definitions := definitions l ++ [definition]; chunk_ids := {[stack_id]} ∪ chunk_ids l;
              stacks_skipped_unknown := stacks_skipped_unknown l |}
  end.

Definition publish_stack (definition : StackDefinition) : decoding unit :=
  modify (λ d, d <| stack_ids_ := {[sd_stack_id definition]} ∪ stack_ids_ d |>) ;;
  d ← get_state;
  count ← throws (checked_increment (stack_definition_count (result_ d)) "stack definition");
  set_result (λ r, r <| stack_definition_count := count |>) ;;
  notify (on_stack_definition definition).

Definition no_stacks : StackLocals :=
  {| definitions := []; chunk_ids := ∅; stacks_skipped_unknown := false |}.

Definition process_stacks (payload : bytes) : decoding unit :=
  require_capture_scope "StackDefinition appears before CaptureScope" ;;
  l ← each_record payload no_stacks stack_record;
  mark_if (stacks_skipped_unknown l) mark_unknown_record_skipped ;;
  each publish_stack (definitions l).

(** ** Events *)

Record EventLocals : Set := {
  event_records : list EventChunkRecord;
  bounds : RecordBounds;
  events_skipped_unknown : bool;
  previous_sequence : Z;
  previous_ticks : Z;
  has_previous_event : bool;
}.

#[global] Instance EventLocals_members : Members EventLocals := λ l,
  {| event_records := event_records l; bounds := bounds l;
     events_skipped_unknown := events_skipped_unknown l; previous_sequence := previous_sequence l;
     previous_ticks := previous_ticks l; has_previous_event := has_previous_event l |}.

(** The checks of the loop, for a trace that starts at [origin]. *)
Definition check_event_record (origin : Z) (l : EventLocals) (record : EventChunkRecord)
    : result exn EventLocals :=
  l ← match record with
      | EventChunk_Event event =>
          let ticks := monotonic_ticks (ev_header event) in
          let seq := sequence (ev_header event) in
          analysis_error_if (ticks <? origin) "event monotonic time precedes the trace origin" ;;
          analysis_error_if (has_previous_event l && (seq <=? previous_sequence l))
            "event sequences are not strictly increasing" ;;
          analysis_error_if (has_previous_event l && (ticks <? previous_ticks l))
            "event monotonic ticks move backwards" ;;
          Ok (l <| previous_sequence := seq |> <| previous_ticks := ticks |>
                <| has_previous_event := true |>
                <| bounds := include_ticks ticks (include_sequence seq seq (bounds l)) |>)
      | EventChunk_Loss loss =>
          let covered :=
            match sequence_range loss with
            | Some range => include_sequence (sr_begin range) (sr_end range) (bounds l)
            | None => bounds l
            end in
          match tick_range loss with
          | Some range =>
              analysis_error_if (tr_begin range <? origin)
                "Loss tick range precedes the trace origin" ;;
              Ok (l <| bounds := include_ticks (tr_end range) covered |>)
          | None => Ok (l <| bounds := covered |>)
          end
      end;
  Ok (l <| event_records := event_records l ++ [record] |>).

Definition event_record (l : EventLocals) (record : RecordView) : decoding EventLocals :=
  decoded ← throws (decode_event_chunk_record record);
  d ← get_state;
  match decoded with
  | None => mret (l <| events_skipped_unknown := true |>)
  | Some record =>
      throws (check_event_record (monotonic_origin (esr_file_header (result_ d))) l record)
  end.

Definition include_known_bounds (bounds : RecordBounds) : decoding unit :=
  set_result (λ r,
    (if known_sequence_end r <? bounds_end bounds
     then r <| known_sequence_end := bounds_end bounds |> else r)) ;;
  include_monotonic_end (maximum_ticks bounds).

Definition publish_event (record : EventChunkRecord) : decoding unit :=
  d ← get_state;
  match record with
  | EventChunk_Event event =>
      let api := api_id (ev_header event) in
      count ← throws (checked_increment (event_count (result_ d)) "event");
      set_result (λ r, r <| event_count := count |>) ;;
      let known := default 0 (events_per_api_ d !! api) in
      modify (λ d, d <| events_per_api_ := <[api := known]> (events_per_api_ d) |>) ;;
      api_count ← throws (checked_increment known "per-API event");
      modify (λ d, d <| events_per_api_ := <[api := api_count]> (events_per_api_ d) |>) ;;
      notify (on_event event)
  | EventChunk_Loss loss =>
      count ← throws (checked_increment (loss_record_count (result_ d)) "Loss record");
      set_result (λ r, r <| loss_record_count := count |>) ;;
      mark_or_pend (λ tracker, observe_loss tracker loss) id ;;
      notify (on_loss loss)
  end.

Definition require_no_statistics : decoding unit :=
  d ← get_state;
  throws (analysis_error_if (has_value (esr_statistics (result_ d)))
            "trace contains events after CaptureStatistics").

Definition process_events (descriptor : ChunkDescriptor) (payload : bytes) : decoding unit :=
  require_capture_scope "event chunk appears before CaptureScope" ;;
  require_no_statistics ;;
  d ← get_state;
  l ← each_record payload
        {| event_records := []; bounds := no_bounds; events_skipped_unknown := false;
           previous_sequence := previous_event_sequence_ d;
           previous_ticks := previous_event_ticks_ d; has_previous_event := saw_event_ d |}
        event_record;
  throws (validate_event_sequence_range descriptor (bounds l) (events_skipped_unknown l)) ;;
  mark_if (events_skipped_unknown l) mark_unknown_event_data ;;
  modify (λ d, d <| previous_event_sequence_ := previous_sequence l |>
                 <| previous_event_ticks_ := previous_ticks l |>
                 <| saw_event_ := has_previous_event l |>) ;;
  include_known_bounds (bounds l) ;;
  each publish_event (event_records l).

(** ** Memory snapshots *)

Record MemoryLocals : Set := {
  counters_records : list MemoryCounters;
  map_records : list MemoryMap;
  agent_records : list AgentMemory;
  memory_skipped_unknown : bool;
  previous_memory_ticks : Z;
}.

#[global] Instance MemoryLocals_members : Members MemoryLocals := λ l,
  {| counters_records := counters_records l; map_records := map_records l;
     agent_records := agent_records l; memory_skipped_unknown := memory_skipped_unknown l;
     previous_memory_ticks := previous_memory_ticks l |}.

Definition check_memory_ticks (origin previous ticks : Z) (subject : string) : result exn unit :=
  analysis_error_if (ticks <? origin) (subject +:+ " monotonic time precedes the trace origin") ;;
  analysis_error_if (ticks <? previous) "memory record monotonic ticks move backwards".

Definition memory_record (l : MemoryLocals) (record : RecordView) : decoding MemoryLocals :=
  decoded ← throws (decode_memory_record record);
  d ← get_state;
  let check_ticks := check_memory_ticks (monotonic_origin (esr_file_header (result_ d)))
                       (previous_memory_ticks l) in
  match decoded with
  | Some (inl counters) =>
      throws (check_ticks (mc_monotonic_ticks counters) "memory counters") ;;
      mret (l <| previous_memory_ticks := mc_monotonic_ticks counters |>
              <| counters_records := counters_records l ++ [counters] |>)
  | Some (inr (inl map)) =>
      throws (check_ticks (mm_monotonic_ticks map) "memory map") ;;
      mret (l <| previous_memory_ticks := mm_monotonic_ticks map |>
              <| map_records := map_records l ++ [map] |>)
  | Some (inr (inr agent)) =>
      throws (check_ticks (am_monotonic_ticks agent) "agent memory") ;;
      mret (l <| previous_memory_ticks := am_monotonic_ticks agent |>
              <| agent_records := agent_records l ++ [agent] |>)
  | None => mret (l <| memory_skipped_unknown := true |>)
  end.

Definition publish_counters (counters : MemoryCounters) : decoding unit :=
  d ← get_state;
  count ← throws (checked_increment (memory_counters_count (result_ d)) "memory counters");
  set_result (λ r, r <| memory_counters_count := count |>) ;;
  notify (on_memory_counters counters).
Definition publish_map (map : MemoryMap) : decoding unit :=
  d ← get_state;
  count ← throws (checked_increment (memory_map_count (result_ d)) "memory map");
  set_result (λ r, r <| memory_map_count := count |>) ;;
  notify (on_memory_map map).
Definition publish_agent (agent : AgentMemory) : decoding unit :=
  d ← get_state;
  count ← throws (checked_increment (memory_agent_count (result_ d)) "agent memory");
  set_result (λ r, r <| memory_agent_count := count |>) ;;
  notify (on_agent_memory agent).

Definition process_memory (payload : bytes) : decoding unit :=
  require_capture_scope "memory record appears before CaptureScope" ;;
  d ← get_state;
  l ← each_record payload
        {| counters_records := []; map_records := []; agent_records := [];
           memory_skipped_unknown := false; previous_memory_ticks := previous_memory_ticks_ d |}
        memory_record;
  mark_if (memory_skipped_unknown l) mark_unknown_record_skipped ;;
  modify (λ d, d <| previous_memory_ticks_ := previous_memory_ticks l |>) ;;
  each publish_counters (counters_records l) ;;
  each publish_map (map_records l) ;;
  each publish_agent (agent_records l).

(** ** Statistics and the end of the trace *)

(** The loop of both: at most one record, and none after [already]. *)
Definition single_record {A} (decode : RecordView → result exn (option A)) (already : bool)
    (message : string) (l : option A * bool) (record : RecordView) : decoding (option A * bool) :=
  decoded ← throws (decode record);
  match decoded with
  | None => mret (fst l, true)
  | Some a =>
      throws (analysis_error_if (has_value (fst l) || already) message) ;;
      mret (Some a, snd l)
  end.

(** What was recorded of what was observed; the subtractions of the source wrap. *)
Definition recorded_calls (observed filtered dropped : Z) : Z :=
  wrap64 (wrap64 (observed - filtered) - dropped).

Definition recorded_of_api (api : ApiStatistics) : Z :=
  recorded_calls (as_observed_calls api) (as_filtered_before_queue api) (as_dropped_events api).

(** [statistics_per_api]: [emplace] keeps the first entry of an api. *)
Fixpoint statistics_per_api (apis : list ApiStatistics) : gmap Z Z :=
  match apis with
  | [] => ∅
  | api :: apis => <[as_api_id api := recorded_of_api api]> (statistics_per_api apis)
  end.

(** The records can only be fewer than recorded if some were not understood. *)
Definition count_mismatch (may_have_unknown : bool) (recorded known : Z) : bool :=
  (recorded <? known) || (negb may_have_unknown && negb (recorded =? known)).

Definition check_statistics (statistics : CaptureStatistics) (d : EventStreamDecoder)
    : result exn unit :=
  analysis_error_if
    (count_mismatch (may_have_unknown_events_ d)
       (recorded_calls (observed_calls statistics) (filtered_before_queue statistics)
          (dropped_events statistics))
       (event_count (result_ d)))
    "CaptureStatistics does not match decoded event count" ;;
  analysis_error_if
    (existsb (λ api_known,
       match statistics_per_api (per_api statistics) !! fst api_known with
       | None => true
       | Some recorded => count_mismatch (may_have_unknown_events_ d) recorded (snd api_known)
       end) (map_to_list (events_per_api_ d)))
    "CaptureStatistics does not match decoded per-API events".

Definition process_statistics (payload : bytes) : decoding unit :=
  require_capture_scope "CaptureStatistics appears before CaptureScope" ;;
  d ← get_state;
  l ← each_record payload (None, false)
        (single_record decode_statistics_record (has_value (esr_statistics (result_ d)))
           "trace contains more than one CaptureStatistics record");
  mark_if (snd l) mark_unknown_record_skipped ;;
  match fst l with
  | None => mret tt
  | Some statistics =>
      d ← get_state;
      throws (check_statistics statistics d) ;;
      set_result (λ r, r <| esr_statistics := Some statistics |>) ;;
      notify (on_statistics statistics)
  end.

Definition check_end_of_trace (e : EndOfTrace) (r : EventStreamResult) : result exn unit :=
  analysis_error_if (final_monotonic_ticks e <? monotonic_origin (esr_file_header r))
    "EndOfTrace monotonic time precedes the trace origin" ;;
  analysis_error_if ((final_sequence e <? known_sequence_end r) ||
                     (final_monotonic_ticks e <? known_monotonic_end r))
    "EndOfTrace precedes decoded event or Loss bounds".

Definition process_end_of_trace (payload : bytes) : decoding unit :=
  require_capture_scope "EndOfTrace appears before CaptureScope" ;;
  d ← get_state;
  l ← each_record payload (None, false)
        (single_record decode_end_of_trace_record (has_value (esr_end_of_trace (result_ d)))
           "trace contains more than one EndOfTrace record");
  mark_if (snd l) mark_unknown_record_skipped ;;
  match fst l with
  | None => mret tt
  | Some e =>
      d ← get_state;
      throws (check_end_of_trace e (result_ d)) ;;
      mark_or_pend (λ tracker, observe_end_of_trace tracker e) id ;;
      set_result (λ r, r <| esr_end_of_trace := Some e |>) ;;
      notify (on_end_of_trace e)
  end.

(** ** Chunks *)

Definition include_future_event_range (descriptor : ChunkDescriptor) : decoding unit :=
  set_result (λ r,
    if known_sequence_end r <? sequence_end descriptor
    then r <| known_sequence_end := sequence_end descriptor |> else r).

Definition chunk_type_is (s t : ChunkType) : bool := bool_decide (s = t).

Definition process_chunk (chunk : TraceChunk) : decoding unit :=
  let descriptor := descriptor (tc_header chunk) in
  let payload := tc_payload chunk in
  let plain (process : bytes → decoding unit) :=
    throws (require_empty_sequence_range descriptor) ;; process payload in
  mark_if (negb (cd_flags descriptor =? 0)) mark_partially_understood ;;
  mark_if (chunk_type_is (cd_type descriptor) Chunk_kEvent)
    (require_capture_scope "event chunk appears before CaptureScope" ;; require_no_statistics) ;;
  if negb (cd_version descriptor =? 1) then
    mark_partially_understood ;;
    (if chunk_type_is (cd_type descriptor) Chunk_kEvent
     then mark_unknown_event_data ;; include_future_event_range descriptor
     else mark_unknown_record_skipped) ;;
    mark_if (chunk_type_is (cd_type descriptor) Chunk_kEnd)
      (modify (λ d, d <| saw_end_chunk_ := true |>))
  else
    match cd_type descriptor with
    | Chunk_kMetadata => plain process_metadata
    | Chunk_kModule => plain process_modules
    | Chunk_kStack => plain process_stacks
    | Chunk_kEvent => process_events descriptor payload
    | Chunk_kMemory => plain process_memory
    | Chunk_kStatistics => plain process_statistics
    | Chunk_kEnd => plain process_end_of_trace ;; modify (λ d, d <| saw_end_chunk_ := true |>)
    end.

(** ** The run *)

Section run.
Context {L : CompressionLibrary}.

(** One turn of the loop of [run]; [false] is the [break]. *)
Definition run_turn : decoding bool :=
  read_result ← reader_call read_next_chunk;
  synchronize_reader_understanding ;;
  match crr_status read_result with
  | Status_kEndOfFile => mret false
  | Status_kTruncated =>
      set_result (λ r, r <| truncated := true |>) ;; mark_trace_truncated ;; mret false
  | Status_kChunk =>
      match crr_chunk read_result with
      | None => throws (analysis_error "trace reader returned a chunk status without a chunk")
      | Some chunk =>
          d ← get_state;
          throws (analysis_error_if (saw_end_chunk_ d) "trace contains a chunk after EndOfTrace") ;;
          process_chunk chunk ;; mret true
      end
  end.

Fixpoint run_loop (fuel : nat) : decoding unit :=
  match fuel with
  | O => pure (Throw OutOfFuel)
  | S fuel => again ← run_turn; if (again : bool) then run_loop fuel else mret tt
  end.

Definition run_result (d : EventStreamDecoder) : result exn EventStreamResult :=
  match capture_scope_ d, completeness_ d with
  | Some scope, Some tracker =>
      let r := result_ d in
      Ok (r <| esr_capture_scope := scope |> <| esr_completeness := report tracker |>
            <| esr_bytes_read := bytes_read_ (reader_ d) |>
            <| partially_understood := match understanding_state (report tracker) with
                                       | kPartial => true | kFull => false end |>)
  | _, _ => analysis_error "trace does not contain a CaptureScope record"
  end.

(** Each chunk takes a byte of the input. *)
Definition run : decoding EventStreamResult :=
  d ← get_state;
  notify (on_file_header (esr_file_header (result_ d))) ;;
  synchronize_reader_understanding ;;
  run_loop (S (length (in_bytes (input_ (reader_ d))))) ;;
  d ← get_state;
  throws (run_result d).

Definition empty_result (header : FileHeader) : EventStreamResult :=
  {| esr_file_header := header;
     esr_capture_scope := {| started_at_process_start := false; preexisting_allocations_unknown := true |};
     esr_custom_hooks := []; esr_custom_hook_failures := []; esr_statistics := None;
     esr_end_of_trace := None; esr_completeness := from_mask 0; known_sequence_end := 0;
     known_monotonic_end := 0; event_count := 0; module_load_count := 0; module_unload_count := 0;
     stack_definition_count := 0; loss_record_count := 0; memory_counters_count := 0;
     memory_map_count := 0; memory_agent_count := 0; esr_buffer_configuration := None;
     esr_bytes_read := 0; truncated := false; partially_understood := false |}.

Definition EventStreamDecoder_new (header : FileHeader) (reader : TraceReader) (record_size : Z)
    : EventStreamDecoder :=
  {| reader_ := reader; stream_record_size_ := record_size; result_ := empty_result header;
     capture_scope_ := None; completeness_ := None; custom_hook_api_ids_ := ∅;
     events_per_api_ := ∅;
     modules_ := {| module_states_ := ∅; live_modules_ := []; previous_module_ticks_ := 0 |};
     stack_ids_ := ∅; previous_event_sequence_ := 0; previous_event_ticks_ := 0;
     previous_memory_ticks_ := 0; saw_event_ := false; saw_end_chunk_ := false;
     may_have_unknown_events_ := false; reader_partial_marked_ := false;
     pending_unknown_record_ := false; pending_partial_format_ := false;
     pending_truncated_ := false; pending_custom_hook_failure_ := false; calls := [] |}.

(** The result and the calls made until then. *)
Definition analyze_event_stream (input : istream) (options : EventStreamOptions)
    : result fault EventStreamResult * list StreamCall :=
  match TraceReader_new input (reader_options options) with
  | Throw e => (Throw e, [])
  | Ok (header, reader) =>
      let '(r, d) := run (EventStreamDecoder_new header reader (maximum_record_size options)) in
      (r, calls d)
  end.

End run.
