(* ===== verification/StreamContract.v ===== *)
(** * What the callbacks of an event stream are told

    The contract between the decoder of EventStream.v and the analyses built on
    it: [allowed] says after which calls another call may come.  The module
    tables of the decoder are shown to be what the calls say. *)

From S2P Require Import Prelude Bytes WireFormat Compression RecordInterface Event Completeness TraceData EventCodec DictionaryCodec TraceReader OrderedMap EventStream.

(** ** The calls of each kind *)

Abbreviation log := (list StreamCall).

Definition scopes_of : log → list CaptureScope :=
  omap (λ c, match c with on_capture_scope s => Some s | _ => None end).
Definition hooks_of : log → list Z :=
  omap (λ c, match c with on_custom_hook_definition d => Some (chd_api_id d) | _ => None end).
Definition modules_of : log → list ModuleRecord :=
  omap (λ c, match c with
             | on_module_load l => Some (ModuleRecord_Load l)
             | on_module_unload u => Some (ModuleRecord_Unload u)
             | _ => None
             end).
Definition loads_of : log → list ModuleLoad :=
  omap (λ c, match c with on_module_load l => Some l | _ => None end).
Definition unloads_of : log → list ModuleUnload :=
  omap (λ c, match c with on_module_unload u => Some u | _ => None end).
Definition stacks_of : log → list Z :=
  omap (λ c, match c with on_stack_definition d => Some (sd_stack_id d) | _ => None end).
Definition events_of : log → list Event :=
  omap (λ c, match c with on_event e => Some e | _ => None end).
Definition losses_of : log → list LossRecord :=
  omap (λ c, match c with on_loss l => Some l | _ => None end).
Definition counters_of : log → list MemoryCounters :=
  omap (λ c, match c with on_memory_counters m => Some m | _ => None end).
Definition maps_of : log → list MemoryMap :=
  omap (λ c, match c with on_memory_map m => Some m | _ => None end).
Definition agents_of : log → list AgentMemory :=
  omap (λ c, match c with on_agent_memory m => Some m | _ => None end).
Definition statistics_of : log → list CaptureStatistics :=
  omap (λ c, match c with on_statistics s => Some s | _ => None end).
Definition ends_of : log → list EndOfTrace :=
  omap (λ c, match c with on_end_of_trace e => Some e | _ => None end).

(** ** The modules known after some calls *)

Definition note_module (states : gmap Z ModuleState) (record : ModuleRecord) : gmap Z ModuleState :=
  match record with
  | ModuleRecord_Load load => <[ml_module_id load := {| mst_load := load; mst_live := true |}]> states
  | ModuleRecord_Unload unload =>
      alter (λ s, {| mst_load := mst_load s; mst_live := false |}) (mu_module_id unload) states
  end.

Definition modules_known (records : list ModuleRecord) : gmap Z ModuleState :=
  foldl note_module ∅ records.

Definition disjoint_loads (l k : ModuleLoad) : Prop :=
  ml_base_address l + ml_image_size l ≤ ml_base_address k ∨
  ml_base_address k + ml_image_size k ≤ ml_base_address l.

Definition module_allowed (origin : Z) (records : list ModuleRecord) (record : ModuleRecord) : Prop :=
  origin ≤ module_record_ticks record ∧
  Forall (λ r, module_record_ticks r ≤ module_record_ticks record) records ∧
  match record with
  | ModuleRecord_Load load =>
      modules_known records !! ml_module_id load = None ∧
      ∀ id state, modules_known records !! id = Some state → mst_live state = true →
        disjoint_loads (mst_load state) load
  | ModuleRecord_Unload unload =>
      ∃ state, modules_known records !! mu_module_id unload = Some state ∧ mst_live state = true
  end.

(** A frame with a module lies in that module, loaded before. *)
Definition frame_resolved (states : gmap Z ModuleState) (frame : StackFrame) : Prop :=
  sf_module_id frame ≠ 0 →
  ∃ state, states !! sf_module_id frame = Some state ∧
    sf_module_offset frame < ml_image_size (mst_load state) ∧
    sf_absolute_address frame = ml_base_address (mst_load state) + sf_module_offset frame.

(** ** Which call may come after which *)

Definition api_of (e : Event) : Z := api_id (ev_header e).
Definition ticks_of (e : Event) : Z := monotonic_ticks (ev_header e).
Definition sequence_of (e : Event) : Z := sequence (ev_header e).

Definition count_api (api : Z) (events : list Event) : Z :=
  size_of (filter (λ e, api_of e = api) events).

Definition in_scope (pre : log) : Prop := scopes_of pre ≠ [].

Definition allowed (header : FileHeader) (pre : log) (c : StreamCall) : Prop :=
  let origin := monotonic_origin header in
  ends_of pre = [] ∧
  match c with
  | on_file_header h => pre = [] ∧ h = header
  | on_capture_scope _ => pre ≠ [] ∧ scopes_of pre = []
  | on_custom_hook_definition d => pre ≠ [] ∧ chd_api_id d ∉ hooks_of pre
  | on_custom_hook_failure _ => pre ≠ []
  | on_module_load l =>
      in_scope pre ∧ ModuleLoad_valid l ∧ module_allowed origin (modules_of pre) (ModuleRecord_Load l)
  | on_module_unload u =>
      in_scope pre ∧ module_allowed origin (modules_of pre) (ModuleRecord_Unload u)
  | on_stack_definition d =>
      in_scope pre ∧ (sd_stack_id d ∉ stacks_of pre) ∧
      Forall (frame_resolved (modules_known (modules_of pre))) (sd_frames d)
  | on_event e =>
      in_scope pre ∧ statistics_of pre = [] ∧ Event_valid e ∧ origin ≤ ticks_of e ∧
      Forall (λ e', sequence_of e' < sequence_of e ∧ ticks_of e' ≤ ticks_of e) (events_of pre)
  | on_loss _ => in_scope pre ∧ statistics_of pre = []
  | on_memory_counters m =>
      in_scope pre ∧ origin ≤ mc_monotonic_ticks m ∧
      Forall (λ m', mc_monotonic_ticks m' ≤ mc_monotonic_ticks m) (counters_of pre)
  | on_memory_map m =>
      in_scope pre ∧ origin ≤ mm_monotonic_ticks m ∧
      Forall (λ m', mm_monotonic_ticks m' ≤ mm_monotonic_ticks m) (maps_of pre)
  | on_agent_memory m =>
      in_scope pre ∧ origin ≤ am_monotonic_ticks m ∧
      Forall (λ m', am_monotonic_ticks m' ≤ am_monotonic_ticks m) (agents_of pre)
  | on_statistics s =>
      in_scope pre ∧ statistics_of pre = [] ∧
      (size_of (events_of pre) ≤
       recorded_calls (observed_calls s) (filtered_before_queue s) (dropped_events s)) ∧
      ∀ api, (count_api api (events_of pre) ≤ default 0 (statistics_per_api (per_api s) !! api))
  | on_end_of_trace e =>
      in_scope pre ∧ origin ≤ final_monotonic_ticks e ∧
      Forall (λ e', sequence_of e' ≤ final_sequence e ∧ ticks_of e' ≤ final_monotonic_ticks e) (events_of pre) ∧
      Forall (λ r, module_record_ticks r ≤ final_monotonic_ticks e) (modules_of pre)
  end.

(** Every call was allowed after the calls before it. *)
Definition log_ok (header : FileHeader) (l : log) : Prop :=
  ∀ pre c post, l = pre ++ c :: post → allowed header pre c.

Lemma log_ok_nil h : log_ok h [].
Proof. intros [|] ?? [=]. Qed.

Lemma log_ok_snoc h l c : log_ok h l → allowed h l c → log_ok h (l ++ [c]).
Proof.
  intros Hl Hc pre c' post E. destruct post as [|x post _] using rev_ind.
  - apply app_inj_tail in E as [-> ->]. done.
  - rewrite app_comm_cons, app_assoc in E. apply app_inj_tail in E as [-> ->].
    by eapply Hl.
Qed.

Lemma log_ok_prefix h l k : log_ok h (l ++ k) → log_ok h l.
Proof. intros H pre c post ->. apply (H pre c (post ++ k)). by rewrite <- app_assoc. Qed.

Lemma log_ok_allowed h l c k : log_ok h (l ++ c :: k) → allowed h l c.
Proof. intros H. by apply (H l c k). Qed.

(** ** The module tables *)

Lemma lower_bound_split {V} k (m : ordered_map V) : sorted_keys m →
  ∃ p q, m = p ++ q ∧ below k p ∧ Forall (λ x, k ≤ x.1) q ∧ lower_bound k m = begin q.
Proof.
  intros Hm. destruct (sorted_split m (λ k', k' <? k)) as (p & q & -> & Hp & Hq).
  { intros ??? ?%Z.ltb_lt. apply Z.ltb_lt. lia. }
  { done. }
  assert (Hp' : below k p) by (eapply Forall_impl; [exact Hp|]; intros x ?%Z.ltb_lt; lia).
  assert (Hq' : Forall (λ x, k ≤ x.1) q) by (eapply Forall_impl; [exact Hq|]; intros x ?%Z.ltb_ge; lia).
  exists p, q. split_and!; [done..|]. clear Hm Hp Hq. induction Hp' as [|[k' v] p Hk _ IH]; cbn in *.
  - destruct q as [|[k' v] q]; [done|]. apply Forall_cons in Hq' as [Hk _]. cbn in *.
    by rewrite (proj2 (Z.leb_le _ _)).
  - by rewrite (proj2 (Z.leb_gt _ _)).
Qed.

Definition range_ok (l : ModuleLoad) : Prop :=
  0 < ml_base_address l ∧ 0 < ml_image_size l ∧ ml_base_address l + ml_image_size l ≤ u64_max.

Lemma load_range_ok l : ModuleLoad_valid l → range_ok l.
Proof.
  intros ((_ & _ & Hb & Hs & _) & _ & _ & Hv). unfold validate_module_load in Hv. inv_ok. bool_facts.
  destruct_and?. unfold range_ok. word.
Qed.

Definition live_at (states : gmap Z ModuleState) (id : Z) (l : ModuleLoad) : Prop :=
  states !! id = Some {| mst_load := l; mst_live := true |}.

Record tables_ok (records : list ModuleRecord) (t : ModuleTables) : Prop := {
  tables_states : module_states_ t = modules_known records;
  tables_ranges id state : module_states_ t !! id = Some state → range_ok (mst_load state);
  tables_sorted : sorted_keys (live_modules_ t);
  tables_find base id : om_find base (live_modules_ t) = Some id ↔
    ∃ l, live_at (module_states_ t) id l ∧ ml_base_address l = base;
  tables_disjoint id id' l l' : id ≠ id' → live_at (module_states_ t) id l →
    live_at (module_states_ t) id' l' → disjoint_loads l l';
  tables_ticks : Forall (λ r, module_record_ticks r ≤ previous_module_ticks_ t) records;
}.

Lemma tables_ok_new :
  tables_ok [] {| module_states_ := ∅; live_modules_ := []; previous_module_ticks_ := 0 |}.
Proof.
  split; cbn; try done.
  - constructor.
  - intros base id. split; [done|]. intros (l & Hl & _). done.
Qed.

(** The two neighbours of a free range decide about all the live ranges. *)
Lemma module_range_free records t load : tables_ok records t → range_ok load →
  validate_module_range load (live_modules_ t) (module_states_ t) = Ok tt →
  ∀ id l, live_at (module_states_ t) id l → disjoint_loads l load.
Proof.
  intros Ht Hload Hv id l Hl. destruct (lower_bound_split (ml_base_address load) _ (tables_sorted _ _ Ht))
    as (p & q & Hm & Hp & Hq & Hnext).
  pose proof (proj2 (tables_find _ _ Ht (ml_base_address l) id) (ex_intro _ l (conj Hl eq_refl))) as Hfind.
  pose proof (tables_sorted _ _ Ht) as Hsorted.
  assert (Hentry : ∀ k id', (k, id') ∈ p ++ q → ∃ l', live_at (module_states_ t) id' l' ∧ ml_base_address l' = k).
  { intros k id' Hin. apply (tables_find _ _ Ht). rewrite Hm in *.
    apply list_elem_of_split in Hin as (p1 & q1 & E). rewrite E in *. by apply om_find_mid. }
  assert (Hrange : ∀ id' l', live_at (module_states_ t) id' l' → range_ok l') by
    (intros id' l' H; exact (tables_ranges _ _ Ht _ _ H)).
  pose proof (Hrange _ _ Hl) as Hrl.
  unfold validate_module_range in Hv. rewrite Hnext in Hv.
  rewrite Hm in Hfind. apply om_find_elem, elem_of_app in Hfind.
  assert (Hstate : ∀ k id' l', (k, id') ∈ p ++ q → live_at (module_states_ t) id' l' →
    module_at (live_modules_ t) (module_states_ t) (Some k) = Some {| mst_load := l'; mst_live := true |}).
  { intros k id' l' Hin Hl'. unfold module_at. cbn. rewrite Hm in *.
    apply list_elem_of_split in Hin as (p1 & q1 & E). rewrite E in *. by rewrite om_find_mid. }
  unfold range_ok in *. unfold disjoint_loads.
  apply bind_ok in Hv as ([] & Hv1 & Hv2).
  destruct Hfind as [Hin|Hin].
  - destruct p as [|[k' id'] p' _] using rev_ind; [by apply not_elem_of_nil in Hin|].
    destruct (Hentry k' id') as (l' & Hl' & Hk'); [set_solver|].
    assert (Hm' : live_modules_ t = p' ++ (k', id') :: q) by (by rewrite Hm, <- app_assoc).
    rewrite Hm' in Hsorted. rewrite bool_decide_false in Hv2
      by (rewrite Hm'; by apply (begin_app_ne p' (k', id') q)).
    assert (Hprev : om_prev (begin q) (live_modules_ t) = Some k')
      by (rewrite Hm'; exact (om_prev_mid p' (k', id') q Hsorted)).
    cbn [negb] in Hv2. rewrite Hprev in Hv2.
    rewrite (Hstate k' id' l') in Hv2 by (done || set_solver). unfold analysis_error_if in Hv2.
    apply throw_if_ok in Hv2. cbn in Hv2. apply Z.ltb_ge in Hv2. pose proof (Hrange _ _ Hl').
    rewrite wrap64_small in Hv2 by word.
    destruct (decide (id = id')) as [->|Hne]; [unfold live_at in *; simplify_eq; lia|].
    pose proof (tables_disjoint _ _ Ht _ _ _ _ Hne Hl Hl') as Hd. unfold disjoint_loads in Hd.
    assert (ml_base_address l ≤ k'); [|lia].
    apply elem_of_app in Hin as [Hin|Hin]; [|apply list_elem_of_singleton in Hin; simplify_eq; lia].
    apply sorted_keys_mid in Hsorted as (Hb & _). apply Forall_forall with (x := (ml_base_address l, id)) in Hb; [|done].
    cbn in Hb. lia.
  - destruct q as [|[k' id'] q]; [by apply not_elem_of_nil in Hin|].
    destruct (Hentry k' id') as (l' & Hl' & Hk'); [set_solver|].
    cbn [begin keys fmap list_fmap head fst] in Hv1. rewrite bool_decide_false in Hv1 by done. cbn [negb] in Hv1.
    rewrite (Hstate k' id' l') in Hv1 by (done || set_solver). unfold analysis_error_if in Hv1.
    apply throw_if_ok in Hv1. cbn in Hv1. apply Z.ltb_ge in Hv1.
    rewrite wrap64_small in Hv1 by word. right. assert (k' ≤ ml_base_address l); [|lia].
    apply elem_of_cons in Hin as [Hin|Hin]; [simplify_eq; lia|].
    rewrite Hm in Hsorted. apply sorted_keys_mid in Hsorted as (_ & Ha & _).
    apply Forall_forall with (x := (ml_base_address l, id)) in Ha; [|done]. cbn in Ha. lia.
Qed.

Lemma live_at_insert states id st id' l :
  live_at (<[id := st]> states) id' l ↔
  id = id' ∧ st = {| mst_load := l; mst_live := true |} ∨ id ≠ id' ∧ live_at states id' l.
Proof. unfold live_at. rewrite lookup_insert_Some. naive_solver. Qed.

Lemma modules_known_snoc records r : modules_known (records ++ [r]) = note_module (modules_known records) r.
Proof. unfold modules_known. by rewrite foldl_app. Qed.

Lemma tables_loaded records t l ticks : tables_ok records t → range_ok l →
  module_states_ t !! ml_module_id l = None → om_find (ml_base_address l) (live_modules_ t) = None →
  (∀ id l', live_at (module_states_ t) id l' → disjoint_loads l' l) →
  previous_module_ticks_ t ≤ ticks → ticks = ml_monotonic_ticks l →
  tables_ok (records ++ [ModuleRecord_Load l])
    {| module_states_ := <[ml_module_id l := {| mst_load := l; mst_live := true |}]> (module_states_ t);
       live_modules_ := emplace (ml_base_address l) (ml_module_id l) (live_modules_ t);
       previous_module_ticks_ := ticks |}.
Proof.
  intros Ht Hl Hnew Hbase Hfree Hticks ->. pose proof (tables_sorted _ _ Ht) as Hsorted.
  split; cbn [module_states_ live_modules_ previous_module_ticks_].
  - by rewrite modules_known_snoc, (tables_states _ _ Ht).
  - intros id st [[_ <-]|[_ Hst]]%lookup_insert_Some; [done|]. by apply (tables_ranges _ _ Ht id).
  - by apply sorted_emplace.
  - intros base id. rewrite om_find_emplace by done. setoid_rewrite live_at_insert.
    pose proof (tables_find _ _ Ht base id) as Hfind. case_decide as Hb.
    + rewrite <- Hb in *. rewrite Hbase in Hfind. split; [intros [= <-]; eauto 10|].
      intros (l' & [[-> _]|[Hne Hl']] & E); [done|]. assert (@None Z = Some id); [|done].
      apply Hfind. by exists l'.
    + rewrite Hfind. split; intros (l' & Hl' & E); exists l'; (split; [|done]).
      * right. split; [|done]. intros <-. unfold live_at in Hl'. congruence.
      * destruct Hl' as [[_ [= ->]]|[_ ?]]; [by subst|done].
  - intros id id' k k' Hne. rewrite !live_at_insert.
    intros [[<- [= <-]]|[? Hk]] [[<- [= <-]]|[? Hk']]; [done| | |by apply (tables_disjoint _ _ Ht id id')].
    + destruct (Hfree _ _ Hk'); unfold disjoint_loads; tauto.
    + by apply (Hfree id).
  - apply Forall_app. split; [|by constructor].
    eapply Forall_impl; [apply (tables_ticks _ _ Ht)|]. intros r Hr. cbn in *. lia.
Qed.

Lemma tables_unloaded records t u l : tables_ok records t →
  live_at (module_states_ t) (mu_module_id u) l → previous_module_ticks_ t ≤ mu_monotonic_ticks u →
  tables_ok (records ++ [ModuleRecord_Unload u])
    {| module_states_ := <[mu_module_id u := {| mst_load := l; mst_live := false |}]> (module_states_ t);
       live_modules_ := erase (ml_base_address l) (live_modules_ t);
       previous_module_ticks_ := mu_monotonic_ticks u |}.
Proof.
  intros Ht Hl Hticks. split; cbn [module_states_ live_modules_ previous_module_ticks_].
  - rewrite modules_known_snoc, <- (tables_states _ _ Ht). cbn [note_module]. apply map_eq. intros id.
    destruct (decide (mu_module_id u = id)) as [<-|Hne].
    + by rewrite lookup_insert_eq, lookup_alter_eq, Hl.
    + by rewrite lookup_insert_ne, lookup_alter_ne.
  - intros id st [[_ <-]|[_ Hst]]%lookup_insert_Some; [by apply (tables_ranges _ _ Ht _ _ Hl)|].
    by apply (tables_ranges _ _ Ht id).
  - apply sorted_erase, (tables_sorted _ _ Ht).
  - intros base id. rewrite om_find_erase. setoid_rewrite live_at_insert.
    pose proof (tables_find _ _ Ht base id) as Hfind. case_decide as Hb.
    + split; [done|]. intros (l' & [[_ [=]]|[Hne Hl']] & E).
      pose proof (tables_disjoint _ _ Ht _ _ _ _ Hne Hl Hl') as Hd.
      pose proof (tables_ranges _ _ Ht _ _ Hl). pose proof (tables_ranges _ _ Ht _ _ Hl').
      unfold range_ok, disjoint_loads in *. cbn in *. lia.
    + rewrite Hfind. split; intros (l' & Hl' & E); exists l'; (split; [|done]).
      * right. split; [|done]. intros <-. unfold live_at in *. congruence.
      * by destruct Hl' as [[_ [=]]|[_ ?]].
  - intros id id' k k' Hne. rewrite !live_at_insert.
    intros [[_ [=]]|[_ Hk]] [[_ [=]]|[_ Hk']]. by apply (tables_disjoint _ _ Ht id id').
  - apply Forall_app. split; [|by constructor].
    eapply Forall_impl; [apply (tables_ticks _ _ Ht)|]. intros r Hr. cbn in *. lia.
Qed.

Lemma has_value_false {A} (o : option A) : has_value o = false ↔ o = None.
Proof. by destruct o. Qed.
Lemma has_value_true {A} (o : option A) : has_value o = true ↔ is_Some o.
Proof. unfold is_Some. destruct o; naive_solver. Qed.
#[export] Hint Rewrite @has_value_false @has_value_true : bool_facts.

Lemma apply_module_ok origin records t r t' : tables_ok records t → ModuleRecord_valid r →
  apply_module origin t r = Ok t' →
  module_allowed origin records r ∧ tables_ok (records ++ [r]) t'.
Proof.
  intros Ht Hr Happly. unfold apply_module, analysis_error_if in Happly.
  assert (Hticks : origin ≤ module_record_ticks r ∧ previous_module_ticks_ t ≤ module_record_ticks r).
  { inv_ok. bool_facts. done. }
  assert (Forall (λ r', module_record_ticks r' ≤ module_record_ticks r) records).
  { eapply Forall_impl; [apply (tables_ticks _ _ Ht)|]. intros r' Hr'. cbn in *. lia. }
  unfold module_allowed. destruct r as [l|u]; cbn [module_record_ticks] in *.
  - inv_ok. bool_facts. subst t'. apply load_range_ok in Hr.
    pose proof (module_range_free _ _ _ Ht Hr ltac:(eassumption)) as Hfree.
    split; [|by apply tables_loaded].
    split_and!; [lia|done|by rewrite <- (tables_states _ _ Ht)|].
    rewrite <- (tables_states _ _ Ht). intros id [k []] Hst [=]. by apply (Hfree id).
  - destruct (module_states_ t !! mu_module_id u) as [[l []]|] eqn:Hst.
    2, 3: exfalso; unfold analysis_error in Happly; by inv_ok.
    inv_ok. subst t'. split; [|apply (tables_unloaded _ _ u l); done || lia].
    split_and!; [lia|done|]. rewrite <- (tables_states _ _ Ht), Hst. eauto.
Qed.

Lemma apply_modules_ok origin records t rs t' : tables_ok records t → Forall ModuleRecord_valid rs →
  apply_modules origin t rs = Ok t' →
  tables_ok (records ++ rs) t' ∧
  ∀ pre r post, rs = pre ++ r :: post → module_allowed origin (records ++ pre) r.
Proof.
  revert records t. induction rs as [|r rs IH]; intros records t Ht Hrs Happly; cbn in Happly.
  - inv_ok. subst t'. rewrite app_nil_r. split; [done|]. by intros [|] ?? [=].
  - apply Forall_cons in Hrs as [Hr Hrs]. apply bind_ok in Happly as (t1 & Hr1 & Happly).
    destruct (apply_module_ok _ _ _ _ _ Ht Hr Hr1) as [Hall Ht1].
    destruct (IH _ _ Ht1 Hrs Happly) as [Ht' Hrest]. rewrite <- app_assoc in Ht'. split; [done|].
    intros [|r' pre] r0 post [= <- E]; [by rewrite app_nil_r|].
    specialize (Hrest pre r0 post E). by rewrite <- app_assoc in Hrest.
Qed.

(** ** One more call *)

Ltac log_snoc := intros l c; cbv delta [scopes_of hooks_of modules_of loads_of unloads_of stacks_of events_of losses_of
  counters_of maps_of agents_of statistics_of ends_of] beta; rewrite omap_app; destruct c;
  cbn [omap list_omap]; rewrite ?app_nil_r; reflexivity.

Lemma scopes_of_snoc : ∀ l c, scopes_of (l ++ [c]) =
  match c with on_capture_scope s => scopes_of l ++ [s] | _ => scopes_of l end.
Proof. log_snoc. Qed.
Lemma hooks_of_snoc : ∀ l c, hooks_of (l ++ [c]) =
  match c with on_custom_hook_definition d => hooks_of l ++ [chd_api_id d] | _ => hooks_of l end.
Proof. log_snoc. Qed.
Lemma modules_of_snoc : ∀ l c, modules_of (l ++ [c]) =
  match c with
  | on_module_load m => modules_of l ++ [ModuleRecord_Load m]
  | on_module_unload m => modules_of l ++ [ModuleRecord_Unload m]
  | _ => modules_of l
  end.
Proof. log_snoc. Qed.
Lemma loads_of_snoc : ∀ l c, loads_of (l ++ [c]) =
  match c with on_module_load m => loads_of l ++ [m] | _ => loads_of l end.
Proof. log_snoc. Qed.
Lemma unloads_of_snoc : ∀ l c, unloads_of (l ++ [c]) =
  match c with on_module_unload m => unloads_of l ++ [m] | _ => unloads_of l end.
Proof. log_snoc. Qed.
Lemma stacks_of_snoc : ∀ l c, stacks_of (l ++ [c]) =
  match c with on_stack_definition d => stacks_of l ++ [sd_stack_id d] | _ => stacks_of l end.
Proof. log_snoc. Qed.
Lemma events_of_snoc : ∀ l c, events_of (l ++ [c]) =
  match c with on_event e => events_of l ++ [e] | _ => events_of l end.
Proof. log_snoc. Qed.
Lemma losses_of_snoc : ∀ l c, losses_of (l ++ [c]) =
  match c with on_loss e => losses_of l ++ [e] | _ => losses_of l end.
Proof. log_snoc. Qed.
Lemma counters_of_snoc : ∀ l c, counters_of (l ++ [c]) =
  match c with on_memory_counters m => counters_of l ++ [m] | _ => counters_of l end.
Proof. log_snoc. Qed.
Lemma maps_of_snoc : ∀ l c, maps_of (l ++ [c]) =
  match c with on_memory_map m => maps_of l ++ [m] | _ => maps_of l end.
Proof. log_snoc. Qed.
Lemma agents_of_snoc : ∀ l c, agents_of (l ++ [c]) =
  match c with on_agent_memory m => agents_of l ++ [m] | _ => agents_of l end.
Proof. log_snoc. Qed.
Lemma statistics_of_snoc : ∀ l c, statistics_of (l ++ [c]) =
  match c with on_statistics s => statistics_of l ++ [s] | _ => statistics_of l end.
Proof. log_snoc. Qed.
Lemma ends_of_snoc : ∀ l c, ends_of (l ++ [c]) =
  match c with on_end_of_trace e => ends_of l ++ [e] | _ => ends_of l end.
Proof. log_snoc. Qed.

Create Rewrite HintDb log.
#[export] Hint Rewrite scopes_of_snoc hooks_of_snoc modules_of_snoc loads_of_snoc
  unloads_of_snoc stacks_of_snoc events_of_snoc
  losses_of_snoc counters_of_snoc maps_of_snoc agents_of_snoc statistics_of_snoc ends_of_snoc : log.

(** ** Clients of the event stream

    The analyses give [analyze_event_stream] callbacks that share their state.
    The stream makes its calls one by one; the first exception of a callback ends
    the analysis. *)

(** ** Clients of recorded calls *)

(** A client sees the calls in order until it throws. *)
Fixpoint deliver {S C} (client : C → proc S exn unit) (calls : list C) : proc S exn unit :=
  match calls with [] => mret tt | c :: calls => client c ;; deliver client calls end.

(** [analyze_event_stream(input, callbacks, options)] for callbacks that share
    the state [S]. *)
Definition analyze_with {L : CompressionLibrary} {S} (client : StreamCall → proc S exn unit)
    (input : istream) (options : EventStreamOptions) : proc S fault EventStreamResult := λ s,
  let '(result, calls) := analyze_event_stream input options in
  match deliver client calls s with
  | (Throw e, s) => (Throw (Thrown e), s)
  | (Ok _, s) => (result, s)
  end.

Definition lift_exn {A} (m : result exn A) : result fault A :=
  match m with Ok a => Ok a | Throw e => Throw (Thrown e) end.

(** What a test that does not throw says. *)
Definition holds (test : result exn bool) : bool := match test with Ok b => b | Throw _ => false end.

Lemma lift_exn_ok {A} (m : result exn A) a : lift_exn m = Ok a ↔ m = Ok a.
Proof. destruct m; naive_solver. Qed.

Lemma analyze_with_ok {L : CompressionLibrary} {S} (client : StreamCall → proc S exn unit) input options s
    trace s' : analyze_with client input options s = (Ok trace, s') →
  ∃ calls, analyze_event_stream input options = (Ok trace, calls) ∧
    deliver client calls s = (Ok tt, s').
Proof.
  unfold analyze_with. destruct (analyze_event_stream _ _) as [r calls].
  destruct (deliver _ _ _) as [[[]|] s1] eqn:E; [|done]. intros [= -> ->]. eauto.
Qed.

(** ** The number of events *)

Section events.
Context (h : FileHeader).

(** Sequence numbers are positive and increase, so there are few events. *)
Lemma events_before calls : log_ok h calls → ∀ s, 1 ≤ s →
  Forall (λ e, sequence_of e < s) (events_of calls) → size_of (events_of calls) < s.
Proof.
  induction calls as [|call calls IH] using rev_ind; intros Hlog s Hs Hall; [unfold size_of; cbn; lia|].
  pose proof (log_ok_allowed _ _ _ _ Hlog) as Hcall. apply log_ok_prefix in Hlog. specialize (IH Hlog).
  rewrite events_of_snoc in *. destruct call as [| | | | | | |e| | | | | |]; auto.
  apply Forall_app in Hall as [_ He]. apply Forall_cons in He as [He _].
  destruct Hcall as (_ & _ & _ & [[[Hseq _] _] Hv] & _ & Hbefore).
  rewrite size_of_app. unfold size_of at 2. cbn.
  assert (size_of (events_of calls) < sequence_of e); [|lia]. apply IH.
  - unfold validate_event, validate_header in Hv.
    destruct (is_valid (sequence (ev_header e))) eqn:E; [|done].
    apply is_valid_true in E. unfold sequence_of. word.
  - eapply Forall_impl; [exact Hbefore|]. cbn. lia.
Qed.

Lemma events_room calls e more : log_ok h (calls ++ on_event e :: more) →
  size_of (events_of calls) < u64_max.
Proof.
  intros Hlog. pose proof (log_ok_allowed _ _ _ _ Hlog) as (_ & _ & _ & [[[Hseq _] _] _] & _ & Hbefore).
  apply log_ok_prefix in Hlog. 
  assert (size_of (events_of calls) < Z.max 1 (sequence_of e)); [|unfold sequence_of in *; word].
  apply events_before; [done|lia|]. eapply Forall_impl; [exact Hbefore|]. cbn. lia.
Qed.

End events.

(** The stream is opened once, by its first call. *)
Definition opens (call : StreamCall) : bool :=
  match call with on_file_header _ => true | _ => false end.

Lemma opened_once h rest : log_ok h (on_file_header h :: rest) → Forall (λ c, opens c = false) rest.
Proof.
  intros Hlog. apply Forall_forall. intros call Hin. apply list_elem_of_split in Hin as (pre & post & ->).
  change (on_file_header h :: pre ++ call :: post) with ((on_file_header h :: pre) ++ call :: post) in Hlog.
  apply log_ok_allowed in Hlog. destruct call; try reflexivity. by destruct Hlog as (_ & [=] & _).
Qed.
