(* ===== verification/StreamInvariant.v ===== *)
(** * The invariant of the event stream decoder

    Every step of src/src/analyzer/event_stream.cpp keeps the members in
    agreement with the calls made so far, and makes only calls the contract of
    StreamContract.v allows.  The records of a chunk are checked before the
    first of them is published; [future] holds the calls they will make. *)

From S2P Require Import Prelude OrderedMap Bytes WireFormat RecordCursor RecordInterface Compression Event Completeness TraceData EventCodec StatisticsCodec DictionaryCodec MemoryCodec Chunks TraceReader TraceReaderSafety EventStream StreamContract.

Record stream_inv (h : FileHeader) (future : log) (d : EventStreamDecoder) : Prop := {
  (** the checks made ahead of the calls *)
  inv_log : log_ok h (calls d ++ future);
  inv_modules : tables_ok (modules_of (calls d ++ future)) (modules_ d);
  inv_hooks id : id ∈ hooks_of (calls d ++ future) → id ∈ custom_hook_api_ids_ d;
  inv_events : Forall (λ e, saw_event_ d = true ∧ sequence_of e ≤ previous_event_sequence_ d ∧
    ticks_of e ≤ previous_event_ticks_ d) (events_of (calls d ++ future));
  inv_counters : Forall (λ m, mc_monotonic_ticks m ≤ previous_memory_ticks_ d) (counters_of (calls d ++ future));
  inv_maps : Forall (λ m, mm_monotonic_ticks m ≤ previous_memory_ticks_ d) (maps_of (calls d ++ future));
  inv_agents : Forall (λ m, am_monotonic_ticks m ≤ previous_memory_ticks_ d) (agents_of (calls d ++ future));
  inv_known_events : Forall (λ e, sequence_of e ≤ known_sequence_end (result_ d) ∧
    ticks_of e ≤ known_monotonic_end (result_ d)) (events_of (calls d ++ future));
  inv_known_modules : previous_module_ticks_ (modules_ d) ≤ known_monotonic_end (result_ d);
  (** what follows the calls *)
  inv_header : esr_file_header (result_ d) = h;
  inv_started : calls d ≠ [];
  inv_scope : scopes_of (calls d) = option_list (capture_scope_ d);
  inv_completeness : is_Some (completeness_ d) ↔ is_Some (capture_scope_ d);
  inv_stacks id : id ∈ stacks_of (calls d) ↔ id ∈ stack_ids_ d;
  inv_statistics : statistics_of (calls d) = option_list (esr_statistics (result_ d));
  inv_ends : ends_of (calls d) = option_list (esr_end_of_trace (result_ d));
  inv_event_count : event_count (result_ d) = size_of (events_of (calls d));
  inv_api_count api : default 0 (events_per_api_ d !! api) = count_api api (events_of (calls d));
  inv_load_count : module_load_count (result_ d) = size_of (loads_of (calls d));
  inv_unload_count : module_unload_count (result_ d) = size_of (unloads_of (calls d));
  inv_stack_count : stack_definition_count (result_ d) = size_of (stacks_of (calls d));
  inv_loss_count : loss_record_count (result_ d) = size_of (losses_of (calls d));
  inv_counters_count : memory_counters_count (result_ d) = size_of (counters_of (calls d));
  inv_maps_count : memory_map_count (result_ d) = size_of (maps_of (calls d));
  inv_agents_count : memory_agent_count (result_ d) = size_of (agents_of (calls d));
}.

(** [swp h p d P]: a throw is not a lack of fuel, and the calls before it were
    allowed. *)
Definition good (h : FileHeader) (d : EventStreamDecoder) : Prop := calls d ≠ [] ∧ log_ok h (calls d).
Definition stream_fault (h : FileHeader) (e : fault) (d : EventStreamDecoder) : Prop :=
  e ≠ OutOfFuel ∧ good h d.
Abbreviation swp h p d P := (wp p d P (stream_fault h)).

Lemma inv_calls h future d : stream_inv h future d → log_ok h (calls d).
Proof. intros Hd. eapply log_ok_prefix, (inv_log _ _ _ Hd). Qed.

Lemma inv_good h future d : stream_inv h future d → good h d.
Proof. intros Hd. split; [apply (inv_started _ _ _ Hd)|by eapply inv_calls]. Qed.

Lemma swp_mono h {A} (p : decoding A) d (P Q : A → EventStreamDecoder → Prop) :
  swp h p d P → (∀ a d', P a d' → Q a d') → swp h p d Q.
Proof. intros H HPQ. by eapply wp_mono. Qed.

Lemma swp_throws h {A} (m : result exn A) d (P : A → EventStreamDecoder → Prop) :
  good h d → (∀ a, m = Ok a → P a d) → swp h (throws m) d P.
Proof. intros Hd HP. destruct m; unfold wp; cbn; [by apply HP|]. by split. Qed.

(** A loop over the records of a chunk that keeps [I], which mentions the local
    variables, and the calls allowed. *)
Lemma swp_record_loop h {A} (body : A → RecordView → decoding A) max pre tail fuel l d
    (I : A → EventStreamDecoder → Prop) : u32 max → (length tail < fuel)%nat →
  (∀ l d, I l d → good h d) →
  (∀ l r d, I l d → swp h (body l r) d I) → I l d →
  swp h (record_loop body fuel (cursor_at max pre tail) l) d I.
Proof.
  intros Hmax Hfuel Hlog Hbody. revert pre tail l d Hfuel.
  induction fuel as [|fuel IH]; intros pre tail l d Hfuel HI; [lia|]. cbn [record_loop].
  wp_step. apply swp_throws; [by eapply Hlog|]. intros [[r|] c] Hnext; cbn [fst snd].
  - apply next_ok in Hnext as (post & -> & -> & _); [|done].
    rewrite length_app in Hfuel. pose proof (length_record_bytes r). pose proof (record_size_ge r).
    wp_step. eapply swp_mono; [by apply Hbody|]. intros l' d' HI'. apply IH; [lia|done].
  - by apply wp_ret.
Qed.

Lemma swp_each_record h {A} payload (body : A → RecordView → decoding A) l d
    (I : A → EventStreamDecoder → Prop) : u32 (stream_record_size_ d) →
  (∀ l d, I l d → good h d) →
  (∀ l r d, I l d → swp h (body l r) d I) → I l d →
  swp h (each_record payload l body) d I.
Proof.
  intros Hmax Hlog Hbody HI. unfold each_record. repeat wp_step.
  apply swp_throws; [by eapply Hlog|]. intros c Hc. unfold RecordCursor_new, read_if in Hc. inv_ok.
  subst c. change {| chunk_payload_ := payload; rc_offset_ := 0; maximum_record_size_ := stream_record_size_ d |}
    with (cursor_at (stream_record_size_ d) [] payload).
  apply swp_record_loop; done || lia.
Qed.

(** Publishing the calls of a chunk. *)
Lemma swp_each h {A} (body : A → decoding unit) (call : A → StreamCall) xs future d
    (P : unit → EventStreamDecoder → Prop) (I : EventStreamDecoder → Prop) :
  (∀ x future d, stream_inv h (call x :: future) d → I d →
     swp h (body x) d (λ _ d', stream_inv h future d' ∧ I d')) →
  stream_inv h ((call <$> xs) ++ future) d → I d →
  (∀ d', stream_inv h future d' → I d' → P tt d') →
  swp h (each body xs) d P.
Proof.
  intros Hbody. revert d. induction xs as [|x xs IH]; intros d Hd HI HP; cbn [each].
  - by apply wp_ret, HP.
  - wp_step. eapply swp_mono; [by apply (Hbody x ((call <$> xs) ++ future))|].
    intros [] d' [Hd' HI']. by apply IH.
Qed.

(** ** Marks *)

(** The members a mark may change. *)
Definition marked (d d' : EventStreamDecoder) : Prop :=
  ∃ c p1 p2 p3 p4, (is_Some c ↔ is_Some (completeness_ d)) ∧
    d' = d <| completeness_ := c |> <| pending_unknown_record_ := p1 |>
           <| pending_partial_format_ := p2 |> <| pending_truncated_ := p3 |>
           <| pending_custom_hook_failure_ := p4 |>.

Lemma marked_inv h future d d' : stream_inv h future d → marked d d' → stream_inv h future d'.
Proof.
  intros Hd (c & p1 & p2 & p3 & p4 & Hc & ->). destruct Hd. split; try assumption. cbn. by rewrite Hc.
Qed.

Lemma marked_refl d : marked d d.
Proof.
  exists (completeness_ d), (pending_unknown_record_ d), (pending_partial_format_ d),
    (pending_truncated_ d), (pending_custom_hook_failure_ d). split; [done|]. by destruct d.
Qed.

Lemma swp_marking h d m pend (P : unit → EventStreamDecoder → Prop) :
  good h d → (∀ d, completeness_ d = None → marked d (pend d)) →
  (∀ d', marked d d' → P tt d') → swp h (mark_or_pend m pend) d P.
Proof.
  intros Hd Hpend HP. unfold mark_or_pend. wp_step. wp_step.
  destruct (completeness_ d) as [t|] eqn:Hc.
  - wp_step. apply swp_throws; [done|]. intros t' _. apply wp_modify, HP.
    exists (Some t'), (pending_unknown_record_ d), (pending_partial_format_ d),
      (pending_truncated_ d), (pending_custom_hook_failure_ d). by rewrite Hc.
  - apply wp_modify, HP. by apply Hpend.
Qed.

Lemma swp_mark h future d m pend (P : unit → EventStreamDecoder → Prop) :
  stream_inv h future d → (∀ d, completeness_ d = None → marked d (pend d)) →
  (∀ d', stream_inv h future d' → marked d d' → P tt d') → swp h (mark_or_pend m pend) d P.
Proof.
  intros Hd Hpend HP. apply swp_marking; [by eapply inv_good|done|].
  intros d' Hm. apply HP; [by eapply marked_inv|done].
Qed.

Ltac mark_fields d :=
  match goal with H : completeness_ _ = None |- marked _ ?d' =>
    exists (completeness_ d'), (pending_unknown_record_ d'), (pending_partial_format_ d'),
      (pending_truncated_ d'), (pending_custom_hook_failure_ d'); split; [done|]; by destruct d
  end.

Lemma marked_unknown d : completeness_ d = None → marked d (d <| pending_unknown_record_ := true |>).
Proof. intros. mark_fields d. Qed.
Lemma marked_partial d : completeness_ d = None → marked d (d <| pending_partial_format_ := true |>).
Proof. intros. mark_fields d. Qed.
Lemma marked_truncated d : completeness_ d = None → marked d (d <| pending_truncated_ := true |>).
Proof. intros. mark_fields d. Qed.
Lemma marked_hook d : completeness_ d = None → marked d (d <| pending_custom_hook_failure_ := true |>).
Proof. intros. mark_fields d. Qed.
#[export] Hint Resolve marked_unknown marked_partial marked_truncated marked_hook marked_refl : core.

(** ** Publishing *)

(** What the processing of a chunk leaves alone. *)
Definition frame (d : EventStreamDecoder) : TraceReader * Z * bool * option EndOfTrace :=
  (reader_ d, stream_record_size_ d, saw_end_chunk_ d, esr_end_of_trace (result_ d)).

Ltac members := cbn [reader_ stream_record_size_ result_ capture_scope_ completeness_
  custom_hook_api_ids_ events_per_api_ modules_ stack_ids_ previous_event_sequence_
  previous_event_ticks_ previous_memory_ticks_ saw_event_ saw_end_chunk_ may_have_unknown_events_
  reader_partial_marked_ pending_unknown_record_ pending_partial_format_ pending_truncated_
  pending_custom_hook_failure_ calls esr_file_header esr_capture_scope esr_custom_hooks
  esr_custom_hook_failures esr_statistics esr_end_of_trace esr_completeness known_sequence_end
  known_monotonic_end event_count module_load_count module_unload_count stack_definition_count
  loss_record_count memory_counters_count memory_map_count memory_agent_count
  esr_buffer_configuration esr_bytes_read truncated partially_understood frame update].

Lemma size_of_one {A} (a : A) : size_of [a] = 1.
Proof. done. Qed.

Lemma snoc_ne {A} (l : list A) a : l ++ [a] ≠ [].
Proof. by destruct l. Qed.

(** [publish_step] proves the invariant after a call from the one before it. *)
Ltac publish_step :=
  match goal with Hd : stream_inv _ _ _ |- stream_inv _ _ _ => destruct Hd end; split; members;
  try assumption; rewrite <- ?app_assoc; try assumption; autorewrite with log; cbv beta iota;
  try assumption;
  try apply snoc_ne; rewrite ?size_of_app, ?size_of_one; cbn; try lia.

Lemma swp_checked_increment h d value subject (P : Z → EventStreamDecoder → Prop) :
  good h d → P (value + 1) d → swp h (throws (checked_increment value subject)) d P.
Proof.
  intros Hd HP. apply swp_throws; [done|]. intros a H. unfold checked_increment in H.
  destruct (value =? u64_max); [done|]. by inv_ok; subst.
Qed.

Definition module_call (r : ModuleRecord) : StreamCall :=
  match r with ModuleRecord_Load l => on_module_load l | ModuleRecord_Unload u => on_module_unload u end.

Definition event_call (r : EventChunkRecord) : StreamCall :=
  match r with EventChunk_Event e => on_event e | EventChunk_Loss l => on_loss l end.

(** [publishes body call]: the body of the loop over the records makes the next
    call. *)
Definition publishes {A} (body : A → decoding unit) (call : A → StreamCall) : Prop :=
  ∀ h x future d f, stream_inv h (call x :: future) d → frame d = f →
    swp h (body x) d (λ _ d', stream_inv h future d' ∧ frame d' = f).

Ltac good_calls := match goal with H : stream_inv _ _ _ |- _ => exact (inv_good _ _ _ H) end.
Ltac publish_run :=
  repeat (first [ wp_step | apply swp_checked_increment; [good_calls|] ]).
Ltac publish body :=
  intros h x future d f Hd Hf; unfold body, set_result, notify; publish_run.

Lemma publishes_module : publishes publish_module module_call.
Proof.
  publish publish_module. destruct x; publish_run; (split; [publish_step|done]).
Qed.

Lemma publishes_counters : publishes publish_counters on_memory_counters.
Proof. publish publish_counters. split; [publish_step|done]. Qed.
Lemma publishes_map : publishes publish_map on_memory_map.
Proof. publish publish_map. split; [publish_step|done]. Qed.
Lemma publishes_agent : publishes publish_agent on_agent_memory.
Proof. publish publish_agent. split; [publish_step|done]. Qed.

Lemma publishes_custom_hook : publishes publish_custom_hook on_custom_hook_definition.
Proof. publish publish_custom_hook. split; [publish_step|done]. Qed.

Lemma publishes_custom_hook_failure : publishes publish_custom_hook_failure on_custom_hook_failure.
Proof.
  publish publish_custom_hook_failure. eapply swp_mark; [done|auto|]. intros d' Hd' (c & p1 & p2 & p3 & p4 & _ & ->).
  publish_run. split; [publish_step|done].
Qed.

Lemma publishes_stack : publishes publish_stack (λ s, on_stack_definition s).
Proof.
  publish publish_stack. split; [publish_step|done].
  intros id. rewrite elem_of_app, list_elem_of_singleton. set_solver.
Qed.

Lemma count_api_snoc api events e :
  count_api api (events ++ [e]) = count_api api events + (if decide (api_of e = api) then 1 else 0).
Proof.
  unfold count_api. rewrite filter_app, size_of_app, filter_cons. by case_decide.
Qed.

Lemma publishes_event : publishes publish_event event_call.
Proof.
  publish publish_event. destruct x as [e|l]; publish_run.
  - split; [publish_step|done]. intros api. rewrite count_api_snoc. fold (api_of e).
    rewrite insert_insert_eq. case_decide as Hapi.
    + subst api. by rewrite lookup_insert_eq, inv_api_count0.
    + by rewrite lookup_insert_ne, inv_api_count0, Z.add_0_r.
  - apply swp_marking; [good_calls|auto|]. intros d' (c & p1 & p2 & p3 & p4 & Hc & ->).
    publish_run. split; [publish_step; by rewrite Hc|done].
Qed.
