(* ===== verification/StreamChunks.v ===== *)
(** * Chunks keep the invariant of the event stream

    The chunk handlers of src/src/analyzer/event_stream.cpp, one by one: what a
    handler checks ahead is what the contract asks of the calls it then makes. *)

From S2P Require Import Prelude OrderedMap Bytes WireFormat RecordCursor RecordInterface Compression Event Completeness TraceData EventCodec StatisticsCodec DictionaryCodec MemoryCodec Chunks TraceReader TraceReaderSafety EventStream StreamContract StreamInvariant.

Lemma log_ok_app h l k : log_ok h l →
  (∀ pre c post, k = pre ++ c :: post → allowed h (l ++ pre) c) → log_ok h (l ++ k).
Proof.
  intros Hl. induction k as [|c k IH] using rev_ind; intros Hk; [by rewrite app_nil_r|].
  rewrite app_assoc. apply log_ok_snoc.
  - apply IH. intros pre c' post ->. apply (Hk pre c' (post ++ [c])). by rewrite <- app_assoc.
  - by apply (Hk k c []).
Qed.

(** What the members say ahead of a call, other than of a module. *)
Definition ahead (d : EventStreamDecoder) (c : StreamCall) : Prop :=
  match c with
  | on_custom_hook_definition x => chd_api_id x ∈ custom_hook_api_ids_ d
  | on_module_load _ | on_module_unload _ => False
  | on_event e => saw_event_ d = true ∧
      (sequence_of e ≤ previous_event_sequence_ d ∧ sequence_of e ≤ known_sequence_end (result_ d)) ∧
      ticks_of e ≤ previous_event_ticks_ d ∧ ticks_of e ≤ known_monotonic_end (result_ d)
  | on_memory_counters m => mc_monotonic_ticks m ≤ previous_memory_ticks_ d
  | on_memory_map m => mm_monotonic_ticks m ≤ previous_memory_ticks_ d
  | on_agent_memory m => am_monotonic_ticks m ≤ previous_memory_ticks_ d
  | _ => True
  end.

Lemma inv_future_snoc h future d c : stream_inv h future d → log_ok h (calls d ++ future ++ [c]) →
  ahead d c → stream_inv h (future ++ [c]) d.
Proof.
  intros [] Hlog Hc. split; try assumption; rewrite app_assoc; autorewrite with log;
    destruct c; try assumption; try done; rewrite ?Forall_app, ?Forall_singleton; cbn [ahead] in Hc;
    destruct_and?; split_and?; try done.
  intros id. rewrite elem_of_app, list_elem_of_singleton. intros [Hid| ->]; auto.
Qed.

Lemma inv_future h future d k : stream_inv h future d → log_ok h (calls d ++ future ++ k) →
  Forall (ahead d) k → stream_inv h (future ++ k) d.
Proof.
  intros Hd. induction k as [|c k IH] using rev_ind; [by rewrite app_nil_r|].
  rewrite Forall_app, Forall_singleton. intros Hlog [Hk Hc]. rewrite (app_assoc future k [c]) in *.
  apply inv_future_snoc; [|done|done]. apply IH; [|done].
  rewrite (app_assoc (calls d)) in Hlog. by eapply log_ok_prefix.
Qed.

(** [chunk_ok p]: the handler [p] of a chunk keeps the invariant. *)
Definition chunk_ready (h : FileHeader) (d : EventStreamDecoder) : Prop :=
  stream_inv h [] d ∧ esr_end_of_trace (result_ d) = None ∧ u32 (stream_record_size_ d).

Definition chunk_ok (p : decoding unit) : Prop :=
  ∀ h d, chunk_ready h d → swp h p d (λ _ d', stream_inv h [] d' ∧ frame d' = frame d).

Lemma ready_log h d : chunk_ready h d → log_ok h (calls d).
Proof. intros [Hd _]. by eapply inv_calls. Qed.

Lemma ready_good h d : chunk_ready h d → good h d.
Proof. intros [Hd _]. by eapply inv_good. Qed.

Lemma ready_open h d : chunk_ready h d → ends_of (calls d) = [].
Proof. intros (Hd & Hend & _). by rewrite (inv_ends _ _ _ Hd), Hend. Qed.

Lemma swp_require_scope h d message (P : unit → EventStreamDecoder → Prop) : stream_inv h [] d →
  (in_scope (calls d) → P tt d) → swp h (require_capture_scope message) d P.
Proof.
  intros Hd HP. unfold require_capture_scope. repeat wp_step.
  apply swp_throws; [by eapply inv_good|]. intros [] H. unfold analysis_error_if in H. inv_ok. bool_facts.
  destruct H as [H _]. apply HP. unfold in_scope. rewrite (inv_scope _ _ _ Hd). by destruct (capture_scope_ d).
Qed.

Lemma swp_mark_if h future d b m pend (P : unit → EventStreamDecoder → Prop) :
  stream_inv h future d → (∀ d, completeness_ d = None → marked d (pend d)) →
  (∀ d', stream_inv h future d' → marked d d' → P tt d') →
  swp h (mark_if b (mark_or_pend m pend)) d P.
Proof.
  intros Hd Hpend HP. destruct b; cbn [mark_if]; [by eapply swp_mark|].
  apply wp_ret, HP; [done|apply marked_refl].
Qed.

Lemma marked_frame d d' : marked d d' → frame d' = frame d ∧ calls d' = calls d.
Proof. by intros (c & p1 & p2 & p3 & p4 & _ & ->). Qed.

Lemma swp_publish_all {A} (body : A → decoding unit) call xs future h d f
    (P : unit → EventStreamDecoder → Prop) :
  publishes body call → stream_inv h ((call <$> xs) ++ future) d → frame d = f →
  (∀ d', stream_inv h future d' → frame d' = f → P tt d') → swp h (each body xs) d P.
Proof.
  intros Hbody Hd Hf HP. apply (swp_each h body call xs future d P (λ d', frame d' = f)); try done.
  intros x future' d1 Hd1 Hf1. by apply Hbody.
Qed.

(** ** Stacks *)

Lemma for_each_ok {A} (check : A → result exn unit) l u :
  for_each check l = Ok u ↔ Forall (λ a, check a = Ok tt) l.
Proof.
  destruct u. induction l as [|a l IH]; cbn; [by split; [constructor|]|].
  rewrite Forall_cons, <- IH. split.
  - intros H. inv_ok. done.
  - intros [-> H]. done.
Qed.

Lemma validate_frame_ok records t frame : tables_ok records t → 0 ≤ sf_module_offset frame →
  validate_frame (module_states_ t) frame = Ok tt → frame_resolved (modules_known records) frame.
Proof.
  intros Ht Hoff Hv Hid. unfold validate_frame in Hv. rewrite (proj2 (is_valid_true _) Hid) in Hv.
  cbn [negb] in Hv. rewrite <- (tables_states _ _ Ht).
  destruct (module_states_ t !! sf_module_id frame) as [state|] eqn:Hst; [|done].
  unfold analysis_error_if in Hv. inv_ok. bool_facts. destruct Hv as [H1 H2].
  pose proof (tables_ranges _ _ Ht _ _ Hst) as Hr. unfold range_ok in Hr.
  exists state. split_and!; [done|lia|]. rewrite wrap64_small in H2 by word. done.
Qed.

Lemma decode_stack_valid view s : decode_stack_definition_record view = Ok (Some s) →
  StackDefinition_valid s.
Proof. by intros [H _]%(codec_decode (append := append_stack_definition_record)). Qed.

Definition stacks_checked h (d0 : EventStreamDecoder) (l : StackLocals) (d : EventStreamDecoder) : Prop :=
  d = d0 ∧ log_ok h (calls d ++ (on_stack_definition <$> definitions l)) ∧
  ∀ id, id ∈ stacks_of (calls d ++ (on_stack_definition <$> definitions l)) ↔
    id ∈ stack_ids_ d ∨ id ∈ chunk_ids l.

Lemma stacks_keep_rest l ds :
  scopes_of (l ++ (on_stack_definition <$> ds)) = scopes_of l ∧
  ends_of (l ++ (on_stack_definition <$> ds)) = ends_of l ∧
  modules_of (l ++ (on_stack_definition <$> ds)) = modules_of l.
Proof.
  induction ds as [|s ds IH] using rev_ind; [by rewrite app_nil_r|].
  rewrite fmap_app, app_assoc. cbn [fmap list_fmap]. by autorewrite with log.
Qed.

Lemma swp_stack_record h d0 l r d : chunk_ready h d0 → in_scope (calls d0) → stacks_checked h d0 l d →
  swp h (stack_record l r) d (stacks_checked h d0).
Proof.
  intros Hd0 Hscope (-> & Hlog & Hids). unfold stack_record. wp_step.
  apply swp_throws; [by apply ready_good|]. intros [s|] Hdec; repeat wp_step; [|by split_and!].
  apply swp_throws; [by apply ready_good|]. intros [] Hfresh. unfold analysis_error_if in Hfresh. inv_ok. bool_facts.
  wp_step. apply swp_throws; [by apply ready_good|]. intros [] Hframes. apply for_each_ok in Hframes.
  apply decode_stack_valid in Hdec as (Hwt & _ & _). destruct Hfresh as [Hf1 Hf2].
  destruct (stacks_keep_rest (calls d0) (definitions l)) as (Hs & He & Hm).
  apply wp_ret. split; [done|]. cbn [definitions chunk_ids]. rewrite fmap_app, app_assoc. cbn [fmap list_fmap].
  assert (Hall : allowed h (calls d0 ++ (on_stack_definition <$> definitions l)) (on_stack_definition s)).
  { split; [by rewrite He, (ready_open h)|]. unfold in_scope. rewrite Hs, Hm. split_and!; [done|rewrite Hids; tauto|].
    destruct Hd0 as (Hd0 & _). pose proof (inv_modules _ _ _ Hd0) as Ht. rewrite app_nil_r in Ht.
    apply Forall_forall. intros fr Hfr. eapply validate_frame_ok; [done| |].
    - destruct Hwt as [_ Hwt]. rewrite Forall_forall in Hwt. by destruct (Hwt fr Hfr) as (_ & [? _] & _).
    - rewrite Forall_forall in Hframes. by apply Hframes. }
  split; [by apply log_ok_snoc|]. intros id. autorewrite with log. cbv beta iota.
  rewrite elem_of_app, list_elem_of_singleton, Hids. set_solver.
Qed.

Lemma process_stacks_ok payload : chunk_ok (process_stacks payload).
Proof.
  intros h d Hd. unfold process_stacks. wp_step. apply swp_require_scope; [by destruct Hd|]. intros Hscope.
  wp_step. eapply swp_mono; [apply (swp_each_record h payload stack_record no_stacks d (stacks_checked h d))|].
  - by destruct Hd as (_ & _ & ?).
  - intros l d' (-> & _). by apply ready_good.
  - intros l r d' Hl. by apply swp_stack_record.
  - split; [done|]. cbn. rewrite app_nil_r. split; [by apply ready_log|]. intros id.
    rewrite (inv_stacks _ _ _ (proj1 Hd)). set_solver.
  - intros l d' (-> & Hlog & _). wp_step. destruct Hd as (Hd & Hrest).
    assert (Hfut : stream_inv h (on_stack_definition <$> definitions l) d).
    { apply (inv_future h [] d); [done|done|]. apply Forall_fmap, Forall_true. done. }
    eapply swp_mark_if; [exact Hfut|auto|]. intros d1 Hd1 [Hf _]%marked_frame.
    eapply swp_publish_all; [apply publishes_stack|by rewrite app_nil_r|done|]. by intros.
Qed.

(** ** Modules *)

Lemma modules_keep_rest l rs :
  scopes_of (l ++ (module_call <$> rs)) = scopes_of l ∧
  ends_of (l ++ (module_call <$> rs)) = ends_of l ∧
  modules_of (l ++ (module_call <$> rs)) = modules_of l ++ rs.
Proof.
  induction rs as [|r rs IH] using rev_ind; [by rewrite !app_nil_r|].
  rewrite fmap_app, app_assoc. cbn [fmap list_fmap]. destruct IH as (? & ? & IH).
  destruct r; cbn [module_call]; autorewrite with log; cbv beta iota; rewrite ?IH, ?app_assoc; done.
Qed.

Lemma other_modules l rs :
  hooks_of (l ++ (module_call <$> rs)) = hooks_of l ∧ events_of (l ++ (module_call <$> rs)) = events_of l ∧
  counters_of (l ++ (module_call <$> rs)) = counters_of l ∧ maps_of (l ++ (module_call <$> rs)) = maps_of l ∧
  agents_of (l ++ (module_call <$> rs)) = agents_of l.
Proof.
  induction rs as [|r rs IH] using rev_ind; [by rewrite !app_nil_r|].
  rewrite fmap_app, app_assoc. cbn [fmap list_fmap]. by destruct r; cbn [module_call]; autorewrite with log.
Qed.

Lemma inv_future_modules h d rs t : stream_inv h [] d →
  log_ok h (calls d ++ (module_call <$> rs)) → tables_ok (modules_of (calls d) ++ rs) t →
  stream_inv h (module_call <$> rs)
    (d <| modules_ := t |>
       <| result_ := (result_ d) <| known_monotonic_end :=
            Z.max (known_monotonic_end (result_ d)) (previous_module_ticks_ t) |> |>).
Proof.
  intros [] Hlog Ht. rewrite app_nil_r in *.
  destruct (modules_keep_rest (calls d) rs) as (_ & _ & Hm).
  destruct (other_modules (calls d) rs) as (H1 & H2 & H3 & H4 & H5).
  split; members; rewrite ?H1, ?H2, ?H3, ?H4, ?H5, ?Hm; try assumption; [|lia].
  eapply Forall_impl; [done|]. intros e [? ?]. split; [done|]. lia.
Qed.

Lemma swp_collect {A} h d0 payload (decode : RecordView → result exn (option A)) :
  chunk_ready h d0 →
  swp h (each_record payload ([], false) (collect_record decode)) d0
    (λ l d, d = d0 ∧ Forall (λ a, ∃ view, decode view = Ok (Some a)) (fst l)).
Proof.
  intros Hd0. apply (swp_each_record h payload _ _ d0 (λ l d, d = d0 ∧ Forall _ (fst l))).
  - by destruct Hd0 as (_ & _ & ?).
  - intros l d (-> & _). by apply ready_good.
  - intros l r d (-> & Hl). unfold collect_record. wp_step. apply swp_throws; [by apply ready_good|].
    intros [a|] Ha; repeat wp_step; (split; [done|]); cbn; [|done].
    apply Forall_app. split; [done|]. constructor; [by exists r|constructor].
  - split; [done|constructor].
Qed.

Lemma decode_module_valid view r : decode_module_record view = Ok (Some r) → ModuleRecord_valid r.
Proof. by intros [H _]%(codec_decode (append := append_module_record)). Qed.

Lemma process_modules_ok payload : chunk_ok (process_modules payload).
Proof.
  intros h d Hd. unfold process_modules. wp_step. apply swp_require_scope; [by destruct Hd|]. intros Hscope.
  wp_step. eapply swp_mono; [by apply swp_collect|]. intros [rs skipped] d' (-> & Hrs). cbn [fst snd] in *.
  do 2 wp_step. wp_step. apply swp_throws; [by apply ready_good|]. intros t Happly.
  destruct Hd as (Hd & Hend & Hsize). pose proof (inv_modules _ _ _ Hd) as Ht. rewrite app_nil_r in Ht.
  assert (Hvalid : Forall ModuleRecord_valid rs).
  { eapply Forall_impl; [exact Hrs|]. intros r [view Hr]. by eapply decode_module_valid. }
  destruct (apply_modules_ok _ _ _ _ _ Ht Hvalid Happly) as [Ht' Hall].
  assert (Hlog : log_ok h (calls d ++ (module_call <$> rs))).
  { apply log_ok_app; [by eapply inv_calls|]. intros pre c post E.
    apply fmap_app_inv in E as (rs1 & rs2 & -> & E & ->).
    destruct rs2 as [|r rs2]; [done|]. injection E as -> ->.
    destruct (modules_keep_rest (calls d) rs1) as (Hs & He & Hm).
    specialize (Hall rs1 r rs2 eq_refl). rewrite (inv_header _ _ _ Hd) in Hall.
    apply Forall_app in Hvalid as [_ [Hr _]%Forall_cons].
    split; [by rewrite He, (ready_open h)|].
    destruct r; cbn [module_call]; unfold in_scope; rewrite Hs, Hm; split_and?; done. }
  unfold include_monotonic_end, set_result. repeat wp_step. members.
  eapply swp_mark_if; [by apply inv_future_modules|auto|]. intros d1 Hd1 [Hf _]%marked_frame.
  eapply swp_publish_all; [apply publishes_module|by rewrite app_nil_r|done|]. by intros.
Qed.

(** ** Events *)

Lemma decode_event_valid view r : decode_event_chunk_record view = Ok (Some r) → EventChunkRecord_valid r.
Proof. by intros [H _]%(codec_decode (append := append_event_chunk_record)). Qed.

Lemma events_keep_rest l rs :
  scopes_of (l ++ (event_call <$> rs)) = scopes_of l ∧ ends_of (l ++ (event_call <$> rs)) = ends_of l ∧
  statistics_of (l ++ (event_call <$> rs)) = statistics_of l.
Proof.
  induction rs as [|r rs IH] using rev_ind; [by rewrite !app_nil_r|].
  rewrite fmap_app, app_assoc. cbn [fmap list_fmap]. by destruct r; cbn [event_call]; autorewrite with log.
Qed.

(** What the checks of the loop establish for the records they passed. *)
Record events_checked h (d0 : EventStreamDecoder) (l : EventLocals) (d : EventStreamDecoder) : Prop := {
  checked_same : d = d0;
  checked_log : log_ok h (calls d ++ (event_call <$> event_records l));
  checked_previous : Forall (λ e, has_previous_event l = true ∧ sequence_of e ≤ previous_sequence l ∧
    ticks_of e ≤ previous_ticks l) (events_of (calls d ++ (event_call <$> event_records l)));
  checked_bounds : Forall (λ e,
    sequence_of e ≤ Z.max (known_sequence_end (result_ d)) (bounds_end (bounds l)) ∧
    ticks_of e ≤ Z.max (known_monotonic_end (result_ d)) (maximum_ticks (bounds l)))
    (events_of (calls d ++ (event_call <$> event_records l)));
}.

Lemma include_sequence_mono b e bs : bounds_end bs ≤ bounds_end (include_sequence b e bs) ∧
  e ≤ bounds_end (include_sequence b e bs) ∧ maximum_ticks (include_sequence b e bs) = maximum_ticks bs.
Proof. unfold include_sequence. cbn. lia. Qed.
Lemma include_ticks_mono t bs : maximum_ticks bs ≤ maximum_ticks (include_ticks t bs) ∧
  t ≤ maximum_ticks (include_ticks t bs) ∧ bounds_end (include_ticks t bs) = bounds_end bs.
Proof. unfold include_ticks. cbn. lia. Qed.

Ltac locals := cbn [event_records bounds events_skipped_unknown previous_sequence previous_ticks
  has_previous_event update] in *.

Lemma checked_event h d0 l e l' : chunk_ready h d0 → in_scope (calls d0) →
  statistics_of (calls d0) = [] → events_checked h d0 l d0 → Event_valid e →
  check_event_record (monotonic_origin h) l (EventChunk_Event e) = Ok l' → events_checked h d0 l' d0.
Proof.
  intros Hd0 Hscope Hstat [_ Hlog Hprev Hbounds] Hvalid Hcheck.
  destruct (events_keep_rest (calls d0) (event_records l)) as (Hs & He & Hst).
  unfold check_event_record, analysis_error_if in Hcheck. inv_ok. subst. bool_facts.
  fold (sequence_of e) in *. fold (ticks_of e) in *.
  assert (Hlt : Forall (λ e', sequence_of e' < sequence_of e ∧ ticks_of e' ≤ ticks_of e)
    (events_of (calls d0 ++ (event_call <$> event_records l)))).
  { eapply Forall_impl; [exact Hprev|]. intros e' (Hh & ? & ?). rewrite Hh in *.
    destruct_or?; done || (cbn in *; lia). }
  assert (Hall : allowed h (calls d0 ++ (event_call <$> event_records l)) (on_event e)).
  { split; [by rewrite He, (ready_open h)|]. unfold in_scope. rewrite Hs, Hst. split_and!; done. }
  pose proof (include_sequence_mono (sequence_of e) (sequence_of e) (bounds l)) as (? & ? & Hmt).
  pose proof (include_ticks_mono (ticks_of e) (include_sequence (sequence_of e) (sequence_of e) (bounds l)))
    as (? & ? & Hbe).
  split; locals; rewrite ?fmap_app, ?app_assoc; cbn [fmap list_fmap event_call]; [done| | |];
    autorewrite with log; cbv beta iota; rewrite ?Forall_app, ?Forall_singleton.
  - by apply log_ok_snoc.
  - split; [|split_and!; [done|lia|lia]]. eapply Forall_impl; [exact Hlt|]. cbn. intros e' ?. split_and!; [done|lia|lia].
  - rewrite Hbe. split; [|lia]. eapply Forall_impl; [exact Hbounds|]. cbn. intros e' ?. rewrite Hmt in *. lia.
Qed.

Lemma checked_loss h d0 l x l' : chunk_ready h d0 → in_scope (calls d0) →
  statistics_of (calls d0) = [] → events_checked h d0 l d0 →
  check_event_record (monotonic_origin h) l (EventChunk_Loss x) = Ok l' → events_checked h d0 l' d0.
Proof.
  intros Hd0 Hscope Hstat [_ Hlog Hprev Hbounds] Hcheck.
  destruct (events_keep_rest (calls d0) (event_records l)) as (Hs & He & Hst).
  assert (Hall : allowed h (calls d0 ++ (event_call <$> event_records l)) (on_loss x)).
  { split; [by rewrite He, (ready_open h)|]. unfold in_scope. by rewrite Hs, Hst. }
  assert (Hl' : ∃ bs, bounds_end (bounds l) ≤ bounds_end bs ∧ maximum_ticks (bounds l) ≤ maximum_ticks bs ∧
    l' = l <| bounds := bs |> <| event_records := event_records l ++ [EventChunk_Loss x] |>).
  { unfold check_event_record, analysis_error_if in Hcheck. destruct (sequence_range x) as [range|].
    - pose proof (include_sequence_mono (sr_begin range) (sr_end range) (bounds l)) as (? & ? & Hmt).
      destruct (tick_range x) as [tr|]; inv_ok; subst; eexists; (split; [|split; [|reflexivity]]);
        try (pose proof (include_ticks_mono (tr_end tr) (include_sequence (sr_begin range) (sr_end range) (bounds l))));
        lia.
    - destruct (tick_range x) as [tr|]; inv_ok; subst; eexists; (split; [|split; [|reflexivity]]);
        try (pose proof (include_ticks_mono (tr_end tr) (bounds l))); lia. }
  destruct Hl' as (bs & ? & ? & ->).
  split; locals; rewrite ?fmap_app, ?app_assoc; cbn [fmap list_fmap event_call]; [done| | |];
    autorewrite with log; cbv beta iota; [by apply log_ok_snoc|done|].
  eapply Forall_impl; [exact Hbounds|]. cbn. intros e' ?. lia.
Qed.

Lemma swp_event_record h d0 l r d : chunk_ready h d0 → in_scope (calls d0) →
  statistics_of (calls d0) = [] → events_checked h d0 l d →
  swp h (event_record l r) d (events_checked h d0).
Proof.
  intros Hd0 Hscope Hstat Hl. pose proof (checked_same _ _ _ _ Hl) as ->. unfold event_record. wp_step.
  apply swp_throws; [by apply ready_good|]. intros [[e|x]|] Hdec; repeat wp_step.
  - apply swp_throws; [by apply ready_good|]. intros l'. rewrite (inv_header h [] d0) by (by destruct Hd0).
    apply checked_event; try done. by apply decode_event_valid in Hdec.
  - apply swp_throws; [by apply ready_good|]. intros l'. rewrite (inv_header h [] d0) by (by destruct Hd0).
    by apply checked_loss.
  - by destruct Hl.
Qed.

Lemma swp_require_no_statistics h d (P : unit → EventStreamDecoder → Prop) : stream_inv h [] d →
  (statistics_of (calls d) = [] → P tt d) → swp h require_no_statistics d P.
Proof.
  intros Hd HP. unfold require_no_statistics. repeat wp_step. apply swp_throws; [by eapply inv_good|].
  intros [] H. unfold analysis_error_if in H. inv_ok. bool_facts. apply HP.
  by rewrite (inv_statistics _ _ _ Hd), H.
Qed.

Lemma events_keep_members l rs :
  hooks_of (l ++ (event_call <$> rs)) = hooks_of l ∧ modules_of (l ++ (event_call <$> rs)) = modules_of l ∧
  counters_of (l ++ (event_call <$> rs)) = counters_of l ∧ maps_of (l ++ (event_call <$> rs)) = maps_of l ∧
  agents_of (l ++ (event_call <$> rs)) = agents_of l.
Proof.
  induction rs as [|r rs IH] using rev_ind; [by rewrite !app_nil_r|].
  rewrite fmap_app, app_assoc. cbn [fmap list_fmap]. by destruct r; cbn [event_call]; autorewrite with log.
Qed.

Definition set_known_end (sequence_end ticks : Z) (r : EventStreamResult) : EventStreamResult :=
  r <| known_sequence_end := Z.max (known_sequence_end r) sequence_end |>
    <| known_monotonic_end := Z.max (known_monotonic_end r) ticks |>.

Lemma swp_include_known_bounds h bs d (P : unit → EventStreamDecoder → Prop) :
  P tt (d <| result_ := set_known_end (bounds_end bs) (maximum_ticks bs) (result_ d) |>) →
  swp h (include_known_bounds bs) d P.
Proof.
  intros HP. unfold include_known_bounds, include_monotonic_end, set_result. repeat wp_step.
  unfold set_known_end in HP. destruct d as [? ? [] ? ? ? ? ? ? ? ? ? ? ? ? ? ? ? ? ? ?]; cbn in *.
  match type of HP with context [Z.max ?a (bounds_end bs)] =>
    destruct (Z.ltb_spec a (bounds_end bs)); cbn in *;
      [replace (Z.max a (bounds_end bs)) with (bounds_end bs) in HP by lia
      |replace (Z.max a (bounds_end bs)) with a in HP by lia]
  end; done.
Qed.

Lemma inv_future_events h d l unknown : stream_inv h [] d → events_checked h d l d →
  stream_inv h (event_call <$> event_records l)
    ((d <| may_have_unknown_events_ := unknown |>
        <| previous_event_sequence_ := previous_sequence l |>
        <| previous_event_ticks_ := previous_ticks l |> <| saw_event_ := has_previous_event l |>)
       <| result_ := set_known_end (bounds_end (bounds l)) (maximum_ticks (bounds l)) (result_ d) |>).
Proof.
  intros [] [_ Hlog Hprev Hbounds]. rewrite app_nil_r in *.
  destruct (events_keep_members (calls d) (event_records l)) as (H1 & H2 & H3 & H4 & H5).
  split; members; rewrite ?H1, ?H2, ?H3, ?H4, ?H5; try assumption. cbn. lia.
Qed.

(** A mark and changes of members it does not touch can trade places. *)
Lemma swp_mark_unknown h d (b : bool) (P : unit → EventStreamDecoder → Prop) : good h d →
  (∀ d' u, marked (d <| may_have_unknown_events_ := u |>) d' → P tt d') →
  swp h (mark_if b mark_unknown_event_data) d P.
Proof.
  intros Hd HP. destruct b; cbn [mark_if].
  - unfold mark_unknown_event_data. repeat wp_step. apply swp_marking; [done|auto|]. intros d'. apply HP.
  - apply wp_ret, (HP d (may_have_unknown_events_ d)).
    replace (d <| may_have_unknown_events_ := may_have_unknown_events_ d |>) with d by (by destruct d).
    apply marked_refl.
Qed.

Lemma process_events_ok descriptor payload : chunk_ok (process_events descriptor payload).
Proof.
  intros h d Hd. unfold process_events. wp_step. apply swp_require_scope; [by destruct Hd|]. intros Hscope.
  wp_step. apply swp_require_no_statistics; [by destruct Hd|]. intros Hstat. do 2 wp_step. wp_step.
  eapply swp_mono; [apply (swp_each_record h payload _ _ d (events_checked h d))|].
  - by destruct Hd as (_ & _ & ?).
  - intros l d' Hl. rewrite (checked_same _ _ _ _ Hl). by apply ready_good.
  - intros l r d' Hl. by apply swp_event_record.
  - destruct Hd as (Hd & _). split; locals; cbn [fmap list_fmap]; rewrite ?app_nil_r; [done|by eapply inv_calls| |].
    + pose proof (inv_events _ _ _ Hd) as H. by rewrite app_nil_r in H.
    + pose proof (inv_known_events _ _ _ Hd) as H. rewrite app_nil_r in H.
      eapply Forall_impl; [exact H|]. cbn. intros e ?. lia.
  - intros l d' Hl. pose proof (checked_same _ _ _ _ Hl) as ->. destruct Hd as (Hd & _).
    wp_step. apply swp_throws; [by eapply inv_good|]. intros _ _. wp_step.
    apply swp_mark_unknown; [by eapply inv_good|]. intros d1 u Hm. do 2 wp_step. wp_step.
    apply swp_include_known_bounds.
    eapply (swp_publish_all _ _ _ [] _ _ (frame d)); [apply publishes_event| | |by intros].
    + rewrite app_nil_r. eapply marked_inv; [by apply (inv_future_events h d l u)|].
      destruct Hm as (c & p1 & p2 & p3 & p4 & Hc & ->). by exists c, p1, p2, p3, p4.
    + by destruct Hm as (c & p1 & p2 & p3 & p4 & Hc & ->).
Qed.

(** ** Calls of other kinds in between *)

Lemma omap_fmap_none {A B C} (f : B → option C) (g : A → B) l : (∀ a, f (g a) = None) → omap f (g <$> l) = [].
Proof. intros Hf. induction l as [|a l IH]; [done|]. cbn. by rewrite Hf. Qed.

(** [k] makes no call that a later call like [c] depends on. *)
Definition silent (k : log) (c : StreamCall) : Prop :=
  ends_of k = [] ∧
  match c with
  | on_custom_hook_definition _ => hooks_of k = []
  | on_custom_hook_failure _ => True
  | on_memory_counters _ => scopes_of k = [] ∧ counters_of k = []
  | on_memory_map _ => scopes_of k = [] ∧ maps_of k = []
  | on_agent_memory _ => scopes_of k = [] ∧ agents_of k = []
  | _ => False
  end.

Lemma allowed_between h l k pre c : silent k c → allowed h (l ++ pre) c → allowed h (l ++ k ++ pre) c.
Proof.
  intros [Hend Hc] [Hopen Hall]. split.
  { unfold ends_of in *. rewrite !omap_app in *. by rewrite Hend. }
  assert (Hne : l ++ pre ≠ [] → l ++ k ++ pre ≠ []).
  { intros H [-> [-> ->]%app_nil]%app_nil. done. }
  destruct c; try done; unfold in_scope, hooks_of, scopes_of, counters_of, maps_of, agents_of in *;
    rewrite ?omap_app in *; destruct_and?;
    repeat match goal with H : omap _ k = [] |- _ => rewrite H; clear H end; split_and?; auto.
Qed.

Lemma log_ok_between h l k m : log_ok h (l ++ k) → log_ok h (l ++ m) → Forall (silent k) m →
  log_ok h (l ++ k ++ m).
Proof.
  intros Hk Hm Hs. rewrite app_assoc. apply log_ok_app; [done|]. intros pre c post ->.
  rewrite <- app_assoc. apply allowed_between.
  - apply Forall_app in Hs as [_ [? _]%Forall_cons]. done.
  - eapply log_ok_allowed. by rewrite <- app_assoc.
Qed.

Ltac silent := intros; split; [|split_and?]; try done;
  cbv delta [hooks_of scopes_of ends_of counters_of maps_of agents_of] beta;
  rewrite ?omap_app; rewrite !omap_fmap_none by done; done.

(** ** Memory snapshots *)

(** One kind of record: what was published before and what will be. *)
Record kind_checked {A} h (d : EventStreamDecoder) (call : A → StreamCall) (known : log → list A)
    (ticks : A → Z) (new : list A) (previous : Z) : Prop := {
  kind_log : log_ok h (calls d ++ (call <$> new));
  kind_ticks : Forall (λ a, ticks a ≤ previous) (known (calls d) ++ new);
}.

Record memory_checked h (d0 : EventStreamDecoder) (l : MemoryLocals) (d : EventStreamDecoder) : Prop := {
  memory_same : d = d0;
  memory_counters : kind_checked h d on_memory_counters counters_of mc_monotonic_ticks
    (counters_records l) (previous_memory_ticks l);
  memory_maps : kind_checked h d on_memory_map maps_of mm_monotonic_ticks
    (map_records l) (previous_memory_ticks l);
  memory_agents : kind_checked h d on_agent_memory agents_of am_monotonic_ticks
    (agent_records l) (previous_memory_ticks l);
}.

Lemma kind_later {A} h d call known ticks (new : list A) previous previous' : previous ≤ previous' →
  kind_checked h d call known ticks new previous → kind_checked h d call known ticks new previous'.
Proof.
  intros Hle [Hlog Ht]. split; [done|]. eapply Forall_impl; [exact Ht|]. intros a Ha. cbn in *. lia.
Qed.

Lemma kind_snoc {A} h d (call : A → StreamCall) known ticks new previous a :
  (ends_of (calls d ++ (call <$> new)) = [] → Forall (λ b, ticks b ≤ ticks a) (known (calls d) ++ new) →
   allowed h (calls d ++ (call <$> new)) (call a)) →
  ends_of (calls d ++ (call <$> new)) = [] → previous ≤ ticks a →
  kind_checked h d call known ticks new previous → kind_checked h d call known ticks (new ++ [a]) (ticks a).
Proof.
  intros Hall Hend Hle [Hlog Ht].
  assert (Ht' : Forall (λ b, ticks b ≤ ticks a) (known (calls d) ++ new)).
  { eapply Forall_impl; [exact Ht|]. intros b Hb. cbn in *. lia. }
  split.
  - rewrite fmap_app, app_assoc. by apply log_ok_snoc; [|apply Hall].
  - rewrite app_assoc. apply Forall_app. split; [done|by constructor].
Qed.

Lemma omap_fmap_some {A B} (f : B → option A) (g : A → B) (l : list A) : (∀ a, f (g a) = Some a) → omap f (g <$> l) = l.
Proof. intros Hf. induction l as [|a l IH]; [done|]. cbn. rewrite Hf. by f_equal. Qed.

Ltac kind_of := cbv delta [scopes_of ends_of counters_of maps_of agents_of] beta; rewrite ?omap_app;
  rewrite ?omap_fmap_none by done; rewrite ?omap_fmap_some by done; rewrite ?app_nil_r.

Lemma memory_ticks_ok origin previous ticks subject u :
  check_memory_ticks origin previous ticks subject = Ok u → origin ≤ ticks ∧ previous ≤ ticks.
Proof. unfold check_memory_ticks, analysis_error_if. intros H. inv_ok. bool_facts. done. Qed.

Lemma swp_memory_record h d0 l r d : chunk_ready h d0 → in_scope (calls d0) → memory_checked h d0 l d →
  swp h (memory_record l r) d (memory_checked h d0).
Proof.
  intros Hd0 Hscope [-> Hc Hm Ha]. pose proof (ready_open h d0 Hd0) as Hopen.
  pose proof (inv_header h [] d0 ltac:(by destruct Hd0)) as Hh. unfold memory_record. wp_step.
  apply swp_throws; [by apply ready_good|]. intros decoded _. do 2 wp_step.
  destruct decoded as [[c|[m|a]]|]; [..|by apply wp_ret].
  all: wp_step; apply swp_throws; [by apply ready_good|]; rewrite Hh; intros [] [Ho Hp]%memory_ticks_ok;
    apply wp_ret; split; cbn [counters_records map_records agent_records previous_memory_ticks update];
    [done|..]; try (by eapply kind_later); eapply kind_snoc; try done; try (revert Hopen; by kind_of).
  all: intros Hend Ht; split; [done|]; split_and!; [|done|]; revert Hscope Ht; unfold in_scope; by kind_of.
Qed.

Lemma process_memory_ok payload : chunk_ok (process_memory payload).
Proof.
  intros h d Hd. unfold process_memory. wp_step. apply swp_require_scope; [by destruct Hd|]. intros Hscope.
  do 2 wp_step. wp_step. eapply swp_mono; [apply (swp_each_record h payload _ _ d (memory_checked h d))|].
  - by destruct Hd as (_ & _ & ?).
  - intros l d' Hl. rewrite (memory_same _ _ _ _ Hl). by apply ready_good.
  - intros l r d' Hl. by apply swp_memory_record.
  - destruct Hd as (Hd & _). pose proof (inv_calls _ _ _ Hd). destruct Hd. rewrite app_nil_r in *.
    split; [done|split..]; cbn; rewrite ?app_nil_r; done.
  - intros l d' [-> [Hcl Hct] [Hml Hmt] [Hal Hat]].
    assert (Hfut : stream_inv h ((on_memory_counters <$> counters_records l) ++
        (on_memory_map <$> map_records l) ++ (on_agent_memory <$> agent_records l))
      (d <| previous_memory_ticks_ := previous_memory_ticks l |>)).
    { apply (inv_future h []).
      - destruct Hd as ([] & _). rewrite app_nil_r in *. apply Forall_app in Hct, Hmt, Hat.
        split; members; rewrite ?app_nil_r; try done; naive_solver.
      - members. cbn [app]. apply log_ok_between; [done|apply log_ok_between; [done..|]|].
        + apply Forall_fmap, Forall_true. cbn. silent.
        + apply Forall_app; split; apply Forall_fmap, Forall_true; cbn; silent.
      - apply Forall_app in Hct as [_ Hct], Hmt as [_ Hmt], Hat as [_ Hat].
        rewrite !Forall_app, !Forall_fmap. done. }
    wp_step.
    apply (swp_mono _ _ _ (λ _ d1, marked d d1)).
    { destruct (memory_skipped_unknown l); cbn [mark_if]; [|apply wp_ret, marked_refl].
      apply swp_marking; [by apply ready_good|auto|done]. }
    intros [] d1 (c & p1 & p2 & p3 & p4 & Hc & ->). do 2 wp_step. wp_step.
    eapply (swp_publish_all _ _ _ _ _ _ (frame d) _ publishes_counters); [|done|].
    + eapply marked_inv; [exact Hfut|]. by exists c, p1, p2, p3, p4.
    + intros d2 Hd2 Hf2. wp_step. eapply (swp_publish_all _ _ _ _ _ _ (frame d) _ publishes_map); [done..|].
      intros d3 Hd3 Hf3. eapply (swp_publish_all _ _ _ [] _ _ (frame d) _ publishes_agent);
        [by rewrite app_nil_r|done|]. by intros.
Qed.

(** ** Metadata *)

Lemma marked_trans d1 d2 d3 : marked d1 d2 → marked d2 d3 → marked d1 d3.
Proof.
  intros (c & p1 & p2 & p3 & p4 & Hc & ->) (c' & q1 & q2 & q3 & q4 & Hc' & ->).
  exists c', q1, q2, q3, q4. split; [|done]. by rewrite Hc'.
Qed.

Lemma swp_marking_if h d b m pend (P : unit → EventStreamDecoder → Prop) :
  good h d → (∀ d, completeness_ d = None → marked d (pend d)) →
  (∀ d', marked d d' → P tt d') → swp h (mark_if b (mark_or_pend m pend)) d P.
Proof.
  intros Hd Hpend HP. destruct b; cbn [mark_if]; [by apply swp_marking|]. apply wp_ret, HP, marked_refl.
Qed.

Lemma marked_good h d d' : marked d d' → good h d → good h d'.
Proof. unfold good. by intros [_ ->]%marked_frame. Qed.

Lemma swp_apply_pending h d (P : unit → EventStreamDecoder → Prop) :
  good h d → (∀ d', marked d d' → P tt d') → swp h apply_pending_completeness d P.
Proof.
  intros Hd HP. unfold apply_pending_completeness. wp_step. wp_step.
  wp_step. apply swp_marking_if; [done|auto|]. intros d1 H1.
  wp_step. apply swp_marking_if; [by eapply marked_good|auto|]. intros d2 H2.
  pose proof (marked_trans _ _ _ H1 H2) as H12.
  wp_step. apply swp_marking_if; [by eapply marked_good|auto|]. intros d3 H3.
  pose proof (marked_trans _ _ _ H12 H3) as H13.
  apply swp_marking_if; [by eapply marked_good|auto|]. intros d4 H4. apply HP. by eapply marked_trans.
Qed.

Lemma publishes_scope : publishes publish_scope on_capture_scope.
Proof.
  intros h s future d f Hd Hf. unfold publish_scope, notify. do 2 wp_step. wp_step.
  apply swp_throws; [good_calls|]. intros t _. do 2 wp_step. wp_step.
  apply swp_apply_pending; [good_calls|]. intros d' (c & p1 & p2 & p3 & p4 & Hc & ->).
  wp_step. members. split; [|done]. pose proof (log_ok_allowed _ _ _ _ (inv_log _ _ _ Hd)) as (_ & _ & Hnone).
  publish_step.
  - by rewrite Hnone.
  - rewrite Hc. members. unfold is_Some. naive_solver.
Qed.

Record metadata_checked h (d0 : EventStreamDecoder) (l : MetadataLocals) (d : EventStreamDecoder) : Prop := {
  metadata_inv : stream_inv h [] d;
  metadata_frame : frame d = frame d0;
  metadata_hooks : log_ok h (calls d ++ (on_custom_hook_definition <$> decoded_custom_hooks l));
  metadata_ids id : id ∈ hooks_of (calls d ++ (on_custom_hook_definition <$> decoded_custom_hooks l)) →
    id ∈ custom_hook_api_ids_ d;
  metadata_scope s : decoded_scope l = Some s → capture_scope_ d = None;
}.

Lemma checked_open h d0 l d : chunk_ready h d0 → metadata_checked h d0 l d → ends_of (calls d) = [].
Proof.
  intros (_ & Hend & _) [Hd Hf _ _ _]. rewrite (inv_ends _ _ _ Hd). injection Hf as _ _ _ ->. by rewrite Hend.
Qed.

Lemma swp_metadata_record h d0 l r d : chunk_ready h d0 → metadata_checked h d0 l d →
  swp h (metadata_record l r) d (metadata_checked h d0).
Proof.
  intros Hd0 Hl. pose proof (checked_open _ _ _ _ Hd0 Hl) as Hopen. destruct Hl as [Hd Hf Hhooks Hids Hscope].
  pose proof (inv_good _ _ _ Hd) as Hlog. unfold metadata_record, set_result.
  wp_step. apply swp_throws; [done|]. intros decoded _. do 2 wp_step.
  destruct decoded as [[s|[hook|[failure|buffer]]]|].
  - wp_step. apply swp_throws; [done|]. intros [] H. unfold analysis_error_if in H. inv_ok. bool_facts.
    destruct H as [_ H]. apply wp_ret. by split.
  - wp_step. apply swp_throws; [done|]. intros [] H. unfold analysis_error_if in H. inv_ok. bool_facts.
    do 2 wp_step. apply wp_ret. split; members; try done.
    + destruct Hd. split; members; try assumption. intros id Hid. apply elem_of_union_r. auto.
    + cbn [decoded_custom_hooks update]. rewrite fmap_app, app_assoc. apply log_ok_snoc; [done|].
      split; [revert Hopen; by kind_of|]. split; [|by intros Hid%Hids].
      pose proof (inv_started _ _ _ Hd). by destruct (calls d).
    + cbn [decoded_custom_hooks update]. rewrite fmap_app, app_assoc. cbn [fmap list_fmap].
      intros id. autorewrite with log. cbv beta iota. rewrite elem_of_app, list_elem_of_singleton.
      intros [Hid| ->]; [|set_solver]. apply elem_of_union_r. auto.
  - apply wp_ret. by split.
  - wp_step. apply swp_throws; [done|]. intros [] _. repeat wp_step. split; members; try done.
    destruct Hd. split; members; assumption.
  - apply wp_ret. by split.
Qed.

Lemma failures_allowed h d fs : log_ok h (calls d) → calls d ≠ [] → ends_of (calls d) = [] →
  log_ok h (calls d ++ (on_custom_hook_failure <$> fs)).
Proof.
  intros Hlog Hne Hopen. apply log_ok_app; [done|]. intros pre c post E.
  apply fmap_app_inv in E as (fs1 & fs2 & -> & E & ->). destruct fs2 as [|f fs2]; [done|]. injection E as -> ->.
  split; [revert Hopen; by kind_of|]. by destruct (calls d).
Qed.

Lemma process_metadata_ok payload : chunk_ok (process_metadata payload).
Proof.
  intros h d Hd. unfold process_metadata. wp_step.
  eapply swp_mono; [apply (swp_each_record h payload _ _ d (metadata_checked h d))|].
  - by destruct Hd as (_ & _ & ?).
  - intros l d' Hl. eapply inv_good, (metadata_inv _ _ _ _ Hl).
  - intros l r d' Hl. by apply swp_metadata_record.
  - pose proof (ready_log _ _ Hd). destruct Hd as (Hd & _). split; cbn; rewrite ?app_nil_r; try done.
    intros id. pose proof (inv_hooks _ _ _ Hd id) as H'. by rewrite app_nil_r in H'.
  - intros l d1 Hl. pose proof (checked_open _ _ _ _ Hd Hl) as Hopen. destruct Hl as [Hd1 Hf Hhooks Hids Hscope].
    set (k := (on_custom_hook_definition <$> decoded_custom_hooks l) ++
              (on_custom_hook_failure <$> decoded_custom_hook_failures l)).
    assert (Hk : log_ok h (calls d1 ++ k)).
    { apply log_ok_between; [done|apply failures_allowed|].
      - by eapply inv_calls.
      - by apply (inv_started _ _ _ Hd1).
      - done.
      - apply Forall_fmap, Forall_true. cbn. silent. }
    assert (Hahead : Forall (ahead d1) k).
    { apply Forall_app. split; apply Forall_fmap; [|by apply Forall_true]. apply Forall_forall. intros x Hx.
      cbn. apply Hids. cbv delta [hooks_of] beta. rewrite omap_app. apply elem_of_app. right.
      apply list_elem_of_omap. exists (on_custom_hook_definition x). split; [|done]. by apply list_elem_of_fmap_2. }
    wp_step. apply (swp_mono _ _ _ (λ _ d2, stream_inv h k d2 ∧ frame d2 = frame d)).
    { destruct (decoded_scope l) as [s|].
      - specialize (Hscope s eq_refl). apply (publishes_scope h s k d1); [|done].
        apply (inv_future h [] d1 (on_capture_scope s :: k)); [done| |by constructor].
        cbn [app]. apply (log_ok_between h (calls d1) [on_capture_scope s] k).
        + apply log_ok_snoc; [by eapply inv_calls|]. split; [done|]. split; [by apply (inv_started _ _ _ Hd1)|].
          by rewrite (inv_scope _ _ _ Hd1), Hscope.
        + done.
        + apply Forall_app; split; apply Forall_fmap, Forall_true; done.
      - apply wp_ret. split; [|done]. by apply (inv_future h [] d1 k). }
    intros [] d2 [Hd2 Hf2]. wp_step. eapply swp_mark_if; [exact Hd2|auto|]. intros d3 Hd3 [Hf3 _]%marked_frame.
    wp_step. eapply (swp_publish_all _ _ _ _ _ _ (frame d) _ publishes_custom_hook); [exact Hd3|congruence|].
    intros d4 Hd4 Hf4. eapply (swp_publish_all _ _ _ [] _ _ (frame d) _ publishes_custom_hook_failure);
      [by rewrite app_nil_r|done|]. by intros.
Qed.

(** ** Statistics and the end of the trace *)

Lemma swp_single {A} h d0 payload (decode : RecordView → result exn (option A)) already message :
  chunk_ready h d0 →
  swp h (each_record payload (None, false) (single_record decode already message)) d0
    (λ l d, d = d0 ∧ ∀ a, fst l = Some a → already = false ∧ ∃ view, decode view = Ok (Some a)).
Proof.
  intros Hd0. apply (swp_each_record h payload _ _ d0
    (λ l d, d = d0 ∧ ∀ a, fst l = Some a → already = false ∧ ∃ view, decode view = Ok (Some a))).
  - by destruct Hd0 as (_ & _ & ?).
  - intros l d (-> & _). by apply ready_good.
  - intros l r d (-> & Hl). unfold single_record. wp_step. apply swp_throws; [by apply ready_good|].
    intros [a|] Ha; [|by apply wp_ret]. wp_step. apply swp_throws; [by apply ready_good|].
    intros [] H. unfold analysis_error_if in H. inv_ok. bool_facts. apply wp_ret. split; [done|].
    cbn. intros ? [= <-]. destruct H. eauto.
  - done.
Qed.

Lemma recorded_nonneg apis api : 0 ≤ default 0 (statistics_per_api apis !! api).
Proof.
  induction apis as [|a apis IH]; [done|]. cbn [statistics_per_api].
  destruct (decide (as_api_id a = api)) as [<-|Hne].
  - rewrite lookup_insert_eq. cbn. unfold recorded_of_api, recorded_calls. apply wrap64_u64.
  - by rewrite lookup_insert_ne.
Qed.

Lemma count_mismatch_le u recorded known : count_mismatch u recorded known = false → known ≤ recorded.
Proof. unfold count_mismatch. intros H. bool_facts. lia. Qed.

Lemma existsb_false {A} (f : A → bool) l x : existsb f l = false → x ∈ l → f x = false.
Proof.
  intros H Hx. destruct (f x) eqn:E; [|done]. apply not_true_iff_false in H. destruct H.
  apply existsb_exists. exists x. split; [by apply list_elem_of_In|done].
Qed.

Lemma check_statistics_le h d s : stream_inv h [] d → check_statistics s d = Ok tt →
  (size_of (events_of (calls d)) ≤
   recorded_calls (observed_calls s) (filtered_before_queue s) (dropped_events s)) ∧
  ∀ api, count_api api (events_of (calls d)) ≤ default 0 (statistics_per_api (per_api s) !! api).
Proof.
  intros Hd H. unfold check_statistics, analysis_error_if in H. inv_ok. bool_facts. split.
  - rewrite <- (inv_event_count _ _ _ Hd). by eapply count_mismatch_le.
  - intros api. rewrite <- (inv_api_count _ _ _ Hd). destruct (events_per_api_ d !! api) as [k|] eqn:Hk.
    + apply elem_of_map_to_list in Hk. cbn [default from_option].
      pose proof (existsb_false _ _ _ H Hk) as Hf.
      cbn in Hf. destruct (statistics_per_api (per_api s) !! api); [|done]. cbn. by eapply count_mismatch_le.
    + cbn. apply recorded_nonneg.
Qed.

Lemma process_statistics_ok payload : chunk_ok (process_statistics payload).
Proof.
  intros h d Hd. unfold process_statistics. wp_step. apply swp_require_scope; [by destruct Hd|]. intros Hscope.
  do 2 wp_step. wp_step. eapply swp_mono; [by apply swp_single|]. intros [o skipped] d' (-> & Ho). cbn [fst snd] in *.
  pose proof (ready_open _ _ Hd) as Hopen. destruct Hd as (Hd & _).
  wp_step. eapply swp_mark_if; [exact Hd|auto|]. intros d1 Hd1 Hm. pose proof Hm as [Hf Hcalls]%marked_frame.
  destruct o as [s|]; [|by apply wp_ret]. destruct (Ho s eq_refl) as [Hnone _]. bool_facts.
  unfold set_result, notify. do 2 wp_step. wp_step. apply swp_throws; [by eapply inv_good|]. intros [] Hcheck.
  destruct (check_statistics_le _ _ _ Hd1 Hcheck) as [Hle Happ].
  assert (Hn : esr_statistics (result_ d1) = None).
  { destruct Hm as (? & ? & ? & ? & ? & _ & ->). done. }
  assert (Hst : statistics_of (calls d1) = []) by (by rewrite (inv_statistics _ _ _ Hd1), Hn).
  assert (Hfut : stream_inv h [on_statistics s] d1).
  { apply (inv_future h [] d1); [done| |by constructor]. apply log_ok_snoc; [by eapply inv_calls|].
    unfold allowed, in_scope. rewrite Hcalls in *. done. }
  repeat wp_step. split; [|done]. clear Hd Hd1. rename Hfut into Hd. publish_step. by rewrite Hst.
Qed.

(** The members that the end of the trace leaves alone. *)
Definition end_frame (d : EventStreamDecoder) : TraceReader * Z * bool :=
  (reader_ d, stream_record_size_ d, saw_end_chunk_ d).

Lemma process_end_ok h payload d : chunk_ready h d →
  swp h (process_end_of_trace payload) d (λ _ d', stream_inv h [] d' ∧ end_frame d' = end_frame d).
Proof.
  intros Hd. unfold process_end_of_trace. wp_step. apply swp_require_scope; [by destruct Hd|]. intros Hscope.
  do 2 wp_step. wp_step. eapply swp_mono; [by apply swp_single|]. intros [o skipped] d' (-> & Ho). cbn [fst snd] in *.
  pose proof (ready_open _ _ Hd) as Hopen. destruct Hd as (Hd & Hend & _).
  wp_step. eapply swp_mark_if; [exact Hd|auto|]. intros d1 Hd1 Hm. pose proof Hm as [Hf Hcalls]%marked_frame.
  assert (Hn : esr_end_of_trace (result_ d1) = None) by (by injection Hf as _ _ _ ->).
  assert (Hef : end_frame d1 = end_frame d) by (injection Hf as E1 E2 E3 _; unfold end_frame; congruence).
  destruct o as [e|]; [|by apply wp_ret].
  unfold set_result, notify. do 2 wp_step. wp_step. apply swp_throws; [by eapply inv_good|]. intros [] Hcheck.
  unfold check_end_of_trace, analysis_error_if in Hcheck. inv_ok. bool_facts. rewrite (inv_header _ _ _ Hd1) in *.
  assert (Hfut : stream_inv h [on_end_of_trace e] d1).
  { apply (inv_future h [] d1); [done| |by constructor]. apply log_ok_snoc; [by eapply inv_calls|].
    pose proof (inv_known_events _ _ _ Hd1) as Hk. pose proof (inv_modules _ _ _ Hd1) as Ht.
    pose proof (inv_known_modules _ _ _ Hd1) as Hkm. rewrite app_nil_r in *. apply tables_ticks in Ht.
    split; [by rewrite Hcalls|]. unfold in_scope. rewrite Hcalls in *. split_and!; [done|lia| |].
    - eapply Forall_impl; [exact Hk|]. cbn. intros e' ?. lia.
    - eapply Forall_impl; [exact Ht|]. cbn. intros r ?. lia. }
  wp_step. eapply swp_mark; [exact Hfut|auto|]. intros d2 Hd2 Hm2. pose proof Hm2 as [Hf2 Hcalls2]%marked_frame.
  assert (Hn2 : ends_of (calls d2) = []) by (by rewrite Hcalls2, Hcalls).
  assert (Hef2 : end_frame d2 = end_frame d) by (injection Hf2 as E1 E2 E3 _; rewrite <- Hef; unfold end_frame; congruence).
  repeat wp_step. split; [|done]. clear Hd Hd1 Hfut. publish_step. by rewrite Hn2.
Qed.

(** ** Any chunk *)

Lemma swp_mark_event_range h d descriptor (b : bool) : stream_inv h [] d →
  swp h (if b then mark_unknown_event_data ;; include_future_event_range descriptor
         else mark_unknown_record_skipped) d
    (λ _ d', stream_inv h [] d' ∧ frame d' = frame d).
Proof.
  intros Hd. destruct b.
  - unfold mark_unknown_event_data, include_future_event_range, set_result. repeat wp_step.
    eapply (swp_mark h []); [|auto|].
    { destruct Hd. split; members; assumption. }
    intros d1 Hd1 [Hf _]%marked_frame. repeat wp_step. destruct (_ <? _) eqn:Hlt; members.
    + split; [|done]. pose proof (inv_known_events _ _ _ Hd1) as Hk. destruct Hd1.
      split; members; try assumption. bool_facts. eapply Forall_impl; [exact Hk|]. cbn. intros e ?. lia.
    + split; [|done]. destruct Hd1. split; members; assumption.
  - eapply (swp_mark h []); [done|auto|]. by intros d1 Hd1 [Hf _]%marked_frame.
Qed.

Definition chunk_done h (d d' : EventStreamDecoder) : Prop :=
  stream_inv h [] d' ∧ reader_ d' = reader_ d ∧ stream_record_size_ d' = stream_record_size_ d ∧
  (saw_end_chunk_ d' = false → esr_end_of_trace (result_ d') = None).

Lemma frame_done h d d' : chunk_ready h d → stream_inv h [] d' → frame d' = frame d → chunk_done h d d'.
Proof. intros (_ & Hend & _) Hd' Hf. injection Hf as ? ? ? Hn. split_and!; try done. by rewrite Hn. Qed.

Lemma frame_ready h d d' : chunk_ready h d → stream_inv h [] d' → frame d' = frame d → chunk_ready h d'.
Proof. intros (_ & Hend & Hs) Hd' Hf. injection Hf as ? E ? Hn. unfold chunk_ready. rewrite Hn, E. done. Qed.

Lemma inv_saw_end h d : stream_inv h [] d → stream_inv h [] (d <| saw_end_chunk_ := true |>).
Proof. intros []. split; members; assumption. Qed.

Lemma process_chunk_ok h d chunk : chunk_ready h d →
  swp h (process_chunk chunk) d (λ _ d', chunk_done h d d').
Proof.
  intros Hd. unfold process_chunk. wp_step. pose proof Hd as (Hinv & _).
  eapply swp_mark_if; [exact Hinv|auto|]. intros d1 Hd1 [Hf1 _]%marked_frame. wp_step.
  apply (swp_mono _ _ _ (λ _ d2, d2 = d1)).
  { destruct (chunk_type_is _ _); cbn [mark_if]; [|by apply wp_ret]. wp_step.
    apply swp_require_scope; [done|]. intros _. apply swp_require_no_statistics; done. }
  intros _ d2 ->. pose proof (frame_ready _ _ _ Hd Hd1 Hf1) as Hr1. wp_step.
  - wp_step. eapply (swp_mark h []); [done|auto|]. intros d2 Hd2 [Hf2 _]%marked_frame. wp_step.
    eapply swp_mono; [by apply swp_mark_event_range|]. intros [] d3 [Hd3 Hf3].
    destruct (chunk_type_is _ _); cbn [mark_if].
    + apply wp_modify. split; [by apply inv_saw_end|]. members. injection Hf1 as ? ? ? ?.
      injection Hf2 as ? ? ? ?. injection Hf3 as ? ? ? ?. split_and!; [congruence..|done].
    + apply wp_ret. apply frame_done; [done..|congruence].
  - assert (Hplain : ∀ p, (∀ payload, chunk_ok (p payload)) →
      swp h (throws (require_empty_sequence_range (descriptor (tc_header chunk))) ;; p (tc_payload chunk)) d1
        (λ _ d', chunk_done h d d')).
    { intros p Hp. wp_step. apply swp_throws; [by eapply inv_good|]. intros _ _.
      eapply swp_mono; [by apply Hp|]. intros [] d2 [Hd2 Hf2]. apply frame_done; [done..|congruence]. }
    destruct (cd_type _); try (apply Hplain; auto using process_metadata_ok, process_modules_ok,
      process_stacks_ok, process_statistics_ok, process_memory_ok).
    + eapply swp_mono; [by apply process_events_ok|]. intros [] d2 [Hd2 Hf2].
      apply frame_done; [done..|congruence].
    + do 2 wp_step. apply swp_throws; [by eapply inv_good|]. intros _ _.
      eapply swp_mono; [by apply process_end_ok|]. intros [] d2 [Hd2 Hf2]. apply wp_modify.
      split; [by apply inv_saw_end|]. members. injection Hf1 as ? ? ? ?. injection Hf2 as ? ? ?.
      split_and!; [congruence..|done].
Qed.
