(* ===== verification/StreamTheorems.v ===== *)
(** * The event stream: theorems

    The run of the decoder of EventStream.v over any input: it ends, the calls it
    makes keep the contract of StreamContract.v, and its result is what the calls
    said. *)

From S2P Require Import Prelude OrderedMap Bytes WireFormat RecordCursor RecordInterface Compression Event Completeness TraceData EventCodec TraceReader TraceWriter TraceFile TraceReaderSafety EventStream StreamContract StreamInvariant StreamChunks.

Section theorems.
Context {L : CompressionLibrary} {Laws : CompressionLaws L}.

(** What holds between two turns of the run. *)
Record run_inv (h : FileHeader) (d : EventStreamDecoder) : Prop := {
  run_stream : stream_inv h [] d;
  run_size : u32 (stream_record_size_ d);
  run_terminal : terminal_status_ (reader_ d) ≠ Some Status_kChunk;
  run_end : saw_end_chunk_ d = false → esr_end_of_trace (result_ d) = None;
}.

Lemma swp_synchronize h d : run_inv h d →
  swp h synchronize_reader_understanding d (λ _ d', run_inv h d' ∧ reader_ d' = reader_ d ∧
    saw_end_chunk_ d' = saw_end_chunk_ d).
Proof.
  intros [Hd Hs Ht He]. unfold synchronize_reader_understanding. do 2 wp_step. wp_step; [|by apply wp_ret].
  do 2 wp_step. eapply (swp_mark h []); [|auto|].
  { destruct Hd. split; members; assumption. }
  intros d1 Hd1 [Hf _]%marked_frame. injection Hf as E1 E2 E3 E4. members.
  split_and!; [|done|done]. split; [done|by rewrite E2|by rewrite E1|]. rewrite E3, E4. done.
Qed.

Lemma swp_reader_call h {A} (p : reading A) d (P : A → EventStreamDecoder → Prop)
    (Q : A → TraceReader → Prop) : good h d →
  rwp p (reader_ d) Q → (∀ a r, Q a r → P a (d <| reader_ := r |>)) →
  swp h (reader_call p) d P.
Proof.
  intros Hd Hp HP. unfold wp, reader_call in *. destruct (p (reader_ d)) as [[a|e] r]; [by apply HP|].
  split; [|done]. by destruct e.
Qed.

Lemma inv_reader h d r : stream_inv h [] d → stream_inv h [] (d <| reader_ := r |>).
Proof. intros []. split; members; assumption. Qed.

Definition turn_done (h : FileHeader) (d : EventStreamDecoder) (again : bool) (d' : EventStreamDecoder)
    : Prop :=
  run_inv h d' ∧ (again = true → (held (reader_ d') < held (reader_ d))%nat).

Lemma swp_run_turn h d : run_inv h d → swp h run_turn d (turn_done h d).
Proof.
  intros [Hd Hs Ht He]. unfold run_turn. wp_step.
  eapply swp_reader_call; [by eapply inv_good|by apply wp_read_next_chunk|]. intros res r [_ Hres]. wp_step.
  set (d1 := d <| reader_ := r |>).
  assert (Hd1 : run_inv h d1).
  { split; [by apply inv_reader|done|change (terminal_status_ r ≠ Some Status_kChunk)|done].
    destruct (crr_chunk res); [by destruct Hres as (_ & _ & -> & _)|].
    destruct Hres as (? & _ & ->). congruence. }
  eapply swp_mono; [by apply swp_synchronize|]. intros [] d2 (Hd2 & Hr2 & _).
  destruct Hd2 as [Hi2 Hs2 Ht2 He2]. pose proof (inv_good _ _ _ Hi2) as Hlog2.
  destruct (crr_status res) eqn:Hst.
  - destruct (crr_chunk res) as [chunk|] eqn:Hchunk; [|by destruct Hres]. destruct Hres as (_ & Hheld & _ & _).
    do 2 wp_step. wp_step. apply swp_throws; [done|]. intros [] Hopen. unfold analysis_error_if in Hopen.
    inv_ok. wp_step. eapply swp_mono; [apply process_chunk_ok|].
    + split_and!; [done|by apply He2|done].
    + intros [] d3 (Hi3 & E1 & E2 & He3). apply wp_ret. split; [|by rewrite E1, Hr2].
      split; [done|by rewrite E2|by rewrite E1|done].
  - apply wp_ret. by split.
  - unfold set_result. repeat wp_step. eapply (swp_mark h []); [|auto|].
    { destruct Hi2. split; members; assumption. }
    intros d3 Hd3 [Hf _]%marked_frame. injection Hf as E1 E2 E3 E4. apply wp_ret. split; [|done].
    split; [done|by rewrite E2|by rewrite E1|]. rewrite E3, E4. done.
Qed.

Lemma swp_run_loop h fuel d : (held (reader_ d) < fuel)%nat → run_inv h d →
  swp h (run_loop fuel) d (λ _ d', run_inv h d').
Proof.
  revert d. induction fuel as [|fuel IH]; intros d Hfuel Hd; [lia|]. cbn [run_loop]. wp_step.
  eapply swp_mono; [by apply swp_run_turn|]. intros [] d' [Hd' Hheld]; [|by apply wp_ret].
  apply IH; [|done]. specialize (Hheld eq_refl). lia.
Qed.

(** The result of a run from the members it ends with. *)
Definition run_ends (h : FileHeader) (result : EventStreamResult) (d : EventStreamDecoder) : Prop :=
  run_inv h d ∧ run_result d = Ok result.

Lemma swp_run h reader size : u32 size → terminal_status_ reader = None →
  swp h run (EventStreamDecoder_new h reader size) (run_ends h).
Proof.
  intros Hsize Hterm. unfold run, notify. do 2 wp_step. do 2 wp_step. wp_step.
  set (d0 := EventStreamDecoder_new h reader size).
  assert (Hd0 : run_inv h (d0 <| calls := calls d0 ++ [on_file_header h] |>)).
  { split; [|done|by members; cbn; rewrite Hterm|done].
    assert (Hlog : log_ok h [on_file_header h]) by by apply (log_ok_snoc h []); [apply log_ok_nil|].
    split; cbn; try done; try (by constructor); try lia.
    - apply tables_ok_new.
    - intros id. set_solver.
    - intros id. set_solver. }
  eapply swp_mono; [by apply swp_synchronize|]. intros [] d1 (Hd1 & Hr1 & _). wp_step.
  eapply swp_mono; [apply swp_run_loop; [|done]|].
  { rewrite Hr1. unfold held. cbn. lia. }
  intros [] d2 Hd2. do 2 wp_step. apply swp_throws; [by eapply inv_good, (run_stream _ _ Hd2)|].
  intros result Hresult. by split.
Qed.

(** C9: The contract of the event stream.  Whatever bytes are analyzed, the analysis
    ends, and every callback it makes is one the contract allows after those before
    it: the header first and the capture scope before any record, events of strictly
    increasing sequence and never decreasing time within the trace, each module load
    in an address range no live module uses, each unload of a live module, each stack
    frame inside a module loaded before, no event after the statistics, and nothing
    after the end of the trace. *)
Theorem event_stream_contract (input : istream) (options : EventStreamOptions)
    (result : Prelude.result fault EventStreamResult) (calls : log) :
  u32 (maximum_record_size options) →
  analyze_event_stream input options = (result, calls) →
  result ≠ Throw OutOfFuel ∧
  match calls with
  | [] => ∃ e, result = Throw (Thrown e) ∧ exn_kind e = TraceReadError
  | first :: _ => ∃ header, first = on_file_header header ∧ log_ok header calls
  end.
Proof.
  intros Hsize. unfold analyze_event_stream, TraceReader_new.
  pose proof (wp_read_file_header (new_reader input (reader_options options)) eq_refl) as Hh.
  unfold wp in Hh. destruct (read_file_header _) as [[h|[e|]] r]; [|intros [= <- <-]; split; [done|by exists e]|done].
  destruct Hh as (_ & _ & _ & Hterm).
  pose proof (swp_run h r (maximum_record_size options) Hsize Hterm) as Hrun. unfold wp in Hrun.
  assert (Hfirst : ∀ l, log_ok h l → ∀ c l', l = c :: l' → ∃ header, c = on_file_header header ∧ log_ok header l).
  { intros l Hl c l' ->. pose proof (Hl [] c l' eq_refl) as [_ Hc]. exists h.
    destruct c; try (by destruct Hc as [[] _]); try done; try (by destruct Hc). by destruct Hc as [_ ->]. }
  destruct (run _) as [[res|e] d]; intros [= <- <-].
  - destruct Hrun as [[Hinv _ _ _] _]. split; [done|]. pose proof (inv_calls _ _ _ Hinv).
    pose proof (inv_started _ _ _ Hinv). destruct (EventStream.calls d) eqn:E; [done|]. by eapply Hfirst.
  - destruct Hrun as (Hne & Hs & Hlog). split; [naive_solver|]. destruct (EventStream.calls d) eqn:E; [done|].
    by eapply Hfirst.
Qed.

Lemma analyze_ends input options result log : u32 (maximum_record_size options) →
  analyze_event_stream input options = (Ok result, log) →
  ∃ header d, run_ends header result d ∧ calls d = log ∧ FileHeader_valid header.
Proof.
  intros Hsize. unfold analyze_event_stream, TraceReader_new.
  pose proof (wp_read_file_header (new_reader input (reader_options options)) eq_refl) as Hh.
  unfold wp in Hh. destruct (read_file_header _) as [[h|e] r]; [|done]. destruct Hh as (Hh & _ & _ & Hterm).
  pose proof (swp_run h r (maximum_record_size options) Hsize Hterm) as Hrun. unfold wp in Hrun.
  destruct (run _) as [[res|e] d]; [|done]. intros [= <- <-]. by eexists _, _.
Qed.

Lemma run_result_header h result d : run_ends h result d → esr_file_header result = h.
Proof.
  intros [[Hd _ _ _] Hres]. pose proof (inv_header _ _ _ Hd) as <-. unfold run_result in Hres.
  destruct (capture_scope_ d); [|by inv_ok]. destruct (completeness_ d); [|by inv_ok]. by injection Hres as <-.
Qed.

Lemma log_ok_first h c l : log_ok h (c :: l) → c = on_file_header h.
Proof.
  intros Hl. pose proof (Hl [] c l eq_refl) as [_ Hc].
  destruct c; try (by destruct Hc as [[] _]); try done; try (by destruct Hc). by destruct Hc as [_ ->].
Qed.

(** The calls of an analysis that returns. *)
Lemma analyze_log input options result log : u32 (maximum_record_size options) →
  analyze_event_stream input options = (Ok result, log) →
  FileHeader_valid (esr_file_header result) ∧ log_ok (esr_file_header result) log ∧
  ∃ rest, log = on_file_header (esr_file_header result) :: rest.
Proof.
  intros Hsize Hrun. destruct (analyze_ends _ _ _ _ Hsize Hrun) as (h & d & Hends & <- & Hh).
  rewrite (run_result_header _ _ _ Hends). destruct Hends as [[Hd _ _ _] _].
  pose proof (inv_calls _ _ _ Hd) as Hlog. pose proof (inv_started _ _ _ Hd). split_and!; [done..|].
  destruct (EventStream.calls d) as [|c l]; [done|]. exists l. f_equal. by eapply log_ok_first.
Qed.

(** C38: The result of an analysis is what its callbacks were told: its header and
    capture scope are the ones announced, its statistics and end of trace the ones
    announced if any, each count the number of calls of its kind, and its known end
    covers every event. *)
Theorem event_stream_accounting (input : istream) (options : EventStreamOptions)
    (result : EventStreamResult) (calls : log) :
  u32 (maximum_record_size options) →
  analyze_event_stream input options = (Ok result, calls) →
  (head calls = Some (on_file_header (esr_file_header result)) ∧
   scopes_of calls = [esr_capture_scope result] ∧
   statistics_of calls = option_list (esr_statistics result) ∧
   ends_of calls = option_list (esr_end_of_trace result)) ∧
  (event_count result = size_of (events_of calls) ∧
   loss_record_count result = size_of (losses_of calls) ∧
   module_load_count result = size_of (loads_of calls) ∧
   module_unload_count result = size_of (unloads_of calls) ∧
   stack_definition_count result = size_of (stacks_of calls) ∧
   memory_counters_count result = size_of (counters_of calls) ∧
   memory_map_count result = size_of (maps_of calls) ∧
   memory_agent_count result = size_of (agents_of calls)) ∧
  Forall (λ e, sequence_of e ≤ known_sequence_end result ∧ ticks_of e ≤ known_monotonic_end result)
    (events_of calls).
Proof.
  intros Hsize Hrun. destruct (analyze_ends _ _ _ _ Hsize Hrun) as (h & d & [[Hd _ _ _] Hres] & <- & _).
  pose proof (inv_calls _ _ _ Hd) as Hlog. pose proof (inv_header _ _ _ Hd) as Hheader.
  pose proof (inv_scope _ _ _ Hd) as Hsc. unfold run_result in Hres.
  destruct (capture_scope_ d) as [scope|] eqn:Hscope; [|by inv_ok].
  destruct (completeness_ d) as [t|]; [|by inv_ok]. injection Hres as <-.
  destruct Hd. rewrite !app_nil_r in *. members. split_and!; try assumption.
  - destruct (EventStream.calls d) as [|c l] eqn:E; [done|].
    pose proof (Hlog [] c l eq_refl) as [_ Hc]. rewrite Hheader.
    destruct c; try (by destruct Hc as [[] _]); try done; try (by destruct Hc). by destruct Hc as [_ ->].
Qed.

End theorems.
