(* ===== verification/FilteredEvents.v ===== *)
(** * Filtered events

    [analyze_filtered_events] of src/src/analyzer/filter.cpp: a client of the event
    stream that passes its calls on to another client, of the events those inside
    the window that the filter selects only, and counts both kinds. *)

From S2P Require Import Prelude Bytes WireFormat Compression Event TraceReader TraceTime AnalysisFilter EventStream StreamContract StreamTheorems.

(** [FilteredEventsWindow] and [StacksWindow]: [from] is inclusive, [to] is not. *)
Record EventsWindow : Set := { from : WindowBound; to : option WindowBound }.

Definition in_window (window : EventsWindow) (header : FileHeader) (event : Event) : result exn bool :=
  after ← window_at_or_after (from window) header event;
  if negb after then Ok false else
  match to window with
  | None => Ok true
  | Some to => window_before to header event
  end.

Record FilteredEventsResult : Set := {
  fe_trace : EventStreamResult;
  matched_event_count : Z;
  filtered_event_count : Z;
}.

(** The variables the lambdas capture, and the state of the caller's callbacks. *)
Record FilteredState (S : Type) : Type := {
  fs_header : option FileHeader;
  fs_matched : Z;
  fs_filtered : Z;
  fs_client : S;
}.
Arguments fs_header {S}. Arguments fs_matched {S}. Arguments fs_filtered {S}. Arguments fs_client {S}.

#[global] Instance FilteredState_members {S} : Members (FilteredState S) := λ s,
  {| fs_header := fs_header s; fs_matched := fs_matched s; fs_filtered := fs_filtered s;
     fs_client := fs_client s |}.

Definition filter_increment (value : Z) (subject : string) : result exn Z :=
  if value =? u64_max then throw AnalysisFilterError (subject +:+ " count overflow") else Ok (value + 1).

Section filtered.
Context {S : Type} (filter : AnalysisFilter) (client : StreamCall → proc S exn unit).
Context (resolver : EventMetadataResolver) (window : EventsWindow).

(** [callbacks.on_...(...)] *)
Definition call_client (call : StreamCall) : proc (FilteredState S) exn unit := λ s,
  let '(r, c) := client call (fs_client s) in (r, s <| fs_client := c |>).

Definition filter_event (event : Event) : proc (FilteredState S) exn unit :=
  s ← get_state;
  header ← pure match fs_header s with
                | Some header => Ok header
                | None => throw AnalysisFilterError "event appeared before FileHeader"
                end;
  inside ← pure (in_window window header event);
  matches ← (if negb inside then mret false else pure (matches_event filter event resolver));
  if negb matches then
    count ← pure (filter_increment (fs_filtered s) "filtered event");
    modify (λ s, s <| fs_filtered := count |>)
  else
    count ← pure (filter_increment (fs_matched s) "matched event");
    modify (λ s, s <| fs_matched := count |>) ;;
    call_client (on_event event).

Definition filtered_call (call : StreamCall) : proc (FilteredState S) exn unit :=
  match call with
  | on_file_header header =>
      modify (λ s, s <| fs_header := Some header |>) ;; call_client (on_file_header header)
  | on_event event => filter_event event
  | call => call_client call
  end.

Definition analyze_filtered_events {L : CompressionLibrary} (input : istream)
    (options : EventStreamOptions) : proc S fault FilteredEventsResult := λ s,
  if requires_metadata filter && negb (has_value resolver)
  then (lift_exn no_resolver, s)
  else
    let '(r, s) := analyze_with filtered_call input options
      {| fs_header := None; fs_matched := 0; fs_filtered := 0; fs_client := s |} in
    ((λ trace, {| fe_trace := trace; matched_event_count := fs_matched s;
                  filtered_event_count := fs_filtered s |}) <$> r, fs_client s).
End filtered.

(** ** What the caller is told *)

Section told.
Context {S : Type} (filter : AnalysisFilter) (client : StreamCall → proc S exn unit).
Context (resolver : EventMetadataResolver) (window : EventsWindow) (h : FileHeader).

Definition selects (event : Event) : bool :=
  holds (in_window window h event) && holds (matches_event filter event resolver).

Definition passes (call : StreamCall) : bool :=
  match call with on_event event => selects event | _ => true end.

Lemma filter_event_ok event (s s' : FilteredState S) : fs_header s = Some h →
  filter_event filter client resolver window event s = (Ok tt, s') →
  fs_header s' = Some h ∧
  deliver client (if selects event then [on_event event] else []) (fs_client s) = (Ok tt, fs_client s') ∧
  fs_matched s' = fs_matched s + (if selects event then 1 else 0) ∧
  fs_matched s' + fs_filtered s' = fs_matched s + fs_filtered s + 1.
Proof.
  intros Hh Hrun. unfold filter_event in Hrun. unfold selects.
  apply proc_bind_ok in Hrun as (s1 & s2 & [= <- <-] & Hrun). rewrite Hh, pure_bind in Hrun.
  rewrite pure_bind in Hrun. destruct (in_window window h event) as [inside|]; [|done]. cbn [holds].
  apply proc_bind_ok in Hrun as (matches & s1 & Hm & Hrun).
  assert (s1 = s ∧ matches = inside && holds (matches_event filter event resolver)) as [-> ->].
  { destruct inside; cbn [negb] in Hm; [|by injection Hm as <- <-].
    unfold pure in Hm. injection Hm as Hm <-. by rewrite Hm. }
  clear Hm. destruct (inside && _); cbn [negb] in Hrun.
  - rewrite pure_bind in Hrun. unfold filter_increment in Hrun. destruct (fs_matched s =? u64_max); [done|].
    apply proc_bind_ok in Hrun as ([] & s1 & [= <-] & Hrun). unfold call_client in Hrun. cbn in *.
    unfold mbind, proc_bind. destruct (client _ _) as [[[]|] c]; [|done]. injection Hrun as <-. cbn.
    split_and!; [done..|lia].
  - rewrite pure_bind in Hrun. unfold filter_increment in Hrun. destruct (fs_filtered s =? u64_max); [done|].
    injection Hrun as <-. cbn. split_and!; [done..|lia|lia].
Qed.

Lemma filtered_calls_ok calls (s s' : FilteredState S) : fs_header s = Some h →
  Forall (λ c, opens c = false) calls →
  deliver (filtered_call filter client resolver window) calls s = (Ok tt, s') →
  deliver client (base.filter (λ c, passes c = true) calls) (fs_client s) = (Ok tt, fs_client s') ∧
  fs_matched s' = fs_matched s + size_of (base.filter (λ e, selects e = true) (events_of calls)) ∧
  fs_matched s' + fs_filtered s' = fs_matched s + fs_filtered s + size_of (events_of calls).
Proof.
  intros Hh Hopens. revert s Hh. induction Hopens as [|call calls Hcall _ IH]; intros s Hh Hrun; cbn [deliver] in Hrun.
  { injection Hrun as <-. split_and!; [done|unfold size_of; cbn; lia..]. }
  apply proc_bind_ok in Hrun as ([] & s1 & Hfirst & Hrest).
  assert (Hother : ∀ c, events_of (c :: calls) = events_of calls → passes c = true →
    call_client client c s = (Ok tt, s1) →
    deliver client (base.filter (λ c, passes c = true) (c :: calls)) (fs_client s) = (Ok tt, fs_client s') ∧
    fs_matched s' = fs_matched s + size_of (base.filter (λ e, selects e = true) (events_of (c :: calls))) ∧
    fs_matched s' + fs_filtered s' = fs_matched s + fs_filtered s + size_of (events_of (c :: calls))).
  { intros c -> Hc Hone. rewrite filter_cons_True by done. cbn [deliver].
    unfold call_client in Hone. unfold mbind, proc_bind.
    destruct (client c (fs_client s)) as [[[]|] s2]; [|done]. injection Hone as <-. by apply IH in Hrest. }
  destruct call as [| | | | | | |event| | | | | |]; try (by apply Hother). clear Hother.
  apply filter_event_ok in Hfirst as (Hh1 & Hone & Hm & Hf); [|done]. apply IH in Hrest as (Hrest & Hm' & Hf'); [|done].
  change (events_of (on_event event :: calls)) with (event :: events_of calls).
  destruct (selects event) eqn:E.
  - rewrite !filter_cons_True by done. cbn [deliver] in *. apply proc_bind_ok in Hone as ([] & s2 & Hone & [= ->]).
    rewrite (proc_bind_run _ _ _ _ _ Hone). split_and!; [done|unfold size_of in *; cbn [length]; lia..].
  - rewrite !filter_cons_False by (cbn; congruence). injection Hone as ->.
    split_and!; [done|unfold size_of in *; cbn [length]; lia..].
Qed.
End told.

Lemma filtered_events_calls {L : CompressionLibrary} {Laws : CompressionLaws L} {S : Type}
    (filter : AnalysisFilter) (client : StreamCall → proc S exn unit) (resolver : EventMetadataResolver)
    (window : EventsWindow) (input : istream) (options : EventStreamOptions)
    (s s' : S) (result : FilteredEventsResult) :
  u32 (maximum_record_size options) →
  analyze_filtered_events filter client resolver window input options s = (Ok result, s') →
  let calls := (analyze_event_stream input options).2 in
  let header := esr_file_header (fe_trace result) in
  (analyze_event_stream input options).1 = Ok (fe_trace result) ∧
  deliver client (base.filter (λ c, passes filter resolver window header c = true) calls) s = (Ok tt, s') ∧
  matched_event_count result =
    size_of (base.filter (λ e, selects filter resolver window header e = true) (events_of calls)) ∧
  matched_event_count result + filtered_event_count result = size_of (events_of calls).
Proof.
  intros Hsize Hrun. unfold analyze_filtered_events in Hrun. destruct (_ && _); [done|].
  destruct (analyze_with _ _ _ _) as [[trace|] fs] eqn:Hwith; [|done]. injection Hrun as <- <-.
  apply analyze_with_ok in Hwith as (calls & Hstream & Hcalls). rewrite Hstream. cbn [fst snd fe_trace].
  destruct (analyze_log _ _ _ _ Hsize Hstream) as (_ & Hlog & rest & ->).
  pose proof (opened_once _ _ Hlog) as Hopens. cbn [deliver] in Hcalls.
  apply proc_bind_ok in Hcalls as ([] & s1 & Hfirst & Hcalls). cbn in Hfirst. unfold call_client in Hfirst.
  rewrite filter_cons_True by done. cbn [deliver]. unfold mbind, proc_bind in *. cbn in Hfirst.
  destruct (client _ s) as [[[]|] c]; [|done]. injection Hfirst as <-.
  apply (filtered_calls_ok _ _ _ _ (esr_file_header trace)) in Hcalls as (Hd & Hm & Hf); [|done..]. cbn in *.
  split_and!; [done|done|lia..].
Qed.

(** C24: What a caller of the filtered analysis is told.  When the analysis returns,
    the caller's callbacks have been called with exactly the calls of the event
    stream, in order, less the events outside the window or rejected by the filter,
    and without an exception; the events passed on and those held back are counted
    exactly. *)
Theorem filtered_events_exact {L : CompressionLibrary} {Laws : CompressionLaws L} {S : Type}
    (filter : AnalysisFilter) (client : StreamCall → proc S exn unit) (resolver : EventMetadataResolver)
    (window : EventsWindow) (input : istream) (options : EventStreamOptions)
    (s s' : S) (result : FilteredEventsResult) :
  u32 (maximum_record_size options) →
  analyze_filtered_events filter client resolver window input options s = (Ok result, s') →
  let calls := (analyze_event_stream input options).2 in
  let header := esr_file_header (fe_trace result) in
  (analyze_event_stream input options).1 = Ok (fe_trace result) ∧
  deliver client (base.filter (λ c, passes filter resolver window header c = true) calls) s = (Ok tt, s') ∧
  matched_event_count result =
    size_of (base.filter (λ e, selects filter resolver window header e = true) (events_of calls)) ∧
  matched_event_count result + filtered_event_count result = size_of (events_of calls).
Proof. apply filtered_events_calls. Qed.
