(* ===== verification/HookRegistry.v ===== *)
(** * The hook registries

    The built-in hooks of src/include/noleax/agent/linux/hook_registry.hpp and
    src/include/noleax/agent/windows/hook_registry.hpp with their lookups, and the names
    [group_api_names] of src/src/analyzer/stacks.cpp gives to API ids.  Function names
    that both headers declare carry the platform here. *)

From S2P Require Import Prelude Bytes Text TraceData.

(** ** API ids *)

Definition kRtlAllocateHeapApiId : Z := 1.
Definition kRtlFreeHeapApiId : Z := 2.
Definition kRtlReAllocateHeapApiId : Z := 3.
Definition kRtlCreateHeapApiId : Z := 4.
Definition kRtlDestroyHeapApiId : Z := 5.
Definition kNtAllocateVirtualMemoryApiId : Z := 6.
Definition kNtFreeVirtualMemoryApiId : Z := 7.
Definition kNtMapViewOfSectionApiId : Z := 8.
Definition kNtUnmapViewOfSectionApiId : Z := 9.

Definition kMallocApiId : Z := 10.
Definition kCallocApiId : Z := 11.
Definition kReallocApiId : Z := 12.
Definition kFreeApiId : Z := 13.
Definition kPosixMemalignApiId : Z := 14.
Definition kAlignedAllocApiId : Z := 15.
Definition kMemalignApiId : Z := 16.
Definition kReallocarrayApiId : Z := 17.
Definition kMmapApiId : Z := 18.
Definition kMunmapApiId : Z := 19.
Definition kMremapApiId : Z := 20.

(** ** Linux *)

Inductive LinuxHookProfile : Set := Linux_kGlibcHeap | Linux_kVirtualMemory | Linux_kNative.
Inductive LinuxHookApiGroup : Set := LinuxGroup_kGlibcHeap | LinuxGroup_kVirtualMemory.

Inductive LinuxLogicalHookApi : Set :=
  | Linux_kMalloc | Linux_kCalloc | Linux_kRealloc | Linux_kFree | Linux_kPosixMemalign
  | Linux_kAlignedAlloc | Linux_kMemalign | Linux_kReallocarray | Linux_kMmap | Linux_kMunmap
  | Linux_kMremap.

#[global] Instance LinuxHookApiGroup_eq_dec : EqDecision LinuxHookApiGroup.
Proof. solve_decision. Defined.
#[global] Instance LinuxLogicalHookApi_eq_dec : EqDecision LinuxLogicalHookApi.
Proof. solve_decision. Defined.

Record LinuxHookRegistryEntry : Set := {
  lh_logical_api : LinuxLogicalHookApi;
  lh_api_id : Z;
  lh_canonical_name : string;
  lh_module_name : string;
  lh_group : LinuxHookApiGroup;
  lh_physical_exports : list string;   (* std::array of one *)
}.

Definition kLinuxHookRegistry : list LinuxHookRegistryEntry :=
  [{| lh_logical_api := Linux_kMalloc; lh_api_id := kMallocApiId; lh_canonical_name := "malloc";
      lh_module_name := "libc.so.6"; lh_group := LinuxGroup_kGlibcHeap; lh_physical_exports := ["malloc"] |};
   {| lh_logical_api := Linux_kCalloc; lh_api_id := kCallocApiId; lh_canonical_name := "calloc";
      lh_module_name := "libc.so.6"; lh_group := LinuxGroup_kGlibcHeap; lh_physical_exports := ["calloc"] |};
   {| lh_logical_api := Linux_kRealloc; lh_api_id := kReallocApiId; lh_canonical_name := "realloc";
      lh_module_name := "libc.so.6"; lh_group := LinuxGroup_kGlibcHeap; lh_physical_exports := ["realloc"] |};
   {| lh_logical_api := Linux_kFree; lh_api_id := kFreeApiId; lh_canonical_name := "free";
      lh_module_name := "libc.so.6"; lh_group := LinuxGroup_kGlibcHeap; lh_physical_exports := ["free"] |};
   {| lh_logical_api := Linux_kPosixMemalign; lh_api_id := kPosixMemalignApiId; lh_canonical_name := "posix_memalign";
      lh_module_name := "libc.so.6"; lh_group := LinuxGroup_kGlibcHeap; lh_physical_exports := ["posix_memalign"] |};
   {| lh_logical_api := Linux_kAlignedAlloc; lh_api_id := kAlignedAllocApiId; lh_canonical_name := "aligned_alloc";
      lh_module_name := "libc.so.6"; lh_group := LinuxGroup_kGlibcHeap; lh_physical_exports := ["aligned_alloc"] |};
   {| lh_logical_api := Linux_kMemalign; lh_api_id := kMemalignApiId; lh_canonical_name := "memalign";
      lh_module_name := "libc.so.6"; lh_group := LinuxGroup_kGlibcHeap; lh_physical_exports := ["memalign"] |};
   {| lh_logical_api := Linux_kReallocarray; lh_api_id := kReallocarrayApiId; lh_canonical_name := "reallocarray";
      lh_module_name := "libc.so.6"; lh_group := LinuxGroup_kGlibcHeap; lh_physical_exports := ["reallocarray"] |};
   {| lh_logical_api := Linux_kMmap; lh_api_id := kMmapApiId; lh_canonical_name := "mmap";
      lh_module_name := "libc.so.6"; lh_group := LinuxGroup_kVirtualMemory; lh_physical_exports := ["mmap"] |};
   {| lh_logical_api := Linux_kMunmap; lh_api_id := kMunmapApiId; lh_canonical_name := "munmap";
      lh_module_name := "libc.so.6"; lh_group := LinuxGroup_kVirtualMemory; lh_physical_exports := ["munmap"] |};
   {| lh_logical_api := Linux_kMremap; lh_api_id := kMremapApiId; lh_canonical_name := "mremap";
      lh_module_name := "libc.so.6"; lh_group := LinuxGroup_kVirtualMemory; lh_physical_exports := ["mremap"] |}].

Definition kGlibcHeapHookCount : nat := 8.
Definition kVirtualMemoryHookCount : nat := 3.

Definition linux_hook_profile_name (profile : LinuxHookProfile) : string :=
  match profile with
  | Linux_kGlibcHeap => "linux-glibc-heap"
  | Linux_kVirtualMemory => "linux-virtual-memory"
  | Linux_kNative => "linux-native"
  end.

(** The first element that satisfies a test: the loops of the lookups. *)
Definition find_first {A} (test : A → bool) (l : list A) : option A := List.find test l.

Definition find_linux_hook (api_id : Z) : option LinuxHookRegistryEntry :=
  find_first (λ entry, lh_api_id entry =? api_id) kLinuxHookRegistry.

(** ** Windows *)

Inductive WindowsHookProfile : Set := Windows_kNtHeap | Windows_kVirtualMemory | Windows_kNative.
Inductive WindowsHookApiGroup : Set := WindowsGroup_kNtHeap | WindowsGroup_kVirtualMemory.

Inductive WindowsLogicalHookApi : Set :=
  | Windows_kRtlAllocateHeap | Windows_kRtlFreeHeap | Windows_kRtlReAllocateHeap
  | Windows_kRtlCreateHeap | Windows_kRtlDestroyHeap | Windows_kNtAllocateVirtualMemory
  | Windows_kNtFreeVirtualMemory | Windows_kNtMapViewOfSection | Windows_kNtUnmapViewOfSection.

#[global] Instance WindowsHookApiGroup_eq_dec : EqDecision WindowsHookApiGroup.
Proof. solve_decision. Defined.
#[global] Instance WindowsHookProfile_eq_dec : EqDecision WindowsHookProfile.
Proof. solve_decision. Defined.
#[global] Instance WindowsLogicalHookApi_eq_dec : EqDecision WindowsLogicalHookApi.
Proof. solve_decision. Defined.

Record WindowsHookRegistryEntry : Set := {
  wh_logical_api : WindowsLogicalHookApi;
  wh_api_id : Z;
  wh_canonical_name : string;
  wh_module_name : string;
  wh_group : WindowsHookApiGroup;
  wh_physical_exports : list string;   (* std::array of two *)
  wh_physical_export_count : nat;
}.

Definition exports (entry : WindowsHookRegistryEntry) : list string :=
  take (wh_physical_export_count entry) (wh_physical_exports entry).

Definition kWindowsHookRegistry : list WindowsHookRegistryEntry :=
  [{| wh_logical_api := Windows_kRtlAllocateHeap; wh_api_id := kRtlAllocateHeapApiId;
      wh_canonical_name := "RtlAllocateHeap"; wh_module_name := "ntdll.dll"; wh_group := WindowsGroup_kNtHeap;
      wh_physical_exports := ["RtlAllocateHeap"; EmptyString]; wh_physical_export_count := 1 |};
   {| wh_logical_api := Windows_kRtlFreeHeap; wh_api_id := kRtlFreeHeapApiId;
      wh_canonical_name := "RtlFreeHeap"; wh_module_name := "ntdll.dll"; wh_group := WindowsGroup_kNtHeap;
      wh_physical_exports := ["RtlFreeHeap"; EmptyString]; wh_physical_export_count := 1 |};
   {| wh_logical_api := Windows_kRtlReAllocateHeap; wh_api_id := kRtlReAllocateHeapApiId;
      wh_canonical_name := "RtlReAllocateHeap"; wh_module_name := "ntdll.dll"; wh_group := WindowsGroup_kNtHeap;
      wh_physical_exports := ["RtlReAllocateHeap"; EmptyString]; wh_physical_export_count := 1 |};
   {| wh_logical_api := Windows_kRtlCreateHeap; wh_api_id := kRtlCreateHeapApiId;
      wh_canonical_name := "RtlCreateHeap"; wh_module_name := "ntdll.dll"; wh_group := WindowsGroup_kNtHeap;
      wh_physical_exports := ["RtlCreateHeap"; EmptyString]; wh_physical_export_count := 1 |};
   {| wh_logical_api := Windows_kRtlDestroyHeap; wh_api_id := kRtlDestroyHeapApiId;
      wh_canonical_name := "RtlDestroyHeap"; wh_module_name := "ntdll.dll"; wh_group := WindowsGroup_kNtHeap;
      wh_physical_exports := ["RtlDestroyHeap"; EmptyString]; wh_physical_export_count := 1 |};
   {| wh_logical_api := Windows_kNtAllocateVirtualMemory; wh_api_id := kNtAllocateVirtualMemoryApiId;
      wh_canonical_name := "NtAllocateVirtualMemory"; wh_module_name := "ntdll.dll"; wh_group := WindowsGroup_kVirtualMemory;
      wh_physical_exports := ["NtAllocateVirtualMemory"; EmptyString]; wh_physical_export_count := 1 |};
   {| wh_logical_api := Windows_kNtFreeVirtualMemory; wh_api_id := kNtFreeVirtualMemoryApiId;
      wh_canonical_name := "NtFreeVirtualMemory"; wh_module_name := "ntdll.dll"; wh_group := WindowsGroup_kVirtualMemory;
      wh_physical_exports := ["NtFreeVirtualMemory"; EmptyString]; wh_physical_export_count := 1 |};
   {| wh_logical_api := Windows_kNtMapViewOfSection; wh_api_id := kNtMapViewOfSectionApiId;
      wh_canonical_name := "NtMapViewOfSection"; wh_module_name := "ntdll.dll"; wh_group := WindowsGroup_kVirtualMemory;
      wh_physical_exports := ["NtMapViewOfSection"; EmptyString]; wh_physical_export_count := 1 |};
   {| wh_logical_api := Windows_kNtUnmapViewOfSection; wh_api_id := kNtUnmapViewOfSectionApiId;
      wh_canonical_name := "NtUnmapViewOfSection"; wh_module_name := "ntdll.dll"; wh_group := WindowsGroup_kVirtualMemory;
      wh_physical_exports := ["NtUnmapViewOfSection"; "NtUnmapViewOfSectionEx"]; wh_physical_export_count := 2 |}].

Definition windows_hook_profile_name (profile : WindowsHookProfile) : string :=
  match profile with
  | Windows_kNtHeap => "windows-nt-heap"
  | Windows_kVirtualMemory => "windows-virtual-memory"
  | Windows_kNative => "windows-native"
  end.

Definition profile_contains_group (profile : WindowsHookProfile) (group : WindowsHookApiGroup) : bool :=
  bool_decide (profile = Windows_kNative) ||
  (bool_decide (profile = Windows_kNtHeap) && bool_decide (group = WindowsGroup_kNtHeap)) ||
  (bool_decide (profile = Windows_kVirtualMemory) && bool_decide (group = WindowsGroup_kVirtualMemory)).

Definition profile_contains_api (profile : WindowsHookProfile) (entry : WindowsHookRegistryEntry) : bool :=
  profile_contains_group profile (wh_group entry).

Definition find_windows_hook_api (api : WindowsLogicalHookApi) : option WindowsHookRegistryEntry :=
  find_first (λ entry, bool_decide (wh_logical_api entry = api)) kWindowsHookRegistry.

Definition find_windows_hook (api_id : Z) : option WindowsHookRegistryEntry :=
  find_first (λ entry, wh_api_id entry =? api_id) kWindowsHookRegistry.

(** ** Names *)

Definition group_api_name (custom_hooks : list CustomHookDefinition) (api_id : Z) : bytes :=
  match find_windows_hook api_id with
  | Some windows_api => text (wh_canonical_name windows_api)
  | None =>
      match find_linux_hook api_id with
      | Some linux_api => text (lh_canonical_name linux_api)
      | None =>
          match find_first (λ hook, chd_api_id hook =? api_id) custom_hooks with
          | Some custom => chd_label custom
          | None => text "api-" ++ to_chars 10 api_id
          end
      end
  end.

Definition group_api_names (api_ids : list Z) (custom_hooks : list CustomHookDefinition) : list bytes :=
  group_api_name custom_hooks <$> api_ids.

(** ** The tables are consistent *)

Definition registry_names : list (Z * string) :=
  ((λ e, (wh_api_id e, wh_canonical_name e)) <$> kWindowsHookRegistry) ++
  ((λ e, (lh_api_id e, lh_canonical_name e)) <$> kLinuxHookRegistry).

(** The id spaces are disjoint, and the names, and both below the custom ids. *)
Lemma registry_distinct : NoDup registry_names.*1 ∧ NoDup registry_names.*2 ∧
  Forall (λ e, 1 ≤ e.1 < kCustomHookApiIdBase) registry_names.
Proof. split_and!; apply (bool_decide_unpack _); vm_compute; exact I. Qed.

(** The groups of the Linux registry are contiguous and have the declared sizes. *)
Lemma linux_groups :
  lh_group <$> kLinuxHookRegistry =
    replicate kGlibcHeapHookCount LinuxGroup_kGlibcHeap ++
    replicate kVirtualMemoryHookCount LinuxGroup_kVirtualMemory.
Proof. reflexivity. Qed.

(** Both lookups of a Windows entry find it, and its exports are all named. *)
Lemma windows_lookups entry : entry ∈ kWindowsHookRegistry →
  find_windows_hook (wh_api_id entry) = Some entry ∧
  find_windows_hook_api (wh_logical_api entry) = Some entry ∧
  Forall (λ name, name ≠ EmptyString) (exports entry) ∧ exports entry ≠ [].
Proof.
  intros H. repeat (apply elem_of_cons in H as [->|H];
    [split_and!; [reflexivity..|cbn; repeat constructor; discriminate|discriminate]|]).
  by apply not_elem_of_nil in H.
Qed.
