(* ===== verification/StreamExamples.v ===== *)
(** * A small trace, analyzed

    A trace with one module, one stack, an allocation that is freed and one that
    is not: the hypotheses of the theorems on the event stream hold together. *)

From S2P Require Import Prelude Bytes WireFormat Crc32c RecordCursor RecordInterface Compression Event Completeness TraceData EventCodec StatisticsCodec DictionaryCodec MemoryCodec Chunks TraceReader TraceWriter TraceFile TraceRoundTrip TraceReaderTheorems EventStream StreamContract StreamTheorems.

#[local] Existing Instances stored_library.

Definition heap_header (seq : Z) : EventHeader :=
  {| sequence := seq; monotonic_ticks := 100 + seq; thread_id := 1; api_id := 4;
     status := Status_kSuccess; stack_id := 3; eh_flags := 0;
     system_error := {| se_domain := Domain_kNone; se_code := 0 |} |}.

Definition heap_alloc (seq id address size : Z) : Event :=
  {| ev_header := heap_header seq;
     ev_payload := Allocation
       {| al_heap_handle := 0x10; al_heap_id := 1; al_requested_size := size;
          al_result_address := address; al_allocation_id := id; al_api_flags := 0 |} |}.

Definition heap_free (seq id address : Z) : Event :=
  {| ev_header := heap_header seq;
     ev_payload := Free
       {| fr_heap_handle := 0x10; fr_heap_id := 1; fr_address := address;
          fr_allocation_id := id; fr_raw_result := 1; fr_api_flags := 0 |} |}.

Definition sample_events : list Event :=
  [heap_alloc 1 1 0x1000 32; heap_alloc 2 2 0x2000 64; heap_free 5 1 0x1000].

Definition sample_load : ModuleLoad :=
  {| ml_module_id := 1; ml_monotonic_ticks := 90; ml_base_address := 0x400000;
     ml_image_size := 0x1000; ml_image_path := [x61]; ml_image_identity := None;
     ml_pdb_identity := None; ml_pdb_path := []; ml_flags := 0 |}.

Definition sample_stack : StackDefinition :=
  {| sd_stack_id := 3; sd_status := Stack_kComplete;
     sd_frames := [{| sf_module_id := 1; sf_module_offset := 16;
                      sf_absolute_address := 0x400010; sf_flags := 0 |}] |}.

Definition sample_descriptor (type : ChunkType) (b e : Z) : ChunkDescriptor :=
  {| cd_type := type; cd_version := 1; cd_flags := 0; cd_codec := Codec_kNone;
     sequence_begin := b; sequence_end := e |}.

Definition sample_chunk (type : ChunkType) (b e : Z) (payload : result exn bytes) : bytes :=
  chunk_bytes (make_chunk (sample_descriptor type b e) (chunk_of payload) (chunk_of payload)).

Definition sample_end : EndOfTrace :=
  {| final_sequence := 5; final_monotonic_ticks := 200; normal_stop := true;
     target_exit_code := Some 0; aggregate_completeness := from_mask 0 |}.

Definition sample_trace : bytes :=
  file_header_bytes example_header ++
  sample_chunk Chunk_kMetadata 0 0 (append_capture_scope_record []
    {| started_at_process_start := true; preexisting_allocations_unknown := false |} 4096) ++
  sample_chunk Chunk_kModule 0 0 (append_module_load_record [] sample_load 4096) ++
  sample_chunk Chunk_kStack 0 0 (append_stack_definition_record [] sample_stack 4096) ++
  sample_chunk Chunk_kEvent 1 5
    (append_all append_event_chunk_record [] (EventChunk_Event <$> sample_events) 4096) ++
  sample_chunk Chunk_kEnd 0 0 (append_end_of_trace_record [] sample_end 4096).

Definition sample_input : istream := {| in_bytes := sample_trace; in_end := End_eof |}.

Definition sample_calls : list StreamCall :=
  [on_file_header example_header;
   on_capture_scope {| started_at_process_start := true; preexisting_allocations_unknown := false |};
   on_module_load sample_load; on_stack_definition sample_stack] ++
  (on_event <$> sample_events) ++ [on_end_of_trace sample_end].

Example sample_analysis :
  let '(r, c) := analyze_event_stream sample_input default_stream_options in
  is_ok r = true ∧ c = sample_calls.
Proof. vm_compute. split; reflexivity. Qed.

Definition sample_result : EventStreamResult :=
  match (analyze_event_stream sample_input default_stream_options).1 with
  | Ok r => r
  | Throw _ => empty_result example_header
  end.

Lemma event_stream_contract_witness : log_ok example_header sample_calls.
Proof.
  assert (Hu : u32 (maximum_record_size default_stream_options)) by (split; [discriminate|reflexivity]).
  assert (Hrun : analyze_event_stream sample_input default_stream_options = (Ok sample_result, sample_calls))
    by (vm_compute; reflexivity).
  pose proof (event_stream_contract sample_input default_stream_options _ _ Hu Hrun) as Hcontract.
  clear Hrun. destruct Hcontract as [_ (header & [= <-] & Hlog)]. exact Hlog.
Defined.

Lemma event_stream_accounting_witness :
  event_count sample_result = 3 ∧ scopes_of sample_calls = [esr_capture_scope sample_result].
Proof.
  refine (match event_stream_accounting sample_input default_stream_options sample_result sample_calls _ _
          with conj (conj _ (conj Hs _)) (conj (conj Hc _) _) => conj _ Hs end).
  - by unfold u32.
  - vm_compute. reflexivity.
  - rewrite Hc. vm_compute. reflexivity.
Defined.
