(* ===== verification/Outstanding.v ===== *)
(** * Outstanding generations

    src/src/analyzer/outstanding.cpp: the generations created in a window of the
    trace and still live at an observation point.  The collector is a client of
    the event stream and, through it, of the generation tracker; the calls of
    both are handed to it one by one, and its first exception ends the analysis. *)

From S2P Require Import Prelude Bytes WireFormat Compression Event Completeness GenerationTracker TraceReader TraceTime AnalysisFilter EventStream StreamContract.

(** ** Windows *)

Record OutstandingWindow : Set := {
  window_a : WindowBound;
  window_b : option WindowBound;
  window_c : option WindowBound;
}.

Record OutstandingResult : Set := {
  or_trace : EventStreamResult;
  requested_window : OutstandingWindow;
  effective_b : WindowBound;
  effective_c : WindowBound;
  trace_end_monotonic_ticks : Z;
  candidate_count : Z;
  ended_by_c_count : Z;
  filtered_out_count : Z;
  or_orphaned_allocation_end_count : Z;
  or_orphaned_mapping_end_count : Z;
  observation_uses_trace_end : bool;
  outstanding : list MemoryGeneration;
}.

Definition outstanding_error_if (b : bool) (message : string) : result exn unit :=
  throw_if b OutstandingAnalysisError message.

Definition negative_time (bound : WindowBound) : bool :=
  match wb_time bound with Some time => time <? 0 | None => false end.

Definition on_bound (test : WindowBound → bool) (bound : option WindowBound) : bool :=
  match bound with Some bound => test bound | None => false end.

Definition validate_window (window : OutstandingWindow) : result exn unit :=
  outstanding_error_if (negative_time (window_a window) || on_bound negative_time (window_b window) ||
                        on_bound negative_time (window_c window))
    "outstanding window times must not be negative" ;;
  outstanding_error_if
    (on_bound (λ b, negb (window_bounds_in_order (window_a window) b)) (window_b window))
    "outstanding window requires a <= b" ;;
  outstanding_error_if
    (on_bound (λ b, on_bound (λ c, negb (window_bounds_in_order b c)) (window_c window)) (window_b window))
    "outstanding window requires b <= c" ;;
  outstanding_error_if
    (negb (has_value (window_b window)) &&
     on_bound (λ c, negb (window_bounds_in_order (window_a window) c)) (window_c window))
    "outstanding window requires a <= c".

(** ** The end of the trace as a bound *)

Definition time_exceeds (bound : WindowBound) (header : FileHeader) (trace_end : Z) : result exn bool :=
  match wb_time bound with
  | None => Ok false
  | Some time => order ← compare_trace_time trace_end header time; Ok (is_less order)
  end.

Definition window_bound_exceeds_trace_end (bound : WindowBound) (header : FileHeader) (trace_end : Z)
    (trace_end_sequence : option Z) : result exn bool :=
  exceeds ← time_exceeds bound header trace_end;
  if (exceeds : bool) then Ok true else
  match wb_sequence bound with
  | None => Ok false
  | Some sequence =>
      Ok (match trace_end_sequence with Some e => e <? sequence | None => 0 <? sequence end)
  end.

Definition inclusive_trace_end_bound (header : FileHeader) (trace_end : Z)
    (trace_end_sequence : option Z) : result exn WindowBound :=
  floor ← trace_time_floor trace_end header;
  order ← compare_trace_time trace_end header floor;
  Ok {| wb_time := if is_greater order
                   then (if floor <? i64_max then Some (floor + 1) else None)
                   else Some floor;
        wb_sequence := trace_end_sequence |}.

Definition exclusive_trace_end_bound (header : FileHeader) (trace_end : Z)
    (trace_end_sequence : option Z) : result exn WindowBound :=
  floor ← trace_time_floor trace_end header;
  Ok {| wb_time := if floor <? i64_max then Some (floor + 1) else None;
        wb_sequence := match trace_end_sequence with
                       | Some e => if e <? u64_max then Some (e + 1) else None
                       | None => None
                       end |}.

Definition effective_upper_bound (bound : option WindowBound) (trace_end_bound : WindowBound)
    (header : FileHeader) (trace_end : Z) (trace_end_sequence : option Z) : result exn WindowBound :=
  match bound with
  | None => Ok trace_end_bound
  | Some bound =>
      if window_bound_empty bound then Ok trace_end_bound else
      if negb (has_value (wb_time bound) && has_value (wb_sequence bound)) then
        exceeds ← window_bound_exceeds_trace_end bound header trace_end trace_end_sequence;
        Ok (if (exceeds : bool) then trace_end_bound else bound)
      else
        exceeds ← time_exceeds bound header trace_end;
        Ok {| wb_time := if (exceeds : bool) then wb_time trace_end_bound else wb_time bound;
              wb_sequence :=
                match wb_sequence bound with
                | None => None
                | Some sequence =>
                    if match trace_end_sequence with None => true | Some e => e <? sequence end
                    then trace_end_sequence else Some sequence
                end |}
  end.

(** ** The collector *)

(** [candidates_] is a list the two maps point into: a node of the list has an
    identity of its own, which erasing other nodes does not change. *)
Record OutstandingCollector : Set := {
  file_header_ : option FileHeader;
  tracker_ : GenerationTracker;
  candidates_ : list (nat * MemoryGeneration);
  next_node_ : nat;
  allocation_candidates_ : gmap Z nat;
  mapping_candidates_ : gmap Z nat;
  candidate_count_ : Z;
  ended_by_c_count_ : Z;
}.

#[global] Instance OutstandingCollector_members : Members OutstandingCollector := λ c,
  {| file_header_ := file_header_ c; tracker_ := tracker_ c; candidates_ := candidates_ c;
     next_node_ := next_node_ c; allocation_candidates_ := allocation_candidates_ c;
     mapping_candidates_ := mapping_candidates_ c; candidate_count_ := candidate_count_ c;
     ended_by_c_count_ := ended_by_c_count_ c |}.

Definition OutstandingCollector_new : OutstandingCollector :=
  {| file_header_ := None; tracker_ := GenerationTracker_new; candidates_ := []; next_node_ := 0;
     allocation_candidates_ := ∅; mapping_candidates_ := ∅; candidate_count_ := 0;
     ended_by_c_count_ := 0 |}.

Abbreviation collecting := (proc OutstandingCollector exn).

Definition outstanding_increment (value : Z) (message : string) : result exn Z :=
  if value =? u64_max then throw OutstandingAnalysisError message else Ok (value + 1).

Definition the_header (message : string) : collecting FileHeader :=
  c ← get_state;
  pure match file_header_ c with
       | Some header => Ok header
       | None => throw OutstandingAnalysisError message
       end.

(** [candidates_.erase(node)] and [node->size = size] *)
Definition erase_node (node : nat) (l : list (nat * MemoryGeneration)) : list (nat * MemoryGeneration) :=
  filter (λ x, x.1 ≠ node) l.
Definition resize_node (node : nat) (size : Z) (l : list (nat * MemoryGeneration))
    : list (nat * MemoryGeneration) :=
  (λ x, if decide (x.1 = node) then (x.1, set_size_of x.2 size) else x) <$> l.

Definition heap_kind (g : MemoryGeneration) : bool := bool_decide (mg_kind g = Kind_kHeapAllocation).

Section collector.
Context (window : OutstandingWindow) (filter : AnalysisFilter) (resolver : EventMetadataResolver).

Definition observes_trace_end : bool :=
  match window_c window with None => true | Some c => window_bound_empty c end.

(** [ended_by_c]: the event is not behind the observation point. *)
Definition at_or_before_c (header : FileHeader) (event : Event) : result exn bool :=
  if observes_trace_end then Ok true else
  match window_c window with
  | Some c => window_at_or_before c header event
  | None => Ok true
  end.

Definition created_in_window (header : FileHeader) (event : Event) : result exn bool :=
  after ← window_at_or_after (window_a window) header event;
  if negb after then Ok false else
  match window_b window with
  | None => Ok true
  | Some b => window_before b header event
  end.

Definition observe_created (g : MemoryGeneration) : collecting unit :=
  header ← the_header "generation appeared before FileHeader";
  inside ← pure (created_in_window header (mg_created_by g));
  if negb inside then mret tt else
  c ← get_state;
  count ← pure (outstanding_increment (candidate_count_ c) "candidate count overflow");
  let node := next_node_ c in
  modify (λ c, c <| candidate_count_ := count |> <| candidates_ := candidates_ c ++ [(node, g)] |>
                 <| next_node_ := S node |>) ;;
  if heap_kind g then
    modify (λ c, c <| allocation_candidates_ :=
      match allocation_candidates_ c !! mg_allocation_id g with
      | Some _ => allocation_candidates_ c
      | None => <[mg_allocation_id g := node]> (allocation_candidates_ c)
      end |>) ;;
    pure (outstanding_error_if (has_value (allocation_candidates_ c !! mg_allocation_id g))
            "allocation candidate ID is already present")
  else
    modify (λ c, c <| mapping_candidates_ :=
      match mapping_candidates_ c !! mg_mapping_id g with
      | Some _ => mapping_candidates_ c
      | None => <[mg_mapping_id g := node]> (mapping_candidates_ c)
      end |>) ;;
    pure (outstanding_error_if (has_value (mapping_candidates_ c !! mg_mapping_id g))
            "mapping candidate ID is already present").

Definition observe_ended (g : MemoryGeneration) (event : Event) : collecting unit :=
  header ← the_header "generation ended before FileHeader";
  c ← get_state;
  let id := if heap_kind g then mg_allocation_id g else mg_mapping_id g in
  match (if heap_kind g then allocation_candidates_ c else mapping_candidates_ c) !! id with
  | None => mret tt
  | Some node =>
      ended_by_c ← pure (at_or_before_c header event);
      if negb ended_by_c then mret tt else
      modify (λ c, c <| candidates_ := erase_node node (candidates_ c) |>) ;;
      modify (λ c, if heap_kind g
                   then c <| allocation_candidates_ := delete id (allocation_candidates_ c) |>
                   else c <| mapping_candidates_ := delete id (mapping_candidates_ c) |>) ;;
      count ← pure (outstanding_increment (ended_by_c_count_ c) "ended candidate count overflow");
      modify (λ c, c <| ended_by_c_count_ := count |>)
  end.

Definition observe_changed (g : MemoryGeneration) (event : Event) : collecting unit :=
  header ← the_header "generation changed before FileHeader";
  c ← get_state;
  match mapping_candidates_ c !! mg_mapping_id g with
  | None => mret tt
  | Some node =>
      by_c ← pure (at_or_before_c header event);
      if negb by_c then mret tt else
      modify (λ c, c <| candidates_ := resize_node node (mg_size g) (candidates_ c) |>)
  end.

(** The callbacks of the tracker. *)
Definition on_notification (n : Notification) : collecting unit :=
  match n with
  | on_created g => observe_created g
  | on_ended g _ event => observe_ended g event
  | on_changed g event => observe_changed g event
  end.

(** [tracker_.observe(event)]: the calls it makes reach the collector before the
    exception of the tracker, if any. *)
Definition observe_event (event : Event) : collecting unit := λ c,
  let '(r, tracker) := observe event (tracker_ c) in
  let calls := drop (length (notifications (tracker_ c))) (notifications tracker) in
  match deliver on_notification calls (c <| tracker_ := tracker |>) with
  | (Throw e, c) => (Throw e, c)
  | (Ok _, c) => (r, c)
  end.

(** The callbacks of the event stream. *)
Definition on_stream_call (call : StreamCall) : collecting unit :=
  match call with
  | on_file_header header => modify (λ c, c <| file_header_ := Some header |>)
  | on_event event => observe_event event
  | _ => mret tt
  end.

(** The last loop of [analyze]. *)
Fixpoint select_outstanding (candidates : list MemoryGeneration) (filtered_out : Z)
    (selected : list MemoryGeneration) : result exn (Z * list MemoryGeneration) :=
  match candidates with
  | [] => Ok (filtered_out, selected)
  | g :: candidates =>
      accepted ← matches_generation filter g resolver;
      if negb accepted then
        filtered_out ← outstanding_increment filtered_out "filtered candidate count overflow";
        select_outstanding candidates filtered_out selected
      else select_outstanding candidates filtered_out (selected ++ [g])
  end.

Definition trace_end_of (trace : EventStreamResult) : Z :=
  match esr_end_of_trace trace with
  | Some e => final_monotonic_ticks e
  | None => Z.max (known_monotonic_end trace) (monotonic_origin (esr_file_header trace))
  end.

Definition trace_end_sequence_of (trace : EventStreamResult) : option Z :=
  match esr_end_of_trace trace with
  | Some e =>
      if is_valid (final_sequence e) then Some (final_sequence e)
      else if is_valid (known_sequence_end trace) then Some (known_sequence_end trace) else None
  | None => if is_valid (known_sequence_end trace) then Some (known_sequence_end trace) else None
  end.

(** [analyze] from the result of the stream on. *)
Definition finish_analysis (trace : EventStreamResult) (c : OutstandingCollector)
    : result exn OutstandingResult :=
  let header := esr_file_header trace in
  let trace_end := trace_end_of trace in
  let trace_end_sequence := trace_end_sequence_of trace in
  trace_end_bound ← inclusive_trace_end_bound header trace_end trace_end_sequence;
  trace_end_exclusive ← exclusive_trace_end_bound header trace_end trace_end_sequence;
  effective_b ← effective_upper_bound (window_b window) trace_end_exclusive header trace_end
                  trace_end_sequence;
  let omitted_c := observes_trace_end in
  c_exceeds_trace ←
    (if omitted_c then Ok false else
     match window_c window with
     | Some bound => window_bound_exceeds_trace_end bound header trace_end trace_end_sequence
     | None => Ok false
     end);
  effective_c ← effective_upper_bound (window_c window) trace_end_bound header trace_end
                  trace_end_sequence;
  counted_selected ← select_outstanding (candidates_ c).*2 0 [];
  let orphaned_allocations := orphaned_allocation_end_count_ (tracker_ c) in
  let orphaned_mappings := orphaned_mapping_end_count_ (tracker_ c) in
  completeness ←
    (if negb (orphaned_allocations =? 0) || negb (orphaned_mappings =? 0)
     then add (esr_completeness trace) kEventLoss else Ok (esr_completeness trace));
  Ok {| or_trace := trace <| esr_completeness := completeness |>;
        requested_window := window; effective_b := effective_b; effective_c := effective_c;
        trace_end_monotonic_ticks := trace_end; candidate_count := candidate_count_ c;
        ended_by_c_count := ended_by_c_count_ c; filtered_out_count := counted_selected.1;
        or_orphaned_allocation_end_count := orphaned_allocations;
        or_orphaned_mapping_end_count := orphaned_mappings;
        observation_uses_trace_end := omitted_c || c_exceeds_trace;
        outstanding := counted_selected.2 |}.

Definition analyze_filtered_outstanding {L : CompressionLibrary} (input : istream)
    (options : EventStreamOptions) : result fault OutstandingResult :=
  lift_exn (validate_window window) ;;
  lift_exn (throw_if (requires_metadata filter && negb (has_value resolver)) AnalysisFilterError
    "API and module filters require an event metadata resolver") ;;
  match analyze_with on_stream_call input options OutstandingCollector_new with
  | (Throw e, _) => Throw e
  | (Ok trace, c) => lift_exn (finish_analysis trace c)
  end.

End collector.

Definition analyze_outstanding {L : CompressionLibrary} (input : istream) (window : OutstandingWindow)
    (options : EventStreamOptions) : result fault OutstandingResult :=
  analyze_filtered_outstanding window {| criteria_ := empty_criteria |} None input options.
