(* ===== verification/OutstandingTheorems.v ===== *)
(** * What the outstanding analysis reports

    The collector of Outstanding.v against the meaning of its report: the
    generations created in the window, in the order of their creation, that did
    not end by the observation point, each with the size it had then. *)

From S2P Require Import Prelude Bytes WireFormat Compression Event Completeness TraceReader TraceReaderTheorems OrderedMap IntervalSet GenerationTracker TrackerInvariant TrackerTheorems TrackerCalls TraceTime AnalysisFilter EventStream StreamContract StreamTheorems StreamExamples Outstanding.

(** ** The meaning of a report *)

Definition creations : list Notification → list MemoryGeneration :=
  omap (λ n, match n with on_created g => Some g | _ => None end).

Section meaning.
Context (window : OutstandingWindow) (h : FileHeader).

Definition inside (g : MemoryGeneration) : bool := holds (created_in_window window h (mg_created_by g)).
Definition by_c (event : Event) : bool := holds (at_or_before_c window h event).

(** [g] ended by the observation point. *)
Definition ended_by_c (calls : list Notification) (g : MemoryGeneration) : bool :=
  existsb (λ n, match n with
                | on_ended g' _ event => bool_decide (key_of g' = key_of g) && by_c event
                | _ => false
                end) calls.

(** The size the last change by the observation point gave [g]. *)
Definition size_at_c (calls : list Notification) (g : MemoryGeneration) : Z :=
  default (mg_size g) (last (omap (λ n,
    match n with
    | on_changed g' event =>
        if bool_decide (key_of g' = key_of g) && by_c event then Some (mg_size g') else None
    | _ => None
    end) calls)).

Definition select (ended : MemoryGeneration → bool) (size : MemoryGeneration → Z)
    (created : list MemoryGeneration) : list MemoryGeneration :=
  (λ g, set_size_of g (size g)) <$> filter (λ g, inside g = true ∧ ended g = false) created.

Definition live_at_c (calls : list Notification) : list MemoryGeneration :=
  select (ended_by_c calls) (size_at_c calls) (creations calls).

Lemma select_ext ended size ended' size' l : (∀ g, ended g = ended' g) → (∀ g, size g = size' g) →
  select ended size l = select ended' size' l.
Proof.
  intros He Hs. unfold select. erewrite list_filter_iff; [apply list_fmap_ext; intros; by rewrite Hs|].
  intros g. cbn. by rewrite He.
Qed.

Lemma creations_snoc calls n :
  creations (calls ++ [n]) = match n with on_created g => creations calls ++ [g] | _ => creations calls end.
Proof. unfold creations. rewrite omap_app. destruct n; cbn; by rewrite ?app_nil_r. Qed.

Lemma ended_by_c_snoc calls n g : ended_by_c (calls ++ [n]) g =
  ended_by_c calls g ||
  match n with
  | on_ended g' _ event => bool_decide (key_of g' = key_of g) && by_c event
  | _ => false
  end.
Proof. unfold ended_by_c. rewrite existsb_app. cbn. by rewrite orb_false_r. Qed.

Lemma size_at_c_snoc calls n g : size_at_c (calls ++ [n]) g =
  match n with
  | on_changed g' event =>
      if bool_decide (key_of g' = key_of g) && by_c event then mg_size g' else size_at_c calls g
  | _ => size_at_c calls g
  end.
Proof.
  unfold size_at_c. rewrite omap_app. destruct n; cbn; rewrite ?app_nil_r; try done.
  destruct (_ && _); cbn; by rewrite ?app_nil_r, ?last_snoc.
Qed.

(** What a client that makes sense of the calls knows about the created. *)
Lemma client_created calls live ever : client_run calls = Some (live, ever) →
  (∀ k, k ∈ ever ↔ ∃ g, g ∈ creations calls ∧ key_of g = k) ∧ NoDup (key_of <$> creations calls) ∧
  (∀ k, is_Some (live !! k) → k ∈ ever).
Proof.
  revert live ever. induction calls as [|n calls IH] using rev_ind; intros live ever.
  - intros [= <- <-]. split_and!; [set_solver|constructor|]. intros k [? ?]. by rewrite lookup_empty in *.
  - rewrite client_run_snoc, creations_snoc. destruct (client_run calls) as [[live' ever']|]; [|done].
    destruct (IH _ _ eq_refl) as (Hever & Hdup & Hlive). cbn [client_step].
    destruct n as [g|g r e|g e].
    + case_decide as Hnew; [done|]. intros [= <- <-]. split_and!.
      * intros k. rewrite elem_of_union, elem_of_singleton, Hever. split.
        -- intros [->|(g' & Hg' & <-)]; eexists; (split; [apply elem_of_app|done]); [right; by left|by left].
        -- intros (g' & [Hg'|Hg'%list_elem_of_singleton]%elem_of_app & <-); [eauto|subst; by left].
      * rewrite fmap_app. apply NoDup_app. split_and!; [done| |apply NoDup_singleton].
        intros k Hk ->%list_elem_of_singleton. apply Hnew, Hever.
        apply list_elem_of_fmap in Hk as (g' & -> & Hg'). eauto.
      * intros k. rewrite lookup_insert_is_Some. set_solver.
    + case_decide as Hcur; [|done]. intros [= <- <-]. split_and!; [done..|].
      intros k. rewrite lookup_delete_is_Some. naive_solver.
    + destruct (live' !! key_of g) as [g'|] eqn:Hg; [|done]. case_decide as Hcur; [|done].
      intros [= <- <-]. split_and!; [done..|]. intros k. rewrite lookup_insert_is_Some.
      intros [<-|[_ ?]]; [apply Hlive; eauto|auto].
Qed.

(** ** The report, call by call *)

Definition report_step (report : list MemoryGeneration) (n : Notification) : list MemoryGeneration :=
  match n with
  | on_created g => if inside g then report ++ [g] else report
  | on_ended g _ event => if by_c event then filter (λ x, key_of x ≠ key_of g) report else report
  | on_changed g event =>
      if by_c event
      then (λ x, if decide (key_of x = key_of g) then set_size_of x (mg_size g) else x) <$> report
      else report
  end.

Lemma key_set_size g size : key_of (set_size_of g size) = key_of g.
Proof. done. Qed.

Lemma set_size_same g : set_size_of g (mg_size g) = g.
Proof. by destruct g. Qed.

(** Nothing ends or changes before it is created. *)
Lemma unborn calls live ever g : client_run calls = Some (live, ever) → key_of g ∉ ever →
  ended_by_c calls g = false ∧ size_at_c calls g = mg_size g.
Proof.
  revert live ever. induction calls as [|n calls IH] using rev_ind; intros live ever; [done|].
  rewrite client_run_snoc, ended_by_c_snoc, size_at_c_snoc.
  destruct (client_run calls) as [[live' ever']|] eqn:Hrun; [|done].
  destruct (client_created _ _ _ Hrun) as (_ & _ & Hlive). cbn [client_step].
  destruct n as [g'|g' r e|g' e].
  - case_decide; [done|]. intros [= <- <-] Hg.
    destruct (IH _ _ eq_refl) as [-> ->]; [set_solver|done].
  - case_decide as Hcur; [|done]. intros [= <- <-] Hg. destruct (IH _ _ eq_refl Hg) as [-> ->].
    rewrite bool_decide_eq_false_2; [done|]. intros E. apply Hg, Hlive. rewrite <- E. eauto.
  - destruct (live' !! key_of g') eqn:Hcur; [|done]. case_decide; [|done]. intros [= <- <-] Hg.
    destruct (IH _ _ eq_refl Hg) as [-> ->].
    rewrite bool_decide_eq_false_2; [done|]. intros E. apply Hg, Hlive. rewrite <- E. eauto.
Qed.

Lemma list_filter_fmap {A B} (P : B → Prop) `{!∀ b, Decision (P b)} (f : A → B) (l : list A) :
  filter P (f <$> l) = f <$> filter (λ a, P (f a)) l.
Proof.
  induction l as [|a l IH]; [done|]. rewrite fmap_cons, !filter_cons.
  destruct (decide (P (f a))); by rewrite IH.
Qed.

(** The list kept call by call is the report. *)
Lemma report_step_ok calls n view : client_run (calls ++ [n]) = Some view →
  live_at_c (calls ++ [n]) = report_step (live_at_c calls) n.
Proof.
  rewrite client_run_snoc. destruct (client_run calls) as [[live ever]|] eqn:Hrun; [|done].
  destruct (client_created _ _ _ Hrun) as (Hever & Hdup & Hlive).
  unfold live_at_c. rewrite creations_snoc.
  rewrite (select_ext _ _ _ _ _ (ended_by_c_snoc calls n) (size_at_c_snoc calls n)).
  destruct n as [g|g r e|g e]; cbn [client_step report_step]; intros Hstep.
  - case_decide as Hnew; [done|]. destruct (unborn _ _ _ _ Hrun Hnew) as [He Hs].
    rewrite (select_ext _ _ _ _ _ (λ g, orb_false_r _) (λ g, eq_refl)).
    unfold select. rewrite filter_app, fmap_app. destruct (inside g) eqn:Hin.
    + f_equal. rewrite filter_cons_True by (rewrite He; done). cbn. by rewrite Hs, set_size_same.
    + rewrite filter_cons_False by (intros [? _]; congruence). by rewrite app_nil_r.
  - unfold select. destruct (by_c e).
    + rewrite list_filter_fmap. f_equal. rewrite list_filter_filter. apply list_filter_iff.
      intros x. cbn. rewrite andb_true_r, orb_false_iff, bool_decide_eq_false, key_set_size. naive_solver.
    + f_equal. apply list_filter_iff. intros x. cbn. by rewrite andb_false_r, orb_false_r.
  - rewrite (select_ext _ _ _ _ _ (λ g, orb_false_r _) (λ g, eq_refl)). unfold select.
    destruct (by_c e); cbn.
    + rewrite <- list_fmap_compose. apply list_fmap_ext. intros i x _. unfold compose. rewrite andb_true_r.
      destruct (decide (key_of (set_size_of x (size_at_c calls x)) = key_of g)) as [Hk|Hk].
      * by rewrite bool_decide_eq_true_2 by (symmetry; exact Hk).
      * by rewrite bool_decide_eq_false_2 by (intros E; by apply Hk).
    + apply list_fmap_ext. intros i x _. by rewrite andb_false_r.
Qed.

End meaning.

(** ** Lists of candidates *)

Lemma filter_ext_in {A} (P Q : A → Prop) `{!∀ a, Decision (P a), !∀ a, Decision (Q a)} (l : list A) :
  (∀ a, a ∈ l → P a ↔ Q a) → filter P l = filter Q l.
Proof.
  induction l as [|a l IH]; intros Hl; [done|]. rewrite !filter_cons, IH by (intros; apply Hl; by right).
  destruct (Hl a) as [H1 H2]; [by left|]. case_decide; case_decide; naive_solver.
Qed.

Lemma list_filter_all {A} (P : A → Prop) `{!∀ a, Decision (P a)} (l : list A) :
  (∀ a, a ∈ l → P a) → filter P l = l.
Proof.
  induction l as [|a l IH]; intros Hl; [done|].
  by rewrite filter_cons_True, IH by (intros; apply Hl; by constructor).
Qed.

Lemma NoDup_fmap_inv {A B} (f : A → B) (l : list A) a b : NoDup (f <$> l) → a ∈ l → b ∈ l →
  f a = f b → a = b.
Proof.
  induction l as [|x l IH]; [by intros _ ?%not_elem_of_nil|].
  rewrite fmap_cons, NoDup_cons. intros [Hx Hl] [->|Ha]%elem_of_cons [->|Hb]%elem_of_cons E; [done| | |eauto].
  - destruct Hx. rewrite E. by apply list_elem_of_fmap_2.
  - destruct Hx. rewrite <- E. by apply list_elem_of_fmap_2.
Qed.

Lemma NoDup_fmap_filter {A B} (f : A → B) (P : A → Prop) `{!∀ a, Decision (P a)} (l : list A) :
  NoDup (f <$> l) → NoDup (f <$> filter P l).
Proof.
  induction l as [|x l IH]; [done|]. rewrite fmap_cons, NoDup_cons, filter_cons. intros [Hx Hl].
  case_decide; [|auto]. rewrite fmap_cons, NoDup_cons. split; [|auto].
  intros (y & E & [_ Hy]%list_elem_of_filter)%list_elem_of_fmap. apply Hx. rewrite E.
  by apply list_elem_of_fmap_2.
Qed.

(** ** The collector follows the calls *)

Section collecting.
Context (window : OutstandingWindow) (h : FileHeader).

Definition candidate_at (c : OutstandingCollector) (k : generation_key) : option nat :=
  match k with inl id => allocation_candidates_ c !! id | inr id => mapping_candidates_ c !! id end.

Record collector_inv (calls : list Notification) (c : OutstandingCollector) : Prop := {
  ci_header : file_header_ c = Some h;
  ci_report : (candidates_ c).*2 = live_at_c window h calls;
  ci_nodes : NoDup (candidates_ c).*1;
  ci_fresh : Forall (λ x, x.1 < next_node_ c)%nat (candidates_ c);
  ci_find k node : candidate_at c k = Some node ↔ ∃ g, (node, g) ∈ candidates_ c ∧ key_of g = k;
  ci_count : candidate_count_ c = ended_by_c_count_ c + size_of (candidates_ c);
  ci_created :
    candidate_count_ c = size_of (filter (λ g, inside window h g = true) (creations calls));
  ci_room : 0 ≤ ended_by_c_count_ c ∧ candidate_count_ c ≤ u64_max;
}.

Lemma live_at_c_keys calls view : client_run calls = Some view →
  NoDup (key_of <$> live_at_c window h calls).
Proof.
  destruct view as [live ever]. intros Hrun. destruct (client_created _ _ _ Hrun) as (_ & Hdup & _).
  unfold live_at_c, select. rewrite <- list_fmap_compose.
  exact (NoDup_fmap_filter key_of _ _ Hdup).
Qed.

(** Of the candidates, the node of [k] is the one with the key [k]. *)
Lemma node_of_key calls view c k node x : client_run calls = Some view → collector_inv calls c →
  candidate_at c k = Some node → x ∈ candidates_ c → x.1 = node ↔ key_of x.2 = k.
Proof.
  intros Hrun Hc (g & Hg & <-)%(ci_find _ _ Hc) Hx. split.
  - intros E. by rewrite (NoDup_fmap_inv fst _ x (node, g) (ci_nodes _ _ Hc) Hx Hg E).
  - intros E. pose proof (live_at_c_keys calls view Hrun) as Hdup. rewrite <- (ci_report _ _ Hc) in Hdup.
    rewrite <- list_fmap_compose in Hdup. by rewrite (NoDup_fmap_inv _ _ x (node, g) Hdup Hx Hg E).
Qed.

Lemma no_candidate calls c k x : collector_inv calls c → candidate_at c k = None →
  x ∈ candidates_ c → key_of x.2 ≠ k.
Proof.
  intros Hc Hk Hx E. destruct x as [node g]. assert (candidate_at c k = Some node); [|congruence].
  apply (ci_find _ _ Hc). eauto.
Qed.

Lemma heap_kind_key g : key_of g = if heap_kind g then inl (mg_allocation_id g) else inr (mg_mapping_id g).
Proof. unfold key_of, heap_kind. by repeat case_decide || case_bool_decide. Qed.

Lemma wp_the_header calls c msg (P : FileHeader → OutstandingCollector → Prop) Q : collector_inv calls c →
  P h c → wp (the_header msg) c P Q.
Proof.
  intros Hc HP. unfold the_header. do 2 wp_step. rewrite (ci_header _ _ Hc).
  by apply wp_pure; [intros ? [= <-]|].
Qed.

Definition follows (calls : list Notification) (n : Notification) (p : collecting unit)
    (c : OutstandingCollector) : Prop :=
  wp p c (λ _ c', collector_inv (calls ++ [n]) c' ∧ tracker_ c' = tracker_ c) (λ _ _, True).

(** A candidate added at the end, under a fresh node. *)
Lemma candidate_added calls g view c c' count : client_run (calls ++ [on_created g]) = Some view →
  collector_inv calls c → inside window h g = true → candidate_at c (key_of g) = None →
  outstanding_increment (candidate_count_ c) "candidate count overflow" = Ok count →
  candidates_ c' = candidates_ c ++ [(next_node_ c, g)] → next_node_ c' = S (next_node_ c) →
  candidate_count_ c' = count → ended_by_c_count_ c' = ended_by_c_count_ c →
  file_header_ c' = file_header_ c →
  (∀ k, candidate_at c' k = if decide (k = key_of g) then Some (next_node_ c) else candidate_at c k) →
  collector_inv (calls ++ [on_created g]) c'.
Proof.
  intros Hrun Hc Hin Hnew Hcount El En Ec Ee Eh Ek.
  pose proof (report_step_ok window h _ _ _ Hrun) as Hreport. cbn [report_step] in Hreport. rewrite Hin in Hreport.
  unfold outstanding_increment in Hcount. destruct (Z.eqb_spec (candidate_count_ c) u64_max) as [|Hroom]; [done|].
  injection Hcount as <-. pose proof (ci_room _ _ Hc).
  assert (Hfresh : ∀ x, x ∈ candidates_ c → x.1 ≠ next_node_ c).
  { intros x Hx. pose proof (proj1 (Forall_forall _ _) (ci_fresh _ _ Hc) x Hx). cbn in *. lia. }
  split.
  - rewrite Eh. apply Hc.
  - by rewrite El, fmap_app, Hreport, (ci_report _ _ Hc).
  - rewrite El, fmap_app. apply NoDup_app. split_and!; [apply Hc| |apply NoDup_singleton].
    intros n (x & -> & Hx)%list_elem_of_fmap Hn%list_elem_of_singleton. by apply (Hfresh x).
  - rewrite El, En. apply Forall_app. split; [|repeat constructor; cbn; lia].
    eapply Forall_impl; [apply Hc|]. intros x Hx. cbn in *. lia.
  - intros k n. rewrite Ek, El. setoid_rewrite elem_of_app. setoid_rewrite list_elem_of_singleton.
    case_decide as Hk.
    + split; [intros [= <-]; eauto|]. intros (g' & [Hg'|[= -> ->]] & E); [|done].
      destruct (no_candidate _ _ _ _ Hc Hnew Hg'). by rewrite <- Hk.
    + rewrite (ci_find _ _ Hc). split; [naive_solver|].
      intros (g' & [Hg'|[= -> ->]] & E); [eauto|done].
  - rewrite El, Ec, Ee, (ci_count _ _ Hc), size_of_app. unfold size_of at 3. cbn. lia.
  - rewrite Ec, creations_snoc, filter_app, size_of_app, <- (ci_created _ _ Hc).
    rewrite (filter_cons_True _ g) by done. unfold size_of. cbn. lia.
  - lia.
Qed.

Lemma follows_created calls g view c : client_run (calls ++ [on_created g]) = Some view →
  collector_inv calls c → follows calls (on_created g) (observe_created window g) c.
Proof.
  intros Hrun Hc. pose proof (report_step_ok window h _ _ _ Hrun) as Hreport. cbn [report_step] in Hreport.
  unfold follows, observe_created. wp_step. eapply wp_the_header; [done|]. wp_step.
  apply wp_pure; [intros b Hin|done].
  assert (inside window h g = b) as Hb by (unfold inside; by rewrite Hin). destruct b; cbn [negb].
  2:{ wp_step. split; [|done]. rewrite Hb in Hreport. destruct Hc. split; try done; [by rewrite Hreport|].
      rewrite creations_snoc, filter_app, (filter_cons_False _ g), app_nil_r by congruence. done. }
  do 3 wp_step. apply wp_pure; [intros count Hcount|done]. cbv zeta. wp_step. wp_step.
  pose proof (heap_kind_key g) as Hkey. unfold outstanding_error_if. destruct (heap_kind g).
  all: do 2 wp_step; apply wp_pure; [|done]; intros [] Hnew%throw_if_ok; cbn in Hnew.
  all: apply has_value_false in Hnew; (split; [|done]).
  all: apply (candidate_added calls g view c _ count); try done; [by rewrite Hkey|].
  all: intros [id|id]; cbn; rewrite ?Hnew, Hkey; case_decide as Hk; simplify_eq; try done.
  all: try (by rewrite lookup_insert_eq).
  all: rewrite lookup_insert_ne; congruence.
Qed.

Lemma erase_node_absent node l : node ∉ l.*1 → erase_node node l = l.
Proof.
  intros Hn. apply list_filter_all. intros x Hx E. apply Hn. rewrite <- E. by apply list_elem_of_fmap_2.
Qed.

Lemma size_of_erase_node node g l : NoDup l.*1 → (node, g) ∈ l →
  size_of l = size_of (erase_node node l) + 1.
Proof.
  induction l as [|[n g'] l IH]; [by intros _ ?%not_elem_of_nil|].
  rewrite fmap_cons, NoDup_cons. cbn [fst]. intros [Hn Hl] [[= -> ->]|Hg]%elem_of_cons.
  - unfold erase_node. rewrite filter_cons_False by (cbn; auto). fold (erase_node n l).
    rewrite erase_node_absent by done. unfold size_of. cbn. lia.
  - unfold erase_node. rewrite filter_cons_True.
    + fold (erase_node node l). specialize (IH Hl Hg). unfold size_of in *. cbn [length]. lia.
    + cbn. intros ->. apply Hn. by apply (list_elem_of_fmap_2 fst _ (node, g)).
Qed.

(** A candidate removed. *)
Lemma candidate_removed calls g r e view c c' node : client_run (calls ++ [on_ended g r e]) = Some view →
  collector_inv calls c → by_c window h e = true → candidate_at c (key_of g) = Some node →
  candidates_ c' = erase_node node (candidates_ c) → next_node_ c' = next_node_ c →
  candidate_count_ c' = candidate_count_ c → ended_by_c_count_ c' = ended_by_c_count_ c + 1 →
  file_header_ c' = file_header_ c →
  (∀ k, candidate_at c' k = if decide (k = key_of g) then None else candidate_at c k) →
  collector_inv (calls ++ [on_ended g r e]) c'.
Proof.
  intros Hrun Hc Hby Hnode El En Ec Ee Eh Ek.
  pose proof (report_step_ok window h _ _ _ Hrun) as Hreport. cbn [report_step] in Hreport. rewrite Hby in Hreport.
  rewrite client_run_snoc in Hrun. destruct (client_run calls) as [view'|] eqn:Hrun'; [|done].
  pose proof (λ x, node_of_key _ _ _ _ _ x Hrun' Hc Hnode) as Hkey.
  split.
  - rewrite Eh. apply Hc.
  - rewrite Hreport, <- (ci_report _ _ Hc), El, list_filter_fmap. f_equal. apply filter_ext_in.
    intros x Hx. by rewrite Hkey.
  - rewrite El. apply NoDup_fmap_filter, Hc.
  - rewrite El, En. apply Forall_forall. intros x [_ Hx]%list_elem_of_filter.
    by apply (proj1 (Forall_forall _ _) (ci_fresh _ _ Hc)).
  - intros k n. rewrite Ek, El. unfold erase_node. setoid_rewrite list_elem_of_filter. case_decide as Hk.
    + split; [done|]. intros (g' & [Hn Hg'] & E). destruct Hn. apply (Hkey (n, g') Hg'). by rewrite <- Hk.
    + rewrite (ci_find _ _ Hc). split; intros (g' & Hg' & E); [|naive_solver].
      exists g'. split; [split|done]; [|done]. intros En'. apply Hk. rewrite <- E. by apply (Hkey (n, g')).
  - rewrite Ec, Ee, (ci_count _ _ Hc), El. apply (ci_find _ _ Hc) in Hnode as (g' & Hg' & _).
    rewrite (size_of_erase_node node g' (candidates_ c)) by (done || apply Hc). lia.
  - rewrite Ec, creations_snoc. apply Hc.
  - rewrite Ec, Ee. pose proof (ci_room _ _ Hc). lia.
Qed.

(** A call that changes no candidate. *)
Lemma follows_unchanged calls n c : collector_inv calls c → live_at_c window h (calls ++ [n]) = live_at_c window h calls →
  creations (calls ++ [n]) = creations calls → follows calls n (mret tt) c.
Proof. intros Hc E1 E2. apply wp_ret. split; [|done]. destruct Hc. split; rewrite ?E1, ?E2; done. Qed.

Lemma filter_no_candidate calls c k : collector_inv calls c → candidate_at c k = None →
  filter (λ x, key_of x ≠ k) (live_at_c window h calls) = live_at_c window h calls.
Proof.
  intros Hc Hk. rewrite <- (ci_report _ _ Hc). apply list_filter_all.
  intros g (x & -> & Hx)%list_elem_of_fmap. by eapply no_candidate.
Qed.

Lemma follows_ended calls g r e view c : client_run (calls ++ [on_ended g r e]) = Some view →
  collector_inv calls c → follows calls (on_ended g r e) (observe_ended window g e) c.
Proof.
  intros Hrun Hc. pose proof (report_step_ok window h _ _ _ Hrun) as Hreport. cbn [report_step] in Hreport.
  assert (Hcr : creations (calls ++ [on_ended g r e]) = creations calls) by by rewrite creations_snoc.
  unfold observe_ended. apply wp_bind. eapply wp_the_header; [done|]. do 2 wp_step.
  pose proof (heap_kind_key g) as Hkey.
  assert (Hat : (if heap_kind g then allocation_candidates_ c else mapping_candidates_ c) !!
    (if heap_kind g then mg_allocation_id g else mg_mapping_id g) = candidate_at c (key_of g))
    by (rewrite Hkey; by destruct (heap_kind g)).
  cbv zeta. rewrite Hat. destruct (candidate_at c (key_of g)) as [node|] eqn:Hnode.
  - wp_step. apply wp_pure; [intros b Hb|done].
    assert (by_c window h e = b) as Hby by (unfold by_c; by rewrite Hb). destruct b; cbn [negb].
    + repeat wp_step. apply wp_pure; [intros count Hcount|done]. apply wp_modify.
      split; [|by destruct (heap_kind g)].
      unfold outstanding_increment in Hcount. destruct (_ =? _); [done|]. injection Hcount as <-.
      apply (candidate_removed calls g r e view c _ node); try done.
      all: rewrite ?Hkey; destruct (heap_kind g); try done.
      all: intros [id|id]; cbn; case_decide as Hk; simplify_eq; rewrite ?lookup_delete_eq; try done.
      all: rewrite lookup_delete_ne; congruence.
    + apply follows_unchanged; [done| |done]. by rewrite Hreport, Hby.
  - apply follows_unchanged; [done| |done]. rewrite Hreport. destruct (by_c window h e); [|done].
    by eapply filter_no_candidate.
Qed.

Lemma resize_node_members node size l : (resize_node node size l).*1 = l.*1 ∧
  length (resize_node node size l) = length l ∧
  (∀ n g, (n, g) ∈ resize_node node size l ↔ ∃ g', (n, g') ∈ l ∧ g = if decide (n = node) then set_size_of g' size else g').
Proof.
  unfold resize_node. split_and!.
  - rewrite <- list_fmap_compose. apply list_fmap_ext. intros i [n g] _. cbn. by case_decide.
  - apply length_fmap.
  - intros n g. rewrite list_elem_of_fmap. split.
    + intros ([n' g'] & E & Hg'). cbn in E. exists g'. case_decide; simplify_eq; by rewrite ?decide_True, ?decide_False by done.
    + intros (g' & Hg' & ->). exists (n, g'). cbn. by case_decide.
Qed.

Lemma follows_changed calls g e view c : client_run (calls ++ [on_changed g e]) = Some view →
  collector_inv calls c → follows calls (on_changed g e) (observe_changed window g e) c.
Proof.
  intros Hrun Hc. pose proof (report_step_ok window h _ _ _ Hrun) as Hreport. cbn [report_step] in Hreport.
  rewrite client_run_snoc in Hrun. destruct (client_run calls) as [[live ever]|] eqn:Hrun'; [|done].
  assert (Hkey : key_of g = inr (mg_mapping_id g)).
  { cbn [client_step] in Hrun. destruct (live !! key_of g); [|done]. case_decide as Hg; [|done].
    by apply key_of_mapping, Hg. }
  assert (Hcr : creations (calls ++ [on_changed g e]) = creations calls) by by rewrite creations_snoc.
  unfold observe_changed. apply wp_bind. eapply wp_the_header; [done|]. do 2 wp_step.
  change (mapping_candidates_ c !! mg_mapping_id g) with (candidate_at c (inr (mg_mapping_id g))). rewrite <- Hkey.
  destruct (candidate_at c (key_of g)) as [node|] eqn:Hnode.
  - wp_step. apply wp_pure; [intros b Hb|done].
    assert (by_c window h e = b) as Hby by (unfold by_c; by rewrite Hb). rewrite Hby in Hreport.
    destruct b; cbn [negb]; [|by apply follows_unchanged].
    pose proof (λ x, node_of_key _ _ _ _ _ x Hrun' Hc Hnode) as Hof.
    destruct (resize_node_members node (mg_size g) (candidates_ c)) as (E1 & E2 & E3).
    apply wp_modify. split; [|done]. split; try apply Hc.
    + cbn. rewrite Hreport, <- (ci_report _ _ Hc). unfold resize_node. rewrite <- !list_fmap_compose.
      apply list_fmap_ext. intros i x Hx%list_elem_of_lookup_2. cbn. specialize (Hof x Hx).
      do 2 case_decide; try done; tauto.
    + cbn. rewrite E1. apply Hc.
    + cbn. apply Forall_forall. intros [n g'] (g0 & Hg0 & _)%E3.
      by apply (proj1 (Forall_forall _ _) (ci_fresh _ _ Hc) (n, g0)).
    + intros k n. change (candidate_at _ k) with (candidate_at c k). rewrite (ci_find _ _ Hc). cbn. setoid_rewrite E3.
      split.
      * intros (g' & Hg' & <-). eexists. split; [by exists g'|]. by case_decide.
      * intros (g' & (g0 & Hg0 & ->) & <-). exists g0. split; [done|]. by case_decide.
    + cbn. unfold size_of. rewrite E2. apply Hc.
    + rewrite Hcr. apply Hc.
  - apply follows_unchanged; [done| |done]. rewrite Hreport. destruct (by_c window h e); [|done].
    rewrite <- (ci_report _ _ Hc), <- list_fmap_compose. apply list_fmap_ext.
    intros i x Hx%list_elem_of_lookup_2. cbn. by rewrite decide_False by (by eapply no_candidate).
Qed.

Lemma follows_notification calls n view c : client_run (calls ++ [n]) = Some view →
  collector_inv calls c → follows calls n (on_notification window n) c.
Proof.
  intros Hrun Hc. destruct n; [by eapply follows_created|by eapply follows_ended|by eapply follows_changed].
Qed.

(** Calls that make sense together make sense one by one. *)
Lemma client_run_prefix calls more view : client_run (calls ++ more) = Some view →
  ∃ view', client_run calls = Some view'.
Proof.
  revert view. induction more as [|n more IH] using rev_ind; intros view; [rewrite app_nil_r; eauto|].
  rewrite app_assoc, client_run_snoc. destruct (client_run (calls ++ more)); [eauto|done].
Qed.

Lemma deliver_notifications more calls view c : client_run (calls ++ more) = Some view →
  collector_inv calls c →
  wp (deliver (on_notification window) more) c
    (λ _ c', collector_inv (calls ++ more) c' ∧ tracker_ c' = tracker_ c) (λ _ _, True).
Proof.
  revert calls c. induction more as [|n more IH]; intros calls c Hrun Hc; cbn [deliver].
  { rewrite app_nil_r. by apply wp_ret. }
  change (n :: more) with ([n] ++ more) in *. rewrite app_assoc in *. destruct (client_run_prefix _ _ _ Hrun) as [view' Hrun'].
  wp_step. eapply wp_mono; [by eapply follows_notification| |done].
  intros [] c' [Hc' Et]. eapply wp_mono; [by apply IH| |done]. intros [] c'' [? ?]. split; [done|congruence].
Qed.

(** ** The collector follows the stream *)

(** What holds after some events: the tracker has seen them, and the collector
    the calls of the tracker. *)
Definition collecting_inv (events : list Event) (c : OutstandingCollector) : Prop :=
  tracker_ c = (observe_all events GenerationTracker_new).2 ∧
  tracker_inv (tracker_ c) ∧ created_count_ (tracker_ c) ≤ size_of events ∧
  (observe_all events GenerationTracker_new).1 = Ok tt ∧
  collector_inv (notifications (tracker_ c)) c.

Lemma observe_all_snoc events event t : (observe_all events t).1 = Ok tt →
  observe_all (events ++ [event]) t = observe event (observe_all events t).2.
Proof.
  revert t. induction events as [|e events IH]; intros t; cbn [observe_all app].
  - intros _. unfold mbind, proc_bind, mret, proc_ret. cbn. by destruct (observe event t) as [[[]|] ?].
  - unfold mbind, proc_bind. destruct (observe e t) as [[[]|] t']; cbn; [apply IH|done].
Qed.

Lemma collects_event events event c : size_of events < u64_max → Event_wt event →
  collecting_inv events c →
  wp (observe_event window event) c (λ _ c', collecting_inv (events ++ [event]) c') (λ _ _, True).
Proof.
  intros Hroom Hwt (Et & Hinv & Hcount & Hall & Hc). unfold wp, observe_event.
  pose proof (observe_calls event (tracker_ c)) as (more & Hmore & _).
  pose proof (wp_observe event (tracker_ c) Hinv ltac:(lia) Hwt) as Hstep. unfold wp in Hstep.
  destruct (observe event (tracker_ c)) as [r t'] eqn:Eobs. cbn [snd] in Hmore.
  rewrite Hmore, drop_app_length.
  assert (Hinv' : r = Ok tt → tracker_inv t' ∧ created_count_ t' ≤ created_count_ (tracker_ c) + 1).
  { intros ->. destruct Hstep as [? ?]. split; [done|lia]. }
  assert (Hrun : ∃ view, client_run (notifications (tracker_ c) ++ more) = Some view).
  { rewrite <- Hmore. assert (tracker_inv t') as Ht by (destruct r as [|e]; [apply Hstep|by rewrite Hstep]).
    destruct (ti_client _ Ht) as (live & ever & ? & _). eauto. }
  destruct Hrun as [view Hrun].
  assert (Hc' : collector_inv (notifications (tracker_ c)) (c <| tracker_ := t' |>)) by by destruct Hc.
  pose proof (deliver_notifications _ _ _ _ Hrun Hc') as Hd. unfold wp in Hd.
  destruct (deliver _ more _) as [[[]|e] c']; [|done]. destruct Hd as [Hc2 Et2]. cbn in Et2.
  destruct r as [[]|e]; [|done]. destruct Hinv' as [Ht Hn]; [done|]. unfold collecting_inv. rewrite Et2.
  rewrite (observe_all_snoc events event _ Hall), <- Et, Eobs. cbn.
  rewrite Hmore. split_and!; try done. rewrite size_of_app. unfold size_of at 2. cbn. lia.
Qed.

(** Every call of the stream but the first. *)
Lemma collects_calls calls more c : log_ok h (calls ++ more) → calls ≠ [] →
  collecting_inv (events_of calls) c →
  wp (deliver (on_stream_call window) more) c (λ _ c', collecting_inv (events_of (calls ++ more)) c')
    (λ _ _, True).
Proof.
  revert calls c. induction more as [|call more IH]; intros calls c Hlog Hne Hc; cbn [deliver].
  { rewrite app_nil_r. by apply wp_ret. }
  pose proof (log_ok_allowed _ _ _ _ Hlog) as Hall.
  change (call :: more) with ([call] ++ more) in *. rewrite app_assoc in *.
  wp_step. apply (wp_mono _ _ (λ _ c', collecting_inv (events_of (calls ++ [call])) c') _ (λ _ _, True));
    [|intros [] c' Hc'; by apply IH; [| |]; [|by destruct calls|]|done].
  rewrite events_of_snoc. destruct call; try (by apply wp_ret); [by destruct Hall as [_ [-> _]]|].
  apply collects_event; [|by destruct Hall as (_ & _ & _ & [? _] & _)|done].
  apply (events_room h calls event more). by rewrite <- app_assoc in Hlog.
Qed.

Lemma collects_stream calls : log_ok h (on_file_header h :: calls) →
  wp (deliver (on_stream_call window) (on_file_header h :: calls)) OutstandingCollector_new
    (λ _ c, collecting_inv (events_of (on_file_header h :: calls)) c) (λ _ _, True).
Proof.
  intros Hlog. cbn [deliver on_stream_call]. do 2 wp_step.
  apply (collects_calls [on_file_header h]); [done..|].
  split_and!; try done; [apply tracker_inv_new|]. split; try done; [constructor..|].
  intros [id|id] node; cbn; (split; [by rewrite lookup_empty|]); by intros (g & ?%not_elem_of_nil & _).
Qed.

End collecting.

(** ** The report *)

Section report.
Context {L : CompressionLibrary} {Laws : CompressionLaws L}.
Context (window : OutstandingWindow) (filter : AnalysisFilter) (resolver : EventMetadataResolver).

Definition accepted (g : MemoryGeneration) : bool := holds (matches_generation filter g resolver).

Lemma select_outstanding_spec l n selected n' out :
  select_outstanding filter resolver l n selected = Ok (n', out) →
  out = selected ++ base.filter (λ g, accepted g = true) l ∧
  n' + size_of out = n + size_of selected + size_of l.
Proof.
  revert n selected. induction l as [|g l IH]; intros n selected; cbn [select_outstanding].
  - intros [= -> ->]. rewrite app_nil_r. split; [done|]. unfold size_of. cbn. lia.
  - intros (b & Hb & H)%bind_ok. assert (accepted g = b) as Ha by (unfold accepted; by rewrite Hb).
    assert (size_of (g :: l) = 1 + size_of l) as Hs by (unfold size_of; cbn; lia).
    destruct b; cbn [negb] in H.
    + apply IH in H as [-> H]. rewrite <- app_assoc, filter_cons_True by done. split; [done|].
      unfold size_of in *. rewrite !length_app in *. cbn [length] in *. lia.
    + unfold outstanding_increment in H. destruct (n =? u64_max); [done|]. cbn in H.
      apply IH in H as [-> H]. rewrite filter_cons_False by congruence. split; [done|].
      unfold size_of in *. cbn [length] in *. lia.
Qed.

(** The state an analysis that returns ends with. *)
Lemma analysis_ends input options result : u32 (maximum_record_size options) →
  analyze_filtered_outstanding window filter resolver input options = Ok result →
  ∃ trace calls c, analyze_event_stream input options = (Ok trace, calls) ∧
    collecting_inv window (esr_file_header trace) (events_of calls) c ∧
    finish_analysis window filter resolver trace c = Ok result.
Proof.
  intros Hsize Hrun. unfold analyze_filtered_outstanding in Hrun. apply bind_ok in Hrun as ([] & _ & Hrun).
  apply bind_ok in Hrun as ([] & _ & Hrun). unfold analyze_with in Hrun.
  destruct (analyze_event_stream input options) as [[trace|e] calls] eqn:Hstream.
  2:{ by destruct (deliver _ calls _) as [[]]. }
  destruct (analyze_log _ _ _ _ Hsize Hstream) as (_ & Hlog & rest & ->).
  pose proof (collects_stream window _ rest Hlog) as Hc. unfold wp in Hc.
  destruct (deliver _ _ _) as [[[]|e] c]; [|done]. exists trace, (on_file_header (esr_file_header trace) :: rest), c.
  split_and!; [done..|]. destruct (finish_analysis _ _ _ _ _); cbn in Hrun; congruence.
Qed.

(** C10: What the outstanding analysis reports.  When it returns, the events of the trace
    form a history of generations the tracker accepts, and the report is exactly the
    generations created inside the window that no event up to the observation point
    ended, each with the size of its last change up to that point, in the order of their
    creation, those the filter rejects removed.  Every generation created inside the
    window is counted once: as ended, as filtered out, or as outstanding. *)
Theorem outstanding_report (input : istream) (options : EventStreamOptions)
    (result : OutstandingResult) :
  u32 (maximum_record_size options) →
  analyze_filtered_outstanding window filter resolver input options = Ok result →
  let calls := (analyze_event_stream input options).2 in
  let '(accepts, tracker) := observe_all (events_of calls) GenerationTracker_new in
  let header := esr_file_header (or_trace result) in
  accepts = Ok tt ∧
  outstanding result =
    base.filter (λ g, accepted g = true) (live_at_c window header (notifications tracker)) ∧
  candidate_count result =
    size_of (base.filter (λ g, inside window header g = true) (creations (notifications tracker))) ∧
  candidate_count result =
    ended_by_c_count result + filtered_out_count result + size_of (outstanding result) ∧
  or_orphaned_allocation_end_count result = orphaned_allocation_end_count_ tracker ∧
  or_orphaned_mapping_end_count result = orphaned_mapping_end_count_ tracker.
Proof.
  intros Hsize Hrun. destruct (analysis_ends _ _ _ Hsize Hrun) as (trace & calls & c & -> & Hc & Hfin).
  cbn [snd]. destruct Hc as (Et & _ & _ & Hall & Hc).
  destruct (observe_all _ _) as [r t]. cbn [fst snd] in *. subst t.
  unfold finish_analysis in Hfin. inv_ok. subst result. cbn.
  match goal with H : select_outstanding _ _ _ _ _ = Ok ?p |- _ => destruct p as [n out] end.
  match goal with H : select_outstanding _ _ _ _ _ = _ |- _ => apply select_outstanding_spec in H as [Hout Hn] end.
  cbn [fst snd] in *. rewrite (ci_report _ _ _ _ Hc) in Hout. 
  split_and!; try done; [by apply Hc|]. rewrite (ci_count _ _ _ _ Hc).
  unfold size_of in *. rewrite length_fmap in Hn. cbn in Hn. lia.
Qed.

End report.

(** ** No window and no filter *)

Definition everything : OutstandingWindow :=
  {| window_a := {| wb_time := None; wb_sequence := None |}; window_b := None; window_c := None |}.

(** Nothing is outside, so the report keeps the live generations. *)
Lemma live_everything h calls live ever : client_run calls = Some (live, ever) →
  ∀ g, g ∈ live_at_c everything h calls ↔ live !! key_of g = Some g.
Proof.
  revert live ever. induction calls as [|n calls IH] using rev_ind; intros live ever Hrun g.
  { injection Hrun as <- <-. rewrite lookup_empty. split; [by intros ?%elem_of_nil|done]. }
  rewrite (report_step_ok _ _ _ _ _ Hrun). rewrite client_run_snoc in Hrun.
  destruct (client_run calls) as [[live' ever']|] eqn:Hrun'; [|done]. specialize (IH _ _ eq_refl).
  destruct (client_created _ _ _ Hrun') as (_ & _ & Hlive).
  destruct n as [g'|g' r e|g' e]; cbn [client_step report_step] in *.
  - case_decide as Hnew; [done|]. injection Hrun as <- <-. cbn. rewrite elem_of_app, list_elem_of_singleton, IH.
    rewrite lookup_insert_Some. split; [|naive_solver]. intros [Hg| ->]; [|by left]. right. split; [|done].
    intros E. apply Hnew. rewrite E. eauto.
  - case_decide as Hcur; [|done]. injection Hrun as <- <-. cbn. rewrite list_elem_of_filter, IH, lookup_delete_Some.
    naive_solver.
  - destruct (live' !! key_of g') as [g0|] eqn:Hcur; [|done]. case_decide as Hg'; [|done].
    injection Hrun as <- <-. destruct Hg' as [Hg' _]. cbn. rewrite list_elem_of_fmap, lookup_insert_Some.
    split.
    + intros (x & -> & Hx%IH). case_decide as E; [|naive_solver].
      left. rewrite E, Hcur in Hx. injection Hx as ->. by rewrite <- Hg'.
    + intros [[E <-]|[Hne Hg%IH]]; [|exists g; by rewrite decide_False].
      exists g0. assert (key_of g0 = key_of g') as Ek by by rewrite Hg'. rewrite decide_True by done.
      split; [done|]. apply IH. by rewrite Ek.
Qed.

Lemma sorted_keys_NoDup {V} (m : ordered_map V) : sorted_keys m → NoDup (keys m).
Proof.
  unfold sorted_keys. generalize (keys m). induction l as [|k l IH]; intros Hs; [constructor|].
  apply StronglySorted_inv in Hs as [Hl Hk]. apply NoDup_cons. split; [|auto].
  intros Hin. apply (proj1 (Forall_forall _ _) Hk) in Hin. lia.
Qed.

Lemma live_generations_NoDup t : tracker_inv t → NoDup (live_generations t).
Proof.
  intros Hinv. apply (NoDup_fmap_1 key_of). unfold live_generations.
  assert (key_of <$> (live_allocations_ t).*2 ++ (ms_generation ∘ snd <$> live_mappings_ t) =
    (inl <$> keys (live_allocations_ t)) ++ (inr <$> keys (live_mappings_ t))) as ->.
  { rewrite fmap_app. unfold keys. rewrite <- !list_fmap_compose. f_equal; apply list_fmap_ext.
    - intros i [id g] H%list_elem_of_lookup_2. cbn.
      destruct (ti_allocations _ Hinv id g) as (Hk & Hid & _); [by apply elem_find, H; apply Hinv|].
      by rewrite key_of_allocation, Hid.
    - intros i [id s] H%list_elem_of_lookup_2. cbn.
      destruct (ti_mappings _ Hinv id s) as (Hk & Hid & _); [by apply elem_find, H; apply Hinv|].
      by rewrite key_of_mapping, Hid. }
  apply NoDup_app. split_and!.
  - apply NoDup_fmap_2; [by intros ?? [=]|]. apply sorted_keys_NoDup, Hinv.
  - intros x (a & -> & _)%list_elem_of_fmap (b & [=] & _)%list_elem_of_fmap.
  - apply NoDup_fmap_2; [by intros ?? [=]|]. apply sorted_keys_NoDup, Hinv.
Qed.

(** C17: With no window and no filter the outstanding generations are the generations
    live at the end of the trace: those the tracker holds after all the events, each
    with its size then, none twice. *)
Theorem outstanding_everything {L : CompressionLibrary} {Laws : CompressionLaws L} (input : istream)
    (options : EventStreamOptions) (result : OutstandingResult) :
  u32 (maximum_record_size options) →
  analyze_outstanding input everything options = Ok result →
  let tracker := (observe_all (events_of (analyze_event_stream input options).2) GenerationTracker_new).2 in
  outstanding result ≡ₚ live_generations tracker ∧
  filtered_out_count result = 0 ∧
  candidate_count result = ended_by_c_count result + size_of (live_generations tracker).
Proof.
  intros Hsize Hrun.
  destruct (analysis_ends _ _ _ _ _ _ Hsize Hrun) as (trace & calls & c & -> & Hc & Hfin).
  cbn [snd]. destruct Hc as (Et & Hinv & _ & _ & Hc). rewrite <- Et.
  unfold finish_analysis in Hfin. inv_ok. subst result. cbn.
  match goal with H : select_outstanding _ _ _ _ _ = Ok ?p |- _ => destruct p as [n out] end.
  match goal with H : select_outstanding _ _ _ _ _ = _ |- _ => apply select_outstanding_spec in H as [Hout Hn] end.
  destruct (ti_client _ Hinv) as (live & ever & Hrun' & Hlive & _).
  assert (Hperm : (candidates_ c).*2 ≡ₚ live_generations (tracker_ c)).
  { rewrite (ci_report _ _ _ _ Hc). apply NoDup_Permutation.
    - apply (NoDup_fmap_1 key_of). by eapply live_at_c_keys.
    - by apply live_generations_NoDup.
    - intros g. rewrite (live_everything _ _ _ _ Hrun'), elem_live_generations by done. by rewrite Hlive. }
  assert (Hall : base.filter (λ g, accepted {| criteria_ := empty_criteria |} None g = true) (candidates_ c).*2 =
    (candidates_ c).*2).
  { apply list_filter_all. intros g _. unfold accepted. by rewrite empty_filter_accepts. }
  cbn [fst snd app] in *. rewrite Hall in Hout. subst out. pose proof (Permutation_length Hperm) as Hlen.
  pose proof (ci_count _ _ _ _ Hc). unfold size_of in *. rewrite length_fmap in *. cbn in Hn.
  split_and!; [done|lia|]. rewrite <- Hlen. done.
Qed.

(** ** The outstanding analysis of the sample trace

    The trace of StreamExamples.v has two allocations, of which the first is freed:
    the hypotheses of the theorems on the outstanding analysis hold together.  One
    example shows what the analysis makes of an observation point before the end
    of the creation window. *)

#[local] Existing Instances stored_library.

Definition at_sequence (seq : Z) : WindowBound := {| wb_time := None; wb_sequence := Some seq |}.
Definition no_bound : WindowBound := {| wb_time := None; wb_sequence := None |}.

(** Created before the second event, still live at the fourth. *)
Definition early_window : OutstandingWindow :=
  {| window_a := no_bound; window_b := Some (at_sequence 2); window_c := Some (at_sequence 4) |}.

Definition no_filter : AnalysisFilter := {| criteria_ := empty_criteria |}.

Definition no_result : OutstandingResult :=
  {| or_trace := empty_result example_header; requested_window := everything; effective_b := no_bound;
     effective_c := no_bound; trace_end_monotonic_ticks := 0; candidate_count := 0;
     ended_by_c_count := 0; filtered_out_count := 0; or_orphaned_allocation_end_count := 0;
     or_orphaned_mapping_end_count := 0; observation_uses_trace_end := false; outstanding := [] |}.

Definition outstanding_of (window : OutstandingWindow) : OutstandingResult :=
  match analyze_outstanding sample_input window default_stream_options with
  | Ok r => r
  | Throw _ => no_result
  end.

Definition first_allocation : MemoryGeneration :=
  {| mg_kind := Kind_kHeapAllocation; mg_allocation_id := 1; mg_mapping_id := 0; mg_heap_id := 1;
     mg_heap_handle := 0x10; mg_address := 0x1000; mg_size := 32;
     mg_created_by := heap_alloc 1 1 0x1000 32 |}.
Definition second_allocation : MemoryGeneration :=
  {| mg_kind := Kind_kHeapAllocation; mg_allocation_id := 2; mg_mapping_id := 0; mg_heap_id := 1;
     mg_heap_handle := 0x10; mg_address := 0x2000; mg_size := 64;
     mg_created_by := heap_alloc 2 2 0x2000 64 |}.

Lemma outstanding_report_witness : outstanding (outstanding_of early_window) = [first_allocation].
Proof.
  assert (Hu : u32 (maximum_record_size default_stream_options)) by (split; [discriminate|reflexivity]).
  assert (Hrun : analyze_filtered_outstanding early_window no_filter None sample_input default_stream_options =
    Ok (outstanding_of early_window)) by (vm_compute; reflexivity).
  pose proof (outstanding_report early_window no_filter None sample_input default_stream_options _ Hu Hrun) as H.
  clear Hrun. cbv zeta in H. destruct (observe_all _ _) as [accepts tracker] eqn:E.
  destruct H as (_ & Hout & _). rewrite Hout. clear Hout.
  assert (Ht : tracker = (observe_all (events_of (analyze_event_stream sample_input default_stream_options).2)
    GenerationTracker_new).2) by (rewrite E; reflexivity).
  rewrite Ht. vm_compute. reflexivity.
Defined.

Lemma outstanding_everything_witness : outstanding (outstanding_of everything) = [second_allocation].
Proof.
  assert (Hu : u32 (maximum_record_size default_stream_options)) by (split; [discriminate|reflexivity]).
  assert (Hrun : analyze_outstanding sample_input everything default_stream_options =
    Ok (outstanding_of everything)) by (vm_compute; reflexivity).
  pose proof (outstanding_everything sample_input default_stream_options _ Hu Hrun) as [H _]. clear Hrun.
  apply Permutation_singleton_r. etransitivity; [exact H|].
  vm_compute. reflexivity.
Defined.

(** With an observation point but no end of the creation window, generations
    created after the point are candidates, and no later end removes them: at
    sequence 1 the second allocation, created at sequence 2, is outstanding. *)
Definition at_first_event : OutstandingWindow :=
  {| window_a := no_bound; window_b := None; window_c := Some (at_sequence 1) |}.

Example created_after_the_observation :
  outstanding (outstanding_of at_first_event) = [first_allocation; second_allocation] ∧
  sequence (ev_header (mg_created_by second_allocation)) = 2.
Proof. vm_compute. split; reflexivity. Qed.
