(* ===== verification/Stacks.v ===== *)
(** * Stack groups

    src/src/analyzer/stacks.cpp: events, and outstanding generations, grouped by the
    stack that made them.  The collector of events is a client of the event stream
    and of the generation tracker, as the collector of Outstanding.v; the groups of
    leaks are computed from the report of that collector. *)

From S2P Require Import Prelude Bytes WireFormat Compression Event GenerationTracker TraceReader TraceTime AnalysisFilter EventStream StreamContract FilteredEvents Outstanding.

(** ** Groups *)

Inductive StacksSort : Set := Sort_kCalls | Sort_kAllocBytes | Sort_kFreeBytes | Sort_kNetBytes | Sort_kBytes.

Definition saturating_net_bytes (alloc_bytes free_bytes : Z) : Z :=
  let kMax := i64_max in
  if free_bytes <=? alloc_bytes then
    let difference := alloc_bytes - free_bytes in
    if kMax <? difference then i64_max else difference
  else
    let difference := free_bytes - alloc_bytes in
    if kMax <? difference then - 2 ^ 63 else - difference.

(** A value-initialized event. *)
Definition Event_new : Event :=
  {| ev_header := {| sequence := 0; monotonic_ticks := 0; thread_id := 0; api_id := 0;
                     status := Status_kFailure; stack_id := 0; eh_flags := 0;
                     system_error := {| se_domain := Domain_kNone; se_code := 0 |} |};
     ev_payload := HeapCreate {| hc_heap_handle := 0; hc_heap_id := 0; hc_heap_flags := 0;
                                 hc_reserve_size := 0; hc_commit_size := 0 |} |}.

Record EventsStacksGroup : Set := {
  eg_stack_id : Z;
  eg_sample_event : Event;
  eg_api_ids : list Z;
  eg_calls : Z;
  eg_alloc_calls : Z;
  eg_alloc_bytes : Z;
  eg_free_calls : Z;
  eg_free_bytes : Z;
}.

#[global] Instance EventsStacksGroup_members : Members EventsStacksGroup := λ g,
  {| eg_stack_id := eg_stack_id g; eg_sample_event := eg_sample_event g; eg_api_ids := eg_api_ids g;
     eg_calls := eg_calls g; eg_alloc_calls := eg_alloc_calls g; eg_alloc_bytes := eg_alloc_bytes g;
     eg_free_calls := eg_free_calls g; eg_free_bytes := eg_free_bytes g |}.

Definition EventsStacksGroup_new : EventsStacksGroup :=
  {| eg_stack_id := 0; eg_sample_event := Event_new; eg_api_ids := []; eg_calls := 0;
     eg_alloc_calls := 0; eg_alloc_bytes := 0; eg_free_calls := 0; eg_free_bytes := 0 |}.

Definition net_bytes (g : EventsStacksGroup) : Z :=
  saturating_net_bytes (eg_alloc_bytes g) (eg_free_bytes g).

Record LeaksStacksGroup : Set := {
  lg_stack_id : Z;
  lg_sample_event : Event;
  lg_api_ids : list Z;
  lg_calls : Z;
  lg_bytes : Z;
}.

#[global] Instance LeaksStacksGroup_members : Members LeaksStacksGroup := λ g,
  {| lg_stack_id := lg_stack_id g; lg_sample_event := lg_sample_event g; lg_api_ids := lg_api_ids g;
     lg_calls := lg_calls g; lg_bytes := lg_bytes g |}.

Definition LeaksStacksGroup_new : LeaksStacksGroup :=
  {| lg_stack_id := 0; lg_sample_event := Event_new; lg_api_ids := []; lg_calls := 0; lg_bytes := 0 |}.

Definition checked_add_bytes (total value : Z) (subject : string) : result exn Z :=
  if u64_max - total <? value then throw StacksAnalysisError (subject +:+ " byte total overflow")
  else Ok (total + value).

(** [note_api], also written out in [analyze_leak_stacks]. *)
Definition note_api (api_ids : list Z) (api_id : Z) : list Z :=
  if bool_decide (api_id ∈ api_ids) then api_ids else api_ids ++ [api_id].

Definition stacks_validate_window (window : EventsWindow) : result exn unit :=
  throw_if (negative_time (from window) || on_bound negative_time (to window))
    StacksAnalysisError "stacks window times must not be negative" ;;
  throw_if (on_bound (λ to, negb (window_bounds_in_order (from window) to)) (to window))
    StacksAnalysisError "stacks window requires from <= to".

(** ** Sorting

    [std::sort] with the comparison [group_before].  A stable merge sort stands for
    it: the groups have distinct stacks, so the sorted order is unique. *)

Section sort.
Context {G : Type} (stack_of : G → Z) (metric : G → Z).

Definition group_before (left right : G) : bool :=
  if negb (metric left =? metric right) then metric right <? metric left
  else stack_of left <? stack_of right.

Definition not_after (left right : G) : Prop := group_before right left = false.

#[global] Instance not_after_dec : RelDecision not_after.
Proof. intros l r. unfold not_after. apply _. Defined.

Definition sort_groups (groups : list G) : list G := merge_sort not_after groups.
End sort.

Definition event_metric (sort : StacksSort) (g : EventsStacksGroup) : Z :=
  match sort with
  | Sort_kCalls => eg_calls g
  | Sort_kFreeBytes => eg_free_bytes g
  | Sort_kNetBytes => net_bytes g
  | Sort_kAllocBytes | Sort_kBytes => eg_alloc_bytes g
  end.

Definition sort_event_groups (groups : list EventsStacksGroup) (sort : StacksSort) : list EventsStacksGroup :=
  sort_groups eg_stack_id (event_metric sort) groups.

Definition leak_metric (sort : StacksSort) (g : LeaksStacksGroup) : Z :=
  match sort with
  | Sort_kCalls => lg_calls g
  | Sort_kAllocBytes | Sort_kFreeBytes | Sort_kNetBytes | Sort_kBytes => lg_bytes g
  end.

Definition sort_leak_groups (groups : list LeaksStacksGroup) (sort : StacksSort) : list LeaksStacksGroup :=
  sort_groups lg_stack_id (leak_metric sort) groups.

(** ** The collector of events *)

Record EventsStacksCollector : Set := {
  es_header : option FileHeader;
  es_tracker : GenerationTracker;
  groups_ : gmap Z EventsStacksGroup;
  aggregated_event_count_ : Z;
  unmatched_free_count_ : Z;
}.

#[global] Instance EventsStacksCollector_members : Members EventsStacksCollector := λ c,
  {| es_header := es_header c; es_tracker := es_tracker c; groups_ := groups_ c;
     aggregated_event_count_ := aggregated_event_count_ c;
     unmatched_free_count_ := unmatched_free_count_ c |}.

Definition EventsStacksCollector_new : EventsStacksCollector :=
  {| es_header := None; es_tracker := GenerationTracker_new; groups_ := ∅;
     aggregated_event_count_ := 0; unmatched_free_count_ := 0 |}.

Abbreviation grouping := (proc EventsStacksCollector exn).

(** [groups_[stack]], with what [group_for] puts into a new group. *)
Definition group_for (event : Event) (groups : gmap Z EventsStacksGroup) : EventsStacksGroup :=
  let group := default EventsStacksGroup_new (groups !! stack_id (ev_header event)) in
  if eg_calls group =? 0
  then group <| eg_stack_id := stack_id (ev_header event) |> <| eg_sample_event := event |>
  else group.

(** Statements on the reference [group_for(event)]. *)
Definition with_group (event : Event) (p : proc EventsStacksGroup exn unit) : grouping unit := λ c,
  let '(r, group) := p (group_for event (groups_ c)) in
  (r, c <| groups_ := <[stack_id (ev_header event) := group]> (groups_ c) |>).

Definition note_group_api (event : Event) (g : EventsStacksGroup) : EventsStacksGroup :=
  g <| eg_api_ids := note_api (eg_api_ids g) (api_id (ev_header event)) |>.

Definition group_call (g : EventsStacksGroup) : EventsStacksGroup := g <| eg_calls := wrap64 (eg_calls g + 1) |>.
Definition group_alloc_call (g : EventsStacksGroup) : EventsStacksGroup :=
  g <| eg_alloc_calls := wrap64 (eg_alloc_calls g + 1) |>.
Definition group_free_call (g : EventsStacksGroup) : EventsStacksGroup :=
  g <| eg_free_calls := wrap64 (eg_free_calls g + 1) |>.

Definition count_event : grouping unit :=
  modify (λ c, c <| aggregated_event_count_ := wrap64 (aggregated_event_count_ c + 1) |>).

Definition released_kind (event : Event) : bool :=
  bool_decide (event_operation (ev_payload event) = Op_kFree).

Section collector.
Context (window : EventsWindow) (filter : AnalysisFilter) (resolver : EventMetadataResolver).

(** [selected]; the file header is there when it is called. *)
Definition selected (event : Event) : grouping bool :=
  c ← get_state;
  if negb (call_succeeded (status (ev_header event))) then mret false else
  match es_header c with
  | None => mret false
  | Some header =>
      inside ← pure (in_window window header event);
      if negb inside then mret false else pure (matches_event filter event resolver)
  end.

Definition observe_generation_ended (generation : MemoryGeneration) (event : Event) : grouping unit :=
  if negb (bool_decide (mg_kind generation = Kind_kHeapAllocation)) || negb (released_kind event)
  then mret tt else
  chosen ← selected event;
  if negb chosen then mret tt else
  with_group event
    (modify (note_group_api event) ;; modify group_free_call ;; modify group_call ;;
     g ← get_state;
     total ← pure (checked_add_bytes (eg_free_bytes g) (mg_size generation) "free stack group");
     modify (λ g, g <| eg_free_bytes := total |>)) ;;
  count_event.

Definition on_tracker_call (n : Notification) : grouping unit :=
  match n with on_ended g _ event => observe_generation_ended g event | _ => mret tt end.

(** [tracker_.observe(event)], with the callback it makes. *)
Definition track_event (event : Event) : grouping unit := λ c,
  let '(r, tracker) := observe event (es_tracker c) in
  let calls := drop (length (notifications (es_tracker c))) (notifications tracker) in
  match deliver on_tracker_call calls (c <| es_tracker := tracker |>) with
  | (Throw e, c) => (Throw e, c)
  | (Ok _, c) => (r, c)
  end.

Definition untracked (event : Event) (tracker : GenerationTracker) : bool :=
  match ev_payload event with
  | Free f => call_succeeded (status (ev_header event)) &&
              negb (has_value (find_allocation (fr_allocation_id f) tracker))
  | _ => false
  end.

Definition requested_size_of (event : Event) : option Z :=
  match ev_payload event with
  | Allocation a => Some (al_requested_size a)
  | Reallocation r => Some (re_requested_size r)
  | _ => None
  end.

(** [EventsStacksCollector::observe] *)
Definition observe_stack_event (event : Event) : grouping unit :=
  c ← get_state;
  pure (throw_if (negb (has_value (es_header c))) StacksAnalysisError "event appeared before FileHeader") ;;
  let untracked_free := untracked event (es_tracker c) in
  track_event event ;;
  unmatched ← (if untracked_free then selected event else mret false);
  if (unmatched : bool) then
    with_group event (modify (note_group_api event) ;; modify group_free_call ;; modify group_call) ;;
    count_event ;;
    modify (λ c, c <| unmatched_free_count_ := wrap64 (unmatched_free_count_ c + 1) |>)
  else
    match requested_size_of event with
    | None => mret tt
    | Some requested_size =>
        chosen ← selected event;
        if negb chosen then mret tt else
        with_group event
          (modify (note_group_api event) ;; modify group_alloc_call ;; modify group_call ;;
           g ← get_state;
           total ← pure (checked_add_bytes (eg_alloc_bytes g) requested_size "allocation stack group");
           modify (λ g, g <| eg_alloc_bytes := total |>)) ;;
        count_event
    end.

Definition on_stacks_call (call : StreamCall) : grouping unit :=
  match call with
  | on_file_header header => modify (λ c, c <| es_header := Some header |>)
  | on_event event => observe_stack_event event
  | _ => mret tt
  end.
End collector.

Record EventsStacksResult : Set := {
  ers_trace : EventStreamResult;
  ers_window : EventsWindow;
  ers_groups : list EventsStacksGroup;
  ers_aggregated_event_count : Z;
  ers_unmatched_free_count : Z;
}.

(** The groups in some order: [std::unordered_map] promises none. *)
Definition all_groups {G} (groups : gmap Z G) : list G := (map_to_list groups).*2.

Definition analyze_event_stacks {L : CompressionLibrary} (input : istream) (window : EventsWindow)
    (sort : StacksSort) (filter : AnalysisFilter) (resolver : EventMetadataResolver)
    (options : EventStreamOptions) : result fault EventsStacksResult :=
  lift_exn (stacks_validate_window window) ;;
  lift_exn (throw_if (requires_metadata filter && negb (has_value resolver)) AnalysisFilterError
    "API and module filters require an event metadata resolver") ;;
  match analyze_with (on_stacks_call window filter resolver) input options EventsStacksCollector_new with
  | (Throw e, _) => Throw e
  | (Ok trace, c) =>
      Ok {| ers_trace := trace; ers_window := window;
            ers_groups := sort_event_groups (all_groups (groups_ c)) sort;
            ers_aggregated_event_count := aggregated_event_count_ c;
            ers_unmatched_free_count := unmatched_free_count_ c |}
  end.

(** ** Groups of leaks *)

Record LeaksStacksResult : Set := {
  lrs_outstanding : OutstandingResult;
  lrs_groups : list LeaksStacksGroup;
}.

Definition leak_group_for (event : Event) (groups : gmap Z LeaksStacksGroup) : LeaksStacksGroup :=
  let group := default LeaksStacksGroup_new (groups !! stack_id (ev_header event)) in
  if lg_calls group =? 0
  then group <| lg_stack_id := stack_id (ev_header event) |> <| lg_sample_event := event |>
  else group.

(** One turn of the loop over the outstanding generations. *)
Definition group_leak (groups : gmap Z LeaksStacksGroup) (generation : MemoryGeneration)
    : result exn (gmap Z LeaksStacksGroup) :=
  if negb (bool_decide (mg_kind generation = Kind_kHeapAllocation)) then Ok groups else
  let event := mg_created_by generation in
  let group := leak_group_for event groups in
  let group := group <| lg_api_ids := note_api (lg_api_ids group) (api_id (ev_header event)) |> in
  let group := group <| lg_calls := wrap64 (lg_calls group + 1) |> in
  total ← checked_add_bytes (lg_bytes group) (mg_size generation) "leak stack group";
  Ok (<[stack_id (ev_header event) := group <| lg_bytes := total |>]> groups).

Fixpoint group_leaks (groups : gmap Z LeaksStacksGroup) (generations : list MemoryGeneration)
    : result exn (gmap Z LeaksStacksGroup) :=
  match generations with
  | [] => Ok groups
  | generation :: generations =>
      groups ← group_leak groups generation;
      group_leaks groups generations
  end.

Definition analyze_leak_stacks {L : CompressionLibrary} (input : istream) (window : OutstandingWindow)
    (sort : StacksSort) (filter : AnalysisFilter) (resolver : EventMetadataResolver)
    (options : EventStreamOptions) : result fault LeaksStacksResult :=
  report ← analyze_filtered_outstanding window filter resolver input options;
  groups ← lift_exn (group_leaks ∅ (outstanding report));
  Ok {| lrs_outstanding := report; lrs_groups := sort_leak_groups (all_groups groups) sort |}.
