(* ===== verification/StacksTheorems.v ===== *)
(** * What the stack groups say

    Both analyses group contributions: events with the bytes they allocated or
    released, and outstanding generations with their sizes.  A group is the summary
    of the contributions of its stack, and the groups come in the one order their
    sort key gives. *)

From S2P Require Import Prelude Bytes WireFormat Compression Event TraceReader TraceReaderTheorems OrderedMap GenerationTracker TrackerInvariant TrackerTheorems TrackerCalls TraceTime AnalysisFilter EventStream StreamContract StreamTheorems FilteredEvents StreamExamples Outstanding OutstandingTheorems Stacks.

(** ** The order of the groups *)

Section sort.
Context {G : Type} (stack_of : G → Z) (metric : G → Z).

Definition before (left right : G) : Prop := group_before stack_of metric left right = true.

Lemma before_spec l r : before l r ↔ metric r < metric l ∨ (metric l = metric r ∧ stack_of l < stack_of r).
Proof. unfold before, group_before. destruct (Z.eqb_spec (metric l) (metric r)); cbn [negb]; bool_facts; lia. Qed.

Lemma not_after_spec l r :
  not_after stack_of metric l r ↔ before l r ∨ (metric l = metric r ∧ stack_of l = stack_of r).
Proof.
  rewrite before_spec. unfold not_after, group_before.
  destruct (Z.eqb_spec (metric r) (metric l)); cbn [negb]; bool_facts; lia.
Qed.

#[local] Instance not_after_trans : Transitive (not_after stack_of metric).
Proof. intros a b c. rewrite !not_after_spec, !before_spec. lia. Qed.
#[local] Instance not_after_total : Total (not_after stack_of metric).
Proof. intros a b. rewrite !not_after_spec, !before_spec. lia. Qed.

Lemma sort_groups_spec l : NoDup (stack_of <$> l) →
  StronglySorted before (sort_groups stack_of metric l) ∧ sort_groups stack_of metric l ≡ₚ l.
Proof.
  intros Hl. unfold sort_groups. pose proof (merge_sort_Permutation (not_after stack_of metric) l) as Hp.
  split; [|done]. pose proof (StronglySorted_merge_sort (not_after stack_of metric) l) as Hs.
  rewrite <- Hp in Hl. clear Hp. induction Hs as [|g k _ IH Hk]; [constructor|].
  cbn in Hl. apply NoDup_cons in Hl as [Hg Hl]. constructor; [auto|].
  apply Forall_forall. intros x Hx. pose proof (proj1 (Forall_forall _ _) Hk x Hx) as Hgx.
  apply not_after_spec in Hgx as [|[_ E]]; [done|]. destruct Hg. rewrite E. by apply list_elem_of_fmap_2.
Qed.

(** Whatever order the groups come in, and whatever the sort does with it, there
    is one sorted list of them. *)
Lemma sorted_groups_unique l k : l ≡ₚ k → StronglySorted before l → StronglySorted before k → l = k.
Proof.
  intros Hp Hl Hk. apply (StronglySorted_unique_strong before); [|done..].
  intros a b _ _. rewrite !before_spec. lia.
Qed.
End sort.

(** ** Contributions *)

Inductive contribution : Set := Allocated (size : Z) | Released (size : Z) | Unmatched.

Definition is_unmatched (p : Event * contribution) : bool :=
  match p.2 with Unmatched => true | _ => false end.
Definition allocated_of (p : Event * contribution) : option Z :=
  match p.2 with Allocated size => Some size | _ => None end.
Definition released_of (p : Event * contribution) : option Z :=
  match p.2 with Released size => Some size | Unmatched => Some 0 | _ => None end.

Definition sum (l : list Z) : Z := foldr Z.add 0 l.

(** The distinct values of a list, where they are first seen. *)
Fixpoint first_seen (l : list Z) : list Z :=
  match l with
  | [] => []
  | x :: l => x :: base.filter (λ y, y ≠ x) (first_seen l)
  end.

Definition of_stack (stack : Z) (parts : list (Event * contribution)) : list (Event * contribution) :=
  base.filter (λ p, stack_id (ev_header p.1) = stack) parts.

Definition event_summary (stack : Z) (parts : list (Event * contribution)) : EventsStacksGroup :=
  {| eg_stack_id := stack; eg_sample_event := default Event_new (head parts.*1);
     eg_api_ids := first_seen ((λ p, api_id (ev_header p.1)) <$> parts);
     eg_calls := size_of parts;
     eg_alloc_calls := size_of (omap allocated_of parts);
     eg_alloc_bytes := sum (omap allocated_of parts);
     eg_free_calls := size_of (omap released_of parts);
     eg_free_bytes := sum (omap released_of parts) |}.

Lemma sum_over_snoc l n : sum (l ++ [n]) = sum l + n.
Proof. unfold sum. induction l as [|m l IH]; cbn [app foldr]; lia. Qed.

Lemma elem_first_seen l x : x ∈ first_seen l ↔ x ∈ l.
Proof.
  induction l as [|y l IH]; [done|]. cbn [first_seen]. rewrite !elem_of_cons, list_elem_of_filter, IH.
  destruct (decide (x = y)); naive_solver.
Qed.

Lemma first_seen_snoc l x : first_seen (l ++ [x]) = note_api (first_seen l) x.
Proof.
  unfold note_api. induction l as [|y l IH]; [done|]. cbn [first_seen app]. rewrite IH.
  destruct (decide (x = y)) as [->|Hne].
  - rewrite (bool_decide_true (y ∈ y :: _)) by (by left).
    case_bool_decide; [done|]. rewrite filter_app, filter_cons_False, app_nil_r by (intros H'; by apply H'). done.
  - rewrite (bool_decide_ext (x ∈ y :: _) (x ∈ first_seen l)).
    2:{ rewrite elem_of_cons, list_elem_of_filter. naive_solver. }
    case_bool_decide; [done|]. by rewrite filter_app, filter_cons_True.
Qed.

Lemma of_stack_snoc stack parts p : of_stack stack (parts ++ [p]) =
  of_stack stack parts ++ (if decide (stack_id (ev_header p.1) = stack) then [p] else []).
Proof.
  unfold of_stack. by rewrite filter_app.
Qed.

Lemma omap_snoc {A B} (f : A → option B) l a : omap f (l ++ [a]) = omap f l ++ option_list (f a).
Proof. by rewrite omap_app. Qed.

(** What one more contribution does to its group. *)
Lemma event_summary_snoc stack parts event what : parts ≠ [] →
  let g := event_summary stack parts in
  event_summary stack (parts ++ [(event, what)]) =
    {| eg_stack_id := stack; eg_sample_event := eg_sample_event g;
       eg_api_ids := note_api (eg_api_ids g) (api_id (ev_header event));
       eg_calls := eg_calls g + 1;
       eg_alloc_calls := eg_alloc_calls g + match what with Allocated _ => 1 | _ => 0 end;
       eg_alloc_bytes := eg_alloc_bytes g + match what with Allocated size => size | _ => 0 end;
       eg_free_calls := eg_free_calls g + match what with Allocated _ => 0 | _ => 1 end;
       eg_free_bytes := eg_free_bytes g + match what with Released size => size | _ => 0 end |}.
Proof.
  intros Hne. unfold event_summary. cbn. rewrite !fmap_app, !omap_snoc, !size_of_app. cbn [fmap list_fmap].
  rewrite first_seen_snoc. destruct parts as [|p parts]; [done|].
  destruct what; cbn [allocated_of released_of snd]; unfold option_list; cbn [option_rect];
    rewrite ?sum_over_snoc, ?app_nil_r, ?Z.add_0_r; reflexivity.
Qed.

(** ** The events of a stack *)

Section events.
Context (window : EventsWindow) (filter : AnalysisFilter) (resolver : EventMetadataResolver) (h : FileHeader).

Definition chosen (event : Event) : bool :=
  call_succeeded (status (ev_header event)) && selects filter resolver window h event.

(** What an event contributes, after the events the tracker has seen. *)
Definition part_of (t : GenerationTracker) (event : Event) : option contribution :=
  if chosen event then
    match ev_payload event with
    | Allocation a => Some (Allocated (al_requested_size a))
    | Reallocation r => Some (Allocated (re_requested_size r))
    | Free f =>
        Some match find_allocation (fr_allocation_id f) t with
             | Some g => Released (mg_size g)
             | None => Unmatched
             end
    | _ => None
    end
  else None.

Fixpoint parts_of (t : GenerationTracker) (events : list Event) : list (Event * contribution) :=
  match events with
  | [] => []
  | event :: events =>
      option_list (pair event <$> part_of t event) ++ parts_of (observe event t).2 events
  end.

Lemma parts_of_snoc events event t : (observe_all events t).1 = Ok tt →
  parts_of t (events ++ [event]) =
    parts_of t events ++ option_list (pair event <$> part_of (observe_all events t).2 event).
Proof.
  revert t. induction events as [|e events IH]; intros t; cbn [parts_of app observe_all].
  { intros _. by rewrite app_nil_r. }
  unfold mbind, proc_bind. destruct (observe e t) as [[[]|] t'] eqn:E; [|done]. cbn [snd]. intros Hok.
  rewrite IH by done. by rewrite app_assoc.
Qed.

Lemma parts_bound events t : size_of (parts_of t events) ≤ size_of events.
Proof.
  revert t. induction events as [|e events IH]; intros t; cbn [parts_of]; [done|].
  rewrite size_of_app. specialize (IH (observe e t).2). unfold size_of in *. cbn [length].
  destruct (part_of t e); cbn; lia.
Qed.

(** The collector after some contributions. *)
Record groups_inv (parts : list (Event * contribution)) (c : EventsStacksCollector) : Prop := {
  gi_header : es_header c = Some h;
  gi_groups : ∀ stack, groups_ c !! stack =
    match of_stack stack parts with [] => None | ps => Some (event_summary stack ps) end;
  gi_aggregated : aggregated_event_count_ c = size_of parts;
  gi_unmatched : unmatched_free_count_ c = size_of (base.filter (λ p, is_unmatched p = true) parts);
}.

Lemma of_stack_bound stack parts : size_of (of_stack stack parts) ≤ size_of parts.
Proof. unfold size_of, of_stack. pose proof (length_filter (λ p, stack_id (ev_header p.1) = stack) parts). lia. Qed.

Lemma omap_bound {A B} (f : A → option B) l : size_of (omap f l) ≤ size_of l.
Proof. unfold size_of. induction l as [|a l IH]; cbn; [done|]. destruct (f a); cbn; lia. Qed.

(** The group of the stack, ready for one more call. *)
Lemma group_for_spec parts c event : groups_inv parts c → size_of parts < u64_max →
  let ps := of_stack (stack_id (ev_header event)) parts in
  let g := group_for event (groups_ c) in
  0 ≤ eg_calls g < u64_max ∧ 0 ≤ eg_alloc_calls g < u64_max ∧ 0 ≤ eg_free_calls g < u64_max ∧
  ∀ what, event_summary (stack_id (ev_header event)) (ps ++ [(event, what)]) =
    {| eg_stack_id := eg_stack_id g; eg_sample_event := eg_sample_event g;
       eg_api_ids := note_api (eg_api_ids g) (api_id (ev_header event));
       eg_calls := eg_calls g + 1;
       eg_alloc_calls := eg_alloc_calls g + match what with Allocated _ => 1 | _ => 0 end;
       eg_alloc_bytes := eg_alloc_bytes g + match what with Allocated size => size | _ => 0 end;
       eg_free_calls := eg_free_calls g + match what with Allocated _ => 0 | _ => 1 end;
       eg_free_bytes := eg_free_bytes g + match what with Released size => size | _ => 0 end |}.
Proof.
  intros Hc Hroom. cbv zeta. unfold group_for. rewrite (gi_groups _ _ Hc).
  pose proof (of_stack_bound (stack_id (ev_header event)) parts) as Hb.
  destruct (of_stack _ parts) as [|p ps] eqn:E.
  - cbn [default option_rect from_option]. cbn. split_and!; [word..|]. intros []; unfold event_summary, size_of, sum; cbn; f_equal; lia.
  - cbn [default from_option id]. assert (Hne : (eg_calls (event_summary (stack_id (ev_header event)) (p :: ps)) =? 0) = false).
    { apply Z.eqb_neq. unfold event_summary, size_of. cbn. lia. }
    pose proof (omap_bound allocated_of (p :: ps)). pose proof (omap_bound released_of (p :: ps)).
    pose proof (@size_of_nonneg). rewrite Hne. unfold event_summary at 1 2 3 4 5 6.
    cbn [eg_calls eg_alloc_calls eg_free_calls].
    split_and!; [lia || auto..|intros what; by apply event_summary_snoc].
Qed.

Lemma contributed parts c c' event what : groups_inv parts c →
  es_header c' = es_header c →
  groups_ c' = <[stack_id (ev_header event) :=
    event_summary (stack_id (ev_header event)) (of_stack (stack_id (ev_header event)) parts ++ [(event, what)])]>
    (groups_ c) →
  aggregated_event_count_ c' = aggregated_event_count_ c + 1 →
  unmatched_free_count_ c' = unmatched_free_count_ c + (if is_unmatched (event, what) then 1 else 0) →
  groups_inv (parts ++ [(event, what)]) c'.
Proof.
  intros Hc Hh Hg Ha Hu. split.
  - rewrite Hh. apply Hc.
  - intros stack. rewrite Hg, of_stack_snoc. cbn [fst]. case_decide as E.
    + rewrite E, lookup_insert_eq. by destruct (of_stack stack parts).
    + rewrite lookup_insert_ne by done. rewrite (gi_groups _ _ Hc), app_nil_r. done.
  - rewrite Ha, (gi_aggregated _ _ Hc), size_of_app. done.
  - rewrite Hu, (gi_unmatched _ _ Hc), filter_app, size_of_app. f_equal.
    destruct (is_unmatched (event, what)) eqn:E; [by rewrite filter_cons_True|by rewrite filter_cons_False by congruence].
Qed.

Lemma wp_selected event c P : es_header c = Some h → P (chosen event) c →
  wp (selected window filter resolver event) c P (λ _ _, True).
Proof.
  intros Hh HP. unfold selected, chosen, selects in *. wp_step. wp_step. rewrite Hh.
  destruct (call_succeeded _); cbn [negb andb] in *; [|by wp_step]. wp_step.
  apply wp_pure; [intros inside Hin|done]. rewrite Hin in HP. cbn [holds] in HP.
  destruct inside; cbn [negb andb] in *; [|by wp_step].
  apply wp_pure; [intros b Hb|done]. by rewrite Hb in HP.
Qed.

Definition adds (event : Event) (what : contribution) (parts : list (Event * contribution))
    (c : EventsStacksCollector) : () → EventsStacksCollector → Prop := λ _ c',
  groups_inv (parts ++ (if chosen event then [(event, what)] else [])) c' ∧ es_tracker c' = es_tracker c.

Lemma adds_nothing event what parts c : groups_inv parts c → chosen event = false → adds event what parts c tt c.
Proof. intros Hc E. split; [by rewrite E, app_nil_r|done]. Qed.

Lemma wp_with_group event p c (P : () → EventsStacksCollector → Prop) :
  wp p (group_for event (groups_ c))
    (λ _ g, P tt (c <| groups_ := <[stack_id (ev_header event) := g]> (groups_ c) |>)) (λ _ _, True) →
  wp (with_group event p) c P (λ _ _, True).
Proof. unfold wp, with_group. by destruct (p _) as [[[]|] g]. Qed.

Lemma wp_checked_add total value subject (g : EventsStacksGroup) (P : Z → EventsStacksGroup → Prop) :
  P (total + value) g → wp (pure (checked_add_bytes total value subject)) g P (λ _ _, True).
Proof. intros HP. apply wp_pure; [|done]. unfold checked_add_bytes. by case_match; intros ? [= <-]. Qed.

(** A group after one more call, as the summary of its contributions. *)
Lemma group_stored parts c event what g : groups_inv parts c → size_of parts < u64_max →
  g = event_summary (stack_id (ev_header event)) (of_stack (stack_id (ev_header event)) parts ++ [(event, what)]) →
  is_unmatched (event, what) = false → chosen event = true →
  wp count_event (c <| groups_ := <[stack_id (ev_header event) := g]> (groups_ c) |>)
    (adds event what parts c) (λ _ _, True).
Proof.
  intros Hc Hroom -> Hwhat E. unfold count_event. wp_step. split; [|done]. rewrite E.
  pose proof (size_of_nonneg parts). eapply contributed; [exact Hc|done|done| |rewrite Hwhat; cbn; lia].
  cbn. rewrite (gi_aggregated _ _ Hc). apply wrap64_small. word.
Qed.

Lemma wp_ended parts c g event : groups_inv parts c → size_of parts < u64_max →
  mg_kind g = Kind_kHeapAllocation → released_kind event = true →
  wp (observe_generation_ended window filter resolver g event) c
    (adds event (Released (mg_size g)) parts c) (λ _ _, True).
Proof.
  intros Hc Hroom Hkind Hrel. unfold observe_generation_ended. rewrite Hkind, Hrel, bool_decide_true by done.
  cbn [negb orb]. wp_step. apply wp_selected; [apply Hc|].
  destruct (chosen event) eqn:E; cbn [negb]; [|wp_step; by apply adds_nothing].
  destruct (group_for_spec _ _ event Hc Hroom) as (Hca & Hal & Hfr & Hsum).
  wp_step. apply wp_with_group. do 9 wp_step. apply wp_checked_add. wp_step.
  apply group_stored; try done. rewrite Hsum. unfold group_call, group_free_call, note_group_api. cbn.
  rewrite !wrap64_small by word. f_equal; lia.
Qed.

Lemma wp_allocated parts c event size : groups_inv parts c → size_of parts < u64_max →
  requested_size_of event = Some size → chosen event = true →
  wp (with_group event
        (modify (note_group_api event) ;; modify group_alloc_call ;; modify group_call ;;
         g ← get_state;
         total ← pure (checked_add_bytes (eg_alloc_bytes g) size "allocation stack group");
         modify (λ g, g <| eg_alloc_bytes := total |>)) ;;
      count_event) c (adds event (Allocated size) parts c) (λ _ _, True).
Proof.
  intros Hc Hroom Hsize E. destruct (group_for_spec _ _ event Hc Hroom) as (Hca & Hal & Hfr & Hsum).
  wp_step. apply wp_with_group. do 9 wp_step. apply wp_checked_add. wp_step.
  apply group_stored; try done. rewrite Hsum. unfold group_call, group_alloc_call, note_group_api. cbn.
  rewrite !wrap64_small by word. f_equal; lia.
Qed.

Lemma wp_unmatched parts c event : groups_inv parts c → size_of parts < u64_max → chosen event = true →
  wp (with_group event (modify (note_group_api event) ;; modify group_free_call ;; modify group_call) ;;
      count_event ;;
      modify (λ c, c <| unmatched_free_count_ := wrap64 (unmatched_free_count_ c + 1) |>)) c
    (adds event Unmatched parts c) (λ _ _, True).
Proof.
  intros Hc Hroom E. destruct (group_for_spec _ _ event Hc Hroom) as (Hca & Hal & Hfr & Hsum).
  wp_step. apply wp_with_group. do 5 wp_step. unfold count_event. do 3 wp_step. split; [|done]. rewrite E.
  pose proof (size_of_nonneg parts).
  pose proof (length_filter (λ p, is_unmatched p = true) parts) as Hun.
  eapply contributed; [exact Hc|done|..]; cbn.
  - f_equal. rewrite Hsum. unfold group_call, group_free_call, note_group_api. cbn.
    rewrite !wrap64_small by word. f_equal; lia.
  - rewrite (gi_aggregated _ _ Hc). apply wrap64_small. word.
  - rewrite (gi_unmatched _ _ Hc). apply wrap64_small. unfold size_of in *. word.
Qed.

(** ** The collector follows the stream *)

Lemma deliver_others event calls c : released_kind event = false → Forall (about event) calls →
  deliver (on_tracker_call window filter resolver) calls c = (Ok tt, c).
Proof.
  intros Hrel Hcalls. induction Hcalls as [|n calls Hn _ IH]; [done|]. cbn [deliver].
  rewrite (proc_bind_run _ _ _ tt c); [done|]. destruct n as [| g r e|]; try done. cbn in *. subst e.
  unfold observe_generation_ended. by rewrite Hrel, orb_true_r.
Qed.

(** What the callback of the tracker adds. *)
Definition released_part (t : GenerationTracker) (event : Event) : option contribution :=
  match part_of t event with Some (Released size) => Some (Released size) | _ => None end.

Lemma wp_track_event parts c event : groups_inv parts c → size_of parts < u64_max →
  tracker_inv (es_tracker c) →
  wp (track_event window filter resolver event) c
    (λ _ c', observe event (es_tracker c) = (Ok tt, es_tracker c') ∧
       groups_inv (parts ++ option_list (pair event <$> released_part (es_tracker c) event)) c')
    (λ _ _, True).
Proof.
  intros Hc Hroom Hinv. unfold wp, track_event.
  pose proof (observe_calls event (es_tracker c)) as (calls & Hcalls & Habout).
  destruct (observe event (es_tracker c)) as [r t'] eqn:Eobs. cbn [snd] in Hcalls.
  rewrite Hcalls, drop_app_length.
  assert (Hc' : groups_inv parts (c <| es_tracker := t' |>)) by by destruct Hc.
  destruct (released_kind event) eqn:Hrel.
  2:{ rewrite (deliver_others event) by done. destruct r as [[]|]; [|done]. split; [done|].
      assert (released_part (es_tracker c) event = None) as ->; [|by rewrite app_nil_r].
      unfold released_part, part_of. unfold released_kind in Hrel.
      destruct (chosen event); [|done]. by destruct (ev_payload event). }
  assert (∃ f, ev_payload event = Free f) as [f Hf].
  { unfold released_kind in Hrel. apply bool_decide_eq_true in Hrel. destruct (ev_payload event); naive_solver. }
  destruct r as [[]|e]; [|by destruct (deliver _ _ _) as [[[]|] ?]].
  pose proof (observe_free_calls _ _ _ _ Hinv Hf Eobs) as E. rewrite Hcalls in E. apply app_inv_head in E.
  subst calls. unfold free_calls, released_part, part_of. rewrite Hf.
  destruct (call_succeeded _) eqn:Hs; cbn [deliver].
  2:{ assert (chosen event = false) as -> by (unfold chosen; by rewrite Hs). cbn. by rewrite app_nil_r. }
  destruct (find_allocation _ _) as [g|] eqn:Hg; cbn [deliver].
  2:{ destruct (chosen event); cbn; by rewrite app_nil_r. }
  assert (Hkind : mg_kind g = Kind_kHeapAllocation) by (by apply (ti_allocations _ Hinv) in Hg as (? & _)).
  pose proof (wp_ended parts _ g event Hc' Hroom Hkind Hrel) as Hend. unfold wp in Hend. cbn [on_tracker_call].
  unfold mbind, proc_bind. destruct (observe_generation_ended _ _ _ _ _ _) as [[[]|] c2]; [|done].
  destruct Hend as [Hend Et]. cbn in Et. unfold mret, proc_ret. rewrite Et. split; [done|].
  destruct (chosen event); done.
Qed.

(** After the tracker: the event itself may be a contribution. *)
Lemma wp_selected_part parts c event what (p : grouping unit) t : groups_inv parts c →
  part_of t event = (if chosen event then Some what else None) →
  (chosen event = true → wp p c (adds event what parts c) (λ _ _, True)) →
  wp (chosen ← selected window filter resolver event; if negb chosen then mret tt else p) c
    (λ _ c', groups_inv (parts ++ option_list (pair event <$> part_of t event)) c' ∧
       es_tracker c' = es_tracker c) (λ _ _, True).
Proof.
  intros Hc -> Hp. wp_step. apply wp_selected; [apply Hc|]. unfold adds in Hp.
  destruct (chosen event); cbn [negb]; [|wp_step; cbn; by rewrite app_nil_r].
  eapply wp_mono; [by apply Hp| |done]. by intros [] c' [? ?].
Qed.

Lemma wp_observe_stack_event parts c event : groups_inv parts c → size_of parts < u64_max →
  tracker_inv (es_tracker c) →
  wp (observe_stack_event window filter resolver event) c
    (λ _ c', observe event (es_tracker c) = (Ok tt, es_tracker c') ∧
       groups_inv (parts ++ option_list (pair event <$> part_of (es_tracker c) event)) c')
    (λ _ _, True).
Proof.
  intros Hc Hroom Hinv. unfold observe_stack_event. do 3 wp_step. apply wp_pure; [intros [] _|done].
  wp_step. eapply wp_mono; [by apply wp_track_event| |done]. intros [] c1 [-> Hc1].
  set (t := es_tracker c) in *. wp_step.
  eapply (wp_mono _ _ (λ b c', b = (untracked event t && chosen event) ∧ c' = c1) _ (λ _ _, True));
    [destruct (untracked event t); [by apply wp_selected; [apply Hc1|]|by wp_step]| |done].
  intros b ? [-> ->]. eapply (wp_mono _ _ (λ _ c',
    groups_inv (parts ++ option_list (pair event <$> part_of t event)) c' ∧ es_tracker c' = es_tracker c1)
    _ (λ _ _, True)); [|intros [] c' [? ->]; done|done].
  assert (Hnone : released_part t event = None → groups_inv parts c1).
  { intros E. by rewrite E, app_nil_r in Hc1. }
  destruct (untracked event t && chosen event) eqn:Hun.
  { apply andb_true_iff in Hun as [Hun Hch].
    assert (Hpart : part_of t event = Some Unmatched).
    { unfold untracked, part_of in *. rewrite Hch. destruct (ev_payload event); try done.
      by destruct (call_succeeded _), (find_allocation _ t). }
    assert (Hp : groups_inv parts c1) by (apply Hnone; unfold released_part; by rewrite Hpart).
    pose proof (wp_unmatched parts c1 event Hp Hroom Hch) as H. unfold adds in H.
    rewrite Hch in H. by rewrite Hpart. }
  destruct (requested_size_of event) as [size|] eqn:Hreq.
  - assert (Hpart : part_of t event = if chosen event then Some (Allocated size) else None).
    { unfold part_of, requested_size_of in *. by destruct (ev_payload event); simplify_eq. }
    assert (Hp : groups_inv parts c1).
    { apply Hnone. unfold released_part. rewrite Hpart. by destruct (chosen event). }
    apply (wp_selected_part parts c1 event (Allocated size)); [done..|]. intros Hch. by apply wp_allocated.
  - wp_step. split; [|done]. assert (part_of t event = released_part t event) as ->; [|done].
    unfold released_part, part_of, requested_size_of, untracked in *. destruct (chosen event) eqn:Hch; [|done].
    destruct (ev_payload event); try done. destruct (find_allocation _ t) eqn:Hf; [done|].
    unfold chosen in Hch. apply andb_true_iff in Hch as [Hs _]. by rewrite Hs in Hun.
Qed.

Definition stacking_inv (events : list Event) (c : EventsStacksCollector) : Prop :=
  es_tracker c = (observe_all events GenerationTracker_new).2 ∧
  tracker_inv (es_tracker c) ∧ created_count_ (es_tracker c) ≤ size_of events ∧
  (observe_all events GenerationTracker_new).1 = Ok tt ∧
  groups_inv (parts_of GenerationTracker_new events) c.

Lemma stacks_event events event c : size_of events < u64_max → Event_wt event → stacking_inv events c →
  wp (observe_stack_event window filter resolver event) c (λ _, stacking_inv (events ++ [event])) (λ _ _, True).
Proof.
  intros Hroom Hwt (Et & Hinv & Hcount & Hall & Hc). pose proof (parts_bound events GenerationTracker_new) as Hb.
  eapply wp_mono; [apply (wp_observe_stack_event _ c event Hc); [lia|done]| |done]. intros [] c' [Hobs Hc'].
  pose proof (wp_observe event (es_tracker c) Hinv ltac:(lia) Hwt) as Hstep. unfold wp in Hstep.
  rewrite Hobs in Hstep. destruct Hstep as [Hinv' Hcount'].
  unfold stacking_inv. rewrite (observe_all_snoc events event _ Hall), (parts_of_snoc _ _ _ Hall), <- Et, Hobs.
  split_and!; try done. rewrite size_of_app. unfold size_of at 2. cbn. lia.
Qed.

Lemma stacks_calls calls more c : log_ok h (calls ++ more) → calls ≠ [] → stacking_inv (events_of calls) c →
  wp (deliver (on_stacks_call window filter resolver) more) c
    (λ _, stacking_inv (events_of (calls ++ more))) (λ _ _, True).
Proof.
  revert calls c. induction more as [|call more IH]; intros calls c Hlog Hne Hc; cbn [deliver].
  { rewrite app_nil_r. by apply wp_ret. }
  pose proof (log_ok_allowed _ _ _ _ Hlog) as Hall.
  change (call :: more) with ([call] ++ more) in *. rewrite app_assoc in *.
  wp_step. apply (wp_mono _ _ (λ _ c', stacking_inv (events_of (calls ++ [call])) c') _ (λ _ _, True));
    [|intros [] c' Hc'; by apply IH; [| |]; [|by destruct calls|]|done].
  rewrite events_of_snoc. destruct call; try (by apply wp_ret); [by destruct Hall as [_ [-> _]]|].
  apply stacks_event; [|by destruct Hall as (_ & _ & _ & [? _] & _)|done].
  apply (events_room h calls event more). by rewrite <- app_assoc in Hlog.
Qed.

Lemma stacks_stream calls : log_ok h (on_file_header h :: calls) →
  wp (deliver (on_stacks_call window filter resolver) (on_file_header h :: calls)) EventsStacksCollector_new
    (λ _, stacking_inv (events_of (on_file_header h :: calls))) (λ _ _, True).
Proof.
  intros Hlog. cbn [deliver on_stacks_call]. do 2 wp_step. apply (stacks_calls [on_file_header h]); [done..|].
  split_and!; [done|apply tracker_inv_new|done|done|].
  by split.
Qed.

(** The groups are the summaries of the stacks that have contributions. *)
Lemma groups_summaries parts c : groups_inv parts c →
  NoDup (eg_stack_id <$> all_groups (groups_ c)) ∧
  ∀ g, g ∈ all_groups (groups_ c) ↔
    of_stack (eg_stack_id g) parts ≠ [] ∧ g = event_summary (eg_stack_id g) (of_stack (eg_stack_id g) parts).
Proof.
  intros Hc. unfold all_groups.
  assert (Hid : ∀ stack g, (stack, g) ∈ map_to_list (groups_ c) → eg_stack_id g = stack ∧
    of_stack stack parts ≠ [] ∧ g = event_summary stack (of_stack stack parts)).
  { intros stack g Hg%elem_of_map_to_list. rewrite (gi_groups _ _ Hc) in Hg.
    destruct (of_stack stack parts) as [|p ps]; [done|]. by injection Hg as <-. }
  split.
  - rewrite <- list_fmap_compose.
    rewrite (list_fmap_ext _ fst (map_to_list (groups_ c))); [apply NoDup_fst_map_to_list|].
    intros i [stack g] Hg%list_elem_of_lookup_2. cbn. by apply Hid.
  - intros g. rewrite list_elem_of_fmap. split.
    + intros ([stack g'] & -> & Hg). cbn. by destruct (Hid _ _ Hg) as (-> & ? & ?).
    + intros [Hne E]. exists (eg_stack_id g, g). split; [done|]. apply elem_of_map_to_list.
      rewrite (gi_groups _ _ Hc). destruct (of_stack _ parts); [done|]. by f_equal.
Qed.

End events.

(** C11: The groups of events.  When the analysis returns, its groups are exactly the
    summaries of the stacks that contributed: the selected allocations and
    reallocations with the bytes they requested, the selected frees with the bytes of
    the allocation the tracker knew, the frees of unknown allocations as calls without
    bytes; calls and bytes are exact sums, the sample is the first contribution, and
    the groups come sorted by the key, largest first, ties by stack. *)
Theorem event_stacks_exact {L : CompressionLibrary} {Laws : CompressionLaws L} (input : istream)
    (window : EventsWindow) (sort : StacksSort) (filter : AnalysisFilter) (resolver : EventMetadataResolver)
    (options : EventStreamOptions) (result : EventsStacksResult) :
  u32 (maximum_record_size options) →
  analyze_event_stacks input window sort filter resolver options = Ok result →
  let events := events_of (analyze_event_stream input options).2 in
  let parts := parts_of window filter resolver (esr_file_header (ers_trace result)) GenerationTracker_new events in
  StronglySorted (before eg_stack_id (event_metric sort)) (ers_groups result) ∧
  (∀ g, g ∈ ers_groups result ↔
    of_stack (eg_stack_id g) parts ≠ [] ∧ g = event_summary (eg_stack_id g) (of_stack (eg_stack_id g) parts)) ∧
  ers_aggregated_event_count result = size_of parts ∧
  ers_unmatched_free_count result = size_of (base.filter (λ p, is_unmatched p = true) parts).
Proof.
  intros Hsize Hrun. unfold analyze_event_stacks in Hrun. inv_ok.
  destruct (analyze_with _ _ _ _) as [[trace|] c] eqn:Hwith; [|done]. injection Hrun as <-.
  apply analyze_with_ok in Hwith as (calls & Hstream & Hcalls). rewrite Hstream. cbn [snd ers_trace].
  destruct (analyze_log _ _ _ _ Hsize Hstream) as (_ & Hlog & rest & ->).
  pose proof (stacks_stream window filter resolver _ rest Hlog) as Hc. unfold wp in Hc. rewrite Hcalls in Hc.
  destruct Hc as (_ & _ & _ & _ & Hc). cbn [ers_groups ers_aggregated_event_count ers_unmatched_free_count].
  destruct (groups_summaries _ _ _ Hc) as [Hnodup Hgroups].
  destruct (sort_groups_spec eg_stack_id (event_metric sort) _ Hnodup) as [Hsorted Hperm].
  split_and!; [exact Hsorted| |apply Hc|apply Hc].
  intros g. rewrite <- Hgroups. unfold sort_event_groups. by rewrite Hperm.
Qed.

(** ** Groups of leaks *)

Definition leaks_of_stack (stack : Z) (generations : list MemoryGeneration) : list MemoryGeneration :=
  base.filter (λ g, mg_kind g = Kind_kHeapAllocation ∧ stack_id (ev_header (mg_created_by g)) = stack) generations.

Definition leak_summary (stack : Z) (generations : list MemoryGeneration) : LeaksStacksGroup :=
  {| lg_stack_id := stack; lg_sample_event := default Event_new (mg_created_by <$> head generations);
     lg_api_ids := first_seen ((λ g, api_id (ev_header (mg_created_by g))) <$> generations);
     lg_calls := size_of generations; lg_bytes := sum (mg_size <$> generations) |}.

Definition leaks_inv (seen : list MemoryGeneration) (groups : gmap Z LeaksStacksGroup) : Prop :=
  ∀ stack, groups !! stack =
    match leaks_of_stack stack seen with [] => None | gs => Some (leak_summary stack gs) end.

Lemma leak_summary_snoc stack gs g : gs ≠ [] →
  let group := leak_summary stack gs in
  leak_summary stack (gs ++ [g]) =
    {| lg_stack_id := stack; lg_sample_event := lg_sample_event group;
       lg_api_ids := note_api (lg_api_ids group) (api_id (ev_header (mg_created_by g)));
       lg_calls := lg_calls group + 1; lg_bytes := lg_bytes group + mg_size g |}.
Proof.
  intros Hne. cbv zeta. unfold leak_summary. rewrite !fmap_app, size_of_app.
  change ((λ g, api_id (ev_header (mg_created_by g))) <$> [g]) with [api_id (ev_header (mg_created_by g))].
  change (mg_size <$> [g]) with [mg_size g]. rewrite first_seen_snoc, sum_over_snoc. by destruct gs.
Qed.

Lemma leaks_of_stack_snoc stack seen g : leaks_of_stack stack (seen ++ [g]) =
  leaks_of_stack stack seen ++
  (if decide (mg_kind g = Kind_kHeapAllocation ∧ stack_id (ev_header (mg_created_by g)) = stack) then [g] else []).
Proof. unfold leaks_of_stack. by rewrite filter_app. Qed.

Lemma leaks_of_stack_bound stack seen : size_of (leaks_of_stack stack seen) ≤ size_of seen.
Proof.
  unfold size_of, leaks_of_stack.
  pose proof (length_filter (λ g, mg_kind g = Kind_kHeapAllocation ∧ stack_id (ev_header (mg_created_by g)) = stack) seen).
  lia.
Qed.

(** The group of the stack, ready for one more generation. *)
Lemma leak_group_for_spec seen groups g : leaks_inv seen groups → size_of seen < u64_max →
  let event := mg_created_by g in
  let group := leak_group_for event groups in
  0 ≤ lg_calls group < u64_max ∧
  leak_summary (stack_id (ev_header event)) (leaks_of_stack (stack_id (ev_header event)) seen ++ [g]) =
    {| lg_stack_id := lg_stack_id group; lg_sample_event := lg_sample_event group;
       lg_api_ids := note_api (lg_api_ids group) (api_id (ev_header event));
       lg_calls := lg_calls group + 1; lg_bytes := lg_bytes group + mg_size g |}.
Proof.
  intros Hinv Hroom. cbv zeta. pose proof (leaks_of_stack_bound (stack_id (ev_header (mg_created_by g))) seen) as Hb.
  unfold leak_group_for. cbv zeta. rewrite !Hinv. destruct (leaks_of_stack _ seen) as [|x gs].
  - cbn [default from_option]. cbn. split; [word|]. unfold leak_summary, sum. cbn. f_equal. lia.
  - cbn [default from_option id].
    assert (Hne : (lg_calls (leak_summary (stack_id (ev_header (mg_created_by g))) (x :: gs)) =? 0) = false).
    { apply Z.eqb_neq. unfold leak_summary, size_of. cbn. lia. }
    rewrite Hne. pose proof (size_of_nonneg (x :: gs)). split; [unfold leak_summary at 1 2; cbn [lg_calls]; lia|].
    by apply leak_summary_snoc.
Qed.

Lemma group_leak_ok seen g groups groups' : leaks_inv seen groups → size_of seen < u64_max →
  group_leak groups g = Ok groups' → leaks_inv (seen ++ [g]) groups'.
Proof.
  intros Hinv Hroom Hrun stack. rewrite leaks_of_stack_snoc. unfold group_leak in Hrun.
  case_bool_decide as Hkind; cbn [negb] in Hrun.
  2:{ injection Hrun as <-. rewrite decide_False, app_nil_r by naive_solver. apply Hinv. }
  apply bind_ok in Hrun as (total & Htotal & [= <-]).
  destruct (leak_group_for_spec seen groups g Hinv Hroom) as [Hcalls Hsummary].
  unfold checked_add_bytes in Htotal. destruct (_ <? _); [done|]. injection Htotal as <-.
  destruct (decide (stack_id (ev_header (mg_created_by g)) = stack)) as [<-|Hne].
  2:{ rewrite lookup_insert_ne, decide_False, app_nil_r by naive_solver. apply Hinv. }
  rewrite lookup_insert_eq, decide_True by done.
  trans (Some (leak_summary (stack_id (ev_header (mg_created_by g)))
    (leaks_of_stack (stack_id (ev_header (mg_created_by g))) seen ++ [g])));
    [|by destruct (leaks_of_stack _ seen)].
  rewrite Hsummary. set (group := leak_group_for _ _) in *. clearbody group. cbn.
  by rewrite wrap64_small by word.
Qed.

Lemma group_leaks_ok generations seen groups groups' : leaks_inv seen groups →
  size_of (seen ++ generations) ≤ u64_max → group_leaks groups generations = Ok groups' →
  leaks_inv (seen ++ generations) groups'.
Proof.
  revert seen groups. induction generations as [|g generations IH]; intros seen groups Hinv Hroom; cbn [group_leaks].
  { intros [= <-]. by rewrite app_nil_r. }
  intros (groups1 & Hone & Hrest)%bind_ok. rewrite size_of_app in Hroom. unfold size_of at 2 in Hroom. cbn in Hroom.
  change (g :: generations) with ([g] ++ generations). rewrite app_assoc. apply (IH _ groups1); [|..|done].
  - eapply group_leak_ok; [done| |done]. lia.
  - rewrite !size_of_app. unfold size_of in *. cbn. lia.
Qed.

Lemma leak_groups_summaries generations groups : leaks_inv generations groups →
  NoDup (lg_stack_id <$> all_groups groups) ∧
  ∀ g, g ∈ all_groups groups ↔
    leaks_of_stack (lg_stack_id g) generations ≠ [] ∧
    g = leak_summary (lg_stack_id g) (leaks_of_stack (lg_stack_id g) generations).
Proof.
  intros Hinv. unfold all_groups.
  assert (Hid : ∀ stack g, (stack, g) ∈ map_to_list groups → lg_stack_id g = stack ∧
    leaks_of_stack stack generations ≠ [] ∧ g = leak_summary stack (leaks_of_stack stack generations)).
  { intros stack g Hg%elem_of_map_to_list. rewrite Hinv in Hg.
    destruct (leaks_of_stack stack generations) as [|x gs]; [done|]. by injection Hg as <-. }
  split.
  - rewrite <- list_fmap_compose.
    rewrite (list_fmap_ext _ fst (map_to_list groups)); [apply NoDup_fst_map_to_list|].
    intros i [stack g] Hg%list_elem_of_lookup_2. cbn. by apply Hid.
  - intros g. rewrite list_elem_of_fmap. split.
    + intros ([stack g'] & -> & Hg). cbn. by destruct (Hid _ _ Hg) as (-> & ? & ?).
    + intros [Hne E]. exists (lg_stack_id g, g). split; [done|]. apply elem_of_map_to_list.
      rewrite Hinv. destruct (leaks_of_stack _ generations); [done|]. by f_equal.
Qed.

(** No report lists more generations than a counter can count. *)
Lemma outstanding_bound {L : CompressionLibrary} {Laws : CompressionLaws L} window filter resolver input options
    report : u32 (maximum_record_size options) →
  analyze_filtered_outstanding window filter resolver input options = Ok report →
  size_of (outstanding report) ≤ u64_max.
Proof.
  intros Hsize Hrun. destruct (analysis_ends _ _ _ _ _ _ Hsize Hrun) as (trace & calls & c & _ & Hc & Hfin).
  destruct Hc as (_ & _ & _ & _ & Hc). unfold finish_analysis in Hfin. inv_ok. subst report. cbn [outstanding].
  match goal with H : select_outstanding _ _ _ _ _ = Ok ?p |- _ => destruct p as [n out]; apply select_outstanding_spec in H as [-> _] end.
  cbn [app snd]. pose proof (ci_room _ _ _ _ Hc). pose proof (ci_count _ _ _ _ Hc).
  pose proof (length_filter (λ g, accepted filter resolver g = true) (candidates_ c).*2) as Hlen.
  rewrite length_fmap in Hlen. unfold size_of in *. lia.
Qed.

(** C23: The groups of leaks.  When the analysis returns, its report is the one of the
    outstanding analysis, and its groups are exactly the summaries of the stacks that
    created heap allocations of the report, with the exact number and bytes of those,
    sorted by the key, largest first, ties by stack; mappings are in no group. *)
Theorem leak_stacks_exact {L : CompressionLibrary} {Laws : CompressionLaws L} (input : istream)
    (window : OutstandingWindow) (sort : StacksSort) (filter : AnalysisFilter) (resolver : EventMetadataResolver)
    (options : EventStreamOptions) (result : LeaksStacksResult) :
  u32 (maximum_record_size options) →
  analyze_leak_stacks input window sort filter resolver options = Ok result →
  let leaks := outstanding (lrs_outstanding result) in
  analyze_filtered_outstanding window filter resolver input options = Ok (lrs_outstanding result) ∧
  StronglySorted (before lg_stack_id (leak_metric sort)) (lrs_groups result) ∧
  ∀ g, g ∈ lrs_groups result ↔
    leaks_of_stack (lg_stack_id g) leaks ≠ [] ∧
    g = leak_summary (lg_stack_id g) (leaks_of_stack (lg_stack_id g) leaks).
Proof.
  intros Hsize Hrun. unfold analyze_leak_stacks in Hrun.
  apply bind_ok in Hrun as (report & Hreport & Hrun). apply bind_ok in Hrun as (groups & Hgroups & [= <-]).
  cbv zeta. cbn [lrs_outstanding lrs_groups].
  pose proof (outstanding_bound _ _ _ _ _ _ Hsize Hreport) as Hroom. rewrite lift_exn_ok in Hgroups.
  apply (group_leaks_ok _ []) in Hgroups; [|intros stack; by rewrite lookup_empty|done].
  destruct (leak_groups_summaries _ _ Hgroups) as [Hnodup Helem].
  destruct (sort_groups_spec lg_stack_id (leak_metric sort) _ Hnodup) as [Hsorted Hperm].
  split_and!; [exact Hreport|exact Hsorted|]. intros g. rewrite <- Helem. unfold sort_leak_groups. by rewrite Hperm.
Qed.

(** ** The stack groups of the sample trace

    The trace of StreamExamples.v again: two allocations and a free under the
    filtered analysis, the groups of events and the groups of leaks. *)

#[local] Existing Instances stored_library.

(** A caller that counts its events. *)
Definition counting (call : StreamCall) : proc nat exn unit :=
  match call with on_event _ => modify S | _ => mret tt end.

Definition whole_trace : EventsWindow := {| from := no_bound; to := None |}.

(** Everything before the second event. *)
Definition first_event : EventsWindow := {| from := no_bound; to := Some (at_sequence 2) |}.

Definition no_trace : EventStreamResult := empty_result example_header.

Definition filtered_of (window : EventsWindow) : FilteredEventsResult :=
  match (analyze_filtered_events no_filter counting None window sample_input default_stream_options 0%nat).1 with
  | Ok r => r
  | Throw _ => {| fe_trace := no_trace; matched_event_count := 0; filtered_event_count := 0 |}
  end.

Definition event_stacks_of (sort : StacksSort) : EventsStacksResult :=
  match analyze_event_stacks sample_input whole_trace sort no_filter None default_stream_options with
  | Ok r => r
  | Throw _ => {| ers_trace := no_trace; ers_window := whole_trace; ers_groups := [];
                  ers_aggregated_event_count := 0; ers_unmatched_free_count := 0 |}
  end.

Definition leak_stacks_of (sort : StacksSort) : LeaksStacksResult :=
  match analyze_leak_stacks sample_input everything sort no_filter None default_stream_options with
  | Ok r => r
  | Throw _ => {| lrs_outstanding := no_result; lrs_groups := [] |}
  end.

Lemma filtered_events_exact_witness : matched_event_count (filtered_of first_event) = 1.
Proof.
  assert (Hu : u32 (maximum_record_size default_stream_options)) by (split; [discriminate|reflexivity]).
  assert (Hrun : analyze_filtered_events no_filter counting None first_event sample_input default_stream_options 0%nat =
    (Ok (filtered_of first_event), 1%nat)) by (vm_compute; reflexivity).
  pose proof (filtered_events_exact no_filter counting None first_event sample_input default_stream_options
    0%nat 1%nat _ Hu Hrun) as (_ & _ & Hm & _).
  clear Hrun. rewrite Hm. vm_compute. reflexivity.
Defined.

Lemma event_stacks_exact_witness :
  ers_aggregated_event_count (event_stacks_of Sort_kNetBytes) = 3 ∧
  eg_alloc_bytes <$> ers_groups (event_stacks_of Sort_kNetBytes) = [96].
Proof.
  assert (Hu : u32 (maximum_record_size default_stream_options)) by (split; [discriminate|reflexivity]).
  assert (Hrun : analyze_event_stacks sample_input whole_trace Sort_kNetBytes no_filter None default_stream_options =
    Ok (event_stacks_of Sort_kNetBytes)) by (vm_compute; reflexivity).
  pose proof (event_stacks_exact sample_input whole_trace Sort_kNetBytes no_filter None default_stream_options _ Hu Hrun)
    as (_ & _ & Hn & _).
  clear Hrun. rewrite Hn. split; vm_compute; reflexivity.
Defined.

Lemma leak_stacks_exact_witness :
  leak_summary 3 [second_allocation] ∈ lrs_groups (leak_stacks_of Sort_kBytes).
Proof.
  assert (Hu : u32 (maximum_record_size default_stream_options)) by (split; [discriminate|reflexivity]).
  assert (Hrun : analyze_leak_stacks sample_input everything Sort_kBytes no_filter None default_stream_options =
    Ok (leak_stacks_of Sort_kBytes)) by (vm_compute; reflexivity).
  pose proof (leak_stacks_exact sample_input everything Sort_kBytes no_filter None default_stream_options _ Hu Hrun)
    as (_ & _ & Hg).
  clear Hrun. apply Hg. split; vm_compute; [discriminate|reflexivity].
Defined.
