(* ===== verification/HookGuard.v ===== *)
(** * The hook guard

    src/agent/hook_guard.cpp: how deep the current thread is inside hooked calls and
    inside the agent's own code.  The depths live in one TLS slot on Windows, packed
    into a word, and in a thread-local struct elsewhere; [GuardStorage] is what the
    rest of the file uses of either, and the laws of [GuardStorageLaws] are what it
    relies on.  [None] is [std::terminate]. *)

From S2P Require Import Prelude.

(** ** Data *)

Definition kDepthBits : Z := 16.
Definition kDepthMask : Z := Z.shiftl 1 kDepthBits - 1.
Definition kMaximumDepth : Z := kDepthMask.

Record ThreadHookState : Set := { hook_depth : Z; internal_depth : Z }.

#[global] Instance ThreadHookState_eq_dec : EqDecision ThreadHookState.
Proof. solve_decision. Defined.

Inductive HookEntryKind : Set := Entry_kOutermost | Entry_kRecursive | Entry_kInternalThread.

#[global] Instance HookEntryKind_eq_dec : EqDecision HookEntryKind.
Proof. solve_decision. Defined.

Definition no_depth : ThreadHookState := {| hook_depth := 0; internal_depth := 0 |}.

(** ** Where the state is kept *)

Class GuardStorage (S : Type) : Type := {
  load_thread_state : S → option ThreadHookState;
  store_thread_state : ThreadHookState → S → option S;
  probe_hook_guard_thread_state : S → ThreadHookState;
}.

Definition depth_ok (d : Z) : Prop := 0 ≤ d ≤ kMaximumDepth.
Definition state_ok (s : ThreadHookState) : Prop := depth_ok (hook_depth s) ∧ depth_ok (internal_depth s).

Class GuardStorageLaws (S : Type) `{GuardStorage S} : Prop := {
  store_load s st st' : load_thread_state s = Some st → state_ok st' →
    ∃ s', store_thread_state st' s = Some s' ∧ load_thread_state s' = Some st';
  probe_load s st : load_thread_state s = Some st → probe_hook_guard_thread_state s = st;
}.

(** *** Elsewhere than on Windows *)

Record PosixStorage : Set := { runtime_ready : bool; thread_state : ThreadHookState }.

Definition too_deep (st : ThreadHookState) : bool :=
  (kMaximumDepth <? hook_depth st) || (kMaximumDepth <? internal_depth st).

Definition posix_storage : GuardStorage PosixStorage := {|
  load_thread_state s := if negb (runtime_ready s) then None else Some (thread_state s);
  store_thread_state st s :=
    if negb (runtime_ready s) || too_deep st then None
    else Some {| runtime_ready := runtime_ready s; thread_state := st |};
  probe_hook_guard_thread_state s := if negb (runtime_ready s) then no_depth else thread_state s;
|}.
#[global] Existing Instance posix_storage.

(** *** On Windows *)

(** TLS_MINIMUM_AVAILABLE of the Windows SDK. *)
Definition kTlsMinimumAvailable : Z := 64.

(** [state_tls_index], [None] for TLS_OUT_OF_INDEXES, and the TLS slots of the thread. *)
Record WindowsStorage : Set := { state_tls_index : option Z; tls_slots : gmap Z Z }.

Definition unpack (packed : Z) : ThreadHookState :=
  {| hook_depth := Z.land packed kDepthMask;
     internal_depth := Z.land (Z.shiftr packed kDepthBits) kDepthMask |}.

Definition pack (st : ThreadHookState) : Z :=
  Z.lor (hook_depth st) (Z.shiftl (internal_depth st) kDepthBits).

Definition usable_index (s : WindowsStorage) : option Z :=
  match state_tls_index s with
  | Some index => if kTlsMinimumAvailable <=? index then None else Some index
  | None => None
  end.

Definition slot_of (index : Z) (s : WindowsStorage) : Z := default 0 (tls_slots s !! index).

Definition windows_storage : GuardStorage WindowsStorage := {|
  load_thread_state s := (λ index, unpack (slot_of index s)) <$> usable_index s;
  store_thread_state st s :=
    match usable_index s with
    | None => None
    | Some index =>
        if too_deep st then None
        else Some {| state_tls_index := state_tls_index s; tls_slots := <[index := pack st]> (tls_slots s) |}
    end;
  probe_hook_guard_thread_state s :=
    match usable_index s with None => no_depth | Some index => unpack (slot_of index s) end;
|}.
#[global] Existing Instance windows_storage.

(** ** Operations *)

Definition increment_depth (value : Z) : option Z :=
  if value =? kMaximumDepth then None else Some (value + 1).
Definition decrement_depth (value : Z) : option Z :=
  if value =? 0 then None else Some (value - 1).

Section operations.
Context {S : Type} `{GuardStorage S}.

Definition entry_kind (st : ThreadHookState) : HookEntryKind :=
  if negb (internal_depth st =? 0) then Entry_kInternalThread
  else if negb (hook_depth st =? 0) then Entry_kRecursive
  else Entry_kOutermost.

Definition enter_hook_invocation_unscoped (s : S) : option (HookEntryKind * S) :=
  st ← load_thread_state s;
  let kind := entry_kind st in
  depth ← increment_depth (hook_depth st);
  s ← store_thread_state {| hook_depth := depth; internal_depth := internal_depth st |} s;
  Some (kind, s).

Definition leave_hook_invocation_unscoped (s : S) : option S :=
  st ← load_thread_state s;
  depth ← decrement_depth (hook_depth st);
  store_thread_state {| hook_depth := depth; internal_depth := internal_depth st |} s.

Definition InternalThreadScope_enter (s : S) : option S :=
  st ← load_thread_state s;
  depth ← increment_depth (internal_depth st);
  store_thread_state {| hook_depth := hook_depth st; internal_depth := depth |} s.

Definition InternalThreadScope_leave (s : S) : option S :=
  st ← load_thread_state s;
  depth ← decrement_depth (internal_depth st);
  store_thread_state {| hook_depth := hook_depth st; internal_depth := depth |} s.

Definition should_record (kind : HookEntryKind) : bool := bool_decide (kind = Entry_kOutermost).

Definition current_thread_is_internal (s : S) : option bool :=
  (λ st, negb (internal_depth st =? 0)) <$> load_thread_state s.

(** A thread's use of the guards, which C++ scopes nest. *)
Inductive scopes : Set :=
  | Scopes_end
  | Hook_call (inner next : scopes)          (* a HookInvocationGuard around [inner] *)
  | Internal_scope (inner next : scopes).    (* an InternalThreadScope around [inner] *)

(** Run by the thread, with the kind every guard got. *)
Fixpoint run_scopes (p : scopes) (s : S) : option (list HookEntryKind * S) :=
  match p with
  | Scopes_end => Some ([], s)
  | Hook_call inner next =>
      entered ← enter_hook_invocation_unscoped s;
      inside ← run_scopes inner entered.2;
      s ← leave_hook_invocation_unscoped inside.2;
      rest ← run_scopes next s;
      Some (entered.1 :: inside.1 ++ rest.1, rest.2)
  | Internal_scope inner next =>
      s ← InternalThreadScope_enter s;
      inside ← run_scopes inner s;
      s ← InternalThreadScope_leave inside.2;
      rest ← run_scopes next s;
      Some (inside.1 ++ rest.1, rest.2)
  end.
End operations.

(** ** The runtime *)

Record GuardRuntime (S : Type) : Type := { runtime_references : Z; storage : S }.
Arguments runtime_references {S}. Arguments storage {S}.

(** [claim] is what the platform does for the first reference: [TlsAlloc] and the
    check of its index, or the ready flag.  [unclaim] undoes it for the last one;
    [None] in it is [std::terminate]. *)
Definition acquire_with {S} (claim : S → option S) (r : GuardRuntime S) : bool * GuardRuntime S :=
  if runtime_references r =? u32_max then (false, r)
  else if negb (runtime_references r =? 0)
  then (true, {| runtime_references := runtime_references r + 1; storage := storage r |})
  else match claim (storage r) with
       | None => (false, r)
       | Some s => (true, {| runtime_references := 1; storage := s |})
       end.

Definition release_with {S} (unclaim : S → option S) (r : GuardRuntime S) : option (GuardRuntime S) :=
  if runtime_references r =? 0 then None
  else if negb (runtime_references r - 1 =? 0)
  then Some {| runtime_references := runtime_references r - 1; storage := storage r |}
  else s ← unclaim (storage r); Some {| runtime_references := 0; storage := s |}.

Definition posix_claim (s : PosixStorage) : option PosixStorage :=
  Some {| runtime_ready := true; thread_state := thread_state s |}.
Definition posix_unclaim (s : PosixStorage) : option PosixStorage :=
  Some {| runtime_ready := false; thread_state := thread_state s |}.

(** [allocated] is the answer of [TlsAlloc]; the slot is zero. *)
Definition windows_claim (allocated : option Z) (s : WindowsStorage) : option WindowsStorage :=
  match allocated with
  | None => None
  | Some index =>
      if kTlsMinimumAvailable <=? index then None
      else Some {| state_tls_index := Some index; tls_slots := <[index := 0]> (tls_slots s) |}
  end.
(** [freed] is the answer of [TlsFree]. *)
Definition windows_unclaim (freed : bool) (s : WindowsStorage) : option WindowsStorage :=
  match state_tls_index s with
  | None => None
  | Some index => if freed then Some {| state_tls_index := None; tls_slots := tls_slots s |} else None
  end.

(** ** Both storages keep their promises *)

Lemma unpack_pack st : state_ok st → unpack (pack st) = st.
Proof.
  destruct st as [h i]. intros [[Hh Hh'] [Hi Hi']]. cbn in *. unfold unpack, pack. cbn.
  change kDepthMask with (Z.ones 16). change kMaximumDepth with (2 ^ 16 - 1) in *. unfold kDepthBits.
  assert (Z.land h (Z.shiftl i 16) = 0) as Hdisj.
  { apply Z.bits_inj'. intros n Hn. rewrite Z.land_spec, Z.bits_0.
    destruct (Z.lt_ge_cases n 16); [rewrite Z.shiftl_spec_low by done; apply andb_false_r|].
    rewrite (Z.bits_above_log2 h n) by (lia || (destruct (decide (h = 0)) as [->|]; [cbn; lia|];
      apply Z.log2_lt_pow2; [lia|]; apply (Z.lt_le_trans _ (2 ^ 16)); [lia|apply Z.pow_le_mono_r; lia])).
    done. }
  f_equal.
  - rewrite Z.land_ones, <- Z.lxor_lor, <- Z.add_nocarry_lxor, Z.shiftl_mul_pow2 by (done || lia).
    rewrite Z.mod_add, Z.mod_small by lia. done.
  - rewrite Z.shiftr_lor, Z.shiftr_shiftl_l, Z.sub_diag, Z.shiftl_0_r by lia.
    rewrite Z.shiftr_div_pow2, Z.div_small by lia. rewrite Z.lor_0_l, Z.land_ones, Z.mod_small by lia. done.
Qed.

Lemma not_too_deep st : state_ok st → too_deep st = false.
Proof. intros [[? ?] [? ?]]. unfold too_deep. apply orb_false_iff. bool_facts. lia. Qed.

(** The packed word is as good as the struct. *)
#[global] Instance windows_storage_laws : GuardStorageLaws WindowsStorage.
Proof.
  split; unfold load_thread_state, store_thread_state, probe_hook_guard_thread_state, windows_storage.
  - intros s st st' Hs Hok. destruct (usable_index s) as [index|] eqn:E; [|done].
    rewrite not_too_deep by done. eexists. split; [done|]. unfold usable_index, slot_of in *.
    cbn [state_tls_index tls_slots]. rewrite E. cbn [fmap option_fmap option_map].
    rewrite lookup_insert_eq. cbn [default from_option id]. by rewrite unpack_pack.
  - intros s st. destruct (usable_index s); [by intros [= <-]|done].
Qed.

#[global] Instance posix_storage_laws : GuardStorageLaws PosixStorage.
Proof.
  split; unfold load_thread_state, store_thread_state, probe_hook_guard_thread_state, posix_storage.
  - intros s st st' Hs Hok. destruct (runtime_ready s) eqn:E; [|done]. rewrite not_too_deep by done.
    by eexists.
  - intros s st. destruct (runtime_ready s); [by intros [= <-]|done].
Qed.

(** ** What the guards report *)

Section nesting.
Context {S : Type} `{!GuardStorage S, !GuardStorageLaws S}.

(** How many guards, and internal scopes, are open at once. *)
Fixpoint hooks_open (p : scopes) : Z :=
  match p with
  | Scopes_end => 0
  | Hook_call inner next => Z.max (hooks_open inner + 1) (hooks_open next)
  | Internal_scope inner next => Z.max (hooks_open inner) (hooks_open next)
  end.
Fixpoint internals_open (p : scopes) : Z :=
  match p with
  | Scopes_end => 0
  | Hook_call inner next => Z.max (internals_open inner) (internals_open next)
  | Internal_scope inner next => Z.max (internals_open inner + 1) (internals_open next)
  end.

(** The kind each guard should get: by what encloses it, internal scopes first. *)
Fixpoint kinds (in_hook in_internal : bool) (p : scopes) : list HookEntryKind :=
  match p with
  | Scopes_end => []
  | Hook_call inner next =>
      (if in_internal then Entry_kInternalThread else if in_hook then Entry_kRecursive else Entry_kOutermost)
      :: kinds true in_internal inner ++ kinds in_hook in_internal next
  | Internal_scope inner next => kinds in_hook true inner ++ kinds in_hook in_internal next
  end.

Lemma opens_nonneg p : 0 ≤ hooks_open p ∧ 0 ≤ internals_open p.
Proof. induction p; cbn; lia. Qed.

Lemma stored s st st' : load_thread_state s = Some st → state_ok st' →
  ∃ s', store_thread_state st' s = Some s' ∧ load_thread_state s' = Some st'.
Proof. apply store_load. Qed.

Lemma run_scopes_ok p s st : load_thread_state s = Some st → state_ok st →
  hook_depth st + hooks_open p ≤ kMaximumDepth → internal_depth st + internals_open p ≤ kMaximumDepth →
  ∃ s', run_scopes p s = Some (kinds (negb (hook_depth st =? 0)) (negb (internal_depth st =? 0)) p, s') ∧
    load_thread_state s' = Some st.
Proof.
  revert s st. induction p as [|inner IHi next IHn|inner IHi next IHn]; intros s st Hs Hok Hh Hi; cbn in Hh, Hi.
  - by exists s.
  - destruct Hok as [Hok1 Hok2]. pose proof (opens_nonneg inner). pose proof (opens_nonneg next).
    unfold depth_ok in *. cbn [run_scopes kinds]. unfold enter_hook_invocation_unscoped, increment_depth. rewrite Hs. cbn.
    rewrite (proj2 (Z.eqb_neq _ _)) by lia. cbn.
    destruct (stored s st {| hook_depth := hook_depth st + 1; internal_depth := internal_depth st |} Hs)
      as (s1 & -> & H1); [by split; unfold depth_ok; cbn; lia|]. cbn.
    destruct (IHi s1 _ H1) as (s2 & -> & H2); [split; unfold depth_ok; cbn; lia|cbn; lia..|]. cbn.
    unfold leave_hook_invocation_unscoped, decrement_depth. rewrite H2. cbn.
    rewrite (proj2 (Z.eqb_neq _ _)) by lia. cbn.
    destruct (stored s2 _ {| hook_depth := hook_depth st + 1 - 1; internal_depth := internal_depth st |} H2)
      as (s3 & -> & H3); [by split; unfold depth_ok; cbn; lia|]. cbn.
    replace (hook_depth st + 1 - 1) with (hook_depth st) in H3 by lia. destruct st as [h i]. cbn in *.
    destruct (IHn s3 _ H3) as (s4 & -> & H4); [split; unfold depth_ok; cbn; lia|cbn; lia..|]. cbn.
    exists s4. split; [|done].
    unfold entry_kind. cbn. by destruct (i =? 0), (h =? 0).
  - destruct Hok as [Hok1 Hok2]. pose proof (opens_nonneg inner). pose proof (opens_nonneg next).
    unfold depth_ok in *. cbn [run_scopes kinds]. unfold InternalThreadScope_enter, increment_depth. rewrite Hs. cbn.
    rewrite (proj2 (Z.eqb_neq _ kMaximumDepth)) by lia. cbn.
    destruct (stored s st {| hook_depth := hook_depth st; internal_depth := internal_depth st + 1 |} Hs)
      as (s1 & -> & H1); [by split; unfold depth_ok; cbn; lia|]. cbn.
    destruct (IHi s1 _ H1) as (s2 & -> & H2); [split; unfold depth_ok; cbn; lia|cbn; lia..|]. cbn.
    unfold InternalThreadScope_leave, decrement_depth. rewrite H2. cbn.
    rewrite (proj2 (Z.eqb_neq (internal_depth st + 1) 0)) by lia. cbn.
    destruct (stored s2 _ {| hook_depth := hook_depth st; internal_depth := internal_depth st + 1 - 1 |} H2)
      as (s3 & -> & H3); [by split; unfold depth_ok; cbn; lia|]. cbn.
    replace (internal_depth st + 1 - 1) with (internal_depth st) in H3 by lia. destruct st as [h i]. cbn in *.
    destruct (IHn s3 _ H3) as (s4 & -> & H4); [split; unfold depth_ok; cbn; lia|cbn; lia..|]. cbn.
    by exists s4.
Qed.
End nesting.

(** What the guards of a thread report.  Wherever the depths are kept, a thread that
    opens and closes its scopes as C++ nests them, fewer than 65536 deep, is never
    terminated and ends as it began, and every guard gets the kind its surroundings
    say: internal inside any internal scope, recursive inside another guard only, and
    outermost, the kind that records, outside both. *)
Theorem hook_guard_nesting {S : Type} `{!GuardStorage S, !GuardStorageLaws S} (p : scopes) (s : S) :
  load_thread_state s = Some no_depth → hooks_open p ≤ kMaximumDepth → internals_open p ≤ kMaximumDepth →
  ∃ s', run_scopes p s = Some (kinds false false p, s') ∧ load_thread_state s' = Some no_depth ∧
    probe_hook_guard_thread_state s' = no_depth.
Proof.
  intros Hs Hh Hi. destruct (run_scopes_ok p s no_depth Hs) as (s' & Hrun & Hs'); [|cbn; lia..|].
  { split; unfold depth_ok; cbn; split; done. }
  exists s'. split; [done|]. split; [done|]. by apply probe_load.
Qed.

(** A hooked call that calls another, then the agent's own work with a hooked call in it. *)
Definition sample_scopes : scopes :=
  Hook_call (Hook_call Scopes_end Scopes_end) (Internal_scope (Hook_call Scopes_end Scopes_end) Scopes_end).

Definition sample_windows : WindowsStorage := {| state_tls_index := Some 5; tls_slots := {[5 := 0]} |}.

Lemma hook_guard_nesting_witness : ∃ s',
  run_scopes sample_scopes sample_windows =
    Some ([Entry_kOutermost; Entry_kRecursive; Entry_kInternalThread], s').
Proof.
  destruct (hook_guard_nesting sample_scopes sample_windows) as (s' & H & _);
    [reflexivity|vm_compute; discriminate..|].
  exists s'. exact H.
Defined.

(** The same scopes on the other platforms. *)
Example sample_posix : fst <$> run_scopes sample_scopes {| runtime_ready := true; thread_state := no_depth |} =
  fst <$> run_scopes sample_scopes sample_windows.
Proof. reflexivity. Qed.
