(* ===== verification/ReplacementGate.v ===== *)
(** * The replacement gate and lifecycle

    src/include/noleax/agent/replacement_lifecycle.hpp: how the coordinator closes the
    gate in front of the hook replacements, waits until none of them runs, and stops
    recording, while any number of threads call them.

    As in MpscQueue.v a call is a sequence of steps with at most one access to shared
    memory each, and a schedule says who takes the next one: the steps interleave on
    one memory.  What is modelled per call is modelled for all threads; the calls of
    one thread nest, which only rules schedules out.  There is one coordinator, which
    issues one command at a time.  [None] is [std::terminate]. *)

From S2P Require Import Prelude HookGuard.

(** ** Shared memory *)

Inductive ReplacementRoute : Set := Route_kTarget | Route_kOriginal | Route_kRecord.

#[global] Instance ReplacementRoute_eq_dec : EqDecision ReplacementRoute.
Proof. solve_decision. Defined.

Record ReplacementLifecycle : Set := {
  route_ : ReplacementRoute;
  entry_transitions_ : Z;
  in_flight_ : Z;
  recording_in_flight_ : Z;
}.

Definition ReplacementLifecycle_new : ReplacementLifecycle :=
  {| route_ := Route_kTarget; entry_transitions_ := 0; in_flight_ := 0; recording_in_flight_ := 0 |}.

(** The gate, the quiescence epoch, and the lifecycles of the hooks. *)
Record memory : Set := {
  replacement_gate_closed : bool;
  replacement_gate_epoch : Z;
  replacement_gate_transitions : Z;
  replacement_active_calls : Z;
  replacement_gate_waiters : Z;
  quiescence_epoch : Z;          (* uint32 *)
  quiescence_waiters : Z;        (* uint32 *)
  lifecycles : nat → ReplacementLifecycle;
}.

#[global] Instance ReplacementLifecycle_members : Members ReplacementLifecycle := λ l,
  {| route_ := route_ l; entry_transitions_ := entry_transitions_ l; in_flight_ := in_flight_ l;
     recording_in_flight_ := recording_in_flight_ l |}.
#[global] Instance memory_members : Members memory := λ m,
  {| replacement_gate_closed := replacement_gate_closed m;
     replacement_gate_epoch := replacement_gate_epoch m;
     replacement_gate_transitions := replacement_gate_transitions m;
     replacement_active_calls := replacement_active_calls m;
     replacement_gate_waiters := replacement_gate_waiters m;
     quiescence_epoch := quiescence_epoch m; quiescence_waiters := quiescence_waiters m;
     lifecycles := lifecycles m |}.

Definition memory_new : memory :=
  {| replacement_gate_closed := false; replacement_gate_epoch := 0; replacement_gate_transitions := 0;
     replacement_active_calls := 0; replacement_gate_waiters := 0; quiescence_epoch := 0;
     quiescence_waiters := 0; lifecycles := λ _, ReplacementLifecycle_new |}.

Definition set_lifecycle (l : nat) (f : ReplacementLifecycle → ReplacementLifecycle) (m : memory) : memory :=
  m <| lifecycles := λ k, if decide (k = l) then f (lifecycles m l) else lifecycles m k |>.

(** The counters a wait may watch. *)
Inductive gate_counter : Set :=
  | Transitions | Active_calls | Waiters
  | Entry_transitions (l : nat) | In_flight (l : nat) | Recording_in_flight (l : nat).

#[global] Instance gate_counter_eq_dec : EqDecision gate_counter.
Proof. solve_decision. Defined.

Definition read_counter (c : gate_counter) (m : memory) : Z :=
  match c with
  | Transitions => replacement_gate_transitions m
  | Active_calls => replacement_active_calls m
  | Waiters => replacement_gate_waiters m
  | Entry_transitions l => entry_transitions_ (lifecycles m l)
  | In_flight l => in_flight_ (lifecycles m l)
  | Recording_in_flight l => recording_in_flight_ (lifecycles m l)
  end.

Definition write_counter (c : gate_counter) (z : Z) (m : memory) : memory :=
  match c with
  | Transitions => m <| replacement_gate_transitions := z |>
  | Active_calls => m <| replacement_active_calls := z |>
  | Waiters => m <| replacement_gate_waiters := z |>
  | Entry_transitions l => set_lifecycle l (λ x, x <| entry_transitions_ := z |>) m
  | In_flight l => set_lifecycle l (λ x, x <| in_flight_ := z |>) m
  | Recording_in_flight l => set_lifecycle l (λ x, x <| recording_in_flight_ := z |>) m
  end.

(** ** A call of a replacement *)

Definition kReplacementGateCoordinatorDepth : Z := 2.

(** Calls that do not stop at the gate: nested ones, and those of the coordinator. *)
Definition bypasses (state : ThreadHookState) : bool :=
  negb (hook_depth state =? 0) || (kReplacementGateCoordinatorDepth <=? internal_depth state).

(** Where a call is: in [enter_replacement_gate], in [enter_unscoped], in the
    replacement's own code, in [leave_unscoped] and [leave_replacement_gate], or in
    [notify_quiescence_epoch] called from one of them. *)
Inductive position : Set :=
  | G_bypass
  | G_transition
  | G_read_closed
  | G_activate
  | G_settle_open
  | G_settle_closed
  | G_wait
  | G_load_epoch
  | G_still_closed (epoch : Z)
  | G_epoch_wait (epoch : Z)
  | G_asleep (epoch : Z)
  | G_unwait
  | L_enter
  | L_route
  | L_count (route : ReplacementRoute)
  | L_count_recording
  | L_entered (route : ReplacementRoute)
  | Inside (route : ReplacementRoute)
  | L_leave_recording
  | L_leave (route : ReplacementRoute)
  | G_leave
  | Notify (next : position)
  | Bump (next : position)
  | Wake (next : position)
  | Finished.

#[global] Instance position_eq_dec : EqDecision position.
Proof. solve_decision. Defined.

Record call : Set := { call_lifecycle : nat; call_bypass : bool; call_at : position }.

Definition new_call (l : nat) (state : ThreadHookState) : call :=
  {| call_lifecycle := l; call_bypass := bypasses state;
     call_at := if bypasses state then G_bypass else G_transition |}.

Definition increment_or_terminate (c : gate_counter) (next : position) (m : memory)
    : option (memory * position) :=
  if read_counter c m =? u64_max then None
  else Some (write_counter c (read_counter c m + 1) m, next).

(** A counter that reaches zero wakes the sleepers on the quiescence epoch. *)
Definition decrement_or_terminate (c : gate_counter) (next : position) (m : memory)
    : option (memory * position) :=
  let previous := read_counter c m in
  if previous =? 0 then None
  else Some (write_counter c (previous - 1) m, if previous =? 1 then Notify next else next).

(** [entry_transitions_.fetch_sub(1U) == 1U], which checks for no underflow. *)
Definition leave_transition (l : nat) (next : position) (m : memory) : memory * position :=
  let previous := read_counter (Entry_transitions l) m in
  (write_counter (Entry_transitions l) (wrap64 (previous - 1)) m,
   if previous =? 1 then Notify next else next).

(** A call that sleeps on the gate epoch moves when it is notified. *)
Definition call_step (l : nat) (at_ : position) (m : memory) : option (memory * position) :=
  match at_ with
  | G_bypass => increment_or_terminate Active_calls L_enter m
  | G_transition => increment_or_terminate Transitions G_read_closed m
  | G_read_closed => Some (m, if replacement_gate_closed m then G_settle_closed else G_activate)
  | G_activate => increment_or_terminate Active_calls G_settle_open m
  | G_settle_open => decrement_or_terminate Transitions L_enter m
  | G_settle_closed => decrement_or_terminate Transitions G_wait m
  | G_wait => increment_or_terminate Waiters G_load_epoch m
  | G_load_epoch => Some (m, G_still_closed (replacement_gate_epoch m))
  | G_still_closed epoch => Some (m, if replacement_gate_closed m then G_epoch_wait epoch else G_unwait)
  | G_epoch_wait epoch =>
      Some (m, if replacement_gate_epoch m =? epoch then G_asleep epoch else G_load_epoch)
  | G_asleep epoch => Some (m, G_asleep epoch)
  | G_unwait => decrement_or_terminate Waiters G_transition m
  | L_enter => increment_or_terminate (Entry_transitions l) L_route m
  | L_route => Some (m, L_count (route_ (lifecycles m l)))
  | L_count route =>
      increment_or_terminate (In_flight l)
        (if decide (route = Route_kRecord) then L_count_recording else L_entered route) m
  | L_count_recording => increment_or_terminate (Recording_in_flight l) (L_entered Route_kRecord) m
  | L_entered route => Some (leave_transition l (Inside route) m)
  | Inside route => Some (m, if decide (route = Route_kRecord) then L_leave_recording else L_leave route)
  | L_leave_recording => decrement_or_terminate (Recording_in_flight l) (L_leave Route_kRecord) m
  | L_leave _ => decrement_or_terminate (In_flight l) G_leave m
  | G_leave => decrement_or_terminate Active_calls Finished m
  | Notify next => Some (m, if quiescence_waiters m =? 0 then next else Bump next)
  | Bump next => Some (m <| quiescence_epoch := wrap32 (quiescence_epoch m + 1) |>, Wake next)
  | Wake next => Some (m, next)
  | Finished => Some (m, Finished)
  end.

(** ** The coordinator *)

Inductive wait_kind : Set := W_close | W_drain | W_lifecycle (l : nat) | W_recording (l : nat).

#[global] Instance wait_kind_eq_dec : EqDecision wait_kind.
Proof. solve_decision. Defined.

(** The predicates, as the counters they load in order, each only while all before
    it were zero. *)
Definition watched (w : wait_kind) : list gate_counter :=
  match w with
  | W_close => [Transitions; Active_calls]
  | W_drain => [Waiters; Transitions; Active_calls]
  | W_lifecycle l => [Entry_transitions l; In_flight l]
  | W_recording l => [Entry_transitions l; Recording_in_flight l]
  end.

Inductive command : Set :=
  | Close_and_wait | Open | Wait_for_drain
  | Start_recording (l : nat) | Stop_recording (l : nat) | Route_to_target (l : nat)
  | Wait_for_quiescence (l : nat) | Wait_for_recording_quiescence (l : nat).

(** Where the coordinator is; [todo] is what the predicate still has to load. *)
Inductive coordinator : Set :=
  | K_idle
  | K_close
  | K_first (w : wait_kind) (todo : list gate_counter)
  | K_register (w : wait_kind)
  | K_load (w : wait_kind)
  | K_check (w : wait_kind) (epoch : Z) (todo : list gate_counter)
  | K_deadline (w : wait_kind) (epoch : Z)
  | K_wait (w : wait_kind) (epoch : Z)
  | K_asleep (w : wait_kind) (epoch : Z)
  | K_final (w : wait_kind) (todo : list gate_counter)
  | K_unregister (w : wait_kind) (answer : bool)
  | K_open
  | K_open_bump
  | K_open_notify
  | K_route (l : nat) (route : ReplacementRoute).

#[global] Instance coordinator_eq_dec : EqDecision coordinator.
Proof. solve_decision. Defined.

(** What the coordinator has done: an answer of a wait, or a store. *)
Inductive deed : Set :=
  | Returned (w : wait_kind) (answer : bool)
  | Opened
  | Routed (l : nat) (route : ReplacementRoute).

#[global] Instance deed_eq_dec : EqDecision deed.
Proof. solve_decision. Defined.

Definition begin_command (c : command) : coordinator :=
  match c with
  | Close_and_wait => K_close
  | Open => K_open
  | Wait_for_drain => K_first W_drain (watched W_drain)
  | Start_recording l => K_route l Route_kRecord
  | Stop_recording l => K_route l Route_kOriginal
  | Route_to_target l => K_route l Route_kTarget
  | Wait_for_quiescence l => K_first (W_lifecycle l) (watched (W_lifecycle l))
  | Wait_for_recording_quiescence l => K_first (W_recording l) (watched (W_recording l))
  end.

(** One load of a predicate: [zero] if it was the last one and all were zero. *)
Definition predicate_step (todo : list gate_counter) (m : memory) (more : list gate_counter → coordinator)
    (zero nonzero : coordinator) : coordinator :=
  match todo with
  | [] => zero
  | c :: todo => if read_counter c m =? 0 then match todo with [] => zero | _ => more todo end else nonzero
  end.

Definition is_woken (k : coordinator) : coordinator :=
  match k with K_asleep w _ => K_load w | k => k end.

(** [flag] is what the scheduler decides: whether the deadline has passed, or a
    futex wait ends by a signal, spuriously or by its timeout. *)
Definition coordinator_step (k : coordinator) (flag : bool) (m : memory) : memory * coordinator * list deed :=
  match k with
  | K_idle => (m, K_idle, [])
  | K_close => (m <| replacement_gate_closed := true |>, K_first W_close (watched W_close), [])
  | K_first w todo =>
      (m, predicate_step todo m (K_first w) K_idle (K_register w),
       match todo with
       | [c] => if read_counter c m =? 0 then [Returned w true] else []
       | _ => []
       end)
  | K_register w => (m <| quiescence_waiters := wrap32 (quiescence_waiters m + 1) |>, K_load w, [])
  | K_load w => (m, K_check w (quiescence_epoch m) (watched w), [])
  | K_check w epoch todo =>
      (m, predicate_step todo m (K_check w epoch) (K_unregister w true) (K_deadline w epoch), [])
  | K_deadline w epoch => (m, if flag then K_final w (watched w) else K_wait w epoch, [])
  | K_wait w epoch => (m, if quiescence_epoch m =? epoch then K_asleep w epoch else K_load w, [])
  | K_asleep w epoch => (m, if flag then K_load w else K_asleep w epoch, [])
  | K_final w todo =>
      (m, predicate_step todo m (K_final w) (K_unregister w true) (K_unregister w false), [])
  | K_unregister w answer =>
      (m <| quiescence_waiters := wrap32 (quiescence_waiters m - 1) |>, K_idle, [Returned w answer])
  | K_open => (m <| replacement_gate_closed := false |>, K_open_bump, [Opened])
  | K_open_bump => (m <| replacement_gate_epoch := wrap64 (replacement_gate_epoch m + 1) |>, K_open_notify, [])
  | K_open_notify => (m, K_idle, [])
  | K_route l route => (set_lifecycle l (λ x, x <| route_ := route |>) m, K_idle, [Routed l route])
  end.

(** ** The system *)

Record gate_system : Set := {
  sys_memory : memory;
  sys_calls : list call;
  sys_coordinator : coordinator;
  sys_deeds : list deed;
}.

Definition gate_system_new : gate_system :=
  {| sys_memory := memory_new; sys_calls := []; sys_coordinator := K_idle; sys_deeds := [] |}.

Inductive gate_choice : Set :=
  | Call (l : nat) (state : ThreadHookState)
  | Step (i : nat)
  | Command (c : command)
  | Coordinate (flag : bool).

(** [replacement_gate_epoch.notify_all()] *)
Definition wake_call (c : call) : call :=
  match call_at c with
  | G_asleep epoch =>
      {| call_lifecycle := call_lifecycle c; call_bypass := call_bypass c; call_at := G_epoch_wait epoch |}
  | _ => c
  end.

Definition is_wake (p : position) : bool := match p with Wake _ => true | _ => false end.

Definition gate_step (s : gate_system) (choice : gate_choice) : option gate_system :=
  match choice with
  | Call l state =>
      Some {| sys_memory := sys_memory s; sys_calls := sys_calls s ++ [new_call l state];
              sys_coordinator := sys_coordinator s; sys_deeds := sys_deeds s |}
  | Step i =>
      match sys_calls s !! i with
      | None => Some s
      | Some c =>
          r ← call_step (call_lifecycle c) (call_at c) (sys_memory s);
          Some {| sys_memory := r.1;
                  sys_calls := <[i := {| call_lifecycle := call_lifecycle c;
                                         call_bypass := call_bypass c; call_at := r.2 |}]> (sys_calls s);
                  sys_coordinator := if is_wake (call_at c) then is_woken (sys_coordinator s)
                                     else sys_coordinator s;
                  sys_deeds := sys_deeds s |}
      end
  | Command c =>
      Some match sys_coordinator s with
           | K_idle => {| sys_memory := sys_memory s; sys_calls := sys_calls s;
                          sys_coordinator := begin_command c; sys_deeds := sys_deeds s |}
           | _ => s
           end
  | Coordinate flag =>
      let '(m, k, deeds) := coordinator_step (sys_coordinator s) flag (sys_memory s) in
      Some {| sys_memory := m;
              sys_calls := match sys_coordinator s with
                           | K_open_notify => wake_call <$> sys_calls s
                           | _ => sys_calls s
                           end;
              sys_coordinator := k; sys_deeds := sys_deeds s ++ deeds |}
  end.

Fixpoint gate_run (s : gate_system) (schedule : list gate_choice) : option gate_system :=
  match schedule with
  | [] => Some s
  | choice :: schedule => s ← gate_step s choice; gate_run s schedule
  end.
