(* ===== verification/GateInvariant.v ===== *)
(** * The invariant of the replacement gate

    Every counter is the number of calls it counts; what the coordinator has seen so
    far of a predicate stays true; and nobody sleeps through what they wait for. *)

From S2P Require Import Prelude HookGuard ReplacementGate.

(** ** Counting calls *)

(** Where a call goes on after it has notified. *)
Fixpoint settled_at (p : position) : position :=
  match p with Notify next | Bump next | Wake next => settled_at next | p => p end.

Definition in_transition (p : position) : bool :=
  match settled_at p with G_read_closed | G_activate | G_settle_open | G_settle_closed => true | _ => false end.
Definition in_waiters (p : position) : bool :=
  match settled_at p with
  | G_load_epoch | G_still_closed _ | G_epoch_wait _ | G_asleep _ | G_unwait => true
  | _ => false
  end.
Definition is_active (p : position) : bool :=
  match settled_at p with
  | G_settle_open | L_enter | L_route | L_count _ | L_count_recording | L_entered _ | Inside _
  | L_leave_recording | L_leave _ | G_leave => true
  | _ => false
  end.
Definition is_entering (p : position) : bool :=
  match settled_at p with L_route | L_count _ | L_count_recording | L_entered _ => true | _ => false end.
Definition is_flying (p : position) : bool :=
  match settled_at p with
  | L_count_recording | L_entered _ | Inside _ | L_leave_recording | L_leave _ => true
  | _ => false
  end.
Definition is_recording (p : position) : bool :=
  match settled_at p with
  | L_entered Route_kRecord | Inside Route_kRecord | L_leave_recording => true
  | _ => false
  end.

Definition counts (c : gate_counter) (l : nat) (p : position) : bool :=
  match c with
  | Transitions => in_transition p
  | Active_calls => is_active p
  | Waiters => in_waiters p
  | Entry_transitions k => bool_decide (k = l) && is_entering p
  | In_flight k => bool_decide (k = l) && is_flying p
  | Recording_in_flight k => bool_decide (k = l) && is_recording p
  end.

Definition counted_call (c : gate_counter) (x : call) : bool := counts c (call_lifecycle x) (call_at x).

Definition b2z (b : bool) : Z := if b then 1 else 0.

Definition count (c : gate_counter) (calls : list call) : Z :=
  size_of (filter (λ x, counted_call c x = true) calls).

Definition set_position (p : position) (x : call) : call :=
  {| call_lifecycle := call_lifecycle x; call_bypass := call_bypass x; call_at := p |}.

Lemma count_snoc c calls x : count c (calls ++ [x]) = count c calls + b2z (counted_call c x).
Proof.
  unfold count. rewrite filter_app, size_of_app. f_equal. unfold b2z.
  destruct (counted_call c x) eqn:E; [by rewrite filter_cons_True|by rewrite filter_cons_False by congruence].
Qed.

Lemma count_update c calls i x y : calls !! i = Some x →
  count c (<[i := y]> calls) = count c calls - b2z (counted_call c x) + b2z (counted_call c y).
Proof.
  intros Hi. rewrite (insert_take_drop calls i y) by (by eapply lookup_lt_Some).
  rewrite <- (take_drop_middle calls i x Hi) at 3. unfold count. rewrite !filter_app, !size_of_app.
  assert (H : ∀ z rest, size_of (filter (λ x, counted_call c x = true) (z :: rest)) =
    b2z (counted_call c z) + size_of (filter (λ x, counted_call c x = true) rest)).
  { intros z rest. unfold b2z. destruct (counted_call c z) eqn:E.
    - rewrite filter_cons_True by done. unfold size_of. cbn [length]. lia.
    - by rewrite filter_cons_False by congruence. }
  rewrite !H. lia.
Qed.

Lemma count_bounds c calls : 0 ≤ count c calls ≤ size_of calls.
Proof. unfold count, size_of. pose proof (length_filter (λ x, counted_call c x = true) calls). lia. Qed.

Lemma count_positive c calls x : x ∈ calls → counted_call c x = true → 1 ≤ count c calls.
Proof.
  intros Hx Hc. unfold count. assert (Hin : x ∈ filter (λ x, counted_call c x = true) calls).
  { by apply list_elem_of_filter. }
  destruct (filter _ calls); [by apply not_elem_of_nil in Hin|]. unfold size_of. cbn. lia.
Qed.

Lemma count_zero c calls x : count c calls = 0 → x ∈ calls → counted_call c x = false.
Proof.
  intros Hc Hx. destruct (counted_call c x) eqn:E; [|done]. pose proof (count_positive c calls x Hx E). lia.
Qed.

(** ** The counters in memory *)

Lemma read_write_counter c c' z m :
  read_counter c (write_counter c' z m) = if decide (c = c') then z else read_counter c m.
Proof.
  destruct c, c'; cbn; try reflexivity; repeat case_decide; simplify_eq; try done.
Qed.

Definition counted (s : gate_system) : Prop :=
  ∀ c, read_counter c (sys_memory s) = count c (sys_calls s).

(** What a step does to the rest of the memory. *)
Definition same_gate (m m' : memory) : Prop :=
  replacement_gate_closed m' = replacement_gate_closed m ∧
  replacement_gate_epoch m' = replacement_gate_epoch m ∧
  quiescence_waiters m' = quiescence_waiters m ∧
  ∀ l, route_ (lifecycles m' l) = route_ (lifecycles m l).

Lemma write_counter_gate c z m : same_gate m (write_counter c z m) ∧
  quiescence_epoch (write_counter c z m) = quiescence_epoch m.
Proof. destruct c; (split; [split_and!|]; try done); intros k; cbn; by case_decide; subst. Qed.

Definition is_notifying (p : position) : bool := match p with Notify _ | Bump _ => true | _ => false end.

(** What a step of a call does to memory. *)
Record stepped (l : nat) (p p' : position) (m m' : memory) : Prop := {
  st_counts c : read_counter c m' = read_counter c m - b2z (counts c l p) + b2z (counts c l p');
  st_gate : same_gate m m';
  st_epoch : quiescence_epoch m' =
    (match p with Bump _ => wrap32 (quiescence_epoch m + 1) | _ => quiescence_epoch m end);
  st_notifies c : read_counter c m ≠ 0 → read_counter c m' ≠ 0 ∨ is_notifying p' = true;
}.

Lemma stepped_same l p p' m : (∀ c, counts c l p' = counts c l p) →
  (match p with Bump _ => False | _ => True end) → stepped l p p' m m.
Proof. intros Hc Hb. split; [intros c; rewrite Hc; lia|done|by destruct p|by left]. Qed.

Lemma stepped_write l p p' c0 d m : b2z (counts c0 l p') - b2z (counts c0 l p) = d →
  (∀ c, c ≠ c0 → counts c l p' = counts c l p) → (match p with Bump _ => False | _ => True end) →
  (read_counter c0 m + d = 0 → is_notifying p' = true) →
  stepped l p p' m (write_counter c0 (read_counter c0 m + d) m).
Proof.
  intros Hd Hother Hb Hz. destruct (write_counter_gate c0 (read_counter c0 m + d) m) as [Hg Hq]. split.
  - intros c. rewrite read_write_counter. case_decide as E; [subst; lia|]. rewrite (Hother c E). lia.
  - done.
  - rewrite Hq. by destruct p.
  - intros c Hc. rewrite read_write_counter. case_decide as E; [|by left].
    destruct (decide (read_counter c0 m + d = 0)); [right|left]; auto.
Qed.

Lemma counts_notify c l p : counts c l (Notify p) = counts c l p.
Proof. by destruct c. Qed.

Ltac counted := let c := fresh "c" in intros c ?; destruct c; cbn;
  repeat (first [done | case_bool_decide | case_decide | case_match]; simplify_eq); done.

Lemma stepped_increment l p p' c0 m m' p'' : increment_or_terminate c0 p' m = Some (m', p'') →
  0 ≤ read_counter c0 m → counts c0 l p = false → counts c0 l p' = true →
  (∀ c, c ≠ c0 → counts c l p' = counts c l p) → (match p with Bump _ => False | _ => True end) →
  stepped l p p'' m m'.
Proof.
  unfold increment_or_terminate. destruct (_ =? _); [done|]. intros [= <- <-] Hu Hf Ht Ho Hb.
  apply stepped_write; [by rewrite Hf, Ht|done|done|lia].
Qed.

Lemma stepped_decrement l p p' c0 m m' p'' : decrement_or_terminate c0 p' m = Some (m', p'') →
  counts c0 l p = true → counts c0 l p' = false →
  (∀ c, c ≠ c0 → counts c l p' = counts c l p) → (match p with Bump _ => False | _ => True end) →
  stepped l p p'' m m'.
Proof.
  unfold decrement_or_terminate. destruct (_ =? 0); [done|]. intros [= <- <-] Ht Hf Ho Hb.
  assert (Hc : ∀ c, counts c l (if read_counter c0 m =? 1 then Notify p' else p') = counts c l p').
  { intros c. destruct (_ =? 1); [apply counts_notify|done]. }
  apply stepped_write; [by rewrite Hc, Hf, Ht|intros c Hne; by rewrite Hc, Ho|done|].
  intros Hz. by rewrite (proj2 (Z.eqb_eq _ 1)) by lia.
Qed.

(** A step moves the counters with the call. *)
Lemma call_step_counts l p m m' p' : (∀ c, u64 (read_counter c m)) →
  (∀ c, counts c l p = true → 1 ≤ read_counter c m) → call_step l p m = Some (m', p') →
  stepped l p p' m m'.
Proof.
  intros Hu Hpos Hstep.
  assert (Hu0 : ∀ c, 0 ≤ read_counter c m) by (intros c; specialize (Hu c); word).
  destruct p; cbn [call_step] in Hstep.
  all: try (eapply stepped_increment;
    [exact Hstep|apply Hu0|cbn; rewrite ?bool_decide_true by done; reflexivity..|counted|done]).
  all: try (eapply stepped_decrement;
    [exact Hstep|cbn; rewrite ?bool_decide_true by done; reflexivity..|counted|done]).
  all: try (injection Hstep as <- <-; apply stepped_same; [intros []; reflexivity|done]).
  - injection Hstep as <- <-. apply stepped_same; [|done]. by intros []; destruct (replacement_gate_closed m).
  - injection Hstep as <- <-. apply stepped_same; [|done]. by intros []; destruct (replacement_gate_closed m).
  - injection Hstep as <- <-. apply stepped_same; [|done]. by intros []; destruct (_ =? _).
  - destruct route; (eapply stepped_increment;
      [exact Hstep|apply Hu0|cbn; rewrite ?bool_decide_true by done; reflexivity..|counted|done]).
  - injection Hstep as <- <-.
    assert (He : counts (Entry_transitions l) l (L_entered route) = true) by (cbn; by rewrite bool_decide_true).
    pose proof (Hpos _ He) as H1. specialize (Hu (Entry_transitions l)).
    cbn [read_counter] in H1, Hu. rewrite wrap64_small by word.
    assert (Hc : ∀ c, counts c l (if entry_transitions_ (lifecycles m l) =? 1
      then Notify (Inside route) else Inside route) = counts c l (Inside route)).
    { intros c. destruct (_ =? 1); [apply counts_notify|done]. }
    apply (stepped_write _ _ _ (Entry_transitions l) (-1)); [rewrite Hc, He; cbn; by rewrite andb_false_r| |done|].
    + intros c Hne. rewrite Hc. revert c Hne. counted.
    + cbn [read_counter]. intros Hz. by rewrite (proj2 (Z.eqb_eq _ 1)) by lia.
  - injection Hstep as <- <-. apply stepped_same; [|done]. by destruct route; intros [].
  - injection Hstep as <- <-. apply stepped_same; [|done]. by intros []; destruct (_ =? 0).
  - injection Hstep as <- <-. split; [intros c|done|done|by left].
    assert (counts c l (Wake p) = counts c l (Bump p)) as -> by (by destruct c). destruct c; cbn; lia.
Qed.

(** Within the bounds no counter over- or underflows. *)
Lemma call_step_total l p m : (∀ c, 0 ≤ read_counter c m < u64_max) →
  (∀ c, counts c l p = true → 1 ≤ read_counter c m) → ∃ r, call_step l p m = Some r.
Proof.
  intros Hu Hpos.
  assert (Hinc : ∀ c q, ∃ r, increment_or_terminate c q m = Some r).
  { intros c q. unfold increment_or_terminate. rewrite (proj2 (Z.eqb_neq _ _)) by (specialize (Hu c); lia). eauto. }
  assert (Hdec : ∀ c q, counts c l p = true → ∃ r, decrement_or_terminate c q m = Some r).
  { intros c q Hc. unfold decrement_or_terminate. rewrite (proj2 (Z.eqb_neq _ _)) by (specialize (Hpos c Hc); lia). eauto. }
  destruct p; cbn [call_step]; try (by eauto); try (apply Hinc);
    (apply Hdec; cbn; by rewrite ?bool_decide_true by done).
Qed.

(** ** Bounds *)

Definition registered (k : coordinator) : bool :=
  match k with
  | K_load _ | K_check _ _ _ | K_deadline _ _ | K_wait _ _ | K_asleep _ _ | K_final _ _ | K_unregister _ _ => true
  | _ => false
  end.

(** After [n] steps. *)
Record base_inv (n : Z) (s : gate_system) : Prop := {
  bi_size : size_of (sys_calls s) ≤ n;
  bi_counted : counted s;
  bi_epoch : 0 ≤ replacement_gate_epoch (sys_memory s) ≤ n;
  bi_q_epoch : 0 ≤ quiescence_epoch (sys_memory s) ≤ n;
  bi_waiters : quiescence_waiters (sys_memory s) = b2z (registered (sys_coordinator s));
}.

Lemma base_counters n s c : base_inv n s → 0 ≤ read_counter c (sys_memory s) ≤ n.
Proof.
  intros Hb. rewrite (bi_counted _ _ Hb). pose proof (count_bounds c (sys_calls s)).
  pose proof (bi_size _ _ Hb). lia.
Qed.

Lemma base_positive n s x c : base_inv n s → x ∈ sys_calls s →
  counts c (call_lifecycle x) (call_at x) = true → 1 ≤ read_counter c (sys_memory s).
Proof. intros Hb Hx Hc. rewrite (bi_counted _ _ Hb). by apply (count_positive c _ x). Qed.

(** A step of a call, with what it does. *)
Lemma base_call_step n s i x : base_inv n s → n < 2 ^ 32 - 1 → sys_calls s !! i = Some x →
  ∃ m p, call_step (call_lifecycle x) (call_at x) (sys_memory s) = Some (m, p) ∧
    stepped (call_lifecycle x) (call_at x) p (sys_memory s) m.
Proof.
  intros Hb Hn Hi. assert (Hx : x ∈ sys_calls s) by (by eapply list_elem_of_lookup_2).
  destruct (call_step_total (call_lifecycle x) (call_at x) (sys_memory s)) as [[m p] Hstep].
  - intros c. pose proof (base_counters n s c Hb). word.
  - intros c. by apply (base_positive n).
  - exists m, p. split; [done|]. apply call_step_counts; [|intros c; by apply (base_positive n)|done].
    intros c. pose proof (base_counters n s c Hb). word.
Qed.

Lemma woken_registered k : registered (is_woken k) = registered k.
Proof. by destruct k. Qed.

Lemma predicate_step_cases todo m more zero nonzero :
  predicate_step todo m more zero nonzero = zero ∨ predicate_step todo m more zero nonzero = nonzero ∨
  ∃ todo', predicate_step todo m more zero nonzero = more todo'.
Proof.
  destruct todo as [|c [|c' todo]]; cbn; [auto|destruct (_ =? 0); auto|].
  destruct (_ =? 0); [right; right; eauto|auto].
Qed.

Lemma coordinator_step_registered k flag m m' k' deeds : coordinator_step k flag m = (m', k', deeds) →
  quiescence_waiters m = b2z (registered k) → quiescence_waiters m' = b2z (registered k').
Proof.
  intros Hk Hw. destruct k; cbn in Hk; injection Hk as <- <- <-; cbn in *; try done.
  - destruct (predicate_step_cases todo m (K_first w) K_idle (K_register w)) as [-> | [-> | [? ->]]]; done.
  - by rewrite Hw.
  - destruct (predicate_step_cases todo m (K_check w epoch) (K_unregister w true) (K_deadline w epoch)) as [-> | [-> | [? ->]]]; done.
  - by destruct flag.
  - by destruct (_ =? _).
  - by destruct flag.
  - destruct (predicate_step_cases todo m (K_final w) (K_unregister w true) (K_unregister w false)) as [-> | [-> | [? ->]]]; done.
  - by rewrite Hw.
Qed.

(** The coordinator leaves the counters alone. *)
Lemma coordinator_step_counters k flag m m' k' deeds c : coordinator_step k flag m = (m', k', deeds) →
  read_counter c m' = read_counter c m.
Proof.
  intros Hk. destruct k; cbn in Hk; injection Hk as <- <- <-; try done; destruct c; try done;
    cbn; by case_decide; subst.
Qed.

Lemma coordinator_step_epochs n k flag m m' k' deeds : coordinator_step k flag m = (m', k', deeds) →
  0 ≤ n < 2 ^ 32 - 1 →
  (0 ≤ replacement_gate_epoch m ≤ n → 0 ≤ replacement_gate_epoch m' ≤ n + 1) ∧
  quiescence_epoch m' = quiescence_epoch m.
Proof.
  intros Hk Hn. destruct k; cbn in Hk; injection Hk as <- <- <-; cbn; (split; [intros|done]); try lia.
  rewrite wrap64_small by word. lia.
Qed.

Lemma wake_call_counts c x : counted_call c (wake_call x) = counted_call c x.
Proof. unfold wake_call. destruct x as [l b p]. by destruct p. Qed.

Lemma count_wake c calls : count c (wake_call <$> calls) = count c calls.
Proof.
  unfold count. induction calls as [|x calls IH]; [done|]. cbn [fmap list_fmap].
  destruct (counted_call c x) eqn:E.
  - rewrite !filter_cons_True by (rewrite ?wake_call_counts; done). unfold size_of in *. cbn [length]. lia.
  - by rewrite !filter_cons_False by (rewrite ?wake_call_counts; congruence).
Qed.

(** No schedule terminates the process, and the bounds go on. *)
Lemma base_step n s choice : base_inv n s → 0 ≤ n < 2 ^ 32 - 1 →
  ∃ s', gate_step s choice = Some s' ∧ base_inv (n + 1) s'.
Proof.
  intros Hb Hn. pose proof Hb as [Hsize Hcounted He Hq Hw]. destruct choice as [l state|i|c|flag]; cbn [gate_step].
  - eexists. split; [done|]. split; cbn [sys_calls sys_memory sys_coordinator]; [| |lia|lia|done].
    + rewrite size_of_app. unfold size_of at 2. cbn. lia.
    + intros c. cbn. rewrite count_snoc, (Hcounted c). unfold counted_call, new_call.
      destruct (bypasses state), c; cbn; rewrite ?andb_false_r; cbn; lia.
  - destruct (sys_calls s !! i) as [x|] eqn:Hi; [|exists s; split; [done|split; done || lia]].
    destruct (base_call_step n s i x Hb ltac:(lia) Hi) as (m & p & Hrun & [Hc (Hcl & Hge & Hgw & _) Hqe _]).
    rewrite Hrun. eexists. split; [done|]. split; cbn [sys_calls sys_memory sys_coordinator fst snd].
    + unfold size_of in *. rewrite length_insert. lia.
    + intros c. cbn. rewrite (count_update c _ i x) by done. rewrite Hc, (Hcounted c). done.
    + rewrite Hge. lia.
    + rewrite Hqe. destruct (call_at x); try lia. unfold wrap32. rewrite Z.mod_small by lia. lia.
    + rewrite Hgw, Hw. destruct (is_wake _); [by rewrite woken_registered|done].
  - eexists. split; [done|]. destruct (sys_coordinator s) eqn:Hk; split; cbn; try done; try lia; rewrite ?Hk; try done.
    rewrite Hw. by destruct c.
  - destruct (coordinator_step _ _ _) as [[m k] deeds] eqn:Hk. eexists. split; [done|].
    destruct (coordinator_step_epochs n _ _ _ _ _ _ Hk Hn) as [He' Hq'].
    split; cbn [sys_calls sys_memory sys_coordinator].
    + assert (length (match sys_coordinator s with K_open_notify => wake_call <$> sys_calls s | _ => sys_calls s end)
        = length (sys_calls s)) as Hlen by (destruct (sys_coordinator s); by rewrite ?length_fmap).
      unfold size_of in *. rewrite Hlen. lia.
    + intros c. cbn. rewrite (coordinator_step_counters _ _ _ _ _ _ c Hk), (Hcounted c).
      destruct (sys_coordinator s); by rewrite ?count_wake.
    + by apply He'.
    + rewrite Hq'. lia.
    + by eapply coordinator_step_registered.
Qed.
