(* ===== verification/GateTheorems.v ===== *)
(** * What the replacement gate guarantees

    After a successful [close_and_wait] and until [open] no ordinary call is past the
    gate; after a stop of recording and a successful wait for it no call records; and
    nobody sleeps through the event they wait for.  Any schedule, any number of
    calls and hooks. *)

From S2P Require Import Prelude HookGuard ReplacementGate GateInvariant.

(** ** One induction for all *)

(** What a property of reachable states needs: it holds at first, and every step
    keeps it, the bounds given. *)
Section reachable.
Context (P : gate_system → Prop).
Hypothesis P_new : P gate_system_new.
Hypothesis P_step : ∀ n s choice s', 0 ≤ n < 2 ^ 32 - 1 → base_inv n s → base_inv (n + 1) s' → P s →
  gate_step s choice = Some s' → P s'.

Lemma base_new : base_inv 0 gate_system_new.
Proof. split; try done. by intros []. Qed.

Lemma run_inv schedule n s : 0 ≤ n → n + size_of schedule < 2 ^ 32 → base_inv n s → P s →
  ∃ s', gate_run s schedule = Some s' ∧ base_inv (n + size_of schedule) s' ∧ P s'.
Proof.
  revert n s. induction schedule as [|choice schedule IH]; intros n s Hn Hlen Hb HP; cbn [gate_run].
  { exists s. unfold size_of. cbn. by rewrite Z.add_0_r. }
  unfold size_of in *. cbn [length] in *.
  destruct (base_step n s choice Hb) as (s1 & Hstep & Hb1); [lia|].
  rewrite Hstep. cbn. destruct (IH (n + 1) s1) as (s' & Hrun & Hb' & HP'); [lia|lia|done|apply (P_step n s choice); done || lia|].
  exists s'. split; [done|]. split; [|done]. replace (n + Z.of_nat (S (length schedule))) with (n + 1 + Z.of_nat (length schedule)) by lia. done.
Qed.

Lemma gate_reachable_inv schedule : size_of schedule < 2 ^ 32 →
  ∃ s, gate_run gate_system_new schedule = Some s ∧ base_inv (size_of schedule) s ∧ P s.
Proof. intros H. apply (run_inv schedule 0); [lia|lia|apply base_new|done]. Qed.
End reachable.

(** ** The gate shuts *)

Definition settled (calls : list call) : Prop := ∀ x, x ∈ calls →
  settled_at (call_at x) ≠ G_activate ∧ settled_at (call_at x) ≠ G_settle_open.

Definition ordinary (calls : list call) : Prop := ∀ x, x ∈ calls → call_bypass x = false →
  settled_at (call_at x) ≠ G_bypass.

Definition shut (m : memory) (calls : list call) : Prop :=
  replacement_gate_closed m = true ∧ settled calls ∧
  ∀ x, x ∈ calls → call_bypass x = false → is_active (call_at x) = false.

(** [close_and_wait] has returned true and [open] has not been called since. *)
Definition granted (deeds : list deed) : Prop :=
  ∃ pre post, deeds = pre ++ Returned W_close true :: post ∧ Opened ∉ post.

(** The wait the coordinator is in, and what its predicate still has to load. *)
Definition waiting (k : coordinator) : option wait_kind :=
  match k with
  | K_first w _ | K_register w | K_load w | K_check w _ _ | K_deadline w _ | K_wait w _ | K_asleep w _
  | K_final w _ | K_unregister w _ => Some w
  | _ => None
  end.
Definition predicate_at (k : coordinator) : option (list gate_counter) :=
  match k with K_first _ todo | K_check _ _ todo | K_final _ todo => Some todo | _ => None end.
Definition answered (k : coordinator) : bool := match k with K_unregister _ true => true | _ => false end.

Record shut_inv (s : gate_system) : Prop := {
  si_kinds : ordinary (sys_calls s);
  si_closed : waiting (sys_coordinator s) = Some W_close → replacement_gate_closed (sys_memory s) = true;
  si_todo todo : waiting (sys_coordinator s) = Some W_close → predicate_at (sys_coordinator s) = Some todo →
    todo = watched W_close ∨ (todo = [Active_calls] ∧ settled (sys_calls s));
  si_answer : waiting (sys_coordinator s) = Some W_close → answered (sys_coordinator s) = true →
    shut (sys_memory s) (sys_calls s);
  si_granted : granted (sys_deeds s) → shut (sys_memory s) (sys_calls s);
}.

Lemma granted_snoc deeds d : granted (deeds ++ [d]) →
  (granted deeds ∧ d ≠ Opened) ∨ d = Returned W_close true.
Proof.
  intros (pre & post & E & Hpost). destruct post as [|d' post _] using rev_ind.
  - apply app_inj_tail in E as [_ ->]. by right.
  - rewrite app_comm_cons, app_assoc in E. apply app_inj_tail in E as [-> <-].
    rewrite elem_of_app, list_elem_of_singleton in Hpost. left. split; [|naive_solver].
    exists pre, post. split; [done|naive_solver].
Qed.

(** Where a step of a call leads, notifications aside. *)
Definition successor (l : nat) (m : memory) (p : position) : position :=
  match p with
  | G_bypass => L_enter
  | G_transition => G_read_closed
  | G_read_closed => if replacement_gate_closed m then G_settle_closed else G_activate
  | G_activate => G_settle_open
  | G_settle_open => L_enter
  | G_settle_closed => G_wait
  | G_wait => G_load_epoch
  | G_load_epoch => G_still_closed (replacement_gate_epoch m)
  | G_still_closed epoch => if replacement_gate_closed m then G_epoch_wait epoch else G_unwait
  | G_epoch_wait epoch => if replacement_gate_epoch m =? epoch then G_asleep epoch else G_load_epoch
  | G_asleep epoch => G_asleep epoch
  | G_unwait => G_transition
  | L_enter => L_route
  | L_route => L_count (route_ (lifecycles m l))
  | L_count route => if decide (route = Route_kRecord) then L_count_recording else L_entered route
  | L_count_recording => L_entered Route_kRecord
  | L_entered route => Inside route
  | Inside route => if decide (route = Route_kRecord) then L_leave_recording else L_leave route
  | L_leave_recording => L_leave Route_kRecord
  | L_leave _ => G_leave
  | G_leave => Finished
  | Notify next | Bump next | Wake next => settled_at next
  | Finished => Finished
  end.

Lemma call_step_successor l p m m' p' : call_step l p m = Some (m', p') → settled_at p' = successor l m p.
Proof.
  assert (Hinc : ∀ c q, settled_at q = q → increment_or_terminate c q m = Some (m', p') → settled_at p' = q).
  { intros c q Hq. unfold increment_or_terminate. destruct (_ =? _); [done|]. by intros [= _ <-]. }
  assert (Hdec : ∀ c q, settled_at q = q → decrement_or_terminate c q m = Some (m', p') → settled_at p' = q).
  { intros c q Hq. unfold decrement_or_terminate. destruct (_ =? 0); [done|]. intros [= _ <-]. by destruct (_ =? 1). }
  destruct p; cbn [call_step successor]; try (by apply Hinc); try (by apply Hdec).
  all: try (intros [= _ <-]; by repeat case_match || case_decide).
  by case_decide; apply Hinc.
Qed.

(** Where a step may lead, for what the gate lets in. *)
Lemma call_step_open l p m m' p' : call_step l p m = Some (m', p') →
  (settled_at p' = G_activate → settled_at p = G_activate ∨ replacement_gate_closed m = false) ∧
  (settled_at p' = G_settle_open → settled_at p = G_settle_open ∨ settled_at p = G_activate) ∧
  (settled_at p' = G_bypass → settled_at p = G_bypass) ∧
  (is_active p' = true → is_active p = true ∨ settled_at p = G_activate ∨ settled_at p = G_bypass).
Proof.
  intros Hstep%call_step_successor. unfold is_active. rewrite Hstep.
  destruct p; cbn [successor]; try (by auto); cbn [settled_at];
    repeat case_match; simplify_eq; split_and!; intros; try done; auto.
Qed.

Lemma elem_update {A} (l : list A) i y x : x ∈ <[i := y]> l → x = y ∨ x ∈ l.
Proof.
  intros (j & Hj)%list_elem_of_lookup. destruct (decide (i = j)) as [->|Hne].
  - destruct (decide (j < length l)%nat) as [Hlt|Hge].
    + rewrite list_lookup_insert_eq in Hj by done. injection Hj as ->. by left.
    + rewrite list_insert_ge in Hj by lia. right. by eapply list_elem_of_lookup_2.
  - rewrite list_lookup_insert_ne in Hj by done. right. by eapply list_elem_of_lookup_2.
Qed.

Section one_call.
Context (m m' : memory) (calls : list call) (i : nat) (x : call) (p : position).
Hypothesis Hi : calls !! i = Some x.
Hypothesis Hstep : call_step (call_lifecycle x) (call_at x) m = Some (m', p).
Hypothesis Hgate : same_gate m m'.

Let after : list call := <[i := set_position p x]> calls.

Lemma stepped_in : x ∈ calls.
Proof using Hi. by eapply list_elem_of_lookup_2. Qed.

Lemma ordinary_step : ordinary calls → ordinary after.
Proof using Hi Hstep.
  destruct (call_step_open _ _ _ _ _ Hstep) as (_ & _ & Hb & _).
  intros H y [->|Hy]%elem_update Hord; [|by apply H]. cbn in *. intros E. by apply (H x stepped_in Hord), Hb.
Qed.

Lemma settled_step : replacement_gate_closed m = true → settled calls → settled after.
Proof using Hi Hstep.
  destruct (call_step_open _ _ _ _ _ Hstep) as (Ha & Ho & _).
  intros Hc H y [->|Hy]%elem_update; [|by apply H]. cbn. destruct (H x stepped_in) as [H1 H2].
  split; intros E; [destruct (Ha E); congruence|destruct (Ho E); congruence].
Qed.

Lemma shut_step : ordinary calls → shut m calls → shut m' after.
Proof using Hi Hstep Hgate.
  intros Hord (Hc & Hs & Ha). split_and!; [destruct Hgate; congruence|by apply settled_step|].
  destruct (call_step_open _ _ _ _ _ Hstep) as (_ & _ & _ & Hact).
  intros y [->|Hy]%elem_update Hb; [|by apply Ha]. cbn in *. destruct (is_active p) eqn:E; [|done].
  destruct (Hs x stepped_in) as [H1 _].
  destruct (Hact eq_refl) as [H|[H|H]]; [by rewrite Ha in H by (done || apply stepped_in)|done|].
  by destruct (Hord x stepped_in Hb).
Qed.
End one_call.

(** With the counters at zero. *)
Lemma settled_zero n s : base_inv n s → replacement_gate_transitions (sys_memory s) = 0 → settled (sys_calls s).
Proof.
  intros Hb Hz x Hx. pose proof (bi_counted _ _ Hb Transitions) as Hc. cbn in Hc. rewrite Hz in Hc.
  pose proof (count_zero Transitions _ x (eq_sym Hc) Hx) as H. unfold counted_call in H. cbn in H.
  unfold in_transition in H. split; intros E; by rewrite E in H.
Qed.

Lemma inactive_zero n s x : base_inv n s → replacement_active_calls (sys_memory s) = 0 → x ∈ sys_calls s →
  is_active (call_at x) = false.
Proof.
  intros Hb Hz Hx. pose proof (bi_counted _ _ Hb Active_calls) as Hc. cbn in Hc. rewrite Hz in Hc.
  exact (count_zero Active_calls _ x (eq_sym Hc) Hx).
Qed.

Lemma wake_call_settled x : settled_at (call_at (wake_call x)) = settled_at (call_at x) ∨
  ∃ epoch, call_at x = G_asleep epoch ∧ call_at (wake_call x) = G_epoch_wait epoch.
Proof. unfold wake_call. destruct (call_at x) eqn:E; rewrite ?E; eauto. Qed.

Lemma wake_call_bypass x : call_bypass (wake_call x) = call_bypass x.
Proof. unfold wake_call. by destruct (call_at x). Qed.

Lemma wake_call_active x : is_active (call_at (wake_call x)) = is_active (call_at x).
Proof.
  unfold is_active. destruct (wake_call_settled x) as [->|(e & E & ->)]; [done|]. by rewrite E.
Qed.

Lemma shut_wake m calls : shut m calls → shut m (wake_call <$> calls).
Proof.
  intros (Hc & Hs & Ha). split_and!; [done|..].
  - intros x (y & -> & Hy)%list_elem_of_fmap. destruct (wake_call_settled y) as [->|(e & E & ->)]; [auto|done].
  - intros x (y & -> & Hy)%list_elem_of_fmap. rewrite wake_call_bypass, wake_call_active. auto.
Qed.

Lemma ordinary_wake calls : ordinary calls → ordinary (wake_call <$> calls).
Proof.
  intros H x (y & -> & Hy)%list_elem_of_fmap. rewrite wake_call_bypass.
  destruct (wake_call_settled y) as [->|(e & E & ->)]; [auto|done].
Qed.

Lemma shut_inv_new : shut_inv gate_system_new.
Proof.
  split; try done; [by intros x ?%not_elem_of_nil|]. intros (pre & post & E & _).
  destruct pre; done.
Qed.

(** A new call is ordinary, or it passes the gate. *)
Lemma new_call_settled l state : settled_at (call_at (new_call l state)) = (if bypasses state then G_bypass else G_transition).
Proof. unfold new_call. cbn. by destruct (bypasses state). Qed.

Lemma shut_new m calls l state : shut m calls → shut m (calls ++ [new_call l state]).
Proof.
  intros (Hc & Hs & Ha). split_and!; [done|..].
  - intros x [Hx|Hx%list_elem_of_singleton]%elem_of_app; [auto|]. subst x. rewrite new_call_settled.
    by destruct (bypasses state).
  - intros x [Hx|Hx%list_elem_of_singleton]%elem_of_app Hb; [auto|]. subst x. cbn in *. by rewrite Hb.
Qed.

Lemma ordinary_new calls l state : ordinary calls → ordinary (calls ++ [new_call l state]).
Proof.
  intros H x [Hx|Hx%list_elem_of_singleton]%elem_of_app Hb; [auto|]. subst x. rewrite new_call_settled.
  cbn in Hb. by rewrite Hb.
Qed.

Lemma settled_new calls l state : settled calls → settled (calls ++ [new_call l state]).
Proof.
  intros H x [Hx|Hx%list_elem_of_singleton]%elem_of_app; [auto|]. subst x. rewrite new_call_settled.
  by destruct (bypasses state).
Qed.

(** The coordinator while it is woken. *)
Lemma woken_same k : waiting (is_woken k) = waiting k ∧ answered (is_woken k) = answered k ∧
  (predicate_at (is_woken k) = predicate_at k).
Proof. by destruct k. Qed.

(** The predicate of [close_and_wait] has two loads: after the first the calls have
    settled, after the second the gate is shut. *)
Lemma close_loads n s todo : base_inv n s → shut_inv s →
  waiting (sys_coordinator s) = Some W_close → predicate_at (sys_coordinator s) = Some todo →
  (todo = watched W_close ∧ (replacement_gate_transitions (sys_memory s) = 0 → settled (sys_calls s))) ∨
  (todo = [Active_calls] ∧ (replacement_active_calls (sys_memory s) = 0 → shut (sys_memory s) (sys_calls s))).
Proof.
  intros Hb Hs Hw Ht. destruct (si_todo _ Hs _ Hw Ht) as [->|[-> Hset]]; [left|right]; (split; [done|]).
  - intros Hz. by eapply settled_zero.
  - intros Hz. split_and!; [by apply Hs|done|]. intros x Hx _. by eapply inactive_zero.
Qed.

(** A deed that neither opens the gate nor says it is shut. *)
Lemma granted_other deeds more : Forall (λ d, d ≠ Returned W_close true) more →
  granted (deeds ++ more) → granted deeds.
Proof.
  induction more as [|d more IH] using rev_ind; [by rewrite app_nil_r|].
  rewrite Forall_app, Forall_singleton, app_assoc. intros [Hm Hd] [[? _]|?]%granted_snoc; [auto|done].
Qed.

(** How far the coordinator is with a wait: every load of the predicate was a zero. *)
Lemma coordinator_loads w k flag m m' k' deeds : coordinator_step k flag m = (m', k', deeds) →
  (waiting k' = Some w → waiting k = Some w ∨ (w = W_close ∧ k = K_close)) ∧
  (∀ todo, waiting k' = Some w → predicate_at k' = Some todo → todo = watched w ∨
     ∃ c, todo ≠ [] ∧ waiting k = Some w ∧ predicate_at k = Some (c :: todo) ∧ read_counter c m = 0) ∧
  ((waiting k' = Some w ∧ answered k' = true) ∨ Returned w true ∈ deeds → waiting k = Some w ∧
     (answered k = true ∨ predicate_at k = Some [] ∨
      ∃ c, predicate_at k = Some [c] ∧ read_counter c m = 0)).
Proof.
  intros Hk.
  destruct k as [| |v todo|v|v|v e todo|v e|v e|v e|v todo|v answer| | | |];
    cbn in Hk; injection Hk as <- <- <-; cbn [waiting predicate_at answered];
    try (destruct todo as [|c [|c' todo]]; cbn [predicate_step];
         [|destruct (Z.eqb_spec (read_counter c m) 0)..]);
    try destruct flag; try destruct (_ =? _); cbn [waiting predicate_at answered];
    (split_and!; [intros|intros ? ? ?|intros [[? ?]|?]]); set_unfold;
    repeat match goal with H : _ ∨ _ |- _ => destruct H end; simplify_eq; try done; auto 10; naive_solver.
Qed.

Lemma coordinator_memory k flag m m' k' deeds : coordinator_step k flag m = (m', k', deeds) →
  replacement_gate_closed m' =
    (match k with K_close => true | K_open => false | _ => replacement_gate_closed m end) ∧
  (∀ l, route_ (lifecycles m' l) =
    match k with K_route l' r => if decide (l = l') then r else route_ (lifecycles m l) | _ => route_ (lifecycles m l) end) ∧
  (Opened ∈ deeds ↔ k = K_open) ∧ (k = K_open → deeds = [Opened]).
Proof.
  intros Hk. destruct k; cbn in Hk; injection Hk as <- <- <-; cbn; (split_and!; [done|intros l'|split; intros|intros]); try done;
    try (case_decide; by subst); try (by set_unfold; naive_solver).
  all: repeat case_match; set_unfold; naive_solver.
Qed.

Lemma shut_memory m m' calls : shut m calls → replacement_gate_closed m' = true → shut m' calls.
Proof. by intros (_ & ? & ?) ?. Qed.

Lemma shut_inv_step n s choice s' : 0 ≤ n < 2 ^ 32 - 1 → base_inv n s → base_inv (n + 1) s' → shut_inv s →
  gate_step s choice = Some s' → shut_inv s'.
Proof.
  intros Hn Hb _ Hs Hstep. destruct choice as [l state|i|c|flag]; cbn [gate_step] in Hstep.
  - injection Hstep as <-. destruct Hs as [H1 H2 H3 H4 H5]. split; cbn; auto using ordinary_new, shut_new.
    intros todo Hw Ht. destruct (H3 todo Hw Ht) as [|[? ?]]; auto using settled_new.
  - destruct (sys_calls s !! i) as [x|] eqn:Hi; [|by injection Hstep as <-].
    destruct (base_call_step n s i x Hb ltac:(lia) Hi) as (m & p & Hrun & [_ Hgate _ _]).
    rewrite Hrun in Hstep. injection Hstep as <-. destruct Hs as [H1 H2 H3 H4 H5].
    assert (Hk : ∀ b : bool, let k := if b then is_woken (sys_coordinator s) else sys_coordinator s in
      waiting k = waiting (sys_coordinator s) ∧ answered k = answered (sys_coordinator s) ∧
      predicate_at k = predicate_at (sys_coordinator s)).
    { intros []; [apply woken_same|done]. }
    destruct (Hk (is_wake (call_at x))) as (Ew & Ea & Ep).
    pose proof (shut_step _ _ _ _ _ _ Hi Hrun Hgate H1) as Hshut.
    split; cbn [sys_calls sys_memory sys_coordinator sys_deeds fst snd]; cbv zeta in *; rewrite ?Ew, ?Ea, ?Ep.
    + by eapply ordinary_step.
    + intros Hw. destruct Hgate as [-> _]. auto.
    + intros todo Hw Ht. destruct (H3 todo Hw Ht) as [|[? Hset]]; [by left|right]. split; [done|].
      eapply settled_step; eauto.
    + auto.
    + auto.
  - injection Hstep as <-. destruct Hs as [H1 H2 H3 H4 H5]. destruct (sys_coordinator s) eqn:Hk; split; rewrite ?Hk; auto;
      cbn [sys_calls sys_memory sys_coordinator sys_deeds]; destruct c; done.
  - destruct (coordinator_step _ _ _) as [[m k] deeds] eqn:Hk. injection Hstep as <-.
    destruct (coordinator_loads W_close _ _ _ _ _ _ Hk) as (Hwait & Htodo & Hanswer).
    destruct (coordinator_memory _ _ _ _ _ _ Hk) as (Hcl & _ & Hop & Hop').
    pose proof (close_loads n s) as Hloads. destruct Hs as [H1 H2 H3 H4 H5] eqn:Hs'. clear Hs'.
    set (calls := match sys_coordinator s with K_open_notify => wake_call <$> sys_calls s | _ => sys_calls s end).
    assert (Hcalls : ∀ m', shut m' (sys_calls s) → shut m' calls).
    { intros m' H. unfold calls. destruct (sys_coordinator s); auto using shut_wake. }
    assert (Hshut : (waiting k = Some W_close ∧ answered k = true) ∨ Returned W_close true ∈ deeds →
      shut (sys_memory s) (sys_calls s)).
    { intros [Hw [Ha|[Ht|(c & Ht & Hz)]]]%Hanswer; [by apply H4| |].
      - by destruct (H3 _ Hw Ht) as [?|[? _]].
      - destruct (Hloads _ Hb Hs Hw Ht) as [[? _]|[E Hsh]]; [done|]. injection E as ->. by apply Hsh. }
    assert (Hopen : waiting k = Some W_close → sys_coordinator s ≠ K_open).
    { intros Hw E. rewrite E in Hk. injection Hk as <- <- <-. done. }
    assert (Hclosed : sys_coordinator s ≠ K_open → replacement_gate_closed (sys_memory s) = true →
      replacement_gate_closed m = true).
    { intros Hne Ht. rewrite Hcl. by destruct (sys_coordinator s). }
    split; cbn [sys_calls sys_memory sys_coordinator sys_deeds].
    + unfold calls. destruct (sys_coordinator s); auto using ordinary_wake.
    + intros Hw. destruct (Hwait Hw) as [Hw'|[_ E]]; [auto|]. by rewrite Hcl, E.
    + intros todo Hw Ht. destruct (Htodo todo Hw Ht) as [->|(c & Hne & Hw' & Ht' & Hz)]; [by left|right].
      destruct (Hloads _ Hb Hs Hw' Ht') as [[E Hset]|[E Hset]]; injection E as -> ->; [|done].
      split; [done|]. unfold calls. destruct (sys_coordinator s); auto; done.
    + intros Hw Ha. apply Hcalls. eapply shut_memory; [by apply Hshut; left|]. apply Hclosed; [auto|]. 
      by apply Hshut; left.
    + intros Hg. destruct (decide (Returned W_close true ∈ deeds)) as [Hin|Hin].
      * assert (sys_coordinator s ≠ K_open) as Hne.
        { intros E. rewrite (Hop' E) in Hin. set_unfold. by destruct Hin. }
        apply Hcalls. eapply shut_memory; [by apply Hshut; right|]. apply Hclosed; [done|]. by apply Hshut; right.
      * assert (sys_coordinator s ≠ K_open) as Hne.
        { intros E. rewrite (Hop' E) in Hg. by apply granted_snoc in Hg as [[_ ?]|?]. }
        apply granted_other in Hg; [|apply Forall_forall; intros d Hd ->; done].
        apply Hcalls. eapply shut_memory; [by apply H5|]. apply Hclosed; [done|]. by apply H5.
Qed.

(** ** Recording stops *)

Section recording.
Context (l : nat).

Definition unrecorded (m : memory) (calls : list call) : Prop :=
  route_ (lifecycles m l) ≠ Route_kRecord ∧
  ∀ x, x ∈ calls → call_lifecycle x = l →
    settled_at (call_at x) ≠ L_count Route_kRecord ∧ settled_at (call_at x) ≠ L_count_recording.

Definition quiet (m : memory) (calls : list call) : Prop :=
  unrecorded m calls ∧ ∀ x, x ∈ calls → call_lifecycle x = l → is_recording (call_at x) = false.

Definition last_route (deeds : list deed) : ReplacementRoute :=
  foldl (λ r d, match d with Routed k r' => if decide (l = k) then r' else r | _ => r end) Route_kTarget deeds.

(** A wait for the recording calls has returned true while the route was not to
    record, and recording has not started since. *)
Definition quieted (deeds : list deed) : Prop :=
  ∃ pre post, deeds = pre ++ Returned (W_recording l) true :: post ∧
    last_route pre ≠ Route_kRecord ∧ Routed l Route_kRecord ∉ post.

Lemma quieted_snoc deeds d : quieted (deeds ++ [d]) →
  (quieted deeds ∧ d ≠ Routed l Route_kRecord) ∨
  (d = Returned (W_recording l) true ∧ last_route deeds ≠ Route_kRecord).
Proof.
  intros (pre & post & E & Hpre & Hpost). destruct post as [|d' post _] using rev_ind.
  - apply app_inj_tail in E as [-> ->]. by right.
  - rewrite app_comm_cons, app_assoc in E. apply app_inj_tail in E as [-> <-].
    rewrite elem_of_app, list_elem_of_singleton in Hpost. left. split; [|naive_solver].
    exists pre, post. split_and!; [done|done|naive_solver].
Qed.

Record record_inv (s : gate_system) : Prop := {
  ri_todo todo : waiting (sys_coordinator s) = Some (W_recording l) →
    predicate_at (sys_coordinator s) = Some todo →
    todo = watched (W_recording l) ∨ (todo = [Recording_in_flight l] ∧
      (route_ (lifecycles (sys_memory s) l) ≠ Route_kRecord → unrecorded (sys_memory s) (sys_calls s)));
  ri_answer : waiting (sys_coordinator s) = Some (W_recording l) → answered (sys_coordinator s) = true →
    route_ (lifecycles (sys_memory s) l) ≠ Route_kRecord → quiet (sys_memory s) (sys_calls s);
  ri_route : route_ (lifecycles (sys_memory s) l) = last_route (sys_deeds s);
  ri_quiet : quieted (sys_deeds s) → quiet (sys_memory s) (sys_calls s);
}.

Lemma call_step_recording k p m m' p' : call_step k p m = Some (m', p') →
  (settled_at p' = L_count Route_kRecord →
     settled_at p = L_count Route_kRecord ∨ route_ (lifecycles m k) = Route_kRecord) ∧
  (settled_at p' = L_count_recording →
     settled_at p = L_count_recording ∨ settled_at p = L_count Route_kRecord) ∧
  (is_recording p' = true → is_recording p = true ∨ settled_at p = L_count_recording).
Proof.
  intros Hstep%call_step_successor. unfold is_recording. rewrite Hstep.
  destruct p; cbn [successor]; try (by auto); cbn [settled_at];
    repeat (case_match || case_decide); simplify_eq; split_and!; intros; simplify_eq; try done; auto.
Qed.

Section one_call.
Context (m m' : memory) (calls : list call) (i : nat) (x : call) (p : position).
Hypothesis Hi : calls !! i = Some x.
Hypothesis Hstep : call_step (call_lifecycle x) (call_at x) m = Some (m', p).
Hypothesis Hgate : same_gate m m'.

Lemma unrecorded_step : unrecorded m calls → unrecorded m' (<[i := set_position p x]> calls).
Proof using Hi Hstep Hgate.
  destruct (call_step_recording _ _ _ _ _ Hstep) as (Ha & Ho & _). destruct Hgate as (_ & _ & _ & Hr).
  intros [Hroute H]. split; [by rewrite Hr|].
  intros y [->|Hy]%elem_update Hl; [|by apply H]. cbn in *.
  destruct (H x (stepped_in _ _ _ Hi) Hl) as [H1 H2].
  split; intros E; [destruct (Ha E); congruence|destruct (Ho E); congruence].
Qed.

Lemma quiet_step : quiet m calls → quiet m' (<[i := set_position p x]> calls).
Proof using Hi Hstep Hgate.
  destruct (call_step_recording _ _ _ _ _ Hstep) as (_ & _ & Hrec). intros [Hu H].
  split; [by apply unrecorded_step|]. intros y [->|Hy]%elem_update Hl; [|by apply H]. cbn in *.
  destruct (is_recording p) eqn:E; [|done]. pose proof (stepped_in _ _ _ Hi) as Hx.
  destruct (Hrec eq_refl) as [Hr|Hr]; [by rewrite (H x Hx Hl) in Hr|].
  destruct Hu as [_ Hu]. by destruct (Hu x Hx Hl).
Qed.
End one_call.

Lemma new_call_unrecorded m calls k state : unrecorded m calls → unrecorded m (calls ++ [new_call k state]).
Proof.
  intros [Hr H]. split; [done|]. intros x [Hx|Hx%list_elem_of_singleton]%elem_of_app Hl; [auto|].
  subst x. rewrite new_call_settled. by destruct (bypasses state).
Qed.
Lemma new_call_quiet m calls k state : quiet m calls → quiet m (calls ++ [new_call k state]).
Proof.
  intros [Hu H]. split; [by apply new_call_unrecorded|].
  intros x [Hx|Hx%list_elem_of_singleton]%elem_of_app Hl; [auto|].
  subst x. unfold is_recording. rewrite new_call_settled. by destruct (bypasses state).
Qed.

Lemma wake_unrecorded m calls : unrecorded m calls → unrecorded m (wake_call <$> calls).
Proof.
  intros [Hr H]. split; [done|]. intros x (y & -> & Hy)%list_elem_of_fmap Hl.
  assert (call_lifecycle y = l) as Hl' by (revert Hl; unfold wake_call; by destruct (call_at y)).
  destruct (wake_call_settled y) as [->|(e & _ & ->)]; [auto|done].
Qed.
Lemma wake_quiet m calls : quiet m calls → quiet m (wake_call <$> calls).
Proof.
  intros [Hu H]. split; [by apply wake_unrecorded|]. intros x (y & -> & Hy)%list_elem_of_fmap Hl.
  assert (call_lifecycle y = l) as Hl' by (revert Hl; unfold wake_call; by destruct (call_at y)).
  unfold is_recording. destruct (wake_call_settled y) as [->|(e & _ & ->)]; [by apply H|done].
Qed.

Lemma quiet_memory m m' calls : route_ (lifecycles m' l) ≠ Route_kRecord → quiet m calls → quiet m' calls.
Proof. intros Hr [[_ ?] ?]. by split. Qed.

(** The two loads of the wait for recording calls. *)
Lemma recording_loads n s todo : base_inv n s → record_inv s →
  waiting (sys_coordinator s) = Some (W_recording l) → predicate_at (sys_coordinator s) = Some todo →
  (todo = watched (W_recording l) ∧ (entry_transitions_ (lifecycles (sys_memory s) l) = 0 →
     route_ (lifecycles (sys_memory s) l) ≠ Route_kRecord → unrecorded (sys_memory s) (sys_calls s))) ∨
  (todo = [Recording_in_flight l] ∧ (recording_in_flight_ (lifecycles (sys_memory s) l) = 0 →
     route_ (lifecycles (sys_memory s) l) ≠ Route_kRecord → quiet (sys_memory s) (sys_calls s))).
Proof.
  intros Hb Hs Hw Ht. destruct (ri_todo _ Hs _ Hw Ht) as [->|[-> Hun]]; [left|right]; (split; [done|]); intros Hz Hr.
  - split; [done|]. intros x Hx Hl. pose proof (bi_counted _ _ Hb (Entry_transitions l)) as Hc. cbn in Hc.
    rewrite Hz in Hc. pose proof (count_zero (Entry_transitions l) _ x (eq_sym Hc) Hx) as H.
    unfold counted_call in H. cbn in H. rewrite bool_decide_true in H by done. unfold is_entering in H.
    split; intros E; by rewrite E in H.
  - split; [auto|]. intros x Hx Hl. pose proof (bi_counted _ _ Hb (Recording_in_flight l)) as Hc. cbn in Hc.
    rewrite Hz in Hc. pose proof (count_zero (Recording_in_flight l) _ x (eq_sym Hc) Hx) as H.
    unfold counted_call in H. cbn in H. by rewrite bool_decide_true in H by done.
Qed.

Lemma record_inv_new : record_inv gate_system_new.
Proof. split; try done. intros (pre & post & E & _). by destruct pre. Qed.

(** What the coordinator has told is told one by one. *)
Lemma coordinator_deeds k flag m m' k' deeds : coordinator_step k flag m = (m', k', deeds) →
  deeds = [] ∨ ∃ d, deeds = [d] ∧ (∀ r, d = Routed l r ↔ k = K_route l r) ∧
    (waiting k ≠ None → ∃ w b, d = Returned w b).
Proof.
  intros Hk. destruct k as [| |w todo|w|w|w e todo|w e|w e|w e|w todo|w answer| | | |l' r'];
    cbn in Hk; injection Hk as <- <- <-; auto.
  - destruct todo as [|c [|? ?]]; auto. destruct (_ =? 0); auto. right. eexists. split; [done|].
    split; [naive_solver|eauto].
  - right. eexists. split; [done|]. split; [naive_solver|eauto].
  - right. eexists. split; [done|]. split; [naive_solver|done].
  - right. eexists. split; [done|]. split; [naive_solver|done].
Qed.

Lemma last_route_snoc deeds d : last_route (deeds ++ [d]) =
  match d with Routed k r => if decide (l = k) then r else last_route deeds | _ => last_route deeds end.
Proof. unfold last_route. by rewrite foldl_app. Qed.

Lemma coordinator_last_route k flag m m' k' deeds told : coordinator_step k flag m = (m', k', deeds) →
  route_ (lifecycles m l) = last_route told → route_ (lifecycles m' l) = last_route (told ++ deeds).
Proof.
  intros Hk Hr. destruct k as [| |w todo|w|w|w e todo|w e|w e|w e|w todo|w answer| | | |l' r'];
    cbn in Hk; injection Hk as <- <- <-; rewrite ?app_nil_r; try done.
  - destruct todo as [|c [|? ?]]; rewrite ?app_nil_r; try done.
    destruct (_ =? 0); [by rewrite last_route_snoc|by rewrite app_nil_r].
  - by rewrite last_route_snoc.
  - by rewrite last_route_snoc.
  - rewrite last_route_snoc. cbn. case_decide; by subst.
Qed.

Lemma record_inv_step n s choice s' : 0 ≤ n < 2 ^ 32 - 1 → base_inv n s → base_inv (n + 1) s' → record_inv s →
  gate_step s choice = Some s' → record_inv s'.
Proof.
  intros Hn Hb _ Hs Hstep. destruct choice as [k state|i|c|flag]; cbn [gate_step] in Hstep.
  - injection Hstep as <-. destruct Hs as [H1 H2 H3 H4]. split; cbn; auto using new_call_quiet.
    intros todo Hw Ht. destruct (H1 todo Hw Ht) as [|[? ?]]; auto using new_call_unrecorded.
  - destruct (sys_calls s !! i) as [x|] eqn:Hi; [|by injection Hstep as <-].
    destruct (base_call_step n s i x Hb ltac:(lia) Hi) as (m & p & Hrun & [_ Hgate _ _]).
    rewrite Hrun in Hstep. injection Hstep as <-. destruct Hs as [H1 H2 H3 H4].
    assert (Hk : let k := if is_wake (call_at x) then is_woken (sys_coordinator s) else sys_coordinator s in
      waiting k = waiting (sys_coordinator s) ∧ answered k = answered (sys_coordinator s) ∧
      predicate_at k = predicate_at (sys_coordinator s)).
    { cbv zeta. destruct (is_wake _); [apply woken_same|done]. }
    destruct Hk as (Ew & Ea & Ep). pose proof (quiet_step _ _ _ _ _ _ Hi Hrun Hgate) as Hquiet.
    assert (Hr : route_ (lifecycles m l) = route_ (lifecycles (sys_memory s) l)) by apply Hgate.
    split; cbn [sys_calls sys_memory sys_coordinator sys_deeds fst snd]; cbv zeta in *; rewrite ?Ew, ?Ea, ?Ep, ?Hr; auto.
    intros todo Hw Ht. destruct (H1 todo Hw Ht) as [|[? Hun]]; [by left|right]. split; [done|].
    intros Hne. eapply unrecorded_step; eauto.
  - injection Hstep as <-. destruct Hs as [H1 H2 H3 H4]. destruct (sys_coordinator s) eqn:Hk; split; rewrite ?Hk; auto;
      cbn [sys_calls sys_memory sys_coordinator sys_deeds]; destruct c; cbn; try done.
    intros todo [= ->] [= <-]. by left.
  - destruct (coordinator_step _ _ _) as [[m k] deeds] eqn:Hk. injection Hstep as <-.
    destruct (coordinator_loads (W_recording l) _ _ _ _ _ _ Hk) as (Hwait & Htodo & Hanswer).
    destruct (coordinator_memory _ _ _ _ _ _ Hk) as (_ & Hroute & _).
    pose proof (recording_loads n s) as Hloads. pose proof Hs as [H1 H2 H3 H4].
    set (calls := match sys_coordinator s with K_open_notify => wake_call <$> sys_calls s | _ => sys_calls s end).
    assert (Hcalls : ∀ m', quiet m' (sys_calls s) → quiet m' calls).
    { intros m' H. unfold calls. destruct (sys_coordinator s); auto using wake_quiet. }
    assert (Hquiet : (waiting k = Some (W_recording l) ∧ answered k = true) ∨ Returned (W_recording l) true ∈ deeds →
      route_ (lifecycles (sys_memory s) l) ≠ Route_kRecord → quiet (sys_memory s) (sys_calls s)).
    { intros [Hw [Ha|[Ht|(c & Ht & Hz)]]]%Hanswer Hr; [by apply H2| |].
      - by destruct (H1 _ Hw Ht) as [?|[? _]].
      - destruct (Hloads _ Hb Hs Hw Ht) as [[? _]|[E Hsh]]; [done|]. injection E as ->. by apply Hsh. }
    assert (Hsame : waiting (sys_coordinator s) = Some (W_recording l) →
      route_ (lifecycles m l) = route_ (lifecycles (sys_memory s) l)).
    { intros Hw. rewrite Hroute. by destruct (sys_coordinator s). }
    split; cbn [sys_calls sys_memory sys_coordinator sys_deeds].
    + intros todo Hw Ht. destruct (Htodo todo Hw Ht) as [->|(c & Hne & Hw' & Ht' & Hz)]; [by left|right].
      destruct (Hloads _ Hb Hs Hw' Ht') as [[E Hset]|[E Hset]]; injection E as -> ->; [|done].
      split; [done|]. rewrite (Hsame Hw'). intros Hr. destruct (Hset Hz Hr) as [_ Hu].
      assert (unrecorded m (sys_calls s)) as Hun by (split; [by rewrite (Hsame Hw')|done]).
      unfold calls. destruct (sys_coordinator s); auto; done.
    + intros Hw Ha Hr. apply Hcalls. eapply quiet_memory; [done|]. apply Hquiet; [by left|].
      destruct (Hwait Hw) as [Hw'|[? _]]; [|done]. by rewrite <- (Hsame Hw').
    + by eapply coordinator_last_route.
    + intros Hq. assert (Hstay : quieted (sys_deeds s) → (∀ r, sys_coordinator s = K_route l r → r ≠ Route_kRecord) →
        quiet m calls).
      { intros Hold Hk'. apply Hcalls. pose proof (H4 Hold) as Hqu. eapply quiet_memory; [|exact Hqu].
        rewrite Hroute. destruct Hqu as [[Hne _] _]. destruct (sys_coordinator s); try done.
        case_decide; [subst; by eapply Hk'|done]. }
      destruct (coordinator_deeds _ _ _ _ _ _ Hk) as [->|(d & -> & Hd & Hd')].
      * rewrite app_nil_r in Hq. apply Hstay; [done|]. intros r E ->. rewrite E in Hk. by injection Hk.
      * apply quieted_snoc in Hq as [[Hq Hne]|[-> Hlast]].
        -- apply Hstay; [done|]. intros r E ->. by apply Hne, Hd.
        -- assert (Hin : Returned (W_recording l) true ∈ [Returned (W_recording l) true]) by (by left).
           destruct (Hanswer (or_intror Hin)) as [Hw _]. apply Hcalls. eapply quiet_memory.
           ++ rewrite (Hsame Hw), H3. done.
           ++ apply Hquiet; [by right|]. by rewrite H3.
Qed.
End recording.
