(* ===== verification/GateLiveness.v ===== *)
(** * Nobody sleeps through what they wait for

    A call asleep on the gate epoch has the gate closed in front of it, or an [open]
    under way that wakes it; the coordinator asleep on the quiescence epoch has a
    counter it watches above zero, or a call on its way to wake it.  While the gate
    stays open, a call comes through in a bounded number of its own steps, whatever
    the others do in between. *)

From S2P Require Import Prelude HookGuard ReplacementGate GateInvariant GateTheorems.

(** ** Sleeping calls *)

(** Positions between the load of the gate epoch and the sleep on it. *)
Definition epoch_of (p : position) : option Z :=
  match p with G_still_closed e | G_epoch_wait e | G_asleep e => Some e | _ => None end.
Definition about_to_sleep (p : position) : option Z :=
  match p with G_epoch_wait e | G_asleep e => Some e | _ => None end.

Record call_sleep (closed : bool) (epoch : Z) (k : coordinator) (p : position) : Prop := {
  cs_plain : p = settled_at p ∨ epoch_of (settled_at p) = None;
  cs_epoch e : epoch_of p = Some e → e ≤ epoch;
  cs_current e : about_to_sleep p = Some e → e = epoch → closed = true ∨ k = K_open_bump;
  cs_asleep e : p = G_asleep e → closed = true ∨ k = K_open_bump ∨ k = K_open_notify;
}.

(** ** The sleeping coordinator *)

Definition busy (w : wait_kind) (m : memory) : Prop := ∃ c, c ∈ watched w ∧ read_counter c m ≠ 0.

Definition some_call (P : position → bool) (calls : list call) : Prop := ∃ x, x ∈ calls ∧ P (call_at x) = true.

Definition waking (p : position) : bool := is_notifying p || is_wake p.

Definition coordinator_sleep (m : memory) (calls : list call) (k : coordinator) : Prop :=
  match k with
  | K_check w e todo => e ≤ quiescence_epoch m ∧ ∀ c, c ∈ todo → c ∈ watched w
  | K_deadline w e | K_wait w e =>
      e ≤ quiescence_epoch m ∧ (e = quiescence_epoch m → busy w m ∨ some_call is_notifying calls)
  | K_asleep w e => busy w m ∨ some_call waking calls
  | _ => True
  end.

Record sleep_inv (s : gate_system) : Prop := {
  sl_calls x : x ∈ sys_calls s →
    call_sleep (replacement_gate_closed (sys_memory s)) (replacement_gate_epoch (sys_memory s))
      (sys_coordinator s) (call_at x);
  sl_coordinator : coordinator_sleep (sys_memory s) (sys_calls s) (sys_coordinator s);
}.

Lemma sleep_inv_new : sleep_inv gate_system_new.
Proof. split; [by intros x ?%not_elem_of_nil|done]. Qed.

Lemma settled_plain p : match settled_at p with Notify _ | Bump _ | Wake _ => False | _ => True end.
Proof. by induction p. Qed.

(** A step leaves the notification of a counter before anything else. *)
Lemma call_step_plain l p m m' p' : call_step l p m = Some (m', p') → p = settled_at p ∨ epoch_of (settled_at p) = None →
  p' = settled_at p' ∨ epoch_of (settled_at p') = None.
Proof.
  intros Hstep Hp. pose proof (call_step_successor _ _ _ _ _ Hstep) as E.
  destruct p; cbn [successor] in E; cbn [settled_at] in Hp;
    try (right; rewrite E; by repeat case_match);
    try (destruct Hp as [Hp|Hp]; [pose proof (settled_plain p) as Hb; by rewrite <- Hp in Hb|right; by rewrite E]);
    cbn [call_step] in Hstep; injection Hstep as <- <-; left; by repeat case_match.
Qed.

Lemma call_sleep_step l closed epoch k p m m' p' : replacement_gate_closed m = closed →
  replacement_gate_epoch m = epoch → call_step l p m = Some (m', p') →
  call_sleep closed epoch k p → call_sleep closed epoch k p'.
Proof.
  intros Hc He Hstep [Hplain Hep Hcur Has]. pose proof (call_step_plain _ _ _ _ _ Hstep Hplain) as Hplain'.
  assert (Hnone : epoch_of p' = None → call_sleep closed epoch k p').
  { intros Hn. split; [done|..]; intros e H; destruct p'; try done. }
  pose proof (call_step_successor _ _ _ _ _ Hstep) as E.
  destruct Hplain' as [Hp'|Hn]; [|apply Hnone; by destruct p'].
  rewrite <- Hp' in E. destruct p; cbn [successor] in E; try (apply Hnone; rewrite E; by repeat case_match).
  - rewrite E. split; [by left|intros e [= <-]; lia|done..].
  - rewrite Hc in E. destruct closed; [|by apply Hnone; rewrite E].
    rewrite E. split; [by left|intros e [= <-]; by apply Hep|by left|done].
  - rewrite He in E. destruct (Z.eqb_spec epoch epoch0) as [<-|]; [|by apply Hnone; rewrite E].
    rewrite E. split; [by left|intros e [= <-]; lia|by apply Hcur|].
    intros e _. destruct (Hcur epoch eq_refl eq_refl); auto.
  - rewrite E. by split.
  - destruct Hplain as [Hp|Hp]; cbn in Hp; [pose proof (settled_plain p) as Hb; by rewrite <- Hp in Hb|apply Hnone; by rewrite E].
  - destruct Hplain as [Hp|Hp]; cbn in Hp; [pose proof (settled_plain p) as Hb; by rewrite <- Hp in Hb|apply Hnone; by rewrite E].
  - destruct Hplain as [Hp|Hp]; cbn in Hp; [pose proof (settled_plain p) as Hb; by rewrite <- Hp in Hb|apply Hnone; by rewrite E].
Qed.

(** ** The notification on its way *)

Section one_call.
Context (m m' : memory) (calls : list call) (i : nat) (x : call) (p : position).
Hypothesis Hi : calls !! i = Some x.
Hypothesis Hrun : call_step (call_lifecycle x) (call_at x) m = Some (m', p).
Hypothesis Hst : stepped (call_lifecycle x) (call_at x) p m m'.

#[local] Abbreviation after := (<[i := set_position p x]> calls).

Lemma busy_step w : busy w m → busy w m' ∨ some_call is_notifying after.
Proof using Hi Hst.
  intros (c & Hc & Hne). destruct (st_notifies _ _ _ _ _ Hst c Hne) as [H|H]; [left; by exists c|right].
  exists (set_position p x). split; [|done]. apply list_elem_of_lookup. exists i.
  apply list_lookup_insert_eq. by eapply lookup_lt_Some.
Qed.

Lemma moved_call P : P p = true → some_call P after.
Proof using Hi.
  intros H. exists (set_position p x). split; [|done]. apply list_elem_of_lookup. exists i.
  apply list_lookup_insert_eq. by eapply lookup_lt_Some.
Qed.

Lemma other_call P : some_call P calls → P (call_at x) = true ∨ some_call P after.
Proof using Hi.
  intros (y & (j & Hj)%list_elem_of_lookup & HP). destruct (decide (i = j)) as [E|Hne].
  - left. rewrite <- E, Hi in Hj. injection Hj as Hj. by rewrite Hj.
  - right. exists y. split; [|done]. apply list_elem_of_lookup. exists j.  by rewrite list_lookup_insert_ne.
Qed.

Lemma notifying_step : quiescence_waiters m ≠ 0 → some_call is_notifying calls →
  some_call is_notifying after ∨ ∃ next, call_at x = Bump next.
Proof using Hi Hrun Hst.
  intros Hw [H|H]%other_call; [|by left]. destruct (call_at x) eqn:E; try done; [|by right; eauto].
  left. cbn in Hrun. rewrite (proj2 (Z.eqb_neq _ _) Hw) in Hrun. injection Hrun as _ Hp. apply moved_call. by rewrite <- Hp.
Qed.

Lemma waking_step : quiescence_waiters m ≠ 0 → some_call waking calls →
  some_call waking after ∨ ∃ next, call_at x = Wake next.
Proof using Hi Hrun Hst.
  intros Hw [H|H]%other_call; [|by left]. destruct (call_at x) eqn:E; try done; [| |by right; eauto]; left.
  - cbn in Hrun. rewrite (proj2 (Z.eqb_neq _ _) Hw) in Hrun. injection Hrun as _ Hp. apply moved_call. by rewrite <- Hp.
  - cbn in Hrun. injection Hrun as _ Hp. apply moved_call. by rewrite <- Hp.
Qed.

Lemma some_call_mono P Q l : (∀ q, P q = true → Q q = true) → some_call P l → some_call Q l.
Proof. intros H (y & Hy & HP). exists y. auto. Qed.

Lemma coordinator_sleep_step n k : 0 ≤ quiescence_epoch m ≤ n → n < 2 ^ 32 - 1 →
  quiescence_waiters m = b2z (registered k) → coordinator_sleep m calls k →
  coordinator_sleep m' after (if is_wake (call_at x) then is_woken k else k).
Proof using Hi Hrun Hst.
  intros Hq Hn Hw Hk. pose proof (st_epoch _ _ _ _ _ Hst) as Hqe.
  assert (Hle : quiescence_epoch m ≤ quiescence_epoch m').
  { rewrite Hqe. destruct (call_at x); try lia. unfold wrap32. rewrite Z.mod_small by lia. lia. }
  assert (Hwait : quiescence_waiters m ≠ 0 → ∀ w e, e ≤ quiescence_epoch m ∧
    (e = quiescence_epoch m → busy w m ∨ some_call is_notifying calls) →
    e ≤ quiescence_epoch m' ∧ (e = quiescence_epoch m' → busy w m' ∨ some_call is_notifying after)).
  { intros Hne w e [He Hs]. split; [lia|]. intros ->. assert (quiescence_epoch m = quiescence_epoch m') as E by lia.
    destruct (Hs (eq_sym E)) as [[H|H]%busy_step|H]; [by left|by right|].
    destruct (notifying_step Hne H) as [|[next Hb]]; [by right|]. rewrite Hb in Hqe.
    unfold wrap32 in Hqe. rewrite Z.mod_small in Hqe by lia. lia. }
  destruct k as [| | | | |w e todo|w e|w e|w e| | | | | |]; try (by destruct (is_wake (call_at x))).
  - assert (coordinator_sleep m' after (K_check w e todo)); [|by destruct (is_wake _)].
    destruct Hk. split; [lia|done].
  - assert (coordinator_sleep m' after (K_deadline w e)); [|by destruct (is_wake _)].
    apply Hwait; [by rewrite Hw|done].
  - assert (coordinator_sleep m' after (K_wait w e)); [|by destruct (is_wake _)].
    apply Hwait; [by rewrite Hw|done].
  - assert (Hne : quiescence_waiters m ≠ 0) by by rewrite Hw.
    destruct (is_wake (call_at x)) eqn:E; [done|]. cbn in Hk |- *.
    destruct Hk as [[H|H]%busy_step|H]; [by left| |].
    + right. eapply some_call_mono; [|done]. intros q Hq'. unfold waking. by rewrite Hq'.
    + destruct (waking_step Hne H) as [|[next Hb]]; [by right|]. by rewrite Hb in E.
Qed.
End one_call.

(** ** The coordinator's own steps *)

Lemma coordinator_sleep_own k flag m m' k' deeds calls : coordinator_step k flag m = (m', k', deeds) →
  coordinator_sleep m calls k → coordinator_sleep m' calls k'.
Proof.
  intros Hk Hs. destruct k as [| |w todo|w|w|w e todo|w e|w e|w e|w todo|w answer| | | |l r];
    cbn in Hk; injection Hk as <- <- <-; try done.
  - by destruct (predicate_step_cases todo m (K_first w) K_idle (K_register w)) as [-> | [-> | [? ->]]].
  - destruct Hs as [He Hsub]. destruct todo as [|c [|c' todo]]; cbn [predicate_step]; [done|..];
      (destruct (Z.eqb_spec (read_counter c m) 0) as [|Hne];
       [|split; [done|]; intros _; left; exists c; split; [apply Hsub; by left|done]]).
    + done.
    + split; [done|]. intros d Hd. apply Hsub. by right.
  - by destruct flag.
  - destruct Hs as [He Hs]. destruct (Z.eqb_spec (quiescence_epoch m) e) as [<-|]; [|done].
    destruct (Hs eq_refl) as [H|H]; [by left|right]. eapply some_call_mono; [|done].
    intros q Hq. unfold waking. by rewrite Hq.
  - by destruct flag.
  - by destruct (predicate_step_cases todo m (K_final w) (K_unregister w true) (K_unregister w false)) as [-> | [-> | [? ->]]].
Qed.

Lemma call_sleep_coordinator n k flag m m' k' deeds p : 0 ≤ replacement_gate_epoch m ≤ n → n < 2 ^ 32 - 1 →
  coordinator_step k flag m = (m', k', deeds) → k ≠ K_open_notify →
  call_sleep (replacement_gate_closed m) (replacement_gate_epoch m) k p →
  call_sleep (replacement_gate_closed m') (replacement_gate_epoch m') k' p.
Proof.
  intros He Hn Hk Hne [Hp Hle Hcur Has].
  assert (Hclosed : ∀ e, p = G_asleep e → replacement_gate_closed m = true ∨ k = K_open_bump).
  { intros e E. destruct (Has e E) as [H|[H|H]]; auto; done. }
  destruct (coordinator_memory _ _ _ _ _ _ Hk) as [Hcl _].
  assert (Hepoch : replacement_gate_epoch m' = match k with K_open_bump => replacement_gate_epoch m + 1 | _ => replacement_gate_epoch m end).
  { destruct k; cbn in Hk; injection Hk as <- <- <-; try done. apply wrap64_small. word. }
  split; [done|..]; rewrite ?Hcl, ?Hepoch.
  - intros e E. specialize (Hle e E). destruct k; lia.
  - intros e E Heq. assert (Hle' : e ≤ replacement_gate_epoch m).
    { apply Hle. destruct p; try done. }
    destruct k; try (destruct (Hcur e E Heq) as [H|H]; [by left|done]); try (by left); cbn in Hk; injection Hk as <- <- <-;
      [by right|lia].
  - intros e E. destruct k; try (destruct (Hclosed e E) as [H|H]; [by left|done]); try (by left); cbn in Hk;
      injection Hk as <- <- <-; auto.
Qed.

Lemma call_sleep_wake closed epoch x : call_sleep closed epoch K_open_notify (call_at x) →
  call_sleep closed epoch K_idle (call_at (wake_call x)).
Proof.
  intros [Hp Hle Hcur Has].
  assert (Hcur' : ∀ e, about_to_sleep (call_at x) = Some e → e = epoch → closed = true ∨ K_idle = K_open_bump).
  { intros e E Heq. destruct (Hcur e E Heq) as [H|H]; [by left|done]. }
  assert (Hsame : (∀ e, call_at x ≠ G_asleep e) → call_sleep closed epoch K_idle (call_at x)).
  { intros Hne. split; [done..|]. intros e E. by destruct (Hne e). }
  unfold wake_call. destruct (call_at x) eqn:E; rewrite ?E; try (by apply Hsame).
  split; cbn [call_at]; [by left|intros e [= <-]; by apply Hle|intros e [= <-]; by apply Hcur'|done].
Qed.

Lemma sleep_inv_step n s choice s' : 0 ≤ n < 2 ^ 32 - 1 → base_inv n s → base_inv (n + 1) s' → sleep_inv s →
  gate_step s choice = Some s' → sleep_inv s'.
Proof.
  intros Hn Hb _ [Hcalls Hk0] Hstep. destruct choice as [l state|i|c|flag]; cbn [gate_step] in Hstep.
  - injection Hstep as <-. split; cbn.
    + intros x [Hx|Hx%list_elem_of_singleton]%elem_of_app; [auto|]. subst x. cbn.
      split; destruct (bypasses state); auto; done.
    + assert (Hmono : ∀ P, some_call P (sys_calls s) → some_call P (sys_calls s ++ [new_call l state])).
      { intros P (x & Hx & HP). exists x. split; [by apply elem_of_app; left|done]. }
      destruct (sys_coordinator s); try done; cbn in *; try (destruct Hk0 as [He Hk0]; split; [done|]);
        try (intros E; destruct (Hk0 E)); try destruct Hk0; auto.
  - destruct (sys_calls s !! i) as [x|] eqn:Hi; [|by injection Hstep as <-].
    destruct (base_call_step n s i x Hb ltac:(lia) Hi) as (m & p & Hrun & Hst).
    rewrite Hrun in Hstep. injection Hstep as <-. destruct (st_gate _ _ _ _ _ Hst) as (Hcl & Hge & _).
    assert (Hk : ∀ q, call_sleep (replacement_gate_closed (sys_memory s)) (replacement_gate_epoch (sys_memory s))
        (sys_coordinator s) q →
      call_sleep (replacement_gate_closed (sys_memory s)) (replacement_gate_epoch (sys_memory s))
        (if is_wake (call_at x) then is_woken (sys_coordinator s) else sys_coordinator s) q).
    { intros q [H1 H2 H3 H4]. destruct (is_wake _); [|done]. split; [done|done|..].
      - intros e E Heq. destruct (H3 e E Heq) as [H|H]; [by left|right; by rewrite H].
      - intros e E. destruct (H4 e E) as [H|[H|H]]; [by left|right; left; by rewrite H|right; right; by rewrite H]. }
    split; cbn [sys_calls sys_memory sys_coordinator fst snd].
    + rewrite Hcl, Hge. intros y [->|Hy]%elem_update; apply Hk; [|by apply Hcalls].
      cbn. eapply (call_sleep_step _ _ _ _ _ (sys_memory s)); [done|done|exact Hrun|]. apply Hcalls. by eapply list_elem_of_lookup_2.
    + eapply coordinator_sleep_step; [done|exact Hrun|exact Hst|apply Hb|lia|apply Hb|done].
  - injection Hstep as <-. destruct (sys_coordinator s) eqn:Hk; split; rewrite ?Hk; auto; cbn [sys_calls sys_memory sys_coordinator].
    + intros x Hx. destruct (Hcalls x Hx) as [H1 H2 H3 H4]. split; [done|done|..].
      * intros e E Heq. destruct (H3 e E Heq); [by left|done].
      * intros e E. destruct (H4 e E) as [?|[?|?]]; [by left|done|done].
    + by destruct c.
  - destruct (coordinator_step _ _ _) as [[m k] deeds] eqn:Hk. injection Hstep as <-.
    split; cbn [sys_calls sys_memory sys_coordinator].
    + destruct (decide (sys_coordinator s = K_open_notify)) as [E|E].
      * rewrite E in *. cbn in Hk. injection Hk as <- <- <-. intros x (y & -> & Hy)%list_elem_of_fmap.
        by apply call_sleep_wake, Hcalls.
      * intros x Hx. assert (x ∈ sys_calls s) as Hx' by (by destruct (sys_coordinator s)).
        eapply (call_sleep_coordinator n); [apply Hb|lia|exact Hk|exact E|by apply Hcalls].
    + assert (Hmono : ∀ P, (∀ q, P (call_at (wake_call q)) = P (call_at q)) → some_call P (sys_calls s) →
        some_call P (wake_call <$> sys_calls s)).
      { intros P HP (x & Hx & Hp). exists (wake_call x). split; [by apply list_elem_of_fmap_2|by rewrite HP]. }
      pose proof (coordinator_sleep_own _ _ _ _ _ _ _ Hk Hk0) as Hown.
      destruct (sys_coordinator s); try done. cbn in Hk. by injection Hk as <- <- <-.
Qed.

(** ** Coming through an open gate *)

(** The steps a call still needs to be inside, or to have left, while the gate is open.
    A counter that reaches zero takes up to three of them for its notification. *)
Fixpoint steps_left (p : position) : nat :=
  match p with
  | Inside _ | Finished => 0
  | L_entered _ => 4
  | L_count_recording => 5
  | L_count _ => 6
  | L_route => 7
  | L_enter => 8
  | G_bypass => 9
  | G_settle_open => 12
  | G_activate => 13
  | G_read_closed => 14
  | G_transition => 15
  | G_unwait => 19
  | G_still_closed _ => 20
  | G_load_epoch => 21
  | G_wait | G_epoch_wait _ => 22
  | G_asleep _ => 23
  | G_settle_closed => 26
  | G_leave => 4
  | L_leave _ => 8
  | L_leave_recording => 12
  | Notify next => 3 + steps_left next
  | Bump next => 2 + steps_left next
  | Wake next => 1 + steps_left next
  end.

Definition arrived (p : position) : bool := match p with Inside _ | Finished => true | _ => false end.

Lemma call_step_left l p m m' p' : replacement_gate_closed m = false →
  (∀ e, p = G_asleep e → False) → (∀ e, about_to_sleep p = Some e → e ≠ replacement_gate_epoch m) →
  arrived p = false → call_step l p m = Some (m', p') → (steps_left p' < steps_left p)%nat.
Proof.
  intros Hc Hns Hne Harr Hstep.
  assert (Hinc : ∀ c q, increment_or_terminate c q m = Some (m', p') → p' = q).
  { intros c q. unfold increment_or_terminate. destruct (_ =? _); [done|]. by intros [= _ <-]. }
  assert (Hdec : ∀ c q, decrement_or_terminate c q m = Some (m', p') → (steps_left p' ≤ 3 + steps_left q)%nat).
  { intros c q. unfold decrement_or_terminate. destruct (_ =? 0); [done|]. intros [= _ <-].
    destruct (_ =? 1); cbn; lia. }
  destruct p; cbn [call_step] in Hstep; try (apply Hinc in Hstep as ->; cbn; lia);
    try (apply Hdec in Hstep; cbn in *; lia); try done.
  - injection Hstep as _ <-. rewrite Hc. cbn. lia.
  - injection Hstep as _ <-. cbn. lia.
  - injection Hstep as _ <-. rewrite Hc. cbn. lia.
  - injection Hstep as _ <-. rewrite (proj2 (Z.eqb_neq _ _)) by (by apply not_eq_sym, Hne). cbn. lia.
  - by destruct (Hns epoch).
  - injection Hstep as _ <-. cbn. lia.
  - case_decide; apply Hinc in Hstep as ->; cbn; lia.
  - injection Hstep as _ <-. unfold leave_transition. cbn. destruct (_ =? 1); cbn; lia.
  - injection Hstep as _ <-. destruct (_ =? 0); cbn; lia.
  - injection Hstep as _ <-. cbn. lia.
  - injection Hstep as _ <-. cbn. lia.
Qed.

(** Nobody is closing or opening the gate, and it is open. *)
Definition stays_open (s : gate_system) : Prop :=
  replacement_gate_closed (sys_memory s) = false ∧
  match sys_coordinator s with K_close | K_open | K_open_bump | K_open_notify => False | _ => True end.

(** Anything but a command that closes or opens the gate. *)
Definition leaves_gate (choice : gate_choice) : Prop :=
  match choice with Command Close_and_wait | Command Open => False | _ => True end.

Definition own_steps (i : nat) (schedule : list gate_choice) : nat :=
  length (List.filter (λ choice, match choice with Step j => Nat.eqb j i | _ => false end) schedule).

Lemma coordinator_stays_open k flag m m' k' deeds : coordinator_step k flag m = (m', k', deeds) →
  match k with K_close | K_open | K_open_bump | K_open_notify => False | _ => True end →
  replacement_gate_closed m' = replacement_gate_closed m ∧
  match k' with K_close | K_open | K_open_bump | K_open_notify => False | _ => True end.
Proof.
  intros Hk Hs. destruct k as [| |w todo|w|w|w e todo|w e|w e|w e|w todo|w answer| | | |l r]; try done;
    cbn in Hk; injection Hk as <- <- <-; try done; (split; [done|]);
    try (by destruct flag); try (by destruct (_ =? _)).
  - by destruct (predicate_step_cases todo m (K_first w) K_idle (K_register w)) as [-> | [-> | [? ->]]].
  - by destruct (predicate_step_cases todo m (K_check w e) (K_unregister w true) (K_deadline w e)) as [-> | [-> | [? ->]]].
  - by destruct (predicate_step_cases todo m (K_final w) (K_unregister w true) (K_unregister w false)) as [-> | [-> | [? ->]]].
Qed.

(** A step of anyone else does not move a call at the gate, and none shuts it. *)
Lemma stays_open_step n s choice s' i x : 0 ≤ n < 2 ^ 32 - 1 → base_inv n s → stays_open s → leaves_gate choice →
  gate_step s choice = Some s' → sys_calls s !! i = Some x →
  stays_open s' ∧ (choice ≠ Step i → sys_calls s' !! i = Some x).
Proof.
  intros Hn Hb [Hc Hk] Hl Hstep Hi. destruct choice as [l state|j|c|flag]; cbn [gate_step] in Hstep.
  - injection Hstep as <-. split; [done|]. intros _. cbn. by apply lookup_app_l_Some.
  - destruct (sys_calls s !! j) as [y|] eqn:Hj; [|by injection Hstep as <-].
    destruct (base_call_step n s j y Hb ltac:(lia) Hj) as (m & p & Hrun & Hst).
    rewrite Hrun in Hstep. injection Hstep as <-. destruct (st_gate _ _ _ _ _ Hst) as (Hcl & _).
    split; [split; cbn; [congruence|]|].
    + destruct (is_wake _); [|done]. by destruct (sys_coordinator s).
    + intros Hne. cbn. rewrite list_lookup_insert_ne; [done|congruence].
  - injection Hstep as <-. split; [|by destruct (sys_coordinator s)].
    destruct (sys_coordinator s) eqn:E; try (by split; rewrite ?E). split; [done|]. by destruct c.
  - destruct (coordinator_step _ _ _) as [[m k] deeds] eqn:Hk'. injection Hstep as <-.
    destruct (coordinator_stays_open _ _ _ _ _ _ Hk' Hk) as [Hcl Hk2]. split; [split; cbn; [congruence|done]|].
    intros _. cbn. by destruct (sys_coordinator s).
Qed.

(** ** The theorems *)

Definition gate_inv (s : gate_system) : Prop := shut_inv s ∧ (∀ l, record_inv l s) ∧ sleep_inv s.

Lemma gate_inv_new : gate_inv gate_system_new.
Proof. split_and!; [apply shut_inv_new|intros l; apply record_inv_new|apply sleep_inv_new]. Qed.

Lemma gate_inv_step n s choice s' : 0 ≤ n < 2 ^ 32 - 1 → base_inv n s → base_inv (n + 1) s' → gate_inv s →
  gate_step s choice = Some s' → gate_inv s'.
Proof.
  intros Hn Hb Hb' (H1 & H2 & H3) Hstep. split_and!.
  - by eapply (shut_inv_step n).
  - intros l. by eapply (record_inv_step l n).
  - by eapply (sleep_inv_step n).
Qed.

Lemma gate_reachable schedule : size_of schedule < 2 ^ 32 →
  ∃ s, gate_run gate_system_new schedule = Some s ∧ base_inv (size_of schedule) s ∧ gate_inv s.
Proof. apply gate_reachable_inv; [apply gate_inv_new|apply gate_inv_step]. Qed.

(** C12: The gate shuts.  Whatever the schedule of fewer than 2^32 steps of any number of
    calls and of the coordinator's commands, no counter under- or overflows into [std::terminate];
    and once [close_and_wait] has returned true, and until [open], no ordinary call is
    between the gate and the end of its replacement: only nested calls and those of
    the coordinator itself can be. *)
Theorem gate_shut (schedule : list gate_choice) :
  size_of schedule < 2 ^ 32 →
  ∃ s, gate_run gate_system_new schedule = Some s ∧
    (granted (sys_deeds s) →
     replacement_gate_closed (sys_memory s) = true ∧
     ∀ x, x ∈ sys_calls s → call_bypass x = false → is_active (call_at x) = false).
Proof.
  intros (s & Hrun & _ & Hs & _)%gate_reachable. exists s. split; [done|].
  intros (Hc & _ & Ha)%(si_granted _ Hs). by split.
Qed.

(** C13: Recording stops.  Under any schedule of fewer than 2^32 steps, once recording of a hook has been
    stopped and a later wait for its recording calls has returned true, no call of the
    hook records, and none will before recording starts again; calls that go on to the
    original function do not matter. *)
Theorem recording_quiet (schedule : list gate_choice) (l : nat) :
  size_of schedule < 2 ^ 32 →
  ∃ s, gate_run gate_system_new schedule = Some s ∧
    (quieted l (sys_deeds s) →
     ∀ x, x ∈ sys_calls s → call_lifecycle x = l → is_recording (call_at x) = false).
Proof.
  intros (s & Hrun & _ & _ & Hs & _)%gate_reachable. exists s. split; [done|].
  intros Hq. by apply (ri_quiet _ _ (Hs l)).
Qed.

(** A step of the call itself leaves it fewer. *)
Lemma own_step_left n s i x s' : 0 ≤ n < 2 ^ 32 - 1 → base_inv n s → gate_inv s → stays_open s →
  sys_calls s !! i = Some x → arrived (call_at x) = false → gate_step s (Step i) = Some s' →
  ∃ x', sys_calls s' !! i = Some x' ∧ (steps_left (call_at x') < steps_left (call_at x))%nat.
Proof.
  intros Hn Hb (_ & _ & Hsl) [Hc Hk] Hi Harr Hstep.
  pose proof (sl_calls _ Hsl x ltac:(by eapply list_elem_of_lookup_2)) as [_ _ Hcur Has]. rewrite Hc in Hcur, Has.
  destruct (base_call_step n s i x Hb ltac:(lia) Hi) as (m & p & Hrun & Hst).
  cbn [gate_step] in Hstep. rewrite Hi, Hrun in Hstep. injection Hstep as <-. exists (set_position p x). split.
  - cbn. apply list_lookup_insert_eq. by eapply lookup_lt_Some.
  - eapply call_step_left; [exact Hc| | |exact Harr|exact Hrun].
    + intros e E. destruct (Has e E) as [H|[H|H]]; [done|by rewrite H in Hk..].
    + intros e E Heq. destruct (Hcur e E Heq) as [H|H]; [done|by rewrite H in Hk].
Qed.

(** A call that gets the steps it has left comes through, while the gate stays open. *)
Lemma comes_through i more : ∀ n s x, 0 ≤ n → n + size_of more < 2 ^ 32 → base_inv n s → gate_inv s →
  stays_open s → Forall leaves_gate more → sys_calls s !! i = Some x →
  (steps_left (call_at x) ≤ own_steps i more)%nat →
  ∃ before after s' x', more = before ++ after ∧ gate_run s before = Some s' ∧
    sys_calls s' !! i = Some x' ∧ arrived (call_at x') = true.
Proof.
  induction more as [|choice more IH]; intros n s x Hn Hlen Hb Hs Hopen Hl Hi Hsteps;
    (destruct (arrived (call_at x)) eqn:Harr; [by eexists [], _, s, x|]).
  { destruct (call_at x); cbn in *; done || lia. }
  apply Forall_cons in Hl as [Hl Hmore]. unfold size_of in Hlen. cbn [length] in Hlen.
  destruct (base_step n s choice Hb) as (s1 & Hstep & Hb1); [lia|].
  destruct (stays_open_step n s choice s1 i x ltac:(lia) Hb Hopen Hl Hstep Hi) as [Hopen1 Hother].
  assert (∃ x1, sys_calls s1 !! i = Some x1 ∧ (steps_left (call_at x1) ≤ own_steps i more)%nat) as (x1 & Hi1 & Hleft).
  { unfold own_steps in Hsteps. cbn [List.filter] in Hsteps.
    destruct choice as [l state|j|c|flag]; try (exists x; split; [by apply Hother|done]).
    destruct (Nat.eqb_spec j i) as [->|Hne]; [|exists x; split; [apply Hother; congruence|done]].
    destruct (own_step_left n s i x s1) as (x1 & Hi1 & Hless); [lia|done..|].
    exists x1. split; [done|]. cbn in Hsteps. unfold own_steps. lia. }
  destruct (IH (n + 1) s1 x1) as (before & after & s' & x' & -> & Hrun & H); try done; [lia|unfold size_of; lia| |].
  { by eapply (gate_inv_step n); [lia|..]. }
  exists (choice :: before), after, s', x'. split; [done|]. split; [|done]. cbn [gate_run]. by rewrite Hstep.
Qed.

(** C14: Nobody sleeps through what they wait for.  Under any schedule of fewer than 2^32
    steps, a call asleep at the gate has it closed in front of it or an [open] under way
    that will wake it; a coordinator asleep in a wait has a counter it watches above zero
    or a call on its way to wake it.  And from there on, within 2^32 steps in all and while
    the gate stays open (it is open, and nobody closes or opens it), any call that gets the steps it has left comes
    through or ends, whatever other calls and the waits of the coordinator do between its
    steps; it has never more than 26 of them left, besides those of a notification it is
    in. *)
Theorem gate_no_lost_wakeup (schedule : list gate_choice) :
  size_of schedule < 2 ^ 32 →
  ∃ s, gate_run gate_system_new schedule = Some s ∧
    (∀ x e, x ∈ sys_calls s → call_at x = G_asleep e →
       replacement_gate_closed (sys_memory s) = true ∨
       sys_coordinator s = K_open_bump ∨ sys_coordinator s = K_open_notify) ∧
    (∀ w e, sys_coordinator s = K_asleep w e →
       busy w (sys_memory s) ∨ some_call waking (sys_calls s)) ∧
    (∀ i x more, stays_open s → Forall leaves_gate more → size_of schedule + size_of more < 2 ^ 32 →
       sys_calls s !! i = Some x → (steps_left (call_at x) ≤ own_steps i more)%nat →
       ∃ before after s' x', more = before ++ after ∧ gate_run s before = Some s' ∧
         sys_calls s' !! i = Some x' ∧ arrived (call_at x') = true).
Proof.
  intros Hlen. destruct (gate_reachable schedule Hlen) as (s & Hrun & Hb & Hs). pose proof Hs as (_ & _ & Hsl).
  exists s. split_and!; [done|..].
  - intros x e Hx He. by apply (cs_asleep _ _ _ _ (sl_calls _ Hsl x Hx) e).
  - intros w e Hk. pose proof (sl_coordinator _ Hsl) as H. by rewrite Hk in H.
  - intros i x more Hopen Hl Hroom Hi Hleft.
    apply (comes_through i more (size_of schedule) s x); try done. apply size_of_nonneg.
Qed.

(** ** Schedules of the replacement gate

    Schedules under which the hypotheses of the theorems on the gate hold, and two
    that show why the source does what it does: a wait for drain alone misses a call
    between two counters, which is why the rendezvous scans the code section; and the
    order of the loads of a predicate matters. *)

Definition final_state (schedule : list gate_choice) : gate_system :=
  default gate_system_new (gate_run gate_system_new schedule).

Definition steps (n i : nat) : list gate_choice := replicate n (Step i).
Definition coordinates (n : nat) : list gate_choice := replicate n (Coordinate false).

(** Call 0 gets inside and records; the coordinator starts to close and goes to
    sleep; call 0 leaves and wakes it; call 1 is parked; a nested call passes. *)
Definition closing : list gate_choice :=
  [Command (Start_recording 3)] ++ coordinates 1 ++ [Call 3 no_depth] ++ steps 12 0 ++
  [Command Close_and_wait] ++ coordinates 8 ++
  [Call 3 no_depth] ++ steps 3 1 ++ steps 30 0 ++ coordinates 6 ++ steps 12 1 ++
  [Call 3 {| hook_depth := 1; internal_depth := 0 |}] ++ steps 7 2.

Lemma closing_granted : granted (sys_deeds (final_state closing)).
Proof.
  exists [Routed 3 Route_kRecord], []. split; [vm_compute; reflexivity|]. intros H. inversion H.
Defined.

(** The parked call is not active, and the nested one is inside all the same. *)
Lemma gate_shut_witness :
  (∀ x, x ∈ sys_calls (final_state closing) → call_bypass x = false → is_active (call_at x) = false) ∧
  call_at <$> sys_calls (final_state closing) !! 2%nat = Some (Inside Route_kRecord).
Proof.
  assert (Hlen : size_of closing < 2 ^ 32) by reflexivity.
  destruct (gate_shut closing Hlen) as (s & Hrun & Hs).
  assert (E : final_state closing = s) by (unfold final_state; rewrite Hrun; reflexivity).
  split; [|vm_compute; reflexivity]. rewrite E. apply Hs. rewrite <- E. exact closing_granted.
Defined.

(** Recording starts, call 0 gets inside, recording stops and the coordinator waits;
    call 1 comes after the stop and is inside without recording. *)
Definition stopping : list gate_choice :=
  [Command (Start_recording 3)] ++ coordinates 1 ++ [Call 3 no_depth] ++ steps 11 0 ++
  [Command (Stop_recording 3)] ++ coordinates 1 ++ [Call 3 no_depth] ++ steps 10 1 ++
  [Command (Wait_for_recording_quiescence 3)] ++ coordinates 7 ++ steps 30 0 ++ coordinates 5.

Lemma recording_quiet_witness :
  (∀ x, x ∈ sys_calls (final_state stopping) → call_lifecycle x = 3%nat → is_recording (call_at x) = false) ∧
  call_at <$> sys_calls (final_state stopping) !! 1%nat = Some (Inside Route_kOriginal).
Proof.
  assert (Hlen : size_of stopping < 2 ^ 32) by reflexivity.
  destruct (recording_quiet stopping 3 Hlen) as (s & Hrun & Hs).
  assert (E : final_state stopping = s) by (unfold final_state; rewrite Hrun; reflexivity).
  split; [|vm_compute; reflexivity]. rewrite E. apply Hs. rewrite <- E.
  exists [Routed 3 Route_kRecord; Routed 3 Route_kOriginal], []. split_and!; [vm_compute; reflexivity|discriminate|].
  intros H. inversion H.
Defined.

(** After [closing] the gate opens; a wait for drain goes to sleep on the woken call,
    which comes through between the steps of the coordinator and of another call. *)
Definition reopening : list gate_choice := closing ++ [Command Open] ++ coordinates 3.

Definition draining_meanwhile : list gate_choice :=
  [Command Wait_for_drain] ++ coordinates 8 ++ steps 6 1 ++ [Call 3 no_depth] ++ steps 5 3 ++ coordinates 4 ++
  steps 6 1 ++ steps 7 3 ++ steps 11 1.

Lemma gate_no_lost_wakeup_witness :
  (∃ e, sys_coordinator (final_state (reopening ++ take 9 draining_meanwhile)) = K_asleep W_drain e) ∧
  ∃ before after s' x', draining_meanwhile = before ++ after ∧
    gate_run (final_state reopening) before = Some s' ∧
    sys_calls s' !! 1%nat = Some x' ∧ arrived (call_at x') = true.
Proof.
  assert (Hlen : size_of reopening < 2 ^ 32) by reflexivity.
  destruct (gate_no_lost_wakeup reopening Hlen) as (s & Hrun & _ & _ & Hs).
  assert (E : final_state reopening = s) by (unfold final_state; rewrite Hrun; reflexivity).
  clear Hrun. subst s. split; [eexists; vm_compute; reflexivity|].
  apply (Hs 1%nat {| call_lifecycle := 3; call_bypass := false; call_at := G_epoch_wait 0 |}).
  - split; vm_compute; [reflexivity|exact I].
  - repeat constructor.
  - reflexivity.
  - vm_compute; reflexivity.
  - apply (bool_decide_unpack _). vm_compute. exact I.
Defined.

(** Call 0 has left one counter and not yet entered the next when the wait for drain
    looks: it returns true although the call is on its way in. *)
Definition draining : list gate_choice :=
  [Command Close_and_wait] ++ coordinates 1 ++ [Call 3 no_depth] ++ steps 4 0 ++ coordinates 2 ++
  [Command Open] ++ coordinates 3 ++ [Command Wait_for_drain] ++ coordinates 3.

Example drain_misses_a_call :
  sys_deeds (final_state draining) = [Returned W_close true; Opened; Returned W_drain true] ∧
  call_at <$> sys_calls (final_state draining) !! 0%nat = Some G_wait ∧
  call_at <$> sys_calls (final_state (draining ++ steps 15 0)) !! 0%nat = Some (Inside Route_kTarget).
Proof. split_and!; vm_compute; reflexivity. Qed.
