(* ===== verification/MemoryAnalysis.v ===== *)
(** * The memory analysis

    src/src/analyzer/memory.cpp: the memory counters, maps and agent samples of a
    trace, merged by sampling tick, and the sums over the categories of an agent
    sample.  The three record kinds are read through iterators; reading or moving
    one that is at its end is undefined in the source and a fault of its own
    here. *)

From S2P Require Import Prelude Bytes WireFormat Compression Event Completeness TraceData TraceReader TraceTime EventStream StreamContract StreamTheorems.

(** ** Windows *)

Record MemoryWindow : Set := { mw_from : WindowBound; mw_to : option WindowBound }.

Definition snapshot_at_or_after (bound : WindowBound) (header : FileHeader) (ticks : Z)
    : result exn bool :=
  match wb_time bound with
  | None => Ok true
  | Some time => order ← compare_trace_time ticks header time; Ok (negb (is_less order))
  end.

Definition snapshot_before (bound : WindowBound) (header : FileHeader) (ticks : Z)
    : result exn bool :=
  match wb_time bound with
  | None => Ok true
  | Some time => order ← compare_trace_time ticks header time; Ok (is_less order)
  end.

Definition snapshot_in_window (window : MemoryWindow) (header : FileHeader) (ticks : Z)
    : result exn bool :=
  after ← snapshot_at_or_after (mw_from window) header ticks;
  if negb after then Ok false else
  match mw_to window with
  | None => Ok true
  | Some to => snapshot_before to header ticks
  end.

(** ** Merging by tick *)

Record MemorySnapshot : Set := {
  ms_monotonic_ticks : Z;
  ms_counters : option MemoryCounters;
  ms_map : option MemoryMap;
  ms_agent : option AgentMemory;
}.

Record MemoryAnalysisResult : Set := {
  mar_trace : EventStreamResult;
  mar_window : MemoryWindow;
  snapshots : list MemorySnapshot;
}.

Inductive memory_fault : Set := Stopped (f : fault) | PastTheEnd.

Definition stopped {A} (m : result exn A) : result memory_fault A :=
  match m with Ok a => Ok a | Throw e => Throw (Stopped (Thrown e)) end.

(** An iterator is what is left of its vector. *)
Definition ticks_at {A} (ticks : A → Z) (it : list A) : Z :=
  match it with record :: _ => ticks record | [] => u64_max end.

(** [if (due) { part = *it; }] and [if (due) { ++it; }] *)
Definition take_if {A} (due : bool) (it : list A) : result memory_fault (option A) :=
  if due then match it with record :: _ => Ok (Some record) | [] => Throw PastTheEnd end else Ok None.
Definition advance_if {A} (due : bool) (it : list A) : result memory_fault (list A) :=
  if due then match it with _ :: it => Ok it | [] => Throw PastTheEnd end else Ok it.

Fixpoint merge_loop (fuel : nat) (window : MemoryWindow) (header : FileHeader)
    (counters_at : list MemoryCounters) (map_at : list MemoryMap) (agent_at : list AgentMemory)
    (collected : list MemorySnapshot) : result memory_fault (list MemorySnapshot) :=
  match fuel with
  | O => Throw (Stopped OutOfFuel)
  | S fuel =>
      if match counters_at, map_at, agent_at with [], [], [] => true | _, _, _ => false end
      then Ok collected
      else
        let counters_ticks := ticks_at mc_monotonic_ticks counters_at in
        let map_ticks := ticks_at mm_monotonic_ticks map_at in
        let agent_ticks := ticks_at am_monotonic_ticks agent_at in
        let ticks := Z.min counters_ticks (Z.min map_ticks agent_ticks) in
        inside ← stopped (snapshot_in_window window header ticks);
        collected ←
          (if (inside : bool) then
             counters ← take_if (counters_ticks =? ticks) counters_at;
             map ← take_if (map_ticks =? ticks) map_at;
             agent ← take_if (agent_ticks =? ticks) agent_at;
             Ok (collected ++ [{| ms_monotonic_ticks := ticks; ms_counters := counters;
                                  ms_map := map; ms_agent := agent |}])
           else Ok collected);
        counters_at ← advance_if (counters_ticks =? ticks) counters_at;
        map_at ← advance_if (map_ticks =? ticks) map_at;
        agent_at ← advance_if (agent_ticks =? ticks) agent_at;
        merge_loop fuel window header counters_at map_at agent_at collected
  end.

(** Every turn moves an iterator. *)
Definition merge_fuel (counters : list MemoryCounters) (maps : list MemoryMap)
    (agents : list AgentMemory) : nat :=
  S (length counters + length maps + length agents).

(** The callbacks only collect, so what they collected is read off the calls. *)
Definition analyze_memory {L : CompressionLibrary} (input : istream) (window : MemoryWindow)
    (options : EventStreamOptions) : result memory_fault MemoryAnalysisResult :=
  match analyze_event_stream input options with
  | (Throw e, _) => Throw (Stopped e)
  | (Ok trace, calls) =>
      let counters := counters_of calls in
      let maps := maps_of calls in
      let agents := agents_of calls in
      merged ← merge_loop (merge_fuel counters maps agents) window (esr_file_header trace)
                 counters maps agents [];
      Ok {| mar_trace := trace; mar_window := window; snapshots := merged |}
  end.

(** ** Agent memory *)

Definition kAgentMemoryCategoryFlagExact : Z := 1.

Record AgentMemoryTotals : Set := {
  total_reserved_bytes : Z;
  total_resident_bytes : Z;
  exact : bool;
}.

Definition add_category (totals : AgentMemoryTotals) (category : AgentMemoryCategorySample)
    : AgentMemoryTotals :=
  {| total_reserved_bytes := wrap64 (total_reserved_bytes totals + amc_reserved_bytes category);
     total_resident_bytes := wrap64 (total_resident_bytes totals + amc_resident_bytes category);
     exact := exact totals && negb (Z.land (amc_flags category) kAgentMemoryCategoryFlagExact =? 0) |}.

Definition agent_memory_totals (memory : AgentMemory) : result exn AgentMemoryTotals :=
  validate_agent_memory memory ;;
  Ok (foldl add_category
        {| total_reserved_bytes := 0; total_resident_bytes := 0; exact := true |}
        (am_categories memory)).

Definition application_memory_estimate (snapshot : MemorySnapshot) : result exn Z :=
  match ms_counters snapshot, ms_agent snapshot with
  | Some counters, Some agent =>
      totals ← agent_memory_totals agent;
      let agent_resident := total_resident_bytes totals in
      let working_set := working_set_bytes counters in
      Ok (if working_set <=? agent_resident then 0 else working_set - agent_resident)
  | _, _ => Ok 0
  end.
