(* ===== verification/MemoryTheorems.v ===== *)
(** * What the memory analysis reports

    The merged snapshots of MemoryAnalysis.v hold every record of the window once,
    in the order of the sampling ticks; the sums over an agent sample are exact. *)

From S2P Require Import Prelude Bytes WireFormat Crc32c Compression RecordCursor RecordInterface Event Completeness TraceData EventCodec StatisticsCodec DictionaryCodec MemoryCodec Chunks TraceReader TraceWriter TraceFile TraceRoundTrip TraceReaderTheorems TraceTime EventStream StreamContract StreamTheorems StreamExamples MemoryAnalysis.

(** ** Ticks of the calls *)

Lemma StronglySorted_snoc {A} (R : A → A → Prop) l a : StronglySorted R l → Forall (λ b, R b a) l →
  StronglySorted R (l ++ [a]).
Proof.
  induction 1 as [|b l Hl IH Hb]; intros Ha; cbn; [by repeat constructor|].
  apply Forall_cons in Ha as [Hba Ha]. constructor; [auto|]. apply Forall_app. split; [done|by constructor].
Qed.

(** Sampled from the origin on, in order. *)
Definition sampled {A} (ticks : A → Z) (origin : Z) (l : list A) : Prop :=
  StronglySorted (λ a b, ticks a ≤ ticks b) l ∧ Forall (λ a, origin ≤ ticks a) l.

Lemma sampled_snoc {A} (ticks : A → Z) origin l a : sampled ticks origin l → origin ≤ ticks a →
  Forall (λ b, ticks b ≤ ticks a) l → sampled ticks origin (l ++ [a]).
Proof.
  intros [Hs Ho] Ha Hl. split; [by apply StronglySorted_snoc|].
  apply Forall_app. split; [done|by constructor].
Qed.

Lemma sampled_cons {A} (ticks : A → Z) origin a l : sampled ticks origin (a :: l) →
  origin ≤ ticks a ∧ Forall (λ b, ticks a ≤ ticks b) l ∧ sampled ticks origin l.
Proof.
  intros [[Hs Ha]%StronglySorted_inv [Ho Hl]%Forall_cons]. by split_and!.
Qed.

Lemma memory_calls_sampled h l : log_ok h l →
  sampled mc_monotonic_ticks (monotonic_origin h) (counters_of l) ∧
  sampled mm_monotonic_ticks (monotonic_origin h) (maps_of l) ∧
  sampled am_monotonic_ticks (monotonic_origin h) (agents_of l).
Proof.
  induction l as [|c l IH] using rev_ind; intros Hlog.
  { split_and!; split; constructor. }
  pose proof (log_ok_allowed _ _ _ _ Hlog) as Hc. apply log_ok_prefix in Hlog.
  destruct (IH Hlog) as (Hcs & Hms & Has). autorewrite with log.
  destruct c; try (by split_and!); destruct Hc as (_ & _ & Ho & Hb); split_and!; try done;
    by apply sampled_snoc.
Qed.

(** ** The window *)

Definition no_negative_time (window : MemoryWindow) : Prop :=
  (∀ time, wb_time (mw_from window) = Some time → 0 ≤ time) ∧
  (∀ to time, mw_to window = Some to → wb_time to = Some time → 0 ≤ time).

Definition in_window (window : MemoryWindow) (h : FileHeader) (ticks : Z) : bool :=
  match snapshot_in_window window h ticks with Ok b => b | Throw _ => false end.

Lemma compare_trace_time_total ticks h time : monotonic_frequency h ≠ 0 → monotonic_origin h ≤ ticks →
  0 ≤ time → ∃ order, compare_trace_time ticks h time = Ok order.
Proof.
  intros Hf Ho Ht. unfold compare_trace_time. rewrite (proj2 (Z.ltb_ge _ _)) by lia.
  cbn [throw_if mbind result_bind].
  rewrite (proj2 (relative_ticks_ok ticks h _) (conj Hf (conj Ho eq_refl))).
  cbn [mbind result_bind].  repeat case_match; eauto.
Qed.

Lemma in_window_ok window h ticks : monotonic_frequency h ≠ 0 → monotonic_origin h ≤ ticks →
  no_negative_time window → snapshot_in_window window h ticks = Ok (in_window window h ticks).
Proof.
  intros Hf Ho [Hfrom Hto]. unfold in_window.
  assert (∃ b, snapshot_in_window window h ticks = Ok b) as [b ->]; [|done].
  unfold snapshot_in_window, snapshot_at_or_after, snapshot_before.
  destruct (wb_time (mw_from window)) as [from|]; cbn.
  - destruct (compare_trace_time_total ticks h from) as [order ->]; [auto..|]. cbn.
    destruct (is_less order); cbn; [eauto|]. destruct (mw_to window) as [to|]; [|eauto].
    destruct (wb_time to) as [time|] eqn:E; [|eauto].
    destruct (compare_trace_time_total ticks h time) as [order' ->]; [eauto..|]. cbn. eauto.
  - destruct (mw_to window) as [to|]; [|eauto]. destruct (wb_time to) as [time|] eqn:E; [|eauto].
    destruct (compare_trace_time_total ticks h time) as [order' ->]; [eauto..|]. cbn. eauto.
Qed.

(** ** One turn of the merge *)

(** One iterator at the tick of the turn. *)
Lemma iterator_turn {A} (ticks : A → Z) it t : t ≤ ticks_at ticks it → t < u64_max →
  ∃ part rest, take_if (ticks_at ticks it =? t) it = Ok part ∧
    advance_if (ticks_at ticks it =? t) it = Ok rest ∧ it = option_list part ++ rest ∧
    Forall (λ a, ticks a = t) (option_list part) ∧ (part = None → t ≠ ticks_at ticks it).
Proof.
  intros Hle Hmax. destruct (Z.eqb_spec (ticks_at ticks it) t) as [E|E].
  - destruct it as [|a it]; cbn in *; [lia|]. exists (Some a), it.
    split_and!; try done. by repeat constructor.
  - exists None, it. split_and!; try done; congruence.
Qed.

Definition snapshot_ok (window : MemoryWindow) (h : FileHeader) (s : MemorySnapshot) : Prop :=
  in_window window h (ms_monotonic_ticks s) = true ∧
  Forall (λ c, mc_monotonic_ticks c = ms_monotonic_ticks s) (option_list (ms_counters s)) ∧
  Forall (λ m, mm_monotonic_ticks m = ms_monotonic_ticks s) (option_list (ms_map s)) ∧
  Forall (λ a, am_monotonic_ticks a = ms_monotonic_ticks s) (option_list (ms_agent s)) ∧
  (is_Some (ms_counters s) ∨ is_Some (ms_map s) ∨ is_Some (ms_agent s)).

(** The snapshots of one tick, from the records sampled then: the first of each kind
    together, then the second of each kind, and so on. *)
Definition snapshots_of_tick (t : Z) (cs : list MemoryCounters) (ms : list MemoryMap) (ags : list AgentMemory)
    : list MemorySnapshot :=
  (λ i, {| ms_monotonic_ticks := t; ms_counters := cs !! i; ms_map := ms !! i; ms_agent := ags !! i |}) <$>
    seq 0 (length cs `max` (length ms `max` length ags)).

(** The snapshots of three sampled lists. *)
Record merged (window : MemoryWindow) (h : FileHeader) (cs : list MemoryCounters) (ms : list MemoryMap)
    (ags : list AgentMemory) (out : list MemorySnapshot) : Prop := {
  merged_sorted : StronglySorted (λ a b, ms_monotonic_ticks a ≤ ms_monotonic_ticks b) out;
  merged_at t : filter (λ s, ms_monotonic_ticks s = t) out =
    if in_window window h t
    then snapshots_of_tick t (filter (λ c, mc_monotonic_ticks c = t) cs)
           (filter (λ m, mm_monotonic_ticks m = t) ms) (filter (λ a, am_monotonic_ticks a = t) ags)
    else [];
  merged_ok : Forall (snapshot_ok window h) out;
  merged_counters : omap ms_counters out = filter (λ c, in_window window h (mc_monotonic_ticks c) = true) cs;
  merged_maps : omap ms_map out = filter (λ m, in_window window h (mm_monotonic_ticks m) = true) ms;
  merged_agents : omap ms_agent out = filter (λ a, in_window window h (am_monotonic_ticks a) = true) ags;
}.

(** What a turn takes from one list, as the snapshot and the filter see it. *)
Lemma filter_turn {A} (ticks : A → Z) (inside : Z → bool) (part : option A) rest t :
  Forall (λ a, ticks a = t) (option_list part) →
  filter (λ a, inside (ticks a) = true) (option_list part ++ rest) =
  (if inside t then option_list part else []) ++ filter (λ a, inside (ticks a) = true) rest.
Proof.
  destruct part as [a|]; [|by destruct (inside t)]. intros [<- _]%Forall_cons.
  change (option_list (Some a) ++ rest) with (a :: rest). rewrite filter_cons.
  by destruct (inside (ticks a)).
Qed.

(** The records of a tick, before and after a turn at it, and at any other tick. *)
Lemma tick_now {A} (ticks : A → Z) (part : option A) rest t : Forall (λ a, ticks a = t) (option_list part) →
  filter (λ a, ticks a = t) (option_list part ++ rest) = option_list part ++ filter (λ a, ticks a = t) rest.
Proof.
  destruct part as [a|]; [|done]. intros [Ha _]%Forall_cons.
  change (option_list (Some a) ++ rest) with (a :: rest). by rewrite filter_cons, decide_True.
Qed.

Lemma tick_other {A} (ticks : A → Z) (part : option A) rest t t' : Forall (λ a, ticks a = t) (option_list part) →
  t' ≠ t → filter (λ a, ticks a = t') (option_list part ++ rest) = filter (λ a, ticks a = t') rest.
Proof.
  destruct part as [a|]; [|done]. intros [Ha _]%Forall_cons Hne.
  change (option_list (Some a) ++ rest) with (a :: rest). rewrite filter_cons, decide_False; [done|congruence].
Qed.

Lemma tick_later {A} (ticks : A → Z) origin it t : sampled ticks origin it → t < u64_max →
  t ≤ ticks_at ticks it → t ≠ ticks_at ticks it → filter (λ a, ticks a = t) it = [].
Proof.
  destruct it as [|a it]; [done|]. intros (_ & Hle & _)%sampled_cons _ Ht Hne. cbn in Ht, Hne.
  rewrite filter_cons, decide_False by congruence.
  induction Hle as [|b it Hb _ IH]; [done|]. rewrite filter_cons, decide_False by lia. exact IH.
Qed.

(** A turn makes the first snapshot of its tick. *)
Lemma first_of_tick t c m a cs ms ags : (c = None → cs = []) → (m = None → ms = []) → (a = None → ags = []) →
  is_Some c ∨ is_Some m ∨ is_Some a →
  snapshots_of_tick t (option_list c ++ cs) (option_list m ++ ms) (option_list a ++ ags) =
  {| ms_monotonic_ticks := t; ms_counters := c; ms_map := m; ms_agent := a |} :: snapshots_of_tick t cs ms ags.
Proof.
  intros Hc Hm Ha Hone. unfold snapshots_of_tick.
  assert (Hlen : ∀ {A} (x : option A) l, (x = None → l = []) →
    length (option_list x ++ l) = match x with Some _ => S (length l) | None => 0%nat end).
  { intros A [x|] l H; [done|]. by rewrite (H eq_refl). }
  assert (Hmax : (length (option_list c ++ cs) `max` (length (option_list m ++ ms) `max` length (option_list a ++ ags)) =
    S (length cs `max` (length ms `max` length ags)))%nat).
  { rewrite (Hlen _ c), (Hlen _ m), (Hlen _ a) by done.
    destruct c, m, a; try (rewrite Hc by done); try (rewrite Hm by done); try (rewrite Ha by done); cbn [length]; try lia.
    by destruct Hone as [[? ?]|[[? ?]|[? ?]]]. }
  rewrite Hmax. cbn [seq fmap list_fmap]. rewrite <- fmap_S_seq, <- list_fmap_compose.
  assert (H0 : ∀ {A} (x : option A) l, (x = None → l = []) → (option_list x ++ l) !! 0%nat = x).
  { intros A [x|] l H; [done|]. by rewrite (H eq_refl). }
  assert (HS : ∀ {A} (x : option A) l i, (x = None → l = []) → (option_list x ++ l) !! S i = l !! i).
  { intros A [x|] l i H; [done|]. by rewrite (H eq_refl). }
  rewrite !H0 by done. f_equal. apply list_fmap_ext. intros _ i _. cbn. by rewrite !HS by done.
Qed.

Definition all_below (cs : list MemoryCounters) (ms : list MemoryMap) (ags : list AgentMemory) : Prop :=
  Forall (λ c, mc_monotonic_ticks c < u64_max) cs ∧ Forall (λ m, mm_monotonic_ticks m < u64_max) ms ∧
  Forall (λ a, am_monotonic_ticks a < u64_max) ags.

Lemma sampled_app {A} (ticks : A → Z) origin part (rest : list A) t : sampled ticks origin (part ++ rest) →
  t ≤ ticks_at ticks (part ++ rest) → t < u64_max → sampled ticks t rest.
Proof.
  intros [Hs _] Ht Hmax. induction part as [|a part IH]; cbn [app] in *.
  - split; [done|]. destruct rest as [|a rest]; [constructor|]. cbn in Ht.
    apply StronglySorted_inv in Hs as [_ Ha]. constructor; [done|].
    eapply Forall_impl; [exact Ha|]. cbn. lia.
  - cbn in Ht. apply StronglySorted_inv in Hs as [Hs Ha]. apply IH; [done|].
    destruct part as [|b part]; cbn [app] in *.
    + destruct rest as [|b rest]; cbn; [lia|]. apply Forall_cons in Ha as [Ha _]. lia.
    + apply Forall_cons in Ha as [Ha _]. cbn. lia.
Qed.

Lemma ticks_at_bounds {A} (ticks : A → Z) origin it : sampled ticks origin it →
  Forall (λ a, ticks a < u64_max) it →
  it = [] ∧ ticks_at ticks it = u64_max ∨ it ≠ [] ∧ origin ≤ ticks_at ticks it < u64_max.
Proof.
  destruct it as [|a it]; [by left|]. intros (Ho & _)%sampled_cons [Hb _]%Forall_cons. right. by cbn.
Qed.

Lemma merge_loop_ok fuel window h cs ms ags origin collected :
  monotonic_frequency h ≠ 0 → no_negative_time window → monotonic_origin h ≤ origin →
  sampled mc_monotonic_ticks origin cs → sampled mm_monotonic_ticks origin ms →
  sampled am_monotonic_ticks origin ags → all_below cs ms ags →
  (length cs + length ms + length ags < fuel)%nat →
  ∃ out, merge_loop fuel window h cs ms ags collected = Ok (collected ++ out) ∧
    merged window h cs ms ags out ∧ Forall (λ s, origin ≤ ms_monotonic_ticks s) out.
Proof.
  intros Hfreq Hwin. revert cs ms ags origin collected.
  induction fuel as [|fuel IH]; intros cs ms ags origin collected Horigin Hcs Hms Hags Hbelow Hfuel; [lia|].
  cbn [merge_loop]. 
  destruct (match cs, ms, ags with [], [], [] => true | _, _, _ => false end) eqn:Hempty.
  { exists []. destruct cs, ms, ags; try done. rewrite app_nil_r. split_and!; [done| |constructor].
    split; [constructor|intros t; by destruct (in_window window h t)|constructor|done..]. }
  set (t := Z.min _ _).
  destruct Hbelow as (Hbc & Hbm & Hba).
  pose proof (ticks_at_bounds _ _ _ Hcs Hbc) as Bc. pose proof (ticks_at_bounds _ _ _ Hms Hbm) as Bm.
  pose proof (ticks_at_bounds _ _ _ Hags Hba) as Ba.
  assert (Ht : origin ≤ t < u64_max).
  { destruct Bc as [[-> ?]|?], Bm as [[-> ?]|?], Ba as [[-> ?]|?]; try done; lia. }
  destruct (iterator_turn mc_monotonic_ticks cs t) as (c & cs' & Ec1 & Ec2 & -> & Hct & Hcn); [lia..|].
  destruct (iterator_turn mm_monotonic_ticks ms t) as (m & ms' & Em1 & Em2 & -> & Hmt & Hmn); [lia..|].
  destruct (iterator_turn am_monotonic_ticks ags t) as (a & ags' & Ea1 & Ea2 & -> & Hat & Han); [lia..|].
  rewrite (in_window_ok window h t) by (done || lia). cbn [stopped mbind result_bind].
  assert (Hone : is_Some c ∨ is_Some m ∨ is_Some a).
  { destruct c; [by left; eauto|]. destruct m; [by right; left; eauto|]. destruct a; [by right; right; eauto|].
    specialize (Hcn eq_refl). specialize (Hmn eq_refl). specialize (Han eq_refl). lia. }
  set (here := if in_window window h t
               then [{| ms_monotonic_ticks := t; ms_counters := c; ms_map := m; ms_agent := a |}] else []).
  destruct (IH cs' ms' ags' t (collected ++ here)) as (out & Hout & Hmerged & Hlow).
  { lia. }
  { by eapply sampled_app; [exact Hcs|lia|lia]. }
  { by eapply sampled_app; [exact Hms|lia|lia]. }
  { by eapply sampled_app; [exact Hags|lia|lia]. }
  { apply Forall_app in Hbc as [_ ?], Hbm as [_ ?], Hba as [_ ?]. by split_and!. }
  { rewrite !length_app in Hfuel. destruct Hone as [[? ->]|[[? ->]|[? ->]]]; cbn in Hfuel; lia. }
  exists (here ++ out). split_and!.
  - rewrite Ec1, Em1, Ea1, Ec2, Em2, Ea2. rewrite app_assoc, <- Hout. unfold here.
    by destruct (in_window window h t); cbn [mbind result_bind]; rewrite ?app_nil_r.
  - destruct Hmerged as [Hsort Hat' Hok Hcs' Hms' Hags'].
    split; rewrite ?omap_app.
    + unfold here. destruct (in_window window h t); [|done]. cbn. by constructor.
    + intros t'. rewrite filter_app, Hat'. destruct (decide (t' = t)) as [->|Hne].
      * rewrite !tick_now by done. unfold here. destruct (in_window window h t); [|done].
        rewrite first_of_tick; [by rewrite filter_cons, decide_True|..|done].
        -- intros ->. apply (tick_later mc_monotonic_ticks origin (option_list None ++ cs')); [exact Hcs|lia|lia|by apply Hcn].
        -- intros ->. apply (tick_later mm_monotonic_ticks origin (option_list None ++ ms')); [exact Hms|lia|lia|by apply Hmn].
        -- intros ->. apply (tick_later am_monotonic_ticks origin (option_list None ++ ags')); [exact Hags|lia|lia|by apply Han].
      * rewrite !(tick_other _ _ _ t) by done. unfold here. destruct (in_window window h t); [|done].
        by rewrite filter_cons, decide_False by (cbn; congruence).
    + apply Forall_app. split; [|done]. unfold here. destruct (in_window window h t) eqn:Hin; [|constructor].
      apply Forall_singleton. by split_and!.
    + rewrite Hcs', (filter_turn mc_monotonic_ticks (in_window window h) c cs' t Hct). f_equal.
      unfold here. by destruct (in_window window h t), c.
    + rewrite Hms', (filter_turn mm_monotonic_ticks (in_window window h) m ms' t Hmt). f_equal.
      unfold here. by destruct (in_window window h t), m.
    + rewrite Hags', (filter_turn am_monotonic_ticks (in_window window h) a ags' t Hat). f_equal.
      unfold here. by destruct (in_window window h t), a.
  - apply Forall_app. split.
    { unfold here. destruct (in_window window h t); [|constructor]. apply Forall_singleton, Ht. }
    eapply Forall_impl; [exact Hlow|]. cbn. lia.
Qed.

(** C25: What the memory analysis reports.  On a trace the event stream accepts, when no
    bound of the window is negative and no record is sampled at the largest tick, the
    analysis returns, and its snapshots are in the order of their ticks.  For each tick in
    the window they are the records sampled at it put together: the first of each kind in
    one snapshot, the second of each kind in the next, and no other snapshots, so that
    records of different kinds at a tick share one.  There are none for a tick outside.
    Every counter, map and agent record in the window is part of exactly one of them, in
    the order of the trace. *)
Theorem memory_snapshots {L : CompressionLibrary} {Laws : CompressionLaws L} (input : istream)
    (window : MemoryWindow) (options : EventStreamOptions) (trace : EventStreamResult) (calls : log) :
  u32 (maximum_record_size options) → no_negative_time window →
  analyze_event_stream input options = (Ok trace, calls) →
  all_below (counters_of calls) (maps_of calls) (agents_of calls) →
  ∃ out, analyze_memory input window options =
      Ok {| mar_trace := trace; mar_window := window; snapshots := out |} ∧
    merged window (esr_file_header trace) (counters_of calls) (maps_of calls) (agents_of calls) out.
Proof.
  intros Hsize Hwin Hrun Hbelow. destruct (analyze_log _ _ _ _ Hsize Hrun) as ([_ Hv] & Hlog & _).
  destruct (memory_calls_sampled _ _ Hlog) as (Hcs & Hms & Hags).
  destruct (merge_loop_ok (merge_fuel (counters_of calls) (maps_of calls) (agents_of calls)) window
    (esr_file_header trace) (counters_of calls) (maps_of calls) (agents_of calls)
    (monotonic_origin (esr_file_header trace)) [])
    as (out & Hout & Hmerged & _); [|done|lia|exact Hcs|exact Hms|exact Hags|done|unfold merge_fuel; lia|].
  - intros E. unfold validate_file_header in Hv. rewrite E in Hv. by inv_ok.
  - exists out. unfold analyze_memory. rewrite Hrun. cbv zeta. rewrite Hout. done.
Qed.

(** ** Sums over an agent sample *)

Definition sum_over {A} (f : A → Z) (l : list A) : Z := foldr (λ a s, f a + s) 0 l.

Lemma categories_total seen reserved resident exact categories :
  Forall AgentMemoryCategorySample_wt categories → 0 ≤ reserved ≤ u64_max → 0 ≤ resident ≤ u64_max →
  validate_categories seen reserved resident categories = Ok tt →
  foldl add_category {| total_reserved_bytes := reserved; total_resident_bytes := resident; exact := exact |}
    categories =
  {| total_reserved_bytes := reserved + sum_over amc_reserved_bytes categories;
     total_resident_bytes := resident + sum_over amc_resident_bytes categories;
     exact := exact && forallb (λ c, Z.testbit (amc_flags c) 0) categories |} ∧
  resident + sum_over amc_resident_bytes categories ≤ u64_max ∧
  reserved + sum_over amc_reserved_bytes categories ≤ u64_max ∧
  sum_over amc_resident_bytes categories ≤ sum_over amc_reserved_bytes categories.
Proof.
  intros Hwt. revert seen reserved resident exact.
  induction Hwt as [|c cs Hc _ IH]; intros seen reserved resident exact Hr Ht Hv.
  - cbn. rewrite !Z.add_0_r, andb_true_r. split_and!; done || lia.
  - cbn [validate_categories] in Hv. unfold snapshot_if in Hv. inv_ok. bool_facts. destruct_and?.
    destruct Hc as (_ & _ & Hcr & Hct).
    assert (Er : wrap64 (reserved + amc_reserved_bytes c) = reserved + amc_reserved_bytes c)
      by (apply wrap64_small; word).
    assert (Et : wrap64 (resident + amc_resident_bytes c) = resident + amc_resident_bytes c)
      by (apply wrap64_small; word).
    rewrite Er, Et in Hv. cbn [foldl sum_over foldr forallb]. unfold add_category at 2. cbn [total_reserved_bytes total_resident_bytes MemoryAnalysis.exact].
    rewrite Er, Et.
    destruct (IH ({[amc_category c]} ∪ seen) (reserved + amc_reserved_bytes c) (resident + amc_resident_bytes c)
      (exact && negb (Z.land (amc_flags c) kAgentMemoryCategoryFlagExact =? 0))) as (-> & IH1 & IH2 & IH3);
      [word|word|done|].
    fold (sum_over amc_reserved_bytes cs). fold (sum_over amc_resident_bytes cs).
    split_and!; [|lia..]. f_equal; [lia|lia|]. rewrite <- andb_assoc. do 2 f_equal.
    unfold kAgentMemoryCategoryFlagExact. rewrite (land_1 (amc_flags c)), Zmod_odd, Z.bit0_odd.
    by destruct (Z.odd _).
Qed.

(** The sums over an agent sample are exact: a sample that passes validation has its
    reserved and resident bytes added up without wrapping, it counts as exact if every
    category is, and the estimate of the application's memory is what of the working set
    the agent does not hold, never more than the working set and never negative. *)
Theorem agent_memory_exact (memory : AgentMemory) (totals : AgentMemoryTotals) :
  AgentMemory_wt memory → agent_memory_totals memory = Ok totals →
  total_reserved_bytes totals = sum_over amc_reserved_bytes (am_categories memory) ∧
  total_resident_bytes totals = sum_over amc_resident_bytes (am_categories memory) ∧
  0 ≤ total_resident_bytes totals ≤ total_reserved_bytes totals ∧ total_reserved_bytes totals ≤ u64_max ∧
  (exact totals = true ↔ Forall (λ c, Z.testbit (amc_flags c) 0 = true) (am_categories memory)) ∧
  (∀ snapshot counters, ms_agent snapshot = Some memory → ms_counters snapshot = Some counters →
     application_memory_estimate snapshot =
       Ok (Z.max 0 (working_set_bytes counters - total_resident_bytes totals))).
Proof.
  intros [_ Hwt] Ht. pose proof Ht as Htotals. unfold agent_memory_totals in Ht.
  apply bind_ok in Ht as ([] & Hv & [= <-]). unfold validate_agent_memory, snapshot_if in Hv.
  apply bind_ok in Hv as (? & _ & Hv). apply bind_ok in Hv as (? & _ & Hv).
  destruct (categories_total _ 0 0 true _ Hwt ltac:(word) ltac:(word) Hv) as (E & H1 & H2 & H3).
  assert (0 ≤ sum_over amc_resident_bytes (am_categories memory)).
  { clear -Hwt. induction Hwt as [|c cs Hc _ IH]; cbn; [lia|]. destruct Hc as (_ & _ & _ & Hc).
    fold (sum_over amc_resident_bytes cs). word. }
  split_and!; try (rewrite E; cbn [total_reserved_bytes total_resident_bytes exact]; lia).
  - rewrite E. cbn [exact andb]. rewrite forallb_forall. split.
    + intros H'. apply Forall_forall. intros c Hc. apply H'. by apply list_elem_of_In.
    + intros H' c Hc. by apply (proj1 (Forall_forall _ _) H'), list_elem_of_In.
  - intros snapshot counters Ha Hc. unfold application_memory_estimate. rewrite Ha, Hc, Htotals.
    cbn [mbind result_bind]. f_equal. destruct (Z.leb_spec (working_set_bytes counters)
      (total_resident_bytes (foldl add_category {| total_reserved_bytes := 0; total_resident_bytes := 0; exact := true |}
        (am_categories memory)))); lia.
Qed.

(** ** Two traces with memory records

    The hypotheses of the theorems on the memory analysis hold together; and the one
    tick they leave out makes the analysis read past the end of its records. *)

#[local] Existing Instances stored_library.

Definition counters_sample (ticks : Z) : MemoryCounters :=
  {| mc_monotonic_ticks := ticks; working_set_bytes := 1000; peak_working_set_bytes := 2000;
     private_bytes := 500; commit_bytes := 600 |}.
Definition map_sample (ticks : Z) : MemoryMap :=
  {| mm_monotonic_ticks := ticks; mm_truncated := false; mm_committed_bytes := 4096;
     mm_reserved_bytes := 0; mm_free_bytes := 8192; mm_largest_free_bytes := 4096; mm_regions := [] |}.
Definition agent_sample (ticks : Z) : AgentMemory :=
  {| am_monotonic_ticks := ticks; am_kind := Sample_kPeriodic;
     am_categories := [{| amc_category := 1; amc_flags := 1; amc_reserved_bytes := 10; amc_resident_bytes := 3 |};
                       {| amc_category := 2; amc_flags := 0; amc_reserved_bytes := 400; amc_resident_bytes := 200 |}] |}.

Definition memory_trace (records : list (MemoryCounters + (MemoryMap + AgentMemory))) : istream :=
  {| in_bytes :=
       file_header_bytes example_header ++
       sample_chunk Chunk_kMetadata 0 0 (append_capture_scope_record []
         {| started_at_process_start := true; preexisting_allocations_unknown := false |} 4096) ++
       sample_chunk Chunk_kMemory 0 0 (append_all append_memory_record [] records 4096);
     in_end := End_eof |}.

Definition three_ticks : list (MemoryCounters + (MemoryMap + AgentMemory)) :=
  [inl (counters_sample 110); inr (inl (map_sample 110)); inl (counters_sample 120);
   inr (inr (agent_sample 120)); inl (counters_sample 130)].

Definition unbounded : WindowBound := {| wb_time := None; wb_sequence := None |}.
Definition whole_trace : MemoryWindow := {| mw_from := unbounded; mw_to := None |}.

Definition memory_calls : log := (analyze_event_stream (memory_trace three_ticks) default_stream_options).2.
Definition memory_result : EventStreamResult :=
  match (analyze_event_stream (memory_trace three_ticks) default_stream_options).1 with
  | Ok r => r
  | Throw _ => empty_result example_header
  end.

Definition three_snapshots : list MemorySnapshot :=
  [{| ms_monotonic_ticks := 110; ms_counters := Some (counters_sample 110);
      ms_map := Some (map_sample 110); ms_agent := None |};
   {| ms_monotonic_ticks := 120; ms_counters := Some (counters_sample 120); ms_map := None;
      ms_agent := Some (agent_sample 120) |};
   {| ms_monotonic_ticks := 130; ms_counters := Some (counters_sample 130); ms_map := None;
      ms_agent := None |}].

Lemma memory_snapshots_witness :
  merged whole_trace (esr_file_header memory_result) (counters_of memory_calls) (maps_of memory_calls)
    (agents_of memory_calls) three_snapshots.
Proof.
  assert (Hu : u32 (maximum_record_size default_stream_options)) by (split; [discriminate|reflexivity]).
  assert (Hw : no_negative_time whole_trace) by (split; [discriminate|discriminate]).
  assert (Hb : all_below (counters_of memory_calls) (maps_of memory_calls) (agents_of memory_calls)).
  { unfold all_below. apply (bool_decide_unpack _). vm_compute. exact I. }
  assert (Hrun : analyze_event_stream (memory_trace three_ticks) default_stream_options =
    (Ok memory_result, memory_calls)) by (vm_compute; reflexivity).
  destruct (memory_snapshots _ whole_trace _ _ _ Hu Hw Hrun Hb) as (out & Hout & Hmerged).
  assert (Hsame : snapshots <$> analyze_memory (memory_trace three_ticks) whole_trace default_stream_options =
    Ok three_snapshots) by (vm_compute; reflexivity).
  rewrite Hout in Hsame. clear Hrun Hout. injection Hsame as <-. exact Hmerged.
Defined.

Lemma agent_memory_exact_witness :
  application_memory_estimate
    {| ms_monotonic_ticks := 120; ms_counters := Some (counters_sample 120); ms_map := None;
       ms_agent := Some (agent_sample 120) |} = Ok 797.
Proof.
  assert (Hwt : AgentMemory_wt (agent_sample 120)).
  { unfold AgentMemory_wt, AgentMemoryCategorySample_wt. apply (bool_decide_unpack _). vm_compute. exact I. }
  pose proof (agent_memory_exact (agent_sample 120)
    {| total_reserved_bytes := 410; total_resident_bytes := 203; exact := false |} Hwt eq_refl)
    as (_ & _ & _ & _ & _ & H).
  exact (H {| ms_monotonic_ticks := 120; ms_counters := Some (counters_sample 120); ms_map := None;
              ms_agent := Some (agent_sample 120) |} (counters_sample 120) eq_refl eq_refl).
Defined.

(** A record sampled at the largest tick: the other iterators, at their ends, seem to
    be due too. *)
Example largest_tick_past_the_end :
  is_ok (analyze_event_stream (memory_trace [inr (inl (map_sample u64_max))]) default_stream_options).1 = true ∧
  analyze_memory (memory_trace [inr (inl (map_sample u64_max))]) whole_trace default_stream_options =
    Throw PastTheEnd.
Proof. vm_compute. split; reflexivity. Qed.
