(* ===== verification/Utf8.v ===== *)
(** * UTF-8

    src/src/analyzer/utf8.cpp: the test the reports apply to every string before they
    print it.  It accepts exactly the encodings of sequences of Unicode scalar values
    (RFC 3629): no overlong form, no surrogate, nothing above U+10FFFF. *)

From S2P Require Import Prelude Bytes.

(** ** The test *)

(** What the first byte of a longer sequence says: how many bytes continue it, and
    the range of the second. *)
Definition lead_byte (first : Z) : option (nat * Z * Z) :=
  if (0xc2 <=? first) && (first <=? 0xdf) then Some (1%nat, 0x80, 0xbf)
  else if (0xe0 <=? first) && (first <=? 0xef) then
    Some (2%nat, if first =? 0xe0 then 0xa0 else 0x80, if first =? 0xed then 0x9f else 0xbf)
  else if (0xf0 <=? first) && (first <=? 0xf4) then
    Some (3%nat, if first =? 0xf0 then 0x90 else 0x80, if first =? 0xf4 then 0x8f else 0xbf)
  else None.

(** [bytes[index + offset]] for [offset] from 2 to [continuation_count]. *)
Definition continues (b : byte) : bool := negb ((byte_val b <? 0x80) || (0xbf <? byte_val b)).

(** The loop, on what is left of the string. *)
Fixpoint utf8_loop (fuel : nat) (value : bytes) : bool :=
  match fuel, value with
  | _, [] => true
  | O, _ => false
  | S fuel, first :: rest =>
      if byte_val first <=? 0x7f then utf8_loop fuel rest
      else match lead_byte (byte_val first) with
           | None => false
           | Some (continuation_count, second_minimum, second_maximum) =>
               if (length rest <? continuation_count)%nat then false
               else match rest with
                    | [] => false
                    | second :: others =>
                        if (byte_val second <? second_minimum) || (second_maximum <? byte_val second) then false
                        else if negb (forallb continues (take (continuation_count - 1) others)) then false
                        else utf8_loop fuel (drop continuation_count rest)
                    end
           end
  end.

(** Every turn takes a byte at least. *)
Definition is_valid_utf8 (value : bytes) : bool := utf8_loop (length value) value.

(** ** What UTF-8 is *)

(** The Unicode scalar values: the code points that are not surrogates. *)
Definition scalar (c : Z) : Prop := 0 ≤ c < 0xd800 ∨ 0xe000 ≤ c ≤ 0x10ffff.

(** The encoding of a scalar value (RFC 3629, section 3). *)
Definition utf8_char (c : Z) : bytes :=
  byte_of <$>
    (if c <? 0x80 then [c]
     else if c <? 0x800 then [0xc0 + c / 64; 0x80 + c mod 64]
     else if c <? 0x10000 then [0xe0 + c / 4096; 0x80 + c / 64 mod 64; 0x80 + c mod 64]
     else [0xf0 + c / 262144; 0x80 + c / 4096 mod 64; 0x80 + c / 64 mod 64; 0x80 + c mod 64]).

Definition utf8_encode (cs : list Z) : bytes := cs ≫= utf8_char.

(** ** The test is right *)

Lemma byte_val_of_small z : 0 ≤ z < 256 → byte_val (byte_of z) = z.
Proof. intros. rewrite byte_val_of. by apply Z.mod_small. Qed.

Ltac byte_ranges :=
  repeat match goal with
  | b : byte |- _ =>
      lazymatch goal with
      | H : 0 ≤ byte_val b < 256 |- _ => fail
      | _ => pose proof (byte_val_range b)
      end
  end.

Lemma scalar_ascii b : byte_val b ≤ 0x7f → scalar (byte_val b) ∧ utf8_char (byte_val b) = [b].
Proof.
  intros Hb. byte_ranges. split; [unfold scalar; lia|]. unfold utf8_char.
  rewrite (proj2 (Z.ltb_lt _ _)) by lia. cbn. by rewrite byte_of_val.
Qed.

(** A continuation byte carries six bits. *)
Lemma continues_spec b : continues b = true ↔ 0x80 ≤ byte_val b ≤ 0xbf.
Proof. unfold continues. bool_facts. lia. Qed.

(** Bytes with the right values are an encoding. *)
Lemma utf8_char_2 c a b : 0x80 ≤ c < 0x800 → byte_val a = 0xc0 + c / 64 → byte_val b = 0x80 + c mod 64 →
  utf8_char c = [a; b].
Proof.
  intros Hc Ha Hb. unfold utf8_char. rewrite (proj2 (Z.ltb_ge _ _)), (proj2 (Z.ltb_lt _ _)) by lia.
  cbn. by rewrite <- Ha, <- Hb, !byte_of_val.
Qed.
Lemma utf8_char_3 c a b d : 0x800 ≤ c < 0x10000 → byte_val a = 0xe0 + c / 4096 →
  byte_val b = 0x80 + c / 64 mod 64 → byte_val d = 0x80 + c mod 64 → utf8_char c = [a; b; d].
Proof.
  intros Hc Ha Hb Hd. unfold utf8_char.
  rewrite (proj2 (Z.ltb_ge c 0x80)), (proj2 (Z.ltb_ge c 0x800)), (proj2 (Z.ltb_lt _ _)) by lia.
  cbn -[Z.div Z.modulo]. by rewrite <- Ha, <- Hb, <- Hd, !byte_of_val.
Qed.
Lemma utf8_char_4 c a b d e : 0x10000 ≤ c → byte_val a = 0xf0 + c / 262144 →
  byte_val b = 0x80 + c / 4096 mod 64 → byte_val d = 0x80 + c / 64 mod 64 → byte_val e = 0x80 + c mod 64 →
  utf8_char c = [a; b; d; e].
Proof.
  intros Hc Ha Hb Hd He. unfold utf8_char.
  rewrite (proj2 (Z.ltb_ge c 0x80)), (proj2 (Z.ltb_ge c 0x800)), (proj2 (Z.ltb_ge c 0x10000)) by lia.
  cbn -[Z.div Z.modulo]. by rewrite <- Ha, <- Hb, <- Hd, <- He, !byte_of_val.
Qed.

Lemma lead_byte_some first count lo hi : lead_byte first = Some (count, lo, hi) →
  (count = 1%nat ∧ 0xc2 ≤ first ≤ 0xdf ∧ lo = 0x80 ∧ hi = 0xbf) ∨
  (count = 2%nat ∧ 0xe0 ≤ first ≤ 0xef ∧ lo = (if first =? 0xe0 then 0xa0 else 0x80) ∧
     hi = (if first =? 0xed then 0x9f else 0xbf)) ∨
  (count = 3%nat ∧ 0xf0 ≤ first ≤ 0xf4 ∧ lo = (if first =? 0xf0 then 0x90 else 0x80) ∧
     hi = (if first =? 0xf4 then 0x8f else 0xbf)).
Proof.
  unfold lead_byte. intros H.
  repeat case_match; simplify_eq; bool_facts; try (left; lia); try (right; left; lia);
    try (right; right; lia).
Qed.

(** The head of a string the loop accepts is the encoding of a scalar value. *)
Lemma utf8_head fuel first rest : utf8_loop (S fuel) (first :: rest) = true →
  ∃ c rest', scalar c ∧ first :: rest = utf8_char c ++ rest' ∧ utf8_loop fuel rest' = true ∧
    (length rest' ≤ length rest)%nat.
Proof.
  cbn [utf8_loop]. destruct (Z.leb_spec (byte_val first) 0x7f).
  { intros H'. destruct (scalar_ascii first) as [? E]; [lia|]. exists (byte_val first), rest. by rewrite E. }
  destruct (lead_byte (byte_val first)) as [[[count lo] hi]|] eqn:Hlead; [|done].
  apply lead_byte_some in Hlead.
  destruct (Nat.ltb_spec (length rest) count); [done|]. destruct rest as [|second others]; [done|].
  destruct (_ || _) eqn:Hsecond; [done|]. destruct (negb _) eqn:Hthird; [done|]. intros Hloop.
  apply negb_false_iff in Hthird. rewrite List.forallb_forall in Hthird. bool_facts. byte_ranges. cbn [length] in *.
  destruct Hlead as [(-> & ? & -> & ->)|[(-> & ? & -> & ->)|(-> & ? & -> & ->)]]; cbn in Hloop, Hthird.
  - exists ((byte_val first - 0xc0) * 64 + (byte_val second - 0x80)), others.
    rewrite (utf8_char_2 _ first second) by (Z.to_euclidean_division_equations; lia).
    split_and!; [left; lia|done|done|lia].
  - destruct others as [|third others]; [cbn in *; lia|].
    assert (0x80 ≤ byte_val third ≤ 0xbf) by (apply continues_spec, Hthird; cbn; auto).
    exists ((byte_val first - 0xe0) * 4096 + (byte_val second - 0x80) * 64 + (byte_val third - 0x80)), others.
    rewrite (utf8_char_3 _ first second third) by (repeat case_match; Z.to_euclidean_division_equations; lia).
    split_and!; [unfold scalar; repeat case_match; lia|done|done|cbn; lia].
  - destruct others as [|third [|fourth others]]; [cbn in *; lia..|].
    assert (0x80 ≤ byte_val third ≤ 0xbf) by (apply continues_spec, Hthird; cbn; auto).
    assert (0x80 ≤ byte_val fourth ≤ 0xbf) by (apply continues_spec, Hthird; cbn; auto).
    exists ((byte_val first - 0xf0) * 262144 + (byte_val second - 0x80) * 4096 +
            (byte_val third - 0x80) * 64 + (byte_val fourth - 0x80)), others.
    rewrite (utf8_char_4 _ first second third fourth)
      by (repeat case_match; Z.to_euclidean_division_equations; lia).
    split_and!; [unfold scalar; repeat case_match; lia|done|done|cbn; lia].
Qed.

Lemma utf8_loop_sound fuel value : utf8_loop fuel value = true →
  ∃ cs, Forall scalar cs ∧ value = utf8_encode cs.
Proof.
  revert value. induction fuel as [|fuel IH]; intros [|first rest] H; try done; try by exists [].
  destruct (utf8_head _ _ _ H) as (c & rest' & Hc & E & Hrest & _).
  destruct (IH rest' Hrest) as (cs & Hcs & ->). exists (c :: cs). split; [by constructor|]. by rewrite E.
Qed.

(** One turn over a longer sequence. *)
Lemma utf8_turn fuel first second others count lo hi :
  0x7f < byte_val first → lead_byte (byte_val first) = Some (count, lo, hi) →
  (count ≤ S (length others))%nat → lo ≤ byte_val second ≤ hi →
  forallb continues (take (count - 1) others) = true →
  utf8_loop (S fuel) (first :: second :: others) = utf8_loop fuel (drop count (second :: others)).
Proof.
  intros Hf Hl Hc Hs Ho. cbn [utf8_loop]. rewrite (proj2 (Z.leb_gt _ _)), Hl by lia.
  rewrite (proj2 (Nat.ltb_ge _ _)) by (cbn; lia).
  by rewrite (proj2 (Z.ltb_ge _ _)), (proj2 (Z.ltb_ge _ _)), Ho by lia.
Qed.

Lemma lead_byte_2 z : 0xc2 ≤ z ≤ 0xdf → lead_byte z = Some (1%nat, 0x80, 0xbf).
Proof. intros. unfold lead_byte. repeat case_match; bool_facts; try lia; done. Qed.
Lemma lead_byte_3 z : 0xe0 ≤ z ≤ 0xef →
  lead_byte z = Some (2%nat, if z =? 0xe0 then 0xa0 else 0x80, if z =? 0xed then 0x9f else 0xbf).
Proof. intros. unfold lead_byte. repeat case_match; bool_facts; try lia; done. Qed.
Lemma lead_byte_4 z : 0xf0 ≤ z ≤ 0xf4 →
  lead_byte z = Some (3%nat, if z =? 0xf0 then 0x90 else 0x80, if z =? 0xf4 then 0x8f else 0xbf).
Proof. intros. unfold lead_byte. repeat case_match; bool_facts; try lia; done. Qed.

(** Arithmetic on the digits of a scalar value in base 64. *)
Ltac digits := unfold scalar in *; Z.to_euclidean_division_equations; lia.

(** The loop over the encoding of a scalar value. *)
Lemma utf8_loop_char fuel c rest : scalar c →
  utf8_loop (S fuel) (utf8_char c ++ rest) = utf8_loop fuel rest.
Proof.
  intros Hc. unfold utf8_char.
  assert (∀ z, 0 ≤ z < 256 → byte_val (byte_of z) = z) as Hval by apply byte_val_of_small.
  destruct (Z.ltb_spec c 0x80); [|destruct (Z.ltb_spec c 0x800); [|destruct (Z.ltb_spec c 0x10000)]];
    cbn [fmap list_fmap app].
  - cbn [utf8_loop]. rewrite Hval by digits. by rewrite (proj2 (Z.leb_le _ _)) by lia.
  - pose proof (Hval (0xc0 + c / 64) ltac:(digits)) as E1.
    pose proof (Hval (0x80 + c mod 64) ltac:(digits)) as E2.
    pose proof (lead_byte_2 (0xc0 + c / 64) ltac:(digits)) as L. rewrite <- E1 in L.
    rewrite (utf8_turn _ _ _ _ _ _ _ ltac:(rewrite E1; digits) L); [done|cbn; lia|rewrite E2; digits|done].
  - pose proof (Hval (0xe0 + c / 4096) ltac:(digits)) as E1.
    pose proof (Hval (0x80 + c / 64 mod 64) ltac:(digits)) as E2.
    pose proof (Hval (0x80 + c mod 64) ltac:(digits)) as E3.
    pose proof (lead_byte_3 (0xe0 + c / 4096) ltac:(digits)) as L. rewrite <- E1 in L at 1.
    rewrite (utf8_turn _ _ _ _ _ _ _ ltac:(rewrite E1; digits) L); [done|cbn; lia| |].
    + rewrite E2. repeat case_match; bool_facts; digits.
    + cbn -[Z.div Z.modulo]. rewrite (proj2 (continues_spec _)); [done|rewrite E3; digits].
  - pose proof (Hval (0xf0 + c / 262144) ltac:(digits)) as E1.
    pose proof (Hval (0x80 + c / 4096 mod 64) ltac:(digits)) as E2.
    pose proof (Hval (0x80 + c / 64 mod 64) ltac:(digits)) as E3.
    pose proof (Hval (0x80 + c mod 64) ltac:(digits)) as E4.
    pose proof (lead_byte_4 (0xf0 + c / 262144) ltac:(digits)) as L. rewrite <- E1 in L at 1.
    rewrite (utf8_turn _ _ _ _ _ _ _ ltac:(rewrite E1; digits) L); [done|cbn; lia| |].
    + rewrite E2. repeat case_match; bool_facts; digits.
    + cbn -[Z.div Z.modulo]. rewrite !(proj2 (continues_spec _)); [done|rewrite E4; digits|rewrite E3; digits].
Qed.

Lemma utf8_char_length c : (1 ≤ length (utf8_char c))%nat.
Proof. unfold utf8_char. repeat case_match; cbn; lia. Qed.

Lemma utf8_loop_complete cs fuel : Forall scalar cs → (length (utf8_encode cs) ≤ fuel)%nat →
  utf8_loop fuel (utf8_encode cs) = true.
Proof.
  revert fuel. induction cs as [|c cs IH]; intros fuel Hcs Hfuel; [by destruct fuel|].
  apply Forall_cons in Hcs as [Hc Hcs]. cbn in Hfuel |- *. rewrite length_app in Hfuel.
  pose proof (utf8_char_length c). destruct fuel as [|fuel]; [lia|].
  rewrite utf8_loop_char by done. apply IH; [done|]. unfold utf8_encode. cbn in *. lia.
Qed.

Lemma is_valid_utf8_spec value :
  is_valid_utf8 value = true ↔ ∃ cs, Forall scalar cs ∧ value = utf8_encode cs.
Proof.
  split; [apply utf8_loop_sound|]. intros (cs & Hcs & ->). by apply utf8_loop_complete.
Qed.

(** Valid strings concatenate. *)
Lemma is_valid_utf8_app s t : is_valid_utf8 s = true → is_valid_utf8 t = true → is_valid_utf8 (s ++ t) = true.
Proof.
  rewrite !is_valid_utf8_spec. intros (cs & Hcs & ->) (ds & Hds & ->). exists (cs ++ ds).
  split; [by apply Forall_app|]. unfold utf8_encode. by rewrite bind_app.
Qed.

(** ASCII is valid. *)
Lemma is_valid_utf8_ascii s : Forall (λ b, byte_val b ≤ 0x7f) s → is_valid_utf8 s = true.
Proof.
  intros Hs. apply is_valid_utf8_spec. exists (byte_val <$> s). induction Hs as [|b s Hb Hs [IH1 IH2]]; [done|].
  destruct (scalar_ascii b Hb) as [Hc Hb']. split; [by constructor|]. cbn. rewrite Hb'. cbn. by f_equal.
Qed.

(** C20: A string passes exactly when it is the UTF-8 encoding of a sequence of Unicode
    scalar values: no overlong forms, no surrogates, nothing above U+10FFFF, nothing cut. *)
Theorem utf8_exact value :
  is_valid_utf8 value = true ↔ ∃ cs, Forall scalar cs ∧ value = utf8_encode cs.
Proof. apply is_valid_utf8_spec. Qed.

#[global] Arguments is_valid_utf8 : simpl never.
