(* ===== verification/JsonText.v ===== *)
(** * JSON

    What a JSON text is, apart from any code that writes one: values, the compact text
    of a value, and a parser for RFC 8259.  The parser is the reference the writers are
    held against: it reads the text of every value back, and rejects what is not JSON.
    Numbers are integers; the reports print no others. *)

From S2P Require Import Prelude Bytes Text Utf8.

(** ** Values *)

#[local] Unset Elimination Schemes.
Inductive json : Type :=
  | JNull
  | JBool (b : bool)
  | JNumber (n : Z)
  | JString (s : bytes)
  | JArray (elements : list json)
  | JObject (members : list (bytes * json)).
#[local] Set Elimination Schemes.

(** Induction through the lists of values. *)
Lemma json_ind' (P : json → Prop) :
  P JNull → (∀ b, P (JBool b)) → (∀ n, P (JNumber n)) → (∀ s, P (JString s)) →
  (∀ l, Forall P l → P (JArray l)) → (∀ l, Forall (λ m, P m.2) l → P (JObject l)) → ∀ v, P v.
Proof.
  intros Hnull Hbool Hnumber Hstring Harray Hobject.
  refine (fix IH v : P v := match v with
    | JNull => Hnull | JBool b => Hbool b | JNumber n => Hnumber n | JString s => Hstring s
    | JArray l => Harray l ((fix all l : Forall P l :=
        match l with [] => Forall_nil_2 _ | v :: l => Forall_cons_2 _ _ _ (IH v) (all l) end) l)
    | JObject l => Hobject l ((fix all l : Forall (λ m, P m.2) l :=
        match l with [] => Forall_nil_2 _ | m :: l => Forall_cons_2 _ _ _ (IH m.2) (all l) end) l)
    end).
Qed.

(** ** The compact text of a value *)

Definition hex_digit (d : Z) : byte := digit_char d.

(** A character of a string literal. *)
Definition escape_json (b : byte) : bytes :=
  if Byte.eqb b x22 then [x5c; x22]
  else if Byte.eqb b x5c then [x5c; x5c]
  else if Byte.eqb b x08 then [x5c; x62]
  else if Byte.eqb b x0c then [x5c; x66]
  else if Byte.eqb b x0a then [x5c; x6e]
  else if Byte.eqb b x0d then [x5c; x72]
  else if Byte.eqb b x09 then [x5c; x74]
  else if byte_val b <? 0x20
  then [x5c; x75; x30; x30; hex_digit (Z.shiftr (byte_val b) 4); hex_digit (Z.land (byte_val b) 15)]
  else [b].

Definition string_text (s : bytes) : bytes := [x22] ++ (s ≫= escape_json) ++ [x22].

(** [separated [x2c] l] is the parts of [l] with commas in between. *)
Fixpoint separated (separator : bytes) (l : list bytes) : bytes :=
  match l with
  | [] => []
  | [part] => part
  | part :: l => part ++ separator ++ separated separator l
  end.

Fixpoint render (v : json) : bytes :=
  match v with
  | JNull => text "null"
  | JBool b => text (if b then "true" else "false")
  | JNumber n => to_chars_signed n
  | JString s => string_text s
  | JArray l => [x5b] ++ separated [x2c] (map render l) ++ [x5d]
  | JObject l => [x7b] ++ separated [x2c] (map (λ m, string_text m.1 ++ [x3a] ++ render m.2) l) ++ [x7d]
  end.

(** ** The reference parser *)

Definition is_space (b : byte) : bool :=
  Byte.eqb b x20 || Byte.eqb b x09 || Byte.eqb b x0a || Byte.eqb b x0d.

Fixpoint skip_space (s : bytes) : bytes :=
  match s with b :: rest => if is_space b then skip_space rest else s | [] => [] end.

Definition hex4 (a b c d : byte) : option Z :=
  a ← digit_value 16 a; b ← digit_value 16 b; c ← digit_value 16 c; d ← digit_value 16 d;
  Some (((a * 16 + b) * 16 + c) * 16 + d).

(** The escapes of one letter. *)
Definition short_escape (b : byte) : option byte :=
  if Byte.eqb b x22 then Some x22 else if Byte.eqb b x5c then Some x5c
  else if Byte.eqb b x2f then Some x2f else if Byte.eqb b x62 then Some x08
  else if Byte.eqb b x66 then Some x0c else if Byte.eqb b x6e then Some x0a
  else if Byte.eqb b x72 then Some x0d else if Byte.eqb b x74 then Some x09
  else None.

(** After the opening quote.  A surrogate escape is refused, paired or not. *)
Fixpoint parse_chars (s : bytes) : option (bytes * bytes) :=
  match s with
  | [] => None
  | b :: rest =>
      if Byte.eqb b x22 then Some ([], rest)
      else if byte_val b <? 0x20 then None
      else if negb (Byte.eqb b x5c) then r ← parse_chars rest; Some (b :: r.1, r.2)
      else match rest with
           | [] => None
           | e :: rest =>
               if Byte.eqb e x75
               then match rest with
                    | a :: b :: c :: d :: rest =>
                        code ← hex4 a b c d;
                        if (0xd800 <=? code) && (code <? 0xe000) then None
                        else r ← parse_chars rest; Some (utf8_char code ++ r.1, r.2)
                    | _ => None
                    end
               else c ← short_escape e; r ← parse_chars rest; Some (c :: r.1, r.2)
           end
  end.

Definition parse_string (s : bytes) : option (bytes * bytes) :=
  match s with
  | b :: rest =>
      if Byte.eqb b x22
      then r ← parse_chars rest; if is_valid_utf8 r.1 then Some r else None
      else None
  | [] => None
  end.

(** Digits without a leading zero. *)
Definition parse_digits (s : bytes) : option (Z * bytes) :=
  match digit_run 10 s with
  | ([], _) => None
  | (0 :: _ :: _, _) => None
  | (digits, rest) => Some (number_of 10 digits, rest)
  end.

Definition parse_number (s : bytes) : option (json * bytes) :=
  match s with
  | b :: rest =>
      if Byte.eqb b x2d then r ← parse_digits rest; Some (JNumber (- r.1), r.2)
      else r ← parse_digits s; Some (JNumber r.1, r.2)
  | [] => None
  end.

(** [s] without the prefix [p]. *)
Fixpoint expect (p s : bytes) : option bytes :=
  match p, s with
  | [], _ => Some s
  | a :: p, b :: s => if Byte.eqb a b then expect p s else None
  | _, [] => None
  end.

Definition head_is (b : byte) (s : bytes) : bool :=
  match s with c :: _ => Byte.eqb b c | [] => false end.

(** Values nest at most as deep as the text is long, which is the fuel. *)
Fixpoint parse_value (fuel : nat) (s : bytes) : option (json * bytes) :=
  match fuel with
  | O => None
  | S fuel =>
      let s := skip_space s in
      if head_is x22 s then r ← parse_string s; Some (JString r.1, r.2)
      else if head_is x5b s then
        let s := skip_space (drop 1 s) in
        if head_is x5d s then Some (JArray [], drop 1 s)
        else r ← parse_elements fuel s; Some (JArray r.1, r.2)
      else if head_is x7b s then
        let s := skip_space (drop 1 s) in
        if head_is x7d s then Some (JObject [], drop 1 s)
        else r ← parse_members fuel s; Some (JObject r.1, r.2)
      else if head_is x6e s then (λ s, (JNull, s)) <$> expect (text "null") s
      else if head_is x74 s then (λ s, (JBool true, s)) <$> expect (text "true") s
      else if head_is x66 s then (λ s, (JBool false, s)) <$> expect (text "false") s
      else parse_number s
  end
with parse_elements (fuel : nat) (s : bytes) : option (list json * bytes) :=
  match fuel with
  | O => None
  | S fuel =>
      r ← parse_value fuel s;
      let s := skip_space r.2 in
      if head_is x5d s then Some ([r.1], drop 1 s)
      else s ← expect [x2c] s; l ← parse_elements fuel s; Some (r.1 :: l.1, l.2)
  end
with parse_members (fuel : nat) (s : bytes) : option (list (bytes * json) * bytes) :=
  match fuel with
  | O => None
  | S fuel =>
      k ← parse_string (skip_space s);
      s ← expect [x3a] (skip_space k.2);
      r ← parse_value fuel s;
      let s := skip_space r.2 in
      if head_is x7d s then Some ([(k.1, r.1)], drop 1 s)
      else s ← expect [x2c] s; l ← parse_members fuel s; Some ((k.1, r.1) :: l.1, l.2)
  end.

(** A JSON text is one value with white space around it. *)
Definition json_parse (s : bytes) : option json :=
  r ← parse_value (S (length s)) s;
  match skip_space r.2 with [] => Some r.1 | _ => None end.

(** ** Every value reads back *)

(** The values that have a text: strings are UTF-8, numbers are 64 bits with a sign. *)
Fixpoint json_ok (v : json) : Prop :=
  match v with
  | JNull | JBool _ => True
  | JNumber n => - 2 ^ 64 < n < 2 ^ 64
  | JString s => is_valid_utf8 s = true
  | JArray l => foldr and True (map json_ok l)
  | JObject l => foldr and True (map (λ m, is_valid_utf8 m.1 = true ∧ json_ok m.2) l)
  end.

Lemma foldr_and {A} (P : A → Prop) l : foldr and True (map P l) ↔ Forall P l.
Proof. induction l; cbn; [done|]. by rewrite Forall_cons, IHl. Qed.

Lemma byte_eqb_refl b : Byte.eqb b b = true.
Proof. by apply Byte.byte_dec_lb. Qed.

(** *** Strings *)

Lemma parse_chars_escape b rest :
  parse_chars (escape_json b ++ rest) = r ← parse_chars rest; Some (b :: r.1, r.2).
Proof. destruct b; cbn; try done; destruct (parse_chars rest) as [[]|]; reflexivity. Qed.

Lemma parse_chars_text s rest : parse_chars ((s ≫= escape_json) ++ x22 :: rest) = Some (s, rest).
Proof.
  induction s as [|b s IH]; [done|]. rewrite bind_cons, <- app_assoc, parse_chars_escape. by rewrite IH.
Qed.

Lemma parse_string_text s rest : is_valid_utf8 s = true → parse_string (string_text s ++ rest) = Some (s, rest).
Proof.
  intros Hs. unfold string_text. cbn. rewrite <- app_assoc. cbn. rewrite parse_chars_text. cbn. by rewrite Hs.
Qed.

(** *** Numbers *)

(** What may follow a number. *)
Definition delimited (rest : bytes) : Prop := ∀ c s, rest = c :: s → digit_value 10 c = None.

Lemma parse_digits_text n rest : u64 n → delimited rest → parse_digits (to_chars 10 n ++ rest) = Some (n, rest).
Proof.
  intros Hn Hrest. destruct (to_chars_spec 10 n ltac:(lia) Hn) as (digits & E & Hne & Hall & <-).
  pose proof (to_chars_canonical 10 _ digits ltac:(lia) Hn E Hall) as Hc.
  rewrite E. unfold parse_digits. rewrite digit_run_app by (done || lia).
  by destruct digits as [|[] [|]].
Qed.

(** The first byte of a number is a digit or a minus sign. *)
Definition starts_number (s : bytes) : Prop :=
  ∃ c s', s = c :: s' ∧ (0x30 ≤ byte_val c ≤ 0x39 ∨ c = x2d).

Lemma to_chars_starts n rest : u64 n → ∃ c s, to_chars 10 n ++ rest = c :: s ∧ 0x30 ≤ byte_val c ≤ 0x39.
Proof.
  intros Hn. destruct (to_chars_spec 10 n ltac:(lia) Hn) as (digits & -> & Hne & Hall & _).
  destruct digits as [|d digits]; [done|]. apply Forall_cons in Hall as [Hd _]. cbn. eexists _, _. split; [done|].
  unfold digit_char. rewrite (proj2 (Z.ltb_lt _ _)) by lia. rewrite byte_val_of_small by lia. lia.
Qed.

Lemma parse_number_text n rest : - 2 ^ 64 < n < 2 ^ 64 → delimited rest →
  starts_number (to_chars_signed n ++ rest) ∧ parse_number (to_chars_signed n ++ rest) = Some (JNumber n, rest).
Proof.
  intros Hn Hrest. unfold to_chars_signed. destruct (Z.ltb_spec n 0).
  - split; [by eexists _, _; split; [done|right]|]. change (byte_of 45) with x2d. cbn [app parse_number].
    rewrite byte_eqb_refl, parse_digits_text by (done || word). cbn. by rewrite Z.opp_involutive.
  - destruct (to_chars_starts n rest) as (c & s & E & Hc); [word|]. split; [rewrite E; eexists _, _; eauto|].
    rewrite E. cbn [parse_number]. destruct (Byte.eqb c x2d) eqn:Ec.
    { apply Byte.byte_dec_bl in Ec as ->. unfold byte_val in Hc. cbn in Hc. lia. }
    rewrite <- E, parse_digits_text by (done || word). done.
Qed.

(** *** Values *)

(** The first byte of the text of a value, and what it says. *)
Lemma starts_number_head s : starts_number s →
  skip_space s = s ∧ head_is x22 s = false ∧ head_is x5b s = false ∧ head_is x7b s = false ∧
  head_is x6e s = false ∧ head_is x74 s = false ∧ head_is x66 s = false ∧ head_is x5d s = false.
Proof.
  intros (c & s' & -> & [Hc| ->]); [|done]. unfold byte_val in Hc.
  destruct c; try done; exfalso; cbn in Hc; lia.
Qed.

Lemma render_head v rest : json_ok v → delimited rest →
  skip_space (render v ++ rest) = render v ++ rest ∧ head_is x5d (render v ++ rest) = false.
Proof.
  intros Hok Hrest. destruct v as [|[]|n|s|l|l]; try done.
  destruct (parse_number_text n rest Hok Hrest) as [Hs _]. by apply starts_number_head in Hs as (? & _ & _ & _ & _ & _ & _ & ?).
Qed.

Definition reads (v : json) : Prop := ∀ fuel rest,
  (length (render v) ≤ fuel)%nat → delimited rest → parse_value fuel (render v ++ rest) = Some (v, rest).

Lemma delimited_cons c rest : digit_value 10 c = None → delimited (c :: rest).
Proof. by intros H c' s [= <- <-]. Qed.

Lemma length_string_text s : (2 ≤ length (string_text s))%nat.
Proof. unfold string_text. rewrite !length_app. cbn. lia. Qed.

Lemma render_length v : json_ok v → (1 ≤ length (render v))%nat.
Proof.
  destruct v as [|[]|n|s| |]; cbn [render]; try (cbn; lia).
  - intros Hn. destruct (parse_number_text n [] Hn) as [(c & s & E & _) _]; [done|].
    rewrite app_nil_r in E. rewrite E. cbn. lia.
Qed.

Lemma separated_cons2 sep a b l : separated sep (a :: b :: l) = a ++ sep ++ separated sep (b :: l).
Proof. done. Qed.

Lemma parse_elements_text l : l ≠ [] → Forall reads l → ∀ fuel rest,
  (length (separated [x2c] (map render l)) < fuel)%nat →
  parse_elements fuel (separated [x2c] (map render l) ++ x5d :: rest) = Some (l, rest).
Proof.
  induction l as [|v l IH]; [done|]. intros _ [Hv Hl]%Forall_cons fuel rest Hfuel.
  destruct fuel as [|fuel]; [lia|]. cbn [parse_elements]. destruct l as [|v' l].
  - cbn in Hfuel |- *. rewrite Hv by (lia || by apply delimited_cons). done.
  - cbn [map] in *. rewrite separated_cons2 in *. rewrite !length_app in Hfuel. cbn [length] in Hfuel.
    rewrite <- !app_assoc. cbn [app]. rewrite Hv by (lia || by apply delimited_cons).
    cbn -[separated parse_elements]. rewrite IH by (done || lia). done.
Qed.

Definition member_text (m : bytes * json) : bytes := string_text m.1 ++ [x3a] ++ render m.2.

Lemma string_text_head s rest : ∃ t, string_text s ++ rest = x22 :: t.
Proof. by eexists. Qed.

Lemma skip_space_string s rest : skip_space (string_text s ++ rest) = string_text s ++ rest.
Proof. by destruct (string_text_head s rest) as [t ->]. Qed.

Lemma parse_members_text l : l ≠ [] → Forall (λ m, is_valid_utf8 m.1 = true) l → Forall (λ m, reads m.2) l →
  ∀ fuel rest, (length (separated [x2c] (map member_text l)) < fuel)%nat →
  parse_members fuel (separated [x2c] (map member_text l) ++ x7d :: rest) = Some (l, rest).
Proof.
  induction l as [|[k v] l IH]; [done|]. intros _ [Hk Hks]%Forall_cons [Hv Hl]%Forall_cons fuel rest Hfuel.
  cbn [fst snd] in Hk, Hv. destruct fuel as [|fuel]; [lia|]. cbn [parse_members]. destruct l as [|m l].
  - cbn [map separated] in *. unfold member_text in *. cbn [fst snd] in *. rewrite !length_app in Hfuel.
    cbn [length] in Hfuel. rewrite <- !app_assoc, skip_space_string, parse_string_text by done.
    cbn -[parse_value]. rewrite Hv by (lia || by apply delimited_cons). done.
  - cbn [map] in *. rewrite separated_cons2 in *. unfold member_text at 1 in Hfuel. unfold member_text at 1.
    cbn [fst snd] in *. rewrite !length_app in Hfuel. cbn [length] in Hfuel.
    rewrite <- !app_assoc, skip_space_string, parse_string_text by done. cbn -[parse_value separated parse_members].
    rewrite Hv by (lia || by apply delimited_cons). cbn -[separated parse_members].
    rewrite IH by (done || lia). done.
Qed.

Lemma separated_head sep part l rest c s : part ++ rest = c :: s → part ≠ [] →
  ∃ s', separated sep (part :: l) ++ rest = c :: s'.
Proof.
  intros E Hne. destruct part as [|c' part]; [done|]. injection E as -> _. destruct l; cbn; eauto.
Qed.

Lemma render_reads v : json_ok v → reads v.
Proof.
  induction v as [|b|n|s|l IH|l IH] using json_ind'; intros Hok fuel rest Hfuel Hrest;
    (destruct fuel as [|fuel]; [pose proof (render_length _ Hok); lia|]).
  - done.
  - by destruct b.
  - destruct (parse_number_text n rest Hok Hrest) as [Hs Hp]. cbn [parse_value render].
    destruct (starts_number_head _ Hs) as (-> & -> & -> & -> & -> & -> & -> & _). done.
  - cbn [parse_value render]. rewrite skip_space_string, parse_string_text by done. done.
  - cbn [json_ok] in Hok. apply foldr_and in Hok.
    assert (Forall reads l) as Hl
      by (rewrite Forall_forall in IH, Hok |- *; auto).
    cbn [render] in *. rewrite !length_app in Hfuel. cbn [length] in Hfuel. rewrite <- !app_assoc. cbn [app].
    destruct (decide (l = [])) as [->|Hne]; [done|]. cbn -[separated parse_elements map]. rewrite drop_0.
    assert (skip_space (separated [x2c] (map render l) ++ x5d :: rest) = separated [x2c] (map render l) ++ x5d :: rest
      ∧ head_is x5d (separated [x2c] (map render l) ++ x5d :: rest) = false) as [-> ->].
    { destruct l as [|v l]; [done|]. apply Forall_cons in Hok as [Hv _]. cbn [map].
      destruct l as [|v' l]; cbn [separated map]; rewrite <- ?app_assoc; cbn [app]; apply render_head; try done;
        by apply delimited_cons. }
    rewrite parse_elements_text by (done || lia). done.
  - cbn [json_ok] in Hok. apply foldr_and in Hok.
    assert (Forall (λ m, reads m.2) l) as Hl
      by (rewrite Forall_forall in IH, Hok |- *; intros m Hm; apply IH; [done|by apply Hok]).
    assert (Forall (λ m, is_valid_utf8 m.1 = true) l) as Hk by (eapply Forall_impl; [exact Hok|]; naive_solver).
    cbn [render] in *. change (λ m, string_text m.1 ++ [x3a] ++ render m.2) with member_text in *.
    rewrite !length_app in Hfuel. cbn [length] in Hfuel. rewrite <- !app_assoc. cbn [app].
    destruct (decide (l = [])) as [->|Hne]; [done|]. cbn -[separated parse_members map].
    assert (∃ s, separated [x2c] (map member_text l) ++ x7d :: rest = x22 :: s) as [t E].
    { destruct l as [|m [|m' l]]; [done|by eexists..]. }
    rewrite E. cbn -[parse_members]. rewrite ?drop_0, <- E, parse_members_text by (done || lia). done.
Qed.

(** White space may follow. *)
Lemma json_parse_render v space : json_ok v → Forall (λ b, is_space b = true) space →
  json_parse (render v ++ space) = Some v.
Proof.
  intros Hok Hspace. unfold json_parse. rewrite render_reads; [|done|rewrite length_app; lia|].
  - cbn. assert (skip_space space = []) as ->; [|done]. induction Hspace as [|b l Hb _ IH]; [done|]. cbn. by rewrite Hb.
  - destruct Hspace as [|b l Hb]; [by intros ???|]. apply delimited_cons. by destruct b.
Qed.
