(* ===== verification/JsonEmitter.v ===== *)
(** * The JSON emitter

    [JsonEmitter], which json.cpp and symbol_listing.cpp both define, and what it means
    for code that calls it to print a value.  An emitter appends to its output and may
    throw, which leaves what it has written so far.

    The value a report should contain is built by the [build_...] functions of the
    writers' specifications, in the [result] monad, since a report that would contain a
    string that is not UTF-8 is refused.  [prints p r] says that [p] appends exactly the
    text of the value [r], or throws what [r] throws. *)

From S2P Require Import Prelude Bytes Text Utf8 JsonText.

(** ** Operations *)

Abbreviation emitter := (proc bytes exn unit).

(** A string literal of the source, with ['] for the quotation mark. *)
Definition literal (s : string) : bytes := (λ b, if Byte.eqb b x27 then x22 else b) <$> text s.

Definition emit (value : bytes) : emitter := modify (λ o, o ++ value).
Definition raw (value : string) : emitter := emit (literal value).

Fixpoint emit_chars (value : bytes) : emitter :=
  match value with
  | [] => mret tt
  | b :: value => emit (escape_json b) ;; emit_chars value
  end.

Section emitter.
(** The exception of the unit that defines the emitter. *)
Variable error : exn_class.

Definition emit_string (value : bytes) : emitter :=
  pure (throw_if (negb (is_valid_utf8 value)) error "JSON string is not valid UTF-8") ;;
  emit [x22] ;; emit_chars value ;; emit [x22].

(** The buffer of 32 characters holds every integer of 64 bits. *)
Definition unsigned_number (value : Z) : emitter := emit (to_chars 10 (wrap64 value)).
Definition signed_number (value : Z) : emitter := emit (to_chars_signed (signed64 (wrap64 value))).
Definition boolean (value : bool) : emitter := raw (if value then "true" else "false").
Definition null : emitter := raw "null".

(** [if (!first) { json.raw(","); } first = false; body(element);] for each element. *)
Fixpoint emit_array {A} (body : A → emitter) (first : bool) (l : list A) : emitter :=
  match l with
  | [] => mret tt
  | element :: l =>
      (if negb first then raw "," else mret tt) ;; body element ;; emit_array body false l
  end.

(** ** Building values *)

Definition build_string (s : bytes) : result exn json :=
  throw_if (negb (is_valid_utf8 s)) error "JSON string is not valid UTF-8" ;; Ok (JString s).

(** Part of a literal of the writer. *)
Definition build_constant (s : string) : result exn json := Ok (JString (text s)).

Definition build_unsigned (n : Z) : result exn json := Ok (JNumber (wrap64 n)).
Definition build_signed (n : Z) : result exn json := Ok (JNumber (signed64 (wrap64 n))).
Definition build_bool (b : bool) : result exn json := Ok (JBool b).
Definition build_null : result exn json := Ok JNull.

Definition build_array {A} (body : A → result exn json) (l : list A) : result exn json :=
  JArray <$> mapM body l.

Fixpoint build_members (l : list (string * result exn json)) : result exn (list (bytes * json)) :=
  match l with
  | [] => Ok []
  | (key, value) :: l => v ← value; rest ← build_members l; Ok ((text key, v) :: rest)
  end.

Definition build_object (l : list (string * result exn json)) : result exn json :=
  JObject <$> build_members l.

(** ** What an emitter writes *)

Definition writes (p : emitter) (r : result exn bytes) : Prop :=
  ∀ o, match r with
       | Ok b => p o = (Ok tt, o ++ b)
       | Throw e => ∃ part, p o = (Throw e, o ++ part)
       end.

Definition prints (p : emitter) (r : result exn json) : Prop :=
  writes p (render <$> r) ∧ ∀ v, r = Ok v → json_ok v.

Lemma writes_bind p q r1 r2 : writes p r1 → writes q r2 →
  writes (p ;; q) (b1 ← r1; b2 ← r2; Ok (b1 ++ b2)).
Proof.
  intros Hp Hq o. specialize (Hp o). destruct r1 as [b1|e]; cbn.
  - rewrite (proc_bind_run _ _ _ _ _ Hp). specialize (Hq (o ++ b1)). destruct r2 as [b2|e]; cbn.
    + by rewrite Hq, app_assoc.
    + destruct Hq as [part ->]. exists (b1 ++ part). by rewrite app_assoc.
  - destruct Hp as [part Hp]. exists part. by rewrite (proc_throw_run _ _ _ _ _ Hp).
Qed.

Lemma writes_emit b : writes (emit b) (Ok b).
Proof. done. Qed.
Lemma writes_raw s : writes (raw s) (Ok (literal s)).
Proof. done. Qed.
Lemma writes_nothing : writes (mret tt) (Ok []).
Proof. intros o. by rewrite app_nil_r. Qed.
Lemma writes_pure m : writes (pure m) (m ;; Ok []).
Proof. intros o. destruct m as [[]|]; cbn; [by rewrite app_nil_r|]. exists []. by rewrite app_nil_r. Qed.
Lemma writes_throw {A} (m : result exn A) (f : A → emitter) (g : A → result exn bytes) :
  (∀ a, m = Ok a → writes (f a) (g a)) → writes (a ← pure m; f a) (a ← m; g a).
Proof.
  intros Hf o. destruct m as [a|e]; cbn; [by apply Hf|]. exists []. by rewrite app_nil_r.
Qed.
(** A computation that writes and returns a value. *)
Definition yields {A} (p : proc bytes exn A) (r : result exn (bytes * A)) : Prop :=
  ∀ o, match r with
       | Ok (b, a) => p o = (Ok a, o ++ b)
       | Throw e => ∃ part, p o = (Throw e, o ++ part)
       end.

Lemma yields_bind {A B} (p : proc bytes exn A) (f : A → proc bytes exn B) r (g : A → result exn (bytes * B)) :
  yields p r → (∀ a, yields (f a) (g a)) →
  yields (p ≫= f) (c ← r; d ← g c.2; Ok (c.1 ++ d.1, d.2)).
Proof.
  intros Hp Hf o. specialize (Hp o). destruct r as [[b a]|e]; cbn.
  - rewrite (proc_bind_run _ _ _ _ _ Hp). specialize (Hf a (o ++ b)). destruct (g a) as [[b' c]|e]; cbn.
    + by rewrite Hf, app_assoc.
    + destruct Hf as [part ->]. exists (b ++ part). by rewrite app_assoc.
  - destruct Hp as [part Hp]. exists part. by rewrite (proc_throw_run _ _ _ _ _ Hp).
Qed.

Lemma writes_yields p r : writes p r ↔ yields p ((λ b, (b, tt)) <$> r).
Proof. split; intros H o; specialize (H o); by destruct r. Qed.

Lemma yields_after {A} p (q : proc bytes exn A) r s : writes p r → yields q s →
  yields (p ;; q) (b ← r; d ← s; Ok (b ++ d.1, d.2)).
Proof.
  intros Hp Hq o. specialize (Hp o). destruct r as [b|e]; cbn.
  - rewrite (proc_bind_run _ _ _ _ _ Hp). specialize (Hq (o ++ b)). destruct s as [[b' c]|e]; cbn.
    + by rewrite Hq, app_assoc.
    + destruct Hq as [part ->]. exists (b ++ part). by rewrite app_assoc.
  - destruct Hp as [part Hp]. exists part. by rewrite (proc_throw_run _ _ _ _ _ Hp).
Qed.

Lemma yields_throw {A B} (m : result exn A) (f : A → proc bytes exn B) g :
  (∀ a, m = Ok a → yields (f a) (g a)) → yields (a ← pure m; f a) (a ← m; g a).
Proof.
  intros Hf o. destruct m as [a|e]; cbn; [by apply Hf|]. exists []. by rewrite app_nil_r.
Qed.

Lemma writes_yields_bind {A} (p : proc bytes exn A) (f : A → emitter) r (g : A → result exn bytes) :
  yields p r → (∀ a, writes (f a) (g a)) → writes (p ≫= f) (c ← r; d ← g c.2; Ok (c.1 ++ d)).
Proof.
  intros Hp Hf. apply writes_yields. intros o.
  pose proof (yields_bind p f r (λ a, (λ b, (b, tt)) <$> g a) Hp (λ a, proj1 (writes_yields _ _) (Hf a)) o) as H.
  destruct r as [[b a]|e]; cbn in *; [|done]. by destruct (g a).
Qed.

Lemma yields_ret {A} (a : A) : yields (mret a) (Ok ([], a)).
Proof. intros o. by rewrite app_nil_r. Qed.
Lemma yields_pure {A} (m : result exn A) : yields (pure m) ((λ a, ([], a)) <$> m).
Proof. intros o. destruct m; cbn; [by rewrite app_nil_r|]. exists []. by rewrite app_nil_r. Qed.
Lemma yields_eq {A} (p : proc bytes exn A) r r' : yields p r → r = r' → yields p r'.
Proof. by intros ? <-. Qed.

Lemma writes_prints p r : prints p r → writes p (render <$> r).
Proof. by intros []. Qed.
Lemma writes_eq p r r' : writes p r → r = r' → writes p r'.
Proof. by intros ? <-. Qed.

(** ** The leaves *)

Lemma emit_chars_run s o : emit_chars s o = (Ok tt, o ++ (s ≫= escape_json)).
Proof.
  revert o. induction s as [|b s IH]; intros o; cbn; [by rewrite app_nil_r|].
  unfold mbind at 1, proc_bind. cbn. rewrite IH. by rewrite app_assoc.
Qed.

Lemma prints_string s : prints (emit_string s) (build_string s).
Proof.
  unfold build_string, emit_string. split.
  - intros o. destruct (is_valid_utf8 s); cbn.
    + unfold mbind, proc_bind, emit, modify. cbn. rewrite emit_chars_run. cbn. unfold string_text.
      by rewrite <- !app_assoc.
    + exists []. by rewrite app_nil_r.
  - intros v. destruct (is_valid_utf8 s) eqn:E; cbn; [|done]. by intros [= <-].
Qed.

(** A string that is valid by its look: a key. *)
Lemma writes_key s : is_valid_utf8 s = true → writes (emit_string s) (Ok (string_text s)).
Proof.
  intros H. eapply writes_eq; [apply writes_prints, prints_string|]. unfold build_string. by rewrite H.
Qed.

Lemma prints_unsigned n : prints (unsigned_number n) (build_unsigned n).
Proof.
  split.
  - intros o. cbn. unfold to_chars_signed. pose proof (wrap64_u64 n) as H.
    rewrite (proj2 (Z.ltb_ge _ _)) by word. done.
  - intros v [= <-]. pose proof (wrap64_u64 n). cbn. word.
Qed.
Lemma prints_signed n : prints (signed_number n) (build_signed n).
Proof.
  split; [done|]. intros v [= <-]. pose proof (signed64_i64 (wrap64 n) (wrap64_u64 n)). cbn. word.
Qed.
Lemma prints_bool b : prints (boolean b) (build_bool b).
Proof. split; [by destruct b|]. by intros v [= <-]. Qed.
Lemma prints_null : prints null build_null.
Proof. split; [done|]. by intros v [= <-]. Qed.

(** ** Arrays and objects *)

(** The elements after the first, each with its comma. *)
Lemma writes_array_rest {A} (body : A → emitter) (g : A → result exn json) l :
  (∀ a, a ∈ l → prints (body a) (g a)) →
  writes (emit_array body false l) (vs ← mapM g l; Ok (vs ≫= λ v, [x2c] ++ render v)).
Proof.
  induction l as [|a l IH]; intros Hl; [apply writes_nothing|]. cbn [emit_array negb].
  eapply writes_eq.
  - apply writes_bind; [apply writes_raw|]. apply writes_bind; [apply writes_prints, Hl; set_solver|].
    apply IH. set_solver.
  - cbn [mapM]. cbn. destruct (g a) as [v|e]; [|done]. cbn. by destruct (mapM g l).
Qed.

Lemma separated_commas part l : separated [x2c] (part :: l) = part ++ (l ≫= λ p, [x2c] ++ p).
Proof.
  revert part. induction l as [|part' l IH]; intros part; [cbn; by rewrite app_nil_r|].
  rewrite separated_cons2, IH. done.
Qed.

Lemma commas_render vs : (map render vs ≫= λ p, [x2c] ++ p) = vs ≫= λ v, [x2c] ++ render v.
Proof. induction vs as [|v vs IH]; [done|]. cbn [map]. by rewrite !bind_cons, IH. Qed.

Lemma writes_array {A} (body : A → emitter) (g : A → result exn json) l :
  (∀ a, a ∈ l → prints (body a) (g a)) →
  writes (emit_array body true l) (vs ← mapM g l; Ok (separated [x2c] (map render vs))).
Proof.
  destruct l as [|a l]; intros Hl; [apply writes_nothing|]. cbn [emit_array negb]. eapply writes_eq.
  - apply writes_bind; [apply writes_nothing|]. apply writes_bind; [apply writes_prints, Hl; set_solver|].
    apply (writes_array_rest _ g). set_solver.
  - cbn [mapM]. cbn. destruct (g a) as [v|e]; [|done]. cbn. destruct (mapM g l) as [vs|e]; [|done].
    cbn -[separated]. rewrite separated_commas. do 2 f_equal. symmetry. apply commas_render.
Qed.

Lemma commas_members ms : (map member_text ms ≫= λ p, [x2c] ++ p) = ms ≫= λ m, [x2c] ++ member_text m.
Proof. induction ms as [|m ms IH]; [done|]. cbn [map]. by rewrite !bind_cons, IH. Qed.

(** An object whose members come in two parts. *)
Lemma render_first m ms more :
  render (JObject ((m :: ms) ++ more)) =
  [x7b] ++ member_text m ++ (ms ≫= λ m, [x2c] ++ member_text m) ++
  (more ≫= λ m, [x2c] ++ member_text m) ++ [x7d].
Proof.
  transitivity ([x7b] ++ separated [x2c] (map member_text (m :: ms ++ more)) ++ [x7d]); [done|].
  cbn [map]. rewrite separated_commas, commas_members, bind_app. by rewrite <- !(app_assoc (member_text m)), <- app_assoc.
Qed.

Lemma render_front front more : front ≠ [] →
  render (JObject (front ++ more)) =
  [x7b] ++ separated [x2c] (map member_text front) ++ (more ≫= λ m, [x2c] ++ member_text m) ++ [x7d].
Proof.
  destruct front as [|m front]; [done|]. intros _. rewrite render_first. cbn [map].
  by rewrite separated_commas, commas_members, <- !app_assoc.
Qed.

(** Only well-formed values. *)
Definition builds (r : result exn json) : Prop := ∀ v, r = Ok v → json_ok v.

Lemma prints_intro p r : writes p (render <$> r) → builds r → prints p r.
Proof. by split. Qed.
Lemma builds_prints p r : prints p r → builds r.
Proof. by intros []. Qed.

Lemma builds_bind {A} (m : result exn A) (f : A → result exn json) :
  (∀ a, m = Ok a → builds (f a)) → builds (a ← m; f a).
Proof. intros Hf v. destruct m as [a|]; cbn; [by apply Hf|done]. Qed.

Lemma builds_array {A} (g : A → result exn json) l : (∀ a, a ∈ l → builds (g a)) → builds (build_array g l).
Proof.
  intros Hl v. unfold build_array. destruct (mapM g l) as [vs|] eqn:E; cbn; [|done]. intros [= <-].
  cbn. apply foldr_and. revert vs E. induction l as [|a l IH]; intros vs E; cbn in E; [injection E as <-; constructor|].
  destruct (g a) as [v|] eqn:Ea; cbn in E; [|done]. destruct (mapM g l) as [vs'|]; cbn in E; [|done].
  injection E as <-. constructor; [eapply Hl; [|exact Ea]; set_solver|]. apply IH; [set_solver|done].
Qed.

Lemma build_members_ok l vs :
  Forall (λ m, is_valid_utf8 (text m.1) = true ∧ builds m.2) l → build_members l = Ok vs →
  Forall (λ m, is_valid_utf8 m.1 = true ∧ json_ok m.2) vs.
Proof.
  intros Hl. revert vs. induction Hl as [|[k r] l [Hk Hr] _ IH]; intros vs E; cbn in E; [injection E as <-; constructor|].
  destruct r as [v|]; cbn in E; [|done]. destruct (build_members l) as [vs'|]; cbn in E; [|done]. injection E as <-.
  constructor; [|by apply IH]. cbn in *. split; [done|by apply Hr].
Qed.

Lemma build_members_nonempty l vs : l ≠ [] → build_members l = Ok vs → vs ≠ [].
Proof.
  destruct l as [|[k r] l]; [done|]. cbn. intros _. destruct r; cbn; [|done].
  destruct (build_members l); cbn; [|done]. by intros [= <-].
Qed.

Lemma builds_object l : Forall (λ m, is_valid_utf8 (text m.1) = true ∧ builds m.2) l → builds (build_object l).
Proof.
  intros Hl v. unfold build_object. destruct (build_members l) as [vs|] eqn:E; cbn; [|done]. intros [= <-].
  cbn. apply foldr_and. by eapply build_members_ok.
Qed.
End emitter.

(** ** Proving that an emitter prints a value *)

(** [if (value.has_value()) { body( *value); } else { json.null(); }] *)
Definition emit_optional {A} (body : A → emitter) (o : option A) : emitter :=
  match o with Some a => body a | None => null end.
Definition build_optional {A} (body : A → result exn json) (o : option A) : result exn json :=
  match o with Some a => body a | None => build_null end.

Lemma prints_optional {A} (p : A → emitter) r o : (∀ a, prints (p a) (r a)) →
  prints (emit_optional p o) (build_optional r o).
Proof. intros H. destruct o; [apply H|apply prints_null]. Qed.

Lemma prints_if (b : bool) p q r s : prints p r → prints q s →
  prints (if b then p else q) (if b then r else s).
Proof. by destruct b. Qed.

#[global] Opaque build_string build_unsigned build_signed.
Create HintDb prints discriminated.
#[export] Hint Constants Opaque : prints.
Create HintDb writes discriminated.
#[export] Hint Constants Opaque : writes.
Create HintDb builds discriminated.
#[export] Hint Constants Opaque : builds.
#[export] Hint Resolve prints_string prints_unsigned prints_signed prints_bool prints_null : prints.

(** [emits] follows the calls of an emitter. *)
Ltac prints_leaf := fail.
Ltac emits_step :=
  lazymatch goal with
  | |- writes (pure _ ≫= _) _ => eapply writes_throw; intros ? _
  | |- writes (_ ≫= _) _ =>
      first [eapply writes_bind | eapply writes_yields_bind; [solve [eauto with writes]|intros ?]]
  | |- writes (raw _) _ => apply writes_raw
  | |- writes (emit _) _ => apply writes_emit
  | |- writes (mret tt) _ => apply writes_nothing
  | |- writes (emit_array _ true _) _ => eapply writes_array; intros ? _
  | |- writes _ _ => first [solve [eauto with writes] | apply writes_prints]
  | |- prints (emit_optional _ _) _ => eapply prints_optional; intros ?
  | |- prints (if _ then _ else _) _ => eapply prints_if
  | |- prints _ _ => first [solve [eauto with prints] | prints_leaf]
  end.
Ltac emits := repeat emits_step.

(** The text an emitter writes is the text of the value: case by case on what is
    thrown, then character by character. *)
Ltac head_of t :=
  lazymatch t with
  | match ?x with Ok _ => _ | Throw _ => _ end => head_of x
  | _ => t
  end.
Ltac leaves :=
  cbv beta iota delta [mbind result_bind fmap result_fmap mret result_ret];
  repeat
    lazymatch goal with
    | |- ?l = _ =>
        let h := head_of l in
        lazymatch h with
        | Ok _ => fail
        | Throw _ => fail
        | _ => destruct h as [?|?]; [|reflexivity]; cbv beta iota
        end
    end.
Ltac same_text :=
  repeat (progress (cbn; rewrite ?app_nil_r, <- ?app_assoc)); reflexivity.

Ltac builds :=
  repeat lazymatch goal with
  | |- builds (build_constant _) => intros ? [= <-]; reflexivity
  | |- builds (_ ≫= _) => apply builds_bind; intros ? _
  | |- builds (build_object _) => apply builds_object
  | |- builds (build_array _ _) => apply builds_array; intros ? ?
  | |- builds (build_optional ?r ?o) => destruct o; cbn [build_optional]
  | |- builds (if ?b then _ else _) => destruct b
  | |- Forall _ (_ :: _) => apply Forall_cons_2
  | |- Forall _ [] => apply Forall_nil_2
  | |- _ ∧ _ => split; [reflexivity|cbn [snd]]
  | |- builds _ => first [solve [eauto with builds] | eapply builds_prints; solve [eauto with prints]]
  end.

Ltac prints_object :=
  apply prints_intro; [eapply writes_eq; [emits|unfold build_object, build_members, build_array, build_constant; leaves; same_text]|
    builds].

