(* ===== verification/Presentation.v ===== *)
(** * What the reports share

    src/include/noleax/analyzer/presentation.hpp, and the names, hexadecimal values and
    counts of the anonymous namespaces of json.cpp and csv.cpp, which define them alike. *)

From S2P Require Import Prelude Bytes Text WireFormat Event Completeness TraceData GenerationTracker.

(** ** Presentations of events *)

Record ResolvedStackFrame : Set := {
  rf_absolute_address : Z;
  rf_module_name : option bytes;
  rf_module_offset : option Z;
  rf_symbol_name : option bytes;
  rf_symbol_offset : option Z;
}.

(** [noleax::analyzer::StackCaptureStatus] *)
Inductive ShownStackStatus : Set :=
  | Stack_kComplete | Stack_kTruncatedByDepth | Stack_kUnwindFailed | Stack_kUnavailable.

Record EventPresentation : Set := {
  ep_api_name : option bytes;
  ep_api_module : option bytes;
  ep_stack_status : option ShownStackStatus;
  ep_stack_frames : list ResolvedStackFrame;
}.

Definition EventPresentation_new : EventPresentation :=
  {| ep_api_name := None; ep_api_module := None; ep_stack_status := None; ep_stack_frames := [] |}.

(** A [std::function], [None] when empty. *)
Definition EventPresentationResolver : Type := option (Event → EventPresentation).

(** [resolver ? resolver(event) : EventPresentation{}] *)
Definition present (resolver : EventPresentationResolver) (event : Event) : EventPresentation :=
  match resolver with Some f => f event | None => EventPresentation_new end.

(** ** Names *)

Definition platform_name (platform : Platform) : bytes :=
  text match platform with
       | Platform_kUnknown => "unknown" | Platform_kWindows => "windows"
       | Platform_kLinux => "linux" | Platform_kMacos => "macos"
       end.

Definition architecture_name (architecture : Architecture) : bytes :=
  text match architecture with
       | Architecture_kUnknown => "unknown" | Architecture_kX86 => "x86"
       | Architecture_kX64 => "x64" | Architecture_kArm64 => "arm64"
       end.

Definition operation_name (operation : EventOperation) : bytes :=
  text match operation with
       | Op_kHeapCreate => "heap_create" | Op_kHeapDestroy => "heap_destroy"
       | Op_kAllocate => "alloc" | Op_kReallocate => "realloc" | Op_kFree => "free"
       | Op_kVmAllocate => "vm_alloc" | Op_kVmFree => "vm_free" | Op_kMap => "map" | Op_kUnmap => "unmap"
       end.

Definition status_name (status : EventStatus) : bytes :=
  text match status with
       | Status_kSuccess => "success" | Status_kFailure => "failure"
       | Status_kUnmatched => "unmatched" | Status_kPreexisting => "preexisting"
       end.

Definition error_domain_name (domain : SystemErrorDomain) : bytes :=
  text match domain with
       | Domain_kNone => "none" | Domain_kWin32 => "win32" | Domain_kNtStatus => "ntstatus"
       | Domain_kPosix => "posix" | Domain_kMach => "mach"
       end.

Definition process_scope_name (scope : ProcessMemoryScope) : bytes :=
  text match scope with
       | Scope_kCurrentProcess => "current_process" | Scope_kRemoteProcess => "remote_process"
       | Scope_kUnknown => "unknown"
       end.

Definition reallocation_effect_name (effect : ReallocationEffect) : bytes :=
  text match effect with
       | Effect_kNoChange => "no_change" | Effect_kNewGeneration => "new_generation" | Effect_kFreed => "freed"
       end.

Definition generation_kind_name (kind : GenerationKind) : bytes :=
  text match kind with
       | Kind_kHeapAllocation => "heap_allocation" | Kind_kVirtualAllocation => "virtual_allocation"
       | Kind_kMappedView => "mapped_view"
       end.

Definition memory_region_state_name (state : MemoryRegionState) : bytes :=
  text match state with Region_kCommit => "commit" | Region_kReserve => "reserve" end.

Definition memory_region_type_name (type : MemoryRegionType) : bytes :=
  text match type with Region_kImage => "image" | Region_kMapped => "mapped" | Region_kPrivate => "private" end.

Definition stack_status_name (status : ShownStackStatus) : bytes :=
  text match status with
       | Stack_kComplete => "complete" | Stack_kTruncatedByDepth => "truncated_by_depth"
       | Stack_kUnwindFailed => "unwind_failed" | Stack_kUnavailable => "unavailable"
       end.

Definition loss_reason_name (reason : LossReason) : bytes :=
  text match reason with
       | Reason_kUnknown => "unknown" | Reason_kQueueFull => "queue_full" | Reason_kTraceFull => "trace_full"
       | Reason_kWriterError => "writer_error" | Reason_kStackCaptureFailed => "stack_capture_failed"
       | Reason_kRotationLimit => "rotation_limit" | Reason_kDecoderError => "decoder_error"
       end.

Definition loss_location_name (location : LossLocation) : bytes :=
  text match location with
       | Location_kUnknown => "unknown" | Location_kAgentQueue => "agent_queue" | Location_kWriter => "writer"
       | Location_kRotation => "rotation" | Location_kDecoder => "decoder"
       end.

Definition completeness_state_name (state : CompletenessState) : bytes :=
  text match state with kComplete => "complete" | kIncomplete => "incomplete" end.

Definition understanding_state_name (state : UnderstandingState) : bytes :=
  text match state with kFull => "full" | kPartial => "partial" end.

Definition custom_hook_failure_role_name (role : CustomHookFailureRole) : bytes :=
  text match role with
       | Role_kAlloc => "alloc" | Role_kRealloc => "realloc" | Role_kFree => "free" | Role_kPoint => "point"
       end.

Definition custom_hook_failure_reason_name (reason : CustomHookFailureReason) : bytes :=
  text match reason with
       | HookReason_kModuleNotLoaded => "module_not_loaded" | HookReason_kExportNotFound => "export_not_found"
       | HookReason_kForwardedExport => "forwarded_export" | HookReason_kInvalidRva => "invalid_rva"
       | HookReason_kWrongSignature => "wrong_signature"
       | HookReason_kImageIdentityMismatch => "image_identity_mismatch"
       | HookReason_kBackendUnavailable => "backend_unavailable" | HookReason_kOther => "other"
       end.

(** An id that has no name is kept, not rejected. *)
Definition agent_memory_category_name (category : Z) : bytes :=
  if category =? 1 then text "event_queue" else if category =? 2 then text "stack_dictionary"
  else if category =? 3 then text "trace_buffers" else if category =? 4 then text "module_tracker"
  else if category =? 5 then text "hook_backend" else if category =? 6 then text "agent_heap"
  else text "unknown-" ++ to_chars 10 (wrap32 category).

Definition agent_memory_sample_kind_name (kind : AgentMemorySampleKind) : bytes :=
  text match kind with
       | Sample_kPeriodic => "periodic" | Sample_kBaselinePreInit => "baseline_pre_init"
       | Sample_kBaselinePostInit => "baseline_post_init"
       end.

(** ** Completeness issues *)

Definition kIssueDescriptions : list (CompletenessIssue * string) := [
  (kCaptureDidNotStartAtProcessStart, "capture_did_not_start_at_process_start");
  (kPreexistingAllocationsUnknown, "preexisting_allocations_unknown");
  (kEventLoss, "event_loss"); (kTraceTruncated, "trace_truncated"); (kWriterError, "writer_error");
  (kUnknownRecordSkipped, "unknown_record_skipped"); (kMissingEndOfTrace, "missing_end_of_trace");
  (kAbnormalStop, "abnormal_stop"); (kStackDataLoss, "stack_data_loss");
  (kPartiallyUnderstoodFormat, "partially_understood_format");
  (kCustomHookInstallFailed, "custom_hook_install_failed")]%string.

Definition known_issue_mask : Z :=
  foldl (λ result description, Z.lor result (CompletenessIssue_value description.1)) 0 kIssueDescriptions.

(** The names the loops over the descriptions do not skip. *)
Fixpoint present_issues (completeness : CompletenessReport) (descriptions : list (CompletenessIssue * string))
    : result exn (list bytes) :=
  match descriptions with
  | [] => Ok []
  | (issue, name) :: descriptions =>
      there ← has completeness issue;
      names ← present_issues completeness descriptions;
      Ok (if (there : bool) then text name :: names else names)
  end.

(** ** Numbers *)

(** [hex_value]: "0x" and at least [minimum_digits] digits. *)
Definition hex_value (value : Z) (minimum_digits : nat) : bytes :=
  let digits := to_chars 16 (wrap64 value) in
  text "0x" ++ replicate (minimum_digits - length digits) x30 ++ digits.

Definition pointer_digits (header : FileHeader) : nat := Z.to_nat (pointer_width header) * 2.

Definition session_text (session_id : bytes) : bytes :=
  session_id ≫= λ b, [digit_char (Z.shiftr (byte_val b) 4); digit_char (Z.land (byte_val b) 15)].

Section counts.
Variable error : exn_class.

Definition report_increment (value : Z) (subject : string) : result exn Z :=
  if value =? u64_max then throw error (subject +:+ " count overflow") else Ok (value + 1).

Definition report_add (total value : Z) (subject : string) : result exn Z :=
  if u64_max - total <? value then throw error (subject +:+ " total overflow") else Ok (total + value).
End counts.
