(* ===== verification/JsonWriter.v ===== *)
(** * The JSON reports

    [JsonWriter] and the [analyze_..._to_json] functions of src/src/analyzer/json.cpp,
    call by call.  A function of the source that writes to the stream through a
    [JsonEmitter] is an emitter here, which appends to a text and may throw;
    [with_output] hands the text to the stream of the writer.  The stream takes it in one
    piece, which leaves it as the pieces of the source do. *)

From S2P Require Import Prelude Bytes Text JsonText JsonEmitter WireFormat Event Completeness TraceData Compression TraceReader TraceWriter TraceTime AnalysisFilter GenerationTracker EventStream StreamContract FilteredEvents HookRegistry Outstanding Stacks MemoryAnalysis Presentation.

Definition kAnalysisJsonSchemaVersion : Z := 6.

Definition json_string (value : bytes) : emitter := emit_string JsonFormatError value.
Definition json_error_if (b : bool) (message : string) : result exn unit := throw_if b JsonFormatError message.

(** ** Leaves *)

Definition write_identifier (identifier : Z) : emitter :=
  if is_valid identifier then unsigned_number identifier else null.

Definition write_optional_string (value : option bytes) : emitter := emit_optional json_string value.

Definition write_hex (value : Z) (minimum_digits : nat) : emitter := json_string (hex_value value minimum_digits).

Definition write_address (address : Z) (header : FileHeader) : emitter :=
  write_hex address (pointer_digits header).

Definition write_process_target (target : ProcessTarget) (header : FileHeader) : emitter :=
  raw "{'scope':" ;; json_string (process_scope_name (scope target)) ;;
  raw ",'process_handle':" ;; write_address (process_handle target) header ;;
  raw ",'process_id':" ;; unsigned_number (process_id target) ;;
  raw "}".

Definition write_nullable_signed (key : string) (value : option Z) : emitter :=
  raw ",'" ;; raw key ;; raw "':" ;; emit_optional signed_number value.
Definition write_nullable_unsigned (key : string) (value : option Z) : emitter :=
  raw ",'" ;; raw key ;; raw "':" ;; emit_optional unsigned_number value.

Definition write_window_bound (ns_key sequence_key : string) (bound : WindowBound) : emitter :=
  write_nullable_signed ns_key (wb_time bound) ;;
  write_nullable_unsigned sequence_key (wb_sequence bound).

Definition WindowBound_new : WindowBound := {| wb_time := None; wb_sequence := None |}.

Definition write_optional_window_bound (ns_key sequence_key : string) (bound : option WindowBound) : emitter :=
  write_window_bound ns_key sequence_key (default WindowBound_new bound).

(** ** Parts of the document *)

Definition write_custom_hook_failure (failure : CustomHookFailure) : emitter :=
  raw "{'module':" ;; json_string (chf_module failure) ;;
  raw ",'role':" ;; json_string (custom_hook_failure_role_name (chf_role failure)) ;;
  raw ",'reason':" ;; json_string (custom_hook_failure_reason_name (chf_reason failure)) ;;
  raw ",'detail':" ;; json_string (chf_detail failure) ;;
  raw "}".

Definition write_custom_hook_failures (failures : list CustomHookFailure) : emitter :=
  raw "[" ;; emit_array write_custom_hook_failure true failures ;; raw "]".

Definition write_string_array (key : string) (values : list bytes) : emitter :=
  raw "," ;; json_string (text key) ;; raw ":[" ;; emit_array json_string true values ;; raw "]".
Definition write_integer_array (key : string) (values : list Z) : emitter :=
  raw "," ;; json_string (text key) ;; raw ":[" ;; emit_array unsigned_number true values ;; raw "]".

Definition write_filter (filter : AnalysisFilter) : emitter :=
  let criteria := criteria_ filter in
  raw "{'minimum_size':" ;; emit_optional unsigned_number (minimum_size criteria) ;;
  raw ",'maximum_size':" ;; emit_optional unsigned_number (maximum_size criteria) ;;
  raw ",'operations':[" ;;
  emit_array (λ operation, json_string (operation_name operation)) true (operations criteria) ;;
  raw "]" ;;
  write_integer_array "thread_ids" (thread_ids criteria) ;;
  write_string_array "api_names" (api_names criteria) ;;
  write_string_array "module_patterns" (module_patterns criteria) ;;
  write_string_array "stack_module_patterns" (stack_module_patterns criteria) ;;
  write_integer_array "allocation_ids" (allocation_ids criteria) ;;
  raw ",'statuses':[" ;;
  emit_array (λ status, json_string (status_name status)) true (statuses criteria) ;;
  raw "]}".

Definition write_api_statistics (api : ApiStatistics) : emitter :=
  raw "{'api_id':" ;; unsigned_number (as_api_id api) ;;
  raw ",'observed_calls':" ;; unsigned_number (as_observed_calls api) ;;
  raw ",'successful_operations':" ;; unsigned_number (as_successful_operations api) ;;
  raw ",'failed_operations':" ;; unsigned_number (as_failed_operations api) ;;
  raw ",'filtered_before_queue':" ;; unsigned_number (as_filtered_before_queue api) ;;
  raw ",'dropped_events':" ;; unsigned_number (as_dropped_events api) ;;
  raw "}".

Definition write_statistics (statistics : CaptureStatistics) : emitter :=
  raw "{'observed_calls':" ;; unsigned_number (observed_calls statistics) ;;
  raw ",'successful_operations':" ;; unsigned_number (successful_operations statistics) ;;
  raw ",'failed_operations':" ;; unsigned_number (failed_operations statistics) ;;
  raw ",'filtered_before_queue':" ;; unsigned_number (filtered_before_queue statistics) ;;
  raw ",'dropped_events':" ;; unsigned_number (dropped_events statistics) ;;
  raw ",'unique_stacks':" ;; unsigned_number (unique_stacks statistics) ;;
  raw ",'reused_stacks':" ;; unsigned_number (reused_stacks statistics) ;;
  raw ",'written_uncompressed_bytes':" ;; unsigned_number (written_uncompressed_bytes statistics) ;;
  raw ",'written_stored_bytes':" ;; unsigned_number (written_stored_bytes statistics) ;;
  raw ",'per_api':[" ;; emit_array write_api_statistics true (per_api statistics) ;;
  raw "]}".

Definition write_capture_statistics (value : option CaptureStatistics) : emitter :=
  emit_optional write_statistics value.

Definition write_end_of_trace (value : EndOfTrace) : emitter :=
  raw "{'final_sequence':" ;; write_identifier (final_sequence value) ;;
  raw ",'final_monotonic_ticks':" ;; unsigned_number (final_monotonic_ticks value) ;;
  raw ",'normal_stop':" ;; boolean (normal_stop value) ;;
  raw ",'target_exit_code':" ;; emit_optional signed_number (target_exit_code value) ;;
  raw "}".

Definition write_termination (value : option EndOfTrace) : emitter := emit_optional write_end_of_trace value.

Definition write_completeness (completeness : CompletenessReport) : emitter :=
  raw "{'mask':" ;; write_hex (mask completeness) 0 ;;
  raw ",'overall':" ;; json_string (completeness_state_name (overall_state completeness)) ;;
  raw ",'lifecycle':" ;; json_string (completeness_state_name (lifecycle_state completeness)) ;;
  raw ",'stack_detail':" ;; json_string (completeness_state_name (stack_detail_state completeness)) ;;
  raw ",'understanding':" ;; json_string (understanding_state_name (understanding_state completeness)) ;;
  raw ",'issues':[" ;;
  names ← pure (present_issues completeness kIssueDescriptions);
  emit_array json_string true names ;;
  raw "],'unknown_issue_bits':" ;; write_hex (Z.land (mask completeness) (lnot32 known_issue_mask)) 0 ;;
  raw "}".

Definition write_summary (trace : EventStreamResult) : emitter :=
  raw "'trace_events':" ;; unsigned_number (event_count trace) ;;
  raw ",'loss_records':" ;; unsigned_number (loss_record_count trace) ;;
  raw ",'bytes_read':" ;; unsigned_number (esr_bytes_read trace) ;;
  raw ",'known_sequence_end':" ;; write_identifier (known_sequence_end trace) ;;
  raw ",'known_monotonic_end':" ;; unsigned_number (known_monotonic_end trace) ;;
  raw ",'truncated':" ;; boolean (truncated trace) ;;
  raw ",'partially_understood':" ;; boolean (partially_understood trace) ;;
  raw ",'capture_statistics':" ;; write_capture_statistics (esr_statistics trace) ;;
  raw ",'termination':" ;; write_termination (esr_end_of_trace trace) ;;
  raw ",'completeness':" ;; write_completeness (esr_completeness trace) ;;
  raw ",'custom_hook_failures':" ;; write_custom_hook_failures (esr_custom_hook_failures trace).

Definition write_document_prefix (mode : string) (header : FileHeader) (scope : CaptureScope)
    (filter : AnalysisFilter) : emitter :=
  raw "{'schema':'noleax.analysis','schema_version':" ;; unsigned_number kAnalysisJsonSchemaVersion ;;
  raw ",'mode':" ;; json_string (text mode) ;;
  raw ",'metadata':{'trace':{'format_major':" ;; unsigned_number kTraceFormatMajor ;;
  raw ",'format_minor':" ;; unsigned_number kTraceFormatMinor ;;
  raw ",'platform':" ;; json_string (platform_name (platform header)) ;;
  raw ",'architecture':" ;; json_string (architecture_name (architecture header)) ;;
  raw ",'pointer_width':" ;; unsigned_number (pointer_width header) ;;
  raw ",'flags':" ;; write_hex (fh_flags header) 0 ;;
  raw ",'session_id':" ;; json_string (session_text (session_id header)) ;;
  raw ",'file_index':" ;; unsigned_number (file_index header) ;;
  raw ",'monotonic_frequency':" ;; unsigned_number (monotonic_frequency header) ;;
  raw ",'monotonic_origin':" ;; unsigned_number (monotonic_origin header) ;;
  raw ",'utc_origin_ns':" ;; signed_number (utc_origin_ns header) ;;
  raw "},'capture':{'started_at_process_start':" ;; boolean (started_at_process_start scope) ;;
  raw ",'preexisting_allocations_unknown':" ;; boolean (preexisting_allocations_unknown scope) ;;
  raw "}},'filters':" ;; write_filter filter.

(** ** Events *)

Section events.
Variable header_ : FileHeader.

Definition write_event_payload (payload : EventPayload) : emitter :=
  match payload with
  | HeapCreate p =>
      raw "{'kind':'heap_create','heap_handle':" ;; write_address (hc_heap_handle p) header_ ;;
      raw ",'heap_id':" ;; write_identifier (hc_heap_id p) ;;
      raw ",'heap_flags':" ;; write_hex (hc_heap_flags p) 0 ;;
      raw ",'reserve_size':" ;; unsigned_number (hc_reserve_size p) ;;
      raw ",'commit_size':" ;; unsigned_number (hc_commit_size p) ;;
      raw "}"
  | HeapDestroy p =>
      raw "{'kind':'heap_destroy','heap_handle':" ;; write_address (hd_heap_handle p) header_ ;;
      raw ",'heap_id':" ;; write_identifier (hd_heap_id p) ;;
      raw ",'raw_result':" ;; write_hex (hd_raw_result p) 0 ;;
      raw "}"
  | Allocation p =>
      raw "{'kind':'allocation','heap_handle':" ;; write_address (al_heap_handle p) header_ ;;
      raw ",'heap_id':" ;; write_identifier (al_heap_id p) ;;
      raw ",'requested_size':" ;; unsigned_number (al_requested_size p) ;;
      raw ",'result_address':" ;; write_address (al_result_address p) header_ ;;
      raw ",'allocation_id':" ;; write_identifier (al_allocation_id p) ;;
      raw ",'api_flags':" ;; write_hex (al_api_flags p) 0 ;;
      raw "}"
  | Reallocation p =>
      raw "{'kind':'reallocation','heap_handle':" ;; write_address (re_heap_handle p) header_ ;;
      raw ",'heap_id':" ;; write_identifier (re_heap_id p) ;;
      raw ",'old_address':" ;; write_address (re_old_address p) header_ ;;
      raw ",'old_allocation_id':" ;; write_identifier (re_old_allocation_id p) ;;
      raw ",'requested_size':" ;; unsigned_number (re_requested_size p) ;;
      raw ",'result_address':" ;; write_address (re_result_address p) header_ ;;
      raw ",'new_allocation_id':" ;; write_identifier (re_new_allocation_id p) ;;
      raw ",'api_flags':" ;; write_hex (re_api_flags p) 0 ;;
      raw ",'effect':" ;; json_string (reallocation_effect_name (re_effect p)) ;;
      raw "}"
  | Free p =>
      raw "{'kind':'free','heap_handle':" ;; write_address (fr_heap_handle p) header_ ;;
      raw ",'heap_id':" ;; write_identifier (fr_heap_id p) ;;
      raw ",'address':" ;; write_address (fr_address p) header_ ;;
      raw ",'allocation_id':" ;; write_identifier (fr_allocation_id p) ;;
      raw ",'raw_result':" ;; write_hex (fr_raw_result p) 0 ;;
      raw ",'api_flags':" ;; write_hex (fr_api_flags p) 0 ;;
      raw "}"
  | VmAllocate p =>
      raw "{'kind':'vm_allocation','target':" ;; write_process_target (va_target p) header_ ;;
      raw ",'requested_base':" ;; write_address (va_requested_base p) header_ ;;
      raw ",'result_base':" ;; write_address (va_result_base p) header_ ;;
      raw ",'requested_size':" ;; unsigned_number (va_requested_size p) ;;
      raw ",'result_size':" ;; unsigned_number (va_result_size p) ;;
      raw ",'allocation_type':" ;; write_hex (va_allocation_type p) 0 ;;
      raw ",'protection':" ;; write_hex (va_protection p) 0 ;;
      raw ",'mapping_id':" ;; write_identifier (va_mapping_id p) ;;
      raw "}"
  | VmFree p =>
      raw "{'kind':'vm_free','target':" ;; write_process_target (vf_target p) header_ ;;
      raw ",'base':" ;; write_address (vf_base p) header_ ;;
      raw ",'region_size':" ;; unsigned_number (vf_region_size p) ;;
      raw ",'free_type':" ;; write_hex (vf_free_type p) 0 ;;
      raw ",'mapping_id':" ;; write_identifier (vf_mapping_id p) ;;
      raw "}"
  | Map p =>
      raw "{'kind':'map','section_handle':" ;; write_address (mp_section_handle p) header_ ;;
      raw ",'target':" ;; write_process_target (mp_target p) header_ ;;
      raw ",'result_base':" ;; write_address (mp_result_base p) header_ ;;
      raw ",'view_size':" ;; unsigned_number (mp_view_size p) ;;
      raw ",'section_offset':" ;; unsigned_number (mp_section_offset p) ;;
      raw ",'protection':" ;; write_hex (mp_protection p) 0 ;;
      raw ",'mapping_id':" ;; write_identifier (mp_mapping_id p) ;;
      raw "}"
  | Unmap p =>
      raw "{'kind':'unmap','target':" ;; write_process_target (um_target p) header_ ;;
      raw ",'base':" ;; write_address (um_base p) header_ ;;
      raw ",'mapping_id':" ;; write_identifier (um_mapping_id p) ;;
      raw "}"
  end.

Definition has_frames (presentation : EventPresentation) : bool :=
  match ep_stack_frames presentation with [] => false | _ => true end.

(** The tests at the head of the loop over the frames. *)
Definition check_frame (error : exn_class) (frame : ResolvedStackFrame) : result exn unit :=
  throw_if (bool_decide (is_Some (rf_module_offset frame)) && negb (bool_decide (is_Some (rf_module_name frame))))
    error "stack frame module offset requires a module name" ;;
  throw_if (bool_decide (is_Some (rf_symbol_offset frame)) && negb (bool_decide (is_Some (rf_symbol_name frame))))
    error "stack frame symbol offset requires a symbol name".

Definition write_frame (frame : ResolvedStackFrame) : emitter :=
  raw "{'absolute_address':" ;; write_address (rf_absolute_address frame) header_ ;;
  raw ",'module':" ;; write_optional_string (rf_module_name frame) ;;
  raw ",'module_offset':" ;; emit_optional (λ offset, write_hex offset 0) (rf_module_offset frame) ;;
  raw ",'symbol':" ;; write_optional_string (rf_symbol_name frame) ;;
  raw ",'symbol_offset':" ;; emit_optional (λ offset, write_hex offset 0) (rf_symbol_offset frame) ;;
  raw "}".

(** The tests come before the comma here. *)
Fixpoint write_frames (first : bool) (frames : list ResolvedStackFrame) : emitter :=
  match frames with
  | [] => mret tt
  | frame :: frames =>
      pure (check_frame JsonFormatError frame) ;;
      (if negb first then raw "," else mret tt) ;; write_frame frame ;; write_frames false frames
  end.

Definition write_stack (event : Event) (presentation : EventPresentation) : emitter :=
  let known := is_valid (stack_id (ev_header event)) in
  let presented := bool_decide (is_Some (ep_stack_status presentation)) || has_frames presentation in
  pure (json_error_if (negb known && presented)
    "presentation supplies stack data for an event without a stack ID") ;;
  raw "{'id':" ;; write_identifier (stack_id (ev_header event)) ;;
  raw ",'status':" ;;
  (if negb known then json_string (text "unavailable")
   else emit_optional (λ status, json_string (stack_status_name status)) (ep_stack_status presentation)) ;;
  raw ",'definition_available':" ;; boolean (known && presented) ;;
  raw ",'frames':[" ;; write_frames true (ep_stack_frames presentation) ;;
  raw "]}".

Definition write_system_error (error : SystemError) : emitter :=
  if bool_decide (se_domain error = Domain_kNone) then null
  else
    raw "{'domain':" ;; json_string (error_domain_name (se_domain error)) ;;
    raw ",'code':" ;; write_hex (se_code error) 0 ;;
    raw "}".

Definition write_event_object (event : Event) (presentation : EventPresentation) : emitter :=
  raw "{'record_type':'event','sequence':" ;; unsigned_number (sequence (ev_header event)) ;;
  raw ",'monotonic_ticks':" ;; unsigned_number (monotonic_ticks (ev_header event)) ;;
  raw ",'relative_time_ns':" ;;
  time ← pure (trace_time_floor (monotonic_ticks (ev_header event)) header_);
  signed_number time ;;
  raw ",'thread_id':" ;; unsigned_number (thread_id (ev_header event)) ;;
  raw ",'api':{'id':" ;; unsigned_number (api_id (ev_header event)) ;;
  raw ",'name':" ;; write_optional_string (ep_api_name presentation) ;;
  raw ",'module':" ;; write_optional_string (ep_api_module presentation) ;;
  raw "},'operation':" ;; json_string (operation_name (event_operation (ev_payload event))) ;;
  raw ",'status':" ;; json_string (status_name (status (ev_header event))) ;;
  raw ",'stack':" ;; write_stack event presentation ;;
  raw ",'event_flags':" ;; write_hex (eh_flags (ev_header event)) 0 ;;
  raw ",'system_error':" ;; write_system_error (system_error (ev_header event)) ;;
  raw ",'payload':" ;; write_event_payload (ev_payload event) ;;
  raw "}".

Definition write_sequence_range (range : SequenceRange) : emitter :=
  raw "{'begin':" ;; unsigned_number (sr_begin range) ;; raw ",'end':" ;; unsigned_number (sr_end range) ;; raw "}".
Definition write_tick_range (range : TickRange) : emitter :=
  raw "{'begin':" ;; unsigned_number (tr_begin range) ;; raw ",'end':" ;; unsigned_number (tr_end range) ;; raw "}".

Definition write_loss_object (loss : LossRecord) : emitter :=
  raw "{'record_type':'loss','reason':" ;; json_string (loss_reason_name (loss_reason loss)) ;;
  raw ",'location':" ;; json_string (loss_location_name (loss_location loss)) ;;
  raw ",'estimated_event_count':" ;; emit_optional unsigned_number (estimated_event_count loss) ;;
  raw ",'sequence_range':" ;; emit_optional write_sequence_range (sequence_range loss) ;;
  raw ",'tick_range':" ;; emit_optional write_tick_range (tick_range loss) ;;
  raw "}".

Definition write_generation (resolver : EventPresentationResolver) (generation : MemoryGeneration) : emitter :=
  let virtual_bytes := negb (bool_decide (mg_kind generation = Kind_kHeapAllocation)) in
  raw "{'generation_kind':" ;; json_string (generation_kind_name (mg_kind generation)) ;;
  raw ",'allocation_id':" ;; write_identifier (mg_allocation_id generation) ;;
  raw ",'mapping_id':" ;; write_identifier (mg_mapping_id generation) ;;
  raw ",'heap_id':" ;; write_identifier (mg_heap_id generation) ;;
  raw ",'heap_handle':" ;;
  (if bool_decide (mg_kind generation = Kind_kHeapAllocation)
   then write_address (mg_heap_handle generation) header_ else null) ;;
  raw ",'address':" ;; write_address (mg_address generation) header_ ;;
  raw ",'size':" ;; unsigned_number (mg_size generation) ;;
  raw ",'size_semantics':" ;; json_string (text (if virtual_bytes then "virtual" else "requested")) ;;
  raw ",'created_by':" ;;
  write_event_object (mg_created_by generation) (present resolver (mg_created_by generation)) ;;
  raw "}".
End events.

(** ** The reports *)

(** A running total and the emitter: [proc bytes exn T]. *)
Fixpoint write_generations (header_ : FileHeader) (resolver : EventPresentationResolver) (first : bool)
    (outstanding_virtual_bytes : Z) (generations : list MemoryGeneration) : proc bytes exn Z :=
  match generations with
  | [] => mret outstanding_virtual_bytes
  | generation :: generations =>
      (if negb first then raw "," else mret tt) ;;
      total ← pure (if negb (bool_decide (mg_kind generation = Kind_kHeapAllocation))
                    then report_add JsonFormatError outstanding_virtual_bytes (mg_size generation)
                           "outstanding virtual bytes"
                    else Ok outstanding_virtual_bytes);
      write_generation header_ resolver generation ;;
      write_generations header_ resolver false total generations
  end.

(** [{"a_ns":...,"a_sequence":...], and so on. *)
Definition write_outstanding_window (result : OutstandingResult) : emitter :=
  raw "{'a_ns':" ;; emit_optional signed_number (wb_time (window_a (requested_window result))) ;;
  write_nullable_unsigned "a_sequence" (wb_sequence (window_a (requested_window result))) ;;
  write_optional_window_bound "b_ns" "b_sequence" (window_b (requested_window result)) ;;
  write_window_bound "effective_b_ns" "effective_b_sequence" (effective_b result) ;;
  write_optional_window_bound "requested_c_ns" "requested_c_sequence" (window_c (requested_window result)) ;;
  write_window_bound "effective_c_ns" "effective_c_sequence" (effective_c result) ;;
  raw ",'observation_uses_trace_end':" ;; boolean (observation_uses_trace_end result).

(** What [JsonWriter::write_outstanding] writes after its checks. *)
Definition write_outstanding_document (result : OutstandingResult) (filter : AnalysisFilter)
    (resolver : EventPresentationResolver) : emitter :=
  let header_ := esr_file_header (or_trace result) in
  write_document_prefix "leaks" header_ (esr_capture_scope (or_trace result)) filter ;;
  raw ",'window':" ;; write_outstanding_window result ;;
  raw ",'trace_end_monotonic_ticks':" ;; unsigned_number (trace_end_monotonic_ticks result) ;;
  raw "},'allocations':[" ;;
  outstanding_virtual_bytes ← write_generations header_ resolver true 0 (outstanding result);
  raw "],'summary':{'candidates':" ;; unsigned_number (candidate_count result) ;;
  raw ",'ended_by_c':" ;; unsigned_number (ended_by_c_count result) ;;
  raw ",'filtered_out':" ;; unsigned_number (filtered_out_count result) ;;
  raw ",'outstanding':" ;; unsigned_number (size_of (outstanding result)) ;;
  raw ",'outstanding_virtual_bytes':" ;; unsigned_number outstanding_virtual_bytes ;;
  raw ",'orphaned_allocation_ends':" ;; unsigned_number (or_orphaned_allocation_end_count result) ;;
  raw ",'orphaned_mapping_ends':" ;; unsigned_number (or_orphaned_mapping_end_count result) ;;
  raw "," ;; write_summary (or_trace result) ;;
  raw "}}" ;; emit [x0a].

(** The checks at its head. *)
Definition check_outstanding (error : exn_class) (result : OutstandingResult) : Prelude.result exn unit :=
  throw_if ((candidate_count result <? ended_by_c_count result) ||
            (wrap64 (candidate_count result - ended_by_c_count result) <? filtered_out_count result))
    error "outstanding result counts are inconsistent" ;;
  let survivors := wrap64 (candidate_count result - ended_by_c_count result - filtered_out_count result) in
  throw_if (negb (size_of (outstanding result) =? survivors)) error
    "outstanding generation count is inconsistent" ;;
  validated ← mapM (λ generation, validate_event (mg_created_by generation)) (outstanding result);
  Ok tt.

Record stack_totals : Set := { st_rank : Z; st_calls : Z; st_first_bytes : Z; st_second_bytes : Z }.
Definition stack_totals_new : stack_totals := {| st_rank := 0; st_calls := 0; st_first_bytes := 0; st_second_bytes := 0 |}.

Definition add_event_group (error : exn_class) (totals : stack_totals) (group : EventsStacksGroup)
    : Prelude.result exn stack_totals :=
  calls ← report_add error (st_calls totals) (eg_calls group) "event stack calls";
  alloc_bytes ← report_add error (st_first_bytes totals) (eg_alloc_bytes group) "event stack allocation bytes";
  free_bytes ← report_add error (st_second_bytes totals) (eg_free_bytes group) "event stack free bytes";
  Ok {| st_rank := wrap64 (st_rank totals + 1); st_calls := calls; st_first_bytes := alloc_bytes;
        st_second_bytes := free_bytes |}.

Definition write_event_group (header_ : FileHeader) (custom_hooks : list CustomHookDefinition)
    (resolver : EventPresentationResolver) (rank : Z) (group : EventsStacksGroup) : emitter :=
  raw "{'rank':" ;; unsigned_number rank ;;
  raw ",'calls':" ;; unsigned_number (eg_calls group) ;;
  raw ",'alloc_calls':" ;; unsigned_number (eg_alloc_calls group) ;;
  raw ",'alloc_bytes':" ;; unsigned_number (eg_alloc_bytes group) ;;
  raw ",'free_calls':" ;; unsigned_number (eg_free_calls group) ;;
  raw ",'free_bytes':" ;; unsigned_number (eg_free_bytes group) ;;
  raw ",'net_bytes':" ;; signed_number (net_bytes group) ;;
  raw ",'stack_id':" ;; write_identifier (eg_stack_id group) ;;
  raw ",'apis':[" ;; emit_array json_string true (group_api_names (eg_api_ids group) custom_hooks) ;;
  raw "]" ;;
  raw ",'sample_event':" ;;
  write_event_object header_ (eg_sample_event group) (present resolver (eg_sample_event group)) ;;
  raw "}".

Fixpoint write_event_groups (header_ : FileHeader) (custom_hooks : list CustomHookDefinition)
    (resolver : EventPresentationResolver) (first : bool) (totals : stack_totals)
    (groups : list EventsStacksGroup) : proc bytes exn stack_totals :=
  match groups with
  | [] => mret totals
  | group :: groups =>
      totals ← pure (add_event_group JsonFormatError totals group);
      (if negb first then raw "," else mret tt) ;;
      write_event_group header_ custom_hooks resolver (st_rank totals) group ;;
      write_event_groups header_ custom_hooks resolver false totals groups
  end.

Definition write_event_stacks_document (result : EventsStacksResult) (filter : AnalysisFilter)
    (resolver : EventPresentationResolver) : emitter :=
  let header_ := esr_file_header (ers_trace result) in
  write_document_prefix "stacks" header_ (esr_capture_scope (ers_trace result)) filter ;;
  raw ",'dataset':'events','window':{'from_ns':" ;;
  emit_optional signed_number (wb_time (from (ers_window result))) ;;
  write_nullable_unsigned "from_sequence" (wb_sequence (from (ers_window result))) ;;
  write_optional_window_bound "to_ns" "to_sequence" (to (ers_window result)) ;;
  raw "},'groups':[" ;;
  totals ← write_event_groups header_ (esr_custom_hooks (ers_trace result)) resolver true stack_totals_new
             (ers_groups result);
  raw "],'summary':{'groups':" ;; unsigned_number (size_of (ers_groups result)) ;;
  raw ",'calls':" ;; unsigned_number (st_calls totals) ;;
  raw ",'alloc_bytes':" ;; unsigned_number (st_first_bytes totals) ;;
  raw ",'free_bytes':" ;; unsigned_number (st_second_bytes totals) ;;
  raw ",'net_bytes':" ;; signed_number (saturating_net_bytes (st_first_bytes totals) (st_second_bytes totals)) ;;
  raw ",'aggregated_events':" ;; unsigned_number (ers_aggregated_event_count result) ;;
  raw ",'unmatched_frees':" ;; unsigned_number (ers_unmatched_free_count result) ;;
  raw "," ;; write_summary (ers_trace result) ;;
  raw "}}" ;; emit [x0a].

Definition add_leak_group (error : exn_class) (totals : stack_totals) (group : LeaksStacksGroup)
    : Prelude.result exn stack_totals :=
  calls ← report_add error (st_calls totals) (lg_calls group) "leak stack calls";
  total ← report_add error (st_first_bytes totals) (lg_bytes group) "leak stack bytes";
  Ok {| st_rank := wrap64 (st_rank totals + 1); st_calls := calls; st_first_bytes := total; st_second_bytes := 0 |}.

Definition write_leak_group (header_ : FileHeader) (custom_hooks : list CustomHookDefinition)
    (resolver : EventPresentationResolver) (rank : Z) (group : LeaksStacksGroup) : emitter :=
  raw "{'rank':" ;; unsigned_number rank ;;
  raw ",'calls':" ;; unsigned_number (lg_calls group) ;;
  raw ",'bytes':" ;; unsigned_number (lg_bytes group) ;;
  raw ",'stack_id':" ;; write_identifier (lg_stack_id group) ;;
  raw ",'apis':[" ;; emit_array json_string true (group_api_names (lg_api_ids group) custom_hooks) ;;
  raw "]" ;;
  raw ",'sample_event':" ;;
  write_event_object header_ (lg_sample_event group) (present resolver (lg_sample_event group)) ;;
  raw "}".

Fixpoint write_leak_groups (header_ : FileHeader) (custom_hooks : list CustomHookDefinition)
    (resolver : EventPresentationResolver) (first : bool) (totals : stack_totals)
    (groups : list LeaksStacksGroup) : proc bytes exn stack_totals :=
  match groups with
  | [] => mret totals
  | group :: groups =>
      totals ← pure (add_leak_group JsonFormatError totals group);
      (if negb first then raw "," else mret tt) ;;
      write_leak_group header_ custom_hooks resolver (st_rank totals) group ;;
      write_leak_groups header_ custom_hooks resolver false totals groups
  end.

Definition write_leak_stacks_document (result : LeaksStacksResult) (filter : AnalysisFilter)
    (resolver : EventPresentationResolver) : emitter :=
  let leaks := lrs_outstanding result in
  let header_ := esr_file_header (or_trace leaks) in
  write_document_prefix "stacks" header_ (esr_capture_scope (or_trace leaks)) filter ;;
  raw ",'dataset':'leaks','window':" ;; write_outstanding_window leaks ;;
  raw "},'groups':[" ;;
  totals ← write_leak_groups header_ (esr_custom_hooks (or_trace leaks)) resolver true stack_totals_new
             (lrs_groups result);
  raw "],'summary':{'groups':" ;; unsigned_number (size_of (lrs_groups result)) ;;
  raw ",'calls':" ;; unsigned_number (st_calls totals) ;;
  raw ",'bytes':" ;; unsigned_number (st_first_bytes totals) ;;
  raw "," ;; write_summary (or_trace leaks) ;;
  raw "}}" ;; emit [x0a].

(** ** The memory report *)

Definition write_memory_counters (counters : MemoryCounters) : emitter :=
  raw ",'counters':{'working_set_bytes':" ;; unsigned_number (working_set_bytes counters) ;;
  raw ",'peak_working_set_bytes':" ;; unsigned_number (peak_working_set_bytes counters) ;;
  raw ",'private_bytes':" ;; unsigned_number (private_bytes counters) ;;
  raw ",'commit_bytes':" ;; unsigned_number (commit_bytes counters) ;;
  raw "}".

Definition write_memory_region (header_ : FileHeader) (region : MemoryMapRegion) : emitter :=
  raw "{'base':" ;; write_address (mr_base region) header_ ;;
  raw ",'size':" ;; unsigned_number (mr_size region) ;;
  raw ",'state':" ;; json_string (memory_region_state_name (mr_state region)) ;;
  raw ",'type':" ;; json_string (memory_region_type_name (mr_type region)) ;;
  raw ",'protect':" ;; write_hex (mr_protect region) 0 ;;
  raw "}".

Definition write_memory_map (header_ : FileHeader) (map : MemoryMap) : emitter :=
  raw ",'map':{'committed_bytes':" ;; unsigned_number (mm_committed_bytes map) ;;
  raw ",'reserved_bytes':" ;; unsigned_number (mm_reserved_bytes map) ;;
  raw ",'free_bytes':" ;; unsigned_number (mm_free_bytes map) ;;
  raw ",'largest_free_bytes':" ;; unsigned_number (mm_largest_free_bytes map) ;;
  raw ",'region_count':" ;; unsigned_number (size_of (mm_regions map)) ;;
  raw ",'truncated':" ;; boolean (mm_truncated map) ;;
  raw ",'regions':[" ;; emit_array (write_memory_region header_) true (mm_regions map) ;;
  raw "]}".

Definition category_exact (category : AgentMemoryCategorySample) : bool :=
  negb (Z.land (amc_flags category) kAgentMemoryCategoryFlagExact =? 0).

Definition write_agent_category (category : AgentMemoryCategorySample) : emitter :=
  raw "{'category':" ;; json_string (agent_memory_category_name (amc_category category)) ;;
  raw ",'reserved_bytes':" ;; unsigned_number (amc_reserved_bytes category) ;;
  raw ",'resident_bytes':" ;; unsigned_number (amc_resident_bytes category) ;;
  raw ",'exact':" ;; boolean (category_exact category) ;;
  raw "}".

Definition write_agent_memory (snapshot : MemorySnapshot) (agent : AgentMemory) : emitter :=
  totals ← pure (agent_memory_totals agent);
  raw ",'agent':{'sample_kind':" ;; json_string (agent_memory_sample_kind_name (am_kind agent)) ;;
  raw ",'reserved_bytes':" ;; unsigned_number (total_reserved_bytes totals) ;;
  raw ",'resident_bytes':" ;; unsigned_number (total_resident_bytes totals) ;;
  raw ",'exact':" ;; boolean (exact totals) ;;
  raw ",'categories':[" ;; emit_array write_agent_category true (am_categories agent) ;;
  raw "]}" ;;
  if bool_decide (is_Some (ms_counters snapshot)) then
    raw ",'application_estimate_bytes':" ;;
    estimate ← pure (application_memory_estimate snapshot);
    unsigned_number estimate ;;
    raw ",'application_estimate_exact':" ;; boolean (exact totals)
  else mret tt.

Definition emit_present {A} (body : A → emitter) (o : option A) : emitter :=
  match o with Some a => body a | None => mret tt end.

Definition write_snapshot (header_ : FileHeader) (snapshot : MemorySnapshot) : emitter :=
  raw "{'monotonic_ticks':" ;; unsigned_number (ms_monotonic_ticks snapshot) ;;
  raw ",'relative_time_ns':" ;;
  time ← pure (trace_time_floor (ms_monotonic_ticks snapshot) header_);
  signed_number time ;;
  emit_present write_memory_counters (ms_counters snapshot) ;;
  emit_present (write_memory_map header_) (ms_map snapshot) ;;
  emit_present (write_agent_memory snapshot) (ms_agent snapshot) ;;
  raw "}".

Definition kBufferConfigurationFlagAdjusted : Z := 1.

Definition write_buffer_configuration (configuration : BufferConfiguration) : emitter :=
  raw "'buffer_configuration':{'requested_bytes':" ;; unsigned_number (bc_requested_bytes configuration) ;;
  raw ",'effective_slots':" ;; unsigned_number (bc_effective_slots configuration) ;;
  raw ",'event_size':" ;; unsigned_number (bc_event_size configuration) ;;
  raw ",'slot_size':" ;; unsigned_number (bc_slot_size configuration) ;;
  raw ",'reserved_bytes':" ;; unsigned_number (bc_reserved_bytes configuration) ;;
  raw ",'resident_after_init_bytes':" ;; unsigned_number (bc_resident_after_init_bytes configuration) ;;
  raw ",'adjusted':" ;;
  boolean (negb (Z.land (bc_flags configuration) kBufferConfigurationFlagAdjusted =? 0)) ;;
  raw "},".

(** The counts of the loop, in one pass of their own. *)
Definition count_present {A} (part : MemorySnapshot → option A) (snapshots : list MemorySnapshot) : Z :=
  size_of (omap part snapshots).

Definition write_memory_document (result : MemoryAnalysisResult) : emitter :=
  let header_ := esr_file_header (mar_trace result) in
  write_document_prefix "memory" header_ (esr_capture_scope (mar_trace result)) {| criteria_ := empty_criteria |} ;;
  raw ",'window':{'from_ns':" ;; emit_optional signed_number (wb_time (mw_from (mar_window result))) ;;
  raw ",'to_ns':" ;; emit_optional signed_number (mw_to (mar_window result) ≫= wb_time) ;;
  raw "},'snapshots':[" ;;
  emit_array (write_snapshot header_) true (snapshots result) ;;
  raw "]," ;;
  emit_present write_buffer_configuration (esr_buffer_configuration (mar_trace result)) ;;
  raw "'summary':{'snapshots':" ;; unsigned_number (size_of (snapshots result)) ;;
  raw ",'counter_snapshots':" ;; unsigned_number (count_present ms_counters (snapshots result)) ;;
  raw ",'map_snapshots':" ;; unsigned_number (count_present ms_map (snapshots result)) ;;
  raw ",'agent_snapshots':" ;; unsigned_number (count_present ms_agent (snapshots result)) ;;
  raw "," ;; write_summary (mar_trace result) ;;
  raw "}}" ;; emit [x0a].

(** ** The writer *)

Inductive WriterState : Set := State_kReady | State_kEvents | State_kFinished.

#[global] Instance WriterState_eq_dec : EqDecision WriterState.
Proof. solve_decision. Defined.

Record JsonWriter : Set := {
  jw_output : ostream;
  jw_state : WriterState;
  jw_first_record : bool;
  jw_written_event_count : Z;
  jw_written_loss_count : Z;
  jw_header : FileHeader;
  jw_capture_scope : CaptureScope;
}.

#[global] Instance JsonWriter_members : Members JsonWriter := λ w,
  {| jw_output := jw_output w; jw_state := jw_state w; jw_first_record := jw_first_record w;
     jw_written_event_count := jw_written_event_count w; jw_written_loss_count := jw_written_loss_count w;
     jw_header := jw_header w; jw_capture_scope := jw_capture_scope w |}.

Definition FileHeader_new : FileHeader :=
  {| pointer_width := 0; platform := Platform_kUnknown; architecture := Architecture_kUnknown; fh_flags := 0;
     session_id := zeros 16; file_index := 0; monotonic_frequency := 0; monotonic_origin := 0; utc_origin_ns := 0 |}.
Definition CaptureScope_new : CaptureScope :=
  {| started_at_process_start := false; preexisting_allocations_unknown := true |}.

Definition JsonWriter_new (output : ostream) : JsonWriter :=
  {| jw_output := output; jw_state := State_kReady; jw_first_record := true; jw_written_event_count := 0;
     jw_written_loss_count := 0; jw_header := FileHeader_new; jw_capture_scope := CaptureScope_new |}.

Abbreviation writing := (proc JsonWriter exn).

Definition with_output (p : emitter) : writing unit := λ w,
  let '(r, written) := p [] in
  (r, w <| jw_output := (ostream_write (jw_output w) written).1 |>).

Definition require_state (expected : WriterState) (operation : string) : writing unit :=
  w ← get_state;
  pure (json_error_if (negb (bool_decide (jw_state w = expected)))
    ("cannot " +:+ operation +:+ " in the current writer state")).

Definition ensure_output : writing unit :=
  w ← get_state; pure (json_error_if (negb (out_good (jw_output w))) "cannot write JSON output").

Definition write_record_separator : writing unit :=
  w ← get_state;
  (if negb (jw_first_record w) then with_output (raw ",") else mret tt) ;;
  modify (λ w, w <| jw_first_record := false |>).

Definition begin_events (header : FileHeader) (scope : CaptureScope) (filter : AnalysisFilter) : writing unit :=
  require_state State_kReady "begin events" ;;
  modify (λ w, w <| jw_header := header |> <| jw_capture_scope := scope |>) ;;
  with_output (write_document_prefix "events" header scope filter) ;;
  with_output (raw ",'events':[") ;;
  modify (λ w, w <| jw_state := State_kEvents |>) ;;
  ensure_output.

Definition write_event (event : Event) (presentation : EventPresentation) : writing unit :=
  require_state State_kEvents "write event" ;;
  pure (validate_event event) ;;
  write_record_separator ;;
  w ← get_state;
  with_output (write_event_object (jw_header w) event presentation) ;;
  count ← pure (report_increment JsonFormatError (jw_written_event_count w) "written event");
  modify (λ w, w <| jw_written_event_count := count |>) ;;
  ensure_output.

Definition write_loss (loss : LossRecord) : writing unit :=
  require_state State_kEvents "write loss" ;;
  pure (validate_loss_record loss) ;;
  write_record_separator ;;
  with_output (write_loss_object loss) ;;
  w ← get_state;
  count ← pure (report_increment JsonFormatError (jw_written_loss_count w) "written loss");
  modify (λ w, w <| jw_written_loss_count := count |>) ;;
  ensure_output.

Definition write_events_summary (result : FilteredEventsResult) : emitter :=
  raw "],'summary':{'matched_events':" ;; unsigned_number (matched_event_count result) ;;
  raw ",'filtered_events':" ;; unsigned_number (filtered_event_count result) ;;
  raw "," ;; write_summary (fe_trace result) ;;
  raw "}}" ;; emit [x0a].

Definition finish_events (result : FilteredEventsResult) : writing unit :=
  require_state State_kEvents "finish events" ;;
  w ← get_state;
  pure (json_error_if (negb (bool_decide (jw_header w = esr_file_header (fe_trace result))) ||
                       negb (bool_decide (jw_capture_scope w = esr_capture_scope (fe_trace result))))
    "events summary belongs to a different trace") ;;
  pure (json_error_if (negb (jw_written_event_count w =? matched_event_count result) ||
                       negb (jw_written_loss_count w =? loss_record_count (fe_trace result)))
    "written JSON records do not match the analysis result") ;;
  pure (json_error_if ((event_count (fe_trace result) <? filtered_event_count result) ||
                       negb (matched_event_count result =?
                             wrap64 (event_count (fe_trace result) - filtered_event_count result)))
    "matched and filtered counts do not cover all trace events") ;;
  with_output (write_events_summary result) ;;
  modify (λ w, w <| jw_state := State_kFinished |>) ;;
  ensure_output.

(** The reports in one call: the members the source sets first, then the document. *)
Definition write_document (trace : EventStreamResult) (document : emitter) : writing unit :=
  modify (λ w, w <| jw_header := esr_file_header trace |> <| jw_capture_scope := esr_capture_scope trace |>) ;;
  with_output document ;;
  modify (λ w, w <| jw_state := State_kFinished |>) ;;
  ensure_output.

Definition write_outstanding (result : OutstandingResult) (filter : AnalysisFilter)
    (resolver : EventPresentationResolver) : writing unit :=
  require_state State_kReady "write outstanding report" ;;
  pure (check_outstanding JsonFormatError result) ;;
  write_document (or_trace result) (write_outstanding_document result filter resolver).

Definition write_event_stacks (result : EventsStacksResult) (filter : AnalysisFilter)
    (resolver : EventPresentationResolver) : writing unit :=
  require_state State_kReady "write event stacks report" ;;
  write_document (ers_trace result) (write_event_stacks_document result filter resolver).

Definition write_leak_stacks (result : LeaksStacksResult) (filter : AnalysisFilter)
    (resolver : EventPresentationResolver) : writing unit :=
  require_state State_kReady "write leak stacks report" ;;
  write_document (or_trace (lrs_outstanding result)) (write_leak_stacks_document result filter resolver).

Definition write_memory (result : MemoryAnalysisResult) : writing unit :=
  require_state State_kReady "write memory report" ;;
  write_document (mar_trace result) (write_memory_document result).

(** ** Straight from a trace *)

(** The variables the lambdas of [analyze_events_to_json] capture. *)
Record EventsToJson : Set := { ej_file_header : option FileHeader; ej_writer : JsonWriter }.

Definition on_writer (p : writing unit) : proc EventsToJson exn unit := λ s,
  let '(r, w) := p (ej_writer s) in (r, {| ej_file_header := ej_file_header s; ej_writer := w |}).

Definition events_to_json_call (filter : AnalysisFilter) (presentation_resolver : EventPresentationResolver)
    (call : StreamCall) : proc EventsToJson exn unit :=
  match call with
  | on_file_header header =>
      modify (λ s, {| ej_file_header := Some header; ej_writer := ej_writer s |})
  | on_capture_scope scope =>
      s ← get_state;
      match ej_file_header s with
      | None => pure (throw JsonFormatError "capture scope appeared before the trace header")
      | Some header => on_writer (begin_events header scope filter)
      end
  | on_event event => on_writer (write_event event (present presentation_resolver event))
  | on_loss loss => on_writer (write_loss loss)
  | _ => mret tt
  end.

(** Run a writer after the analysis. *)
Definition lift_writing (p : writing unit) (w : JsonWriter) : Prelude.result fault unit * JsonWriter :=
  let '(r, w) := p w in (lift_exn r, w).

Section to_json.
Context {L : CompressionLibrary} (input : istream) (output : ostream) (filter : AnalysisFilter).
Context (filter_resolver : EventMetadataResolver) (presentation_resolver : EventPresentationResolver).
Context (stream_options : EventStreamOptions).

(** The result and the output stream. *)
Definition analyze_events_to_json (window : EventsWindow)
    : Prelude.result fault FilteredEventsResult * ostream :=
  let '(r, s) := analyze_filtered_events filter (events_to_json_call filter presentation_resolver)
                   filter_resolver window input stream_options
                   {| ej_file_header := None; ej_writer := JsonWriter_new output |} in
  match r with
  | Throw f => (Throw f, jw_output (ej_writer s))
  | Ok result =>
      let '(r, w) := lift_writing (finish_events result) (ej_writer s) in
      (r ;; Ok result, jw_output w)
  end.

Definition analyze_outstanding_to_json (window : OutstandingWindow)
    : Prelude.result fault OutstandingResult * ostream :=
  match analyze_filtered_outstanding window filter filter_resolver input stream_options with
  | Throw f => (Throw f, output)
  | Ok result =>
      let '(r, w) := lift_writing (write_outstanding result filter presentation_resolver) (JsonWriter_new output) in
      (r ;; Ok result, jw_output w)
  end.

Definition analyze_event_stacks_to_json (window : EventsWindow) (sort : StacksSort)
    : Prelude.result fault EventsStacksResult * ostream :=
  match analyze_event_stacks input window sort filter filter_resolver stream_options with
  | Throw f => (Throw f, output)
  | Ok result =>
      let '(r, w) := lift_writing (write_event_stacks result filter presentation_resolver) (JsonWriter_new output) in
      (r ;; Ok result, jw_output w)
  end.

Definition analyze_leak_stacks_to_json (window : OutstandingWindow) (sort : StacksSort)
    : Prelude.result fault LeaksStacksResult * ostream :=
  match analyze_leak_stacks input window sort filter filter_resolver stream_options with
  | Throw f => (Throw f, output)
  | Ok result =>
      let '(r, w) := lift_writing (write_leak_stacks result filter presentation_resolver) (JsonWriter_new output) in
      (r ;; Ok result, jw_output w)
  end.

(** [Throw (PastTheEnd)] is the undefined behaviour of [analyze_memory]. *)
Definition analyze_memory_to_json (window : MemoryWindow)
    : Prelude.result memory_fault MemoryAnalysisResult * ostream :=
  match analyze_memory input window stream_options with
  | Throw f => (Throw f, output)
  | Ok result =>
      let '(r, w) := lift_writing (write_memory result) (JsonWriter_new output) in
      (match r with Ok _ => Ok result | Throw f => Throw (Stopped f) end, jw_output w)
  end.
End to_json.
