(* ===== verification/JsonDocuments.v ===== *)
(** * The documents of the JSON reports

    What each report says, as a JSON value: the specification the writer is held
    against.  The members stand in the order of the report.  A [build_...] function
    throws what the report must throw: a string that is not UTF-8, a time that does not
    fit, a sum that overflows. *)

From S2P Require Import Prelude Bytes Text JsonText JsonEmitter WireFormat Event Completeness TraceData TraceTime AnalysisFilter GenerationTracker EventStream FilteredEvents HookRegistry Outstanding Stacks MemoryAnalysis Presentation JsonWriter.

Local Open Scope string_scope.
Local Open Scope Z_scope.

Definition build_text (s : bytes) : result exn json := build_string JsonFormatError s.
Definition build_identifier (id : Z) : result exn json := if is_valid id then build_unsigned id else build_null.
Definition build_hex (value : Z) (digits : nat) : result exn json := build_text (hex_value value digits).
Definition build_address (header : FileHeader) (address : Z) : result exn json :=
  build_hex address (pointer_digits header).

Definition build_process_target (header : FileHeader) (target : ProcessTarget) : result exn json :=
  build_object [
    ("scope", build_text (process_scope_name (scope target)));
    ("process_handle", build_address header (process_handle target));
    ("process_id", build_unsigned (process_id target))].

Definition build_custom_hook_failure (failure : CustomHookFailure) : result exn json :=
  build_object [
    ("module", build_text (chf_module failure));
    ("role", build_text (custom_hook_failure_role_name (chf_role failure)));
    ("reason", build_text (custom_hook_failure_reason_name (chf_reason failure)));
    ("detail", build_text (chf_detail failure))].

Definition build_filter (filter : AnalysisFilter) : result exn json :=
  let c := criteria_ filter in
  build_object [
    ("minimum_size", build_optional build_unsigned (minimum_size c));
    ("maximum_size", build_optional build_unsigned (maximum_size c));
    ("operations", build_array (λ o, build_text (operation_name o)) (operations c));
    ("thread_ids", build_array build_unsigned (thread_ids c));
    ("api_names", build_array build_text (api_names c));
    ("module_patterns", build_array build_text (module_patterns c));
    ("stack_module_patterns", build_array build_text (stack_module_patterns c));
    ("allocation_ids", build_array build_unsigned (allocation_ids c));
    ("statuses", build_array (λ s, build_text (status_name s)) (statuses c))].

Definition build_api_statistics (api : ApiStatistics) : result exn json :=
  build_object [
    ("api_id", build_unsigned (as_api_id api));
    ("observed_calls", build_unsigned (as_observed_calls api));
    ("successful_operations", build_unsigned (as_successful_operations api));
    ("failed_operations", build_unsigned (as_failed_operations api));
    ("filtered_before_queue", build_unsigned (as_filtered_before_queue api));
    ("dropped_events", build_unsigned (as_dropped_events api))].

Definition build_statistics (s : CaptureStatistics) : result exn json :=
  build_object [
    ("observed_calls", build_unsigned (observed_calls s));
    ("successful_operations", build_unsigned (successful_operations s));
    ("failed_operations", build_unsigned (failed_operations s));
    ("filtered_before_queue", build_unsigned (filtered_before_queue s));
    ("dropped_events", build_unsigned (dropped_events s));
    ("unique_stacks", build_unsigned (unique_stacks s));
    ("reused_stacks", build_unsigned (reused_stacks s));
    ("written_uncompressed_bytes", build_unsigned (written_uncompressed_bytes s));
    ("written_stored_bytes", build_unsigned (written_stored_bytes s));
    ("per_api", build_array build_api_statistics (per_api s))].

Definition build_end_of_trace (e : EndOfTrace) : result exn json :=
  build_object [
    ("final_sequence", build_identifier (final_sequence e));
    ("final_monotonic_ticks", build_unsigned (final_monotonic_ticks e));
    ("normal_stop", build_bool (normal_stop e));
    ("target_exit_code", build_optional build_signed (target_exit_code e))].

Definition build_completeness (c : CompletenessReport) : result exn json :=
  build_object [
    ("mask", build_hex (mask c) 0);
    ("overall", build_text (completeness_state_name (overall_state c)));
    ("lifecycle", build_text (completeness_state_name (lifecycle_state c)));
    ("stack_detail", build_text (completeness_state_name (stack_detail_state c)));
    ("understanding", build_text (understanding_state_name (understanding_state c)));
    ("issues", names ← present_issues c kIssueDescriptions; build_array build_text names);
    ("unknown_issue_bits", build_hex (Z.land (mask c) (lnot32 known_issue_mask)) 0)].

(** The members of the trace in every summary. *)
Definition summary_members (t : EventStreamResult) : list (string * result exn json) := [
  ("trace_events", build_unsigned (event_count t));
  ("loss_records", build_unsigned (loss_record_count t));
  ("bytes_read", build_unsigned (esr_bytes_read t));
  ("known_sequence_end", build_identifier (known_sequence_end t));
  ("known_monotonic_end", build_unsigned (known_monotonic_end t));
  ("truncated", build_bool (truncated t));
  ("partially_understood", build_bool (partially_understood t));
  ("capture_statistics", build_optional build_statistics (esr_statistics t));
  ("termination", build_optional build_end_of_trace (esr_end_of_trace t));
  ("completeness", build_completeness (esr_completeness t));
  ("custom_hook_failures", build_array build_custom_hook_failure (esr_custom_hook_failures t))].

Definition build_trace_metadata (h : FileHeader) : result exn json :=
  build_object [
    ("format_major", build_unsigned kTraceFormatMajor);
    ("format_minor", build_unsigned kTraceFormatMinor);
    ("platform", build_text (platform_name (platform h)));
    ("architecture", build_text (architecture_name (architecture h)));
    ("pointer_width", build_unsigned (pointer_width h));
    ("flags", build_hex (fh_flags h) 0);
    ("session_id", build_text (session_text (session_id h)));
    ("file_index", build_unsigned (file_index h));
    ("monotonic_frequency", build_unsigned (monotonic_frequency h));
    ("monotonic_origin", build_unsigned (monotonic_origin h));
    ("utc_origin_ns", build_signed (utc_origin_ns h))].

Definition build_capture (s : CaptureScope) : result exn json :=
  build_object [
    ("started_at_process_start", build_bool (started_at_process_start s));
    ("preexisting_allocations_unknown", build_bool (preexisting_allocations_unknown s))].

(** The members every document begins with. *)
Definition prefix_members (mode : string) (h : FileHeader) (s : CaptureScope) (filter : AnalysisFilter)
    : list (string * result exn json) := [
  ("schema", build_constant "noleax.analysis");
  ("schema_version", build_unsigned kAnalysisJsonSchemaVersion);
  ("mode", build_text (text mode));
  ("metadata", build_object [("trace", build_trace_metadata h); ("capture", build_capture s)]);
  ("filters", build_filter filter)].

(** ** Events *)

Section events.
Variable h : FileHeader.

Definition build_event_payload (payload : EventPayload) : result exn json :=
  match payload with
  | HeapCreate p => build_object [
      ("kind", build_constant "heap_create"); ("heap_handle", build_address h (hc_heap_handle p));
      ("heap_id", build_identifier (hc_heap_id p)); ("heap_flags", build_hex (hc_heap_flags p) 0);
      ("reserve_size", build_unsigned (hc_reserve_size p)); ("commit_size", build_unsigned (hc_commit_size p))]
  | HeapDestroy p => build_object [
      ("kind", build_constant "heap_destroy"); ("heap_handle", build_address h (hd_heap_handle p));
      ("heap_id", build_identifier (hd_heap_id p)); ("raw_result", build_hex (hd_raw_result p) 0)]
  | Allocation p => build_object [
      ("kind", build_constant "allocation"); ("heap_handle", build_address h (al_heap_handle p));
      ("heap_id", build_identifier (al_heap_id p)); ("requested_size", build_unsigned (al_requested_size p));
      ("result_address", build_address h (al_result_address p));
      ("allocation_id", build_identifier (al_allocation_id p)); ("api_flags", build_hex (al_api_flags p) 0)]
  | Reallocation p => build_object [
      ("kind", build_constant "reallocation"); ("heap_handle", build_address h (re_heap_handle p));
      ("heap_id", build_identifier (re_heap_id p)); ("old_address", build_address h (re_old_address p));
      ("old_allocation_id", build_identifier (re_old_allocation_id p));
      ("requested_size", build_unsigned (re_requested_size p));
      ("result_address", build_address h (re_result_address p));
      ("new_allocation_id", build_identifier (re_new_allocation_id p));
      ("api_flags", build_hex (re_api_flags p) 0);
      ("effect", build_text (reallocation_effect_name (re_effect p)))]
  | Free p => build_object [
      ("kind", build_constant "free"); ("heap_handle", build_address h (fr_heap_handle p));
      ("heap_id", build_identifier (fr_heap_id p)); ("address", build_address h (fr_address p));
      ("allocation_id", build_identifier (fr_allocation_id p)); ("raw_result", build_hex (fr_raw_result p) 0);
      ("api_flags", build_hex (fr_api_flags p) 0)]
  | VmAllocate p => build_object [
      ("kind", build_constant "vm_allocation"); ("target", build_process_target h (va_target p));
      ("requested_base", build_address h (va_requested_base p));
      ("result_base", build_address h (va_result_base p));
      ("requested_size", build_unsigned (va_requested_size p));
      ("result_size", build_unsigned (va_result_size p));
      ("allocation_type", build_hex (va_allocation_type p) 0);
      ("protection", build_hex (va_protection p) 0); ("mapping_id", build_identifier (va_mapping_id p))]
  | VmFree p => build_object [
      ("kind", build_constant "vm_free"); ("target", build_process_target h (vf_target p));
      ("base", build_address h (vf_base p)); ("region_size", build_unsigned (vf_region_size p));
      ("free_type", build_hex (vf_free_type p) 0); ("mapping_id", build_identifier (vf_mapping_id p))]
  | Map p => build_object [
      ("kind", build_constant "map"); ("section_handle", build_address h (mp_section_handle p));
      ("target", build_process_target h (mp_target p)); ("result_base", build_address h (mp_result_base p));
      ("view_size", build_unsigned (mp_view_size p)); ("section_offset", build_unsigned (mp_section_offset p));
      ("protection", build_hex (mp_protection p) 0); ("mapping_id", build_identifier (mp_mapping_id p))]
  | Unmap p => build_object [
      ("kind", build_constant "unmap"); ("target", build_process_target h (um_target p));
      ("base", build_address h (um_base p)); ("mapping_id", build_identifier (um_mapping_id p))]
  end.

Definition build_frame (frame : ResolvedStackFrame) : result exn json :=
  check_frame JsonFormatError frame ;;
  build_object [
    ("absolute_address", build_address h (rf_absolute_address frame));
    ("module", build_optional build_text (rf_module_name frame));
    ("module_offset", build_optional (λ o, build_hex o 0) (rf_module_offset frame));
    ("symbol", build_optional build_text (rf_symbol_name frame));
    ("symbol_offset", build_optional (λ o, build_hex o 0) (rf_symbol_offset frame))].

Definition build_stack (event : Event) (presentation : EventPresentation) : result exn json :=
  let known := is_valid (stack_id (ev_header event)) in
  let presented := bool_decide (is_Some (ep_stack_status presentation)) || has_frames presentation in
  json_error_if (negb known && presented)
    "presentation supplies stack data for an event without a stack ID" ;;
  build_object [
    ("id", build_identifier (stack_id (ev_header event)));
    ("status", if negb known then build_text (text "unavailable")
               else build_optional (λ status, build_text (stack_status_name status)) (ep_stack_status presentation));
    ("definition_available", build_bool (known && presented));
    ("frames", build_array build_frame (ep_stack_frames presentation))].

Definition build_system_error (error : SystemError) : result exn json :=
  if bool_decide (se_domain error = Domain_kNone) then build_null
  else build_object [
    ("domain", build_text (error_domain_name (se_domain error)));
    ("code", build_hex (se_code error) 0)].

Definition build_event (event : Event) (presentation : EventPresentation) : result exn json :=
  let eh := ev_header event in
  build_object [
    ("record_type", build_constant "event");
    ("sequence", build_unsigned (sequence eh));
    ("monotonic_ticks", build_unsigned (monotonic_ticks eh));
    ("relative_time_ns", time ← trace_time_floor (monotonic_ticks eh) h; build_signed time);
    ("thread_id", build_unsigned (thread_id eh));
    ("api", build_object [
       ("id", build_unsigned (api_id eh));
       ("name", build_optional build_text (ep_api_name presentation));
       ("module", build_optional build_text (ep_api_module presentation))]);
    ("operation", build_text (operation_name (event_operation (ev_payload event))));
    ("status", build_text (status_name (status eh)));
    ("stack", build_stack event presentation);
    ("event_flags", build_hex (eh_flags eh) 0);
    ("system_error", build_system_error (system_error eh));
    ("payload", build_event_payload (ev_payload event))].

Definition build_range (first last : Z) : result exn json :=
  build_object [("begin", build_unsigned first); ("end", build_unsigned last)].

Definition build_loss (loss : LossRecord) : result exn json :=
  build_object [
    ("record_type", build_constant "loss");
    ("reason", build_text (loss_reason_name (loss_reason loss)));
    ("location", build_text (loss_location_name (loss_location loss)));
    ("estimated_event_count", build_optional build_unsigned (estimated_event_count loss));
    ("sequence_range", build_optional (λ r, build_range (sr_begin r) (sr_end r)) (sequence_range loss));
    ("tick_range", build_optional (λ r, build_range (tr_begin r) (tr_end r)) (tick_range loss))].

Definition build_generation (resolver : EventPresentationResolver) (g : MemoryGeneration) : result exn json :=
  let heap := bool_decide (mg_kind g = Kind_kHeapAllocation) in
  build_object [
    ("generation_kind", build_text (generation_kind_name (mg_kind g)));
    ("allocation_id", build_identifier (mg_allocation_id g));
    ("mapping_id", build_identifier (mg_mapping_id g));
    ("heap_id", build_identifier (mg_heap_id g));
    ("heap_handle", if heap then build_address h (mg_heap_handle g) else build_null);
    ("address", build_address h (mg_address g));
    ("size", build_unsigned (mg_size g));
    ("size_semantics", build_text (text (if negb heap then "virtual" else "requested")));
    ("created_by", build_event (mg_created_by g) (present resolver (mg_created_by g)))].
End events.

(** ** Documents *)

Definition build_window_bound (bound : WindowBound) (ns_key sequence_key : string) : list (string * result exn json) := [
  (ns_key, build_optional build_signed (wb_time bound));
  (sequence_key, build_optional build_unsigned (wb_sequence bound))].

(** A bound that was not given has no members to speak of: both are null. *)
Definition build_optional_bound (bound : option WindowBound) := build_window_bound (default WindowBound_new bound).

Definition outstanding_window_members (r : OutstandingResult) : list (string * result exn json) :=
  build_window_bound (window_a (requested_window r)) "a_ns" "a_sequence" ++
  build_optional_bound (window_b (requested_window r)) "b_ns" "b_sequence" ++
  build_window_bound (effective_b r) "effective_b_ns" "effective_b_sequence" ++
  build_optional_bound (window_c (requested_window r)) "requested_c_ns" "requested_c_sequence" ++
  build_window_bound (effective_c r) "effective_c_ns" "effective_c_sequence" ++
  [("observation_uses_trace_end", build_bool (observation_uses_trace_end r))].

(** The outstanding generations, and the bytes of those that are virtual memory. *)
Fixpoint build_generations (h : FileHeader) (resolver : EventPresentationResolver) (total : Z)
    (generations : list MemoryGeneration) : result exn (list json * Z) :=
  match generations with
  | [] => Ok ([], total)
  | g :: generations =>
      total ← (if bool_decide (mg_kind g = Kind_kHeapAllocation) then Ok total
               else report_add JsonFormatError total (mg_size g) "outstanding virtual bytes");
      v ← build_generation h resolver g;
      rest ← build_generations h resolver total generations;
      Ok (v :: rest.1, rest.2)
  end.

Definition leaks_document (r : OutstandingResult) (filter : AnalysisFilter) (resolver : EventPresentationResolver)
    : result exn json :=
  let h := esr_file_header (or_trace r) in
  front ← build_members (prefix_members "leaks" h (esr_capture_scope (or_trace r)) filter ++ [
    ("window", build_object (outstanding_window_members r ++
       [("trace_end_monotonic_ticks", build_unsigned (trace_end_monotonic_ticks r))]))]);
  allocations ← build_generations h resolver 0 (outstanding r);
  back ← build_members [
    ("allocations", Ok (JArray allocations.1));
    ("summary", build_object ([
       ("candidates", build_unsigned (candidate_count r));
       ("ended_by_c", build_unsigned (ended_by_c_count r));
       ("filtered_out", build_unsigned (filtered_out_count r));
       ("outstanding", build_unsigned (size_of (outstanding r)));
       ("outstanding_virtual_bytes", build_unsigned allocations.2);
       ("orphaned_allocation_ends", build_unsigned (or_orphaned_allocation_end_count r));
       ("orphaned_mapping_ends", build_unsigned (or_orphaned_mapping_end_count r))] ++
       summary_members (or_trace r)))];
  Ok (JObject (front ++ back)).

(** *** Stacks *)

Definition build_event_group (h : FileHeader) (custom_hooks : list CustomHookDefinition)
    (resolver : EventPresentationResolver) (rank : Z) (g : EventsStacksGroup) : result exn json :=
  build_object [
    ("rank", build_unsigned rank);
    ("calls", build_unsigned (eg_calls g));
    ("alloc_calls", build_unsigned (eg_alloc_calls g));
    ("alloc_bytes", build_unsigned (eg_alloc_bytes g));
    ("free_calls", build_unsigned (eg_free_calls g));
    ("free_bytes", build_unsigned (eg_free_bytes g));
    ("net_bytes", build_signed (net_bytes g));
    ("stack_id", build_identifier (eg_stack_id g));
    ("apis", build_array build_text (group_api_names (eg_api_ids g) custom_hooks));
    ("sample_event", build_event h (eg_sample_event g) (present resolver (eg_sample_event g)))].

(** Groups with their ranks, and the sums over them. *)
Fixpoint build_groups {A} (add : stack_totals → A → result exn stack_totals) (build : Z → A → result exn json)
    (totals : stack_totals) (groups : list A) : result exn (list json * stack_totals) :=
  match groups with
  | [] => Ok ([], totals)
  | g :: groups =>
      totals ← add totals g;
      v ← build (st_rank totals) g;
      rest ← build_groups add build totals groups;
      Ok (v :: rest.1, rest.2)
  end.

Definition event_stacks_document (r : EventsStacksResult) (filter : AnalysisFilter)
    (resolver : EventPresentationResolver) : result exn json :=
  let h := esr_file_header (ers_trace r) in
  front ← build_members (prefix_members "stacks" h (esr_capture_scope (ers_trace r)) filter ++ [
    ("dataset", build_constant "events");
    ("window", build_object (build_window_bound (from (ers_window r)) "from_ns" "from_sequence" ++
       build_optional_bound (to (ers_window r)) "to_ns" "to_sequence"))]);
  groups ← build_groups (add_event_group JsonFormatError)
             (build_event_group h (esr_custom_hooks (ers_trace r)) resolver) stack_totals_new (ers_groups r);
  let totals := groups.2 in
  back ← build_members [
    ("groups", Ok (JArray groups.1));
    ("summary", build_object ([
       ("groups", build_unsigned (size_of (ers_groups r)));
       ("calls", build_unsigned (st_calls totals));
       ("alloc_bytes", build_unsigned (st_first_bytes totals));
       ("free_bytes", build_unsigned (st_second_bytes totals));
       ("net_bytes", build_signed (saturating_net_bytes (st_first_bytes totals) (st_second_bytes totals)));
       ("aggregated_events", build_unsigned (ers_aggregated_event_count r));
       ("unmatched_frees", build_unsigned (ers_unmatched_free_count r))] ++
       summary_members (ers_trace r)))];
  Ok (JObject (front ++ back)).

Definition build_leak_group (h : FileHeader) (custom_hooks : list CustomHookDefinition)
    (resolver : EventPresentationResolver) (rank : Z) (g : LeaksStacksGroup) : result exn json :=
  build_object [
    ("rank", build_unsigned rank);
    ("calls", build_unsigned (lg_calls g));
    ("bytes", build_unsigned (lg_bytes g));
    ("stack_id", build_identifier (lg_stack_id g));
    ("apis", build_array build_text (group_api_names (lg_api_ids g) custom_hooks));
    ("sample_event", build_event h (lg_sample_event g) (present resolver (lg_sample_event g)))].

Definition leak_stacks_document (r : LeaksStacksResult) (filter : AnalysisFilter)
    (resolver : EventPresentationResolver) : result exn json :=
  let leaks := lrs_outstanding r in
  let h := esr_file_header (or_trace leaks) in
  front ← build_members (prefix_members "stacks" h (esr_capture_scope (or_trace leaks)) filter ++ [
    ("dataset", build_constant "leaks");
    ("window", build_object (outstanding_window_members leaks))]);
  groups ← build_groups (add_leak_group JsonFormatError)
             (build_leak_group h (esr_custom_hooks (or_trace leaks)) resolver) stack_totals_new (lrs_groups r);
  back ← build_members [
    ("groups", Ok (JArray groups.1));
    ("summary", build_object ([
       ("groups", build_unsigned (size_of (lrs_groups r)));
       ("calls", build_unsigned (st_calls groups.2));
       ("bytes", build_unsigned (st_first_bytes groups.2))] ++
       summary_members (or_trace leaks)))];
  Ok (JObject (front ++ back)).

(** *** Memory *)

Definition build_memory_counters (c : MemoryCounters) : result exn json :=
  build_object [
    ("working_set_bytes", build_unsigned (working_set_bytes c));
    ("peak_working_set_bytes", build_unsigned (peak_working_set_bytes c));
    ("private_bytes", build_unsigned (private_bytes c));
    ("commit_bytes", build_unsigned (commit_bytes c))].

Definition build_memory_region (h : FileHeader) (region : MemoryMapRegion) : result exn json :=
  build_object [
    ("base", build_address h (mr_base region));
    ("size", build_unsigned (mr_size region));
    ("state", build_text (memory_region_state_name (mr_state region)));
    ("type", build_text (memory_region_type_name (mr_type region)));
    ("protect", build_hex (mr_protect region) 0)].

Definition build_memory_map (h : FileHeader) (m : MemoryMap) : result exn json :=
  build_object [
    ("committed_bytes", build_unsigned (mm_committed_bytes m));
    ("reserved_bytes", build_unsigned (mm_reserved_bytes m));
    ("free_bytes", build_unsigned (mm_free_bytes m));
    ("largest_free_bytes", build_unsigned (mm_largest_free_bytes m));
    ("region_count", build_unsigned (size_of (mm_regions m)));
    ("truncated", build_bool (mm_truncated m));
    ("regions", build_array (build_memory_region h) (mm_regions m))].

Definition build_agent_category (c : AgentMemoryCategorySample) : result exn json :=
  build_object [
    ("category", build_text (agent_memory_category_name (amc_category c)));
    ("reserved_bytes", build_unsigned (amc_reserved_bytes c));
    ("resident_bytes", build_unsigned (amc_resident_bytes c));
    ("exact", build_bool (category_exact c))].

(** A part of a snapshot that may be missing. *)
Definition part {A} (o : option A) (members : A → list (string * result exn json)) : list (string * result exn json) :=
  match o with Some a => members a | None => [] end.

Definition agent_members (snapshot : MemorySnapshot) (agent : AgentMemory) (totals : AgentMemoryTotals)
    : list (string * result exn json) := [
  ("agent", build_object [
     ("sample_kind", build_text (agent_memory_sample_kind_name (am_kind agent)));
     ("reserved_bytes", build_unsigned (total_reserved_bytes totals));
     ("resident_bytes", build_unsigned (total_resident_bytes totals));
     ("exact", build_bool (exact totals));
     ("categories", build_array build_agent_category (am_categories agent))])] ++
  part (ms_counters snapshot) (λ _, [
     ("application_estimate_bytes", estimate ← application_memory_estimate snapshot; build_unsigned estimate);
     ("application_estimate_exact", build_bool (exact totals))]).

Definition build_agent_members (snapshot : MemorySnapshot) : result exn (list (bytes * json)) :=
  match ms_agent snapshot with
  | None => Ok []
  | Some agent => totals ← agent_memory_totals agent; build_members (agent_members snapshot agent totals)
  end.

Definition build_snapshot (h : FileHeader) (snapshot : MemorySnapshot) : result exn json :=
  front ← build_members ([
    ("monotonic_ticks", build_unsigned (ms_monotonic_ticks snapshot));
    ("relative_time_ns", time ← trace_time_floor (ms_monotonic_ticks snapshot) h; build_signed time)] ++
    part (ms_counters snapshot) (λ c, [("counters", build_memory_counters c)]) ++
    part (ms_map snapshot) (λ m, [("map", build_memory_map h m)]));
  back ← build_agent_members snapshot;
  Ok (JObject (front ++ back)).

Definition build_buffer_configuration (c : BufferConfiguration) : result exn json :=
  build_object [
    ("requested_bytes", build_unsigned (bc_requested_bytes c));
    ("effective_slots", build_unsigned (bc_effective_slots c));
    ("event_size", build_unsigned (bc_event_size c));
    ("slot_size", build_unsigned (bc_slot_size c));
    ("reserved_bytes", build_unsigned (bc_reserved_bytes c));
    ("resident_after_init_bytes", build_unsigned (bc_resident_after_init_bytes c));
    ("adjusted", build_bool (negb (Z.land (bc_flags c) kBufferConfigurationFlagAdjusted =? 0)))].

Definition memory_document (r : MemoryAnalysisResult) : result exn json :=
  let h := esr_file_header (mar_trace r) in
  build_object (prefix_members "memory" h (esr_capture_scope (mar_trace r)) {| criteria_ := empty_criteria |} ++ [
    ("window", build_object [
       ("from_ns", build_optional build_signed (wb_time (mw_from (mar_window r))));
       ("to_ns", build_optional build_signed (mw_to (mar_window r) ≫= wb_time))]);
    ("snapshots", build_array (build_snapshot h) (snapshots r))] ++
    part (esr_buffer_configuration (mar_trace r)) (λ c, [("buffer_configuration", build_buffer_configuration c)]) ++ [
    ("summary", build_object ([
       ("snapshots", build_unsigned (size_of (snapshots r)));
       ("counter_snapshots", build_unsigned (count_present ms_counters (snapshots r)));
       ("map_snapshots", build_unsigned (count_present ms_map (snapshots r)));
       ("agent_snapshots", build_unsigned (count_present ms_agent (snapshots r)))] ++
       summary_members (mar_trace r)))]).

(** *** Events *)

(** The records of the report among the calls of the stream. *)
Definition build_record (h : FileHeader) (resolver : EventPresentationResolver) (call : StreamCall)
    : option (result exn json) :=
  match call with
  | on_event event => Some (build_event h event (present resolver event))
  | on_loss loss => Some (build_loss loss)
  | _ => None
  end.

Definition events_document (r : FilteredEventsResult) (filter : AnalysisFilter) (resolver : EventPresentationResolver)
    (calls : list StreamCall) : result exn json :=
  let h := esr_file_header (fe_trace r) in
  front ← build_members (prefix_members "events" h (esr_capture_scope (fe_trace r)) filter);
  records ← mapM id (omap (build_record h resolver) calls);
  back ← build_members [
    ("events", Ok (JArray records));
    ("summary", build_object ([
       ("matched_events", build_unsigned (matched_event_count r));
       ("filtered_events", build_unsigned (filtered_event_count r))] ++ summary_members (fe_trace r)))];
  Ok (JObject (front ++ back)).
