(* ===== verification/JsonTheorems.v ===== *)
(** * The JSON reports are the documents

    Every emitter of JsonWriter.v prints the value JsonDocuments.v builds. *)

From S2P Require Import Prelude Bytes Text Utf8 JsonText JsonEmitter WireFormat Event Completeness TraceData TraceWriter TraceTime AnalysisFilter GenerationTracker EventStream FilteredEvents HookRegistry Outstanding Stacks MemoryAnalysis Presentation JsonWriter JsonDocuments.

(** ** Leaves *)

Lemma prints_json_string s : prints (json_string s) (build_text s).
Proof. apply prints_string. Qed.
Lemma writes_json_key key : is_valid_utf8 (text key) = true →
  writes (json_string (text key)) (Ok (string_text (text key))).
Proof. apply writes_key. Qed.
Lemma prints_identifier id : prints (write_identifier id) (build_identifier id).
Proof. apply prints_if; auto with prints. Qed.
Lemma prints_hex value digits : prints (write_hex value digits) (build_hex value digits).
Proof. apply prints_string. Qed.
Lemma prints_address address h : prints (write_address address h) (build_address h address).
Proof. apply prints_string. Qed.
Lemma prints_optional_string o : prints (write_optional_string o) (build_optional build_text o).
Proof. apply prints_optional. apply prints_string. Qed.
#[export] Hint Resolve prints_json_string prints_identifier prints_hex prints_address prints_optional_string : prints.

(** Leaves under a binder, which [eauto] does not see. *)
Ltac prints_leaf ::=
  lazymatch goal with
  | |- prints (json_string _) _ => apply prints_json_string
  | |- prints (write_hex _ _) _ => apply prints_hex
  end.

#[local] Opaque build_text build_identifier build_hex build_address build_bool build_null.
#[local] Opaque json_string write_identifier write_hex write_address write_optional_string
  unsigned_number signed_number boolean null emit_optional build_optional emit_array.

Lemma prints_process_target target h : prints (write_process_target target h) (build_process_target h target).
Proof.
  unfold write_process_target, build_process_target. prints_object.
Qed.
#[export] Hint Resolve prints_process_target : prints.
#[local] Opaque write_process_target build_process_target.

Lemma prints_event_payload h payload : prints (write_event_payload h payload) (build_event_payload h payload).
Proof. destruct payload; unfold write_event_payload, build_event_payload; prints_object. Qed.
#[export] Hint Resolve prints_event_payload : prints.

Lemma prints_custom_hook_failure failure :
  prints (write_custom_hook_failure failure) (build_custom_hook_failure failure).
Proof. unfold write_custom_hook_failure, build_custom_hook_failure. prints_object. Qed.
#[export] Hint Resolve prints_custom_hook_failure : prints.

Lemma prints_custom_hook_failures failures :
  prints (write_custom_hook_failures failures) (build_array build_custom_hook_failure failures).
Proof. unfold write_custom_hook_failures. prints_object. Qed.
#[export] Hint Resolve prints_custom_hook_failures : prints.

(** *** Members, with the comma in front *)

Lemma writes_string_array key values : is_valid_utf8 (text key) = true →
  writes (write_string_array key values)
    (vs ← mapM build_text values;
     Ok ([x2c] ++ string_text (text key) ++ literal ":[" ++ separated [x2c] (map render vs) ++ [x5d])).
Proof.
  intros Hkey. eapply writes_eq; [unfold write_string_array; emits_step; [emits_step|];
    eapply writes_bind; [apply writes_json_key, Hkey|emits]|]. leaves. reflexivity.
Qed.

Lemma writes_integer_array key values : is_valid_utf8 (text key) = true →
  writes (write_integer_array key values)
    (vs ← mapM build_unsigned values;
     Ok ([x2c] ++ string_text (text key) ++ literal ":[" ++ separated [x2c] (map render vs) ++ [x5d])).
Proof.
  intros Hkey. eapply writes_eq; [unfold write_integer_array; emits_step; [emits_step|];
    eapply writes_bind; [apply writes_json_key, Hkey|emits]|]. leaves. reflexivity.
Qed.

Lemma writes_nullable_signed key value :
  writes (write_nullable_signed key value)
    (v ← build_optional build_signed value; Ok (literal ",'" ++ literal key ++ literal "':" ++ render v)).
Proof. eapply writes_eq; [unfold write_nullable_signed; emits|]. leaves. reflexivity. Qed.
Lemma writes_nullable_unsigned key value :
  writes (write_nullable_unsigned key value)
    (v ← build_optional build_unsigned value; Ok (literal ",'" ++ literal key ++ literal "':" ++ render v)).
Proof. eapply writes_eq; [unfold write_nullable_unsigned; emits|]. leaves. reflexivity. Qed.
#[export] Hint Extern 1 (writes (write_string_array _ _) _) => (apply writes_string_array; reflexivity) : writes.
#[export] Hint Extern 1 (writes (write_integer_array _ _) _) => (apply writes_integer_array; reflexivity) : writes.
#[export] Hint Resolve writes_nullable_signed writes_nullable_unsigned : writes.

Lemma prints_filter filter : prints (write_filter filter) (build_filter filter).
Proof.
  unfold write_filter, build_filter.
  prints_object.
Qed.
#[export] Hint Resolve prints_filter : prints.
#[local] Opaque write_filter build_filter.

Lemma prints_api_statistics api : prints (write_api_statistics api) (build_api_statistics api).
Proof. unfold write_api_statistics, build_api_statistics. prints_object. Qed.
#[export] Hint Resolve prints_api_statistics : prints.

Lemma prints_statistics s : prints (write_statistics s) (build_statistics s).
Proof. unfold write_statistics, build_statistics. prints_object. Qed.

Lemma prints_capture_statistics o : prints (write_capture_statistics o) (build_optional build_statistics o).
Proof. apply prints_optional, prints_statistics. Qed.
#[export] Hint Resolve prints_capture_statistics : prints.

Lemma prints_end_of_trace e : prints (write_end_of_trace e) (build_end_of_trace e).
Proof. unfold write_end_of_trace, build_end_of_trace. prints_object. Qed.

Lemma prints_termination o : prints (write_termination o) (build_optional build_end_of_trace o).
Proof. apply prints_optional, prints_end_of_trace. Qed.
#[export] Hint Resolve prints_termination : prints.

Lemma prints_completeness c : prints (write_completeness c) (build_completeness c).
Proof. unfold write_completeness, build_completeness. prints_object. Qed.
#[export] Hint Resolve prints_completeness : prints.

(** ** Events *)

Definition build_checked_frame (h : FileHeader) (frame : ResolvedStackFrame) : result exn json :=
  build_object [
    ("absolute_address", build_address h (rf_absolute_address frame));
    ("module", build_optional build_text (rf_module_name frame));
    ("module_offset", build_optional (λ o, build_hex o 0) (rf_module_offset frame));
    ("symbol", build_optional build_text (rf_symbol_name frame));
    ("symbol_offset", build_optional (λ o, build_hex o 0) (rf_symbol_offset frame))]%string.

Lemma build_frame_eq h frame : build_frame h frame = (check_frame JsonFormatError frame ;; build_checked_frame h frame).
Proof. reflexivity. Qed.

Lemma prints_frame h frame : prints (write_frame h frame) (build_checked_frame h frame).
Proof. unfold write_frame, build_checked_frame. prints_object. Qed.
#[export] Hint Resolve prints_frame : prints.

Lemma builds_frame h frame : builds (build_frame h frame).
Proof. rewrite build_frame_eq. apply builds_bind. intros _ _. eapply builds_prints, prints_frame. Qed.
#[export] Hint Resolve builds_frame : builds.
#[local] Opaque build_frame build_checked_frame check_frame.

Lemma writes_frames_rest h frames :
  writes (write_frames h false frames) (vs ← mapM (build_frame h) frames; Ok (vs ≫= λ v, [x2c] ++ render v)).
Proof.
  induction frames as [|frame frames IH]; [apply writes_nothing|]. cbn [write_frames negb]. eapply writes_eq.
  - eapply writes_bind; [apply writes_pure|]. eapply writes_bind; [apply writes_raw|].
    eapply writes_bind; [apply writes_prints, prints_frame|apply IH].
  - cbn [mapM]. rewrite (build_frame_eq h frame). leaves. reflexivity.
Qed.

Lemma writes_frames h frames :
  writes (write_frames h true frames) (vs ← mapM (build_frame h) frames; Ok (separated [x2c] (map render vs))).
Proof.
  destruct frames as [|frame frames]; [apply writes_nothing|]. cbn [write_frames negb]. eapply writes_eq.
  - eapply writes_bind; [apply writes_pure|]. eapply writes_bind; [apply writes_nothing|].
    eapply writes_bind; [apply writes_prints, prints_frame|apply writes_frames_rest].
  - cbn [mapM]. rewrite (build_frame_eq h frame). leaves. cbn -[separated]. rewrite separated_commas. do 2 f_equal. symmetry. apply commas_render.
Qed.
#[export] Hint Resolve writes_frames : writes.

Lemma prints_stack h event presentation :
  prints (write_stack h event presentation) (build_stack h event presentation).
Proof.
  unfold write_stack, build_stack. prints_object.
Qed.
#[export] Hint Resolve prints_stack : prints.

Lemma prints_system_error error : prints (write_system_error error) (build_system_error error).
Proof. unfold write_system_error, build_system_error. apply prints_if; [apply prints_null|]. prints_object. Qed.
#[export] Hint Resolve prints_system_error : prints.

Lemma prints_event h event presentation :
  prints (write_event_object h event presentation) (build_event h event presentation).
Proof. unfold write_event_object, build_event. prints_object. Qed.
#[export] Hint Resolve prints_event : prints.
#[local] Opaque write_event_object build_event.

Lemma prints_sequence_range r : prints (write_sequence_range r) (build_range (sr_begin r) (sr_end r)).
Proof. unfold write_sequence_range, build_range. prints_object. Qed.
Lemma prints_tick_range r : prints (write_tick_range r) (build_range (tr_begin r) (tr_end r)).
Proof. unfold write_tick_range, build_range. prints_object. Qed.
#[export] Hint Resolve prints_sequence_range prints_tick_range : prints.
#[local] Opaque write_sequence_range write_tick_range build_range.
Ltac prints_leaf ::=
  lazymatch goal with
  | |- prints (json_string _) _ => apply prints_json_string
  | |- prints (write_hex _ _) _ => apply prints_hex
  | |- prints (write_sequence_range _) _ => apply prints_sequence_range
  | |- prints (write_tick_range _) _ => apply prints_tick_range
  end.

Lemma prints_loss loss : prints (write_loss_object loss) (build_loss loss).
Proof.
  unfold write_loss_object, build_loss. prints_object.
Qed.
#[export] Hint Resolve prints_loss : prints.

Lemma prints_generation h resolver generation :
  prints (write_generation h resolver generation) (build_generation h resolver generation).
Proof. unfold write_generation, build_generation. prints_object. Qed.
#[export] Hint Resolve prints_generation : prints.
#[local] Opaque write_generation build_generation write_loss_object build_loss write_completeness build_completeness
  write_capture_statistics write_termination build_statistics build_end_of_trace write_custom_hook_failures
  build_custom_hook_failure.

(** ** The parts all documents share *)

(** The members of the summary, without its braces. *)
Lemma writes_summary trace :
  writes (write_summary trace)
    (ms ← build_members (summary_members trace); Ok (separated [x2c] (map member_text ms))).
Proof.
  eapply writes_eq; [unfold write_summary; emits|]. unfold summary_members, build_members, build_array.
  leaves. same_text.
Qed.

Lemma writes_prefix mode h s filter :
  writes (write_document_prefix mode h s filter)
    (ms ← build_members (prefix_members mode h s filter);
     Ok ([x7b] ++ separated [x2c] (map member_text ms))).
Proof.
  eapply writes_eq; [unfold write_document_prefix; emits|].
  unfold prefix_members, build_trace_metadata, build_capture, build_object, build_members, build_array, build_constant.
  leaves. same_text.
Qed.

(** ** Loops that count *)

(** Elements, the first of them with no comma if [first]. *)
Definition elements_text (first : bool) (vs : list json) : bytes :=
  if first then separated [x2c] (map render vs) else vs ≫= λ v, [x2c] ++ render v.

Lemma elements_text_cons first v vs :
  elements_text first (v :: vs) = (if first then [] else [x2c]) ++ render v ++ elements_text false vs.
Proof.
  destruct first; cbn -[separated]; [|done]. rewrite separated_commas. f_equal. apply commas_render.
Qed.

Lemma writes_comma (first : bool) :
  writes (if negb first then raw "," else mret tt) (Ok (if first then [] else [x2c])).
Proof. destruct first; [apply writes_nothing|apply writes_raw]. Qed.

(** The loops over groups, which differ in their groups alone. *)
Lemma yields_groups {A} (add : stack_totals → A → result exn stack_totals) (body : Z → A → emitter)
    (build : Z → A → result exn json) (loop : bool → stack_totals → list A → proc bytes exn stack_totals) :
  (∀ first totals, loop first totals [] = mret totals) →
  (∀ first totals g groups, loop first totals (g :: groups) =
     (totals ← pure (add totals g); (if negb first then raw "," else mret tt) ;;
      body (st_rank totals) g ;; loop false totals groups)) →
  (∀ rank g, prints (body rank g) (build rank g)) →
  ∀ groups first totals,
  yields (loop first totals groups)
    (r ← build_groups add build totals groups; Ok (elements_text first r.1, r.2)).
Proof.
  intros Hnil Hcons Hbody groups. induction groups as [|g groups IH]; intros first totals.
  - rewrite Hnil. eapply yields_eq; [apply yields_ret|]. by destruct first.
  - rewrite Hcons. eapply yields_eq; [apply yields_throw; intros totals' _|].
    + eapply yields_after; [apply writes_comma|]. eapply yields_after; [apply writes_prints, Hbody|apply IH].
    + cbn [build_groups]. leaves. cbn [fst snd]. rewrite elements_text_cons. cbn. reflexivity.
Qed.

Section documents.
Variables (h : FileHeader) (resolver : EventPresentationResolver).

Lemma prints_event_group hooks rank g :
  prints (write_event_group h hooks resolver rank g) (build_event_group h hooks resolver rank g).
Proof. unfold write_event_group, build_event_group. prints_object. Qed.
Lemma prints_leak_group hooks rank g :
  prints (write_leak_group h hooks resolver rank g) (build_leak_group h hooks resolver rank g).
Proof. unfold write_leak_group, build_leak_group. prints_object. Qed.

Lemma yields_event_groups hooks groups first totals :
  yields (write_event_groups h hooks resolver first totals groups)
    (r ← build_groups (add_event_group JsonFormatError) (build_event_group h hooks resolver) totals groups;
     Ok (elements_text first r.1, r.2)).
Proof. apply (yields_groups _ (write_event_group h hooks resolver)); auto using prints_event_group. Qed.
Lemma yields_leak_groups hooks groups first totals :
  yields (write_leak_groups h hooks resolver first totals groups)
    (r ← build_groups (add_leak_group JsonFormatError) (build_leak_group h hooks resolver) totals groups;
     Ok (elements_text first r.1, r.2)).
Proof. apply (yields_groups _ (write_leak_group h hooks resolver)); auto using prints_leak_group. Qed.

Lemma yields_generations generations first total :
  yields (write_generations h resolver first total generations)
    (r ← build_generations h resolver total generations; Ok (elements_text first r.1, r.2)).
Proof.
  revert first total. induction generations as [|g generations IH]; intros first total; cbn [write_generations].
  - eapply yields_eq; [apply yields_ret|]. by destruct first.
  - eapply yields_eq.
    + eapply yields_after; [apply writes_comma|]. apply yields_throw; intros total' _.
      eapply yields_after; [apply writes_prints, prints_generation|apply IH].
    + cbn [build_generations]. destruct (bool_decide _); cbn [negb]; leaves; cbn [fst snd];
        rewrite elements_text_cons; reflexivity.
Qed.

Lemma writes_memory_counters c :
  writes (write_memory_counters c) (v ← build_memory_counters c; Ok (literal ",'counters':" ++ render v)).
Proof.
  eapply writes_eq; [unfold write_memory_counters; emits|].
  unfold build_memory_counters, build_object, build_members. leaves. same_text.
Qed.
Lemma prints_memory_region region : prints (write_memory_region h region) (build_memory_region h region).
Proof. unfold write_memory_region, build_memory_region. prints_object. Qed.
Lemma prints_agent_category c : prints (write_agent_category c) (build_agent_category c).
Proof. unfold write_agent_category, build_agent_category. prints_object. Qed.
End documents.
#[export] Hint Resolve yields_event_groups yields_leak_groups yields_generations prints_memory_region prints_agent_category : prints writes.
#[export] Hint Resolve writes_prefix writes_summary : writes.
#[local] Opaque build_trace_metadata build_capture.

Lemma writes_window_bound ns_key sequence_key bound :
  writes (write_window_bound ns_key sequence_key bound)
    (t ← build_optional build_signed (wb_time bound); s ← build_optional build_unsigned (wb_sequence bound);
     Ok (literal ",'" ++ literal ns_key ++ literal "':" ++ render t ++
         literal ",'" ++ literal sequence_key ++ literal "':" ++ render s)).
Proof. eapply writes_eq; [unfold write_window_bound; emits|]. leaves. by rewrite <- !app_assoc. Qed.
Lemma writes_optional_window_bound ns_key sequence_key bound :
  writes (write_optional_window_bound ns_key sequence_key bound)
    (t ← build_optional build_signed (wb_time (default WindowBound_new bound));
     s ← build_optional build_unsigned (wb_sequence (default WindowBound_new bound));
     Ok (literal ",'" ++ literal ns_key ++ literal "':" ++ render t ++
         literal ",'" ++ literal sequence_key ++ literal "':" ++ render s)).
Proof. apply writes_window_bound. Qed.
#[export] Hint Resolve writes_window_bound writes_optional_window_bound : writes.
#[local] Opaque write_window_bound write_optional_window_bound.

(** The window, still open. *)
Lemma writes_outstanding_window r :
  writes (write_outstanding_window r)
    (ms ← build_members (outstanding_window_members r); Ok ([x7b] ++ separated [x2c] (map member_text ms))).
Proof.
  eapply writes_eq; [unfold write_outstanding_window; emits|].
  unfold outstanding_window_members, build_window_bound, build_optional_bound, build_window_bound. cbn [app].
  unfold build_members. leaves. same_text.
Qed.
#[export] Hint Resolve writes_outstanding_window : writes.
#[local] Opaque write_outstanding_window.

(** The text of a document against its value. *)
Ltac document :=
  unfold prefix_members, summary_members, outstanding_window_members, build_window_bound, build_optional_bound,
    build_window_bound;
  cbn [app]; unfold build_object, build_members, build_array, build_constant;
  leaves; cbn [fst snd]; leaves; unfold list_bind; same_text.

Lemma writes_leaks r filter resolver :
  writes (write_outstanding_document r filter resolver)
    ((λ v, render v ++ [x0a]) <$> leaks_document r filter resolver).
Proof. eapply writes_eq; [unfold write_outstanding_document; emits|]. unfold leaks_document. document. Qed.

Lemma writes_event_stacks r filter resolver :
  writes (write_event_stacks_document r filter resolver)
    ((λ v, render v ++ [x0a]) <$> event_stacks_document r filter resolver).
Proof. eapply writes_eq; [unfold write_event_stacks_document; emits|]. unfold event_stacks_document. document. Qed.

Lemma writes_leak_stacks r filter resolver :
  writes (write_leak_stacks_document r filter resolver)
    ((λ v, render v ++ [x0a]) <$> leak_stacks_document r filter resolver).
Proof. eapply writes_eq; [unfold write_leak_stacks_document; emits|]. unfold leak_stacks_document. document. Qed.

(** *** Memory *)

Lemma writes_memory_map h m :
  writes (write_memory_map h m) (v ← build_memory_map h m; Ok (literal ",'map':" ++ render v)).
Proof. eapply writes_eq; [unfold write_memory_map; emits|]. unfold build_memory_map. document. Qed.

Lemma writes_agent_memory snapshot agent :
  writes (write_agent_memory snapshot agent)
    (totals ← agent_memory_totals agent; ms ← build_members (agent_members snapshot agent totals);
     Ok (ms ≫= λ m, [x2c] ++ member_text m)).
Proof.
  unfold write_agent_memory, agent_members. apply writes_throw; intros totals _.
  destruct (ms_counters snapshot) as [c|]; cbn [part].
  - change (bool_decide (is_Some (Some c))) with true. eapply writes_eq; [emits|]. document.
  - change (bool_decide (is_Some (@None MemoryCounters))) with false. eapply writes_eq; [emits|]. document.
Qed.
#[export] Hint Resolve writes_memory_counters writes_memory_map writes_agent_memory : writes.
#[local] Opaque write_memory_counters write_memory_map write_agent_memory build_memory_counters build_memory_map
  agent_memory_totals agent_members.


Lemma writes_agent_part snapshot :
  writes (emit_present (write_agent_memory snapshot) (ms_agent snapshot))
    (ms ← build_agent_members snapshot; Ok (ms ≫= λ m, [x2c] ++ member_text m)).
Proof.
  unfold build_agent_members. destruct (ms_agent snapshot) as [agent|]; [|apply writes_nothing].
  eapply writes_eq; [apply writes_agent_memory|]. leaves. reflexivity.
Qed.
#[export] Hint Resolve writes_agent_part : writes.
#[local] Opaque build_agent_members.

Lemma writes_snapshot h snapshot : writes (write_snapshot h snapshot) (render <$> build_snapshot h snapshot).
Proof.
  unfold write_snapshot, build_snapshot.
  destruct (ms_counters snapshot), (ms_map snapshot); cbn [part emit_present];
    (eapply writes_eq; [emits|]; cbn [app]; unfold build_object, build_members; leaves; rewrite render_first;
     unfold list_bind; same_text).
Qed.

Lemma members_ok l k : Forall (λ m, is_valid_utf8 m.1 = true ∧ json_ok m.2) l →
  Forall (λ m, is_valid_utf8 m.1 = true ∧ json_ok m.2) k → json_ok (JObject (l ++ k)).
Proof. intros Hl Hk. cbn. by apply foldr_and, Forall_app. Qed.

(** Two parts of an object, the second of which may depend on more than the first. *)
Lemma builds_parts {A} front (middle : result exn A) (back : A → result exn (list (bytes * json))) :
  Forall (λ m, is_valid_utf8 (text m.1) = true ∧ builds m.2) front →
  (∀ a ms, middle = Ok a → back a = Ok ms → Forall (λ m, is_valid_utf8 m.1 = true ∧ json_ok m.2) ms) →
  builds (ms ← build_members front; a ← middle; ms' ← back a; Ok (JObject (ms ++ ms'))).
Proof.
  intros Hfront Hback v. destruct (build_members front) as [ms|] eqn:E; cbn; [|done].
  destruct middle as [a|]; cbn; [|done]. destruct (back a) as [ms'|] eqn:E'; cbn; [|done]. intros [= <-].
  apply members_ok; [by eapply build_members_ok|by eapply Hback].
Qed.

#[local] Transparent build_memory_map build_memory_counters agent_members build_agent_members.
Lemma builds_memory_map h m : builds (build_memory_map h m).
Proof. unfold build_memory_map. builds. Qed.
Lemma builds_memory_counters c : builds (build_memory_counters c).
Proof. unfold build_memory_counters. builds. Qed.
#[export] Hint Resolve builds_memory_map builds_memory_counters : builds.

Lemma prints_snapshot h snapshot : prints (write_snapshot h snapshot) (build_snapshot h snapshot).
Proof.
  apply prints_intro; [apply writes_snapshot|]. unfold build_snapshot.
  apply (builds_parts _ (Ok tt) (λ _, build_agent_members snapshot)).
  - destruct (ms_counters snapshot), (ms_map snapshot); cbn [part app]; builds.
  - intros _ ms _. unfold build_agent_members. destruct (ms_agent snapshot) as [agent|]; [|by intros [= <-]].
    destruct (agent_memory_totals agent) as [totals|]; [|done].
    change (build_members (agent_members snapshot agent totals) = Ok ms →
      Forall (λ m, is_valid_utf8 m.1 = true ∧ json_ok m.2) ms). apply build_members_ok.
    unfold agent_members. destruct (ms_counters snapshot); cbn [part app]; builds.
Qed.
#[export] Hint Resolve prints_snapshot : prints.
#[local] Opaque build_snapshot write_snapshot.

Lemma writes_buffer_configuration c :
  writes (write_buffer_configuration c)
    (v ← build_buffer_configuration c; Ok (literal "'buffer_configuration':" ++ render v ++ literal ",")).
Proof.
  eapply writes_eq; [unfold write_buffer_configuration; emits|]. unfold build_buffer_configuration. document.
Qed.
#[export] Hint Resolve writes_buffer_configuration : writes.
Lemma builds_buffer_configuration c : builds (build_buffer_configuration c).
Proof. unfold build_buffer_configuration. builds. Qed.
#[export] Hint Resolve builds_buffer_configuration : builds.
#[local] Opaque build_buffer_configuration write_buffer_configuration.

Lemma writes_memory r :
  writes (write_memory_document r) ((λ v, render v ++ [x0a]) <$> memory_document r).
Proof.
  unfold write_memory_document, memory_document.
  destruct (esr_buffer_configuration (mar_trace r)) as [c|]; cbn [part emit_present];
    (eapply writes_eq; [emits|]; document).
Qed.

(** ** The documents are well formed *)

#[local] Transparent build_trace_metadata build_capture build_completeness build_statistics build_end_of_trace
  build_custom_hook_failure.

Abbreviation named_members := (Forall (λ m, is_valid_utf8 (text m.1) = true ∧ builds m.2)).

#[export] Hint Resolve prints_statistics prints_end_of_trace : prints.
Lemma prefix_named mode h s filter : named_members (prefix_members mode h s filter).
Proof. unfold prefix_members, build_trace_metadata, build_capture. builds. Qed.
Lemma summary_named t : named_members (summary_members t).
Proof. unfold summary_members. builds. Qed.
Lemma outstanding_window_named r : named_members (outstanding_window_members r).
Proof. unfold outstanding_window_members, build_optional_bound, build_window_bound. cbn [app]. builds. Qed.

Lemma builds_generations h resolver gens : ∀ total r,
  build_generations h resolver total gens = Ok r → builds (Ok (JArray r.1)).
Proof.
  assert (∀ total r, build_generations h resolver total gens = Ok r → Forall json_ok r.1) as H.
  { induction gens as [|g gens IH]; intros total r E; cbn in E; [by injection E as <-|].
    destruct (if bool_decide _ then _ else _) as [total'|]; cbn in E; [|done].
    destruct (build_generation h resolver g) as [v|] eqn:Ev; cbn in E; [|done].
    destruct (build_generations h resolver total' gens) as [[vs t]|] eqn:Er; cbn in E; [|done]. injection E as <-.
    constructor; [by eapply builds_prints; [apply prints_generation|]|]. by apply (IH total' (vs, t)). }
  intros total r E v [= <-]. cbn. by eapply foldr_and, H.
Qed.

Lemma builds_groups {A} add (build : Z → A → result exn json) groups : (∀ rank g, builds (build rank g)) →
  ∀ totals r, build_groups add build totals groups = Ok r → builds (Ok (JArray r.1)).
Proof.
  intros Hbuild. assert (∀ totals r, build_groups add build totals groups = Ok r → Forall json_ok r.1) as H.
  { induction groups as [|g groups IH]; intros totals r E; cbn in E; [by injection E as <-|].
    destruct (add totals g) as [totals'|]; cbn in E; [|done].
    destruct (build (st_rank totals') g) as [v|] eqn:Ev; cbn in E; [|done].
    destruct (build_groups add build totals' groups) as [[vs t]|] eqn:Er; cbn in E; [|done]. injection E as <-.
    constructor; [by eapply Hbuild|]. by apply (IH totals' (vs, t)). }
  intros totals r E v [= <-]. cbn. by eapply foldr_and, H.
Qed.

(** Members one by one, then the shared ones. *)
Ltac named :=
  repeat lazymatch goal with
  | |- named_members (_ ++ _) => apply Forall_app_2
  | |- named_members (prefix_members _ _ _ _) => apply prefix_named
  | |- named_members (summary_members _) => apply summary_named
  | |- named_members (outstanding_window_members _) => apply outstanding_window_named
  | |- named_members (part ?o _) => destruct o; cbn [part]
  | |- named_members (build_window_bound _ _ _) => unfold build_window_bound
  | |- named_members (build_optional_bound _ _ _) => unfold build_optional_bound
  | |- named_members (_ :: _) => apply Forall_cons_2
  | |- named_members [] => apply Forall_nil_2
  | |- builds (build_object _) => apply builds_object
  | |- _ ∧ _ => split; [reflexivity|cbn [snd]]
  | |- builds _ => solve [builds]
  end.

Lemma builds_leaks r filter resolver : builds (leaks_document r filter resolver).
Proof.
  apply builds_parts; [named|]. intros allocations ms Hallocations. apply build_members_ok. named.
  - by eapply builds_generations.
Qed.

Lemma builds_event_stacks r filter resolver : builds (event_stacks_document r filter resolver).
Proof.
  apply builds_parts; [named|]. intros groups ms Hgroups. apply build_members_ok. named.
  - eapply builds_groups; [|done]. intros. eapply builds_prints, prints_event_group.
Qed.

Lemma builds_leak_stacks r filter resolver : builds (leak_stacks_document r filter resolver).
Proof.
  apply builds_parts; [named|]. intros groups ms Hgroups. apply build_members_ok. named.
  - eapply builds_groups; [|done]. intros. eapply builds_prints, prints_leak_group.
Qed.

Lemma builds_memory r : builds (memory_document r).
Proof. apply builds_object. named. Qed.
