(* ===== verification/JsonReports.v ===== *)
(** * JSON reports, from the trace to the text

    What the calls of json.cpp leave in the stream: the text of the document, which a
    JSON parser reads back as the document. *)

From S2P Require Import Prelude Bytes Text WireFormat Compression Event Completeness TraceData TraceReader TraceWriter TraceReaderTheorems GenerationTracker TraceTime AnalysisFilter EventStream StreamContract FilteredEvents HookRegistry StreamExamples Outstanding OutstandingTheorems Stacks StacksTheorems MemoryAnalysis Utf8 JsonText JsonEmitter Presentation JsonWriter JsonDocuments JsonTheorems.

(** ** The stream *)

Lemma ostream_write_good o data : out_good (ostream_write o data).1 = true →
  out_good o = true ∧ out_bytes (ostream_write o data).1 = out_bytes o ++ data.
Proof.
  unfold ostream_write. destruct (out_good o) eqn:Ho; cbn [negb]; [|cbn; congruence].
  destruct (out_room o) as [room|]; [|done]. cbn. intros Hroom%Nat.leb_le. by rewrite take_ge.
Qed.

(** From [w] to [w'] the writer writes [t], if the stream takes it. *)
Definition wrote (w w' : JsonWriter) (t : bytes) : Prop :=
  out_good (jw_output w') = true →
  out_good (jw_output w) = true ∧ out_bytes (jw_output w') = out_bytes (jw_output w) ++ t.

Lemma wrote_nothing w w' : jw_output w' = jw_output w → wrote w w' [].
Proof. intros H Hgood. rewrite H in *. by rewrite app_nil_r. Qed.
Lemma wrote_then w1 w2 w3 t1 t2 : wrote w1 w2 t1 → wrote w2 w3 t2 → wrote w1 w3 (t1 ++ t2).
Proof.
  intros H1 H2 Hgood. destruct (H2 Hgood) as [Hg2 ->]. destruct (H1 Hg2) as [Hg1 ->]. by rewrite app_assoc.
Qed.

Lemma with_output_ok p r w w' : writes p r → with_output p w = (Ok tt, w') →
  ∃ t, r = Ok t ∧ w' = w <| jw_output := (ostream_write (jw_output w) t).1 |>.
Proof.
  intros Hp. unfold with_output. specialize (Hp []). destruct r as [t|e].
  - rewrite Hp. intros [= <-]. by exists t.
  - destruct Hp as [part ->]. done.
Qed.

Lemma with_output_throw p w e : writes p (Throw e) → ∃ w', with_output p w = (Throw e, w').
Proof. intros Hp. unfold with_output. destruct (Hp []) as [part ->]. eauto. Qed.

Lemma with_output_run p t w : writes p (Ok t) →
  with_output p w = (Ok tt, w <| jw_output := (ostream_write (jw_output w) t).1 |>).
Proof. intros Hp. unfold with_output. by rewrite (Hp []). Qed.

Lemma wrote_output w t : wrote w (w <| jw_output := (ostream_write (jw_output w) t).1 |>) t.
Proof. intros Hgood. by apply ostream_write_good. Qed.

(** ** Reports in one call *)

(** What a call that writes [doc] comes to: the document in the stream, read back, or an
    exception of the writer. *)
Definition reported {A F} (thrown : exn → F) (run : Prelude.result F A * ostream) (output : ostream) (result : A)
    (doc : Prelude.result exn json) : Prop :=
  match doc with
  | Throw e => run.1 = Throw (thrown e)
  | Ok v =>
      let report := render v ++ [x0a] in
      json_parse report = Some v ∧
      run.2 = (ostream_write output report).1 ∧
      run.1 = if out_good run.2 then Ok result else Throw (thrown (Exn JsonFormatError "cannot write JSON output"))
  end.

(** And of one that analyses first. *)
Definition report_of {A F} (thrown : exn → F) (analysis : Prelude.result F A) (doc : A → Prelude.result exn json)
    (output : ostream) (run : Prelude.result F A * ostream) : Prop :=
  match analysis with
  | Throw f => run = (Throw f, output)
  | Ok result => reported thrown run output result (doc result)
  end.

Lemma modify_then {S E B} (f : S → S) (q : proc S E B) s : (modify f ;; q) s = q (f s).
Proof. done. Qed.

Lemma get_then {S E B} (f : S → proc S E B) s : (get_state ≫= f) s = f s s.
Proof. done. Qed.

Lemma ensure_output_run w :
  ensure_output w = (if out_good (jw_output w) then Ok tt else throw JsonFormatError "cannot write JSON output", w).
Proof. unfold ensure_output, mbind, proc_bind. cbn. unfold json_error_if, throw_if. by destruct (out_good _). Qed.

Lemma write_document_run trace p v w : writes p (Ok (render v ++ [x0a])) →
  ∃ w', jw_output w' = (ostream_write (jw_output w) (render v ++ [x0a])).1 ∧
  write_document trace p w =
    (if out_good (jw_output w') then Ok tt else throw JsonFormatError "cannot write JSON output", w').
Proof.
  intros Hp. unfold write_document. eexists. split.
  2: { rewrite modify_then, (proc_bind_run _ _ _ _ _ (with_output_run _ _ _ Hp)), modify_then. apply ensure_output_run. }
  done.
Qed.

(** The checks of [report], then the document. *)
Lemma report_run {A F} (output : ostream) (result : A) (embed : fault → F) trace p (check : Prelude.result exn unit)
    (doc : Prelude.result exn json) (report : writing unit) operation :
  report = (require_state State_kReady operation ;; pure check ;; write_document trace p) →
  writes p ((λ v, render v ++ [x0a]) <$> doc) → builds doc →
  reported (embed ∘ Thrown) (let '(r, w) := lift_writing report (JsonWriter_new output) in
      (match r with Ok _ => Ok result | Throw f => Throw (embed f) end, jw_output w))
    output result (check ;; doc).
Proof.
  intros -> Hp Hdoc. unfold lift_writing, require_state. rewrite proc_bind_assoc, get_then, pure_bind, pure_bind.
  change (jw_state (JsonWriter_new output)) with State_kReady. rewrite bool_decide_true by done. cbn [negb json_error_if throw_if].
  destruct check as [[]|e]; [|done].
  change ((Ok tt : Prelude.result exn unit) ;; doc) with doc. destruct doc as [v|e]; cbn [reported].
  - destruct (write_document_run trace p v (JsonWriter_new output) Hp) as (w' & Ho & ->). cbn zeta beta iota.
    split_and!; [apply json_parse_render; [by apply Hdoc|by repeat constructor]|..].
    + by destruct (out_good _).
    + destruct (out_good (jw_output w')) eqn:E; cbn; by rewrite E.
  - unfold write_document. rewrite modify_then. 
    destruct (with_output_throw p ((JsonWriter_new output) <| jw_header := esr_file_header trace |>
      <| jw_capture_scope := esr_capture_scope trace |>) e Hp) as [w' Hw].
    by rewrite (proc_throw_run _ _ _ _ _ Hw).
Qed.

(** C18: The JSON reports.  A report in one call (leaks, stacks of events and of leaks,
    memory) analyses the trace and, when the analysis returns, puts exactly the text of
    the report's document into the stream, which a JSON parser reads back as that
    document; it returns the result if the stream took all of it and throws if not.  When
    there is no such document (a string that is not UTF-8, a sum or a time out of range,
    counts that do not add up) it throws that.  When the analysis fails the stream is
    untouched. *)
Theorem json_reports_exact {L : CompressionLibrary} (input : istream) (output : ostream)
    (options : EventStreamOptions) (filter : AnalysisFilter) (resolver : EventMetadataResolver)
    (presentation : EventPresentationResolver) :
  (∀ window : OutstandingWindow,
     report_of Thrown (analyze_filtered_outstanding window filter resolver input options)
       (λ r, check_outstanding JsonFormatError r ;; leaks_document r filter presentation) output
       (analyze_outstanding_to_json input output filter resolver presentation options window)) ∧
  (∀ window sort,
     report_of Thrown (analyze_event_stacks input window sort filter resolver options)
       (λ r, event_stacks_document r filter presentation) output
       (analyze_event_stacks_to_json input output filter resolver presentation options window sort)) ∧
  (∀ window sort,
     report_of Thrown (analyze_leak_stacks input window sort filter resolver options)
       (λ r, leak_stacks_document r filter presentation) output
       (analyze_leak_stacks_to_json input output filter resolver presentation options window sort)) ∧
  (∀ window : MemoryWindow,
     report_of (Stopped ∘ Thrown) (analyze_memory input window options) memory_document output
       (analyze_memory_to_json input output options window)).
Proof.
  split_and!; intros window; [|intros sort..|]; unfold report_of.
  - unfold analyze_outstanding_to_json. destruct (analyze_filtered_outstanding _ _ _ _ _) as [r|]; [|done].
    eapply (report_run output r id); [reflexivity|apply writes_leaks|apply builds_leaks].
  - unfold analyze_event_stacks_to_json. destruct (analyze_event_stacks _ _ _ _ _ _) as [r|]; [|done].
    eapply (report_run output r id _ _ (Ok tt)); [reflexivity|apply writes_event_stacks|apply builds_event_stacks].
  - unfold analyze_leak_stacks_to_json. destruct (analyze_leak_stacks _ _ _ _ _ _) as [r|]; [|done].
    eapply (report_run output r id _ _ (Ok tt)); [reflexivity|apply writes_leak_stacks|apply builds_leak_stacks].
  - unfold analyze_memory_to_json. destruct (analyze_memory _ _ _) as [r|]; [|done].
    eapply (report_run output r Stopped _ _ (Ok tt)); [reflexivity|apply writes_memory|apply builds_memory].
Qed.

(** ** Events one by one *)

Lemma require_state_ok expected operation (w w' : JsonWriter) :
  require_state expected operation w = (Ok tt, w') → w' = w ∧ jw_state w = expected.
Proof.
  unfold require_state. rewrite get_then. unfold pure, json_error_if, throw_if.
  destruct (bool_decide _) eqn:E; [|done]. apply bool_decide_eq_true in E. by intros [= <-].
Qed.

Lemma ensure_output_ok (w w' : JsonWriter) : ensure_output w = (Ok tt, w') → w' = w.
Proof. rewrite ensure_output_run. by intros [= _ <-]. Qed.

(** [w'] is [w] but for the stream, the separator and the counts. *)
Definition continues (w w' : JsonWriter) : Prop :=
  jw_state w' = jw_state w ∧ jw_header w' = jw_header w ∧ jw_capture_scope w' = jw_capture_scope w.

Lemma continues_trans w1 w2 w3 : continues w1 w2 → continues w2 w3 → continues w1 w3.
Proof. unfold continues. intros (-> & -> & ->). done. Qed.

Lemma separator_ok (w w' : JsonWriter) : write_record_separator w = (Ok tt, w') →
  wrote w w' (if jw_first_record w then [] else [x2c]) ∧ jw_first_record w' = false ∧ continues w w'.
Proof.
  intros Hrun. unfold write_record_separator in Hrun. rewrite get_then in Hrun.
  apply proc_bind_ok in Hrun as ([] & w0 & Hsep & [= <-]). destruct (jw_first_record w); cbn [negb] in Hsep.
  - injection Hsep as <-. split_and!; [by apply wrote_nothing|done|done].
  - apply (with_output_ok _ _ _ _ (writes_raw ",")) in Hsep as (t & [= <-] & ->). split_and!; [|done|done].
    intros Hgood. by apply ostream_write_good.
Qed.

(** After the record: its count. *)
Lemma count_ok (m : Prelude.result exn Z) (set : Z → JsonWriter → JsonWriter) (w w' : JsonWriter) :
  (∀ c w, jw_output (set c w) = jw_output w ∧ jw_first_record (set c w) = jw_first_record w ∧ continues w (set c w)) →
  (c ← pure m; modify (set c) ;; ensure_output) w = (Ok tt, w') →
  wrote w w' [] ∧ jw_first_record w' = jw_first_record w ∧ continues w w'.
Proof.
  intros Hset Hrun. rewrite pure_bind in Hrun. destruct m as [c|]; [|done]. rewrite modify_then in Hrun.
  apply ensure_output_ok in Hrun as ->. destruct (Hset c w) as (Ho & Hf & Hc). split_and!; [by apply wrote_nothing|done..].
Qed.

Lemma record_ok (p : emitter) doc (w w1 w2 w' : JsonWriter) :
  write_record_separator w = (Ok tt, w1) → writes p (render <$> doc) → with_output p w1 = (Ok tt, w2) →
  wrote w2 w' [] ∧ jw_first_record w' = jw_first_record w2 ∧ continues w2 w' →
  ∃ v, doc = Ok v ∧ wrote w w' (elements_text (jw_first_record w) [v]) ∧ jw_first_record w' = false ∧ continues w w'.
Proof.
  intros (Hw1 & Hf1 & Hc1)%separator_ok Hp Hout (Hw2 & Hf2 & Hc2).
  apply (with_output_ok _ _ _ _ Hp) in Hout as (t & Ht & ->). destruct doc as [v|]; [|done]. injection Ht as <-.
  exists v. split_and!; [done| |by rewrite Hf2|by eapply continues_trans, Hc2].
  rewrite elements_text_cons. eapply wrote_then; [exact Hw1|].
  eapply wrote_then; [apply wrote_output|exact Hw2].
Qed.

Section events.
Variables (filter : AnalysisFilter) (presentation : EventPresentationResolver).

Lemma write_event_ok event (w w' : JsonWriter) :
  write_event event (present presentation event) w = (Ok tt, w') →
  ∃ v, build_event (jw_header w) event (present presentation event) = Ok v ∧
  wrote w w' (elements_text (jw_first_record w) [v]) ∧ jw_first_record w' = false ∧ continues w w' ∧
  jw_state w = State_kEvents.
Proof.
  intros Hrun. apply proc_bind_ok in Hrun as ([] & ? & (-> & Hstate)%require_state_ok & Hrun).
  rewrite pure_bind in Hrun. destruct (validate_event event) as [[]|]; [|done].
  apply proc_bind_ok in Hrun as ([] & w1 & Hsep & Hrun). rewrite get_then in Hrun.
  apply proc_bind_ok in Hrun as ([] & w2 & Hout & Hrun).
  apply count_ok in Hrun; [|done]. destruct (separator_ok _ _ Hsep) as (_ & _ & (_ & Hh & _)).
  rewrite Hh in Hout.
  destruct (record_ok _ _ _ _ _ _ Hsep (writes_prints _ _ (prints_event _ _ _)) Hout Hrun) as (v & ? & ? & ? & ?).
  eauto 10.
Qed.

Lemma write_loss_ok loss (w w' : JsonWriter) :
  write_loss loss w = (Ok tt, w') →
  ∃ v, build_loss loss = Ok v ∧
  wrote w w' (elements_text (jw_first_record w) [v]) ∧ jw_first_record w' = false ∧ continues w w' ∧
  jw_state w = State_kEvents.
Proof.
  intros Hrun. apply proc_bind_ok in Hrun as ([] & ? & (-> & Hstate)%require_state_ok & Hrun).
  rewrite pure_bind in Hrun. destruct (validate_loss_record loss) as [[]|]; [|done].
  apply proc_bind_ok in Hrun as ([] & w1 & Hsep & Hrun).
  apply proc_bind_ok in Hrun as ([] & w2 & Hout & Hrun). rewrite get_then in Hrun. apply count_ok in Hrun; [|done].
  destruct (record_ok _ _ _ _ _ _ Hsep (writes_prints _ _ (prints_loss _)) Hout Hrun) as (v & ? & ? & ? & ?).
  eauto 10.
Qed.

(** One call of the stream, while the records are written. *)
Lemma call_ok call (s s' : EventsToJson) : jw_state (ej_writer s) = State_kEvents →
  events_to_json_call filter presentation call s = (Ok tt, s') →
  let w := ej_writer s in let w' := ej_writer s' in
  ∃ vs, mapM id (omap (build_record (jw_header w) presentation) [call]) = Ok vs ∧
  wrote w w' (elements_text (jw_first_record w) vs) ∧
  jw_first_record w' = (match vs with [] => jw_first_record w | _ => false end) ∧ continues w w'.
Proof.
  intros Hstate Hrun w w'.
  assert (Hquiet : ej_writer s' = ej_writer s → omap (build_record (jw_header w) presentation) [call] = [] →
    ∃ vs, mapM id (omap (build_record (jw_header w) presentation) [call]) = Ok vs ∧
    wrote w w' (elements_text (jw_first_record w) vs) ∧
    jw_first_record w' = (match vs with [] => jw_first_record w | _ => false end) ∧ continues w w').
  { intros Hs ->. subst w w'. rewrite Hs. exists []. split_and!; [done| |done|done].
    intros Hgood. destruct (jw_first_record _); cbn; by rewrite app_nil_r. }
  destruct call; cbn [events_to_json_call] in Hrun; try (by injection Hrun as <-; apply Hquiet); clear Hquiet.
  - rewrite get_then in Hrun. destruct (ej_file_header s) as [header|]; [|done]. unfold on_writer in Hrun.
    destruct (begin_events header scope filter (ej_writer s)) as [r w1] eqn:E. injection Hrun as -> _.
    apply proc_bind_ok in E as ([] & ? & (-> & Hready)%require_state_ok & _). congruence.
  - unfold on_writer in Hrun. destruct (write_event _ _ (ej_writer s)) as [r w1] eqn:E. injection Hrun as -> <-.
    apply write_event_ok in E as (v & Hv & ? & ? & ? & _). exists [v]. split; [|eauto]. subst w.
    change (mapM id [build_event (jw_header (ej_writer s)) event (present presentation event)] = Ok [v]). by rewrite Hv.
  - unfold on_writer in Hrun. destruct (write_loss _ (ej_writer s)) as [r w1] eqn:E. injection Hrun as -> <-.
    apply write_loss_ok in E as (v & Hv & ? & ? & ? & _). exists [v]. split; [|eauto]. subst w.
    change (mapM id [build_loss loss] = Ok [v]). by rewrite Hv.
Qed.

Lemma mapM_app_ok {A B} (f : A → Prelude.result exn B) l k vs ws :
  mapM f l = Ok vs → mapM f k = Ok ws → mapM f (l ++ k) = Ok (vs ++ ws).
Proof.
  intros Hl Hk. revert vs Hl. induction l as [|a l IH]; intros vs Hl; cbn in Hl; [by injection Hl as <-|].
  cbn. destruct (f a) as [v|]; cbn in *; [|done]. destruct (mapM f l) as [vs'|]; cbn in Hl; [|done].
  injection Hl as <-. by rewrite (IH vs').
Qed.

Lemma elements_text_app first vs ws :
  elements_text first (vs ++ ws) =
  elements_text first vs ++ elements_text (match vs with [] => first | _ => false end) ws.
Proof.
  revert first. induction vs as [|v vs IH]; intros first; [by destruct first|]. cbn [app].
  rewrite !elements_text_cons, IH, <- !app_assoc. by destruct vs.
Qed.

Lemma calls_ok calls (s s' : EventsToJson) : jw_state (ej_writer s) = State_kEvents →
  deliver (events_to_json_call filter presentation) calls s = (Ok tt, s') →
  let w := ej_writer s in let w' := ej_writer s' in
  ∃ vs, mapM id (omap (build_record (jw_header w) presentation) calls) = Ok vs ∧
  wrote w w' (elements_text (jw_first_record w) vs) ∧ continues w w'.
Proof.
  revert s. induction calls as [|call calls IH]; intros s Hstate Hrun; cbn [deliver] in Hrun.
  - injection Hrun as <-. exists []. split_and!; [done| |done]. intros ?. destruct (jw_first_record _); cbn; by rewrite app_nil_r.
  - apply proc_bind_ok in Hrun as ([] & s1 & Hone & Hrun).
    apply call_ok in Hone as (vs & Hvs & Hw & Hf & Hc); [|done].
    apply IH in Hrun as (ws & Hws & Hw' & Hc'); [|by rewrite (proj1 Hc)].
    destruct Hc as (Hs1 & Hh1 & Hsc1). rewrite Hh1 in Hws. exists (vs ++ ws). split_and!.
    + change (call :: calls) with ([call] ++ calls). rewrite omap_app. by apply mapM_app_ok.
    + rewrite elements_text_app, <- Hf. by eapply wrote_then.
    + eapply continues_trans; [|exact Hc']. done.
Qed.

(** The head of the report. *)
Lemma begin_events_ok header scope (w w' : JsonWriter) : begin_events header scope filter w = (Ok tt, w') →
  ∃ front, build_members (prefix_members "events" header scope filter) = Ok front ∧
  wrote w w' ([x7b] ++ separated [x2c] (map member_text front) ++ literal ",'events':[") ∧
  jw_state w' = State_kEvents ∧ jw_header w' = header ∧ jw_capture_scope w' = scope ∧
  jw_first_record w' = jw_first_record w.
Proof.
  intros Hrun. apply proc_bind_ok in Hrun as ([] & ? & (-> & Hstate)%require_state_ok & Hrun).
  rewrite modify_then in Hrun. apply proc_bind_ok in Hrun as ([] & w1 & Hprefix & Hrun).
  apply (with_output_ok _ _ _ _ (writes_prefix _ _ _ _)) in Hprefix as (t & Ht & ->).
  destruct (build_members _) as [front|]; [|done]. cbn in Ht. injection Ht as <-.
  apply proc_bind_ok in Hrun as ([] & w2 & Hout & Hrun).
  apply (with_output_ok _ _ _ _ (writes_raw _)) in Hout as (t & [= <-] & ->). rewrite modify_then in Hrun.
  apply ensure_output_ok in Hrun as ->. exists front. split_and!; try done.
  rewrite app_assoc. set (w0 := w <| jw_header := header |> <| jw_capture_scope := scope |>) in *.
  assert (Hw0 : wrote w w0 []) by by apply wrote_nothing.
  eapply wrote_then; [exact (wrote_then _ _ _ _ _ Hw0 (wrote_output w0 _))|]. intros Hgood. by apply ostream_write_good.
Qed.

Lemma before_ok calls (s s' : EventsToJson) : jw_state (ej_writer s) = State_kReady →
  jw_first_record (ej_writer s) = true →
  deliver (events_to_json_call filter presentation) calls s = (Ok tt, s') →
  let w := ej_writer s in let w' := ej_writer s' in
  jw_state w' = State_kEvents →
  ∃ front vs, build_members (prefix_members "events" (jw_header w') (jw_capture_scope w') filter) = Ok front ∧
  mapM id (omap (build_record (jw_header w') presentation) calls) = Ok vs ∧
  wrote w w' (([x7b] ++ separated [x2c] (map member_text front) ++ literal ",'events':[") ++ elements_text true vs).
Proof.
  revert s. induction calls as [|call calls IH]; intros s Hstate Hfirst Hrun w w' Hdone; cbn [deliver] in Hrun.
  { injection Hrun as <-. subst w'. congruence. }
  apply proc_bind_ok in Hrun as ([] & s1 & Hone & Hrun).
  destruct call; cbn [events_to_json_call] in Hone; try (injection Hone as <-; by apply (IH s)).
  - injection Hone as <-. apply IH in Hrun; done.
  - rewrite get_then in Hone. destruct (ej_file_header s) as [header|]; [|done]. unfold on_writer in Hone.
    destruct (begin_events header scope filter (ej_writer s)) as [r w1] eqn:E. injection Hone as -> <-.
    apply begin_events_ok in E as (front & Hfront & Hw & Hs1 & Hh & Hsc & Hf1).
    apply calls_ok in Hrun as (vs & Hvs & Hw' & Hs' & Hh' & Hsc'); [|done]. cbn [ej_writer] in *.
    rewrite Hf1, Hfirst in Hw'. subst w w'. rewrite Hh', Hsc', Hh, Hsc. exists front, vs. rewrite Hh in Hvs. split_and!; [done..|].
    by eapply wrote_then.
  - unfold on_writer in Hone. destruct (write_event _ _ _) as [r w1] eqn:E. injection Hone as -> _.
    apply write_event_ok in E as (_ & _ & _ & _ & _ & E). congruence.
  - unfold on_writer in Hone. destruct (write_loss _ _) as [r w1] eqn:E. injection Hone as -> _.
    apply write_loss_ok in E as (_ & _ & _ & _ & _ & E). congruence.
Qed.
End events.

Lemma writes_events_summary_text result :
  writes (write_events_summary result)
    (s ← build_object ([
       ("matched_events"%string, build_unsigned (matched_event_count result));
       ("filtered_events"%string, build_unsigned (filtered_event_count result))] ++ summary_members (fe_trace result));
     Ok (literal "],'summary':" ++ render s ++ [x7d; x0a])).
Proof. eapply writes_eq; [unfold write_events_summary; emits|]. document. Qed.

Lemma builds_record h resolver call r : build_record h resolver call = Some r → builds r.
Proof.
  destruct call; try done; intros [= <-]; eapply builds_prints; [apply prints_event|apply prints_loss].
Qed.

Lemma builds_events r filter resolver calls : builds (events_document r filter resolver calls).
Proof.
  apply builds_parts; [apply prefix_named|]. intros records ms Hrecords. apply build_members_ok.
  assert (builds (build_array id (omap (build_record (esr_file_header (fe_trace r)) resolver) calls))) as H.
  { apply builds_array. intros r' (call & _ & Hcall)%list_elem_of_omap. by eapply builds_record. }
  apply Forall_cons_2; [split; [done|]|apply Forall_cons_2; [split; [done|]|constructor]].
  - intros v [= <-]. apply H. unfold build_array. cbn [snd]. by rewrite Hrecords.
  - cbn [snd]. named.
Qed.

(** What [finish_events] leaves, when it returns. *)
Lemma finish_events_ok result (w w' : JsonWriter) : finish_events result w = (Ok tt, w') →
  jw_state w = State_kEvents ∧
  jw_header w = esr_file_header (fe_trace result) ∧ jw_capture_scope w = esr_capture_scope (fe_trace result) ∧
  out_good (jw_output w') = true ∧
  ∃ s, build_object ([
       ("matched_events"%string, build_unsigned (matched_event_count result));
       ("filtered_events"%string, build_unsigned (filtered_event_count result))] ++
         summary_members (fe_trace result)) = Ok s ∧
    wrote w w' (literal "],'summary':" ++ render s ++ [x7d; x0a]).
Proof.
  intros Hrun. apply proc_bind_ok in Hrun as ([] & ? & (-> & Hstate)%require_state_ok & Hrun).
  rewrite get_then, pure_bind in Hrun. unfold json_error_if, throw_if in Hrun.
  destruct (bool_decide (jw_header w = _)) eqn:Hh; [|cbn in Hrun; congruence].
  destruct (bool_decide (jw_capture_scope w = _)) eqn:Hs; [|cbn in Hrun; congruence]. cbn [negb orb] in Hrun.
  rewrite pure_bind in Hrun. destruct (negb _ || _); [cbn in Hrun; congruence|].
  rewrite pure_bind in Hrun. destruct (_ || _); [cbn in Hrun; congruence|].
  apply proc_bind_ok in Hrun as ([] & w1 & Hout & Hrun).
  apply (with_output_ok _ _ _ _ (writes_events_summary_text _)) in Hout as (t & Ht & ->).
  rewrite modify_then in Hrun. rewrite ensure_output_run in Hrun. injection Hrun as Hgood <-.
  apply bool_decide_eq_true in Hh, Hs.
  destruct (build_object _) as [s|]; [|done]. injection Ht as <-. split_and!; [done..| |].
  - by destruct (out_good _) eqn:E in Hgood.
  - exists s. split; [done|]. intros ?. by apply ostream_write_good.
Qed.

(** C19: The report of the events.  When the call returns, the stream has taken exactly the
    text of one JSON document, which a JSON parser reads back: its records are the events
    of the trace that the window and the filter pass, and every loss record, in the order
    of the trace, and its counts and summary are those of the analysis. *)
Theorem json_events_exact {L : CompressionLibrary} {Laws : CompressionLaws L} (input : istream)
    (output output' : ostream) (options : EventStreamOptions) (filter : AnalysisFilter)
    (resolver : EventMetadataResolver) (presentation : EventPresentationResolver) (window : EventsWindow)
    (result : FilteredEventsResult) :
  u32 (maximum_record_size options) →
  analyze_events_to_json input output filter resolver presentation options window = (Ok result, output') →
  let calls := (analyze_event_stream input options).2 in
  let header := esr_file_header (fe_trace result) in
  (analyze_event_stream input options).1 = Ok (fe_trace result) ∧
  ∃ doc, events_document result filter presentation
           (base.filter (λ c, passes filter resolver window header c = true) calls) = Ok doc ∧
    out_good output' = true ∧ out_bytes output' = out_bytes output ++ render doc ++ [x0a] ∧
    json_parse (render doc ++ [x0a]) = Some doc.
Proof.
  intros Hsize Hrun. unfold analyze_events_to_json in Hrun.
  destruct (analyze_filtered_events _ _ _ _ _ _ _) as [[result'|] s] eqn:Hevents; [|done].
  unfold lift_writing in Hrun. destruct (finish_events result' (ej_writer s)) as [[[]|] w] eqn:Hfinish; [|done].
  injection Hrun as -> <-.
  destruct (filtered_events_calls _ _ _ _ _ _ _ _ _ Hsize Hevents) as (Htrace & Hcalls & _ & _).
  set (calls := (analyze_event_stream input options).2) in *. cbn zeta. split; [done|].
  apply finish_events_ok in Hfinish as (Hstate & Hheader & Hscope & Hgood & summary & Hsummary & Hw').
  apply before_ok in Hcalls as (front & vs & Hfront & Hvs & Hw); [|done..].
  rewrite Hheader, ?Hscope in *. exists (JObject (front ++ [(text "events", JArray vs); (text "summary", summary)])).
  assert (Hdoc : events_document result filter presentation
    (base.filter (λ c, passes filter resolver window (esr_file_header (fe_trace result)) c = true) calls) =
    Ok (JObject (front ++ [(text "events", JArray vs); (text "summary", summary)]))).
  { unfold events_document. rewrite Hfront. cbn [mbind result_bind]. rewrite Hvs. cbn [mbind result_bind].
    unfold build_members at 1. cbn [mbind result_bind]. by rewrite Hsummary. }
  split_and!; [done|done| |].
  - destruct (wrote_then _ _ _ _ _ Hw Hw' Hgood) as [_ ->]. cbn [ej_writer jw_output JsonWriter_new]. f_equal.
    rewrite render_front by (eapply build_members_nonempty, Hfront; done). same_text.
  - apply json_parse_render; [|by repeat constructor]. by eapply builds_events.
Qed.

(** ** The JSON report of the sample trace

    The trace of StreamExamples.v once more, reported as JSON. *)

#[local] Existing Instances stored_library.

(** A stream that takes everything, and one that takes ten characters. *)
Definition fresh_output : ostream :=
  {| out_bytes := []; out_room := None; out_errno := 0; out_flush_fails := false; out_good := true |}.
Definition full_output : ostream :=
  {| out_bytes := []; out_room := Some 10%nat; out_errno := 28; out_flush_fails := false; out_good := true |}.

Definition events_report (window : EventsWindow) (output : ostream) :=
  analyze_events_to_json sample_input output no_filter None None default_stream_options window.

Definition member (key : string) (v : json) : option json :=
  match v with
  | JObject l => snd <$> List.find (λ m, bool_decide (m.1 = text key)) l
  | _ => None
  end.
Definition elements (v : json) : list json := match v with JArray l => l | _ => [] end.

(** The sequence numbers of the events of a report. *)
Definition sequences (doc : json) : option (list (option json)) :=
  events ← member "events" doc; Some (member "sequence" <$> elements events).
Definition reported_sequences (report : bytes) : option (list (option json)) := json_parse report ≫= sequences.

Example all_events : reported_sequences (out_bytes (events_report whole_trace fresh_output).2) =
  Some [Some (JNumber 1); Some (JNumber 2); Some (JNumber 5)].
Proof. vm_compute. reflexivity. Qed.

Example no_room : (events_report whole_trace full_output).1 = Throw (Thrown (Exn JsonFormatError "cannot write JSON output")).
Proof. vm_compute. reflexivity. Qed.

Definition first_event_output : ostream := (events_report first_event fresh_output).2.

Lemma json_events_exact_witness :
  ∃ doc, json_parse (out_bytes first_event_output) = Some doc ∧
    sequences doc = Some [Some (JNumber 1)].
Proof.
  assert (Hu : u32 (maximum_record_size default_stream_options)) by (split; [discriminate|reflexivity]).
  assert (Hrun : analyze_events_to_json sample_input fresh_output no_filter None None default_stream_options first_event =
    (Ok (filtered_of first_event), first_event_output)) by (vm_compute; reflexivity).
  destruct (json_events_exact sample_input fresh_output first_event_output default_stream_options no_filter None None
    first_event _ Hu Hrun) as (_ & doc & _ & _ & Hout & Hparse).
  clear Hrun. exists doc.
  assert (H : reported_sequences (out_bytes first_event_output) = Some [Some (JNumber 1)]) by (vm_compute; reflexivity).
  rewrite Hout in *. unfold reported_sequences in H. split; [exact Hparse|]. 
  change (out_bytes fresh_output ++ render doc ++ [x0a]) with (render doc ++ [x0a]) in H.
  rewrite Hparse in H. exact H.
Defined.
