(* ===== verification/RawEvents.v ===== *)
(** * Raw events

    What the hooks of the Linux agent queue for the writer thread: [LinuxHeapEvent]
    (src/include/noleax/agent/linux/heap_event.hpp) with its [CapturedStack]
    (stack_capture.hpp), [RawModuleEvent] (module_tracker.hpp), and the checks
    src/agent/linux/trace_writer.cpp applies to them before it uses them. *)

From S2P Require Import Prelude Bytes WireFormat TraceData HookRegistry.

(** ** Captured stacks *)

Definition kMaximumCapturedStackDepth : Z := 64.

Inductive RawStackStatus : Set :=
  | Captured_kDisabled | Captured_kCaptured | Captured_kTruncated | Captured_kFailed.

#[global] Instance RawStackStatus_eq_dec : EqDecision RawStackStatus.
Proof. solve_decision. Defined.

Record CapturedStack : Set := {
  cs_frames : list Z;            (* std::array of 64 *)
  cs_frame_count : Z;            (* uint16 *)
  cs_requested_depth : Z;        (* uint16 *)
  cs_status : RawStackStatus;
}.

#[global] Instance CapturedStack_eq_dec : EqDecision CapturedStack.
Proof. solve_decision. Defined.

(** [frames[0]] to [frames[frame_count - 1]]. *)
Definition used_frames (stack : CapturedStack) : list Z :=
  take (Z.to_nat (cs_frame_count stack)) (cs_frames stack).

Definition captured_is (s t : RawStackStatus) : bool := bool_decide (s = t).

Definition stack_capture_succeeded (stack : CapturedStack) : bool :=
  (captured_is (cs_status stack) Captured_kCaptured ||
   captured_is (cs_status stack) Captured_kTruncated) &&
  negb (cs_frame_count stack =? 0) && (cs_frame_count stack <=? cs_requested_depth stack) &&
  (cs_requested_depth stack <=? kMaximumCapturedStackDepth).

Definition CapturedStack_wt (stack : CapturedStack) : Prop :=
  length (cs_frames stack) = Z.to_nat kMaximumCapturedStackDepth ∧ Forall u64 (cs_frames stack) ∧
  u16 (cs_frame_count stack) ∧ u16 (cs_requested_depth stack).

Definition invalid {A} (message : string) : result exn A := throw InvalidArgument message.
Definition invalid_argument_if (b : bool) (message : string) : result exn unit :=
  throw_if b InvalidArgument message.

Definition validate_raw_stack (stack : CapturedStack) : result exn unit :=
  invalid_argument_if ((kMaximumCapturedStackDepth <? cs_requested_depth stack) ||
                       (kMaximumCapturedStackDepth <? cs_frame_count stack))
    "raw captured stack depth exceeds its fixed capacity" ;;
  if stack_capture_succeeded stack then
    invalid_argument_if (existsb (Z.eqb 0) (used_frames stack))
      "raw captured stack contains a zero frame"
  else if captured_is (cs_status stack) Captured_kFailed && (cs_frame_count stack =? 0) then mret tt
  else if captured_is (cs_status stack) Captured_kDisabled && (cs_frame_count stack =? 0) &&
          (cs_requested_depth stack =? 0) then mret tt
  else invalid "raw captured stack encoding is invalid".

(** ** Heap and virtual memory events *)

Inductive LinuxHeapEventOperation : Set :=
  | Raw_kAllocate | Raw_kReallocate | Raw_kFree | Raw_kVmAllocate | Raw_kVmUnmap | Raw_kVmRemap.

Inductive LinuxHeapEventStatus : Set := Raw_kSuccess | Raw_kFailure.

#[global] Instance LinuxHeapEventOperation_eq_dec : EqDecision LinuxHeapEventOperation.
Proof. solve_decision. Defined.
#[global] Instance LinuxHeapEventStatus_eq_dec : EqDecision LinuxHeapEventStatus.
Proof. solve_decision. Defined.

Record LinuxHeapEvent : Set := {
  raw_queue_sequence : Z;
  raw_monotonic_ticks : Z;
  raw_thread_id : Z;
  raw_requested_address : Z;
  raw_requested_size : Z;
  raw_count : Z;
  raw_alignment : Z;
  raw_result_address : Z;
  raw_address : Z;
  raw_protection : Z;
  raw_map_flags : Z;
  raw_section_handle : Z;
  raw_section_offset : Z;
  raw_completion_sequence : Z;
  raw_operation_result : Z;      (* uint32 *)
  raw_api_id : Z;                (* uint32 *)
  raw_operation : LinuxHeapEventOperation;
  raw_status : LinuxHeapEventStatus;
  raw_stack : CapturedStack;
}.

Definition LinuxHeapEvent_wt (e : LinuxHeapEvent) : Prop :=
  u64 (raw_queue_sequence e) ∧ u64 (raw_monotonic_ticks e) ∧ u64 (raw_thread_id e) ∧
  u64 (raw_requested_address e) ∧ u64 (raw_requested_size e) ∧ u64 (raw_count e) ∧
  u64 (raw_alignment e) ∧ u64 (raw_result_address e) ∧ u64 (raw_address e) ∧
  u64 (raw_protection e) ∧ u64 (raw_map_flags e) ∧ u64 (raw_section_handle e) ∧
  u64 (raw_section_offset e) ∧ u64 (raw_completion_sequence e) ∧ u32 (raw_operation_result e) ∧
  u32 (raw_api_id e) ∧ CapturedStack_wt (raw_stack e).

Definition operation_is (o p : LinuxHeapEventOperation) : bool := bool_decide (o = p).
Definition raw_succeeded (e : LinuxHeapEvent) : bool := bool_decide (raw_status e = Raw_kSuccess).

Definition is_vm_operation (o : LinuxHeapEventOperation) : bool :=
  operation_is o Raw_kVmAllocate || operation_is o Raw_kVmUnmap || operation_is o Raw_kVmRemap.

Definition expected_operation (api : LinuxLogicalHookApi) : LinuxHeapEventOperation :=
  match api with
  | Linux_kMalloc | Linux_kCalloc | Linux_kPosixMemalign | Linux_kAlignedAlloc | Linux_kMemalign =>
      Raw_kAllocate
  | Linux_kRealloc | Linux_kReallocarray => Raw_kReallocate
  | Linux_kFree => Raw_kFree
  | Linux_kMmap => Raw_kVmAllocate
  | Linux_kMunmap => Raw_kVmUnmap
  | Linux_kMremap => Raw_kVmRemap
  end.

(** [is_declared_custom_api], given the number of declared hook points. *)
Definition is_declared_custom_api (custom_definitions : Z) (api_id : Z) : bool :=
  (kCustomHookApiIdBase <=? api_id) && (api_id - kCustomHookApiIdBase <? custom_definitions).

(** The [switch] of [validate_raw_event]. *)
Definition validate_operation (e : LinuxHeapEvent) : result exn unit :=
  let succeeded := raw_succeeded e in
  match raw_operation e with
  | Raw_kAllocate =>
      invalid_argument_if (negb (raw_address e =? 0) ||
                           negb (Bool.eqb succeeded (negb (raw_result_address e =? 0))))
        "raw malloc-family event result is inconsistent"
  | Raw_kReallocate =>
      invalid_argument_if (negb succeeded && negb (raw_result_address e =? 0))
        "raw realloc-family event result is inconsistent" ;;
      invalid_argument_if (succeeded && (raw_result_address e =? 0) && (raw_address e =? 0))
        "raw realloc-family event result is inconsistent"
  | Raw_kFree =>
      invalid_argument_if (negb (raw_requested_size e =? 0) || negb (raw_result_address e =? 0) ||
                           negb (raw_count e =? 0) || negb (raw_alignment e =? 0))
        "raw free event is inconsistent"
  | Raw_kVmAllocate =>
      invalid_argument_if
        (negb (raw_address e =? 0) || negb (raw_count e =? 0) || negb (raw_alignment e =? 0) ||
         (succeeded && (raw_requested_size e =? 0)) ||
         negb (Bool.eqb succeeded (negb (raw_result_address e =? 0))) ||
         (succeeded && (u64_max - raw_result_address e <? raw_requested_size e)))
        "raw mmap event result is inconsistent"
  | Raw_kVmUnmap =>
      invalid_argument_if
        (negb (raw_requested_address e =? 0) || negb (raw_count e =? 0) ||
         negb (raw_alignment e =? 0) || negb (raw_result_address e =? 0) ||
         negb (raw_protection e =? 0) || negb (raw_map_flags e =? 0) ||
         negb (raw_section_handle e =? 0) || negb (raw_section_offset e =? 0) ||
         (succeeded && ((raw_address e =? 0) || (raw_requested_size e =? 0) ||
                        (u64_max - raw_address e <? raw_requested_size e))))
        "raw munmap event result is inconsistent"
  | Raw_kVmRemap =>
      invalid_argument_if
        (negb (raw_requested_address e =? 0) || negb (raw_protection e =? 0) ||
         negb (raw_section_handle e =? 0) || negb (raw_section_offset e =? 0) ||
         (negb (raw_alignment e =? 0) && (Z.land (raw_map_flags e) 2 =? 0)) ||
         (succeeded && ((raw_address e =? 0) || (raw_count e =? 0) ||
                        (u64_max - raw_address e <? raw_requested_size e) ||
                        (u64_max - raw_result_address e <? raw_count e))) ||
         negb (Bool.eqb succeeded (negb (raw_result_address e =? 0))))
        "raw mremap event result is inconsistent"
  end.

(** [validate_raw_event], with the members of the writer it reads. *)
Definition validate_raw_event (monotonic_origin custom_definitions last_sequence : Z)
    (e : LinuxHeapEvent) : result exn unit :=
  invalid_argument_if ((raw_queue_sequence e =? 0) || (raw_thread_id e =? 0) ||
                       (raw_monotonic_ticks e <? monotonic_origin))
    "raw Linux heap event header is invalid" ;;
  invalid_argument_if (negb (Bool.eqb (raw_succeeded e) (raw_operation_result e =? 0)))
    "raw Linux heap event result is inconsistent" ;;
  match find_linux_hook (raw_api_id e) with
  | None =>
      invalid_argument_if (negb (is_declared_custom_api custom_definitions (raw_api_id e)))
        "raw Linux heap event carries an unknown API ID" ;;
      invalid_argument_if (is_vm_operation (raw_operation e))
        "raw custom hook event operation is not supported"
  | Some hook =>
      invalid_argument_if
        (negb (operation_is (expected_operation (lh_logical_api hook)) (raw_operation e)))
        "raw Linux heap event operation does not match its API"
  end ;;
  validate_operation e ;;
  invalid_argument_if (is_vm_operation (raw_operation e) && (raw_completion_sequence e =? 0))
    "raw Linux VM event carries no completion sequence" ;;
  invalid_argument_if ((last_sequence =? u64_max) ||
                       negb (raw_queue_sequence e =? last_sequence + 1))
    "raw Linux heap event sequence is not contiguous".

(** ** Module events *)

Definition kMaximumRawModulePathBytes : Z := 1024.

Inductive RawModuleEventType : Set := Raw_kLoad | Raw_kUnload.
Inductive RawModuleEventFlag : Set := Raw_kInitialSnapshot | Raw_kPathTruncated.

#[global] Instance RawModuleEventType_eq_dec : EqDecision RawModuleEventType.
Proof. solve_decision. Defined.

Record RawModuleEvent : Set := {
  rm_monotonic_ticks : Z;
  rm_base_address : Z;
  rm_image_size : Z;
  rm_flags : Z;                  (* uint32 *)
  rm_path_length : Z;            (* uint16 *)
  rm_type : RawModuleEventType;
  rm_path : bytes;               (* std::array of 1024 *)
}.

Definition RawModuleEventFlag_value (flag : RawModuleEventFlag) : Z :=
  match flag with Raw_kInitialSnapshot => Z.shiftl 1 0 | Raw_kPathTruncated => Z.shiftl 1 1 end.

Definition has_raw_module_flag (e : RawModuleEvent) (flag : RawModuleEventFlag) : bool :=
  negb (Z.land (rm_flags e) (RawModuleEventFlag_value flag) =? 0).

Definition RawModuleEvent_wt (e : RawModuleEvent) : Prop :=
  u64 (rm_monotonic_ticks e) ∧ u64 (rm_base_address e) ∧ u64 (rm_image_size e) ∧
  u32 (rm_flags e) ∧ u16 (rm_path_length e) ∧ size_of (rm_path e) = kMaximumRawModulePathBytes.
