(* ===== verification/StackDictionary.v ===== *)
(** * The stack dictionary

    src/agent/windows/stack_dictionary.cpp: captured stacks interned under identifiers,
    in a table of fixed capacity with chained buckets.  The two classes of the source
    share their code but for the type of a stack, which is a typeclass here.  A full
    table starts a new segment: it forgets the stacks, never an identifier.

    The chain of a bucket is walked with fuel; [None] is a walk that left the table or
    ran out of fuel, which [intern] turns into [DanglingReference] and
    the theorems below exclude. *)

From S2P Require Import Prelude Bytes WireFormat TraceData DictionaryCodec RawEvents.

(** ** Hashes *)

Definition kEmptyIndex : Z := u32_max.
Definition kFnvOffsetBasis : Z := 14695981039346656037.
Definition kFnvPrime : Z := 1099511628211.

Definition hash_byte (hash value : Z) : Z := wrap64 (Z.lxor hash value * kFnvPrime).

Definition hash_u64 (hash value : Z) : Z :=
  foldl (λ hash shift, hash_byte hash (Z.land (Z.shiftr value shift) 0xff)) hash
    [0; 8; 16; 24; 32; 40; 48; 56].

(** ** Stacks *)

Record NormalizedStack : Set := {
  ns_frames : list StackFrame;   (* std::array of 64 *)
  ns_frame_count : Z;            (* uint16 *)
  ns_status : StackCaptureStatus;
}.

Definition raw_status_value (s : RawStackStatus) : Z :=
  match s with Captured_kDisabled => 0 | Captured_kCaptured => 1 | Captured_kTruncated => 2 | Captured_kFailed => 3 end.

Definition hash_captured_stack (stack : CapturedStack) : Z :=
  let hash := hash_byte kFnvOffsetBasis (raw_status_value (cs_status stack)) in
  let hash := hash_u64 hash (cs_frame_count stack) in
  let frame_count := Z.min (cs_frame_count stack) kMaximumCapturedStackDepth in
  foldl hash_u64 hash (take (Z.to_nat frame_count) (cs_frames stack)).

Definition hash_frame (hash : Z) (frame : StackFrame) : Z :=
  let hash := hash_u64 hash (sf_module_id frame) in
  let hash := hash_u64 hash (sf_module_offset frame) in
  let hash := hash_u64 hash (sf_absolute_address frame) in
  hash_u64 hash (sf_flags frame).

Definition hash_normalized_stack (stack : NormalizedStack) : Z :=
  let hash := hash_byte kFnvOffsetBasis (StackCaptureStatus_value (ns_status stack)) in
  let hash := hash_u64 hash (ns_frame_count stack) in
  let frame_count := Z.min (ns_frame_count stack) kMaximumCapturedStackDepth in
  foldl hash_frame hash (take (Z.to_nat frame_count) (ns_frames stack)).

(** What the dictionary asks of a stack, and the laws its theorems rest on. *)
Class InternedStack (A : Type) : Type := {
  blank_stack : A;
  hash_stack : A → Z;
  validate_interned_stack : A → result exn unit;
  same_stack : A → A → bool;
}.

Class InternedStackLaws (A : Type) `{InternedStack A} : Prop := {
  same_stack_refl s : same_stack s s = true;
  same_stack_sym s t : same_stack s t = true → same_stack t s = true;
  same_stack_trans s t u : same_stack s t = true → same_stack t u = true → same_stack s u = true;
  same_stack_hash s t : same_stack s t = true → hash_stack s = hash_stack t;
}.

Definition validate_captured (stack : CapturedStack) : result exn unit :=
  invalid_argument_if (negb (stack_capture_succeeded stack))
    "stack dictionary requires a successful captured stack" ;;
  invalid_argument_if (existsb (Z.eqb 0) (used_frames stack))
    "stack dictionary requires nonzero frame addresses".

Definition same_captured (left right : CapturedStack) : bool :=
  captured_is (cs_status left) (cs_status right) && (cs_frame_count left =? cs_frame_count right) &&
  bool_decide (used_frames left = take (Z.to_nat (cs_frame_count left)) (cs_frames right)).

Definition used_normalized (stack : NormalizedStack) : list StackFrame :=
  take (Z.to_nat (ns_frame_count stack)) (ns_frames stack).

Definition frame_invalid (frame : StackFrame) : bool :=
  (sf_absolute_address frame =? 0) ||
  (negb (is_valid (sf_module_id frame)) && negb (sf_module_offset frame =? 0)) ||
  negb (sf_flags frame =? 0).

Definition validate_normalized (stack : NormalizedStack) : result exn unit :=
  let successful := stack_status_is (ns_status stack) Stack_kComplete ||
                    stack_status_is (ns_status stack) Stack_kTruncatedByDepth in
  invalid_argument_if (negb successful || (ns_frame_count stack =? 0) ||
                       (kMaximumCapturedStackDepth <? ns_frame_count stack))
    "normalized stack dictionary requires a successful stack" ;;
  invalid_argument_if (existsb frame_invalid (used_normalized stack))
    "normalized stack dictionary frame is invalid".

Definition same_normalized (left right : NormalizedStack) : bool :=
  stack_status_is (ns_status left) (ns_status right) && (ns_frame_count left =? ns_frame_count right) &&
  bool_decide (used_normalized left = take (Z.to_nat (ns_frame_count left)) (ns_frames right)).

#[global] Instance captured_interned : InternedStack CapturedStack := {
  blank_stack := {| cs_frames := replicate (Z.to_nat kMaximumCapturedStackDepth) 0; cs_frame_count := 0;
    cs_requested_depth := 0; cs_status := Captured_kDisabled |};
  hash_stack := hash_captured_stack;
  validate_interned_stack := validate_captured;
  same_stack := same_captured;
}.

Definition blank_frame : StackFrame :=
  {| sf_module_id := 0; sf_module_offset := 0; sf_absolute_address := 0; sf_flags := 0 |}.

#[global] Instance normalized_interned : InternedStack NormalizedStack := {
  blank_stack := {| ns_frames := replicate (Z.to_nat kMaximumCapturedStackDepth) blank_frame;
    ns_frame_count := 0; ns_status := Stack_kUnavailable |};
  hash_stack := hash_normalized_stack;
  validate_interned_stack := validate_normalized;
  same_stack := same_normalized;
}.

(** ** The table *)

Definition bit_ceil (n : Z) : Z := 2 ^ Z.log2_up n.

Definition bucket_count_for (maximum_entries : Z) : result exn Z :=
  invalid_argument_if ((maximum_entries =? 0) || (u32_max <? maximum_entries) ||
                       (2 ^ 63 / 2 <? maximum_entries))
    "stack dictionary capacity is out of range" ;;
  mret (bit_ceil (maximum_entries * 2)).

Section dictionary.
Context {A : Type} `{InternedStack A}.

Record Entry : Type := { en_stack : A; en_stack_id : Z; en_hash : Z; en_next_index : Z }.

Record StackDictionary : Type := {
  sd_entries : list Entry;
  sd_buckets : list Z;           (* uint32 *)
  sd_entry_count : Z;
  sd_next_stack_id : Z;
  sd_segment_count : Z;
}.

#[global] Instance StackDictionary_members : Members StackDictionary := λ d,
  {| sd_entries := sd_entries d; sd_buckets := sd_buckets d; sd_entry_count := sd_entry_count d;
     sd_next_stack_id := sd_next_stack_id d; sd_segment_count := sd_segment_count d |}.

Definition blank_entry : Entry :=
  {| en_stack := blank_stack; en_stack_id := 0; en_hash := 0; en_next_index := 0 |}.

Definition StackDictionary_new (maximum_entries : Z) : result exn StackDictionary :=
  bucket_count ← bucket_count_for maximum_entries;
  mret {| sd_entries := replicate (Z.to_nat maximum_entries) blank_entry;
          sd_buckets := replicate (Z.to_nat bucket_count) kEmptyIndex;
          sd_entry_count := 0; sd_next_stack_id := 1; sd_segment_count := 1 |}.

Record InternResult : Set := { ir_stack_id : Z; ir_inserted : bool; ir_segment_reset : bool }.

Definition bucket_of (hash : Z) (d : StackDictionary) : nat :=
  Z.to_nat (Z.land hash (size_of (sd_buckets d) - 1)).

(** The loop over a chain: the identifier of the first equal stack, if any. *)
Fixpoint find_in_chain (fuel : nat) (entries : list Entry) (stack : A) (hash index : Z)
    : option (option Z) :=
  if index =? kEmptyIndex then Some None else
  match fuel, entries !! Z.to_nat index with
  | S fuel, Some entry =>
      if (en_hash entry =? hash) && same_stack (en_stack entry) stack
      then Some (Some (en_stack_id entry))
      else find_in_chain fuel entries stack hash (en_next_index entry)
  | _, _ => None
  end.

Definition reset_segment (d : StackDictionary) : StackDictionary :=
  d <| sd_buckets := replicate (length (sd_buckets d)) kEmptyIndex |>
    <| sd_entry_count := 0 |>
    <| sd_segment_count := if sd_segment_count d =? u64_max then u64_max else sd_segment_count d + 1 |>.

(** The entry of a new stack at the head of its chain. *)
Definition add_entry (stack : A) (hash : Z) (bucket : nat) (head : Z) (d : StackDictionary)
    : StackDictionary :=
  d <| sd_entries := <[Z.to_nat (sd_entry_count d) :=
         {| en_stack := stack; en_stack_id := sd_next_stack_id d; en_hash := hash;
            en_next_index := head |}]> (sd_entries d) |>
    <| sd_next_stack_id := sd_next_stack_id d + 1 |>
    <| sd_buckets := <[bucket := wrap32 (sd_entry_count d)]> (sd_buckets d) |>
    <| sd_entry_count := sd_entry_count d + 1 |>.

Definition intern (stack : A) (precomputed_hash : Z) : proc StackDictionary exn InternResult :=
  pure (validate_interned_stack stack) ;;
  d ← get_state;
  let bucket := bucket_of precomputed_hash d in
  match head ← sd_buckets d !! bucket;
        find_in_chain (S (length (sd_entries d))) (sd_entries d) stack precomputed_hash head with
  | None => pure (throw DanglingReference "stack dictionary index out of range")
  | Some (Some stack_id) =>
      mret {| ir_stack_id := stack_id; ir_inserted := false; ir_segment_reset := false |}
  | Some None =>
      let full := sd_entry_count d =? size_of (sd_entries d) in
      (if full then modify reset_segment else mret tt) ;;
      d ← get_state;
      if sd_next_stack_id d =? u64_max then pure (throw OverflowError "stack ID space is exhausted")
      else match sd_buckets d !! bucket with
        | None => pure (throw DanglingReference "stack dictionary index out of range")
        | Some head =>
            modify (add_entry stack precomputed_hash bucket head) ;;
            mret {| ir_stack_id := sd_next_stack_id d; ir_inserted := true; ir_segment_reset := full |}
        end
  end.

(** A sequence of stacks, each with its own hash. *)
Fixpoint interns (stacks : list A) : proc StackDictionary exn (list InternResult) :=
  match stacks with
  | [] => mret []
  | stack :: stacks =>
      r ← intern stack (hash_stack stack);
      results ← interns stacks;
      mret (r :: results)
  end.

Definition sd_size (d : StackDictionary) : Z := sd_entry_count d.
Definition sd_capacity (d : StackDictionary) : Z := size_of (sd_entries d).

End dictionary.
Arguments Entry : clear implicits.
Arguments StackDictionary : clear implicits.

(** ** The laws of the two kinds of stack *)

Lemma take_same {B} (n : nat) (f g : list B) : take n f = take n g → ∀ m, (m ≤ n)%nat → take m f = take m g.
Proof. intros E m Hle. rewrite <- (Nat.min_l m n) by done. by rewrite <- !take_take, E. Qed.

#[global] Instance captured_laws : InternedStackLaws CapturedStack.
Proof.
  assert (Heq : ∀ s t, same_captured s t = true ↔ cs_status s = cs_status t ∧
    cs_frame_count s = cs_frame_count t ∧ used_frames s = used_frames t).
  { intros s t. unfold same_captured, captured_is, used_frames. bool_facts. intuition congruence. }
  split; cbn.
  - intros s. by apply Heq.
  - intros s t. rewrite !Heq. intuition congruence.
  - intros s t u. rewrite !Heq. intuition congruence.
  - intros s t (E1 & E2 & E3)%Heq. unfold hash_captured_stack. rewrite E1, E2. f_equal.
    unfold used_frames in E3. rewrite <- E2 in E3. rewrite <- E2. eapply take_same; [exact E3|]. lia.
Qed.

#[global] Instance normalized_laws : InternedStackLaws NormalizedStack.
Proof.
  assert (Heq : ∀ s t, same_normalized s t = true ↔ ns_status s = ns_status t ∧
    ns_frame_count s = ns_frame_count t ∧ used_normalized s = used_normalized t).
  { intros s t. unfold same_normalized, stack_status_is, used_normalized. bool_facts. intuition congruence. }
  split; cbn.
  - intros s. by apply Heq.
  - intros s t. rewrite !Heq. intuition congruence.
  - intros s t u. rewrite !Heq. intuition congruence.
  - intros s t (E1 & E2 & E3)%Heq. unfold hash_normalized_stack. rewrite E1, E2. f_equal.
    unfold used_normalized in E3. rewrite <- E2 in E3. rewrite <- E2. eapply take_same; [exact E3|]. lia.
Qed.

(** ** The invariant of the table *)

Section theory.
Context {A : Type} `{Hlaws : InternedStackLaws A}.

Definition held (d : StackDictionary A) : list (Entry A) := take (Z.to_nat (sd_entry_count d)) (sd_entries d).

(** The entries of a chain from its head. *)
Inductive chain (entries : list (Entry A)) : Z → list nat → Prop :=
  | chain_end : chain entries kEmptyIndex []
  | chain_next i e l : entries !! i = Some e → Z.of_nat i ≠ kEmptyIndex →
      chain entries (en_next_index e) l → chain entries (Z.of_nat i) (i :: l).

Record dict_inv (d : StackDictionary A) : Prop := {
  di_capacity : 0 < size_of (sd_entries d) ≤ u32_max;
  di_buckets : ∃ k, 0 ≤ k ∧ size_of (sd_buckets d) = 2 ^ k;
  di_count : 0 ≤ sd_entry_count d ≤ size_of (sd_entries d);
  di_next : 1 ≤ sd_next_stack_id d ≤ u64_max;
  di_held : ∀ i e, held d !! i = Some e →
    en_hash e = hash_stack (en_stack e) ∧ en_stack_id e < sd_next_stack_id d;
  di_distinct : ∀ i j e f, held d !! i = Some e → held d !! j = Some f →
    same_stack (en_stack e) (en_stack f) = true → i = j;
  di_chains : ∀ b head, sd_buckets d !! b = Some head → ∃ l, chain (sd_entries d) head l ∧ NoDup l ∧
    ∀ i, i ∈ l ↔ ∃ e, held d !! i = Some e ∧ bucket_of (en_hash e) d = b;
}.

Lemma bucket_in_range hash d : dict_inv d → is_Some (sd_buckets d !! bucket_of hash d).
Proof using.
  intros [_ (k & Hk & Hsize) _ _ _ _ _]. apply lookup_lt_is_Some. unfold bucket_of. rewrite Hsize.
  replace (2 ^ k - 1) with (Z.ones k) by (rewrite Z.ones_equiv; lia). rewrite Z.land_ones by done.
  unfold size_of in Hsize. pose proof (Z.mod_pos_bound hash (2 ^ k) ltac:(lia)). lia.
Qed.

Lemma find_in_chain_spec entries stack hash head l : chain entries head l → ∀ fuel, (length l < fuel)%nat →
  ∃ r, find_in_chain fuel entries stack hash head = Some r ∧
    match r with
    | Some id => ∃ i e, i ∈ l ∧ entries !! i = Some e ∧ en_hash e = hash ∧
        same_stack (en_stack e) stack = true ∧ en_stack_id e = id
    | None => ∀ i e, i ∈ l → entries !! i = Some e →
        ¬ (en_hash e = hash ∧ same_stack (en_stack e) stack = true)
    end.
Proof using.
  induction 1 as [|i e l He Hi _ IH]; intros fuel Hfuel.
  - exists None. split; [by destruct fuel|]. intros i e Hin. by apply not_elem_of_nil in Hin.
  - destruct fuel as [|fuel]; [cbn in Hfuel; lia|]. cbn [find_in_chain].
    rewrite (proj2 (Z.eqb_neq _ _)), Nat2Z.id, He by done.
    destruct ((en_hash e =? hash) && same_stack (en_stack e) stack) eqn:E.
    + bool_facts. destruct E as [E1 E2]. exists (Some (en_stack_id e)). split; [done|]. exists i, e.
      split; [by left|]. done.
    + destruct (IH fuel) as (r & Hr & Hspec); [cbn in Hfuel; lia|]. exists r. split; [done|].
      destruct r as [id|].
      * destruct Hspec as (j & f & ? & ?). exists j, f. split; [by right|done].
      * intros j f [->|Hj]%elem_of_cons Hf; [|by apply (Hspec j)]. rewrite He in Hf. injection Hf as <-.
        bool_facts. intros [? ?]. destruct E; congruence.
Qed.

Lemma held_lookup d i e : held d !! i = Some e → sd_entries d !! i = Some e ∧ Z.of_nat i < sd_entry_count d.
Proof using. intros Hi. apply lookup_take_Some in Hi as [H1 H2]. split; [done|lia]. Qed.

Lemma nodup_below (l : list nat) n : NoDup l → (∀ i, i ∈ l → (i < n)%nat) → (length l ≤ n)%nat.
Proof using.
  intros Hl Hn. rewrite <- (length_seq n 0). apply submseteq_length, NoDup_submseteq; [done|].
  intros i Hi. apply elem_of_seq. specialize (Hn i Hi). lia.
Qed.

(** ** The abstract dictionary *)

Record SpecDictionary : Type := { spec_held : list (A * Z); spec_next : Z }.

Fixpoint known (stack : A) (pairs : list (A * Z)) : option Z :=
  match pairs with
  | [] => None
  | (s, id) :: pairs => if same_stack s stack then Some id else known stack pairs
  end.

Definition spec_intern (capacity : Z) (stack : A) (s : SpecDictionary) : InternResult * SpecDictionary :=
  match known stack (spec_held s) with
  | Some id => ({| ir_stack_id := id; ir_inserted := false; ir_segment_reset := false |}, s)
  | None =>
      let full := size_of (spec_held s) =? capacity in
      ({| ir_stack_id := spec_next s; ir_inserted := true; ir_segment_reset := full |},
       {| spec_held := (if full then [] else spec_held s) ++ [(stack, spec_next s)];
          spec_next := spec_next s + 1 |})
  end.

Definition abstract (d : StackDictionary A) : SpecDictionary :=
  {| spec_held := (λ e, (en_stack e, en_stack_id e)) <$> held d; spec_next := sd_next_stack_id d |}.

Lemma known_none stack (l : list (Entry A)) :
  (∀ i e, l !! i = Some e → same_stack (en_stack e) stack = false) →
  known stack ((λ e, (en_stack e, en_stack_id e)) <$> l) = None.
Proof using.
  induction l as [|e l IH]; intros Hall; [done|]. cbn. rewrite (Hall 0%nat e) by done.
  apply IH. intros i f Hf. by apply (Hall (S i)).
Qed.

Lemma known_some stack (l : list (Entry A)) i e : l !! i = Some e → same_stack (en_stack e) stack = true →
  (∀ j f, l !! j = Some f → same_stack (en_stack f) stack = true → j = i) →
  known stack ((λ e, (en_stack e, en_stack_id e)) <$> l) = Some (en_stack_id e).
Proof using.
  revert i. induction l as [|f l IH]; intros i Hi Hs Hall; [done|]. cbn.
  destruct (same_stack (en_stack f) stack) eqn:E.
  - assert (0%nat = i) as <- by by apply (Hall 0%nat f). by injection Hi as ->.
  - destruct i as [|i]; [injection Hi as ->; congruence|]. apply (IH i Hi Hs).
    intros j g Hg Hgs. specialize (Hall (S j) g Hg Hgs). lia.
Qed.

(** The walk finds what the abstract dictionary knows. *)
Lemma find_known d stack head : dict_inv d → sd_buckets d !! bucket_of (hash_stack stack) d = Some head →
  find_in_chain (S (length (sd_entries d))) (sd_entries d) stack (hash_stack stack) head =
    Some (known stack (spec_held (abstract d))).
Proof using Hlaws.
  intros Hd Hhead. destruct (di_chains d Hd _ _ Hhead) as (l & Hchain & Hnodup & Hl).
  assert (Hlen : (length l < S (length (sd_entries d)))%nat).
  { apply Nat.lt_succ_r, nodup_below; [done|]. intros i (e & He & _)%Hl.
    apply held_lookup in He as [He _]. by eapply lookup_lt_Some. }
  destruct (find_in_chain_spec _ stack (hash_stack stack) head l Hchain _ Hlen) as (r & -> & Hr).
  f_equal. unfold abstract. cbn [spec_held]. destruct r as [id|].
  - destruct Hr as (i & e & Hi & He & Hhash & Hsame & <-). apply Hl in Hi as (f & Hf & Hb).
    destruct (held_lookup d i f Hf) as [Hf' _]. rewrite He in Hf'. injection Hf' as <-.
    symmetry. apply (known_some stack _ i); [done|done|]. intros j g Hg Hgs.
    apply (di_distinct d Hd j i g e Hg Hf). eapply same_stack_trans; [exact Hgs|by apply same_stack_sym].
  - symmetry. apply known_none. intros i e He. apply not_true_iff_false. intros Hsame.
    destruct (di_held d Hd i e He) as [Hhash _].
    assert (Hsh : en_hash e = hash_stack stack) by (rewrite Hhash; by apply same_stack_hash).
    apply (Hr i e); [|by apply held_lookup|done]. apply Hl. exists e. split; [done|]. by rewrite Hsh.
Qed.

(** ** The two ways the table changes *)

Lemma chain_insert entries head l n e : chain entries head l → (∀ i, i ∈ l → i ≠ n) →
  chain (<[n := e]> entries) head l.
Proof using.
  induction 1 as [|i f l Hf Hi _ IH]; intros Hn; [constructor|].
  econstructor; [|done|].
  - rewrite list_lookup_insert_ne; [exact Hf|]. intros ->. by apply (Hn i); [left|].
  - apply IH. intros j Hj. apply Hn. by right.
Qed.

Lemma reset_inv d : dict_inv d → dict_inv (reset_segment d).
Proof using.
  intros [H1 (k & Hk & H2) H3 H4 _ _ _]. split; cbn; try done.
  - exists k. split; [done|]. unfold size_of in *. by rewrite length_replicate.
  - lia.
  - intros b head [-> _]%lookup_replicate. exists []. split; [constructor|]. split; [constructor|].
    intros i. split; [by intros ?%not_elem_of_nil|]. by intros (e & He & _).
Qed.

Lemma add_inv d stack head : dict_inv d → sd_entry_count d < size_of (sd_entries d) →
  sd_next_stack_id d < u64_max → known stack (spec_held (abstract d)) = None →
  sd_buckets d !! bucket_of (hash_stack stack) d = Some head →
  let d' := add_entry stack (hash_stack stack) (bucket_of (hash_stack stack) d) head d in
  dict_inv d' ∧ spec_held (abstract d') = spec_held (abstract d) ++ [(stack, sd_next_stack_id d)].
Proof using Hlaws.
  intros Hd Hroom Hnext Hnew Hhead d'. set (n := Z.to_nat (sd_entry_count d)).
  set (b := bucket_of (hash_stack stack) d) in *.
  set (e := {| en_stack := stack; en_stack_id := sd_next_stack_id d; en_hash := hash_stack stack;
    en_next_index := head |}).
  pose proof Hd as [C1 (k & Hk & C2) C3 C4 C5 C6 C7]. unfold size_of in *.
  assert (Hn : (n < length (sd_entries d))%nat) by lia.
  assert (Hentries : sd_entries d' = <[n := e]> (sd_entries d)) by done.
  assert (Hheld : held d' = held d ++ [e]).
  { unfold held. rewrite Hentries. change (sd_entry_count d') with (sd_entry_count d + 1).
    replace (Z.to_nat (sd_entry_count d + 1)) with (S n) by lia.
    rewrite (take_S_r _ n e) by by apply list_lookup_insert_eq. by rewrite take_insert_ge. }
  assert (Hlen : length (held d) = n) by (unfold held; rewrite length_take; lia).
  assert (Hsplit : ∀ i f, held d' !! i = Some f ↔ held d !! i = Some f ∨ (i = n ∧ f = e)).
  { intros i f. rewrite Hheld, lookup_app_Some, Hlen. split.
    - intros [?|[Hge E]]; [by left|right]. apply list_lookup_singleton_Some in E as [E <-]. split; [lia|done].
    - intros [?|[-> ->]]; [by left|right]. split; [done|]. by rewrite Nat.sub_diag. }
  assert (Hbucket : ∀ hash, bucket_of hash d' = bucket_of hash d).
  { intros hash. unfold bucket_of, size_of. cbn. by rewrite length_insert. }
  assert (Hdiff : ∀ i f, held d !! i = Some f → same_stack (en_stack f) stack = false).
  { intros i f Hf. apply not_true_iff_false. intros E. unfold abstract in Hnew. cbn [spec_held] in Hnew.
    rewrite (known_some stack _ i f) in Hnew; [done|done|done|].
    intros j g Hg Hgs. apply (C6 j i g f Hg Hf). eapply same_stack_trans; [exact Hgs|by apply same_stack_sym]. }
  split; [split|].
  - unfold size_of. cbn. by rewrite length_insert.
  - exists k. unfold size_of. cbn. by rewrite length_insert.
  - unfold size_of. cbn. rewrite length_insert. lia.
  - cbn. lia.
  - intros i f [Hf|[-> ->]]%Hsplit; cbn; [destruct (C5 i f Hf); split; [done|lia]|split; [done|lia]].
  - intros i j f g [Hf|[-> ->]]%Hsplit [Hg|[-> ->]]%Hsplit Hsame; [by eapply C6| | |done].
    + cbn in Hsame. by rewrite (Hdiff i f Hf) in Hsame.
    + apply same_stack_sym in Hsame. cbn in Hsame. by rewrite (Hdiff j g Hg) in Hsame.
  - intros b' head' Hb'. cbn in Hb'. apply list_lookup_insert_Some in Hb' as [(<- & <- & Hlt)|[Hne Hb']].
    + destruct (C7 b head Hhead) as (l & Hchain & Hnodup & Hl). exists (n :: l).
      assert (Hfresh : ∀ i, i ∈ l → i ≠ n).
      { intros i (f & Hf & _)%Hl ->. apply lookup_lt_Some in Hf. lia. }
      split; [|split].
      * rewrite wrap32_small by word. replace (sd_entry_count d) with (Z.of_nat n) by lia.
        apply (chain_next _ n e l); [by rewrite Hentries, list_lookup_insert_eq|unfold kEmptyIndex; lia|].
        rewrite Hentries. by apply chain_insert.
      * constructor; [|done]. intros Hin. by apply (Hfresh n Hin).
      * intros i. rewrite elem_of_cons. setoid_rewrite Hsplit. rewrite Hl. split.
        -- intros [->|(f & Hf & Hfb)]; [exists e; split; [by right|by rewrite Hbucket]|].
           exists f. split; [by left|by rewrite Hbucket].
        -- intros (f & [Hf|[-> ->]] & Hfb); [right|by left]. exists f. split; [done|]. by rewrite <- Hbucket.
    + destruct (C7 b' head' Hb') as (l & Hchain & Hnodup & Hl). exists l. split; [|split; [done|]].
      * rewrite Hentries. apply chain_insert; [done|]. intros i (f & Hf & _)%Hl ->. apply lookup_lt_Some in Hf. lia.
      * intros i. rewrite Hl. setoid_rewrite Hsplit. split.
        -- intros (f & Hf & Hfb). exists f. split; [by left|by rewrite Hbucket].
        -- intros (f & [Hf|[-> ->]] & Hfb); [exists f; split; [done|by rewrite <- Hbucket]|].
           destruct Hne. rewrite <- Hfb. by rewrite Hbucket.
  - unfold abstract. cbn [spec_held]. rewrite Hheld, fmap_app. done.
Qed.

(** ** Interning *)

Lemma intern_spec d stack : dict_inv d → validate_interned_stack stack = Ok tt →
  sd_next_stack_id d < u64_max →
  let '(r, s) := spec_intern (sd_capacity d) stack (abstract d) in
  ∃ d', intern stack (hash_stack stack) d = (Ok r, d') ∧ dict_inv d' ∧ abstract d' = s ∧
    sd_capacity d' = sd_capacity d ∧ sd_next_stack_id d' ≤ sd_next_stack_id d + 1.
Proof using Hlaws.
  intros Hd Hvalid Hnext. destruct (bucket_in_range (hash_stack stack) d Hd) as [head Hhead].
  unfold spec_intern, intern. rewrite Hvalid. erewrite (proc_bind_run (pure _)); [|reflexivity].
  erewrite (proc_bind_run get_state); [|reflexivity]. cbv zeta. rewrite Hhead. cbn [mbind option_bind].
  rewrite (find_known d stack head Hd Hhead). destruct (known stack (spec_held (abstract d))) as [id|] eqn:Eknown.
  { exists d. split; [done|]. split; [done|]. split; [done|]. split; [done|lia]. }
  assert (Hsize : size_of (spec_held (abstract d)) = sd_entry_count d).
  { pose proof (di_count d Hd). unfold size_of in *. cbn. rewrite length_fmap. unfold held. rewrite length_take. lia. }
  rewrite Hsize. unfold sd_capacity. pose proof (di_count d Hd) as Hcount.
  destruct (Z.eqb_spec (sd_entry_count d) (size_of (sd_entries d))) as [Hfull|Hfull].
  - erewrite (proc_bind_run (modify _)); [|reflexivity]. erewrite (proc_bind_run get_state); [|reflexivity].
    pose proof (reset_inv d Hd) as Hd1. set (d1 := reset_segment d) in *.
    change (sd_next_stack_id d1) with (sd_next_stack_id d). rewrite (proj2 (Z.eqb_neq _ _)) by lia.
    assert (Hbucket : bucket_of (hash_stack stack) d1 = bucket_of (hash_stack stack) d).
    { unfold bucket_of, size_of. cbn. by rewrite length_replicate. }
    rewrite <- Hbucket. destruct (bucket_in_range (hash_stack stack) d1 Hd1) as [head1 Hhead1]. rewrite Hhead1.
    erewrite (proc_bind_run (modify _)); [|reflexivity].
    pose proof (di_capacity d Hd) as Hcap.
    destruct (add_inv d1 stack head1 Hd1) as [Hd2 Hheld]; try done; [cbn; lia|].
    eexists. split; [reflexivity|]. split; [exact Hd2|]. split; [|split; [unfold size_of; cbn; by rewrite length_insert|cbn; lia]].
    unfold abstract in *. cbn [spec_held] in Hheld. rewrite Hheld. done.
  - erewrite (proc_bind_run (mret _)); [|reflexivity]. erewrite (proc_bind_run get_state); [|reflexivity].
    rewrite (proj2 (Z.eqb_neq _ _)) by lia. rewrite Hhead. erewrite (proc_bind_run (modify _)); [|reflexivity].
    destruct (add_inv d stack head Hd) as [Hd2 Hheld]; try done; [lia|].
    eexists. split; [reflexivity|]. split; [exact Hd2|].
    split; [|split; [cbn; unfold size_of; by rewrite length_insert|cbn; lia]].
    unfold abstract in *. cbn [spec_held] in Hheld. rewrite Hheld. done.
Qed.

Fixpoint spec_interns (capacity : Z) (stacks : list A) (s : SpecDictionary) : list InternResult * SpecDictionary :=
  match stacks with
  | [] => ([], s)
  | stack :: stacks =>
      let '(r, s) := spec_intern capacity stack s in
      let '(results, s) := spec_interns capacity stacks s in
      (r :: results, s)
  end.

Lemma interns_spec stacks : ∀ d, dict_inv d → Forall (λ s, validate_interned_stack s = Ok tt) stacks →
  sd_next_stack_id d + size_of stacks ≤ u64_max →
  let '(rs, s) := spec_interns (sd_capacity d) stacks (abstract d) in
  ∃ d', interns stacks d = (Ok rs, d') ∧ dict_inv d' ∧ abstract d' = s.
Proof using Hlaws.
  induction stacks as [|stack stacks IH]; intros d Hd Hvalid Hroom; [by exists d|].
  apply Forall_cons in Hvalid as [Hv Hvs]. unfold size_of in *. cbn [spec_interns length interns] in *.
  pose proof (intern_spec d stack Hd Hv ltac:(lia)) as Hstep.
  destruct (spec_intern (sd_capacity d) stack (abstract d)) as [r s1].
  destruct Hstep as (d1 & Hrun1 & Hd1 & Habs & Hcap & Hnext).
  specialize (IH d1 Hd1 Hvs ltac:(lia)). rewrite Habs, Hcap in IH.
  destruct (spec_interns (sd_capacity d) stacks s1) as [rs s2].
  destruct IH as (d2 & Hrun2 & Hd2 & Habs2). exists d2. split; [|done].
  erewrite proc_bind_run; [|exact Hrun1]. by erewrite proc_bind_run; [|exact Hrun2].
Qed.

(** ** Identifiers *)

Record spec_inv (s : SpecDictionary) : Prop := {
  si_old : Forall (λ p, p.2 < spec_next s) (spec_held s);
  si_unique : NoDup (spec_held s).*2;
}.

Lemma known_elem stack pairs id : known stack pairs = Some id →
  ∃ u, (u, id) ∈ pairs ∧ same_stack u stack = true.
Proof using.
  induction pairs as [|[u id'] pairs IH]; [done|]. cbn. destruct (same_stack u stack) eqn:E.
  - intros [= ->]. exists u. split; [by left|done].
  - intros (v & ? & ?)%IH. exists v. split; [by right|done].
Qed.

Lemma spec_intern_inv capacity stack s r s' : spec_inv s → spec_intern capacity stack s = (r, s') →
  spec_inv s' ∧ spec_next s ≤ spec_next s' ∧ (∃ u, (u, ir_stack_id r) ∈ spec_held s' ∧ same_stack u stack = true) ∧
  ir_stack_id r < spec_next s' ∧
  (∀ p, p ∈ spec_held s' → p ∈ spec_held s ∨ (p = (stack, ir_stack_id r) ∧ spec_next s ≤ ir_stack_id r)) ∧
  (ir_inserted r = true ↔ spec_next s ≤ ir_stack_id r) ∧
  (ir_stack_id r < spec_next s → ∃ u, (u, ir_stack_id r) ∈ spec_held s ∧ same_stack u stack = true).
Proof using Hlaws.
  intros [Hold Hnodup] Hrun. unfold spec_intern in Hrun.
  destruct (known stack (spec_held s)) as [id|] eqn:E; injection Hrun as <- <-; cbn.
  - apply known_elem in E as (u & Hu & Hsame). rewrite Forall_forall in Hold. pose proof (Hold _ Hu) as Hid. cbn in Hid.
    split; [split; [by apply Forall_forall|done]|]. split; [lia|]. split; [by exists u|]. split; [done|].
    split; [by left|]. split; [split; [done|lia]|]. intros _. by exists u.
  - set (kept := if size_of (spec_held s) =? capacity then [] else spec_held s).
    assert (Hkept : ∀ p, p ∈ kept → p ∈ spec_held s).
    { intros p. unfold kept. case_match; [by intros ?%not_elem_of_nil|done]. }
    rewrite Forall_forall in Hold. split; [split; cbn|].
    + apply Forall_app. split; [|by repeat constructor; cbn; lia]. apply Forall_forall. intros p Hp%Hkept.
      specialize (Hold p Hp). cbn in Hold. lia.
    + rewrite fmap_app. apply NoDup_app. split; [unfold kept; case_match; [constructor|done]|]. split.
      * intros id ((u & id') & -> & Hp%Hkept)%list_elem_of_fmap Hin. apply list_elem_of_singleton in Hin. cbn in *.
        specialize (Hold _ Hp). cbn in Hold. lia.
      * apply NoDup_singleton.
    + split; [lia|]. split; [exists stack; split; [apply elem_of_app; right; by left|apply same_stack_refl]|].
      split; [lia|]. split; [|split; [split; [lia|done]|lia]].
      intros p [Hp%Hkept|Hp%list_elem_of_singleton]%elem_of_app; [by left|right; split; [done|lia]].
Qed.

(** What the identifiers of a sequence mean, next to those held before it. *)
Record numbered (s : SpecDictionary) (stacks : list A) (rs : list InternResult) : Prop := {
  nu_length : length rs = length stacks;
  nu_old : ∀ i stack r, stacks !! i = Some stack → rs !! i = Some r → ir_stack_id r < spec_next s →
    ir_inserted r = false ∧ ∃ u, (u, ir_stack_id r) ∈ spec_held s ∧ same_stack u stack = true;
  nu_first : ∀ i r, rs !! i = Some r → spec_next s ≤ ir_stack_id r →
    (ir_inserted r = true ↔ ∀ j q, (j < i)%nat → rs !! j = Some q → ir_stack_id q ≠ ir_stack_id r);
  nu_same : ∀ i j stack u r q, stacks !! i = Some stack → stacks !! j = Some u → rs !! i = Some r →
    rs !! j = Some q → ir_stack_id r = ir_stack_id q → same_stack stack u = true;
}.

Lemma same_stack_joined u s t : same_stack u s = true → same_stack u t = true → same_stack s t = true.
Proof using Hlaws. intros H1 H2. eapply same_stack_trans; [apply same_stack_sym, H1|done]. Qed.

Lemma held_unique s u v id : spec_inv s → (u, id) ∈ spec_held s → (v, id) ∈ spec_held s → u = v.
Proof using.
  intros [_ Hn] Hu Hv. apply list_elem_of_lookup in Hu as [i Hi]. apply list_elem_of_lookup in Hv as [j Hj].
  assert (i = j) as ->; [|congruence].
  eapply NoDup_lookup; [exact Hn| |]; rewrite list_lookup_fmap; [rewrite Hi|rewrite Hj]; done.
Qed.

Lemma spec_interns_numbered capacity stacks : ∀ s, spec_inv s →
  numbered s stacks (spec_interns capacity stacks s).1.
Proof using Hlaws.
  induction stacks as [|stack stacks IH]; intros s Hs; cbn [spec_interns]; [by split|].
  destruct (spec_intern capacity stack s) as [r s1] eqn:E.
  destruct (spec_intern_inv _ _ _ _ _ Hs E) as (Hs1 & Hnext & (u & Hu & Hus) & Hid & Hheld & Hins & Hfound).
  specialize (IH s1 Hs1). destruct (spec_interns capacity stacks s1) as [rs s2]. cbn [fst] in *.
  destruct IH as [N1 N2 N3 N4].
  assert (Hsame0 : ∀ i st q, stacks !! i = Some st → rs !! i = Some q → ir_stack_id r = ir_stack_id q →
    same_stack stack st = true).
  { intros i st q Hi Hq Heq. destruct (N2 i st q Hi Hq) as (_ & v & Hv & Hvs); [lia|].
    rewrite <- Heq in Hv. rewrite <- (held_unique s1 u v _ Hs1 Hu Hv) in Hvs. by eapply same_stack_joined. }
  split.
  - cbn. by rewrite N1.
  - intros [|i] st q; cbn.
    + intros [= <-] [= <-] Hlt. split; [apply not_true_iff_false; intros ?%Hins; lia|by apply Hfound].
    + intros Hi Hq Hlt. destruct (N2 i st q Hi Hq) as (Hno & v & Hv & Hvs); [lia|]. split; [done|].
      destruct (Hheld _ Hv) as [?|[[= -> Heq] ?]]; [by exists v|lia].
  - intros [|i] q; cbn.
    + intros [= <-] Hge. split; [intros _ j; lia|]. intros _. by apply Hins.
    + intros Hq Hge. destruct (Z.lt_ge_cases (ir_stack_id q) (spec_next s1)) as [Hlt|Hge1].
      * assert (is_Some (stacks !! i)) as [st Hi].
        { apply lookup_lt_is_Some. rewrite <- N1. by eapply lookup_lt_Some. }
        destruct (N2 i st q Hi Hq Hlt) as (Hno & v & Hv & _). destruct (Hheld _ Hv) as [Hin|[[= -> Heq] _]].
        { destruct Hs as [Hold _]. rewrite Forall_forall in Hold. specialize (Hold _ Hin). cbn in Hold. lia. }
        rewrite Hno. split; [done|]. intros Hall. by destruct (Hall 0%nat r ltac:(lia) eq_refl).
      * rewrite (N3 i q Hq Hge1). split.
        -- intros Hall [|j] p Hj; cbn; [intros [= <-]; lia|]. intros Hp. apply (Hall j p); [lia|done].
        -- intros Hall j p Hj Hp. apply (Hall (S j) p); [lia|done].
  - intros [|i] [|j] st v p q; cbn; intros Hst Hv Hp Hq Heq.
    + injection Hst as <-. injection Hv as <-. apply same_stack_refl.
    + injection Hst as <-. injection Hp as <-. by apply (Hsame0 j v q).
    + injection Hv as <-. injection Hq as <-. apply same_stack_sym. by apply (Hsame0 i st p).
    + by apply (N4 i j st v p q).
Qed.
End theory.

Lemma new_inv {A} `{InternedStack A} capacity (d : StackDictionary A) : 0 ≤ capacity →
  StackDictionary_new capacity = Ok d →
  dict_inv d ∧ sd_capacity d = capacity ∧ abstract d = {| spec_held := []; spec_next := 1 |}.
Proof.
  intros Hcap0 Hnew. unfold StackDictionary_new, bucket_count_for in Hnew.
  unfold invalid_argument_if, throw_if in Hnew.
  destruct ((capacity =? 0) || (u32_max <? capacity) || (2 ^ 63 / 2 <? capacity)) eqn:E; [done|].
  injection Hnew as <-. bool_facts. destruct E as [[E1 E2] E3].
  assert (Hsize : size_of (replicate (Z.to_nat capacity) (blank_entry (A := A))) = capacity)
    by (unfold size_of; rewrite length_replicate; lia).
  split; [|split; [exact Hsize|done]]. split; cbn [sd_entries sd_buckets sd_entry_count sd_next_stack_id].
  - rewrite Hsize. lia.
  - exists (Z.log2_up (capacity * 2)). split; [apply Z.log2_up_nonneg|]. unfold size_of, bit_ceil.
    rewrite length_replicate. pose proof (Z.pow_nonneg 2 (Z.log2_up (capacity * 2))). lia.
  - rewrite Hsize. lia.
  - word.
  - intros i e He. done.
  - intros i j e f He. done.
  - intros b head [-> _]%lookup_replicate. exists []. split; [constructor|]. split; [constructor|].
    intros i. split; [by intros ?%not_elem_of_nil|]. by intros (e & He & _).
Qed.

(** C34: the stack dictionary implements a map from stacks to identifiers that is
    forgotten when it is full.  From an empty table of any capacity, any sequence of
    successful stacks is interned without an index outside the table and without an
    endless walk, with exactly the results of the map: the identifier of an equal stack
    of the current segment, or the next unused one.  Equal identifiers mean equal
    stacks, and a stack is reported as inserted exactly at the first use of its
    identifier, in spite of resets and of colliding hashes. *)
Theorem stack_dictionary_refines_map {A : Type} `{InternedStackLaws A} (capacity : Z)
    (d : StackDictionary A) (stacks : list A) :
  0 ≤ capacity → StackDictionary_new capacity = Ok d →
  Forall (λ s, validate_interned_stack s = Ok tt) stacks → size_of stacks < u64_max →
  ∃ results d', interns stacks d = (Ok results, d') ∧
    (results, abstract d') = spec_interns capacity stacks {| spec_held := []; spec_next := 1 |} ∧
    (∀ i j stack u r q, stacks !! i = Some stack → stacks !! j = Some u → results !! i = Some r →
       results !! j = Some q → ir_stack_id r = ir_stack_id q → same_stack stack u = true) ∧
    (∀ i r, results !! i = Some r →
       (ir_inserted r = true ↔
        ∀ j q, (j < i)%nat → results !! j = Some q → ir_stack_id q ≠ ir_stack_id r)).
Proof.
  intros Hcap0 Hnew Hvalid Hroom. destruct (new_inv capacity d Hcap0 Hnew) as (Hd & Hcap & Habs).
  assert (Hnext : sd_next_stack_id d = 1) by by injection Habs.
  pose proof (interns_spec stacks d Hd Hvalid ltac:(lia)) as Hrun. rewrite Hcap, Habs in Hrun.
  destruct (spec_interns_numbered capacity stacks {| spec_held := []; spec_next := 1 |}) as [N1 N2 N3 N4].
  { split; cbn; constructor. }
  destruct (spec_interns capacity stacks _) as [rs s]. cbn in *.
  destruct Hrun as (d' & Hrun & _ & <-). exists rs, d'. split; [done|]. split; [done|]. split; [done|].
  intros i r Hr. apply N3; [done|]. destruct (Z.lt_ge_cases (ir_stack_id r) 1) as [Hlt|]; [|done].
  assert (is_Some (stacks !! i)) as [st Hi] by (apply lookup_lt_is_Some; rewrite <- N1; by eapply lookup_lt_Some).
  destruct (N2 i st r Hi Hr Hlt) as (_ & v & Hv & _). by apply not_elem_of_nil in Hv.
Qed.

(** ** A small dictionary *)

Definition example_stack (addresses : list Z) : NormalizedStack :=
  {| ns_frames := (λ a, {| sf_module_id := 0; sf_module_offset := 0; sf_absolute_address := a; sf_flags := 0 |}) <$>
       addresses;
     ns_frame_count := size_of addresses; ns_status := Stack_kComplete |}.

(** Two stacks fit; the third starts a segment, and the first gets a new identifier. *)
Definition example_stacks : list NormalizedStack :=
  example_stack <$> [[1; 2]; [3]; [1; 2]; [4]; [1; 2]; [4]].

Lemma stack_dictionary_refines_map_witness :
  ∃ d results d', StackDictionary_new 2 = Ok d ∧ interns example_stacks d = (Ok results, d') ∧
    (results, abstract d') = spec_interns 2 example_stacks {| spec_held := []; spec_next := 1 |} ∧
    (λ r, (ir_stack_id r, ir_inserted r)) <$> results =
      [(1, true); (2, true); (1, false); (3, true); (4, true); (3, false)].
Proof.
  assert (∃ d, StackDictionary_new (A := NormalizedStack) 2 = Ok d) as [d Hd] by by eexists.
  destruct (stack_dictionary_refines_map 2 d example_stacks) as (results & d' & Hrun & Hspec & _).
  - lia.
  - exact Hd.
  - repeat constructor.
  - by vm_compute.
  - exists d, results, d'. split; [exact Hd|]. split; [exact Hrun|]. split; [exact Hspec|].
    assert (results = (spec_interns 2 example_stacks {| spec_held := []; spec_next := 1 |}).1) as ->
      by by rewrite <- Hspec.
    vm_compute. reflexivity.
Defined.
