(* ===== verification/VmModel.v ===== *)
(** * The virtual memory model of the capture writer

    The part of src/agent/linux/trace_writer.cpp that turns mmap, munmap and mremap
    calls into trace records.  The writer keeps the live address space as an
    [IntervalSet] of fragments, each owned by a mapping generation and stamped with
    the completion sequence of the call that made it: calls reach the writer in
    another order than they completed in.  A call becomes a plan, a list of records;
    making the plan changes the model.

    The members of the model and the plan under construction are the state of a
    computation that may throw.  A [LiveMappingGeneration&] is the key of the map
    element it refers to; using one after its element was erased would be
    [DanglingReference]. *)

From S2P Require Import Prelude OrderedMap IntervalSet WireFormat Event HookRegistry RawEvents.

(** ** Data *)

Record LiveMappingGeneration : Set := {
  lg_mapping_id : Z;
  lg_base : Z;
  lg_live_bytes : Z;
  lg_last_sequence : Z;
  lg_section : bool;
}.

Record LiveFragmentOwner : Set := { fo_mapping_id : Z; fo_sequence : Z }.

#[global] Instance LiveMappingGeneration_eq_dec : EqDecision LiveMappingGeneration.
Proof. solve_decision. Defined.
#[global] Instance LiveFragmentOwner_eq_dec : EqDecision LiveFragmentOwner.
Proof. solve_decision. Defined.
#[global] Instance LiveMappingGeneration_members : Members LiveMappingGeneration := λ g,
  {| lg_mapping_id := lg_mapping_id g; lg_base := lg_base g; lg_live_bytes := lg_live_bytes g;
     lg_last_sequence := lg_last_sequence g; lg_section := lg_section g |}.

Abbreviation LiveMappingSpace := (IntervalSet LiveFragmentOwner).
Abbreviation LiveFragment := (Fragment LiveFragmentOwner).

Record VmPlanRecord : Set := { vp_payload : EventPayload; vp_status : EventStatus }.

#[global] Instance VmPlanRecord_eq_dec : EqDecision VmPlanRecord.
Proof. solve_decision. Defined.

Record VmModel : Set := {
  live_mapping_space_ : LiveMappingSpace;
  live_generations_ : gmap Z LiveMappingGeneration;
  next_mapping_id_ : Z;
  plan : list VmPlanRecord;
}.

#[global] Instance VmModel_members : Members VmModel := λ m,
  {| live_mapping_space_ := live_mapping_space_ m; live_generations_ := live_generations_ m;
     next_mapping_id_ := next_mapping_id_ m; plan := plan m |}.

Definition VmModel_new : VmModel :=
  {| live_mapping_space_ := []; live_generations_ := ∅; next_mapping_id_ := 1; plan := [] |}.

Abbreviation planning := (proc VmModel exn).

Definition kVmFreeTypeRelease : Z := 0x00008000.
Definition kMapAnonymousHandle : Z := u64_max.

Section writer.
(** The answer of [getpid], and [options_.capture_scope.preexisting_allocations_unknown]. *)
Context (process : Z) (preexisting_unknown : bool).

Definition current_process_target : ProcessTarget :=
  {| scope := Scope_kCurrentProcess; process_handle := 0; process_id := process |}.

(** ** The members *)

Definition push_record (r : VmPlanRecord) : planning unit :=
  modify (λ m, m <| plan := plan m ++ [r] |>).

Fixpoint push_records (rs : list VmPlanRecord) : planning unit :=
  match rs with [] => mret tt | r :: rs => push_record r ;; push_records rs end.

Definition next_mapping_id : planning Z :=
  m ← get_state;
  if next_mapping_id_ m =? u64_max
  then pure (throw OverflowError "mapping ID space is exhausted")
  else modify (λ m, m <| next_mapping_id_ := next_mapping_id_ m + 1 |>) ;; mret (next_mapping_id_ m).

Definition generation_for (id : Z) : planning LiveMappingGeneration :=
  m ← get_state;
  match live_generations_ m !! id with
  | None => pure (throw RuntimeError "live mapping fragment has no generation")
  | Some g => mret g
  end.

(** Reading and writing the element a reference refers to. *)
Definition referred (id : Z) : planning LiveMappingGeneration :=
  m ← get_state;
  match live_generations_ m !! id with
  | None => pure (throw DanglingReference "reference to an erased generation")
  | Some g => mret g
  end.

Definition change_generation (id : Z) (f : LiveMappingGeneration → LiveMappingGeneration)
    : planning unit :=
  g ← referred id;
  modify (λ m, m <| live_generations_ := <[id := f g]> (live_generations_ m) |>).

Definition subtract_bytes (bytes : Z) (g : LiveMappingGeneration) : LiveMappingGeneration :=
  g <| lg_live_bytes := wrap64 (lg_live_bytes g - bytes) |>.
Definition add_bytes (bytes : Z) (g : LiveMappingGeneration) : LiveMappingGeneration :=
  g <| lg_live_bytes := wrap64 (lg_live_bytes g + bytes) |>.

Definition subtract_space (b e : Z) : planning (list LiveFragment) :=
  m ← get_state;
  let '(removed, space) := subtract b e (live_mapping_space_ m) in
  modify (λ m, m <| live_mapping_space_ := space |>) ;; mret removed.

Definition insert_space (b e : Z) (owner : LiveFragmentOwner) : planning unit :=
  modify (λ m, m <| live_mapping_space_ := snd (insert b e owner (live_mapping_space_ m)) |>).

(** ** Releasing a range *)

Definition make_vm_free_record (mapping_id base size : Z) : VmPlanRecord :=
  {| vp_payload := VmFree {| vf_target := current_process_target; vf_base := base;
       vf_region_size := size; vf_free_type := kVmFreeTypeRelease; vf_mapping_id := mapping_id |};
     vp_status := Status_kSuccess |}.

Definition make_unmap_record (g : LiveMappingGeneration) : VmPlanRecord :=
  {| vp_payload := Unmap {| um_target := current_process_target; um_base := lg_base g;
       um_mapping_id := lg_mapping_id g |};
     vp_status := Status_kSuccess |}.

Definition piece_size (piece : LiveFragment) : Z := wrap64 (f_end piece - f_begin piece).
Definition piece_id (piece : LiveFragment) : Z := fo_mapping_id (f_value piece).
Definition newer (seq : Z) (piece : LiveFragment) : bool := seq <=? fo_sequence (f_value piece).

(** The runs of pieces of one generation: [pieces[index .. index + count)] of each
    turn of the outer loop. *)
Fixpoint group_pieces (pieces : list LiveFragment) : list (Z * list LiveFragment) :=
  match pieces with
  | [] => []
  | piece :: pieces =>
      match group_pieces pieces with
      | (id, group) :: groups =>
          if id =? piece_id piece then (id, piece :: group) :: groups
          else (piece_id piece, [piece]) :: (id, group) :: groups
      | [] => [(piece_id piece, [piece])]
      end
  end.

Definition matched_bytes (seq : Z) (group : list LiveFragment) : Z :=
  foldl (λ total piece, if newer seq piece then total else wrap64 (total + piece_size piece)) 0 group.

(** The lambda [flush_run]; [run] is [run_begin] and [run_end]. *)
Definition flush_run (whole : bool) (mapping_id : Z) (run : Z * Z) : planning unit :=
  if negb whole && negb (fst run =? snd run)
  then push_record (make_vm_free_record mapping_id (fst run) (wrap64 (snd run - fst run)))
  else mret tt.

Fixpoint release_pieces (whole : bool) (id mapping_id seq : Z) (pieces : list LiveFragment)
    (run : Z * Z) : planning unit :=
  match pieces with
  | [] => flush_run whole mapping_id run
  | piece :: pieces =>
      if newer seq piece then
        flush_run whole mapping_id run ;; release_pieces whole id mapping_id seq pieces (0, 0)
      else
        subtract_space (f_begin piece) (f_end piece) ;;
        change_generation id (subtract_bytes (piece_size piece)) ;;
        if f_begin piece =? snd run then
          release_pieces whole id mapping_id seq pieces (fst run, f_end piece)
        else
          flush_run whole mapping_id run ;;
          release_pieces whole id mapping_id seq pieces (f_begin piece, f_end piece)
  end.

Definition plan_group (seq : Z) (group : Z * list LiveFragment) : planning unit :=
  let '(id, pieces) := group in
  state ← generation_for id;
  let matched := matched_bytes seq pieces in
  if matched =? 0 then mret tt else
  let whole := lg_section state && (matched =? lg_live_bytes state) in
  (if whole then push_record (make_unmap_record state) else mret tt) ;;
  release_pieces whole id (lg_mapping_id state) seq pieces (0, 0) ;;
  state ← referred id;
  if lg_live_bytes state =? 0
  then modify (λ m, m <| live_generations_ := delete id (live_generations_ m) |>)
  else mret tt.

Fixpoint plan_groups (seq : Z) (groups : list (Z * list LiveFragment)) : planning unit :=
  match groups with [] => mret tt | g :: groups => plan_group seq g ;; plan_groups seq groups end.

Definition plan_subtract (b e completion_seq : Z) : planning unit :=
  m ← get_state;
  plan_groups completion_seq (group_pieces (intersections b e (live_mapping_space_ m))).

(** ** Claiming a range *)

Record CreateSpace : Set := { owned_bytes : Z; stale : list LiveFragment }.

(** The loop over the stale pieces, with [cursor] and [owned_bytes]. *)
Fixpoint insert_owned (owner : LiveFragmentOwner) (e : Z) (pieces : list LiveFragment)
    (cursor owned : Z) : planning Z :=
  match pieces with
  | [] =>
      if cursor <? e
      then insert_space cursor e owner ;; mret (wrap64 (owned + wrap64 (e - cursor)))
      else mret owned
  | piece :: pieces =>
      if cursor <? f_begin piece then
        insert_space cursor (f_begin piece) owner ;;
        insert_owned owner e pieces (f_end piece) (wrap64 (owned + wrap64 (f_begin piece - cursor)))
      else insert_owned owner e pieces (f_end piece) owned
  end.

Definition plan_create_space (b e completion_seq new_mapping_id : Z) : planning CreateSpace :=
  m ← get_state;
  let pieces := intersections b e (live_mapping_space_ m) in
  plan_subtract b e completion_seq ;;
  let stale := List.filter (newer completion_seq) pieces in
  let owner := {| fo_mapping_id := new_mapping_id; fo_sequence := completion_seq |} in
  owned ← insert_owned owner e stale b 0;
  mret {| owned_bytes := owned; stale := stale |}.

Definition trim_record (mapping_id : Z) (piece : LiveFragment) : VmPlanRecord :=
  make_vm_free_record mapping_id (f_begin piece) (piece_size piece).

Definition append_trim_records (mapping_id : Z) (stale : list LiveFragment) : planning unit :=
  push_records (trim_record mapping_id <$> stale).

(** [emplace] keeps an element that is already there. *)
Definition track_generation (mapping_id base owned completion_seq : Z) (section : bool)
    : planning unit :=
  if owned =? 0 then mret tt else
  modify (λ m, m <| live_generations_ :=
    match live_generations_ m !! mapping_id with
    | Some _ => live_generations_ m
    | None => <[mapping_id := {| lg_mapping_id := mapping_id; lg_base := base;
        lg_live_bytes := owned; lg_last_sequence := completion_seq; lg_section := section |}]>
        (live_generations_ m)
    end |>).

(** ** Records of one call *)

Definition unmatched_status (address : Z) : EventStatus :=
  if negb (address =? 0) && preexisting_unknown then Status_kPreexisting else Status_kUnmatched.

Definition make_unmatched_free_record (base size : Z) : VmPlanRecord :=
  {| vp_payload := vp_payload (make_vm_free_record 0 base size);
     vp_status := unmatched_status base |}.

Definition adopted_status : EventStatus :=
  if preexisting_unknown then Status_kPreexisting else Status_kSuccess.

(** The [VmAllocateEvent] of a call that leaves [size] bytes at [result_base]. *)
Definition allocation_record (raw : LinuxHeapEvent)
    (requested_base result_base size protection id mapping_base mapping_size : Z)
    (status : EventStatus) : VmPlanRecord :=
  {| vp_payload := VmAllocate {| va_target := current_process_target;
       va_requested_base := requested_base; va_result_base := result_base;
       va_requested_size := size; va_result_size := size; va_mapping_base := mapping_base;
       va_mapping_size := mapping_size; va_allocation_type := wrap32 (raw_map_flags raw);
       va_protection := protection; va_mapping_id := id |};
     vp_status := status |}.

Definition map_record (section_handle base size section_offset protection id : Z)
    (status : EventStatus) : VmPlanRecord :=
  {| vp_payload := Map {| mp_section_handle := section_handle; mp_target := current_process_target;
       mp_result_base := base; mp_view_size := size; mp_section_offset := section_offset;
       mp_protection := protection; mp_mapping_id := id |};
     vp_status := status |}.

(** What the three creating calls share: the claim, the record, the generation and
    the trims.  [record] is the create record of the new identifier. *)
Definition create_generation (base size completion_seq : Z) (section : bool)
    (record : Z → VmPlanRecord) : planning unit :=
  id ← next_mapping_id;
  space ← plan_create_space base (wrap64 (base + size)) completion_seq id;
  push_record (record id) ;;
  track_generation id base (owned_bytes space) completion_seq section ;;
  append_trim_records id (stale space).

Definition plan_mmap_anonymous (raw : LinuxHeapEvent) : planning unit :=
  let base := raw_result_address raw in
  let size := raw_requested_size raw in
  create_generation base size (raw_completion_sequence raw) false (λ id,
    allocation_record raw (raw_requested_address raw) base size (wrap32 (raw_protection raw)) id
      base size Status_kSuccess).

Definition plan_mmap_section (raw : LinuxHeapEvent) : planning unit :=
  let base := raw_result_address raw in
  let size := raw_requested_size raw in
  create_generation base size (raw_completion_sequence raw) true (λ id,
    map_record (raw_section_handle raw) base size (raw_section_offset raw)
      (wrap32 (raw_protection raw)) id Status_kSuccess).

Definition plan_munmap (raw : LinuxHeapEvent) : planning unit :=
  let b := raw_address raw in
  plan_subtract b (wrap64 (b + raw_requested_size raw)) (raw_completion_sequence raw) ;;
  m ← get_state;
  match plan m with
  | [] => push_record (make_unmatched_free_record b (raw_requested_size raw))
  | _ => mret tt
  end.

(** ** mremap *)

(** The end of the contiguous run of fragments of a generation; [None]: out of fuel. *)
Fixpoint extend_owned (fuel : nat) (id run_end : Z) (space : LiveMappingSpace) : option Z :=
  match fuel with
  | O => None
  | S fuel =>
      match find run_end space with
      | None => Some run_end
      | Some next =>
          if negb (f_begin next =? run_end) || negb (piece_id next =? id) then Some run_end
          else extend_owned fuel id (f_end next) space
      end
  end.

Definition resize_record (raw : LinuxHeapEvent) (id mapping_size : Z) : VmPlanRecord :=
  allocation_record raw (raw_address raw) (raw_result_address raw) (raw_count raw) 0 id
    (raw_address raw) mapping_size Status_kSuccess.

(** The loop over what the shrink removed. *)
Fixpoint account_removed (id : Z) (removed : list LiveFragment) : planning unit :=
  match removed with
  | [] => mret tt
  | piece :: removed =>
      if negb (piece_id piece =? id)
      then pure (throw RuntimeError "mremap shrink tail overlaps a foreign fragment")
      else change_generation id (subtract_bytes (piece_size piece)) ;; account_removed id removed
  end.

(** [source] refers to the generation with key [source_id]. *)
Definition plan_mremap_resize (raw : LinuxHeapEvent) (source_id fragment_end : Z) : planning unit :=
  let base := raw_address raw in
  let new_size := raw_count raw in
  let seq := raw_completion_sequence raw in
  m ← get_state;
  source ← referred source_id;
  let id := lg_mapping_id source in
  let space := live_mapping_space_ m in
  let run_end := default fragment_end (extend_owned (S (length space)) id fragment_end space) in
  let extent := wrap64 (run_end - base) in
  if seq <=? lg_last_sequence source then push_record (resize_record raw id extent) else
  change_generation source_id (λ g, g <| lg_last_sequence := seq |>) ;;
  if extent <? new_size then
    created ← plan_create_space run_end (wrap64 (base + new_size)) seq id;
    change_generation source_id (add_bytes (owned_bytes created)) ;;
    push_record (resize_record raw id new_size) ;;
    append_trim_records id (stale created)
  else
    (if new_size <? extent then
       removed ← subtract_space (wrap64 (base + new_size)) run_end;
       account_removed id removed ;;
       let event_tail_end := wrap64 (base + raw_requested_size raw) in
       if run_end <? event_tail_end then plan_subtract run_end event_tail_end seq else mret tt
     else mret tt) ;;
    push_record (resize_record raw id new_size).

Definition plan_mremap_pair (raw : LinuxHeapEvent) (section_source : bool) : planning unit :=
  let old_base := raw_address raw in
  let old_size := raw_requested_size raw in
  let new_size := raw_count raw in
  let new_base := raw_result_address raw in
  m ← get_state;
  let free_half_begin := length (plan m) in
  plan_subtract old_base (wrap64 (old_base + old_size)) (raw_completion_sequence raw) ;;
  m ← get_state;
  let source_tracked := negb (Nat.eqb (length (plan m)) free_half_begin) in
  (if negb source_tracked then push_record (make_unmatched_free_record old_base old_size)
   else mret tt) ;;
  let create_status := if negb source_tracked then adopted_status else Status_kSuccess in
  create_generation new_base new_size (raw_completion_sequence raw) section_source (λ id,
    if section_source then map_record 0 new_base new_size 0 0 id create_status
    else allocation_record raw old_base new_base new_size 0 id new_base new_size create_status).

Definition plan_mremap_adopt (raw : LinuxHeapEvent) : planning unit :=
  let base := raw_result_address raw in
  let new_size := raw_count raw in
  create_generation base new_size (raw_completion_sequence raw) false (λ id,
    allocation_record raw (raw_address raw) base new_size 0 id base new_size adopted_status).

Definition plan_mremap (raw : LinuxHeapEvent) : planning unit :=
  let old_base := raw_address raw in
  m ← get_state;
  match find old_base (live_mapping_space_ m) with
  | Some fragment =>
      source ← generation_for (piece_id fragment);
      if lg_section source then plan_mremap_pair raw true
      else if negb (raw_result_address raw =? old_base) then plan_mremap_pair raw false
      else if f_begin fragment =? old_base then
        plan_mremap_resize raw (piece_id fragment) (f_end fragment)
      else plan_mremap_adopt raw
  | None =>
      if negb (raw_result_address raw =? old_base) then plan_mremap_pair raw false
      else plan_mremap_adopt raw
  end.

(** ** Any virtual memory event *)

Definition failed_record (raw : LinuxHeapEvent) : VmPlanRecord :=
  if operation_is (raw_operation raw) Raw_kVmUnmap then
    {| vp_payload := vp_payload (make_vm_free_record 0 (raw_address raw) (raw_requested_size raw));
       vp_status := Status_kFailure |}
  else if operation_is (raw_operation raw) Raw_kVmAllocate &&
          negb (raw_section_handle raw =? kMapAnonymousHandle) then
    map_record (raw_section_handle raw) 0 0 (raw_section_offset raw) (wrap32 (raw_protection raw)) 0
      Status_kFailure
  else
    let remap := operation_is (raw_operation raw) Raw_kVmRemap in
    {| vp_payload := VmAllocate {| va_target := current_process_target;
         va_requested_base := if remap then raw_address raw else raw_requested_address raw;
         va_result_base := 0;
         va_requested_size := if remap then raw_count raw else raw_requested_size raw;
         va_result_size := 0; va_mapping_base := 0; va_mapping_size := 0;
         va_allocation_type := wrap32 (raw_map_flags raw);
         va_protection := wrap32 (raw_protection raw); va_mapping_id := 0 |};
       vp_status := Status_kFailure |}.

Definition plan_vm_event (raw : LinuxHeapEvent) : planning unit :=
  if negb (raw_succeeded raw) then push_record (failed_record raw) else
  match raw_operation raw with
  | Raw_kVmAllocate =>
      if raw_section_handle raw =? kMapAnonymousHandle then plan_mmap_anonymous raw
      else plan_mmap_section raw
  | Raw_kVmUnmap => plan_munmap raw
  | Raw_kVmRemap => plan_mremap raw
  | _ => pure (invalid "raw Linux heap event is not a VM operation")
  end.

(** The part of [process_event] that builds the plan of one event in a new vector. *)
Definition plan_vm_call (raw : LinuxHeapEvent) : planning (list VmPlanRecord) :=
  modify (λ m, m <| plan := [] |>) ;;
  plan_vm_event raw ;;
  m ← get_state;
  mret (plan m).

(** The plans of the events of a queue, one after the other. *)
Fixpoint plan_vm_calls (raws : list LinuxHeapEvent) : planning (list VmPlanRecord) :=
  match raws with
  | [] => mret []
  | raw :: raws =>
      records ← plan_vm_call raw;
      more ← plan_vm_calls raws;
      mret (records ++ more)
  end.

End writer.
