(* ===== verification/VmSpace.v ===== *)
(** * Fragments of one generation

    The live space of the capture writer (VmModel.v) is one interval set for all
    generations; the analyzer (GenerationTracker.v) keeps one per generation.  What an
    operation on the space does to the fragments of one generation. *)

From S2P Require Import Prelude WireFormat Event OrderedMap IntervalSet GenerationTracker TrackerInvariant HookRegistry RawEvents VmModel.

Definition owned_by (id : Z) (x : Z * (Z * LiveFragmentOwner)) : option (Z * (Z * Z)) :=
  if fo_mapping_id x.2.2 =? id then Some (x.1, (x.2.1, 0)) else None.

(** The fragments a generation owns. *)
Definition fragments_of (id : Z) (space : LiveMappingSpace) : IntervalSet Z :=
  omap (owned_by id) space.

Lemma elem_fragments_of id space x : x ∈ fragments_of id space ↔
  ∃ y, y ∈ space ∧ fo_mapping_id y.2.2 = id ∧ x = (y.1, (y.2.1, 0)).
Proof.
  unfold fragments_of. rewrite list_elem_of_omap. unfold owned_by. split.
  - intros (y & Hy & E). destruct (Z.eqb_spec (fo_mapping_id y.2.2) id); [|done].
    injection E as <-. by exists y.
  - intros (y & Hy & Hid & ->). exists y. split; [done|]. by rewrite (proj2 (Z.eqb_eq _ _)).
Qed.

Lemma fragments_of_app id p q : fragments_of id (p ++ q) = fragments_of id p ++ fragments_of id q.
Proof. unfold fragments_of. apply omap_app. Qed.

Lemma fragments_of_wf id space : interval_wf space → interval_wf (fragments_of id space).
Proof.
  induction space as [|x space IH]; [intros; apply wf_nil|]. intros (Hx & Hs & Hf)%wf_cons.
  cbn. unfold owned_by at 1. destruct (_ =? id); [|by apply IH].
  apply wf_cons. split_and!; [done|by apply IH|]. apply Forall_forall.
  intros y (z & Hz & _ & ->)%elem_fragments_of. rewrite Forall_forall in Hf. by apply (Hf z).
Qed.

(** ** Removing a range *)

Lemma fragments_of_outside id b e x :
  fragments_of id (outside b e x) = match owned_by id x with Some y => outside b e y | None => [] end.
Proof.
  destruct x as [xb [xe [o s]]]. unfold fragments_of, owned_by, outside. cbn.
  destruct (Z.ltb_spec xb (Z.min b xe)), (Z.ltb_spec (Z.max e xb) xe); cbn;
    unfold owned_by; cbn; destruct (o =? id); cbn; try done;
    repeat (case_match; bool_facts); done || lia.
Qed.

Lemma fragments_of_remaining id b e space :
  fragments_of id (remaining b e space) = remaining b e (fragments_of id space).
Proof.
  unfold remaining. case_match; [done|]. induction space as [|x space IH]; [done|].
  cbn [mbind list_bind]. rewrite fragments_of_app, fragments_of_outside.
  change (list_bind _ _ (outside b e) space) with (space ≫= outside b e). rewrite IH.
  unfold fragments_of at 2. cbn [omap list_omap].
  destruct (owned_by id x); done.
Qed.

(** The pieces of a range that belong to a generation. *)
Lemma fragments_of_clip id b e space :
  piece <$> omap (clip b e) (fragments_of id space) =
  fragments_of id (piece <$> omap (clip b e) space).
Proof.
  induction space as [|[xb [xe [o s]]] space IH]; [done|]. unfold fragments_of in *.
  cbn [omap list_omap]. unfold owned_by at 1, clip at 2. cbn [fst snd fo_mapping_id].
  destruct (o =? id) eqn:E; cbn [omap list_omap]; [unfold clip at 1; cbn [fst snd]|];
    destruct ((if xb <? b then b else xb) <? (if xe <? e then xe else e));
    cbn [fmap list_fmap omap list_omap]; try exact IH;
    rewrite IH; unfold owned_by at 2; cbn [piece fst snd f_begin f_end f_value fo_mapping_id];
    rewrite E; done.
Qed.

Lemma no_pieces id b e space :
  fragments_of id (piece <$> omap (clip b e) space) = [] → omap (clip b e) (fragments_of id space) = [].
Proof. intros H. rewrite <- fragments_of_clip in H. by apply fmap_nil_inv in H. Qed.

Lemma outside_nonempty {T} b e (x : Z * (Z * T)) y : y ∈ outside b e x →
  x.1 ≤ y.1 ∧ y.2.1 ≤ x.2.1 ∧ y.2.2 = x.2.2.
Proof.
  unfold outside. intros [H|H]%elem_of_app; case_match; bool_facts;
    try (by apply not_elem_of_nil in H); apply list_elem_of_singleton in H as ->; cbn; split_and!; done || lia.
Qed.

Lemma elem_remaining {T} b e (m : IntervalSet T) y : y ∈ remaining b e m →
  ∃ x, x ∈ m ∧ x.1 ≤ y.1 ∧ y.2.1 ≤ x.2.1 ∧ y.2.2 = x.2.2.
Proof.
  unfold remaining. case_match; [intros; exists y; split_and!; done || lia|].
  intros (x & Hy & Hx)%list_elem_of_bind. exists x. split; [done|]. by eapply outside_nonempty.
Qed.

(** An interval the range does not touch stays. *)
Lemma untouched_remaining {T} b e (m : IntervalSet T) x : interval_wf m → x ∈ m →
  x.2.1 ≤ b ∨ e ≤ x.1 → x ∈ remaining b e m.
Proof.
  intros [Hp _] Hx Hapart. unfold remaining. destruct (Z.leb_spec e b); [done|].
  apply list_elem_of_bind. exists x. split; [|done]. rewrite Forall_forall in Hp.
  assert (outside b e x = [x]) as ->; [|by apply list_elem_of_singleton].
  destruct Hapart; [apply outside_left|apply outside_right]; auto.
Qed.

(** [outside_cases] evaluates the tests of [outside] in every order of its ends. *)
Ltac outside_cases :=
  unfold outside; cbn [fst snd app mbind list_bind];
  repeat (match goal with
    |- context [?l <? ?r] => destruct (Z.ltb_spec l r); cbn [fst snd app mbind list_bind]
  end; try lia);
  repeat (f_equal; try lia); try lia.

Lemma outside_merge {T} a b c (x : Z * (Z * T)) : a < b → b < c → proper x →
  outside a b x ≫= outside b c = outside a c x.
Proof.
  destruct x as [xb [xe v]]. intros Hab Hbc (_ & Hx & _). cbn in Hx. outside_cases.
Qed.

Lemma remaining_merge {T} a b c (m : IntervalSet T) : a < b → b < c → interval_wf m →
  remaining b c (remaining a b m) = remaining a c m.
Proof.
  intros Hab Hbc [Hp _]. unfold remaining.
  rewrite !(proj2 (Z.leb_gt _ _)) by lia.
  induction Hp as [|x m Hx _ IH]; [done|]. cbn [mbind list_bind].
  rewrite bind_app. by rewrite IH, outside_merge.
Qed.

Lemma outside_comm {T} a b c d (x : Z * (Z * T)) : a < b → b ≤ c → c < d → proper x →
  outside a b x ≫= outside c d = outside c d x ≫= outside a b.
Proof.
  destruct x as [xb [xe v]]. intros Hab Hbc Hcd (_ & Hx & _). cbn in Hx. outside_cases.
Qed.

Lemma remaining_comm {T} a b c d (m : IntervalSet T) : a < b → b ≤ c → c < d → interval_wf m →
  remaining c d (remaining a b m) = remaining a b (remaining c d m).
Proof.
  intros Hab Hbc Hcd [Hp _]. unfold remaining.
  rewrite !(proj2 (Z.leb_gt _ _)) by lia.
  induction Hp as [|x m Hx _ IH]; [done|]. cbn [mbind list_bind].
  rewrite !bind_app. by rewrite IH, outside_comm.
Qed.

(** ** Filling a gap *)

Lemma gap_split {T} b e (m : IntervalSet T) : interval_wf m → b < e → omap (clip b e) m = [] →
  ∃ p q, m = p ++ q ∧ Forall (λ x, x.2.1 ≤ b) p ∧ Forall (λ x, e ≤ x.1) q.
Proof.
  intros Hm Hbe Hnone. pose proof (remaining_apart b e m Hbe Hm) as Hapart.
  rewrite nothing_removed in Hapart by done.
  destruct (sorted_split m (λ k, k <? e)) as (p & q & -> & Hp & Hq).
  { intros ??? ?%Z.ltb_lt. apply Z.ltb_lt. lia. }
  { by apply wf_sorted_keys. }
  exists p, q. split; [done|]. apply Forall_app in Hapart as [Hap _]. rewrite !Forall_forall in *.
  split; intros x Hx.
  - specialize (Hp x Hx). specialize (Hap x Hx). cbn in Hp. bool_facts. lia.
  - specialize (Hq x Hx). cbn in Hq. bool_facts. lia.
Qed.

Lemma clip_apart {T} b e (x : Z * (Z * T)) : x.2.1 ≤ b ∨ e ≤ x.1 → clip b e x = None.
Proof. intros [?|?]; [by apply clip_left|by apply clip_right]. Qed.

Lemma clip_none_apart {T} b e (x : Z * (Z * T)) : b < e → proper x → clip b e x = None →
  x.2.1 ≤ b ∨ e ≤ x.1.
Proof.
  intros Hbe (_ & Hx & _). unfold clip. repeat (case_match; bool_facts); try done; lia.
Qed.

Lemma omap_nil_iff {A B} (f : A → option B) (l : list A) : omap f l = [] ↔ ∀ x, x ∈ l → f x = None.
Proof.
  induction l as [|x l IH]; cbn; [split; [intros _ y Hy; by apply not_elem_of_nil in Hy|done]|].
  destruct (f x) as [y|] eqn:E; split.
  - done.
  - intros H. specialize (H x ltac:(by left)). congruence.
  - intros H y [->|Hy]%elem_of_cons; [done|]. by apply IH.
  - intros H. apply IH. intros y Hy. apply H. by right.
Qed.

Lemma insert_between {T} b e (v : T) p q : interval_wf (p ++ q) → 0 ≤ b → b < e → e ≤ u64_max →
  Forall (λ x, x.2.1 ≤ b) p → Forall (λ x, e ≤ x.1) q →
  insert b e v (p ++ q) = ([], p ++ (b, (e, v)) :: q) ∧ interval_wf (p ++ (b, (e, v)) :: q).
Proof.
  intros Hm Hb Hbe He Hp Hq.
  assert (Hnone : omap (clip b e) (p ++ q) = []).
  { rewrite omap_app. by rewrite omap_clip_left, omap_clip_right. }
  pose proof Hm as ([Hpp _] & Hwq & _)%wf_app. rewrite Forall_forall in Hpp.
  split.
  - unfold insert. rewrite subtract_spec by done. rewrite Hnone, nothing_removed by done.
    rewrite (proj2 (Z.ltb_lt _ _)) by done. f_equal. apply emplace_mid.
    + rewrite Forall_forall in Hp. apply Forall_forall. intros x Hx. specialize (Hp x Hx). destruct (Hpp x Hx) as (_ & ? & _). lia.
    + eapply Forall_impl; [exact Hq|]. cbn. lia.
  - apply wf_app. split_and!; [by apply wf_app in Hm as [? _]|by apply wf_cons|].
    rewrite Forall_forall in Hp, Hq. intros x y Hx [->|Hy]%elem_of_cons; cbn; [by apply Hp|].
    specialize (Hp x Hx). specialize (Hq y Hy). lia.
Qed.

Definition fill {T} (b e : Z) (v : T) (m : IntervalSet T) : IntervalSet T := (insert b e v m).2.

Lemma fill_empty {T} b e (v : T) m : e ≤ b → fill b e v m = m.
Proof. intros. unfold fill. by rewrite insert_empty_range. Qed.

Lemma fill_between {T} b e (v : T) p q : interval_wf (p ++ q) → 0 ≤ b → b < e → e ≤ u64_max →
  Forall (λ x, x.2.1 ≤ b) p → Forall (λ x, e ≤ x.1) q →
  fill b e v (p ++ q) = p ++ (b, (e, v)) :: q.
Proof. intros. unfold fill. by destruct (insert_between b e v p q) as [-> _]. Qed.

(** A gap, and what stands in it once it is filled. *)
Lemma elem_fill {T} b e (v : T) m x : interval_wf m → 0 ≤ b → e ≤ u64_max →
  omap (clip b e) m = [] → x ∈ fill b e v m ↔ x ∈ m ∨ (b < e ∧ x = (b, (e, v))).
Proof.
  intros Hm Hb He Hnone. destruct (Z.le_gt_cases e b).
  { rewrite fill_empty by done. intuition lia. }
  destruct (gap_split b e m Hm ltac:(lia) Hnone) as (p & q & -> & Hp & Hq).
  rewrite fill_between by (done || lia). rewrite !elem_of_app, elem_of_cons. intuition lia.
Qed.

Lemma fill_wf {T} b e (v : T) m : interval_wf m → 0 ≤ b → e ≤ u64_max →
  omap (clip b e) m = [] → interval_wf (fill b e v m).
Proof.
  intros Hm Hb He Hnone. destruct (Z.le_gt_cases e b); [by rewrite fill_empty|].
  destruct (gap_split b e m Hm ltac:(lia) Hnone) as (p & q & -> & Hp & Hq).
  unfold fill. destruct (insert_between b e v p q) as [-> ?]; done || lia.
Qed.

Lemma fragments_of_gap id b e space : omap (clip b e) space = [] →
  omap (clip b e) (fragments_of id space) = [].
Proof. intros H. apply no_pieces. by rewrite H. Qed.

Lemma fragments_of_fill id b e o space : interval_wf space → 0 ≤ b → e ≤ u64_max →
  omap (clip b e) space = [] →
  fragments_of id (fill b e o space) =
  if fo_mapping_id o =? id then fill b e 0 (fragments_of id space) else fragments_of id space.
Proof.
  intros Hm Hb He Hnone. destruct (Z.le_gt_cases e b).
  { rewrite !fill_empty by done. by case_match. }
  destruct (gap_split b e space Hm ltac:(lia) Hnone) as (p & q & -> & Hp & Hq).
  rewrite fill_between, !fragments_of_app by (done || lia).
  change (fragments_of id ((b, (e, o)) :: q)) with
    (match owned_by id (b, (e, o)) with Some y => y :: fragments_of id q | None => fragments_of id q end).
  unfold owned_by. cbn. destruct (_ =? id); [|done].
  rewrite fill_between; try done; try lia.
  - rewrite <- fragments_of_app. by apply fragments_of_wf.
  - rewrite Forall_forall in Hp. apply Forall_forall.
    intros x (y & Hy & _ & ->)%elem_fragments_of. by apply (Hp y).
  - rewrite Forall_forall in Hq. apply Forall_forall.
    intros x (y & Hy & _ & ->)%elem_fragments_of. by apply (Hq y).
Qed.

(** Trimming [b', e') from a gap just filled leaves the two ends filled. *)
Lemma trim_filled {T} b e b' e' (v : T) m : interval_wf m → 0 ≤ b → b ≤ b' → b' < e' → e' ≤ e →
  e ≤ u64_max → omap (clip b e) m = [] →
  remaining b' e' (fill b e v m) = fill e' e v (fill b b' v m) ∧
  omap (clip e' e) (fill b b' v m) = [].
Proof.
  intros Hm Hb H1 H2 H3 He Hnone.
  destruct (gap_split b e m Hm ltac:(lia) Hnone) as (p & q & -> & Hp & Hq).
  pose proof Hm as (Hwp & Hwq & _)%wf_app.
  rewrite fill_between by (done || lia).
  assert (Hq' : Forall (λ x, b' ≤ x.1) q) by (eapply Forall_impl; [exact Hq|]; cbn; lia).
  assert (Hq'' : Forall (λ x, e' ≤ x.1) q) by (eapply Forall_impl; [exact Hq|]; cbn; lia).
  assert (Hp' : Forall (λ x, x.2.1 ≤ b') p) by (eapply Forall_impl; [exact Hp|]; cbn; lia).
  assert (Hp'' : Forall (λ x, x.2.1 ≤ e') p) by (eapply Forall_impl; [exact Hp|]; cbn; lia).
  assert (Hleft : remaining b' e' (p ++ (b, (e, v)) :: q) =
    p ++ (if b <? b' then [(b, (b', v))] else []) ++ (if e' <? e then [(e', (e, v))] else []) ++ q).
  { unfold remaining. rewrite (proj2 (Z.leb_gt _ _)) by lia. rewrite bind_app, bind_cons.
    rewrite bind_outside_left, bind_outside_right by done. unfold outside. cbn [fst snd].
    rewrite (Z.min_l b' e), (Z.max_l e' b) by lia. by rewrite <- app_assoc. }
  rewrite Hleft. destruct (Z.ltb_spec b b') as [Hlt|].
  - rewrite (fill_between b b') by (done || lia). cbn [app].
    destruct (insert_between b b' v p q) as [_ Hwf]; try done; try lia.
    rewrite (snoc_middle p _ q) in Hwf |- *.
    assert (Forall (λ x, x.2.1 ≤ e') (p ++ [(b, (b', v))])).
    { apply Forall_app. split; [done|]. repeat constructor. cbn. lia. }
    split.
    + destruct (Z.ltb_spec e' e); [|by rewrite fill_empty, <- app_assoc by lia].
      rewrite fill_between by (done || lia). by rewrite <- app_assoc.
    + rewrite omap_app, omap_clip_left, omap_clip_right by done. done.
  - rewrite (fill_empty b b') by lia. cbn [app]. split.
    + destruct (Z.ltb_spec e' e); [|by rewrite fill_empty by lia].
      by rewrite fill_between by (done || lia).
    + by rewrite omap_app, omap_clip_left, omap_clip_right.
Qed.

(** ** Looking up *)

Lemma wf_unique {T} (m : IntervalSet T) a x y : interval_wf m → x ∈ m → y ∈ m →
  contains a x → contains a y → x = y.
Proof.
  intros Hm (p & q & ->)%list_elem_of_split Hy [] [].
  apply wf_app in Hm as (_ & (_ & _ & Hq)%wf_cons & Hpq). rewrite Forall_forall in Hq.
  apply elem_of_app in Hy as [Hy|[->|Hy]%elem_of_cons]; [|done|].
  - assert (y.2.1 ≤ x.1) by (apply Hpq; [done|by left]). lia.
  - specialize (Hq y Hy). lia.
Qed.

Lemma find_elem {T} (m : IntervalSet T) a x : interval_wf m → x ∈ m → contains a x →
  find a m = Some (fragment_at x).
Proof.
  intros Hm Hx Ha. pose proof (find_spec a m Hm) as H. destruct (find a m) as [f|].
  - destruct H as (p & q & Hmid & Hf & _). f_equal.
    assert (x = piece f) as ->; [|by destruct f].
    apply (wf_unique m a); try done. rewrite Hmid. set_solver.
  - pose proof Hx as (p & q & ->)%list_elem_of_split. by rewrite value_at_mid in H.
Qed.

Lemma find_found {T} (m : IntervalSet T) a f : interval_wf m → find a m = Some f →
  piece f ∈ m ∧ f_begin f ≤ a < f_end f.
Proof.
  intros Hm E. pose proof (find_spec a m Hm) as H. rewrite E in H.
  destruct H as (p & q & -> & ? & _). split; [set_solver|done].
Qed.

Lemma find_fragments_of id a space : interval_wf space →
  find a (fragments_of id space) =
  match find a space with
  | Some f => if piece_id f =? id then Some (Frag (f_begin f) (f_end f) 0) else None
  | None => None
  end.
Proof.
  intros Hm. pose proof (fragments_of_wf id space Hm) as Hw.
  destruct (find a (fragments_of id space)) as [g|] eqn:Eg.
  - apply find_found in Eg as [(y & Hy & Hid & Ey)%elem_fragments_of Ha]; [|done].
    destruct g as [gb ge gv]. injection Ey as -> -> ->. cbn in Ha.
    rewrite (find_elem space a y) by done. unfold piece_id. cbn. by rewrite (proj2 (Z.eqb_eq _ _)).
  - destruct (find a space) as [f|] eqn:Ef; [|done].
    apply find_found in Ef as [Hf Ha]; [|done]. destruct (Z.eqb_spec (piece_id f) id) as [E|]; [|done].
    rewrite (find_elem (fragments_of id space) a (f_begin f, (f_end f, 0))) in Eg; [done|done| |done].
    apply elem_fragments_of. by exists (piece f).
Qed.

Lemma extend_owned_run fuel id run_end space : interval_wf space →
  extend_owned fuel id run_end space = extend_run fuel run_end (fragments_of id space).
Proof.
  intros Hm. revert run_end. induction fuel as [|fuel IH]; intros run_end; [done|].
  cbn [extend_owned extend_run]. rewrite find_fragments_of by done.
  destruct (find run_end space) as [f|]; [|done]. destruct (Z.eqb_spec (piece_id f) id) as [E|E].
  - cbn [f_begin f_end]. destruct (f_begin f =? run_end); cbn [negb orb]; [apply IH|done].
  - by rewrite orb_true_r.
Qed.

Lemma extend_run_fuel fuel fuel' run_end live stop : (fuel ≤ fuel')%nat →
  extend_run fuel run_end live = Some stop → extend_run fuel' run_end live = Some stop.
Proof.
  revert fuel' run_end. induction fuel as [|fuel IH]; intros [|fuel'] run_end Hle; try done; [lia|].
  cbn [extend_run]. destruct (find run_end live) as [f|]; [|done].
  destruct (negb _); [done|]. apply IH. lia.
Qed.

(** Both walks from a fragment find the end of the same run. *)
Lemma owned_run id base f space : interval_wf space → find base space = Some f →
  f_begin f = base → piece_id f = id →
  ∃ stop, extend_owned (S (length space)) id (f_end f) space = Some stop ∧
    extend_run (S (length (fragments_of id space))) (f_end f) (fragments_of id space) = Some stop ∧
    find base (fragments_of id space) = Some (Frag base (f_end f) 0) ∧
    live_run (fragments_of id space) base stop.
Proof.
  intros Hm Hf Hb Hid. pose proof (fragments_of_wf id space Hm) as Hw.
  assert (Hfind : find base (fragments_of id space) = Some (Frag base (f_end f) 0)).
  { rewrite find_fragments_of, Hf by done. rewrite (proj2 (Z.eqb_eq _ _)) by done. by rewrite Hb. }
  destruct (run_from_fragment _ base _ Hw Hfind eq_refl) as (stop & Hrun & Hlive). cbn [f_end] in Hrun.
  exists stop. split_and!; try done. rewrite extend_owned_run by done.
  eapply extend_run_fuel; [|exact Hrun]. unfold fragments_of. clear.
  induction space as [|x space IH]; cbn; [lia|]. destruct (owned_by id x); cbn; lia.
Qed.

Lemma is_live_elem (live : IntervalSet Z) a : interval_wf live →
  is_live live a ↔ ∃ x, x ∈ live ∧ contains a x.
Proof.
  intros Hm. split.
  - intros [v Hv]. pose proof (find_spec a live Hm) as H. destruct (find a live) as [f|]; [|congruence].
    destruct H as (p & q & -> & Ha & _). exists (piece f). split; [set_solver|done].
  - intros (x & (p & q & ->)%list_elem_of_split & Ha). unfold is_live. rewrite value_at_mid; done.
Qed.

(** The pieces of a range, each part of one fragment. *)
Definition piece_of {T} (m : IntervalSet T) (f : Fragment T) : Prop :=
  f_begin f < f_end f ∧ ∃ x, x ∈ m ∧ x.1 ≤ f_begin f ∧ f_end f ≤ x.2.1 ∧ f_value f = x.2.2.

Lemma clip_piece {T} b e (x : Z * (Z * T)) f : clip b e x = Some f →
  f_begin f < f_end f ∧ x.1 ≤ f_begin f ∧ f_end f ≤ x.2.1 ∧ f_value f = x.2.2 ∧
  b ≤ f_begin f ∧ f_end f ≤ e.
Proof.
  unfold clip. repeat (case_match; bool_facts); intros [= <-]; cbn; split_and!; done || lia.
Qed.

Lemma clip_piece_of {T} b e (m : IntervalSet T) f : f ∈ omap (clip b e) m →
  piece_of m f ∧ b ≤ f_begin f ∧ f_end f ≤ e.
Proof.
  rewrite list_elem_of_omap. intros (x & Hx & E).
  destruct (clip_piece _ _ _ _ E) as (? & ? & ? & ? & ? & ?). split; [|done]. split; [done|]. exists x. done.
Qed.

(** What the range of a run holds is the generation's own. *)
Lemma run_pieces_owned id base stop b e space f : interval_wf space →
  live_run (fragments_of id space) base stop → base ≤ b → e ≤ stop →
  f ∈ omap (clip b e) space → piece_id f = id.
Proof.
  intros Hm (_ & _ & Hrun) Hb He Hf.
  destruct (clip_piece_of b e space f Hf) as [(Hne & x & Hx & H1 & H2 & Hv) [H3 H4]].
  assert (Hlive : is_live (fragments_of id space) (f_begin f)) by (apply Hrun; lia).
  apply is_live_elem in Hlive as (y & (z & Hz & Hid & ->)%elem_fragments_of & Hc);
    [|by apply fragments_of_wf].
  assert (x = z) as <-; [|unfold piece_id; by rewrite Hv].
  apply (wf_unique space (f_begin f)); try done. split; lia.
Qed.

(** ** Pieces of the live space

    What the two loops of VmModel.v do to the live space, apart from the records they
    plan: [release_space] takes the pieces older than a call out of it, [claim_space]
    fills what the newer pieces leave of a range. *)

#[local] Arguments u64_max : simpl never.

(** ** A piece *)

Lemma piece_of_clip {T} (m : IntervalSet T) f : interval_wf m → piece_of m f →
  omap (clip (f_begin f) (f_end f)) m = [f].
Proof.
  intros Hm (Hne & x & (p & q & ->)%list_elem_of_split & H1 & H2 & Hv).
  apply wf_app in Hm as (_ & (_ & _ & Hq)%wf_cons & Hpq).
  rewrite omap_app, omap_clip_left. 2:{ apply Forall_forall. intros y Hy. pose proof (Hpq y x Hy ltac:(by left)). lia. }
  change (omap (clip (f_begin f) (f_end f)) (x :: q)) with
    (match clip (f_begin f) (f_end f) x with Some y => y :: omap (clip (f_begin f) (f_end f)) q
     | None => omap (clip (f_begin f) (f_end f)) q end).
  rewrite omap_clip_right. 2:{ eapply Forall_impl; [exact Hq|]. cbn. lia. }
  destruct x as [xb [xe v]], f as [fb fe w]. cbn in *. subst w. unfold clip. cbn.
  destruct (Z.ltb_spec xb fb), (Z.ltb_spec xe fe); try lia;
    repeat match goal with |- context [?l <? ?r] => destruct (Z.ltb_spec l r); try lia end;
    cbn; repeat f_equal; lia.
Qed.

Lemma piece_of_bounds {T} (m : IntervalSet T) f : interval_wf m → piece_of m f →
  0 ≤ f_begin f ∧ f_begin f < f_end f ∧ f_end f ≤ u64_max.
Proof.
  intros [Hp _] (Hne & x & Hx & H1 & H2 & _). rewrite Forall_forall in Hp.
  destruct (Hp x Hx) as (? & ? & ?). lia.
Qed.

Lemma piece_size_small m f : interval_wf m → piece_of m f → piece_size f = f_end f - f_begin f.
Proof. intros Hm H. destruct (piece_of_bounds m f Hm H). unfold piece_size. apply wrap64_small. word. Qed.

(** Removing what is before a piece keeps the piece. *)
Lemma piece_of_remaining {T} b e (m : IntervalSet T) f : piece_of m f → e ≤ f_begin f →
  piece_of (remaining b e m) f.
Proof.
  intros (Hne & x & Hx & H1 & H2 & Hv) He. unfold remaining. destruct (Z.leb_spec e b); [split; eauto|].
  split; [done|]. exists (Z.max e x.1, (x.2.1, x.2.2)). cbn. split_and!; [|lia|done|done].
  apply list_elem_of_bind. exists x. split; [|done]. unfold outside. apply elem_of_app. right.
  rewrite (proj2 (Z.ltb_lt _ _)) by lia. by apply list_elem_of_singleton.
Qed.

(** Taking a piece changes the fragments of its owner only. *)
Lemma fragments_of_take id m f : interval_wf m → piece_of m f →
  fragments_of id (remaining (f_begin f) (f_end f) m) =
  if piece_id f =? id then remaining (f_begin f) (f_end f) (fragments_of id m) else fragments_of id m.
Proof.
  intros Hm Hf. rewrite fragments_of_remaining. destruct (Z.eqb_spec (piece_id f) id) as [|Hne]; [done|].
  apply nothing_removed; [by apply fragments_of_wf|]. apply no_pieces.
  rewrite piece_of_clip by done. cbn. unfold owned_by. cbn. unfold piece_id in Hne.
  by rewrite (proj2 (Z.eqb_neq _ _)).
Qed.

Lemma sum_bytes_take id m f : interval_wf m → piece_of m f →
  sum_bytes (fragments_of id m) =
  sum_bytes (fragments_of id (remaining (f_begin f) (f_end f) m)) +
  (if piece_id f =? id then f_end f - f_begin f else 0).
Proof.
  intros Hm Hf. rewrite fragments_of_remaining.
  rewrite (sum_bytes_split (f_begin f) (f_end f)) by by apply fragments_of_wf.
  rewrite fragments_of_clip, piece_of_clip by done. cbn. unfold owned_by. cbn.
  change (fo_mapping_id (f_value f)) with (piece_id f). destruct (piece_id f =? id); cbn; unfold interval_bytes; cbn; lia.
Qed.

(** ** Releasing pieces *)

Definition release_piece (seq : Z) (m : LiveMappingSpace) (f : LiveFragment) : LiveMappingSpace :=
  if newer seq f then m else remaining (f_begin f) (f_end f) m.
Definition release_space (seq : Z) (pieces : list LiveFragment) (m : LiveMappingSpace)
    : LiveMappingSpace := foldl (release_piece seq) m pieces.

Lemma release_space_cons seq f pieces m :
  release_space seq (f :: pieces) m = release_space seq pieces (release_piece seq m f).
Proof. done. Qed.

(** Pieces of the space in the order of their addresses. *)
Fixpoint pieces_of (m : LiveMappingSpace) (pieces : list LiveFragment) : Prop :=
  match pieces with
  | [] => True
  | f :: pieces => piece_of m f ∧ Forall (λ g, f_end f ≤ f_begin g) pieces ∧ pieces_of m pieces
  end.

Definition older_bytes (seq : Z) (id : Z) (pieces : list LiveFragment) : Z :=
  foldr (λ f total, (if newer seq f then 0 else if piece_id f =? id then f_end f - f_begin f else 0) + total)
    0 pieces.

Lemma pieces_of_clip b e m : interval_wf m → pieces_of m (omap (clip b e) m).
Proof.
  intros Hm.
  assert (H : ∀ k, k `sublist_of` m → interval_wf k → pieces_of m (omap (clip b e) k)); [|by apply H].
  induction k as [|x k IH]; [done|]. intros Hsub (Hx & Hk & Hxk)%wf_cons.
  assert (x ∈ m) by (eapply elem_of_submseteq; [by left|by apply sublist_submseteq]).
  assert (k `sublist_of` m) by (etrans; [|exact Hsub]; by constructor).
  change (omap (clip b e) (x :: k)) with
    (match clip b e x with Some y => y :: omap (clip b e) k | None => omap (clip b e) k end).
  destruct (clip b e x) as [f|] eqn:E; [|by apply IH].
  destruct (clip_piece _ _ _ _ E) as (H1 & H2 & H3 & H4 & _). cbn. split; [|split]; [| |by apply IH].
  - split; [done|]. exists x. done.
  - apply Forall_forall. intros g (y & Hy & Eg)%list_elem_of_omap.
    destruct (clip_piece _ _ _ _ Eg) as (_ & ? & _). rewrite Forall_forall in Hxk.
    specialize (Hxk y Hy). lia.
Qed.

Lemma pieces_of_after (m m' : LiveMappingSpace) pieces (lo : Z) :
  (∀ f, piece_of m f → lo ≤ f_begin f → piece_of m' f) → Forall (λ g, lo ≤ f_begin g) pieces →
  pieces_of m pieces → pieces_of m' pieces.
Proof.
  intros Hkeep. induction pieces as [|f pieces IH]; [done|]. cbn.
  intros [Hf Hfs]%Forall_cons (H1 & H2 & H3). split_and!; auto.
Qed.

Lemma release_piece_wf seq m f : interval_wf m → interval_wf (release_piece seq m f).
Proof. intros Hm. unfold release_piece. case_match; [done|by apply remaining_wf]. Qed.

Lemma piece_of_release seq m f g : piece_of m g → f_end f ≤ f_begin g →
  piece_of (release_piece seq m f) g.
Proof. intros Hg Hle. unfold release_piece. case_match; [done|by apply piece_of_remaining]. Qed.

Lemma pieces_of_tail seq m f pieces : pieces_of m (f :: pieces) →
  pieces_of (release_piece seq m f) pieces.
Proof.
  intros (_ & Hle & Hps). eapply pieces_of_after; [|exact Hle|exact Hps].
  intros g Hg Hge. by apply piece_of_release.
Qed.

Lemma release_space_wf seq pieces : ∀ m, interval_wf m → interval_wf (release_space seq pieces m).
Proof.
  induction pieces as [|f pieces IH]; [done|]. intros m Hm. rewrite release_space_cons. by apply IH, release_piece_wf.
Qed.

Lemma elem_release_space seq pieces : ∀ m x, x ∈ release_space seq pieces m →
  ∃ y, y ∈ m ∧ y.1 ≤ x.1 ∧ x.2.1 ≤ y.2.1 ∧ x.2.2 = y.2.2.
Proof.
  induction pieces as [|f pieces IH]; intros m x; [intros; exists x; split_and!; done || lia|].
  rewrite release_space_cons.
  intros (y & Hy & ? & ? & ?)%IH. unfold release_piece in Hy. destruct (newer seq f).
  { exists y. split_and!; done || lia. }
  apply elem_remaining in Hy as (z & Hz & ? & ? & ?). exists z. split_and!; try done; try lia. congruence.
Qed.

(** What ends before every piece stays. *)
Lemma untouched_release seq pieces x : ∀ m, interval_wf m → x ∈ m →
  Forall (λ f, x.2.1 ≤ f_begin f) pieces → x ∈ release_space seq pieces m.
Proof.
  induction pieces as [|f pieces IH]; [done|]. intros m Hm Hx [Hf Hfs]%Forall_cons.
  rewrite release_space_cons. apply IH; [by apply release_piece_wf| |done].
  unfold release_piece. destruct (newer seq f); [done|]. apply untouched_remaining; [done..|]. by left.
Qed.

(** The generations none of whose pieces is older keep their fragments. *)
Lemma fragments_of_release seq id pieces : ∀ m, interval_wf m → pieces_of m pieces →
  Forall (λ f, piece_id f ≠ id) pieces →
  fragments_of id (release_space seq pieces m) = fragments_of id m.
Proof.
  induction pieces as [|f pieces IH]; [done|]. intros m Hm Hps [Hf Hfs]%Forall_cons. rewrite release_space_cons.
  rewrite IH; [|by apply release_piece_wf|by apply pieces_of_tail|done].
  unfold release_piece. destruct (newer seq f); [done|].
  rewrite fragments_of_take; [|done|apply Hps]. by rewrite (proj2 (Z.eqb_neq _ _)).
Qed.

Lemma sum_bytes_release seq id pieces : ∀ m, interval_wf m → pieces_of m pieces →
  sum_bytes (fragments_of id m) =
  sum_bytes (fragments_of id (release_space seq pieces m)) + older_bytes seq id pieces.
Proof.
  induction pieces as [|f pieces IH]; intros m Hm Hps; [change (release_space seq [] m) with m; change (older_bytes seq id []) with 0; lia|].
  rewrite release_space_cons. cbn [older_bytes foldr].
  specialize (IH (release_piece seq m f)). fold (older_bytes seq id pieces).
  assert (sum_bytes (fragments_of id m) = sum_bytes (fragments_of id (release_piece seq m f)) +
    (if newer seq f then 0 else if piece_id f =? id then f_end f - f_begin f else 0)) as ->.
  { unfold release_piece. destruct (newer seq f); [lia|]. apply sum_bytes_take; [done|apply Hps]. }
  rewrite IH; [lia|by apply release_piece_wf|by apply pieces_of_tail].
Qed.

Lemma older_bytes_nonneg seq id m pieces : pieces_of m pieces → 0 ≤ older_bytes seq id pieces.
Proof.
  induction pieces as [|f pieces IH]; [intros _; by vm_compute|]; cbn [pieces_of older_bytes foldr]; fold (older_bytes seq id pieces). intros ((Hne & _) & _ & Hps).
  specialize (IH Hps). repeat case_match; lia.
Qed.

(** The bytes the loop of the source adds up. *)
Lemma matched_bytes_spec seq id m pieces : interval_wf m → pieces_of m pieces →
  Forall (λ f, piece_id f = id) pieces →
  matched_bytes seq pieces = older_bytes seq id pieces ∧
  0 ≤ older_bytes seq id pieces ≤ sum_bytes (fragments_of id m).
Proof.
  intros Hm Hps Hid. pose proof (older_bytes_nonneg seq id m pieces Hps) as Hnn.
  pose proof (fragments_of_wf id _ (release_space_wf seq pieces m Hm)) as [Hw _].
  pose proof (sum_bytes_nonneg _ Hw). pose proof (sum_bytes_release seq id pieces m Hm Hps).
  split; [|lia]. destruct (total_bytes_spec _ (fragments_of_wf id m Hm)) as [_ Hmax].
  assert (Hgen : ∀ k acc, 0 ≤ acc → acc + older_bytes seq id k ≤ u64_max → pieces_of m k →
    Forall (λ f, piece_id f = id) k →
    foldl (λ total f, if newer seq f then total else wrap64 (total + piece_size f)) acc k =
    acc + older_bytes seq id k).
  { induction k as [|f k IH]; intros acc Hacc Hle Hk Hidk; cbn [foldl]; [cbn; lia|].
    apply Forall_cons in Hidk as [Hidf Hidk]. destruct Hk as (Hf & _ & Hk).
    cbn [older_bytes foldr] in Hle |- *. fold (older_bytes seq id k) in Hle |- *.
    pose proof (older_bytes_nonneg seq id m k Hk). destruct (newer seq f); [rewrite IH; done || lia|].
    rewrite (proj2 (Z.eqb_eq _ _)) in * by done. pose proof (piece_of_bounds m f Hm Hf).
    rewrite (piece_size_small m f), wrap64_small by (done || word). rewrite IH; done || lia. }
  unfold matched_bytes. rewrite Hgen; try done; lia.
Qed.

(** ** Addresses of the pieces *)

Lemma value_at_elem {T} (m : IntervalSet T) a v : value_at a m = Some v →
  ∃ x, x ∈ m ∧ contains a x ∧ x.2.2 = v.
Proof.
  induction m as [|[b [e w]] m IH]; [done|]. cbn. destruct (_ && _) eqn:E.
  - intros [= ->]. bool_facts. exists (b, (e, v)). split; [by left|]. by split.
  - intros (x & Hx & ? & ?)%IH. exists x. split; [by right|done].
Qed.

Lemma clip_nil_iff {T} b e (m : IntervalSet T) : interval_wf m →
  omap (clip b e) m = [] ↔ ∀ a, b ≤ a < e → value_at a m = None.
Proof.
  intros Hm. split.
  - intros Hnone a Ha. pose proof (value_at_clip b e m a) as H. rewrite Hnone in H.
    by rewrite (proj2 (within_true b e a)) in H.
  - intros Hnone. apply omap_nil_iff. intros x Hx. destruct (clip b e x) as [f|] eqn:E; [|done].
    destruct (clip_piece _ _ _ _ E) as (? & ? & ? & ? & ? & ?).
    apply list_elem_of_split in Hx as (p & q & ->).
    assert (H' : value_at (f_begin f) (p ++ x :: q) = Some x.2.2).
    { apply value_at_mid; [done|]. split; lia. }
    rewrite Hnone in H' by lia. discriminate H'.
Qed.

Definition older_piece_at (seq : Z) (pieces : list LiveFragment) (a : Z) : bool :=
  existsb (λ f, negb (newer seq f) && within (f_begin f) (f_end f) a) pieces.

Lemma value_at_release seq pieces a : ∀ m,
  value_at a (release_space seq pieces m) =
  if older_piece_at seq pieces a then None else value_at a m.
Proof.
  induction pieces as [|f pieces IH]; [done|]. intros m. rewrite release_space_cons, IH.
  change (older_piece_at seq (f :: pieces) a) with
    (negb (newer seq f) && within (f_begin f) (f_end f) a || older_piece_at seq pieces a).
  unfold release_piece. destruct (newer seq f); cbn [negb andb orb]; [done|].
  rewrite value_at_remaining. by destruct (older_piece_at seq pieces a), (within _ _ a).
Qed.

(** In the range of a call only the newer pieces stay live. *)
Lemma live_after_release seq b e m a : interval_wf m → b ≤ a < e →
  is_Some (value_at a (release_space seq (omap (clip b e) m) m)) →
  ∃ p, p ∈ List.filter (newer seq) (omap (clip b e) m) ∧ f_begin p ≤ a < f_end p.
Proof.
  intros Hm Ha. rewrite value_at_release. destruct (older_piece_at _ _ a) eqn:Ep; [by intros []|].
  intros [v Hv]. pose proof (value_at_clip b e m a) as H. rewrite (proj2 (within_true b e a) Ha), Hv in H.
  apply value_at_elem in H as (x & (f & -> & Hf)%list_elem_of_fmap & Hc & _). cbn in Hc.
  exists f. split; [|done]. apply list_elem_of_In, filter_In.
  split; [by apply list_elem_of_In|]. destruct (newer seq f) eqn:En; [done|].
  exfalso. assert (older_piece_at seq (omap (clip b e) m) a = true); [|congruence].
  apply existsb_exists. exists f. split; [by apply list_elem_of_In|]. rewrite En.
  by apply within_true.
Qed.

(** ** Claiming a range *)

Definition cuts (pieces : list LiveFragment) (live : IntervalSet Z) : IntervalSet Z :=
  foldr (λ p live, remaining (f_begin p) (f_end p) live) live pieces.

Fixpoint claim_space (owner : LiveFragmentOwner) (e : Z) (stale : list LiveFragment) (cursor : Z)
    (m : LiveMappingSpace) : LiveMappingSpace :=
  match stale with
  | [] => fill cursor e owner m
  | p :: stale => claim_space owner e stale (f_end p) (fill cursor (f_begin p) owner m)
  end.

Fixpoint claimed_bytes (e : Z) (stale : list LiveFragment) (cursor : Z) : Z :=
  match stale with
  | [] => e - cursor
  | p :: stale => (f_begin p - cursor) + claimed_bytes e stale (f_end p)
  end.

(** Pieces inside [cursor, e) in the order of their addresses. *)
Fixpoint stale_within (e : Z) (stale : list LiveFragment) (cursor : Z) : Prop :=
  match stale with
  | [] => cursor ≤ e
  | p :: stale => cursor ≤ f_begin p ∧ f_begin p < f_end p ∧ stale_within e stale (f_end p)
  end.

Definition only_stale (m : LiveMappingSpace) (e : Z) (stale : list LiveFragment) (cursor : Z) : Prop :=
  ∀ a, cursor ≤ a < e → is_Some (value_at a m) → ∃ p, p ∈ stale ∧ f_begin p ≤ a < f_end p.

Lemma stale_within_le e stale cursor : stale_within e stale cursor → cursor ≤ e.
Proof. revert cursor. induction stale as [|p stale IH]; cbn; intros cursor; [done|].
  intros (? & ? & ?%IH). lia. Qed.

Lemma stale_within_after e stale cursor : stale_within e stale cursor →
  Forall (λ p, cursor ≤ f_begin p ∧ f_begin p < f_end p ∧ f_end p ≤ e) stale.
Proof.
  revert cursor. induction stale as [|p stale IH]; cbn; intros cursor; [constructor|].
  intros (? & ? & H). pose proof (stale_within_le _ _ _ H). constructor; [lia|].
  eapply Forall_impl; [by apply IH|]. cbn. lia.
Qed.

Lemma cuts_wf stale live : interval_wf live → interval_wf (cuts stale live).
Proof. intros H. induction stale as [|p stale IH]; [done|]. by apply remaining_wf. Qed.

(** A cut before all others. *)
Lemma cuts_remaining e b' e' stale live : interval_wf live → b' < e' → stale_within e stale e' →
  cuts stale (remaining b' e' live) = remaining b' e' (cuts stale live).
Proof.
  intros Hwf Hlt Hst%stale_within_after. induction stale as [|p stale IH]; [done|].
  apply Forall_cons in Hst as [(? & ? & ?) Hst].
  change (remaining (f_begin p) (f_end p) (cuts stale (remaining b' e' live)) =
    remaining b' e' (remaining (f_begin p) (f_end p) (cuts stale live))).
  rewrite IH by done. apply remaining_comm; [done..|]. by apply cuts_wf.
Qed.

Lemma only_stale_gap m e p stale cursor : interval_wf m → stale_within e (p :: stale) cursor →
  only_stale m e (p :: stale) cursor → omap (clip cursor (f_begin p)) m = [].
Proof.
  intros Hm (H1 & H2 & Hst) Honly. apply clip_nil_iff; [done|]. intros a Ha.
  pose proof (stale_within_le _ _ _ Hst).
  destruct (value_at a m) as [v|] eqn:E; [|done].
  destruct (Honly a ltac:(lia) ltac:(by rewrite E)) as (g & [->|Hg]%elem_of_cons & Hin); [lia|].
  apply stale_within_after in Hst. rewrite Forall_forall in Hst. destruct (Hst g Hg). lia.
Qed.

Lemma only_stale_end m e cursor : interval_wf m → only_stale m e [] cursor → omap (clip cursor e) m = [].
Proof.
  intros Hm Honly. apply clip_nil_iff; [done|]. intros a Ha.
  destruct (value_at a m) as [v|] eqn:E; [|done].
  destruct (Honly a Ha ltac:(by rewrite E)) as (g & Hg & _). by apply elem_of_nil in Hg.
Qed.

Lemma only_stale_next m e p stale cursor owner : interval_wf m → 0 ≤ cursor → e ≤ u64_max →
  stale_within e (p :: stale) cursor → only_stale m e (p :: stale) cursor →
  only_stale (fill cursor (f_begin p) owner m) e stale (f_end p).
Proof.
  intros Hm H0 He Hst Honly a Ha Hlive. pose proof Hst as (H1 & H2 & Hst').
  pose proof (stale_within_le _ _ _ Hst').
  unfold fill in Hlive. destruct (value_at_insert cursor (f_begin p) owner m a Hm H0 ltac:(lia)) as [_ Hv].
  rewrite Hv in Hlive. destruct (within cursor (f_begin p) a) eqn:Ew; [apply within_true in Ew; lia|].
  destruct (Honly a ltac:(lia) Hlive) as (g & [->|Hg]%elem_of_cons & Hin); [lia|eauto].
Qed.

Lemma sum_bytes_fill b e (v : Z) live : interval_wf live → 0 ≤ b → b ≤ e → e ≤ u64_max →
  omap (clip b e) live = [] → sum_bytes (fill b e v live) = sum_bytes live + (e - b).
Proof.
  intros Hm Hb Hbe He Hnone. destruct (Z.eq_dec b e) as [->|]; [rewrite fill_empty; lia|].
  destruct (gap_split b e live Hm ltac:(lia) Hnone) as (p & q & -> & Hp & Hq).
  rewrite fill_between, !sum_bytes_app by (done || lia). cbn. unfold interval_bytes. cbn. lia.
Qed.

Record claimed (owner : LiveFragmentOwner) (e : Z) (stale : list LiveFragment) (cursor : Z)
    (m m' : LiveMappingSpace) : Prop := {
  cl_wf : interval_wf m';
  cl_fragments : ∀ id, fragments_of id m' = if fo_mapping_id owner =? id
    then cuts stale (fill cursor e 0 (fragments_of id m)) else fragments_of id m;
  cl_elem : ∀ x, x ∈ m' → x ∈ m ∨ (x.2.2 = owner ∧ cursor ≤ x.1);
  cl_bytes : sum_bytes (fragments_of (fo_mapping_id owner) m') =
    sum_bytes (fragments_of (fo_mapping_id owner) m) + claimed_bytes e stale cursor;
}.

Lemma claim_space_spec owner e stale : ∀ cursor m, interval_wf m → 0 ≤ cursor → e ≤ u64_max →
  stale_within e stale cursor → only_stale m e stale cursor →
  omap (clip cursor e) (fragments_of (fo_mapping_id owner) m) = [] →
  claimed owner e stale cursor m (claim_space owner e stale cursor m).
Proof.
  induction stale as [|p stale IH]; intros cursor m Hm H0 He Hst Honly Hown; cbn [claim_space].
  - cbn in Hst. pose proof (only_stale_end m e cursor Hm Honly) as Hgap. split.
    + by apply fill_wf.
    + intros id. by rewrite fragments_of_fill by done.
    + intros x [Hx|[? ->]]%elem_fill; try done; [by left|]. right. cbn. split; [done|lia].
    + rewrite fragments_of_fill, Z.eqb_refl by done. cbn.
      by apply sum_bytes_fill; [apply fragments_of_wf|..].
  - pose proof Hst as (H1 & H2 & Hst'). pose proof (stale_within_le _ _ _ Hst').
    pose proof (only_stale_gap m e p stale cursor Hm Hst Honly) as Hgap.
    pose proof (only_stale_next m e p stale cursor owner Hm H0 He Hst Honly) as Hnext.
    pose proof (fragments_of_wf (fo_mapping_id owner) m Hm) as Hw.
    destruct (trim_filled cursor e (f_begin p) (f_end p) 0 _ Hw H0 H1 H2 ltac:(lia) He Hown)
      as [Htrim Hfree].
    assert (Hfill : ∀ id, fragments_of id (fill cursor (f_begin p) owner m) =
      if fo_mapping_id owner =? id then fill cursor (f_begin p) 0 (fragments_of id m)
      else fragments_of id m) by (intros id; apply fragments_of_fill; done || lia).
    destruct (IH (f_end p) (fill cursor (f_begin p) owner m)) as [C1 C2 C3 C4]; try done; try lia.
    { apply fill_wf; done || lia. }
    { by rewrite Hfill, Z.eqb_refl. }
    split; [done| | |].
    + intros id. rewrite C2, Hfill. destruct (Z.eqb_spec (fo_mapping_id owner) id) as [<-|]; [|done].
      rewrite <- Htrim. cbn. apply (cuts_remaining e); [|done|done].
      apply fill_wf; done || lia.
    + intros x [Hx|[? ?]]%C3; [|right; split; [done|lia]].
      apply elem_fill in Hx as [?|[? ->]]; try done; try lia; [by left|right; cbn; split; [done|lia]].
    + rewrite C4, Hfill, Z.eqb_refl. cbn.
      rewrite sum_bytes_fill; try done; try lia.
      by apply fragments_of_gap.
Qed.

Lemma stale_within_filter seq m b e pieces : b ≤ e → pieces_of m pieces →
  Forall (λ f, b ≤ f_begin f ∧ f_end f ≤ e) pieces →
  stale_within e (List.filter (newer seq) pieces) b.
Proof.
  revert b. induction pieces as [|f pieces IH]; intros b Hbe; [done|].
  intros ((Hne & _) & Hle & Hps) [[Hb He] Hin]%Forall_cons. cbn.
  destruct (newer seq f); cbn.
  - split_and!; [done|done|]. apply IH; [lia|done|]. rewrite Forall_forall in Hle, Hin.
    apply Forall_forall. intros g Hg. destruct (Hin g Hg). specialize (Hle g Hg). lia.
  - by apply IH.
Qed.

Lemma clip_within b e (m : LiveMappingSpace) :
  Forall (λ f, b ≤ f_begin f ∧ f_end f ≤ e) (omap (clip b e) m).
Proof. apply Forall_forall. intros f Hf. by apply clip_piece_of in Hf as [_ ?]. Qed.
