(* ===== verification/VmTracker.v ===== *)
(** * How the generation tracker takes the records of a plan

    The records VmModel.v plans are events for GenerationTracker.v.  Each of them, in
    the state the plan puts it in, is accepted, and does to the live fragments and the
    generation of its mapping what is said here. *)

From S2P Require Import Prelude OrderedMap IntervalSet WireFormat Event GenerationTracker TrackerInvariant TrackerTheorems HookRegistry RawEvents VmModel VmSpace.

#[local] Arguments u64_max : simpl never.

Lemma wp_ok {S E A} (p : proc S E A) s (P : A → S → Prop) :
  wp p s P (λ _ _, False) → ∃ a s', p s = (Ok a, s') ∧ P a s'.
Proof. unfold wp. destruct (p s) as [[a|e] s']; [eauto|done]. Qed.

(** ** What the simulation sees of a tracker *)

Definition tracker_live (t : GenerationTracker) (id : Z) : IntervalSet Z :=
  match om_find id (live_mappings_ t) with Some s => ms_live s | None => [] end.

(** Kind and address of a live mapping. *)
Definition tracker_kind (t : GenerationTracker) (id : Z) : option (GenerationKind * Z) :=
  (λ s, (mg_kind (ms_generation s), mg_address (ms_generation s))) <$> om_find id (live_mappings_ t).

(** The effect of an accepted event on one mapping. *)
Record mapping_step (t t' : GenerationTracker) (id : Z) (live : IntervalSet Z)
    (kind : option (GenerationKind * Z)) : Prop := {
  ms_inv : tracker_inv t';
  ms_lives : ∀ id', tracker_live t' id' = if decide (id = id') then live else tracker_live t id';
  ms_kinds : ∀ id', tracker_kind t' id' = if decide (id = id') then kind else tracker_kind t id';
  ms_allocations : live_allocations_ t' = live_allocations_ t ∧
    seen_allocation_ids_ t' = seen_allocation_ids_ t;
  ms_seen : seen_mapping_ids_ t' ⊆ {[id]} ∪ seen_mapping_ids_ t;
  ms_created : created_count_ t ≤ created_count_ t' ≤ created_count_ t + 1;
}.

Lemma tracker_live_wf t id : tracker_inv t → interval_wf (tracker_live t id).
Proof.
  intros Hinv. unfold tracker_live. destruct (om_find id (live_mappings_ t)) as [s|] eqn:E;
    [by eapply live_wf|apply wf_nil].
Qed.

Lemma step_of_assign t t' id s s' : om_find id (live_mappings_ t) = Some s → tracker_inv t' →
  live_mappings_ t' = assign id s' (live_mappings_ t) →
  mg_kind (ms_generation s') = mg_kind (ms_generation s) →
  mg_address (ms_generation s') = mg_address (ms_generation s) →
  live_allocations_ t' = live_allocations_ t → seen_allocation_ids_ t' = seen_allocation_ids_ t →
  seen_mapping_ids_ t' = seen_mapping_ids_ t → created_count_ t' = created_count_ t →
  mapping_step t t' id (ms_live s') (tracker_kind t id).
Proof.
  intros Hs Hinv Hm Hk Ha H1 H2 H3 H4. split; try done; [| |rewrite H3; set_solver|lia].
  - intros id'. unfold tracker_live. rewrite Hm, om_find_assign. case_decide; [|done].
    subst. by rewrite Hs.
  - intros id'. unfold tracker_kind. rewrite Hm, om_find_assign. case_decide; [|done].
    subst. rewrite Hs. cbn. by rewrite Hk, Ha.
Qed.

Lemma step_of_erase t id g reason event s : om_find id (live_mappings_ t) = Some s → tracker_inv t →
  g = ms_generation s → mapping_step t (ended_mapping id g reason event t) id [] None.
Proof.
  intros Hs Hinv ->. split; [by apply inv_ended_mapping| | |done|cbn; set_solver|cbn; lia].
  - intros id'. unfold tracker_live. cbn. rewrite om_find_erase. by case_decide.
  - intros id'. unfold tracker_kind. cbn. rewrite om_find_erase. by case_decide.
Qed.

(** ** Events *)

Section one_event.
Context (event : Event) (t : GenerationTracker).
Hypothesis Hvalid : validate_event event = Ok tt.
Hypothesis Hinv : tracker_inv t.

Lemma observe_handler (handler : tracking unit) P :
  observe event = (pure (validate_event event) ;; handler) →
  wp handler t P (λ _ _, False) → ∃ t', observe event t = (Ok tt, t') ∧ P tt t'.
Proof.
  intros -> Hwp. rewrite pure_bind, Hvalid. destruct (wp_ok _ _ _ Hwp) as ([] & t' & H & HP). eauto.
Qed.

(** Failed calls and records without a mapping. *)
Lemma observe_ignored : call_succeeded (status (ev_header event)) = false ∨
    match ev_payload event with
    | VmAllocate a => va_mapping_id a = 0 | VmFree f => vf_mapping_id f = 0
    | Map m => mp_mapping_id m = 0 | _ => False
    end →
  match ev_payload event with VmAllocate _ | VmFree _ | Map _ => True | _ => False end →
  observe event t = (Ok tt, t).
Proof.
  intros Hno Hvm. unfold observe. rewrite pure_bind, Hvalid.
  destruct (ev_payload event) as [| | | | |a|f|m|]; try done.
  - unfold observe_vm_allocate. destruct Hno as [-> | ->]; cbn [negb orb]; [done|].
    by rewrite orb_true_r.
  - unfold observe_vm_free. destruct Hno as [-> | ->]; cbn [negb orb]; [done|].
    by rewrite orb_true_r.
  - unfold observe_map. destruct Hno as [-> | ->]; cbn [negb orb]; [done|].
    by rewrite orb_true_r.
Qed.

Hypothesis Hok : call_succeeded (status (ev_header event)) = true.

(** A release of [b, e), some of which is live. *)
Lemma observe_release f b e : ev_payload event = VmFree f → vf_base f = b → vf_region_size f = e - b →
  vf_free_type f = kMemRelease → is_valid (vf_mapping_id f) = true →
  0 ≤ b → b < e → e ≤ u64_max → omap (clip b e) (tracker_live t (vf_mapping_id f)) ≠ [] →
  let live := remaining b e (tracker_live t (vf_mapping_id f)) in
  ∃ t', observe event t = (Ok tt, t') ∧
    mapping_step t t' (vf_mapping_id f) live
      (if empty_set live then None else tracker_kind t (vf_mapping_id f)).
Proof.
  intros Hp Hb Hsize Htype Hid H0 Hbe He Hhit live.
  apply (observe_handler (observe_vm_free event f)
    (λ _ t', mapping_step t t' (vf_mapping_id f) live
      (if empty_set live then None else tracker_kind t (vf_mapping_id f)))).
  { unfold observe. by rewrite Hp. }
  unfold tracker_live in *. destruct (om_find (vf_mapping_id f) (live_mappings_ t)) as [s|] eqn:E; [|done].
  pose proof (live_wf t _ _ Hinv E) as Hwf. pose proof (ended_room_mapping t _ s Hinv E) as Hroom.
  unfold observe_vm_free. rewrite Hok, Hid, Htype, Hsize, Hb. cbn [negb orb].
  change (Z.land kMemRelease kMemRelease =? 0) with false. cbv iota. do 2 wp_step. rewrite E.
  rewrite (proj2 (Z.eqb_neq (e - b) 0)) by lia.
  wp_step. apply wp_state_error_if; intros Hov; bool_facts; [|lia].
  replace (b + (e - b)) with e by lia. rewrite wrap64_small by word. rewrite subtract_spec by done.
  fold live. unfold store_mapping. do 3 wp_step.
  apply wp_state_error_if; intros Hremoved; [|by destruct (omap (clip b e) (ms_live s))].
  destruct (empty_set live) eqn:Eempty; cbn [negb].
  - unfold notify_ended. do 3 wp_step. apply wp_checked_increment; [intros _|cbn; lia]. wp_step.
    rewrite ended_stored. destruct live; [|done]. by eapply step_of_erase.
  - unfold notify_changed. do 3 wp_step. rewrite changed_stored.
    by apply (step_of_assign _ _ _ s {| ms_generation := set_size_of (ms_generation s) (total_bytes live);
      ms_live := live |}); [|apply inv_changed_mapping; [..|apply remaining_wf]| | | | | | |].
Qed.

(** The end of a whole view. *)
Lemma observe_whole_unmap u : ev_payload event = Unmap u → is_valid (um_mapping_id u) = true →
  tracker_kind t (um_mapping_id u) = Some (Kind_kMappedView, um_base u) →
  ∃ t', observe event t = (Ok tt, t') ∧ mapping_step t t' (um_mapping_id u) [] None.
Proof.
  intros Hp Hid Hkind.
  apply (observe_handler (observe_unmap event u) (λ _ t', mapping_step t t' (um_mapping_id u) [] None)).
  { unfold observe. by rewrite Hp. }
  unfold tracker_kind in Hkind. destruct (om_find (um_mapping_id u) (live_mappings_ t)) as [s|] eqn:E; [|done].
  injection Hkind as Hk Ha. pose proof (ended_room_mapping t _ s Hinv E) as Hroom.
  unfold observe_unmap. rewrite Hok, Hid. cbn [negb orb]. unfold end_mapping. do 2 wp_step.
  rewrite E. wp_step. apply wp_state_error_if; intros H; bool_facts; [|by rewrite Hk in H].
  wp_step. apply wp_state_error_if; intros H'; bool_facts; [|done].
  unfold notify_ended. do 3 wp_step. apply wp_checked_increment; [intros _|cbn; lia]. wp_step.
  by eapply step_of_erase.
Qed.

(** A mapping under a new identifier. *)
Lemma wp_new_mapping_step g b e : created_count_ t < u64_max →
  mg_kind g ≠ Kind_kHeapAllocation → mg_size g = e - b → is_valid (mg_mapping_id g) = true →
  mg_mapping_id g ∉ seen_mapping_ids_ t → 0 ≤ b → b < e → e ≤ u64_max →
  wp (add_mapping {| ms_generation := g; ms_live := snd (insert b e 0 []) |}) t
    (λ _ t', mapping_step t t' (mg_mapping_id g) (fill b e 0 []) (Some (mg_kind g, mg_address g)))
    (λ _ _, False).
Proof.
  intros Hroom Hkind Hsize Hid Hnew H0 Hbe He. pose proof (unseen_mapping t _ Hinv Hnew) as Hnone.
  destruct (first_live b e) as (Hwf & Hbytes & _); [lia..|].
  unfold add_mapping. cbn [ms_generation]. wp_step.
  apply wp_require_new_mapping_id; [intros _ _|intros [?|?] ?; [congruence|done]]. do 7 wp_step.
  apply wp_state_error_if; cbn; intros Hlive.
  2:{ apply bool_decide_eq_true in Hlive. rewrite Hnone in Hlive. by destruct Hlive. }
  wp_step. apply wp_checked_increment; [intros _|cbn; lia]. unfold notify_created. wp_step.
  change (mapping_step t (born_mapping {| ms_generation := g; ms_live := snd (insert b e 0 []) |} t)
    (mg_mapping_id g) (fill b e 0 []) (Some (mg_kind g, mg_address g))).
  pose proof (ti_sorted_mappings t Hinv) as Hsorted. split.
  - apply inv_born_mapping; try done. cbn [ms_generation ms_live]. lia.
  - intros id'. unfold tracker_live. cbn. rewrite om_find_emplace by done. by case_decide.
  - intros id'. unfold tracker_kind. cbn. rewrite om_find_emplace by done. by case_decide.
  - done.
  - cbn. done.
  - cbn. lia.
Qed.

Lemma observe_new_view m b e : ev_payload event = Map m → created_count_ t < u64_max →
  is_valid (mp_mapping_id m) = true → mp_mapping_id m ∉ seen_mapping_ids_ t →
  mp_result_base m = b → mp_view_size m = e - b → 0 ≤ b → b < e → e ≤ u64_max →
  ∃ t', observe event t = (Ok tt, t') ∧
    mapping_step t t' (mp_mapping_id m) (fill b e 0 []) (Some (Kind_kMappedView, b)).
Proof.
  intros Hp Hroom Hid Hnew Hb Hsize H0 Hbe He.
  apply (observe_handler (observe_map event m) (λ _ t', mapping_step t t' (mp_mapping_id m)
    (fill b e 0 []) (Some (Kind_kMappedView, b)))).
  { unfold observe. by rewrite Hp. }
  unfold observe_map. rewrite Hok, Hid, Hb, Hsize. cbn [negb orb]. wp_step.
  apply wp_state_error_if; intros Hov; bool_facts; [|lia].
  replace (b + (e - b)) with e by lia. rewrite wrap64_small by word.
  by apply (wp_new_mapping_step {| mg_kind := Kind_kMappedView; mg_mapping_id := mp_mapping_id m |});
    try apply is_valid_true.
Qed.

(** The range an allocation record names. *)
Definition names_range (a : VmAllocateEvent) (b e : Z) : Prop :=
  va_mapping_base a = b ∧ va_mapping_size a = e - b ∧ 0 < b ∧ b < e ∧ e ≤ u64_max.

Lemma observe_new_allocation a b e : ev_payload event = VmAllocate a → created_count_ t < u64_max →
  is_valid (va_mapping_id a) = true → va_mapping_id a ∉ seen_mapping_ids_ t → names_range a b e →
  ∃ t', observe event t = (Ok tt, t') ∧
    mapping_step t t' (va_mapping_id a) (fill b e 0 []) (Some (Kind_kVirtualAllocation, b)).
Proof.
  intros Hp Hroom Hid Hnew (Hb & Hsize & H0 & Hbe & He).
  apply (observe_handler (observe_vm_allocate event a) (λ _ t', mapping_step t t' (va_mapping_id a)
    (fill b e 0 []) (Some (Kind_kVirtualAllocation, b)))).
  { unfold observe. by rewrite Hp. }
  unfold observe_vm_allocate. rewrite Hok, Hid, Hb, Hsize. cbn [negb orb]. cbv zeta.
  rewrite (proj2 (Z.eqb_neq b 0)), (proj2 (Z.eqb_neq (e - b) 0)) by lia. wp_step.
  apply wp_state_error_if; intros Hov; bool_facts; [|lia]. do 2 wp_step.
  rewrite (unseen_mapping t) by done.
  replace (b + (e - b)) with e by lia. rewrite wrap64_small by word.
  by apply (wp_new_mapping_step {| mg_kind := Kind_kVirtualAllocation; mg_mapping_id := va_mapping_id a |});
    try apply is_valid_true; try lia.
Qed.

(** A resize of the run that starts at the base of the range. *)
Lemma observe_resize a b e f stop address : ev_payload event = VmAllocate a →
  is_valid (va_mapping_id a) = true → names_range a b e →
  tracker_kind t (va_mapping_id a) = Some (Kind_kVirtualAllocation, address) → address ≤ b →
  let live := tracker_live t (va_mapping_id a) in
  find b live = Some f → f_begin f = b →
  extend_run (S (length live)) (f_end f) live = Some stop → b < stop ≤ u64_max →
  ∃ t', observe event t = (Ok tt, t') ∧
    mapping_step t t' (va_mapping_id a)
      (if stop <? e then (insert stop e 0 live).2 else remaining e stop live)
      (tracker_kind t (va_mapping_id a)).
Proof.
  intros Hp Hid (Hb & Hsize & H0 & Hbe & He) Hkind Haddr live Hf Hfb Hrun Hstop.
  set (live' := if stop <? e then (insert stop e 0 live).2 else remaining e stop live).
  apply (observe_handler (observe_vm_allocate event a) (λ _ t', mapping_step t t' (va_mapping_id a)
    live' (tracker_kind t (va_mapping_id a)))).
  { unfold observe. by rewrite Hp. }
  unfold tracker_kind in Hkind. unfold live, tracker_live in *.
  destruct (om_find (va_mapping_id a) (live_mappings_ t)) as [s|] eqn:E; [|done].
  injection Hkind as Hk Ha. pose proof (live_wf t _ _ Hinv E) as Hwf.
  assert (Hresize : resize_live b (e - b) f (ms_live s) = Ok live' ∧ interval_wf live').
  { unfold resize_live. rewrite Hfb, Z.eqb_refl. rewrite Hrun. cbv zeta.
    change (default (f_end f) (Some stop)) with stop.
    replace (b + (e - b)) with e by lia. rewrite (wrap64_small (stop - b)), (wrap64_small e) by word.
    unfold live'. destruct (Z.ltb_spec stop e), (Z.ltb_spec (stop - b) (e - b)); try lia.
    - split; [done|]. by apply (value_at_insert stop e 0 _ 0); [|lia|].
    - split; [|by apply remaining_wf]. destruct (Z.ltb_spec (e - b) (stop - b)).
      + by rewrite subtract_spec.
      + unfold remaining. by rewrite (proj2 (Z.leb_le _ _)) by lia. }
  destruct Hresize as [Hresize Hwf'].
  unfold observe_vm_allocate. rewrite Hok, Hid, Hb, Hsize. cbn [negb orb]. cbv zeta.
  rewrite (proj2 (Z.eqb_neq b 0)), (proj2 (Z.eqb_neq (e - b) 0)) by lia. wp_step.
  apply wp_state_error_if; intros Hov; bool_facts; [|lia]. do 2 wp_step. rewrite E. wp_step.
  apply wp_state_error_if; intros Hmatch; bool_facts; [|destruct Hmatch; [congruence|lia]].
  rewrite Hf. wp_step. apply wp_pure; [|rewrite Hresize; discriminate].
  intros live0 Hlive0. rewrite Hresize in Hlive0. injection Hlive0 as <-.
  destruct (total_bytes live' =? mg_size (ms_generation s)) eqn:Eb; cbn [negb]; bool_facts.
  - unfold store_mapping. wp_step.
    by apply (step_of_assign _ _ _ s {| ms_generation := ms_generation s; ms_live := live' |});
      [|apply inv_stored_mapping| | | | | | |].
  - unfold store_mapping, notify_changed. do 3 wp_step.
    by apply (step_of_assign _ _ _ s {| ms_generation := set_size_of (ms_generation s) (total_bytes live');
      ms_live := live' |}); [|apply (inv_changed_mapping _ s live' event)| | | | | | |].
Qed.

End one_event.
