(* ===== verification/VmSimulation.v ===== *)
(** * The plans keep the tracker in step

    The model of VmModel.v and the tracker of GenerationTracker.v, related: the
    tracker that has observed the planned records holds, generation by generation,
    the fragments of the model.  While a plan is made the tracker lags behind, by
    ranges the model has released and the records yet to come will release: the
    pending cuts of a [stage]. *)

From S2P Require Import Prelude OrderedMap IntervalSet WireFormat Event GenerationTracker TrackerInvariant TrackerTheorems HookRegistry RawEvents VmModel VmSpace VmTracker.

#[local] Arguments u64_max : simpl never.

(** ** The invariant of the model *)

Definition owner_id (x : Z * (Z * LiveFragmentOwner)) : Z := fo_mapping_id x.2.2.

Record generation_ok (m : VmModel) (id : Z) (g : LiveMappingGeneration) : Prop := {
  go_id : lg_mapping_id g = id;
  go_range : 1 ≤ id < next_mapping_id_ m;
  go_base : 0 < lg_base g ≤ u64_max;
  go_bytes : lg_live_bytes g = sum_bytes (fragments_of id (live_mapping_space_ m));
  go_fragments : ∀ x, x ∈ live_mapping_space_ m → owner_id x = id →
    lg_base g ≤ x.1 ∧ fo_sequence x.2.2 ≤ lg_last_sequence g;
}.

Record model_inv (m : VmModel) : Prop := {
  mi_space : interval_wf (live_mapping_space_ m);
  mi_owned : ∀ x, x ∈ live_mapping_space_ m → is_Some (live_generations_ m !! owner_id x);
  mi_generations : ∀ id g, live_generations_ m !! id = Some g → generation_ok m id g;
  mi_next : 1 ≤ next_mapping_id_ m ≤ u64_max;
}.

(** No generation without a live byte is kept between two calls. *)
Definition settled (m : VmModel) : Prop :=
  ∀ id g, live_generations_ m !! id = Some g → lg_live_bytes g ≠ 0.

Lemma model_inv_new : model_inv VmModel_new ∧ settled VmModel_new.
Proof.
  split; [split|]; cbn; try done; [apply wf_nil|intros x Hx; by apply not_elem_of_nil in Hx].
Qed.

Lemma fragments_nonempty m id : model_inv m → fragments_of id (live_mapping_space_ m) ≠ [] →
  is_Some (live_generations_ m !! id).
Proof.
  intros Hm Hne. destruct (fragments_of id (live_mapping_space_ m)) as [|x l] eqn:E; [done|].
  assert (Hx : x ∈ fragments_of id (live_mapping_space_ m)) by (rewrite E; by left).
  apply elem_fragments_of in Hx as (y & Hy & <- & _). by apply (mi_owned m Hm y).
Qed.

Lemma no_bytes_no_fragments id m : interval_wf (live_mapping_space_ m) →
  sum_bytes (fragments_of id (live_mapping_space_ m)) = 0 → fragments_of id (live_mapping_space_ m) = [].
Proof.
  intros Hm Hz. pose proof (fragments_of_wf id _ Hm) as Hw.
  destruct (fragments_of id (live_mapping_space_ m)) as [|x l]; [done|].
  apply wf_cons in Hw as ((? & ? & ?) & [Hl _] & _). pose proof (sum_bytes_nonneg l Hl).
  cbn in Hz. unfold interval_bytes in Hz. lia.
Qed.

(** ** The relation *)

(** The first identifier not used yet, and the cuts the tracker has still to see. *)
Record stage : Set := { unused : Z; pending : list (Z * (Z * Z)) }.

Definition cut (cs : list (Z * (Z * Z))) (id : Z) (live : IntervalSet Z) : IntervalSet Z :=
  foldr (λ c live, if c.1 =? id then remaining c.2.1 c.2.2 live else live) live cs.

Lemma cut_cons c cs id live : cut (c :: cs) id live =
  if c.1 =? id then remaining c.2.1 c.2.2 (cut cs id live) else cut cs id live.
Proof. done. Qed.

Definition generation_kind (g : LiveMappingGeneration) : GenerationKind :=
  if lg_section g then Kind_kMappedView else Kind_kVirtualAllocation.

Record follows (st : stage) (m : VmModel) (t : GenerationTracker) : Prop := {
  fo_inv : tracker_inv t;
  fo_live : ∀ id, cut (pending st) id (tracker_live t id) = fragments_of id (live_mapping_space_ m);
  fo_none : ∀ id, tracker_live t id = [] → tracker_kind t id = None;
  fo_kind : ∀ id g, live_generations_ m !! id = Some g →
    fragments_of id (live_mapping_space_ m) ≠ [] →
    tracker_kind t id = Some (generation_kind g, lg_base g);
  fo_seen : ∀ id, id ∈ seen_mapping_ids_ t → id < unused st;
  fo_hit : Forall (λ c, ∀ a, c.2.1 ≤ a < c.2.2 → is_live (tracker_live t c.1) a) (pending st);
}.

Lemma follows_new : follows {| unused := 1; pending := [] |} VmModel_new GenerationTracker_new.
Proof. split; cbn; try done; apply tracker_inv_new. Qed.

(** An event made of a planned record: [process_event] fills in the header. *)
Definition stamped (r : VmPlanRecord) (e : Event) : Prop :=
  EventHeader_wt (ev_header e) ∧ validate_header (ev_header e) = Ok tt ∧
  status (ev_header e) = vp_status r ∧ ev_payload e = vp_payload r.

Definition record_ok (r : VmPlanRecord) : Prop :=
  EventPayload_wt (vp_payload r) ∧ ∀ e, stamped r e → validate_event e = Ok tt.

(** What virtual memory events leave alone. *)
Definition same_heap (t t' : GenerationTracker) : Prop :=
  live_allocations_ t' = live_allocations_ t ∧ seen_allocation_ids_ t' = seen_allocation_ids_ t.

(** The records take a tracker in step with [m] to one in step with [m']. *)
Definition simulates (st : stage) (m : VmModel) (rs : list VmPlanRecord) (st' : stage)
    (m' : VmModel) : Prop :=
  Forall record_ok rs ∧
  ∀ t events, Forall2 stamped rs events → created_count_ t + size_of events ≤ u64_max →
    follows st m t → ∃ t', observe_all events t = (Ok tt, t') ∧ follows st' m' t' ∧
      same_heap t t' ∧ created_count_ t ≤ created_count_ t' ≤ created_count_ t + size_of events.

Lemma simulates_nil st m st' m' : (∀ t, follows st m t → follows st' m' t) →
  simulates st m [] st' m'.
Proof.
  intros H. split; [constructor|]. intros t events ->%Forall2_nil_inv_l _ Ht. exists t.
  split; [done|]. split; [by apply H|]. split; [done|]. unfold size_of. cbn. lia.
Qed.

Lemma observe_all_app es1 es2 t t1 : observe_all es1 t = (Ok tt, t1) →
  observe_all (es1 ++ es2) t = observe_all es2 t1.
Proof.
  revert t. induction es1 as [|e es1 IH]; intros t; cbn; [by intros [= ->]|].
  unfold mbind, proc_bind. destruct (observe e t) as [[[]|] t0]; [apply IH|done].
Qed.

Lemma simulates_app st1 m1 rs1 st2 m2 rs2 st3 m3 : simulates st1 m1 rs1 st2 m2 →
  simulates st2 m2 rs2 st3 m3 → simulates st1 m1 (rs1 ++ rs2) st3 m3.
Proof.
  intros [Hok1 H1] [Hok2 H2]. split; [by apply Forall_app|].
  intros t events (es1 & es2 & Hes1 & Hes2 & ->)%Forall2_app_inv_l Hroom Ht.
  rewrite size_of_app in *. pose proof (size_of_nonneg es2).
  destruct (H1 t es1 Hes1 ltac:(lia) Ht) as (t1 & Ho1 & Ht1 & [Ha1 Hb1] & Hc1).
  destruct (H2 t1 es2 Hes2 ltac:(lia) Ht1) as (t2 & Ho2 & Ht2 & [Ha2 Hb2] & Hc2).
  exists t2. rewrite (observe_all_app _ _ _ _ Ho1). split; [done|]. split; [done|].
  split; [split; congruence|lia].
Qed.

Lemma simulates_one st m r st' m' : record_ok r →
  (∀ t e, stamped r e → validate_event e = Ok tt → created_count_ t < u64_max → follows st m t →
     ∃ t', observe e t = (Ok tt, t') ∧ follows st' m' t' ∧ same_heap t t' ∧
       created_count_ t ≤ created_count_ t' ≤ created_count_ t + 1) →
  simulates st m [r] st' m'.
Proof.
  intros [Hwt Hok] H. split; [by repeat constructor|].
  intros t events (e & es & He & ->%Forall2_nil_inv_l & ->)%Forall2_cons_inv_l Hroom Ht.
  unfold size_of in *. cbn in Hroom.
  destruct (H t e He (Hok e He) ltac:(lia) Ht) as (t' & Ho & Ht' & Hh & Hc).
  exists t'. cbn. unfold mbind, proc_bind. rewrite Ho. split; [done|]. split; [done|].
  split; [done|lia].
Qed.

(** ** Pending cuts *)

Definition apart_from (b e : Z) (c : Z * (Z * Z)) : Prop :=
  c.2.1 < c.2.2 ∧ (c.2.2 ≤ b ∨ e ≤ c.2.1).

Lemma cut_wf cs id live : interval_wf live → interval_wf (cut cs id live).
Proof. intros H. induction cs as [|c cs IH]; [done|]. cbn. case_match; [by apply remaining_wf|done]. Qed.

Lemma cut_remaining cs id b e live : interval_wf live → b < e → Forall (apart_from b e) cs →
  cut cs id (remaining b e live) = remaining b e (cut cs id live).
Proof.
  intros Hwf Hbe. induction 1 as [|c cs [Hlt Hc] _ IH]; [done|].
  rewrite !cut_cons, IH. destruct (c.1 =? id); [|done]. pose proof (cut_wf cs id live Hwf).
  destruct Hc; [symmetry|]; by apply remaining_comm.
Qed.

Lemma cut_other cs id live : Forall (λ c, c.1 ≠ id) cs → cut cs id live = live.
Proof.
  induction 1 as [|c cs Hc _ IH]; [done|]. cbn. by rewrite (proj2 (Z.eqb_neq _ _)).
Qed.

Lemma cut_nil cs id : cut cs id [] = [].
Proof.
  induction cs as [|c cs IH]; [done|]. rewrite cut_cons, IH. case_match; [|done].
  unfold remaining. by case_match.
Qed.

(** What is left of the live fragments was live. *)
Lemma elem_cut cs id live x : x ∈ cut cs id live → ∃ y, y ∈ live ∧ y.1 ≤ x.1 ∧ x.2.1 ≤ y.2.1.
Proof.
  revert x. induction cs as [|c cs IH]; intros x; [intros; exists x; split_and!; done || lia|].
  rewrite cut_cons.
  destruct (c.1 =? id); [|apply IH]. intros (y & Hy & ? & ? & _)%elem_remaining.
  destruct (IH y Hy) as (z & ? & ? & ?). exists z. split_and!; done || lia.
Qed.

Lemma live_clip b e (live : IntervalSet Z) : interval_wf live → b < e →
  (∀ a, b ≤ a < e → is_live live a) → omap (clip b e) live ≠ [].
Proof.
  intros Hwf Hbe Hlive Hnil. rewrite clip_nil_iff in Hnil by done.
  destruct (Hlive b ltac:(lia)) as [v Hv]. rewrite Hnil in Hv by lia. done.
Qed.

(** ** One record *)

Section records.
Context (process : Z).
Hypothesis Hprocess : u64 process.

Lemma target_wt : ProcessTarget_wt (current_process_target process).
Proof using Hprocess. split; [cbn; word|done]. Qed.

Lemma validate_stamped r e : stamped r e →
  match vp_payload r with
  | VmAllocate a => validate_mapping_creation (ev_header e) (va_target a) (va_mapping_id a)
  | VmFree f => validate_mapping_end (ev_header e) (vf_target f) (vf_mapping_id f)
  | Map m => validate_mapping_creation (ev_header e) (mp_target m) (mp_mapping_id m)
  | Unmap u => validate_mapping_end (ev_header e) (um_target u) (um_mapping_id u)
  | _ => Throw (Exn InvalidArgument EmptyString)
  end = Ok tt → validate_event e = Ok tt.
Proof.
  intros (_ & Hh & _ & Hp) H. unfold validate_event. rewrite Hh, Hp.
  change (match vp_payload r with
  | HeapCreate p => validate_heap_create (ev_header e) p
  | HeapDestroy p => validate_heap_destroy (ev_header e) p
  | Allocation p => validate_allocation (ev_header e) p
  | Reallocation p => validate_reallocation (ev_header e) p
  | Free p => validate_free (ev_header e) p
  | VmAllocate p => validate_mapping_creation (ev_header e) (va_target p) (va_mapping_id p)
  | VmFree p => validate_mapping_end (ev_header e) (vf_target p) (vf_mapping_id p)
  | Map p => validate_mapping_creation (ev_header e) (mp_target p) (mp_mapping_id p)
  | Unmap p => validate_mapping_end (ev_header e) (um_target p) (um_mapping_id p)
  end = Ok tt). by destruct (vp_payload r).
Qed.

(** The two validity rules on records of the current process. *)
Lemma creation_valid h id :
  status h = Status_kSuccess ∧ id ≠ 0 ∨ status h = Status_kPreexisting ∧ id ≠ 0 ∨
  status h = Status_kFailure ∧ id = 0 →
  validate_mapping_creation h (current_process_target process) id = Ok tt.
Proof.
  unfold validate_mapping_creation, fail_if, throw_if, call_succeeded, status_is, scope_is. cbn.
  intros [[-> H]|[[-> H]|[-> ->]]]; try done; apply is_valid_true in H; by rewrite H.
Qed.

Lemma end_valid h id :
  status h = Status_kSuccess ∧ id ≠ 0 ∨
  (status h = Status_kPreexisting ∨ status h = Status_kUnmatched ∨ status h = Status_kFailure) ∧ id = 0 →
  validate_mapping_end h (current_process_target process) id = Ok tt.
Proof.
  unfold validate_mapping_end, fail_if, throw_if, call_succeeded, status_is, scope_is. cbn.
  intros [[-> H] | [[-> | [-> | ->]] ->]]; try done. apply is_valid_true in H. by rewrite H.
Qed.

Lemma free_record_ok id b size : u64 id → id ≠ 0 → u64 b → u64 size →
  record_ok (make_vm_free_record process id b size).
Proof using Hprocess.
  intros. split.
  - cbn. split_and!; try done; try word; cbn; unfold kVmFreeTypeRelease; word.
  - intros e He. apply (validate_stamped _ _ He). cbn. apply end_valid. left.
    split; [apply He|done].
Qed.

(** A release takes the first pending cut. *)
Lemma sim_free N Q m id b e : 1 ≤ id ≤ u64_max → 0 ≤ b → b < e → e ≤ u64_max →
  Forall (apart_from b e) Q →
  simulates {| unused := N; pending := (id, (b, e)) :: Q |} m
    [make_vm_free_record process id b (e - b)] {| unused := N; pending := Q |} m.
Proof using Hprocess.
  intros Hid Hb Hbe He HQ. apply simulates_one; [apply free_record_ok; word|].
  intros t ev (Hwt & Hh & Hs & Hp) Hv Hroom [Hinv Hlive Hnone Hkind Hseen Hhit]. cbn [pending unused] in *.
  apply Forall_cons in Hhit as [Hhere Hhit]. cbn in Hhere.
  assert (Hok : call_succeeded (status (ev_header ev)) = true) by by rewrite Hs.
  assert (Hvalid : is_valid id = true) by (apply is_valid_true; lia).
  pose proof (tracker_live_wf t id Hinv) as Hw.
  destruct (observe_release ev t Hv Hinv Hok _ b e Hp eq_refl eq_refl eq_refl Hvalid Hb Hbe He)
    as (t' & Hobs & [Sinv Slives Skinds Sheap Sseen Screated]); [by apply live_clip|].
  cbn [vf_mapping_id] in *. exists t'. split; [done|]. split; [|by split].
  split; cbn [pending unused].
  - done.
  - intros id'. rewrite Slives, <- Hlive, cut_cons. cbn [fst snd].
    case_decide as E; [subst id'; rewrite Z.eqb_refl; by apply cut_remaining|].
    by rewrite (proj2 (Z.eqb_neq _ _)).
  - intros id'. rewrite Slives, Skinds. case_decide; [|apply Hnone]. by intros ->.
  - intros id' g Hg Hne. rewrite Skinds. case_decide as E; [|by apply Hkind]. subst id'.
    destruct (empty_set _) eqn:Eempty; [|by apply Hkind]. exfalso. apply Hne.
    rewrite <- Hlive, cut_cons. cbn [fst snd]. rewrite Z.eqb_refl, <- cut_remaining by done.
    destruct (remaining b e _); [|done]. apply cut_nil.
  - intros id' Hid'. apply Sseen in Hid'. apply elem_of_union in Hid' as [->%elem_of_singleton|Hid'];
      [|by apply Hseen]. apply Hseen. destruct (Hhere b ltac:(lia)) as [v Hlive']. unfold tracker_live in Hlive'.
    destruct (om_find id (live_mappings_ t)) as [s|] eqn:Es; [|done].
    by destruct (ti_mappings t Hinv id s Es) as (_ & _ & ? & _).
  - rewrite Forall_forall in *. intros c Hc. rewrite Slives. case_decide as E; [|by apply Hhit].
    intros a Ha. apply is_live_remaining. destruct (HQ c Hc) as [Hlt Hapart]. split; [|lia].
    rewrite E. by apply (Hhit c Hc).
Qed.

(** The end of a whole view, whose fragments the model drops. *)
Lemma sim_unmap N Q m m' id g : live_generations_ m !! id = Some g → generation_ok m id g →
  lg_section g = true → u64 id → u64 (lg_base g) →
  fragments_of id (live_mapping_space_ m) ≠ [] → fragments_of id (live_mapping_space_ m') = [] →
  (∀ id', id' ≠ id → fragments_of id' (live_mapping_space_ m') = fragments_of id' (live_mapping_space_ m)) →
  (∀ id', id' ≠ id → live_generations_ m' !! id' = live_generations_ m !! id') →
  Forall (λ c, c.1 ≠ id) Q →
  simulates {| unused := N; pending := Q |} m [make_unmap_record process g]
    {| unused := N; pending := Q |} m'.
Proof using Hprocess.
  intros Hg [Hgid Hrange Hbase _ _] Hsec Hu Hub Hne Hgone Hothers Hgens HQ.
  apply simulates_one.
  { split; [cbn; rewrite Hgid; by split_and!; [apply target_wt|..]|].
    intros e He. apply (validate_stamped _ _ He). cbn. apply end_valid. left. split; [apply He|]. lia. }
  intros t ev (Hwt & Hh & Hs & Hp) Hv Hroom [Hinv Hlive Hnone Hkind Hseen Hhit]. cbn [pending unused] in *.
  assert (Hok : call_succeeded (status (ev_header ev)) = true) by by rewrite Hs.
  assert (Hvalid : is_valid (lg_mapping_id g) = true) by (apply is_valid_true; lia).
  pose proof (Hkind id g Hg Hne) as Hk. unfold generation_kind in Hk. rewrite Hsec in Hk.
  destruct (observe_whole_unmap ev t Hv Hinv Hok _ Hp Hvalid) as
    (t' & Hobs & [Sinv Slives Skinds Sheap Sseen Screated]); [cbn; by rewrite Hgid|].
  cbn [um_mapping_id] in *. rewrite Hgid in *.
  exists t'. split; [done|]. split; [|by split]. split; cbn [pending unused].
  - done.
  - intros id'. rewrite Slives. case_decide as E; [subst; by rewrite Hgone, cut_nil|].
    by rewrite Hothers.
  - intros id'. rewrite Slives, Skinds. case_decide; [done|apply Hnone].
  - intros id' g' Hg' Hne'. rewrite Skinds. case_decide as E; [by subst|].
    rewrite Hgens in Hg' by done. rewrite Hothers in Hne' by done. by apply Hkind.
  - intros id' Hid'. apply Sseen in Hid'. apply elem_of_union in Hid' as [->%elem_of_singleton|Hid'];
      [|by apply Hseen]. apply Hseen. unfold tracker_kind in Hk.
    destruct (om_find id (live_mappings_ t)) as [s|] eqn:Es; [|done].
    by destruct (ti_mappings t Hinv id s Es) as (_ & _ & ? & _).
  - rewrite Forall_forall in *. intros c Hc. rewrite Slives. rewrite decide_False; [by apply Hhit|].
    intros E. by apply (HQ c Hc).
Qed.

(** Records that concern no mapping. *)
Lemma sim_ignored st m r : record_ok r →
  match vp_payload r with VmAllocate _ | VmFree _ | Map _ => True | _ => False end →
  vp_status r = Status_kFailure ∨
    match vp_payload r with
    | VmAllocate a => va_mapping_id a = 0 | VmFree f => vf_mapping_id f = 0
    | Map m => mp_mapping_id m = 0 | _ => False
    end →
  simulates st m [r] st m.
Proof using.
  intros Hr Hvm Hno. apply simulates_one; [done|].
  intros t ev (Hwt & Hh & Hs & Hp) Hv Hroom Ht. exists t.
  split; [|split; [done|split; [done|lia]]].
  apply observe_ignored; [done| |by rewrite Hp].
  rewrite Hs, Hp. destruct Hno as [-> | Hno]; [by left|by right].
Qed.

(** ** Records that create *)

Definition creates (r : VmPlanRecord) (id : Z) (section : bool) (b e : Z) : Prop :=
  match vp_payload r with
  | VmAllocate a => section = false ∧ va_mapping_id a = id ∧ names_range a b e
  | Map v => section = true ∧ mp_mapping_id v = id ∧ mp_result_base v = b ∧ mp_view_size v = e - b ∧
      0 < b ∧ b < e ∧ e ≤ u64_max
  | _ => False
  end.

Definition trims (id : Z) (stale : list LiveFragment) : list (Z * (Z * Z)) :=
  (λ p, (id, (f_begin p, f_end p))) <$> stale.

Lemma cut_trims id stale live : cut (trims id stale) id live = cuts stale live.
Proof.
  induction stale as [|p stale IH]; [done|].
  change (trims id (p :: stale)) with ((id, (f_begin p, f_end p)) :: trims id stale).
  rewrite cut_cons, IH. cbn. by rewrite Z.eqb_refl.
Qed.

Lemma trims_other id id' stale : id' ≠ id → Forall (λ c, c.1 ≠ id') (trims id stale).
Proof. intros. apply Forall_fmap, Forall_true. by intros p. Qed.

Lemma is_live_fill b e (live : IntervalSet Z) a : interval_wf live → 0 ≤ b → e ≤ u64_max →
  is_live (fill b e 0 live) a ↔ b ≤ a < e ∨ is_live live a.
Proof. apply is_live_insert. Qed.

(** The claim is recorded: the tracker now holds all of [b, e), the stale parts too. *)
Lemma follows_claimed N N' id m m' t t' b e stale live kind : follows {| unused := N; pending := [] |} m t →
  mapping_step t t' id (fill b e 0 live) (Some kind) → N ≤ N' → id < N' →
  interval_wf live → 0 ≤ b → e ≤ u64_max →
  (live ≠ [] ∨ b < e) → stale_within e stale b →
  (∀ id', fragments_of id' (live_mapping_space_ m') = if id =? id' then cuts stale (fill b e 0 live)
     else fragments_of id' (live_mapping_space_ m)) →
  (∀ id', id' ≠ id → live_generations_ m' !! id' = live_generations_ m !! id') →
  (∀ g, live_generations_ m' !! id = Some g → kind = (generation_kind g, lg_base g)) →
  follows {| unused := N'; pending := trims id stale |} m' t'.
Proof using.
  intros [Hinv Hlive Hnone Hkind Hseen Hhit] [Sinv Slives Skinds Sheap Sseen Screated] HN HidN Hwf Hb He
    Hsome Hstale Hfrag Hgens Hgen. cbn [pending unused] in *. split; cbn [pending unused].
  - done.
  - intros id'. rewrite Slives, Hfrag. destruct (Z.eqb_spec id id') as [<-|Hne].
    + by rewrite decide_True, cut_trims.
    + rewrite decide_False, cut_other by (done || by apply trims_other). by rewrite <- Hlive.
  - intros id'. rewrite Slives, Skinds. case_decide; [|apply Hnone]. intros Hnil. exfalso.
    destruct Hsome as [Hne|Hlt].
    + destruct live as [|[xb [xe v]] l]; [done|].
      assert (Hl : is_live (fill b e 0 ((xb, (xe, v)) :: l)) xb).
      { apply is_live_fill; [done..|]. right. apply is_live_elem; [done|].
        exists (xb, (xe, v)). split; [by left|]. destruct Hwf as [[(_ & ? & _) _]%Forall_cons _]. split; cbn in *; lia. }
      rewrite Hnil in Hl. by destruct Hl.
    + assert (Hl : is_live (fill b e 0 live) b) by (apply is_live_fill; [done..|lia]).
      rewrite Hnil in Hl. by destruct Hl.
  - intros id' g Hg Hne. rewrite Skinds. case_decide as E; [subst; f_equal; by apply Hgen|].
    rewrite Hgens in Hg by congruence. rewrite Hfrag in Hne. rewrite (proj2 (Z.eqb_neq _ _)) in Hne by done.
    by apply Hkind.
  - intros id' Hid'. apply Sseen in Hid'. apply elem_of_union in Hid' as [->%elem_of_singleton|Hid']; [done|].
    specialize (Hseen id' Hid'). lia.
  - unfold trims. apply Forall_fmap, Forall_forall. intros p Hp a Ha. cbn in *.
    rewrite Slives, decide_True by done. apply stale_within_after in Hstale.
    rewrite Forall_forall in Hstale. destruct (Hstale p Hp). apply is_live_fill; [done..|]. left. lia.
Qed.

Lemma follows_unseen N Q m t : follows {| unused := N; pending := Q |} m t →
  (N ∉ seen_mapping_ids_ t) ∧ tracker_live t N = [].
Proof using.
  intros Ht. assert (N ∉ seen_mapping_ids_ t).
  { intros Hin. pose proof (fo_seen _ _ _ Ht N Hin). cbn in *. lia. }
  split; [done|]. unfold tracker_live. by rewrite unseen_mapping by (done || apply Ht).
Qed.

Lemma sim_create N m m' r section b e stale : record_ok r → creates r N section b e →
  vp_status r = Status_kSuccess ∨ vp_status r = Status_kPreexisting → N ≠ 0 →
  stale_within e stale b →
  (∀ id', fragments_of id' (live_mapping_space_ m') = if N =? id'
     then cuts stale (fill b e 0 (fragments_of N (live_mapping_space_ m)))
     else fragments_of id' (live_mapping_space_ m)) →
  (∀ id', id' ≠ N → live_generations_ m' !! id' = live_generations_ m !! id') →
  (∀ g, live_generations_ m' !! N = Some g → lg_section g = section ∧ lg_base g = b) →
  simulates {| unused := N; pending := [] |} m [r] {| unused := N + 1; pending := trims N stale |} m'.
Proof using.
  intros Hr Hcr Hst HN Hstale Hfrag Hgens Hgen. apply simulates_one; [done|].
  intros t ev (Hwt & Hh & Hs & Hp) Hv Hroom Ht. destruct (follows_unseen _ _ _ _ Ht) as [Hnew Hnil].
  assert (Hok : call_succeeded (status (ev_header ev)) = true) by (rewrite Hs; by destruct Hst as [-> | ->]).
  pose proof (fo_live _ _ _ Ht N) as Hlive. rewrite Hnil in Hlive. cbn in Hlive.
  assert (Hid : is_valid N = true) by by apply is_valid_true.
  pose proof (fo_inv _ _ _ Ht) as Hinv. rewrite <- Hlive in Hfrag. unfold creates in Hcr.
  assert (∃ t', observe ev t = (Ok tt, t') ∧ 0 < b ∧ b < e ∧ e ≤ u64_max ∧
    mapping_step t t' N (fill b e 0 []) (Some (if section then Kind_kMappedView else Kind_kVirtualAllocation, b)))
    as (t' & Hobs & H1 & H2 & H3 & Hstep).
  { destruct (vp_payload r) as [| | | | |a| |v|]; try done.
    - destruct Hcr as (-> & Hm & Hrange). pose proof Hrange as (_ & _ & ? & ? & ?).
      destruct (observe_new_allocation ev t Hv Hinv Hok a b e Hp Hroom) as (t' & ? & Hstep);
        rewrite ?Hm in *; try done. by exists t'.
    - destruct Hcr as (-> & Hm & Hb & Hsz & ? & ? & ?).
      destruct (observe_new_view ev t Hv Hinv Hok v b e Hp Hroom) as (t' & ? & Hstep);
        rewrite ?Hm in *; try done; try lia. by exists t'. }
  exists t'. split; [done|]. split; [|split; apply Hstep].
  eapply follows_claimed; [exact Ht|exact Hstep|lia..|apply wf_nil|lia|lia|lia|done|done|done|].
  intros g Hg. destruct (Hgen g Hg) as [<- <-]. done.
Qed.

Lemma sim_trims N id m stale b e : 1 ≤ id ≤ u64_max → 0 ≤ b → e ≤ u64_max → stale_within e stale b →
  simulates {| unused := N; pending := trims id stale |} m
    ((λ p, make_vm_free_record process id (f_begin p) (f_end p - f_begin p)) <$> stale)
    {| unused := N; pending := [] |} m.
Proof using Hprocess.
  intros Hid Hb He. revert b Hb. induction stale as [|p stale IH]; intros b Hb; [intros _; by apply simulates_nil|].
  intros (H1 & H2 & Hst). pose proof (stale_within_le _ _ _ Hst).
  change ((λ p, make_vm_free_record process id (f_begin p) (f_end p - f_begin p)) <$> (p :: stale)) with
    ([make_vm_free_record process id (f_begin p) (f_end p - f_begin p)] ++
     ((λ p, make_vm_free_record process id (f_begin p) (f_end p - f_begin p)) <$> stale)).
  eapply simulates_app; [|apply (IH (f_end p)); [lia|done]].
  apply sim_free; [done|lia..|]. apply Forall_fmap. apply stale_within_after in Hst.
  eapply Forall_impl; [exact Hst|]. intros q (? & ? & ?). split; cbn; lia.
Qed.

(** ** Records that resize *)

Definition resizes (r : VmPlanRecord) (id b e : Z) : Prop :=
  match vp_payload r with
  | VmAllocate a => va_mapping_id a = id ∧ names_range a b e
  | _ => False
  end.

Lemma live_run_unique live base stop stop' : live_run live base stop → live_run live base stop' →
  stop = stop'.
Proof using.
  intros (H1 & H2 & H3) (H1' & H2' & H3').
  destruct (Z.lt_trichotomy stop stop') as [|[|]]; [|done|].
  - destruct H2. apply H3'. lia.
  - destruct H2'. apply H3. lia.
Qed.

Lemma find_first_of_run (live : IntervalSet Z) b stop x : interval_wf live → x ∈ live → x.1 = b →
  live_run live b stop →
  ∃ f, find b live = Some f ∧ f_begin f = b ∧
    extend_run (S (length live)) (f_end f) live = Some stop.
Proof using.
  intros Hwf Hx Hb Hrun. pose proof Hwf as [Hp _]. rewrite Forall_forall in Hp.
  destruct (Hp x Hx) as (_ & ? & _).
  assert (Hfind : find b live = Some (fragment_at x)).
  { apply find_elem; [done..|]. split; lia. }
  destruct (run_from_fragment live b _ Hwf Hfind Hb) as (stop' & Hext & Hrun').
  exists (fragment_at x). split_and!; [done|done|]. by rewrite (live_run_unique _ _ _ _ Hrun Hrun').
Qed.

(** The end of an interval cut from the left side of a range. *)
Lemma elem_before_cut {T} lo hi (m : IntervalSet T) x : x ∈ remaining lo hi m → x.1 < lo →
  ∃ y, y ∈ m ∧ y.1 = x.1.
Proof using.
  unfold remaining. destruct (Z.leb_spec hi lo); [eauto|].
  intros (y & Hx & Hy)%list_elem_of_bind Hlt. exists y. split; [done|]. revert Hx. unfold outside.
  intros [Hx|Hx]%elem_of_app; case_match; try (by apply not_elem_of_nil in Hx);
    apply list_elem_of_singleton in Hx as ->; cbn in *; lia.
Qed.

Definition resizable (m : VmModel) (id b : Z) : Prop :=
  ∃ g, live_generations_ m !! id = Some g ∧ lg_section g = false ∧ lg_base g ≤ b ∧
    ∃ x, x ∈ fragments_of id (live_mapping_space_ m) ∧ x.1 = b.

Lemma resizable_kind st m t id b : follows st m t → resizable m id b →
  ∃ address, tracker_kind t id = Some (Kind_kVirtualAllocation, address) ∧ address ≤ b.
Proof using.
  intros Ht (g & Hg & Hsec & Hb & x & Hx & _). exists (lg_base g). split; [|done].
  assert (Hne : fragments_of id (live_mapping_space_ m) ≠ []).
  { intros E. rewrite E in Hx. by apply not_elem_of_nil in Hx. }
  rewrite (fo_kind _ _ _ Ht id g Hg Hne). unfold generation_kind. by rewrite Hsec.
Qed.

(** The record of a shrink takes the last pending cut, a resize to the same size nothing. *)
Lemma sim_shrink N m r id b e stop : record_ok r → resizes r id b e → vp_status r = Status_kSuccess →
  1 ≤ id → resizable m id b → e ≤ stop →
  (∀ a, b ≤ a < e → is_live (fragments_of id (live_mapping_space_ m)) a) →
  ¬ is_live (fragments_of id (live_mapping_space_ m)) stop → stop ≤ u64_max →
  simulates {| unused := N; pending := if e <? stop then [(id, (e, stop))] else [] |} m [r]
    {| unused := N; pending := [] |} m.
Proof using.
  intros Hr Hres Hst Hid Hable Hle Hlive0 Hend Hmax. apply simulates_one; [done|].
  intros t ev (Hwt & Hh & Hs & Hp) Hv Hroom Ht.
  destruct (resizable_kind _ _ _ _ _ Ht Hable) as (address & Hkind & Haddr).
  destruct Hable as (g & Hg & Hsec & Hb & x & Hx & Hxb).
  assert (Hok : call_succeeded (status (ev_header ev)) = true) by by rewrite Hs, Hst.
  unfold resizes in Hres. destruct (vp_payload r) as [| | | | |a| | |]; try done.
  destruct Hres as (Hm & Hrange). pose proof Hrange as (_ & _ & H0 & Hbe & He).
  assert (Hvalid : is_valid (va_mapping_id a) = true) by (apply is_valid_true; lia).
  pose proof (fo_inv _ _ _ Ht) as Hinv. pose proof (tracker_live_wf t id Hinv) as Hw.
  assert (Hcut : remaining e stop (tracker_live t id) = fragments_of id (live_mapping_space_ m)).
  { rewrite <- (fo_live _ _ _ Ht id). cbn [pending]. destruct (Z.ltb_spec e stop).
    - rewrite cut_cons. cbn. by rewrite Z.eqb_refl.
    - cbn. unfold remaining. by rewrite (proj2 (Z.leb_le _ _)). }
  assert (Hrun : live_run (tracker_live t id) b stop).
  { split; [lia|]. rewrite <- Hcut in Hlive0, Hend. split.
    - intros Hin. apply Hend, is_live_remaining. split; [done|lia].
    - intros y Hy. destruct (decide (y < e)) as [Hye|Hye].
      + assert (b ≤ y < e) as Hy' by lia. apply Hlive0, is_live_remaining in Hy'. by destruct Hy'.
      + pose proof (fo_hit _ _ _ Ht) as Hhit. cbn [pending] in Hhit.
        rewrite (proj2 (Z.ltb_lt e stop)) in Hhit by lia. apply Forall_cons in Hhit as [Hhit _].
        apply Hhit. cbn. lia. }
  destruct (elem_before_cut e stop (tracker_live t id) x) as (y & Hy & Hyb); [by rewrite Hcut|lia|].
  destruct (find_first_of_run _ b stop y Hw Hy ltac:(lia) Hrun) as (f & Hf & Hfb & Hext).
  destruct (observe_resize ev t Hv Hinv Hok a b e f stop address Hp Hvalid Hrange) as (t' & Hobs & Hstep);
    rewrite ?Hm in *; try done; try lia.
  rewrite (proj2 (Z.ltb_ge stop e)) in Hstep by lia. rewrite Hcut, Hkind in Hstep.
  exists t'. split; [done|]. split; [|split; apply Hstep].
  destruct Hstep as [Sinv Slives Skinds _ Sseen _]. destruct Ht as [_ Hl Hn Hk Hse Hh'].
  cbn [pending unused] in *. split; cbn [pending unused].
  - done.
  - intros id'. rewrite Slives. case_decide as E; [by subst|]. rewrite <- Hl.
    symmetry. destruct (e <? stop); [|done]. apply cut_other. repeat constructor. done.
  - intros id'. rewrite Slives, Skinds. case_decide; [|apply Hn]. intros E.
    rewrite E in Hx. by apply not_elem_of_nil in Hx.
  - intros id' g' Hg' Hne. rewrite Skinds. case_decide as E; [|by apply Hk]. subst id'.
    rewrite Hg in Hg'. injection Hg' as <-. rewrite <- Hkind. by apply Hk.
  - intros id' Hin. apply Sseen in Hin. apply elem_of_union in Hin as [->%elem_of_singleton|]; [|by apply Hse].
    apply Hse. unfold tracker_kind in Hkind.
    destruct (om_find id (live_mappings_ t)) as [s|] eqn:Es; [|done].
    by destruct (ti_mappings t Hinv id s Es) as (_ & _ & ? & _).
  - constructor.
Qed.

(** The record of a growth claims the range after the run. *)
Lemma sim_grow N m m' r id b e stop stale : record_ok r → resizes r id b e → vp_status r = Status_kSuccess →
  1 ≤ id < N → interval_wf (live_mapping_space_ m) → resizable m id b →
  live_run (fragments_of id (live_mapping_space_ m)) b stop → stop < e → stale_within e stale stop →
  omap (clip stop e) (fragments_of id (live_mapping_space_ m)) = [] →
  (∀ id', fragments_of id' (live_mapping_space_ m') = if id =? id'
     then cuts stale (fill stop e 0 (fragments_of id (live_mapping_space_ m)))
     else fragments_of id' (live_mapping_space_ m)) →
  (∀ id', id' ≠ id → live_generations_ m' !! id' = live_generations_ m !! id') →
  (∀ g g', live_generations_ m' !! id = Some g' → live_generations_ m !! id = Some g →
     lg_section g' = lg_section g ∧ lg_base g' = lg_base g) →
  simulates {| unused := N; pending := [] |} m [r] {| unused := N; pending := trims id stale |} m'.
Proof using.
  intros Hr Hres Hst Hid Hwf Hable Hrun Hlt Hstale Hfree Hfrag Hgens Hgen. apply simulates_one; [done|].
  intros t ev (Hwt & Hh & Hs & Hp) Hv Hroom Ht.
  destruct (resizable_kind _ _ _ _ _ Ht Hable) as (address & Hkind & Haddr).
  destruct Hable as (g & Hg & Hsec & Hb & x & Hx & Hxb).
  assert (Hok : call_succeeded (status (ev_header ev)) = true) by by rewrite Hs, Hst.
  unfold resizes in Hres. destruct (vp_payload r) as [| | | | |a| | |]; try done.
  destruct Hres as (Hm & Hrange). pose proof Hrange as (_ & _ & H0 & Hbe & He).
  assert (Hvalid : is_valid (va_mapping_id a) = true) by (apply is_valid_true; lia).
  pose proof (fo_inv _ _ _ Ht) as Hinv. pose proof (tracker_live_wf t id Hinv) as Hw.
  pose proof (fo_live _ _ _ Ht id) as Hlive. cbn in Hlive.
  pose proof Hrun as ((Hs1 & Hs2) & _). rewrite <- Hlive in *.
  destruct (find_first_of_run _ b stop x Hw Hx Hxb Hrun) as (f & Hf & Hfb & Hext).
  destruct (observe_resize ev t Hv Hinv Hok a b e f stop address Hp Hvalid Hrange) as (t' & Hobs & Hstep);
    rewrite ?Hm in *; try done; try lia.
  rewrite (proj2 (Z.ltb_lt stop e)), Hkind in Hstep by lia.
  exists t'. split; [done|]. split; [|split; apply Hstep].
  eapply follows_claimed; [exact Ht|exact Hstep|lia|lia|done|lia|lia| |done|exact Hfrag|done|].
  - left. intros E. rewrite E in Hx. by apply not_elem_of_nil in Hx.
  - intros g' Hg'. destruct (Hgen g g' Hg' Hg) as [Hsec' Hbase']. unfold generation_kind.
    rewrite Hsec', Hbase'. rewrite (fo_kind _ _ _ Ht id g Hg) in Hkind.
    + injection Hkind as _ ->. by rewrite Hsec.
    + rewrite <- Hlive. intros E. rewrite E in Hx. by apply not_elem_of_nil in Hx.
Qed.

End records.
