(* ===== verification/VmPlans.v ===== *)
(** * Plans that release

    [plan_subtract] of VmModel.v, from its inner loop outwards: it never throws, keeps
    the invariant of the model, takes exactly the older pieces of the range, and plans
    the records that make the tracker do the same. *)

From S2P Require Import Prelude OrderedMap IntervalSet WireFormat Event GenerationTracker TrackerInvariant TrackerTheorems HookRegistry RawEvents VmModel VmSpace VmTracker VmSimulation.

#[local] Arguments u64_max : simpl never.
#[local] Arguments fragments_of : simpl never.

(** ** Moving cuts *)

Lemma follows_ext st m m' t : live_mapping_space_ m' = live_mapping_space_ m →
  live_generations_ m' = live_generations_ m → follows st m t → follows st m' t.
Proof. intros Hs Hg []. split; rewrite ?Hs, ?Hg; done. Qed.

Lemma simulates_from_ext st m m' rs st2 m2 : live_mapping_space_ m' = live_mapping_space_ m →
  live_generations_ m' = live_generations_ m → simulates st m' rs st2 m2 → simulates st m rs st2 m2.
Proof.
  intros Hs Hg [Hok H]. split; [done|]. intros t es He Hr Ht. apply H; [done..|].
  by apply (follows_ext _ m).
Qed.

Lemma simulates_to_ext st m rs st2 m2 m' : live_mapping_space_ m' = live_mapping_space_ m2 →
  live_generations_ m' = live_generations_ m2 → simulates st m rs st2 m2 → simulates st m rs st2 m'.
Proof.
  intros Hs Hg [Hok H]. split; [done|]. intros t es He Hr Ht.
  destruct (H t es He Hr Ht) as (t' & Ho & Ht' & Hrest). exists t'. split; [done|].
  split; [by apply (follows_ext _ m2)|done].
Qed.

(** [same_model H]: what [H] says of models with the same space and generations. *)
Ltac same_model H :=
  eapply simulates_from_ext; cycle 2;
  [eapply simulates_to_ext; cycle 2; [exact H|reflexivity|reflexivity]|reflexivity|reflexivity].

(** The model takes a live range of a generation the tracker has still to see released. *)
Lemma follows_lag_range N Q m m' t id b e : follows {| unused := N; pending := Q |} m t →
  interval_wf (live_mapping_space_ m) →
  (∀ a, b ≤ a < e → is_live (fragments_of id (live_mapping_space_ m)) a) →
  (∀ id', fragments_of id' (live_mapping_space_ m') =
    if id =? id' then remaining b e (fragments_of id' (live_mapping_space_ m))
    else fragments_of id' (live_mapping_space_ m)) →
  (∀ id' g', live_generations_ m' !! id' = Some g' → ∃ g, live_generations_ m !! id' = Some g ∧
     lg_section g' = lg_section g ∧ lg_base g' = lg_base g) →
  follows {| unused := N; pending := (id, (b, e)) :: Q |} m' t.
Proof.
  intros [Hinv Hlive Hnone Hkind Hseen Hhit] Hwf Hrange Hfrag Hgens. cbn [pending unused] in *.
  split; cbn [pending unused]; try done.
  - intros id'. rewrite cut_cons, Hfrag, Hlive. cbn. by destruct (id =? id').
  - intros id' g' Hg' Hne. destruct (Hgens id' g' Hg') as (g & Hg & Hsec & Hb).
    unfold generation_kind. rewrite Hsec, Hb. apply Hkind; [done|]. intros E. apply Hne.
    rewrite Hfrag, E. destruct (id =? id'); [|done]. unfold remaining. by case_match.
  - constructor; [|done]. cbn. intros a Ha. apply Hrange in Ha. rewrite <- Hlive in Ha.
    apply is_live_elem in Ha as (x & (y & Hy & ? & ?)%elem_cut & ? & ?);
      [|by apply cut_wf, tracker_live_wf].
    apply is_live_elem; [by apply tracker_live_wf|]. exists y. split; [done|]. split; lia.
Qed.

Lemma follows_lag N Q m m' t id f : follows {| unused := N; pending := Q |} m t →
  interval_wf (live_mapping_space_ m) → piece_of (live_mapping_space_ m) f → piece_id f = id →
  live_mapping_space_ m' = remaining (f_begin f) (f_end f) (live_mapping_space_ m) →
  (∀ id' g', live_generations_ m' !! id' = Some g' → ∃ g, live_generations_ m !! id' = Some g ∧
     lg_section g' = lg_section g ∧ lg_base g' = lg_base g) →
  follows {| unused := N; pending := (id, (f_begin f, f_end f)) :: Q |} m' t.
Proof.
  intros Ht Hwf Hf Hid Hspace Hgens. eapply follows_lag_range; [exact Ht|done| | |done].
  - intros a Ha. apply is_live_elem; [by apply fragments_of_wf|].
    destruct Hf as (_ & x & Hx & H1 & H2 & Hv). exists (x.1, (x.2.1, 0)). split; [|split; cbn; lia].
    apply elem_fragments_of. exists x. split_and!; [done| |done]. by rewrite <- Hv.
  - intros id'. rewrite Hspace, fragments_of_take by done. by rewrite Hid.
Qed.

Lemma follows_swap N id b e lo hi Q m t : b < e → e ≤ lo → lo < hi →
  follows {| unused := N; pending := (id, (lo, hi)) :: (id, (b, e)) :: Q |} m t →
  follows {| unused := N; pending := (id, (b, e)) :: (id, (lo, hi)) :: Q |} m t.
Proof.
  intros Hbe Hel Hlh [Hinv Hlive Hnone Hkind Hseen Hhit]. cbn [pending unused] in *.
  split; cbn [pending unused]; try done.
  - intros id'. rewrite <- Hlive, !cut_cons. cbn. destruct (id =? id'); [|done].
    symmetry. apply remaining_comm; [done..|]. by apply cut_wf, tracker_live_wf.
  - apply Forall_cons in Hhit as [? [??]%Forall_cons]. by repeat constructor.
Qed.

Lemma follows_merge N id a b c Q m t : a < b → b < c →
  follows {| unused := N; pending := (id, (b, c)) :: (id, (a, b)) :: Q |} m t →
  follows {| unused := N; pending := (id, (a, c)) :: Q |} m t.
Proof.
  intros Hab Hbc [Hinv Hlive Hnone Hkind Hseen Hhit]. cbn [pending unused] in *.
  split; cbn [pending unused]; try done.
  - intros id'. rewrite <- Hlive, !cut_cons. cbn. destruct (id =? id'); [|done].
    symmetry. apply remaining_merge; [done..|]. by apply cut_wf, tracker_live_wf.
  - apply Forall_cons in Hhit as [H1 [H2 ?]%Forall_cons]. constructor; [|done]. cbn in *.
    intros x Hx. destruct (decide (x < b)); [apply H2; lia|apply H1; lia].
Qed.

Definition pend (id : Z) (run : Z * Z) (Q : list (Z * (Z * Z))) : list (Z * (Z * Z)) :=
  if run.1 =? run.2 then Q else (id, run) :: Q.

(** A run is empty, or what the loop has taken last. *)
Definition run_ok (B : Z) (run : Z * Z) : Prop :=
  run = (0, 0) ∨ (B ≤ run.1 ∧ run.1 < run.2 ∧ run.2 ≤ u64_max).

Definition before_all (B : Z) (Q : list (Z * (Z * Z))) : Prop :=
  Forall (λ c, c.2.1 < c.2.2 ∧ c.2.2 ≤ B) Q.

Lemma before_apart B Q b e : before_all B Q → B ≤ b → Forall (apart_from b e) Q.
Proof. intros H HB. eapply Forall_impl; [exact H|]. intros c (? & ?). split; [done|lia]. Qed.

Section plans.
Context (process : Z).
Hypothesis Hprocess : u64 process.

(** ** The records of a run *)

Definition pushed (rs : list VmPlanRecord) (m : VmModel) : VmModel := m <| plan := plan m ++ rs |>.

(** What [flush_run] pushes: nothing when the whole view ends. *)
Definition unless (whole : bool) (rs : list VmPlanRecord) : list VmPlanRecord :=
  if whole then [] else rs.

Lemma sim_flush N Q B m id run : 1 ≤ id ≤ u64_max → run_ok B run → 0 < B →
  (run.1 < run.2 → Forall (apart_from run.1 run.2) Q) →
  ∃ rs, (∀ whole, flush_run process whole id run m = (Ok tt, pushed (unless whole rs) m)) ∧
    simulates {| unused := N; pending := pend id run Q |} m rs {| unused := N; pending := Q |} m.
Proof using Hprocess.
  intros Hid Hrun HB HQ. destruct Hrun as [->|(H1 & H2 & H3)].
  - exists []. split; [|by apply simulates_nil]. intros whole. unfold flush_run, pushed, unless. cbn.
    rewrite andb_false_r. destruct m; cbn. unfold update. by destruct whole; cbn; rewrite app_nil_r.
  - exists [make_vm_free_record process id run.1 (run.2 - run.1)]. split.
    + intros [|]; unfold flush_run, pushed, unless; cbn [negb andb].
      * destruct m; cbn. unfold update. by rewrite app_nil_r.
      * rewrite (proj2 (Z.eqb_neq _ _)) by lia. cbn [negb]. rewrite wrap64_small by word. done.
    + unfold pend. rewrite (proj2 (Z.eqb_neq _ _)) by lia. destruct run as [b e]. cbn in *.
      apply sim_free; try done; try lia. by apply HQ.
Qed.

(** ** The pieces of one generation *)

Definition with_bytes (bytes : Z) (g : LiveMappingGeneration) : LiveMappingGeneration :=
  g <| lg_live_bytes := bytes |>.

(** The model with some of the space of one generation released. *)
Definition released (id : Z) (g : LiveMappingGeneration) (space : LiveMappingSpace) (m : VmModel)
    : VmModel :=
  m <| live_mapping_space_ := space |>
    <| live_generations_ := <[id := with_bytes (sum_bytes (fragments_of id space)) g]>
         (live_generations_ m) |>.

Lemma released_same id g m : model_inv m → live_generations_ m !! id = Some g →
  released id g (live_mapping_space_ m) m = m.
Proof using.
  intros Hm Hg. destruct (mi_generations m Hm id g Hg) as [_ _ _ Hb _].
  unfold released, with_bytes. rewrite <- Hb. destruct m as [s gs n p], g. cbn in *.
  unfold update. cbn. by rewrite insert_id.
Qed.

Lemma model_inv_released id g space m : model_inv m → live_generations_ m !! id = Some g →
  interval_wf space →
  (∀ x, x ∈ space → ∃ y, y ∈ live_mapping_space_ m ∧ y.1 ≤ x.1 ∧ x.2.1 ≤ y.2.1 ∧ x.2.2 = y.2.2) →
  (∀ id', id' ≠ id → fragments_of id' space = fragments_of id' (live_mapping_space_ m)) →
  model_inv (released id g space m).
Proof using.
  intros [Hwf Hown Hgens Hnext] Hg Hs Hsub Hothers. split; cbn.
  - done.
  - intros x (y & Hy & _ & _ & Hv)%Hsub. unfold owner_id. rewrite Hv. apply lookup_insert_is_Some'.
    right. by apply Hown.
  - intros id' g' Hg'. destruct (decide (id' = id)) as [->|Hne].
    + rewrite lookup_insert_eq in Hg'. injection Hg' as <-.
      destruct (Hgens id g Hg) as [G1 G2 G3 G4 G5]. split; cbn; try done.
      intros x (y & Hy & ? & _ & Hv)%Hsub Hid. unfold owner_id in Hid. rewrite Hv in Hid |- *.
      destruct (G5 y Hy Hid). split; [lia|done].
    + rewrite lookup_insert_ne in Hg' by done. destruct (Hgens id' g' Hg') as [G1 G2 G3 G4 G5].
      split; cbn; try done; [by rewrite Hothers|].
      intros x (y & Hy & ? & _ & Hv)%Hsub Hid. unfold owner_id in Hid. rewrite Hv in Hid |- *.
      destruct (G5 y Hy Hid). split; [lia|done].
  - done.
Qed.

(** One piece, taken. *)
Lemma take_piece m id g f : model_inv m → live_generations_ m !! id = Some g →
  piece_of (live_mapping_space_ m) f → piece_id f = id →
  let m' := released id g (remaining (f_begin f) (f_end f) (live_mapping_space_ m)) m in
  model_inv m' ∧
  (subtract_space (f_begin f) (f_end f) ;; change_generation id (subtract_bytes (piece_size f))) m =
    (Ok tt, m') ∧
  ∀ N Q t, follows {| unused := N; pending := Q |} m t →
    follows {| unused := N; pending := (id, (f_begin f, f_end f)) :: Q |} m' t.
Proof using.
  intros Hm Hg Hf Hid m'. pose proof (mi_space m Hm) as Hwf.
  assert (Hothers : ∀ id', id' ≠ id → fragments_of id' (live_mapping_space_ m') =
    fragments_of id' (live_mapping_space_ m)).
  { intros id' Hne. cbn. rewrite fragments_of_take by done. rewrite Hid. by rewrite (proj2 (Z.eqb_neq _ _)). }
  split; [|split].
  - apply model_inv_released; try done; [by apply remaining_wf|].
    intros x (y & Hy & ? & ? & ?)%elem_remaining. by exists y.
  - unfold subtract_space, change_generation, referred. unfold mbind, proc_bind, get_state, modify, mret, proc_ret.
    cbn. rewrite subtract_spec by done. cbn. rewrite Hg. cbn. unfold m', released, with_bytes, subtract_bytes.
    destruct (mi_generations m Hm id g Hg) as [_ _ _ Hb _].
    assert (Hsum : wrap64 (lg_live_bytes g - piece_size f) =
      sum_bytes (fragments_of id (remaining (f_begin f) (f_end f) (live_mapping_space_ m)))).
    { pose proof (sum_bytes_take id _ f Hwf Hf) as E. rewrite (proj2 (Z.eqb_eq _ _)) in E by done.
      rewrite (piece_size_small _ f Hwf Hf), Hb.
      destruct (total_bytes_spec _ (fragments_of_wf id _ (remaining_wf (f_begin f) (f_end f) _ Hwf))) as [_ ?].
      rewrite wrap64_small; [lia|word]. }
    rewrite Hsum. destruct m. done.
  - intros N Q t Ht. eapply follows_lag; [exact Ht|done|done|done|done|].
    intros id' g' Hg'. cbn in Hg'. destruct (decide (id' = id)) as [->|Hne].
    + rewrite lookup_insert_eq in Hg'. injection Hg' as <-. by exists g.
    + rewrite lookup_insert_ne in Hg' by done. by exists g'.
Qed.


Lemma released_again id g s1 s2 m : released id (with_bytes (sum_bytes (fragments_of id s1)) g) s2
  (released id g s1 m) = released id g s2 m.
Proof using.
  unfold released, with_bytes. destruct m as [s gs n p], g. unfold update. cbn. by rewrite insert_insert_eq.
Qed.

Lemma released_found id g s m : live_generations_ (released id g s m) !! id =
  Some (with_bytes (sum_bytes (fragments_of id s)) g).
Proof using. cbn. by rewrite lookup_insert_eq. Qed.

Lemma pushed_released id g s rs m : released id g s (pushed rs m) = pushed rs (released id g s m).
Proof using. by destruct m. Qed.

Lemma pushed_pushed r1 r2 m : pushed r2 (pushed r1 m) = pushed (r1 ++ r2) m.
Proof using. destruct m. unfold pushed, update. cbn. by rewrite app_assoc. Qed.

Lemma pushed_nil m : pushed [] m = m.
Proof using. destruct m. unfold pushed, update. cbn. by rewrite app_nil_r. Qed.

Lemma model_inv_pushed rs m : model_inv m ↔ model_inv (pushed rs m).
Proof using. split; intros [H1 H2 H3 H4]; (split; [done..| |done]); intros id g Hg;
  destruct (H3 id g Hg); by split. Qed.

Lemma pushed_if (whole : bool) r1 r2 m : pushed (unless whole r2) (pushed (unless whole r1) m) =
  pushed (unless whole (r1 ++ r2)) m.
Proof using. destruct whole; by rewrite pushed_pushed. Qed.

Lemma take_then {A} (k : planning A) m id m' f :
  (subtract_space (f_begin f) (f_end f) ;; change_generation id (subtract_bytes (piece_size f))) m =
    (Ok tt, m') →
  (subtract_space (f_begin f) (f_end f) ;; change_generation id (subtract_bytes (piece_size f)) ;; k) m =
    k m'.
Proof using.
  intros H. unfold mbind, proc_bind in *. destruct (subtract_space _ _ m) as [[l|] m1]; [|done].
  by rewrite H.
Qed.

Lemma release_pieces_run whole N Q B seq id pieces : ∀ run m g,
  model_inv m → live_generations_ m !! id = Some g → pieces_of (live_mapping_space_ m) pieces →
  Forall (λ f, piece_id f = id) pieces → Forall (λ f, B ≤ f_begin f) pieces →
  0 < B → before_all B Q → run_ok B run → Forall (λ f, run.2 ≤ f_begin f) pieces →
  let m' := released id g (release_space seq pieces (live_mapping_space_ m)) m in
  model_inv m' ∧ ∃ rs,
    release_pieces process whole id id seq pieces run m = (Ok tt, pushed (unless whole rs) m') ∧
    simulates {| unused := N; pending := pend id run Q |} m rs {| unused := N; pending := Q |} m'.
Proof using Hprocess.
  induction pieces as [|f pieces IH]; intros run m g Hm Hg Hps Hids HBs HB HQ Hrun Hle;
    destruct (mi_generations m Hm id g Hg) as [_ Hidr _ _ _]; pose proof (mi_next m Hm) as Hnext;
    assert (Hapart : run.1 < run.2 → Forall (apart_from run.1 run.2) Q)
      by (intros ?; apply (before_apart B); [done|]; destruct Hrun as [->|]; cbn in *; lia).
  { cbn [release_space foldl]. rewrite released_same by done. split; [done|].
    destruct (sim_flush N Q B m id run ltac:(lia) Hrun HB Hapart) as (rs & Hflush & Hsim).
    exists rs. split; [apply Hflush|done]. }
  apply Forall_cons in Hids as [Hid Hids]. apply Forall_cons in HBs as [HBf HBs].
  apply Forall_cons in Hle as [Hlef Hle]. pose proof Hps as (Hf & Hfs & Hps').
  destruct (sim_flush N Q B m id run ltac:(lia) Hrun HB Hapart) as (rs0 & Hflush & Hsim0).
  assert (Hzero : Forall (λ f, (0, 0).2 ≤ f_begin f) pieces).
  { eapply Forall_impl; [exact HBs|]. cbn. lia. }
  assert (Hf1 : 1 ≤ f_begin f) by lia. pose proof (mi_space m Hm) as Hwf.
  destruct (piece_of_bounds _ f Hwf Hf) as (_ & Hfne & Hfmax).
  cbn [release_pieces]. rewrite release_space_cons. unfold release_piece. destruct (newer seq f).
  - destruct (IH (0, 0) (pushed (unless whole rs0) m) g) as (Hm' & rs & Hrel & Hsim); try done;
      [by apply model_inv_pushed|by left|].
    rewrite pushed_released in Hrel, Hm'. cbn [pushed live_mapping_space_] in Hm', Hrel, Hsim.
    split; [by apply model_inv_pushed in Hm'|]. exists (rs0 ++ rs). split.
    + erewrite proc_bind_run; [|apply Hflush]. rewrite Hrel. by rewrite pushed_if.
    + eapply simulates_app; [exact Hsim0|].
      same_model Hsim.
  - destruct (take_piece m id g f Hm Hg Hf Hid) as (Hm1 & Htake & Hlag).
    set (s1 := remaining (f_begin f) (f_end f) (live_mapping_space_ m)) in *.
    set (m1 := released id g s1 m) in *. rewrite (take_then _ _ _ _ _ Htake).
    pose proof (released_found id g s1 m) as Hg1. fold m1 in Hg1.
    assert (Hps1 : pieces_of s1 pieces).
    { eapply pieces_of_after; [|exact Hfs|exact Hps']. intros h Hh ?. by apply piece_of_remaining. }
    assert (Hrun' : run_ok B (f_begin f, f_end f)) by (right; cbn; lia).
    destruct (Z.eqb_spec (f_begin f) run.2) as [Hadj|Hadj].
    + assert (Hne : run.1 < run.2) by (destruct Hrun as [->|]; [cbn in *; lia|lia]).
      destruct (IH (run.1, f_end f) m1 (with_bytes (sum_bytes (fragments_of id s1)) g))
        as (Hm' & rs & Hrel & Hsim); try done; [right; cbn; destruct Hrun as [->|]; cbn in *; lia|].
      unfold m1 in Hm', Hrel, Hsim. rewrite released_again in Hm', Hrel, Hsim.
      cbn [released live_mapping_space_] in Hm', Hrel, Hsim. split; [done|]. exists rs. split; [done|].
      eapply (simulates_app _ _ []); [|exact Hsim]. apply simulates_nil. intros t Ht.
      unfold pend in Ht |- *. cbn [fst snd]. rewrite (proj2 (Z.eqb_neq _ _)) in Ht by lia.
      rewrite (proj2 (Z.eqb_neq _ _)) by lia. destruct run as [b e]. cbn in *. subst e.
      apply (follows_merge _ _ _ (f_begin f)); [lia|lia|]. by apply Hlag.
    + destruct (sim_flush N ((id, (f_begin f, f_end f)) :: Q) B m1 id run) as (rs1 & Hflush1 & Hsim1);
        [lia|done|done| |].
      { intros Hne. constructor; [|by apply Hapart]. split; cbn; lia. }
      destruct (IH (f_begin f, f_end f) (pushed (unless whole rs1) m1)
        (with_bytes (sum_bytes (fragments_of id s1)) g)) as (Hm' & rs & Hrel & Hsim); try done.
      { by apply model_inv_pushed. }
      subst m1. rewrite pushed_released in Hrel, Hm', Hsim.
      rewrite !released_again in Hm', Hrel, Hsim. apply model_inv_pushed in Hm'.
      split; [done|]. exists (rs1 ++ rs). split.
      * erewrite proc_bind_run; [|apply Hflush1]. rewrite Hrel. by rewrite pushed_if.
      * eapply (simulates_app _ m [] _ (released id g s1 m)); [|eapply simulates_app; [exact Hsim1|]].
        -- apply simulates_nil. intros t Ht. unfold pend in Ht |- *.
           destruct (Z.eqb_spec run.1 run.2); [by apply Hlag|].
           destruct run as [b e]. apply follows_swap; cbn in *; [| |done|by apply Hlag];
             destruct Hrun as [[= -> ->]|Hrun]; cbn in *; lia.
        -- unfold pend in Hsim. cbn [fst snd] in Hsim. rewrite (proj2 (Z.eqb_neq _ _)) in Hsim by lia.
           same_model Hsim.
Qed.

(** ** One generation of a range *)

(** What a release may do to the generations: lose bytes, or go. *)
Definition shrunk (m m' : VmModel) : Prop :=
  ∀ id g', live_generations_ m' !! id = Some g' →
    ∃ g, live_generations_ m !! id = Some g ∧ g' = with_bytes (lg_live_bytes g') g.

Lemma shrunk_refl m : shrunk m m.
Proof using. intros id g Hg. exists g. split; [done|]. by destruct g. Qed.

Lemma shrunk_trans m1 m2 m3 : shrunk m1 m2 → shrunk m2 m3 → shrunk m1 m3.
Proof using.
  intros H12 H23 id g3 Hg3. destruct (H23 id g3 Hg3) as (g2 & Hg2 & E3).
  destruct (H12 id g2 Hg2) as (g1 & Hg1 & E2). exists g1. split; [done|].
  rewrite E3, E2. by destruct g1.
Qed.

(** The outcome of a release that was in step. *)
Record subtracted (N : Z) (Q : list (Z * (Z * Z))) (seq : Z) (pieces : list LiveFragment)
    (m m' : VmModel) : Prop := {
  su_inv : model_inv m';
  su_settled : settled m → settled m';
  su_space : live_mapping_space_ m' = release_space seq pieces (live_mapping_space_ m);
  su_next : next_mapping_id_ m' = next_mapping_id_ m;
  su_shrunk : shrunk m m';
  su_plan : ∃ rs, plan m' = plan m ++ rs ∧
    simulates {| unused := N; pending := Q |} m rs {| unused := N; pending := Q |} m';
}.

Lemma older_zero seq id m pieces : pieces_of m pieces → Forall (λ f, piece_id f = id) pieces →
  older_bytes seq id pieces = 0 → release_space seq pieces m = m.
Proof using.
  revert m. induction pieces as [|f pieces IH]; [done|]. intros m Hps [Hid Hids]%Forall_cons Hz.
  pose proof Hps as ((Hne & _) & _ & Hps'). pose proof (older_bytes_nonneg seq id m pieces Hps') as Hnn.
  cbn [older_bytes foldr] in Hz. fold (older_bytes seq id pieces) in Hz.
  rewrite release_space_cons. unfold release_piece. destruct (newer seq f); [by apply IH|].
  rewrite (proj2 (Z.eqb_eq _ _)) in Hz by done. lia.
Qed.

Lemma referred_run id g m : live_generations_ m !! id = Some g → referred id m = (Ok g, m).
Proof using. intros Hg. unfold referred. unfold mbind, proc_bind, get_state. by rewrite Hg. Qed.

(** The model without a generation that has no bytes. *)
Definition dropped (id : Z) (m : VmModel) : VmModel :=
  m <| live_generations_ := delete id (live_generations_ m) |>.

Lemma model_inv_dropped id m : model_inv m → fragments_of id (live_mapping_space_ m) = [] →
  model_inv (dropped id m).
Proof using.
  intros [Hwf Hown Hgens Hnext] Hnil. split; cbn; try done.
  - intros x Hx. apply lookup_delete_is_Some. split; [|by apply Hown]. intros E.
    assert (Hin : (x.1, (x.2.1, 0)) ∈ fragments_of id (live_mapping_space_ m)).
    { apply elem_fragments_of. by exists x. }
    rewrite Hnil in Hin. by apply not_elem_of_nil in Hin.
  - intros id' g Hg. apply lookup_delete_Some in Hg as [_ Hg]. destruct (Hgens id' g Hg). by split.
Qed.

Lemma follows_dropped st id m t : fragments_of id (live_mapping_space_ m) = [] →
  follows st m t → follows st (dropped id m) t.
Proof using.
  intros Hnil [H1 H2 H3 H4 H5 H6]. split; try done. intros id' g Hg Hne. cbn in Hg.
  apply lookup_delete_Some in Hg as [? Hg]. by apply H4.
Qed.

(** Generations with a fragment before the range keep it. *)
Definition anchored (m : LiveMappingSpace) (B id : Z) : Prop :=
  ∃ x, x ∈ m ∧ owner_id x = id ∧ x.2.1 ≤ B.

Lemma anchored_release seq pieces B id : ∀ m, interval_wf m → Forall (λ f, B ≤ f_begin f) pieces →
  anchored m B id → anchored (release_space seq pieces m) B id.
Proof using.
  intros m Hwf Hps (x & Hx & Hid & Hle). exists x. split; [|done]. apply untouched_release; [done..|].
  eapply Forall_impl; [exact Hps|]. cbn. lia.
Qed.

Lemma anchored_nonempty m B id : anchored m B id → fragments_of id m ≠ [].
Proof using.
  intros (x & Hx & Hid & _) E. assert (Hin : (x.1, (x.2.1, 0)) ∈ fragments_of id m).
  { apply elem_fragments_of. by exists x. }
  rewrite E in Hin. by apply not_elem_of_nil in Hin.
Qed.

Definition range_hyps (Q : list (Z * (Z * Z))) (B : Z) (m : VmModel) (pieces : list LiveFragment) : Prop :=
  model_inv m ∧ pieces_of (live_mapping_space_ m) pieces ∧ Forall (λ f, B ≤ f_begin f) pieces ∧
  0 < B ∧ before_all B Q ∧ Forall (λ c, anchored (live_mapping_space_ m) B c.1) Q.

Lemma settled_released id g s m : settled m → sum_bytes (fragments_of id s) ≠ 0 →
  settled (released id g s m).
Proof using.
  intros Hset Hne id' g' Hg'. cbn in Hg'. destruct (decide (id' = id)) as [->|].
  - rewrite lookup_insert_eq in Hg'. by injection Hg' as <-.
  - rewrite lookup_insert_ne in Hg' by done. by eapply Hset.
Qed.

Lemma settled_dropped id g s m : settled m → settled (dropped id (released id g s m)).
Proof using.
  intros Hset id' g' Hg'. cbn in Hg'. apply lookup_delete_Some in Hg' as [? Hg'].
  rewrite lookup_insert_ne in Hg' by done. by eapply Hset.
Qed.

Lemma shrunk_released id g s m : live_generations_ m !! id = Some g → shrunk m (released id g s m).
Proof using.
  intros Hg id' g' Hg'. cbn in Hg'. destruct (decide (id' = id)) as [->|].
  - rewrite lookup_insert_eq in Hg'. injection Hg' as <-. exists g. split; [done|]. by destruct g.
  - rewrite lookup_insert_ne in Hg' by done. exists g'. split; [done|]. by destruct g'.
Qed.

Lemma plan_group_run N Q B seq id pieces m : range_hyps Q B m pieces → pieces ≠ [] →
  Forall (λ f, piece_id f = id) pieces →
  ∃ m', plan_group process seq (id, pieces) m = (Ok tt, m') ∧ subtracted N Q seq pieces m m'.
Proof using Hprocess.
  intros (Hm & Hps & HBs & HB & HQ & Hanch) Hne Hids. pose proof (mi_space m Hm) as Hwf.
  assert (is_Some (live_generations_ m !! id)) as [g Hg].
  { destruct pieces as [|f pieces]; [done|]. destruct Hps as ((_ & x & Hx & _ & _ & Hv) & _).
    apply Forall_cons in Hids as [<- _]. unfold piece_id. rewrite Hv. by apply (mi_owned m Hm x). }
  destruct (mi_generations m Hm id g Hg) as [Hgid Hidr Hbase Hbytes _].
  destruct (matched_bytes_spec seq id _ pieces Hwf Hps Hids) as [Hmatched Hbound].
  pose proof (sum_bytes_release seq id _ _ Hwf Hps) as Hsum. pose proof (mi_next m Hm) as Hnext.
  unfold plan_group, generation_for. unfold mbind at 1, proc_bind at 1. cbn [get_state].
  unfold mbind at 1, proc_bind at 1, get_state. rewrite Hg. cbn [mret proc_ret].
  unfold mret, proc_ret. rewrite Hmatched, Hgid. destruct (Z.eqb_spec (older_bytes seq id pieces) 0) as [Hz|Hz].
  { exists m. split; [done|]. split; try done.
    - by rewrite (older_zero seq id).
    - apply shrunk_refl.
    - exists []. rewrite app_nil_r. split; [done|]. by apply simulates_nil. }
  set (whole := lg_section g && (older_bytes seq id pieces =? lg_live_bytes g)).
  set (s' := release_space seq pieces (live_mapping_space_ m)) in *.
  assert (Hgone : ∀ rs, older_bytes seq id pieces = lg_live_bytes g →
    fragments_of id (live_mapping_space_ (released id g s' (pushed rs m))) = []).
  { intros rs Heq. apply no_bytes_no_fragments; [by apply release_space_wf|]. cbn. lia. }
  assert (Hothers : ∀ id', id' ≠ id → fragments_of id' s' = fragments_of id' (live_mapping_space_ m)).
  { intros id' Hne'. apply fragments_of_release; [done..|]. eapply Forall_impl; [exact Hids|].
    cbn. congruence. }
  assert (Hrun0 : run_ok B (0, 0)) by by left.
  assert (Hle0 : Forall (λ f, (0, 0).2 ≤ f_begin f) pieces).
  { eapply Forall_impl; [exact HBs|]. cbn. lia. }
  set (head := unless (negb whole) [make_unmap_record process g]).
  assert (Hhead : (if whole then push_record (make_unmap_record process g) else mret tt) m =
    (Ok tt, pushed head m)).
  { unfold head. destruct whole; [done|]. cbn. unfold mret, proc_ret. by rewrite pushed_nil. }
  destruct (release_pieces_run whole N Q B seq id pieces (0, 0) (pushed head m) g)
    as (Hm' & rs & Hrel & Hsim); try done; [by apply model_inv_pushed|].
  change (live_mapping_space_ (pushed head m)) with (live_mapping_space_ m) in *. fold s' in Hm', Hrel, Hsim.
  set (m1 := pushed (unless whole rs) (released id g s' (pushed head m))) in *.
  assert (Hm1 : model_inv m1) by by apply model_inv_pushed.
  assert (Hg1 : live_generations_ m1 !! id = Some (with_bytes (sum_bytes (fragments_of id s')) g)).
  { apply released_found. }
  erewrite proc_bind_run; [|exact Hhead]. erewrite proc_bind_run; [|exact Hrel].
  erewrite proc_bind_run; [|by apply referred_run].
  change (lg_live_bytes (with_bytes (sum_bytes (fragments_of id s')) g)) with (sum_bytes (fragments_of id s')).
  assert (Hshrunk : shrunk m m1) by exact (shrunk_released id g s' m Hg).
  assert (Hplan : plan m1 = plan m ++ (head ++ unless whole rs)) by apply eq_sym, app_assoc.
  destruct (Z.eqb_spec (sum_bytes (fragments_of id s')) 0) as [Hzero|Hnz].
  - pose proof (no_bytes_no_fragments id m1 (release_space_wf seq pieces _ Hwf) Hzero) as Hnil.
    exists (dropped id m1). split; [done|]. split.
    + by apply model_inv_dropped.
    + exact (settled_dropped id g s' m).
    + done.
    + done.
    + intros id' g' Hg'. cbn in Hg'. apply lookup_delete_Some in Hg' as [_ Hg']. by apply Hshrunk.
    + exists (head ++ unless whole rs). split; [done|]. unfold head. destruct whole eqn:Ew; cbn [negb unless app].
      * apply andb_prop in Ew as [Hsec Ew]. apply (sim_unmap _ Hprocess _ _ _ _ id); try done; try (unfold u64; unfold u64_max in *; lia).
        -- by apply (mi_generations m Hm).
        -- intros E. rewrite E in Hsum. cbn in Hsum. lia.
        -- intros id' Hne'. cbn. rewrite lookup_delete_ne, lookup_insert_ne by done. done.
        -- rewrite Forall_forall in Hanch. apply Forall_forall. intros c Hc E.
           apply (anchored_nonempty s' B id); [|done]. rewrite <- E. by apply anchored_release, Hanch.
      * destruct Hsim as [Hok H]. split; [done|]. intros t es He Hr Ht.
        destruct (H t es He Hr) as (t' & Ho & Ht' & Hrest); [eapply follows_ext; [..|exact Ht]; done|].
        exists t'. split; [done|]. split; [|done]. apply follows_dropped; [done|].
        eapply follows_ext; [..|exact Ht']; done.
  - exists m1. split; [done|]. assert (Ew : whole = false).
    { unfold whole. apply andb_false_iff. right. apply Z.eqb_neq. lia. }
    split; try done.
    + intros Hset. by apply (settled_released id g s' m).
    + exists (head ++ unless whole rs). split; [done|]. unfold head. rewrite Ew. cbn [negb unless app].
      same_model Hsim.
Qed.

(** ** A range *)

Lemma pieces_of_app m p q : pieces_of m (p ++ q) ↔
  pieces_of m p ∧ pieces_of m q ∧ Forall (λ f, Forall (λ g, f_end f ≤ f_begin g) q) p.
Proof using.
  induction p as [|f p IH]; cbn [app pieces_of]; [split; [intros H; split; [done|split; [done|constructor]]|tauto]|].
  rewrite IH, Forall_app, Forall_cons. tauto.
Qed.

Lemma release_space_app seq p q m :
  release_space seq (p ++ q) m = release_space seq q (release_space seq p m).
Proof using. apply foldl_app. Qed.

Lemma pieces_of_release seq p q : ∀ m, pieces_of m (p ++ q) → pieces_of (release_space seq p m) q.
Proof using.
  induction p as [|f p IH]; [done|]. intros m Hps. rewrite release_space_cons.
  apply IH. by apply pieces_of_tail.
Qed.

Lemma subtracted_trans N Q seq p q m1 m2 m3 : subtracted N Q seq p m1 m2 →
  subtracted N Q seq q m2 m3 → subtracted N Q seq (p ++ q) m1 m3.
Proof using.
  intros [A1 A2 A3 A4 A5 (rs1 & A6 & A7)] [B1 B2 B3 B4 B5 (rs2 & B6 & B7)]. split.
  - done.
  - auto.
  - by rewrite release_space_app, <- A3.
  - congruence.
  - by eapply shrunk_trans.
  - exists (rs1 ++ rs2). split; [by rewrite B6, A6, app_assoc|by eapply simulates_app].
Qed.

Lemma group_pieces_spec pieces : concat (group_pieces pieces).*2 = pieces ∧
  Forall (λ g, g.2 ≠ [] ∧ Forall (λ f, piece_id f = g.1) g.2) (group_pieces pieces).
Proof using.
  induction pieces as [|f pieces [IH1 IH2]]; [done|]. cbn [group_pieces].
  destruct (group_pieces pieces) as [|[id group] groups].
  - cbn in *. subst pieces. split; [done|]. repeat constructor. done.
  - apply Forall_cons in IH2 as [[Hne Hids] IH2]. cbn in *.
    destruct (Z.eqb_spec id (piece_id f)) as [E|E]; cbn; rewrite IH1; (split; [done|]).
    + constructor; [|done]. split; [done|]. by constructor.
    + repeat constructor; done.
Qed.

Lemma plan_groups_run N Q B seq groups : ∀ m, range_hyps Q B m (concat groups.*2) →
  Forall (λ g, g.2 ≠ [] ∧ Forall (λ f, piece_id f = g.1) g.2) groups →
  ∃ m', plan_groups process seq groups m = (Ok tt, m') ∧ subtracted N Q seq (concat groups.*2) m m'.
Proof using Hprocess.
  induction groups as [|[id pieces] groups IH]; intros m (Hm & Hps & HBs & HB & HQ & Hanch) Hgroups.
  - exists m. split; [done|]. cbn. split; try done; [apply shrunk_refl|].
    exists []. rewrite app_nil_r. split; [done|]. by apply simulates_nil.
  - apply Forall_cons in Hgroups as [[Hne Hids] Hgroups]. cbn [fst snd fmap list_fmap concat] in *.
    pose proof Hps as (Hps1 & Hps2 & _)%pieces_of_app. apply Forall_app in HBs as [HBs1 HBs2].
    destruct (plan_group_run N Q B seq id pieces m) as (m1 & Hrun & Hsub); [by split_and!|done..|].
    pose proof Hsub as [Hm1 _ Hspace _ _ _].
    destruct (IH m1) as (m2 & Hruns & Hsubs); [|done|].
    + split_and!; try done; rewrite Hspace; [by apply pieces_of_release|].
      eapply Forall_impl; [exact Hanch|]. intros c Hc. apply anchored_release; [apply Hm|done|done].
    + exists m2. split; [|by eapply subtracted_trans].
      cbn [plan_groups]. by erewrite proc_bind_run.
Qed.

(** The release of a range, with cuts pending before it. *)
Lemma plan_subtract_run N Q b e seq m : model_inv m → 0 < b → before_all b Q →
  Forall (λ c, anchored (live_mapping_space_ m) b c.1) Q →
  ∃ m', plan_subtract process b e seq m = (Ok tt, m') ∧
    subtracted N Q seq (omap (clip b e) (live_mapping_space_ m)) m m'.
Proof using Hprocess.
  intros Hm Hb HQ Hanch. pose proof (mi_space m Hm) as Hwf.
  assert (plan_subtract process b e seq m =
    plan_groups process seq (group_pieces (omap (clip b e) (live_mapping_space_ m))) m) as ->.
  { unfold plan_subtract, mbind, proc_bind, get_state. by rewrite intersections_spec. }
  destruct (group_pieces_spec (omap (clip b e) (live_mapping_space_ m))) as [Hconcat Hgroups].
  destruct (plan_groups_run N Q b seq (group_pieces (omap (clip b e) (live_mapping_space_ m))) m) as (m' & Hrun & Hsub); [|exact Hgroups|].
  - rewrite Hconcat. split_and!; try done; [by apply pieces_of_clip|].
    eapply Forall_impl; [apply clip_within|]. by intros f [? _].
  - exists m'. by rewrite Hconcat in Hsub.
Qed.

End plans.
