(* ===== verification/VmCreate.v ===== *)
(** * Plans that claim

    [plan_create_space] and [create_generation] of VmModel.v: the claimed range is
    released first, then filled but for what newer calls hold of it, and the records
    make the tracker do the same: one creation, then a free record for each part
    that was never the call's to keep. *)

From S2P Require Import Prelude OrderedMap IntervalSet WireFormat Event GenerationTracker TrackerInvariant TrackerTheorems HookRegistry RawEvents VmModel VmSpace VmTracker VmSimulation VmPlans.

#[local] Arguments u64_max : simpl never.
#[local] Arguments fragments_of : simpl never.

(** ** Filling a range *)

Definition with_space (space : LiveMappingSpace) (m : VmModel) : VmModel :=
  m <| live_mapping_space_ := space |>.

Lemma claimed_bytes_range e stale cursor : stale_within e stale cursor →
  0 ≤ claimed_bytes e stale cursor ≤ e - cursor.
Proof.
  revert cursor. induction stale as [|p stale IH]; cbn; intros cursor; [lia|].
  intros (? & ? & H). specialize (IH _ H). pose proof (stale_within_le _ _ _ H). lia.
Qed.

Lemma insert_space_run b e owner m :
  insert_space b e owner m = (Ok tt, with_space (fill b e owner (live_mapping_space_ m)) m).
Proof. done. Qed.

Lemma insert_owned_run owner e stale : ∀ cursor owned m, stale_within e stale cursor →
  0 ≤ cursor → e ≤ u64_max → 0 ≤ owned → owned + (e - cursor) ≤ u64_max →
  insert_owned owner e stale cursor owned m =
    (Ok (owned + claimed_bytes e stale cursor),
     with_space (claim_space owner e stale cursor (live_mapping_space_ m)) m).
Proof.
  induction stale as [|p stale IH]; intros cursor owned m; cbn [insert_owned claim_space claimed_bytes].
  - cbn [stale_within]. intros Hle H0 He Hown Hroom. destruct (Z.ltb_spec cursor e).
    + erewrite proc_bind_run; [|apply insert_space_run].
      rewrite (wrap64_small (e - cursor)), wrap64_small by word. done.
    + rewrite fill_empty by done. replace (e - cursor) with 0 by lia. rewrite Z.add_0_r. by destruct m.
  - intros (H1 & H2 & Hst) H0 He Hown Hroom. pose proof (stale_within_le _ _ _ Hst).
    destruct (Z.ltb_spec cursor (f_begin p)).
    + erewrite proc_bind_run; [|apply insert_space_run].
      rewrite (wrap64_small (f_begin p - cursor)), wrap64_small by word.
      rewrite IH by (done || lia). cbn. by rewrite Z.add_assoc.
    + rewrite fill_empty, IH by (done || lia). replace (f_begin p - cursor) with 0 by lia. by destruct m.
Qed.

(** What the owner had in the range is older, so it is gone. *)
Lemma own_range_free seq b e id m : interval_wf m →
  (∀ x, x ∈ m → owner_id x = id → fo_sequence x.2.2 < seq) →
  omap (clip b e) (fragments_of id (release_space seq (omap (clip b e) m) m)) = [].
Proof.
  intros Hm Hold. set (s := release_space seq _ m).
  assert (Hs : interval_wf s) by by apply release_space_wf.
  apply clip_nil_iff; [by apply fragments_of_wf|]. intros a Ha.
  destruct (value_at a (fragments_of id s)) as [v|] eqn:E; [|done]. exfalso.
  apply value_at_elem in E as (x & (y & Hy & Hid & ->)%elem_fragments_of & Hc & _).
  assert (Hval : is_Some (value_at a s)).
  { exists y.2.2. apply list_elem_of_split in Hy as (p & q & Epq). rewrite Epq in Hs |- *.
    apply value_at_mid; [done|]. destruct Hc. by split. }
  destruct (live_after_release seq b e m a Hm Ha Hval) as (f & Hf & Hfa).
  apply list_elem_of_In, filter_In in Hf as [Hf Hnew]. apply list_elem_of_In in Hf.
  destruct (elem_release_space seq _ m y Hy) as (z & Hz & Hz1 & Hz2 & Hzv).
  apply list_elem_of_omap in Hf as (w & Hw & Ew). destruct (clip_piece _ _ _ _ Ew) as (_ & ? & ? & Hv & _).
  assert (Hzw : z = w).
  { apply (wf_unique m a); try done; split; destruct Hc; cbn in *; lia. }
  subst w. unfold newer in Hnew. rewrite Hv in Hnew. apply Z.leb_le in Hnew.
  assert (fo_sequence z.2.2 < seq); [|lia]. apply Hold; [done|]. unfold owner_id. by rewrite <- Hzv.
Qed.

Definition stale_of (seq b e : Z) (m : LiveMappingSpace) : list LiveFragment :=
  List.filter (newer seq) (omap (clip b e) m).

Section create.
Context (process : Z).
Hypothesis Hprocess : u64 process.

(** [plan_create_space]: a release of the range, then the claim. *)
Lemma plan_create_space_run N b e seq id m : model_inv m → 0 < b → b ≤ e → e ≤ u64_max →
  (∀ x, x ∈ live_mapping_space_ m → owner_id x = id → fo_sequence x.2.2 < seq) →
  let owner := {| fo_mapping_id := id; fo_sequence := seq |} in
  let stale := stale_of seq b e (live_mapping_space_ m) in
  ∃ m1, subtracted N [] seq (omap (clip b e) (live_mapping_space_ m)) m m1 ∧
    stale_within e stale b ∧
    omap (clip b e) (fragments_of id (live_mapping_space_ m1)) = [] ∧
    claimed owner e stale b (live_mapping_space_ m1) (claim_space owner e stale b (live_mapping_space_ m1)) ∧
    plan_create_space process b e seq id m =
      (Ok {| owned_bytes := claimed_bytes e stale b; stale := stale |},
       with_space (claim_space owner e stale b (live_mapping_space_ m1)) m1).
Proof using Hprocess.
  intros Hm Hb Hbe He Hold owner stale. pose proof (mi_space m Hm) as Hwf.
  destruct (plan_subtract_run process Hprocess N [] b e seq m Hm Hb) as (m1 & Hrun & Hsub); [constructor..|].
  exists m1. pose proof (su_space _ _ _ _ _ _ Hsub) as Hspace.
  assert (Hstale : stale_within e stale b).
  { eapply stale_within_filter; [lia|by apply pieces_of_clip|apply clip_within]. }
  assert (Hfree : omap (clip b e) (fragments_of id (live_mapping_space_ m1)) = []).
  { rewrite Hspace. by apply own_range_free. }
  split; [done|]. split; [done|]. split; [done|]. split.
  - apply claim_space_spec; try done; try lia; [apply (su_inv _ _ _ _ _ _ Hsub)|].
    intros a Ha Hlive. rewrite Hspace in Hlive. by apply live_after_release.
  - assert (plan_create_space process b e seq id m = (plan_subtract process b e seq ;;
      owned ← insert_owned owner e stale b 0; mret {| owned_bytes := owned; stale := stale |}) m) as ->.
    { unfold plan_create_space. unfold mbind at 1, proc_bind at 1, get_state.
      by rewrite intersections_spec by done. }
    erewrite proc_bind_run; [|exact Hrun]. erewrite proc_bind_run; [|apply insert_owned_run; done || lia].
    done.
Qed.

Lemma push_records_run rs : ∀ m, push_records rs m = (Ok tt, pushed rs m).
Proof using.
  induction rs as [|r rs IH]; intros m; cbn [push_records]; [by rewrite pushed_nil|].
  erewrite proc_bind_run; [|done]. rewrite IH. change (m <| plan := plan m ++ [r] |>) with (pushed [r] m).
  by rewrite pushed_pushed.
Qed.

(** The trim records, without the wrap-around of their sizes. *)
Lemma trim_records id e stale cursor : 0 ≤ cursor → e ≤ u64_max → stale_within e stale cursor →
  trim_record process id <$> stale =
  (λ p, make_vm_free_record process id (f_begin p) (f_end p - f_begin p)) <$> stale.
Proof using.
  intros H0 He Hst%stale_within_after. induction Hst as [|p stale (? & ? & ?) _ IH]; [done|].
  rewrite !fmap_cons, IH. unfold trim_record, piece_size. by rewrite wrap64_small by word.
Qed.

(** ** The plan of a call, so far *)

Record stepped (m : VmModel) (rs : list VmPlanRecord) (m' : VmModel) : Prop := {
  sp_inv : model_inv m';
  sp_settled : settled m';
  sp_plan : plan m' = plan m ++ rs;
  sp_next : next_mapping_id_ m ≤ next_mapping_id_ m' ≤ next_mapping_id_ m + 1;
  sp_simulates : simulates {| unused := next_mapping_id_ m; pending := [] |} m rs
    {| unused := next_mapping_id_ m'; pending := [] |} m';
}.

Lemma stepped_app m1 rs1 m2 rs2 m3 : next_mapping_id_ m2 = next_mapping_id_ m1 →
  stepped m1 rs1 m2 → stepped m2 rs2 m3 → stepped m1 (rs1 ++ rs2) m3.
Proof using.
  intros Hn [A1 A2 A3 A4 A5] [B1 B2 B3 B4 B5]. split; [done|done| |lia|by eapply simulates_app].
  by rewrite B3, A3, app_assoc.
Qed.

Lemma stepped_subtracted seq pieces m m' : settled m →
  (∀ N, subtracted N [] seq pieces m m') →
  next_mapping_id_ m' = next_mapping_id_ m ∧ ∃ rs, stepped m rs m'.
Proof using.
  intros Hset H. destruct (H (next_mapping_id_ m)) as [A1 A2 A3 A4 A5 (rs & A6 & A7)].
  split; [done|]. exists rs. split; [done|auto|done|lia|]. by rewrite A4.
Qed.

Lemma settled_pushed rs m : settled m → settled (pushed rs m).
Proof using. done. Qed.

Lemma stepped_ignored m r : model_inv m → settled m → record_ok r →
  match vp_payload r with VmAllocate _ | VmFree _ | Map _ => True | _ => False end →
  vp_status r = Status_kFailure ∨
    match vp_payload r with
    | VmAllocate a => va_mapping_id a = 0 | VmFree f => vf_mapping_id f = 0
    | Map m => mp_mapping_id m = 0 | _ => False
    end → stepped m [r] (pushed [r] m).
Proof using.
  intros Hm Hset Hr Hvm Hno. split; [by apply (proj1 (model_inv_pushed [r] m))|done|done|cbn; lia|].
  apply (simulates_to_ext _ m _ _ m); [done|done|]. by apply sim_ignored.
Qed.

(** ** A new generation *)

Lemma no_own_fragments m id : model_inv m → live_generations_ m !! id = None →
  fragments_of id (live_mapping_space_ m) = [] ∧
  ∀ x, x ∈ live_mapping_space_ m → owner_id x ≠ id.
Proof using.
  intros Hm Hnone. assert (H : ∀ x, x ∈ live_mapping_space_ m → owner_id x ≠ id).
  { intros x Hx E. destruct (mi_owned m Hm x Hx) as [g Hg]. rewrite E, Hnone in Hg. done. }
  split; [|done]. destruct (fragments_of id (live_mapping_space_ m)) as [|x l] eqn:E; [done|].
  assert (Hx : x ∈ fragments_of id (live_mapping_space_ m)) by (rewrite E; by left).
  apply elem_fragments_of in Hx as (y & Hy & Hid & _). by destruct (H y Hy).
Qed.

Lemma unused_id m : model_inv m → live_generations_ m !! next_mapping_id_ m = None.
Proof using.
  intros Hm. destruct (live_generations_ m !! next_mapping_id_ m) as [g|] eqn:E; [|done].
  destruct (mi_generations m Hm _ g E) as [_ H _ _ _]. lia.
Qed.

Definition new_generation (id base owned seq : Z) (section : bool) : LiveMappingGeneration :=
  {| lg_mapping_id := id; lg_base := base; lg_live_bytes := owned; lg_last_sequence := seq;
     lg_section := section |}.

(** The model once the claim is tracked. *)
Definition claimed_model (id base owned seq : Z) (section : bool) (space : LiveMappingSpace) (m : VmModel)
    : VmModel :=
  m <| live_mapping_space_ := space |>
    <| live_generations_ := if owned =? 0 then live_generations_ m
         else <[id := new_generation id base owned seq section]> (live_generations_ m) |>.

Lemma model_inv_claimed m id base e seq section stale space : model_inv m →
  live_generations_ m !! id = None → 1 ≤ id < next_mapping_id_ m → 0 < base → base ≤ e → e ≤ u64_max →
  stale_within e stale base →
  claimed {| fo_mapping_id := id; fo_sequence := seq |} e stale base (live_mapping_space_ m) space →
  let m' := claimed_model id base (claimed_bytes e stale base) seq section space m in
  model_inv m' ∧ (settled m → settled m').
Proof using.
  intros Hm Hnone Hid Hbase Hbe He Hst [C1 C2 C3 C4] m'. cbn [fo_mapping_id] in *.
  destruct (no_own_fragments m id Hm Hnone) as [Hnil Hown]. rewrite Hnil in C4. cbn in C4.
  pose proof (claimed_bytes_range _ _ _ Hst) as Hrange.
  assert (Hempty : claimed_bytes e stale base = 0 → ∀ x, x ∈ space → owner_id x ≠ id).
  { intros Hz x Hx E. assert (Hf : (x.1, (x.2.1, 0)) ∈ fragments_of id space).
    { apply elem_fragments_of. by exists x. }
    pose proof (no_bytes_no_fragments id (with_space space m)) as Hno. cbn in Hno.
    rewrite Hno in Hf by (done || lia). by apply not_elem_of_nil in Hf. }
  assert (Hold : ∀ x, x ∈ space → owner_id x ≠ id → x ∈ live_mapping_space_ m).
  { intros x [Hx|[Hx _]]%C3 Hne; [done|]. destruct Hne. unfold owner_id. by rewrite Hx. }
  assert (Hother : ∀ id' g, id' ≠ id → live_generations_ m !! id' = Some g → generation_ok m' id' g).
  { intros id' g Hne Hg. destruct (mi_generations m Hm id' g Hg) as [G1 G2 G3 G4 G5].
    split; [done|done|done| |].
    - cbn. rewrite C2. by rewrite (proj2 (Z.eqb_neq _ _)) by done.
    - intros x Hx E. apply G5; [|done]. apply Hold; [done|congruence]. }
  unfold m', claimed_model. destruct (Z.eqb_spec (claimed_bytes e stale base) 0) as [Hz|Hz].
  - split; [|done]. split; cbn; [done| |intros id' g Hg|apply Hm].
    + intros x Hx. apply (mi_owned m Hm). apply Hold; [done|]. by apply Hempty.
    + specialize (Hother id' g ltac:(congruence) Hg). destruct Hother. split; done.
  - split.
    + split; cbn; [done| | |apply Hm].
      * intros x Hx. destruct (decide (owner_id x = id)) as [->|Hne]; [by rewrite lookup_insert_eq|].
        rewrite lookup_insert_ne by done. apply (mi_owned m Hm). by apply Hold.
      * intros id' g Hg. destruct (decide (id' = id)) as [->|Hne].
        -- rewrite lookup_insert_eq in Hg. injection Hg as <-. split; cbn; try done; [lia|].
           intros x [Hx|[Hx Hb]]%C3 E; [by destruct (Hown x Hx)|]. rewrite Hx. cbn. lia.
        -- rewrite lookup_insert_ne in Hg by done. destruct (Hother id' g Hne Hg). split; done.
    + intros Hset id' g Hg. cbn in Hg. destruct (decide (id' = id)) as [->|Hne].
      * rewrite lookup_insert_eq in Hg. by injection Hg as <-.
      * rewrite lookup_insert_ne in Hg by done. by eapply Hset.
Qed.


Lemma track_generation_run id base owned seq section space m :
  live_generations_ m !! id = None → ∀ rs,
  track_generation id base owned seq section (pushed rs (with_space space m)) =
    (Ok tt, pushed rs (claimed_model id base owned seq section space m)).
Proof using.
  intros Hnone rs. unfold track_generation, claimed_model. destruct (owned =? 0).
  - by destruct m.
  - unfold modify. cbn. by rewrite Hnone.
Qed.

Lemma next_mapping_id_run m : next_mapping_id_ m ≠ u64_max →
  next_mapping_id m = (Ok (next_mapping_id_ m), m <| next_mapping_id_ := next_mapping_id_ m + 1 |>).
Proof using. intros H. unfold next_mapping_id, mbind, proc_bind, get_state. by rewrite (proj2 (Z.eqb_neq _ _)). Qed.

(** The record of a creation, whatever the identifier. *)
Definition creating (record : Z → VmPlanRecord) (section : bool) (b e : Z) : Prop :=
  ∀ id, 1 ≤ id ≤ u64_max → record_ok (record id) ∧ creates (record id) id section b e ∧
    (vp_status (record id) = Status_kSuccess ∨ vp_status (record id) = Status_kPreexisting).

Lemma model_inv_next m : model_inv m → next_mapping_id_ m ≠ u64_max →
  model_inv (m <| next_mapping_id_ := next_mapping_id_ m + 1 |>).
Proof using.
  intros [H1 H2 H3 H4] Hne. split; cbn; [done|done| |lia].
  intros id g Hg. destruct (H3 id g Hg) as [G1 G2 G3 G4 G5]. split; cbn; done || lia.
Qed.

Lemma shrunk_none m m' id : shrunk m m' → live_generations_ m !! id = None →
  live_generations_ m' !! id = None.
Proof using.
  intros H Hnone. destruct (live_generations_ m' !! id) as [g|] eqn:E; [|done].
  destruct (H id g E) as (g' & Hg' & _). congruence.
Qed.

Lemma create_generation_run base size seq section record m : model_inv m → settled m →
  next_mapping_id_ m ≠ u64_max → 0 < base → 0 < size → base + size ≤ u64_max →
  creating record section base (base + size) →
  ∃ m' rs, create_generation process base size seq section record m = (Ok tt, m') ∧
    stepped m rs m' ∧ rs ≠ [] ∧
    let e := base + size in
    live_mapping_space_ m' = claim_space {| fo_mapping_id := next_mapping_id_ m; fo_sequence := seq |} e
      (stale_of seq base e (live_mapping_space_ m)) base
      (release_space seq (omap (clip base e) (live_mapping_space_ m)) (live_mapping_space_ m)).
Proof using Hprocess.
  intros Hm Hset Hnext Hb Hsize He Hrec. set (N := next_mapping_id_ m). set (e := base + size).
  pose proof (mi_next m Hm) as HN. fold N in HN, Hnext.
  set (m0 := m <| next_mapping_id_ := N + 1 |>).
  assert (Hm0 : model_inv m0) by by apply model_inv_next.
  assert (Hnone0 : live_generations_ m0 !! N = None) by exact (unused_id m Hm).
  destruct (plan_create_space_run N base e seq N m0 Hm0) as (m1 & Hsub & Hst & Hfree & Hclaim & Hrun);
    try (unfold e; lia).
  { intros x Hx E. by destruct (no_own_fragments m0 N Hm0 Hnone0) as [_ H]; destruct (H x Hx). }
  set (stale := stale_of seq base e (live_mapping_space_ m0)) in *.
  set (space := claim_space _ e stale base (live_mapping_space_ m1)) in *.
  destruct Hsub as [S1 S2 S3 S4 S5 (rs1 & S6 & S7)].
  assert (Hnone1 : live_generations_ m1 !! N = None) by by apply (shrunk_none m0).
  destruct (model_inv_claimed m1 N base e seq section stale space S1 Hnone1) as [Hm2 Hset2];
    try done; try (unfold e; lia); [rewrite S4; cbn; lia|].
  destruct (Hrec N ltac:(lia)) as (Hok & Hcr & Hstatus).
  set (m2 := claimed_model N base (claimed_bytes e stale base) seq section space m1) in *.
  exists (pushed (record N :: (trim_record process N <$> stale)) m2),
    (rs1 ++ record N :: (trim_record process N <$> stale)).
  split; [|split; [|split; [by destruct rs1|cbv zeta]]].
  - unfold create_generation. erewrite proc_bind_run; [|by apply next_mapping_id_run].
    fold N m0. rewrite wrap64_small by (unfold e in *; word). fold e.
    erewrite proc_bind_run; [|exact Hrun]. erewrite proc_bind_run; [|done].
    cbn [owned_bytes VmModel.stale].
    erewrite proc_bind_run; [|by apply (track_generation_run _ _ _ _ _ _ _ Hnone1 [_])].
    unfold append_trim_records. rewrite push_records_run. by rewrite pushed_pushed.
  - split.
    + by apply (proj1 (model_inv_pushed _ m2)).
    + by apply Hset2, S2.
    + cbn. by rewrite S6, app_assoc.
    + change (next_mapping_id_ (pushed _ m2)) with (next_mapping_id_ m1). rewrite S4. cbn. lia.
    + assert (Hnext2 : next_mapping_id_ m2 = N + 1) by exact S4.
      change (next_mapping_id_ (pushed _ m2)) with (next_mapping_id_ m2). rewrite Hnext2.
      apply (simulates_from_ext _ m m0); [done|done|].
      eapply simulates_app; [exact S7|]. apply (simulates_to_ext _ _ _ _ m2); [done..|].
      apply (simulates_app _ _ [_] {| unused := N + 1; pending := trims N stale |} m2).
      * apply (sim_create _ _ _ _ section base e stale Hok Hcr Hstatus); [lia|done| | |].
        -- intros id'. change (live_mapping_space_ m2) with space. rewrite (cl_fragments _ _ _ _ _ _ Hclaim).
           cbn [fo_mapping_id]. destruct (Z.eqb_spec N id') as [E|]; [by rewrite <- E|done].
        -- intros id' Hne. unfold m2, claimed_model. cbn. case_match; [done|]. by rewrite lookup_insert_ne.
        -- intros g Hg. unfold m2, claimed_model in Hg. cbn in Hg. case_match; [by rewrite Hnone1 in Hg|].
           rewrite lookup_insert_eq in Hg. by injection Hg as <-.
      * rewrite (trim_records N e stale base) by (done || lia). apply (sim_trims _ Hprocess _ _ _ _ base e); done || lia.
  - change (live_mapping_space_ (pushed _ m2)) with space. unfold space. by rewrite S3.
Qed.

End create.
