(* ===== verification/VmRemap.v ===== *)
(** * Plans that resize

    [plan_mremap_resize] of VmModel.v: the run of fragments that starts at the old
    address grows at its end, loses its tail, or keeps its size when a later call has
    resized it already. *)

From S2P Require Import Prelude WireFormat Event OrderedMap IntervalSet GenerationTracker TrackerInvariant TrackerTheorems HookRegistry RawEvents VmModel VmSpace VmTracker VmSimulation VmPlans VmCreate.

#[local] Arguments u64_max : simpl never.
#[local] Arguments fragments_of : simpl never.

(** ** Runs and releases *)

(** A generation that can be resized at [b], whose run of fragments ends at [stop]. *)
Record run_at (m : VmModel) (id b stop : Z) : Prop := {
  ra_resizable : resizable m id b;
  ra_run : live_run (fragments_of id (live_mapping_space_ m)) b stop;
}.

(** The fragments that start in a run end in it. *)
Lemma run_bounds (live : IntervalSet Z) b stop x : interval_wf live → live_run live b stop →
  x ∈ live → x.1 < stop → x.2.1 ≤ stop.
Proof.
  intros Hwf (_ & Hstop & _) Hx Hlt. destruct (Z.le_gt_cases x.2.1 stop) as [|Hgt]; [done|].
  destruct Hstop. apply is_live_elem; [done|]. exists x. split; [done|]. split; lia.
Qed.

Lemma is_live_released seq pieces id m a : interval_wf m →
  is_live (fragments_of id (release_space seq pieces m)) a → is_live (fragments_of id m) a.
Proof.
  intros Hm. rewrite !is_live_elem by (apply fragments_of_wf; done || by apply release_space_wf).
  intros (x & (y & Hy & Hid & ->)%elem_fragments_of & Hc1 & Hc2).
  destruct (elem_release_space _ _ _ _ Hy) as (z & Hz & ? & ? & Hv). cbn in *.
  exists (z.1, (z.2.1, 0)). split; [|split; cbn; lia].
  apply elem_fragments_of. exists z. by rewrite <- Hv.
Qed.

Lemma fragment_released seq pieces id m stop x : interval_wf m → Forall (λ f, stop ≤ f_begin f) pieces →
  x ∈ fragments_of id m → x.2.1 ≤ stop → x ∈ fragments_of id (release_space seq pieces m).
Proof.
  intros Hm Hps (y & Hy & Hid & ->)%elem_fragments_of Hle. apply elem_fragments_of. exists y.
  split; [|done]. apply untouched_release; [done..|]. eapply Forall_impl; [exact Hps|]. cbn in *. lia.
Qed.

Lemma run_released seq pieces id b stop m : interval_wf m → Forall (λ f, stop ≤ f_begin f) pieces →
  live_run (fragments_of id m) b stop → live_run (fragments_of id (release_space seq pieces m)) b stop.
Proof.
  intros Hm Hps Hrun. pose proof Hrun as (Hb & Hstop & Hlive). split; [done|]. split.
  - intros H. apply Hstop. by eapply is_live_released.
  - intros a Ha. pose proof (fragments_of_wf id m Hm) as Hw.
    destruct (proj1 (is_live_elem _ a Hw) (Hlive a Ha)) as (x & Hx & Hc).
    assert (x.2.1 ≤ stop) by (destruct Hc; eapply run_bounds; done || lia).
    apply is_live_elem; [by apply fragments_of_wf, release_space_wf|]. exists x. split; [|done].
    by eapply fragment_released.
Qed.

Lemma run_at_subtracted N Q seq pieces m m' id b stop : model_inv m → subtracted N Q seq pieces m m' →
  Forall (λ f, stop ≤ f_begin f) pieces → run_at m id b stop → run_at m' id b stop.
Proof.
  intros Hm [S1 S2 S3 S4 S5 _] Hps [(g & Hg & Hsec & Hb & x & Hx & Hxb) Hrun].
  pose proof (mi_space m Hm) as Hwf. pose proof Hrun as ((Hlt & _) & _).
  assert (Hx' : x ∈ fragments_of id (live_mapping_space_ m')).
  { rewrite S3. eapply fragment_released; try done.
    eapply run_bounds; [by apply fragments_of_wf|done..|lia]. }
  assert (Hne : fragments_of id (live_mapping_space_ m') ≠ []).
  { intros E. rewrite E in Hx'. by apply not_elem_of_nil in Hx'. }
  destruct (fragments_nonempty m' id S1 Hne) as [g' Hg'].
  destruct (S5 id g' Hg') as (g1 & Hg1 & E). rewrite Hg in Hg1. injection Hg1 as <-.
  split.
  - exists g'. rewrite E. split_and!; try done; [by rewrite <- E|]. by exists x.
  - rewrite S3. by apply run_released.
Qed.

(** ** What a shrink removes *)

Definition removed_bytes (pieces : list LiveFragment) : Z := sum_bytes (piece <$> pieces).

Lemma removed_bytes_cons f pieces :
  removed_bytes (f :: pieces) = (f_end f - f_begin f) + removed_bytes pieces.
Proof. done. Qed.

Lemma account_removed_run id pieces : ∀ m g, live_generations_ m !! id = Some g →
  Forall (λ f, piece_id f = id ∧ 0 ≤ f_begin f ∧ f_begin f < f_end f) pieces →
  removed_bytes pieces ≤ lg_live_bytes g → lg_live_bytes g ≤ u64_max →
  account_removed id pieces m =
    (Ok tt, m <| live_generations_ := <[id := with_bytes (lg_live_bytes g - removed_bytes pieces) g]>
       (live_generations_ m) |>).
Proof.
  induction pieces as [|f pieces IH]; intros m g Hg.
  - intros _ _ _. cbn [account_removed]. change (removed_bytes []) with 0. rewrite Z.sub_0_r.
    destruct m, g. cbn in *. unfold update, with_bytes. cbn. by rewrite insert_id.
  - rewrite removed_bytes_cons. intros [(Hid & Hf & Hne) Hps]%Forall_cons Hle Hmax.
    cbn [account_removed]. rewrite Hid, Z.eqb_refl. cbn [negb].
    assert (Hnn : 0 ≤ removed_bytes pieces).
    { clear -Hps. induction Hps as [|f pieces (_ & _ & ?) _ IH]; [by vm_compute|].
      rewrite removed_bytes_cons. lia. }
    set (g1 := with_bytes (lg_live_bytes g - (f_end f - f_begin f)) g).
    assert (Hstep : change_generation id (subtract_bytes (piece_size f)) m =
      (Ok tt, m <| live_generations_ := <[id := g1]> (live_generations_ m) |>)).
    { unfold change_generation. erewrite proc_bind_run; [|by apply referred_run].
      unfold subtract_bytes, piece_size. rewrite (wrap64_small (f_end f - f_begin f)) by word.
      by rewrite wrap64_small by word. }
    erewrite proc_bind_run; [|exact Hstep]. rewrite (IH _ g1).
    + unfold g1. destruct m, g. unfold update, with_bytes. cbn. rewrite insert_insert_eq.
      by rewrite Z.sub_add_distr.
    + cbn. by rewrite lookup_insert_eq.
    + done.
    + unfold g1. cbn. lia.
    + unfold g1. cbn. lia.
Qed.

(** A range of a run, taken from its generation. *)
Lemma sum_bytes_range id b stop lo hi m : interval_wf m → live_run (fragments_of id m) b stop →
  b ≤ lo → hi ≤ stop →
  sum_bytes (fragments_of id m) =
    sum_bytes (fragments_of id (remaining lo hi m)) + removed_bytes (omap (clip lo hi) m).
Proof.
  intros Hm Hrun Hlo Hhi. rewrite fragments_of_remaining.
  rewrite (sum_bytes_split lo hi) by by apply fragments_of_wf. rewrite fragments_of_clip.
  unfold removed_bytes. f_equal.
  assert (H : Forall (λ f, piece_id f = id) (omap (clip lo hi) m)).
  { apply Forall_forall. intros f Hf. by eapply run_pieces_owned. }
  induction H as [|f l Hf _ IH]; [done|]. rewrite !fmap_cons. unfold piece_id in Hf.
  unfold fragments_of in *. cbn [omap list_omap]. unfold owned_by at 1. cbn [piece fst snd].
  rewrite (proj2 (Z.eqb_eq _ _)) by done. cbn [sum_bytes]. by rewrite IH.
Qed.

Lemma removed_other id b stop lo hi m id' : interval_wf m → live_run (fragments_of id m) b stop →
  b ≤ lo → hi ≤ stop → id' ≠ id → fragments_of id' (remaining lo hi m) = fragments_of id' m.
Proof.
  intros Hm Hrun Hlo Hhi Hne. rewrite fragments_of_remaining.
  apply nothing_removed; [by apply fragments_of_wf|]. apply clip_nil_iff; [by apply fragments_of_wf|].
  intros a Ha. destruct (value_at a (fragments_of id' m)) as [v|] eqn:E; [|done]. exfalso. apply Hne.
  apply value_at_elem in E as (x & (y & Hy & Hid & ->)%elem_fragments_of & Hc & _).
  destruct Hrun as (_ & _ & Hlive). specialize (Hlive a ltac:(lia)).
  apply is_live_elem in Hlive as (z & (w & Hw & Hidw & ->)%elem_fragments_of & Hc');
    [|by apply fragments_of_wf].
  assert (y = w) as <-; [|congruence]. apply (wf_unique m a); try done.
Qed.

Section resize.
Context (process : Z).
Hypothesis Hprocess : u64 process.

(** ** The shrink *)

(** The tail of a run, removed: the tracker has still to see it go. *)
Lemma shrink_run m id g b e stop : model_inv m → live_generations_ m !! id = Some g →
  run_at m id b stop → b < e → e < stop →
  let m' := released id g (remaining e stop (live_mapping_space_ m)) m in
  (removed ← subtract_space e stop; account_removed id removed) m = (Ok tt, m') ∧
  model_inv m' ∧ (settled m → settled m') ∧ run_at m' id b e ∧
  ∀ N t, follows {| unused := N; pending := [] |} m t →
    follows {| unused := N; pending := [(id, (e, stop))] |} m' t.
Proof using.
  intros Hm Hg [(g0 & Hg0 & Hsec & Hb & x & Hx & Hxb) Hrun] Hbe Hes m'.
  rewrite Hg in Hg0. injection Hg0 as <-. pose proof (mi_space m Hm) as Hwf.
  pose proof Hrun as ((_ & Hmax) & Hstop & Hlive).
  set (s1 := remaining e stop (live_mapping_space_ m)) in *.
  assert (Hs1 : interval_wf s1) by by apply remaining_wf.
  pose proof (sum_bytes_range id b stop e stop _ Hwf Hrun ltac:(lia) ltac:(lia)) as Hsum. fold s1 in Hsum.
  destruct (mi_generations m Hm id g Hg) as [G1 G2 G3 G4 G5].
  assert (Hfrag1 : fragments_of id s1 = remaining e stop (fragments_of id (live_mapping_space_ m)))
    by apply fragments_of_remaining.
  destruct (total_bytes_spec _ (fragments_of_wf id _ Hwf)) as [_ Htotal].
  pose proof (fragments_of_wf id s1 Hs1) as [Hproper _]. pose proof (sum_bytes_nonneg _ Hproper).
  assert (Hlive1 : ∀ a, b ≤ a < e → is_live (fragments_of id s1) a).
  { intros a Ha. rewrite Hfrag1. apply is_live_remaining. split; [apply Hlive|]; lia. }
  assert (∃ y, y ∈ fragments_of id s1 ∧ y.1 = b) as (y & Hy & Hyb).
  { destruct (proj1 (is_live_elem _ b (fragments_of_wf id s1 Hs1)) (Hlive1 b ltac:(lia))) as (y & Hy & Hc).
    exists y. split; [done|]. rewrite Hfrag1 in Hy.
    apply elem_before_cut in Hy as Hyz; [|destruct Hc; lia]. destruct Hyz as (z & Hz & Hzy).
    apply elem_remaining in Hy as (w & Hw & Hw1 & Hw2 & _).
    assert (x = w) as ->; [|destruct Hc; lia].
    apply (wf_unique (fragments_of id (live_mapping_space_ m)) b);
      [by apply fragments_of_wf|done|done| |destruct Hc; split; lia].
    pose proof (fragments_of_wf id _ Hwf) as [Hp _]. rewrite Forall_forall in Hp.
    destruct (Hp x Hx) as (_ & ? & _). split; lia. }
  split; [|split; [|split; [|split]]].
  - assert (Hpieces : Forall (λ f, piece_id f = id ∧ 0 ≤ f_begin f ∧ f_begin f < f_end f)
      (omap (clip e stop) (live_mapping_space_ m))).
    { apply Forall_forall. intros f Hf. split; [apply (run_pieces_owned id b stop e stop (live_mapping_space_ m) f); done || lia|].
      apply clip_piece_of in Hf as [Hf _]. by destruct (piece_of_bounds _ f Hwf Hf) as (? & ? & _). }
    assert (Hsub : subtract_space e stop m = (Ok (omap (clip e stop) (live_mapping_space_ m)), with_space s1 m)).
    { unfold subtract_space, mbind, proc_bind, get_state. by rewrite subtract_spec. }
    erewrite proc_bind_run; [|exact Hsub]. rewrite (account_removed_run id _ _ g); try done; try lia.
    unfold m', released. replace (sum_bytes (fragments_of id s1)) with
      (lg_live_bytes g - removed_bytes (omap (clip e stop) (live_mapping_space_ m))) by lia. done.
  - apply model_inv_released; try done; [|by intros id' ?; eapply removed_other; eauto; lia].
    intros z (w & Hw & ? & ? & ?)%elem_remaining. by exists w.
  - intros Hset. apply settled_released; [done|]. intros Hz.
    pose proof (no_bytes_no_fragments id (with_space s1 m) Hs1 Hz) as Hnil. cbn in Hnil.
    rewrite Hnil in Hy. by apply not_elem_of_nil in Hy.
  - split.
    + exists (with_bytes (sum_bytes (fragments_of id s1)) g). split; [apply released_found|].
      split; [done|]. split; [done|]. by exists y.
    + split; [lia|]. split; [|done]. change (live_mapping_space_ m') with s1. rewrite Hfrag1.
      intros [_ ?]%is_live_remaining. lia.
  - intros N t Ht. eapply follows_lag_range; [exact Ht|done| | |].
    + intros a Ha. apply Hlive. lia.
    + intros id'. cbn. destruct (Z.eqb_spec id id') as [<-|Hne]; [done|].
      eapply removed_other; eauto; lia.
    + intros id' g' Hg'. cbn in Hg'. destruct (decide (id' = id)) as [->|].
      * rewrite lookup_insert_eq in Hg'. injection Hg' as <-. by exists g.
      * rewrite lookup_insert_ne in Hg' by done. by exists g'.
Qed.

(** ** The records of a resize *)

(** What the validation of a raw event gives a remap in place. *)
Record resize_call (raw : LinuxHeapEvent) : Prop := {
  rc_wt : LinuxHeapEvent_wt raw;
  rc_base : 0 < raw_address raw;
  rc_new : 0 < raw_count raw;
  rc_new_end : raw_address raw + raw_count raw ≤ u64_max;
  rc_old_end : raw_address raw + raw_requested_size raw ≤ u64_max;
}.

Lemma resize_record_ok raw id size : resize_call raw → 1 ≤ id ≤ u64_max → 0 < size →
  raw_address raw + size ≤ u64_max →
  record_ok (resize_record process raw id size) ∧
  resizes (resize_record process raw id size) id (raw_address raw) (raw_address raw + size).
Proof using Hprocess.
  intros [Hwt Hb Hn Hne Hoe] Hid Hsize He.
  destruct Hwt as (_ & _ & _ & _ & _ & Hcount & _ & Hres & Haddr & _).
  split; [split|].
  - cbn. split_and!; try done; try word; apply wrap32_u32.
  - intros ev Hev. apply (validate_stamped _ _ Hev). cbn. apply (creation_valid process). left.
    split; [apply Hev|]. lia.
  - split; [done|]. cbn. split_and!; cbn; lia.
Qed.

(** ** The three outcomes *)

Definition touch (seq : Z) (g : LiveMappingGeneration) : LiveMappingGeneration :=
  g <| lg_last_sequence := seq |>.

Definition touched (id seq : Z) (g : LiveMappingGeneration) (m : VmModel) : VmModel :=
  m <| live_generations_ := <[id := touch seq g]> (live_generations_ m) |>.

Lemma follows_generations st m m' t : live_mapping_space_ m' = live_mapping_space_ m →
  (∀ id g', live_generations_ m' !! id = Some g' → ∃ g, live_generations_ m !! id = Some g ∧
     lg_section g' = lg_section g ∧ lg_base g' = lg_base g) →
  follows st m t → follows st m' t.
Proof using.
  intros Hs Hg [H1 H2 H3 H4 H5 H6]. split; rewrite ?Hs; try done.
  intros id g' Hg' Hne. destruct (Hg id g' Hg') as (g & Hg0 & E1 & E2).
  unfold generation_kind. rewrite E1, E2. by apply H4.
Qed.

Lemma touched_spec m id seq g b stop : model_inv m → live_generations_ m !! id = Some g →
  lg_last_sequence g ≤ seq → run_at m id b stop →
  let m' := touched id seq g m in
  model_inv m' ∧ (settled m → settled m') ∧ run_at m' id b stop ∧
  ∀ st t, follows st m t → follows st m' t.
Proof using.
  intros Hm Hg Hle [(g0 & Hg0 & Hsec & Hb & Hx) Hrun] m'. rewrite Hg in Hg0. injection Hg0 as <-.
  assert (Hcases : ∀ id' g', live_generations_ m' !! id' = Some g' →
    (id' = id ∧ g' = touch seq g) ∨ (id' ≠ id ∧ live_generations_ m !! id' = Some g')).
  { intros id' g' Hg'. cbn in Hg'. destruct (decide (id' = id)) as [->|].
    - rewrite lookup_insert_eq in Hg'. left. by injection Hg' as <-.
    - rewrite lookup_insert_ne in Hg' by done. by right. }
  split; [|split; [|split]].
  - destruct Hm as [H1 H2 H3 H4]. split; [done| | |done].
    + intros x Hx'. cbn. apply lookup_insert_is_Some'. right. by apply H2.
    + intros id' g' [[-> ->]|[_ Hg']]%Hcases; [|destruct (H3 id' g' Hg'); by split].
      destruct (H3 id g Hg) as [G1 G2 G3 G4 G5]. split; try done.
      intros x Hx' E. destruct (G5 x Hx' E). split; [done|]. cbn. lia.
  - intros Hset id' g' [[-> ->]|[_ Hg']]%Hcases; [|by eapply Hset]. exact (Hset id g Hg).
  - split; [|done]. exists (touch seq g). cbn. by rewrite lookup_insert_eq.
  - intros st t. apply follows_generations; [done|]. intros id' g' [[-> ->]|[_ Hg']]%Hcases; [by exists g|].
    by exists g'.
Qed.

(** A record that resizes nothing more: the run is [size] long already. *)
Lemma resize_settles raw m id b stop size : resize_call raw → b = raw_address raw → model_inv m → settled m →
  run_at m id b stop → stop = b + size →
  stepped m [resize_record process raw id size] (pushed [resize_record process raw id size] m).
Proof using Hprocess.
  intros Hraw -> Hm Hset [Hable Hrun] ->. pose proof Hable as (g & Hg & _).
  destruct (mi_generations m Hm id g Hg) as [_ Hid _ _ _]. pose proof (mi_next m Hm).
  pose proof Hrun as ((Hlt & Hmax) & Hstop & Hlive).
  destruct (resize_record_ok raw id size Hraw) as [Hok Hres]; [lia..|].
  split; [by apply (proj1 (model_inv_pushed _ m))|done|done|cbn; lia|].
  apply (simulates_to_ext _ m _ _ m); [done..|].
  pose proof (sim_shrink (next_mapping_id_ m) m _ id _ _ (raw_address raw + size) Hok Hres) as H'.
  rewrite Z.ltb_irrefl in H'. apply H'; try done; lia.
Qed.

(** The growth claims the range after the run for the generation of the run. *)
Lemma model_inv_grown m id g seq e stop stale space : model_inv m →
  live_generations_ m !! id = Some g → seq ≤ lg_last_sequence g → lg_base g ≤ stop → 0 ≤ stop →
  stale_within e stale stop →
  claimed {| fo_mapping_id := id; fo_sequence := seq |} e stale stop (live_mapping_space_ m) space →
  model_inv (released id g space m) ∧ (settled m → settled (released id g space m)).
Proof using.
  intros Hm Hg Hseq Hbase Hstop Hst [C1 C2 C3 C4]. cbn [fo_mapping_id] in *.
  destruct (mi_generations m Hm id g Hg) as [G1 G2 G3 G4 G5].
  pose proof (claimed_bytes_range _ _ _ Hst) as Hrange. split; [split; cbn|].
  - done.
  - intros x [Hx|[Hx _]]%C3; [apply lookup_insert_is_Some'; right; by apply (mi_owned m Hm)|].
    unfold owner_id. rewrite Hx. cbn. by rewrite lookup_insert_eq.
  - intros id' g' Hg'. destruct (decide (id' = id)) as [->|Hne].
    + rewrite lookup_insert_eq in Hg'. injection Hg' as <-. split; cbn; try done.
      intros x [Hx|[Hx Hle]]%C3 E; [by apply G5|]. rewrite Hx. cbn. lia.
    + rewrite lookup_insert_ne in Hg' by done. destruct (mi_generations m Hm id' g' Hg') as [K1 K2 K3 K4 K5].
      split; cbn; try done; [by rewrite C2, (proj2 (Z.eqb_neq _ _))|].
      intros x [Hx|[Hx Hle]]%C3 E; [by apply K5|]. unfold owner_id in E. rewrite Hx in E. by destruct Hne.
  - apply Hm.
  - intros Hset. apply settled_released; [done|]. pose proof (Hset id g Hg).
    destruct (total_bytes_spec _ (fragments_of_wf id _ (mi_space m Hm))) as [_ ?]. lia.
Qed.

Lemma grow_run raw id g b stop m : resize_call raw → b = raw_address raw → model_inv m → settled m →
  live_generations_ m !! id = Some g → lg_last_sequence g = raw_completion_sequence raw →
  (∀ x, x ∈ live_mapping_space_ m → owner_id x = id → fo_sequence x.2.2 < raw_completion_sequence raw) →
  run_at m id b stop → stop < b + raw_count raw →
  ∃ m' rs, (created ← plan_create_space process stop (b + raw_count raw) (raw_completion_sequence raw) id;
     change_generation id (add_bytes (owned_bytes created)) ;;
     push_record (resize_record process raw id (raw_count raw)) ;;
     append_trim_records process id (stale created)) m = (Ok tt, m') ∧
    stepped m rs m' ∧ rs ≠ [].
Proof using Hprocess.
  intros Hraw Hraddr Hm Hset Hg Hseq Hold Hat Hlt. set (e := b + raw_count raw).
  set (seq := raw_completion_sequence raw) in *. destruct (mi_generations m Hm id g Hg) as [_ Hid _ _ _].
  pose proof (mi_next m Hm) as Hnext. pose proof Hraw as [_ Hb0 Hn0 Hne _].
  pose proof (ra_run _ _ _ _ Hat) as ((Hbs & Hmax) & _).
  destruct (plan_create_space_run process Hprocess (next_mapping_id_ m) stop e seq id m Hm)
    as (m1 & Hsub & Hst & Hfree & Hclaim & Hrun); try done; try (unfold e; lia).
  set (st := stale_of seq stop e (live_mapping_space_ m)) in *.
  set (space := claim_space _ e st stop (live_mapping_space_ m1)) in *.
  assert (Hat1 : run_at m1 id b stop).
  { eapply run_at_subtracted; [exact Hm|exact Hsub| |exact Hat].
    eapply Forall_impl; [apply clip_within|]. by intros f [? _]. }
  destruct Hsub as [S1 S2 S3 S4 S5 (rs1 & S6 & S7)].
  destruct Hat1 as [Hable1 Hrun1]. pose proof Hable1 as (g1 & Hg1 & Hsec1 & Hb1 & _).
  destruct (S5 id g1 Hg1) as (g0 & Hg0 & Eg1). rewrite Hg in Hg0. injection Hg0 as <-.
  destruct (model_inv_grown m1 id g1 seq e stop st space) as [Hm2 Hset2]; try done; try lia.
  { rewrite Eg1. cbn. lia. }
  set (m2 := released id g1 space m1) in *.
  destruct (resize_record_ok raw id (raw_count raw) Hraw) as [Hok Hres]; [lia..|].
  set (r := resize_record process raw id (raw_count raw)) in *.
  exists (pushed (r :: (trim_record process id <$> st)) m2), (rs1 ++ r :: (trim_record process id <$> st)).
  split; [|split; [|by destruct rs1]].
  - erewrite proc_bind_run; [|exact Hrun]. cbn [owned_bytes stale].
    assert (Hadd : change_generation id (add_bytes (claimed_bytes e st stop)) (with_space space m1) = (Ok tt, m2)).
    { unfold change_generation. erewrite proc_bind_run; [|by apply referred_run].
      unfold m2, released, add_bytes, with_bytes, modify.
      destruct (mi_generations m1 S1 id g1 Hg1) as [_ _ _ -> _].
      pose proof (cl_bytes _ _ _ _ _ _ Hclaim) as Hbytes. cbn [fo_mapping_id] in Hbytes.
      destruct (total_bytes_spec _ (fragments_of_wf id space (cl_wf _ _ _ _ _ _ Hclaim))) as [_ ?].
      rewrite <- Hbytes, wrap64_small by word. done. }
    erewrite proc_bind_run; [|exact Hadd]. erewrite proc_bind_run; [|done].
    unfold append_trim_records. rewrite push_records_run.
    change (m2 <| plan := plan m2 ++ [r] |>) with (pushed [r] m2). by rewrite pushed_pushed.
  - split.
    + by apply (proj1 (model_inv_pushed _ m2)).
    + by apply Hset2, S2.
    + cbn. by rewrite S6, app_assoc.
    + cbn. lia.
    + change (next_mapping_id_ (pushed _ m2)) with (next_mapping_id_ m1). rewrite S4.
      eapply simulates_app; [exact S7|]. apply (simulates_to_ext _ _ _ _ m2); [done..|].
      apply (simulates_app _ _ [_] {| unused := next_mapping_id_ m; pending := trims id st |} m2).
      * apply (sim_grow _ m1 m2 r id b e stop st); try done; [by subst b|apply S1|..].
        -- intros id'. change (live_mapping_space_ m2) with space. rewrite (cl_fragments _ _ _ _ _ _ Hclaim).
           cbn [fo_mapping_id]. destruct (Z.eqb_spec id id') as [<-|]; done.
        -- intros id' Hne'. cbn. by rewrite lookup_insert_ne.
        -- intros g2 g3 Hg3 Hg2. rewrite Hg1 in Hg2. injection Hg2 as <-. cbn in Hg3.
           rewrite lookup_insert_eq in Hg3. by injection Hg3 as <-.
      * rewrite (trim_records process id e st stop) by (done || lia).
        apply (sim_trims _ Hprocess _ _ _ _ stop e); done || lia.
Qed.

Lemma shrink_then {A} (k : planning A) m id e stop m' :
  (removed ← subtract_space e stop; account_removed id removed) m = (Ok tt, m') →
  (removed ← subtract_space e stop; account_removed id removed ;; k) m = k m'.
Proof using.
  intros H. unfold mbind, proc_bind in *. destruct (subtract_space _ _ m) as [[l|] m1]; [|done].
  by rewrite H.
Qed.

(** The tail of the run goes, then what the call names after the run. *)
Lemma shrink_tail_run id g b e stop tail seq m : model_inv m → settled m →
  live_generations_ m !! id = Some g → run_at m id b stop → 0 < b → b < e → e < stop →
  ∃ m' rs, (removed ← subtract_space e stop; account_removed id removed ;;
      if stop <? tail then plan_subtract process stop tail seq else mret tt) m = (Ok tt, m') ∧
    model_inv m' ∧ settled m' ∧ next_mapping_id_ m' = next_mapping_id_ m ∧ plan m' = plan m ++ rs ∧
    run_at m' id b e ∧ ¬ is_live (fragments_of id (live_mapping_space_ m')) stop ∧
    ∀ N, simulates {| unused := N; pending := [] |} m rs {| unused := N; pending := [(id, (e, stop))] |} m'.
Proof using Hprocess.
  intros Hm Hset Hg Hat Hb Hbe Hes. pose proof (ra_run _ _ _ _ Hat) as (_ & Hstop & _).
  destruct (shrink_run m id g b e stop Hm Hg Hat Hbe Hes) as (Hrun & Hm1 & Hset1 & Hat1 & Hlag).
  set (m1 := released id g _ m) in *. rewrite (shrink_then _ _ _ _ _ _ Hrun).
  assert (Hsim1 : ∀ N, simulates {| unused := N; pending := [] |} m []
    {| unused := N; pending := [(id, (e, stop))] |} m1).
  { intros N. apply simulates_nil. apply Hlag. }
  assert (Hstop1 : ¬ is_live (fragments_of id (live_mapping_space_ m1)) stop).
  { change (live_mapping_space_ m1) with (remaining e stop (live_mapping_space_ m)).
    rewrite fragments_of_remaining. by intros [? _]%is_live_remaining. }
  destruct (Z.ltb_spec stop tail).
  - assert (Hrelease : ∀ N, ∃ m2, plan_subtract process stop tail seq m1 = (Ok tt, m2) ∧
      subtracted N [(id, (e, stop))] seq (omap (clip stop tail) (live_mapping_space_ m1)) m1 m2).
    { intros N. apply plan_subtract_run; try done; [lia|repeat constructor; cbn; lia|].
      constructor; [|constructor]. destruct Hat1 as [(g1 & _ & _ & _ & x & Hx & Hxb) Hrun1].
      pose proof (run_bounds _ _ _ x (fragments_of_wf id _ (mi_space m1 Hm1)) Hrun1 Hx ltac:(lia)) as Hle.
      apply elem_fragments_of in Hx as (y & Hy & Hid & ->). exists y. cbn in *. split_and!; done || lia. }
    destruct (Hrelease 1) as (m2 & Hrun2 & Hsub).
    assert (Hat2 : run_at m2 id b e).
    { eapply run_at_subtracted; [exact Hm1|exact Hsub| |done]. eapply Forall_impl; [apply clip_within|].
      cbn. intros f [? _]. lia. }
    exists m2. destruct Hsub as [S1 S2 S3 S4 S5 (rs & S6 & _)]. exists rs. rewrite Hrun2.
    split; [done|]. split; [done|]. split; [auto|]. split; [done|]. split; [done|]. split; [done|]. split.
    + rewrite S3. intros Hin. apply Hstop1. eapply is_live_released; [apply Hm1|exact Hin].
    + intros N. destruct (Hrelease N) as (m2' & Hrun2' & [_ _ _ _ _ (rs' & S6' & S7')]).
      rewrite Hrun2 in Hrun2'. injection Hrun2' as <-. rewrite S6 in S6'. apply app_inv_head in S6' as <-.
      by eapply (simulates_app _ _ []).
  - exists m1, []. rewrite app_nil_r. split_and!; try done. by apply Hset1.
Qed.

Lemma resize_shrinks raw m id b stop : resize_call raw → b = raw_address raw → model_inv m →
  run_at m id b (b + raw_count raw) → b + raw_count raw < stop → stop ≤ u64_max →
  ¬ is_live (fragments_of id (live_mapping_space_ m)) stop → ∀ N,
  simulates {| unused := N; pending := [(id, (b + raw_count raw, stop))] |} m
    [resize_record process raw id (raw_count raw)] {| unused := N; pending := [] |} m.
Proof using Hprocess.
  intros Hraw -> Hm [Hable Hrun] Hlt Hmax Hstop N. pose proof Hable as (g & Hg & _).
  destruct (mi_generations m Hm id g Hg) as [_ Hid _ _ _]. pose proof (mi_next m Hm).
  pose proof Hraw as [_ Hb Hn He _]. destruct Hrun as (_ & _ & Hlive).
  destruct (resize_record_ok raw id (raw_count raw) Hraw) as [Hok Hres]; [lia..|].
  pose proof (sim_shrink N m _ id _ _ stop Hok Hres) as H'.
  rewrite (proj2 (Z.ltb_lt _ _)) in H' by done. apply H'; try done; lia.
Qed.

(** [plan_mremap_resize], on the fragment and the generation [plan_mremap] found. *)
Lemma plan_mremap_resize_run raw f g m : resize_call raw → model_inv m → settled m →
  find (raw_address raw) (live_mapping_space_ m) = Some f → f_begin f = raw_address raw →
  live_generations_ m !! piece_id f = Some g → lg_section g = false →
  ∃ m' rs, plan_mremap_resize process raw (piece_id f) (f_end f) m = (Ok tt, m') ∧
    stepped m rs m' ∧ rs ≠ [].
Proof using Hprocess.
  intros Hraw Hm Hset Hfind Hfb Hg Hsec. set (id := piece_id f) in *. set (b := raw_address raw) in *.
  pose proof (mi_space m Hm) as Hwf. pose proof Hraw as [Hwt Hb Hn He Hold].
  destruct (mi_generations m Hm id g Hg) as [Hgid Hid Hbase Hbytes Hgens].
  destruct (find_found _ _ _ Hwf Hfind) as [Hpiece Hin].
  destruct (owned_run id b f _ Hwf Hfind Hfb eq_refl) as (stop & Hext & _ & _ & Hrun).
  pose proof Hrun as ((Hlt & Hmax) & _).
  assert (Hat : run_at m id b stop).
  { split; [|done]. exists g. split; [done|]. split; [done|]. split.
    - destruct (Hgens _ Hpiece eq_refl) as [Hle _]. cbn in Hle. lia.
    - exists (f_begin f, (f_end f, 0)). split; [|done]. apply elem_fragments_of. by exists (piece f). }
  unfold plan_mremap_resize. fold b. erewrite (proc_bind_run get_state); [|reflexivity]. cbv beta zeta.
  erewrite proc_bind_run; [|by apply referred_run]. cbv beta zeta. rewrite Hgid, Hext. change (default (f_end f) (Some stop)) with stop.
  rewrite (wrap64_small (stop - b)), (wrap64_small (b + raw_count raw)) by (unfold b in *; word).
  destruct (Z.leb_spec (raw_completion_sequence raw) (lg_last_sequence g)) as [Hold'|Hnew].
  { exists (pushed [resize_record process raw id (stop - b)] m), [resize_record process raw id (stop - b)].
    split; [done|]. split; [|done]. apply (resize_settles raw m id b stop); done || lia. }
  destruct (touched_spec m id (raw_completion_sequence raw) g b stop Hm Hg ltac:(lia) Hat)
    as (Hm0 & Hset0 & Hat0 & Hfollow).
  set (g0 := touch (raw_completion_sequence raw) g). set (m0 := touched id _ g m) in *.
  assert (Hg0 : live_generations_ m0 !! id = Some g0) by (cbn; by rewrite lookup_insert_eq).
  assert (Hsim0 : ∀ st, simulates st m [] st m0) by (intros st; apply simulates_nil, Hfollow).
  assert (Htouch : change_generation id (λ g, g <| lg_last_sequence := raw_completion_sequence raw |>) m =
    (Ok tt, m0)).
  { unfold change_generation. by erewrite proc_bind_run; [|by apply referred_run]. }
  erewrite proc_bind_run; [|exact Htouch].
  assert (Hfirst : ∀ m' rs, stepped m0 rs m' → stepped m rs m').
  { intros m' rs [A1 A2 A3 A4 A5]. split; try done. by eapply (simulates_app _ _ []). }
  destruct (Z.ltb_spec (stop - b) (raw_count raw)).
  - destruct (grow_run raw id g0 b stop m0 Hraw eq_refl Hm0) as (m' & rs & Hgrow & Hstep & Hne); try done; auto.
    + intros x Hx E. destruct (Hgens x Hx E). lia.
    + lia.
    + exists m', rs. split; [exact Hgrow|]. split; [by apply Hfirst|done].
  - destruct (Z.ltb_spec (raw_count raw) (stop - b)).
    + destruct (shrink_tail_run id g0 b (b + raw_count raw) stop (b + raw_requested_size raw)
        (raw_completion_sequence raw) m0) as (m1 & rs & Hshrink & Hm1 & Hset1 & Hnext1 & Hplan1 & Hat1 & Hstop1 & Hsim1);
        auto; try lia.
      rewrite (wrap64_small (b + raw_requested_size raw)) by (unfold b in *; destruct Hwt as (_ & _ & _ & _ & ? & _); word).
      erewrite proc_bind_run; [|exact Hshrink].
      exists (pushed [resize_record process raw id (raw_count raw)] m1),
        (rs ++ [resize_record process raw id (raw_count raw)]).
      split; [done|]. split; [|by destruct rs]. apply Hfirst. split; [by apply (proj1 (model_inv_pushed _ m1))|done| | |].
      * cbn. by rewrite Hplan1, app_assoc.
      * change (next_mapping_id_ (pushed _ m1)) with (next_mapping_id_ m1). lia.
      * change (next_mapping_id_ (pushed _ m1)) with (next_mapping_id_ m1). rewrite Hnext1.
        eapply simulates_app; [apply Hsim1|]. apply (simulates_to_ext _ m1 _ _ m1); [done..|].
        apply (resize_shrinks raw m1 id b stop); done || lia.
    + exists (pushed [resize_record process raw id (raw_count raw)] m0), [resize_record process raw id (raw_count raw)].
      split; [done|]. split; [|done]. apply Hfirst. apply (resize_settles raw m0 id b stop); auto; lia.
Qed.

End resize.

(** ** Every virtual memory event

    [plan_vm_event] of VmModel.v on a validated event: it plans at least one record,
    keeps the invariant of the model, and its records keep the tracker in step; only
    an exhausted identifier space stops it.  [plan_vm_calls] is the writer's loop over
    the events of a queue, whatever the order of their completions. *)

Section events.
Context (process : Z) (preexisting_unknown : bool).
Hypothesis Hprocess : u64 process.

(** ** The records of one call *)

Lemma free_half_ok base size : u64 base → u64 size →
  record_ok (make_unmatched_free_record process preexisting_unknown base size).
Proof using Hprocess.
  intros Hb Hs. split.
  - cbn. split_and!; try done; try word; cbn; unfold kVmFreeTypeRelease; word.
  - intros e He. apply (validate_stamped _ _ He). apply end_valid. right.
    split; [|done]. destruct He as (_ & _ & -> & _). cbn. unfold unmatched_status. case_match; tauto.
Qed.

Lemma failed_ok raw : LinuxHeapEvent_wt raw → record_ok (failed_record process raw).
Proof using Hprocess.
  intros Hwt. assert (∃ s, vp_status (failed_record process raw) = s ∧ s = Status_kFailure) as (? & Hst & ->).
  { eexists. split; [reflexivity|]. unfold failed_record. repeat case_match; done. }
  destruct Hwt as (? & ? & ? & ? & ? & ? & ? & ? & ? & ? & ? & ? & ? & ? & ? & ? & ?). split.
  - unfold failed_record. cbv zeta. pose proof (target_wt process Hprocess).
    repeat case_match; cbn; split_and!; try done; try word; try apply wrap32_u32; cbn; unfold kVmFreeTypeRelease; word.
  - intros e He. apply (validate_stamped _ _ He). pose proof He as (_ & _ & Hs & _). rewrite Hst in Hs.
    unfold failed_record. cbv zeta.
    destruct (operation_is (raw_operation raw) Raw_kVmUnmap); [|destruct (operation_is _ _ && _)];
      first [apply end_valid; right; split; [tauto|done] | apply (creation_valid process); tauto].
Qed.

Lemma allocation_creating raw requested base size protection status : LinuxHeapEvent_wt raw →
  u64 requested → u32 protection → 0 < base → 0 < size → base + size ≤ u64_max →
  status = Status_kSuccess ∨ status = Status_kPreexisting →
  creating (λ id, allocation_record process raw requested base size protection id base size status)
    false base (base + size).
Proof using Hprocess.
  intros Hwt Hreq Hprot Hb Hs He Hst id Hid. pose proof (target_wt process Hprocess). split; [split|split; [|done]].
  - cbn. split_and!; try done; try word; apply wrap32_u32.
  - intros e Hev. apply (validate_stamped _ _ Hev). cbn. apply (creation_valid process).
    destruct Hev as (_ & _ & -> & _). cbn. destruct Hst; [left|right; left]; (split; [done|lia]).
  - split; [done|]. split; [done|]. unfold names_range. cbn. split_and!; done || lia.
Qed.

Lemma map_creating handle base size offset protection status : u64 handle → u64 offset → u32 protection →
  0 < base → 0 < size → base + size ≤ u64_max → status = Status_kSuccess ∨ status = Status_kPreexisting →
  creating (λ id, map_record process handle base size offset protection id status) true base (base + size).
Proof using Hprocess.
  intros Hh Ho Hprot Hb Hs He Hst id Hid. pose proof (target_wt process Hprocess). split; [split|split; [|done]].
  - cbn. split_and!; try done; word.
  - intros e Hev. apply (validate_stamped _ _ Hev). cbn. apply (creation_valid process).
    destruct Hev as (_ & _ & -> & _). cbn. destruct Hst; [left|right; left]; (split; [done|lia]).
  - cbn. split_and!; try done; cbn; lia.
Qed.

(** ** The operations *)

(** The outcome of a plan. *)
Definition planned (p : planning unit) (m : VmModel) : Prop :=
  ∃ m' rs, p m = (Ok tt, m') ∧ stepped m rs m' ∧ rs ≠ [].

Lemma plan_subtract_stepped b e seq m : model_inv m → settled m → 0 < b →
  ∃ m' rs, plan_subtract process b e seq m = (Ok tt, m') ∧ stepped m rs m' ∧
    next_mapping_id_ m' = next_mapping_id_ m.
Proof using Hprocess.
  intros Hm Hset Hb.
  assert (H : ∀ N, ∃ m', plan_subtract process b e seq m = (Ok tt, m') ∧
    subtracted N [] seq (omap (clip b e) (live_mapping_space_ m)) m m').
  { intros N. by apply plan_subtract_run; [..|constructor|constructor]. }
  destruct (H 1) as (m' & Hrun & _). exists m'.
  destruct (stepped_subtracted seq (omap (clip b e) (live_mapping_space_ m)) m m' Hset) as [Hn [rs Hst]].
  { intros N. destruct (H N) as (m2 & Hrun2 & Hsub). rewrite Hrun in Hrun2. by injection Hrun2 as <-. }
  by exists rs.
Qed.

Lemma plan_munmap_run raw m : LinuxHeapEvent_wt raw → 0 < raw_address raw →
  raw_address raw + raw_requested_size raw ≤ u64_max → model_inv m → settled m → plan m = [] →
  planned (plan_munmap process preexisting_unknown raw) m.
Proof using Hprocess.
  intros Hwt Hb He Hm Hset Hplan. pose proof Hwt as (_ & _ & _ & _ & Hreq & _ & _ & _ & Haddr & _).
  unfold plan_munmap, planned. cbv zeta.
  destruct (plan_subtract_stepped (raw_address raw) (wrap64 (raw_address raw + raw_requested_size raw))
    (raw_completion_sequence raw) m Hm Hset Hb) as (m1 & rs & Hrun & Hst & _).
  erewrite proc_bind_run; [|exact Hrun]. erewrite (proc_bind_run get_state); [|reflexivity].
  pose proof (sp_plan _ _ _ Hst) as Hp. rewrite Hplan in Hp. cbn in Hp. rewrite Hp. destruct rs as [|r rs].
  - exists (pushed [make_unmatched_free_record process preexisting_unknown (raw_address raw) (raw_requested_size raw)] m1).
    exists [make_unmatched_free_record process preexisting_unknown (raw_address raw) (raw_requested_size raw)]. split; [done|]. split; [|done]. destruct Hst as [S1 S2 S3 S4 S5].
    destruct (stepped_ignored m1 (make_unmatched_free_record process preexisting_unknown
      (raw_address raw) (raw_requested_size raw)) S1 S2) as [T1 T2 T3 T4 T5]; [by apply free_half_ok|exact I|right; reflexivity|].
    split; [done|done| |cbn in *; lia|].
    + rewrite T3, Hp. by rewrite Hplan.
    + eapply (simulates_app _ _ []); [exact S5|exact T5].
  - exists m1, (r :: rs). done.
Qed.

Lemma plan_mremap_pair_run raw section m : LinuxHeapEvent_wt raw → 0 < raw_address raw →
  raw_address raw + raw_requested_size raw ≤ u64_max → 0 < raw_result_address raw → 0 < raw_count raw →
  raw_result_address raw + raw_count raw ≤ u64_max → model_inv m → settled m →
  next_mapping_id_ m ≠ u64_max → planned (plan_mremap_pair process preexisting_unknown raw section) m.
Proof using Hprocess.
  intros Hwt Hb He Hrb Hn Hre Hm Hset Hnext. pose proof Hwt as (_ & _ & _ & _ & Hreq & Hcount & _ & Hres & Haddr & _).
  unfold plan_mremap_pair, planned. cbv zeta. erewrite (proc_bind_run get_state); [|reflexivity].
  destruct (plan_subtract_stepped (raw_address raw) (wrap64 (raw_address raw + raw_requested_size raw))
    (raw_completion_sequence raw) m Hm Hset Hb) as (m1 & rs & Hrun & Hst & Hn1).
  erewrite proc_bind_run; [|exact Hrun]. erewrite (proc_bind_run get_state); [|reflexivity].
  set (tracked := negb (Nat.eqb (length (plan m1)) (length (plan m)))).
  assert (∃ m2 rs2, (if negb tracked then push_record (make_unmatched_free_record process preexisting_unknown
      (raw_address raw) (raw_requested_size raw)) else mret tt) m1 = (Ok tt, m2) ∧ stepped m rs2 m2 ∧
      next_mapping_id_ m2 = next_mapping_id_ m) as (m2 & rs2 & Hhalf & Hst2 & Hn2).
  { destruct Hst as [S1 S2 S3 S4 S5] eqn:E. clear E. destruct tracked; cbn [negb].
    - exists m1, rs. by split_and!.
    - destruct (stepped_ignored m1 (make_unmatched_free_record process preexisting_unknown
        (raw_address raw) (raw_requested_size raw)) S1 S2) as [T1 T2 T3 T4 T5]; [by apply free_half_ok|exact I|right; reflexivity|].
      eexists _, (rs ++ [_]). split; [done|]. split; [|exact Hn1].
      eapply stepped_app; [exact Hn1|by split|]. by split. }
  erewrite proc_bind_run; [|exact Hhalf].
  set (st := if negb tracked then adopted_status preexisting_unknown else Status_kSuccess).
  assert (Hstat : st = Status_kSuccess ∨ st = Status_kPreexisting).
  { unfold st, adopted_status. repeat case_match; tauto. }
  destruct (create_generation_run process Hprocess (raw_result_address raw) (raw_count raw) (raw_completion_sequence raw)
    section (λ id, if section then map_record process 0 (raw_result_address raw) (raw_count raw) 0 0 id st
      else allocation_record process raw (raw_address raw) (raw_result_address raw) (raw_count raw) 0 id
        (raw_result_address raw) (raw_count raw) st) m2) as (m3 & rs3 & Hrun3 & Hst3 & Hne & _); try apply Hst2;
    try done; [by rewrite Hn2| |].
  { destruct section; [apply map_creating|apply allocation_creating]; done || word. }
  exists m3, (rs2 ++ rs3). split; [exact Hrun3|]. split; [by eapply stepped_app|].
  intros [_ ?]%app_eq_nil. done.
Qed.

Lemma plan_create_run base size seq section record m : 0 < base → 0 < size → base + size ≤ u64_max →
  creating record section base (base + size) → model_inv m → settled m → next_mapping_id_ m ≠ u64_max →
  planned (create_generation process base size seq section record) m.
Proof using Hprocess.
  intros. destruct (create_generation_run process Hprocess base size seq section record m)
    as (m' & rs & ? & ? & ? & _); try done. by exists m', rs.
Qed.

Lemma adopted_cases : adopted_status preexisting_unknown = Status_kSuccess ∨
  adopted_status preexisting_unknown = Status_kPreexisting.
Proof using. unfold adopted_status. case_match; tauto. Qed.

(** What validation gives a successful remap. *)
Record remap_call (raw : LinuxHeapEvent) : Prop := {
  mc_wt : LinuxHeapEvent_wt raw;
  mc_base : 0 < raw_address raw;
  mc_count : 0 < raw_count raw;
  mc_result : 0 < raw_result_address raw;
  mc_old_end : raw_address raw + raw_requested_size raw ≤ u64_max;
  mc_new_end : raw_result_address raw + raw_count raw ≤ u64_max;
}.

Lemma plan_mremap_adopt_run raw m : remap_call raw → model_inv m → settled m →
  next_mapping_id_ m ≠ u64_max → planned (plan_mremap_adopt process preexisting_unknown raw) m.
Proof using Hprocess.
  intros [Hwt H1 H2 H3 H4 H5] Hm Hset Hnext.
  pose proof Hwt as (_ & _ & _ & _ & _ & _ & _ & _ & Haddr & _).
  unfold plan_mremap_adopt. cbv zeta.
  apply plan_create_run; try assumption. apply allocation_creating; try assumption; [done|apply adopted_cases].
Qed.

Lemma plan_mremap_run raw m : remap_call raw → model_inv m → settled m →
  next_mapping_id_ m ≠ u64_max → planned (plan_mremap process preexisting_unknown raw) m.
Proof using Hprocess.
  intros Hcall Hm Hset Hnext. pose proof Hcall as [Hwt H1 H2 H3 H4 H5].
  assert (Hpair : ∀ section, planned (plan_mremap_pair process preexisting_unknown raw section) m).
  { intros section. by apply plan_mremap_pair_run. }
  pose proof (plan_mremap_adopt_run raw m Hcall Hm Hset Hnext) as Hadopt.
  unfold planned, plan_mremap in *. cbv zeta. erewrite (proc_bind_run get_state); [|reflexivity].
  destruct (find (raw_address raw) (live_mapping_space_ m)) as [f|] eqn:Hfind;
    [|destruct (Z.eqb_spec (raw_result_address raw) (raw_address raw)); cbn [negb]; [apply Hadopt|apply Hpair]].
  destruct (find_found _ _ _ (mi_space m Hm) Hfind) as [Hpiece Hin].
  destruct (mi_owned m Hm _ Hpiece) as [g Hg]. change (owner_id (piece f)) with (piece_id f) in Hg.
  assert (Hgen : generation_for (piece_id f) m = (Ok g, m)).
  { unfold generation_for, mbind, proc_bind, get_state. by rewrite Hg. }
  erewrite proc_bind_run; [|exact Hgen].
  destruct (lg_section g) eqn:Hsec; [apply Hpair|].
  destruct (Z.eqb_spec (raw_result_address raw) (raw_address raw)) as [E|]; cbn [negb]; [|apply Hpair].
  destruct (Z.eqb_spec (f_begin f) (raw_address raw)); [|apply Hadopt].
  apply (plan_mremap_resize_run process Hprocess raw f g m); try done. split; try done. by rewrite <- E.
Qed.

(** [plan_vm_event]: at least one record, or the identifiers are used up. *)
Lemma plan_vm_event_run raw m : LinuxHeapEvent_wt raw → is_vm_operation (raw_operation raw) = true →
  validate_operation raw = Ok tt → model_inv m → settled m → plan m = [] →
  next_mapping_id_ m ≠ u64_max → planned (plan_vm_event process preexisting_unknown raw) m.
Proof using Hprocess.
  intros Hwt Hvm Hvalid Hm Hset Hplan Hnext. unfold plan_vm_event.
  pose proof Hwt as (_ & _ & _ & Hra & Hreq & Hcount & _ & Hres & Haddr & _ & _ & Hsh & Hso & _).
  unfold raw_succeeded in *. destruct (bool_decide (raw_status raw = Raw_kSuccess)) eqn:Est; cbn [negb].
  2:{ exists (pushed [failed_record process raw] m), [failed_record process raw]. split; [done|]. split; [|done].
      assert (Hst : vp_status (failed_record process raw) = Status_kFailure)
        by (unfold failed_record; cbv zeta; repeat case_match; done).
      apply stepped_ignored; [done..|by apply failed_ok| |by left].
      unfold failed_record. cbv zeta. destruct (operation_is _ _); [done|]. by destruct (_ && _). }
  unfold validate_operation, raw_succeeded in Hvalid. rewrite Est in Hvalid. cbn [andb] in Hvalid.
  destruct (raw_operation raw) eqn:Eop; try discriminate Hvm;
    unfold invalid_argument_if, throw_if in Hvalid; case_match; try discriminate Hvalid; clear Hvalid;
    bool_facts; cbn in *.
  - assert (0 < raw_result_address raw ∧ 0 < raw_requested_size raw ∧
      raw_result_address raw + raw_requested_size raw ≤ u64_max) as (? & ? & ?) by word.
    pose proof (wrap32_u32 (raw_protection raw)).
    unfold plan_mmap_anonymous, plan_mmap_section. cbv zeta.
    destruct (raw_section_handle raw =? kMapAnonymousHandle); apply plan_create_run; try assumption;
      [apply allocation_creating|apply map_creating]; try assumption; left; reflexivity.
  - apply plan_munmap_run; done || word.
  - apply plan_mremap_run; try done. split; done || word.
Qed.

End events.
