(* ===== verification/VmTheorems.v ===== *)
(** * What the virtual memory model of the capture writer promises

    The records of any sequence of calls take an analyzer from an empty tracker to
    one that sees, address by address, the owners of the writer's own live space; and
    what a call does to the owner of an address depends on the completion sequences
    only: a release takes the address from an older owner, a claim from an older owner
    or from none. *)

From S2P Require Import Prelude WireFormat Event OrderedMap IntervalSet GenerationTracker TrackerInvariant TrackerTheorems HookRegistry RawEvents VmModel VmSpace VmTracker VmSimulation VmPlans VmCreate VmRemap.

#[local] Arguments u64_max : simpl never.
#[local] Arguments fragments_of : simpl never.

(** ** Sequences of calls *)

(** A virtual memory event that passed [validate_raw_event]. *)
Definition vm_call (raw : LinuxHeapEvent) : Prop :=
  LinuxHeapEvent_wt raw ∧ is_vm_operation (raw_operation raw) = true ∧ validate_operation raw = Ok tt.

Lemma validated_vm_call origin customs last raw : LinuxHeapEvent_wt raw →
  is_vm_operation (raw_operation raw) = true → validate_raw_event origin customs last raw = Ok tt →
  vm_call raw.
Proof.
  intros Hwt Hvm Hvalid. split; [done|]. split; [done|]. unfold validate_raw_event in Hvalid.
  inv_ok; destruct (find_linux_hook (raw_api_id raw)); inv_ok;
    repeat match goal with u : unit |- _ => destruct u end; done.
Qed.

Section calls.
Context (process : Z) (preexisting_unknown : bool).
Hypothesis Hprocess : u64 process.

(** The outcome of the calls planned so far. *)
Record in_step (m : VmModel) (rs : list VmPlanRecord) (m' : VmModel) : Prop := {
  is_inv : model_inv m';
  is_settled : settled m';
  is_simulates : simulates {| unused := next_mapping_id_ m; pending := [] |} m rs
    {| unused := next_mapping_id_ m'; pending := [] |} m';
}.

Lemma plan_vm_call_run raw m : vm_call raw → model_inv m → settled m → next_mapping_id_ m ≠ u64_max →
  ∃ m' rs, plan_vm_call process preexisting_unknown raw m = (Ok rs, m') ∧ in_step m rs m' ∧ rs ≠ [] ∧
    next_mapping_id_ m' ≤ next_mapping_id_ m + 1.
Proof using Hprocess.
  intros (Hwt & Hvm & Hvalid) Hm Hset Hnext. unfold plan_vm_call. set (m0 := m <| plan := [] |>).
  erewrite (proc_bind_run (modify _)); [|reflexivity]. fold m0.
  assert (Hm0 : model_inv m0).
  { destruct Hm as [H1 H2 H3 H4]. split; try done. intros id g Hg. destruct (H3 id g Hg). by split. }
  destruct (plan_vm_event_run process preexisting_unknown Hprocess raw m0) as (m' & rs & Hrun & Hst & Hne);
    try done.
  erewrite proc_bind_run; [|exact Hrun]. erewrite (proc_bind_run get_state); [|reflexivity].
  destruct Hst as [S1 S2 S3 S4 S5]. exists m', rs. cbn in S3. rewrite S3. split; [done|].
  split; [|split; [done|cbn in S4; lia]]. split; [done..|].
  apply (simulates_from_ext _ m m0); [done..|]. exact S5.
Qed.

Lemma plan_vm_calls_run raws : ∀ m, Forall vm_call raws → model_inv m → settled m →
  next_mapping_id_ m + size_of raws ≤ u64_max →
  ∃ m' rs, plan_vm_calls process preexisting_unknown raws m = (Ok rs, m') ∧ in_step m rs m' ∧
    size_of raws ≤ size_of rs ∧ next_mapping_id_ m' ≤ next_mapping_id_ m + size_of raws.
Proof using Hprocess.
  induction raws as [|raw raws IH]; intros m Hraws Hm Hset Hroom.
  - exists m, []. split; [done|]. split; [|unfold size_of; cbn; lia]. split; [done..|]. by apply simulates_nil.
  - apply Forall_cons in Hraws as [Hraw Hraws]. unfold size_of in *. cbn [length] in *.
    destruct (plan_vm_call_run raw m Hraw Hm Hset ltac:(lia)) as (m1 & rs1 & Hrun1 & [A1 A2 A3] & Hne & Hn).
    destruct (IH m1 Hraws A1 A2 ltac:(lia)) as (m2 & rs2 & Hrun2 & [B1 B2 B3] & Hsize & Hn2).
    exists m2, (rs1 ++ rs2). split; [|split].
    + cbn [plan_vm_calls]. erewrite proc_bind_run; [|exact Hrun1]. by erewrite proc_bind_run; [|exact Hrun2].
    + split; [done..|]. by eapply simulates_app.
    + rewrite length_app. destruct rs1; [done|]. cbn [length]. lia.
Qed.

End calls.

(** The owner of a live address: a generation and the completion that made it so. *)
Definition live_owner (m : VmModel) (a : Z) : option LiveFragmentOwner := value_at a (live_mapping_space_ m).

Lemma mapped_owner st m t id a : follows st m t → pending st = [] → interval_wf (live_mapping_space_ m) →
  mapped t id a ↔ fo_mapping_id <$> live_owner m a = Some id.
Proof.
  intros Ht Hp Hwf. pose proof (fo_live _ _ _ Ht id) as Hlive. rewrite Hp in Hlive. cbn in Hlive.
  assert (mapped t id a ↔ is_live (tracker_live t id) a) as ->.
  { unfold mapped, tracker_live. destruct (om_find id (live_mappings_ t)); [done|].
    split; [done|]. by intros []. }
  rewrite Hlive. unfold live_owner. split.
  - intros (x & (y & Hy & <- & ->)%elem_fragments_of & Hc)%is_live_elem; [|by apply fragments_of_wf].
    apply list_elem_of_split in Hy as (p & q & Epq). rewrite Epq in *.
    rewrite value_at_mid; [done|done|]. by destruct Hc; split.
  - destruct (value_at a (live_mapping_space_ m)) as [o|] eqn:E; [|done]. intros [= <-].
    apply value_at_elem in E as (x & Hx & Hc & <-). apply is_live_elem; [by apply fragments_of_wf|].
    exists (x.1, (x.2.1, 0)). split; [|done]. apply elem_fragments_of. by exists x.
Qed.

(** C3: the capture writer's plans refine the analyzer's tracker.  However many virtual
    memory calls succeed or fail, and in whatever order their events arrive, planning
    them never throws while mapping identifiers last and gives each call a record; every
    planned record is a valid event; and a tracker that observes them accepts every one
    and ends with exactly the writer's live address space, owner by owner. *)
Theorem vm_plans_refine_tracker (process : Z) (preexisting_unknown : bool) (raws : list LinuxHeapEvent) :
  u64 process → Forall vm_call raws → size_of raws < u64_max →
  ∃ m rs, plan_vm_calls process preexisting_unknown raws VmModel_new = (Ok rs, m) ∧
    size_of raws ≤ size_of rs ∧
    ∀ events, Forall2 stamped rs events → size_of events ≤ u64_max →
      Forall (λ e, validate_event e = Ok tt) events ∧
      ∃ t, observe_all events GenerationTracker_new = (Ok tt, t) ∧
        ∀ id a, mapped t id a ↔ fo_mapping_id <$> live_owner m a = Some id.
Proof.
  intros Hprocess Hraws Hroom. destruct model_inv_new as [Hm Hset].
  destruct (plan_vm_calls_run process preexisting_unknown Hprocess raws VmModel_new Hraws Hm Hset)
    as (m & rs & Hrun & [A1 A2 [Hok Hsim]] & Hsize & _); [cbn; lia|].
  exists m, rs. split; [done|]. split; [done|]. intros events Hev Hcount. split.
  - clear -Hok Hev. induction Hev as [|r e rs events He _ IH]; [constructor|].
    apply Forall_cons in Hok as [[_ Hr] Hok]. constructor; [by apply Hr|by apply IH].
  - destruct (Hsim GenerationTracker_new events Hev) as (t & Hobs & Ht & _); [cbn; lia|apply follows_new|].
    exists t. split; [done|]. intros id a. eapply mapped_owner; [exact Ht|done|apply A1].
Qed.

(** ** The owner of an address *)

Definition piece_at (φ : LiveFragmentOwner → bool) (pieces : list LiveFragment) (a : Z) : bool :=
  existsb (λ f, φ (f_value f) && within (f_begin f) (f_end f) a) pieces.

Lemma piece_at_clip φ b e m a : interval_wf m →
  piece_at φ (omap (clip b e) m) a =
  match value_at a m with Some o => within b e a && φ o | None => false end.
Proof.
  intros Hm. apply eq_iff_eq_true. unfold piece_at. rewrite existsb_exists. split.
  - intros (f & Hf%list_elem_of_In & [Hφ Ha%within_true]%andb_true_iff).
    apply list_elem_of_omap in Hf as (x & (p & q & Epq)%list_elem_of_split & Ex).
    destruct (clip_piece _ _ _ _ Ex) as (H1 & H2 & H3 & Hv & H4 & H5). rewrite Epq in *.
    rewrite value_at_mid by (done || (split; lia)). rewrite <- Hv, Hφ.
    rewrite (proj2 (within_true b e a)) by lia. done.
  - pose proof (value_at_clip b e m a) as Hclip. destruct (value_at a m) as [o|]; [|done].
    intros [Hin Hφ]%andb_true_iff. rewrite Hin in Hclip.
    apply value_at_elem in Hclip as (x & (f & -> & Hf)%list_elem_of_fmap & Hc & Hv). cbn in *.
    exists f. split; [by apply list_elem_of_In|]. rewrite Hv, Hφ. apply within_true, Hc.
Qed.

Lemma value_at_released seq b e m a : interval_wf m →
  value_at a (release_space seq (omap (clip b e) m) m) =
  match value_at a m with
  | Some o => if within b e a && (fo_sequence o <? seq) then None else Some o
  | None => None
  end.
Proof.
  intros Hm. rewrite value_at_release.
  assert (older_piece_at seq (omap (clip b e) m) a = piece_at (λ o, fo_sequence o <? seq) (omap (clip b e) m) a) as ->.
  { unfold older_piece_at, piece_at, newer. induction (omap (clip b e) m) as [|f l IH]; [done|].
    cbn [existsb]. by rewrite IH, Z.ltb_antisym. }
  rewrite piece_at_clip by done. destruct (value_at a m); [done|]. done.
Qed.

Lemma value_at_claim owner e stale a : ∀ cursor m, interval_wf m → 0 ≤ cursor → e ≤ u64_max →
  stale_within e stale cursor →
  value_at a (claim_space owner e stale cursor m) =
  if within cursor e a && negb (piece_at (λ _, true) stale a) then Some owner else value_at a m.
Proof.
  induction stale as [|p stale IH]; intros cursor m Hm H0 He Hst; cbn [claim_space].
  - cbn. rewrite andb_true_r. by apply value_at_insert.
  - destruct Hst as (H1 & H2 & Hst). pose proof (stale_within_le _ _ _ Hst).
    destruct (value_at_insert cursor (f_begin p) owner m a Hm H0 ltac:(lia)) as [Hwf Hv].
    rewrite IH by (done || lia). unfold fill. rewrite Hv.
    change (piece_at (λ _, true) (p :: stale) a) with
      (within (f_begin p) (f_end p) a || piece_at (λ _, true) stale a).
    assert (Hlow : a < f_end p → piece_at (λ _, true) stale a = false).
    { intros Ha. apply not_true_iff_false. unfold piece_at. rewrite existsb_exists.
      intros (f & Hf%list_elem_of_In & Hin). cbn in Hin. apply within_true in Hin.
      apply stale_within_after in Hst. rewrite Forall_forall in Hst. destruct (Hst f Hf). lia. }
    unfold within in *. destruct (Z.leb_spec (f_end p) a) as [Ha|Ha]; [|rewrite (Hlow Ha)];
      destruct (Z.leb_spec (f_begin p) a), (Z.leb_spec cursor a), (Z.ltb_spec a (f_begin p)),
        (Z.ltb_spec a (f_end p)), (Z.ltb_spec a e); try lia; cbn; try done;
      by destruct (piece_at _ stale a).
Qed.

Lemma stale_piece_at seq b e m a : interval_wf m →
  piece_at (λ _, true) (stale_of seq b e m) a =
  match value_at a m with Some o => within b e a && (seq <=? fo_sequence o) | None => false end.
Proof.
  intros Hm. rewrite <- (piece_at_clip (λ o, seq <=? fo_sequence o)) by done.
  unfold stale_of, piece_at, newer. induction (omap (clip b e) m) as [|f l IH]; [done|].
  cbn [List.filter]. destruct (seq <=? fo_sequence (f_value f)) eqn:E; cbn [existsb]; by rewrite E, IH || by rewrite IH.
Qed.

(** A claim takes the address from an older owner or from none. *)
Lemma value_at_claimed owner b e m a : interval_wf m → 0 ≤ b → b ≤ e → e ≤ u64_max →
  let seq := fo_sequence owner in
  value_at a (claim_space owner e (stale_of seq b e m) b (release_space seq (omap (clip b e) m) m)) =
  if within b e a then
    match value_at a m with
    | Some o => if seq <=? fo_sequence o then Some o else Some owner
    | None => Some owner
    end
  else value_at a m.
Proof.
  intros Hm Hb Hbe He seq. rewrite value_at_claim; [|by apply release_space_wf|done|done|].
  2:{ eapply stale_within_filter; [done|by apply pieces_of_clip|apply clip_within]. }
  rewrite stale_piece_at, value_at_released by done.
  destruct (within b e a); cbn [andb]; [|by destruct (value_at a m)].
  destruct (value_at a m) as [o|]; [|done]. rewrite Z.ltb_antisym. by destruct (seq <=? fo_sequence o).
Qed.

(** ** What a call does to the owner of an address *)

Definition release_owner (seq b e a : Z) (o : option LiveFragmentOwner) : option LiveFragmentOwner :=
  match o with
  | Some x => if within b e a && (fo_sequence x <? seq) then None else Some x
  | None => None
  end.

Definition claim_owner (new : LiveFragmentOwner) (b e a : Z) (o : option LiveFragmentOwner)
    : option LiveFragmentOwner :=
  if within b e a then
    match o with
    | Some x => if fo_sequence new <=? fo_sequence x then Some x else Some new
    | None => Some new
    end
  else o.

(** The effect of a call whose new mapping, if it makes one, is [id]. *)
Definition call_effect (raw : LinuxHeapEvent) (id a : Z) (o : option LiveFragmentOwner)
    : option LiveFragmentOwner :=
  let seq := raw_completion_sequence raw in
  let new := {| fo_mapping_id := id; fo_sequence := seq |} in
  if negb (raw_succeeded raw) then o else
  match raw_operation raw with
  | Raw_kVmAllocate =>
      claim_owner new (raw_result_address raw) (raw_result_address raw + raw_requested_size raw) a o
  | Raw_kVmUnmap => release_owner seq (raw_address raw) (raw_address raw + raw_requested_size raw) a o
  | Raw_kVmRemap =>
      claim_owner new (raw_result_address raw) (raw_result_address raw + raw_count raw) a
        (release_owner seq (raw_address raw) (raw_address raw + raw_requested_size raw) a o)
  | _ => o
  end.

Section effects.
Context (process : Z) (preexisting_unknown : bool).
Hypothesis Hprocess : u64 process.

(** A computation that ends normally and turns every owner into [f] of it. *)
Definition turns (p : planning unit) (m : VmModel) (f : Z → option LiveFragmentOwner → option LiveFragmentOwner)
    : Prop :=
  ∃ m', p m = (Ok tt, m') ∧ ∀ a, live_owner m' a = f a (live_owner m a).

Lemma create_turns base size seq section record m : model_inv m → settled m →
  next_mapping_id_ m ≠ u64_max → 0 < base → 0 < size → base + size ≤ u64_max →
  creating record section base (base + size) →
  turns (create_generation process base size seq section record) m
    (claim_owner {| fo_mapping_id := next_mapping_id_ m; fo_sequence := seq |} base (base + size)).
Proof using Hprocess.
  intros Hm Hset Hn Hb Hs He Hrec.
  destruct (create_generation_run process Hprocess base size seq section record m) as (m' & _ & Hrun & _ & _ & Hspace);
    try done. exists m'. split; [done|]. intros a. unfold live_owner. rewrite Hspace.
  apply value_at_claimed; [apply Hm|lia..].
Qed.

Lemma subtract_turns b e seq m : model_inv m → settled m → 0 < b →
  ∃ m', plan_subtract process b e seq m = (Ok tt, m') ∧ model_inv m' ∧ settled m' ∧
    next_mapping_id_ m' = next_mapping_id_ m ∧
    ∀ a, live_owner m' a = release_owner seq b e a (live_owner m a).
Proof using Hprocess.
  intros Hm Hset Hb. destruct (plan_subtract_run process Hprocess 1 [] b e seq m) as (m' & Hrun & [S1 S2 S3 S4 _ _]);
    try done; [constructor..|]. exists m'. split; [done|]. split; [done|]. split; [auto|]. split; [done|].
  intros a. unfold live_owner. rewrite S3. apply value_at_released, Hm.
Qed.

Lemma munmap_turns raw m : LinuxHeapEvent_wt raw → 0 < raw_address raw →
  raw_address raw + raw_requested_size raw ≤ u64_max → model_inv m → settled m →
  turns (plan_munmap process preexisting_unknown raw) m
    (release_owner (raw_completion_sequence raw) (raw_address raw) (raw_address raw + raw_requested_size raw)).
Proof using Hprocess.
  intros Hwt Hb He Hm Hset. pose proof Hwt as (_ & _ & _ & _ & Hreq & _ & _ & _ & Haddr & _).
  destruct (subtract_turns (raw_address raw) (raw_address raw + raw_requested_size raw)
    (raw_completion_sequence raw) m Hm Hset Hb) as (m1 & Hrun & _ & _ & _ & Howner).
  unfold plan_munmap, turns. cbv zeta. rewrite wrap64_small by word.
  erewrite proc_bind_run; [|exact Hrun]. erewrite (proc_bind_run get_state); [|reflexivity].
  destruct (plan m1); [|by exists m1]. eexists. by split.
Qed.

Lemma pair_turns raw section m : remap_call raw → model_inv m → settled m → next_mapping_id_ m ≠ u64_max →
  turns (plan_mremap_pair process preexisting_unknown raw section) m (λ a o,
    claim_owner {| fo_mapping_id := next_mapping_id_ m; fo_sequence := raw_completion_sequence raw |}
      (raw_result_address raw) (raw_result_address raw + raw_count raw) a
      (release_owner (raw_completion_sequence raw) (raw_address raw) (raw_address raw + raw_requested_size raw) a o)).
Proof using Hprocess.
  intros [Hwt H1 H2 H3 H4 H5] Hm Hset Hn.
  pose proof Hwt as (_ & _ & _ & _ & Hreq & Hcount & _ & Hres & Haddr & _).
  destruct (subtract_turns (raw_address raw) (raw_address raw + raw_requested_size raw)
    (raw_completion_sequence raw) m Hm Hset H1) as (m1 & Hrun & Hm1 & Hset1 & Hn1 & Howner).
  unfold plan_mremap_pair, turns. cbv zeta. rewrite wrap64_small by word.
  erewrite (proc_bind_run get_state); [|reflexivity]. erewrite proc_bind_run; [|exact Hrun].
  erewrite (proc_bind_run get_state); [|reflexivity].
  set (tracked := negb (Nat.eqb (length (plan m1)) (length (plan m)))).
  assert (∃ rs, (if negb tracked then push_record (make_unmatched_free_record process preexisting_unknown
      (raw_address raw) (raw_requested_size raw)) else mret tt) m1 = (Ok tt, pushed rs m1)) as [rs Hhalf].
  { destruct tracked; [exists []; by rewrite pushed_nil|by eexists]. }
  erewrite proc_bind_run; [|exact Hhalf].
  set (st := if negb tracked then adopted_status preexisting_unknown else Status_kSuccess).
  assert (Hstat : st = Status_kSuccess ∨ st = Status_kPreexisting).
  { unfold st, adopted_status. repeat case_match; tauto. }
  destruct (create_turns (raw_result_address raw) (raw_count raw) (raw_completion_sequence raw) section
    (λ id, if section then map_record process 0 (raw_result_address raw) (raw_count raw) 0 0 id st
      else allocation_record process raw (raw_address raw) (raw_result_address raw) (raw_count raw) 0 id
        (raw_result_address raw) (raw_count raw) st) (pushed rs m1)) as (m' & Hrun' & Hturn); try done.
  - by apply (proj1 (model_inv_pushed rs m1)).
  - change (next_mapping_id_ m1 ≠ u64_max). by rewrite Hn1.
  - destruct section; [apply map_creating|apply allocation_creating]; done || word.
  - exists m'. split; [exact Hrun'|]. intros a. rewrite Hturn.
    change (next_mapping_id_ (pushed rs m1)) with (next_mapping_id_ m1). rewrite Hn1.
    change (live_owner (pushed rs m1) a) with (live_owner m1 a). by rewrite Howner.
Qed.

Lemma turns_ext p m f g : (∀ a o, f a o = g a o) → turns p m f → turns p m g.
Proof using. intros H (m' & Hrun & Hturn). exists m'. split; [done|]. intros a. by rewrite Hturn, H. Qed.

Lemma mremap_turns raw m : remap_call raw → raw_result_address raw ≠ raw_address raw → model_inv m →
  settled m → next_mapping_id_ m ≠ u64_max →
  turns (plan_mremap process preexisting_unknown raw) m (λ a o,
    claim_owner {| fo_mapping_id := next_mapping_id_ m; fo_sequence := raw_completion_sequence raw |}
      (raw_result_address raw) (raw_result_address raw + raw_count raw) a
      (release_owner (raw_completion_sequence raw) (raw_address raw) (raw_address raw + raw_requested_size raw) a o)).
Proof using Hprocess.
  intros Hcall Hmove Hm Hset Hn.
  assert (Hpair : ∀ section, turns (plan_mremap_pair process preexisting_unknown raw section) m _)
    by (intros section; by apply pair_turns).
  unfold turns, plan_mremap in *. cbv zeta. erewrite (proc_bind_run get_state); [|reflexivity].
  rewrite (proj2 (Z.eqb_neq (raw_result_address raw) _)) by done. cbn [negb].
  destruct (find (raw_address raw) (live_mapping_space_ m)) as [f|] eqn:Hfind; [|apply Hpair].
  destruct (find_found _ _ _ (mi_space m Hm) Hfind) as [Hpiece _].
  destruct (mi_owned m Hm _ Hpiece) as [g Hg]. change (owner_id (piece f)) with (piece_id f) in Hg.
  assert (Hgen : generation_for (piece_id f) m = (Ok g, m)).
  { unfold generation_for, mbind, proc_bind, get_state. by rewrite Hg. }
  erewrite proc_bind_run; [|exact Hgen]. destruct (lg_section g); apply Hpair.
Qed.

Lemma vm_event_turns raw m : vm_call raw → model_inv m → settled m → next_mapping_id_ m ≠ u64_max →
  raw_operation raw = Raw_kVmRemap ∧ raw_result_address raw = raw_address raw ∨
  turns (plan_vm_event process preexisting_unknown raw) m (call_effect raw (next_mapping_id_ m)).
Proof using Hprocess.
  intros (Hwt & Hvm & Hvalid) Hm Hset Hn. unfold plan_vm_event, call_effect.
  pose proof Hwt as (_ & _ & _ & Hra & Hreq & Hcount & _ & Hres & Haddr & _ & _ & Hsh & Hso & _).
  unfold raw_succeeded in *. destruct (bool_decide (raw_status raw = Raw_kSuccess)) eqn:Est; cbn [negb].
  2:{ right. eexists. by split. }
  unfold validate_operation, raw_succeeded in Hvalid. rewrite Est in Hvalid. cbn [andb] in Hvalid.
  destruct (raw_operation raw) eqn:Eop; try discriminate Hvm;
    unfold invalid_argument_if, throw_if in Hvalid; case_match; try discriminate Hvalid; clear Hvalid;
    bool_facts; cbn in *.
  - right. assert (0 < raw_result_address raw ∧ 0 < raw_requested_size raw ∧
      raw_result_address raw + raw_requested_size raw ≤ u64_max) as (? & ? & ?) by word.
    pose proof (wrap32_u32 (raw_protection raw)).
    unfold plan_mmap_anonymous, plan_mmap_section. cbv zeta.
    destruct (raw_section_handle raw =? kMapAnonymousHandle); apply create_turns; try assumption;
      [apply allocation_creating|apply map_creating]; try assumption; left; reflexivity.
  - right. apply munmap_turns; done || word.
  - destruct (Z.eq_dec (raw_result_address raw) (raw_address raw)); [by left|right].
    apply mremap_turns; try done. split; done || word.
Qed.

End effects.

(** C4: what a virtual memory call does to the owner of each address.  After any
    history, a call that maps, unmaps or moves plans its records and changes the owner of
    an address by the completion sequences alone, whatever the order in which the calls
    reached the writer: a range it releases loses the owners that completed before it,
    the range of a new mapping goes to the new mapping except where a later call's owner
    already stands, and a call that failed changes nothing. *)
Theorem vm_call_effect (process : Z) (preexisting_unknown : bool) (history : list LinuxHeapEvent)
    (raw : LinuxHeapEvent) (records : list VmPlanRecord) (m : VmModel) :
  u64 process → Forall vm_call (raw :: history) → size_of history + 1 < u64_max →
  plan_vm_calls process preexisting_unknown history VmModel_new = (Ok records, m) →
  ¬ (raw_operation raw = Raw_kVmRemap ∧ raw_result_address raw = raw_address raw) →
  ∃ rs m', plan_vm_call process preexisting_unknown raw m = (Ok rs, m') ∧
    (∀ a, fo_mapping_id <$> live_owner m a ≠ Some (next_mapping_id_ m)) ∧
    ∀ a, live_owner m' a = call_effect raw (next_mapping_id_ m) a (live_owner m a).
Proof.
  intros Hprocess [Hraw Hhist]%Forall_cons Hroom Hrun Hmove. destruct model_inv_new as [Hm0 Hset0].
  destruct (plan_vm_calls_run process preexisting_unknown Hprocess history VmModel_new)
    as (m1 & rs1 & Hrun1 & [Hm Hset _] & _ & Hnext); try done; [cbn; lia|].
  rewrite Hrun in Hrun1. injection Hrun1 as _ <-. change (next_mapping_id_ VmModel_new) with 1 in Hnext.
  set (m2 := m <| plan := [] |>).
  assert (Hm2 : model_inv m2).
  { destruct Hm as [H1 H2 H3 H4]. split; try done. intros id g Hg. destruct (H3 id g Hg). by split. }
  destruct (vm_event_turns process preexisting_unknown Hprocess raw m2 Hraw Hm2) as [?|(m' & Hevent & Hturn)];
    [done|cbn; lia|tauto|].
  exists (plan m'), m'. split; [|split].
  - unfold plan_vm_call. erewrite (proc_bind_run (modify _)); [|reflexivity].
    erewrite proc_bind_run; [|exact Hevent]. by erewrite (proc_bind_run get_state); [|reflexivity].
  - intros a. destruct (live_owner m a) as [o|] eqn:E; [|done]. intros [= Hid].
    apply value_at_elem in E as (x & Hx & _ & Hv). destruct (mi_owned m Hm x Hx) as [g Hg].
    unfold owner_id in Hg. rewrite Hv, Hid in Hg. by rewrite unused_id in Hg.
  - exact Hturn.
Qed.

(** ** The virtual memory model on concrete calls

    A short history of calls whose events arrive in another order than they completed
    in, the theorems of VmTheorems.v applied to it, and a resize that spares its
    neighbours. *)

(** ** Calls *)

Definition no_stack : CapturedStack :=
  {| cs_frames := replicate 64 0; cs_frame_count := 0; cs_requested_depth := 0;
     cs_status := Captured_kDisabled |}.

Definition raw_vm (op : LinuxHeapEventOperation) (api address size count result handle seq : Z)
    : LinuxHeapEvent :=
  {| raw_queue_sequence := seq; raw_monotonic_ticks := 100; raw_thread_id := 7;
     raw_requested_address := 0; raw_requested_size := size; raw_count := count; raw_alignment := 0;
     raw_result_address := result; raw_address := address; raw_protection := 0; raw_map_flags := 0;
     raw_section_handle := handle; raw_section_offset := 0; raw_completion_sequence := seq;
     raw_operation_result := 0; raw_api_id := api; raw_operation := op; raw_status := Raw_kSuccess;
     raw_stack := no_stack |}.

Definition raw_map (address size seq : Z) : LinuxHeapEvent :=
  raw_vm Raw_kVmAllocate kMmapApiId 0 size 0 address kMapAnonymousHandle seq.
Definition raw_map_file (address size seq : Z) : LinuxHeapEvent :=
  raw_vm Raw_kVmAllocate kMmapApiId 0 size 0 address 3 seq.
Definition raw_unmap (address size seq : Z) : LinuxHeapEvent :=
  raw_vm Raw_kVmUnmap kMunmapApiId address size 0 0 0 seq.
Definition raw_remap (address old_size new_size result seq : Z) : LinuxHeapEvent :=
  raw_vm Raw_kVmRemap kMremapApiId address old_size new_size result 0 seq.

(** The second unmap completed before the mapping that arrives first. *)
Definition example_calls : list LinuxHeapEvent :=
  [raw_map 0x10000 0x4000 1; raw_map_file 0x14000 0x4000 2; raw_unmap 0x12000 0x4000 3;
   raw_map 0x12000 0x1000 6; raw_unmap 0x10000 0x8000 5; raw_remap 0x12000 0x1000 0x3000 0x12000 7;
   raw_remap 0x12000 0x3000 0x3000 0x40000 8].

Definition planned_records (raws : list LinuxHeapEvent) : result exn (list VmPlanRecord) :=
  (plan_vm_calls 1000 false raws VmModel_new).1.
Definition model_after (raws : list LinuxHeapEvent) : VmModel :=
  (plan_vm_calls 1000 false raws VmModel_new).2.

Definition stamp (seq : Z) (r : VmPlanRecord) : Event :=
  {| ev_header := {| sequence := seq; monotonic_ticks := 100; thread_id := 7; api_id := kMmapApiId;
       status := vp_status r; stack_id := 0; eh_flags := 0;
       system_error := {| se_domain := Domain_kNone; se_code := 0 |} |};
     ev_payload := vp_payload r |}.

Definition stamp_all (rs : list VmPlanRecord) : list Event :=
  zip_with stamp (seqZ 1 (size_of rs)) rs.

#[local] Instance returns_dec (r : result exn unit) : Decision (r = Ok tt).
Proof. destruct r as [[]|]; [by left|by right]. Defined.

#[global] Instance vm_call_dec raw : Decision (vm_call raw).
Proof. unfold vm_call, LinuxHeapEvent_wt, CapturedStack_wt. apply _. Defined.

Lemma example_calls_ok : Forall vm_call example_calls.
Proof. apply (bool_decide_unpack _). vm_compute. exact I. Qed.

(** The owners of some addresses at the end. *)
Example example_owners :
  (λ a, fo_mapping_id <$> live_owner (model_after example_calls) a) <$>
    [0x10000; 0x12000; 0x13000; 0x14000; 0x17000; 0x40000; 0x42000; 0x43000] =
  [None; None; None; None; None; Some 4; Some 4; None].
Proof. vm_compute. reflexivity. Qed.

(** What a resize in place leaves behind and claims, before the move. *)
Example example_resized :
  (λ a, fo_mapping_id <$> live_owner (model_after (take 6 example_calls)) a) <$>
    [0x11000; 0x12000; 0x13000; 0x14000; 0x15000] = [None; Some 3; Some 3; Some 3; None].
Proof. vm_compute. reflexivity. Qed.

(** ** The theorems at this history *)

Lemma vm_plans_refine_tracker_witness :
  Forall vm_call example_calls ∧ size_of example_calls < u64_max ∧
  ∃ m rs, plan_vm_calls 1000 false example_calls VmModel_new = (Ok rs, m) ∧
    size_of example_calls ≤ size_of rs ∧
    ∀ events, Forall2 stamped rs events → size_of events ≤ u64_max →
      Forall (λ e, validate_event e = Ok tt) events ∧
      ∃ t, observe_all events GenerationTracker_new = (Ok tt, t) ∧
        ∀ id a, mapped t id a ↔ fo_mapping_id <$> live_owner m a = Some id.
Proof.
  split; [exact example_calls_ok|]. split; [by vm_compute|].
  apply (vm_plans_refine_tracker 1000 false example_calls); [|exact example_calls_ok|by vm_compute].
  by vm_compute.
Defined.

(** The records of the history are stamped into valid events the tracker accepts. *)
Example example_observed :
  match planned_records example_calls with
  | Ok rs => ∃ t, observe_all (stamp_all rs) GenerationTracker_new = (Ok tt, t)
  | Throw _ => False
  end.
Proof. vm_compute. eexists. reflexivity. Qed.

Lemma vm_call_effect_witness :
  ∃ rs m', plan_vm_call 1000 false (raw_unmap 0x10000 0x8000 5) (model_after (take 4 example_calls)) = (Ok rs, m') ∧
    (∀ a, fo_mapping_id <$> live_owner (model_after (take 4 example_calls)) a ≠
       Some (next_mapping_id_ (model_after (take 4 example_calls)))) ∧
    ∀ a, live_owner m' a = call_effect (raw_unmap 0x10000 0x8000 5)
      (next_mapping_id_ (model_after (take 4 example_calls))) a
      (live_owner (model_after (take 4 example_calls)) a).
Proof.
  apply (vm_call_effect 1000 false (take 4 example_calls) (raw_unmap 0x10000 0x8000 5)
    (match planned_records (take 4 example_calls) with Ok rs => rs | Throw _ => [] end)).
  - by vm_compute.
  - apply (bool_decide_unpack _). vm_compute. exact I.
  - by vm_compute.
  - vm_compute. reflexivity.
  - intros [H _]. discriminate H.
Defined.

(** ** A resize that spares its neighbours

    A shrink releases what the call names after the run of fragments only when the run
    itself shrinks.  Here the run is as long as the new size already, so the
    neighbour at 0x12000 stays live although [old_size] covers it and the kernel has
    unmapped it. *)

Definition neighbour_calls : list LinuxHeapEvent :=
  [raw_map 0x10000 0x2000 1; raw_map 0x12000 0x6000 2; raw_remap 0x10000 0x8000 0x2000 0x10000 3].

Example shrink_spares_neighbours : Forall vm_call neighbour_calls ∧
  (λ a, fo_mapping_id <$> live_owner (model_after neighbour_calls) a) <$> [0x11fff; 0x12000; 0x17fff] =
    [Some 1; Some 2; Some 2].
Proof. split; [apply (bool_decide_unpack _); vm_compute; exact I|vm_compute; reflexivity]. Qed.

(** One page longer, and the tail of the call goes with the tail of the run. *)
Example shrink_releases_neighbours :
  (λ a, fo_mapping_id <$> live_owner (model_after
      [raw_map 0x10000 0x2000 1; raw_map 0x12000 0x6000 2; raw_remap 0x10000 0x8000 0x1000 0x10000 3]) a) <$>
    [0x10fff; 0x11000; 0x12000; 0x17fff] = [Some 1; None; None; None].
Proof. vm_compute. reflexivity. Qed.
