(* ===== verification/CaptureWriter.v ===== *)
(** * The capture writer

    The writer thread of src/agent/linux/trace_writer.cpp: raw events in, chunks of a
    trace file out.  The members of [LinuxTraceWriter::Implementation] are a record; its
    virtual memory model, stack dictionary and trace writer are the states of
    VmModel.v, StackDictionary.v and TraceWriter.v, whose operations run on the member
    they belong to.  A throw keeps the members as they were reached.

    What the writer takes from outside is an argument: the module events a poll of the
    tracker finds, the raw events of the queue, the drops both report, the samples of
    the memory samplers, the answers of the clock and those of the counter source.  Test faults, the live telemetry
    and the file system (opening, closing and renaming the output) are left out. *)

From S2P Require Import Prelude Bytes Text IpcProtocol OrderedMap IntervalSet WireFormat Compression Event Completeness TraceData EventCodec StatisticsCodec DictionaryCodec MemoryCodec TraceWriter HookRegistry RawEvents StackDictionary VmModel.

(** ** Data *)

Record LiveModule : Set := { lm_module_id : Z; lm_base : Z; lm_size : Z }.

Record ApiCounters : Set := {
  ac_successful : Z;
  ac_failed : Z;
  ac_extra_records : Z;
  ac_pending : Z;
  ac_written : Z;
  ac_trace_dropped : Z;
}.

#[global] Instance ApiCounters_members : Members ApiCounters := λ c,
  {| ac_successful := ac_successful c; ac_failed := ac_failed c;
     ac_extra_records := ac_extra_records c; ac_pending := ac_pending c;
     ac_written := ac_written c; ac_trace_dropped := ac_trace_dropped c |}.

Definition ApiCounters_new : ApiCounters :=
  {| ac_successful := 0; ac_failed := 0; ac_extra_records := 0; ac_pending := 0; ac_written := 0;
     ac_trace_dropped := 0 |}.

(** [LinuxTraceWriterApiCounterSnapshot]. *)
Record CounterSnapshot : Set := {
  sn_api_id : Z;
  sn_recordable_calls : Z;
  sn_successful_calls : Z;
  sn_failed_calls : Z;
  sn_filtered_calls : Z;
  sn_dropped_events : Z;
}.

(** [LinuxTraceWriterBaseline]; the counters are there when [has_counters]. *)
Record Baseline : Set := {
  bl_monotonic_ticks : Z;
  bl_counters : option MemoryCounters;
  bl_categories : list AgentMemoryCategorySample;
}.

Inductive CaptureStatus : Set := Capture_kComplete | Capture_kFileLimit | Capture_kWriterError.

Record ApiResult : Set := {
  ar_api_id : Z;
  ar_observed_calls : Z;
  ar_written_events : Z;
  ar_filtered_before_queue : Z;
  ar_dropped_events : Z;
}.

(** [error_message] to [error_chunk_type], set together by the first failure. *)
Record WriterFailure : Set := {
  wf_message : string;
  wf_phase : TraceWritePhase;
  wf_system_error : Z;
  wf_file_offset : option Z;
  wf_chunk_type : option ChunkType;
}.

(** [LinuxTraceWriterResult] less the two paths. *)
Record CaptureResult : Set := {
  cr_status : CaptureStatus;
  cr_statistics : option CaptureStatistics;
  cr_per_api : list ApiResult;
  cr_stack_capture_failures : Z;
  cr_queue_dropped_events : Z;
  cr_trace_dropped_events : Z;
  cr_timestamp_adjustments : Z;
  cr_stack_dictionary_segments : Z;
  cr_module_load_records : Z;
  cr_module_unload_records : Z;
  cr_module_notification_drops : Z;
  cr_bytes_written : Z;
  cr_completeness_mask : Z;
  cr_memory_chunks : Z;
  cr_memory_counters_records : Z;
  cr_memory_map_records : Z;
  cr_memory_agent_records : Z;
  cr_statistics_written : bool;
  cr_end_of_trace_written : bool;
  cr_error : option WriterFailure;
  cr_tail_error_message : string;
}.

#[global] Instance CaptureResult_members : Members CaptureResult := λ r,
  {| cr_status := cr_status r; cr_statistics := cr_statistics r; cr_per_api := cr_per_api r;
     cr_stack_capture_failures := cr_stack_capture_failures r;
     cr_queue_dropped_events := cr_queue_dropped_events r;
     cr_trace_dropped_events := cr_trace_dropped_events r;
     cr_timestamp_adjustments := cr_timestamp_adjustments r;
     cr_stack_dictionary_segments := cr_stack_dictionary_segments r;
     cr_module_load_records := cr_module_load_records r;
     cr_module_unload_records := cr_module_unload_records r;
     cr_module_notification_drops := cr_module_notification_drops r;
     cr_bytes_written := cr_bytes_written r; cr_completeness_mask := cr_completeness_mask r;
     cr_memory_chunks := cr_memory_chunks r;
     cr_memory_counters_records := cr_memory_counters_records r;
     cr_memory_map_records := cr_memory_map_records r;
     cr_memory_agent_records := cr_memory_agent_records r;
     cr_statistics_written := cr_statistics_written r;
     cr_end_of_trace_written := cr_end_of_trace_written r; cr_error := cr_error r;
     cr_tail_error_message := cr_tail_error_message r |}.

Definition CaptureResult_new : CaptureResult :=
  {| cr_status := Capture_kWriterError; cr_statistics := None; cr_per_api := [];
     cr_stack_capture_failures := 0; cr_queue_dropped_events := 0; cr_trace_dropped_events := 0;
     cr_timestamp_adjustments := 0; cr_stack_dictionary_segments := 0;
     cr_module_load_records := 0; cr_module_unload_records := 0;
     cr_module_notification_drops := 0; cr_bytes_written := 0; cr_completeness_mask := 0;
     cr_memory_chunks := 0; cr_memory_counters_records := 0; cr_memory_map_records := 0;
     cr_memory_agent_records := 0; cr_statistics_written := false;
     cr_end_of_trace_written := false; cr_error := None; cr_tail_error_message := EmptyString |}.

(** The sequences and ticks of the pending events, or of the dropped ones. *)
Record Span : Set := { sp_sequence_begin : Z; sp_sequence_end : Z; sp_tick_begin : Z; sp_tick_end : Z }.

#[global] Instance Span_members : Members Span := λ s,
  {| sp_sequence_begin := sp_sequence_begin s; sp_sequence_end := sp_sequence_end s;
     sp_tick_begin := sp_tick_begin s; sp_tick_end := sp_tick_end s |}.

Definition no_span : Span :=
  {| sp_sequence_begin := 0; sp_sequence_end := 0; sp_tick_begin := 0; sp_tick_end := 0 |}.

(** The members; [cw_module_queue] is what the module tracker has found and not handed
    over yet, and [cr_error] of the result is there when [error_recorded_]. *)
Record CaptureWriter : Type := {
  cw_vm : VmModel;
  cw_dictionary : StackDictionary NormalizedStack;
  cw_writer : TraceWriter;
  cw_completeness : CompletenessTracker;
  cw_pending_module_event : option RawModuleEvent;
  cw_module_queue : list RawModuleEvent;
  cw_buffer_configuration : option BufferConfiguration;
  cw_baseline_pre_init : option Baseline;
  cw_baseline_post_init : option Baseline;
  cw_module_payload : bytes;
  cw_stack_payload : bytes;
  cw_event_payload : bytes;
  cw_memory_payload : bytes;
  cw_live_allocations : gmap Z Z;
  cw_live_modules : ordered_map LiveModule;
  cw_api_counters : list ApiCounters;
  cw_custom_allocation_counters : gmap Z Z;
  cw_custom_hook_failures : list CustomHookFailure;
  cw_capture_begun : bool;
  cw_metadata_written : bool;
  cw_file_limit_reached : bool;
  cw_initial_modules_processed : bool;
  cw_error_tail_attempted : bool;
  cw_result : CaptureResult;
  cw_next_allocation_id : Z;
  cw_next_module_id : Z;
  cw_next_wire_sequence : Z;
  cw_last_wire_sequence : Z;
  cw_last_sequence : Z;
  cw_last_ticks : Z;
  cw_last_module_ticks : Z;
  cw_last_memory_ticks : Z;
  cw_pending_module_loads : Z;
  cw_pending_module_unloads : Z;
  cw_pending_event_count : Z;
  cw_pending_unique_stacks : Z;
  cw_pending_reused_stacks : Z;
  cw_pending_span : Span;
  cw_written_events : Z;
  cw_written_module_loads : Z;
  cw_written_module_unloads : Z;
  cw_module_notification_drops : Z;
  cw_queue_dropped_events : Z;
  cw_trace_dropped_events : Z;
  cw_trace_drop_span : Span;
  cw_stack_capture_failures : Z;
  cw_timestamp_adjustments : Z;
  cw_unique_stacks : Z;
  cw_reused_stacks : Z;
  cw_memory_chunks : Z;
  cw_memory_counters_records : Z;
  cw_memory_map_records : Z;
  cw_memory_agent_records : Z;
}.

#[global] Instance CaptureWriter_members : Members CaptureWriter := λ w,
  {| cw_vm := cw_vm w; cw_dictionary := cw_dictionary w; cw_writer := cw_writer w;
     cw_completeness := cw_completeness w; cw_pending_module_event := cw_pending_module_event w;
     cw_module_queue := cw_module_queue w; cw_buffer_configuration := cw_buffer_configuration w;
     cw_baseline_pre_init := cw_baseline_pre_init w;
     cw_baseline_post_init := cw_baseline_post_init w; cw_module_payload := cw_module_payload w;
     cw_stack_payload := cw_stack_payload w; cw_event_payload := cw_event_payload w;
     cw_memory_payload := cw_memory_payload w; cw_live_allocations := cw_live_allocations w;
     cw_live_modules := cw_live_modules w; cw_api_counters := cw_api_counters w;
     cw_custom_allocation_counters := cw_custom_allocation_counters w;
     cw_custom_hook_failures := cw_custom_hook_failures w;
     cw_capture_begun := cw_capture_begun w; cw_metadata_written := cw_metadata_written w;
     cw_file_limit_reached := cw_file_limit_reached w;
     cw_initial_modules_processed := cw_initial_modules_processed w;
     cw_error_tail_attempted := cw_error_tail_attempted w; cw_result := cw_result w;
     cw_next_allocation_id := cw_next_allocation_id w; cw_next_module_id := cw_next_module_id w;
     cw_next_wire_sequence := cw_next_wire_sequence w;
     cw_last_wire_sequence := cw_last_wire_sequence w; cw_last_sequence := cw_last_sequence w;
     cw_last_ticks := cw_last_ticks w; cw_last_module_ticks := cw_last_module_ticks w;
     cw_last_memory_ticks := cw_last_memory_ticks w;
     cw_pending_module_loads := cw_pending_module_loads w;
     cw_pending_module_unloads := cw_pending_module_unloads w;
     cw_pending_event_count := cw_pending_event_count w;
     cw_pending_unique_stacks := cw_pending_unique_stacks w;
     cw_pending_reused_stacks := cw_pending_reused_stacks w;
     cw_pending_span := cw_pending_span w; cw_written_events := cw_written_events w;
     cw_written_module_loads := cw_written_module_loads w;
     cw_written_module_unloads := cw_written_module_unloads w;
     cw_module_notification_drops := cw_module_notification_drops w;
     cw_queue_dropped_events := cw_queue_dropped_events w;
     cw_trace_dropped_events := cw_trace_dropped_events w;
     cw_trace_drop_span := cw_trace_drop_span w;
     cw_stack_capture_failures := cw_stack_capture_failures w;
     cw_timestamp_adjustments := cw_timestamp_adjustments w;
     cw_unique_stacks := cw_unique_stacks w; cw_reused_stacks := cw_reused_stacks w;
     cw_memory_chunks := cw_memory_chunks w;
     cw_memory_counters_records := cw_memory_counters_records w;
     cw_memory_map_records := cw_memory_map_records w;
     cw_memory_agent_records := cw_memory_agent_records w |}.

(** The members when the constructor has made its three objects. *)
Definition CaptureWriter_start (dictionary : StackDictionary NormalizedStack) (writer : TraceWriter)
    (completeness : CompletenessTracker) (apis : nat) : CaptureWriter :=
  {| cw_vm := VmModel_new; cw_dictionary := dictionary; cw_writer := writer;
     cw_completeness := completeness; cw_pending_module_event := None; cw_module_queue := [];
     cw_buffer_configuration := None; cw_baseline_pre_init := None;
     cw_baseline_post_init := None; cw_module_payload := []; cw_stack_payload := [];
     cw_event_payload := []; cw_memory_payload := []; cw_live_allocations := ∅;
     cw_live_modules := []; cw_api_counters := replicate apis ApiCounters_new;
     cw_custom_allocation_counters := ∅; cw_custom_hook_failures := [];
     cw_capture_begun := false; cw_metadata_written := false; cw_file_limit_reached := false;
     cw_initial_modules_processed := false; cw_error_tail_attempted := false;
     cw_result := CaptureResult_new; cw_next_allocation_id := 1; cw_next_module_id := 1;
     cw_next_wire_sequence := 1; cw_last_wire_sequence := 0; cw_last_sequence := 0;
     cw_last_ticks := 0; cw_last_module_ticks := 0; cw_last_memory_ticks := 0;
     cw_pending_module_loads := 0; cw_pending_module_unloads := 0; cw_pending_event_count := 0;
     cw_pending_unique_stacks := 0; cw_pending_reused_stacks := 0; cw_pending_span := no_span;
     cw_written_events := 0; cw_written_module_loads := 0; cw_written_module_unloads := 0;
     cw_module_notification_drops := 0; cw_queue_dropped_events := 0;
     cw_trace_dropped_events := 0; cw_trace_drop_span := no_span; cw_stack_capture_failures := 0;
     cw_timestamp_adjustments := 0; cw_unique_stacks := 0; cw_reused_stacks := 0;
     cw_memory_chunks := 0; cw_memory_counters_records := 0; cw_memory_map_records := 0;
     cw_memory_agent_records := 0 |}.

Abbreviation capturing := (proc CaptureWriter write_exn).

(** [LinuxTraceWriterOptions]. *)
Record CaptureOptions : Type := {
  co_trace : TraceWriterOptions;
  co_compression : CompressionCodec;
  co_capture_scope : CaptureScope;
  co_flush_interval : Z;
  co_memory_counters_interval : Z;
  co_memory_map_interval : Z;
  co_chunk_target_size : Z;
  co_stack_dictionary_capacity : Z;
  co_maximum_record_size : Z;    (* uint32 *)
  co_session_id : bytes;
  co_monotonic_origin : Z;
  co_utc_origin_ns : Z;
  co_counter_source : bool;    (* whether it is set *)
  co_custom_hooks : list CustomHookSpec;
}.

#[global] Instance CaptureOptions_members : Members CaptureOptions := λ o,
  {| co_trace := co_trace o; co_compression := co_compression o;
     co_capture_scope := co_capture_scope o; co_flush_interval := co_flush_interval o;
     co_memory_counters_interval := co_memory_counters_interval o;
     co_memory_map_interval := co_memory_map_interval o;
     co_chunk_target_size := co_chunk_target_size o;
     co_stack_dictionary_capacity := co_stack_dictionary_capacity o;
     co_maximum_record_size := co_maximum_record_size o; co_session_id := co_session_id o;
     co_monotonic_origin := co_monotonic_origin o; co_utc_origin_ns := co_utc_origin_ns o;
     co_counter_source := co_counter_source o; co_custom_hooks := co_custom_hooks o |}.

(** The constant members, and the answer of [getpid]. *)
Record CaptureConstants : Type := {
  cc_options : CaptureOptions;
  cc_custom_definitions : list CustomHookDefinition;
  cc_monotonic_origin : Z;
  cc_process : Z;
}.

Definition kMaximumStackDefinitionRecordSize : Z :=
  kRecordHeaderSize + 16 + kMaximumCapturedStackDepth * 32.
Definition kMaximumModuleLoadRecordSize : Z := 8 * 1024.
Definition kMaximumEventAdditionSize : Z := 152 + 56.
Definition kLossRecordSize : Z := kRecordHeaderSize + 48.
Definition kStatisticsRecordSize : Z := kRecordHeaderSize + 80 + size_of kLinuxHookRegistry * 48.
Definition kEndOfTraceRecordSize : Z := kRecordHeaderSize + 40.
Definition kTerminalReserveBaseSize : Z :=
  (kChunkHeaderSize + 4 * kLossRecordSize) + (kChunkHeaderSize + kStatisticsRecordSize) +
  (kChunkHeaderSize + kEndOfTraceRecordSize).
Definition kTerminalReservePerCustomHook : Z := 48.

(** ** Members that are objects *)

(** An operation of a member, with the state the member is left in. *)
Definition run_member {S A E} (get : CaptureWriter → S) (set : S → CaptureWriter → CaptureWriter)
    (lift : E → write_exn) (p : proc S E A) : capturing A := λ w,
  match p (get w) with
  | (Ok a, s) => (Ok a, set s w)
  | (Throw e, s) => (Throw (lift e), set s w)
  end.

Definition on_vm {A} (p : planning A) : capturing A :=
  run_member cw_vm (λ m w, w <| cw_vm := m |>) FormatThrown p.
Definition on_dictionary {A} (p : proc (StackDictionary NormalizedStack) exn A) : capturing A :=
  run_member cw_dictionary (λ d w, w <| cw_dictionary := d |>) FormatThrown p.
Definition on_trace {A} (p : writing A) : capturing A :=
  run_member cw_writer (λ t w, w <| cw_writer := t |>) (λ e, e) p.

(** A function of the library that may throw. *)
Definition call {A} (m : result exn A) : capturing A := pure (format_exn m).
Definition fail {A} (c : exn_class) (message : string) : capturing A := call (throw c message).
Definition fail_when (b : bool) (c : exn_class) (message : string) : capturing unit :=
  call (throw_if b c message).

(** [checked_add] of the writer. *)
Definition checked_sum (value addition : Z) (subject : string) : result exn Z :=
  throw_if (u64_max - value <? addition) OverflowError subject ;; mret (value + addition).

(** [checked_add] on a member. *)
Definition add_to (get : CaptureWriter → Z) `{!Update get} (addition : Z) (subject : string)
    : capturing unit :=
  w ← get_state;
  sum ← call (checked_sum (get w) addition subject);
  modify (update get (λ _, sum)).

Definition append_to (get : CaptureWriter → bytes) `{!Update get}
    (append : bytes → result exn bytes) : capturing unit :=
  w ← get_state;
  payload ← call (append (get w));
  modify (update get (λ _, payload)).

(** The counters of an API. *)
Definition counters_at (index : nat) (w : CaptureWriter) : ApiCounters :=
  default ApiCounters_new (cw_api_counters w !! index).

Definition add_to_counter (index : nat) (get : ApiCounters → Z) `{!Update get} (addition : Z)
    (subject : string) : capturing unit :=
  w ← get_state;
  sum ← call (checked_sum (get (counters_at index w)) addition subject);
  modify (λ w, w <| cw_api_counters := <[index := update get (λ _, sum) (counters_at index w)]>
    (cw_api_counters w) |>).

(** ** Construction *)

Section writer.
Context {L : CompressionLibrary}.

Definition validate_options (o : CaptureOptions) : result exn CaptureOptions :=
  let trace := co_trace o in
  validate_capture_scope (co_capture_scope o) ;;
  invalid_argument_if (co_flush_interval o <=? 0) "trace writer flush interval must be positive" ;;
  invalid_argument_if ((co_memory_counters_interval o <? 0) || (co_memory_map_interval o <? 0))
    "trace writer memory snapshot intervals must not be negative" ;;
  invalid_argument_if (kMaximumCustomHooks <? size_of (co_custom_hooks o))
    "trace writer declares too many custom hook points" ;;
  invalid_argument_if ((co_chunk_target_size o =? 0) ||
                       (w_max_uncompressed_chunk_size trace <? co_chunk_target_size o))
    "trace writer chunk target is out of range" ;;
  invalid_argument_if (co_stack_dictionary_capacity o =? 0)
    "trace writer stack dictionary must not be empty" ;;
  invalid_argument_if
    ((co_maximum_record_size o <? kMaximumStackDefinitionRecordSize) ||
     (co_maximum_record_size o <? kMaximumModuleLoadRecordSize) ||
     (w_max_uncompressed_chunk_size trace <? kMaximumStackDefinitionRecordSize) ||
     (w_max_uncompressed_chunk_size trace <? kMaximumModuleLoadRecordSize) ||
     (w_max_uncompressed_chunk_size trace <? kMaximumEventAdditionSize))
    "trace writer limits cannot hold the largest raw stack event" ;;
  let worst_stored := wrap64 (w_max_uncompressed_chunk_size trace +
                              w_max_uncompressed_chunk_size trace / 255 + 64) in
  invalid_argument_if (w_max_stored_chunk_size trace <? worst_stored)
    "trace writer stored chunk size cannot hold the largest compressed chunk" ;;
  mret (o <| co_trace :=
    {| max_file_size := max_file_size trace;
       w_max_uncompressed_chunk_size := w_max_uncompressed_chunk_size trace;
       w_max_stored_chunk_size := w_max_stored_chunk_size trace;
       reserved_tail_size := Z.max (reserved_tail_size trace)
         (kTerminalReserveBaseSize + size_of (co_custom_hooks o) * kTerminalReservePerCustomHook);
       zstd_level := zstd_level trace |} |>).

(** The definition of the hook point with the index [index], and of those after it. *)
Fixpoint make_custom_hook_definitions_from (index : Z) (specs : list CustomHookSpec)
    : result exn (list CustomHookDefinition) :=
  match specs with
  | [] => mret []
  | spec :: specs =>
      let definition := {| chd_api_id := wrap32 (kCustomHookApiIdBase + wrap32 index);
                           chd_module_name := hook_module spec; chd_label := hook_label spec |} in
      validate_custom_hook_definition definition ;;
      definitions ← make_custom_hook_definitions_from (index + 1) specs;
      mret (definition :: definitions)
  end.

Definition make_custom_hook_definitions (specs : list CustomHookSpec)
    : result exn (list CustomHookDefinition) :=
  make_custom_hook_definitions_from 0 specs.

(** [utc_now] and [monotonic_now] are the answers of the clock. *)
Definition make_file_header (o : CaptureOptions) (origin utc_now : Z) : FileHeader :=
  {| pointer_width := 8; platform := Platform_kLinux; architecture := Architecture_kX64;
     fh_flags := 0; session_id := co_session_id o; file_index := 0;
     monotonic_frequency := 1000000000; monotonic_origin := origin;
     utc_origin_ns := if co_utc_origin_ns o =? 0 then utc_now else co_utc_origin_ns o |}.

Definition CaptureWriter_new (output : ostream) (options : CaptureOptions)
    (process monotonic_now utc_now : Z) : result write_exn (CaptureConstants * CaptureWriter) :=
  options ← format_exn (validate_options options);
  definitions ← format_exn (make_custom_hook_definitions (co_custom_hooks options));
  let origin := if co_monotonic_origin options =? 0 then monotonic_now
                else co_monotonic_origin options in
  dictionary ← format_exn (StackDictionary_new (co_stack_dictionary_capacity options));
  writer ← fst (TraceWriter_new output (make_file_header options origin utc_now)
                  (co_trace options));
  completeness ← format_exn (CompletenessTracker_new (co_capture_scope options));
  mret ({| cc_options := options; cc_custom_definitions := definitions;
           cc_monotonic_origin := origin; cc_process := process |},
        CaptureWriter_start dictionary writer completeness
          (length kLinuxHookRegistry + length definitions)).

Context (c : CaptureConstants).

Definition record_limit : Z := co_maximum_record_size (cc_options c).
Definition chunk_target : Z := co_chunk_target_size (cc_options c).
Definition unknown_before : bool := preexisting_allocations_unknown (co_capture_scope (cc_options c)).

(** ** Chunks *)

Definition write_chunk_of (type : ChunkType) (payload : bytes) (codec : CompressionCodec)
    (sequence_begin sequence_end : Z) : capturing bool :=
  written ← on_trace (write_chunk
    {| cd_type := type; cd_version := 1; cd_flags := 0; cd_codec := codec;
       sequence_begin := sequence_begin; sequence_end := sequence_end |} payload);
  match written with
  | Write_kFileLimit => modify (λ w, w <| cw_file_limit_reached := true |>) ;; mret false
  | Write_kWritten => mret true
  end.

Definition write_data_chunk (type : ChunkType) (payload : bytes) (first last : Z) : capturing bool :=
  write_chunk_of type payload (co_compression (cc_options c)) first last.
Definition write_terminal_chunk (type : ChunkType) (payload : bytes) (first last : Z) : capturing bool :=
  write_chunk_of type payload Codec_kNone first last.

Definition flush_stream : capturing unit := on_trace flush.

Definition count_written_modules : capturing unit :=
  w ← get_state;
  add_to cw_written_module_loads (cw_pending_module_loads w) "written module load count overflow" ;;
  add_to cw_written_module_unloads (cw_pending_module_unloads w)
    "written module unload count overflow".

Definition clear_module_payload : capturing unit :=
  modify (λ w, w <| cw_module_payload := [] |> <| cw_pending_module_loads := 0 |>
                <| cw_pending_module_unloads := 0 |>).

Definition flush_module_payload : capturing unit :=
  w ← get_state;
  if size_of (cw_module_payload w) =? 0 then mret tt else
  written ← (if cw_file_limit_reached w then mret false
             else write_data_chunk Chunk_kModule (cw_module_payload w) 0 0);
  (if (written : bool) then count_written_modules else mret tt) ;;
  clear_module_payload.

Definition no_pending (counters : ApiCounters) : ApiCounters := counters <| ac_pending := 0 |>.

Definition clear_pending : capturing unit :=
  modify (λ w, w <| cw_stack_payload := [] |> <| cw_event_payload := [] |>
    <| cw_pending_event_count := 0 |> <| cw_api_counters := no_pending <$> cw_api_counters w |>
    <| cw_pending_unique_stacks := 0 |> <| cw_pending_reused_stacks := 0 |>
    <| cw_pending_span := no_span |>).

(** The loops that move the pending events of every API to another counter, from the
    API with the index [index] on. *)
Fixpoint settle_counters (get : ApiCounters → Z) `{!Update get} (subject : string) (count index : nat)
    : capturing unit :=
  match count with
  | O => mret tt
  | S count =>
      w ← get_state;
      add_to_counter index get (ac_pending (counters_at index w)) subject ;;
      modify (λ w, w <| cw_api_counters := <[index := no_pending (counters_at index w)]>
        (cw_api_counters w) |>) ;;
      settle_counters get subject count (S index)
  end.

(** The span of the dropped events, extended by events dropped after them. *)
Definition extend_drops (dropped : Span) : capturing unit :=
  modify (λ w, w <| cw_trace_drop_span :=
    if cw_trace_dropped_events w =? 0 then dropped
    else (cw_trace_drop_span w) <| sp_sequence_end := sp_sequence_end dropped |>
           <| sp_tick_end := sp_tick_end dropped |> |>).

Definition drop_pending_events : capturing unit :=
  w ← get_state;
  (if cw_pending_event_count w =? 0 then mret tt else
     extend_drops (cw_pending_span w) ;;
     add_to cw_trace_dropped_events (cw_pending_event_count w) "trace drop count overflow" ;;
     settle_counters ac_trace_dropped "per-API trace drop count overflow"
       (length (cw_api_counters w)) 0) ;;
  clear_pending.

(** The two chunks of the pending events; [false]: the file limit. *)
Definition write_pending : capturing bool :=
  w ← get_state;
  stacks ← (if size_of (cw_stack_payload w) =? 0 then mret true
            else write_data_chunk Chunk_kStack (cw_stack_payload w) 0 0);
  if negb stacks then mret false else
  write_data_chunk Chunk_kEvent (cw_event_payload w) (sp_sequence_begin (cw_pending_span w))
    (sp_sequence_end (cw_pending_span w)).

Definition count_written : capturing unit :=
  w ← get_state;
  add_to cw_written_events (cw_pending_event_count w) "written event count overflow" ;;
  settle_counters ac_written "written per-API event count overflow" (length (cw_api_counters w)) 0 ;;
  add_to cw_unique_stacks (cw_pending_unique_stacks w) "unique stack count overflow" ;;
  add_to cw_reused_stacks (cw_pending_reused_stacks w) "reused stack count overflow".

Definition flush_pending : capturing unit :=
  w ← get_state;
  if cw_pending_event_count w =? 0 then flush_module_payload else
  flush_module_payload ;;
  w ← get_state;
  if cw_file_limit_reached w then drop_pending_events else
  written ← write_pending;
  if negb written then drop_pending_events else
  count_written ;;
  clear_pending.

(** ** Modules *)

(** [ModuleLoadFlag::kPathTruncated]. *)
Definition kPathTruncated : Z := Z.shiftl 1 0.

Definition unknown_module_path (base_address : Z) : bytes :=
  text "<unknown-module-0x" ++ to_chars 16 base_address ++ text ">".

(** The load record of a raw event: its path, or a name made from its address. *)
Definition make_module_load (raw : RawModuleEvent) (id ticks : Z) : ModuleLoad :=
  let path := take (Z.to_nat (rm_path_length raw)) (rm_path raw) in
  {| ml_module_id := id; ml_monotonic_ticks := ticks; ml_base_address := rm_base_address raw;
     ml_image_size := rm_image_size raw;
     ml_image_path := if is_empty path then unknown_module_path (rm_base_address raw) else path;
     ml_image_identity := None; ml_pdb_identity := None; ml_pdb_path := [];
     ml_flags := if is_empty path || has_raw_module_flag raw Raw_kPathTruncated
                 then kPathTruncated else 0 |}.

(** The ticks of a module event: not before the origin, not before the last ones. *)
Definition module_ticks (raw : RawModuleEvent) (last : Z) : result exn Z :=
  ticks ← (if has_raw_module_flag raw Raw_kInitialSnapshot
           then mret (Z.max (rm_monotonic_ticks raw) (cc_monotonic_origin c))
           else invalid_argument_if (rm_monotonic_ticks raw <? cc_monotonic_origin c)
                  "raw module event precedes the trace origin" ;;
                mret (rm_monotonic_ticks raw));
  mret (if ticks <? last then last else ticks).

Definition flush_events_first : capturing unit :=
  w ← get_state;
  if cw_pending_event_count w =? 0 then mret tt else flush_pending.

Definition load_module (raw : RawModuleEvent) (ticks : Z) : capturing unit :=
  let base := rm_base_address raw in
  w ← get_state;
  fail_when (rm_image_size raw =? 0) InvalidArgument "raw module load has an empty image range" ;;
  fail_when (bool_decide (is_Some (om_find base (cw_live_modules w))))
    RuntimeError "module load overlaps a live module generation" ;;
  fail_when (cw_next_module_id w =? u64_max) OverflowError "module ID space is exhausted" ;;
  flush_events_first ;;
  let id := cw_next_module_id w in
  modify (λ w, w <| cw_next_module_id := id + 1 |>) ;;
  append_to cw_module_payload (λ p, append_module_load_record p (make_module_load raw id ticks)
                                      record_limit) ;;
  modify (λ w, w <| cw_live_modules :=
    emplace base {| lm_module_id := id; lm_base := base; lm_size := rm_image_size raw |}
      (cw_live_modules w) |>) ;;
  add_to cw_pending_module_loads 1 "pending module load count overflow".

Definition unload_module (raw : RawModuleEvent) (existing : LiveModule) (ticks : Z)
    : capturing unit :=
  flush_events_first ;;
  append_to cw_module_payload (λ p, append_module_unload_record p
    {| mu_module_id := lm_module_id existing; mu_monotonic_ticks := ticks |} record_limit) ;;
  modify (λ w, w <| cw_live_modules := erase (rm_base_address raw) (cw_live_modules w) |>) ;;
  add_to cw_pending_module_unloads 1 "pending module unload count overflow".

Definition end_module_event (ticks : Z) : capturing unit :=
  modify (λ w, w <| cw_last_module_ticks := ticks |>) ;;
  w ← get_state;
  if chunk_target <=? size_of (cw_module_payload w) then flush_module_payload else mret tt.

Definition process_module_event (raw : RawModuleEvent) : capturing unit :=
  w ← get_state;
  fail_when ((rm_base_address raw =? 0) || (size_of (rm_path raw) <? rm_path_length raw))
    InvalidArgument "raw module event is invalid" ;;
  ticks ← call (module_ticks raw (cw_last_module_ticks w));
  match rm_type raw with
  | Raw_kLoad => load_module raw ticks ;; end_module_event ticks
  | Raw_kUnload =>
      match om_find (rm_base_address raw) (cw_live_modules w) with
      | None => modify (λ w, w <| cw_last_module_ticks := ticks |>)
      | Some existing => unload_module raw existing ticks ;; end_module_event ticks
      end
  end.

Fixpoint process_modules (raws : list RawModuleEvent) : capturing unit :=
  match raws with
  | [] => mret tt
  | raw :: raws => process_module_event raw ;; process_modules raws
  end.

(** [module_tracker_.try_dequeue(event)]. *)
Definition try_dequeue : capturing (option RawModuleEvent) :=
  w ← get_state;
  match cw_module_queue w with
  | [] => mret None
  | raw :: raws => modify (λ w, w <| cw_module_queue := raws |>) ;; mret (Some raw)
  end.

(** The pending module event, taken from the queue when there is none. *)
Definition next_module_event : capturing (option RawModuleEvent) :=
  w ← get_state;
  match cw_pending_module_event w with
  | Some raw => mret (Some raw)
  | None =>
      event ← try_dequeue;
      match event with
      | None => mret None
      | Some raw => modify (λ w, w <| cw_pending_module_event := Some raw |>) ;; mret (Some raw)
      end
  end.

(** The loop of [drain_modules_through]; every turn takes an event, so the events there
    are bound the turns. *)
Fixpoint drain_modules_loop (fuel : nat) (maximum_ticks : Z) : capturing unit :=
  match fuel with
  | O => mret tt
  | S fuel =>
      event ← next_module_event;
      match event with
      | None => mret tt
      | Some raw =>
          if maximum_ticks <? rm_monotonic_ticks raw then mret tt else
          process_module_event raw ;;
          modify (λ w, w <| cw_pending_module_event := None |>) ;;
          drain_modules_loop fuel maximum_ticks
      end
  end.

Definition waiting_modules (w : CaptureWriter) : nat :=
  length (option_list (cw_pending_module_event w)) + length (cw_module_queue w).

Definition drain_modules_through (maximum_ticks : Z) : capturing unit :=
  w ← get_state;
  drain_modules_loop (S (waiting_modules w)) maximum_ticks.

Definition poll (found : list RawModuleEvent) : capturing unit :=
  modify (λ w, w <| cw_module_queue := cw_module_queue w ++ found |>).

(** The argument is what the other side reports and forgets. *)
Definition collect_module_drops (dropped : Z) : capturing unit :=
  add_to cw_module_notification_drops dropped "module notification drop count overflow".
Definition collect_queue_drops (dropped : Z) : capturing unit :=
  add_to cw_queue_dropped_events dropped "queue drop count overflow".

(** ** Events *)

Definition trace_stack_status (s : RawStackStatus) : StackCaptureStatus :=
  match s with
  | Captured_kCaptured => Stack_kComplete
  | Captured_kTruncated => Stack_kTruncatedByDepth
  | Captured_kFailed => Stack_kUnwindFailed
  | Captured_kDisabled => Stack_kUnavailable
  end.

(** The frame of an address: in the last live module at or before it, when that holds it. *)
Definition normalize_frame (modules : ordered_map LiveModule) (address : Z) : StackFrame :=
  let absolute := {| sf_module_id := 0; sf_module_offset := 0; sf_absolute_address := address;
                     sf_flags := 0 |} in
  let module := upper_bound address modules in
  if bool_decide (module = begin modules) then absolute else
  match key ← om_prev module modules; om_find key modules with
  | None => absolute
  | Some candidate =>
      if (lm_base candidate <=? address) && (address - lm_base candidate <? lm_size candidate)
      then {| sf_module_id := lm_module_id candidate;
              sf_module_offset := address - lm_base candidate; sf_absolute_address := address;
              sf_flags := 0 |}
      else absolute
  end.

Definition normalize_stack (modules : ordered_map LiveModule) (raw : CapturedStack)
    : NormalizedStack :=
  let used := used_frames raw in
  {| ns_frames := (normalize_frame modules <$> used) ++
       replicate (Z.to_nat kMaximumCapturedStackDepth - length used) blank_frame;
     ns_frame_count := cs_frame_count raw; ns_status := trace_stack_status (cs_status raw) |}.

Definition append_stack_definition (stack_id : Z) (stack : NormalizedStack) : capturing unit :=
  append_to cw_stack_payload (λ p, append_stack_definition_record p
    {| sd_stack_id := stack_id; sd_status := ns_status stack; sd_frames := used_normalized stack |}
    record_limit).

Definition make_allocation_id (api_id : Z) : capturing Z :=
  w ← get_state;
  if api_id <? kCustomHookApiIdBase then
    fail_when (cw_next_allocation_id w =? u64_max) OverflowError "allocation ID space is exhausted" ;;
    modify (λ w, w <| cw_next_allocation_id := cw_next_allocation_id w + 1 |>) ;;
    mret (cw_next_allocation_id w)
  else
    let counter := default 0 (cw_custom_allocation_counters w !! api_id) in
    let set_counter value := modify (λ w, w <| cw_custom_allocation_counters :=
      <[api_id := value]> (cw_custom_allocation_counters w) |>) in
    set_counter counter ;;
    fail_when (Z.shiftl 1 40 <=? counter) OverflowError
      "custom hook allocation ID space is exhausted" ;;
    set_counter (counter + 1) ;;
    mret (Z.lor (wrap64 (Z.shiftl api_id 40)) (counter + 1)).

(** The counters of an API: the built-in hooks first, then the declared hook points. *)
Definition hook_api_index (api_id : Z) : result exn nat :=
  match list_find (λ entry, lh_api_id entry = api_id) kLinuxHookRegistry with
  | Some (index, _) => mret index
  | None =>
      if (kCustomHookApiIdBase <=? api_id) &&
         (api_id - kCustomHookApiIdBase <? size_of (cc_custom_definitions c))
      then mret (length kLinuxHookRegistry + Z.to_nat (api_id - kCustomHookApiIdBase))%nat
      else invalid "raw Linux heap event carries an unknown API ID"
  end.

Definition ensure_pending_capacity (event_records : Z) : capturing unit :=
  w ← get_state;
  if cw_pending_event_count w =? 0 then mret tt else
  let event_addition := wrap64 (event_records * kMaximumEventAdditionSize) in
  let exceeds (payload : bytes) (addition : Z) :=
    (chunk_target <? size_of payload) ||
    (chunk_target - Z.min (size_of payload) chunk_target <? addition) in
  if exceeds (cw_stack_payload w) kMaximumStackDefinitionRecordSize ||
     exceeds (cw_event_payload w) event_addition
  then flush_pending else mret tt.

Definition make_stack_capture_loss (sequence_begin event_records ticks : Z) : LossRecord :=
  {| loss_reason := Reason_kStackCaptureFailed; loss_location := Location_kAgentQueue;
     estimated_event_count := Some event_records;
     sequence_range := Some {| sr_begin := sequence_begin;
                               sr_end := wrap64 (sequence_begin + event_records - 1) |};
     tick_range := Some {| tr_begin := ticks; tr_end := ticks |} |}.

Definition observe_capture_loss (loss : LossRecord) : capturing unit :=
  w ← get_state;
  completeness ← call (observe_loss (cw_completeness w) loss);
  modify (λ w, w <| cw_completeness := completeness |>).

(** The loss of the stack of an event, counted and observed. *)
Definition note_stack_capture_loss (raw : LinuxHeapEvent) (wire_begin event_records ticks : Z)
    : capturing (option LossRecord) :=
  if negb (captured_is (cs_status (raw_stack raw)) Captured_kFailed) then mret None else
  let loss := make_stack_capture_loss wire_begin event_records ticks in
  add_to cw_stack_capture_failures 1 "stack capture failure count overflow" ;;
  observe_capture_loss loss ;;
  mret (Some loss).

Definition note_event_trace_drop (index : nat) (ticks wire_begin event_records : Z)
    : capturing unit :=
  extend_drops {| sp_sequence_begin := wire_begin;
                  sp_sequence_end := wrap64 (wire_begin + event_records - 1);
                  sp_tick_begin := ticks; sp_tick_end := ticks |} ;;
  add_to cw_trace_dropped_events event_records "trace drop count overflow" ;;
  add_to_counter index ac_trace_dropped event_records "per-API trace drop count overflow".

(** The stack of an event: its identifier, and whether it is new or known. *)
Record EventStack : Set := { es_stack_id : Z; es_unique : Z; es_reused : Z }.

Definition record_stack (raw : LinuxHeapEvent) (loss : option LossRecord) : capturing EventStack :=
  if stack_capture_succeeded (raw_stack raw) then
    w ← get_state;
    let stack := normalize_stack (cw_live_modules w) (raw_stack raw) in
    interned ← on_dictionary (intern stack (hash_normalized_stack stack));
    if ir_inserted interned then
      append_stack_definition (ir_stack_id interned) stack ;;
      mret {| es_stack_id := ir_stack_id interned; es_unique := 1; es_reused := 0 |}
    else mret {| es_stack_id := ir_stack_id interned; es_unique := 0; es_reused := 1 |}
  else
    match loss with
    | Some loss =>
        append_to cw_event_payload (λ p, append_loss_record p loss record_limit) ;;
        mret {| es_stack_id := 0; es_unique := 0; es_reused := 0 |}
    | None => mret {| es_stack_id := 0; es_unique := 0; es_reused := 0 |}
    end.

(** The payload of a heap event, and its status when that is not the one of the call. *)
Definition set_live_allocation (address id : Z) : capturing unit :=
  modify (λ w, w <| cw_live_allocations := <[address := id]> (cw_live_allocations w) |>).
Definition erase_live_allocation (address : Z) : capturing unit :=
  modify (λ w, w <| cw_live_allocations := delete address (cw_live_allocations w) |>).

Definition allocation_payload (raw : LinuxHeapEvent) (status : EventStatus)
    : capturing (EventPayload * EventStatus) :=
  id ← (if raw_succeeded raw then
          id ← make_allocation_id (raw_api_id raw);
          set_live_allocation (raw_result_address raw) id ;;
          mret id
        else mret 0);
  mret (Allocation {| al_heap_handle := 0; al_heap_id := 0;
          al_requested_size := raw_requested_size raw;
          al_result_address := raw_result_address raw; al_allocation_id := id;
          al_api_flags := 0 |}, status).

(** The identifier of the allocation at the result, which is not zero. *)
Definition new_generation (raw : LinuxHeapEvent) : capturing Z :=
  id ← make_allocation_id (raw_api_id raw);
  set_live_allocation (raw_result_address raw) id ;;
  mret id.

Definition reallocation_payload (raw : LinuxHeapEvent) (status : EventStatus)
    : capturing (EventPayload * EventStatus) :=
  w ← get_state;
  let old := if raw_address raw =? 0 then None else cw_live_allocations w !! raw_address raw in
  let payload new_id effect := Reallocation {| re_heap_handle := 0; re_heap_id := 0;
    re_old_address := raw_address raw; re_old_allocation_id := default 0 old;
    re_requested_size := raw_requested_size raw; re_result_address := raw_result_address raw;
    re_new_allocation_id := new_id; re_api_flags := 0; re_effect := effect |} in
  if negb (raw_succeeded raw) then mret (payload 0 Effect_kNoChange, status) else
  match old with
  | Some _ =>
      erase_live_allocation (raw_address raw) ;;
      if raw_result_address raw =? 0 then mret (payload 0 Effect_kFreed, status) else
      id ← new_generation raw;
      mret (payload id Effect_kNewGeneration, status)
  | None =>
      let status := unmatched_status unknown_before (raw_address raw) in
      if raw_result_address raw =? 0 then mret (payload 0 Effect_kNoChange, status) else
      id ← new_generation raw;
      mret (payload id Effect_kNewGeneration, status)
  end.

Definition free_payload (raw : LinuxHeapEvent) (status : EventStatus)
    : capturing (EventPayload * EventStatus) :=
  let payload id := Free {| fr_heap_handle := 0; fr_heap_id := 0; fr_address := raw_address raw;
    fr_allocation_id := id; fr_raw_result := 0; fr_api_flags := 0 |} in
  if negb (raw_succeeded raw) then mret (payload 0, status) else
  w ← get_state;
  match cw_live_allocations w !! raw_address raw with
  | Some id => erase_live_allocation (raw_address raw) ;; mret (payload id, status)
  | None => mret (payload 0, unmatched_status unknown_before (raw_address raw))
  end.

Definition append_event (header : EventHeader) (payload : EventPayload) : capturing unit :=
  append_to cw_event_payload (λ p, append_event_record p
    {| ev_header := header; ev_payload := payload |} record_limit).

(** The records of a plan, with consecutive sequences from [sequence] on. *)
Fixpoint append_plan (header : Z → EventStatus → EventHeader) (sequence : Z)
    (records : list VmPlanRecord) : capturing unit :=
  match records with
  | [] => mret tt
  | record :: records =>
      append_event (header sequence (vp_status record)) (vp_payload record) ;;
      append_plan header (wrap64 (sequence + 1)) records
  end.

(** The header of an event record; the sequence and the status differ per record. *)
Definition event_header (raw : LinuxHeapEvent) (ticks stack sequence : Z) (status : EventStatus)
    : EventHeader :=
  {| sequence := sequence; monotonic_ticks := ticks; thread_id := raw_thread_id raw;
     api_id := raw_api_id raw; status := status; stack_id := stack; eh_flags := 0;
     system_error := if raw_succeeded raw
                     then {| se_domain := Domain_kNone; se_code := 0 |}
                     else {| se_domain := Domain_kPosix; se_code := raw_operation_result raw |} |}.

Definition call_status (raw : LinuxHeapEvent) : EventStatus :=
  if raw_succeeded raw then Status_kSuccess else Status_kFailure.

Definition heap_payload (raw : LinuxHeapEvent) : capturing (EventPayload * EventStatus) :=
  match raw_operation raw with
  | Raw_kAllocate => allocation_payload raw (call_status raw)
  | Raw_kReallocate => reallocation_payload raw (call_status raw)
  | _ => free_payload raw (call_status raw)
  end.

(** The records of an event; [plan] is empty unless it is a virtual memory event. *)
Definition append_event_records (raw : LinuxHeapEvent) (ticks wire_begin stack : Z)
    (plan : list VmPlanRecord) : capturing unit :=
  let header := event_header raw ticks stack in
  if is_vm_operation (raw_operation raw) then append_plan header wire_begin plan else
  '(payload, status) ← heap_payload raw;
  append_event (header wire_begin status) payload.

(** The ticks of an event, not before the last ones. *)
Definition normalize_ticks (raw : LinuxHeapEvent) : capturing Z :=
  modify (λ w, w <| cw_last_sequence := raw_queue_sequence raw |>) ;;
  w ← get_state;
  (if raw_monotonic_ticks raw <? cw_last_ticks w
   then add_to cw_timestamp_adjustments 1 "timestamp adjustment count overflow" else mret tt) ;;
  let ticks := Z.max (raw_monotonic_ticks raw) (cw_last_ticks w) in
  modify (λ w, w <| cw_last_ticks := ticks |>) ;;
  mret ticks.

(** The plan of a virtual memory event. *)
Definition plan_event (raw : LinuxHeapEvent) : capturing (list VmPlanRecord) :=
  if is_vm_operation (raw_operation raw)
  then on_vm (plan_vm_call (cc_process c) unknown_before raw) else mret [].

(** The number of records the hooks count for a call. *)
Definition hook_predicted (raw : LinuxHeapEvent) : Z :=
  if operation_is (raw_operation raw) Raw_kVmRemap && raw_succeeded raw &&
     negb (raw_result_address raw =? raw_address raw) then 2 else 1.

Definition count_event (raw : LinuxHeapEvent) (index : nat) (event_records : Z) : capturing unit :=
  (if raw_succeeded raw
   then add_to_counter index ac_successful event_records "successful operation count overflow"
   else add_to_counter index ac_failed 1 "failed operation count overflow") ;;
  if hook_predicted raw <? event_records
  then add_to_counter index ac_extra_records (event_records - hook_predicted raw)
         "extra wire record count overflow"
  else mret tt.

(** The sequences of an event: the first of [event_records] consecutive ones. *)
Definition claim_sequences (event_records : Z) : capturing Z :=
  w ← get_state;
  fail_when (u64_max - cw_next_wire_sequence w <? wrap64 (event_records - 1)) OverflowError
    "event sequence space is exhausted" ;;
  let next := wrap64 (cw_next_wire_sequence w + event_records) in
  modify (λ w, w <| cw_next_wire_sequence := next |>
                <| cw_last_wire_sequence := wrap64 (next - 1) |>) ;;
  mret (cw_next_wire_sequence w).

Definition count_pending (index : nat) (ticks wire_begin event_records : Z) (stack : EventStack)
    : capturing unit :=
  modify (λ w, w <| cw_pending_span :=
    let span := if cw_pending_event_count w =? 0
                then (cw_pending_span w) <| sp_sequence_begin := wire_begin |> <| sp_tick_begin := ticks |>
                else cw_pending_span w in
    span <| sp_sequence_end := cw_last_wire_sequence w |> <| sp_tick_end := ticks |> |>) ;;
  add_to cw_pending_event_count event_records "pending event count overflow" ;;
  add_to_counter index ac_pending event_records "pending per-API event count overflow" ;;
  add_to cw_pending_unique_stacks (es_unique stack) "pending unique stack count overflow" ;;
  add_to cw_pending_reused_stacks (es_reused stack) "pending reused stack count overflow".

Definition flush_full_chunks : capturing unit :=
  w ← get_state;
  if (chunk_target <=? size_of (cw_stack_payload w)) || (chunk_target <=? size_of (cw_event_payload w))
  then flush_pending else mret tt.

(** The records of an event that has its sequences, or its drop. *)
Definition record_event (raw : LinuxHeapEvent) (index : nat) (ticks wire_begin event_records : Z)
    (plan : list VmPlanRecord) (loss : option LossRecord) : capturing unit :=
  w ← get_state;
  if cw_file_limit_reached w then note_event_trace_drop index ticks wire_begin event_records else
  ensure_pending_capacity event_records ;;
  w ← get_state;
  if cw_file_limit_reached w then note_event_trace_drop index ticks wire_begin event_records else
  stack ← record_stack raw loss;
  append_event_records raw ticks wire_begin (es_stack_id stack) plan ;;
  count_pending index ticks wire_begin event_records stack ;;
  flush_full_chunks.

Definition process_event (raw : LinuxHeapEvent) : capturing unit :=
  w ← get_state;
  call (validate_raw_event (cc_monotonic_origin c) (size_of (cc_custom_definitions c))
          (cw_last_sequence w) raw) ;;
  call (validate_raw_stack (raw_stack raw)) ;;
  ticks ← normalize_ticks raw;
  index ← call (hook_api_index (raw_api_id raw));
  plan ← plan_event raw;
  let event_records := if is_vm_operation (raw_operation raw) then size_of plan else 1 in
  count_event raw index event_records ;;
  wire_begin ← claim_sequences event_records;
  loss ← note_stack_capture_loss raw wire_begin event_records ticks;
  record_event raw index ticks wire_begin event_records plan loss.

(** The loop that empties the event queue. *)
Fixpoint drain_events (raws : list LinuxHeapEvent) : capturing unit :=
  match raws with
  | [] => mret tt
  | raw :: raws =>
      drain_modules_through (raw_monotonic_ticks raw) ;;
      process_event raw ;;
      drain_events raws
  end.

End writer.
