(* ===== verification/CaptureFinalize.v ===== *)
(** * The capture writer: metadata, samples and the end of a trace

    The rest of [LinuxTraceWriter::Implementation] of src/agent/linux/trace_writer.cpp:
    what is written before the capture begins, the memory samples, the loop of the
    writer thread, the orderly end of a trace with its reconciliation, and the tail
    that ends a trace after a failure. *)

From S2P Require Import Prelude Bytes Text IpcProtocol OrderedMap IntervalSet WireFormat Compression Event Completeness TraceData EventCodec StatisticsCodec DictionaryCodec MemoryCodec TraceWriter HookRegistry RawEvents StackDictionary VmModel CaptureWriter.

(** ** What the loop takes from outside *)

(** The answers of the samplers and of the clock; [None]: the sampler failed. *)
Record MemorySample : Set := {
  ms_now : Z;
  ms_counters : option MemoryCounters;
  ms_categories : list AgentMemoryCategorySample;
  ms_map : option MemoryMap;
}.

(** One turn of the loop up to its drain boundary: the module events the poll finds,
    the events popped from the queue, and the drops both sides report. *)
Record Round : Set := {
  rd_modules : list RawModuleEvent;
  rd_events : list LinuxHeapEvent;
  rd_queue_drops : Z;
  rd_module_drops : Z;
}.

(** A turn after which the loop goes on, and what is due then. *)
Record Turn : Set := {
  tn_round : Round;
  tn_flush_due : bool;
  tn_counters_due : bool;
  tn_map_due : bool;
  tn_sample : MemorySample;
}.

(** ** Notes made before the capture begins *)

Section writer.
Context {L : CompressionLibrary} (c : CaptureConstants).

Definition require_not_begun (message : string) : capturing unit :=
  w ← get_state;
  fail_when (cw_capture_begun w) LogicError message.

Definition note_custom_hook_failures (failures : list CustomHookFailure) : capturing unit :=
  require_not_begun "custom hook failures must be noted before capture begins" ;;
  match failures with
  | [] => mret tt
  | _ =>
      call (for_each validate_custom_hook_failure failures) ;;
      w ← get_state;
      completeness ← call (mark_custom_hook_install_failed (cw_completeness w));
      modify (λ w, w <| cw_completeness := completeness |> <| cw_custom_hook_failures := failures |>)
  end.

Definition note_startup_memory (configuration : BufferConfiguration) (pre_init post_init : Baseline)
    : capturing unit :=
  require_not_begun "startup memory notes must be recorded before capture begins" ;;
  call (validate_buffer_configuration configuration) ;;
  modify (λ w, w <| cw_buffer_configuration := Some configuration |>
                <| cw_baseline_pre_init := Some pre_init |>
                <| cw_baseline_post_init := Some post_init |>).

(** ** Metadata and baselines *)

Definition limit : Z := record_limit c.

Fixpoint append_each {A} (append : bytes → A → Z → result exn bytes) (payload : bytes)
    (records : list A) : result exn bytes :=
  match records with
  | [] => mret payload
  | record :: records =>
      payload ← append payload record limit;
      append_each append payload records
  end.

Definition metadata_payload (w : CaptureWriter) : result exn bytes :=
  payload ← append_capture_scope_record [] (co_capture_scope (cc_options c)) limit;
  payload ← append_each append_buffer_configuration_record payload
              (option_list (cw_buffer_configuration w));
  payload ← append_each append_custom_hook_definition_record payload (cc_custom_definitions c);
  append_each append_custom_hook_failure_record payload (cw_custom_hook_failures w).

Definition write_metadata : capturing unit :=
  w ← get_state;
  if cw_metadata_written w then mret tt else
  modify (λ w, w <| cw_metadata_written := true |>) ;;
  payload ← call (metadata_payload w);
  written ← on_trace (write_chunk
    {| cd_type := Chunk_kMetadata; cd_version := 1; cd_flags := 0;
       cd_codec := co_compression (cc_options c); sequence_begin := 0; sequence_end := 0 |} payload);
  match written with
  | Write_kWritten => mret tt
  | Write_kFileLimit =>
      pure (Throw (WriteThrown (plain_error "trace file limit cannot hold CaptureScope metadata")))
  end.

Definition counters_with_ticks (counters : MemoryCounters) (ticks : Z) : MemoryCounters :=
  {| mc_monotonic_ticks := ticks; working_set_bytes := working_set_bytes counters;
     peak_working_set_bytes := peak_working_set_bytes counters;
     private_bytes := private_bytes counters; commit_bytes := commit_bytes counters |}.

Definition append_counters_sample (counters : option MemoryCounters) (ticks : Z) : capturing Z :=
  match counters with
  | None => mret 0
  | Some counters =>
      append_to cw_memory_payload
        (λ p, append_memory_counters_record p (counters_with_ticks counters ticks) limit) ;;
      mret 1
  end.

Definition append_agent_sample (ticks : Z) (kind : AgentMemorySampleKind)
    (categories : list AgentMemoryCategorySample) : capturing unit :=
  append_to cw_memory_payload (λ p, append_agent_memory_record p
    {| am_monotonic_ticks := ticks; am_kind := kind; am_categories := categories |} limit).

Definition append_baseline (kind : AgentMemorySampleKind) (baseline : Baseline) : capturing unit :=
  let ticks := bl_monotonic_ticks baseline in
  counters ← append_counters_sample (bl_counters baseline) ticks;
  add_to cw_memory_counters_records counters "memory counters record count overflow" ;;
  append_agent_sample ticks kind (bl_categories baseline) ;;
  add_to cw_memory_agent_records 1 "agent memory record count overflow" ;;
  modify (λ w, w <| cw_last_memory_ticks := Z.max (cw_last_memory_ticks w) ticks |>).

Definition clear_memory_payload : capturing unit :=
  modify (λ w, w <| cw_memory_payload := [] |>).

Definition append_some_baseline (kind : AgentMemorySampleKind) (baseline : option Baseline)
    : capturing unit :=
  match baseline with None => mret tt | Some baseline => append_baseline kind baseline end.

Definition write_memory_baselines : capturing unit :=
  w ← get_state;
  match cw_baseline_pre_init w, cw_baseline_post_init w with
  | None, None => mret tt
  | pre_init, post_init =>
      clear_memory_payload ;;
      append_some_baseline Sample_kBaselinePreInit pre_init ;;
      append_some_baseline Sample_kBaselinePostInit post_init ;;
      w ← get_state;
      written ← write_data_chunk c Chunk_kMemory (cw_memory_payload w) 0 0;
      (if (written : bool) then add_to cw_memory_chunks 1 "memory chunk count overflow" else mret tt) ;;
      clear_memory_payload
  end.

(** [stop_requested]: a stop came before the capture began. *)
Definition begin_capture (stop_requested : bool) : capturing unit :=
  require_not_begun "trace writer capture has already begun" ;;
  fail_when stop_requested LogicError "trace writer is already stopping" ;;
  write_metadata ;;
  flush_stream ;;
  write_memory_baselines ;;
  modify (λ w, w <| cw_capture_begun := true |>).

(** ** Samples *)

Definition append_map_sample (map : option MemoryMap) (ticks : Z) : capturing Z :=
  match map with
  | None => mret 0
  | Some map =>
      append_to cw_memory_payload (λ p, append_memory_map_record p
        {| mm_monotonic_ticks := ticks; mm_truncated := mm_truncated map;
           mm_committed_bytes := mm_committed_bytes map; mm_reserved_bytes := mm_reserved_bytes map;
           mm_free_bytes := mm_free_bytes map; mm_largest_free_bytes := mm_largest_free_bytes map;
           mm_regions := mm_regions map |} limit) ;;
      mret 1
  end.

Definition write_memory_chunk (counters_records map_records agent_records : Z) : capturing unit :=
  w ← get_state;
  if size_of (cw_memory_payload w) =? 0 then mret tt else
  written ← write_data_chunk c Chunk_kMemory (cw_memory_payload w) 0 0;
  (if (written : bool) then
     add_to cw_memory_chunks 1 "memory chunk count overflow" ;;
     add_to cw_memory_counters_records counters_records "memory counters record count overflow" ;;
     add_to cw_memory_map_records map_records "memory map record count overflow" ;;
     add_to cw_memory_agent_records agent_records "agent memory record count overflow"
   else mret tt) ;;
  clear_memory_payload.

Definition take_samples (want_counters want_map : bool) (sample : MemorySample) : capturing unit :=
  clear_memory_payload ;;
  w ← get_state;
  let ticks := Z.max (ms_now sample) (Z.max (cw_last_memory_ticks w) (cc_monotonic_origin c)) in
  modify (λ w, w <| cw_last_memory_ticks := ticks |>) ;;
  '(counters, agent) ← (if want_counters then
      counters ← append_counters_sample (ms_counters sample) ticks;
      append_agent_sample ticks Sample_kPeriodic (ms_categories sample) ;;
      mret (counters, 1)
    else mret (0, 0));
  maps ← (if want_map then append_map_sample (ms_map sample) ticks else mret 0);
  write_memory_chunk counters maps agent.

(** The [catch] clauses: a [TraceWriteError] goes on, anything else is forgotten. *)
Definition keep_write_errors (p : capturing unit) : capturing unit := λ w,
  match p w with
  | (Throw (WriteThrown e), w) => (clear_memory_payload ;; pure (Throw (WriteThrown e))) w
  | (Throw (FormatThrown _), w) => clear_memory_payload w
  | (Ok a, w) => (Ok a, w)
  end.

Definition capture_memory_snapshot (want_counters want_map : bool) (sample : MemorySample)
    : capturing unit :=
  w ← get_state;
  if cw_file_limit_reached w then mret tt else
  keep_write_errors (take_samples want_counters want_map sample).

(** ** Statistics *)

(** The messages of the sums over the APIs. *)
Record Subjects : Set := {
  sj_observed : string; sj_succeeded : string; sj_failed : string; sj_filtered : string;
  sj_dropped : string;
}.

Definition final_subjects : Subjects :=
  {| sj_observed := "aggregate observed call count overflow";
     sj_succeeded := "aggregate successful operation count overflow";
     sj_failed := "aggregate failed operation count overflow";
     sj_filtered := "aggregate filtered operation count overflow";
     sj_dropped := "aggregate dropped event count overflow" |}.

Definition error_subjects : Subjects :=
  {| sj_observed := "error-tail aggregate observed count overflow";
     sj_succeeded := "error-tail aggregate success count overflow";
     sj_failed := "error-tail aggregate failure count overflow";
     sj_filtered := "error-tail aggregate filtered count overflow";
     sj_dropped := "error-tail aggregate drop count overflow" |}.

Definition no_statistics : CaptureStatistics :=
  {| observed_calls := 0; successful_operations := 0; failed_operations := 0;
     filtered_before_queue := 0; dropped_events := 0; unique_stacks := 0; reused_stacks := 0;
     written_uncompressed_bytes := 0; written_stored_bytes := 0; per_api := [] |}.

Definition add_api (subjects : Subjects) (s : CaptureStatistics) (api : ApiStatistics)
    : result exn CaptureStatistics :=
  observed ← checked_sum (observed_calls s) (as_observed_calls api) (sj_observed subjects);
  succeeded ← checked_sum (successful_operations s) (as_successful_operations api)
                (sj_succeeded subjects);
  failed ← checked_sum (failed_operations s) (as_failed_operations api) (sj_failed subjects);
  filtered ← checked_sum (filtered_before_queue s) (as_filtered_before_queue api)
               (sj_filtered subjects);
  dropped ← checked_sum (dropped_events s) (as_dropped_events api) (sj_dropped subjects);
  mret {| observed_calls := observed; successful_operations := succeeded;
          failed_operations := failed; filtered_before_queue := filtered;
          dropped_events := dropped; unique_stacks := unique_stacks s;
          reused_stacks := reused_stacks s;
          written_uncompressed_bytes := written_uncompressed_bytes s;
          written_stored_bytes := written_stored_bytes s; per_api := per_api s ++ [api] |}.

(** The API ids of the counters, in their order. *)
Definition counter_api_ids : list Z :=
  (lh_api_id <$> kLinuxHookRegistry) ++ (chd_api_id <$> cc_custom_definitions c).

(** [answer] is what the counter source says when it is asked; each definition below
    that asks it takes the answer as an argument.  A hook counts while it runs, so two
    answers may differ. *)
Definition counter_snapshots (answer : list CounterSnapshot) : list CounterSnapshot :=
  if co_counter_source (cc_options c) then answer else [].

Definition find_snapshot (api_id : Z) (snapshots : list CounterSnapshot) : option CounterSnapshot :=
  List.find (λ candidate, sn_api_id candidate =? api_id) snapshots.

(** The loop over the counters; [api_of] makes the statistics of one API. *)
Fixpoint sum_apis (api_of : Z → ApiCounters → result exn ApiStatistics) (subjects : Subjects)
    (ids : list Z) (counters : list ApiCounters) (s : CaptureStatistics)
    : result exn CaptureStatistics :=
  match ids, counters with
  | id :: ids, counter :: counters =>
      api ← api_of id counter;
      s ← add_api subjects s api;
      sum_apis api_of subjects ids counters s
  | _, _ => mret s
  end.

(** What both ends of a trace take from the other members. *)
Definition add_totals (w : CaptureWriter) (s : CaptureStatistics) : CaptureStatistics :=
  {| observed_calls := observed_calls s; successful_operations := successful_operations s;
     failed_operations := failed_operations s; filtered_before_queue := filtered_before_queue s;
     dropped_events := dropped_events s; unique_stacks := cw_unique_stacks w;
     reused_stacks := cw_reused_stacks w;
     written_uncompressed_bytes := uncompressed_payload_bytes_written_ (cw_writer w);
     written_stored_bytes := stored_payload_bytes_written_ (cw_writer w); per_api := per_api s |}.

Definition unreconciled : string := "glibc heap hook counters do not reconcile with drained trace events".
Definition snapshot_unreconciled : string :=
  "glibc heap hook counters do not reconcile (recordable != successful + failed)".

(** One API at the orderly end: with the counters of the hooks, or with the writer's. *)
Definition final_api (snapshots : list CounterSnapshot) (api_id : Z) (counters : ApiCounters)
    : result exn ApiStatistics :=
  match find_snapshot api_id snapshots with
  | Some snapshot =>
      observed ← checked_sum (sn_recordable_calls snapshot) (ac_extra_records counters)
                   "per-API observed record count overflow";
      succeeded ← checked_sum (sn_successful_calls snapshot) (ac_extra_records counters)
                    "per-API successful record count overflow";
      dropped ← checked_sum (sn_dropped_events snapshot) (ac_trace_dropped counters)
                  "per-API dropped event count overflow";
      throw_if (negb (sn_recordable_calls snapshot =?
                      wrap64 (sn_successful_calls snapshot + sn_failed_calls snapshot)))
        RuntimeError snapshot_unreconciled ;;
      accounted ← checked_sum (ac_written counters) (sn_filtered_calls snapshot)
                    "accounted per-API filtered count overflow";
      accounted ← checked_sum accounted dropped "accounted per-API drop count overflow";
      throw_if (negb (accounted =? observed)) RuntimeError unreconciled ;;
      mret {| as_api_id := api_id; as_observed_calls := observed;
              as_successful_operations := succeeded; as_failed_operations := sn_failed_calls snapshot;
              as_filtered_before_queue := sn_filtered_calls snapshot; as_dropped_events := dropped |}
  | None =>
      observed ← checked_sum (ac_successful counters) (ac_failed counters)
                   "per-API observed call count overflow";
      accounted ← checked_sum (ac_written counters) (ac_trace_dropped counters)
                    "accounted per-API event count overflow";
      throw_if (negb (accounted =? observed)) RuntimeError unreconciled ;;
      mret {| as_api_id := api_id; as_observed_calls := observed;
              as_successful_operations := ac_successful counters;
              as_failed_operations := ac_failed counters; as_filtered_before_queue := 0;
              as_dropped_events := ac_trace_dropped counters |}
  end.

(** The statistics of [finalize_trace], reconciled. *)
Definition final_statistics (answer : list CounterSnapshot) (w : CaptureWriter)
    : result exn CaptureStatistics :=
  s ← sum_apis (final_api (counter_snapshots answer)) final_subjects counter_api_ids (cw_api_counters w)
        no_statistics;
  let s := add_totals w s in
  completed ← checked_sum (successful_operations s) (failed_operations s)
                "completed operation count overflow";
  accounted ← checked_sum (cw_written_events w) (filtered_before_queue s)
                "accounted filtered event count overflow";
  accounted ← checked_sum accounted (dropped_events s) "accounted event count overflow";
  throw_if (negb (completed =? observed_calls s) || negb (accounted =? observed_calls s))
    RuntimeError "hook counters do not reconcile with drained trace events" ;;
  mret s.

(** One API after a failure: what was not written was dropped. *)
Definition error_api (snapshots : list CounterSnapshot) (api_id : Z) (counters : ApiCounters)
    : result exn ApiStatistics :=
  match find_snapshot api_id snapshots with
  | Some snapshot =>
      throw_if (negb (sn_recordable_calls snapshot =?
                      wrap64 (sn_successful_calls snapshot + sn_failed_calls snapshot)))
        RuntimeError snapshot_unreconciled ;;
      observed ← checked_sum (sn_recordable_calls snapshot) (ac_extra_records counters)
                   "error-tail observed record count overflow";
      succeeded ← checked_sum (sn_successful_calls snapshot) (ac_extra_records counters)
                    "error-tail successful record count overflow";
      throw_if ((observed <? ac_written counters) ||
                (observed - ac_written counters <? sn_filtered_calls snapshot))
        RuntimeError unreconciled ;;
      mret {| as_api_id := api_id; as_observed_calls := observed;
              as_successful_operations := succeeded; as_failed_operations := sn_failed_calls snapshot;
              as_filtered_before_queue := sn_filtered_calls snapshot;
              as_dropped_events := observed - ac_written counters - sn_filtered_calls snapshot |}
  | None =>
      observed ← checked_sum (ac_successful counters) (ac_failed counters)
                   "error-tail observed operation count overflow";
      throw_if (observed <? ac_written counters) RuntimeError
        "error-tail written event count exceeds observed operations" ;;
      mret {| as_api_id := api_id; as_observed_calls := observed;
              as_successful_operations := ac_successful counters;
              as_failed_operations := ac_failed counters; as_filtered_before_queue := 0;
              as_dropped_events := observed - ac_written counters |}
  end.

Definition make_error_statistics (answer : list CounterSnapshot) (w : CaptureWriter)
    : result exn CaptureStatistics :=
  s ← sum_apis (error_api (counter_snapshots answer)) error_subjects counter_api_ids (cw_api_counters w)
        no_statistics;
  mret (add_totals w s).

(** ** The orderly end *)

Definition queue_full_loss (count : Z) : LossRecord :=
  {| loss_reason := Reason_kQueueFull; loss_location := Location_kAgentQueue;
     estimated_event_count := Some count; sequence_range := None; tick_range := None |}.

Definition trace_full_loss (count : Z) (dropped : Span) : LossRecord :=
  {| loss_reason := Reason_kTraceFull; loss_location := Location_kWriter;
     estimated_event_count := Some count;
     sequence_range := Some {| sr_begin := sp_sequence_begin dropped;
                               sr_end := sp_sequence_end dropped |};
     tick_range := Some {| tr_begin := sp_tick_begin dropped; tr_end := sp_tick_end dropped |} |}.

Definition writer_error_loss (unwritten : Z) : LossRecord :=
  {| loss_reason := Reason_kWriterError; loss_location := Location_kWriter;
     estimated_event_count := if unwritten =? 0 then None else Some unwritten;
     sequence_range := None; tick_range := None |}.

Definition append_loss (payload : bytes) (loss : LossRecord) : capturing bytes :=
  observe_capture_loss loss ;;
  call (append_loss_record payload loss limit).

Definition append_collected_loss_records : capturing bytes :=
  w ← get_state;
  payload ← (if cw_module_notification_drops w =? 0 then mret []
             else append_loss [] (queue_full_loss (cw_module_notification_drops w)));
  payload ← (if cw_queue_dropped_events w =? 0 then mret payload
             else append_loss payload (queue_full_loss (cw_queue_dropped_events w)));
  if cw_trace_dropped_events w =? 0 then mret payload
  else append_loss payload (trace_full_loss (cw_trace_dropped_events w) (cw_trace_drop_span w)).

Definition change_result (f : CaptureResult → CaptureResult) : capturing unit :=
  modify (λ w, w <| cw_result := f (cw_result w) |>).

Definition fill_result_counters : capturing unit :=
  w ← get_state;
  change_result (λ r, r
    <| cr_stack_capture_failures := cw_stack_capture_failures w |>
    <| cr_queue_dropped_events := cw_queue_dropped_events w |>
    <| cr_trace_dropped_events := cw_trace_dropped_events w |>
    <| cr_timestamp_adjustments := cw_timestamp_adjustments w |>
    <| cr_stack_dictionary_segments := sd_segment_count (cw_dictionary w) |>
    <| cr_module_load_records := cw_written_module_loads w |>
    <| cr_module_unload_records := cw_written_module_unloads w |>
    <| cr_module_notification_drops := cw_module_notification_drops w |>
    <| cr_bytes_written := bytes_written_ (cw_writer w) |>
    <| cr_memory_chunks := cw_memory_chunks w |>
    <| cr_memory_counters_records := cw_memory_counters_records w |>
    <| cr_memory_map_records := cw_memory_map_records w |>
    <| cr_memory_agent_records := cw_memory_agent_records w |>).

Definition api_result (api : ApiStatistics) (counters : ApiCounters) : ApiResult :=
  {| ar_api_id := as_api_id api; ar_observed_calls := as_observed_calls api;
     ar_written_events := ac_written counters;
     ar_filtered_before_queue := as_filtered_before_queue api;
     ar_dropped_events := as_dropped_events api |}.

(** The statistics in the result and in a chunk of their own. *)
Definition write_statistics (statistics : CaptureStatistics) : capturing unit :=
  call (validate_statistics statistics) ;;
  w ← get_state;
  change_result (λ r, r <| cr_statistics := Some statistics |>
    <| cr_per_api := zip_with api_result (per_api statistics) (cw_api_counters w) |>) ;;
  payload ← call (append_statistics_record [] statistics limit);
  written ← write_terminal_chunk Chunk_kStatistics payload 0 0;
  change_result (λ r, r <| cr_statistics_written := written |>).

Definition end_of_trace (w : CaptureWriter) (normal_stop : bool) (report : CompletenessReport)
    : EndOfTrace :=
  {| final_sequence := cw_last_wire_sequence w;
     final_monotonic_ticks :=
       Z.max (Z.max (Z.max (cw_last_ticks w) (cw_last_module_ticks w)) (cw_last_memory_ticks w))
         (cc_monotonic_origin c);
     normal_stop := normal_stop; target_exit_code := None; aggregate_completeness := report |}.

Definition write_end (e : EndOfTrace) : capturing unit :=
  payload ← call (append_end_of_trace_record [] e limit);
  written ← write_terminal_chunk Chunk_kEnd payload 0 0;
  change_result (λ r, r <| cr_end_of_trace_written := written |>).

Definition write_terminal_records (statistics : CaptureStatistics) : capturing unit :=
  write_statistics statistics ;;
  w ← get_state;
  report ← call (remove (report (cw_completeness w)) kMissingEndOfTrace);
  write_end (end_of_trace w true report) ;;
  flush_stream ;;
  w ← get_state;
  change_result (λ r, r
    <| cr_status := if cw_file_limit_reached w then Capture_kFileLimit else Capture_kComplete |>
    <| cr_completeness_mask := mask report |>) ;;
  fill_result_counters.

Definition release_reserve : capturing unit := on_trace release_file_reserve.

Definition finalize_trace (answer : list CounterSnapshot) : capturing unit :=
  release_reserve ;;
  payload ← append_collected_loss_records;
  w ← get_state;
  (if size_of payload =? 0 then mret tt else
     let span := if cw_trace_dropped_events w =? 0 then no_span else cw_trace_drop_span w in
     write_terminal_chunk Chunk_kEvent payload (sp_sequence_begin span) (sp_sequence_end span) ;;
     mret tt) ;;
  w ← get_state;
  statistics ← call (final_statistics answer w);
  write_terminal_records statistics.

Definition empty_api (api_id : Z) : ApiStatistics :=
  {| as_api_id := api_id; as_observed_calls := 0; as_successful_operations := 0;
     as_failed_operations := 0; as_filtered_before_queue := 0; as_dropped_events := 0 |}.

Definition finalize_empty_trace : capturing unit :=
  write_metadata ;;
  release_reserve ;;
  write_terminal_records
    {| observed_calls := 0; successful_operations := 0; failed_operations := 0;
       filtered_before_queue := 0; dropped_events := 0; unique_stacks := 0; reused_stacks := 0;
       written_uncompressed_bytes := 0; written_stored_bytes := 0;
       per_api := empty_api <$> counter_api_ids |}.

(** ** The end after a failure *)

Definition what_of (e : write_exn) : string :=
  match e with WriteThrown e => twe_what e | FormatThrown e => what e end.

Definition no_text (s : string) : bool := bool_decide (s = EmptyString).

(** [try { stage } catch ...]: the message of the first failure, and what the clause does. *)
Definition attempt (stage on_failure : capturing unit) (first_failure : string) : capturing string := λ w,
  match stage w with
  | (Ok _, w) => (Ok first_failure, w)
  | (Throw e, w) =>
      (on_failure ;; mret (if no_text first_failure then what_of e else first_failure)) w
  end.

Fixpoint sum_counters (counters : list ApiCounters) (consumed written : Z) : result exn (Z * Z) :=
  match counters with
  | [] => mret (consumed, written)
  | counter :: counters =>
      consumed ← checked_sum consumed (ac_successful counter) "error-tail consumed count overflow";
      consumed ← checked_sum consumed (ac_failed counter) "error-tail consumed count overflow";
      written ← checked_sum written (ac_written counter) "error-tail written count overflow";
      sum_counters counters consumed written
  end.

Definition consumed_but_unwritten_events (w : CaptureWriter) : result exn Z :=
  '(consumed, written) ← sum_counters (cw_api_counters w) 0 0;
  mret (if consumed <? wrap64 (written + cw_trace_dropped_events w) then 0
        else wrap64 (consumed - written - cw_trace_dropped_events w)).

Definition write_error_losses : capturing unit :=
  payload ← append_collected_loss_records;
  w ← get_state;
  unwritten ← call (consumed_but_unwritten_events w);
  payload ← append_loss payload (writer_error_loss unwritten);
  write_terminal_chunk Chunk_kEvent payload 0 0 ;;
  mret tt.

Definition write_error_statistics (answer : list CounterSnapshot) : capturing unit :=
  w ← get_state;
  if cr_statistics_written (cw_result w) then mret tt else
  statistics ← call (make_error_statistics answer w);
  write_statistics statistics.

Definition set_mask (value : Z) : capturing unit :=
  change_result (λ r, r <| cr_completeness_mask := value |>).

Definition write_error_end : capturing unit :=
  w ← get_state;
  report ← call (add (report (cw_completeness w)) kAbnormalStop);
  report ← call (remove report kMissingEndOfTrace);
  write_end (end_of_trace w false report) ;;
  w ← get_state;
  set_mask (mask (if cr_end_of_trace_written (cw_result w) then report
                  else Completeness.report (cw_completeness w))).

Definition mask_of_report : capturing unit :=
  w ← get_state;
  set_mask (mask (report (cw_completeness w))).

Definition write_error_tail (answer : list CounterSnapshot) : capturing unit :=
  w ← get_state;
  if cw_error_tail_attempted w || cr_end_of_trace_written (cw_result w) then mret tt else
  modify (λ w, w <| cw_error_tail_attempted := true |>) ;;
  release_reserve ;;
  failure ← attempt write_error_losses (mret tt) EmptyString;
  failure ← attempt (write_error_statistics answer) (mret tt) failure;
  failure ← attempt write_error_end mask_of_report failure;
  if no_text failure then mret tt else fail RuntimeError failure.

Definition failure_of (e : write_exn) : WriterFailure :=
  match e with
  | WriteThrown e =>
      {| wf_message := twe_what e; wf_phase := phase_ e; wf_system_error := system_error_ e;
         wf_file_offset := file_offset_ e; wf_chunk_type := chunk_type_ e |}
  | FormatThrown e =>
      {| wf_message := what e; wf_phase := Phase_kNone; wf_system_error := 0;
         wf_file_offset := None; wf_chunk_type := None |}
  end.

(** The first failure stays; the line on stderr is left out. *)
Definition record_writer_error (answer : list CounterSnapshot) (e : write_exn) : capturing unit :=
  change_result (λ r, match cr_error r with
    | Some _ => r
    | None => r <| cr_status := Capture_kWriterError |> <| cr_error := Some (failure_of e) |>
    end) ;;
  failure ← attempt (write_error_tail answer ;; flush_stream) (mret tt) EmptyString;
  change_result (λ r, if no_text (cr_tail_error_message r)
    then r <| cr_tail_error_message := failure |> else r) ;;
  fill_result_counters.

(** ** The thread *)

Definition process_initial_modules (initial : list RawModuleEvent) (module_drops : Z) : capturing unit :=
  modify (λ w, w <| cw_initial_modules_processed := true |>) ;;
  process_modules c initial ;;
  collect_module_drops module_drops.

Definition drain_round (round : Round) : capturing unit :=
  poll (rd_modules round) ;;
  drain_events c (rd_events round) ;;
  drain_modules_through c u64_max ;;
  collect_queue_drops (rd_queue_drops round) ;;
  collect_module_drops (rd_module_drops round).

Definition take_turn (turn : Turn) : capturing unit :=
  drain_round (tn_round turn) ;;
  (if tn_flush_due turn then flush_pending c ;; flush_stream else mret tt) ;;
  if tn_counters_due turn || tn_map_due turn
  then capture_memory_snapshot (tn_counters_due turn) (tn_map_due turn) (tn_sample turn)
  else mret tt.

Fixpoint take_turns (turns : list Turn) : capturing unit :=
  match turns with
  | [] => mret tt
  | turn :: turns => take_turn turn ;; take_turns turns
  end.

(** What a capture gets from outside: the initial modules, the turns before the stop
    is seen, the turn that sees it, the final drain, the last sample, and what the
    counter source answers to the orderly end and to the tail after a failure. *)
Record CaptureRun : Set := {
  run_initial : list RawModuleEvent;
  run_initial_drops : Z;
  run_turns : list Turn;
  run_stop : Round;
  run_last : Round;
  run_sample : MemorySample;
  run_counters : list CounterSnapshot;
  run_tail_counters : list CounterSnapshot;
}.

(** The loop up to the last flush. *)
Definition drain_capture (run : CaptureRun) : capturing unit :=
  process_initial_modules (run_initial run) (run_initial_drops run) ;;
  take_turns (run_turns run) ;;
  drain_round (run_stop run) ;;
  drain_round (run_last run) ;;
  flush_pending c.

(** The sample after the last flush. *)
Definition last_sample (run : CaptureRun) : capturing unit :=
  let counters := 0 <? co_memory_counters_interval (cc_options c) in
  let map := 0 <? co_memory_map_interval (cc_options c) in
  if counters || map then capture_memory_snapshot counters map (run_sample run) else mret tt.

Definition record_capture (run : CaptureRun) : capturing unit := drain_capture run ;; last_sample run.

Definition capture_loop (run : CaptureRun) : capturing unit :=
  record_capture run ;; finalize_trace (run_counters run).

Definition finalize_capture_inline (initial : list RawModuleEvent) (initial_drops : Z) (last : Round)
    (answer : list CounterSnapshot) : capturing unit :=
  w ← get_state;
  (if cw_initial_modules_processed w then mret tt
   else process_initial_modules initial initial_drops) ;;
  drain_round last ;;
  flush_pending c ;;
  finalize_trace answer.

(** The [catch] clauses of the thread and of [finish_after_worker_exit]. *)
Definition guarded (tail_answer : list CounterSnapshot) (p : capturing unit) : capturing unit := λ w,
  match p w with
  | (Throw e, w) => record_writer_error tail_answer e w
  | (Ok a, w) => (Ok a, w)
  end.

(** The thread once the capture has begun or the stop came first. *)
Definition thread_main (run : CaptureRun) : capturing unit :=
  w ← get_state;
  guarded (run_tail_counters run)
    (if cw_capture_begun w then capture_loop run else finalize_empty_trace).

(** [finish_after_worker_exit] less its flags and the rename of the output. *)
Definition finish_inline (initial : list RawModuleEvent) (initial_drops : Z) (last : Round)
    (answer tail_answer : list CounterSnapshot) : capturing unit :=
  w ← get_state;
  guarded tail_answer
    (if cw_capture_begun w then finalize_capture_inline initial initial_drops last answer
     else finalize_empty_trace).

End writer.
