(* ===== verification/CaptureTheorems.v ===== *)
(** * What the capture writer guarantees

    Every event the writer takes from the queue is written or accounted as dropped, so
    the statistics of a capture always reconcile; the trace of an orderly capture ends
    with its statistics and its end record; and so does the trace of a capture that fails. *)

From S2P Require Import Prelude Bytes Text IpcProtocol OrderedMap IntervalSet WireFormat Compression Event Completeness TraceData EventCodec StatisticsCodec DictionaryCodec MemoryCodec TraceWriter HookRegistry RawEvents StackDictionary VmModel TraceReader TraceRoundTrip CaptureWriter CaptureFinalize.

(** ** Sums over the counters *)

Definition total (f : ApiCounters → Z) (counters : list ApiCounters) : Z :=
  foldr (λ a acc, f a + acc) 0 counters.

Definition calls_of (a : ApiCounters) : Z := ac_successful a + ac_failed a.
Definition held_of (a : ApiCounters) : Z := ac_written a + ac_pending a + ac_trace_dropped a.

Lemma total_app f l k : total f (l ++ k) = total f l + total f k.
Proof. unfold total. induction l as [|a l IH]; cbn; lia. Qed.

Lemma total_fmap f g l : total f (g <$> l) = total (λ a, f (g a)) l.
Proof. unfold total. induction l as [|a l IH]; cbn; lia. Qed.

Lemma total_ext f g l : Forall (λ a, f a = g a) l → total f l = total g l.
Proof. unfold total. induction 1; cbn; lia. Qed.

Lemma total_plus f g l : total (λ a, f a + g a) l = total f l + total g l.
Proof. unfold total. induction l as [|a l IH]; cbn; lia. Qed.

Lemma total_insert f l i a b : l !! i = Some a → total f (<[i := b]> l) = total f l - f a + f b.
Proof.
  intros Hi. rewrite insert_take_drop by (by eapply lookup_lt_Some).
  rewrite <- (take_drop_middle l i a Hi) at 3. rewrite !total_app. cbn. lia.
Qed.

Lemma total_nonneg f l : Forall (λ a, 0 ≤ f a) l → 0 ≤ total f l.
Proof. unfold total. induction 1; cbn; lia. Qed.

Lemma total_le f g l : Forall (λ a, f a ≤ g a) l → total f l ≤ total g l.
Proof. unfold total. induction 1; cbn; lia. Qed.

Lemma total_replicate f n a : f a = 0 → total f (replicate n a) = 0.
Proof. intros E. induction n; cbn; [done|]. rewrite E. exact IHn. Qed.

#[global] Arguments total : simpl never.
#[global] Arguments counter_api_ids : simpl never.

(** ** Steps of the writer under [wp] *)

Section steps.
Implicit Types (w : CaptureWriter) (Q : write_exn → CaptureWriter → Prop).

Lemma wp_call {A} (m : result exn A) w (P : A → CaptureWriter → Prop) Q :
  (∀ a, m = Ok a → P a w) → (∀ e, Q e w) → wp (call m) w P Q.
Proof. intros H1 H2. unfold call. apply wp_pure; [|done]. intros a Ha. destruct m; [|done]. apply H1. by injection Ha as ->. Qed.

Lemma checked_sum_ok value addition subject sum :
  checked_sum value addition subject = Ok sum → sum = value + addition ∧ value + addition ≤ u64_max.
Proof. unfold checked_sum, throw_if. destruct (Z.ltb_spec (u64_max - value) addition); cbn; [done|]. intros [= <-]. lia. Qed.

Lemma checked_sum_fits value addition subject : value + addition ≤ u64_max →
  checked_sum value addition subject = Ok (value + addition).
Proof. intros H. unfold checked_sum, throw_if. destruct (Z.ltb_spec (u64_max - value) addition); [lia|done]. Qed.

Lemma wp_add_to (get : CaptureWriter → Z) `{!Update get} n subject w (P : unit → CaptureWriter → Prop) Q :
  (get w + n ≤ u64_max → P tt (update get (λ _, get w + n) w)) → (∀ e, Q e w) →
  wp (add_to get n subject) w P Q.
Proof.
  intros H1 H2. unfold add_to. apply wp_bind, wp_get, wp_bind, wp_call; [|done].
  intros sum [-> Hle]%checked_sum_ok. by apply wp_modify, H1.
Qed.

Lemma wp_append_to (get : CaptureWriter → bytes) `{!Update get} append w (P : unit → CaptureWriter → Prop) Q :
  (∀ b, append (get w) = Ok b → P tt (update get (λ _, b) w)) → (∀ e, Q e w) →
  wp (append_to get append) w P Q.
Proof.
  intros H1 H2. unfold append_to. apply wp_bind, wp_get, wp_bind, wp_call; [|done].
  intros b Hb. by apply wp_modify, H1.
Qed.

Lemma wp_add_to_counter index (get : ApiCounters → Z) `{!Update get} n subject w
    (P : unit → CaptureWriter → Prop) Q :
  (get (counters_at index w) + n ≤ u64_max →
   P tt (w <| cw_api_counters := <[index := update get (λ _, get (counters_at index w) + n)
                                   (counters_at index w)]> (cw_api_counters w) |>)) →
  (∀ e, Q e w) → wp (add_to_counter index get n subject) w P Q.
Proof.
  intros H1 H2. unfold add_to_counter. apply wp_bind, wp_get, wp_bind, wp_call; [|done].
  intros sum [-> Hle]%checked_sum_ok. by apply wp_modify, H1.
Qed.

Lemma wp_run_member {S A E} (get : CaptureWriter → S) set (lift : E → write_exn) (p : proc S E A) w P Q :
  wp p (get w) (λ a s, P a (set s w)) (λ e s, Q (lift e) (set s w)) → wp (run_member get set lift p) w P Q.
Proof. unfold wp, run_member. by destruct (p (get w)) as [[a|e] s]. Qed.

Lemma wp_top {S E A} (p : proc S E A) s : wp p s (λ _ _, True) (λ _ _, True).
Proof. unfold wp. by destruct (p s) as [[]]. Qed.

Lemma wp_conj {A} (p : capturing A) w P P' Q Q' :
  wp p w P Q → wp p w P' Q' → wp p w (λ a w', P a w' ∧ P' a w') (λ e w', Q e w' ∧ Q' e w').
Proof. unfold wp. by destruct (p w) as [[a|e] w']. Qed.

End steps.

(** ** Computations that leave the accounts alone *)

(** What the invariants are about, less the trace writer, its limit and completeness. *)
Record Accounts : Set := {
  acc_counters : list ApiCounters;
  acc_pending : Z;
  acc_pending_stacks : Z * Z;
  acc_written : Z;
  acc_dropped : Z;
  acc_stacks : Z * Z;
  acc_spans : Span * Span;
  acc_wire : Z * Z;
  acc_ticks : Z;
  acc_state : CaptureResult * bool;
}.

Definition accounts (w : CaptureWriter) : Accounts :=
  {| acc_counters := cw_api_counters w; acc_pending := cw_pending_event_count w;
     acc_pending_stacks := (cw_pending_unique_stacks w, cw_pending_reused_stacks w);
     acc_written := cw_written_events w; acc_dropped := cw_trace_dropped_events w;
     acc_stacks := (cw_unique_stacks w, cw_reused_stacks w);
     acc_spans := (cw_pending_span w, cw_trace_drop_span w);
     acc_wire := (cw_next_wire_sequence w, cw_last_wire_sequence w);
     acc_ticks := cw_last_ticks w; acc_state := (cw_result w, cw_error_tail_attempted w) |}.

(** The trace writer, whether its limit was reached, and what was lost. *)
Definition output_side (w : CaptureWriter) : TraceWriter * bool * CompletenessTracker :=
  (cw_writer w, cw_file_limit_reached w, cw_completeness w).

Definition quiet {A} (p : capturing A) : Prop :=
  ∀ w, accounts (p w).2 = accounts w ∧ output_side (p w).2 = output_side w.

Lemma quiet_wp {A} (p : capturing A) w : quiet p →
  wp p w (λ _ w', accounts w' = accounts w ∧ output_side w' = output_side w)
         (λ _ w', accounts w' = accounts w ∧ output_side w' = output_side w).
Proof. intros Hp. specialize (Hp w). unfold wp. by destruct (p w) as [[a|e] w']. Qed.

Lemma quiet_bind {A B} (p : capturing A) (f : A → capturing B) : quiet p → (∀ a, quiet (f a)) → quiet (p ≫= f).
Proof.
  intros Hp Hf w. specialize (Hp w). unfold mbind, proc_bind. destruct (p w) as [[a|e] w1]; [|done].
  destruct (Hf a w1) as [E1 E2]. cbn in *. by rewrite E1, E2.
Qed.

Lemma quiet_ret {A} (a : A) : quiet (mret a).
Proof. by intros w. Qed.
Lemma quiet_get : quiet get_state.
Proof. by intros w. Qed.
Lemma quiet_pure {A} (m : result write_exn A) : quiet (pure m).
Proof. by intros w. Qed.
Lemma quiet_modify f : (∀ w, accounts (f w) = accounts w ∧ output_side (f w) = output_side w) → quiet (modify f).
Proof. intros H w. exact (H w). Qed.
Lemma quiet_run_member {S A E} (get : CaptureWriter → S) set (lift : E → write_exn) (p : proc S E A) :
  (∀ s w, accounts (set s w) = accounts w ∧ output_side (set s w) = output_side w) →
  quiet (run_member get set lift p).
Proof. intros H w. unfold run_member. destruct (p (get w)) as [[a|e] s]; cbn; apply H. Qed.

Lemma quiet_add_to (get : CaptureWriter → Z) `{!Update get} n subject :
  (∀ x w, accounts (update get (λ _, x) w) = accounts w ∧ output_side (update get (λ _, x) w) = output_side w) →
  quiet (add_to get n subject).
Proof. intros H. unfold add_to, call. apply quiet_bind; [apply quiet_get|]. intros w. apply quiet_bind; [apply quiet_pure|]. intros sum. by apply quiet_modify. Qed.

Lemma quiet_append_to (get : CaptureWriter → bytes) `{!Update get} append :
  (∀ x w, accounts (update get (λ _, x) w) = accounts w ∧ output_side (update get (λ _, x) w) = output_side w) →
  quiet (append_to get append).
Proof. intros H. unfold append_to, call. apply quiet_bind; [apply quiet_get|]. intros w. apply quiet_bind; [apply quiet_pure|]. intros sum. by apply quiet_modify. Qed.

Create HintDb quiet.
#[export] Hint Resolve quiet_ret quiet_get quiet_pure : quiet.

Ltac quiet_step :=
  match goal with
  | |- quiet (_ ≫= _) => apply quiet_bind; [|intros ?]
  | |- quiet (modify _) => apply quiet_modify; intros ?; split; reflexivity
  | |- quiet (run_member _ _ _ _) => apply quiet_run_member; intros ? ?; split; reflexivity
  | |- quiet (add_to _ _ _) => apply quiet_add_to; intros ? ?; split; reflexivity
  | |- quiet (append_to _ _) => apply quiet_append_to; intros ? ?; split; reflexivity
  | |- quiet (if ?b then _ else _) => destruct b
  | |- quiet (match ?o with _ => _ end) => destruct o
  | |- quiet _ => solve [eauto with quiet]
  end.
Ltac quiet := repeat quiet_step.



Section quiet.
Context {L : CompressionLibrary} (c : CaptureConstants).

Lemma quiet_call {A} (m : result exn A) : quiet (call m).
Proof. apply quiet_pure. Qed.
#[local] Hint Resolve quiet_call : quiet.

Lemma quiet_next_module_event : quiet next_module_event.
Proof. unfold next_module_event, try_dequeue. quiet. Qed.

Lemma quiet_make_allocation_id api : quiet (make_allocation_id api).
Proof. unfold make_allocation_id, fail_when. quiet. Qed.
#[local] Hint Resolve quiet_make_allocation_id : quiet.

Lemma quiet_heap_payload raw : quiet (heap_payload c raw).
Proof.
  unfold heap_payload, allocation_payload, reallocation_payload, free_payload, new_generation,
    set_live_allocation, erase_live_allocation. quiet.
Qed.
#[local] Hint Resolve quiet_heap_payload : quiet.

Lemma quiet_append_plan header records : ∀ sequence, quiet (append_plan c header sequence records).
Proof. induction records as [|r records IH]; intros sequence; cbn [append_plan]; unfold append_event; quiet. Qed.
#[local] Hint Resolve quiet_append_plan : quiet.

Lemma quiet_append_event_records raw ticks wire stack plan :
  quiet (append_event_records c raw ticks wire stack plan).
Proof. unfold append_event_records, append_event. quiet. Qed.

Lemma quiet_record_stack raw loss : quiet (record_stack c raw loss).
Proof. unfold record_stack, append_stack_definition, on_dictionary. quiet. Qed.

Lemma quiet_plan_event raw : quiet (plan_event c raw).
Proof. unfold plan_event, on_vm. quiet. Qed.

Lemma quiet_count_written_modules : quiet count_written_modules.
Proof. unfold count_written_modules. quiet. Qed.

Lemma quiet_clear_module_payload : quiet clear_module_payload.
Proof. unfold clear_module_payload. quiet. Qed.

Lemma quiet_poll found : quiet (poll found).
Proof. unfold poll. quiet. Qed.

Lemma quiet_collect_module_drops n : quiet (collect_module_drops n).
Proof. unfold collect_module_drops. quiet. Qed.

Lemma quiet_collect_queue_drops n : quiet (collect_queue_drops n).
Proof. unfold collect_queue_drops. quiet. Qed.

End quiet.
#[export] Hint Resolve quiet_call quiet_next_module_event quiet_heap_payload quiet_append_event_records
  quiet_record_stack quiet_plan_event quiet_count_written_modules quiet_clear_module_payload quiet_poll
  quiet_collect_module_drops quiet_collect_queue_drops : quiet.

(** ** Every plan has a record *)

Definition adds {A} (k : nat) (p : planning A) : Prop :=
  ∀ m, wp p m (λ _ m', (length (plan m) + k ≤ length (plan m'))%nat) (λ _ _, True).

Lemma adds_bind {A B} j k (p : planning A) (f : A → planning B) : adds j p → (∀ a, adds k (f a)) →
  adds (j + k) (p ≫= f).
Proof.
  intros Hp Hf m. apply wp_bind. eapply wp_mono; [apply Hp| |done]. intros a m1 H1.
  eapply wp_mono; [apply Hf| |done]. intros b m2 H2. cbn in *. lia.
Qed.

Lemma adds_bind_0 {A B} (p : planning A) (f : A → planning B) : adds 0 p → (∀ a, adds 0 (f a)) → adds 0 (p ≫= f).
Proof. apply (adds_bind 0 0). Qed.
Lemma adds_first {A B} (p : planning A) (f : A → planning B) : adds 1 p → (∀ a, adds 0 (f a)) → adds 1 (p ≫= f).
Proof. apply (adds_bind 1 0). Qed.
Lemma adds_later {A B} (p : planning A) (f : A → planning B) : adds 0 p → (∀ a, adds 1 (f a)) → adds 1 (p ≫= f).
Proof. apply (adds_bind 0 1). Qed.

Lemma adds_ret {A} (a : A) : adds 0 (mret a).
Proof. intros m. apply wp_ret. lia. Qed.
Lemma adds_get : adds 0 get_state.
Proof. intros m. apply wp_get. lia. Qed.
Lemma adds_pure {A} k (r : result exn A) (Hr : k = 0%nat ∨ ∃ e, r = Throw e) : adds k (pure r).
Proof. intros m. apply wp_pure; [|done]. intros a ->. destruct Hr as [-> | [e He]]; [lia|done]. Qed.
Lemma adds_modify f : (∀ m, plan (f m) = plan m) → adds 0 (modify f).
Proof. intros H m. apply wp_modify. rewrite H. lia. Qed.
Lemma adds_push r : adds 1 (push_record r).
Proof. intros m. apply wp_modify. cbn. rewrite length_app. cbn. lia. Qed.
Lemma adds_push_0 r : adds 0 (push_record r).
Proof. intros m. apply wp_modify. cbn. rewrite length_app. cbn. lia. Qed.

Create HintDb adds.
#[export] Hint Resolve adds_ret adds_get adds_push adds_push_0 : adds.

Ltac adds_step :=
  match goal with
  | |- adds 0 (_ ≫= _) => apply adds_bind_0; [|intros ?]
  | |- adds 0 (modify _) => apply adds_modify; intros ?; reflexivity
  | |- adds _ (pure (throw _ _)) => apply adds_pure; right; by eexists
  | |- adds 0 (pure _) => apply adds_pure; by left
  | |- adds _ (if ?b then _ else _) => destruct b
  | |- adds _ (match ?o with _ => _ end) => destruct o
  | |- adds _ _ => solve [eauto with adds]
  end.
Ltac adds := repeat adds_step.

Section adds.
Context (process : Z) (unknown : bool).

Lemma adds_flush_run whole id run : adds 0 (flush_run process whole id run).
Proof. unfold flush_run. adds. Qed.
#[local] Hint Resolve adds_flush_run : adds.

Lemma adds_release_pieces whole id mapping seq pieces : ∀ run, adds 0 (release_pieces process whole id mapping seq pieces run).
Proof.
  induction pieces as [|piece pieces IH]; intros run; cbn [release_pieces];
    unfold subtract_space, change_generation, referred; adds.
Qed.
#[local] Hint Resolve adds_release_pieces : adds.

Lemma adds_plan_subtract b e seq : adds 0 (plan_subtract process b e seq).
Proof.
  unfold plan_subtract. apply adds_bind_0; [adds|]. intros m. generalize (group_pieces (intersections b e (live_mapping_space_ m))).
  intros groups. induction groups as [|g groups IH]; cbn [plan_groups]; [adds|].
  apply adds_bind_0; [|done]. unfold plan_group, generation_for, referred. adds.
Qed.
#[local] Hint Resolve adds_plan_subtract : adds.

Lemma adds_insert_owned owner e pieces : ∀ cursor owned, adds 0 (insert_owned owner e pieces cursor owned).
Proof. induction pieces as [|piece pieces IH]; intros cursor owned; cbn [insert_owned]; unfold insert_space; adds. Qed.
#[local] Hint Resolve adds_insert_owned : adds.

Lemma adds_push_records rs : adds 0 (push_records rs).
Proof. induction rs as [|r rs IH]; cbn [push_records]; adds. Qed.
#[local] Hint Resolve adds_push_records : adds.

Lemma adds_plan_create_space b e seq id : adds 0 (plan_create_space process b e seq id).
Proof. unfold plan_create_space. adds. Qed.
#[local] Hint Resolve adds_plan_create_space : adds.

Lemma adds_create_generation base size seq section record : adds 1 (create_generation process base size seq section record).
Proof.
  unfold create_generation, append_trim_records, track_generation, next_mapping_id.
  apply adds_later; [adds|]. intros id. apply adds_later; [adds|]. intros space.
  apply adds_first; [adds|]. intros _. adds.
Qed.
#[local] Hint Resolve adds_create_generation : adds.

Lemma adds_account_removed id removed : adds 0 (account_removed id removed).
Proof. induction removed as [|piece removed IH]; cbn [account_removed]; unfold change_generation, referred; adds. Qed.
#[local] Hint Resolve adds_account_removed : adds.

Lemma adds_plan_mremap raw : adds 1 (plan_mremap process unknown raw).
Proof.
  assert (Hpair : ∀ section, adds 1 (plan_mremap_pair process unknown raw section)).
  { intros section. unfold plan_mremap_pair. do 4 (apply adds_later; [adds|]; intros ?). adds. }
  assert (Hadopt : adds 1 (plan_mremap_adopt process unknown raw)) by (unfold plan_mremap_adopt; adds).
  assert (Hresize : ∀ id e, adds 1 (plan_mremap_resize process raw id e)).
  { intros id e. unfold plan_mremap_resize, change_generation, referred, append_trim_records, subtract_space.
    apply adds_later; [adds|]. intros m. apply adds_later; [adds|]. intros source.
    destruct (_ <=? _); [adds|]. apply adds_later; [adds|]. intros _. destruct (_ <? _).
    - apply adds_later; [adds|]. intros created. apply adds_later; [adds|]. intros _.
      apply adds_first; [adds|]. intros _. adds.
    - apply adds_later; [adds|]. intros _. adds. }
  unfold plan_mremap, generation_for. apply adds_later; [adds|]. intros m.
  destruct (find _ _); [|adds]. apply adds_later; [adds|]. intros source. adds.
Qed.
#[local] Hint Resolve adds_plan_mremap : adds.

(** A move has a record of the release and one of the new mapping. *)
Lemma adds_plan_mremap_pair raw section : adds 2 (plan_mremap_pair process unknown raw section).
Proof.
  intros m. unfold plan_mremap_pair. wp_step. wp_step. wp_step.
  eapply wp_mono; [apply adds_plan_subtract| |done]. intros ? m1 H1. cbv beta in H1. wp_step. wp_step. wp_step.
  eapply wp_mono with (P := λ _ m', (length (plan m) + 1 ≤ length (plan m'))%nat) (Q := λ _ _, True); [| |done].
  - destruct (Nat.eqb_spec (length (plan m1)) (length (plan m))) as [E|E]; cbn [negb].
    + eapply wp_mono; [apply adds_push| |done]. cbn. lia.
    + apply wp_ret. lia.
  - intros ? m2 H2. eapply wp_mono; [apply adds_create_generation| |done]. intros ? m3 H3. cbv beta in H2, H3. lia.
Qed.

Lemma adds_plan_mremap_moved raw : raw_result_address raw ≠ raw_address raw → adds 2 (plan_mremap process unknown raw).
Proof.
  intros Hmoved. unfold plan_mremap, generation_for, referred. apply (adds_bind 0 2); [adds|]. intros m.
  rewrite (proj2 (Z.eqb_neq _ _) Hmoved). destruct (find _ _); [|apply adds_plan_mremap_pair].
  apply (adds_bind 0 2); [adds|]. intros source. destruct (lg_section source); apply adds_plan_mremap_pair.
Qed.

(** The plan of a call starts empty, so it has the records that the hooks count for it. *)
Lemma plan_vm_call_predicted raw m :
  wp (plan_vm_call process unknown raw) m (λ plan _, hook_predicted raw ≤ size_of plan) (λ _ _, True).
Proof.
  unfold plan_vm_call. wp_step. wp_step. wp_step.
  eapply wp_mono with (P := λ _ m', hook_predicted raw ≤ size_of (plan m')) (Q := λ _ _, True); [| |done].
  - assert (Hadds : ∀ k (p : planning unit), adds k p → hook_predicted raw ≤ Z.of_nat k →
      wp p (m <| plan := [] |>) (λ _ m', hook_predicted raw ≤ size_of (plan m')) (λ _ _, True)).
    { intros k p Hp Hk. eapply wp_mono; [apply Hp| |done]. intros ? m' H. cbn in H. unfold size_of. lia. }
    assert (Hone : raw_succeeded raw = false ∨ raw_operation raw ≠ Raw_kVmRemap ∨ raw_result_address raw = raw_address raw →
      hook_predicted raw = 1).
    { unfold hook_predicted, operation_is. intros [-> | [Ho| ->]]; [by rewrite andb_false_r|by rewrite bool_decide_false|].
      by rewrite Z.eqb_refl, andb_false_r. }
    unfold plan_vm_event. destruct (raw_succeeded raw) eqn:Es; cbn [negb].
    2: { apply (Hadds 1%nat); [adds|]. rewrite Hone; [done|by left]. }
    destruct (raw_operation raw) eqn:Eo; try done.
    + apply (Hadds 1%nat); [|rewrite Hone; [done|by right; left]]. unfold plan_mmap_anonymous, plan_mmap_section. adds.
    + rewrite Hone by (by right; left). unfold plan_munmap. wp_step. eapply wp_mono; [apply wp_top| |done].
      intros _ m1 _. wp_step. wp_step. destruct (plan m1) eqn:E; [|apply wp_ret; rewrite E; unfold size_of; cbn; lia].
      apply wp_modify. unfold size_of. cbn. rewrite length_app. cbn. lia.
    + destruct (Z.eqb_spec (raw_result_address raw) (raw_address raw)) as [E|E].
      * apply (Hadds 1%nat); [adds|]. rewrite Hone; [done|by right; right].
      * apply (Hadds 2%nat); [by apply adds_plan_mremap_moved|]. unfold hook_predicted. by destruct (_ && _).
  - intros [] m1 H1. by repeat wp_step.
Qed.
End adds.

(** ** The trace writer under a capture *)

(** A stream that never fails. *)
Definition calm (o : ostream) : Prop := out_good o = true ∧ out_room o = None ∧ out_flush_fails o = false.

Lemma ostream_write_calm o data : calm o → calm (ostream_write o data).1.
Proof. intros (Hg & Hr & Hf). unfold ostream_write. by rewrite Hg, Hr. Qed.

(** What a call on the trace writer never changes. *)
Definition same_setup (t t' : TraceWriter) : Prop :=
  tw_options_ t' = tw_options_ t ∧ (calm (output_ t) → calm (output_ t')).

Lemma write_bytes_setup data phase off ct t :
  wp (write_bytes data phase off ct) t (λ _ t', same_setup t t') (λ _ t', same_setup t t').
Proof.
  unfold write_bytes. wp_step; [by apply wp_ret|]. repeat wp_step. apply wp_pure; [|by intros].
  intros _ _. repeat wp_step. pose proof (ostream_write_calm (output_ t) data) as Hcalm.
  destruct (ostream_write (output_ t) data) as [o errno]. repeat wp_step. by apply wp_pure.
Qed.

Lemma same_setup_trans t1 t2 t3 : same_setup t1 t2 → same_setup t2 t3 → same_setup t1 t3.
Proof. intros [E1 H1] [E2 H2]. split; [congruence|auto]. Qed.

Section capture.
Context {L : CompressionLibrary}.

Lemma write_chunk_setup d payload t :
  wp (write_chunk d payload) t (λ _ t', same_setup t t') (λ _ t', same_setup t t').
Proof.
  unfold write_chunk. wp_step. wp_step.
  assert (same_setup t t) as Hrefl by done.
  repeat first [apply wp_bind; apply wp_pure; [intros ? _|done] | wp_step; [by apply wp_ret|]].
  wp_step. eapply wp_mono; [apply write_bytes_setup| |by intros]. intros [] t1 H1. cbv beta.
  wp_step. eapply wp_mono; [apply write_bytes_setup| |intros e t2 H2; by eapply same_setup_trans].
  intros [] t2 H2. cbv beta. pose proof (same_setup_trans _ _ _ H1 H2) as H. by repeat wp_step.
Qed.

(** ** Completeness *)

(** A tracker of a capture under way: no end record yet, no abnormal stop. *)
Definition tracker_ok (t : CompletenessTracker) : Prop :=
  saw_end_of_trace t = false ∧ Z.land (mask (report t)) (CompletenessIssue_value kAbnormalStop) = 0.

Lemma tracker_mark_ok t issue : issue ≠ kAbnormalStop → tracker_ok t → ∃ t', mark t issue = Ok t' ∧ tracker_ok t'.
Proof.
  intros Hissue [Hend Hbit]. destruct issue; try done; (eexists; split; [reflexivity|]); (split; [done|]);
    cbn in Hbit |- *; rewrite Z.land_lor_distr_l; by rewrite Hbit.
Qed.

Lemma observe_loss_ok t loss t' : observe_loss t loss = Ok t' → tracker_ok t → tracker_ok t'.
Proof.
  unfold observe_loss. intros H Ht. destruct (invalid_if _ _) as [[]|]; [|done].
  destruct (validate_loss_record loss) as [[]|]; [|done]. cbn in H.
  destruct (tracker_mark_ok t kStackDataLoss ltac:(done) Ht) as (t1 & E1 & H1).
  destruct (tracker_mark_ok t kEventLoss ltac:(done) Ht) as (t2 & E2 & H2).
  destruct (tracker_mark_ok t2 kWriterError ltac:(done) H2) as (t3 & E3 & H3).
  rewrite E1, E2 in H. cbn in H. rewrite E3 in H. repeat case_bool_decide; by injection H as <-.
Qed.

Lemma observe_loss_fits t loss : tracker_ok t → validate_loss_record loss = Ok tt →
  ∃ t', observe_loss t loss = Ok t' ∧ tracker_ok t'.
Proof.
  intros Ht Hv. destruct (observe_loss t loss) as [t'|e] eqn:E.
  - exists t'. split; [done|]. by eapply observe_loss_ok.
  - exfalso. revert E. unfold observe_loss. rewrite Hv, (proj1 Ht). cbn.
    destruct (tracker_mark_ok t kStackDataLoss ltac:(done) Ht) as (t1 & E1 & H1).
    destruct (tracker_mark_ok t kEventLoss ltac:(done) Ht) as (t2 & E2 & H2).
    destruct (tracker_mark_ok t2 kWriterError ltac:(done) H2) as (t3 & E3 & H3).
    rewrite E1, E2. cbn. rewrite E3. by repeat case_bool_decide.
Qed.

Lemma tracker_new_ok scope t : CompletenessTracker_new scope = Ok t → tracker_ok t.
Proof.
  destruct scope as [[] []]; cbn; [done|..]; intros [= <-]; done.
Qed.

(** ** What holds at every moment of a capture *)

Context (c : CaptureConstants) (header : FileHeader) (steady : Prop).
Context (Allowed : ChunkDescriptor → bytes → Prop) (HAllowed : ∀ d payload, Allowed d payload).

Definition trace_options : TraceWriterOptions := co_trace (cc_options c).

Context (Hoptions : TraceWriterOptions_wt trace_options)
  (Hreserve : reserved_tail_size trace_options ≤ max_file_size trace_options)
  (Hstream : w_max_stored_chunk_size trace_options ≤ streamsize_max).

Definition span_wt (s : Span) : Prop := u64 (sp_sequence_begin s) ∧ u64 (sp_sequence_end s).

Record base (w : CaptureWriter) : Prop := {
  base_state : acc_state (accounts w) = (CaptureResult_new, false);
  base_spans : span_wt (cw_pending_span w) ∧ span_wt (cw_trace_drop_span w);
  base_wire : u64 (cw_next_wire_sequence w) ∧ u64 (cw_last_wire_sequence w);
  base_tracker : tracker_ok (cw_completeness w);
  base_writer : ∃ cs tail, writer_inv header trace_options Allowed (cw_writer w) cs tail;
  base_options : tw_options_ (cw_writer w) = trace_options;
  base_calm : steady → calm (output_ (cw_writer w));
}.

Lemma base_same w w' : accounts w' = accounts w → output_side w' = output_side w → base w → base w'.
Proof.
  intros Ha Ho [B1 B2 B3 B4 B5 B6 B7]. injection (f_equal acc_spans Ha) as E1 E2.
  injection (f_equal acc_wire Ha) as E3 E4. injection Ho as E5 E6 E7.
  split; rewrite ?Ha, ?E1, ?E2, ?E3, ?E4, ?E5, ?E7; done.
Qed.

(** A chunk with codec and payload of any kind: written, or the limit is reached. *)
Lemma write_chunk_of_base type payload codec b e w : base w → u64 b → u64 e →
  wp (write_chunk_of type payload codec b e) w
    (λ r w', base w' ∧ accounts w' = accounts w ∧
       cw_file_limit_reached w' = if r then cw_file_limit_reached w else true)
    (λ _ w', base w' ∧ accounts w' = accounts w).
Proof.
  intros Hbase Hb He. unfold write_chunk_of. apply wp_bind. unfold on_trace. apply wp_run_member.
  destruct Hbase as [B1 B2 B3 B4 (cs & tail & Hinv) B6 B7].
  set (d := {| cd_type := _ |}).
  pose proof (write_chunk_setup d payload (cw_writer w)) as Hsetup. unfold wp in Hsetup |- *.
  destruct (write_chunk d payload (cw_writer w)) as [res t'] eqn:E.
  assert (Hd : ChunkDescriptor_wt d) by done.
  destruct (write_chunk_inv header trace_options Allowed Hoptions Hreserve Hstream _ _ _ _ _ _ _ Hinv Hd (HAllowed d payload) E)
    as (cs' & tail' & Hinv' & _).
  assert (Hdone : ∀ l, base (w <| cw_writer := t' |> <| cw_file_limit_reached := l |>)).
  { intros l. destruct res as [[]|]; destruct Hsetup as [Ho Hc]; split; cbn; eauto; congruence. }
  destruct res as [[]|err]; cbn.
  - split; [|done]. exact (Hdone (cw_file_limit_reached w)).
  - split; [|done]. exact (Hdone true).
  - split; [|done]. exact (Hdone (cw_file_limit_reached w)).
Qed.

Lemma observe_capture_loss_base loss w : base w →
  wp (observe_capture_loss loss) w
    (λ _ w', base w' ∧ accounts w' = accounts w ∧ cw_file_limit_reached w' = cw_file_limit_reached w)
    (λ _ w', base w' ∧ accounts w' = accounts w).
Proof.
  intros Hbase. unfold observe_capture_loss. wp_step. wp_step. wp_step. apply wp_call; [|done].
  intros t Ht. apply wp_modify. split; [|done]. destruct Hbase. split; cbn; eauto.
  by eapply observe_loss_ok.
Qed.

(** ** The accounts balance *)

Definition counted (a : ApiCounters) : Prop :=
  0 ≤ ac_successful a ∧ 0 ≤ ac_failed a ∧ 0 ≤ ac_pending a ∧ 0 ≤ ac_written a ∧ 0 ≤ ac_trace_dropped a ∧
  0 ≤ ac_extra_records a.

(** Every record of an API is written, pending or dropped, but for the [owed] ones of
    the event that is being processed. *)
Record balanced (owed : nat → Z) (acc : Accounts) : Prop := {
  bal_length : length (acc_counters acc) = length (counter_api_ids c);
  bal_apis : ∀ i a, acc_counters acc !! i = Some a →
    counted a ∧ calls_of a = held_of a + owed i ∧ 0 ≤ owed i;
  bal_pending : acc_pending acc = total ac_pending (acc_counters acc);
  bal_written : acc_written acc = total ac_written (acc_counters acc);
  bal_dropped : acc_dropped acc = total ac_trace_dropped (acc_counters acc);
  bal_pending_stacks : 0 ≤ (acc_pending_stacks acc).1 ∧ 0 ≤ (acc_pending_stacks acc).2 ∧
    (acc_pending_stacks acc).1 + (acc_pending_stacks acc).2 ≤ acc_pending acc;
  bal_stacks : 0 ≤ (acc_stacks acc).1 ∧ 0 ≤ (acc_stacks acc).2 ∧
    (acc_stacks acc).1 + (acc_stacks acc).2 ≤ acc_written acc;
}.

(** What is left of it when something throws. *)
Record weak (acc : Accounts) : Prop := {
  weak_length : length (acc_counters acc) = length (counter_api_ids c);
  weak_apis : ∀ i a, acc_counters acc !! i = Some a → counted a ∧ held_of a ≤ calls_of a;
  weak_stacks : 0 ≤ (acc_stacks acc).1 ∧ 0 ≤ (acc_stacks acc).2 ∧
    (acc_stacks acc).1 + (acc_stacks acc).2 ≤ total ac_written (acc_counters acc);
}.

Definition nothing_owed : nat → Z := λ _, 0.

Lemma balanced_weak owed acc : balanced owed acc → weak acc.
Proof.
  intros [H1 H2 H3 H4 H5 H6 H7]. split; [done| |by rewrite <- H4].
  intros i a Ha. destruct (H2 i a Ha) as (? & ? & ?). split; [done|lia].
Qed.

(** The ranges of the loss records and of the event chunks. *)
Definition span_ok (last ticks : Z) (s : Span) : Prop :=
  0 < sp_sequence_begin s ≤ sp_sequence_end s ∧ sp_sequence_end s ≤ last ∧
  sp_tick_begin s ≤ sp_tick_end s ∧ sp_tick_end s ≤ ticks.

(** Every counted record has its sequence, but for [unclaimed] ones. *)
Record wired (unclaimed : Z) (acc : Accounts) : Prop := {
  wired_next : (acc_wire acc).1 + unclaimed = 1 + total calls_of (acc_counters acc);
  wired_last : (acc_wire acc).2 = (acc_wire acc).1 - 1;
}.

(** Nothing is pending once the limit was reached, and the spans are in order. *)
Record orderly (acc : Accounts) (limited : bool) : Prop := {
  ord_limit : limited = true → acc_pending acc = 0;
  ord_dropped : acc_dropped acc ≠ 0 →
    limited = true ∧ span_ok (acc_wire acc).2 (acc_ticks acc) (acc_spans acc).2;
  ord_pending : acc_pending acc ≠ 0 → span_ok (acc_wire acc).2 (acc_ticks acc) (acc_spans acc).1;
}.

Definition calls (w : CaptureWriter) : Z := total calls_of (cw_api_counters w).

(** What only the start of an event changes. *)
Definition clock (w : CaptureWriter) : Z * (Z * Z) * Z :=
  (calls w, (cw_next_wire_sequence w, cw_last_wire_sequence w), cw_last_ticks w).

Lemma clock_calls w w' : clock w' = clock w → calls w' = calls w.
Proof. by intros [=]. Qed.

Lemma clock_accounts w w' : accounts w' = accounts w → clock w' = clock w.
Proof.
  intros Ha. pose proof (f_equal acc_counters Ha) as Hc. pose proof (f_equal acc_wire Ha) as Hw.
  pose proof (f_equal acc_ticks Ha) as Ht. cbn in *. unfold clock, calls. congruence.
Qed.

(** The records that fit the sequence numbers, and whether the order of the trace is
    asked for. *)
Context (bound : Z) (Hbound : bound < u64_max) (strict : Prop).

(** When the order is asked for: always, or as long as the limit is not reached. *)
Definition ordered (w : CaptureWriter) : Prop := strict ∨ cw_file_limit_reached w = false.

Record inv (owed : nat → Z) (unclaimed : Z) (w : CaptureWriter) : Prop := {
  inv_base : base w;
  inv_balanced : balanced owed (accounts w);
  inv_wired : calls w ≤ bound → wired unclaimed (accounts w);
  inv_orderly : ordered w → calls w ≤ bound → orderly (accounts w) (cw_file_limit_reached w);
}.

Definition broken (w : CaptureWriter) : Prop := base w ∧ weak (accounts w).

Lemma inv_broken owed n w : inv owed n w → broken w.
Proof. intros [H1 H2 _ _]. split; [done|by eapply balanced_weak]. Qed.

(** A computation that keeps the invariant. *)
Definition keeps {A} (p : capturing A) : Prop :=
  ∀ owed n w, inv owed n w → wp p w (λ _ w', inv owed n w' ∧ clock w' = clock w) (λ _ w', broken w').

Lemma quiet_keeps {A} (p : capturing A) : quiet p → keeps p.
Proof.
  intros Hp owed n w [H1 H2 H3 H4]. eapply wp_mono; [by apply quiet_wp|..].
  - intros a w' [Ha Ho]. pose proof (clock_accounts _ _ Ha) as Hc. split; [|done].
    pose proof (clock_calls _ _ Hc) as Hcalls.
    split; [by eapply base_same|by rewrite Ha|by rewrite Hcalls, Ha|].
    injection Ho as _ El _. unfold ordered. by rewrite Hcalls, Ha, El.
  - intros e w' [Ha Ho]. split; [by eapply base_same|]. rewrite Ha. by eapply balanced_weak.
Qed.

Lemma keeps_bind {A B} (p : capturing A) (f : A → capturing B) : keeps p → (∀ a, keeps (f a)) → keeps (p ≫= f).
Proof.
  intros Hp Hf owed n w Hw. apply wp_bind. eapply wp_mono; [by apply Hp| |done].
  intros a w1 [H1 E1]. eapply wp_mono; [by apply Hf| |done]. intros b w2 [H2 E2]. split; [done|congruence].
Qed.

(** ** Settling the pending records *)

Definition settled (get : ApiCounters → Z) `{!Update get} (a : ApiCounters) : ApiCounters :=
  no_pending (update get (λ _, get a + ac_pending a) a).

Lemma set_counters_same w : w <| cw_api_counters := cw_api_counters w |> = w.
Proof. by destruct w. Qed.

(** The loop up to an index, which is where a throw leaves it. *)
Definition settled_upto (get : ApiCounters → Z) `{!Update get} (k : nat) (counters : list ApiCounters)
    : list ApiCounters := (settled get <$> take k counters) ++ drop k counters.

Lemma settle_counters_run (get : ApiCounters → Z) `{!Update get} subject n : ∀ k w counters,
  cw_api_counters w = settled_upto get k counters → (k + n = length counters)%nat →
  (∀ x a, ac_pending (update get (λ _, x) a) = ac_pending a) →
  wp (settle_counters get subject n k) w
    (λ _ w', w' = w <| cw_api_counters := settled get <$> counters |>)
    (λ _ w', ∃ k', w' = w <| cw_api_counters := settled_upto get k' counters |>).
Proof.
  induction n as [|n IH]; intros k w counters Hw Hlen Hget; cbn [settle_counters].
  - apply wp_ret. rewrite <- (set_counters_same w) at 1. f_equal. rewrite Hw. unfold settled_upto.
    by rewrite take_ge, drop_ge, app_nil_r by lia.
  - destruct (lookup_lt_is_Some_2 counters k ltac:(lia)) as [a Ha].
    assert (Hk : cw_api_counters w !! k = Some a).
    { rewrite Hw. unfold settled_upto. rewrite lookup_app_r by (rewrite length_fmap, length_take; lia).
      rewrite length_fmap, length_take, lookup_drop. rewrite <- Ha. f_equal. lia. }
    assert (Hat : counters_at k w = a) by (unfold counters_at; by rewrite Hk).
    assert (Hklen : (k < length (cw_api_counters w))%nat) by (by eapply lookup_lt_Some).
    wp_step. wp_step. wp_step. apply wp_add_to_counter.
    2: { intros e. exists k. by rewrite <- Hw, set_counters_same. }
    intros _. wp_step. wp_step. rewrite Hat.
    match goal with |- wp _ ?w1 _ _ => set (w' := w1) end.
    assert (Hw' : w' = w <| cw_api_counters := settled_upto get (S k) counters |>).
    { unfold w', counters_at. cbn. rewrite list_lookup_insert_eq by done. cbn.
      rewrite list_insert_insert_eq.
      assert (Hs : <[k := settled get a]> (cw_api_counters w) = settled_upto get (S k) counters).
      { rewrite Hw. unfold settled_upto. rewrite (take_S_r _ _ _ Ha), fmap_app, <- app_assoc.
        rewrite insert_app_r_alt by (rewrite length_fmap, length_take; lia).
        rewrite length_fmap, length_take. replace (k - k `min` length counters)%nat with 0%nat by lia.
        by rewrite (drop_S _ _ _ Ha). }
      unfold settled in Hs at 1. cbn in Hs. by rewrite Hs. }
    rewrite Hw'. eapply wp_mono; [apply IH with (counters := counters); [done|lia|done]|..].
    + intros [] w1 ->. done.
    + intros e w1 [k' ->]. by exists k'.
Qed.

Lemma lookup_settled_upto (get : ApiCounters → Z) `{!Update get} k counters i b :
  settled_upto get k counters !! i = Some b →
  ∃ a, counters !! i = Some a ∧ (b = settled get a ∨ b = a).
Proof.
  unfold settled_upto. intros H. rewrite <- (take_drop k counters). apply lookup_app_Some in H as [H | [Hle H]].
  - apply list_lookup_fmap_Some in H as (a & -> & Ha). exists a. split; [|by left].
    by apply lookup_app_l_Some.
  - rewrite length_fmap in *. exists b. split; [|by right]. by rewrite lookup_app_r.
Qed.

(** A counter the pending records may be moved to. *)
Definition settles (get : ApiCounters → Z) `{!Update get} : Prop :=
  (∀ x a, ac_pending (update get (λ _, x) a) = ac_pending a) ∧
  (∀ a, counted a → counted (settled get a) ∧ ac_written a ≤ ac_written (settled get a)) ∧
  (∀ a, calls_of (settled get a) = calls_of a ∧ held_of (settled get a) = held_of a).

Lemma written_settles : settles ac_written.
Proof.
  split_and!; [done|..]; intros a; unfold counted, calls_of, held_of; cbn; [intros ?|]; lia.
Qed.
Lemma dropped_settles : settles ac_trace_dropped.
Proof.
  split_and!; [done|..]; intros a; unfold counted, calls_of, held_of; cbn; [intros ?|]; lia.
Qed.

Definition with_counters (counters : list ApiCounters) (acc : Accounts) : Accounts :=
  {| acc_counters := counters; acc_pending := acc_pending acc;
     acc_pending_stacks := acc_pending_stacks acc; acc_written := acc_written acc;
     acc_dropped := acc_dropped acc; acc_stacks := acc_stacks acc; acc_spans := acc_spans acc;
     acc_wire := acc_wire acc; acc_ticks := acc_ticks acc; acc_state := acc_state acc |}.

Lemma settled_weak (get : ApiCounters → Z) `{!Update get} k acc : settles get → weak acc →
  weak (with_counters (settled_upto get k (acc_counters acc)) acc).
Proof.
  intros (_ & Hs & Hheld) [W1 W2 W3]. split; cbn.
  - unfold settled_upto. by rewrite length_app, length_fmap, <- length_app, take_drop.
  - intros i b Hb. destruct (lookup_settled_upto get k _ i b Hb) as (a & Ha & Hcase).
    destruct (W2 i a Ha) as [Hc Hle]. destruct Hcase as [-> | ->]; [|done].
    destruct (Hheld a) as [-> ->]. split; [|done]. by apply Hs.
  - assert (total ac_written (acc_counters acc) ≤ total ac_written (settled_upto get k (acc_counters acc))); [|destruct W3 as (? & ? & ?); split_and!; [done..|lia]].
    unfold settled_upto. rewrite <- (take_drop k (acc_counters acc)) at 1. rewrite !total_app, total_fmap.
    apply Z.add_le_mono_r, total_le, Forall_lookup. intros i a Ha. apply Hs.
    apply (W2 i). rewrite <- (take_drop k (acc_counters acc)). by apply lookup_app_l_Some.
Qed.

Lemma base_set_counters counters w : base w → base (w <| cw_api_counters := counters |>).
Proof. intros [B1 B2 B3 B4 B5 B6 B7]. by split. Qed.

(** [settle_counters] over all APIs. *)
Lemma settle_all (get : ApiCounters → Z) `{!Update get} subject w : settles get → base w → weak (accounts w) →
  wp (settle_counters get subject (length (cw_api_counters w)) 0) w
    (λ _ w', w' = w <| cw_api_counters := settled get <$> cw_api_counters w |>) (λ _ w', broken w').
Proof.
  intros Hs Hbase Hweak. eapply wp_mono; [apply settle_counters_run with (counters := cw_api_counters w)|..].
  - done.
  - done.
  - apply Hs.
  - by intros [] w' ->.
  - intros e w' [k ->]. split; [by apply base_set_counters|]. exact (settled_weak get k (accounts w) Hs Hweak).
Qed.

Lemma settled_upto_all (get : ApiCounters → Z) `{!Update get} counters :
  settled_upto get (length counters) counters = settled get <$> counters.
Proof. unfold settled_upto. by rewrite take_ge, drop_ge, app_nil_r by lia. Qed.

(** The accounts after the pending records were written, or dropped. *)
Definition after_writing (acc : Accounts) : Accounts :=
  {| acc_counters := settled ac_written <$> acc_counters acc; acc_pending := 0;
     acc_pending_stacks := (0, 0); acc_written := acc_written acc + acc_pending acc;
     acc_dropped := acc_dropped acc;
     acc_stacks := ((acc_stacks acc).1 + (acc_pending_stacks acc).1,
                    (acc_stacks acc).2 + (acc_pending_stacks acc).2);
     acc_spans := (no_span, (acc_spans acc).2); acc_wire := acc_wire acc;
     acc_ticks := acc_ticks acc; acc_state := acc_state acc |}.

Definition after_dropping (acc : Accounts) : Accounts :=
  {| acc_counters := settled ac_trace_dropped <$> acc_counters acc; acc_pending := 0;
     acc_pending_stacks := (0, 0); acc_written := acc_written acc;
     acc_dropped := acc_dropped acc + acc_pending acc; acc_stacks := acc_stacks acc;
     acc_spans := (no_span, if acc_dropped acc =? 0 then (acc_spans acc).1
       else (acc_spans acc).2 <| sp_sequence_end := sp_sequence_end (acc_spans acc).1 |>
                              <| sp_tick_end := sp_tick_end (acc_spans acc).1 |>);
     acc_wire := acc_wire acc; acc_ticks := acc_ticks acc; acc_state := acc_state acc |}.

Lemma settled_lookup (get : ApiCounters → Z) `{!Update get} owed acc i b : settles get → balanced owed acc →
  (settled get <$> acc_counters acc) !! i = Some b → counted b ∧ calls_of b = held_of b + owed i ∧ 0 ≤ owed i.
Proof.
  intros (_ & Hs & Hheld) Hb (a & -> & Ha)%list_lookup_fmap_Some.
  destruct (bal_apis _ _ Hb i a Ha) as (Hc & Heq & Ho). destruct (Hheld a) as [-> ->].
  split; [by apply Hs|done].
Qed.

Lemma balanced_written owed acc : balanced owed acc → balanced owed (after_writing acc).
Proof.
  intros Hb. split; cbn; rewrite ?total_fmap; cbn.
  - rewrite length_fmap. apply Hb.
  - intros i b. by apply settled_lookup, Hb; try apply written_settles.
  - induction (acc_counters acc); [done|]. unfold total in *. cbn. done.
  - rewrite total_plus, <- (bal_written _ _ Hb), <- (bal_pending _ _ Hb). done.
  - apply Hb.
  - lia.
  - destruct (bal_stacks _ _ Hb) as (? & ? & ?), (bal_pending_stacks _ _ Hb) as (? & ? & ?). lia.
Qed.

Lemma balanced_dropped owed acc : balanced owed acc → balanced owed (after_dropping acc).
Proof.
  intros Hb. split; cbn; rewrite ?total_fmap; cbn.
  - rewrite length_fmap. apply Hb.
  - intros i b. by apply settled_lookup, Hb; try apply dropped_settles.
  - induction (acc_counters acc); [done|]. unfold total in *. cbn. done.
  - apply Hb.
  - rewrite total_plus, <- (bal_dropped _ _ Hb), <- (bal_pending _ _ Hb). done.
  - lia.
  - apply Hb.
Qed.

Lemma settled_calls (get : ApiCounters → Z) `{!Update get} counters : settles get →
  total calls_of (settled get <$> counters) = total calls_of counters.
Proof. intros (_ & _ & H). rewrite total_fmap. apply total_ext, Forall_true. intros a. apply H. Qed.

Lemma wired_settled n acc : wired n acc → wired n (after_writing acc) ∧ wired n (after_dropping acc).
Proof.
  intros [H1 H2]. split; (split; [|done]); cbn; rewrite settled_calls; auto using written_settles, dropped_settles.
Qed.

Lemma orderly_written acc : orderly acc false → orderly (after_writing acc) false.
Proof. intros [H1 H2 H3]. by split. Qed.

Lemma orderly_dropped acc : orderly acc false → acc_pending acc ≠ 0 → orderly (after_dropping acc) true.
Proof.
  intros [H1 H2 H3] Hp. assert (Hd : acc_dropped acc = 0).
  { destruct (Z.eq_dec (acc_dropped acc) 0) as [|Hne]; [done|]. by destruct (H2 Hne). }
  split; cbn; try done.
  intros _. split; [done|]. rewrite Hd. by apply H3.
Qed.

(** What the end of a flush leaves. *)
Definition flushed (owed : nat → Z) (n : Z) (w w' : CaptureWriter) : Prop :=
  inv owed n w' ∧ clock w' = clock w ∧ cw_pending_event_count w' = 0.

(** Before the events of a span are dropped the limit was not there. *)
Definition free_inv (owed : nat → Z) (n : Z) (w : CaptureWriter) : Prop :=
  base w ∧ balanced owed (accounts w) ∧ (calls w ≤ bound → wired n (accounts w)) ∧
  (ordered w → calls w ≤ bound → orderly (accounts w) false).

Lemma span_wt_extend (b : bool) s t : span_wt s → span_wt t →
  span_wt (if b then t else s <| sp_sequence_end := sp_sequence_end t |> <| sp_tick_end := sp_tick_end t |>).
Proof. intros [] []. by destruct b. Qed.

Lemma drop_pending_flushed owed n w : free_inv owed n w → cw_pending_event_count w ≠ 0 →
  cw_file_limit_reached w = true →
  wp drop_pending_events w (λ _ w', flushed owed n w w') (λ _ w', broken w').
Proof.
  intros (Hbase & Hbal & Hwire & Hord) Hp Hlim. pose proof (balanced_weak _ _ Hbal) as Hweak.
  unfold drop_pending_events. wp_step. wp_step. wp_step.
  rewrite (proj2 (Z.eqb_neq _ _) Hp). unfold extend_drops. wp_step. wp_step.
  match goal with |- wp _ ?v _ _ => set (w1 := v) end.
  assert (Hb1 : base w1).
  { destruct Hbase as [B1 B2 B3 B4 B5 B6 B7]. split; cbn; try done. split; [apply B2|].
    apply span_wt_extend; apply B2. }
  assert (Hw1 : weak (accounts w1)) by (destruct Hweak; by split).
  wp_step. apply wp_add_to; [|by split]. intros Hsum.
  match goal with |- wp _ ?v _ _ => set (w2 := v) end.
  assert (Hb2 : base w2) by (destruct Hb1; by split).
  assert (Hw2 : weak (accounts w2)) by (destruct Hw1; by split).
  change (length (cw_api_counters w)) with (length (cw_api_counters w2)).
  eapply wp_mono; [by apply settle_all, Hw2; try apply dropped_settles| |done].
  intros [] w3 ->. unfold clear_pending. wp_step.
  match goal with |- flushed _ _ _ ?v => set (w3 := v) end.
  assert (Hacc : accounts w3 = after_dropping (accounts w)).
  { unfold w3, w2, w1, accounts, after_dropping. cbn. f_equal. by rewrite <- list_fmap_compose. }
  assert (Hcalls : calls w3 = calls w).
  { unfold calls. change (cw_api_counters w3) with (acc_counters (accounts w3)). rewrite Hacc.
    apply settled_calls, dropped_settles. }
  split; [|split; [unfold clock; by rewrite Hcalls|done]]. split.
  - destruct Hb2 as [B1 B2 B3 B4 B5 B6 B7]. split; try done. split; [done|]. exact (proj2 B2).
  - rewrite Hacc. by apply balanced_dropped.
  - rewrite Hcalls, Hacc. intros Hle. by apply wired_settled, Hwire.
  - rewrite Hcalls, Hacc. intros Hs Hle. change (cw_file_limit_reached w3) with (cw_file_limit_reached w).
    rewrite Hlim. by apply orderly_dropped; [apply Hord|].
Qed.

Lemma count_written_flushed owed n w : free_inv owed n w → cw_file_limit_reached w = false →
  wp (count_written ;; clear_pending) w (λ _ w', flushed owed n w w') (λ _ w', broken w').
Proof.
  intros (Hbase & Hbal & Hwire & Hord) Hlim. pose proof (balanced_weak _ _ Hbal) as Hweak.
  unfold count_written. wp_step. wp_step. wp_step. wp_step. apply wp_add_to; [|by split]. intros Hsum.
  match goal with |- wp _ ?v _ _ => set (w1 := v) end.
  assert (Hb1 : base w1) by (destruct Hbase; by split).
  assert (Hw1 : weak (accounts w1)) by (destruct Hweak; by split).
  change (length (cw_api_counters w)) with (length (cw_api_counters w1)).
  wp_step. eapply wp_mono; [by apply settle_all, Hw1; try apply written_settles| |done].
  intros [] w2 ->. cbv beta.
  assert (Hdone : balanced owed (after_writing (accounts w))) by by apply balanced_written.
  assert (Hb2 : base (w1 <| cw_api_counters := settled ac_written <$> cw_api_counters w1 |>)) by by apply base_set_counters.
  destruct (bal_pending_stacks _ _ Hbal) as (? & ? & ?), (bal_stacks _ _ Hbal) as (? & ? & ?).
  pose proof (bal_written _ _ Hdone) as Hwritten. cbn in Hwritten.
  assert (Hw2 : ∀ unique reused, 0 ≤ unique → 0 ≤ reused →
    unique + reused ≤ cw_written_events w + cw_pending_event_count w →
    weak (accounts (w1 <| cw_api_counters := settled ac_written <$> cw_api_counters w1 |>
                       <| cw_unique_stacks := unique |> <| cw_reused_stacks := reused |>))).
  { intros u r Hu Hr Hur. destruct (balanced_weak _ _ Hdone). split; cbn; try done. lia. }
  wp_step. apply wp_add_to.
  2: { intros e. split; [done|]. apply (Hw2 (cw_unique_stacks w) (cw_reused_stacks w)); cbn in *; lia. }
  intros Hu. apply wp_add_to.
  2: { intros e. split; [destruct Hb2; by split|].
       apply (Hw2 (cw_unique_stacks w + cw_pending_unique_stacks w) (cw_reused_stacks w)); cbn in *; lia. }
  intros Hr. unfold clear_pending. wp_step.
  match goal with |- flushed _ _ _ ?v => set (w3 := v) end.
  assert (Hacc : accounts w3 = after_writing (accounts w)).
  { unfold w3, w1, accounts, after_writing. cbn. f_equal. by rewrite <- list_fmap_compose. }
  assert (Hcalls : calls w3 = calls w).
  { unfold calls. change (cw_api_counters w3) with (acc_counters (accounts w3)). rewrite Hacc.
    apply settled_calls, written_settles. }
  split; [|split; [unfold clock; by rewrite Hcalls|done]]. split.
  - destruct Hb2 as [B1 B2 B3 B4 B5 B6 B7]. split; try done. split; [done|]. exact (proj2 B2).
  - by rewrite Hacc.
  - rewrite Hcalls, Hacc. intros Hle. by apply wired_settled, Hwire.
  - rewrite Hcalls, Hacc. intros Hs Hle. change (cw_file_limit_reached w3) with (cw_file_limit_reached w).
    rewrite Hlim. by apply orderly_written, Hord.
Qed.

(** ** Flushes *)

Lemma base_quiet {A} (p : capturing A) w : quiet p → base w →
  wp p w (λ _ w', base w' ∧ accounts w' = accounts w ∧ cw_file_limit_reached w' = cw_file_limit_reached w)
         (λ _ w', base w' ∧ accounts w' = accounts w).
Proof.
  intros Hp Hbase. eapply wp_mono; [by apply quiet_wp|..].
  - intros a w' [Ha Ho]. split; [by eapply base_same|]. split; [done|]. by injection Ho.
  - intros e w' [Ha Ho]. split; [by eapply base_same|done].
Qed.

Definition limit_kept (w w' : CaptureWriter) : Prop :=
  cw_file_limit_reached w = true → cw_file_limit_reached w' = true.

Lemma flush_module_base w : base w →
  wp (flush_module_payload c) w (λ _ w', base w' ∧ accounts w' = accounts w ∧ limit_kept w w')
    (λ _ w', base w' ∧ accounts w' = accounts w).
Proof.
  intros Hbase. unfold flush_module_payload. wp_step. wp_step. wp_step; [apply wp_ret; by unfold limit_kept|]. wp_step.
  eapply wp_mono with (P := λ (r : bool) w', base w' ∧ accounts w' = accounts w ∧ limit_kept w w')
    (Q := λ _ w', base w' ∧ accounts w' = accounts w); [| |done].
  - destruct (cw_file_limit_reached w) eqn:El; [apply wp_ret; by unfold limit_kept|].
    eapply wp_mono; [by apply write_chunk_of_base| |done]. intros r w1 (H1 & H2 & H3). split; [done|].
    split; [done|]. unfold limit_kept. by rewrite El.
  - intros r w1 (H1 & H2 & H3).
    assert (Hq : quiet ((if r then count_written_modules else mret tt) ;; clear_module_payload)) by quiet.
    eapply wp_mono; [by apply base_quiet|..].
    + intros a w2 (H4 & H5 & H6). split; [done|]. split; [congruence|]. intros H. rewrite H6. auto.
    + intros e w2 [H4 H5]. split; [done|congruence].
Qed.

Lemma orderly_limit acc l l' : orderly acc l → acc_pending acc = 0 → (l = true → l' = true) → orderly acc l'.
Proof. intros [H1 H2 H3] Hp Hl. split; [done| |done..]. intros Hd. destruct (H2 Hd). auto. Qed.

(** The limit is never taken back. *)
Lemma ordered_before w w' : limit_kept w w' → ordered w' → ordered w.
Proof. intros Hl [Hs|Hf]; [by left|right]. destruct (cw_file_limit_reached w) eqn:E; [|done]. by rewrite Hl in Hf. Qed.

Lemma inv_free owed n w : inv owed n w → cw_pending_event_count w ≠ 0 → free_inv owed n w.
Proof.
  intros [H1 H2 H3 H4] Hp. split_and!; [done..|]. intros Hs Hle. specialize (H4 Hs Hle).
  destruct (cw_file_limit_reached w); [|done]. by pose proof (ord_limit _ _ H4 eq_refl).
Qed.

Lemma inv_same owed n w w' : base w' → accounts w' = accounts w → limit_kept w w' →
  cw_pending_event_count w = 0 → inv owed n w → flushed owed n w w'.
Proof.
  intros Hbase Ha Hl Hp [H1 H2 H3 H4]. pose proof (clock_accounts _ _ Ha) as Hc.
  pose proof (f_equal acc_pending Ha) as Hp'. split; [|split; [done|by rewrite <- Hp]].
  split; [done|by rewrite Ha|by rewrite (clock_calls _ _ Hc), Ha|]. rewrite (clock_calls _ _ Hc), Ha. intros Hs Hle.
  eapply orderly_limit; [apply H4; [by eapply ordered_before|done]|done|done].
Qed.

Lemma free_same owed n w w' : base w' → accounts w' = accounts w → limit_kept w w' → free_inv owed n w →
  free_inv owed n w' ∧ clock w' = clock w ∧ cw_pending_event_count w' = cw_pending_event_count w.
Proof.
  intros Hbase Ha Hl (H1 & H2 & H3 & H4). pose proof (clock_accounts _ _ Ha) as Hc.
  pose proof (f_equal acc_pending Ha) as Hp. split; [|done].
  split; [done|]. rewrite (clock_calls _ _ Hc), Ha. split_and!; [done..|]. intros Hs. apply H4. by eapply ordered_before.
Qed.

Lemma base_broken owed n w w' : base w' → accounts w' = accounts w → free_inv owed n w → broken w'.
Proof. intros Hbase Ha (_ & H & _). split; [done|]. rewrite Ha. by eapply balanced_weak. Qed.

Lemma write_pending_base w : base w →
  wp (write_pending c) w
    (λ r w', base w' ∧ accounts w' = accounts w ∧
       cw_file_limit_reached w' = if r then cw_file_limit_reached w else true)
    (λ _ w', base w' ∧ accounts w' = accounts w).
Proof.
  intros Hbase. unfold write_pending. wp_step. wp_step. wp_step.
  eapply wp_mono with (P := λ (r : bool) w', base w' ∧ accounts w' = accounts w ∧
    cw_file_limit_reached w' = if r then cw_file_limit_reached w else true)
    (Q := λ _ w', base w' ∧ accounts w' = accounts w); [| |done].
  - wp_step; [by apply wp_ret|]. by apply write_chunk_of_base.
  - intros r w1 (H1 & H2 & H3). destruct r; cbn [negb]; [|by apply wp_ret].
    destruct (base_spans _ Hbase) as [[Hb He] _].
    eapply wp_mono; [by apply write_chunk_of_base|..].
    + intros r w2 (H4 & H5 & H6). split; [done|]. split; [congruence|]. by rewrite H6, H3.
    + intros e w2 [H4 H5]. split; [done|congruence].
Qed.

Lemma flush_pending_flushed owed n w : inv owed n w →
  wp (flush_pending c) w (λ _ w', flushed owed n w w') (λ _ w', broken w').
Proof.
  intros Hinv. pose proof (inv_base _ _ _ Hinv) as Hbase. unfold flush_pending. wp_step. wp_step.
  destruct (Z.eqb_spec (cw_pending_event_count w) 0) as [Hp|Hp].
  { eapply wp_mono; [by apply flush_module_base|..].
    - intros [] w' (H1 & H2 & H3). by eapply inv_same.
    - intros e w' [H1 H2]. split; [done|]. rewrite H2. eapply balanced_weak, Hinv. }
  pose proof (inv_free _ _ _ Hinv Hp) as Hfree.
  assert (Hdrop : ∀ w', base w' → accounts w' = accounts w → cw_file_limit_reached w' = true →
    wp drop_pending_events w' (λ _ w', flushed owed n w w') (λ _ w', broken w')).
  { intros w' Hb Ha Hl. destruct (free_same _ _ _ _ Hb Ha (λ _, Hl) Hfree) as (Hf & Hc & Hp').
    eapply wp_mono; [by apply drop_pending_flushed; [| rewrite Hp'|]| |done].
    intros [] w2 (H1 & H2 & H3). split; [done|]. split; [congruence|done]. }
  wp_step. eapply wp_mono; [by apply flush_module_base| |intros e w' []; by eapply base_broken].
  intros [] w1 (H1 & H2 & H3). wp_step. wp_step.
  destruct (cw_file_limit_reached w1) eqn:El1; [by apply Hdrop|].
  wp_step. eapply wp_mono; [by apply write_pending_base|..].
  2: { intros e w' [H4 H5]. eapply base_broken; [done| |done]. congruence. }
  intros r w2 (H4 & H5 & H6). destruct r; cbn [negb]; [|apply Hdrop; [done|congruence|done]].
  destruct (free_same owed n w w2) as (Hf & Hc & Hp'); [done|congruence|unfold limit_kept in *; rewrite H6; auto|done|].
  eapply wp_mono; [apply count_written_flushed; [done|congruence]| |done].
  intros [] w3 (H7 & H8 & H9). split; [done|]. split; [congruence|done].
Qed.

Lemma keeps_flush_pending : keeps (flush_pending c).
Proof.
  intros owed n w Hw. eapply wp_mono; [by apply flush_pending_flushed| |done]. by intros [] w' (H1 & H2 & _).
Qed.

(** ** Modules *)

(** A computation that keeps the invariant while nothing is pending. *)
Definition keeps_flushed {A} (p : capturing A) : Prop :=
  ∀ owed n w, inv owed n w → cw_pending_event_count w = 0 →
    wp p w (λ _ w', flushed owed n w w') (λ _ w', broken w').

Lemma quiet_keeps_flushed {A} (p : capturing A) : quiet p → keeps_flushed p.
Proof.
  intros Hp owed n w Hw H0. eapply wp_mono; [apply base_quiet; [done|apply Hw]|..].
  - intros a w' (H1 & H2 & H3). eapply inv_same; try done. intros H. by rewrite H3.
  - intros e w' [H1 H2]. split; [done|]. rewrite H2. eapply balanced_weak, Hw.
Qed.

Lemma keeps_flushed_module_payload : keeps_flushed (flush_module_payload c).
Proof.
  intros owed n w Hw H0. eapply wp_mono; [apply flush_module_base, Hw|..].
  - intros [] w' (H1 & H2 & H3). by eapply inv_same.
  - intros e w' [H1 H2]. split; [done|]. rewrite H2. eapply balanced_weak, Hw.
Qed.

Lemma keeps_flushed_bind {A B} (p : capturing A) (f : A → capturing B) :
  keeps_flushed p → (∀ a, keeps_flushed (f a)) → keeps_flushed (p ≫= f).
Proof.
  intros Hp Hf owed n w Hw H0. apply wp_bind. eapply wp_mono; [by apply Hp| |done].
  intros a w1 (H1 & E1 & P1). eapply wp_mono; [by apply Hf| |done].
  intros b w2 (H2 & E2 & P2). split; [done|]. split; [congruence|done].
Qed.

(** Quiet checks, then the flush, then steps with nothing pending. *)
Lemma keeps_flush_first {A} (p : capturing A) : keeps_flushed p → keeps (flush_events_first c ;; p).
Proof.
  intros Hp owed n w Hw. apply wp_bind.
  eapply wp_mono with (P := λ _ w', flushed owed n w w') (Q := λ _ w', broken w'); [| |done].
  - unfold flush_events_first. wp_step. wp_step.
    destruct (Z.eqb_spec (cw_pending_event_count w) 0); [by apply wp_ret|]. by apply flush_pending_flushed.
  - intros [] w1 (H1 & E1 & P1). eapply wp_mono; [by apply Hp| |done].
    intros a w2 (H2 & E2 & _). split; [done|congruence].
Qed.

Lemma keeps_flushed_end ticks : keeps_flushed (end_module_event c ticks).
Proof.
  unfold end_module_event. apply keeps_flushed_bind; [apply quiet_keeps_flushed; quiet|]. intros _.
  apply keeps_flushed_bind; [apply quiet_keeps_flushed; quiet|]. intros w.
  destruct (_ <=? _); [apply keeps_flushed_module_payload|]. apply quiet_keeps_flushed. quiet.
Qed.

Lemma keeps_assoc {A B D} (p : capturing A) (f : A → capturing B) (g : B → capturing D) :
  keeps (p ≫= λ a, f a ≫= g) → keeps ((p ≫= f) ≫= g).
Proof. intros H owed n w Hw. unfold wp. rewrite proc_bind_assoc. by apply H. Qed.

(** Quiet steps before a computation that keeps the invariant. *)
Lemma keeps_quiet_bind {A B} (p : capturing A) (f : A → capturing B) : quiet p → (∀ a, keeps (f a)) → keeps (p ≫= f).
Proof. intros Hp Hf. apply keeps_bind; [by apply quiet_keeps|done]. Qed.

Lemma keeps_process_module_event raw : keeps (process_module_event c raw).
Proof.
  unfold process_module_event. apply keeps_quiet_bind; [quiet|]. intros w.
  apply keeps_quiet_bind; [unfold fail_when; quiet|]. intros _.
  apply keeps_quiet_bind; [quiet|]. intros ticks. destruct (rm_type raw).
  - unfold load_module. apply keeps_assoc, keeps_quiet_bind; [quiet|]. intros w1.
    do 3 (apply keeps_assoc, keeps_quiet_bind; [unfold fail_when; quiet|]; intros _).
    apply keeps_assoc, keeps_flush_first, keeps_flushed_bind; [|intros _; apply keeps_flushed_end].
    apply quiet_keeps_flushed. quiet.
  - destruct (om_find _ _) as [existing|].
    + unfold unload_module. apply keeps_assoc, keeps_flush_first, keeps_flushed_bind; [|intros _; apply keeps_flushed_end].
      apply quiet_keeps_flushed. quiet.
    + apply quiet_keeps. quiet.
Qed.

Lemma keeps_process_modules raws : keeps (process_modules c raws).
Proof.
  induction raws as [|raw raws IH]; cbn [process_modules]; [apply quiet_keeps; quiet|].
  apply keeps_bind; [apply keeps_process_module_event|done].
Qed.

Lemma keeps_drain_modules_loop maximum fuel : keeps (drain_modules_loop c fuel maximum).
Proof.
  induction fuel as [|fuel IH]; cbn [drain_modules_loop]; [apply quiet_keeps; quiet|].
  apply keeps_quiet_bind; [quiet|]. intros [raw|]; [|apply quiet_keeps; quiet].
  destruct (_ <? _); [apply quiet_keeps; quiet|].
  apply keeps_bind; [apply keeps_process_module_event|]. intros _. apply keeps_quiet_bind; [quiet|done].
Qed.

Lemma keeps_drain_modules_through maximum : keeps (drain_modules_through c maximum).
Proof. apply keeps_quiet_bind; [quiet|]. intros w. apply keeps_drain_modules_loop. Qed.

(** ** Events *)

(** The records of the event in process, which are owed by its API. *)
Definition owes (index : nat) (records : Z) : nat → Z := λ i, if decide (i = index) then records else 0.

(** The counters of one API change, and the sums with them. *)
Lemma balanced_insert owed owed' index a b acc acc' : balanced owed acc →
  acc_counters acc !! index = Some a →
  acc_counters acc' = <[index := b]> (acc_counters acc) →
  counted b → calls_of b = held_of b + owed' index → 0 ≤ owed' index →
  (∀ i, i ≠ index → owed' i = owed i) →
  acc_pending acc' = acc_pending acc - ac_pending a + ac_pending b →
  acc_written acc' = acc_written acc - ac_written a + ac_written b →
  acc_dropped acc' = acc_dropped acc - ac_trace_dropped a + ac_trace_dropped b →
  0 ≤ (acc_pending_stacks acc').1 ∧ 0 ≤ (acc_pending_stacks acc').2 ∧
    (acc_pending_stacks acc').1 + (acc_pending_stacks acc').2 ≤ acc_pending acc' →
  acc_stacks acc' = acc_stacks acc → acc_written acc ≤ acc_written acc' →
  balanced owed' acc'.
Proof.
  intros [H1 H2 H3 H4 H5 H6 H7] Ha Hc Hb Hheld Hn Howed Ep Ew Ed Hps Es Hle. split; rewrite ?Hc.
  - by rewrite length_insert.
  - intros i x Hx. destruct (decide (i = index)) as [->|Hi].
    + rewrite list_lookup_insert_eq in Hx by (by eapply lookup_lt_Some). by injection Hx as <-.
    + rewrite list_lookup_insert_ne in Hx by done. rewrite Howed by done. by apply H2.
  - rewrite Ep, H3. by rewrite (total_insert _ _ _ _ _ Ha).
  - rewrite Ew, H4. by rewrite (total_insert _ _ _ _ _ Ha).
  - rewrite Ed, H5. by rewrite (total_insert _ _ _ _ _ Ha).
  - done.
  - rewrite Es. destruct H7 as (? & ? & ?). split_and!; [done..|lia].
Qed.

Lemma orderly_ticks acc limited ticks : orderly acc limited → acc_ticks acc ≤ ticks →
  ∀ acc', acc_pending acc' = acc_pending acc → acc_dropped acc' = acc_dropped acc →
    acc_wire acc' = acc_wire acc → acc_spans acc' = acc_spans acc → acc_ticks acc' = ticks → orderly acc' limited.
Proof.
  intros [H1 H2 H3] Hle acc' Ep Ed Ew Es Et.
  assert (Hspan : ∀ last s, span_ok last (acc_ticks acc) s → span_ok last ticks s).
  { unfold span_ok. intros last s. lia. }
  split; rewrite ?Ep, ?Ed, ?Ew, ?Es, ?Et; try done.
  - intros Hd. destruct (H2 Hd). auto.
  - auto.
Qed.

Lemma normalize_ticks_inv raw w : inv nothing_owed 0 w →
  wp (normalize_ticks raw) w
    (λ ticks w', inv nothing_owed 0 w' ∧ calls w' = calls w ∧ cw_last_ticks w' = ticks)
    (λ _ w', broken w').
Proof.
  intros [Hb Hbal Hw Ho]. unfold normalize_ticks. wp_step. wp_step. wp_step. wp_step. wp_step.
  match goal with |- wp _ ?v _ _ => set (w1 := v) end.
  assert (Hb1 : base w1) by (destruct Hb; by split).
  assert (Hbal1 : balanced nothing_owed (accounts w1)) by (destruct Hbal; by split).
  set (raw_ticks := raw_monotonic_ticks raw).
  eapply wp_mono with (P := λ _ w', ∃ n, w' = w1 <| cw_timestamp_adjustments := n |>) (Q := λ _ w', broken w'); [| |done].
  - destruct (_ <? _).
    + apply wp_add_to; [intros _; by eexists|]. intros e. split; [done|by eapply balanced_weak].
    + apply wp_ret. exists (cw_timestamp_adjustments w1). by destruct w1.
  - intros [] w2 [n ->]. repeat wp_step. split; [|done]. split.
    + destruct Hb1; by split.
    + destruct Hbal1; by split.
    + intros Hle. by destruct (Hw Hle).
    + intros Hs Hle. eapply orderly_ticks; [by apply Ho| |done..]. cbn. lia.
Qed.

Lemma hook_api_index_lt api index : hook_api_index c api = Ok index → (index < length (counter_api_ids c))%nat.
Proof.
  unfold hook_api_index, counter_api_ids. rewrite length_app, !length_fmap.
  destruct (list_find _ _) as [[i e]|] eqn:Ef.
  - intros [= <-]. apply list_find_Some in Ef as (Hi & _). apply lookup_lt_Some in Hi. lia.
  - destruct (_ && _) eqn:Eb; [|done]. intros [= <-]. unfold size_of in Eb. bool_facts. change (length kLinuxHookRegistry) with 11%nat. lia.
Qed.

(** A failed call has one record. *)
Lemma failed_plan raw w : raw_succeeded raw = false → is_vm_operation (raw_operation raw) = true →
  wp (plan_event c raw) w (λ plan _, size_of plan = 1) (λ _ _, True).
Proof.
  intros Hf Hvm. unfold plan_event, plan_vm_call, plan_vm_event. rewrite Hvm, Hf. cbn [negb]. reflexivity.
Qed.

Lemma counters_at_lookup index w owed acc : balanced owed acc → acc_counters acc = cw_api_counters w →
  (index < length (counter_api_ids c))%nat → cw_api_counters w !! index = Some (counters_at index w).
Proof.
  intros Hb Hc Hi. unfold counters_at. rewrite <- (bal_length _ _ Hb), Hc in Hi.
  by destruct (lookup_lt_is_Some_2 _ _ Hi) as [a ->].
Qed.

(** Counters that differ where no account looks. *)
Lemma inv_extra owed n index extra w : inv owed n w → (index < length (counter_api_ids c))%nat → 0 ≤ extra →
  inv owed n (w <| cw_api_counters := <[index := (counters_at index w) <| ac_extra_records := extra |>]>
    (cw_api_counters w) |>) ∧
  clock (w <| cw_api_counters := <[index := (counters_at index w) <| ac_extra_records := extra |>]>
    (cw_api_counters w) |>) = clock w.
Proof.
  intros [Hb Hbal Hw Ho] Hi Hextra. pose proof (counters_at_lookup _ _ _ _ Hbal eq_refl Hi) as Ha.
  set (a := counters_at index w) in *. match goal with |- inv _ _ ?v ∧ _ => set (w' := v) end.
  assert (Hcalls : total calls_of (cw_api_counters w') = total calls_of (cw_api_counters w)).
  { unfold w'. cbn. rewrite (total_insert _ _ _ _ _ Ha). unfold calls_of. cbn. lia. }
  split; [|unfold clock, calls; by rewrite Hcalls].
  destruct (bal_apis _ _ Hbal _ _ Ha) as (Hcount & Heq & Hn). split.
  - destruct Hb; by split.
  - eapply (balanced_insert _ _ index a); [exact Hbal|exact Ha|reflexivity|unfold counted in *; cbn; lia|done|done|done|..]; cbn; [lia|lia|lia|apply Hbal|done|lia].
  - intros Hle. unfold calls in Hle. rewrite Hcalls in Hle. destruct (Hw Hle). split; [|done].
    change (acc_counters (accounts w')) with (cw_api_counters w'). by rewrite Hcalls.
  - intros Hs Hle. unfold calls in Hle. rewrite Hcalls in Hle. by destruct (Ho Hs Hle).
Qed.

Lemma count_event_inv raw index records w : inv nothing_owed 0 w → (index < length (counter_api_ids c))%nat →
  0 ≤ records → (raw_succeeded raw = false → records = 1) →
  wp (count_event raw index records) w
    (λ _ w', inv (owes index records) records w' ∧ cw_last_ticks w' = cw_last_ticks w)
    (λ _ w', broken w').
Proof.
  intros Hinv Hi Hn Hfail. pose proof Hinv as [Hb Hbal Hw Ho].
  pose proof (counters_at_lookup _ _ _ _ Hbal eq_refl Hi) as Ha. set (a := counters_at index w) in *.
  destruct (bal_apis _ _ Hbal _ _ Ha) as (Hcount & Heq & _). unfold nothing_owed in Heq.
  assert (Hbump : ∀ b, counted b → calls_of b = calls_of a + records → held_of b = held_of a →
    ac_pending b = ac_pending a → ac_written b = ac_written a → ac_trace_dropped b = ac_trace_dropped a →
    inv (owes index records) records (w <| cw_api_counters := <[index := b]> (cw_api_counters w) |>)).
  { intros b Hcb E1 E2 E3 E4 E5. split.
    - destruct Hb; by split.
    - eapply (balanced_insert _ _ index a); [exact Hbal|exact Ha|reflexivity|done|..]; cbn.
      + unfold owes. rewrite decide_True by done. lia.
      + unfold owes. rewrite decide_True by done. lia.
      + intros j Hj. unfold owes. by rewrite decide_False.
      + lia.
      + lia.
      + lia.
      + apply Hbal.
      + done.
      + lia.
    - unfold calls. cbn. rewrite (total_insert _ _ _ _ _ Ha), E1. intros Hle.
      destruct Hw as [W1 W2]; [unfold calls; lia|]. split; [|done]. cbn in *.
      rewrite (total_insert _ _ _ _ _ Ha), E1. lia.
    - intros Hs. unfold calls. cbn. rewrite (total_insert _ _ _ _ _ Ha), E1. intros Hle.
      destruct Ho as [O1 O2 O3]; [done|unfold calls; lia|]. by split. }
  unfold count_event. wp_step.
  eapply wp_mono with (P := λ _ w', inv (owes index records) records w' ∧ cw_last_ticks w' = cw_last_ticks w)
    (Q := λ _ w', broken w'); [| |done].
  - unfold counted, calls_of, held_of in *.
    destruct (raw_succeeded raw) eqn:Es; apply wp_add_to_counter; try (intros e; by eapply inv_broken); intros _;
      fold a; (split; [|done]); apply Hbump; unfold counted, calls_of, held_of; cbn; lia.
  - intros [] w1 [H1 E1]. cbv beta. destruct (Z.ltb_spec (hook_predicted raw) records) as [Hlt|]; [|by apply wp_ret].
    apply wp_add_to_counter; [|intros e; by eapply inv_broken]. intros _.
    destruct (bal_apis _ _ (inv_balanced _ _ _ H1) _ _ (counters_at_lookup _ _ _ _ (inv_balanced _ _ _ H1) eq_refl Hi)) as [Hcount1 _].
    destruct (inv_extra _ _ index (ac_extra_records (counters_at index w1) + (records - hook_predicted raw)) _ H1 Hi) as [H2 _].
    { unfold counted in Hcount1. lia. }
    by split.
Qed.

(** The event has its sequences, which do not wrap. *)
Definition claimed (wire_begin records ticks : Z) (w : CaptureWriter) : Prop :=
  u64 wire_begin ∧ cw_last_ticks w = ticks ∧
  (calls w ≤ bound → 0 < wire_begin ≤ cw_last_wire_sequence w ∧
     cw_last_wire_sequence w = wrap64 (wire_begin + records - 1)).

Lemma claimed_clock b n t w w' : clock w' = clock w → claimed b n t w → claimed b n t w'.
Proof. unfold claimed. intros [= E1 E2 E3 E4]. by rewrite E1, E3, E4. Qed.

Lemma claim_sequences_inv index records w : inv (owes index records) records w →
  (index < length (counter_api_ids c))%nat → 0 ≤ records →
  wp (claim_sequences records) w
    (λ wire_begin w', inv (owes index records) 0 w' ∧ claimed wire_begin records (cw_last_ticks w) w')
    (λ _ w', broken w').
Proof.
  intros Hinv Hi Hn. pose proof Hinv as [Hb Hbal Hw Ho]. unfold claim_sequences. wp_step. wp_step. wp_step.
  unfold fail_when. apply wp_call; [|intros e; by eapply inv_broken]. intros [] Hroom.
  wp_step. wp_step. wp_step. destruct (base_wire _ Hb) as [Hw1 Hw2].
  match goal with |- inv _ _ ?v ∧ _ => set (w' := v) end.
  assert (Hroomy : calls w ≤ bound →
    0 < cw_next_wire_sequence w ∧ 1 ≤ records ∧ cw_next_wire_sequence w + records ≤ u64_max).
  { intros Hle. destruct (Hw Hle) as [W1 W2]. cbn in W1, W2.
    assert (0 ≤ held_of (counters_at index w)).
    { destruct (bal_apis _ _ Hbal _ _ (counters_at_lookup _ _ _ _ Hbal eq_refl Hi)) as (Hc & _).
      unfold counted in Hc. unfold held_of. lia. }
    assert (records ≤ total calls_of (cw_api_counters w)).
    { assert (calls_of (counters_at index w) ≤ total calls_of (cw_api_counters w)) as Hge.
      { pose proof (counters_at_lookup _ _ _ _ Hbal eq_refl Hi) as Ha.
        pose proof (total_insert calls_of _ _ _ ApiCounters_new Ha) as Hins.
        assert (0 ≤ total calls_of (<[index:=ApiCounters_new]> (cw_api_counters w))); [|change (calls_of ApiCounters_new) with 0 in Hins; lia].
        apply total_nonneg, Forall_lookup. intros j x Hx. destruct (decide (j = index)) as [->|Hj].
        - rewrite list_lookup_insert_eq in Hx by (by eapply lookup_lt_Some). by injection Hx as <-.
        - rewrite list_lookup_insert_ne in Hx by done. destruct (bal_apis _ _ Hbal j x Hx) as ((?&?&_) & _).
          unfold calls_of. lia. }
      destruct (bal_apis _ _ Hbal _ _ (counters_at_lookup _ _ _ _ Hbal eq_refl Hi)) as (_ & Heq & _).
      unfold owes in Heq. rewrite decide_True in Heq by done. lia. }
    assert (1 ≤ records).
    { destruct (Z.eq_dec records 0) as [->|]; [|lia]. unfold throw_if in Hroom.
      change (wrap64 (0 - 1)) with u64_max in Hroom. destruct (Z.ltb_spec (u64_max - cw_next_wire_sequence w) u64_max); [done|].
      lia. }
    unfold calls in Hle. lia. }
  assert (Hcalls : calls w' = calls w) by done. split; [split|].
  - destruct Hb as [B1 B2 B3 B4 B5 B6 B7]. split; try done. cbn. split; apply wrap64_u64.
  - destruct Hbal; by split.
  - rewrite Hcalls. intros Hle. destruct (Hw Hle) as [W1 W2]. destruct (Hroomy Hle) as (S1 & S2 & S3).
    cbn in W1, W2. assert (E : wrap64 (cw_next_wire_sequence w + records) = cw_next_wire_sequence w + records) by (apply wrap64_small; word).
    split; cbn; rewrite E; [lia|]. apply wrap64_small. word.
  - rewrite Hcalls. intros Hs Hle. destruct (Ho Hs Hle) as [O1 O2 O3]. destruct (Hw Hle) as [W1 W2].
    destruct (Hroomy Hle) as (S1 & S2 & S3). cbn in O1, O2, O3, W1, W2. assert (E : wrap64 (cw_next_wire_sequence w + records) = cw_next_wire_sequence w + records) by (apply wrap64_small; word).
    assert (E' : wrap64 (cw_next_wire_sequence w + records - 1) = cw_next_wire_sequence w + records - 1) by (apply wrap64_small; word).
    assert (Hspan : ∀ s, span_ok (cw_last_wire_sequence w) (cw_last_ticks w) s →
      span_ok (cw_next_wire_sequence w + records - 1) (cw_last_ticks w) s) by (unfold span_ok; lia).
    split; cbn; rewrite ?E, ?E'; try done.
    + intros Hd. destruct (O2 Hd). auto.
    + auto.
  - split; [done|]. split; [done|]. rewrite Hcalls. intros Hle. destruct (Hroomy Hle) as (S1 & S2 & S3).
    cbn. rewrite (wrap64_small (cw_next_wire_sequence w + records)) by word.
    rewrite wrap64_small by word. split; [lia|done].
Qed.

Lemma inv_base_step owed n w w' : base w' → accounts w' = accounts w →
  cw_file_limit_reached w' = cw_file_limit_reached w → inv owed n w → inv owed n w' ∧ clock w' = clock w.
Proof.
  intros Hb Ha Hl [H1 H2 H3 H4]. pose proof (clock_accounts _ _ Ha) as Hc. split; [|done].
  split; [done|by rewrite Ha|..]; unfold ordered; by rewrite (clock_calls _ _ Hc), Ha, ?Hl.
Qed.

Lemma keeps_note_stack_capture_loss raw wire_begin records ticks :
  keeps (note_stack_capture_loss raw wire_begin records ticks).
Proof.
  unfold note_stack_capture_loss. destruct (negb _); [apply quiet_keeps; quiet|].
  apply keeps_quiet_bind; [quiet|]. intros _. apply keeps_bind; [|intros _; apply quiet_keeps; quiet].
  intros owed n w Hw. eapply wp_mono; [apply observe_capture_loss_base, Hw|..].
  - intros [] w' (H1 & H2 & H3). by apply inv_base_step.
  - intros e w' [H1 H2]. split; [done|]. rewrite H2. eapply balanced_weak, Hw.
Qed.

Lemma note_event_trace_drop_inv index ticks wire_begin records w :
  inv (owes index records) 0 w → (index < length (counter_api_ids c))%nat → 0 ≤ records →
  claimed wire_begin records ticks w → cw_file_limit_reached w = true →
  wp (note_event_trace_drop index ticks wire_begin records) w
    (λ _ w', inv nothing_owed 0 w' ∧ calls w' = calls w) (λ _ w', broken w').
Proof.
  intros [Hb Hbal Hw Ho] Hi Hn (Hc1 & Hc2 & Hc3) Hlim. unfold note_event_trace_drop, extend_drops.
  wp_step. wp_step. match goal with |- wp _ ?v _ _ => set (w1 := v) end.
  pose proof (balanced_weak _ _ Hbal) as Hweak.
  assert (Hb1 : base w1).
  { destruct Hb as [B1 B2 B3 B4 B5 B6 B7]. split; try done. split; [apply B2|].
    apply span_wt_extend; [apply B2|]. split; [done|]. apply wrap64_u64. }
  wp_step. apply wp_add_to; [|intros e; split; [done|destruct Hweak; by split]]. intros Hsum.
  match goal with |- wp _ ?v _ _ => set (w2 := v) end.
  apply wp_add_to_counter; [|intros e; split; [destruct Hb1; by split|destruct Hweak; by split]]. intros Hsum'.
  pose proof (counters_at_lookup _ _ _ _ Hbal eq_refl Hi) as Ha.
  change (counters_at index w2) with (counters_at index w) in *. set (a := counters_at index w) in *.
  match goal with |- inv _ _ ?v ∧ _ => set (w3 := v) end.
  destruct (bal_apis _ _ Hbal _ _ Ha) as (Hcount & Heq & _). unfold owes in Heq. rewrite decide_True in Heq by done.
  assert (Hcalls : calls w3 = calls w).
  { unfold calls, w3. cbn. rewrite (total_insert _ _ _ _ _ Ha). unfold calls_of. cbn. lia. }
  split; [|done]. split.
  - destruct Hb1; by split.
  - unfold counted, calls_of, held_of in *.
    eapply (balanced_insert _ _ index a); [exact Hbal|exact Ha|reflexivity|..]; unfold counted, calls_of, held_of, nothing_owed; cbn; try lia; try apply Hbal; try done.
    intros j Hj. unfold owes. by rewrite decide_False.
  - rewrite Hcalls. intros Hle. destruct (Hw Hle) as [W1 W2]. split; [|done].
    unfold w3. cbn. rewrite (total_insert _ _ _ _ _ Ha). unfold calls_of at 2 3. cbn. cbn in W1. lia.
  - rewrite Hcalls. intros Hs Hle. destruct (Ho Hs Hle) as [O1 O2 O3]. destruct (Hc3 Hle) as [C1 C2].
    change (cw_file_limit_reached w3) with (cw_file_limit_reached w). split; try done.
    + intros _. split; [done|]. unfold w3. cbn. rewrite <- C2. destruct (Z.eqb_spec (cw_trace_dropped_events w) 0) as [|Hd].
      * unfold span_ok. cbn. lia.
      * destruct (O2 Hd) as (_ & Hspan). revert Hspan. unfold span_ok. cbn. lia.
Qed.

Lemma count_pending_inv index ticks wire_begin records stack w :
  inv (owes index records) 0 w → (index < length (counter_api_ids c))%nat → 0 ≤ records →
  claimed wire_begin records ticks w → cw_file_limit_reached w = false →
  0 ≤ es_unique stack → 0 ≤ es_reused stack → es_unique stack + es_reused stack ≤ records →
  wp (count_pending index ticks wire_begin records stack) w
    (λ _ w', inv nothing_owed 0 w' ∧ calls w' = calls w) (λ _ w', broken w').
Proof.
  intros [Hb Hbal Hw Ho] Hi Hn (Hc1 & Hc2 & Hc3) Hlim Hu Hr Hur. unfold count_pending.
  pose proof (balanced_weak _ _ Hbal) as Hweak.
  wp_step. wp_step. match goal with |- wp _ ?v _ _ => set (w1 := v) end.
  assert (Hb1 : base w1).
  { destruct Hb as [B1 B2 B3 B4 B5 B6 B7]. split; try done. split; [|apply B2]. unfold w1. cbn.
    destruct (_ =? 0); (split; [|apply B3]); [done|apply B2]. }
  wp_step. apply wp_add_to; [|intros e; split; [done|destruct Hweak; by split]]. intros Hsum.
  wp_step. apply wp_add_to_counter; [|intros e; split; [destruct Hb1; by split|destruct Hweak; by split]]. intros Hsum'.
  pose proof (counters_at_lookup _ _ _ _ Hbal eq_refl Hi) as Ha.
  match goal with |- context [counters_at index ?v] => change (counters_at index v) with (counters_at index w) end.
  set (a := counters_at index w) in *.
  match goal with |- wp _ ?v _ _ => set (w2 := v) end.
  destruct (bal_apis _ _ Hbal _ _ Ha) as (Hcount & Heq & _). unfold owes in Heq. rewrite decide_True in Heq by done.
  assert (Hcalls : calls w2 = calls w).
  { unfold calls, w2. cbn. rewrite (total_insert _ _ _ _ _ Ha). unfold calls_of. cbn. lia. }
  destruct (bal_pending_stacks _ _ Hbal) as (P1 & P2 & P3). cbn in P1, P2, P3.
  assert (Hbal2 : ∀ u r, 0 ≤ u → 0 ≤ r → u + r ≤ cw_pending_event_count w + records →
    balanced nothing_owed (accounts (w2 <| cw_pending_unique_stacks := u |> <| cw_pending_reused_stacks := r |>))).
  { intros u r Hu' Hr' Hur'. unfold counted, calls_of, held_of in *.
    eapply (balanced_insert _ _ index a); [exact Hbal|exact Ha|reflexivity|..]; unfold counted, calls_of, held_of, nothing_owed; cbn; try lia; try done.
    intros j Hj. unfold owes. by rewrite decide_False. }
  wp_step. apply wp_add_to.
  2: { intros e. split; [destruct Hb1; by split|].
       destruct (balanced_weak _ _ (Hbal2 0 0 ltac:(lia) ltac:(lia) ltac:(cbn in *; lia))); by split. }
  intros _. apply wp_add_to.
  2: { intros e. split; [destruct Hb1; by split|].
       destruct (balanced_weak _ _ (Hbal2 0 0 ltac:(lia) ltac:(lia) ltac:(cbn in *; lia))); by split. }
  intros _. match goal with |- inv _ _ ?v ∧ _ => set (w3 := v) end.
  split; [|exact Hcalls]. split.
  - destruct Hb1; by split.
  - apply (Hbal2 (cw_pending_unique_stacks w + es_unique stack) (cw_pending_reused_stacks w + es_reused stack)); lia.
  - change (calls w3) with (calls w2). rewrite Hcalls. intros Hle. destruct (Hw Hle) as [W1 W2]. split; [|done].
    unfold w3, w2. cbn. rewrite (total_insert _ _ _ _ _ Ha). unfold calls_of at 2 3. cbn. cbn in W1. lia.
  - change (calls w3) with (calls w2). rewrite Hcalls. intros Hs Hle.
    destruct (Ho Hs Hle) as [O1 O2 O3]. destruct (Hc3 Hle) as [C1 C2].
    change (cw_file_limit_reached w3) with (cw_file_limit_reached w). rewrite Hlim in *. split; try done.
    + intros Hp. unfold w3, w2, w1. cbn. destruct (Z.eqb_spec (cw_pending_event_count w) 0) as [|Hp0].
      * unfold span_ok. cbn. lia.
      * specialize (O3 Hp0). revert O3. unfold span_ok. cbn. lia.
Qed.

Lemma keeps_ensure_pending_capacity records : keeps (ensure_pending_capacity c records).
Proof.
  unfold ensure_pending_capacity. apply keeps_quiet_bind; [quiet|]. intros w.
  destruct (_ =? 0); [apply quiet_keeps; quiet|]. destruct (_ || _); [apply keeps_flush_pending|].
  apply quiet_keeps. quiet.
Qed.

Lemma keeps_flush_full_chunks : keeps (flush_full_chunks c).
Proof.
  unfold flush_full_chunks. apply keeps_quiet_bind; [quiet|]. intros w.
  destruct (_ || _); [apply keeps_flush_pending|]. apply quiet_keeps. quiet.
Qed.

Lemma record_stack_counts raw loss w :
  wp (record_stack c raw loss) w
    (λ stack _, 0 ≤ es_unique stack ∧ 0 ≤ es_reused stack ∧ es_unique stack + es_reused stack ≤ 1)
    (λ _ _, True).
Proof.
  unfold record_stack. wp_step.
  - wp_step. wp_step. wp_step. unfold on_dictionary. apply wp_run_member.
    eapply wp_mono; [apply wp_top| |done]. intros r d _.
    wp_step; [|by apply wp_ret]. wp_step. unfold append_stack_definition. apply wp_append_to; [|done].
    intros b _. by apply wp_ret.
  - destruct loss as [loss|]; [|by apply wp_ret]. wp_step. apply wp_append_to; [|done].
    intros b _. by apply wp_ret.
Qed.

Lemma wp_strengthen {A} (p : capturing A) w P P' Q : wp p w P Q → wp p w P' (λ _ _, True) →
  wp p w (λ a w', P a w' ∧ P' a w') Q.
Proof. unfold wp. destruct (p w) as [[a|e] w']; auto. Qed.

Lemma record_event_inv raw index ticks wire_begin records plan loss w :
  inv (owes index records) 0 w → (index < length (counter_api_ids c))%nat → 1 ≤ records →
  claimed wire_begin records ticks w →
  wp (record_event c raw index ticks wire_begin records plan loss) w
    (λ _ w', inv nothing_owed 0 w' ∧ calls w' = calls w) (λ _ w', broken w').
Proof.
  intros Hw Hi Hn Hc. unfold record_event. wp_step. wp_step.
  destruct (cw_file_limit_reached w) eqn:El; [apply note_event_trace_drop_inv; auto; lia|].
  wp_step. eapply wp_mono; [by apply keeps_ensure_pending_capacity| |done]. intros [] w1 [H1 E1].
  pose proof (claimed_clock _ _ _ _ _ E1 Hc) as Hc1. wp_step. wp_step.
  destruct (cw_file_limit_reached w1) eqn:El1.
  { eapply wp_mono; [apply note_event_trace_drop_inv; eauto; lia| |done].
    intros [] w2 [H2 E2]. split; [done|]. by rewrite E2, (clock_calls _ _ E1). }
  wp_step. eapply wp_mono.
  { apply wp_strengthen; [|apply record_stack_counts]. apply base_quiet; [auto with quiet|apply H1]. }
  2: { intros e w2 [H2 E2]. split; [done|]. rewrite E2. eapply balanced_weak, H1. }
  intros stack w2 ((H2 & E2 & El2) & Hs1 & Hs2 & Hs3).
  destruct (inv_base_step _ _ _ _ H2 E2 El2 H1) as [Hw2 Ec2].
  wp_step. eapply wp_mono; [apply base_quiet; [auto with quiet|done]|..].
  2: { intros e w3 [H3 E3]. split; [done|]. rewrite E3. eapply balanced_weak, Hw2. }
  intros [] w3 (H3 & E3 & El3). destruct (inv_base_step _ _ _ _ H3 E3 El3 Hw2) as [Hw3 Ec3].
  assert (Ec : clock w3 = clock w) by congruence.
  wp_step. eapply wp_mono; [apply count_pending_inv; eauto; [lia|by eapply claimed_clock|lia]| |done].
  intros [] w4 [H4 E4]. eapply wp_mono; [by apply keeps_flush_full_chunks| |done].
  intros [] w5 [H5 E5]. split; [done|]. by rewrite (clock_calls _ _ E5), E4, (clock_calls _ _ Ec).
Qed.

(** How many records an event has. *)
Definition plan_size (raw : LinuxHeapEvent) (plan : list VmPlanRecord) : Z :=
  if is_vm_operation (raw_operation raw) then size_of plan else 1.

Lemma hook_predicted_bounds raw : 1 ≤ hook_predicted raw ∧ (raw_succeeded raw = false → hook_predicted raw = 1) ∧
  (is_vm_operation (raw_operation raw) = false → hook_predicted raw = 1).
Proof.
  unfold hook_predicted. destruct (raw_operation raw), (raw_succeeded raw), (_ =? _); by cbn.
Qed.

Lemma plan_event_size raw w :
  wp (plan_event c raw) w
    (λ plan _, hook_predicted raw ≤ plan_size raw plan ∧ (raw_succeeded raw = false → plan_size raw plan = 1))
    (λ _ _, True).
Proof.
  destruct (hook_predicted_bounds raw) as (_ & Hfail & Hheap).
  unfold plan_size. destruct (is_vm_operation (raw_operation raw)) eqn:Evm.
  2: { eapply wp_mono; [apply wp_top| |done]. intros plan w1 _. by rewrite Hheap. }
  destruct (raw_succeeded raw) eqn:Es.
  - unfold plan_event. rewrite Evm. unfold on_vm. apply wp_run_member.
    eapply wp_mono; [apply plan_vm_call_predicted| |done]. intros plan m H. by split.
  - eapply wp_mono; [by apply failed_plan| |done]. intros plan w1 H. cbv beta in H. by rewrite H, Hfail.
Qed.

(** One event keeps the invariant. *)
Lemma process_event_inv raw w : inv nothing_owed 0 w →
  wp (process_event c raw) w (λ _ w', inv nothing_owed 0 w') (λ _ w', broken w').
Proof.
  intros Hw. unfold process_event. wp_step. wp_step.
  do 2 (wp_step; apply wp_call; [intros [] _|intros e; by eapply inv_broken]).
  wp_step. eapply wp_mono; [by apply normalize_ticks_inv| |done]. intros ticks w1 (H1 & _ & Ht).
  wp_step. apply wp_call; [|intros e; by eapply inv_broken]. intros index Hi%hook_api_index_lt.
  wp_step. eapply wp_mono; [apply wp_strengthen; [apply quiet_keeps; [auto with quiet|done]|apply plan_event_size]| |done].
  intros plan w2 ((H2 & E2) & Hplan & Hone). change (if is_vm_operation _ then _ else _) with (plan_size raw plan).
  destruct (hook_predicted_bounds raw) as (Hpos & _).
  wp_step. eapply wp_mono; [apply count_event_inv; eauto; lia| |done].
  intros [] w3 [H3 E3]. wp_step. eapply wp_mono; [apply claim_sequences_inv; eauto; lia| |done].
  intros wire_begin w4 [H4 Hc]. wp_step. eapply wp_mono; [by apply keeps_note_stack_capture_loss| |done].
  intros loss w5 [H5 E5]. apply (claimed_clock _ _ _ _ _ E5) in Hc.
  injection E2 as _ _ _ E2. rewrite E3, E2, Ht in Hc.
  eapply wp_mono; [apply record_event_inv; eauto; lia| |done]. by intros [] w6 [].
Qed.


(** ** The loop *)

(** Between events nothing is owed. *)
Definition steady_inv (w : CaptureWriter) : Prop := inv nothing_owed 0 w.

Definition holds {A} (p : capturing A) : Prop :=
  ∀ w, steady_inv w → wp p w (λ _ w', steady_inv w') (λ _ w', broken w').

Lemma keeps_holds {A} (p : capturing A) : keeps p → holds p.
Proof. intros Hp w Hw. eapply wp_mono; [by apply Hp| |done]. by intros a w' []. Qed.

Lemma quiet_holds {A} (p : capturing A) : quiet p → holds p.
Proof. intros Hp. by apply keeps_holds, quiet_keeps. Qed.

Lemma holds_bind {A B} (p : capturing A) (f : A → capturing B) : holds p → (∀ a, holds (f a)) → holds (p ≫= f).
Proof.
  intros Hp Hf w Hw. apply wp_bind. eapply wp_mono; [by apply Hp| |done]. intros a w1 H1. by apply Hf.
Qed.

Lemma holds_drain_events raws : holds (drain_events c raws).
Proof.
  induction raws as [|raw raws IH]; cbn [drain_events]; [apply quiet_holds; quiet|].
  apply holds_bind; [apply keeps_holds, keeps_drain_modules_through|]. intros _.
  apply holds_bind; [intros w; apply process_event_inv|done].
Qed.

Lemma holds_drain_round round : holds (drain_round c round).
Proof.
  unfold drain_round. apply holds_bind; [apply quiet_holds; quiet|]. intros _.
  apply holds_bind; [apply holds_drain_events|]. intros _.
  apply holds_bind; [apply keeps_holds, keeps_drain_modules_through|]. intros _. apply quiet_holds. quiet.
Qed.

(** A computation that writes chunks at most: the accounts stay, the limit may come. *)
Definition writes {A} (p : capturing A) : Prop :=
  ∀ w, base w → wp p w (λ _ w', base w' ∧ accounts w' = accounts w ∧ limit_kept w w')
                       (λ _ w', base w' ∧ accounts w' = accounts w ∧ limit_kept w w').

Lemma quiet_writes {A} (p : capturing A) : quiet p → writes p.
Proof.
  intros Hp w Hb. eapply wp_mono; [by apply quiet_wp|..]; intros x w' [Ha Ho];
    (split; [by eapply base_same|]; split; [done|]); unfold limit_kept; injection Ho as _ -> _; auto.
Qed.

Lemma writes_seq {A B} (p : capturing A) (f : A → capturing B) : writes p → (∀ a, writes (f a)) → writes (p ≫= f).
Proof.
  intros Hp Hf w Hb. apply wp_bind. eapply wp_mono; [by apply Hp| |done]. intros a w1 (H1 & E1 & L1).
  eapply wp_mono; [by apply Hf|..]; intros x w2 (H2 & E2 & L2); (split; [done|]; split; [congruence|]); unfold limit_kept in *; auto.
Qed.

Lemma writes_chunk type payload codec b e : u64 b → u64 e → writes (write_chunk_of type payload codec b e).
Proof.
  intros Hb He w Hw. pose proof (write_chunk_of_base type payload codec b e w Hw Hb He) as H.
  unfold wp in *. destruct (write_chunk_of type payload codec b e w) as [[r|x] w'] eqn:E.
  - destruct H as (H1 & H2 & H3). split; [done|]. split; [done|]. unfold limit_kept. rewrite H3. by destruct r.
  - destruct H as (H1 & H2). split; [done|]. split; [done|]. revert E. unfold write_chunk_of, mbind, proc_bind, on_trace, run_member.
    destruct (write_chunk _ _ _) as [[[]|] t]; intros [= <- <-] || done. by intros ?.
Qed.

Lemma flush_setup t : wp (flush) t (λ _ t', same_setup t t') (λ _ t', same_setup t t').
Proof.
  unfold flush, ostream_flush. wp_step. wp_step.
  assert (Hs : ∀ o, (calm (output_ t) → calm o) → same_setup t (set_output o t)) by by intros o Ho.
  destruct (out_good (output_ t)) eqn:Eg; cbn [negb].
  - destruct (out_flush_fails (output_ t)) eqn:Ef; (wp_step; wp_step; apply wp_pure); intros; apply Hs; try done;
      intros (_ & _ & Hf); congruence.
  - wp_step. wp_step. apply wp_pure; intros; by apply Hs.
Qed.

Lemma flush_stream_base w : base w →
  wp flush_stream w
    (λ _ w', base w' ∧ accounts w' = accounts w ∧ cw_file_limit_reached w' = cw_file_limit_reached w)
    (λ _ w', base w' ∧ accounts w' = accounts w ∧ cw_file_limit_reached w' = cw_file_limit_reached w).
Proof.
  intros Hw. unfold flush_stream, on_trace. apply wp_run_member.
  pose proof (flush_setup (cw_writer w)) as Hsetup. unfold wp in Hsetup |- *.
  destruct (flush (cw_writer w)) as [res t'] eqn:E.
  destruct Hw as [B1 B2 B3 B4 (cs & tail & Hinv) B6 B7].
  destruct (writer_step_inv header trace_options Allowed Hoptions Hreserve Hstream _ _ _ Op_flush
    ((λ _, None) <$> res) t' Hinv I) as [tail' Hinv'].
  { cbn. unfold fmap, proc_fmap. rewrite E. by destruct res. }
  assert (Hdone : base (w <| cw_writer := t' |>)).
  { destruct res as [[]|]; destruct Hsetup as [Ho Hc]; split; cbn; eauto; congruence. }
  by destruct res as [[]|err].
Qed.

Lemma writes_flush_stream : writes flush_stream.
Proof.
  intros w Hw. eapply wp_mono; [by apply flush_stream_base|..]; intros x w' (H1 & H2 & H3);
    (split; [done|]; split; [done|]); unfold limit_kept; by rewrite H3.
Qed.

Lemma keeps_flush_stream : keeps flush_stream.
Proof.
  intros owed n w Hw. eapply wp_mono; [apply flush_stream_base, Hw|..].
  - intros [] w' (H1 & H2 & H3). by apply inv_base_step.
  - intros e w' (H1 & H2 & _). split; [done|]. rewrite H2. eapply balanced_weak, Hw.
Qed.

(** A sample that does not reach the limit does not disturb the order of the trace. *)
Lemma holds_writes {A} (p : capturing A) : ¬ strict → writes p → holds p.
Proof.
  intros Hs Hp w [H1 H2 H3 H4]. eapply wp_mono; [by apply Hp|..]; intros x w' (Hb & Ha & Hl).
  - rewrite <- (clock_calls _ _ (clock_accounts _ _ Ha)) in H3, H4. split; [done|by rewrite Ha|by rewrite Ha|].
    intros [|Hf]; [done|]. intros Hle. assert (Hf' : cw_file_limit_reached w = false).
    { destruct (cw_file_limit_reached w) eqn:E; [|done]. by rewrite Hl in Hf. }
    rewrite Ha, Hf, <- Hf'. by apply H4; [right|].
  - split; [done|]. rewrite Ha. by eapply balanced_weak.
Qed.

Lemma quiet_append_counters_sample counters ticks : quiet (append_counters_sample c counters ticks).
Proof. unfold append_counters_sample. quiet. Qed.
Lemma quiet_append_agent_sample ticks kind categories : quiet (append_agent_sample c ticks kind categories).
Proof. unfold append_agent_sample. quiet. Qed.
Lemma quiet_append_map_sample map ticks : quiet (append_map_sample c map ticks).
Proof. unfold append_map_sample. quiet. Qed.
#[local] Hint Resolve quiet_append_counters_sample quiet_append_agent_sample quiet_append_map_sample : quiet.

Lemma u64_0 : u64 0.
Proof. word. Qed.
#[local] Hint Resolve u64_0 : core.

Lemma writes_memory_chunk counters maps agent : writes (write_memory_chunk c counters maps agent).
Proof.
  unfold write_memory_chunk, clear_memory_payload. apply writes_seq; [apply quiet_writes; quiet|]. intros w.
  destruct (_ =? 0); [apply quiet_writes; quiet|].
  apply writes_seq; [by apply writes_chunk|]. intros written. apply quiet_writes. quiet.
Qed.

Lemma writes_take_samples counters map sample : writes (take_samples c counters map sample).
Proof.
  unfold take_samples, clear_memory_payload. do 3 (apply writes_seq; [apply quiet_writes; quiet|]; intros ?).
  apply writes_seq; [apply quiet_writes; quiet|]. intros [n m].
  apply writes_seq; [apply quiet_writes; quiet|]. intros maps. apply writes_memory_chunk.
Qed.

Lemma writes_memory_snapshot counters map sample : writes (capture_memory_snapshot c counters map sample).
Proof.
  unfold capture_memory_snapshot. apply writes_seq; [apply quiet_writes; quiet|]. intros w0.
  destruct (cw_file_limit_reached w0); [apply quiet_writes; quiet|].
  intros w Hw. pose proof (writes_take_samples counters map sample w Hw) as H. unfold wp, keep_write_errors in *.
  destruct (take_samples c counters map sample w) as [[[]|[e|e]] w1]; [done| |];
    destruct H as (H1 & H2 & H3); unfold clear_memory_payload; cbn; (split; [destruct H1; by split|done]).
Qed.

Definition sampled (turn : Turn) : bool := tn_counters_due turn || tn_map_due turn.

(** A sample is taken right after a flush, or the order only asked for below the limit. *)
Definition samples_flushed (turn : Turn) : Prop :=
  sampled turn = true → tn_flush_due turn = true ∨ ¬ strict.

Lemma keeps_flushed_writes {A} (p : capturing A) : writes p → keeps_flushed p.
Proof.
  intros Hp owed n w Hw H0. eapply wp_mono; [apply Hp, Hw|..].
  - intros a w' (H1 & H2 & H3). by eapply inv_same.
  - intros e w' (H1 & H2 & _). split; [done|]. rewrite H2. eapply balanced_weak, Hw.
Qed.

(** A flush, and then steps with nothing pending. *)
Lemma holds_flushed {A} (p : capturing A) : keeps_flushed p → holds (flush_pending c ;; p).
Proof.
  intros Hp w Hw. apply wp_bind. eapply wp_mono; [by apply flush_pending_flushed| |done].
  intros [] w1 (H1 & _ & P1). eapply wp_mono; [by apply Hp| |done]. by intros a w2 [].
Qed.

Lemma holds_assoc {A B D} (p : capturing A) (f : A → capturing B) (g : B → capturing D) :
  holds (p ≫= λ a, f a ≫= g) → holds ((p ≫= f) ≫= g).
Proof. intros H w Hw. unfold wp. rewrite proc_bind_assoc. by apply H. Qed.

Lemma holds_take_turn turn : samples_flushed turn → holds (take_turn c turn).
Proof.
  intros Hs. unfold take_turn. apply holds_bind; [apply holds_drain_round|]. intros _.
  set (sample := if tn_counters_due turn || _ then _ else _).
  assert (Hsample : writes sample).
  { unfold sample. destruct (_ || _); [apply writes_memory_snapshot|apply quiet_writes; quiet]. }
  destruct (tn_flush_due turn) eqn:Ef.
  - apply holds_assoc, holds_flushed, keeps_flushed_writes, writes_seq; [apply writes_flush_stream|done].
  - apply holds_bind; [apply quiet_holds; quiet|]. intros _. unfold sample, samples_flushed, sampled in *.
    destruct (_ || _); [|apply quiet_holds; quiet]. destruct (Hs eq_refl); [congruence|].
    apply holds_writes, writes_memory_snapshot. done.
Qed.

Lemma holds_take_turns turns : Forall samples_flushed turns → holds (take_turns c turns).
Proof.
  induction 1 as [|turn turns Ht _ IH]; cbn [take_turns]; [apply quiet_holds; quiet|].
  apply holds_bind; [by apply holds_take_turn|done].
Qed.

(** A computation that ends with nothing pending. *)
Definition ends_flushed {A} (p : capturing A) : Prop :=
  ∀ w, steady_inv w → wp p w (λ _ w', steady_inv w' ∧ cw_pending_event_count w' = 0) (λ _ w', broken w').

Lemma ends_bind {A B} (p : capturing A) (f : A → capturing B) :
  holds p → (∀ a, ends_flushed (f a)) → ends_flushed (p ≫= f).
Proof.
  intros Hp Hf w Hw. apply wp_bind. eapply wp_mono; [by apply Hp| |done]. intros a w1 H1. by apply Hf.
Qed.

Lemma drain_capture_ends run : Forall samples_flushed (run_turns run) → ends_flushed (drain_capture c run).
Proof.
  intros Hs. unfold drain_capture, process_initial_modules. apply ends_bind.
  { apply holds_bind; [apply quiet_holds; quiet|]. intros _.
    apply holds_bind; [apply keeps_holds, keeps_process_modules|]. intros _. apply quiet_holds. quiet. }
  intros _. apply ends_bind; [by apply holds_take_turns|]. intros _.
  do 2 (apply ends_bind; [apply holds_drain_round|]; intros _).
  intros w Hw. eapply wp_mono; [by apply flush_pending_flushed| |done]. by intros [] w' (H1 & _ & H3).
Qed.

(** ** Before the capture *)

Lemma writes_write_metadata : writes (write_metadata c).
Proof.
  unfold write_metadata. apply writes_seq; [apply quiet_writes; quiet|]. intros w.
  destruct (cw_metadata_written w); [apply quiet_writes; quiet|].
  do 2 (apply writes_seq; [apply quiet_writes; quiet|]; intros ?).
  apply writes_seq; [|intros []; apply quiet_writes; quiet].
  intros w1 Hw1. set (p := on_trace _).
  pose proof (writes_chunk Chunk_kMetadata a0 (co_compression (cc_options c)) 0 0 u64_0 u64_0 w1 Hw1) as H.
  unfold wp, write_chunk_of, mbind, proc_bind in H. fold p in H. unfold wp.
  destruct (p w1) as [[[]|e] w2] eqn:E; [done| |done]. cbn in H. destruct H as (H1 & H2 & H3).
  split; [destruct H1; by split|]. split; [done|]. unfold p, on_trace, run_member in E.
  destruct (write_chunk _ _ _) as [[[]|] t]; try discriminate. injection E as <-. by intros ?.
Qed.

Lemma writes_write_memory_baselines : writes (write_memory_baselines c).
Proof.
  assert (Hq : ∀ kind baseline, quiet (append_some_baseline c kind baseline)).
  { intros kind baseline. unfold append_some_baseline, append_baseline. quiet. }
  assert (Hbody : ∀ pre post, writes (clear_memory_payload ;; append_some_baseline c Sample_kBaselinePreInit pre ;;
    append_some_baseline c Sample_kBaselinePostInit post ;;
    w ← get_state;
    written ← write_data_chunk c Chunk_kMemory (cw_memory_payload w) 0 0;
    (if (written : bool) then add_to cw_memory_chunks 1 "memory chunk count overflow" else mret tt) ;;
    clear_memory_payload)).
  { intros pre post. unfold clear_memory_payload. apply writes_seq; [apply quiet_writes; quiet|]. intros _.
    do 2 (apply writes_seq; [apply quiet_writes, Hq|]; intros _).
    apply writes_seq; [apply quiet_writes; quiet|]. intros w.
    apply writes_seq; [by apply writes_chunk|]. intros written. apply quiet_writes. quiet. }
  unfold write_memory_baselines. apply writes_seq; [apply quiet_writes; quiet|]. intros w.
  destruct (cw_baseline_pre_init w), (cw_baseline_post_init w); try apply Hbody. apply quiet_writes. quiet.
Qed.

Lemma keeps_flushed_begin_capture stop : keeps_flushed (begin_capture c stop).
Proof.
  apply keeps_flushed_writes. unfold begin_capture, require_not_begun, fail_when.
  do 2 (apply writes_seq; [apply quiet_writes; quiet|]; intros _).
  apply writes_seq; [apply writes_write_metadata|]. intros _.
  apply writes_seq; [apply writes_flush_stream|]. intros _.
  apply writes_seq; [apply writes_write_memory_baselines|]. intros _. apply quiet_writes. quiet.
Qed.


Lemma writes_note_custom_hook_failures failures : writes (note_custom_hook_failures failures).
Proof.
  unfold note_custom_hook_failures, require_not_begun, fail_when.
  apply writes_seq; [apply quiet_writes; quiet|]. intros _. destruct failures as [|f failures]; [apply quiet_writes; quiet|].
  apply writes_seq; [apply quiet_writes; quiet|]. intros _ w Hw. wp_step. wp_step. wp_step.
  destruct (tracker_mark_ok (cw_completeness w) kCustomHookInstallFailed ltac:(done) (base_tracker _ Hw)) as (t' & Em & Ht').
  unfold mark_custom_hook_install_failed. rewrite Em. apply wp_modify.
  split; [destruct Hw; by split|]. split; [done|]. by intros ?.
Qed.

(** The calls of the runtime before the thread may start: the notes and the start. *)
Definition prepare (failures : list CustomHookFailure) (startup : option (BufferConfiguration * Baseline * Baseline))
    : capturing unit :=
  note_custom_hook_failures failures ;;
  (match startup with
   | None => mret tt
   | Some (configuration, pre_init, post_init) => note_startup_memory configuration pre_init post_init
   end) ;;
  begin_capture c false.

Lemma keeps_flushed_prepare failures startup : keeps_flushed (prepare failures startup).
Proof.
  unfold prepare. apply keeps_flushed_bind; [apply keeps_flushed_writes, writes_note_custom_hook_failures|]. intros _.
  apply keeps_flushed_bind; [|intros _; apply keeps_flushed_begin_capture].
  apply quiet_keeps_flushed. unfold note_startup_memory, require_not_begun, fail_when. quiet.
Qed.

(** ** The members at the beginning *)

Lemma start_steady dictionary writer completeness :
  tracker_ok completeness → writer_inv header trace_options Allowed writer [] [] →
  tw_options_ writer = trace_options → (steady → calm (output_ writer)) → 0 ≤ bound →
  let w := CaptureWriter_start dictionary writer completeness (length (counter_api_ids c)) in
  steady_inv w ∧ cw_pending_event_count w = 0.
Proof.
  intros Ht Hw Ho Hcalm Hbound0 w. split; [|done].
  assert (Hrep : ∀ i a, replicate (length (counter_api_ids c)) ApiCounters_new !! i = Some a → a = ApiCounters_new).
  { by intros i a [-> _]%lookup_replicate. }
  split.
  - split; try done. by exists [], [].
  - split; cbn; try (by rewrite total_replicate); try lia.
    + by rewrite length_replicate.
    + intros i a ->%Hrep. by unfold counted, nothing_owed, calls_of, held_of.
  - intros _. split; [|done]. cbn. by rewrite total_replicate.
  - intros _ _. by split.
Qed.


End capture.

(** ** What the hooks have counted of the events

    Next to the invariant: the calls of an API, less the records that only the writer
    knows of, are what its hook has counted for the events that were processed. *)

Definition tally_of (a : ApiCounters) : Z := calls_of a - ac_extra_records a.
Definition tally (w : CaptureWriter) : list Z := tally_of <$> cw_api_counters w.

(** A computation that counts no event. *)
Definition uncounted {A} (p : capturing A) : Prop := ∀ w, tally (p w).2 = tally w.

Lemma uncounted_bind {A B} (p : capturing A) (f : A → capturing B) :
  uncounted p → (∀ a, uncounted (f a)) → uncounted (p ≫= f).
Proof.
  intros Hp Hf w. specialize (Hp w). unfold mbind, proc_bind. destruct (p w) as [[a|e] w1]; [|done].
  by rewrite Hf.
Qed.

Lemma uncounted_modify f : (∀ w, tally (f w) = tally w) → uncounted (modify f).
Proof. intros H w. exact (H w). Qed.

Lemma uncounted_run_member {S A E} (get : CaptureWriter → S) set (lift : E → write_exn) (p : proc S E A) :
  (∀ s w, tally (set s w) = tally w) → uncounted (run_member get set lift p).
Proof. intros H w. unfold run_member. destruct (p (get w)) as [[a|e] s]; cbn; apply H. Qed.

Lemma quiet_uncounted {A} (p : capturing A) : quiet p → uncounted p.
Proof. intros Hp w. destruct (Hp w) as [Ha _]. pose proof (f_equal acc_counters Ha) as H. cbn in H. unfold tally. by rewrite H. Qed.

Lemma uncounted_add_to (get : CaptureWriter → Z) `{!Update get} n subject :
  (∀ x w, tally (update get (λ _, x) w) = tally w) → uncounted (add_to get n subject).
Proof.
  intros H. unfold add_to, call. apply uncounted_bind; [by intros w|]. intros w.
  apply uncounted_bind; [by intros ?|]. intros sum. by apply uncounted_modify.
Qed.

Lemma tally_insert index b w : tally_of b = tally_of (counters_at index w) →
  tally_of <$> <[index := b]> (cw_api_counters w) = tally w.
Proof.
  intros E. unfold tally. rewrite list_fmap_insert, E. apply list_insert_id'. rewrite length_fmap.
  intros Hi. unfold counters_at. rewrite list_lookup_fmap. by destruct (lookup_lt_is_Some_2 _ _ Hi) as [a ->].
Qed.

(** The counters that are no part of the tally. *)
Lemma uncounted_add_to_counter index (get : ApiCounters → Z) `{!Update get} n subject :
  (∀ x a, tally_of (update get (λ _, x) a) = tally_of a) → uncounted (add_to_counter index get n subject).
Proof.
  intros H. unfold add_to_counter, call. apply uncounted_bind; [by intros w|]. intros w.
  apply uncounted_bind; [by intros ?|]. intros sum. intros w'. cbn.
  unfold tally. cbn. apply tally_insert, H.
Qed.

Lemma uncounted_settle_counters (get : ApiCounters → Z) `{!Update get} subject n :
  (∀ x a, tally_of (update get (λ _, x) a) = tally_of a) → ∀ k, uncounted (settle_counters get subject n k).
Proof.
  intros H. induction n as [|n IH]; intros k; cbn [settle_counters]; [by intros w|].
  apply uncounted_bind; [by intros w|]. intros w. apply uncounted_bind; [by apply uncounted_add_to_counter|].
  intros _. apply uncounted_bind; [|done]. apply uncounted_modify. intros w'. unfold tally. cbn. by apply tally_insert.
Qed.

Create HintDb uncounted.
#[export] Hint Extern 1 (uncounted (mret _)) => (by intros ?) : uncounted.
#[export] Hint Extern 1 (uncounted get_state) => (by intros ?) : uncounted.
#[export] Hint Extern 1 (uncounted (pure _)) => (by intros ?) : uncounted.
#[export] Hint Extern 1 (uncounted (call _)) => (by intros ?) : uncounted.
#[export] Hint Extern 2 (uncounted _) => (apply quiet_uncounted; solve [quiet]) : uncounted.

Ltac uncounted_step :=
  match goal with
  | |- uncounted (_ ≫= _) => apply uncounted_bind; [|intros ?]
  | |- uncounted (modify _) => apply uncounted_modify; intros ?; reflexivity
  | |- uncounted (run_member _ _ _ _) => apply uncounted_run_member; intros ? ?; reflexivity
  | |- uncounted (add_to _ _ _) => apply uncounted_add_to; intros ? ?; reflexivity
  | |- uncounted (add_to_counter _ _ _ _) => apply uncounted_add_to_counter; intros ? ?; reflexivity
  | |- uncounted (settle_counters _ _ _ _) => apply uncounted_settle_counters; intros ? ?; reflexivity
  | |- uncounted (if ?b then _ else _) => destruct b
  | |- uncounted (match ?o with _ => _ end) => destruct o
  | |- uncounted _ => solve [eauto with uncounted]
  end.
Ltac uncounted := repeat uncounted_step.

Section tally.
Context {L : CompressionLibrary} (c : CaptureConstants).

Lemma uncounted_clear_pending : uncounted clear_pending.
Proof. unfold clear_pending. apply uncounted_modify. intros w. unfold tally. cbn. by rewrite <- list_fmap_compose. Qed.
#[local] Hint Resolve uncounted_clear_pending : uncounted.

Lemma uncounted_write_chunk_of type payload codec b e : uncounted (write_chunk_of type payload codec b e).
Proof. unfold write_chunk_of, on_trace. uncounted. Qed.
#[local] Hint Resolve uncounted_write_chunk_of : uncounted.

Lemma uncounted_flush_module_payload : uncounted (flush_module_payload c).
Proof. unfold flush_module_payload, write_data_chunk. uncounted. Qed.
#[local] Hint Resolve uncounted_flush_module_payload : uncounted.

Lemma uncounted_drop_pending_events : uncounted drop_pending_events.
Proof. unfold drop_pending_events, extend_drops. uncounted. Qed.
#[local] Hint Resolve uncounted_drop_pending_events : uncounted.

Lemma uncounted_flush_pending : uncounted (flush_pending c).
Proof. unfold flush_pending, write_pending, write_data_chunk, count_written. uncounted. Qed.
#[local] Hint Resolve uncounted_flush_pending : uncounted.

Lemma uncounted_process_module_event raw : uncounted (process_module_event c raw).
Proof.
  unfold process_module_event, load_module, unload_module, end_module_event, flush_events_first, fail_when. uncounted.
Qed.
#[local] Hint Resolve uncounted_process_module_event : uncounted.

Lemma uncounted_process_modules raws : uncounted (process_modules c raws).
Proof. induction raws as [|raw raws IH]; cbn [process_modules]; uncounted. Qed.

Lemma uncounted_drain_modules_through maximum : uncounted (drain_modules_through c maximum).
Proof.
  unfold drain_modules_through. apply uncounted_bind; [by intros ?|]. intros w. generalize (S (waiting_modules w)).
  intros fuel. induction fuel as [|fuel IH]; cbn [drain_modules_loop]; uncounted.
Qed.

(** What an event does besides its count. *)
Lemma uncounted_normalize_ticks raw : uncounted (normalize_ticks raw).
Proof. unfold normalize_ticks. uncounted. Qed.

Lemma uncounted_claim_sequences records : uncounted (claim_sequences records).
Proof. unfold claim_sequences, fail_when. uncounted. Qed.

Lemma uncounted_note_stack_capture_loss raw wire_begin records ticks :
  uncounted (note_stack_capture_loss raw wire_begin records ticks).
Proof. unfold note_stack_capture_loss, observe_capture_loss. uncounted. Qed.

Lemma uncounted_record_event raw index ticks wire_begin records plan loss :
  uncounted (record_event c raw index ticks wire_begin records plan loss).
Proof.
  unfold record_event, note_event_trace_drop, extend_drops, ensure_pending_capacity, count_pending, flush_full_chunks.
  uncounted.
Qed.

Lemma uncounted_flush_stream : uncounted flush_stream.
Proof. unfold flush_stream, on_trace. uncounted. Qed.
#[local] Hint Resolve uncounted_flush_stream : uncounted.

Lemma uncounted_memory_snapshot counters map sample : uncounted (capture_memory_snapshot c counters map sample).
Proof.
  unfold capture_memory_snapshot. apply uncounted_bind; [by intros ?|]. intros w0.
  destruct (cw_file_limit_reached w0); [by intros ?|].
  assert (Hp : uncounted (take_samples c counters map sample)).
  { unfold take_samples, write_memory_chunk, write_data_chunk, clear_memory_payload, append_counters_sample,
      append_agent_sample, append_map_sample. uncounted. }
  intros w. specialize (Hp w). unfold keep_write_errors.
  by destruct (take_samples c counters map sample w) as [[[]|[e|e]] w1].
Qed.

Lemma uncounted_prepare failures startup : uncounted (prepare c failures startup).
Proof.
  unfold prepare, note_custom_hook_failures, note_startup_memory, begin_capture, write_metadata, write_memory_baselines,
    append_some_baseline, append_baseline, append_counters_sample, append_agent_sample, clear_memory_payload,
    write_data_chunk, require_not_begun, fail_when, on_trace. uncounted.
Qed.

(** ** The events of a run *)

(** What the hooks have counted for the events of an API. *)
Definition predicted_calls (id : Z) (raws : list LinuxHeapEvent) : Z :=
  foldr (λ raw n, (if raw_api_id raw =? id then hook_predicted raw else 0) + n) 0 raws.

Lemma predicted_calls_app id raws raws' :
  predicted_calls id (raws ++ raws') = predicted_calls id raws + predicted_calls id raws'.
Proof. induction raws as [|raw raws IH]; cbn; [done|]. unfold predicted_calls in *. lia. Qed.

Definition tallied (raws : list LinuxHeapEvent) (w : CaptureWriter) : Prop :=
  tally w = (λ id, predicted_calls id raws) <$> counter_api_ids c.

(** A computation that counts exactly the events [raws]. *)
Definition counts {A} (raws : list LinuxHeapEvent) (p : capturing A) : Prop :=
  ∀ before w, tallied before w → wp p w (λ _ w', tallied (before ++ raws) w') (λ _ _, True).

Lemma uncounted_counts {A} (p : capturing A) : uncounted p → counts [] p.
Proof.
  intros Hp before w Hw. specialize (Hp w). unfold wp. destruct (p w) as [[a|e] w1]; [|done].
  unfold tallied in *. cbn in Hp. by rewrite app_nil_r, Hp.
Qed.

Lemma counts_bind {A B} raws raws' (p : capturing A) (f : A → capturing B) :
  counts raws p → (∀ a, counts raws' (f a)) → counts (raws ++ raws') (p ≫= f).
Proof.
  intros Hp Hf before w Hw. apply wp_bind. eapply wp_mono; [by apply Hp| |done]. intros a w1 H1.
  rewrite app_assoc. by apply Hf.
Qed.

(** An uncounted step first, or last. *)
Lemma counts_first {A B} raws (p : capturing A) (f : A → capturing B) :
  uncounted p → (∀ a, counts raws (f a)) → counts raws (p ≫= f).
Proof. intros Hp Hf. apply (counts_bind [] raws); [by apply uncounted_counts|done]. Qed.

Lemma counts_last {A B} raws (p : capturing A) (f : A → capturing B) :
  counts raws p → (∀ a, uncounted (f a)) → counts raws (p ≫= f).
Proof. intros Hp Hf. rewrite <- (app_nil_r raws). apply counts_bind; [done|]. intros a. by apply uncounted_counts. Qed.

(** The declared hook points have consecutive identifiers, and no identifier is used twice. *)
Context (Hids : NoDup (counter_api_ids c))
  (Hcustom : chd_api_id <$> cc_custom_definitions c = seqZ kCustomHookApiIdBase (size_of (cc_custom_definitions c))).

Lemma hook_api_index_id api index : hook_api_index c api = Ok index → counter_api_ids c !! index = Some api.
Proof.
  unfold hook_api_index, counter_api_ids. destruct (list_find _ _) as [[i e]|] eqn:Ef.
  - intros [= <-]. apply list_find_Some in Ef as (Hi & <- & _). apply lookup_app_l_Some.
    by rewrite list_lookup_fmap, Hi.
  - destruct (_ && _) eqn:Eb; [|done]. intros [= <-]. bool_facts.
    rewrite lookup_app_r by (rewrite length_fmap; change (length kLinuxHookRegistry) with 11%nat; lia).
    rewrite length_fmap. rewrite Hcustom, lookup_seqZ. change (length kLinuxHookRegistry) with 11%nat. lia.
Qed.

(** The count of one more event. *)
Lemma tallied_event before raw index w w' n : tallied before w → counter_api_ids c !! index = Some (raw_api_id raw) →
  n = hook_predicted raw → tally w' = <[index := tally_of (counters_at index w) + n]> (tally w) →
  tallied (before ++ [raw]) w'.
Proof.
  intros Hw Hi -> Hw'. unfold tallied in *.
  assert (Hat : tally_of (counters_at index w) = predicted_calls (raw_api_id raw) before).
  { assert (H : tally w !! index = Some (predicted_calls (raw_api_id raw) before)) by by rewrite Hw, list_lookup_fmap, Hi.
    unfold tally in H. rewrite list_lookup_fmap in H. unfold counters_at. destruct (cw_api_counters w !! index); [|done].
    by injection H. }
  rewrite Hw', Hat, Hw. apply list_eq. intros j. destruct (decide (j = index)) as [->|Hj].
  - rewrite list_lookup_insert_eq by (rewrite length_fmap; by eapply lookup_lt_Some).
    rewrite list_lookup_fmap, Hi. cbn. rewrite predicted_calls_app. cbn. rewrite Z.eqb_refl. f_equal. lia.
  - rewrite list_lookup_insert_ne by done. rewrite !list_lookup_fmap.
    destruct (counter_api_ids c !! j) as [id|] eqn:Ej; [|done]. cbn. f_equal. rewrite predicted_calls_app. cbn.
    rewrite (proj2 (Z.eqb_neq (raw_api_id raw) id)); [lia|]. intros <-. by apply Hj, (NoDup_lookup _ _ _ _ Hids Ej).
Qed.

Lemma count_event_counts raw index records before w : tallied before w →
  counter_api_ids c !! index = Some (raw_api_id raw) →
  hook_predicted raw ≤ records → (raw_succeeded raw = false → records = 1) →
  wp (count_event raw index records) w (λ _ w', tallied (before ++ [raw]) w') (λ _ _, True).
Proof.
  intros Hw Hi Hle Hfail. destruct (hook_predicted_bounds raw) as (Hpos & Hone & _).
  assert (Hlen : (index < length (cw_api_counters w))%nat).
  { apply (f_equal length) in Hw. unfold tally in Hw. rewrite !length_fmap in Hw. rewrite Hw. by eapply lookup_lt_Some. }
  set (a := counters_at index w). unfold count_event. apply wp_bind.
  eapply wp_mono with (P := λ _ w', ∃ b, w' = w <| cw_api_counters := <[index := b]> (cw_api_counters w) |> ∧
    tally_of b = tally_of a + records) (Q := λ _ _, True); [| |done].
  - destruct (raw_succeeded raw) eqn:Es; apply wp_add_to_counter; try done; intros _; eexists; (split; [reflexivity|]);
      unfold tally_of, calls_of; cbn; fold a; [lia|]. rewrite Hfail by done. lia.
  - intros [] w1 (b & -> & Hb).
    assert (Hdone : ∀ b' n, tally_of b' = tally_of a + n → n = hook_predicted raw →
      tallied (before ++ [raw]) (w <| cw_api_counters := <[index := b']> (cw_api_counters w) |>)).
    { intros b' n Hb' Hn. eapply (tallied_event before raw index w _ n); [done..|].
      unfold tally. cbn. by rewrite list_fmap_insert, Hb'. }
    destruct (Z.ltb_spec (hook_predicted raw) records) as [Hlt|Hge].
    + apply wp_add_to_counter; [|done]. intros _. unfold counters_at. cbn. rewrite list_lookup_insert_eq by done. cbn.
      rewrite list_insert_insert_eq. apply (Hdone _ (hook_predicted raw)); [|done].
      unfold tally_of, calls_of in *. cbn. lia.
    + apply wp_ret. apply (Hdone _ records); [done|lia].
Qed.

Lemma process_event_counts raw : counts [raw] (process_event c raw).
Proof.
  unfold process_event. do 4 (apply counts_first; [first [apply uncounted_normalize_ticks|by intros ?]|]; intros ?).
  intros before w Hw. apply wp_bind, wp_call; [|done]. intros index Hi%hook_api_index_id.
  apply wp_bind. eapply wp_mono.
  { apply wp_strengthen; [|apply plan_event_size].
    apply (uncounted_counts _ (quiet_uncounted _ (quiet_plan_event c raw)) before w Hw). }
  2: { done. }
  intros plan w1 (H1 & Hle & Hone). rewrite app_nil_r in H1. change (if is_vm_operation _ then _ else _) with (plan_size raw plan).
  clear Hw. revert before w1 H1. enough (counts [raw] (count_event raw index (plan_size raw plan) ;;
    wire_begin ← claim_sequences (plan_size raw plan);
    loss ← note_stack_capture_loss raw wire_begin (plan_size raw plan) a2;
    record_event c raw index a2 wire_begin (plan_size raw plan) plan loss)) by done.
  apply counts_last; [intros before w1 H1; by apply count_event_counts|]. intros _.
  apply uncounted_bind; [apply uncounted_claim_sequences|]. intros wire_begin.
  apply uncounted_bind; [apply uncounted_note_stack_capture_loss|]. intros loss. apply uncounted_record_event.
Qed.

Lemma drain_events_counts raws : counts raws (drain_events c raws).
Proof.
  induction raws as [|raw raws IH]; cbn [drain_events]; [apply uncounted_counts; by intros ?|].
  apply counts_first; [apply uncounted_drain_modules_through|]. intros _.
  apply (counts_bind [raw] raws); [apply process_event_counts|done].
Qed.

Lemma drain_round_counts round : counts (rd_events round) (drain_round c round).
Proof.
  unfold drain_round. apply counts_first; [uncounted|]. intros _.
  apply counts_last; [apply drain_events_counts|]. intros _.
  apply uncounted_bind; [apply uncounted_drain_modules_through|]. intros _. uncounted.
Qed.

Lemma take_turn_counts turn : counts (rd_events (tn_round turn)) (take_turn c turn).
Proof.
  unfold take_turn. apply counts_last; [apply drain_round_counts|]. intros _. apply uncounted_bind.
  - destruct (tn_flush_due turn); [|by intros ?].
    apply uncounted_bind; [apply uncounted_flush_pending|]. intros _. apply uncounted_flush_stream.
  - intros _. destruct (_ || _); [apply uncounted_memory_snapshot|by intros ?].
Qed.

Definition turns_events (turns : list Turn) : list LinuxHeapEvent := mjoin ((λ turn, rd_events (tn_round turn)) <$> turns).

Lemma take_turns_counts turns : counts (turns_events turns) (take_turns c turns).
Proof.
  induction turns as [|turn turns IH]; cbn [take_turns]; [apply uncounted_counts; by intros ?|].
  apply counts_bind; [apply take_turn_counts|done].
Qed.

(** The events that the queue gave to a run. *)
Definition events_of (run : CaptureRun) : list LinuxHeapEvent :=
  turns_events (run_turns run) ++ rd_events (run_stop run) ++ rd_events (run_last run).

Lemma record_capture_counts run : counts (events_of run) (record_capture c run).
Proof.
  unfold record_capture. apply counts_last.
  2: { intros _. unfold last_sample. destruct (_ || _); [apply uncounted_memory_snapshot|by intros ?]. }
  unfold drain_capture, process_initial_modules, events_of. apply counts_first.
  { apply uncounted_bind; [uncounted|]. intros _. apply uncounted_bind; [apply uncounted_process_modules|]. intros _. uncounted. }
  intros _. apply counts_bind; [apply take_turns_counts|]. intros _.
  apply counts_bind; [apply drain_round_counts|]. intros _.
  apply counts_last; [apply drain_round_counts|]. intros _. apply uncounted_flush_pending.
Qed.

Lemma start_tallied dictionary writer completeness :
  tallied [] (CaptureWriter_start dictionary writer completeness (length (counter_api_ids c))).
Proof.
  unfold tallied, tally. cbn. rewrite fmap_replicate. symmetry. apply list_eq. intros i.
  rewrite list_lookup_fmap. destruct (counter_api_ids c !! i) as [id|] eqn:Ei; cbn.
  - symmetry. apply lookup_replicate. split; [done|by eapply lookup_lt_Some].
  - symmetry. apply lookup_replicate_None. by apply lookup_ge_None.
Qed.

(** The whole run, from the members at the start. *)
Lemma run_tallied failures startup run w0 w1 w2 : tallied [] w0 → prepare c failures startup w0 = (Ok tt, w1) →
  record_capture c run w1 = (Ok tt, w2) → tallied (events_of run) w2.
Proof.
  intros Hw Hprep Hrun. pose proof (record_capture_counts run [] w1) as H. unfold wp in H. rewrite Hrun in H.
  apply H. pose proof (uncounted_prepare failures startup w0) as E. rewrite Hprep in E. unfold tallied in *. cbn in E. by rewrite E.
Qed.

End tally.
