(* ===== verification/CaptureEnd.v ===== *)
(** * How a capture ends

    What a reader of the trace may count on: a capture that ran writes its statistics,
    which reconcile with the counters of the hooks, and its end record.  A capture that
    failed writes its end record as long as its output accepts bytes, and statistics when
    the counters of the hooks agree at that time. *)

From S2P Require Import Prelude Bytes Text IpcProtocol OrderedMap IntervalSet WireFormat Compression RecordCursor RecordInterface Event Completeness TraceData EventCodec StatisticsCodec DictionaryCodec MemoryCodec TraceWriter HookRegistry RawEvents StackDictionary VmModel TraceReader TraceFile TraceRoundTrip CaptureWriter CaptureFinalize CaptureTheorems.

(** ** The records of the end *)

Lemma size_loss_payload l : size_of (append_loss_payload [] l) = 48.
Proof.
  unfold append_loss_payload, size_of. cbv zeta. normalize_encoding.
  by rewrite !length_app, !length_le_bytes.
Qed.

Lemma size_end_payload e : size_of (append_end_of_trace_payload [] e) = 40.
Proof.
  unfold append_end_of_trace_payload, size_of. cbv zeta. normalize_encoding.
  by rewrite !length_app, !length_le_bytes.
Qed.

(** A record of a type of its own, in a payload of modest size. *)
Lemma append_record_fits chunk type payload max (validate : result exn unit) :
  u16 type → type ≠ 0 → validate = Ok tt → kRecordHeaderSize + size_of payload ≤ max →
  size_of payload ≤ 2 ^ 16 → size_of chunk ≤ 2 ^ 16 →
  ∃ b, (validate ;; append_record chunk type kRecordVersion payload max) = Ok (chunk ++ b) ∧
    size_of b = kRecordHeaderSize + size_of payload.
Proof.
  intros Ht Ht0 Hv Hmax Hp Hc. exists (record_bytes (view_of type payload)). split.
  - apply append_validated; [done|]. pose proof (size_of_nonneg payload).
    unfold record_ok, record_size, kRecordHeaderSize in *. cbn -[size_of]. split_and!; (done || word).
  - unfold size_of at 1. rewrite length_record_bytes. unfold record_size. cbn -[size_of]. lia.
Qed.

Lemma append_loss_fits chunk loss max : validate_loss_record loss = Ok tt → kLossRecordSize ≤ max →
  size_of chunk ≤ 2 ^ 16 →
  ∃ b, append_loss_record chunk loss max = Ok (chunk ++ b) ∧ size_of b = kLossRecordSize.
Proof.
  intros Hv Hmax Hc. unfold append_loss_record. change kLossRecordSize with (kRecordHeaderSize + 48) in *.
  rewrite <- (size_loss_payload loss) in *. apply append_record_fits; try done.
Qed.

Lemma append_end_fits e max : validate_end_of_trace e = Ok tt → kEndOfTraceRecordSize ≤ max →
  ∃ b, append_end_of_trace_record [] e max = Ok b ∧ size_of b = kEndOfTraceRecordSize.
Proof.
  intros Hv Hmax. unfold append_end_of_trace_record. change kEndOfTraceRecordSize with (kRecordHeaderSize + 40) in *.
  rewrite <- (size_end_payload e) in *.
  apply (append_record_fits []); try done.
Qed.

Lemma append_statistics_fits s max : validate_statistics s = Ok tt →
  kRecordHeaderSize + 80 + 48 * size_of (per_api s) ≤ max → size_of (per_api s) ≤ 1000 →
  ∃ b, append_statistics_record [] s max = Ok b ∧
    size_of b = kRecordHeaderSize + 80 + 48 * size_of (per_api s).
Proof.
  intros Hv Hmax Hn. pose proof (size_statistics_payload s) as Hsize.
  unfold append_statistics_record. rewrite Hv. cbn [mbind result_bind].
  rewrite <- Z.add_assoc, <- Hsize in *. apply (append_record_fits []); try done; [|lia].
  apply throw_if_ok, orb_false_iff. unfold kStatisticsFixedPayloadSize, kPerApiStatisticsSize, u32_max.
  split; apply Z.ltb_ge; [lia|]. change ((2 ^ 32 - 1 - 80) / 48) with 89478483. lia.
Qed.

(** The report of an end record. *)
Lemma removed_issue r issue : ∃ r', remove r issue = Ok r' ∧ has r' issue = Ok false ∧
  ∀ other, Z.land (mask r) (CompletenessIssue_value other) = 0 → Z.land (mask r') (CompletenessIssue_value other) = 0.
Proof.
  assert (Hbit : issue_bit issue = Ok (CompletenessIssue_value issue)) by by destruct issue.
  exists (from_mask (Z.land (mask r) (lnot32 (CompletenessIssue_value issue)))).
  split; [unfold remove; by rewrite Hbit|]. split.
  - unfold has. rewrite Hbit. cbn [mbind result_bind mask]. rewrite <- Z.land_assoc.
    replace (Z.land (lnot32 _) _) with 0 by by destruct issue. by rewrite Z.land_0_r.
  - intros other Ho. cbn [mask]. rewrite <- Z.land_assoc, (Z.land_comm (lnot32 _)), Z.land_assoc. by rewrite Ho.
Qed.

Lemma wp_call_ok {A} (m : result exn A) a w (P : A → CaptureWriter → Prop) Q :
  m = Ok a → P a w → wp (call m) w P Q.
Proof. by intros ->. Qed.

(** ** Statistics that reconcile *)

(** The C++ types of a snapshot. *)
Definition CounterSnapshot_wt (sn : CounterSnapshot) : Prop :=
  u64 (sn_recordable_calls sn) ∧ u64 (sn_successful_calls sn) ∧ u64 (sn_failed_calls sn) ∧
  u64 (sn_filtered_calls sn) ∧ u64 (sn_dropped_events sn).

(** What the statistics say of an API, with the counters of its hook or with the writer's:
    everything that was neither filtered nor written was dropped. *)
Definition api_summary (snapshots : list CounterSnapshot) (id : Z) (a : ApiCounters) : ApiStatistics :=
  match find_snapshot id snapshots with
  | Some sn =>
      {| as_api_id := id; as_observed_calls := sn_recordable_calls sn + ac_extra_records a;
         as_successful_operations := sn_successful_calls sn + ac_extra_records a;
         as_failed_operations := sn_failed_calls sn; as_filtered_before_queue := sn_filtered_calls sn;
         as_dropped_events := sn_recordable_calls sn + ac_extra_records a - ac_written a - sn_filtered_calls sn |}
  | None =>
      {| as_api_id := id; as_observed_calls := calls_of a; as_successful_operations := ac_successful a;
         as_failed_operations := ac_failed a; as_filtered_before_queue := 0;
         as_dropped_events := calls_of a - ac_written a |}
  end.

Definition summaries (snapshots : list CounterSnapshot) (ids : list Z) (w : CaptureWriter) : list ApiStatistics :=
  zip_with (api_summary snapshots) ids (cw_api_counters w).

Definition summed (s : CaptureStatistics) (apis : list ApiStatistics) : CaptureStatistics :=
  {| observed_calls := observed_calls s + sum_of as_observed_calls apis;
     successful_operations := successful_operations s + sum_of as_successful_operations apis;
     failed_operations := failed_operations s + sum_of as_failed_operations apis;
     filtered_before_queue := filtered_before_queue s + sum_of as_filtered_before_queue apis;
     dropped_events := dropped_events s + sum_of as_dropped_events apis;
     unique_stacks := unique_stacks s; reused_stacks := reused_stacks s;
     written_uncompressed_bytes := written_uncompressed_bytes s;
     written_stored_bytes := written_stored_bytes s;
     per_api := per_api s ++ apis |}.

(** The statistics of a capture. *)
Definition summary (c : CaptureConstants) (snapshots : list CounterSnapshot) (w : CaptureWriter) : CaptureStatistics :=
  add_totals w (summed no_statistics (summaries snapshots (counter_api_ids c) w)).

(** An entry of the statistics whose counts agree. *)
Definition entry_ok (api : ApiStatistics) : Prop :=
  0 ≤ as_successful_operations api ∧ 0 ≤ as_failed_operations api ∧
  0 ≤ as_filtered_before_queue api ∧ 0 ≤ as_dropped_events api ∧
  call_counts_consistent (as_observed_calls api) (as_successful_operations api) (as_failed_operations api)
    (as_filtered_before_queue api) (as_dropped_events api).

Definition accounted (a : ApiCounters) : Prop := counted a ∧ held_of a ≤ calls_of a.

(** The hook's counters of an API agree with each other and allow for what was written. *)
Definition entry_agrees (snapshots : list CounterSnapshot) (id : Z) (a : ApiCounters) : Prop :=
  ∀ sn, find_snapshot id snapshots = Some sn →
    CounterSnapshot_wt sn ∧ sn_recordable_calls sn = sn_successful_calls sn + sn_failed_calls sn ∧
    ac_written a + sn_filtered_calls sn ≤ sn_recordable_calls sn + ac_extra_records a.

Lemma entry_summary snapshots id a : accounted a → entry_agrees snapshots id a → entry_ok (api_summary snapshots id a).
Proof.
  intros [Ha Hh] Hs. unfold entry_ok, entry_agrees, CounterSnapshot_wt, call_counts_consistent, api_summary, u64, counted, held_of, calls_of in *.
  destruct (find_snapshot id snapshots) as [sn|]; cbn.
  - destruct (Hs sn eq_refl) as ((? & ? & ? & ? & ?) & ? & ?). lia.
  - lia.
Qed.

Lemma total_cons f a l : total f (a :: l) = f a + total f l.
Proof. done. Qed.

Lemma accounted_total f counters : (∀ a, accounted a → 0 ≤ f a) → Forall accounted counters → 0 ≤ total f counters.
Proof. intros Hf Hc. apply total_nonneg. by eapply Forall_impl. Qed.

Lemma total_member f counters a : Forall (λ a, 0 ≤ f a) counters → a ∈ counters → f a ≤ total f counters.
Proof.
  induction 1 as [|b counters Hb Hc IH]; [by intros ?%elem_of_nil|].
  rewrite total_cons. pose proof (total_nonneg _ _ Hc). intros [->|Ha]%elem_of_cons; [lia|].
  specialize (IH Ha). lia.
Qed.

Lemma sum_of_member {A} (f : A → Z) l a : (∀ b, b ∈ l → 0 ≤ f b) → a ∈ l → f a ≤ sum_of f l.
Proof.
  induction l as [|b l IH]; intros Hpos; [by intros ?%elem_of_nil|]. cbn [sum_of foldr]. fold (sum_of f l).
  assert (Hl : ∀ x, x ∈ l → 0 ≤ f x) by (intros x Hx; apply Hpos; by right).
  pose proof (Hpos b (list_elem_of_here b l)). pose proof (sum_of_nonneg f l Hl).
  intros [->|Ha]%elem_of_cons; [lia|]. specialize (IH Hl Ha). lia.
Qed.

Lemma sum_of_cons {A} (f : A → Z) a l : sum_of f (a :: l) = f a + sum_of f l.
Proof. done. Qed.

Lemma sum_of_plus {A} (f g : A → Z) l : sum_of (λ a, f a + g a) l = sum_of f l + sum_of g l.
Proof. induction l as [|a l IH]; cbn; [done|]. unfold sum_of in *. lia. Qed.

Lemma sum_of_ext {A} (f g : A → Z) l : Forall (λ a, f a = g a) l → sum_of f l = sum_of g l.
Proof. induction 1 as [|a l Ha _ IH]; cbn; [done|]. unfold sum_of in *. lia. Qed.

Lemma sum_of_le {A} (f g : A → Z) l : Forall (λ a, f a ≤ g a) l → sum_of f l ≤ sum_of g l.
Proof. induction 1 as [|a l Ha _ IH]; cbn; [done|]. unfold sum_of in *. lia. Qed.

(** The sums over entries whose counts agree do. *)
Lemma entries_sum apis : Forall entry_ok apis →
  0 ≤ sum_of as_successful_operations apis ∧ 0 ≤ sum_of as_failed_operations apis ∧
  0 ≤ sum_of as_filtered_before_queue apis ∧ 0 ≤ sum_of as_dropped_events apis ∧
  call_counts_consistent (sum_of as_observed_calls apis) (sum_of as_successful_operations apis)
    (sum_of as_failed_operations apis) (sum_of as_filtered_before_queue apis) (sum_of as_dropped_events apis).
Proof.
  unfold entry_ok, call_counts_consistent. intros Hok. rewrite <- !sum_of_plus.
  split_and!; try (apply sum_of_nonneg; intros api Hapi; apply (proj1 (Forall_forall _ _) Hok) in Hapi; lia).
  - apply sum_of_ext. eapply Forall_impl; [exact Hok|]. cbn. lia.
  - apply sum_of_le. eapply Forall_impl; [exact Hok|]. cbn. lia.
Qed.

(** Sums that no addition overflows. *)
Definition sums_fit (s : CaptureStatistics) : Prop :=
  0 ≤ successful_operations s ∧ 0 ≤ failed_operations s ∧ 0 ≤ filtered_before_queue s ∧ 0 ≤ dropped_events s ∧
  call_counts_consistent (observed_calls s) (successful_operations s) (failed_operations s)
    (filtered_before_queue s) (dropped_events s).

Lemma add_api_run subjects s api : sums_fit s → entry_ok api → observed_calls s + as_observed_calls api ≤ u64_max →
  add_api subjects s api = Ok (summed s [api]) ∧ sums_fit (summed s [api]).
Proof.
  unfold sums_fit, entry_ok, call_counts_consistent, summed. cbn. intros Hs Ha Hle. split; [|lia]. unfold add_api.
  rewrite !checked_sum_fits by lia. cbn. do 2 f_equal; lia.
Qed.

Lemma summed_cons s api apis : summed (summed s [api]) apis = summed s (api :: apis).
Proof. unfold summed. cbn -[sum_of]. rewrite <- app_assoc, !sum_of_cons. f_equal; unfold sum_of; cbn; lia. Qed.

Lemma sum_apis_run api_of (of_api : Z → ApiCounters → ApiStatistics) subjects ids counters :
  Forall2 (λ id a, api_of id a = Ok (of_api id a)) ids counters → Forall entry_ok (zip_with of_api ids counters) →
  ∀ s, sums_fit s → observed_calls s + sum_of as_observed_calls (zip_with of_api ids counters) ≤ u64_max →
  sum_apis api_of subjects ids counters s = Ok (summed s (zip_with of_api ids counters)).
Proof.
  induction 1 as [|id a ids counters Hapi _ IH]; intros Hok s Hs Hle.
  - cbn. f_equal. destruct s. unfold summed. cbn. by rewrite app_nil_r, !Z.add_0_r.
  - cbn [zip_with] in *. inversion_clear Hok as [|? ? Ha Hrest]. cbn [sum_of foldr] in Hle.
    fold (sum_of as_observed_calls (zip_with of_api ids counters)) in Hle.
    destruct (entries_sum _ Hrest) as (? & ? & ? & ? & ? & ?).
    destruct (add_api_run subjects s (of_api id a) Hs Ha ltac:(lia)) as [E Hs']. cbn [sum_apis].
    rewrite Hapi. cbn [mbind result_bind]. rewrite E. cbn [mbind result_bind].
    rewrite IH; [by rewrite summed_cons|done|done|]. cbn. lia.
Qed.

Lemma sum_of_summaries (g : ApiStatistics → Z) (f : ApiCounters → Z) snapshots :
  (∀ id a, g (api_summary snapshots id a) = f a) →
  ∀ ids counters, length ids = length counters → sum_of g (zip_with (api_summary snapshots) ids counters) = total f counters.
Proof.
  intros Hg ids. induction ids as [|id ids IH]; intros [|a counters]; try done. cbn [length]. intros [= H].
  cbn. rewrite total_cons, Hg. f_equal. by apply IH.
Qed.

Lemma weak_accounted c acc : weak c acc → Forall accounted (acc_counters acc).
Proof. intros Hw. apply Forall_lookup. intros i a Ha. exact (weak_apis _ _ Hw i a Ha). Qed.

Lemma accounted_pos f : (∀ a, counted a → 0 ≤ f a) → ∀ a, accounted a → 0 ≤ f a.
Proof. intros H a [Ha _]. auto. Qed.

(** The ids of the counters make distinct entries. *)
Definition ids_ok (ids : list Z) : Prop := NoDup ids ∧ Forall (λ id, u32 id ∧ id ≠ 0) ids.

Lemma summary_id snapshots id a : as_api_id (api_summary snapshots id a) = id.
Proof. unfold api_summary. by destruct (find_snapshot id snapshots). Qed.

(** Every event that was neither dropped nor filtered was written. *)
Lemma summary_written id snapshots a :
  as_observed_calls (api_summary snapshots id a) + - as_filtered_before_queue (api_summary snapshots id a) +
    - as_dropped_events (api_summary snapshots id a) = ac_written a.
Proof. unfold api_summary. destruct (find_snapshot id snapshots); cbn; lia. Qed.

Lemma sum_of_opp {A} (f : A → Z) l : sum_of (λ a, - f a) l = - sum_of f l.
Proof. induction l as [|a l IH]; cbn; [done|]. unfold sum_of in *. lia. Qed.

Section statistics.
Context (c : CaptureConstants) (snapshots : list CounterSnapshot) (w : CaptureWriter).
Abbreviation apis := (summaries snapshots (counter_api_ids c) w).
Context (Hweak : weak c (accounts w)).

(** The hooks' counters agree, and their sums do not overflow. *)
Definition tail_agrees : Prop :=
  (∀ i id a, counter_api_ids c !! i = Some id → cw_api_counters w !! i = Some a → entry_agrees snapshots id a) ∧
  sum_of as_observed_calls apis ≤ u64_max.

Lemma apis_lookup api : api ∈ apis →
  ∃ i id a, api = api_summary snapshots id a ∧ counter_api_ids c !! i = Some id ∧ cw_api_counters w !! i = Some a.
Proof.
  intros (i & Hi)%list_elem_of_lookup. unfold summaries in Hi. rewrite lookup_zip_with_Some in Hi.
  destruct Hi as (id & a & -> & Hid & Ha). by exists i, id, a.
Qed.

Lemma tail_entries : tail_agrees → Forall entry_ok apis.
Proof.
  intros [Hagree _]. apply Forall_forall. intros api (i & id & a & -> & Hid & Ha)%apis_lookup.
  apply entry_summary; [exact (weak_apis _ _ Hweak i a Ha)|by eapply Hagree].
Qed.

Lemma apis_written : sum_of as_observed_calls apis - sum_of as_filtered_before_queue apis - sum_of as_dropped_events apis =
  total ac_written (cw_api_counters w).
Proof.
  rewrite <- (sum_of_summaries (λ api, as_observed_calls api + - as_filtered_before_queue api + - as_dropped_events api)
    ac_written snapshots (λ id a, summary_written id snapshots a) (counter_api_ids c)).
  - rewrite !sum_of_plus, !sum_of_opp. unfold summaries. lia.
  - symmetry. exact (weak_length _ _ Hweak).
Qed.

Lemma length_apis : length apis = length (counter_api_ids c).
Proof. pose proof (weak_length _ _ Hweak) as H. cbn in H. unfold summaries. rewrite length_zip_with. lia. Qed.

Lemma summary_valid : ids_ok (counter_api_ids c) → tail_agrees →
  u64 (uncompressed_payload_bytes_written_ (cw_writer w)) → u64 (stored_payload_bytes_written_ (cw_writer w)) →
  validate_statistics (summary c snapshots w) = Ok tt.
Proof.
  intros [Hnd Hids] Hagree Hunc Hst. pose proof (tail_entries Hagree) as Hok. destruct Hagree as [_ Hle].
  destruct (weak_stacks _ _ Hweak) as (Hu & Hr & Hur). cbn in Hu, Hr, Hur.
  pose proof (entries_sum _ Hok) as (S1 & S2 & S3 & S4 & S5 & S6). pose proof apis_written as Hwritten.
  assert (Hentries : ∀ api, api ∈ apis → (u32 (as_api_id api) ∧ as_api_id api ≠ 0) ∧ entry_ok api ∧ as_observed_calls api ≤ u64_max).
  { intros api Hapi. split; [|split].
    - destruct (apis_lookup api Hapi) as (i & id & a & -> & Hid & _).
      rewrite summary_id. by eapply (proj1 (Forall_lookup _ _) Hids).
    - by apply (proj1 (Forall_forall _ _) Hok).
    - etrans; [|exact Hle]. apply sum_of_member; [|done]. intros b Hb. apply (proj1 (Forall_forall _ _) Hok) in Hb.
      unfold entry_ok, call_counts_consistent in Hb. lia. }
  unfold entry_ok, call_counts_consistent in *. apply validate_statistics_exact.
  - unfold CaptureStatistics_wt, summary, add_totals, summed. cbn. unfold u64, u64_max in *. split_and!; try done; try lia.
    apply Forall_forall. intros api Hapi. destruct (Hentries api Hapi) as ([Hid _] & ? & ?).
    unfold ApiStatistics_wt, u64. split_and!; try done; lia.
  - unfold statistics_consistent, summary, add_totals, summed, call_counts_consistent. cbn -[sum_of].
    split_and!; try done; try lia.
    + apply Forall_forall. intros api Hapi. destruct (Hentries api Hapi) as ([_ Hid] & ? & ?). split_and!; try done; lia.
    + unfold summaries. rewrite fmap_zip_with_l; [done| |].
      * intros id a. apply summary_id.
      * pose proof (weak_length _ _ Hweak) as H. cbn in H. lia.
Qed.

(** One API, at the orderly end and after a failure. *)
Lemma final_api_run id a : counted a → entry_agrees snapshots id a → ac_pending a = 0 →
  (∀ sn, find_snapshot id snapshots = Some sn → ac_written a + sn_filtered_calls sn + sn_dropped_events sn + ac_trace_dropped a =
     sn_recordable_calls sn + ac_extra_records a) →
  calls_of a = held_of a → as_observed_calls (api_summary snapshots id a) ≤ u64_max →
  final_api snapshots id a = Ok (api_summary snapshots id a).
Proof.
  intros Ha Hs Hp Hd Heq Hle. unfold final_api, api_summary, entry_agrees, CounterSnapshot_wt in *.
  destruct (find_snapshot id snapshots) as [sn|]; cbn in Hle; unfold counted, held_of, calls_of, u64 in *.
  - destruct (Hs sn eq_refl) as ((? & ? & ? & ? & ?) & Hsum & ?). specialize (Hd sn eq_refl).
    rewrite (wrap64_small (_ + _)) by (unfold u64; lia). rewrite Hsum, Z.eqb_refl in *.
    rewrite !checked_sum_fits by lia. cbn [negb throw_if mbind result_bind].
    rewrite checked_sum_fits by lia. cbn [mbind result_bind].
    rewrite (proj2 (Z.eqb_eq _ _)) by lia. cbn. do 2 f_equal. lia.
  - rewrite !checked_sum_fits by lia. cbn [mbind result_bind].
    rewrite (proj2 (Z.eqb_eq _ _)) by lia. cbn. do 2 f_equal. unfold calls_of. lia.
Qed.

Lemma error_api_run id a : accounted a → entry_agrees snapshots id a →
  as_observed_calls (api_summary snapshots id a) ≤ u64_max → error_api snapshots id a = Ok (api_summary snapshots id a).
Proof.
  intros [Ha Heq] Hs Hle. unfold error_api, api_summary, entry_agrees, CounterSnapshot_wt in *.
  destruct (find_snapshot id snapshots) as [sn|]; cbn in Hle; unfold counted, held_of, calls_of, u64 in *.
  - destruct (Hs sn eq_refl) as ((? & ? & ? & ? & ?) & Hsum & ?).
    rewrite (wrap64_small (_ + _)) by (unfold u64; lia). rewrite Hsum, Z.eqb_refl in *.
    cbn [negb throw_if mbind result_bind]. rewrite !checked_sum_fits by lia. cbn [mbind result_bind].
    by rewrite !(proj2 (Z.ltb_ge _ _)) by lia.
  - rewrite !checked_sum_fits by lia. cbn [mbind result_bind].
    by rewrite (proj2 (Z.ltb_ge _ _)) by lia.
Qed.

Lemma sums_run api_of subjects : tail_agrees →
  (∀ i id a, counter_api_ids c !! i = Some id → cw_api_counters w !! i = Some a →
     as_observed_calls (api_summary snapshots id a) ≤ u64_max → api_of id a = Ok (api_summary snapshots id a)) →
  sum_apis api_of subjects (counter_api_ids c) (cw_api_counters w) no_statistics = Ok (summed no_statistics apis).
Proof.
  intros Hagree Hapi. pose proof (tail_entries Hagree) as Hok. destruct Hagree as [_ Hle].
  pose proof (weak_length _ _ Hweak) as Hlen. cbn in Hlen. apply sum_apis_run; [|done|done|done].
  apply Forall2_same_length_lookup_2; [done|]. intros i id a Hid Ha. eapply Hapi; [done..|].
  etrans; [|exact Hle]. apply (sum_of_member as_observed_calls).
  - intros b Hb. apply (proj1 (Forall_forall _ _) Hok) in Hb. unfold entry_ok, call_counts_consistent in Hb. lia.
  - apply list_elem_of_lookup. exists i. apply lookup_zip_with_Some. by exists id, a.
Qed.

(** At the orderly end nothing is pending, so every record was written or dropped. *)
Lemma settled_all : balanced c nothing_owed (accounts w) → cw_pending_event_count w = 0 →
  ∀ i a, cw_api_counters w !! i = Some a → counted a ∧ calls_of a = held_of a ∧ ac_pending a = 0.
Proof.
  intros Hb Hp i a Ha.
  destruct (bal_apis _ _ _ Hb i a Ha) as (Hc & Heq & _). unfold nothing_owed in Heq.
  split; [done|]. split; [lia|].
  assert (Hpos : Forall (λ a, 0 ≤ ac_pending a) (cw_api_counters w)).
  { apply Forall_lookup. intros j b Hj. destruct (bal_apis _ _ _ Hb j b Hj) as (Hcb & _). unfold counted in Hcb. lia. }
  pose proof (total_member _ _ _ Hpos (list_elem_of_lookup_2 _ _ _ Ha)) as Hle. pose proof (bal_pending _ _ _ Hb) as Hsum. cbn in Hsum.
  unfold counted in Hc. lia.
Qed.

(** What the hooks promise of their counters once no hooked call runs
    (include/noleax/agent/linux/glibc_heap_hooks.hpp): a recordable call succeeded or
    failed, and its event was filtered, was dropped because the queue was full, or was
    queued; the queued ones are the events of the run. *)
Definition hooks_agree (events : list LinuxHeapEvent) : Prop :=
  ∀ id sn, id ∈ counter_api_ids c → find_snapshot id snapshots = Some sn →
    CounterSnapshot_wt sn ∧ sn_recordable_calls sn = sn_successful_calls sn + sn_failed_calls sn ∧
    sn_recordable_calls sn = predicted_calls id events + sn_filtered_calls sn + sn_dropped_events sn.

(** The calls that the hooks counted without an event in the queue. *)
Definition unqueued (id : Z) : Z :=
  match find_snapshot id snapshots with
  | Some sn => sn_filtered_calls sn + sn_dropped_events sn
  | None => 0
  end.

Context (events : list LinuxHeapEvent) (Htally : tallied c events w) (Hagree : hooks_agree events).

Lemma tallied_entry i id a : counter_api_ids c !! i = Some id → cw_api_counters w !! i = Some a →
  calls_of a - ac_extra_records a = predicted_calls id events.
Proof.
  intros Hid Ha. pose proof (f_equal (.!! i) Htally) as H. unfold tally in H. cbn in H.
  rewrite !list_lookup_fmap, Hid, Ha in H. by injection H.
Qed.

Lemma hooks_entry i id a sn : counter_api_ids c !! i = Some id → cw_api_counters w !! i = Some a →
  counted a → calls_of a = held_of a → ac_pending a = 0 → find_snapshot id snapshots = Some sn →
  CounterSnapshot_wt sn ∧ sn_recordable_calls sn = sn_successful_calls sn + sn_failed_calls sn ∧
  ac_written a + sn_filtered_calls sn + sn_dropped_events sn + ac_trace_dropped a =
    sn_recordable_calls sn + ac_extra_records a.
Proof.
  intros Hid Ha Hc Heq Hp Hsn. pose proof (tallied_entry i id a Hid Ha) as Ht.
  destruct (Hagree id sn (list_elem_of_lookup_2 _ _ _ Hid) Hsn) as (Hwt & Hsum & Hq). split; [done|]. split; [done|].
  unfold held_of in Heq. lia.
Qed.

Lemma hooks_observed : sum_of as_observed_calls apis = calls w + sum_of unqueued (counter_api_ids c).
Proof.
  unfold summaries, calls. pose proof (weak_length _ _ Hweak) as Hlen. cbn in Hlen.
  assert (Hall : ∀ i id a, counter_api_ids c !! i = Some id → cw_api_counters w !! i = Some a →
    as_observed_calls (api_summary snapshots id a) = calls_of a + unqueued id).
  { intros i id a Hid Ha. pose proof (tallied_entry i id a Hid Ha) as Ht. unfold api_summary, unqueued.
    destruct (find_snapshot id snapshots) as [sn|] eqn:Esn; cbn; [|lia].
    destruct (Hagree id sn (list_elem_of_lookup_2 _ _ _ Hid) Esn) as (_ & _ & Hq). lia. }
  revert Hall Hlen. generalize (counter_api_ids c), (cw_api_counters w). intros ids.
  induction ids as [|id ids IH]; intros [|a counters] Hall Hlen; try done.
  cbn [zip_with]. rewrite !sum_of_cons, total_cons, (Hall 0%nat id a) by done.
  rewrite IH; [lia| |by injection Hlen]. intros i. exact (Hall (S i)).
Qed.

Lemma hooks_tail_agree : balanced c nothing_owed (accounts w) → cw_pending_event_count w = 0 →
  calls w + sum_of unqueued (counter_api_ids c) ≤ u64_max → tail_agrees.
Proof.
  intros Hb Hp Hle. split; [|by rewrite hooks_observed]. intros i id a Hid Ha sn Hsn.
  destruct (settled_all Hb Hp i a Ha) as (Hc & Heq & Hpa).
  destruct (hooks_entry i id a sn) as (Hwt & Hsum & Heq'); try done. split; [done|]. split; [done|].
  unfold CounterSnapshot_wt, counted, u64 in *. lia.
Qed.

End statistics.

Lemma make_error_statistics_run c answer w : weak c (accounts w) → tail_agrees c (counter_snapshots c answer) w →
  make_error_statistics c answer w = Ok (summary c (counter_snapshots c answer) w).
Proof.
  intros Hw Hagree. unfold make_error_statistics. erewrite sums_run; [done|done|done|].
  intros i id a Hid Ha Hle. apply error_api_run; [exact (weak_apis _ _ Hw i a Ha)| |done]. by eapply (proj1 Hagree).
Qed.

Lemma final_statistics_run c answer events w : balanced c nothing_owed (accounts w) → cw_pending_event_count w = 0 →
  tallied c events w → hooks_agree c (counter_snapshots c answer) events →
  calls w + sum_of (unqueued (counter_snapshots c answer)) (counter_api_ids c) ≤ u64_max →
  final_statistics c answer w = Ok (summary c (counter_snapshots c answer) w).
Proof.
  intros Hb Hp Ht Hagree Hle. pose proof (balanced_weak _ _ _ Hb) as Hw.
  pose proof (hooks_tail_agree _ _ _ Hw _ Ht Hagree Hb Hp Hle) as Htail.
  unfold final_statistics. erewrite sums_run; [|done|done|].
  2: { intros i id a Hid Ha Hca. destruct (settled_all c w Hb Hp i a Ha) as (? & ? & ?).
       apply final_api_run; try done; [by eapply (proj1 Htail)|]. intros sn Hsn. by eapply hooks_entry. }
  pose proof (tail_entries _ _ _ Hw Htail) as Hok. destruct (entries_sum _ Hok) as (S1 & S2 & S3 & S4 & S5 & S6).
  pose proof (apis_written c (counter_snapshots c answer) w Hw) as Hwritten. destruct Htail as [_ Hsum].
  pose proof (bal_written _ _ _ Hb) as Hcount. cbn in Hcount.
  cbn [mbind result_bind]. cbv zeta. fold (summary c (counter_snapshots c answer) w). unfold summary at 1 2 3, add_totals, summed at 1 2 3.
  cbn [successful_operations failed_operations filtered_before_queue dropped_events observed_calls no_statistics].
  rewrite checked_sum_fits by (cbn -[sum_of]; lia). cbn [mbind result_bind].
  rewrite checked_sum_fits by (cbn -[sum_of]; lia). cbn [mbind result_bind].
  rewrite checked_sum_fits by (cbn -[sum_of]; lia). cbn [mbind result_bind].
  rewrite !(proj2 (Z.eqb_eq _ _)) by (cbn -[sum_of]; lia). done.
Qed.

(** ** Chunks of the end *)

Section capture.
Context {L : CompressionLibrary}.

Definition appended (o : ostream) (data : bytes) : ostream :=
  {| out_bytes := out_bytes o ++ data; out_room := None; out_errno := out_errno o;
     out_flush_fails := out_flush_fails o; out_good := true |}.

Lemma write_bytes_calm data phase off ct t : calm (output_ t) → size_of data ≤ streamsize_max →
  write_bytes data phase off ct t = (Ok tt, set_output (appended (output_ t) data) t).
Proof.
  intros (Hg & Hr & Hf) Hsize. unfold write_bytes.
  destruct (Z.eqb_spec (size_of data) 0) as [E|E].
  - assert (data = []) as -> by (destruct data; [done|unfold size_of in E; cbn in E; lia]).
    destruct t as [[] ? ? ? ?]. cbn in *. subst. unfold appended, set_output. cbn. by rewrite app_nil_r.
  - unfold write_if. rewrite (proj2 (Z.ltb_ge _ _)) by exact Hsize.
    unfold mbind, proc_bind, pure, get_state, modify. cbn. unfold ostream_write. by rewrite Hg, Hr.
Qed.

Context (c : CaptureConstants).
Abbreviation wo := (trace_options c).

(** A trace writer that has [room] bytes left of its file, without a reserve. *)
Record ready (t : TraceWriter) (room : Z) : Prop := {
  rdy_options : tw_options_ t = released wo;
  rdy_calm : calm (output_ t);
  rdy_bytes : 0 ≤ bytes_written_ t ∧ bytes_written_ t + room ≤ max_file_size wo ≤ u64_max;
  rdy_uncompressed : 0 ≤ uncompressed_payload_bytes_written_ t ∧
    uncompressed_payload_bytes_written_ t + room ≤ u64_max;
  rdy_stored : 0 ≤ stored_payload_bytes_written_ t ∧ stored_payload_bytes_written_ t + room ≤ u64_max;
}.

Lemma ready_less t room room' : room' ≤ room → ready t room → ready t room'.
Proof. intros Hle [H1 H2 H3 H4 H5]. split; (done || lia). Qed.

(** The chunks the end of a trace writes. *)
Definition terminal_chunk (type : ChunkType) (payload : bytes) (first last : Z) : stored_chunk :=
  make_chunk {| cd_type := type; cd_version := 1; cd_flags := 0; cd_codec := Codec_kNone;
                sequence_begin := first; sequence_end := last |} payload payload.

Definition range_ok (first last : Z) : Prop := (first = 0 ∧ last = 0) ∨ 0 < first ≤ last.

Lemma terminal_chunk_valid type payload first last : range_ok first last →
  validate_chunk_header (sc_header (terminal_chunk type payload first last)) = Ok tt.
Proof.
  intros Hr. unfold validate_chunk_header, terminal_chunk, make_chunk, is_valid. cbn -[Z.ltb].
  destruct type; cbn -[Z.ltb]; destruct Hr as [[-> ->] | [H1 H2]]; try done;
    rewrite !(proj2 (Z.eqb_neq _ 0)), (proj2 (Z.ltb_ge _ _)) by lia; done.
Qed.

Lemma write_terminal_ready type payload first last t room : ready t room → range_ok first last →
  size_of payload ≤ w_max_uncompressed_chunk_size wo → size_of payload ≤ w_max_stored_chunk_size wo →
  size_of payload ≤ streamsize_max → kChunkHeaderSize + size_of payload ≤ room →
  ∃ t', write_chunk (descriptor (sc_header (terminal_chunk type payload first last))) payload t =
      (Ok Write_kWritten, t') ∧
    ready t' (room - (kChunkHeaderSize + size_of payload)) ∧
    out_bytes (output_ t') = out_bytes (output_ t) ++ chunk_bytes (terminal_chunk type payload first last).
Proof.
  intros [Ho Hcalm Hb Hu Hs] Hrange Hunc Hst Hmax Hfit. unfold kChunkHeaderSize in *.
  pose proof (size_of_nonneg payload) as Hpos. set (ch := terminal_chunk type payload first last).
  assert (Henc : encode_chunk_header (sc_header ch) = Ok (chunk_header_bytes (sc_header ch))).
  { apply encode_chunk_header_ok. split; [by apply terminal_chunk_valid|done]. }
  assert (Hlen : size_of (chunk_header_bytes (sc_header ch)) = 56).
  { unfold size_of. by rewrite length_chunk_header. }
  unfold write_chunk. erewrite (proc_bind_run get_state) by done. rewrite Ho. cbv zeta.
  rewrite pure_bind. unfold write_if at 1. cbn [released w_max_uncompressed_chunk_size w_max_stored_chunk_size zstd_level max_file_size reserved_tail_size].
  rewrite (proj2 (Z.ltb_ge _ _)) by lia. cbv beta iota. rewrite pure_bind.
  change (compress_payload _ payload _) with (Ok (E := write_exn) payload). cbv beta iota.
  rewrite pure_bind. unfold write_if at 1. rewrite (proj2 (Z.ltb_ge _ _)) by lia. cbv beta iota.
  rewrite pure_bind. change {| descriptor := _ |} with (sc_header ch). rewrite Henc. cbn [format_exn].
  assert (Hlimit : exceeds_file_limit (bytes_written_ t) (size_of payload) (wrap64 (max_file_size wo - 0)) = false).
  { rewrite wrap64_small by word. unfold exceeds_file_limit, kChunkHeaderSize.
    rewrite !(proj2 (Z.ltb_ge _ _)) by word. done. }
  rewrite Hlimit, pure_bind. unfold write_if at 1. rewrite (proj2 (Z.ltb_ge _ _)) by lia. cbv beta iota.
  erewrite proc_bind_run by (apply write_bytes_calm; [done|rewrite Hlen; done]).
  erewrite proc_bind_run by (apply write_bytes_calm; [by destruct Hcalm as (? & ? & ?)|done]).
  eexists. split; [reflexivity|].
  cbn -[chunk_bytes size_of chunk_header_bytes Z.add] in Hlen |- *. rewrite Hlen, !wrap64_small by word.
  split; [|by rewrite <- app_assoc]. split; cbn -[size_of Z.add trace_options]; try done; try lia. by destruct Hcalm as (? & ? & ?).
Qed.

(** ** Steps of the end

    What the constructor makes sure of: the records of the end fit, and so do their
    chunks in the reserve. *)

Definition terminal_room : Z :=
  kTerminalReserveBaseSize + size_of (cc_custom_definitions c) * kTerminalReservePerCustomHook.

Record roomy : Prop := {
  rm_record : kMaximumModuleLoadRecordSize ≤ record_limit c;
  rm_uncompressed : kMaximumModuleLoadRecordSize ≤ w_max_uncompressed_chunk_size wo;
  rm_stored : kMaximumModuleLoadRecordSize ≤ w_max_stored_chunk_size wo;
  rm_reserve : terminal_room ≤ reserved_tail_size wo;
  rm_definitions : size_of (cc_custom_definitions c) ≤ kMaximumCustomHooks;
  rm_ids : ids_ok (counter_api_ids c);
}.

Context (Hroomy : roomy) (Hwt : TraceWriterOptions_wt wo)
  (Hstream : w_max_stored_chunk_size wo ≤ streamsize_max).

Ltac sizes :=
  pose proof (rm_record Hroomy); pose proof (rm_uncompressed Hroomy); pose proof (rm_stored Hroomy);
  pose proof (rm_reserve Hroomy); pose proof (rm_definitions Hroomy);
  pose proof (size_of_nonneg (cc_custom_definitions c));
  unfold kLossRecordSize, kEndOfTraceRecordSize, kMaximumModuleLoadRecordSize, kChunkHeaderSize,
    kRecordHeaderSize, kMaximumCustomHooks, limit in *.

Lemma terminal_room_value : terminal_room = 1056 + 48 * size_of (cc_custom_definitions c).
Proof. unfold terminal_room. change kTerminalReserveBaseSize with 1056. unfold kTerminalReservePerCustomHook. lia. Qed.

Definition release (t : TraceWriter) : TraceWriter := (release_file_reserve t).2.

Lemma release_ready header Allowed t cs tail : writer_inv header wo Allowed t cs tail →
  tw_options_ t = wo → calm (output_ t) → uncompressed_payload_bytes_written_ t ≤ 2 ^ 63 →
  ready (release t) terminal_room.
Proof.
  intros Hinv Ho Hcalm Hu. pose proof terminal_room_value as Hroom. sizes.
  destruct Hinv as [_ _ _ _ Hw _ _ Hl Hun _ Hst]. rewrite Ho in Hl.
  pose proof (sum_nonneg sc_payload cs). pose proof (sum_nonneg sc_stored cs).
  pose proof (stored_sum_bound cs) as Hbound. rewrite size_of_app in Hw.
  pose proof (size_of_nonneg (file_header_bytes header)).
  destruct Hwt as (Hmax & _ & _ & Hres & _).
  split; cbn -[size_of Z.add trace_options terminal_room]; [by rewrite Ho|done|..]; unfold u64, u64_max in *; lia.
Qed.

Lemma wp_release w (P : unit → CaptureWriter → Prop) Q :
  P tt (w <| cw_writer := release (cw_writer w) |>) → wp release_reserve w P Q.
Proof. intros H. exact H. Qed.

Lemma wp_terminal_chunk type payload first last w room (P : bool → CaptureWriter → Prop) Q :
  ready (cw_writer w) room → range_ok first last →
  size_of payload ≤ kMaximumModuleLoadRecordSize → kChunkHeaderSize + size_of payload ≤ room →
  (∀ t', ready t' (room - (kChunkHeaderSize + size_of payload)) →
     out_bytes (output_ t') = out_bytes (output_ (cw_writer w)) ++ chunk_bytes (terminal_chunk type payload first last) →
     P true (w <| cw_writer := t' |>)) →
  wp (write_terminal_chunk type payload first last) w P Q.
Proof.
  intros Hready Hrange Hsize Hfit HP. sizes.
  destruct (write_terminal_ready type payload first last (cw_writer w) room) as (t' & E & Hr' & Hb'); [try done; unfold kChunkHeaderSize, streamsize_max in *; lia..|].
  unfold write_terminal_chunk, write_chunk_of. apply wp_bind. unfold on_trace. apply wp_run_member.
  unfold wp. cbn -[write_chunk] in E. rewrite E. apply HP; done.
Qed.

Lemma wp_append_loss payload loss w (P : bytes → CaptureWriter → Prop) Q :
  tracker_ok (cw_completeness w) → size_of payload ≤ 1000 →
  (∀ b t, size_of b = kLossRecordSize → tracker_ok t → P (payload ++ b) (w <| cw_completeness := t |>)) →
  (validate_loss_record loss ≠ Ok tt → ∀ e, Q e w) →
  wp (append_loss c payload loss) w P Q.
Proof.
  intros Ht Hsize HP HQ. unfold append_loss, observe_capture_loss.
  apply wp_bind, wp_bind, wp_get, wp_bind.
  destruct (validate_loss_record loss) as [[]|e] eqn:Ev.
  - destruct (observe_loss_fits _ _ Ht Ev) as (t' & E' & Ht'). apply (wp_call_ok _ _ _ _ _ E').
    apply wp_modify. sizes. destruct (append_loss_fits payload loss (record_limit c)) as (b & E & Hb);
      [done|unfold kLossRecordSize, kRecordHeaderSize; lia|lia|].
    by apply (wp_call_ok _ _ _ _ _ E), HP.
  - apply wp_call; [|by apply HQ]. intros t Ho. unfold observe_loss in Ho. rewrite Ev in Ho.
    by destruct (invalid_if _ _) as [[]|].
Qed.

Lemma same_completeness w : w <| cw_completeness := cw_completeness w |> = w.
Proof. by destruct w. Qed.

Lemma queue_full_valid n : n ≠ 0 → validate_loss_record (queue_full_loss n) = Ok tt.
Proof. intros Hn. unfold validate_loss_record, queue_full_loss. cbn. by rewrite (proj2 (Z.eqb_neq _ _) Hn). Qed.

(** Whether the loss record of the events the trace had no room for is in order. *)
Definition drops_valid (w : CaptureWriter) : Prop :=
  cw_trace_dropped_events w ≠ 0 →
  validate_loss_record (trace_full_loss (cw_trace_dropped_events w) (cw_trace_drop_span w)) = Ok tt.

Lemma wp_collected w (P : bytes → CaptureWriter → Prop) Q : tracker_ok (cw_completeness w) →
  (∀ b t, size_of b ≤ 3 * kLossRecordSize → tracker_ok t → P b (w <| cw_completeness := t |>)) →
  (¬ drops_valid w → ∀ e t, tracker_ok t → Q e (w <| cw_completeness := t |>)) →
  wp (append_collected_loss_records c) w P Q.
Proof.
  intros Ht HP HQ. unfold append_collected_loss_records. apply wp_bind, wp_get.
  sizes.
  assert (Hstep : ∀ (b : bool) payload loss (k : bytes → capturing bytes) t Q',
    (b = false → validate_loss_record loss = Ok tt) → tracker_ok t → size_of payload ≤ 1000 →
    (∀ payload' t', tracker_ok t' → size_of payload' ≤ size_of payload + 56 →
       wp (k payload') (w <| cw_completeness := t' |>) P Q') →
    wp ((if b then mret payload else append_loss c payload loss) ≫= k) (w <| cw_completeness := t |>) P Q').
  { intros b payload loss k t Q' Hv Ht' Hsize Hk. apply wp_bind. destruct b.
    - apply wp_ret. apply Hk; [done|lia].
    - apply wp_append_loss; [done|done| |by rewrite (Hv eq_refl)]. intros b t'' Hb Ht''. apply Hk; [done|].
      rewrite size_of_app, Hb. unfold kLossRecordSize, kRecordHeaderSize. lia. }
  match goal with |- wp ?p w ?P ?Q =>
    enough (wp p (w <| cw_completeness := cw_completeness w |>) P Q) as Hgoal by (by rewrite same_completeness in Hgoal)
  end.
  apply Hstep; [intros ?%Z.eqb_neq; by apply queue_full_valid|done|done|]. intros p1 t1 Ht1 Hp1.
  apply Hstep; [intros ?%Z.eqb_neq; by apply queue_full_valid|done| |].
  { change (size_of []) with 0 in Hp1. lia. }
  intros p2 t2 Ht2 Hp2. change (size_of []) with 0 in Hp1.
  destruct (Z.eqb_spec (cw_trace_dropped_events w) 0) as [E|E].
  - apply wp_ret, HP; [lia|done].
  - apply wp_append_loss; [done|lia|..].
    + intros b t Hb Hb'. apply HP; [|done]. rewrite size_of_app, Hb. unfold kLossRecordSize, kRecordHeaderSize. lia.
    + intros Hbad e. apply HQ; [|done]. by intros Hd; specialize (Hd E).
Qed.

(** ** The last two chunks *)

Definition statistics_size : Z := kRecordHeaderSize + 80 + 48 * size_of (counter_api_ids c).

Lemma statistics_size_value : statistics_size = 616 + 48 * size_of (cc_custom_definitions c).
Proof.
  unfold statistics_size, counter_api_ids, size_of. rewrite length_app, !length_fmap.
  change (length kLinuxHookRegistry) with 11%nat. unfold kRecordHeaderSize. lia.
Qed.

(** The members once the statistics were written, and the end record. *)
Definition with_statistics (s : CaptureStatistics) (t : TraceWriter) (w : CaptureWriter) : CaptureWriter :=
  w <| cw_writer := t |> <| cw_result := (cw_result w) <| cr_statistics := Some s |>
    <| cr_per_api := zip_with api_result (per_api s) (cw_api_counters w) |> <| cr_statistics_written := true |> |>.

Definition with_end (t : TraceWriter) (w : CaptureWriter) : CaptureWriter :=
  w <| cw_writer := t |> <| cw_result := (cw_result w) <| cr_end_of_trace_written := true |> |>.

Definition statistics_chunk (s : CaptureStatistics) (ch : stored_chunk) : Prop :=
  ∃ payload, append_statistics_record [] s (record_limit c) = Ok payload ∧
    ch = terminal_chunk Chunk_kStatistics payload 0 0.

Definition end_chunk (e : EndOfTrace) (ch : stored_chunk) : Prop :=
  ∃ payload, append_end_of_trace_record [] e (record_limit c) = Ok payload ∧
    ch = terminal_chunk Chunk_kEnd payload 0 0.

Lemma wp_write_statistics s w room (P : unit → CaptureWriter → Prop) Q :
  ready (cw_writer w) room → validate_statistics s = Ok tt → size_of (per_api s) = size_of (counter_api_ids c) →
  kChunkHeaderSize + statistics_size ≤ room →
  (∀ ch t, statistics_chunk s ch → ready t (room - (kChunkHeaderSize + statistics_size)) →
     out_bytes (output_ t) = out_bytes (output_ (cw_writer w)) ++ chunk_bytes ch → P tt (with_statistics s t w)) →
  wp (write_statistics c s) w P Q.
Proof.
  intros Hready Hvalid Hsize Hfit HP. pose proof statistics_size_value as Hvalue. sizes.
  destruct (append_statistics_fits s (limit c)) as (payload & Happ & Hlen); [done|rewrite Hsize..|].
  { unfold statistics_size, limit, kRecordHeaderSize in *. lia. }
  { unfold statistics_size, kRecordHeaderSize in *. lia. }
  assert (Hpayload : size_of payload = statistics_size) by (rewrite Hlen, Hsize; done).
  unfold write_statistics. apply wp_bind. apply (wp_call_ok _ _ _ _ _ Hvalid).
  apply wp_bind, wp_get, wp_bind, wp_modify, wp_bind. apply (wp_call_ok _ _ _ _ _ Happ).
  apply wp_bind. apply (wp_terminal_chunk _ _ _ _ _ room); [done|by left|..].
  - rewrite Hpayload. unfold kMaximumModuleLoadRecordSize. lia.
  - rewrite Hpayload. unfold kChunkHeaderSize. lia.
  - intros t Ht Hbytes. rewrite Hpayload in Ht. apply wp_modify.
    apply (HP (terminal_chunk Chunk_kStatistics payload 0 0) t); [by exists payload|done|done].
Qed.

Lemma wp_write_end e w room (P : unit → CaptureWriter → Prop) Q :
  ready (cw_writer w) room → validate_end_of_trace e = Ok tt → kChunkHeaderSize + kEndOfTraceRecordSize ≤ room →
  (∀ ch t, end_chunk e ch → ready t (room - (kChunkHeaderSize + kEndOfTraceRecordSize)) →
     out_bytes (output_ t) = out_bytes (output_ (cw_writer w)) ++ chunk_bytes ch → P tt (with_end t w)) →
  wp (write_end c e) w P Q.
Proof.
  intros Hready Hvalid Hfit HP. sizes.
  destruct (append_end_fits e (limit c)) as (payload & Happ & Hlen); [done|unfold limit, kEndOfTraceRecordSize, kRecordHeaderSize; lia|].
  unfold write_end. apply wp_bind. apply (wp_call_ok _ _ _ _ _ Happ). apply wp_bind.
  apply (wp_terminal_chunk _ _ _ _ _ room); [done|by left|..].
  - rewrite Hlen. by compute.
  - rewrite Hlen. unfold kChunkHeaderSize, kEndOfTraceRecordSize, kRecordHeaderSize. lia.
  - intros t Ht Hbytes. rewrite Hlen in Ht. apply wp_modify.
    apply (HP (terminal_chunk Chunk_kEnd payload 0 0) t); [by exists payload|done|done].
Qed.

Lemma flush_calm t : calm (output_ t) → flush t = (Ok tt, t).
Proof.
  destruct t as [o ? ? ? ?]. intros (Hg & Hr & Hf). cbn in Hg, Hr, Hf.
  unfold flush, ostream_flush, mbind, proc_bind, get_state, modify, pure. cbn. rewrite Hg, Hf. cbn. by rewrite Hg.
Qed.

Lemma same_writer w : w <| cw_writer := cw_writer w |> = w.
Proof. by destruct w. Qed.

Lemma wp_flush_calm w (P : unit → CaptureWriter → Prop) Q : calm (output_ (cw_writer w)) → P tt w → wp flush_stream w P Q.
Proof.
  intros Hc HP. unfold flush_stream, on_trace. apply wp_run_member. unfold wp. rewrite (flush_calm _ Hc).
  by rewrite same_writer.
Qed.

(** ** The orderly end *)

Context (header : FileHeader) (Allowed : ChunkDescriptor → bytes → Prop).

(** The last chunks of a trace: its statistics, if there are any, and its end record. *)
Definition final_chunks (s : option CaptureStatistics) (e : EndOfTrace) (chs : list stored_chunk) : Prop :=
  match s with
  | Some s => ∃ ch1 ch2, statistics_chunk s ch1 ∧ end_chunk e ch2 ∧ chs = [ch1; ch2]
  | None => ∃ ch, end_chunk e ch ∧ chs = [ch]
  end.

(** The trace gets its last chunks after the bytes [before]. *)
Record ends_trace (before : bytes) (w : CaptureWriter) (s : option CaptureStatistics) (e : EndOfTrace)
    (w' : CaptureWriter) : Prop := {
  et_bytes : ∃ chs, final_chunks s e chs ∧
    out_bytes (output_ (cw_writer w')) = before ++ concat (chunk_bytes <$> chs);
  et_counters : cw_api_counters w' = cw_api_counters w;
  et_statistics : cr_statistics (cw_result w') = s ∧
    cr_statistics_written (cw_result w') = bool_decide (is_Some s);
  et_sequence : final_sequence e = cw_last_wire_sequence w;
  et_end : cr_end_of_trace_written (cw_result w') = true;
}.

Lemma ready_u64 t room : 0 ≤ room → ready t room →
  u64 (uncompressed_payload_bytes_written_ t) ∧ u64 (stored_payload_bytes_written_ t).
Proof. intros Hroom [_ _ _ H4 H5]. unfold u64, u64_max in *. lia. Qed.

Lemma size_summary snapshots w : weak c (accounts w) → size_of (per_api (summary c snapshots w)) = size_of (counter_api_ids c).
Proof. intros Hw. unfold summary, add_totals, summed, size_of. cbn. by rewrite (length_apis c snapshots w Hw). Qed.

(** Statistics with other sizes of the chunks before them. *)
Definition with_sizes (uncompressed stored : Z) (s : CaptureStatistics) : CaptureStatistics :=
  {| observed_calls := observed_calls s; successful_operations := successful_operations s;
     failed_operations := failed_operations s; filtered_before_queue := filtered_before_queue s;
     dropped_events := dropped_events s; unique_stacks := unique_stacks s; reused_stacks := reused_stacks s;
     written_uncompressed_bytes := uncompressed; written_stored_bytes := stored; per_api := per_api s |}.

(** The end record of an orderly stop. *)
Lemma wp_write_terminal_records snapshots w room (P : unit → CaptureWriter → Prop) Q :
  ready (cw_writer w) room → kChunkHeaderSize + statistics_size + (kChunkHeaderSize + kEndOfTraceRecordSize) ≤ room →
  weak c (accounts w) → tail_agrees c snapshots w → tracker_ok (cw_completeness w) →
  (∀ e w', ends_trace (out_bytes (output_ (cw_writer w))) w (Some (summary c snapshots w)) e w' → normal_stop e = true →
     cr_status (cw_result w') = (if cw_file_limit_reached w then Capture_kFileLimit else Capture_kComplete) →
     cr_error (cw_result w') = cr_error (cw_result w) →
     mask (aggregate_completeness e) = cr_completeness_mask (cw_result w') →
     cr_trace_dropped_events (cw_result w') = cw_trace_dropped_events w → P tt w') →
  wp (write_terminal_records c (summary c snapshots w)) w P Q.
Proof.
  intros Hready Hfit Hweak Hcalls [_ Habnormal] HP. pose proof statistics_size_value. sizes.
  destruct (ready_u64 (cw_writer w) room ltac:(lia) Hready) as [Hu1 Hu2].
  unfold write_terminal_records. apply wp_bind. apply (wp_write_statistics _ _ room); [done|..].
  { apply summary_valid; [done|apply Hroomy|done..]. }
  { by apply size_summary. }
  { unfold kChunkHeaderSize. lia. }
  intros ch1 t1 Hch1 Ht1 Hb1. apply wp_bind, wp_get, wp_bind.
  destruct (removed_issue (report (cw_completeness w)) kMissingEndOfTrace) as (r & Hr & Hmissing & Hkeep).
  apply (wp_call_ok _ r); [exact Hr|]. apply wp_bind. apply (wp_write_end _ _ (room - (kChunkHeaderSize + statistics_size))); [exact Ht1|..].
  { unfold validate_end_of_trace, end_of_trace. cbn [aggregate_completeness normal_stop]. rewrite Hmissing. cbn [mbind result_bind].
    unfold has. change (issue_bit kAbnormalStop) with (Ok (E := exn) (CompletenessIssue_value kAbnormalStop)).
    cbn [mbind result_bind]. by rewrite (Hkeep _ Habnormal). }
  { unfold kChunkHeaderSize, kEndOfTraceRecordSize, kRecordHeaderSize. lia. }
  intros ch2 t2 Hch2 Ht2 Hb2. apply wp_bind, wp_flush_calm; [apply Ht2|].
  apply wp_bind, wp_get, wp_bind, wp_modify. unfold fill_result_counters. apply wp_bind, wp_get, wp_modify.
  match type of Hch2 with end_chunk ?e _ => apply (HP e); try reflexivity end. split; try reflexivity; [|done].
  exists [ch1; ch2]. split; [by exists ch1, ch2|].
  change (out_bytes (output_ t2) = out_bytes (output_ (cw_writer w)) ++ (chunk_bytes ch1 ++ chunk_bytes ch2 ++ [])).
  change (cw_writer (with_statistics _ t1 w)) with t1 in Hb2. by rewrite Hb2, Hb1, app_nil_r, app_assoc.
Qed.

Lemma span_ok_valid n last ticks s : n ≠ 0 → span_ok last ticks s → validate_loss_record (trace_full_loss n s) = Ok tt.
Proof.
  intros Hn (H1 & H2 & H3 & H4). unfold validate_loss_record, trace_full_loss. cbn.
  rewrite (proj2 (Z.eqb_neq n 0) Hn). unfold is_valid. rewrite !(proj2 (Z.eqb_neq _ 0)) by lia.
  by rewrite !(proj2 (Z.ltb_ge _ _)) by lia.
Qed.

Lemma finalize_runs answer events w : base c header True Allowed w → balanced c nothing_owed (accounts w) →
  orderly (accounts w) (cw_file_limit_reached w) → cw_pending_event_count w = 0 →
  tallied c events w → hooks_agree c (counter_snapshots c answer) events →
  calls w + sum_of (unqueued (counter_snapshots c answer)) (counter_api_ids c) ≤ u64_max →
  uncompressed_payload_bytes_written_ (cw_writer w) ≤ 2 ^ 63 →
  wp (finalize_trace c answer) w
    (λ _ w', ∃ (losses : list stored_chunk) u v e, (length losses ≤ 1)%nat ∧
       ends_trace (out_bytes (output_ (cw_writer w)) ++ concat (chunk_bytes <$> losses)) w
         (Some (with_sizes u v (summary c (counter_snapshots c answer) w))) e w' ∧
       normal_stop e = true ∧
       cr_status (cw_result w') = (if cw_file_limit_reached w then Capture_kFileLimit else Capture_kComplete) ∧
       cr_error (cw_result w') = None ∧
       mask (aggregate_completeness e) = cr_completeness_mask (cw_result w') ∧
       cr_trace_dropped_events (cw_result w') = cw_trace_dropped_events w) (λ _ _, False).
Proof.
  intros Hbase Hbal Hord Hp Htally Hagree Hcalls Hunc. pose proof statistics_size_value as Hs. pose proof terminal_room_value as Hroom.
  sizes. destruct Hbase as [B1 B2 B3 B4 (cs & tail & Hinv) B6 B7].
  pose proof (release_ready header Allowed _ _ _ Hinv B6 (B7 I) Hunc) as Hready.
  injection B1 as Hresult _.
  unfold finalize_trace. apply wp_bind, wp_release, wp_bind. apply wp_collected; [done| |].
  2: { intros Hbad. exfalso. apply Hbad. intros Hd. destruct (ord_dropped _ _ Hord Hd) as [_ Hspan]. by eapply span_ok_valid. }
  intros payload tracker Hsize Htracker. apply wp_bind, wp_get, wp_bind.
  apply (wp_mono _ _ (λ _ w', ∃ losses t, (length losses ≤ 1)%nat ∧ ready t (terminal_room - 56 - 168) ∧
    out_bytes (output_ t) = out_bytes (output_ (cw_writer w)) ++ concat (chunk_bytes <$> losses) ∧
    w' = w <| cw_completeness := tracker |> <| cw_writer := t |>) _ (λ _ _, False)); [| |done].
  - destruct (_ =? 0).
    + apply wp_ret. exists [], (release (cw_writer w)). split_and!; [cbn; lia| |by rewrite app_nil_r|done].
      eapply ready_less; [|exact Hready]. lia.
    + apply wp_bind. apply (wp_terminal_chunk _ _ _ _ _ terminal_room); [done|..].
      * cbn. destruct (Z.eqb_spec (cw_trace_dropped_events w) 0) as [|Hd]; [by left|].
        destruct (ord_dropped _ _ Hord Hd) as [_ Hspan]. right. unfold span_ok in Hspan. cbn in Hspan. lia.
      * unfold kMaximumModuleLoadRecordSize, kLossRecordSize, kRecordHeaderSize in *. lia.
      * unfold kChunkHeaderSize, kLossRecordSize, kRecordHeaderSize in *. lia.
      * intros t Ht Hb. apply wp_ret. eexists [_], t. split_and!; [cbn; lia| | |reflexivity].
        -- eapply ready_less; [|exact Ht]. unfold kChunkHeaderSize, kLossRecordSize, kRecordHeaderSize in *. lia.
        -- cbn [fmap list_fmap concat]. by rewrite app_nil_r.
  - intros [] w1 (losses & t & Hn & Ht & Hb & ->). apply wp_bind, wp_get, wp_bind.
    match goal with |- wp (call (final_statistics c _ ?v)) _ _ _ => set (w1 := v) in * end.
    apply (wp_call_ok _ (summary c (counter_snapshots c answer) w1)); [by eapply final_statistics_run|].
    pose proof (balanced_weak _ _ _ Hbal) as Hweak.
    apply (wp_write_terminal_records _ _ (terminal_room - 56 - 168)); [exact Ht| |exact Hweak| |done|].
    { unfold kChunkHeaderSize, kEndOfTraceRecordSize, kRecordHeaderSize. lia. }
    { exact (hooks_tail_agree c _ w Hweak events Htally Hagree Hbal Hp Hcalls). }
    intros e w' He Hnormal Hstatus Herror Hmask Hdrops.
    exists losses, (uncompressed_payload_bytes_written_ t), (stored_payload_bytes_written_ t), e.
    split_and!; try done; [|by rewrite Herror; cbn; rewrite Hresult].
    rewrite <- Hb. destruct He. by split.
Qed.

End capture.

(** ** What the constructor makes sure of *)

Section construction.
Context {L : CompressionLibrary}.

Lemma custom_hook_ids specs : ∀ index definitions, 0 ≤ index → index + size_of specs ≤ kMaximumCustomHooks →
  make_custom_hook_definitions_from index specs = Ok definitions →
  chd_api_id <$> definitions = seqZ (kCustomHookApiIdBase + index) (size_of specs).
Proof.
  induction specs as [|spec specs IH]; intros index definitions H0 Hmax; cbn [make_custom_hook_definitions_from].
  - by intros [= <-].
  - unfold size_of in *. cbn [length] in Hmax. unfold kMaximumCustomHooks in *.
    rewrite bind_ok. intros ([] & _ & H). rewrite bind_ok in H. destruct H as (rest & Hrest & [= <-]).
    rewrite fmap_cons. cbn [chd_api_id length]. rewrite seqZ_cons by lia. unfold kCustomHookApiIdBase.
    rewrite (wrap32_small index) by word. rewrite wrap32_small by word. f_equal.
    rewrite (IH (index + 1) _ ltac:(lia) ltac:(lia) Hrest). unfold kCustomHookApiIdBase. f_equal; lia.
Qed.

Lemma hook_ids_ok c specs : size_of specs ≤ kMaximumCustomHooks →
  make_custom_hook_definitions specs = Ok (cc_custom_definitions c) →
  ids_ok (counter_api_ids c) ∧ size_of (cc_custom_definitions c) = size_of specs ∧
  chd_api_id <$> cc_custom_definitions c = seqZ kCustomHookApiIdBase (size_of (cc_custom_definitions c)).
Proof.
  intros Hmax Hdefs. pose proof (size_of_nonneg specs) as Hpos.
  pose proof (custom_hook_ids specs 0 _ ltac:(lia) ltac:(lia) Hdefs) as Hids. unfold kMaximumCustomHooks in *.
  split.
  - unfold ids_ok, counter_api_ids. rewrite Hids. unfold kCustomHookApiIdBase. split.
    + apply NoDup_app. split_and!; [apply (bool_decide_unpack _); by vm_compute| |apply NoDup_seqZ].
      intros id Hid Hid'. rewrite elem_of_seqZ in Hid'.
      assert (Forall (λ id, id < 4096) (lh_api_id <$> kLinuxHookRegistry)) as Hsmall by (apply (bool_decide_unpack _); by vm_compute).
      apply (proj1 (Forall_forall _ _) Hsmall) in Hid. lia.
    + apply Forall_app. split.
      * repeat constructor; cbv; done.
      * apply Forall_forall. intros id Hid. rewrite elem_of_seqZ in Hid. word.
  - assert (Hsize : size_of (cc_custom_definitions c) = size_of specs).
    { apply (f_equal length) in Hids. rewrite length_fmap, length_seqZ in Hids. unfold size_of in *. lia. }
    split; [done|]. by rewrite Hids, Hsize, Z.add_0_r.
Qed.

Lemma write_file_header_setup header t :
  wp (write_file_header header) t (λ _ t', same_setup t t') (λ _ _, True).
Proof.
  unfold write_file_header. wp_step. wp_step.
  repeat first [apply wp_bind; apply wp_pure; [intros ? _|done]].
  wp_step. eapply wp_mono; [apply write_bytes_setup| |done]. intros [] t1 H1. by wp_step.
Qed.

(** The C++ types of the options; no chunk is longer than a stream can write. *)
Definition CaptureOptions_wt (o : CaptureOptions) : Prop :=
  TraceWriterOptions_wt (co_trace o) ∧ length (co_session_id o) = 16%nat ∧
  u64 (co_monotonic_origin o) ∧ i64 (co_utc_origin_ns o) ∧
  w_max_uncompressed_chunk_size (co_trace o) ≤ streamsize_max ∧
  w_max_stored_chunk_size (co_trace o) ≤ streamsize_max.

(** What the constructor has checked and made. *)
Record constructed (options : CaptureOptions) (header : FileHeader) (c : CaptureConstants)
    (w : CaptureWriter) : Prop := {
  con_roomy : roomy c;
  con_options : TraceWriterOptions_wt (trace_options c);
  con_reserve : reserved_tail_size (trace_options c) ≤ max_file_size (trace_options c);
  con_stream : w_max_stored_chunk_size (trace_options c) ≤ streamsize_max;
  con_hooks : chd_api_id <$> cc_custom_definitions c = seqZ kCustomHookApiIdBase (size_of (cc_custom_definitions c));
  con_source : co_counter_source (cc_options c) = co_counter_source options;
  con_tallied : tallied c [] w;
  con_start : ∀ bound strict, 0 ≤ bound →
    steady_inv c header True (λ _ _, True) bound strict w ∧ cw_pending_event_count w = 0;
}.

Lemma validate_options_ok o o' : CaptureOptions_wt o → validate_options o = Ok o' →
  kMaximumModuleLoadRecordSize ≤ co_maximum_record_size o ∧
  kMaximumModuleLoadRecordSize ≤ w_max_uncompressed_chunk_size (co_trace o) ∧
  kMaximumModuleLoadRecordSize ≤ w_max_stored_chunk_size (co_trace o) ∧
  size_of (co_custom_hooks o) ≤ kMaximumCustomHooks ∧
  ∃ reserve, u64 reserve ∧ o' = o <| co_trace := {| max_file_size := max_file_size (co_trace o);
      w_max_uncompressed_chunk_size := w_max_uncompressed_chunk_size (co_trace o);
      w_max_stored_chunk_size := w_max_stored_chunk_size (co_trace o);
      reserved_tail_size := reserve; zstd_level := zstd_level (co_trace o) |} |> ∧
    kTerminalReserveBaseSize + size_of (co_custom_hooks o) * kTerminalReservePerCustomHook ≤ reserve.
Proof.
  intros (Hwt & _ & _ & _ & Hunc & Hst) Hv. unfold validate_options, invalid_argument_if in Hv. inv_ok. bool_facts.
  destruct Hwt as (Hmax & Hu & Hs & Hr & Hz). pose proof (size_of_nonneg (co_custom_hooks o)).
  unfold kMaximumModuleLoadRecordSize, kMaximumCustomHooks in *. change kTerminalReserveBaseSize with 1056 in *.
  unfold kTerminalReservePerCustomHook in *.
  assert (Hworst : w_max_uncompressed_chunk_size (co_trace o) ≤ w_max_stored_chunk_size (co_trace o)).
  { pose proof (Z.div_le_upper_bound (w_max_uncompressed_chunk_size (co_trace o)) 255 (2 ^ 62) ltac:(lia)) as Hd.
    pose proof (Z.div_pos (w_max_uncompressed_chunk_size (co_trace o)) 255).
    unfold streamsize_max, u64 in *. rewrite wrap64_small in * by (unfold u64; lia). lia. }
  split_and!; try lia. subst o'. eexists. split_and!; [|reflexivity|]; [unfold u64 in *|]; lia.
Qed.

Lemma CaptureWriter_new_constructed output options process monotonic_now utc_now c w :
  CaptureOptions_wt options → u64 monotonic_now → i64 utc_now → out_bytes output = [] → calm output →
  CaptureWriter_new output options process monotonic_now utc_now = Ok (c, w) →
  constructed options (make_file_header (cc_options c) (cc_monotonic_origin c) utc_now) c w.
Proof.
  intros Hwt Hmono Hutc Hempty Hcalm Hnew. unfold CaptureWriter_new in Hnew.
  destruct (validate_options options) as [o'|] eqn:Ev; [|done]. cbn [format_exn mbind result_bind] in Hnew.
  destruct (validate_options_ok _ _ Hwt Ev) as (V1 & V2 & V3 & V4 & reserve & V5 & -> & V6).
  destruct (make_custom_hook_definitions _) as [definitions|] eqn:Ed; [|done]. cbn [format_exn mbind result_bind] in Hnew.
  destruct (StackDictionary_new _) as [dictionary|]; [|done]. cbn [format_exn mbind result_bind] in Hnew.
  match type of Hnew with context [TraceWriter_new output ?h ?o] => set (header := h) in *; set (wo := o) in * end.
  destruct (TraceWriter_new output header wo).1 as [writer|] eqn:Ew; [|done]. cbn [mbind result_bind] in Hnew.
  destruct (CompletenessTracker_new _) as [tracker|] eqn:Et; [|done]. cbn [format_exn mbind result_bind mret result_ret] in Hnew.
  injection Hnew as <- <-.
  match goal with |- context [constructed options _ ?k _] => set (c := k) end.
  destruct (hook_ids_ok c _ V4 Ed) as (Hids & Hsize & Hcustom).
  destruct Hwt as ((Hmax & Hu & Hs & Hr & Hz) & Hsession & Horigin & Hoff & Hunc & Hst).
  assert (Hwo : TraceWriterOptions_wt wo) by done.
  assert (Hheader : FileHeader_wt header).
  { unfold FileHeader_wt, header, make_file_header. cbn.
    split_and!; try done; try word; [destruct (co_monotonic_origin options =? 0)|destruct (co_utc_origin_ns options =? 0)]; assumption. }
  destruct (TraceWriter_new_ok _ _ _ _ Hheader Hwo Hempty Ew) as (_ & Hreserve & Hinv).
  assert (Hsetup : same_setup (new_writer output wo) writer).
  { pose proof (write_file_header_setup header (new_writer output wo)) as H. unfold TraceWriter_new in Ew. unfold wp in H.
    destruct (write_file_header _ _) as [[[]|] t]; cbn in Ew; [|done]. by injection Ew as <-. }
  change (constructed options header c (CaptureWriter_start dictionary writer tracker (length kLinuxHookRegistry + length definitions))).
  split; try done.
  - split; try done; [unfold terminal_room|]; by rewrite Hsize.
  - replace (length kLinuxHookRegistry + length definitions)%nat with (length (counter_api_ids c)); [apply start_tallied|].
    unfold counter_api_ids. by rewrite length_app, !length_fmap.
  - intros bound strict Hbound. destruct Hsetup as [Ho Hc].
    assert (Hlen : (length kLinuxHookRegistry + length definitions)%nat = length (counter_api_ids c)).
    { unfold counter_api_ids. by rewrite length_app, !length_fmap. }
    match goal with |- context [CaptureWriter_start _ _ _ ?n] => replace n with (length (counter_api_ids c)) by exact (eq_sym Hlen) end.
    apply start_steady; try done; [by eapply tracker_new_ok|auto].
Qed.

End construction.

(** ** The end after a failure *)

Section failure.
Context {L : CompressionLibrary}.

Lemma wp_attempt (stage on_failure : capturing unit) first w (P : string → CaptureWriter → Prop) Q :
  wp stage w (λ _ w', P first w')
    (λ e w', wp on_failure w' (λ _ w'', P (if no_text first then what_of e else first) w'') Q) →
  wp (attempt stage on_failure first) w P Q.
Proof.
  unfold wp, attempt. destruct (stage w) as [[[]|e] w']; [done|]. unfold mbind, proc_bind.
  by destruct (on_failure w') as [[[]|e'] w''].
Qed.

(** A stage whose failure leaves nothing to do. *)
Lemma wp_attempt_any (stage : capturing unit) first w (R : CaptureWriter → Prop) (P : string → CaptureWriter → Prop) Q :
  wp stage w (λ _ w', R w') (λ _ w', R w') → (∀ message w', R w' → P message w') →
  wp (attempt stage (mret tt) first) w P Q.
Proof.
  intros Hs HP. apply wp_attempt. eapply wp_mono; [exact Hs|..].
  - intros [] w' Hw. by apply HP.
  - intros e w' Hw. apply wp_ret. by apply HP.
Qed.

Context (c : CaptureConstants) (Hroomy : roomy c) (Hwt : TraceWriterOptions_wt (trace_options c))
  (Hstream : w_max_stored_chunk_size (trace_options c) ≤ streamsize_max) (answer : list CounterSnapshot).

(** What the first stage leaves, whatever became of it. *)
Definition after_losses (w w' : CaptureWriter) : Prop :=
  ∃ (losses : list stored_chunk) tracker t, (length losses ≤ 1)%nat ∧ tracker_ok tracker ∧
    ready c t (terminal_room c - (kChunkHeaderSize + 4 * kLossRecordSize)) ∧
    out_bytes (output_ t) = out_bytes (output_ (cw_writer w)) ++ concat (chunk_bytes <$> losses) ∧
    w' = w <| cw_completeness := tracker |> <| cw_writer := t |>.

Lemma writer_error_loss_valid n : validate_loss_record (writer_error_loss n) = Ok tt.
Proof. unfold validate_loss_record, writer_error_loss. cbn. by destruct (n =? 0) eqn:E; cbn; rewrite ?E. Qed.

Lemma write_error_losses_leaves w : ready c (cw_writer w) (terminal_room c) → tracker_ok (cw_completeness w) →
  wp (write_error_losses c) w (λ _ w', after_losses w w') (λ _ w', after_losses w w').
Proof.
  intros Hready Ht.
  assert (Hfailed : ∀ tracker, tracker_ok tracker → after_losses w (w <| cw_completeness := tracker |>)).
  { intros tracker Htr. exists [], tracker, (cw_writer w). split_and!; [cbn; lia|done| |by rewrite app_nil_r|by destruct w].
    eapply ready_less; [|exact Hready]. unfold kChunkHeaderSize, kLossRecordSize, kRecordHeaderSize. lia. }
  unfold write_error_losses. apply wp_bind. apply (wp_collected c Hroomy); [done| |intros _; auto].
  intros payload tracker Hsize Htr. apply wp_bind, wp_get, wp_bind, wp_call; [|auto]. intros unwritten _.
  unfold kLossRecordSize, kRecordHeaderSize in *. apply wp_bind. apply (wp_append_loss c Hroomy); [done|lia| |].
  2: { intros Hbad. by destruct Hbad, (writer_error_loss_valid unwritten). }
  intros b tracker' Hb Htr'. unfold kLossRecordSize, kRecordHeaderSize in Hb. apply wp_bind.
  assert (Hpayload : size_of (payload ++ b) ≤ 4 * 56) by (rewrite size_of_app; lia).
  apply (wp_terminal_chunk c Hroomy _ _ _ _ _ (terminal_room c)); [done|by left|..].
  - unfold kMaximumModuleLoadRecordSize. lia.
  - pose proof (terminal_room_value c). pose proof (size_of_nonneg (cc_custom_definitions c)). unfold kChunkHeaderSize. lia.
  - intros t Hrt Hbytes. apply wp_ret. eexists [_], tracker', t. split_and!; [cbn; lia|done| | |reflexivity].
    + eapply ready_less; [|exact Hrt]. unfold kChunkHeaderSize, kLossRecordSize, kRecordHeaderSize. lia.
    + cbn [fmap list_fmap concat]. by rewrite app_nil_r.
Qed.

(** The statistics of the tail, when they can be made and are valid. *)
Definition tail_statistics (w : CaptureWriter) : option CaptureStatistics :=
  match (s ← make_error_statistics c answer w; validate_statistics s ;; mret s) with
  | Ok s => Some s
  | Throw _ => None
  end.

Lemma sum_apis_size api_of subjects ids : ∀ counters s s', length ids = length counters →
  sum_apis api_of subjects ids counters s = Ok s' → size_of (per_api s') = size_of (per_api s) + size_of ids.
Proof.
  induction ids as [|id ids IH]; intros [|a counters] s s' Hlen; try done; cbn [sum_apis].
  - intros [= <-]. unfold size_of. cbn. lia.
  - rewrite bind_ok. intros (api & _ & H). rewrite bind_ok in H. destruct H as (s1 & Hs1 & H).
    rewrite (IH counters s1 s' ltac:(by injection Hlen) H).
    assert (per_api s1 = per_api s ++ [api]) as ->; [|rewrite size_of_app; unfold size_of; cbn; lia].
    unfold add_api in Hs1. do 5 (rewrite bind_ok in Hs1; destruct Hs1 as (? & _ & Hs1)). by injection Hs1 as <-.
Qed.

Lemma tail_statistics_spec w : weak c (accounts w) →
  match tail_statistics w with
  | Some s => make_error_statistics c answer w = Ok s ∧ validate_statistics s = Ok tt ∧
      size_of (per_api s) = size_of (counter_api_ids c)
  | None => (∃ e, make_error_statistics c answer w = Throw e) ∨
      ∃ s e, make_error_statistics c answer w = Ok s ∧ validate_statistics s = Throw e
  end.
Proof.
  intros Hw. unfold tail_statistics. destruct (make_error_statistics c answer w) as [s|e] eqn:E; cbn; [|left; by eexists].
  destruct (validate_statistics s) as [[]|e] eqn:Ev; cbn; [|right; by exists s, e].
  split_and!; try done. unfold make_error_statistics in E. rewrite bind_ok in E. destruct E as (s1 & E & [= <-]).
  apply sum_apis_size in E; [exact E|]. symmetry. exact (weak_length _ _ Hw).
Qed.

(** They depend on the members that the first stage writes only in the sizes. *)
Lemma tail_statistics_sizes w w' : cw_api_counters w' = cw_api_counters w → cw_unique_stacks w' = cw_unique_stacks w →
  cw_reused_stacks w' = cw_reused_stacks w →
  tail_statistics w' = with_sizes (uncompressed_payload_bytes_written_ (cw_writer w'))
    (stored_payload_bytes_written_ (cw_writer w')) <$> tail_statistics w.
Proof.
  intros E1 E2 E3. unfold tail_statistics, make_error_statistics. rewrite E1.
  destruct (sum_apis _ _ _ _ _) as [s|e]; [|done]. unfold add_totals. rewrite E2, E3.
  cbn [mbind result_bind mret result_ret].
  match goal with |- match (validate_statistics ?s1 ;; _) with _ => _ end = _ <$> match (validate_statistics ?s2 ;; _) with _ => _ end =>
    change (validate_statistics s1) with (validate_statistics s2); by destruct (validate_statistics s2) as [[]|] end.
Qed.

Lemma tail_statistics_agree w : ids_ok (counter_api_ids c) → weak c (accounts w) →
  tail_agrees c (counter_snapshots c answer) w →
  u64 (uncompressed_payload_bytes_written_ (cw_writer w)) → u64 (stored_payload_bytes_written_ (cw_writer w)) →
  tail_statistics w = Some (summary c (counter_snapshots c answer) w).
Proof.
  intros Hids Hw Hagree Hu Hs. unfold tail_statistics. rewrite make_error_statistics_run by done. cbn [mbind result_bind].
  by rewrite summary_valid.
Qed.

(** What the second stage leaves: the chunk of the statistics, or nothing. *)
Definition after_statistics (room : Z) (w w' : CaptureWriter) : Prop :=
  ∃ s chs t, s = tail_statistics w ∧ ready c t (room - (kChunkHeaderSize + statistics_size c)) ∧
    out_bytes (output_ t) = out_bytes (output_ (cw_writer w)) ++ concat (chunk_bytes <$> chs) ∧
    match s with
    | Some s => (∃ ch, statistics_chunk c s ch ∧ chs = [ch]) ∧ w' = with_statistics s t w
    | None => chs = [] ∧ w' = w <| cw_writer := t |>
    end.

Lemma write_error_statistics_leaves w room : ready c (cw_writer w) room →
  kChunkHeaderSize + statistics_size c ≤ room → weak c (accounts w) → cr_statistics_written (cw_result w) = false →
  wp (write_error_statistics c answer) w (λ _ w', after_statistics room w w') (λ _ w', after_statistics room w w').
Proof.
  intros Hready Hfit Hweak Hwritten. pose proof (statistics_size_value c).
  pose proof (size_of_nonneg (cc_custom_definitions c)).
  unfold write_error_statistics. apply wp_bind, wp_get. rewrite Hwritten. apply wp_bind.
  pose proof (tail_statistics_spec w Hweak) as Hspec.
  destruct (tail_statistics w) as [s|] eqn:Et.
  - destruct Hspec as (E & Hv & Hsize). apply (wp_call_ok _ s); [done|].
    apply (wp_write_statistics c Hroomy _ _ room); [done..|].
    intros ch t Hch Ht Hb. exists (Some s), [ch], t. split_and!; [done|done|cbn; by rewrite app_nil_r|by exists ch|done].
  - assert (Hnone : after_statistics room w w).
    { exists None, [], (cw_writer w). split_and!; [done| |by rewrite app_nil_r|done|by rewrite same_writer].
      eapply ready_less; [|exact Hready]. unfold kChunkHeaderSize in *. lia. }
    destruct Hspec as [[e E]|(s & e & E & Hv)].
    + rewrite E. by apply wp_call; [|intros e'].
    + apply (wp_call_ok _ s); [done|]. unfold write_statistics. apply wp_bind. rewrite Hv. by apply wp_call; [|intros e'].
Qed.

Lemma added_issue r issue : ∃ r', add r issue = Ok r' ∧ has r' issue = Ok true.
Proof.
  assert (Hbit : issue_bit issue = Ok (CompletenessIssue_value issue)) by by destruct issue.
  exists (from_mask (Z.lor (mask r) (CompletenessIssue_value issue))). unfold add, has. rewrite Hbit.
  split; [done|]. cbn [mbind result_bind mask]. rewrite Z.land_lor_distr_l, Z.land_diag.
  rewrite (proj2 (Z.eqb_neq _ 0)); [done|]. intros E%Z.lor_eq_0_iff. destruct E as [_ E]. by destruct issue.
Qed.

Lemma others_removed r issue other r' : issue ≠ other → remove r issue = Ok r' → has r' other = has r other.
Proof.
  assert (Hbit : ∀ issue, issue_bit issue = Ok (CompletenessIssue_value issue)) by (intros i; by destruct i).
  unfold remove, has. rewrite !Hbit. intros Hne [= <-]. cbn [mbind result_bind mask].
  rewrite <- Z.land_assoc. replace (Z.land (lnot32 _) _) with (CompletenessIssue_value other); [done|].
  by destruct issue, other.
Qed.

(** The end record of a failed capture. *)
Definition abnormal (e : EndOfTrace) : Prop :=
  normal_stop e = false ∧ has (aggregate_completeness e) kAbnormalStop = Ok true.

Lemma write_error_end_writes w room before : ready c (cw_writer w) room →
  kChunkHeaderSize + kEndOfTraceRecordSize ≤ room → out_bytes (output_ (cw_writer w)) = before →
  wp (write_error_end c) w
    (λ _ w', ∃ e ch t, end_chunk c e ch ∧ abnormal e ∧ final_sequence e = cw_last_wire_sequence w ∧ calm (output_ t) ∧
       out_bytes (output_ t) = before ++ chunk_bytes ch ∧
       w' = with_end t w <| cw_result :=
         (cw_result (with_end t w)) <| cr_completeness_mask := mask (aggregate_completeness e) |> |>) (λ _ _, False).
Proof.
  intros Hready Hfit <-. unfold write_error_end. apply wp_bind, wp_get, wp_bind.
  destruct (added_issue (report (cw_completeness w)) kAbnormalStop) as (r & Hr & Hhas).
  apply (wp_call_ok _ r); [exact Hr|]. apply wp_bind.
  destruct (removed_issue r kMissingEndOfTrace) as (r' & Hr' & Hmissing & _).
  apply (wp_call_ok _ r'); [exact Hr'|]. apply wp_bind. apply (wp_write_end c Hroomy _ _ room); [done| |done|].
  - unfold validate_end_of_trace, end_of_trace. cbn [aggregate_completeness normal_stop]. by rewrite Hmissing.
  - intros ch t Hch Ht Hb. apply wp_bind, wp_get. unfold set_mask. apply wp_modify.
    match type of Hch with end_chunk _ ?e _ => exists e, ch, t end. split_and!; try done; [|apply Ht].
    split; [done|]. cbn [aggregate_completeness end_of_trace]. by rewrite (others_removed _ kMissingEndOfTrace kAbnormalStop _ ltac:(done) Hr').
Qed.

(** What the tail leaves: statistics if they can be made, the end record, and the failure
    it is there for. *)
Definition failed_end (err : write_exn) (w w' : CaptureWriter) : Prop :=
  ∃ (losses : list stored_chunk) u v e, (length losses ≤ 1)%nat ∧
    ends_trace c (out_bytes (output_ (cw_writer w)) ++ concat (chunk_bytes <$> losses)) w
      (with_sizes u v <$> tail_statistics w) e w' ∧ abnormal e ∧
    cr_completeness_mask (cw_result w') = mask (aggregate_completeness e) ∧
    cr_status (cw_result w') = Capture_kWriterError ∧ cr_error (cw_result w') = Some (failure_of err).

(** The members while the tail is written: the failure is noted, and nothing else. *)
Definition noted (err : write_exn) (w : CaptureWriter) : CaptureWriter :=
  w <| cw_result := CaptureResult_new <| cr_status := Capture_kWriterError |> <| cr_error := Some (failure_of err) |> |>
    <| cw_error_tail_attempted := true |>.

Lemma write_error_tail_writes err w : ready c (cw_writer w) (terminal_room c) → weak c (accounts w) →
  tracker_ok (cw_completeness w) →
  wp (failure ← attempt (write_error_losses c) (mret tt) EmptyString;
      failure ← attempt (write_error_statistics c answer) (mret tt) failure;
      failure ← attempt (write_error_end c) mask_of_report failure;
      if no_text failure then mret tt else fail RuntimeError failure) (noted err w)
    (λ _ w', failed_end err w w' ∧ calm (output_ (cw_writer w')))
    (λ _ w', failed_end err w w' ∧ calm (output_ (cw_writer w'))).
Proof.
  intros Hready Hweak Htracker. pose proof (terminal_room_value c) as Hroom. pose proof (statistics_size_value c) as Hsize.
  pose proof (size_of_nonneg (cc_custom_definitions c)) as Hpos. apply wp_bind.
  apply (wp_attempt_any _ _ _ (after_losses (noted err w))); [by apply write_error_losses_leaves|].
  intros message w1 (losses & tracker & t & Hn & Htr & Ht & Hb & ->). apply wp_bind.
  unfold kChunkHeaderSize, kLossRecordSize, kRecordHeaderSize in Ht.
  match goal with |- wp _ ?v _ _ => set (w1 := v) end.
  pose proof (tail_statistics_sizes w w1 eq_refl eq_refl eq_refl) as Hstatistics.
  eapply (wp_attempt_any _ _ _ (after_statistics _ w1)).
  { apply write_error_statistics_leaves; [exact Ht|unfold kChunkHeaderSize; lia|by destruct Hweak|done]. }
  intros message2 w2 (s & chs & t1 & Hs & Ht1 & Hb1 & Hw2). apply wp_bind, wp_attempt.
  assert (Hwriter : cw_writer w2 = t1) by (destruct s; by destruct Hw2 as [_ ->]).
  eapply wp_mono.
  { apply (write_error_end_writes w2 (terminal_room c - (56 + 4 * 56) - (kChunkHeaderSize + statistics_size c)) (out_bytes (output_ t1))).
    - rewrite Hwriter. exact Ht1.
    - unfold kChunkHeaderSize, kEndOfTraceRecordSize, kRecordHeaderSize. lia.
    - by rewrite Hwriter. }
  2: { done. }
  intros [] w3' (e & ch2 & t2 & Hch2 & Habnormal & Hsequence & Hcalm & Hb2 & ->).
  match goal with |- wp _ ?v _ _ => set (w3 := v) end.
  assert (Hdone : failed_end err w w3 ∧ calm (output_ (cw_writer w3))).
  { split; [|done]. rewrite Hstatistics in Hs.
    exists losses, (uncompressed_payload_bytes_written_ (cw_writer w1)), (stored_payload_bytes_written_ (cw_writer w1)), e.
    rewrite <- Hs. split; [done|]. split; [|by destruct s; destruct Hw2 as [_ ->]].
    split; try (by destruct s; destruct Hw2 as [_ ->]). exists (chs ++ [ch2]). split.
    - destruct s as [s|]; destruct Hw2 as [Hchs _]; [destruct Hchs as (ch1 & Hch1 & ->); by exists ch1, ch2|].
      rewrite Hchs. by exists ch2.
    - change (out_bytes (output_ (cw_writer w3))) with (out_bytes (output_ t2)). rewrite Hb2, Hb1.
      change (cw_writer w1) with t. rewrite Hb, fmap_app, concat_app. cbn [fmap list_fmap concat].
      by rewrite app_nil_r, <- !app_assoc. }
  destruct (no_text message2); [by apply wp_ret|]. unfold fail. apply wp_call; [done|]. by intros e'.
Qed.

Lemma failed_end_release err w w' : failed_end err (w <| cw_writer := release (cw_writer w) |>) w' → failed_end err w w'.
Proof.
  intros (losses & u & v & e & Hn & [E1 E2 E3 E4 E5] & ? & ? & ? & ?).
  rewrite (tail_statistics_sizes w) in E1, E3 by done. rewrite <- option_fmap_compose in E1, E3.
  exists losses, u, v, e. by split_and!.
Qed.

Lemma record_writer_error_ends header Allowed err w : broken c header True Allowed w →
  uncompressed_payload_bytes_written_ (cw_writer w) ≤ 2 ^ 63 →
  wp (record_writer_error c answer err) w (λ _ w', failed_end err w w') (λ _ _, False).
Proof.
  intros [Hbase Hweak] Hunc. destruct Hbase as [B1 B2 B3 B4 (cs & tail & Hinv) B6 B7].
  pose proof (release_ready c Hroomy Hwt header Allowed _ _ _ Hinv B6 (B7 I) Hunc) as Hready.
  injection B1 as Hresult Hattempted.
  unfold record_writer_error, change_result. apply wp_bind, wp_modify, wp_bind. rewrite Hresult. cbn [cr_error CaptureResult_new].
  eapply wp_attempt_any with (R := λ w', failed_end err w w').
  - apply wp_bind. unfold write_error_tail. apply wp_bind, wp_get. cbn [cw_error_tail_attempted cw_result].
    match goal with |- context [?a || ?b] => replace (a || b) with false by (cbn; by rewrite Hattempted) end.
    apply wp_bind, wp_modify, wp_bind, wp_release.
    eapply wp_mono.
    { exact (write_error_tail_writes err (w <| cw_writer := release (cw_writer w) |>) Hready Hweak B4). }
    + intros [] w' [Hfailed%failed_end_release Hcalm]. by apply wp_flush_calm.
    + by intros e w' [Hfailed%failed_end_release _].
  - intros message w' Hw'. unfold fill_result_counters, change_result. apply wp_bind, wp_modify, wp_bind, wp_get, wp_modify.
    destruct Hw' as (losses & u & v & e & Hn & [E1 E2 E3 E4 E5] & Ha & Hm & Hs & He).
    exists losses, u, v, e. split_and!; try done; [split; try done|..]; cbn -[no_text]; by destruct (no_text _).
Qed.

End failure.

(** ** Captures *)

Lemma wp_returned {S E A} (p : proc S E A) s P Q a s' : wp p s P Q → p s = (Ok a, s') → P a s'.
Proof. unfold wp. by intros H E'; rewrite E' in H. Qed.

Lemma wp_threw {S E A} (p : proc S E A) s P Q e s' : wp p s P Q → p s = (Throw e, s') → Q e s'.
Proof. unfold wp. by intros H E'; rewrite E' in H. Qed.

Lemma wp_never_throws {S E A} (p : proc S E A) s P : wp p s P (λ _ _, False) → ∃ a s', p s = (Ok a, s') ∧ P a s'.
Proof. unfold wp. destruct (p s) as [[a|e] s']; [|done]. intros H. by exists a, s'. Qed.

Section captures.
Context {L : CompressionLibrary}.

Lemma prepare_begins c failures startup w : wp (prepare c failures startup) w (λ _ w', cw_capture_begun w' = true) (λ _ _, True).
Proof.
  unfold prepare. apply wp_bind. eapply wp_mono; [apply wp_top| |done]. intros [] w1 _.
  apply wp_bind. eapply wp_mono; [apply wp_top| |done]. intros [] w2 _. unfold begin_capture.
  do 5 (apply wp_bind; eapply wp_mono; [apply wp_top| |done]; intros [] ? _). by apply wp_modify.
Qed.

(** Every sample of the loop follows a flush. *)
Definition samples_after_flush (run : CaptureRun) : Prop :=
  Forall (λ turn, sampled turn = true → tn_flush_due turn = true) (run_turns run).

Context (options : CaptureOptions) (header : FileHeader) (c : CaptureConstants) (w0 : CaptureWriter)
  (Hnew : constructed options header c w0).

Definition steady_capture (bound : Z) (strict : Prop) : CaptureWriter → Prop :=
  steady_inv c header True (λ _ _, True) bound strict.

Lemma record_capture_ends bound strict run w : bound < u64_max → (strict → samples_after_flush run) →
  (strict ∨ ¬ strict) → steady_capture bound strict w →
  wp (record_capture c run) w (λ _ w', steady_capture bound strict w' ∧ cw_pending_event_count w' = 0)
    (λ _ w', broken c header True (λ _ _, True) w').
Proof.
  intros Hbound Hsamples Hdec Hw. destruct Hnew as [H1 H2 H3 H4 _ _ _ _]. unfold record_capture. apply wp_bind.
  eapply wp_mono.
  - apply (drain_capture_ends c header True (λ _ _, True) (λ _ _, I) H2 H3 H4 bound Hbound strict); [|exact Hw].
    apply Forall_forall. intros turn Ht Hs. destruct Hdec as [Hstrict|]; [left|by right].
    by apply (proj1 (Forall_forall _ _) (Hsamples Hstrict) turn Ht).
  - intros [] w1 [Hw1 Hp1]. eapply wp_mono.
    + apply (keeps_flushed_writes c header True (λ _ _, True) bound strict); [|exact Hw1|exact Hp1].
      unfold last_sample. destruct (_ || _); [|apply quiet_writes; quiet].
      by apply writes_memory_snapshot.
    + intros [] w2 (Hw2 & _ & Hp2). done.
    + done.
  - done.
Qed.

Lemma prepare_steady bound strict failures startup w1 : 0 ≤ bound →
  prepare c failures startup w0 = (Ok tt, w1) → steady_capture bound strict w1 ∧ cw_capture_begun w1 = true.
Proof.
  intros Hbound Hprep. destruct Hnew as [H1 H2 H3 H4 _ _ _ H6]. destruct (H6 bound strict Hbound) as [Hw0 Hp0].
  split; [|by apply (wp_returned _ _ _ _ _ _ (prepare_begins c failures startup w0) Hprep)].
  pose proof (keeps_flushed_prepare c header True (λ _ _, True) (λ _ _, I) H2 H3 H4 bound strict failures startup
    nothing_owed 0 w0 Hw0 Hp0) as H. by destruct (wp_returned _ _ _ _ _ _ H Hprep).
Qed.

(** The events of the run are counted. *)
Lemma capture_tallied failures startup run w1 w2 : prepare c failures startup w0 = (Ok tt, w1) →
  record_capture c run w1 = (Ok tt, w2) → tallied c (events_of run) w2.
Proof.
  destruct Hnew as [H1 _ _ _ H5 _ H7 _]. intros Hprep Hrun. destruct (rm_ids c H1) as [Hids _]. by eapply run_tallied.
Qed.

(** The sizes in the statistics are 64-bit numbers. *)
Lemma base_sizes w : base c header True (λ _ _, True) w → uncompressed_payload_bytes_written_ (cw_writer w) ≤ 2 ^ 63 →
  u64 (uncompressed_payload_bytes_written_ (cw_writer w)) ∧ u64 (stored_payload_bytes_written_ (cw_writer w)).
Proof.
  intros [_ _ _ _ (cs & tail & Hinv) Ho Hcalm] Hunc.
  pose proof (release_ready c (con_roomy _ _ _ _ Hnew) (con_options _ _ _ _ Hnew) header _ _ _ _ Hinv Ho (Hcalm I) Hunc) as Hready.
  apply (ready_u64 c _ (terminal_room c)) in Hready; [exact Hready|].
  rewrite terminal_room_value. pose proof (size_of_nonneg (cc_custom_definitions c)). lia.
Qed.

(** The whole chunks of a trace whose output never failed. *)
Lemma base_bytes w : base c header True (λ _ _, True) w →
  ∃ cs, out_bytes (output_ (cw_writer w)) = file_header_bytes header ++ concat (chunk_bytes <$> cs).
Proof.
  intros [_ _ _ _ (cs & tail & Hinv) _ Hcalm]. exists cs. rewrite (wi_bytes _ _ _ _ _ _ Hinv).
  rewrite (wi_good _ _ _ _ _ _ Hinv), app_nil_r; [done|]. by destruct (Hcalm I).
Qed.

Lemma thread_main_runs run w1 : cw_capture_begun w1 = true → 
  thread_main c run w1 = guarded c (run_tail_counters run) (capture_loop c run) w1.
Proof. intros Hb. unfold thread_main. erewrite proc_bind_run by done. by rewrite Hb. Qed.

Lemma guarded_throws answer p w e w' : p w = (Throw e, w') → guarded c answer p w = record_writer_error c answer e w'.
Proof. unfold guarded. by intros ->. Qed.

Lemma guarded_returns answer p w w' : p w = (Ok tt, w') → guarded c answer p w = (Ok tt, w').
Proof. unfold guarded. by intros ->. Qed.

End captures.

(** ** The theorems *)

(** A trace that was ended: whole chunks, of which the last are the statistics [s], if there
    are any, and the end record [e]. *)
Definition ended_trace (header : FileHeader) (c : CaptureConstants) (s : option CaptureStatistics) (e : EndOfTrace)
    (w : CaptureWriter) : Prop :=
  ∃ cs chs, final_chunks c s e chs ∧
    out_bytes (output_ (cw_writer w)) = file_header_bytes header ++ concat (chunk_bytes <$> cs ++ chs).

Section theorems.
Context {L : CompressionLibrary}.

Lemma ended_trace_bytes header c w losses s e w' : base c header True (λ _ _, True) w →
  ends_trace c (out_bytes (output_ (cw_writer w)) ++ concat (chunk_bytes <$> losses)) w s e w' →
  ended_trace header c s e w'.
Proof.
  intros Hbase He. destruct (base_bytes header c w Hbase) as [cs Hb].
  destruct (et_bytes _ _ _ _ _ _ He) as (chs & Hchs & Hb'). exists (cs ++ losses), chs.
  split; [done|]. by rewrite Hb', Hb, !fmap_app, !concat_app, <- !app_assoc.
Qed.

(** What the recording of a capture leaves for its end. *)
Lemma recorded_inv options header c w0 failures startup run w1 w2 : constructed options header c w0 →
  prepare c failures startup w0 = (Ok tt, w1) → record_capture c run w1 = (Ok tt, w2) →
  samples_after_flush run ∨ cw_file_limit_reached w2 = false → calls w2 < u64_max →
  base c header True (λ _ _, True) w2 ∧ balanced c nothing_owed (accounts w2) ∧ wired 0 (accounts w2) ∧
  orderly (accounts w2) (cw_file_limit_reached w2) ∧ cw_pending_event_count w2 = 0.
Proof.
  intros Hcon Hprep Hrun Hsamples Hcalls.
  assert (∃ strict : Prop, (strict ∨ ¬ strict) ∧ (strict → samples_after_flush run) ∧ (strict ∨ cw_file_limit_reached w2 = false))
    as (strict & Hdec & Hflush & Hlimit).
  { destruct Hsamples as [Hs|Hf]; [exists True|exists False]; tauto. }
  destruct (prepare_steady options header c w0 Hcon (u64_max - 1) strict failures startup w1 ltac:(done) Hprep) as [Hw1 _].
  pose proof (record_capture_ends options header c w0 Hcon (u64_max - 1) strict run w1 ltac:(done) Hflush Hdec Hw1) as Hends.
  destruct (wp_returned _ _ _ _ _ _ Hends Hrun) as [[Hbase Hbal Hwire Hord] Hp].
  split_and!; [done|done|apply Hwire; lia|apply Hord; [done|lia]|done].
Qed.

(** C1: The statistics of a capture reconcile.  A capture processed its events and flushed,
    on an output that accepts everything.  Every periodic sample was taken right after a
    flush, or the file limit was never reached.  The counters that the hooks give when the
    trace ends, if the runtime set a counter source, keep the hooks' own promise about a
    time when no hooked call runs: of each API, the recordable calls succeeded or failed,
    and were filtered, dropped because the queue was full, or are events of the run.  No
    64-bit count overflows, and at most 2^63 payload bytes are written before the end.
    Then the writer thread never fails to end the trace: it
    returns, the last two chunks of the file are the statistics and the end record of a
    normal stop, and the result is complete, or says that the file limit was reached.  The
    statistics of each API count every recordable call of its hook and every further
    record of the writer as successful or failed, and as filtered, written or dropped; the
    final sequence is the number of the records that were written or dropped by the
    writer.  No check of [finalize_trace] ("do not reconcile") fails, and the reserve is
    large enough. *)
Theorem capture_completes (output : ostream) (options : CaptureOptions) (process monotonic_now utc_now : Z)
    (c : CaptureConstants) (w0 w1 w2 : CaptureWriter) (failures : list CustomHookFailure)
    (startup : option (BufferConfiguration * Baseline * Baseline)) (run : CaptureRun) :
  let snapshots := counter_snapshots c (run_counters run) in
  let ids := counter_api_ids c in
  CaptureOptions_wt options → u64 monotonic_now → i64 utc_now → out_bytes output = [] → calm output →
  CaptureWriter_new output options process monotonic_now utc_now = Ok (c, w0) →
  prepare c failures startup w0 = (Ok tt, w1) → record_capture c run w1 = (Ok tt, w2) →
  samples_after_flush run ∨ cw_file_limit_reached w2 = false →
  hooks_agree c snapshots (events_of run) →
  calls w2 < u64_max → calls w2 + sum_of (unqueued snapshots) ids ≤ u64_max →
  uncompressed_payload_bytes_written_ (cw_writer w2) ≤ 2 ^ 63 →
  ∃ w3 s e, thread_main c run w1 = (Ok tt, w3) ∧
    ended_trace (make_file_header (cc_options c) (cc_monotonic_origin c) utc_now) c (Some s) e w3 ∧
    (cr_statistics_written (cw_result w3) = true ∧ cr_end_of_trace_written (cw_result w3) = true) ∧
    cr_status (cw_result w3) = (if cw_file_limit_reached w2 then Capture_kFileLimit else Capture_kComplete) ∧
    cr_error (cw_result w3) = None ∧ cr_statistics (cw_result w3) = Some s ∧
    per_api s = summaries snapshots ids w2 ∧
    Forall (λ a, calls_of a = ac_written a + ac_trace_dropped a) (cw_api_counters w2) ∧
    observed_calls s = final_sequence e + sum_of (unqueued snapshots) ids ∧
    final_sequence e = cw_written_events w2 + cr_trace_dropped_events (cw_result w3) ∧
    normal_stop e = true ∧
    mask (aggregate_completeness e) = cr_completeness_mask (cw_result w3).
Proof.
  intros snapshots ids Hwt Hmono Hutc Hempty Hcalm Hnew Hprep Hrun Hsamples Hhooks Hcalls Hsum Hunc.
  pose proof (CaptureWriter_new_constructed _ _ _ _ _ _ _ Hwt Hmono Hutc Hempty Hcalm Hnew) as Hcon.
  destruct (recorded_inv _ _ _ _ _ _ _ _ _ Hcon Hprep Hrun Hsamples Hcalls) as (Hbase & Hbal & Hwire & Hord & Hp).
  pose proof (capture_tallied _ _ _ _ Hcon _ _ _ _ _ Hprep Hrun) as Htally.
  destruct (wp_never_throws _ _ _ (finalize_runs c (con_roomy _ _ _ _ Hcon) (con_options _ _ _ _ Hcon) _ _ _ _ w2
    Hbase Hbal Hord Hp Htally Hhooks Hsum Hunc))
    as ([] & w3 & Hfinal & losses & u & v & e & _ & He & Hnormal & Hstatus & Herror & Hmask & Hdrops).
  exists w3, (with_sizes u v (summary c snapshots w2)), e. split.
  { destruct (prepare_steady _ _ _ _ Hcon 0 False failures startup w1 ltac:(done) Hprep) as [_ Hbegun].
    rewrite thread_main_runs by done. apply guarded_returns. unfold capture_loop. by erewrite proc_bind_run by exact Hrun. }
  split; [by eapply ended_trace_bytes|]. destruct He as [_ _ [E3 E4] E5 E6].
  assert (Hset : Forall (λ a, calls_of a = ac_written a + ac_trace_dropped a) (cw_api_counters w2)).
  { apply Forall_lookup. intros i a Ha. destruct (settled_all c w2 Hbal Hp i a Ha) as (_ & -> & Hpa). unfold held_of. lia. }
  assert (Hfinal' : final_sequence e = calls w2).
  { rewrite E5. destruct Hwire as [W1 W2]. cbn in W1, W2. unfold calls. lia. }
  pose proof (balanced_weak _ _ _ Hbal) as Hweak.
  split_and!; try done.
  - rewrite Hfinal'. exact (hooks_observed c _ w2 Hweak _ Htally Hhooks).
  - pose proof (bal_written _ _ _ Hbal) as B1. pose proof (bal_dropped _ _ _ Hbal) as B2. cbn in B1, B2.
    rewrite Hfinal', Hdrops, B1, B2, <- total_plus. by apply total_ext.
Qed.

(** C2: A capture that fails still ends its trace.  Whatever is thrown while the writer
    thread processes the events of a capture, on an output that accepts everything and with
    at most 2^63 payload bytes written, the thread returns, the last chunk of the file is an end record that says the stop was
    abnormal, and the result is a writer error with what was thrown.  The chunk before it
    is the statistics that [make_error_statistics] makes of the answer of the counter
    source, exactly when it makes any and they are valid; otherwise no statistics are
    written, and the result says so.  They are made when for each API with a snapshot the
    recordable calls succeeded or failed and allow for what was written and filtered
    (without a counter source: always) and the sums do not overflow; then they account for
    every record: what was neither filtered nor written was dropped.  The bytes reserved
    for the end suffice even after a last chunk of four loss records. *)
Theorem failed_capture_ends (output : ostream) (options : CaptureOptions) (process monotonic_now utc_now : Z)
    (c : CaptureConstants) (w0 w1 w2 : CaptureWriter) (failures : list CustomHookFailure)
    (startup : option (BufferConfiguration * Baseline * Baseline)) (run : CaptureRun) (err : write_exn) :
  let answer := run_tail_counters run in
  let snapshots := counter_snapshots c answer in
  let header := make_file_header (cc_options c) (cc_monotonic_origin c) utc_now in
  CaptureOptions_wt options → u64 monotonic_now → i64 utc_now → out_bytes output = [] → calm output →
  CaptureWriter_new output options process monotonic_now utc_now = Ok (c, w0) →
  prepare c failures startup w0 = (Ok tt, w1) → record_capture c run w1 = (Throw err, w2) →
  uncompressed_payload_bytes_written_ (cw_writer w2) ≤ 2 ^ 63 →
  (∃ w3 e, thread_main c run w1 = (Ok tt, w3) ∧
    match tail_statistics c answer w2 with
    | Some s => ∃ u v, let s := with_sizes u v s in ended_trace header c (Some s) e w3 ∧
        cr_statistics (cw_result w3) = Some s ∧ cr_statistics_written (cw_result w3) = true
    | None => ended_trace header c None e w3 ∧
        cr_statistics (cw_result w3) = None ∧ cr_statistics_written (cw_result w3) = false
    end ∧
    cr_end_of_trace_written (cw_result w3) = true ∧
    cr_status (cw_result w3) = Capture_kWriterError ∧ cr_error (cw_result w3) = Some (failure_of err) ∧
    abnormal e ∧ final_sequence e = cw_last_wire_sequence w2 ∧
    mask (aggregate_completeness e) = cr_completeness_mask (cw_result w3)) ∧
  (tail_agrees c snapshots w2 → tail_statistics c answer w2 = Some (summary c snapshots w2)) ∧
  (co_counter_source options = false → calls w2 ≤ u64_max →
     tail_agrees c snapshots w2 ∧ observed_calls (summary c snapshots w2) = calls w2) ∧
  Forall (λ a, ac_written a + ac_trace_dropped a ≤ calls_of a) (cw_api_counters w2).
Proof.
  intros answer snapshots header Hwt Hmono Hutc Hempty Hcalm Hnew Hprep Hrun Hunc.
  pose proof (CaptureWriter_new_constructed _ _ _ _ _ _ _ Hwt Hmono Hutc Hempty Hcalm Hnew) as Hcon.
  destruct (prepare_steady options _ c w0 Hcon 0 False failures startup w1 ltac:(done) Hprep) as [Hw1 Hbegun].
  pose proof (record_capture_ends options _ c w0 Hcon 0 False run w1 ltac:(done) (λ f, match f with end) (or_intror (λ f, f)) Hw1) as Hends.
  pose proof (wp_threw _ _ _ _ _ _ Hends Hrun) as Hbroken. pose proof Hbroken as [Hbase Hweak].
  split; [|split_and!].
  - destruct (wp_never_throws _ _ _ (record_writer_error_ends c (con_roomy _ _ _ _ Hcon) (con_options _ _ _ _ Hcon) answer _ _ err w2
      Hbroken Hunc)) as ([] & w3 & Hfinal & losses & u & v & e & _ & He & Ha & Hmask & Hstatus & Herror).
    exists w3, e. split.
    { rewrite thread_main_runs by done. rewrite (guarded_throws c _ _ _ err w2); [done|].
      unfold capture_loop. by erewrite proc_throw_run by exact Hrun. }
    pose proof (ended_trace_bytes _ _ _ _ _ _ _ Hbase He) as Hended. destruct He as [_ _ [E3 E4] E5 E6].
    split; [|by split_and!]. destruct (tail_statistics c answer w2); [by exists u, v|done].
  - intros Hagree. destruct (base_sizes _ _ _ _ Hcon w2 Hbase Hunc).
    apply tail_statistics_agree; [apply (con_roomy _ _ _ _ Hcon)|done..].
  - intros Hnone Hcalls. assert (Hempty' : snapshots = []).
    { unfold snapshots, counter_snapshots. by rewrite (con_source _ _ _ _ Hcon), Hnone. }
    rewrite Hempty'. assert (Hsum : sum_of as_observed_calls (summaries [] (counter_api_ids c) w2) = calls w2).
    { apply sum_of_summaries; [done|]. symmetry. exact (weak_length _ _ Hweak). }
    split; [split; [done|by rewrite Hsum]|]. unfold summary. cbn -[sum_of]. by rewrite Hsum.
  - apply Forall_lookup. intros i a Haa. destruct (weak_apis _ _ Hweak i a Haa) as [Hcount Hheld].
    unfold counted, held_of in *. lia.
Qed.

End theorems.

(** ** Captures at concrete inputs *)

#[local] Existing Instance stored_library.

Definition example_output : ostream :=
  {| out_bytes := []; out_room := None; out_errno := 0; out_flush_fails := false; out_good := true |}.

Definition example_options : CaptureOptions :=
  {| co_trace := {| max_file_size := 2500; w_max_uncompressed_chunk_size := 16384;
                    w_max_stored_chunk_size := 17000; reserved_tail_size := 0; zstd_level := 1 |};
     co_compression := Codec_kNone;
     co_capture_scope := {| started_at_process_start := true; preexisting_allocations_unknown := false |};
     co_flush_interval := 1; co_memory_counters_interval := 0; co_memory_map_interval := 1;
     co_chunk_target_size := 4096; co_stack_dictionary_capacity := 2; co_maximum_record_size := 16384;
     co_session_id := zeros 16; co_monotonic_origin := 1; co_utc_origin_ns := 1; co_counter_source := true;
     co_custom_hooks := [] |}.

Definition example_stack : CapturedStack :=
  {| cs_frames := replicate 64 0; cs_frame_count := 0; cs_requested_depth := 0; cs_status := Captured_kDisabled |}.

Definition example_malloc (sequence ticks address : Z) : LinuxHeapEvent :=
  {| raw_queue_sequence := sequence; raw_monotonic_ticks := ticks; raw_thread_id := 7; raw_requested_address := 0;
     raw_requested_size := 8; raw_count := 0; raw_alignment := 0; raw_result_address := address; raw_address := 0;
     raw_protection := 0; raw_map_flags := 0; raw_section_handle := 0; raw_section_offset := 0;
     raw_completion_sequence := 0; raw_operation_result := 0; raw_api_id := kMallocApiId;
     raw_operation := Raw_kAllocate; raw_status := Raw_kSuccess; raw_stack := example_stack |}.

Definition example_region (i : Z) : MemoryMapRegion :=
  {| mr_base := i * 4096; mr_size := 4096; mr_state := Region_kCommit; mr_type := Region_kPrivate; mr_protect := 0 |}.

(** A map whose chunk the limit of the file leaves no room for. *)
Definition example_map : MemoryMap :=
  {| mm_monotonic_ticks := 0; mm_truncated := false; mm_committed_bytes := 60 * 4096; mm_reserved_bytes := 0;
     mm_free_bytes := 0; mm_largest_free_bytes := 0; mm_regions := example_region <$> seqZ 1 60 |}.

Definition example_sample (map : option MemoryMap) : MemorySample :=
  {| ms_now := 10; ms_counters := None; ms_categories := []; ms_map := map |}.

Definition example_round (events : list LinuxHeapEvent) : Round :=
  {| rd_modules := []; rd_events := events; rd_queue_drops := 0; rd_module_drops := 0 |}.

Definition example_turn (flush : bool) (events : list LinuxHeapEvent) : Turn :=
  {| tn_round := example_round events; tn_flush_due := flush; tn_counters_due := false; tn_map_due := true;
     tn_sample := example_sample (Some example_map) |}.

(** What the hook of malloc has counted; it has the other hooks count nothing. *)
Definition malloc_counters (recordable successful failed filtered dropped : Z) : list CounterSnapshot :=
  [{| sn_api_id := kMallocApiId; sn_recordable_calls := recordable; sn_successful_calls := successful;
      sn_failed_calls := failed; sn_filtered_calls := filtered; sn_dropped_events := dropped |}].

(** Calls before a sample, flushed or pending, and calls after it. *)
Definition example_run (flush : bool) (before after : list LinuxHeapEvent)
    (counters tail_counters : list CounterSnapshot) : CaptureRun :=
  {| run_initial := []; run_initial_drops := 0; run_turns := [example_turn flush before];
     run_stop := example_round after; run_last := example_round []; run_sample := example_sample None;
     run_counters := counters; run_tail_counters := tail_counters |}.

(** Of five calls, of which one failed, two were filtered and one found the queue full. *)
Definition two_calls (flush : bool) : CaptureRun :=
  example_run flush [example_malloc 1 5 4096] [example_malloc 2 6 8192] (malloc_counters 5 4 1 2 1) [].

(** The second event has the sequence of the first; then the hook of malloc counts
    [recordable] calls, of which two succeeded. *)
Definition repeated_call (recordable : Z) : CaptureRun :=
  example_run true [example_malloc 1 5 4096] [example_malloc 1 6 8192] [] (malloc_counters recordable 2 0 0 0).

Lemma example_options_wt : CaptureOptions_wt example_options.
Proof.
  unfold CaptureOptions_wt, TraceWriterOptions_wt, streamsize_max. cbn. split_and!; (done || word).
Qed.

Lemma example_hooks_agree c flush : co_counter_source (cc_options c) = true →
  hooks_agree c (counter_snapshots c (run_counters (two_calls flush))) (events_of (two_calls flush)).
Proof.
  intros Hsource id sn _. unfold counter_snapshots. rewrite Hsource. unfold find_snapshot, two_calls, malloc_counters, example_run.
  cbn -[Z.eqb]. destruct (Z.eqb_spec kMallocApiId id) as [<-|]; [|done]. intros [= <-].
  split; [unfold CounterSnapshot_wt; cbn; split_and!; word|]. split; [done|]. by vm_compute.
Qed.

Lemma capture_completes_witness : ∃ c w0 w1 w2 w3 s e,
  (CaptureWriter_new example_output example_options 7 1 1 = Ok (c, w0) ∧ prepare c [] None w0 = (Ok tt, w1) ∧
   record_capture c (two_calls true) w1 = (Ok tt, w2)) ∧
  thread_main c (two_calls true) w1 = (Ok tt, w3) ∧ cr_status (cw_result w3) = Capture_kFileLimit ∧
  cr_statistics (cw_result w3) = Some s ∧ observed_calls s = final_sequence e + 3.
Proof.
  let x := eval vm_compute in (CaptureWriter_new example_output example_options 7 1 1) in
  match x with Ok (?c, ?w0) =>
    let w1 := eval vm_compute in (prepare c [] None w0).2 in
    let w2 := eval vm_compute in (record_capture c (two_calls true) w1).2 in
    assert (H0 : CaptureWriter_new example_output example_options 7 1 1 = Ok (c, w0)) by (vm_compute; reflexivity);
    assert (H1 : prepare c [] None w0 = (Ok tt, w1)) by (vm_compute; reflexivity);
    assert (H2 : record_capture c (two_calls true) w1 = (Ok tt, w2)) by (vm_compute; reflexivity);
    assert (H3 : cw_file_limit_reached w2 = true) by reflexivity;
    assert (H4 : calls w2 < u64_max) by (vm_compute; reflexivity);
    assert (H5 : uncompressed_payload_bytes_written_ (cw_writer w2) ≤ 2 ^ 63) by (apply (bool_decide_unpack _); vm_compute; exact I);
    assert (H6 : calls w2 + sum_of (unqueued (counter_snapshots c (run_counters (two_calls true)))) (counter_api_ids c) ≤ u64_max)
      by (apply (bool_decide_unpack _); vm_compute; exact I);
    assert (H7 : sum_of (unqueued (counter_snapshots c (run_counters (two_calls true)))) (counter_api_ids c) = 3) by (vm_compute; reflexivity);
    exists c, w0, w1, w2
  end.
  match type of H1 with prepare ?c _ _ ?w0 = (_, ?w1) => match type of H2 with _ = (_, ?w2) =>
    destruct (capture_completes example_output example_options 7 1 1 c w0 w1 w2 [] None (two_calls true)
      example_options_wt ltac:(word) ltac:(word) eq_refl (conj eq_refl (conj eq_refl eq_refl)) H0 H1 H2
      ltac:(left; repeat constructor) (example_hooks_agree c true eq_refl) H4 H6 H5)
      as (w3 & s & e & E1 & _ & _ & E2 & _ & E3 & _ & _ & E4 & _)
  end end.
  rewrite H3 in E2. rewrite H7 in E4. exists w3, s, e.
  exact (conj (conj H0 (conj H1 H2)) (conj E1 (conj E2 (conj E3 E4)))).
Defined.

Lemma malloc_agrees id a : (id = kMallocApiId → ac_written a ≤ 2 + ac_extra_records a) →
  entry_agrees (malloc_counters 2 2 0 0 0) id a.
Proof.
  intros Ha sn. unfold find_snapshot, malloc_counters. cbn -[Z.eqb].
  destruct (Z.eqb_spec kMallocApiId id) as [<-|]; [|done]. intros [= <-]. specialize (Ha eq_refl).
  split; [unfold CounterSnapshot_wt; cbn; split_and!; word|]. cbn. lia.
Qed.

Lemma failed_capture_ends_witness : ∃ c w0 w1 w2 w3 s e err,
  (CaptureWriter_new example_output example_options 7 1 1 = Ok (c, w0) ∧ prepare c [] None w0 = (Ok tt, w1) ∧
   record_capture c (repeated_call 2) w1 = (Throw err, w2)) ∧
  thread_main c (repeated_call 2) w1 = (Ok tt, w3) ∧ cr_status (cw_result w3) = Capture_kWriterError ∧
  cr_statistics (cw_result w3) = Some s ∧ (observed_calls s = 2 ∧ dropped_events s = 1) ∧ abnormal e.
Proof.
  let x := eval vm_compute in (CaptureWriter_new example_output example_options 7 1 1) in
  match x with Ok (?c, ?w0) =>
    let w1 := eval vm_compute in (prepare c [] None w0).2 in
    let r := eval vm_compute in (record_capture c (repeated_call 2) w1) in
    match r with (Throw ?err, ?w2) =>
      assert (H0 : CaptureWriter_new example_output example_options 7 1 1 = Ok (c, w0)) by (vm_compute; reflexivity);
      assert (H1 : prepare c [] None w0 = (Ok tt, w1)) by (vm_compute; reflexivity);
      assert (H2 : record_capture c (repeated_call 2) w1 = (Throw err, w2)) by (vm_compute; reflexivity);
      assert (H5 : uncompressed_payload_bytes_written_ (cw_writer w2) ≤ 2 ^ 63) by (apply (bool_decide_unpack _); vm_compute; exact I);
      assert (H6 : tail_agrees c (counter_snapshots c (malloc_counters 2 2 0 0 0)) w2);
      [split; [|apply (bool_decide_unpack _); vm_compute; exact I]|exists c, w0, w1, w2]
    end
  end.
  { clear. intros i id a Hid Ha. apply malloc_agrees. intros ->.
    do 11 (destruct i as [|i]; [vm_compute in Hid; first [discriminate|vm_compute in Ha; injection Ha as <-; by vm_compute]|]).
    vm_compute in Hid. discriminate. }
  match type of H1 with prepare ?c _ _ ?w0 = (_, ?w1) => match type of H2 with _ = (Throw ?err, ?w2) =>
    destruct (failed_capture_ends example_output example_options 7 1 1 c w0 w1 w2 [] None (repeated_call 2) err
      example_options_wt ltac:(word) ltac:(word) eq_refl (conj eq_refl (conj eq_refl eq_refl)) H0 H1 H2 H5)
      as ((w3 & e & E1 & Hs & _ & E2 & _ & E5 & _) & Hagree & _);
    assert (E4 : observed_calls (summary c (counter_snapshots c (malloc_counters 2 2 0 0 0)) w2) = 2 ∧
      dropped_events (summary c (counter_snapshots c (malloc_counters 2 2 0 0 0)) w2) = 1) by (vm_compute; split; reflexivity);
    specialize (Hagree H6); rewrite Hagree in Hs; destruct Hs as (u & v & _ & E3 & _);
    exists w3, (with_sizes u v (summary c (counter_snapshots c (malloc_counters 2 2 0 0 0)) w2)), e, err
  end end.
  exact (conj (conj H0 (conj H1 H2)) (conj E1 (conj E2 (conj E3 (conj E4 E5))))).
Defined.

(** What [samples_after_flush] is for.  When the chunk of a sample reaches the file limit
    while an event is pending, the event after it is dropped first and the pending one
    later, so that the range of the dropped events is reversed: observing their loss
    throws, and a capture that only reached its limit ends as a writer error. *)
Definition capture_outcome (run : CaptureRun) : option (CaptureStatus * string * Span) :=
  match CaptureWriter_new example_output example_options 7 1 1 with
  | Ok (c, w0) =>
      match (prepare c [] None ;; thread_main c run) w0 with
      | (Ok _, w) => Some (cr_status (cw_result w), default EmptyString (wf_message <$> cr_error (cw_result w)),
                           cw_trace_drop_span w)
      | (Throw _, _) => None
      end
  | Throw _ => None
  end.

Example sample_at_limit_reverses_drops :
  capture_outcome (two_calls false) =
    Some (Capture_kWriterError, "loss sequence range is invalid",
          {| sp_sequence_begin := 2; sp_sequence_end := 1; sp_tick_begin := 6; sp_tick_end := 5 |}) ∧
  ((λ '(status, message, _), (status, message)) <$> capture_outcome (two_calls true)) =
    Some (Capture_kFileLimit, EmptyString).
Proof. by vm_compute. Qed.

(** What [failed_capture_ends] says of a counter source: the hooks still run when the
    writer thread fails.  A call that is counted as recordable, and not yet as successful
    or failed, makes [make_error_statistics] throw, and the trace ends without statistics. *)
Definition failed_outcome (run : CaptureRun) : option (CaptureStatus * option Z * bool * string) :=
  match CaptureWriter_new example_output example_options 7 1 1 with
  | Ok (c, w0) =>
      match (prepare c [] None ;; thread_main c run) w0 with
      | (Ok _, w) => let r := cw_result w in
          Some (cr_status r, observed_calls <$> cr_statistics r, cr_end_of_trace_written r, cr_tail_error_message r)
      | (Throw _, _) => None
      end
  | Throw _ => None
  end.

Example call_in_flight_loses_statistics :
  failed_outcome (repeated_call 2) = Some (Capture_kWriterError, Some 2, true, EmptyString) ∧
  failed_outcome (repeated_call 3) = Some (Capture_kWriterError, None, true, snapshot_unreconciled).
Proof. by vm_compute. Qed.
